(* ===== verification/_CoqProject ===== *)
-Q . S2P
Prelude.v
Program.v
FileStore.v
LifecycleModel.v
LifecycleTransition.v
LifecycleState.v
LifecycleRepository.v
LifecycleEvents.v
LifecycleSnapshot.v
LifecyclePorts.v
LifecycleFile.v
LifecycleMemory.v
LifecycleCoordinator.v
LifecycleDispatch.v
LifecycleGuarantees.v
ExecModel.v
ExecState.v
ExecInvariant.v
ExecRepository.v
ExecGuarantees.v
Threads.v
LifecycleApplication.v
ExecPorts.v
ExecMemory.v
ExecCoordinator.v
ExecConcurrency.v
ExecPoolGuarantees.v
ExecFile.v
GatewayModel.v
GatewayCapacity.v
GatewayLimiter.v
GatewayRevocations.v
GatewayConnect.v
GatewayProtocol.v
GatewayGuarantees.v
GatewayConnections.v
AdmissionJson.v
AdmissionGuard.v
AdmissionDecode.v
AdmissionModel.v
AdmissionGate.v
AdmissionAdmit.v
ProviderTransport.v
ProviderAdmission.v
SessionModel.v
SessionState.v
SessionInvariant.v
SessionGuarantees.v
SessionPorts.v
SessionFile.v
SessionVertical.v
SessionConcurrency.v
SessionPoolGuarantees.v
SessionReference.v
SessionHandoffs.v
ArtifactModel.v
ArtifactState.v
ArtifactInvariant.v
ArtifactGuarantees.v
ArtifactApplication.v
ArtifactConcurrency.v
ArtifactFile.v
ArtifactPoolGuarantees.v
ArtifactStager.v
Operations.v
ExecVertical.v
ExecVerticalConcurrency.v
ExecVerticalGuarantees.v
ExecVerticalViews.v
UsageStore.v
BrowserModel.v
BrowserState.v
BrowserVertical.v
BrowserFile.v
BrowserConcurrency.v
BrowserGuarantees.v
UsageApplication.v
UsageConcurrency.v
UsageGuarantees.v
UsageBrowser.v
