(* ===== verification/Prelude.v ===== *)
(** * Verification of the sandbox-runtime Provider core

    sandbox-runtime runs sandboxes on behalf of callers that may crash, retry,
    race with each other and lose answers.  A request passes through these parts:

    - the protected transport ([src/providerapi]) identifies the mTLS caller,
      reads the bearer token and the route, and admits the request through the
      admission gate ([src/provider/admission]), whose file guard consumes each
      mutation token once;
    - the lifecycle of sandboxes ([src/provider/lifecycle]): requests become
      accepted operations in a repository, a coordinator carries them out
      through a runtime driver and records what it observed;
    - the execution of processes ([src/provider/exec]): a request is reserved in
      a repository before the executor is called, the receipt is attached,
      and terminal evidence is stored, retained and expired;
    - terminal sessions ([src/provider/session], [src/provider/terminal]): an
      operation is reserved under the authority the lifecycle reports for its
      sandbox, a terminal is allocated, observed and handed off under an opaque
      reference ([src/provider/session/reference]), and closed;
    - artifact staging ([src/provider/artifact]): a request to keep an output of
      a sandbox is reserved under the sandbox's authority, a worker calls the
      stager once, and the evidence it returns is recorded and expires;
    - browser sessions ([src/provider/browser]): as terminal sessions, with a
      cancellation instead of a close, over a runtime that allocates browsers
      under the network policy of the sandbox;
    - operation views ([src/provider/operation]) and usage evidence
      ([src/provider/usage], [src/provider/browser/usage]): what the families of
      operations report, aggregated over families that exclude each other;
    - the runtime gateway ([src/gateway]) connects a client to a handoff, within
      capacity, until the grant expires or is revoked.

    They rely on the same defences: validation, idempotency keys with request
    digests, fencing tokens, generations, snapshots that are checked on load,
    and the rule that an outcome that was not observed is recorded as unknown.
    This development models that core and proves what these defences achieve.

    ** Files

    Shared:
    - [Prelude]: errors, results, times, machine integers, strings, sorted
      listings, maps loaded from lists, tactics and the hint database [go].
    - [Program]: programs over ports, their executions with crashes and
      interference ([exec]), the reasoning principle [safe], concrete runs
      ([interp]).
    - [Threads]: pools of concurrent programs, traces, rules that programs
      follow and what follows for every interleaving; programs over part of
      the ports of a larger one ([embed]).
    - [FileStore]: which system calls of a file repository fail, and the
      repositories that replace one snapshot file, with the laws
      ([LawfulLayout]) a repository shows to be durable.

    Lifecycle:
    - [LifecycleModel], [LifecycleTransition]: [lifecycle/model.go] and
      [lifecycle/transition.go].
    - [LifecycleState], [LifecycleEvents], [LifecycleSnapshot]: the state of
      [lifecycle/repository/state.go], its operations and invariant, the
      event log and its pages, [Export] and [Import].
    - [LifecycleRepository]: runs of the repository.
    - [LifecyclePorts], [LifecycleCoordinator]: the ports of the coordinator and
      all of [lifecycle/coordinator] as programs over them.
    - [LifecycleMemory], [LifecycleFile]: the adapters
      [lifecycle/repository/memory] (with [lifecycle/driver/fake]) and
      [lifecycle/repository/file].
    - [LifecycleDispatch], [LifecycleGuarantees]: the invariant of histories of
      coordinator calls and the guarantees read off it.
    - [LifecycleApplication]: [lifecycle/application], its callers, workers and
      lease sweeps at once, as an implementation of these histories.

    Execution:
    - [ExecModel]: [exec/model.go], [exec/result.go], [exec/ledger.go].
    - [ExecState], [ExecInvariant], [ExecRepository], [ExecGuarantees]: the state
      of [exec/repository/state.go], its invariant, its runs and snapshots, and
      their guarantees.
    - [ExecPorts], [ExecCoordinator]: [exec/port.go] with the repository
      interface, and [exec/coordinator].
    - [ExecMemory], [ExecFile]: the adapters [exec/repository/memory] and
      [exec/repository/file].
    - [ExecConcurrency], [ExecPoolGuarantees]: any number of coordinator calls at
      once, and their guarantees.
    - [ExecVertical]: [exec/application] over the coordinator;
      [ExecVerticalConcurrency], [ExecVerticalGuarantees], [ExecVerticalViews]:
      any number of its calls at once, their guarantees, and what they report.

    Gateway:
    - [GatewayModel], [GatewayCapacity], [GatewayLimiter], [GatewayRevocations]:
      [gateway/model.go], [capacity.go], [edge/limiter.go],
      [memory_revocation.go].
    - [GatewayConnect]: [gateway/application.go] as programs over the ports of
      [gateway/port.go]; [GatewayProtocol]: the abstract protocol of a
      connection; [GatewayGuarantees], [GatewayConnections]: that [Connect]
      implements it, and what follows.

    Admission and transport:
    - [AdmissionJson], [AdmissionDecode]: the strict JSON
      machines, base64url and closed documents.
    - [AdmissionModel], [AdmissionGate]: tokens, contexts, bindings, digests, keys
      and the gate of [provider/admission]; [AdmissionGuard]: the guard of
      [provider/admission/file]; [AdmissionAdmit]: their guarantees together.
    - [ProviderTransport], [ProviderAdmission]: [providerapi] from a request to an
      admitted dispatch, and its guarantees.

    Terminal sessions:
    - [SessionModel]: [session/model.go], [session/close.go],
      [terminal/model.go].
    - [SessionState], [SessionInvariant], [SessionGuarantees]: the state of
      [session/repository/state.go], its invariant, runs, snapshots.
    - [SessionPorts], [SessionVertical]: the ports and all of
      [session/application] as programs over them.
    - [SessionFile]: the adapters [session/repository/memory] and
      [session/repository/file].
    - [SessionConcurrency], [SessionPoolGuarantees]: any number of calls of the
      application at once, and their guarantees.
    - [SessionReference], [SessionHandoffs]: the records
      and the registry of [session/reference] with its adapters; registration,
      resolution, dialling and revocation among other callers.

    Artifacts:
    - [ArtifactModel]: [artifact/model.go]; [ArtifactState], [ArtifactInvariant],
      [ArtifactGuarantees]: the state of [artifact/repository/state.go], its
      invariant, runs and snapshots.
    - [ArtifactApplication]: the ports and all of
      [artifact/application] as programs over them, with the registry of
      worker goroutines.
    - [ArtifactFile]: the adapters [artifact/repository/memory] and [artifact/repository/file].
    - [ArtifactConcurrency], [ArtifactPoolGuarantees]: requests, workers, recovery
      and shutdown at once, and their guarantees.
    - [ArtifactStager]: [artifact/staging/stager.go] over a staging directory, and
      the application with this stager.

    Browser sessions:
    - [BrowserModel]: [browser/model.go]; [BrowserState]: the state of
      [browser/repository/state.go], its invariant, runs and snapshots.
    - [BrowserVertical]: [browser/port.go] and all of [browser/application] as
      programs over these ports; [BrowserFile]: the adapters
      [browser/repository/memory] and [browser/repository/file].
    - [BrowserConcurrency], [BrowserGuarantees]: any number of calls of the
      application at once, and their guarantees.

    Operations and usage:
    - [Operations]: the readers and the aggregator of [provider/operation].
    - [UsageStore]: [usage/model.go] and the stores [usage/memory] and
      [usage/repository/file]; [UsageApplication]: [usage/application] and
      [usage/port.go]; [UsageConcurrency], [UsageGuarantees]: usage readers and
      exec calls at once, and what the store then holds.
    - [UsageBrowser]: [browser/usage], and the usage surface that [cmd/serve.go]
      puts together.

    ** How code is modelled

    - A Go error is the list of sentinel errors it wraps ([goerr]); a function
      that returns a value or an error is a [result].  A method that returns a
      value together with an error is an [outcome], such as the exec
      repository's reservation, which is returned also when its write failed.
    - [time.Time] is a number of nanoseconds since Go's zero time; wall and
      monotonic readings and time zones are not distinguished, so
      [reflect.DeepEqual], [==] and [Equal] on times coincide.  [uint64] and
      [int64] arithmetic that can wrap is written with [u64] and [i64].
    - Strings are byte strings; string enumerations keep a constructor for any
      other value.  Regular expressions are boolean matchers.
    - Go maps are finite maps ([gmap]); loops over them are folds over their
      entries, and where the order of a loop could show, the comment at the
      definition says why it does not.  Values are immutable, so the code's
      deep copies are identities.
    - A mutation of a state record returns the next state; on an error the
      state is the one before the call, as in the code, which checks before it
      writes.
    - A method of a coordinator, application, gateway or registrar is a program
      over calls of its ports.  What a port may answer is a relation
      ([respond]): repositories answer as the state does, or fail without
      effect, or take effect and report a durability failure; drivers,
      executors, runtimes, clocks and contexts answer anything (the clock of
      [ExecPorts] is past zero).  A mutex shows in what others may do between
      two calls: under the lifecycle coordinator's they only reserve operations
      (the lock itself is a call in [LifecycleApplication]),
      under the registrar's they do not register; the exec coordinator and the
      session application have none and are verified for all interleavings, and
      so is the artifact application, of whose mutex no guarantee makes use.  A
      goroutine that a call starts is a thread of the pool from then on.
    - SHA-256, signatures, the time format and the JSON codec are parameters; the
      codec is assumed to decode what it encoded, for snapshots that JSON
      represents faithfully (times up to the year 9999).  The strict JSON
      checks of admission are modelled.

    ** What is shown

    - Lifecycle coordinator: a sandbox is created at most once
      ([create_at_most_once]), the runtime is changed only for an operation
      stored as running ([dispatch_only_when_running]), success is recorded
      only when confirmed by the driver or, for a lease renewal, of which the
      driver is not told, for a running operation ([success_is_confirmed]), a
      settled outcome is final; and a create that a newer token fenced out ends every
      later pass over pending operations with an error
      ([fenced_out_create_blocks_reconciliation]).  These are guarantees about
      histories, and every interleaving of the lifecycle application is one
      ([application_implements_histories]); closing it waits for its workers
      ([lifecycle_close_awaits_workers]).
    - Exec coordinator: an execution is started at most once
      ([started_at_most_once]), receipts and known outcomes on record were
      reported by the runtime ([outcomes_are_reported]), cancellation calls are
      backed by recorded intents, and a healthy start succeeds.
    - Exec application: an execution is started at most once and only for a
      sandbox reported ready ([executions_start_once_when_ready]), its outcome
      is backed by what was observed or by a failed start or reservation write
      ([recorded_outcomes_are_backed]), views agree with the record
      ([reported_views_are_on_record]); and a retry that finds an execution
      without its receipt abandons it ([racing_retry_abandons_execution]).
    - Admission: an admitted request is genuine, a mutation token is admitted at
      most once over crashes and restarts, fencing never regresses, the guard
      recovers while times can be encoded, and the strict JSON machine accepts
      exactly the token streams of one value within its bounds; the transport calls an application only for
      an authorised request ([served_requests_are_authorised]).
    - Gateway: [Connect] implements its protocol
      ([connect_implements_protocol]), so frames need authority; connections
      stay within capacity, revocations reach their watches, the limiter's
      bounds hold.
    - Session application: a terminal is allocated under one identity
      ([allocations_share_identity]), what is on record was reported
      ([session_evidence_is_reported]), removal is justified
      ([cleanup_is_justified]), a close that succeeded was confirmed
      ([close_success_is_confirmed]), and no interleaving panics.
    - Handoffs: one reference per operation ([registration_is_idempotent]),
      attachment only to the terminal of the succeeded session
      ([attachment_is_authorised]), never after a revocation
      ([revocation_is_final]).
    - Artifact application: the stager is called at most once per operation
      ([staged_at_most_once]), operations are accepted only for ready sandboxes
      ([accepted_for_ready_sandboxes]), a succeeded operation is backed by
      a call of the stager whose bytes passed every check and are stored
      ([succeeded_artifacts_were_checked]), workers are single and awaited by
      the shutdown, a healthy dispatch that ends in time succeeds; and recovery stops at an
      operation whose deadline passed ([expired_operation_stops_recovery]).
    - Browser application: browsers are allocated under one identity
      ([browser_allocations_share_identity]), removal is justified and precedes
      a recorded cancellation ([browser_cleanup_is_justified]); and a browser
      whose operation was settled before its receipt was stored is lost
      ([lost_browser_is_never_removed]).
    - Operations and usage: the aggregator of views answers exactly when one
      family knows the operation ([aggregated_views_are_unambiguous]); usage
      evidence is that of recorded results ([usage_agrees_with_executions]),
      stored evidence is kept ([stored_usage_is_kept]), browser usage is exact
      ([browser_usage_is_exact]), and stored evidence is served
      ([stored_evidence_is_served]).
    - Repositories: their invariants, fencing, generations, idempotency,
      permanence of evidence, the event log, snapshots and migrations, for the
      calls that the coordinators and applications make (events of recorded
      operations, acceptance times that are set, and the like); the in-memory and file adapters refine them, the latter under any failure of
      a system call ([file_repository_durable] and its siblings); and a session
      opened by a retry can never be closed
      ([retried_session_cannot_be_closed]).
    - State machines: operations settle, sandboxes stay valid and pass their
      milestones, termination is always possible, tokens and leases are bounded.

    ** Bounds and fuel

    Runs of the lifecycle repository are of fewer than 2^64 calls, so that event
    sequence numbers do not wrap.  [read_all] takes fuel; any fuel above the
    number of events behind the cursor suffices, and the theorem says that it
    ends.  [Connect] takes fuel for its loop over reconnects; its
    theorems ask for more fuel than the configured number of reconnects, which
    is what the loop uses.  The JSON machines take fuel twice the number of tokens and one, which
    is shown to be enough.  The
    loop of the lease worker is unrolled for any number of rounds, and the
    theorems are for every number.  Everything else is structurally recursive.

    ** What is not modelled

    The Docker drivers and networks, file locks, the HTTP serve functions and data transfer
    objects, the gateway's network and Redis adapters, the product control plane
    (SQL), the guest agent, configuration and tooling: their behaviour is that of
    services, processes and libraries outside the repository.  The handoff
    references of browser sessions and the desktop profile repeat the session
    logic that is modelled here over other drivers. *)

From stdpp Require Import base gmap strings list fin_maps sorting.
From Stdlib Require Import Ascii ZArith Lia.

Set Default Proof Using "Type".

(** ** Errors

    A Go error value is modelled by the list of sentinel errors it wraps, in
    the order of the [%w] verbs: [errors.Is e s] is membership.  Sentinels are
    grouped by the package that declares them. *)

Inductive lifecycle_sentinel :=
  | ErrInvalidIdentifier | ErrInvalidDigest | ErrInvalidSpec | ErrInvalidState
  | ErrInvalidTransition | ErrGenerationConflict | ErrStaleFencingToken
  | ErrDeadlineExpired | ErrInvalidDeadline | ErrInvalidLease
  | ErrTerminalOperation | ErrCancellationRequired.

Inductive repository_sentinel :=
  | ErrNotFound | ErrAlreadyExists | ErrConflict | ErrIdempotencyConflict
  | ErrCorrupt | ErrDurability | ErrClosed
  | ErrInvalidCursor | ErrCursorExpired | ErrCursorAhead.

Inductive coordinator_sentinel :=
  | ErrInvalidCoordinator | ErrUnknownRuntime | ErrRuntimeIsAbsent.

Inductive context_sentinel := Canceled | DeadlineExceeded.

(** Packages [provider/exec], [provider/exec/repository] and
    [provider/exec/coordinator]; names they share with the lifecycle packages
    carry the prefix [Exec]. *)
Inductive exec_sentinel :=
  | ErrInvalidRequest | ExecErrDeadlineExpired | ErrDispatchUnknown | ErrExecutionNotFound
  | ErrInvalidDispatch | ErrInvalidObservation | ErrInvalidResult | ErrInvalidCancellation
  | ExecErrInvalidCoordinator.

Inductive exec_repository_sentinel :=
  | ExecErrNotFound | ExecErrAlreadyExists | ExecErrConflict | ExecErrIdempotencyConflict
  | ErrPending | ErrExpired | ExecErrCorrupt | ExecErrDurability | ExecErrClosed.

(** [CursorBounds] is the payload of a [CursorError].  [SNamed] is an error
    variable of another package, by package and name.
    [ErrRuntimePanic] stands for an index or slice out of range; [ErrExternal]
    for an error created outside the modelled code (a runtime driver, the file
    system), identified by an arbitrary label. *)
Inductive sentinel :=
  | SLifecycle (e : lifecycle_sentinel)
  | SRepository (e : repository_sentinel)
  | SCoordinator (e : coordinator_sentinel)
  | SContext (e : context_sentinel)
  | SExec (e : exec_sentinel)
  | SExecRepository (e : exec_repository_sentinel)
  | SFakeDriver
  | CursorBounds (first latest : Z)
  | SNamed (package name : string)
  | ErrRuntimePanic
  | ErrExternal (label : string).

Coercion SLifecycle : lifecycle_sentinel >-> sentinel.
Coercion SRepository : repository_sentinel >-> sentinel.
Coercion SCoordinator : coordinator_sentinel >-> sentinel.
Coercion SContext : context_sentinel >-> sentinel.
Coercion SExec : exec_sentinel >-> sentinel.
Coercion SExecRepository : exec_repository_sentinel >-> sentinel.

#[export] Instance lifecycle_sentinel_eq_dec : EqDecision lifecycle_sentinel.
Proof. solve_decision. Defined.
#[export] Instance repository_sentinel_eq_dec : EqDecision repository_sentinel.
Proof. solve_decision. Defined.
#[export] Instance coordinator_sentinel_eq_dec : EqDecision coordinator_sentinel.
Proof. solve_decision. Defined.
#[export] Instance context_sentinel_eq_dec : EqDecision context_sentinel.
Proof. solve_decision. Defined.
#[export] Instance exec_sentinel_eq_dec : EqDecision exec_sentinel.
Proof. solve_decision. Defined.
#[export] Instance exec_repository_sentinel_eq_dec : EqDecision exec_repository_sentinel.
Proof. solve_decision. Defined.
#[export] Instance sentinel_eq_dec : EqDecision sentinel.
Proof. solve_decision. Defined.

Definition goerr := list sentinel.

(** [errors.Is] *)
Definition errors_is (e : goerr) (s : sentinel) : bool := bool_decide (s ∈ e).

(** ** Fallible computations *)

Inductive result (A : Type) :=
  | Ok (a : A)
  | Err (e : goerr).
Arguments Ok {A} a.
Arguments Err {A} e.

#[export] Instance result_eq_dec `{EqDecision A} : EqDecision (result A).
Proof. solve_decision. Defined.

#[export] Instance result_ret : MRet result := @Ok.
#[export] Instance result_bind : MBind result := λ A B f m,
  match m with Ok a => f a | Err e => Err e end.

(** [fmt.Errorf("%w: ...: %w", s, err)] *)
Definition wrap {A} (s : sentinel) (m : result A) : result A :=
  match m with Ok a => Ok a | Err e => Err (s :: e) end.

Definition is_ok {A} (m : result A) : bool :=
  match m with Ok _ => true | Err _ => false end.

Lemma is_ok_true {A} (m : result A) : is_ok m = true ↔ ∃ a, m = Ok a.
Proof. destruct m; cbn; naive_solver. Qed.

(** The loop [for _, x := range l { ...; if bad { return err } ... }]. *)
Fixpoint foldM {S A} (f : S → A → result S) (s : S) (l : list A) : result S :=
  match l with
  | [] => Ok s
  | x :: l => match f s x with Ok s' => foldM f s' l | Err e => Err e end
  end.

Section result_lemmas.
Context {A B : Type}.

Lemma bind_Ok (m : result A) (f : A → result B) b :
  m ≫= f = Ok b ↔ ∃ a, m = Ok a ∧ f a = Ok b.
Proof. destruct m; cbn; naive_solver. Qed.

Lemma bind_Err (m : result A) (f : A → result B) e :
  m ≫= f = Err e ↔ m = Err e ∨ ∃ a, m = Ok a ∧ f a = Err e.
Proof. destruct m; cbn; naive_solver. Qed.

Lemma wrap_Ok s (m : result A) a : wrap s m = Ok a ↔ m = Ok a.
Proof. destruct m; cbn; naive_solver. Qed.

Lemma guard_Ok P `{!Decision P} e (k : result A) a :
  (if decide P then Err e else k) = Ok a ↔ ¬ P ∧ k = Ok a.
Proof. case_decide; naive_solver. Qed.

Lemma foldM_app (f : B → A → result B) l1 l2 s :
  foldM f s (l1 ++ l2) = (foldM f s l1 ≫= λ s', foldM f s' l2).
Proof.
  revert s; induction l1 as [|x l1 IH]; intros s; [done|].
  cbn. by destruct (f s x) as [s'|e]; [apply IH|].
Qed.

(** Hoare rule for a loop: a fact about the processed prefix. *)
Lemma foldM_Ok (f : B → A → result B) (I : list A → B → Prop) l s :
  I [] s →
  (∀ done x todo s0, l = done ++ x :: todo → I done s0 →
     ∃ s1, f s0 x = Ok s1 ∧ I (done ++ [x]) s1) →
  ∃ s', foldM f s l = Ok s' ∧ I l s'.
Proof.
  intros H0 Hstep.
  cut (∀ todo done s0, l = done ++ todo → I done s0 →
         ∃ s', foldM f s0 todo = Ok s' ∧ I l s').
  { intros H; by apply (H l []). }
  induction todo as [|x todo IH]; intros don s0 Hl HI.
  - rewrite app_nil_r in Hl. subst. cbn. eauto.
  - destruct (Hstep don x todo s0 Hl HI) as (s1 & Hf & HI1).
    cbn. rewrite Hf. apply (IH (don ++ [x])); [|done].
    by rewrite <- app_assoc.
Qed.
End result_lemmas.

(** [inv_ok H] decomposes [H : prog = Ok v] along the binds, wraps and guards
    of [prog]. *)
Ltac inv_ok H :=
  lazymatch type of H with
  | (if decide _ then Err _ else _) = Ok _ =>
      let G := fresh "Hguard" in
      apply guard_Ok in H as [G H]; inv_ok H
  | mbind _ _ = Ok _ =>
      let x := fresh "x" in let K := fresh "Hstep" in
      apply bind_Ok in H as (x & K & H);
      inv_ok K; inv_ok H
  | wrap _ _ = Ok _ => apply wrap_Ok in H; inv_ok H
  | mret _ = Ok _ => unfold mret, result_ret in H; simplify_eq/=
  | Ok _ = Ok _ => first [injection H; clear H; intros; subst | clear H]
  | Err _ = Ok _ => discriminate H
  | _ => idtac
  end.

Lemma not_or_split (P Q : Prop) : ¬ (P ∨ Q) → ¬ P ∧ ¬ Q.
Proof. tauto. Qed.

Lemma not_and_elim (P Q : Prop) : ¬ (P ∧ Q) → P → ¬ Q.
Proof. tauto. Qed.

(** [nor H] splits a refused guard [H : ¬ (A ∨ B ∨ ...)] into its parts. *)
Ltac nor H :=
  lazymatch type of H with
  | ¬ (_ ∨ _) =>
      let G := fresh H in apply not_or_split in H as [G H]; nor G; nor H
  | _ => idtac
  end.

(** Boolean disequalities left by guards. *)
Ltac boolify :=
  repeat match goal with
  | H : ¬ (?b = false) |- _ => apply not_false_is_true in H
  | H : ¬ (?b = true) |- _ => apply not_true_is_false in H
  end.

Lemma unit_ok (m : result unit) : is_ok m = true ↔ m = Ok ().
Proof. destruct m as [[]|]; cbn; naive_solver. Qed.

(** [crack H] reads the guards that a successful check [H] passed. *)
Ltac split_guards :=
  repeat match goal with
  | K : ¬ (_ ∨ _) |- _ => apply not_or_split in K as [? ?]
  | K : ¬ ¬ _ |- _ => apply dec_stable in K
  | K : ¬ is_Some _ |- _ => apply eq_None_not_Some in K
  end; boolify;
  repeat match goal with K : is_ok _ = true |- _ => apply unit_ok in K end.
Ltac crack H := inv_ok H; split_guards.

(** ** Time, durations and machine integers

    A [time.Time] is the number of nanoseconds since Go's zero time (January 1,
    year 1, UTC), so that [IsZero] is equality with 0; monotonic readings and
    locations are not represented, so [==] and [Equal] coincide.  A
    [time.Duration] is an [int64] number of nanoseconds. *)

Definition Time := Z.
Definition IsZero (t : Time) : Prop := t = 0%Z.
Definition After (t u : Time) : Prop := (u < t)%Z.
Definition Before (t u : Time) : Prop := (t < u)%Z.

#[export] Instance IsZero_dec t : Decision (IsZero t).
Proof. unfold IsZero. apply _. Defined.
#[export] Instance After_dec t u : Decision (After t u).
Proof. unfold After. apply _. Defined.
#[export] Instance Before_dec t u : Decision (Before t u).
Proof. unfold Before. apply _. Defined.

(** Wrap-around of unsigned and two's complement signed 64-bit arithmetic. *)
Definition u64 (z : Z) : Z := z `mod` 2^64.
Definition i64 (z : Z) : Z := (z + 2^63) `mod` 2^64 - 2^63.
Definition u64_range (z : Z) : Prop := (0 ≤ z < 2^64)%Z.
Definition i64_range (z : Z) : Prop := (- 2^63 ≤ z < 2^63)%Z.

Definition Nanosecond : Z := 1.
Definition Second : Z := 1000000000.

(** [time.Duration(n) * time.Second] *)
Definition seconds (n : Z) : Z := i64 (n * Second).

(** [t.Sub(u)] saturates at the bounds of a duration. *)
Definition Sub (t u : Time) : Z := (Z.max (- 2^63) (Z.min (t - u) (2^63 - 1)))%Z.

Lemma u64_small z : u64_range z → u64 z = z.
Proof. intros [??]. unfold u64. apply Z.mod_small. lia. Qed.

Lemma u64_in_range z : u64_range (u64 z).
Proof. unfold u64, u64_range. apply Z.mod_pos_bound. lia. Qed.

Lemma i64_small z : i64_range z → i64 z = z.
Proof. intros [??]. unfold i64. rewrite Z.mod_small; lia. Qed.

(** The largest number of seconds whose duration does not overflow. *)
Lemma seconds_small n : (0 ≤ n ≤ 9223372036)%Z → seconds n = (n * Second)%Z.
Proof. intros ?. unfold seconds, Second. apply i64_small. unfold i64_range. lia. Qed.

(** ** Strings

    A Go string is a byte sequence; an [ascii] is a byte. *)

Definition byte (c : ascii) : N := N_of_ascii c.
Definition in_range (lo hi : N) (c : ascii) : bool := ((lo <=? byte c) && (byte c <=? hi))%N.
Definition is_upper := in_range 65 90.
Definition is_lower := in_range 97 122.
Definition is_digit := in_range 48 57.
Definition is_alnum (c : ascii) : bool := is_upper c || is_lower c || is_digit c.
Definition is_lower_hex (c : ascii) : bool := is_digit c || in_range 97 102 c.

Fixpoint one_of (set : string) (c : ascii) : bool :=
  match set with
  | EmptyString => false
  | String d set => bool_decide (c = d) || one_of set c
  end.

Fixpoint all_bytes (p : ascii → bool) (s : string) : bool :=
  match s with EmptyString => true | String c s => p c && all_bytes p s end.

(** The regular expression [^[first][rest]{0,max}$]. *)
Definition match_head_tail (first rest : ascii → bool) (max : nat) (s : string) : bool :=
  match s with
  | EmptyString => false
  | String c t => first c && all_bytes rest t && (String.length t <=? max)%nat
  end.

(** [cut_prefix p s] is the remainder of [s] after the literal prefix [p]. *)
Fixpoint cut_prefix (p s : string) : option string :=
  match p, s with
  | EmptyString, _ => Some s
  | String a p, String b s => if decide (a = b) then cut_prefix p s else None
  | String _ _, EmptyString => None
  end.

(** [strings.TrimSpace(s) == ""]: every rune of [s] is Unicode white space. *)
Definition space1 (c : ascii) : bool := in_range 9 13 c || in_range 32 32 c.
Definition space2 (c d : ascii) : bool :=
  in_range 194 194 c && (in_range 133 133 d || in_range 160 160 d).
Definition space3 (c d e : ascii) : bool :=
  (in_range 225 225 c && in_range 154 154 d && in_range 128 128 e)
  || (in_range 226 226 c && in_range 128 128 d
      && (in_range 128 138 e || in_range 168 169 e || in_range 175 175 e))
  || (in_range 226 226 c && in_range 129 129 d && in_range 159 159 e)
  || (in_range 227 227 c && in_range 128 128 d && in_range 128 128 e).

Fixpoint blank (s : string) : bool :=
  match s with
  | EmptyString => true
  | String c s1 =>
      if space1 c then blank s1 else
      match s1 with
      | EmptyString => false
      | String d s2 =>
          if space2 c d then blank s2 else
          match s2 with
          | EmptyString => false
          | String e s3 => if space3 c d e then blank s3 else false
          end
      end
  end.

(** [strings.TrimSpace] of a valid UTF-8 string. *)
Fixpoint trim_left (s : string) : string :=
  match s with
  | EmptyString => s
  | String c s1 =>
      if space1 c then trim_left s1 else
      match s1 with
      | EmptyString => s
      | String d s2 =>
          if space2 c d then trim_left s2 else
          match s2 with
          | EmptyString => s
          | String e s3 => if space3 c d e then trim_left s3 else s
          end
      end
  end.

Fixpoint trim_right (s : string) : string :=
  if blank s then EmptyString else
  match s with EmptyString => s | String c s => String c (trim_right s) end.

Definition TrimSpace (s : string) : string := trim_right (trim_left s).

(** [hex.EncodeToString] *)
Definition hex_digit (n : N) : ascii := ascii_of_N (if (n <? 10)%N then 48 + n else 87 + n)%N.
Fixpoint hex_encode (s : string) : string :=
  match s with
  | EmptyString => EmptyString
  | String c s => String (hex_digit (byte c / 16)%N) (String (hex_digit (byte c mod 16)%N) (hex_encode s))
  end.

(** [utf8.ValidString] and [utf8.RuneCountInString]: the number of runes of a
    valid UTF-8 string.  A lead byte fixes the range of the byte after it and
    the number of continuation bytes that follow. *)
Definition continuation (c : ascii) : bool := in_range 128 191 c.
Definition lead2 (c d : ascii) : bool := in_range 194 223 c && continuation d.
Definition lead3 (c d : ascii) : bool :=
  (in_range 224 224 c && in_range 160 191 d) || (in_range 225 236 c && continuation d)
  || (in_range 237 237 c && in_range 128 159 d) || (in_range 238 239 c && continuation d).
Definition lead4 (c d : ascii) : bool :=
  (in_range 240 240 c && in_range 144 191 d) || (in_range 241 243 c && continuation d)
  || (in_range 244 244 c && in_range 128 143 d).

Fixpoint utf8_count (s : string) : option nat :=
  match s with
  | EmptyString => Some 0
  | String c s1 =>
      if in_range 0 127 c then S <$> utf8_count s1 else
      match s1 with
      | EmptyString => None
      | String d s2 =>
          if lead2 c d then S <$> utf8_count s2 else
          match s2 with
          | EmptyString => None
          | String e s3 =>
              if lead3 c d && continuation e then S <$> utf8_count s3 else
              match s3 with
              | EmptyString => None
              | String f s4 =>
                  if lead4 c d && continuation e && continuation f then S <$> utf8_count s4 else None
              end
          end
      end
  end.

Definition validBoundedString (value : string) (minimum maximum : nat) : bool :=
  match utf8_count value with
  | Some count => (minimum <=? count)%nat && (count <=? maximum)%nat
  | None => false
  end.

(** A bounded text with at least one rune. *)
Lemma bounded_nonempty s n : validBoundedString s 1 n = true → s ≠ ""%string.
Proof. by intros ? ->. Qed.

(** The byte 0 that separates the parts of a composite key. *)
Definition NUL : ascii := "000"%char.

Lemma all_bytes_app p s t : all_bytes p (s +:+ t) = all_bytes p s && all_bytes p t.
Proof.
  induction s as [|c s IH]; [done|].
  change (p c && all_bytes p (s +:+ t) = p c && all_bytes p s && all_bytes p t).
  by rewrite IH, andb_assoc.
Qed.

Lemma match_head_tail_nonempty f r n s : match_head_tail f r n s = true → s ≠ ""%string.
Proof. by destruct s. Qed.

Lemma match_head_tail_length f r n s :
  match_head_tail f r n s = true → (1 ≤ String.length s ≤ S n)%nat.
Proof.
  destruct s as [|c s]; [done|]. cbn.
  rewrite !andb_true_iff. intros [_ H]. apply Nat.leb_le in H. lia.
Qed.

(** Hexadecimal digits, two for each byte. *)
Lemma hex_encode_valid s n :
  String.length s = n → String.length (hex_encode s) = (n + n)%nat ∧ all_bytes is_lower_hex (hex_encode s) = true.
Proof using.
  revert n. induction s as [|c s IH]; intros n <-; [done|]. cbn [hex_encode String.length all_bytes].
  destruct (IH _ eq_refl) as [-> ->]. split; [lia|].
  assert (∀ x : N, (x < 16)%N → is_lower_hex (hex_digit x) = true) as Hd.
  { intros x Hx. destruct x as [|p]; [done|]. do 4 (destruct p as [p|p|]; try done; try lia). }
  rewrite !Hd; [done|apply N.mod_lt; lia|].
  pose proof (N_ascii_bounded c). apply N.Div0.div_lt_upper_bound. unfold byte. lia.
Qed.

(** A separator that occurs in neither left part makes concatenation injective. *)
Lemma append_sep_inj (p : ascii → bool) c (a1 a2 b1 b2 : string) :
  all_bytes p a1 = true → all_bytes p a2 = true → p c = false →
  (a1 +:+ String c b1 = a2 +:+ String c b2)%string → a1 = a2 ∧ b1 = b2.
Proof.
  revert a2. induction a1 as [|x a1 IH]; intros [|y a2]; cbn; intros H1 H2 Hc Heq.
  - by simplify_eq.
  - simplify_eq. by rewrite Hc in H2.
  - simplify_eq. by rewrite Hc in H1.
  - injection Heq as -> Heq. apply andb_true_iff in H1 as [_ H1], H2 as [_ H2].
    by destruct (IH a2 H1 H2 Hc Heq) as [-> ->].
Qed.

(** ** Lists keyed by strings

    [sort.Slice(l, func(i, j) { return key(l[i]) < key(l[j]) })] *)

Definition key_le {A} (key : A → string) (x y : A) : Prop := String.le (key x) (key y).
#[export] Instance key_le_dec {A} (key : A → string) x y : Decision (key_le key x y).
Proof. unfold key_le. apply _. Defined.
Definition sort_by {A} (key : A → string) (l : list A) : list A := merge_sort (key_le key) l.

Lemma sort_by_perm {A} (key : A → string) l : sort_by key l ≡ₚ l.
Proof. apply merge_sort_Permutation. Qed.

#[export] Instance key_le_total {A} (key : A → string) : Total (key_le key).
Proof. intros x y. unfold key_le. apply total, _. Qed.
#[export] Instance key_le_trans {A} (key : A → string) : Transitive (key_le key).
Proof. intros x y z. unfold key_le. apply transitivity. Qed.

Lemma sort_by_sorted {A} (key : A → string) l : StronglySorted (key_le key) (sort_by key l).
Proof. apply StronglySorted_merge_sort; apply _. Qed.

(** Lookup with the zero value of the element type, [m[k]]. *)
Definition get_or {A} (d : A) (m : gmap string A) (k : string) : A := default d (m !! k).

Lemma get_or_Some {A} (d : A) m k v : m !! k = Some v → get_or d m k = v.
Proof. unfold get_or. by intros ->. Qed.

Lemma get_or_insert {A} (d : A) m k v : get_or d (<[k:=v]> m) k = v.
Proof. unfold get_or. by rewrite lookup_insert_eq. Qed.

Lemma get_or_insert_ne {A} (d : A) m k k' v :
  k ≠ k' → get_or d (<[k:=v]> m) k' = get_or d m k'.
Proof. intros. unfold get_or. by rewrite lookup_insert_ne. Qed.

(** Insertion keeps the keys present. *)
Lemma insert_is_Some {A} (m : gmap string A) k k' (v : A) :
  is_Some (m !! k') → is_Some (<[k:=v]> m !! k').
Proof. intros. rewrite lookup_insert. case_decide; eauto. Qed.

Lemma insert_eq_is_Some {A} (m : gmap string A) k (v : A) : is_Some (<[k:=v]> m !! k).
Proof. rewrite lookup_insert_eq. eauto. Qed.

(** [ins_inv H] splits [H : <[k:=v]> m !! k' = Some x] on [k = k']. *)
Ltac ins_inv H :=
  apply lookup_insert_Some in H as [[? ?]|[? H]]; [subst|].

(** ** Loading keyed records into a map *)

(** [m[key(x)] = val(x)], refused when [x] does not pass [check] or the key is
    already present. *)
Definition load_one {A B} (e : goerr) (key : A → string) (val : A → B) (check : A → result unit)
    (m : gmap string B) (x : A) : result (gmap string B) :=
  _ ← check x;
  if decide (is_Some (m !! key x)) then Err e else Ok (<[key x := val x]> m).

Section load.
Context {A B : Type} (e : goerr) (key : A → string) (val : A → B) (check : A → result unit).
Implicit Types (m : gmap string B) (l : list A).

(** Records that come from a map and that each step stores give that map back. *)
Lemma load_steps (f : gmap string B → A → result (gmap string B)) m l :
  (∀ m0 x, x ∈ l → m0 ⊆ m → m0 !! key x = None → f m0 x = Ok (<[key x := val x]> m0)) →
  (λ x, (key x, val x)) <$> l ≡ₚ map_to_list m →
  foldM f ∅ l = Ok m.
Proof.
  clear check. intros Hf Hp. pose (kv := λ x, (key x, val x)).
  assert (Hnd : NoDup (kv <$> l).*1) by (unfold kv; rewrite Hp; apply NoDup_fst_map_to_list).
  assert (Hm : list_to_map (kv <$> l) = m).
  { transitivity (list_to_map (map_to_list m) : gmap string B); [by apply list_to_map_proper|apply list_to_map_to_list]. }
  destruct (foldM_Ok f (λ pre m0, m0 = list_to_map (kv <$> pre)) l ∅) as (m' & Hm' & ->); [done| |by rewrite Hm', Hm].
  intros pre x post m0 -> ->. rewrite fmap_app in Hm, Hnd. pose proof Hnd as Hnd'. rewrite fmap_app in Hnd'.
  apply NoDup_app in Hnd' as (Hpre & Hnot & _).
  assert (Hfresh : key x ∉ (kv <$> pre).*1).
  { intros Hin. destruct (Hnot _ Hin). cbn. left. }
  eexists. split; [apply Hf|].
  - set_solver.
  - rewrite <- Hm, list_to_map_app. apply map_union_subseteq_l.
  - by apply not_elem_of_list_to_map_1.
  - rewrite fmap_app, (list_to_map_proper ((kv <$> pre) ++ (kv <$> [x])) ((kv <$> [x]) ++ (kv <$> pre)));
      [reflexivity| |by rewrite Permutation_app_comm].
    rewrite fmap_app. apply NoDup_app. split_and!; [done| |repeat constructor; set_solver].
    intros k Hk. cbn. intros ->%list_elem_of_singleton. done.
Qed.

Lemma load_of_map m l :
  Forall (λ x, check x = Ok ()) l →
  (λ x, (key x, val x)) <$> l ≡ₚ map_to_list m →
  foldM (load_one e key val check) ∅ l = Ok m.
Proof.
  intros Hc Hp. apply load_steps; [|done]. intros m0 x Hx _ Hnone. rewrite Forall_forall in Hc.
  unfold load_one. rewrite (Hc x Hx). cbn [mbind result_bind]. by rewrite Hnone, decide_False by (by intros [? ?]).
Qed.

(** Whatever is loaded passed the checks and sits under its key. *)
Lemma load_Ok m m0 l :
  foldM (load_one e key val check) m0 l = Ok m →
  (∀ k v, m !! k = Some v → m0 !! k = Some v ∨ ∃ x, x ∈ l ∧ check x = Ok () ∧ key x = k ∧ val x = v) ∧
  (∀ k, is_Some (m0 !! k) → is_Some (m !! k)) ∧ (∀ x, x ∈ l → m !! key x = Some (val x)) ∧
  (∀ k v, m0 !! k = Some v → m !! k = Some v).
Proof.
  revert m0. induction l as [|x l IH]; intros m0 H; cbn in H.
  { simplify_eq. split_and!; [by left|done|set_solver|done]. }
  destruct (load_one _ _ _ _ m0 x) as [m1|] eqn:E1; [|done].
  unfold load_one in E1. inv_ok E1. destruct x0.
  apply IH in H as (H1 & H2 & H3 & H4).
  split_and!.
  - intros k v Hk. destruct (H1 k v Hk) as [Hi|(y & ? & ? & ? & ?)].
    + ins_inv Hi; [right; exists x; set_solver|by left].
    + right. exists y. set_solver.
  - intros k Hk. apply H2. by apply insert_is_Some.
  - intros y [->|Hy]%elem_of_cons; [|by apply H3]. apply H4. by rewrite lookup_insert_eq.
  - intros k v Hk. apply H4. rewrite lookup_insert_ne; [done|]. intros <-. apply Hguard. eauto.
Qed.
End load.

(** A loop invariant read off a successful loop. *)
Lemma foldM_inv {S A} (f : S → A → result S) (I : S → Prop) l s s' :
  I s → (∀ s0 x s1, x ∈ l → I s0 → f s0 x = Ok s1 → I s1) → foldM f s l = Ok s' → I s'.
Proof.
  revert s. induction l as [|x l IH]; intros s H0 Hf H; cbn in H; [by simplify_eq|].
  destruct (f s x) as [s1|] eqn:E; [|done].
  apply (IH s1); [|set_solver|done]. eapply Hf; [left|done|done].
Qed.

(** A loop of checks that does not change anything. *)
Lemma foldM_checks {A} (f : A → result unit) l :
  foldM (λ _ x, f x) () l = Ok () ↔ ∀ x, x ∈ l → f x = Ok ().
Proof.
  induction l as [|x l IH]; cbn; [set_solver|]. destruct (f x) as [[]|] eqn:E.
  - rewrite IH. set_solver.
  - split; [done|]. intros H. specialize (H x). rewrite E in H. set_solver.
Qed.

(** Checking and converting every entry of a map, in any order. *)
Definition import_one {A B} (f : string → A → result B) (acc : gmap string B) (p : string * A)
    : result (gmap string B) :=
  b ← f p.1 p.2; Ok (<[p.1 := b]> acc).
Definition import_map {A B} (f : string → A → result B) (m : gmap string A) : result (gmap string B) :=
  foldM (import_one f) ∅ (map_to_list m).

Section import_map.
Context {A B : Type} (f : string → A → result B).

Lemma import_map_step (l : list (string * A)) (acc m' : gmap string B) :
  NoDup l.*1 → foldM (import_one f) acc l = Ok m' →
  ∀ k, (∃ a b, (k, a) ∈ l ∧ f k a = Ok b ∧ m' !! k = Some b) ∨ ((k ∉ (l.*1)) ∧ m' !! k = acc !! k).
Proof.
  revert acc. induction l as [|[k0 a0] l IH]; intros acc Hnd H k; cbn in H.
  { simplify_eq. right. split; [set_solver|done]. }
  unfold import_one at 1 in H. cbn in H. destruct (f k0 a0) as [b0|] eqn:E0; [|done]. cbn in H. apply NoDup_cons in Hnd as [Hk0 Hnd].
  destruct (IH _ Hnd H k) as [(a & b & ? & ? & ?)|[Hnot Heq]].
  - left. exists a, b. split; [by right|done].
  - destruct (decide (k = k0)) as [->|Hne].
    + left. exists a0, b0. rewrite Heq, lookup_insert_eq. split; [left|done].
    + right. rewrite Heq, lookup_insert_ne by done. set_solver.
Qed.

Lemma import_map_Ok m m' :
  import_map f m = Ok m' →
  ∀ k, match m !! k with
       | Some a => ∃ b, f k a = Ok b ∧ m' !! k = Some b
       | None => m' !! k = None
       end.
Proof.
  intros H k. unfold import_map in H.
  destruct (import_map_step _ _ _ (NoDup_fst_map_to_list m) H k) as [(a & b & Hin & Hf & Hk)|[Hnot Hk]].
  - apply elem_of_map_to_list in Hin. rewrite Hin. eauto.
  - destruct (m !! k) as [a|] eqn:E; [|by rewrite Hk, lookup_empty].
    destruct Hnot. apply list_elem_of_fmap. exists (k, a). by rewrite elem_of_map_to_list.
Qed.

(** Entries that pass unchanged give the map back. *)
Lemma import_map_total m m' :
  (∀ k a, m !! k = Some a → ∃ b, f k a = Ok b ∧ m' !! k = Some b) →
  (∀ k, m !! k = None → m' !! k = None) → import_map f m = Ok m'.
Proof.
  intros Hf Hn. destruct (foldM_Ok (import_one f) (λ _ _, True) (map_to_list m) ∅) as (m1 & H1 & _); [done| |].
  - intros pre [k a] post acc Hl _. destruct (Hf k a) as (b & Hb & _).
    { apply elem_of_map_to_list. rewrite Hl. set_solver. }
    unfold import_one. cbn. rewrite Hb. cbn. eauto.
  - unfold import_map. rewrite H1. f_equal. apply map_eq. intros k.
    pose proof (import_map_Ok m m1 H1 k) as Hk.
    destruct (m !! k) as [a|] eqn:E.
    + destruct Hk as (b & Hb & ->). destruct (Hf k a E) as (b' & Hb' & ->). congruence.
    + by rewrite Hk, Hn.
Qed.
End import_map.

(** The values of a map whose entries are stored under their own key. *)
Lemma keyed_values {A} (key : A → string) (m : gmap string A) (l : list A) :
  (∀ k v, m !! k = Some v → key v = k) → l ≡ₚ (map_to_list m).*2 →
  (λ v, (key v, v)) <$> l ≡ₚ map_to_list m.
Proof.
  intros Hk ->. rewrite <- list_fmap_compose.
  erewrite list_fmap_ext; [by rewrite list_fmap_id|]. intros i [k v] Hi. cbn.
  apply list_elem_of_lookup_2, elem_of_map_to_list in Hi. by rewrite (Hk k v).
Qed.

(** The listing of a map whose values carry their key. *)
Lemma export_listing {A} (key : A → string) (m : gmap string A) :
  (∀ k v, m !! k = Some v → key v = k) →
  (λ v, (key v, v)) <$> sort_by key (map_to_list m).*2 ≡ₚ map_to_list m.
Proof. intros Hk. apply keyed_values; [done|apply sort_by_perm]. Qed.

Lemma elem_of_listing {A} (key : A → string) (m : gmap string A) v :
  v ∈ sort_by key (map_to_list m).*2 → ∃ k, m !! k = Some v.
Proof.
  rewrite sort_by_perm, list_elem_of_fmap. intros ([k w] & -> & Hin%elem_of_map_to_list). eauto.
Qed.

(** The next guards let the entry pass. *)
Ltac pass := repeat first [rewrite decide_False by done | rewrite decide_False by (by intros [? ?]) | rewrite decide_False by naive_solver].

(** Filtering a list whose elements all pass. *)
Lemma filter_all {A} (P : A → Prop) `{!∀ x, Decision (P x)} (l : list A) :
  (∀ x, x ∈ l → P x) → filter P l = l.
Proof.
  induction l as [|x l IH]; intros Hx; [done|].
  rewrite filter_cons_True by (apply Hx; set_solver). f_equal. apply IH. set_solver.
Qed.

(** ** Hints *)

Create HintDb go.
#[export] Hint Resolve u64_in_range get_or_Some get_or_insert insert_is_Some insert_eq_is_Some : go.
