(* ===== verification/Program.v ===== *)
(** * Programs over ports

    A coordinator of the Provider works through ports: repositories, runtime
    drivers, a clock, the caller's context.  Its methods are modelled as
    programs over the calls of these ports, whatever the set of calls [E]: a
    finite tree that is either a result or a call and what follows each of its
    answers.  A program has two readings:
    - [exec]: what it may do when each call is answered as a relation [respond]
      on configurations allows, other callers change the configuration in
      between as [interfere] allows, and the process may stop at any call;
    - [interp]: its run under a concrete implementation of the ports.

    [safe] is the reasoning principle: an invariant that holds after every
    call of every execution. *)

From S2P Require Import Prelude.
From stdpp Require Import base list relations.

Inductive prog (E : Type → Type) (A : Type) :=
  | Ret (a : A)
  | Vis {X : Type} (e : E X) (k : X → prog E A).
Arguments Ret {E A} a.
Arguments Vis {E A X} e k.

Definition call {E X} (e : E X) : prog E X := Vis e Ret.

Fixpoint prog_bind_def {E A B} (f : A → prog E B) (p : prog E A) : prog E B :=
  match p with
  | Ret a => f a
  | Vis e k => Vis e (λ x, prog_bind_def f (k x))
  end.

#[export] Instance prog_ret {E} : MRet (prog E) := @Ret E.
#[export] Instance prog_bind {E} : MBind (prog E) := @prog_bind_def E.

(** ** Results and errors *)

(** The zero value of a Go type. *)
Class Zero (A : Type) := zero : A.
#[export] Instance zero_list {A} : Zero (list A) := [].

(** [(value, error)] *)
Definition outcome (A : Type) : Type := A * option goerr.

Definition fail {E A} `{!Zero A} (e : goerr) : prog E (outcome A) := Ret (zero, Some e).
Definition done_with {E A} (a : A) : prog E (outcome A) := Ret (a, None).

(** [x, err := m; if err != nil { return z(err) }; k] *)
Definition orelse {E A B} (m : prog E (result A)) (z : goerr → prog E B) (k : A → prog E B)
    : prog E B :=
  r ← m; match r with Ok a => k a | Err e => z e end.

Declare Scope program_scope.
Notation "x <~ m ; k" := (orelse m fail (λ x, k))
  (at level 20, m at level 100, k at level 200, only parsing) : program_scope.
Notation "m ;~ k" := (orelse m fail (λ _, k))
  (at level 100, k at level 200, right associativity, only parsing) : program_scope.

(** Returning what a port answered. *)
Definition pass {E A} `{!Zero A} (m : prog E (result A)) : prog E (outcome A) :=
  orelse m fail done_with.

(** ** Execution *)

Section semantics.
Context {E : Type → Type} {C : Type}.
Context (respond : ∀ X, E X → C → X → C → Prop) (interfere : C → C → Prop).

(** [exec p σ o σ']: [p] started in [σ] gets to [σ'], with a result or, when
    the process stopped before one, without. *)
Fixpoint exec {A} (p : prog E A) (σ : C) (o : option A) (σ' : C) : Prop :=
  match p with
  | Ret a => σ' = σ ∧ (o = Some a ∨ o = None)
  | Vis e k =>
      (σ' = σ ∧ o = None) ∨
      ∃ σ0 x σ1, rtc interfere σ σ0 ∧ respond _ e σ0 x σ1 ∧ exec (k x) σ1 o σ'
  end.

(** ** Reasoning about programs

    [safe I p Q σ]: from [σ], after every call of [p] the invariant [I]
    holds, and [Q] holds of the result. *)

Section logic.
Context (I : C → Prop).

Fixpoint safe {A} (p : prog E A) (Q : A → C → Prop) (σ : C) : Prop :=
  match p with
  | Ret a => Q a σ
  | Vis e k => ∀ σ0 x σ1, rtc interfere σ σ0 → respond _ e σ0 x σ1 → I σ1 ∧ safe (k x) Q σ1
  end.

Lemma safe_mono {A} (p : prog E A) (Q Q' : A → C → Prop) σ :
  (∀ a σ', Q a σ' → Q' a σ') → safe p Q σ → safe p Q' σ.
Proof using Type.
  intros HQ. revert σ. induction p as [a|X e k IH]; intros σ; cbn; [apply HQ|].
  intros H σ0 x σ1 Hi Hr. destruct (H σ0 x σ1 Hi Hr) as [? ?]. split; [done|]. by apply IH.
Qed.

Lemma safe_bind {A B} (p : prog E A) (f : A → prog E B) Q σ :
  safe p (λ a σ', safe (f a) Q σ') σ → safe (p ≫= f) Q σ.
Proof using Type.
  revert σ. induction p as [a|X e k IH]; intros σ; cbn; [done|].
  intros H σ0 x σ1 Hi Hr. destruct (H σ0 x σ1 Hi Hr) as [? ?]. split; [done|]. by apply IH.
Qed.

(** The invariant also holds where [p] ends. *)
Lemma safe_inv {A} (p : prog E A) Q σ :
  I σ → safe p Q σ → safe p (λ a σ', I σ' ∧ Q a σ') σ.
Proof using Type.
  revert σ. induction p as [a|X e k IH]; intros σ HI; cbn; [done|].
  intros H σ0 x σ1 Hi Hr. destruct (H σ0 x σ1 Hi Hr) as [? ?]. split; [done|]. by apply IH.
Qed.

Lemma safe_exec {A} (p : prog E A) Q σ o σ' :
  I σ → safe p Q σ → exec p σ o σ' → I σ' ∧ ∀ a, o = Some a → Q a σ'.
Proof using Type.
  revert σ. induction p as [a|X e k IH]; intros σ HI Hs; cbn in *.
  - intros [-> [-> | ->]]; (split; [done|]); naive_solver.
  - intros [[-> ->]|(σ0 & x & σ1 & Hi & Hr & Hx)]; [done|].
    destruct (Hs σ0 x σ1 Hi Hr) as [HI1 Hs1]. by apply (IH x σ1).
Qed.
End logic.

Lemma safe_weaken {A} (I J : C → Prop) (p : prog E A) (Q Q' : A → C → Prop) σ :
  (∀ σ, I σ → J σ) → (∀ a σ, Q a σ → Q' a σ) → safe I p Q σ → safe J p Q' σ.
Proof using Type.
  intros HIJ HQ. revert σ. induction p as [a|X e k IH]; intros σ; cbn; [apply HQ|].
  intros H σ0 x σ1 Hi Hr. destruct (H σ0 x σ1 Hi Hr) as [? ?]. split; [auto|]. by apply IH.
Qed.

Lemma safe_and {A} (I J : C → Prop) (p : prog E A) (Q Q' : A → C → Prop) σ :
  safe I p Q σ → safe J p Q' σ → safe (λ σ, I σ ∧ J σ) p (λ a σ, Q a σ ∧ Q' a σ) σ.
Proof using Type.
  revert σ. induction p as [a|X e k IH]; intros σ; cbn; [done|].
  intros H1 H2 σ0 x σ1 Hi Hr. destruct (H1 σ0 x σ1 Hi Hr), (H2 σ0 x σ1 Hi Hr). split; [done|]. by apply IH.
Qed.

(** ** Concrete runs *)

Section interp.
Context {W : Type} (h : ∀ X, E X → W → X * W).

Fixpoint interp {A} (p : prog E A) (w : W) : A * W :=
  match p with
  | Ret a => (a, w)
  | Vis e k => let '(x, w') := h _ e w in interp (k x) w'
  end.

(** A handler that answers as the ports allow runs programs as [exec] allows. *)
Lemma interp_exec {A} (abs : W → C) (p : prog E A) w :
  (∀ X (e : E X) w, respond _ e (abs w) (h X e w).1 (abs (h X e w).2)) →
  exec p (abs w) (Some (interp p w).1) (abs (interp p w).2).
Proof using Type.
  intros Hh. revert w. induction p as [a|X e k IH]; intros w; cbn; [auto|].
  destruct (h X e w) as [x w'] eqn:Eh. right.
  pose proof (Hh X e w) as Hr. rewrite Eh in Hr. cbn in Hr.
  exists (abs w), x, (abs w'). split; [constructor|]. split; [done|]. apply IH.
Qed.
End interp.
End semantics.
