(* ===== verification/FileStore.v ===== *)
(** * File stores

    The repositories of one controller process share one design: the whole state
    is exported to a snapshot, written to a temporary file that replaces the old
    one atomically, and rolled back in memory when the file was not replaced.
    [FileLayout] is what differs between them; which system calls fail is a
    parameter of each call ([OSFaults], [OpenFaults]); the JSON encoding is a
    parameter of the section.

    [LawfulLayout] is what a repository has to show: its snapshots load, for every
    state its invariant allows.  Then its file always holds the state in memory,
    and every call is answered as [file_answers] says. *)

From S2P Require Import Prelude.
From stdpp Require Import base strings list relations.
From Stdlib Require Import ZArith Lia.

Local Open Scope Z_scope.

(** * Faults of the file system

    The file repositories of the Provider (lifecycle, exec, sessions, handoff
    references) replace their file in a fixed sequence of system calls and
    context checks.  Which of them fail is a parameter of each
    write and of each opening. *)

(** Which steps of a write fail, in the order in which they are taken. *)
Record OSFaults := mkOSFaults {
  os_ctx_before_lock : option context_sentinel;
  os_ctx_locked : option context_sentinel;
  os_ctx_persist : option context_sentinel;
  os_mkdir : bool;
  os_createTemp : bool;
  os_chmod : bool;
  os_encode : bool;
  os_stat : bool;
  os_sync : bool;
  os_close : bool;
  os_ctx_rename : option context_sentinel;
  os_rename : bool;
  os_openDir : bool;
  os_syncDir : bool;
  os_closeDir : bool;
}.

(** No fault, and single faults. *)
Definition os_ok : OSFaults :=
  mkOSFaults None None None false false false false false false false None false false false false.
Definition os_rename_fails : OSFaults :=
  mkOSFaults None None None false false false false false false false None true false false false.
Definition os_syncDir_fails : OSFaults :=
  mkOSFaults None None None false false false false false false false None false false true false.

(** Which steps of opening fail; another process holding the lock is [of_lock]. *)
Record OpenFaults := mkOpenFaults {
  of_mkdir : bool;
  of_lock : bool;
  of_open : bool;
  of_stat : bool;
  of_irregular : bool;
}.

Definition of_ok : OpenFaults := mkOpenFaults false false false false false.

Record FileLayout (S P : Type) := mkFileLayout {
  fl_new : S;
  fl_Export : S → P;
  fl_Import : P → result S;
  fl_corrupt : sentinel;       (* a file that is not a snapshot *)
  fl_durability : sentinel;
  fl_closed : sentinel;
  fl_maxFileSize : Z;
  fl_name : string;
  fl_mkdir : bool;             (* [persist] creates the directory *)
  fl_recheck : bool;           (* [mutate] consults the context again under the lock *)
}.
Arguments mkFileLayout {S P}.
Arguments fl_new {S P}.
Arguments fl_Export {S P}.
Arguments fl_Import {S P}.
Arguments fl_corrupt {S P}.
Arguments fl_durability {S P}.
Arguments fl_closed {S P}.
Arguments fl_maxFileSize {S P}.
Arguments fl_name {S P}.
Arguments fl_mkdir {S P}.
Arguments fl_recheck {S P}.

Record FileStore (S bytes : Type) := mkFileStore { fs_state : S; fs_is_closed : bool; fs_disk : option bytes }.
Arguments mkFileStore {S bytes}.
Arguments fs_state {S bytes}.
Arguments fs_is_closed {S bytes}.
Arguments fs_disk {S bytes}.

Section store.
Context {S P bytes : Type} (L : FileLayout S P).
Context (encode : P → option bytes) (size : bytes → Z) (decode : bytes → option P).

(** ** Opening *)

(** [decode] is the strict decoding of one JSON value and the end of the file. *)
Definition store_load (faults : OpenFaults) (disk : option bytes) : result S :=
  match disk with
  | None => Ok (fl_new L)
  | Some b =>
      if of_open faults then Err [ErrExternal ("open " +:+ fl_name L)] else
      if of_stat faults then Err [ErrExternal ("stat " +:+ fl_name L)] else
      if decide (of_irregular faults = true ∨ size b > fl_maxFileSize L) then Err [fl_corrupt L] else
      match decode b with
      | None => Err [fl_corrupt L]
      | Some snapshot => fl_Import L snapshot
      end
  end.

Definition store_open (path : string) (faults : OpenFaults) (disk : option bytes) : result (FileStore S bytes) :=
  if decide (blank path = true) then Err [ErrExternal (fl_name L +:+ " path is required")] else
  if of_mkdir faults then Err [ErrExternal ("create directory of " +:+ fl_name L)] else
  if of_lock faults then Err [ErrExternal ("lock " +:+ fl_name L)] else
  state ← store_load faults disk; Ok (mkFileStore state false disk).

(** ** Writing *)

(** [persist] returns whether the file was replaced, and an error. *)
Definition store_persist (os : OSFaults) (r : FileStore S bytes) : bool * option goerr * FileStore S bytes :=
  let failed := (false, Some [fl_durability L], r) in
  match os_ctx_persist os with
  | Some c => (false, Some [c : sentinel], r)
  | None =>
  if (fl_mkdir L && os_mkdir os) || os_createTemp os || os_chmod os || os_encode os then failed else
  match encode (fl_Export L (fs_state r)) with
  | None => failed
  | Some b =>
  if os_stat os then failed else
  if decide (size b > fl_maxFileSize L) then failed else
  if os_sync os || os_close os then failed else
  match os_ctx_rename os with
  | Some c => (false, Some [c : sentinel], r)
  | None =>
  if os_rename os then failed else
  let r := mkFileStore (fs_state r) (fs_is_closed r) (Some b) in
  if os_openDir os then (true, Some [fl_durability L], r) else
  if os_syncDir os || os_closeDir os then (true, Some [fl_durability L], r) else
  (true, None, r)
  end end end.

Definition set_state (s : S) (r : FileStore S bytes) : FileStore S bytes := mkFileStore s (fs_is_closed r) (fs_disk r).

(** [_ = r.state.Import(previous)] when the file was not replaced. *)
Definition store_roll_back (committed : bool) (previous : P) (r : FileStore S bytes) : FileStore S bytes :=
  if committed then r else
  match fl_Import L previous with Ok p => set_state p r | Err _ => r end.

Definition store_mutate {X} (os : OSFaults) (mutation : S → result (X * S)) (r : FileStore S bytes) : result X * FileStore S bytes :=
  match os_ctx_before_lock os with
  | Some c => (Err [c : sentinel], r)
  | None =>
  if fs_is_closed r then (Err [fl_closed L], r) else
  match (if fl_recheck L then os_ctx_locked os else None) with
  | Some c => (Err [c : sentinel], r)
  | None =>
  let previous := fl_Export L (fs_state r) in
  match mutation (fs_state r) with
  | Err err => (Err err, r)
  | Ok (v, s) =>
      match store_persist os (set_state s r) with
      | (_, None, r') => (Ok v, r')
      | (committed, Some err, r') => (Err err, store_roll_back committed previous r')
      end
  end end end.

(** Methods that write consult the context themselves first ([entry]). *)
Definition store_write {X} (entry : option context_sentinel) (os : OSFaults) (mutation : S → result (X * S))
    (r : FileStore S bytes) : result X * FileStore S bytes :=
  match entry with Some c => (Err [c : sentinel], r) | None => store_mutate os mutation r end.

Definition store_read {X} (entry : option context_sentinel) (f : S → result X) (r : FileStore S bytes) : result X * FileStore S bytes :=
  match entry with
  | Some c => (Err [c : sentinel], r)
  | None => if fs_is_closed r then (Err [fl_closed L], r) else (f (fs_state r), r)
  end.

(** A read that may change the state, and then writes the file: [(value, changed)]
    and the next state. *)
Definition store_touch {X} (os : OSFaults) (f : S → result X * bool * S) (r : FileStore S bytes) : result X * FileStore S bytes :=
  match os_ctx_before_lock os with
  | Some c => (Err [c : sentinel], r)
  | None =>
  if fs_is_closed r then (Err [fl_closed L], r) else
  let previous := fl_Export L (fs_state r) in
  let '(x, changed, s) := f (fs_state r) in
  if changed : bool then
    match store_persist os (set_state s r) with
    | (_, None, r') => (x, r')
    | (committed, Some err, r') => (Err err, store_roll_back committed previous r')
    end
  else (x, set_state s r)
  end.

Definition store_close (r : FileStore S bytes) : FileStore S bytes := mkFileStore (fs_state r) true (fs_disk r).
Definition empty_store : FileStore S bytes := mkFileStore (fl_new L) false None.

(** ** What callers see *)

Definition file_error (e : goerr) : Prop :=
  e = [Canceled : sentinel] ∨ e = [DeadlineExceeded : sentinel] ∨ e = [fl_closed L] ∨ e = [fl_durability L].

(** A write takes effect, with its answer or a durability failure, or not. *)
Definition file_answers {X} (m : result (X * S)) (s : S) (x : result X) (s' : S) : Prop :=
  match m with
  | Ok (v, t) => (x = Ok v ∨ x = Err [fl_durability L]) ∧ s' = t
  | Err e => x = Err e ∧ s' = s
  end ∨ (s' = s ∧ ∃ e, file_error e ∧ x = Err e).

(** ** The laws of a repository *)

(** Snapshots that JSON represents faithfully decode to themselves. *)
Class LawfulLayout (wf : S → Prop) (faithful : P → Prop) : Prop := {
  layout_new : wf (fl_new L);
  layout_roundtrip s : wf s → fl_Import L (fl_Export L s) = Ok s;
  layout_json p b : faithful p → encode p = Some b → decode b = Some p;
}.

Context (wf : S → Prop) (faithful : P → Prop) {Hlaws : LawfulLayout wf faithful}.

(** A restart would load exactly the state in memory. *)
Definition durable (r : FileStore S bytes) : Prop := wf (fs_state r) ∧ store_load of_ok (fs_disk r) = Ok (fs_state r).

Lemma file_error_ctx (c : context_sentinel) : file_error [c : sentinel].
Proof using Type. unfold file_error. destruct c; auto. Qed.
Lemma file_error_durability : file_error [fl_durability L].
Proof using Type. unfold file_error. auto. Qed.
Lemma file_error_closed : file_error [fl_closed L].
Proof using Type. unfold file_error. auto. Qed.
#[local] Hint Resolve file_error_ctx file_error_durability file_error_closed : go.

Lemma store_persist_cases os r :
  wf (fs_state r) → faithful (fl_Export L (fs_state r)) →
  (∃ e, file_error e ∧ store_persist os r = (false, Some e, r)) ∨
  (∃ b err, store_persist os r = (true, err, mkFileStore (fs_state r) (fs_is_closed r) (Some b)) ∧
     (err = None ∨ err = Some [fl_durability L]) ∧ store_load of_ok (Some b) = Ok (fs_state r)).
Proof using Hlaws.
  intros Hwf Hf. unfold store_persist.
  destruct (os_ctx_persist os); [left; eauto with go|].
  destruct ((fl_mkdir L && os_mkdir os) || os_createTemp os || os_chmod os || os_encode os); [left; eauto with go|].
  destruct (encode _) as [b|] eqn:Eb; [|left; eauto with go]. destruct (os_stat os); [left; eauto with go|].
  case_decide as Hsize; [left; eauto with go|]. destruct (os_sync os || os_close os); [left; eauto with go|].
  destruct (os_ctx_rename os); [left; eauto with go|]. destruct (os_rename os); [left; eauto with go|].
  right. exists b. assert (Hload : store_load of_ok (Some b) = Ok (fs_state r)).
  { unfold store_load. cbn [of_open of_stat of_irregular of_ok]. rewrite decide_False by (intros [?|?]; done).
    by rewrite (layout_json _ _ Hf Eb), layout_roundtrip. }
  destruct (os_openDir os); [eauto|]. destruct (os_syncDir os || os_closeDir os); eauto.
Qed.

(** What a write may do next. *)
Definition admissible {X} (f : S → result (X * S)) (s : S) : Prop :=
  ∀ v t, f s = Ok (v, t) → wf t ∧ faithful (fl_Export L t).

Lemma store_mutate_spec {X} os (f : S → result (X * S)) r :
  durable r → admissible f (fs_state r) →
  durable (store_mutate os f r).2 ∧
  file_answers (f (fs_state r)) (fs_state r) (store_mutate os f r).1 (fs_state (store_mutate os f r).2).
Proof using Hlaws.
  intros Hok Hf. unfold store_mutate.
  assert (Hsame : ∀ e, file_error e → durable r ∧ file_answers (f (fs_state r)) (fs_state r) (Err e) (fs_state r))
    by (intros; split; [done|right; eauto]).
  destruct (os_ctx_before_lock os) as [c|]; [apply Hsame; auto with go|].
  destruct (fs_is_closed r) eqn:Ec; [apply Hsame; auto with go|].
  destruct (if fl_recheck L then _ else _) as [c|]; [apply Hsame; auto with go|].
  destruct (f (fs_state r)) as [[v t]|e] eqn:Ef; [|split; [done|by left]].
  destruct (Hf v t Ef) as [Ht Hfa]. destruct Hok as [Hwf Hload].
  destruct (store_persist_cases os (set_state t r) Ht Hfa) as [(e & He & ->)|(b & err & -> & Herr & Hb)].
  - cbn [store_roll_back]. rewrite layout_roundtrip by done. split; [done|]. right. eauto.
  - destruct Herr as [-> | ->]; (split; [done|]); left; auto.
Qed.

Lemma store_write_spec {X} entry os (f : S → result (X * S)) r :
  durable r → admissible f (fs_state r) →
  durable (store_write entry os f r).2 ∧
  file_answers (f (fs_state r)) (fs_state r) (store_write entry os f r).1 (fs_state (store_write entry os f r).2).
Proof using Hlaws.
  intros Hok Hf. unfold store_write. destruct entry as [c|]; [|by apply store_mutate_spec].
  split; [done|]. right. eauto with go.
Qed.

Lemma store_read_spec {X} entry (f : S → result X) r :
  (store_read entry f r).2 = r ∧
  ((store_read entry f r).1 = f (fs_state r) ∨ ∃ e, file_error e ∧ (store_read entry f r).1 = Err e).
Proof using Type. unfold store_read. destruct entry as [c|]; [eauto with go|]. destruct (fs_is_closed r); eauto with go. Qed.

(** The answers of a read that may write. *)
Definition touch_answers {X} (m : result X * bool * S) (s : S) (x : result X) (s' : S) : Prop :=
  ((x = m.1.1 ∨ x = Err [fl_durability L]) ∧ s' = m.2) ∨ (s' = s ∧ ∃ e, file_error e ∧ x = Err e).

Lemma store_touch_spec {X} os (f : S → result X * bool * S) r :
  durable r → wf (f (fs_state r)).2 → faithful (fl_Export L (f (fs_state r)).2) →
  ((f (fs_state r)).1.2 = false → (f (fs_state r)).2 = fs_state r) →
  durable (store_touch os f r).2 ∧ touch_answers (f (fs_state r)) (fs_state r) (store_touch os f r).1 (fs_state (store_touch os f r).2).
Proof using Hlaws.
  intros Hok Ht Hfa Hsame. unfold store_touch.
  assert (Hrefuse : ∀ e, file_error e → durable r ∧ touch_answers (f (fs_state r)) (fs_state r) (Err e) (fs_state r))
    by (intros; split; [done|right; eauto]).
  destruct (os_ctx_before_lock os) as [c|]; [apply Hrefuse; auto with go|].
  destruct (fs_is_closed r) eqn:Ec; [apply Hrefuse; auto with go|].
  destruct (f (fs_state r)) as [[x b] t] eqn:Ef. cbn in Ht, Hfa, Hsame. destruct b.
  - destruct Hok as [Hwf Hload].
    destruct (store_persist_cases os (set_state t r) Ht Hfa) as [(e & He & ->)|(d & err & -> & Herr & Hb)].
    + cbn [store_roll_back]. rewrite layout_roundtrip by done. split; [done|]. right. eauto.
    + destruct Herr as [-> | ->]; (split; [done|]); left; auto.
  - rewrite Hsame by done. split; [by destruct r|]. left. auto.
Qed.

Lemma file_answers_state {X} (m : result (X * S)) s x s' : file_answers m s x s' → s' = s ∨ ∃ v, m = Ok (v, s').
Proof using Type. intros [H|[-> _]]; [|by left]. destruct m as [[v t]|]; naive_solver. Qed.

(** ** Runs *)

(** A call that writes: the mutation and what may fail on the way. *)
Definition store_step (writes : ∀ X, (S → result (X * S)) → Prop) (r r' : FileStore S bytes) : Prop :=
  r' = store_close r ∨
  ∃ X (f : S → result (X * S)) entry os, writes X f ∧ admissible f (fs_state r) ∧ r' = (store_write entry os f r).2.

(** The states the repository's own writes reach. *)
Definition reachable_by (writes : ∀ X, (S → result (X * S)) → Prop) : S → Prop :=
  rtc (λ s s', ∃ X (f : S → result (X * S)) v, writes X f ∧ f s = Ok (v, s')) (fl_new L).

Lemma store_run writes r :
  rtc (store_step writes) empty_store r → durable r ∧ reachable_by writes (fs_state r).
Proof using Hlaws.
  revert r. apply rtc_ind_r; [split; [split; [apply layout_new|done]|constructor]|].
  intros r r' _ [-> | (X & f & entry & os & Hw & Ha & ->)] [Hok Hreach]; [done|].
  destruct (store_write_spec entry os f r Hok Ha) as [Hok' Hans]. split; [done|].
  destruct (file_answers_state _ _ _ _ Hans) as [-> | [v Hv]]; [done|]. eapply rtc_r; [done|]. eauto 10.
Qed.

Lemma store_reopens path r : blank path = false → durable r → store_open path of_ok (fs_disk r) = Ok (mkFileStore (fs_state r) false (fs_disk r)).
Proof using Type. intros Hp [_ Hload]. unfold store_open. by rewrite Hp, Hload. Qed.
End store.
