(* ===== verification/LifecycleModel.v ===== *)
(** * Lifecycle values: [provider/lifecycle/model.go]

    The data of the lifecycle package (sandboxes, operations, leases, events,
    requests) and the [Validate] functions that decide whether a value is well
    formed.  Go's string enumerations keep their invalid values: the last
    constructor of each type is a string outside the listed constants. *)

From S2P Require Import Prelude.
From stdpp Require Import base gmap strings list.
From Stdlib Require Import Ascii ZArith Lia.

Local Open Scope Z_scope.

(** ** Constants and patterns *)

Definition MaxIdentifierLength : nat := 200.
Definition MaxSlotKeyLength : nat := 128.
Definition BrowserRuntimeProfile : string := "sandbox-runtime-browser-v1".
Definition DesktopRuntimeProfile : string := "sandbox-runtime-desktop-v1".

Definition identifier_rest (c : ascii) : bool := is_alnum c || one_of "._:-" c.
Definition slot_first (c : ascii) : bool := is_lower c || is_digit c.
Definition slot_rest (c : ascii) : bool := slot_first c || one_of "/_-" c.

Definition identifierPattern : string → bool := match_head_tail is_alnum identifier_rest 199.
Definition slotKeyPattern : string → bool := match_head_tail slot_first slot_rest 127.
Definition digestPattern (s : string) : bool :=
  match cut_prefix "sha256:" s with
  | Some h => all_bytes is_lower_hex h && (String.length h =? 64)%nat
  | None => false
  end.

Definition ValidateIdentifier (value : string) : result unit :=
  if decide (identifierPattern value = false) then Err [ErrInvalidIdentifier : sentinel] else Ok ().

Definition ValidateSlotKey (value : string) : result unit :=
  if decide (slotKeyPattern value = false ∨ (MaxSlotKeyLength < String.length value)%nat)
  then Err [ErrInvalidIdentifier : sentinel] else Ok ().

Definition ValidateDigest (value : string) : result unit :=
  if decide (digestPattern value = false) then Err [ErrInvalidDigest : sentinel] else Ok ().

Definition ValidateDeadline (now deadline : Time) : result unit :=
  if decide (IsZero now ∨ IsZero deadline) then Err [ErrInvalidDeadline : sentinel] else
  if decide (¬ After deadline now) then Err [ErrDeadlineExpired : sentinel] else Ok ().

Definition CheckDeadline (now deadline : Time) : result unit := ValidateDeadline now deadline.

(** ** Enumerations *)

Inductive DesiredState :=
  | DesiredReady | DesiredSuspended | DesiredTerminated
  | DesiredOther (raw : string).

Inductive ObservedState :=
  | ObservedRequested | ObservedProvisioning | ObservedReady | ObservedSuspending
  | ObservedSuspended | ObservedResuming | ObservedTerminating | ObservedTerminated
  | ObservedExpired | ObservedFailed
  | ObservedOther (raw : string).

Inductive OperationType :=
  | OperationCreate | OperationExtendLease | OperationSuspend | OperationResume
  | OperationTerminate
  | OperationTypeOther (raw : string).

Inductive OperationState :=
  | OperationAccepted | OperationRunning | OperationSucceeded | OperationFailed
  | OperationCancelled | OperationOutcomeUnknown
  | OperationStateOther (raw : string).

Inductive FailureOutcome :=
  | FailureKnown | FailureUnknown
  | FailureOther (raw : string).

(** [NetworkUnset] is the empty string, which [NetworkPolicy.Validate] accepts. *)
Inductive NetworkMode :=
  | NetworkUnset | NetworkNone | NetworkRestricted
  | NetworkOther (raw : string).

#[export] Instance DesiredState_eq_dec : EqDecision DesiredState.
Proof. solve_decision. Defined.
#[export] Instance ObservedState_eq_dec : EqDecision ObservedState.
Proof. solve_decision. Defined.
#[export] Instance OperationType_eq_dec : EqDecision OperationType.
Proof. solve_decision. Defined.
#[export] Instance OperationState_eq_dec : EqDecision OperationState.
Proof. solve_decision. Defined.
#[export] Instance FailureOutcome_eq_dec : EqDecision FailureOutcome.
Proof. solve_decision. Defined.
#[export] Instance NetworkMode_eq_dec : EqDecision NetworkMode.
Proof. solve_decision. Defined.

Definition DesiredState_valid (s : DesiredState) : bool :=
  match s with DesiredOther _ => false | _ => true end.
Definition ObservedState_valid (s : ObservedState) : bool :=
  match s with ObservedOther _ => false | _ => true end.
Definition ObservedState_terminal (s : ObservedState) : bool :=
  match s with ObservedTerminated | ObservedExpired => true | _ => false end.
Definition OperationType_valid (t : OperationType) : bool :=
  match t with OperationTypeOther _ => false | _ => true end.
Definition OperationState_valid (s : OperationState) : bool :=
  match s with OperationStateOther _ => false | _ => true end.
Definition OperationState_terminal (s : OperationState) : bool :=
  match s with
  | OperationSucceeded | OperationFailed | OperationCancelled | OperationOutcomeUnknown => true
  | _ => false
  end.
Definition FailureOutcome_valid (o : FailureOutcome) : bool :=
  match o with FailureOther _ => false | _ => true end.

(** The string values of the enumerations that become event data. *)
Definition OperationState_string (s : OperationState) : string :=
  match s with
  | OperationAccepted => "accepted"
  | OperationRunning => "running"
  | OperationSucceeded => "succeeded"
  | OperationFailed => "failed"
  | OperationCancelled => "cancelled"
  | OperationOutcomeUnknown => "outcome_unknown"
  | OperationStateOther raw => raw
  end.
Definition ObservedState_string (s : ObservedState) : string :=
  match s with
  | ObservedRequested => "requested"
  | ObservedProvisioning => "provisioning"
  | ObservedReady => "ready"
  | ObservedSuspending => "suspending"
  | ObservedSuspended => "suspended"
  | ObservedResuming => "resuming"
  | ObservedTerminating => "terminating"
  | ObservedTerminated => "terminated"
  | ObservedExpired => "expired"
  | ObservedFailed => "failed"
  | ObservedOther raw => raw
  end.

(** ** Records *)

Record Failure := mkFailure {
  fl_Code : string;
  fl_Retryable : bool;
  fl_Outcome : FailureOutcome;
}.

Record Lease := mkLease {
  ls_SandboxID : string;
  ls_ExpiresAt : Time;
  ls_Generation : Z;
  ls_FencingToken : Z;
}.

Record Event := mkEvent {
  ev_ID : string;
  ev_SandboxID : string;
  ev_OperationID : string;
  ev_Sequence : Z;
  ev_Generation : Z;
  ev_FencingToken : Z;
  ev_Kind : string;
  ev_DataDigest : string;
  ev_OccurredAt : Time;
}.

Record NetworkPolicy := mkNetworkPolicy {
  np_Mode : NetworkMode;
  np_PolicyReference : string;
  np_EgressGatewayRequired : bool;
}.

Record SandboxSpec := mkSandboxSpec {
  sp_SandboxID : string;
  sp_TenantID : string;
  sp_WorkOrderID : string;
  sp_WorkspaceID : string;
  sp_ProviderRevisionID : string;
  sp_RuntimeProfile : string;
  sp_Network : NetworkPolicy;
  sp_SandboxSlotKey : string;
  sp_LeaseExpiresAt : Time;
}.

Record CreateRequest := mkCreateRequest {
  cr_OperationID : string;
  cr_AttemptID : string;
  cr_FencingToken : Z;
  cr_IdempotencyKey : string;
  cr_RequestDigest : string;
  cr_Deadline : Time;
  cr_Spec : SandboxSpec;
}.

Record MutationRequest := mkMutationRequest {
  mr_OperationID : string;
  mr_AttemptID : string;
  mr_FencingToken : Z;
  mr_IdempotencyKey : string;
  mr_RequestDigest : string;
  mr_Deadline : Time;
  mr_ExpectedGeneration : Z;
}.

(** The embedded [MutationRequest] of the three mutation bodies. *)
Record DesiredStateRequest := mkDesiredStateRequest {
  dr_Mutation : MutationRequest;
  dr_DesiredState : DesiredState;
}.
Record LeaseRequest := mkLeaseRequest {
  lr_Mutation : MutationRequest;
  lr_ExtendSeconds : Z;
}.
Record TerminateRequest := mkTerminateRequest {
  tr_Mutation : MutationRequest;
  tr_Reason : string;
}.

Record Sandbox := mkSandbox {
  sb_ID : string;
  sb_TenantID : string;
  sb_WorkOrderID : string;
  sb_WorkspaceID : string;
  sb_ProviderRevisionID : string;
  sb_RuntimeProfile : string;
  sb_Network : NetworkPolicy;
  sb_SandboxSlotKey : string;
  sb_DesiredState : DesiredState;
  sb_ObservedState : ObservedState;
  sb_Generation : Z;
  sb_ObservedGeneration : Z;
  sb_LeaseExpiresAt : Time;
  sb_CreatedAt : Time;
  sb_UpdatedAt : Time;
}.

Record Operation := mkOperation {
  op_ID : string;
  op_AttemptID : string;
  op_FencingToken : Z;
  op_SandboxID : string;
  op_Type : OperationType;
  op_State : OperationState;
  op_Deadline : Time;
  op_ObservedAt : Time;
  op_CancelRequested : bool;
  op_Failure : option Failure;
  op_IdempotencyKey : string;
  op_RequestDigest : string;
}.

#[export] Instance Failure_eq_dec : EqDecision Failure.
Proof. solve_decision. Defined.
#[export] Instance Lease_eq_dec : EqDecision Lease.
Proof. solve_decision. Defined.
#[export] Instance Event_eq_dec : EqDecision Event.
Proof. solve_decision. Defined.
#[export] Instance NetworkPolicy_eq_dec : EqDecision NetworkPolicy.
Proof. solve_decision. Defined.
#[export] Instance Sandbox_eq_dec : EqDecision Sandbox.
Proof. solve_decision. Defined.
#[export] Instance Operation_eq_dec : EqDecision Operation.
Proof. solve_decision. Defined.

(** Zero values, returned beside an error. *)
Definition zeroNetworkPolicy : NetworkPolicy := mkNetworkPolicy NetworkUnset "" false.
Definition zeroSandbox : Sandbox :=
  mkSandbox "" "" "" "" "" "" zeroNetworkPolicy "" (DesiredOther "") (ObservedOther "") 0 0 0 0 0.
Definition zeroOperation : Operation :=
  mkOperation "" "" 0 "" (OperationTypeOther "") (OperationStateOther "") 0 0 false None "" "".

(** Field assignments of a copied struct. *)
Definition sb_set_desired (d : DesiredState) (g : Z) (now : Time) (s : Sandbox) : Sandbox :=
  mkSandbox (sb_ID s) (sb_TenantID s) (sb_WorkOrderID s) (sb_WorkspaceID s)
    (sb_ProviderRevisionID s) (sb_RuntimeProfile s) (sb_Network s) (sb_SandboxSlotKey s)
    d (sb_ObservedState s) g (sb_ObservedGeneration s) (sb_LeaseExpiresAt s)
    (sb_CreatedAt s) now.
Definition sb_set_observed (o : ObservedState) (og : Z) (now : Time) (s : Sandbox) : Sandbox :=
  mkSandbox (sb_ID s) (sb_TenantID s) (sb_WorkOrderID s) (sb_WorkspaceID s)
    (sb_ProviderRevisionID s) (sb_RuntimeProfile s) (sb_Network s) (sb_SandboxSlotKey s)
    (sb_DesiredState s) o (sb_Generation s) og (sb_LeaseExpiresAt s)
    (sb_CreatedAt s) now.
Definition sb_set_lease (exp now : Time) (s : Sandbox) : Sandbox :=
  mkSandbox (sb_ID s) (sb_TenantID s) (sb_WorkOrderID s) (sb_WorkspaceID s)
    (sb_ProviderRevisionID s) (sb_RuntimeProfile s) (sb_Network s) (sb_SandboxSlotKey s)
    (sb_DesiredState s) (sb_ObservedState s) (sb_Generation s) (sb_ObservedGeneration s) exp
    (sb_CreatedAt s) now.
Definition op_set_state (st : OperationState) (now : Time) (f : option Failure) (o : Operation) : Operation :=
  mkOperation (op_ID o) (op_AttemptID o) (op_FencingToken o) (op_SandboxID o) (op_Type o)
    st (op_Deadline o) now (op_CancelRequested o) f (op_IdempotencyKey o) (op_RequestDigest o).
Definition op_set_cancel (now : Time) (o : Operation) : Operation :=
  mkOperation (op_ID o) (op_AttemptID o) (op_FencingToken o) (op_SandboxID o) (op_Type o)
    (op_State o) (op_Deadline o) now true (op_Failure o) (op_IdempotencyKey o) (op_RequestDigest o).
Definition ev_set_sequence (n : Z) (e : Event) : Event :=
  mkEvent (ev_ID e) (ev_SandboxID e) (ev_OperationID e) n (ev_Generation e) (ev_FencingToken e)
    (ev_Kind e) (ev_DataDigest e) (ev_OccurredAt e).

(** ** Validation *)

(** The loop over a map of named identifiers: every failing entry gives the
    same wrapped sentinels, so the iteration order is irrelevant. *)
Fixpoint validate_named_identifiers (values : list string) : result unit :=
  match values with
  | [] => Ok ()
  | value :: rest =>
      _ ← wrap ErrInvalidSpec (ValidateIdentifier value);
      validate_named_identifiers rest
  end.

Definition Lease_Validate (l : Lease) : result unit :=
  _ ← ValidateIdentifier (ls_SandboxID l);
  if decide (IsZero (ls_ExpiresAt l) ∨ ls_Generation l = 0 ∨ ls_FencingToken l = 0)
  then Err [ErrInvalidLease : sentinel] else Ok ().

Definition Event_Validate (e : Event) : result unit :=
  _ ← ValidateIdentifier (ev_ID e);
  _ ← ValidateIdentifier (ev_SandboxID e);
  _ ← ValidateIdentifier (ev_OperationID e);
  _ ← ValidateIdentifier (ev_Kind e);
  if decide (ev_Generation e = 0 ∨ ev_FencingToken e = 0 ∨ IsZero (ev_OccurredAt e))
  then Err [ErrInvalidSpec : sentinel] else
  if decide (ev_DataDigest e = "") then Ok () else ValidateDigest (ev_DataDigest e).

Definition NetworkPolicy_Validate (p : NetworkPolicy) (runtimeProfile : string) : result unit :=
  match np_Mode p with
  | NetworkUnset | NetworkNone =>
      if decide (np_PolicyReference p ≠ "" ∨ np_EgressGatewayRequired p = true
                 ∨ runtimeProfile = BrowserRuntimeProfile ∨ runtimeProfile = DesktopRuntimeProfile)
      then Err [ErrInvalidSpec : sentinel] else Ok ()
  | NetworkRestricted =>
      if decide ((runtimeProfile ≠ BrowserRuntimeProfile ∧ runtimeProfile ≠ DesktopRuntimeProfile)
                 ∨ np_EgressGatewayRequired p = false
                 ∨ is_ok (ValidateIdentifier (np_PolicyReference p)) = false)
      then Err [ErrInvalidSpec : sentinel] else Ok ()
  | NetworkOther _ => Err [ErrInvalidSpec : sentinel]
  end.

Definition SandboxSpec_Validate (s : SandboxSpec) (now : Time) : result unit :=
  if decide (IsZero now) then Err [ErrInvalidSpec : sentinel] else
  _ ← validate_named_identifiers
        [sp_SandboxID s; sp_TenantID s; sp_WorkOrderID s; sp_WorkspaceID s;
         sp_ProviderRevisionID s; sp_RuntimeProfile s];
  _ ← wrap ErrInvalidSpec (ValidateSlotKey (sp_SandboxSlotKey s));
  _ ← NetworkPolicy_Validate (sp_Network s) (sp_RuntimeProfile s);
  if decide (IsZero (sp_LeaseExpiresAt s) ∨ ¬ After (sp_LeaseExpiresAt s) now)
  then Err [ErrInvalidSpec : sentinel] else Ok ().

Definition MutationRequest_Validate (r : MutationRequest) (now : Time) : result unit :=
  _ ← wrap ErrInvalidSpec (ValidateIdentifier (mr_OperationID r));
  _ ← wrap ErrInvalidSpec (ValidateIdentifier (mr_AttemptID r));
  if decide (mr_FencingToken r = 0 ∨ mr_ExpectedGeneration r = 0)
  then Err [ErrInvalidSpec : sentinel] else
  if decide (blank (mr_IdempotencyKey r) = true
             ∨ (MaxIdentifierLength < String.length (mr_IdempotencyKey r))%nat)
  then Err [ErrInvalidSpec : sentinel] else
  _ ← wrap ErrInvalidSpec (ValidateDigest (mr_RequestDigest r));
  wrap ErrInvalidSpec (ValidateDeadline now (mr_Deadline r)).

Definition DesiredStateRequest_Validate (r : DesiredStateRequest) (now : Time) : result unit :=
  _ ← MutationRequest_Validate (dr_Mutation r) now;
  if decide (dr_DesiredState r ≠ DesiredReady ∧ dr_DesiredState r ≠ DesiredSuspended)
  then Err [ErrInvalidState : sentinel] else Ok ().

Definition LeaseRequest_Validate (r : LeaseRequest) (now : Time) (maxLeaseSeconds : Z) : result unit :=
  _ ← MutationRequest_Validate (lr_Mutation r) now;
  if decide (lr_ExtendSeconds r <= 0 ∨ maxLeaseSeconds <= 0 ∨ lr_ExtendSeconds r > maxLeaseSeconds)
  then Err [ErrInvalidLease : sentinel] else Ok ().

Definition TerminateRequest_Validate (r : TerminateRequest) (now : Time) : result unit :=
  _ ← MutationRequest_Validate (tr_Mutation r) now;
  if decide (blank (tr_Reason r) = true ∨ (256 < String.length (tr_Reason r))%nat)
  then Err [ErrInvalidSpec : sentinel] else Ok ().

Definition CreateRequest_Validate (r : CreateRequest) (now : Time) : result unit :=
  _ ← wrap ErrInvalidSpec (ValidateIdentifier (cr_OperationID r));
  _ ← wrap ErrInvalidSpec (ValidateIdentifier (cr_AttemptID r));
  if decide (cr_FencingToken r = 0) then Err [ErrInvalidSpec : sentinel] else
  if decide (blank (cr_IdempotencyKey r) = true
             ∨ (MaxIdentifierLength < String.length (cr_IdempotencyKey r))%nat)
  then Err [ErrInvalidSpec : sentinel] else
  _ ← wrap ErrInvalidSpec (ValidateDigest (cr_RequestDigest r));
  _ ← wrap ErrInvalidSpec (ValidateDeadline now (cr_Deadline r));
  SandboxSpec_Validate (cr_Spec r) now.

Definition Sandbox_Validate (s : Sandbox) : result unit :=
  _ ← validate_named_identifiers
        [sb_ID s; sb_TenantID s; sb_WorkOrderID s; sb_WorkspaceID s;
         sb_ProviderRevisionID s; sb_RuntimeProfile s];
  _ ← wrap ErrInvalidSpec (ValidateSlotKey (sb_SandboxSlotKey s));
  _ ← NetworkPolicy_Validate (sb_Network s) (sb_RuntimeProfile s);
  if decide (DesiredState_valid (sb_DesiredState s) = false
             ∨ ObservedState_valid (sb_ObservedState s) = false)
  then Err [ErrInvalidState : sentinel] else
  if decide (sb_Generation s = 0 ∨ sb_ObservedGeneration s > sb_Generation s)
  then Err [ErrGenerationConflict : sentinel] else
  if decide (IsZero (sb_LeaseExpiresAt s) ∨ IsZero (sb_CreatedAt s) ∨ IsZero (sb_UpdatedAt s))
  then Err [ErrInvalidSpec : sentinel] else
  if decide (Before (sb_UpdatedAt s) (sb_CreatedAt s)) then Err [ErrInvalidSpec : sentinel] else Ok ().

(** The failure carried by an operation, as [Operation.Validate] requires it. *)
Definition failure_outcome_is (f : option Failure) (o : FailureOutcome) : bool :=
  match f with Some f => bool_decide (fl_Outcome f = o) | None => false end.
Definition failure_malformed (f : option Failure) : bool :=
  match f with
  | Some f => negb (FailureOutcome_valid (fl_Outcome f)) || blank (fl_Code f)
              || (64 <? String.length (fl_Code f))%nat
  | None => false
  end.

Definition Operation_Validate (o : Operation) : result unit :=
  _ ← ValidateIdentifier (op_ID o);
  _ ← ValidateIdentifier (op_AttemptID o);
  _ ← ValidateIdentifier (op_SandboxID o);
  if decide (op_FencingToken o = 0 ∨ OperationType_valid (op_Type o) = false
             ∨ OperationState_valid (op_State o) = false
             ∨ IsZero (op_Deadline o) ∨ IsZero (op_ObservedAt o))
  then Err [ErrInvalidSpec : sentinel] else
  if decide (bool_decide (op_IdempotencyKey o = "") ≠ bool_decide (op_RequestDigest o = ""))
  then Err [ErrInvalidSpec : sentinel] else
  if decide (op_IdempotencyKey o ≠ ""
             ∧ (blank (op_IdempotencyKey o) = true
                ∨ (MaxIdentifierLength < String.length (op_IdempotencyKey o))%nat
                ∨ is_ok (ValidateDigest (op_RequestDigest o)) = false))
  then Err [ErrInvalidSpec : sentinel] else
  if decide (op_State o = OperationFailed ∧ failure_outcome_is (op_Failure o) FailureKnown = false)
  then Err [ErrInvalidSpec : sentinel] else
  if decide (op_State o = OperationOutcomeUnknown
             ∧ failure_outcome_is (op_Failure o) FailureUnknown = false)
  then Err [ErrInvalidSpec : sentinel] else
  if decide (failure_malformed (op_Failure o) = true)
  then Err [ErrInvalidSpec : sentinel] else
  if decide (is_Some (op_Failure o) ∧ op_State o ≠ OperationFailed
             ∧ op_State o ≠ OperationOutcomeUnknown)
  then Err [ErrInvalidSpec : sentinel] else Ok ().

#[global] Arguments identifierPattern : simpl never.
#[global] Arguments slotKeyPattern : simpl never.
#[global] Arguments digestPattern : simpl never.
#[global] Arguments ValidateIdentifier : simpl never.
#[global] Arguments ValidateSlotKey : simpl never.
#[global] Arguments ValidateDigest : simpl never.
#[global] Arguments ValidateDeadline : simpl never.
#[global] Arguments CheckDeadline : simpl never.
#[global] Arguments Lease_Validate : simpl never.
#[global] Arguments Event_Validate : simpl never.
#[global] Arguments NetworkPolicy_Validate : simpl never.
#[global] Arguments SandboxSpec_Validate : simpl never.
#[global] Arguments MutationRequest_Validate : simpl never.
#[global] Arguments DesiredStateRequest_Validate : simpl never.
#[global] Arguments LeaseRequest_Validate : simpl never.
#[global] Arguments TerminateRequest_Validate : simpl never.
#[global] Arguments CreateRequest_Validate : simpl never.
#[global] Arguments Sandbox_Validate : simpl never.
#[global] Arguments Operation_Validate : simpl never.

(** ** What validity means *)

(** The checks of [Sandbox.Validate] that concern the immutable identity. *)
Definition sandbox_identity_check (s : Sandbox) : result unit :=
  _ ← validate_named_identifiers
        [sb_ID s; sb_TenantID s; sb_WorkOrderID s; sb_WorkspaceID s;
         sb_ProviderRevisionID s; sb_RuntimeProfile s];
  _ ← wrap ErrInvalidSpec (ValidateSlotKey (sb_SandboxSlotKey s));
  NetworkPolicy_Validate (sb_Network s) (sb_RuntimeProfile s).

#[global] Arguments sandbox_identity_check : simpl never.

Lemma ValidateIdentifier_Ok v u : ValidateIdentifier v = Ok u ↔ identifierPattern v = true.
Proof.
  unfold ValidateIdentifier. rewrite guard_Ok, not_false_iff_true.
  destruct u. naive_solver.
Qed.

Lemma ValidateDigest_Ok v u : ValidateDigest v = Ok u ↔ digestPattern v = true.
Proof.
  unfold ValidateDigest. rewrite guard_Ok, not_false_iff_true.
  destruct u. naive_solver.
Qed.

Lemma ValidateDeadline_Ok now d u :
  ValidateDeadline now d = Ok u ↔ now ≠ 0 ∧ d ≠ 0 ∧ now < d.
Proof.
  unfold ValidateDeadline, IsZero, After. rewrite !guard_Ok. destruct u.
  split; [intros (?&?&_)|intros (?&?&?)]; repeat split; naive_solver lia.
Qed.

Lemma Sandbox_Validate_Ok s u :
  Sandbox_Validate s = Ok u ↔
  sandbox_identity_check s = Ok () ∧
  DesiredState_valid (sb_DesiredState s) = true ∧
  ObservedState_valid (sb_ObservedState s) = true ∧
  sb_Generation s ≠ 0 ∧ sb_ObservedGeneration s ≤ sb_Generation s ∧
  sb_LeaseExpiresAt s ≠ 0 ∧ sb_CreatedAt s ≠ 0 ∧ sb_UpdatedAt s ≠ 0 ∧
  sb_CreatedAt s ≤ sb_UpdatedAt s.
Proof.
  unfold Sandbox_Validate, sandbox_identity_check, IsZero, Before. split.
  - intros H. inv_ok H. rewrite Hstep. cbn. rewrite (proj2 (wrap_Ok _ _ _) Hstep0). cbn.
    rewrite Hstep1. destruct x1.
    rewrite <- !not_false_iff_true. naive_solver lia.
  - intros (Hid & Hrest). inv_ok Hid. rewrite Hstep. cbn.
    rewrite (proj2 (wrap_Ok _ _ _) Hstep0). cbn. rewrite Hid. cbn.
    rewrite !decide_False by naive_solver (congruence || lia). by destruct u.
Qed.

Lemma validate_named_identifiers_Ok l u :
  validate_named_identifiers l = Ok u → Forall (λ v, identifierPattern v = true) l.
Proof.
  revert u. induction l as [|v l IH]; intros u H; [constructor|].
  cbn in H. inv_ok H. constructor; [by apply ValidateIdentifier_Ok in Hstep|eauto].
Qed.

Lemma sandbox_identity_ids s :
  sandbox_identity_check s = Ok () →
  identifierPattern (sb_ID s) = true ∧ identifierPattern (sb_ProviderRevisionID s) = true.
Proof.
  unfold sandbox_identity_check. intros H. inv_ok H.
  apply validate_named_identifiers_Ok in Hstep.
  rewrite !Forall_cons in Hstep. naive_solver.
Qed.

Lemma Sandbox_Validate_ids s u :
  Sandbox_Validate s = Ok u →
  identifierPattern (sb_ID s) = true ∧ identifierPattern (sb_ProviderRevisionID s) = true.
Proof. intros [H _]%Sandbox_Validate_Ok. by apply sandbox_identity_ids. Qed.

(** Identifiers are non-empty and contain no separator byte. *)
Lemma identifierPattern_nonempty v : identifierPattern v = true → v ≠ "".
Proof. apply match_head_tail_nonempty. Qed.

Lemma identifierPattern_no_NUL v :
  identifierPattern v = true → all_bytes identifier_rest v = true.
Proof.
  destruct v as [|c v]; [done|]. unfold identifierPattern, match_head_tail. cbn [all_bytes].
  rewrite !andb_true_iff. intros [[Hc Hv] _]. split; [|done].
  unfold identifier_rest. by rewrite Hc.
Qed.

Lemma digestPattern_nonempty v : digestPattern v = true → v ≠ "".
Proof. by intros H ->. Qed.

Lemma blank_nonempty v : blank v = false → v ≠ "".
Proof. by intros H ->. Qed.

Lemma Lease_Validate_Ok l u :
  Lease_Validate l = Ok u ↔
  identifierPattern (ls_SandboxID l) = true ∧ ls_ExpiresAt l ≠ 0 ∧ ls_Generation l ≠ 0
  ∧ ls_FencingToken l ≠ 0.
Proof.
  unfold Lease_Validate, IsZero. rewrite bind_Ok.
  setoid_rewrite ValidateIdentifier_Ok. setoid_rewrite guard_Ok. destruct u.
  split; [intros (?&?&?&?)|intros (?&?&?&?); exists ()]; naive_solver.
Qed.

(** The part of [Operation.Validate] that does not depend on state, failure
    and observation time. *)
Definition operation_envelope_ok (o : Operation) : Prop :=
  identifierPattern (op_ID o) = true ∧ identifierPattern (op_AttemptID o) = true ∧
  identifierPattern (op_SandboxID o) = true ∧ op_FencingToken o ≠ 0 ∧
  OperationType_valid (op_Type o) = true ∧ op_Deadline o ≠ 0 ∧
  bool_decide (op_IdempotencyKey o = "") = bool_decide (op_RequestDigest o = "") ∧
  (op_IdempotencyKey o ≠ "" →
     blank (op_IdempotencyKey o) = false ∧
     (String.length (op_IdempotencyKey o) ≤ MaxIdentifierLength)%nat ∧
     digestPattern (op_RequestDigest o) = true).

(** The failure an operation in state [st] must carry. *)
Definition failure_matches (st : OperationState) (f : option Failure) : Prop :=
  failure_malformed f = false ∧
  match st with
  | OperationFailed => failure_outcome_is f FailureKnown = true
  | OperationOutcomeUnknown => failure_outcome_is f FailureUnknown = true
  | _ => f = None
  end.

Lemma Operation_Validate_Ok o u :
  Operation_Validate o = Ok u ↔
  operation_envelope_ok o ∧ OperationState_valid (op_State o) = true ∧
  op_ObservedAt o ≠ 0 ∧ failure_matches (op_State o) (op_Failure o).
Proof.
  unfold Operation_Validate, operation_envelope_ok, failure_matches, IsZero.
  assert (Hd : ∀ d, is_ok (ValidateDigest d) = false ↔ digestPattern d ≠ true).
  { intros d. rewrite <- not_true_iff_false, is_ok_true. setoid_rewrite ValidateDigest_Ok.
    split; [intros H ?; apply H; by exists ()|intros H [_ ?]; done]. }
  destruct u. split.
  - intros H. inv_ok H. rewrite Hd, ValidateIdentifier_Ok in *.
    nor Hguard. boolify. split; [split_and!; try done|split_and!; try done].
    + by apply dec_stable.
    + intros Hne. pose proof (not_and_elim _ _ Hguard1 Hne) as Hk.
      nor Hk. boolify. split_and!; [done|lia|]. by apply dec_stable.
    + destruct (op_State o) eqn:Hst;
        try (destruct (op_Failure o); [exfalso; apply Hguard5; by eauto|done]);
        apply not_false_is_true; naive_solver.
  - intros ((H1&H2&H3&?&?&?&?&Hkk) & ? & ? & Hm & Hf).
    rewrite (proj2 (ValidateIdentifier_Ok _ ()) H1). cbn.
    rewrite (proj2 (ValidateIdentifier_Ok _ ()) H2). cbn.
    rewrite (proj2 (ValidateIdentifier_Ok _ ()) H3). cbn.
    rewrite !decide_False; [done|..].
    + intros [[f Hs] [? ?]]. destruct (op_State o); naive_solver.
    + by rewrite Hm.
    + intros [Hst Hx]. rewrite Hst in Hf. congruence.
    + intros [Hst Hx]. rewrite Hst in Hf. congruence.
    + rewrite Hd. intros [Hne Hor]. destruct (Hkk Hne) as (? & ? & ?).
      destruct Hor as [?|[?|?]]; [congruence|lia|done].
    + naive_solver.
    + naive_solver congruence.
Qed.

Lemma Event_Validate_Ok e u :
  Event_Validate e = Ok u →
  identifierPattern (ev_ID e) = true ∧ identifierPattern (ev_SandboxID e) = true ∧
  identifierPattern (ev_OperationID e) = true.
Proof.
  unfold Event_Validate. intros H. inv_ok H. inv_ok Hstep0. inv_ok Hstep1. inv_ok Hstep2.
  by rewrite ValidateIdentifier_Ok in *.
Qed.

Lemma Event_Validate_set_sequence n e : Event_Validate (ev_set_sequence n e) = Event_Validate e.
Proof. done. Qed.

#[export] Hint Resolve identifierPattern_nonempty digestPattern_nonempty blank_nonempty : go.

(** ** Sample values

    A well-formed create request and its parts, for evaluating the
    definitions on concrete inputs. *)
Module Samples.

Definition digest0 : string :=
  "sha256:0000000000000000000000000000000000000000000000000000000000000000".
Definition t0 : Time := 63900000000 * Second.
Definition minute : Z := 60 * Second.

Definition spec0 : SandboxSpec :=
  mkSandboxSpec "sandbox-1" "tenant-1" "order-1" "workspace-1" "revision-1"
    "sandbox-runtime-coding-v1" (mkNetworkPolicy NetworkNone "" false) "slot/main" (t0 + 10 * minute).
Definition create0 : CreateRequest :=
  mkCreateRequest "operation-1" "attempt-1" 7 "key-1" digest0 (t0 + minute) spec0.
Definition mutation (id : string) (fence gen : Z) : MutationRequest :=
  mkMutationRequest id "attempt-2" fence (String.append "key-" id) digest0 (t0 + 5 * minute) gen.
Definition sandbox_at (o : ObservedState) : Sandbox :=
  mkSandbox "sandbox-1" "tenant-1" "order-1" "workspace-1" "revision-1"
    "sandbox-runtime-coding-v1" (mkNetworkPolicy NetworkNone "" false) "slot/main"
    DesiredReady o 1 0 (t0 + 10 * minute) t0 t0.
Definition operation_at (ty : OperationType) (st : OperationState) (f : option Failure) : Operation :=
  mkOperation "operation-1" "attempt-1" 7 "sandbox-1" ty st (t0 + minute) t0 false f "" "".
Definition known_failure : Failure := mkFailure "runtime_create_failed" true FailureKnown.

End Samples.
