(* ===== verification/LifecycleTransition.v ===== *)
(** * Lifecycle transitions: [provider/lifecycle/transition.go]

    The pure functions that start lifecycle operations, apply provider
    observations to a sandbox and move an operation through its state machine,
    with the theorems that they preserve validity and follow the two state
    machines. *)

From S2P Require Import Prelude LifecycleModel.
From stdpp Require Import base gmap strings list relations.
From Stdlib Require Import ZArith Lia.

Local Open Scope Z_scope.

(** ** Starting operations *)

Definition StartCreate (request : CreateRequest) (now : Time) : result (Sandbox * Operation) :=
  _ ← CreateRequest_Validate request now;
  let spec := cr_Spec request in
  let sandbox :=
    mkSandbox (sp_SandboxID spec) (sp_TenantID spec) (sp_WorkOrderID spec)
      (sp_WorkspaceID spec) (sp_ProviderRevisionID spec) (sp_RuntimeProfile spec)
      (sp_Network spec) (sp_SandboxSlotKey spec) DesiredReady ObservedRequested 1 0
      (sp_LeaseExpiresAt spec) now now in
  let operation :=
    mkOperation (cr_OperationID request) (cr_AttemptID request) (cr_FencingToken request)
      (sb_ID sandbox) OperationCreate OperationAccepted (cr_Deadline request) now false None "" "" in
  Ok (sandbox, operation).

Definition mutationOperation (request : MutationRequest) (sandboxID : string)
    (operationType : OperationType) (now : Time) : Operation :=
  mkOperation (mr_OperationID request) (mr_AttemptID request) (mr_FencingToken request)
    sandboxID operationType OperationAccepted (mr_Deadline request) now false None
    (mr_IdempotencyKey request) (mr_RequestDigest request).

(** [Generation++] wraps at 2^64. *)
Definition RequestDesiredState (sandbox : Sandbox) (desired : DesiredState)
    (expectedGeneration : Z) (now : Time) : result Sandbox :=
  _ ← Sandbox_Validate sandbox;
  if decide (DesiredState_valid desired = false) then Err [ErrInvalidState : sentinel] else
  if decide (expectedGeneration ≠ sb_Generation sandbox)
  then Err [ErrGenerationConflict : sentinel] else
  if decide (IsZero now ∨ Before now (sb_UpdatedAt sandbox))
  then Err [ErrInvalidSpec : sentinel] else
  if decide (ObservedState_terminal (sb_ObservedState sandbox) = true)
  then Err [ErrInvalidTransition : sentinel] else
  if decide (desired = sb_DesiredState sandbox) then Ok sandbox else
  Ok (sb_set_desired desired (u64 (sb_Generation sandbox + 1)) now sandbox).

Definition StartDesiredState (sandbox : Sandbox) (request : DesiredStateRequest) (now : Time)
    : result (Sandbox * Operation) :=
  _ ← DesiredStateRequest_Validate request now;
  if decide (dr_DesiredState request = DesiredSuspended ∧ sb_ObservedState sandbox ≠ ObservedReady)
  then Err [ErrInvalidTransition : sentinel] else
  if decide (dr_DesiredState request = DesiredReady ∧ sb_ObservedState sandbox ≠ ObservedSuspended)
  then Err [ErrInvalidTransition : sentinel] else
  updated ← RequestDesiredState sandbox (dr_DesiredState request)
              (mr_ExpectedGeneration (dr_Mutation request)) now;
  let operationType :=
    if decide (dr_DesiredState request = DesiredReady) then OperationResume else OperationSuspend in
  Ok (updated, mutationOperation (dr_Mutation request) (sb_ID sandbox) operationType now).

(** The products [time.Duration(n) * time.Second] wrap at 2^63 nanoseconds. *)
Definition StartLeaseRenewal (sandbox : Sandbox) (request : LeaseRequest) (maxLeaseSeconds : Z)
    (now : Time) : result (Sandbox * Lease * Operation) :=
  _ ← Sandbox_Validate sandbox;
  _ ← LeaseRequest_Validate request now maxLeaseSeconds;
  if decide (mr_ExpectedGeneration (lr_Mutation request) ≠ sb_Generation sandbox)
  then Err [ErrGenerationConflict : sentinel] else
  if decide (ObservedState_terminal (sb_ObservedState sandbox) = true
             ∨ ¬ After (sb_LeaseExpiresAt sandbox) now)
  then Err [ErrInvalidLease : sentinel] else
  let newExpiry := sb_LeaseExpiresAt sandbox + seconds (lr_ExtendSeconds request) in
  if decide (¬ After newExpiry (sb_LeaseExpiresAt sandbox)
             ∨ After newExpiry (now + seconds maxLeaseSeconds))
  then Err [ErrInvalidLease : sentinel] else
  let updated := sb_set_lease newExpiry now sandbox in
  let lease := mkLease (sb_ID sandbox) newExpiry (sb_Generation sandbox)
                 (mr_FencingToken (lr_Mutation request)) in
  Ok (updated, lease,
      mutationOperation (lr_Mutation request) (sb_ID sandbox) OperationExtendLease now).

Definition StartTerminate (sandbox : Sandbox) (request : TerminateRequest) (now : Time)
    : result (Sandbox * Operation) :=
  _ ← TerminateRequest_Validate request now;
  updated ← RequestDesiredState sandbox DesiredTerminated
              (mr_ExpectedGeneration (tr_Mutation request)) now;
  Ok (updated, mutationOperation (tr_Mutation request) (sb_ID sandbox) OperationTerminate now).

(** ** Sandbox observations *)

Definition CanTransitionObserved (from to : ObservedState) : bool :=
  if decide (from = to ∧ ObservedState_valid from = true) then true else
  match from, to with
  | ObservedRequested, (ObservedProvisioning | ObservedFailed | ObservedTerminating) => true
  | ObservedProvisioning, (ObservedReady | ObservedFailed | ObservedTerminating) => true
  | ObservedReady, (ObservedSuspending | ObservedTerminating | ObservedExpired) => true
  | ObservedSuspending,
      (ObservedSuspended | ObservedReady | ObservedFailed | ObservedTerminating) => true
  | ObservedSuspended, (ObservedResuming | ObservedTerminating | ObservedExpired) => true
  | ObservedResuming, (ObservedReady | ObservedFailed | ObservedTerminating) => true
  | ObservedFailed, ObservedTerminating => true
  | ObservedTerminating, (ObservedTerminated | ObservedFailed) => true
  | _, _ => false
  end.

Definition ApplyObservedTransition (sandbox : Sandbox) (next : ObservedState)
    (appliedGeneration : Z) (now : Time) : result Sandbox :=
  _ ← Sandbox_Validate sandbox;
  if decide (ObservedState_valid next = false
             ∨ CanTransitionObserved (sb_ObservedState sandbox) next = false)
  then Err [ErrInvalidTransition : sentinel] else
  if decide (IsZero now ∨ Before now (sb_CreatedAt sandbox))
  then Err [ErrInvalidSpec : sentinel] else
  if decide (appliedGeneration ≠ sb_Generation sandbox)
  then Err [ErrGenerationConflict : sentinel] else
  let observedGeneration :=
    if decide (next = ObservedReady ∨ next = ObservedSuspended ∨ next = ObservedTerminated)
    then appliedGeneration else sb_ObservedGeneration sandbox in
  Ok (sb_set_observed next observedGeneration now sandbox).

Definition ExpireLease (sandbox : Sandbox) (now : Time) : result Sandbox :=
  _ ← Sandbox_Validate sandbox;
  if decide (IsZero now ∨ Before now (sb_UpdatedAt sandbox))
  then Err [ErrInvalidSpec : sentinel] else
  if decide (Before now (sb_LeaseExpiresAt sandbox)) then Err [ErrInvalidLease : sentinel] else
  if decide (sb_ObservedState sandbox = ObservedExpired) then Ok sandbox else
  if decide (ObservedState_terminal (sb_ObservedState sandbox) = true
             ∨ CanTransitionObserved (sb_ObservedState sandbox) ObservedExpired = false)
  then Err [ErrInvalidTransition : sentinel] else
  Ok (sb_set_observed ObservedExpired (sb_ObservedGeneration sandbox) now sandbox).

(** ** Fencing tokens *)

Definition CheckFencing (current incoming : Z) : result unit :=
  if decide (incoming = 0) then Err [ErrStaleFencingToken : sentinel] else
  if decide (incoming < current) then Err [ErrStaleFencingToken : sentinel] else Ok ().

Definition AdvanceFencing (current incoming : Z) : result Z :=
  _ ← CheckFencing current incoming;
  if decide (incoming > current) then Ok incoming else Ok current.

(** ** Operation state machine *)

Definition operationTransitions (from to : OperationState) : bool :=
  match from, to with
  | OperationAccepted,
      (OperationRunning | OperationCancelled | OperationFailed | OperationOutcomeUnknown) => true
  | OperationRunning,
      (OperationSucceeded | OperationFailed | OperationCancelled | OperationOutcomeUnknown) => true
  | _, _ => false
  end.

Definition transitionOperation (operation : Operation) (next : OperationState) (now : Time)
    (failure : option Failure) : result Operation :=
  _ ← Operation_Validate operation;
  if decide (OperationState_valid next = false) then Err [ErrInvalidState : sentinel] else
  if decide (op_State operation = next) then Ok operation else
  if decide (OperationState_terminal (op_State operation) = true)
  then Err [ErrTerminalOperation : sentinel] else
  if decide (operationTransitions (op_State operation) next = false)
  then Err [ErrInvalidTransition : sentinel] else
  if decide (IsZero now ∨ Before now (op_ObservedAt operation))
  then Err [ErrInvalidSpec : sentinel] else
  if decide (next = OperationFailed ∧ failure_outcome_is failure FailureKnown = false)
  then Err [ErrInvalidSpec : sentinel] else
  if decide (next = OperationOutcomeUnknown ∧ failure_outcome_is failure FailureUnknown = false)
  then Err [ErrInvalidSpec : sentinel] else
  if decide ((next = OperationSucceeded ∨ next = OperationCancelled) ∧ is_Some failure)
  then Err [ErrInvalidSpec : sentinel] else
  Ok (op_set_state next now failure operation).

Definition BeginOperation (operation : Operation) (now : Time) : result Operation :=
  _ ← CheckDeadline now (op_Deadline operation);
  transitionOperation operation OperationRunning now None.

Definition SucceedOperation (operation : Operation) (now : Time) : result Operation :=
  transitionOperation operation OperationSucceeded now None.

Definition FailOperation (operation : Operation) (now : Time) (failure : Failure) : result Operation :=
  transitionOperation operation OperationFailed now (Some failure).

Definition RequestCancellation (operation : Operation) (now : Time) : result Operation :=
  _ ← Operation_Validate operation;
  if decide (OperationState_terminal (op_State operation) = true)
  then Err [ErrTerminalOperation : sentinel] else
  if decide (IsZero now ∨ Before now (op_ObservedAt operation))
  then Err [ErrInvalidSpec : sentinel] else
  Ok (op_set_cancel now operation).

Definition ConfirmCancellation (operation : Operation) (now : Time) : result Operation :=
  if decide (op_CancelRequested operation = false) then Err [ErrCancellationRequired : sentinel] else
  transitionOperation operation OperationCancelled now None.

Definition MarkOutcomeUnknown (operation : Operation) (now : Time) (failure : Failure)
    : result Operation :=
  if decide (fl_Outcome failure ≠ FailureUnknown) then Err [ErrInvalidSpec : sentinel] else
  transitionOperation operation OperationOutcomeUnknown now (Some failure).

#[global] Arguments StartCreate : simpl never.
#[global] Arguments RequestDesiredState : simpl never.
#[global] Arguments StartDesiredState : simpl never.
#[global] Arguments StartLeaseRenewal : simpl never.
#[global] Arguments StartTerminate : simpl never.
#[global] Arguments CanTransitionObserved : simpl never.
#[global] Arguments ApplyObservedTransition : simpl never.
#[global] Arguments ExpireLease : simpl never.
#[global] Arguments CheckFencing : simpl never.
#[global] Arguments AdvanceFencing : simpl never.
#[global] Arguments transitionOperation : simpl never.
#[global] Arguments BeginOperation : simpl never.
#[global] Arguments SucceedOperation : simpl never.
#[global] Arguments FailOperation : simpl never.
#[global] Arguments RequestCancellation : simpl never.
#[global] Arguments ConfirmCancellation : simpl never.
#[global] Arguments MarkOutcomeUnknown : simpl never.

(** ** Inversion lemmas *)

Lemma validate_all_prefix l1 l2 u :
  validate_named_identifiers (l1 ++ l2) = Ok u → validate_named_identifiers l1 = Ok ().
Proof.
  revert u. induction l1 as [|v l1 IH]; intros u H; [done|]. cbn in *.
  inv_ok H. rewrite (proj2 (wrap_Ok _ _ _) Hstep). cbn. eauto.
Qed.

(** A successful state change of an operation, and its side conditions. *)
Lemma transitionOperation_Ok o next now f o' :
  transitionOperation o next now f = Ok o' →
  Operation_Validate o = Ok () ∧ OperationState_valid next = true ∧
  ((op_State o = next ∧ o' = o) ∨
   (op_State o ≠ next ∧ OperationState_terminal (op_State o) = false ∧
    operationTransitions (op_State o) next = true ∧
    now ≠ 0 ∧ op_ObservedAt o ≤ now ∧
    (next = OperationFailed → failure_outcome_is f FailureKnown = true) ∧
    (next = OperationOutcomeUnknown → failure_outcome_is f FailureUnknown = true) ∧
    (next = OperationSucceeded ∨ next = OperationCancelled → f = None) ∧
    o' = op_set_state next now f o)).
Proof.
  unfold transitionOperation, IsZero, Before. intros H.
  apply bind_Ok in H as ([] & Hv & H). apply guard_Ok in H as [Hnx H].
  apply not_false_is_true in Hnx. split_and!; try done.
  case_decide as Heq; [left; by inv_ok H|right].
  inv_ok H. nor Hguard1. boolify. split_and!; try done; [lia|..].
  - intros ->. apply not_false_is_true. naive_solver.
  - intros ->. apply not_false_is_true. naive_solver.
  - intros Hn. destruct f; [exfalso; apply Hguard4; by eauto|done].
Qed.

Lemma op_set_state_valid st now f o :
  operation_envelope_ok o → OperationState_valid st = true → now ≠ 0 → failure_matches st f →
  Operation_Validate (op_set_state st now f o) = Ok ().
Proof. intros. by apply Operation_Validate_Ok. Qed.

(** A successful transition to a state that carries no failure, or to one whose
    failure has a bounded code, yields a valid operation. *)
Lemma transitionOperation_valid o next now f o' :
  transitionOperation o next now f = Ok o' →
  failure_malformed f = false → (next = OperationRunning → f = None) →
  Operation_Validate o' = Ok ().
Proof.
  intros (Hv & Hn & [[_ ->]|(Hne & Ht & Htr & Hnow & Hobs & Hk & Hu & Hs & ->)])%transitionOperation_Ok
    Hm Hrun; [done|].
  apply Operation_Validate_Ok in Hv as (Henv & _).
  apply op_set_state_valid; try done.
  split; [done|]. destruct next; try (by auto); destruct (op_State o); try done; auto.
Qed.

(** ** Operation runs

    An attempt to move an operation; a refused attempt leaves it unchanged. *)

Inductive op_action :=
  | ActBegin (now : Time)
  | ActSucceed (now : Time)
  | ActFail (now : Time) (f : Failure)
  | ActRequestCancel (now : Time)
  | ActConfirmCancel (now : Time)
  | ActUnknown (now : Time) (f : Failure).

Definition op_apply (a : op_action) (o : Operation) : result Operation :=
  match a with
  | ActBegin now => BeginOperation o now
  | ActSucceed now => SucceedOperation o now
  | ActFail now f => FailOperation o now f
  | ActRequestCancel now => RequestCancellation o now
  | ActConfirmCancel now => ConfirmCancellation o now
  | ActUnknown now f => MarkOutcomeUnknown o now f
  end.

Fixpoint op_run (acts : list op_action) (o : Operation) : Operation :=
  match acts with
  | [] => o
  | a :: acts => op_run acts (match op_apply a o with Ok o' => o' | Err _ => o end)
  end.

(** The successive states of a run, first state included. *)
Fixpoint op_states (acts : list op_action) (o : Operation) : list OperationState :=
  op_State o ::
  match acts with
  | [] => []
  | a :: acts => op_states acts (match op_apply a o with Ok o' => o' | Err _ => o end)
  end.

Definition action_failure (a : op_action) : option Failure :=
  match a with ActFail _ f | ActUnknown _ f => Some f | _ => None end.

(** What a successful attempt may change: nothing, the cancellation flag of a
    live operation, or the state along an edge of the transition table. *)
Definition op_moves (o o' : Operation) : Prop :=
  o' = o ∨
  (OperationState_terminal (op_State o) = false ∧
   ((∃ now, o' = op_set_cancel now o ∧ op_ObservedAt o ≤ now) ∨
    (∃ st now f, o' = op_set_state st now f o ∧ op_ObservedAt o ≤ now ∧
       operationTransitions (op_State o) st = true))).

Lemma transitionOperation_moves o next now f o' :
  transitionOperation o next now f = Ok o' → op_moves o o'.
Proof.
  intros (_ & _ & [[_ ->]|(?&?&?&?&?&_&_&_&->)])%transitionOperation_Ok; [by left|].
  right. split; [done|]. right. by exists next, now, f.
Qed.

Lemma op_apply_moves a o o' : op_apply a o = Ok o' → op_moves o o'.
Proof.
  destruct a; cbn; unfold BeginOperation, SucceedOperation, FailOperation,
    RequestCancellation, ConfirmCancellation, MarkOutcomeUnknown, IsZero, Before; intros H.
  4: { inv_ok H. nor Hguard0. boolify. right. split; [done|]. left. exists now. split; [done|lia]. }
  all: inv_ok H; by eapply transitionOperation_moves.
Qed.

Definition op_rank (s : OperationState) : nat :=
  match s with OperationAccepted => 2 | OperationRunning => 1 | _ => 0 end.

Lemma operationTransitions_rank s s' :
  operationTransitions s s' = true → (op_rank s' < op_rank s)%nat.
Proof. destruct s, s'; cbn; (done || lia). Qed.

(** The number of state changes in a sequence of states. *)
Fixpoint changes (l : list OperationState) : nat :=
  match l with
  | a :: ((b :: _) as l') => (if decide (a = b) then 0 else 1) + changes l'
  | _ => 0
  end%nat.

Lemma op_moves_rank o o' :
  op_moves o o' →
  op_State o' = op_State o ∨ (op_rank (op_State o') < op_rank (op_State o))%nat.
Proof.
  intros [->|[_ [(now & -> & _)|(st & now & f & -> & _ & Htr)]]]; [by left|by left|right].
  by apply operationTransitions_rank.
Qed.

Lemma op_apply_rank a o :
  let o' := match op_apply a o with Ok o' => o' | Err _ => o end in
  op_State o' = op_State o ∨ (op_rank (op_State o') < op_rank (op_State o))%nat.
Proof. destruct (op_apply a o) eqn:E; cbn; [by eapply op_moves_rank, op_apply_moves|by left]. Qed.

Lemma changes_op_states x acts o :
  changes (x :: op_states acts o) =
  ((if decide (x = op_State o) then 0 else 1) + changes (op_states acts o))%nat.
Proof. by destruct acts. Qed.

Lemma op_states_changes acts o : (changes (op_states acts o) ≤ op_rank (op_State o))%nat.
Proof.
  revert o. induction acts as [|a acts IH]; intros o; [cbn; lia|].
  cbn [op_states]. rewrite changes_op_states.
  pose proof (op_apply_rank a o) as Hr. cbv zeta in Hr.
  specialize (IH (match op_apply a o with Ok o' => o' | Err _ => o end)).
  case_decide as Heq; destruct Hr as [Hr|Hr]; rewrite ?Hr in *; try lia; congruence.
Qed.

Lemma op_terminal_fixed acts o :
  OperationState_terminal (op_State o) = true → op_run acts o = o.
Proof.
  intros Ht. induction acts as [|a acts IH]; [done|]. cbn.
  destruct (op_apply a o) as [o'|e] eqn:E; [|done].
  apply op_apply_moves in E as [->|[Hnt _]]; [done|congruence].
Qed.

(** ** Theorems on operations *)

(** whatever sequence of begin, succeed, fail, cancel and
    outcome-unknown attempts is made, an operation changes state at most twice,
    and once it has reached a terminal state (succeeded, failed, cancelled or
    outcome unknown) no attempt changes any of its fields. *)
Theorem operation_runs_settle acts1 acts2 o :
  (changes (op_states (acts1 ++ acts2) o) ≤ 2)%nat ∧
  (OperationState_terminal (op_State (op_run acts1 o)) = true →
   op_run acts2 (op_run acts1 o) = op_run acts1 o).
Proof.
  split; [|apply op_terminal_fixed].
  transitivity (op_rank (op_State o)); [apply op_states_changes|destruct (op_State o); cbn; lia].
Qed.

(** every operation transition keeps a valid operation valid,
    keeps its identity (id, attempt, fence, sandbox, type, deadline,
    idempotency key and digest) and never moves its observation time
    backwards, as long as a recorded failure has a code of 1 to 64 bytes. *)
Theorem operation_transitions_preserve a o o' :
  op_apply a o = Ok o' →
  failure_malformed (action_failure a) = false →
  Operation_Validate o' = Ok () ∧
  op_ID o' = op_ID o ∧ op_AttemptID o' = op_AttemptID o ∧
  op_FencingToken o' = op_FencingToken o ∧ op_SandboxID o' = op_SandboxID o ∧
  op_Type o' = op_Type o ∧ op_Deadline o' = op_Deadline o ∧
  op_IdempotencyKey o' = op_IdempotencyKey o ∧ op_RequestDigest o' = op_RequestDigest o ∧
  op_ObservedAt o ≤ op_ObservedAt o'.
Proof.
  intros Ha Hf. split.
  - destruct a; cbn in *; unfold BeginOperation, SucceedOperation, FailOperation,
      ConfirmCancellation, MarkOutcomeUnknown in Ha.
    4: { unfold RequestCancellation, IsZero, Before in Ha. inv_ok Ha. nor Hguard0.
         destruct x. apply Operation_Validate_Ok in Hstep as (? & ? & ? & ?).
         by apply Operation_Validate_Ok. }
    all: inv_ok Ha; by eapply transitionOperation_valid.
  - apply op_apply_moves in Ha as [->|[_ [(now & -> & ?)|(st & now & f & -> & ? & _)]]];
      split_and!; done || lia.
Qed.

Lemma operation_runs_settle_witness :
  (changes (op_states
      ([ActBegin (Samples.t0 + 1)%Z; ActSucceed (Samples.t0 + 2)%Z]
       ++ [ActFail (Samples.t0 + 3)%Z Samples.known_failure])
      (Samples.operation_at OperationCreate OperationAccepted None)) ≤ 2)%nat ∧
  op_run [ActFail (Samples.t0 + 3) Samples.known_failure]
    (op_run [ActBegin (Samples.t0 + 1); ActSucceed (Samples.t0 + 2)]
       (Samples.operation_at OperationCreate OperationAccepted None))
  = op_run [ActBegin (Samples.t0 + 1); ActSucceed (Samples.t0 + 2)]
       (Samples.operation_at OperationCreate OperationAccepted None).
Proof.
  destruct (operation_runs_settle
    [ActBegin (Samples.t0 + 1); ActSucceed (Samples.t0 + 2)]
    [ActFail (Samples.t0 + 3) Samples.known_failure]
    (Samples.operation_at OperationCreate OperationAccepted None)) as [H1 H2].
  split; [exact H1|]. apply H2. vm_compute. reflexivity.
Defined.

Lemma operation_transitions_preserve_witness :
  ∃ o', FailOperation (Samples.operation_at OperationCreate OperationAccepted None)
          (Samples.t0 + 1) Samples.known_failure = Ok o' ∧
        Operation_Validate o' = Ok ().
Proof.
  eexists. split; [vm_compute; reflexivity|].
  apply (operation_transitions_preserve (ActFail (Samples.t0 + 1) Samples.known_failure)
           (Samples.operation_at OperationCreate OperationAccepted None));
    vm_compute; reflexivity.
Defined.

(** ** Sandbox transitions *)

Definition sandbox_times_ok (s : Sandbox) : Prop := 0 < sb_CreatedAt s ∧ 0 < sb_LeaseExpiresAt s.

Lemma RequestDesiredState_Ok s d g now s' :
  RequestDesiredState s d g now = Ok s' →
  Sandbox_Validate s = Ok () ∧ DesiredState_valid d = true ∧ g = sb_Generation s ∧
  now ≠ 0 ∧ sb_UpdatedAt s ≤ now ∧ ObservedState_terminal (sb_ObservedState s) = false ∧
  ((d = sb_DesiredState s ∧ s' = s) ∨
   (d ≠ sb_DesiredState s ∧ s' = sb_set_desired d (u64 (sb_Generation s + 1)) now s)).
Proof.
  unfold RequestDesiredState, IsZero, Before. intros H.
  apply bind_Ok in H as ([] & Hv & H).
  do 4 (let G := fresh "G" in apply guard_Ok in H as [G H]).
  nor G1. boolify. apply dec_stable in G0.
  split_and!; try done; [lia|].
  case_decide; inv_ok H; auto.
Qed.

Lemma ApplyObservedTransition_Ok s next g now s' :
  ApplyObservedTransition s next g now = Ok s' →
  Sandbox_Validate s = Ok () ∧ ObservedState_valid next = true ∧
  CanTransitionObserved (sb_ObservedState s) next = true ∧ now ≠ 0 ∧ sb_CreatedAt s ≤ now ∧
  g = sb_Generation s ∧
  s' = sb_set_observed next
         (if decide (next = ObservedReady ∨ next = ObservedSuspended ∨ next = ObservedTerminated)
          then g else sb_ObservedGeneration s) now s.
Proof.
  unfold ApplyObservedTransition, IsZero, Before. intros H.
  apply bind_Ok in H as ([] & Hv & H).
  do 3 (let G := fresh "G" in apply guard_Ok in H as [G H]).
  nor G. nor G0. boolify. apply dec_stable in G1. injection H as <-.
  split_and!; try done. lia.
Qed.

Lemma ApplyObservedTransition_valid s next g now s' :
  ApplyObservedTransition s next g now = Ok s' → Sandbox_Validate s' = Ok ().
Proof.
  intros (Hv & ? & ? & ? & ? & -> & ->)%ApplyObservedTransition_Ok.
  apply Sandbox_Validate_Ok in Hv as (? & ? & ? & ? & ? & ? & ? & ? & ?).
  apply Sandbox_Validate_Ok. cbn. split_and!; try done. case_decide; lia.
Qed.

Lemma RequestDesiredState_valid s d g now s' :
  RequestDesiredState s d g now = Ok s' → 0 ≤ sb_Generation s < 2^64 - 1 →
  Sandbox_Validate s' = Ok ().
Proof.
  intros (Hv & ? & ? & ? & ? & ? & [[? ->]|[? ->]])%RequestDesiredState_Ok Hg; [done|].
  apply Sandbox_Validate_Ok in Hv as (? & ? & ? & ? & ? & ? & ? & ? & ?).
  apply Sandbox_Validate_Ok. cbn. rewrite u64_small by (unfold u64_range; lia).
  split_and!; try done; lia.
Qed.

Lemma StartLeaseRenewal_Ok s r m now s' l o :
  StartLeaseRenewal s r m now = Ok (s', l, o) →
  Sandbox_Validate s = Ok () ∧ LeaseRequest_Validate r now m = Ok () ∧
  mr_ExpectedGeneration (lr_Mutation r) = sb_Generation s ∧
  ObservedState_terminal (sb_ObservedState s) = false ∧ now < sb_LeaseExpiresAt s ∧
  let e := sb_LeaseExpiresAt s + seconds (lr_ExtendSeconds r) in
  sb_LeaseExpiresAt s < e ≤ now + seconds m ∧
  s' = sb_set_lease e now s ∧
  l = mkLease (sb_ID s) e (sb_Generation s) (mr_FencingToken (lr_Mutation r)) ∧
  o = mutationOperation (lr_Mutation r) (sb_ID s) OperationExtendLease now.
Proof.
  unfold StartLeaseRenewal, After. intros H.
  apply bind_Ok in H as ([] & Hv & H). apply bind_Ok in H as ([] & Hr & H).
  do 3 (let G := fresh "G" in apply guard_Ok in H as [G H]).
  nor G0. nor G1. boolify. injection H as <- <- <-. apply dec_stable in G.
  split_and!; try done; lia.
Qed.

Lemma ExpireLease_valid s now s' : ExpireLease s now = Ok s' → Sandbox_Validate s' = Ok ().
Proof.
  unfold ExpireLease, IsZero, Before. intros H. apply bind_Ok in H as ([] & Hv & H).
  do 2 (let G := fresh "G" in apply guard_Ok in H as [G H]).
  case_decide; [by inv_ok H|]. inv_ok H. nor G.
  apply Sandbox_Validate_Ok in Hv as (? & ? & ? & ? & ? & ? & ? & ? & ?).
  apply Sandbox_Validate_Ok. cbn. split_and!; done || lia.
Qed.

(** An attempt to change a sandbox, with the clock reading it uses. *)
Inductive sb_action :=
  | SbObserve (next : ObservedState) (g : Z)
  | SbDesired (d : DesiredState) (g : Z)
  | SbRenew (r : LeaseRequest) (maxLeaseSeconds : Z)
  | SbExpire.

Definition sb_apply (a : sb_action) (now : Time) (s : Sandbox) : result Sandbox :=
  match a with
  | SbObserve next g => ApplyObservedTransition s next g now
  | SbDesired d g => RequestDesiredState s d g now
  | SbRenew r m => x ← StartLeaseRenewal s r m now; Ok (x.1.1)
  | SbExpire => ExpireLease s now
  end.

(** every sandbox transition keeps a valid sandbox valid and
    never changes its identity, provided the clock has not moved behind the
    sandbox's creation and the generation counter is not about to wrap. *)
Theorem sandbox_transitions_preserve a now s s' :
  sb_apply a now s = Ok s' →
  0 < sb_CreatedAt s → sb_CreatedAt s ≤ now → 0 ≤ sb_Generation s < 2^64 - 1 →
  Sandbox_Validate s' = Ok () ∧
  sb_ID s' = sb_ID s ∧ sb_TenantID s' = sb_TenantID s ∧ sb_WorkOrderID s' = sb_WorkOrderID s ∧
  sb_WorkspaceID s' = sb_WorkspaceID s ∧ sb_ProviderRevisionID s' = sb_ProviderRevisionID s ∧
  sb_RuntimeProfile s' = sb_RuntimeProfile s ∧ sb_Network s' = sb_Network s ∧
  sb_SandboxSlotKey s' = sb_SandboxSlotKey s ∧ sb_CreatedAt s' = sb_CreatedAt s ∧
  sb_Generation s ≤ sb_Generation s' ≤ sb_Generation s + 1.
Proof.
  intros Ha Hc Hnow Hg. destruct a as [next g|d g|r m|]; cbn [sb_apply] in Ha.
  - split; [by eapply ApplyObservedTransition_valid|].
    apply ApplyObservedTransition_Ok in Ha as (_ & _ & _ & _ & _ & _ & ->).
    cbn. split_and!; done || lia.
  - split; [by eapply RequestDesiredState_valid|].
    apply RequestDesiredState_Ok in Ha as (_ & _ & _ & _ & _ & _ & [[_ ->]|[_ ->]]);
      cbn; split_and!; try done; try lia; rewrite u64_small; unfold u64_range; lia.
  - apply bind_Ok in Ha as ([[s1 l] o] & Ha & [= <-]).
    apply StartLeaseRenewal_Ok in Ha as (Hv & _ & _ & _ & Hl & [He _] & -> & _).
    apply Sandbox_Validate_Ok in Hv as (? & ? & ? & ? & ? & ? & ? & ? & ?).
    split; [apply Sandbox_Validate_Ok; cbn; split_and!; done || lia|].
    cbn. split_and!; done || lia.
  - split; [by eapply ExpireLease_valid|].
    unfold ExpireLease in Ha. apply bind_Ok in Ha as ([] & _ & Ha).
    do 2 apply guard_Ok in Ha as [_ Ha].
    case_decide; [inv_ok Ha; split_and!; done || lia|].
    inv_ok Ha. cbn. split_and!; done || lia.
Qed.

Lemma sandbox_transitions_preserve_witness :
  ∃ s', sb_apply (SbDesired DesiredSuspended 1) (Samples.t0 + 1)
          (Samples.sandbox_at ObservedReady) = Ok s' ∧
        Sandbox_Validate s' = Ok () ∧ sb_Generation s' = 2.
Proof.
  eexists. split; [vm_compute; reflexivity|]. split; [|vm_compute; reflexivity].
  apply (sandbox_transitions_preserve (SbDesired DesiredSuspended 1) (Samples.t0 + 1)
           (Samples.sandbox_at ObservedReady)); try (vm_compute; reflexivity).
  - vm_compute. discriminate.
  - vm_compute. split; [discriminate|reflexivity].
Defined.

(** ** The observed-state machine *)

(** A run of provider observations, each for the current generation. *)
Definition observe_run (obs : list (ObservedState * Time)) (s : Sandbox) : result Sandbox :=
  foldM (λ s ob, ApplyObservedTransition s ob.1 (sb_Generation s) ob.2) s obs.

Fixpoint obs_path (a : ObservedState) (l : list ObservedState) : Prop :=
  match l with
  | [] => True
  | b :: l => CanTransitionObserved a b = true ∧ obs_path b l
  end.

Lemma observe_run_path obs s s' :
  observe_run obs s = Ok s' → obs_path (sb_ObservedState s) obs.*1.
Proof.
  unfold observe_run. revert s. induction obs as [|[b now] obs IH]; intros s H; [done|].
  cbn in *. case_match eqn:E; [|done].
  apply ApplyObservedTransition_Ok in E as (_ & _ & Hc & _ & _ & _ & ->).
  split; [done|]. by apply IH in H.
Qed.

(** A path that leaves a set only through [x] has visited [x] when it is outside. *)
Lemma obs_path_gate (inside : ObservedState → bool) (x target : ObservedState) :
  (∀ a b, inside a = true → CanTransitionObserved a b = true → inside b = true ∨ b = x) →
  inside target = false →
  ∀ l a, inside a = true → obs_path a l → target ∈ l → x ∈ l.
Proof.
  intros Hgate Htarget. induction l as [|b l IH]; intros a Ha Hl Hin.
  { by apply elem_of_nil in Hin. }
  destruct Hl as [Hab Hl].
  destruct (Hgate a b Ha Hab) as [Hb| ->]; [|by left].
  apply elem_of_cons in Hin as [->|Hin]; [congruence|]. right. eauto.
Qed.

Ltac obs_gate inside x :=
  apply (obs_path_gate inside x);
  [intros [] []; vm_compute; intros; (discriminate || auto) | done | done].

Lemma CanTransitionObserved_terminal a b :
  ObservedState_terminal a = true → CanTransitionObserved a b = true → b = a.
Proof.
  unfold CanTransitionObserved. intros Ht. case_decide; [naive_solver|]. by destruct a.
Qed.

(** The observations that precede a milestone. *)
Definition before_ready (a : ObservedState) : bool :=
  match a with
  | ObservedReady | ObservedSuspending | ObservedSuspended | ObservedResuming
  | ObservedExpired => false
  | _ => true
  end.
Definition before_provisioning (a : ObservedState) : bool :=
  before_ready a && negb (bool_decide (a = ObservedProvisioning)).
Definition before_suspending (a : ObservedState) : bool :=
  match a with ObservedSuspending | ObservedSuspended | ObservedResuming => false | _ => true end.
Definition before_suspended (a : ObservedState) : bool :=
  match a with ObservedSuspended | ObservedResuming => false | _ => true end.
Definition before_terminating (a : ObservedState) : bool :=
  match a with ObservedTerminating | ObservedTerminated => false | _ => true end.

(** a sandbox that starts in [requested] becomes ready only after
    provisioning, suspended only after it was ready and suspending, resuming
    only after it was suspended, expired only after it was ready, and
    terminated only after terminating, along every run of accepted
    observations. *)
Theorem observed_milestones obs s s' :
  sb_ObservedState s = ObservedRequested →
  observe_run obs s = Ok s' →
  (ObservedReady ∈ obs.*1 → ObservedProvisioning ∈ obs.*1) ∧
  (ObservedSuspended ∈ obs.*1 → ObservedReady ∈ obs.*1 ∧ ObservedSuspending ∈ obs.*1) ∧
  (ObservedResuming ∈ obs.*1 → ObservedSuspended ∈ obs.*1) ∧
  (ObservedExpired ∈ obs.*1 → ObservedReady ∈ obs.*1) ∧
  (ObservedTerminated ∈ obs.*1 → ObservedTerminating ∈ obs.*1).
Proof.
  intros Hs Hrun. apply observe_run_path in Hrun. rewrite Hs in Hrun.
  split_and!; [|intros Hin; split| | |]; revert Hrun.
  - obs_gate before_provisioning ObservedProvisioning.
  - intros Hrun. revert Hrun Hin. obs_gate before_ready ObservedReady.
  - intros Hrun. revert Hrun Hin. obs_gate before_suspending ObservedSuspending.
  - obs_gate before_suspended ObservedSuspended.
  - obs_gate before_ready ObservedReady.
  - obs_gate before_terminating ObservedTerminating.
Qed.

Lemma observed_milestones_witness :
  ∃ s', observe_run [(ObservedProvisioning, Samples.t0 + 1); (ObservedReady, Samples.t0 + 2)]
          (Samples.sandbox_at ObservedRequested) = Ok s' ∧
        ObservedProvisioning ∈ [ObservedProvisioning; ObservedReady].
Proof.
  eexists. split; [vm_compute; reflexivity|].
  apply (observed_milestones
    [(ObservedProvisioning, Samples.t0 + 1); (ObservedReady, Samples.t0 + 2)]
    (Samples.sandbox_at ObservedRequested)
    (sb_set_observed ObservedReady 1 (Samples.t0 + 2) (Samples.sandbox_at ObservedRequested)));
    [reflexivity|vm_compute; reflexivity|].
  right. left.
Defined.

Lemma ApplyObservedTransition_total s next now :
  Sandbox_Validate s = Ok () → ObservedState_valid next = true →
  CanTransitionObserved (sb_ObservedState s) next = true → now ≠ 0 → sb_CreatedAt s ≤ now →
  ∃ s', ApplyObservedTransition s next (sb_Generation s) now = Ok s'.
Proof.
  intros Hv Hn Hc Hz Hle. unfold ApplyObservedTransition, IsZero, Before.
  rewrite Hv, Hn, Hc. cbn [mbind result_bind].
  rewrite decide_False by naive_solver. rewrite decide_False by (intros [?|?]; [done|lia]).
  rewrite decide_False by naive_solver. eauto.
Qed.

(** every valid sandbox that is not already terminated or expired
    can be terminated: two observations, [terminating] then [terminated] (the
    first one redundant when it is already terminating), are accepted at any
    times after its creation, and they report the current generation as
    observed; a terminated or expired sandbox accepts no other observation. *)
Theorem termination_always_possible s now1 now2 :
  Sandbox_Validate s = Ok () →
  0 < sb_CreatedAt s → sb_CreatedAt s ≤ now1 → sb_CreatedAt s ≤ now2 →
  (ObservedState_terminal (sb_ObservedState s) = false →
   ∃ s', observe_run [(ObservedTerminating, now1); (ObservedTerminated, now2)] s = Ok s' ∧
         sb_ObservedState s' = ObservedTerminated ∧ sb_ObservedGeneration s' = sb_Generation s) ∧
  (ObservedState_terminal (sb_ObservedState s) = true →
   ∀ next g now s', ApplyObservedTransition s next g now = Ok s' →
     next = sb_ObservedState s).
Proof.
  intros Hv Hc H1 H2. split; intros Ht.
  - destruct (ApplyObservedTransition_total s ObservedTerminating now1) as [s1 Hs1];
      [done|done| |lia|done|].
    { apply Sandbox_Validate_Ok in Hv as (_ & _ & Ho & _).
      destruct (sb_ObservedState s); try done; by vm_compute. }
    pose proof Hs1 as Hv1. apply ApplyObservedTransition_valid in Hv1.
    apply ApplyObservedTransition_Ok in Hs1 as Heq. destruct Heq as (_&_&_&_&_&_&Heq).
    destruct (ApplyObservedTransition_total s1 ObservedTerminated now2) as [s2 Hs2];
      [done|done|by subst s1|lia|by subst s1|].
    exists s2. unfold observe_run. cbn. rewrite Hs1, Hs2. split; [done|].
    apply ApplyObservedTransition_Ok in Hs2 as (_&_&_&_&_&_&->). by subst s1.
  - intros next g now s' (_&_&Hcan&_)%ApplyObservedTransition_Ok.
    by apply CanTransitionObserved_terminal in Hcan.
Qed.

Lemma termination_always_possible_witness :
  ∃ s', observe_run [(ObservedTerminating, Samples.t0 + 1); (ObservedTerminated, Samples.t0 + 2)]
          (Samples.sandbox_at ObservedSuspending) = Ok s' ∧
        sb_ObservedState s' = ObservedTerminated ∧ sb_ObservedGeneration s' = 1.
Proof.
  apply (termination_always_possible (Samples.sandbox_at ObservedSuspending)
           (Samples.t0 + 1) (Samples.t0 + 2)); vm_compute; reflexivity || discriminate.
Defined.

(** ** Desired state, generations and fencing *)

(** A desired-state request names the current generation or is
    refused; when it is accepted, the generation advances by one (modulo 2^64)
    exactly when the desired state changes, so repeating a termination request
    does not advance it; nothing but desired state, generation and update time
    changes. *)
Lemma desired_state_generation s d g now :
  Sandbox_Validate s = Ok () → DesiredState_valid d = true →
  now ≠ 0 → sb_UpdatedAt s ≤ now → ObservedState_terminal (sb_ObservedState s) = false →
  RequestDesiredState s d g now =
    if decide (g ≠ sb_Generation s) then Err [ErrGenerationConflict : sentinel]
    else if decide (d = sb_DesiredState s) then Ok s
    else Ok (sb_set_desired d (u64 (sb_Generation s + 1)) now s).
Proof.
  intros Hv Hd Hz Hu Ht. unfold RequestDesiredState, IsZero, Before.
  rewrite Hv, Hd, Ht. cbn [mbind result_bind]. rewrite decide_False by done.
  case_decide; [done|]. rewrite decide_False by (intros [?|?]; [done|lia]).
  by rewrite decide_False by done.
Qed.

Lemma AdvanceFencing_spec current incoming :
  0 ≤ current →
  AdvanceFencing current incoming =
    if decide (incoming ≠ 0 ∧ current ≤ incoming)
    then Ok incoming else Err [ErrStaleFencingToken : sentinel].
Proof.
  intros Hc. unfold AdvanceFencing, CheckFencing.
  repeat case_decide; cbn [mbind result_bind]; repeat case_decide; try (f_equal; lia);
    exfalso; naive_solver lia.
Qed.

(** Tokens presented one after the other: the final high-water mark and the
    tokens that were accepted. *)
Fixpoint advance_all (current : Z) (tokens : list Z) : Z * list Z :=
  match tokens with
  | [] => (current, [])
  | t :: tokens =>
      match AdvanceFencing current t with
      | Ok mark => let '(final, accepted) := advance_all mark tokens in (final, t :: accepted)
      | Err _ => advance_all current tokens
      end
  end.

(** whatever tokens are presented in whatever order, those that
    are accepted never decrease and start at or above the initial mark, the
    zero token is never among them, and the mark ends at the largest token seen
    (or where it began): a delayed older attempt is never let in again. *)
Theorem fencing_high_water current tokens :
  0 ≤ current → Forall (λ t, 0 ≤ t) tokens →
  let '(final, accepted) := advance_all current tokens in
  Sorted.StronglySorted Z.le (current :: accepted) ∧ accepted `sublist_of` tokens ∧ (0 ∉ accepted) ∧
  final = foldr Z.max current tokens.
Proof.
  intros Hc Ht. revert current Hc. induction tokens as [|t tokens IH]; intros current Hc.
  { split_and!; [repeat constructor|done|set_solver|done]. }
  apply Forall_cons in Ht as [Ht0 Ht]. cbn [advance_all]. rewrite AdvanceFencing_spec by done.
  assert (Hmax : ∀ m, foldr Z.max m tokens = Z.max m (foldr Z.max 0 tokens) ∨ m < 0).
  { intros m. clear -tokens. induction tokens as [|x l IHl]; cbn; [lia|]. lia. }
  case_decide as Hd.
  - specialize (IH Ht t Ht0). destruct (advance_all t tokens) as [final accepted].
    destruct IH as (Hs & Hsub & H0 & ->). apply Sorted.StronglySorted_inv in Hs as Hinv.
    destruct Hinv as [Hss Hall]. split_and!.
    + constructor; [done|]. constructor; [lia|]. eapply List.Forall_impl; [|done]. cbn. lia.
    + by constructor.
    + set_solver.
    + cbn. destruct (Hmax t), (Hmax current); lia.
  - specialize (IH Ht current Hc). destruct (advance_all current tokens) as [final accepted].
    destruct IH as (Hs & Hsub & H0 & ->). split_and!; [done|by constructor|done|].
    cbn. destruct (Hmax current); lia.
Qed.

Lemma fencing_high_water_witness :
  advance_all 5 [7; 0; 6; 7; 9; 8] = (9, [7; 7; 9]) ∧
  Sorted.StronglySorted Z.le [5; 7; 7; 9].
Proof.
  split; [vm_compute; reflexivity|].
  refine (proj1 (fencing_high_water 5 [7; 0; 6; 7; 9; 8] _ _)); [lia|].
  repeat (apply Forall_cons; split; [lia|]). apply Forall_nil_2.
Defined.

(** a renewed lease ends strictly later than the current one and
    within the configured horizon from now; for a horizon of at most
    9223372036 seconds (no overflow of the nanosecond count) it is extended by
    exactly the requested number of seconds, and the returned lease, sandbox
    and operation agree. *)
Theorem lease_renewal_bounds s r m now s' l o :
  StartLeaseRenewal s r m now = Ok (s', l, o) →
  m ≤ 9223372036 →
  sb_LeaseExpiresAt s' = sb_LeaseExpiresAt s + lr_ExtendSeconds r * Second ∧
  now < sb_LeaseExpiresAt s < sb_LeaseExpiresAt s' ∧
  sb_LeaseExpiresAt s' ≤ now + m * Second ∧
  ls_ExpiresAt l = sb_LeaseExpiresAt s' ∧ ls_Generation l = sb_Generation s' ∧
  sb_Generation s' = sb_Generation s ∧ ls_SandboxID l = sb_ID s' ∧
  op_SandboxID o = sb_ID s' ∧ op_FencingToken o = ls_FencingToken l.
Proof.
  intros (_ & Hr & _ & _ & Hnow & [Hlo Hhi] & -> & -> & ->)%StartLeaseRenewal_Ok Hm.
  unfold LeaseRequest_Validate in Hr. apply bind_Ok in Hr as (_ & _ & Hr).
  apply guard_Ok in Hr as [Hr _]. nor Hr.
  rewrite !seconds_small in * by lia. cbn.
  split_and!; done || lia.
Qed.

Lemma lease_renewal_bounds_witness :
  ∃ s' l o, StartLeaseRenewal (Samples.sandbox_at ObservedReady)
      (mkLeaseRequest (Samples.mutation "renew-1" 7 1) 60) 3600 (Samples.t0 + 1) = Ok (s', l, o) ∧
    sb_LeaseExpiresAt s' = Samples.t0 + 10 * Samples.minute + 60 * Second.
Proof.
  do 3 eexists. split; [vm_compute; reflexivity|].
  refine (proj1 (lease_renewal_bounds (Samples.sandbox_at ObservedReady)
    (mkLeaseRequest (Samples.mutation "renew-1" 7 1) 60) 3600 (Samples.t0 + 1) _ _ _ _ _));
    [vm_compute; reflexivity|lia].
Defined.

(** ** Accepted operations *)

Lemma mutationOperation_valid r id ty now :
  MutationRequest_Validate r now = Ok () → identifierPattern id = true →
  OperationType_valid ty = true →
  Operation_Validate (mutationOperation r id ty now) = Ok ().
Proof.
  unfold MutationRequest_Validate. intros H Hid Hty. inv_ok H.
  rewrite ValidateIdentifier_Ok, ValidateDigest_Ok, ValidateDeadline_Ok in *.
  nor Hguard. nor Hguard0. boolify.
  apply Operation_Validate_Ok. unfold operation_envelope_ok. cbn.
  destruct H as (? & ? & ?). split_and!; try done.
  - rewrite !bool_decide_eq_false_2 by auto with go. done.
  - intros _. split_and!; [done|lia|done].
Qed.

(** The sandbox a valid create request describes. *)
Definition created_sandbox (r : CreateRequest) (now : Time) : Sandbox :=
  let spec := cr_Spec r in
  mkSandbox (sp_SandboxID spec) (sp_TenantID spec) (sp_WorkOrderID spec)
    (sp_WorkspaceID spec) (sp_ProviderRevisionID spec) (sp_RuntimeProfile spec)
    (sp_Network spec) (sp_SandboxSlotKey spec) DesiredReady ObservedRequested 1 0
    (sp_LeaseExpiresAt spec) now now.

Lemma CreateRequest_sandbox_valid r now :
  CreateRequest_Validate r now = Ok () → Sandbox_Validate (created_sandbox r now) = Ok ().
Proof.
  unfold CreateRequest_Validate. intros H. inv_ok H.
  unfold SandboxSpec_Validate, IsZero, After in H. inv_ok H.
  destruct x5. nor Hguard2.
  apply Sandbox_Validate_Ok. unfold created_sandbox; cbn. split_and!; try done; [|lia..].
  unfold sandbox_identity_check. cbn [sb_ID sb_TenantID sb_WorkOrderID sb_WorkspaceID
    sb_ProviderRevisionID sb_RuntimeProfile sb_SandboxSlotKey sb_Network].
  rewrite Hstep3. cbn [mbind result_bind]. rewrite (proj2 (wrap_Ok _ _ _) Hstep4).
  cbn [mbind result_bind]. done.
Qed.

(** every start function that succeeds returns a valid accepted
    operation of the right type carrying the identity, fence and deadline of
    its request and the id of its sandbox, and a create also returns a valid
    requested sandbox of generation 1 that no provider has observed yet. *)
Theorem accepted_operations_valid s now :
  (∀ r s' o, StartCreate r now = Ok (s', o) →
     Sandbox_Validate s' = Ok () ∧ Operation_Validate o = Ok () ∧
     sb_ObservedState s' = ObservedRequested ∧ sb_DesiredState s' = DesiredReady ∧
     sb_Generation s' = 1 ∧ sb_ObservedGeneration s' = 0 ∧
     op_Type o = OperationCreate ∧ op_State o = OperationAccepted ∧ op_SandboxID o = sb_ID s' ∧
     op_ID o = cr_OperationID r ∧ op_FencingToken o = cr_FencingToken r) ∧
  (∀ r s' o, StartDesiredState s r now = Ok (s', o) →
     Operation_Validate o = Ok () ∧ op_State o = OperationAccepted ∧ op_SandboxID o = sb_ID s ∧
     op_FencingToken o = mr_FencingToken (dr_Mutation r) ∧
     op_Type o = (if decide (dr_DesiredState r = DesiredReady) then OperationResume else OperationSuspend) ∧
     sb_DesiredState s' = dr_DesiredState r) ∧
  (∀ r s' o, StartTerminate s r now = Ok (s', o) →
     Operation_Validate o = Ok () ∧ op_State o = OperationAccepted ∧ op_SandboxID o = sb_ID s ∧
     op_FencingToken o = mr_FencingToken (tr_Mutation r) ∧ op_Type o = OperationTerminate ∧
     sb_DesiredState s' = DesiredTerminated).
Proof.
  split_and!.
  - intros r s' o H. unfold StartCreate in H. apply bind_Ok in H as ([] & H & [= <- <-]).
    pose proof (CreateRequest_sandbox_valid r now H) as Hs.
    unfold CreateRequest_Validate in H. inv_ok H.
    rewrite ValidateIdentifier_Ok, ValidateDeadline_Ok in *. destruct Hstep2 as (? & ? & ?).
    split_and!; try done. apply Operation_Validate_Ok. unfold operation_envelope_ok. cbn.
    apply Sandbox_Validate_ids in Hs as [? _]. split_and!; done.
  - intros r s' o H. unfold StartDesiredState, DesiredStateRequest_Validate in H.
    apply bind_Ok in H as ([] & Hr & H). inv_ok Hr. destruct x. inv_ok H.
    apply RequestDesiredState_Ok in Hstep0 as (Hv & _ & _ & _ & _ & _ & Hs').
    apply Sandbox_Validate_ids in Hv as [? _].
    split_and!; try done.
    + apply mutationOperation_valid; try done. by case_decide.
    + by destruct Hs' as [[-> ->]|[_ ->]].
  - intros r s' o H. unfold StartTerminate, TerminateRequest_Validate in H.
    apply bind_Ok in H as ([] & Hr & H). inv_ok Hr. destruct x. inv_ok H.
    apply RequestDesiredState_Ok in Hstep0 as (Hv & _ & _ & _ & _ & _ & Hs').
    apply Sandbox_Validate_ids in Hv as [? _].
    split_and!; try done.
    + by apply mutationOperation_valid.
    + by destruct Hs' as [[-> ->]|[_ ->]].
Qed.

Lemma accepted_operations_valid_witness :
  ∃ s' o, StartCreate Samples.create0 Samples.t0 = Ok (s', o) ∧ Operation_Validate o = Ok ().
Proof.
  do 2 eexists. split; [vm_compute; reflexivity|].
  eapply (proj1 (accepted_operations_valid (Samples.sandbox_at ObservedReady) Samples.t0)
            Samples.create0). vm_compute. reflexivity.
Defined.
