(* ===== verification/LifecycleState.v ===== *)
(** * Lifecycle repository state: [provider/lifecycle/repository/state.go]

    The adapter-independent snapshot of the lifecycle repository and the
    operations on it, each a function from a state to an error or to a value
    and the next state.  An error leaves the state as it was: the code checks
    everything before its first write.  A Go map is a [gmap]; reading a missing
    key of a value map gives the zero value ([get_or]). *)

From S2P Require Import Prelude LifecycleModel LifecycleTransition.
From stdpp Require Import base gmap strings list fin_maps.
From Stdlib Require Import Ascii ZArith Lia.

Local Open Scope Z_scope.

Definition maxEventPageSize : Z := 1000.
Definition maxRetainedEvents : nat := 1000.

Record IdempotencyRecord := mkIdempotencyRecord {
  ir_Scope : string;
  ir_Key : string;
  ir_RequestDigest : string;
  ir_Operation : Operation;
}.

Record State := mkState {
  Sandboxes : gmap string Sandbox;
  Operations : gmap string Operation;
  Leases : gmap string Lease;
  Events : gmap string (list Event);
  EventLatest : gmap string Z;
  Idempotency : gmap string IdempotencyRecord;
  Fencing : gmap string Z;
}.

Record EventPage := mkEventPage {
  pg_Events : list Event;
  pg_FirstAvailableSequence : Z;
  pg_LatestSequence : Z;
  pg_NextSequence : Z;
}.

Record CreateResult := mkCreateResult {
  cres_Operation : Operation;
  cres_Replayed : bool;
}.

Record MutationResult := mkMutationResult {
  mres_Operation : Operation;
  mres_Sandbox : Sandbox;
  mres_Replayed : bool;
}.

Definition zeroCreateResult : CreateResult := mkCreateResult zeroOperation false.
Definition zeroMutationResult : MutationResult := mkMutationResult zeroOperation zeroSandbox false.
Definition zeroEventPage : EventPage := mkEventPage [] 0 0 0.

#[export] Instance IdempotencyRecord_eq_dec : EqDecision IdempotencyRecord.
Proof. solve_decision. Defined.

Definition NewState : State := mkState ∅ ∅ ∅ ∅ ∅ ∅ ∅.

(** Composite keys join their parts with a zero byte. *)
Definition fencingScope (revisionID sandboxID : string) : string :=
  String.append revisionID (String NUL sandboxID).
Definition idempotencyScope (revisionID key : string) : string :=
  String.append revisionID (String NUL key).

Definition checkCurrentFencing (fencing : gmap string Z) (revisionID sandboxID : string) (token : Z)
    : result unit :=
  if decide (token = 0) then Err [ErrStaleFencingToken : sentinel] else
  if decide (get_or 0 fencing (fencingScope revisionID sandboxID) ≠ token)
  then Err [ErrStaleFencingToken : sentinel] else Ok ().

Definition operationProviderRevision (s : State) (sandboxID : string) : string :=
  sb_ProviderRevisionID (get_or zeroSandbox (Sandboxes s) sandboxID).

Definition sameSandboxIdentity (left right : Sandbox) : Prop :=
  sb_ID left = sb_ID right ∧ sb_TenantID left = sb_TenantID right ∧
  sb_WorkOrderID left = sb_WorkOrderID right ∧ sb_WorkspaceID left = sb_WorkspaceID right ∧
  sb_ProviderRevisionID left = sb_ProviderRevisionID right ∧
  sb_RuntimeProfile left = sb_RuntimeProfile right ∧
  sb_Network left = sb_Network right ∧ sb_SandboxSlotKey left = sb_SandboxSlotKey right.

#[export] Instance sameSandboxIdentity_dec l r : Decision (sameSandboxIdentity l r).
Proof. unfold sameSandboxIdentity. apply _. Defined.

(** ** Reservations *)

Definition ReserveCreate (idempotencyKey requestDigest : string) (sandbox : Sandbox)
    (operation : Operation) (s : State) : result (CreateResult * State) :=
  _ ← Sandbox_Validate sandbox;
  _ ← Operation_Validate operation;
  if decide (blank idempotencyKey = true) then Err [ErrConflict : sentinel] else
  _ ← ValidateDigest requestDigest;
  if decide (op_Type operation ≠ OperationCreate ∨ op_State operation ≠ OperationAccepted
             ∨ op_SandboxID operation ≠ sb_ID sandbox)
  then Err [ErrConflict : sentinel] else
  let scope := fencingScope (sb_ProviderRevisionID sandbox) (sb_ID sandbox) in
  let iscope := idempotencyScope (sb_ProviderRevisionID sandbox) idempotencyKey in
  match Idempotency s !! iscope with
  | Some existing =>
      if decide (ir_RequestDigest existing ≠ requestDigest
                 ∨ op_ID (ir_Operation existing) ≠ op_ID operation)
      then Err [ErrIdempotencyConflict : sentinel]
      else Ok (mkCreateResult (ir_Operation existing) true, s)
  | None =>
      if decide (is_Some (Sandboxes s !! sb_ID sandbox)) then Err [ErrAlreadyExists : sentinel] else
      if decide (is_Some (Operations s !! op_ID operation)) then Err [ErrAlreadyExists : sentinel] else
      if decide (op_FencingToken operation ≤ get_or 0 (Fencing s) scope)
      then Err [ErrStaleFencingToken : sentinel] else
      Ok (mkCreateResult operation false,
          mkState
            (<[sb_ID sandbox := sandbox]> (Sandboxes s))
            (<[op_ID operation := operation]> (Operations s))
            (<[sb_ID sandbox := mkLease (sb_ID sandbox) (sb_LeaseExpiresAt sandbox)
                                  (sb_Generation sandbox) (op_FencingToken operation)]> (Leases s))
            (Events s) (EventLatest s)
            (<[iscope := mkIdempotencyRecord iscope idempotencyKey requestDigest operation]> (Idempotency s))
            (<[scope := op_FencingToken operation]> (Fencing s)))
  end.

(** [events[len(events)-maxRetainedEvents:]] keeps the newest events. *)
Definition retain (events : list Event) : list Event :=
  if decide (maxRetainedEvents < length events)%nat
  then drop (length events - maxRetainedEvents) events else events.

Definition appendRetainedEvent (event : Event) (s : State) : Event * State :=
  let event := ev_set_sequence (u64 (get_or 0 (EventLatest s) (ev_SandboxID event) + 1)) event in
  (event,
   mkState (Sandboxes s) (Operations s) (Leases s)
     (<[ev_SandboxID event := retain (get_or [] (Events s) (ev_SandboxID event) ++ [event])]> (Events s))
     (<[ev_SandboxID event := ev_Sequence event]> (EventLatest s))
     (Idempotency s) (Fencing s)).

Definition generation_conflict (current sandbox : Sandbox) (expectedGeneration : Z) : Prop :=
  sb_Generation current ≠ expectedGeneration ∨ sb_Generation sandbox < sb_Generation current
  ∨ sb_Generation sandbox > u64 (sb_Generation current + 1).

#[export] Instance generation_conflict_dec c s g : Decision (generation_conflict c s g).
Proof. unfold generation_conflict. apply _. Defined.

Definition ReserveMutation (idempotencyKey requestDigest : string) (expectedGeneration : Z)
    (sandbox : Sandbox) (operation : Operation) (event : Event) (s : State)
    : result (MutationResult * State) :=
  _ ← Sandbox_Validate sandbox;
  _ ← Operation_Validate operation;
  _ ← Event_Validate event;
  if decide (op_Type operation = OperationCreate ∨ op_State operation ≠ OperationAccepted
             ∨ op_SandboxID operation ≠ sb_ID sandbox ∨ ev_OperationID event ≠ op_ID operation
             ∨ ev_SandboxID event ≠ sb_ID sandbox)
  then Err [ErrConflict : sentinel] else
  if decide (blank idempotencyKey = true ∨ is_ok (ValidateDigest requestDigest) = false)
  then Err [ErrConflict : sentinel] else
  match Sandboxes s !! sb_ID sandbox with
  | None => Err [ErrNotFound : sentinel]
  | Some current =>
      let iscope := idempotencyScope (sb_ProviderRevisionID current) idempotencyKey in
      match Idempotency s !! iscope with
      | Some existing =>
          if decide (ir_RequestDigest existing ≠ requestDigest
                     ∨ op_ID (ir_Operation existing) ≠ op_ID operation
                     ∨ op_AttemptID (ir_Operation existing) ≠ op_AttemptID operation)
          then Err [ErrIdempotencyConflict : sentinel]
          else Ok (mkMutationResult (ir_Operation existing) current true, s)
      | None =>
          if decide (generation_conflict current sandbox expectedGeneration)
          then Err [ErrGenerationConflict : sentinel] else
          if decide (¬ sameSandboxIdentity current sandbox
                     ∨ sb_CreatedAt sandbox ≠ sb_CreatedAt current
                     ∨ Before (sb_UpdatedAt sandbox) (sb_UpdatedAt current))
          then Err [ErrConflict : sentinel] else
          let scope := fencingScope (sb_ProviderRevisionID current) (sb_ID current) in
          let currentFence := get_or 0 (Fencing s) scope in
          if decide (op_FencingToken operation < currentFence)
          then Err [ErrStaleFencingToken : sentinel] else
          if decide (is_Some (Operations s !! op_ID operation))
          then Err [ErrAlreadyExists : sentinel] else
          if decide (ev_Generation event ≠ sb_Generation sandbox
                     ∨ ev_FencingToken event ≠ op_FencingToken operation)
          then Err [ErrConflict : sentinel] else
          match Leases s !! sb_ID sandbox with
          | None => Err [ErrNotFound : sentinel]
          | Some lease =>
              let lease := mkLease (ls_SandboxID lease) (sb_LeaseExpiresAt sandbox)
                             (sb_Generation sandbox) (op_FencingToken operation) in
              let s1 :=
                mkState
                  (<[sb_ID sandbox := sandbox]> (Sandboxes s))
                  (<[op_ID operation := operation]> (Operations s))
                  (<[sb_ID sandbox := lease]> (Leases s))
                  (Events s) (EventLatest s)
                  (<[iscope := mkIdempotencyRecord iscope idempotencyKey requestDigest operation]> (Idempotency s))
                  (if decide (op_FencingToken operation > currentFence)
                   then <[scope := op_FencingToken operation]> (Fencing s) else Fencing s) in
              let '(_, s2) := appendRetainedEvent event s1 in
              Ok (mkMutationResult operation sandbox false, s2)
          end
      end
  end.

(** ** Sandboxes *)

Definition GetSandbox (id : string) (s : State) : result Sandbox :=
  match Sandboxes s !! id with
  | Some sandbox => Ok sandbox
  | None => Err [ErrNotFound : sentinel]
  end.

Definition ListSandboxes (s : State) : list Sandbox := sort_by sb_ID (map_to_list (Sandboxes s)).*2.

Definition UpdateSandbox (sandbox : Sandbox) (expectedGeneration fencingToken : Z) (s : State)
    : result (unit * State) :=
  _ ← Sandbox_Validate sandbox;
  match Sandboxes s !! sb_ID sandbox with
  | None => Err [ErrNotFound : sentinel]
  | Some current =>
      if decide (generation_conflict current sandbox expectedGeneration)
      then Err [ErrGenerationConflict : sentinel] else
      _ ← checkCurrentFencing (Fencing s) (sb_ProviderRevisionID current) (sb_ID current) fencingToken;
      if decide (sb_LeaseExpiresAt sandbox ≠ sb_LeaseExpiresAt current)
      then Err [ErrConflict : sentinel] else
      if decide (sb_Network sandbox ≠ sb_Network current) then Err [ErrConflict : sentinel] else
      leases ←
        (if decide (sb_Generation sandbox ≠ sb_Generation current) then
           match Leases s !! sb_ID sandbox with
           | None => Err [ErrNotFound : sentinel]
           | Some lease =>
               Ok (<[sb_ID sandbox := mkLease (ls_SandboxID lease) (ls_ExpiresAt lease)
                       (sb_Generation sandbox) (ls_FencingToken lease)]> (Leases s))
           end
         else Ok (Leases s));
      Ok ((), mkState (<[sb_ID sandbox := sandbox]> (Sandboxes s)) (Operations s) leases
                (Events s) (EventLatest s) (Idempotency s) (Fencing s))
  end.

(** ** Operations *)

Definition GetOperation (id : string) (s : State) : result Operation :=
  match Operations s !! id with
  | Some operation => Ok operation
  | None => Err [ErrNotFound : sentinel]
  end.

Definition ListOperations (s : State) : list Operation := sort_by op_ID (map_to_list (Operations s)).*2.

(** The loop over the map returns a record whose operation has the given id;
    which one is found first is unspecified by Go, here it is the first of
    [map_to_list].  At most one exists in a reachable state. *)
Definition IdempotencyForOperation (s : State) (operationID : string) : option IdempotencyRecord :=
  head (filter (λ r, op_ID (ir_Operation r) = operationID) (map_to_list (Idempotency s)).*2).

Definition UpdateOperation (operation : Operation) (s : State) : result (unit * State) :=
  _ ← Operation_Validate operation;
  match Operations s !! op_ID operation with
  | None => Err [ErrNotFound : sentinel]
  | Some current =>
      if decide (op_SandboxID current ≠ op_SandboxID operation
                 ∨ op_AttemptID current ≠ op_AttemptID operation)
      then Err [ErrConflict : sentinel] else
      _ ← checkCurrentFencing (Fencing s) (operationProviderRevision s (op_SandboxID operation))
            (op_SandboxID operation) (op_FencingToken operation);
      let idem :=
        match IdempotencyForOperation s (op_ID operation) with
        | Some record =>
            <[ir_Scope record := mkIdempotencyRecord (ir_Scope record) (ir_Key record)
                                   (ir_RequestDigest record) operation]> (Idempotency s)
        | None => Idempotency s
        end in
      Ok ((), mkState (Sandboxes s) (<[op_ID operation := operation]> (Operations s)) (Leases s)
                (Events s) (EventLatest s) idem (Fencing s))
  end.

(** ** Leases *)

Definition GetLease (id : string) (s : State) : result Lease :=
  match Leases s !! id with
  | Some lease => Ok lease
  | None => Err [ErrNotFound : sentinel]
  end.

Definition sb_set_lease_expiry (exp : Time) (s : Sandbox) : Sandbox :=
  sb_set_lease exp (sb_UpdatedAt s) s.

Definition ReplaceLease (lease : Lease) (fencingToken : Z) (s : State) : result (unit * State) :=
  _ ← Lease_Validate lease;
  match Leases s !! ls_SandboxID lease with
  | None => Err [ErrNotFound : sentinel]
  | Some current =>
      if decide (ls_Generation lease ≠ ls_Generation current)
      then Err [ErrGenerationConflict : sentinel] else
      match Sandboxes s !! ls_SandboxID lease with
      | None => Err [ErrNotFound : sentinel]
      | Some sandbox =>
          _ ← checkCurrentFencing (Fencing s) (sb_ProviderRevisionID sandbox) (sb_ID sandbox) fencingToken;
          Ok ((), mkState
                (<[ls_SandboxID lease := sb_set_lease_expiry (ls_ExpiresAt lease) sandbox]> (Sandboxes s))
                (Operations s) (<[ls_SandboxID lease := lease]> (Leases s))
                (Events s) (EventLatest s) (Idempotency s) (Fencing s))
      end
  end.

(** ** Events *)

Definition same_event (existing event : Event) : Prop :=
  ev_OperationID existing = ev_OperationID event ∧ ev_Generation existing = ev_Generation event ∧
  ev_FencingToken existing = ev_FencingToken event ∧ ev_Kind existing = ev_Kind event ∧
  ev_DataDigest existing = ev_DataDigest event.

#[export] Instance same_event_dec a b : Decision (same_event a b).
Proof. unfold same_event. apply _. Defined.

Definition AppendEvent (event : Event) (s : State) : result (Event * State) :=
  _ ← Event_Validate event;
  match Sandboxes s !! ev_SandboxID event with
  | None => Err [ErrNotFound : sentinel]
  | Some sandbox =>
      if decide (ev_Generation event > sb_Generation sandbox)
      then Err [ErrGenerationConflict : sentinel] else
      _ ← checkCurrentFencing (Fencing s) (sb_ProviderRevisionID sandbox) (sb_ID sandbox)
            (ev_FencingToken event);
      match head (filter (λ e, ev_ID e = ev_ID event) (get_or [] (Events s) (ev_SandboxID event))) with
      | Some existing =>
          if decide (¬ same_event existing event) then Err [ErrConflict : sentinel]
          else Ok (existing, s)
      | None => Ok (appendRetainedEvent event s)
      end
  end.

(** [ReadEvents] slices the retained events; indices out of range would panic. *)
Definition ReadEvents (sandboxID : string) (after limit : Z) (s : State) : result EventPage :=
  if decide (limit ≤ 0 ∨ limit > maxEventPageSize) then Err [ErrInvalidCursor : sentinel] else
  if decide (Sandboxes s !! sandboxID = None) then Err [ErrNotFound : sentinel] else
  let all := get_or [] (Events s) sandboxID in
  let latest := get_or 0 (EventLatest s) sandboxID in
  first ← (if decide (latest > 0)
           then match all with e :: _ => Ok (ev_Sequence e) | [] => Err [ErrRuntimePanic] end
           else Ok 0);
  if decide (after > latest)
  then Err [ErrInvalidCursor : sentinel; ErrCursorAhead : sentinel; CursorBounds first latest] else
  if decide (first > 0 ∧ u64 (after + 1) < first)
  then Err [ErrInvalidCursor : sentinel; ErrCursorExpired : sentinel; CursorBounds first latest] else
  let start := if decide (first > 0) then i64 (u64 (u64 (after + 1) - first)) else 0 in
  let stop := Z.min (start + limit) (Z.of_nat (length all)) in
  if decide (start < 0 ∨ stop < start) then Err [ErrRuntimePanic] else
  let result := take (Z.to_nat (stop - start)) (drop (Z.to_nat start) all) in
  let next := match last result with Some e => ev_Sequence e | None => after end in
  Ok (mkEventPage result first latest next).

Definition ListEvents (sandboxID : string) (after limit : Z) (s : State) : result (list Event) :=
  page ← ReadEvents sandboxID after limit s; Ok (pg_Events page).

#[global] Arguments ReserveCreate : simpl never.
#[global] Arguments ReserveMutation : simpl never.
#[global] Arguments UpdateSandbox : simpl never.
#[global] Arguments UpdateOperation : simpl never.
#[global] Arguments ReplaceLease : simpl never.
#[global] Arguments AppendEvent : simpl never.
#[global] Arguments ReadEvents : simpl never.
#[global] Arguments checkCurrentFencing : simpl never.
#[global] Arguments fencingScope : simpl never.
#[global] Arguments idempotencyScope : simpl never.

(** ** Composite keys *)

Lemma scope_nonempty a b : fencingScope a b ≠ "".
Proof. unfold fencingScope. by destruct a. Qed.

Lemma fencingScope_inj a1 a2 b1 b2 :
  identifierPattern a1 = true → identifierPattern a2 = true →
  fencingScope a1 b1 = fencingScope a2 b2 → a1 = a2 ∧ b1 = b2.
Proof.
  unfold fencingScope. intros H1%identifierPattern_no_NUL H2%identifierPattern_no_NUL.
  by apply (append_sep_inj identifier_rest).
Qed.

Lemma checkCurrentFencing_Ok f a b t u :
  checkCurrentFencing f a b t = Ok u ↔ t ≠ 0 ∧ get_or 0 f (fencingScope a b) = t.
Proof.
  unfold checkCurrentFencing. rewrite !guard_Ok. destruct u.
  split; [intros (?&?%dec_stable&_)|intros [? ->]]; naive_solver.
Qed.

(** ** The repository invariant *)

(** The events of a sandbox whose latest sequence number is [n] are numbered
    consecutively up to [n]. *)
Definition numbered (n : Z) (evs : list Event) : Prop :=
  ev_Sequence <$> evs = seqZ (n - Z.of_nat (length evs) + 1) (Z.of_nat (length evs)).

Definition event_ok (s : State) (k : string) (e : Event) : Prop :=
  ev_SandboxID e = k ∧ Event_Validate e = Ok () ∧ is_Some (Operations s !! ev_OperationID e).

Record state_wf (s : State) : Prop := mkStateWf {
  wf_sandboxes k sb : Sandboxes s !! k = Some sb → sb_ID sb = k ∧ Sandbox_Validate sb = Ok ();
  wf_operations k o : Operations s !! k = Some o →
    op_ID o = k ∧ Operation_Validate o = Ok () ∧ is_Some (Sandboxes s !! op_SandboxID o);
  wf_leases k l : Leases s !! k = Some l →
    ls_SandboxID l = k ∧ Lease_Validate l = Ok () ∧ is_Some (Sandboxes s !! k);
  wf_lease_of k sb : Sandboxes s !! k = Some sb →
    ∃ l tok, Leases s !! k = Some l ∧ ls_ExpiresAt l = sb_LeaseExpiresAt sb ∧
      ls_Generation l = sb_Generation sb ∧
      Fencing s !! fencingScope (sb_ProviderRevisionID sb) (sb_ID sb) = Some tok ∧
      ls_FencingToken l ≤ tok;
  wf_events k evs : Events s !! k = Some evs →
    evs ≠ [] ∧ (length evs ≤ maxRetainedEvents)%nat ∧ is_Some (Sandboxes s !! k) ∧
    Forall (event_ok s k) evs ∧
    ∃ n, EventLatest s !! k = Some n ∧ Z.of_nat (length evs) ≤ n < 2^64 ∧ numbered n evs;
  wf_latest k n : EventLatest s !! k = Some n → is_Some (Events s !! k);
  wf_idempotency k r : Idempotency s !! k = Some r →
    ir_Scope r = k ∧ k ≠ "" ∧ ir_Key r ≠ "" ∧ ir_RequestDigest r ≠ "" ∧
    Operations s !! op_ID (ir_Operation r) = Some (ir_Operation r);
  wf_idempotency_inj k1 k2 r1 r2 :
    Idempotency s !! k1 = Some r1 → Idempotency s !! k2 = Some r2 →
    op_ID (ir_Operation r1) = op_ID (ir_Operation r2) → k1 = k2;
  wf_fencing k t : Fencing s !! k = Some t → k ≠ "" ∧ t ≠ 0;
}.

Lemma NewState_wf : state_wf NewState.
Proof. split; cbn; intros *; rewrite ?lookup_empty; done. Qed.

Lemma numbered_snoc n evs e :
  numbered n evs → ev_Sequence e = n + 1 → numbered (n + 1) (evs ++ [e]).
Proof.
  unfold numbered. intros H He. rewrite fmap_app, H, length_app.
  replace (length evs + length [e])%nat with (S (length evs)) by (cbn; lia).
  rewrite seqZ_S. cbn [fmap list_fmap]. rewrite He. do 2 f_equal; lia.
Qed.

Lemma numbered_drop k n evs : (k ≤ length evs)%nat → numbered n evs → numbered n (drop k evs).
Proof.
  unfold numbered. intros Hk H. rewrite <- (take_drop k evs) in H.
  rewrite fmap_app, length_app, Nat2Z.inj_add in H.
  rewrite seqZ_app in H by lia.
  apply app_inj_2 in H as [_ H].
  - rewrite H. f_equal. lia.
  - rewrite length_fmap, length_seqZ. lia.
Qed.

Lemma retain_spec evs :
  (length (retain evs) ≤ maxRetainedEvents)%nat ∧
  ∃ k, (k ≤ length evs)%nat ∧ retain evs = drop k evs ∧ (evs ≠ [] → retain evs ≠ []).
Proof.
  unfold retain. case_decide as Hl.
  - rewrite length_drop. split; [lia|]. exists (length evs - maxRetainedEvents)%nat.
    split_and!; [lia|done|]. intros _ Hn. apply (f_equal length) in Hn.
    rewrite length_drop in Hn. unfold maxRetainedEvents in *. cbn in Hn. lia.
  - split; [lia|]. exists 0%nat. by split_and!; [lia|..].
Qed.

(** The events of a sandbox, absent ones included. *)
Lemma wf_events_all s k :
  state_wf s →
  let evs := get_or [] (Events s) k in let n := get_or 0 (EventLatest s) k in
  (length evs ≤ maxRetainedEvents)%nat ∧ Forall (event_ok s k) evs ∧
  Z.of_nat (length evs) ≤ n < 2^64 ∧ numbered n evs ∧ (0 < n → evs ≠ []).
Proof.
  intros Hwf. cbv zeta. unfold get_or. destruct (Events s !! k) as [evs|] eqn:E.
  - destruct (wf_events s Hwf _ _ E) as (Hne & Hlen & _ & Hall & n & Hn & Hb & Hnum).
    rewrite Hn. cbn. by split_and!; try lia.
  - destruct (EventLatest s !! k) as [n|] eqn:En.
    { destruct (wf_latest s Hwf _ _ En). congruence. }
    cbn. split_and!; try done; lia.
Qed.

(** ** Preservation of the invariant *)

Lemma event_ok_mono s s' k e :
  (∀ i, is_Some (Operations s !! i) → is_Some (Operations s' !! i)) →
  event_ok s k e → event_ok s' k e.
Proof. unfold event_ok. naive_solver. Qed.

(** The fence of one sandbox is not affected by that of another. *)
Lemma fencing_scope_other s k sb sb' t :
  state_wf s → Sandboxes s !! k = Some sb → Sandbox_Validate sb' = Ok () → sb_ID sb' ≠ k →
  <[fencingScope (sb_ProviderRevisionID sb') (sb_ID sb') := t]> (Fencing s)
    !! fencingScope (sb_ProviderRevisionID sb) (sb_ID sb)
  = Fencing s !! fencingScope (sb_ProviderRevisionID sb) (sb_ID sb).
Proof.
  intros Hwf Hk Hv Hne. apply lookup_insert_ne. intros Heq.
  destruct (wf_sandboxes s Hwf _ _ Hk) as [Hid Hvs].
  apply Sandbox_Validate_ids in Hv as [_ ?], Hvs as [_ ?].
  apply fencingScope_inj in Heq as [_ Heq]; congruence.
Qed.

Lemma appendRetainedEvent_wf s e :
  state_wf s → Event_Validate e = Ok () → is_Some (Sandboxes s !! ev_SandboxID e) →
  is_Some (Operations s !! ev_OperationID e) →
  get_or 0 (EventLatest s) (ev_SandboxID e) < 2^64 - 1 →
  state_wf (appendRetainedEvent e s).2.
Proof.
  intros Hwf He Hs Ho Hroom.
  destruct (wf_events_all s (ev_SandboxID e) Hwf) as (Hlen & Hall & Hb & Hnum & _).
  set (evs := get_or [] (Events s) (ev_SandboxID e)) in *.
  set (n := get_or 0 (EventLatest s) (ev_SandboxID e)) in *.
  assert (Hn : u64 (n + 1) = n + 1) by (apply u64_small; unfold u64_range; lia).
  split; cbn; try (by apply Hwf); fold n; rewrite Hn.
  - intros k l Hl. ins_inv Hl.
    2: { destruct (wf_events s Hwf _ _ Hl) as (?&?&?&Hf&n'&?&?&?).
         split_and!; try done. exists n'. rewrite lookup_insert_ne by done. done. }
    fold evs. destruct (retain_spec (evs ++ [ev_set_sequence (n + 1) e]))
      as (Hr & i & Hi & Hdrop & Hne).
    split_and!; [apply Hne; by destruct evs|done|done| |].
    + rewrite Hdrop. apply Forall_drop, Forall_app. split; [|repeat constructor; done].
      done.
    + exists (n + 1). rewrite lookup_insert_eq. split; [done|].
      rewrite Hdrop. rewrite length_drop in *. rewrite length_app in *. cbn in *.
      split; [lia|]. apply numbered_drop; [by rewrite length_app|]. by apply numbered_snoc.
  - intros k m Hm. ins_inv Hm; [apply insert_eq_is_Some|].
    apply insert_is_Some. by eapply wf_latest.
Qed.

Lemma ReserveCreate_Ok key digest sb op s r s' :
  ReserveCreate key digest sb op s = Ok (r, s') →
  Sandbox_Validate sb = Ok () ∧ Operation_Validate op = Ok () ∧ blank key = false ∧
  digestPattern digest = true ∧ op_Type op = OperationCreate ∧ op_State op = OperationAccepted ∧
  op_SandboxID op = sb_ID sb ∧
  let scope := fencingScope (sb_ProviderRevisionID sb) (sb_ID sb) in
  let iscope := idempotencyScope (sb_ProviderRevisionID sb) key in
  ((∃ rec, Idempotency s !! iscope = Some rec ∧ ir_RequestDigest rec = digest ∧
      op_ID (ir_Operation rec) = op_ID op ∧ r = mkCreateResult (ir_Operation rec) true ∧ s' = s) ∨
   (Idempotency s !! iscope = None ∧ Sandboxes s !! sb_ID sb = None ∧
    Operations s !! op_ID op = None ∧ get_or 0 (Fencing s) scope < op_FencingToken op ∧
    r = mkCreateResult op false ∧
    s' = mkState
            (<[sb_ID sb := sb]> (Sandboxes s)) (<[op_ID op := op]> (Operations s))
            (<[sb_ID sb := mkLease (sb_ID sb) (sb_LeaseExpiresAt sb)
                                  (sb_Generation sb) (op_FencingToken op)]> (Leases s))
            (Events s) (EventLatest s)
            (<[iscope := mkIdempotencyRecord iscope key digest op]> (Idempotency s))
            (<[scope := op_FencingToken op]> (Fencing s)))).
Proof.
  unfold ReserveCreate. intros H.
  apply bind_Ok in H as ([] & Hs & H). apply bind_Ok in H as ([] & Ho & H).
  apply guard_Ok in H as [Hb H]. apply bind_Ok in H as ([] & Hd & H).
  apply guard_Ok in H as [Hg H]. nor Hg. boolify. apply ValidateDigest_Ok in Hd.
  apply dec_stable in Hg, Hg0, Hg1. split_and!; try done. cbv zeta in *.
  destruct (Idempotency s !! _) as [rec|] eqn:E.
  - left. exists rec. inv_ok H. nor Hguard. apply dec_stable in Hguard, Hguard0. done.
  - right. inv_ok H. apply eq_None_not_Some in Hguard, Hguard0. split_and!; try done. lia.
Qed.

(** Recording a new operation together with its sandbox, lease, idempotency
    record and fence, as both reservations do. *)
Definition admitted (key digest : string) (sb : Sandbox) (op : Operation) (fencing : gmap string Z)
    (s : State) : State :=
  let iscope := idempotencyScope (sb_ProviderRevisionID sb) key in
  mkState
    (<[sb_ID sb := sb]> (Sandboxes s)) (<[op_ID op := op]> (Operations s))
    (<[sb_ID sb := mkLease (sb_ID sb) (sb_LeaseExpiresAt sb) (sb_Generation sb) (op_FencingToken op)]> (Leases s))
    (Events s) (EventLatest s)
    (<[iscope := mkIdempotencyRecord iscope key digest op]> (Idempotency s))
    fencing.

Lemma admitted_idempotency key digest sb op fencing s :
  state_wf s → blank key = false → digestPattern digest = true → Operations s !! op_ID op = None →
  let s' := admitted key digest sb op fencing s in
  (∀ k r, Idempotency s' !! k = Some r →
    ir_Scope r = k ∧ k ≠ "" ∧ ir_Key r ≠ "" ∧ ir_RequestDigest r ≠ "" ∧
    Operations s' !! op_ID (ir_Operation r) = Some (ir_Operation r)) ∧
  (∀ k1 k2 r1 r2, Idempotency s' !! k1 = Some r1 → Idempotency s' !! k2 = Some r2 →
    op_ID (ir_Operation r1) = op_ID (ir_Operation r2) → k1 = k2).
Proof.
  intros Hwf Hb Hd HO. cbn. split.
  - intros k x Hk. ins_inv Hk; cbn.
    + split_and!; try (by auto with go); [apply scope_nonempty|by rewrite lookup_insert_eq].
    + destruct (wf_idempotency s Hwf _ _ Hk) as (?&?&?&?&Hop). split_and!; try done.
      rewrite lookup_insert_ne; [done|]. intros Heq. congruence.
  - intros k1 k2 r1 r2 H1 H2 Heq. ins_inv H1; ins_inv H2; cbn in *; try done.
    + destruct (wf_idempotency s Hwf _ _ H2) as (_&_&_&_&Hop). congruence.
    + destruct (wf_idempotency s Hwf _ _ H1) as (_&_&_&_&Hop). congruence.
    + by eapply (wf_idempotency_inj s Hwf).
Qed.

Lemma admitted_wf key digest sb op tok s :
  state_wf s → Sandbox_Validate sb = Ok () → Operation_Validate op = Ok () →
  blank key = false → digestPattern digest = true → op_SandboxID op = sb_ID sb →
  Operations s !! op_ID op = None → op_FencingToken op ≤ tok → tok ≠ 0 →
  state_wf (admitted key digest sb op
    (<[fencingScope (sb_ProviderRevisionID sb) (sb_ID sb) := tok]> (Fencing s)) s).
Proof.
  intros Hwf Hs Ho Hb Hd Hid HO Hle Hnz.
  pose proof (proj1 (Operation_Validate_Ok _ _) Ho) as ((_ & _ & _ & Htok & _) & _).
  pose proof (proj1 (Sandbox_Validate_Ok _ _) Hs) as (_ & _ & _ & Hg & _ & Hexp & _).
  destruct (Sandbox_Validate_ids _ _ Hs) as [Hpid _].
  destruct (admitted_idempotency key digest sb op
    (<[fencingScope (sb_ProviderRevisionID sb) (sb_ID sb) := tok]> (Fencing s)) s) as [Hi1 Hi2]; try done.
  split; cbn; try done.
  - intros k x Hk. ins_inv Hk; [done|]. by apply Hwf.
  - intros k x Hk. ins_inv Hk; [rewrite Hid; auto with go|].
    destruct (wf_operations s Hwf _ _ Hk) as (?&?&?). auto with go.
  - intros k x Hk. ins_inv Hk.
    + split_and!; [done| |auto with go]. apply Lease_Validate_Ok. by split_and!.
    + destruct (wf_leases s Hwf _ _ Hk) as (?&?&?). auto with go.
  - intros k x Hk. ins_inv Hk.
    + rewrite !lookup_insert_eq. do 2 eexists. by split_and!.
    + destruct (wf_lease_of s Hwf _ _ Hk) as (l & t & ?&?&?&?&?). exists l, t.
      rewrite lookup_insert_ne by done. by rewrite (fencing_scope_other s k).
  - intros k x Hk. destruct (wf_events s Hwf _ _ Hk) as (?&?&?&Hf'&?).
    split_and!; try done; [auto with go|].
    eapply Forall_impl; [exact Hf'|]. intros e. apply event_ok_mono. cbn. auto with go.
  - apply Hwf.
  - intros k t Hk. ins_inv Hk; [split; [apply scope_nonempty|done]|]. by apply Hwf in Hk.
Qed.

Lemma ReserveCreate_wf key digest sb op s r s' :
  state_wf s → ReserveCreate key digest sb op s = Ok (r, s') → state_wf s'.
Proof.
  intros Hwf (Hs & Ho & Hb & Hd & Hty & Hst & Hid & [(rec & _ & _ & _ & _ & ->)|
    (Hi & HS & HO & Hf & _ & ->)])%ReserveCreate_Ok; [done|].
  pose proof (proj1 (Operation_Validate_Ok _ _) Ho) as ((_ & _ & _ & Htok & _) & _).
  apply (admitted_wf key digest sb op (op_FencingToken op)); done || lia.
Qed.

(** The state before the event of a fresh mutation is appended. *)
Definition mutated (key digest : string) (current sb : Sandbox) (op : Operation) (s : State) : State :=
  let iscope := idempotencyScope (sb_ProviderRevisionID current) key in
  let scope := fencingScope (sb_ProviderRevisionID current) (sb_ID current) in
  mkState
    (<[sb_ID sb := sb]> (Sandboxes s)) (<[op_ID op := op]> (Operations s))
    (<[sb_ID sb := mkLease (sb_ID sb) (sb_LeaseExpiresAt sb) (sb_Generation sb) (op_FencingToken op)]> (Leases s))
    (Events s) (EventLatest s)
    (<[iscope := mkIdempotencyRecord iscope key digest op]> (Idempotency s))
    (if decide (op_FencingToken op > get_or 0 (Fencing s) scope)
     then <[scope := op_FencingToken op]> (Fencing s) else Fencing s).

Lemma ReserveMutation_Ok key digest g sb op ev s r s' :
  ReserveMutation key digest g sb op ev s = Ok (r, s') →
  Sandbox_Validate sb = Ok () ∧ Operation_Validate op = Ok () ∧ Event_Validate ev = Ok () ∧
  blank key = false ∧ digestPattern digest = true ∧ op_Type op ≠ OperationCreate ∧
  op_State op = OperationAccepted ∧ op_SandboxID op = sb_ID sb ∧ ev_OperationID ev = op_ID op ∧
  ev_SandboxID ev = sb_ID sb ∧
  ∃ current, Sandboxes s !! sb_ID sb = Some current ∧
  let iscope := idempotencyScope (sb_ProviderRevisionID current) key in
  let scope := fencingScope (sb_ProviderRevisionID current) (sb_ID current) in
  ((∃ rec, Idempotency s !! iscope = Some rec ∧ ir_RequestDigest rec = digest ∧
      op_ID (ir_Operation rec) = op_ID op ∧ op_AttemptID (ir_Operation rec) = op_AttemptID op ∧
      r = mkMutationResult (ir_Operation rec) current true ∧ s' = s) ∨
   (Idempotency s !! iscope = None ∧ ¬ generation_conflict current sb g ∧
    sameSandboxIdentity current sb ∧ sb_CreatedAt sb = sb_CreatedAt current ∧
    sb_UpdatedAt current ≤ sb_UpdatedAt sb ∧
    get_or 0 (Fencing s) scope ≤ op_FencingToken op ∧ Operations s !! op_ID op = None ∧
    ev_Generation ev = sb_Generation sb ∧ ev_FencingToken ev = op_FencingToken op ∧
    r = mkMutationResult op sb false ∧
    ∃ lease, Leases s !! sb_ID sb = Some lease ∧
      (ls_SandboxID lease = sb_ID sb →
       s' = (appendRetainedEvent ev (mutated key digest current sb op s)).2))).
Proof.
  unfold ReserveMutation, Before. intros H.
  apply bind_Ok in H as ([] & Hs & H). apply bind_Ok in H as ([] & Ho & H).
  apply bind_Ok in H as ([] & He & H).
  apply guard_Ok in H as [Hg H]. nor Hg. apply guard_Ok in H as [Hk H]. nor Hk. boolify.
  apply dec_stable in Hg, Hg1, Hg2, Hg3.
  apply is_ok_true in Hk as [? Hd%ValidateDigest_Ok]. split_and!; try done.
  destruct (Sandboxes s !! _) as [current|] eqn:E; [|done].
  exists current. split; [done|]. cbv zeta in *.
  destruct (Idempotency s !! _) as [rec|] eqn:Ei.
  - left. exists rec. inv_ok H. nor Hguard. apply dec_stable in Hguard, Hguard0, Hguard1. done.
  - right. do 5 (let G := fresh "G" in apply guard_Ok in H as [G H]).
    nor G0. nor G3. apply dec_stable in G4, G5, G3, G6. apply eq_None_not_Some in G2.
    destruct (Leases s !! _) as [lease|] eqn:El; [|done].
    destruct (appendRetainedEvent ev _) as [e2 s2] eqn:Ea. injection H as <- <-.
    split_and!; try done; [lia|lia|]. exists lease. split; [done|]. intros Hls.
    rewrite Hls in Ea. unfold mutated. cbv zeta. by rewrite Ea.
Qed.

Lemma mutated_wf key digest current sb op s :
  state_wf s → Sandbox_Validate sb = Ok () → Operation_Validate op = Ok () →
  blank key = false → digestPattern digest = true → op_SandboxID op = sb_ID sb →
  Sandboxes s !! sb_ID sb = Some current → sameSandboxIdentity current sb →
  get_or 0 (Fencing s) (fencingScope (sb_ProviderRevisionID current) (sb_ID current)) ≤ op_FencingToken op →
  Operations s !! op_ID op = None →
  state_wf (mutated key digest current sb op s).
Proof.
  intros Hwf Hs Ho Hb Hd Hid HS (Hsid & _ & _ & _ & Hrev & _) Hf HO.
  pose proof (proj1 (Operation_Validate_Ok _ _) Ho) as ((_ & _ & _ & Htok & _) & _).
  destruct (wf_lease_of s Hwf _ _ HS) as (l & t & _ & _ & _ & Ht & _).
  unfold mutated. rewrite (get_or_Some _ _ _ _ Ht) in *. rewrite Hrev, Hsid in *.
  pose proof (admitted_wf key digest sb op (op_FencingToken op) s) as Hadm.
  case_decide; [apply Hadm; done || lia|].
  rewrite insert_id in Hadm; [apply Hadm; done || lia|].
  rewrite Ht. f_equal. lia.
Qed.

Lemma ReserveMutation_wf key digest g sb op ev s r s' :
  state_wf s → ReserveMutation key digest g sb op ev s = Ok (r, s') →
  get_or 0 (EventLatest s) (ev_SandboxID ev) < 2^64 - 1 → state_wf s'.
Proof.
  intros Hwf (Hs & Ho & He & Hb & Hd & Hty & Hst & Hid & Heo & Hes & current & HS &
    [(rec & _ & _ & _ & _ & _ & ->)|
     (Hi & Hg & Hsame & Hc & Hu & Hf & HO & Heg & Hef & _ & lease & Hl & Heq)])%ReserveMutation_Ok Hroom;
    [done|].
  rewrite Heq by (by apply (wf_leases s Hwf) in Hl as [? _]).
  apply appendRetainedEvent_wf; try done.
  - by apply mutated_wf.
  - rewrite Hes. unfold mutated. cbn. auto with go.
  - rewrite Heo. unfold mutated. cbn. auto with go.
Qed.

Lemma UpdateSandbox_Ok sb g tok s u s' :
  UpdateSandbox sb g tok s = Ok (u, s') →
  Sandbox_Validate sb = Ok () ∧
  ∃ current, Sandboxes s !! sb_ID sb = Some current ∧ ¬ generation_conflict current sb g ∧
  tok ≠ 0 ∧ get_or 0 (Fencing s) (fencingScope (sb_ProviderRevisionID current) (sb_ID current)) = tok ∧
  sb_LeaseExpiresAt sb = sb_LeaseExpiresAt current ∧ sb_Network sb = sb_Network current ∧
  ∃ leases,
    s' = mkState (<[sb_ID sb := sb]> (Sandboxes s)) (Operations s) leases
           (Events s) (EventLatest s) (Idempotency s) (Fencing s) ∧
    ((sb_Generation sb = sb_Generation current ∧ leases = Leases s) ∨
     (∃ l, Leases s !! sb_ID sb = Some l ∧
        leases = <[sb_ID sb := mkLease (ls_SandboxID l) (ls_ExpiresAt l) (sb_Generation sb)
                                 (ls_FencingToken l)]> (Leases s))).
Proof.
  unfold UpdateSandbox. intros H. apply bind_Ok in H as ([] & Hs & H). split; [done|].
  destruct (Sandboxes s !! _) as [current|] eqn:E; [|done]. exists current.
  apply guard_Ok in H as [Hg H]. apply bind_Ok in H as ([] & [Hz Hf]%checkCurrentFencing_Ok & H).
  apply guard_Ok in H as [Hl%dec_stable H]. apply guard_Ok in H as [Hn%dec_stable H].
  apply bind_Ok in H as (leases & Hle & [= <- <-]). split_and!; try done.
  exists leases. split; [done|]. case_decide as Hd.
  - right. destruct (Leases s !! _) as [l|]; [|done]. inv_ok Hle. eauto.
  - left. by inv_ok Hle.
Qed.

Lemma UpdateSandbox_wf sb g tok s u s' :
  state_wf s → UpdateSandbox sb g tok s = Ok (u, s') →
  (∀ current, Sandboxes s !! sb_ID sb = Some current →
     sb_ProviderRevisionID sb = sb_ProviderRevisionID current) →
  state_wf s'.
Proof.
  intros Hwf (Hs & current & HS & Hg & Hz & Hf & Hl & Hn & leases & -> & Hle)%UpdateSandbox_Ok Hrev.
  specialize (Hrev _ HS). destruct (wf_lease_of s Hwf _ _ HS) as (l & t & Hl1 & Hl2 & Hl3 & Hl4 & Hl5).
  destruct (wf_leases s Hwf _ _ Hl1) as (Hls & Hlv & _). apply Lease_Validate_Ok in Hlv as (?&?&?&?).
  pose proof (proj1 (Sandbox_Validate_Ok _ _) Hs) as (_ & _ & _ & Hg0 & _).
  destruct (wf_sandboxes s Hwf _ _ HS) as [Hcid _].
  assert (Hleases : leases = <[sb_ID sb := mkLease (sb_ID sb) (ls_ExpiresAt l) (sb_Generation sb)
                                 (ls_FencingToken l)]> (Leases s)).
  { destruct Hle as [[Heq ->]|(l' & Hl' & ->)]; [|by simplify_eq; rewrite Hls].
    symmetry. apply insert_id. rewrite Hl1, Heq, <- Hl3. by destruct l; simplify_eq/=. }
  subst leases. split; cbn; try (by apply Hwf).
  - intros k x Hk. ins_inv Hk; [done|]. by apply Hwf.
  - intros k x Hk. destruct (wf_operations s Hwf _ _ Hk) as (?&?&?). auto with go.
  - intros k x Hk. ins_inv Hk.
    + split_and!; [done| |auto with go]. apply Lease_Validate_Ok. cbn.
      rewrite <- Hls. split_and!; done.
    + destruct (wf_leases s Hwf _ _ Hk) as (?&?&?). auto with go.
  - intros k x Hk. ins_inv Hk.
    + rewrite lookup_insert_eq. exists (mkLease (sb_ID x) (ls_ExpiresAt l) (sb_Generation x)
        (ls_FencingToken l)), t. cbn. split_and!; try done; [congruence|].
      by rewrite Hrev, <- Hcid.
    + destruct (wf_lease_of s Hwf _ _ Hk) as (l' & t' & ?&?&?&?&?). exists l', t'.
      by rewrite lookup_insert_ne.
  - intros k x Hk. destruct (wf_events s Hwf _ _ Hk) as (?&?&?&?&?). split_and!; auto with go.
Qed.

(** A record found by [IdempotencyForOperation] is the only one of its operation. *)
Lemma IdempotencyForOperation_Some s id r :
  state_wf s → IdempotencyForOperation s id = Some r →
  Idempotency s !! ir_Scope r = Some r ∧ op_ID (ir_Operation r) = id.
Proof.
  unfold IdempotencyForOperation. intros Hwf Hh. apply head_Some in Hh as [rest Hh].
  assert (r ∈ filter (λ r, op_ID (ir_Operation r) = id) (map_to_list (Idempotency s)).*2) as Hin'
    by (rewrite Hh; left). clear Hh. rename Hin' into Hh.
  apply list_elem_of_filter in Hh as [Hid Hin]. split; [|done].
  apply list_elem_of_fmap in Hin as ([k r'] & Heq & Hin). cbn in Heq. subst r'.
  apply elem_of_map_to_list in Hin.
  by destruct (wf_idempotency s Hwf _ _ Hin) as (-> & _).
Qed.

Lemma IdempotencyForOperation_None s id k r :
  IdempotencyForOperation s id = None → Idempotency s !! k = Some r → op_ID (ir_Operation r) ≠ id.
Proof.
  unfold IdempotencyForOperation. intros Hh%head_None Hk Hid.
  assert (r ∈ filter (λ r, op_ID (ir_Operation r) = id) (map_to_list (Idempotency s)).*2) as Hin.
  { apply list_elem_of_filter. split; [done|]. apply list_elem_of_fmap.
    exists (k, r). split; [done|]. by apply elem_of_map_to_list. }
  rewrite Hh in Hin. by apply elem_of_nil in Hin.
Qed.

Lemma UpdateOperation_Ok op s u s' :
  UpdateOperation op s = Ok (u, s') →
  Operation_Validate op = Ok () ∧
  ∃ current, Operations s !! op_ID op = Some current ∧ op_SandboxID current = op_SandboxID op ∧
  op_AttemptID current = op_AttemptID op ∧ op_FencingToken op ≠ 0 ∧
  get_or 0 (Fencing s) (fencingScope (operationProviderRevision s (op_SandboxID op)) (op_SandboxID op))
    = op_FencingToken op ∧
  s' = mkState (Sandboxes s) (<[op_ID op := op]> (Operations s)) (Leases s) (Events s) (EventLatest s)
         (match IdempotencyForOperation s (op_ID op) with
          | Some r => <[ir_Scope r := mkIdempotencyRecord (ir_Scope r) (ir_Key r)
                                        (ir_RequestDigest r) op]> (Idempotency s)
          | None => Idempotency s
          end) (Fencing s).
Proof.
  unfold UpdateOperation. intros H. apply bind_Ok in H as ([] & Ho & H). split; [done|].
  destruct (Operations s !! _) as [current|] eqn:E; [|done]. exists current.
  apply guard_Ok in H as [Hg H]. nor Hg. apply dec_stable in Hg, Hg0.
  apply bind_Ok in H as ([] & [Hz Hf]%checkCurrentFencing_Ok & [= <- <-]).
  by split_and!.
Qed.

(** Every idempotency record after an operation update: the record of that
    operation holds the new value, the others are unchanged. *)
Lemma UpdateOperation_idempotency op s u s' k r :
  state_wf s → UpdateOperation op s = Ok (u, s') → Idempotency s' !! k = Some r →
  ∃ r0, Idempotency s !! k = Some r0 ∧ ir_Scope r = ir_Scope r0 ∧ ir_Key r = ir_Key r0 ∧
    ir_RequestDigest r = ir_RequestDigest r0 ∧ op_ID (ir_Operation r) = op_ID (ir_Operation r0) ∧
    ir_Operation r = (if decide (op_ID (ir_Operation r0) = op_ID op) then op else ir_Operation r0).
Proof.
  intros Hwf (_ & current & Hc & _ & _ & _ & _ & ->)%UpdateOperation_Ok Hk. cbn in Hk.
  destruct (IdempotencyForOperation s (op_ID op)) as [rec|] eqn:E.
  - apply IdempotencyForOperation_Some in E as [Hrec Hid]; [|done].
    ins_inv Hk.
    + exists rec. cbn. rewrite decide_True by done. by split_and!.
    + exists r. split_and!; try done. rewrite decide_False; [done|]. intros Heq.
      rewrite <- Hid in Heq. by apply (wf_idempotency_inj s Hwf k (ir_Scope rec)) in Heq; [symmetry in Heq|..].
  - exists r. split_and!; try done. rewrite decide_False; [done|].
    by eapply IdempotencyForOperation_None.
Qed.

Lemma UpdateOperation_wf op s u s' :
  state_wf s → UpdateOperation op s = Ok (u, s') → state_wf s'.
Proof.
  intros Hwf Hup. pose proof (λ k r, UpdateOperation_idempotency op s u s' k r Hwf Hup) as Hidem.
  apply UpdateOperation_Ok in Hup as (Ho & current & Hc & Hsb & _ & _ & _ & Hs').
  destruct (wf_operations s Hwf _ _ Hc) as (_ & _ & Hcs).
  assert (Hops : Operations s' = <[op_ID op := op]> (Operations s)) by (by subst s').
  split.
  1, 3, 4, 6, 9: subst s'; cbn; by apply Hwf.
  - subst s'. cbn. intros k x Hk. ins_inv Hk; [by rewrite <- Hsb|]. by apply Hwf.
  - intros k x Hk. assert (Hk' : Events s !! k = Some x) by (by subst s').
    destruct (wf_events s Hwf _ _ Hk') as (?&?&?&Hf'&?). subst s'. split_and!; try done.
    eapply Forall_impl; [exact Hf'|]. intros e. apply event_ok_mono. cbn. auto with go.
  - intros k r Hk. destruct (Hidem k r Hk) as (r0 & H0 & E1 & E2 & E3 & E4 & E5).
    destruct (wf_idempotency s Hwf _ _ H0) as (?&?&?&?&Hop).
    rewrite E1, E2, E3, Hops. split_and!; try done. case_decide as Hd.
    + by rewrite E5, lookup_insert_eq.
    + by rewrite E5, lookup_insert_ne.
  - intros k1 k2 r1 r2 H1 H2 Heq.
    destruct (Hidem _ _ H1) as (r1' & H1' & _ & _ & _ & E1 & _).
    destruct (Hidem _ _ H2) as (r2' & H2' & _ & _ & _ & E2 & _).
    eapply (wf_idempotency_inj s Hwf); [done..|]. by rewrite <- E1, <- E2.
Qed.

Lemma ReplaceLease_Ok lease tok s u s' :
  ReplaceLease lease tok s = Ok (u, s') →
  Lease_Validate lease = Ok () ∧ ∃ current sb, Leases s !! ls_SandboxID lease = Some current ∧
  ls_Generation lease = ls_Generation current ∧ Sandboxes s !! ls_SandboxID lease = Some sb ∧
  tok ≠ 0 ∧ get_or 0 (Fencing s) (fencingScope (sb_ProviderRevisionID sb) (sb_ID sb)) = tok ∧
  s' = mkState (<[ls_SandboxID lease := sb_set_lease_expiry (ls_ExpiresAt lease) sb]> (Sandboxes s))
         (Operations s) (<[ls_SandboxID lease := lease]> (Leases s))
         (Events s) (EventLatest s) (Idempotency s) (Fencing s).
Proof.
  unfold ReplaceLease. intros H. apply bind_Ok in H as ([] & Hlv & H). split; [done|].
  destruct (Leases s !! _) as [current|] eqn:El; [|done]. apply guard_Ok in H as [Hg%dec_stable H].
  destruct (Sandboxes s !! _) as [sb|] eqn:Es; [|done].
  apply bind_Ok in H as ([] & [Hz Hf]%checkCurrentFencing_Ok & [= <- <-]).
  exists current, sb. by split_and!.
Qed.

Lemma ReplaceLease_wf lease tok s u s' :
  state_wf s → ReplaceLease lease tok s = Ok (u, s') → ls_FencingToken lease ≤ tok → state_wf s'.
Proof.
  intros Hwf (Hlv & current & sb & El & Hg & Es & Hz & <- & ->)%ReplaceLease_Ok Htok.
  destruct (wf_lease_of s Hwf _ _ Es) as (l & t & Hl1 & Hl2 & Hl3 & Hl4 & Hl5).
  destruct (wf_sandboxes s Hwf _ _ Es) as [Hsid Hsv]. simplify_eq.
  pose proof (proj1 (Lease_Validate_Ok _ _) Hlv) as (? & ? & ? & ?).
  rewrite (get_or_Some _ _ _ _ Hl4) in Htok.
  split; cbn; try (by apply Hwf).
  - intros k x Hk. ins_inv Hk; [|by apply Hwf]. split; [done|].
    apply Sandbox_Validate_Ok in Hsv as (?&?&?&?&?&?&?&?&?).
    apply Sandbox_Validate_Ok. cbn. by split_and!.
  - intros k x Hk. destruct (wf_operations s Hwf _ _ Hk) as (?&?&?). auto with go.
  - intros k x Hk. ins_inv Hk; [auto with go|].
    destruct (wf_leases s Hwf _ _ Hk) as (?&?&?). auto with go.
  - intros k x Hk. ins_inv Hk.
    + rewrite lookup_insert_eq. exists lease, t. cbn. split_and!; try done. congruence.
    + destruct (wf_lease_of s Hwf _ _ Hk) as (l' & t' & ?&?&?&?&?). exists l', t'.
      by rewrite lookup_insert_ne.
  - intros k x Hk. destruct (wf_events s Hwf _ _ Hk) as (?&?&?&?&?). split_and!; auto with go.
Qed.

Lemma AppendEvent_Ok ev s e s' :
  AppendEvent ev s = Ok (e, s') →
  Event_Validate ev = Ok () ∧ ∃ sb, Sandboxes s !! ev_SandboxID ev = Some sb ∧
  ev_Generation ev ≤ sb_Generation sb ∧ ev_FencingToken ev ≠ 0 ∧
  get_or 0 (Fencing s) (fencingScope (sb_ProviderRevisionID sb) (sb_ID sb)) = ev_FencingToken ev ∧
  ((e ∈ get_or [] (Events s) (ev_SandboxID ev) ∧ ev_ID e = ev_ID ev ∧ same_event e ev ∧ s' = s) ∨
   ((∀ x, x ∈ get_or [] (Events s) (ev_SandboxID ev) → ev_ID x ≠ ev_ID ev) ∧
    (e, s') = appendRetainedEvent ev s)).
Proof.
  unfold AppendEvent. intros H. apply bind_Ok in H as ([] & Hv & H). split; [done|].
  destruct (Sandboxes s !! _) as [sb|] eqn:Es; [|done]. exists sb.
  apply guard_Ok in H as [Hg H]. apply bind_Ok in H as ([] & [Hz Hf]%checkCurrentFencing_Ok & H).
  split_and!; try (done || lia).
  destruct (head (filter _ _)) as [x|] eqn:Eh.
  - left. apply guard_Ok in H as [Hsame%dec_stable [= <- <-]].
    apply head_Some in Eh as [rest Eh].
    assert (x ∈ filter (λ e, ev_ID e = ev_ID ev) (get_or [] (Events s) (ev_SandboxID ev))) as Hin
      by (rewrite Eh; left).
    apply list_elem_of_filter in Hin as [? ?]. by split_and!.
  - right. apply head_None in Eh. split; [|congruence].
    intros x Hx Hid.
    assert (x ∈ filter (λ e, ev_ID e = ev_ID ev) (get_or [] (Events s) (ev_SandboxID ev))) as Hin
      by (by apply list_elem_of_filter).
    rewrite Eh in Hin. by apply elem_of_nil in Hin.
Qed.

Lemma AppendEvent_wf ev s e s' :
  state_wf s → AppendEvent ev s = Ok (e, s') →
  is_Some (Operations s !! ev_OperationID ev) →
  get_or 0 (EventLatest s) (ev_SandboxID ev) < 2^64 - 1 → state_wf s'.
Proof.
  intros Hwf (Hv & sb & HS & _ & _ & _ & [(_ & _ & _ & ->)|[_ Heq]])%AppendEvent_Ok Ho Hroom; [done|].
  replace s' with (appendRetainedEvent ev s).2 by (by rewrite <- Heq).
  apply appendRetainedEvent_wf; eauto.
Qed.
