(* ===== verification/LifecycleRepository.v ===== *)
(** * Runs of the lifecycle repository

    The writing operations of [provider/lifecycle/repository/state.go] as one
    transition system: a call, its effect on the state, and the states
    reachable by calls.  The theorems are the guarantees the repository port
    makes to the coordinator whatever the order in which concurrent callers'
    operations are serialised by the adapter's lock. *)

From S2P Require Import Prelude LifecycleModel LifecycleTransition LifecycleState.
From stdpp Require Import base gmap strings list fin_maps relations.
From Stdlib Require Import ZArith Lia.

Local Open Scope Z_scope.

Inductive repo_call :=
  | CallReserveCreate (key digest : string) (sb : Sandbox) (op : Operation)
  | CallReserveMutation (key digest : string) (g : Z) (sb : Sandbox) (op : Operation) (ev : Event)
  | CallUpdateSandbox (sb : Sandbox) (g tok : Z)
  | CallUpdateOperation (op : Operation)
  | CallReplaceLease (l : Lease) (tok : Z)
  | CallAppendEvent (ev : Event).

Definition repo_exec (c : repo_call) (s : State) : result State :=
  match c with
  | CallReserveCreate key digest sb op => r ← ReserveCreate key digest sb op s; Ok r.2
  | CallReserveMutation key digest g sb op ev => r ← ReserveMutation key digest g sb op ev s; Ok r.2
  | CallUpdateSandbox sb g tok => r ← UpdateSandbox sb g tok s; Ok r.2
  | CallUpdateOperation op => r ← UpdateOperation op s; Ok r.2
  | CallReplaceLease l tok => r ← ReplaceLease l tok s; Ok r.2
  | CallAppendEvent ev => r ← AppendEvent ev s; Ok r.2
  end.

(** The sandbox a call writes and the fencing token it presents. *)
Definition call_sandbox (c : repo_call) : string :=
  match c with
  | CallReserveCreate _ _ sb _ | CallReserveMutation _ _ _ sb _ _ | CallUpdateSandbox sb _ _ => sb_ID sb
  | CallUpdateOperation op => op_SandboxID op
  | CallReplaceLease l _ => ls_SandboxID l
  | CallAppendEvent ev => ev_SandboxID ev
  end.

Definition call_token (c : repo_call) : Z :=
  match c with
  | CallReserveCreate _ _ _ op | CallReserveMutation _ _ _ _ op _ | CallUpdateOperation op =>
      op_FencingToken op
  | CallUpdateSandbox _ _ tok | CallReplaceLease _ tok => tok
  | CallAppendEvent ev => ev_FencingToken ev
  end.

(** What the repository relies on its callers for: a sandbox update keeps the
    provider revision, a replaced lease carries no token above the one
    presented, an appended event names a recorded operation. *)
Definition disciplined (s : State) (c : repo_call) : Prop :=
  match c with
  | CallUpdateSandbox sb _ _ =>
      ∀ current, Sandboxes s !! sb_ID sb = Some current →
        sb_ProviderRevisionID sb = sb_ProviderRevisionID current
  | CallReplaceLease l tok => ls_FencingToken l ≤ tok
  | CallAppendEvent ev => is_Some (Operations s !! ev_OperationID ev)
  | _ => True
  end.

(** A call that succeeds and whose caller keeps to this discipline. *)
Definition disciplined_step (s s' : State) : Prop := ∃ c, disciplined s c ∧ repo_exec c s = Ok s'.

Definition fence_of (s : State) (sb : Sandbox) : Z :=
  get_or 0 (Fencing s) (fencingScope (sb_ProviderRevisionID sb) (sb_ID sb)).

Definition latest_of (s : State) (k : string) : Z := get_or 0 (EventLatest s) k.

(** [exec_cases H] names the successful call behind [H : repo_exec c s = Ok s']. *)
Ltac exec_cases H :=
  cbn [repo_exec] in H;
  let r := fresh "r" in let s1 := fresh "s1" in
  apply bind_Ok in H as ([r s1] & H & [= <-]); cbn [snd] in *.

(** ** Event counters *)

Lemma latest_range s k : state_wf s → 0 ≤ latest_of s k < 2^64.
Proof. intros Hwf. destruct (wf_events_all s k Hwf) as (_&_&?&_). unfold latest_of. lia. Qed.

Lemma appendRetainedEvent_latest e s k :
  0 ≤ latest_of s (ev_SandboxID e) →
  latest_of (appendRetainedEvent e s).2 k ≤ latest_of s k + 1.
Proof.
  unfold latest_of. cbn. intros H0. unfold get_or at 1. rewrite lookup_insert.
  case_decide as Heq; [subst|unfold get_or; lia]. cbn.
  unfold u64. apply Z.mod_le; lia.
Qed.

Lemma repo_exec_latest c s s' k :
  state_wf s → repo_exec c s = Ok s' → latest_of s' k ≤ latest_of s k + 1.
Proof.
  intros Hwf H. destruct c; exec_cases H.
  - apply ReserveCreate_Ok in H as (_&_&_&_&_&_&_&[(?&_&_&_&_&->)|(_&_&_&_&_&->)]);
      unfold latest_of; cbn; lia.
  - apply ReserveMutation_Ok in H as (_&_&_&_&_&_&_&_&_&_&cur&HS&[(?&_&_&_&_&_&->)|H]); [lia|].
    destruct H as (_&_&_&_&_&_&_&_&_&_&l&Hl&Heq).
    rewrite Heq by (by apply (wf_leases s Hwf) in Hl as [? _]).
    etransitivity; [apply appendRetainedEvent_latest|unfold latest_of; cbn; lia].
    by apply (latest_range s).
  - apply UpdateSandbox_Ok in H as (_&cur&_&_&_&_&_&_&l&->&_). unfold latest_of; cbn; lia.
  - apply UpdateOperation_Ok in H as (_&cur&_&_&_&_&_&->). unfold latest_of; cbn; lia.
  - apply ReplaceLease_Ok in H as (_&cur&sb&_&_&_&_&_&->). unfold latest_of; cbn; lia.
  - apply AppendEvent_Ok in H as (_&sb&_&_&_&_&[(_&_&_&->)|[_ Heq]]); [lia|].
    replace s1 with (appendRetainedEvent ev s).2 by (by rewrite <- Heq).
    apply appendRetainedEvent_latest. by apply latest_range.
Qed.

Lemma repo_exec_wf c s s' :
  state_wf s → disciplined s c → latest_of s (call_sandbox c) < 2^64 - 1 →
  repo_exec c s = Ok s' → state_wf s'.
Proof.
  intros Hwf Hd Hroom H. destruct c; exec_cases H; cbn [disciplined call_sandbox] in *.
  - by eapply ReserveCreate_wf.
  - eapply ReserveMutation_wf; [done..|].
    apply ReserveMutation_Ok in H as (_&_&_&_&_&_&_&_&_&->&_). done.
  - by eapply UpdateSandbox_wf.
  - by eapply UpdateOperation_wf.
  - by eapply ReplaceLease_wf.
  - by eapply AppendEvent_wf.
Qed.

Lemma steps_wf n s t :
  nsteps disciplined_step n s t → state_wf s → (∀ k, latest_of s k + Z.of_nat n < 2^64) →
  state_wf t ∧ ∀ k, latest_of t k ≤ latest_of s k + Z.of_nat n.
Proof.
  revert t. induction n as [|n IH]; intros t Hn Hs Hlt.
  - inversion Hn; subst. split; [done|]. intros k. lia.
  - apply nsteps_inv_r in Hn as (s0 & Hn & c & Hd & Hc).
    destruct (IH s0 Hn Hs) as [Hwf Hlat]; [intros k; specialize (Hlt k); lia|].
    assert (Hroom := Hlat (call_sandbox c)). split.
    + eapply repo_exec_wf; [done..| |done]. specialize (Hlt (call_sandbox c)). lia.
    + intros k. pose proof (repo_exec_latest c s0 t k Hwf Hc). specialize (Hlat k). lia.
Qed.

Lemma NewState_latest k : latest_of NewState k = 0.
Proof. unfold latest_of, get_or; cbn. by rewrite lookup_empty. Qed.

Lemma reachable_wf n s :
  nsteps disciplined_step n NewState s → Z.of_nat n < 2^64 →
  state_wf s ∧ ∀ k, latest_of s k ≤ Z.of_nat n.
Proof.
  intros H Hn. destruct (steps_wf n NewState s H NewState_wf) as [Hwf Hl].
  - intros k. rewrite NewState_latest. lia.
  - split; [done|]. intros k. specialize (Hl k). by rewrite NewState_latest in Hl.
Qed.

(** ** Theorems *)

(** C22 (invariant): in every state reached by fewer than 2^64 disciplined calls of
    the repository, in any order (a sandbox update keeps the provider revision, a
    replaced lease carries no token above the one presented, an appended event names
    a recorded operation; the repository does not enforce these), all records are valid and stored under their own key; every
    operation, lease, event and idempotency record refers to a stored sandbox
    or operation; each sandbox has exactly one lease that agrees with its
    expiry and generation and whose token is covered by the fencing high-water
    mark; the retained events of a sandbox (at most 1000) are numbered
    consecutively up to the latest sequence number; and an idempotency record
    holds the current value of the only operation it answers for. *)
Theorem repository_invariant n s :
  nsteps disciplined_step n NewState s → Z.of_nat n < 2^64 → state_wf s.
Proof. intros H Hn. by apply reachable_wf in H as [? _]. Qed.

(** Concrete calls: create the sample sandbox, begin its operation, record the
    event of the transition. *)
Module Runs.

Definition sb0 : Sandbox := created_sandbox Samples.create0 Samples.t0.
Definition op0 : Operation := Samples.operation_at OperationCreate OperationAccepted None.
Definition ev0 : Event :=
  mkEvent "event-1" "sandbox-1" "operation-1" 0 1 7 "provisioning" "" Samples.t0.
Definition create : repo_call := CallReserveCreate "key-1" Samples.digest0 sb0 op0.
Definition after_create : State :=
  match repo_exec create NewState with Ok s => s | Err _ => NewState end.
Definition append : repo_call := CallAppendEvent ev0.
Definition after_event : State :=
  match repo_exec append after_create with Ok s => s | Err _ => after_create end.

Definition terminate0 : TerminateRequest :=
  mkTerminateRequest (Samples.mutation "terminate-1" 7 1) "caller request".
Definition sb1 : Sandbox := sb_set_desired DesiredTerminated 2 (Samples.t0 + 1) sb0.
Definition op1 : Operation :=
  mutationOperation (tr_Mutation terminate0) "sandbox-1" OperationTerminate (Samples.t0 + 1).
Definition ev1 : Event :=
  mkEvent "event-2" "sandbox-1" "terminate-1" 0 2 7 "termination-requested" "" (Samples.t0 + 1).
Definition after_terminate : State :=
  match ReserveMutation "key-terminate-1" Samples.digest0 1 sb1 op1 ev1 after_create with
  | Ok (_, s) => s
  | Err _ => after_create
  end.

Lemma create_step : nsteps disciplined_step 1 NewState after_create.
Proof.
  apply (nsteps_l _ 0 _ after_create); [|constructor].
  exists create. split; [exact I|vm_compute; reflexivity].
Qed.

End Runs.

Lemma repository_invariant_witness :
  nsteps disciplined_step 2 NewState Runs.after_event ∧ state_wf Runs.after_event.
Proof.
  assert (H : nsteps disciplined_step 2 NewState Runs.after_event).
  { apply (nsteps_l _ 1 _ Runs.after_create); [|apply (nsteps_l _ 0 _ Runs.after_event); [|constructor]].
    - exists Runs.create. split; [exact I|vm_compute; reflexivity].
    - exists Runs.append. split; [vm_compute; eauto|vm_compute; reflexivity]. }
  split; [exact H|]. apply (repository_invariant 2 Runs.after_event H). lia.
Defined.

(** *** Fencing *)

Lemma fencing_raise_le (f : gmap string Z) sc k tok :
  get_or 0 f sc ≤ tok → get_or 0 f k ≤ get_or 0 (<[sc:=tok]> f) k.
Proof.
  intros Hle. destruct (decide (sc = k)) as [<-|Hne].
  - by rewrite get_or_insert.
  - by rewrite get_or_insert_ne.
Qed.

Lemma appendRetainedEvent_fencing e s : Fencing (appendRetainedEvent e s).2 = Fencing s.
Proof. done. Qed.

Lemma repo_exec_fencing c s s' :
  state_wf s → repo_exec c s = Ok s' →
  ∀ k, get_or 0 (Fencing s) k ≤ get_or 0 (Fencing s') k.
Proof.
  intros Hwf H k. destruct c; exec_cases H.
  - apply ReserveCreate_Ok in H as (_&_&_&_&_&_&_&[(?&_&_&_&_&->)|(_&_&_&Hf&_&->)]); [done|].
    cbn. apply fencing_raise_le. lia.
  - apply ReserveMutation_Ok in H as (_&_&_&_&_&_&_&_&_&_&cur&_&[(?&_&_&_&_&_&->)|H]); [done|].
    destruct H as (_&_&_&_&_&Hf&_&_&_&_&l&Hl&Heq).
    rewrite Heq by (by apply (wf_leases s Hwf) in Hl as [? _]).
    rewrite appendRetainedEvent_fencing. unfold mutated. cbn.
    case_decide; [by apply fencing_raise_le|done].
  - by apply UpdateSandbox_Ok in H as (_&cur&_&_&_&_&_&_&l&->&_).
  - by apply UpdateOperation_Ok in H as (_&cur&_&_&_&_&_&->).
  - by apply ReplaceLease_Ok in H as (_&cur&sb&_&_&_&_&_&->).
  - apply AppendEvent_Ok in H as (_&sb&_&_&_&_&[(_&_&_&->)|[_ Heq]]); [done|].
    replace s1 with (appendRetainedEvent ev s).2 by (by rewrite <- Heq).
    by rewrite appendRetainedEvent_fencing.
Qed.

(** What a call may do to a stored sandbox. *)
Definition sandbox_grows (sb sb' : Sandbox) : Prop :=
  sb_ID sb' = sb_ID sb ∧ sb_ProviderRevisionID sb' = sb_ProviderRevisionID sb ∧
  sb_Generation sb ≤ sb_Generation sb'.

#[export] Instance sandbox_grows_po : PreOrder sandbox_grows.
Proof.
  split; [by intros ?|]. intros a b c (?&?&?) (?&?&?). split_and!; congruence || lia.
Qed.

Lemma insert_grows (m : gmap string Sandbox) k new i sb :
  (∀ cur, m !! k = Some cur → sandbox_grows cur new) →
  m !! i = Some sb → ∃ sb', <[k:=new]> m !! i = Some sb' ∧ sandbox_grows sb sb'.
Proof.
  intros Hg Hi. rewrite lookup_insert. case_decide as Heq; [subst; eauto|]. by exists sb.
Qed.

Lemma generation_ok_le c sb g : ¬ generation_conflict c sb g →
  g = sb_Generation c ∧ sb_Generation c ≤ sb_Generation sb.
Proof. unfold generation_conflict. intros H. nor H. apply dec_stable in H0. split; [done|lia]. Qed.

Lemma repo_exec_grows c s s' k sb :
  state_wf s → disciplined s c → repo_exec c s = Ok s' → Sandboxes s !! k = Some sb →
  ∃ sb', Sandboxes s' !! k = Some sb' ∧ sandbox_grows sb sb'.
Proof.
  intros Hwf Hd H Hk. destruct c; exec_cases H; cbn [disciplined] in Hd.
  - apply ReserveCreate_Ok in H as (_&_&_&_&_&_&_&[(?&_&_&_&_&->)|(_&HS&_&_&_&->)]); [by exists sb|].
    cbn. apply insert_grows; [|done]. congruence.
  - apply ReserveMutation_Ok in H as (_&_&_&_&_&_&_&_&_&_&cur&HS&[(?&_&_&_&_&_&->)|H]); [by exists sb|].
    destruct H as (_&Hg&Hsame&_&_&_&_&_&_&_&l&Hl&Heq).
    rewrite Heq by (by apply (wf_leases s Hwf) in Hl as [? _]). cbn.
    apply insert_grows; [|done]. intros c' Hc'. simplify_eq.
    apply generation_ok_le in Hg as [_ ?]. destruct Hsame as (?&_&_&_&?&_). by split_and!.
  - apply UpdateSandbox_Ok in H as (_&cur&HS&Hg&_&_&_&_&l&->&_). cbn.
    apply insert_grows; [|done]. intros c' Hc'. simplify_eq.
    apply generation_ok_le in Hg as [_ ?]. specialize (Hd _ HS).
    apply (wf_sandboxes s Hwf) in HS as [? _]. by split_and!.
  - apply UpdateOperation_Ok in H as (_&cur&_&_&_&_&_&->). by exists sb.
  - apply ReplaceLease_Ok in H as (_&cur&sb'&_&_&HS&_&_&->). cbn.
    apply insert_grows; [|done]. intros c' Hc'. by simplify_eq.
  - apply AppendEvent_Ok in H as (_&sb'&_&_&_&_&[(_&_&_&->)|[_ Heq]]); [by exists sb|].
    replace s1 with (appendRetainedEvent ev s).2 by (by rewrite <- Heq). by exists sb.
Qed.

Lemma steps_grow n s t k sb :
  nsteps disciplined_step n s t → state_wf s → (∀ k, latest_of s k + Z.of_nat n < 2^64) →
  Sandboxes s !! k = Some sb →
  ∃ sb', Sandboxes t !! k = Some sb' ∧ sandbox_grows sb sb' ∧ fence_of s sb ≤ fence_of t sb.
Proof.
  revert t. induction n as [|n IH]; intros t Hn Hs Hlt Hk.
  { inversion Hn; subst. by exists sb. }
  apply nsteps_inv_r in Hn as (s0 & Hn & c & Hd & Hc).
  assert (Hlt' : ∀ k, latest_of s k + Z.of_nat n < 2^64) by (intros i; specialize (Hlt i); lia).
  destruct (IH s0 Hn Hs Hlt' Hk) as (sb0 & Hk0 & Hg0 & Hf0).
  destruct (steps_wf n s s0 Hn Hs Hlt') as [Hwf0 _].
  destruct (repo_exec_grows c s0 t k sb0 Hwf0 Hd Hc Hk0) as (sb1 & Hk1 & Hg1).
  exists sb1. split_and!; [done|by etransitivity|].
  etransitivity; [done|]. by apply (repo_exec_fencing c s0 t Hwf0 Hc).
Qed.

Lemma fence_of_grows s sb sb' : sandbox_grows sb sb' → fence_of s sb' = fence_of s sb.
Proof. unfold fence_of. by intros (-> & -> & _). Qed.

(** Only a create reservation writes for an unknown sandbox. *)
Lemma repo_exec_writer_new c s s' :
  state_wf s → repo_exec c s = Ok s' → Sandboxes s !! call_sandbox c = None →
  s' = s ∨ ∃ sb, Sandboxes s' !! call_sandbox c = Some sb ∧ fence_of s' sb = call_token c.
Proof.
  intros Hwf H Hsb. destruct c; cbn [call_sandbox call_token] in *; exec_cases H.
  - apply ReserveCreate_Ok in H as (_&_&_&_&_&_&_&[(?&_&_&_&_&->)|(_&HS&_&_&_&->)]); [by left|right].
    exists sb. unfold fence_of. cbn. by rewrite lookup_insert_eq, get_or_insert.
  - apply ReserveMutation_Ok in H as (_&_&_&_&_&_&_&_&_&_&cur&HS&_). congruence.
  - apply UpdateSandbox_Ok in H as (_&cur&HS&_). congruence.
  - apply UpdateOperation_Ok in H as (_&cur&HO&Hsid&_).
    apply (wf_operations s Hwf) in HO as (_&_&[? ?]). congruence.
  - apply ReplaceLease_Ok in H as (_&cur&sb'&_&_&HS&_). congruence.
  - apply AppendEvent_Ok in H as (_&sb'&HS&_). congruence.
Qed.

Lemma repo_exec_writer_known c s s' sb :
  state_wf s → repo_exec c s = Ok s' → Sandboxes s !! call_sandbox c = Some sb →
  s' = s ∨ fence_of s' sb = call_token c.
Proof.
  intros Hwf H Hsb. pose proof (wf_sandboxes s Hwf _ _ Hsb) as [Hid _]. unfold fence_of.
  destruct c; cbn [call_sandbox call_token] in *; exec_cases H.
  - apply ReserveCreate_Ok in H as (_&_&_&_&_&_&_&[(?&_&_&_&_&->)|(_&HS&_)]); [by left|congruence].
  - apply ReserveMutation_Ok in H as (_&_&_&_&_&_&_&_&_&_&cur&HS&[(?&_&_&_&_&_&->)|H]); [by left|right].
    destruct H as (_&_&_&_&_&Hf&_&_&_&_&l&Hl&Heq). simplify_eq.
    rewrite Heq by (by apply (wf_leases s Hwf) in Hl as [? _]).
    rewrite appendRetainedEvent_fencing. unfold mutated. cbn.
    case_decide; [by rewrite get_or_insert|lia].
  - apply UpdateSandbox_Ok in H as (_&cur&HS&_&_&Hf&_&_&l&->&_). right. cbn. by simplify_eq.
  - apply UpdateOperation_Ok in H as (_&cur&_&_&_&_&Hf&->). right. cbn.
    unfold operationProviderRevision in Hf. by rewrite (get_or_Some _ _ _ _ Hsb), <- Hid in Hf.
  - apply ReplaceLease_Ok in H as (_&cur&sb'&_&_&HS&_&Hf&->). right. cbn. by simplify_eq.
  - apply AppendEvent_Ok in H as (_&sb'&HS&_&_&Hf&[(_&_&_&->)|[_ Heq]]); [by left|right].
    replace s1 with (appendRetainedEvent ev s).2 by (by rewrite <- Heq).
    rewrite appendRetainedEvent_fencing. by simplify_eq.
Qed.

(** A call that writes leaves its own token as the fence of its sandbox. *)
Lemma repo_exec_writer c s s' :
  state_wf s → disciplined s c → repo_exec c s = Ok s' →
  s' = s ∨ ∃ sb, Sandboxes s' !! call_sandbox c = Some sb ∧ fence_of s' sb = call_token c.
Proof.
  intros Hwf Hd H. destruct (Sandboxes s !! call_sandbox c) as [sb|] eqn:Hsb.
  - destruct (repo_exec_writer_known c s s' sb Hwf H Hsb) as [?|Hf]; [by left|right].
    destruct (repo_exec_grows c s s' _ sb Hwf Hd H Hsb) as (sb1 & Hsb1 & Hg).
    exists sb1. split; [done|]. by rewrite (fence_of_grows _ sb).
  - by apply repo_exec_writer_new.
Qed.

(** once a call has changed anything of a sandbox, an attempt that
    presents an older fencing token for it, at any later point of any run,
    cannot change the state: it fails, or it is an exact replay. *)
Theorem stale_attempts_never_write n1 n2 s c s' t c2 t' :
  nsteps disciplined_step n1 NewState s → disciplined s c → repo_exec c s = Ok s' → s' ≠ s →
  nsteps disciplined_step n2 s' t → Z.of_nat n1 + 1 + Z.of_nat n2 < 2^64 →
  call_sandbox c2 = call_sandbox c → call_token c2 < call_token c →
  repo_exec c2 t = Ok t' → t' = t.
Proof.
  intros Hn1 Hd Hc Hne Hn2 Hlt Hsame Htok Hc2.
  destruct (reachable_wf n1 s Hn1) as [Hwf Hlat]; [lia|].
  assert (Hlat' : ∀ k, latest_of s' k + Z.of_nat n2 < 2^64).
  { intros k. pose proof (repo_exec_latest c s s' k Hwf Hc). specialize (Hlat k). lia. }
  assert (Hwf' : state_wf s').
  { eapply repo_exec_wf; [done..| |done]. specialize (Hlat (call_sandbox c)). lia. }
  destruct (repo_exec_writer c s s' Hwf Hd Hc) as [?|(sb & Hsb & Hf)]; [done|].
  destruct (steps_grow n2 s' t _ sb Hn2 Hwf' Hlat' Hsb) as (sbt & Hsbt & Hg & Hfle).
  destruct (steps_wf n2 s' t Hn2 Hwf' Hlat') as [Hwft _].
  rewrite <- Hsame in Hsbt.
  destruct (repo_exec_writer_known c2 t t' sbt Hwft Hc2 Hsbt) as [?|Hf2]; [done|].
  pose proof (repo_exec_fencing c2 t t' Hwft Hc2
    (fencingScope (sb_ProviderRevisionID sbt) (sb_ID sbt))) as Hmono.
  change (fence_of t sbt ≤ fence_of t' sbt) in Hmono.
  rewrite (fence_of_grows t sb) in Hmono by done. lia.
Qed.

Lemma stale_attempts_never_write_witness :
  let stale := CallReserveCreate "key-1" Samples.digest0 Runs.sb0
    (mkOperation "operation-1" "attempt-1" 6 "sandbox-1" OperationCreate OperationAccepted
       (Samples.t0 + Samples.minute) Samples.t0 false None "" "") in
  repo_exec stale Runs.after_create = Ok Runs.after_create ∧
  ∀ t', repo_exec stale Runs.after_create = Ok t' → t' = Runs.after_create.
Proof.
  intros stale. split; [vm_compute; reflexivity|]. intros t' Ht'.
  refine (stale_attempts_never_write 0 0 NewState Runs.create Runs.after_create
            Runs.after_create stale t' _ _ _ _ _ _ _ _ Ht').
  - constructor.
  - exact I.
  - vm_compute; reflexivity.
  - intros H. apply (f_equal (λ s, Sandboxes s !! "sandbox-1")) in H. vm_compute in H. discriminate.
  - constructor.
  - lia.
  - reflexivity.
  - vm_compute; reflexivity.
Defined.

(** *** Generations *)

(** optimistic concurrency never loses an update.  When a mutation
    reserved against generation [g] has moved its sandbox to another
    generation, every later mutation that still expects [g] is refused or is
    an exact replay that writes nothing, and so is every later sandbox update
    that expects [g]. *)
Theorem no_lost_update n1 n2 s key digest g sb op ev r s' t :
  nsteps disciplined_step n1 NewState s →
  ReserveMutation key digest g sb op ev s = Ok (r, s') → mres_Replayed r = false →
  sb_Generation sb ≠ g →
  nsteps disciplined_step n2 s' t → Z.of_nat n1 + 1 + Z.of_nat n2 < 2^64 →
  (∀ key2 digest2 sb2 op2 ev2 r2 t', sb_ID sb2 = sb_ID sb →
     ReserveMutation key2 digest2 g sb2 op2 ev2 t = Ok (r2, t') →
     mres_Replayed r2 = true ∧ t' = t) ∧
  (∀ sb2 tok u t', sb_ID sb2 = sb_ID sb → UpdateSandbox sb2 g tok t ≠ Ok (u, t')).
Proof.
  intros Hn1 Hres Hfresh Hgen Hn2 Hlt.
  destruct (reachable_wf n1 s Hn1) as [Hwf Hlat]; [lia|].
  assert (Hc : repo_exec (CallReserveMutation key digest g sb op ev) s = Ok s').
  { cbn [repo_exec]. by rewrite Hres. }
  assert (Hlat' : ∀ k, latest_of s' k + Z.of_nat n2 < 2^64).
  { intros k. pose proof (repo_exec_latest _ s s' k Hwf Hc). specialize (Hlat k). lia. }
  assert (Hwf' : state_wf s').
  { eapply (repo_exec_wf (CallReserveMutation key digest g sb op ev)); [done..| |done].
    specialize (Hlat (sb_ID sb)). cbn [call_sandbox]. lia. }
  apply ReserveMutation_Ok in Hres as (_&_&_&_&_&_&_&_&_&_&cur&HS&[(?&_&_&_&_&->&_)|H]); [done|].
  destruct H as (_&Hg&_&_&_&_&_&_&_&_&l&Hl&Heq). apply generation_ok_le in Hg as [Hg1 Hg2].
  assert (Hsb' : Sandboxes s' !! sb_ID sb = Some sb).
  { rewrite Heq by (by apply (wf_leases s Hwf) in Hl as [? _]). cbn. by rewrite lookup_insert_eq. }
  destruct (steps_grow n2 s' t _ sb Hn2 Hwf' Hlat' Hsb') as (sbt & Hsbt & (_ & _ & Hgt) & _).
  split.
  - intros key2 digest2 sb2 op2 ev2 r2 t' Hid H2.
    apply ReserveMutation_Ok in H2 as (_&_&_&_&_&_&_&_&_&_&cur2&HS2&[(?&_&_&_&_&->&->)|H2]); [done|].
    destruct H2 as (_&Hc2&_). apply generation_ok_le in Hc2 as [? _].
    rewrite Hid in HS2. simplify_eq. lia.
  - intros sb2 tok u t' Hid H2.
    apply UpdateSandbox_Ok in H2 as (_&cur2&HS2&Hc2&_). apply generation_ok_le in Hc2 as [? _].
    rewrite Hid in HS2. simplify_eq. lia.
Qed.

Lemma no_lost_update_witness :
  ReserveMutation "key-terminate-1" Samples.digest0 1 Runs.sb1 Runs.op1 Runs.ev1 Runs.after_create
    = Ok (mkMutationResult Runs.op1 Runs.sb1 false, Runs.after_terminate) ∧
  ∀ sb2 tok u t', sb_ID sb2 = "sandbox-1" →
    UpdateSandbox sb2 1 tok Runs.after_terminate ≠ Ok (u, t').
Proof.
  split; [vm_compute; reflexivity|].
  apply (no_lost_update 1 0 Runs.after_create "key-terminate-1" Samples.digest0 1 Runs.sb1
           Runs.op1 Runs.ev1 (mkMutationResult Runs.op1 Runs.sb1 false)
           Runs.after_terminate Runs.after_terminate).
  - exact Runs.create_step.
  - vm_compute; reflexivity.
  - reflexivity.
  - vm_compute. discriminate.
  - constructor.
  - lia.
Defined.

(** *** Idempotency *)

(** The record under a key keeps answering for the same request. *)
Definition same_request (r r' : IdempotencyRecord) : Prop :=
  ir_RequestDigest r' = ir_RequestDigest r ∧ op_ID (ir_Operation r') = op_ID (ir_Operation r) ∧
  op_AttemptID (ir_Operation r') = op_AttemptID (ir_Operation r).

#[export] Instance same_request_po : PreOrder same_request.
Proof. split; [by intros ?|]. intros a b c (?&?&?) (?&?&?). split_and!; congruence. Qed.

Lemma insert_fresh_keeps {A} (m : gmap string A) k v i x :
  m !! k = None → m !! i = Some x → <[k:=v]> m !! i = Some x.
Proof. intros Hk Hi. rewrite lookup_insert_ne; [done|]. congruence. Qed.

Lemma repo_exec_idempotency c s s' k r :
  state_wf s → repo_exec c s = Ok s' → Idempotency s !! k = Some r →
  ∃ r', Idempotency s' !! k = Some r' ∧ same_request r r'.
Proof.
  intros Hwf H Hk. destruct c; exec_cases H.
  - apply ReserveCreate_Ok in H as (_&_&_&_&_&_&_&[(?&_&_&_&_&->)|(Hi&_&_&_&_&->)]); [by exists r|].
    exists r. split; [by apply insert_fresh_keeps|done].
  - apply ReserveMutation_Ok in H as (_&_&_&_&_&_&_&_&_&_&cur&_&[(?&_&_&_&_&_&->)|H]); [by exists r|].
    destruct H as (Hi&_&_&_&_&_&_&_&_&_&l&Hl&Heq).
    rewrite Heq by (by apply (wf_leases s Hwf) in Hl as [? _]).
    exists r. split; [by apply insert_fresh_keeps|done].
  - apply UpdateSandbox_Ok in H as (_&cur&_&_&_&_&_&_&l&->&_). by exists r.
  - apply UpdateOperation_Ok in H as (_&cur&HO&_&Hatt&_&_&->). cbn.
    destruct (IdempotencyForOperation s (op_ID op)) as [rec|] eqn:E; [|by exists r].
    apply IdempotencyForOperation_Some in E as [Hrec Hid]; [|done].
    rewrite lookup_insert. case_decide as Heq; [|by exists r].
    assert (r = rec) as -> by congruence.
    destruct (wf_idempotency s Hwf _ _ Hrec) as (_&_&_&_&Hop). rewrite Hid in Hop.
    eexists. split; [done|]. unfold same_request. cbn. split_and!; congruence.
  - apply ReplaceLease_Ok in H as (_&cur&sb&_&_&_&_&_&->). by exists r.
  - apply AppendEvent_Ok in H as (_&sb&_&_&_&_&[(_&_&_&->)|[_ Heq]]); [by exists r|].
    replace s1 with (appendRetainedEvent ev s).2 by (by rewrite <- Heq). by exists r.
Qed.

Lemma steps_idempotency n s t k r :
  nsteps disciplined_step n s t → state_wf s → (∀ k, latest_of s k + Z.of_nat n < 2^64) →
  Idempotency s !! k = Some r → ∃ r', Idempotency t !! k = Some r' ∧ same_request r r'.
Proof.
  revert t. induction n as [|n IH]; intros t Hn Hs Hlt Hk.
  { inversion Hn; subst. by exists r. }
  apply nsteps_inv_r in Hn as (s0 & Hn & c & Hd & Hc).
  assert (Hlt' : ∀ k, latest_of s k + Z.of_nat n < 2^64) by (intros i; specialize (Hlt i); lia).
  destruct (IH s0 Hn Hs Hlt' Hk) as (r0 & Hk0 & Hr0).
  destruct (steps_wf n s s0 Hn Hs Hlt') as [Hwf0 _].
  destruct (repo_exec_idempotency c s0 t k r0 Hwf0 Hc Hk0) as (r1 & ? & ?).
  exists r1. split; [done|]. by etransitivity.
Qed.

(** A create request under a key that is already known. *)
Lemma ReserveCreate_known key digest sb op s r :
  Sandbox_Validate sb = Ok () → Operation_Validate op = Ok () → blank key = false →
  digestPattern digest = true → op_Type op = OperationCreate → op_State op = OperationAccepted →
  op_SandboxID op = sb_ID sb →
  Idempotency s !! idempotencyScope (sb_ProviderRevisionID sb) key = Some r →
  ReserveCreate key digest sb op s =
  if decide (ir_RequestDigest r ≠ digest ∨ op_ID (ir_Operation r) ≠ op_ID op)
  then Err [ErrIdempotencyConflict : sentinel] else Ok (mkCreateResult (ir_Operation r) true, s).
Proof.
  intros Hs Ho Hb Hd Hty Hst Hid Hr. unfold ReserveCreate.
  rewrite Hs, Ho, Hb, (proj2 (ValidateDigest_Ok _ ()) Hd). cbn [mbind result_bind].
  rewrite (decide_False (P:=false = true)) by done.
  rewrite decide_False; [by rewrite Hr|]. intros [?|[?|?]]; congruence.
Qed.

(** after a create has been reserved, repeating the same request
    at any later point of any run returns the operation in its current state,
    marked as replayed, and writes nothing; the same idempotency key with
    another request digest is refused as an idempotency conflict. *)
Theorem create_replay n1 n2 s key digest sb op r s' t :
  nsteps disciplined_step n1 NewState s →
  ReserveCreate key digest sb op s = Ok (r, s') →
  nsteps disciplined_step n2 s' t → Z.of_nat n1 + 1 + Z.of_nat n2 < 2^64 →
  (∃ current, Operations t !! op_ID op = Some current ∧
     ReserveCreate key digest sb op t = Ok (mkCreateResult current true, t)) ∧
  (∀ digest2, digestPattern digest2 = true → digest2 ≠ digest →
     ReserveCreate key digest2 sb op t = Err [ErrIdempotencyConflict : sentinel]).
Proof.
  intros Hn1 Hres Hn2 Hlt.
  destruct (reachable_wf n1 s Hn1) as [Hwf Hlat]; [lia|].
  assert (Hc : repo_exec (CallReserveCreate key digest sb op) s = Ok s').
  { cbn [repo_exec]. by rewrite Hres. }
  assert (Hlat' : ∀ k, latest_of s' k + Z.of_nat n2 < 2^64).
  { intros k. pose proof (repo_exec_latest _ s s' k Hwf Hc). specialize (Hlat k). lia. }
  assert (Hwf' : state_wf s') by (by eapply ReserveCreate_wf).
  apply ReserveCreate_Ok in Hres as (Hs&Ho&Hb&Hd&Hty&Hst&Hid&Hres). cbv zeta in Hres.
  assert (Hrec : ∃ rec, Idempotency s' !! idempotencyScope (sb_ProviderRevisionID sb) key = Some rec
    ∧ ir_RequestDigest rec = digest ∧ op_ID (ir_Operation rec) = op_ID op).
  { destruct Hres as [(rec&?&?&?&_&->)|(_&_&_&_&_&->)]; [by exists rec|].
    cbn. rewrite lookup_insert_eq. by eexists. }
  destruct Hrec as (rec & Hrec & Hdig & Hopid).
  destruct (steps_idempotency n2 s' t _ rec Hn2 Hwf' Hlat' Hrec) as (rt & Hrt & Hd1 & Hd2 & _).
  destruct (steps_wf n2 s' t Hn2 Hwf' Hlat') as [Hwft _].
  destruct (wf_idempotency t Hwft _ _ Hrt) as (_&_&_&_&Hcur).
  split.
  - exists (ir_Operation rt). split; [congruence|].
    rewrite (ReserveCreate_known key digest sb op t rt) by done.
    rewrite decide_False; [done|]. intros [?|?]; congruence.
  - intros digest2 Hdp Hne. rewrite (ReserveCreate_known key digest2 sb op t rt) by done.
    rewrite decide_True; [done|]. left. congruence.
Qed.

Lemma create_replay_witness :
  ∃ current, Operations Runs.after_terminate !! "operation-1" = Some current ∧
    ReserveCreate "key-1" Samples.digest0 Runs.sb0 Runs.op0 Runs.after_terminate
    = Ok (mkCreateResult current true, Runs.after_terminate).
Proof.
  refine (proj1 (create_replay 0 1 NewState "key-1" Samples.digest0 Runs.sb0 Runs.op0
    (mkCreateResult Runs.op0 false) Runs.after_create Runs.after_terminate _ _ _ _)).
  - constructor.
  - vm_compute; reflexivity.
  - apply (nsteps_l _ 0 _ Runs.after_terminate); [|constructor].
    exists (CallReserveMutation "key-terminate-1" Samples.digest0 1 Runs.sb1 Runs.op1 Runs.ev1).
    split; [exact I|vm_compute; reflexivity].
  - lia.
Defined.
