(* ===== verification/LifecycleEvents.v ===== *)
(** * The event log of the lifecycle repository

    [ReadEvents] of [provider/lifecycle/repository/state.go] as the reader's
    side of the log that [appendRetainedEvent] writes: what a page holds, what
    a reader that follows the returned cursor collects, and how the log a later
    reader sees relates to an earlier one. *)

From S2P Require Import Prelude LifecycleModel LifecycleTransition LifecycleState LifecycleRepository.
From stdpp Require Import base gmap strings list fin_maps relations.
From Stdlib Require Import ZArith Lia.

Local Open Scope Z_scope.

(** The retained log of a sandbox, and the part of it after a cursor. *)
Definition log_of (s : State) (id : string) : list Event := get_or [] (Events s) id.
Definition after_cursor (after : Z) (evs : list Event) : list Event :=
  filter (λ e, after < ev_Sequence e) evs.

(** The sequence number of the oldest retained event, 0 when there is none. *)
Definition first_of (s : State) (id : string) : Z :=
  match log_of s id with e :: _ => ev_Sequence e | [] => 0 end.

(** A reader that asks for the next page until a page is empty. *)
Fixpoint read_all (fuel : nat) (id : string) (after limit : Z) (s : State) : result (list Event) :=
  match fuel with
  | O => Err []
  | S fuel =>
      page ← ReadEvents id after limit s;
      match pg_Events page with
      | [] => Ok []
      | evs => rest ← read_all fuel id (pg_NextSequence page) limit s; Ok (evs ++ rest)
      end
  end.

(** ** Numbered logs *)

Lemma filter_none {A} (P : A → Prop) `{!∀ x, Decision (P x)} (l : list A) :
  (∀ x, x ∈ l → ¬ P x) → filter P l = [].
Proof.
  induction l as [|x l IH]; intros Hx; [done|].
  rewrite filter_cons_False by (apply Hx; set_solver). apply IH. set_solver.
Qed.

Lemma numbered_lookup n evs i e :
  numbered n evs → evs !! i = Some e → ev_Sequence e = n - Z.of_nat (length evs) + 1 + Z.of_nat i.
Proof.
  intros Hn Hi. assert (Hs : (ev_Sequence <$> evs) !! i = Some (ev_Sequence e))
    by (by rewrite list_lookup_fmap, Hi).
  rewrite Hn in Hs. by apply lookup_seqZ in Hs as [? _].
Qed.

Lemma numbered_after n evs k :
  numbered n evs → (k ≤ length evs)%nat →
  after_cursor (n - Z.of_nat (length evs) + Z.of_nat k) evs = drop k evs.
Proof.
  intros Hn Hk. set (c := n - Z.of_nat (length evs) + Z.of_nat k).
  transitivity (after_cursor c (take k evs ++ drop k evs)); [by rewrite take_drop|].
  unfold after_cursor. rewrite filter_app, filter_none, filter_all; [done|..]; unfold c.
  - intros e [i Hi]%list_elem_of_lookup. rewrite lookup_drop in Hi.
    apply (numbered_lookup n) in Hi; [lia|done].
  - intros e [i Hi]%list_elem_of_lookup. assert (i < k)%nat.
    { apply lookup_lt_Some in Hi. rewrite length_take in Hi. lia. }
    rewrite lookup_take in Hi. case_decide; [|done]. apply (numbered_lookup n) in Hi; [lia|done].
Qed.

Lemma after_cursor_ge n evs after : numbered n evs → n ≤ after → after_cursor after evs = [].
Proof.
  intros Hn Ha. apply filter_none. intros e [i Hi]%list_elem_of_lookup.
  pose proof (lookup_lt_Some _ _ _ Hi). apply (numbered_lookup n) in Hi; [lia|done].
Qed.

Lemma numbered_first n e evs : numbered n (e :: evs) → ev_Sequence e = n - Z.of_nat (length evs).
Proof.
  intros Hn. rewrite (numbered_lookup n (e :: evs) 0 e) by done. cbn [length]. lia.
Qed.

Lemma numbered_take n evs k :
  (k ≤ length evs)%nat → numbered n evs →
  numbered (n - Z.of_nat (length evs) + Z.of_nat k) (take k evs).
Proof.
  intros Hk Hn. unfold numbered. rewrite length_take, Nat.min_l by done.
  rewrite fmap_take, Hn, <- (take_drop k evs), length_app, length_take, Nat.min_l by done.
  rewrite Nat2Z.inj_add, seqZ_app by lia.
  rewrite take_app_le by (rewrite length_seqZ; lia).
  rewrite take_ge by (rewrite length_seqZ; lia). f_equal; lia.
Qed.

Lemma numbered_last n evs e : numbered n evs → last evs = Some e → ev_Sequence e = n.
Proof.
  rewrite last_lookup. intros Hn Hl. pose proof (lookup_lt_Some _ _ _ Hl).
  apply (numbered_lookup n) in Hl; [|done]. lia.
Qed.

(** The slice [all[start:min(start+limit, len(all))]]. *)
Lemma take_window {A} (l : list A) start limit :
  0 ≤ start ≤ Z.of_nat (length l) → 0 ≤ limit →
  take (Z.to_nat (Z.min (start + limit) (Z.of_nat (length l)) - start)) (drop (Z.to_nat start) l)
  = take (Z.to_nat limit) (drop (Z.to_nat start) l).
Proof.
  intros. destruct (decide (start + limit ≤ Z.of_nat (length l))).
  - f_equal. lia.
  - rewrite !take_ge; [done|rewrite length_drop; lia..].
Qed.

Lemma take_length_id {A} k (l : list A) : take (length (take k l)) l = take k l.
Proof.
  rewrite length_take. destruct (decide (k ≤ length l)%nat).
  - by rewrite Nat.min_l by done.
  - rewrite Nat.min_r by lia. rewrite !take_ge by lia. done.
Qed.

Lemma numbered_page n evs k m :
  (k ≤ length evs)%nat → numbered n evs →
  let page := take m (drop k evs) in
  numbered (n - Z.of_nat (length evs) + Z.of_nat k + Z.of_nat (length page)) page.
Proof.
  intros Hk Hn. cbv zeta. apply numbered_drop with (k := k) in Hn as Hd; [|done].
  rewrite <- take_length_id. set (j := length (take m (drop k evs))).
  assert (Hj : (j ≤ length (drop k evs))%nat) by (unfold j; rewrite length_take; lia).
  pose proof (numbered_take n _ j Hj Hd) as Hq. rewrite length_take, Nat.min_l by done.
  rewrite length_drop in Hq. replace (n - _ + _ + _)
    with (n - Z.of_nat (length evs - k) + Z.of_nat j) by lia. done.
Qed.

(** ** Reading *)

(** The outcome of a read, without machine arithmetic. *)
Definition page_spec (s : State) (id : string) (after limit : Z) : result EventPage :=
  let first := first_of s id in
  let latest := latest_of s id in
  if decide (after > latest)
  then Err [ErrInvalidCursor : sentinel; ErrCursorAhead : sentinel; CursorBounds first latest] else
  if decide (after + 1 < first)
  then Err [ErrInvalidCursor : sentinel; ErrCursorExpired : sentinel; CursorBounds first latest] else
  let evs := take (Z.to_nat limit) (after_cursor after (log_of s id)) in
  Ok (mkEventPage evs first latest (after + Z.of_nat (length evs))).

Lemma ReadEvents_spec s id after limit :
  state_wf s → latest_of s id < 2^64 - 1 → is_Some (Sandboxes s !! id) →
  0 ≤ after → 1 ≤ limit ≤ maxEventPageSize →
  ReadEvents id after limit s = page_spec s id after limit.
Proof.
  intros Hwf Hlat [sb Hsb] Ha Hl. unfold ReadEvents, page_spec, first_of, latest_of, log_of in *.
  destruct (wf_events_all s id Hwf) as (Hlen & _ & Hb & Hnum & Hne).
  set (n := get_or 0 (EventLatest s) id) in *.
  rewrite decide_False by lia. rewrite decide_False by congruence.
  destruct (get_or [] (Events s) id) as [|e evs] eqn:Eevs.
  - cbn [length] in Hb. assert (n = 0) as Hn0.
    { destruct (decide (0 < n)); [by destruct Hne|lia]. }
    rewrite (decide_False (P:=n > 0)) by lia. cbn [mbind result_bind].
    case_decide; [done|]. rewrite (decide_False (P:=0 > 0 ∧ _)) by lia.
    rewrite (decide_False (P:=0 > 0)) by lia. cbn [length]. rewrite !decide_False by lia.
    unfold after_cursor. cbn. rewrite !drop_nil, !take_nil. cbn. do 2 f_equal. lia.
  - pose proof (numbered_first _ _ _ Hnum) as Hfirst. cbn [length] in Hb, Hlen.
    rewrite (decide_True (P:=n > 0)) by lia. cbn [mbind result_bind].
    case_decide; [done|].
    assert (Hfs : u64 (after + 1) = after + 1) by (apply u64_small; unfold u64_range; lia).
    rewrite Hfs.
    destruct (decide (after + 1 < ev_Sequence e)) as [Hx|Hx].
    { by rewrite decide_True by lia. }
    rewrite decide_False by lia. rewrite (decide_True (P:=ev_Sequence e > 0)) by lia.
    rewrite (u64_small (after + 1 - _)), i64_small
      by (unfold u64_range, i64_range, maxRetainedEvents in *; lia).
    set (k := Z.to_nat (after + 1 - ev_Sequence e)).
    assert (Hk : Z.of_nat k = after + 1 - ev_Sequence e) by (unfold k; lia).
    rewrite decide_False by (cbn [length]; lia).
    assert (Haft : after = n - Z.of_nat (length (e :: evs)) + Z.of_nat k) by (cbn [length]; lia).
    assert (Hcur : after_cursor after (e :: evs) = drop k (e :: evs)).
    { rewrite Haft. apply numbered_after; [done|]. cbn [length]. lia. }
    rewrite Hcur.
    rewrite take_window by (cbn [length]; lia). fold k. f_equal.
    assert (Hr := numbered_page n (e :: evs) k (Z.to_nat limit) ltac:(cbn [length]; lia) Hnum).
    rewrite <- Haft in Hr. cbv zeta in Hr.
    destruct (last (take (Z.to_nat limit) (drop k (e :: evs)))) as [x|] eqn:El.
    + cbv beta iota. by rewrite (numbered_last _ _ _ Hr El).
    + apply last_None in El. rewrite El. cbn. f_equal. lia.
Qed.

(** What is after a cursor that is neither ahead nor expired. *)
Lemma after_cursor_drop s id after :
  state_wf s → first_of s id ≤ after + 1 → 0 ≤ after ≤ latest_of s id →
  ∃ k, (k ≤ length (log_of s id))%nat ∧ after_cursor after (log_of s id) = drop k (log_of s id) ∧
    Z.of_nat (length (log_of s id)) - Z.of_nat k = latest_of s id - after.
Proof.
  unfold first_of, latest_of, log_of. intros Hwf Hf Ha.
  destruct (wf_events_all s id Hwf) as (_ & _ & Hb & Hnum & Hne).
  set (evs := get_or [] (Events s) id) in *. set (n := get_or 0 (EventLatest s) id) in *.
  assert (Hlen : n - Z.of_nat (length evs) ≤ after).
  { destruct evs as [|e l]; [destruct (decide (0 < n)); [by destruct Hne|cbn; lia]|].
    rewrite (numbered_first _ _ _ Hnum) in Hf. cbn [length]. lia. }
  exists (Z.to_nat (after - (n - Z.of_nat (length evs)))). split_and!; [lia| |lia].
  rewrite <- (numbered_after n) by (done || lia). f_equal. lia.
Qed.

Lemma after_cursor_numbered s id after :
  state_wf s → first_of s id ≤ after + 1 → 0 ≤ after ≤ latest_of s id →
  ev_Sequence <$> after_cursor after (log_of s id) = seqZ (after + 1) (latest_of s id - after).
Proof.
  intros Hwf Hf Ha. destruct (after_cursor_drop s id after Hwf Hf Ha) as (k & Hk & -> & Heq).
  destruct (wf_events_all s id Hwf) as (_ & _ & _ & Hnum & _).
  pose proof (numbered_drop k _ _ Hk Hnum) as Hd. rewrite Hd, length_drop. fold (log_of s id).
  fold (latest_of s id) in *. f_equal; lia.
Qed.

(** The log after the next cursor is the rest of the log after this one. *)
Lemma after_cursor_next s id after m :
  state_wf s → first_of s id ≤ after + 1 → 0 ≤ after ≤ latest_of s id →
  let evs := after_cursor after (log_of s id) in
  (m ≤ length evs)%nat → after_cursor (after + Z.of_nat m) (log_of s id) = drop m evs.
Proof.
  intros Hwf Hf Ha. destruct (after_cursor_drop s id after Hwf Hf Ha) as (k & Hk & Hd & Heq).
  cbv zeta. rewrite Hd, length_drop, drop_drop. intros Hm.
  destruct (wf_events_all s id Hwf) as (_ & _ & Hb & Hnum & _).
  fold (log_of s id) in *. fold (latest_of s id) in *.
  rewrite <- (numbered_after (latest_of s id)) by (done || lia). f_equal. lia.
Qed.

Lemma read_all_complete s id limit :
  state_wf s → latest_of s id < 2^64 - 1 → is_Some (Sandboxes s !! id) →
  1 ≤ limit ≤ maxEventPageSize → ∀ fuel after,
  first_of s id ≤ after + 1 → 0 ≤ after ≤ latest_of s id →
  latest_of s id - after < Z.of_nat fuel →
  read_all fuel id after limit s = Ok (after_cursor after (log_of s id)).
Proof.
  intros Hwf Hlat Hsb Hl. induction fuel as [|fuel IH]; intros after Hf Ha Hfuel; [lia|].
  cbn [read_all]. rewrite ReadEvents_spec by (done || lia). unfold page_spec.
  rewrite decide_False by lia. rewrite decide_False by lia. cbn [mbind result_bind pg_Events].
  pose proof (after_cursor_next s id after) as Hnext. cbv zeta in Hnext.
  pose proof (f_equal length (after_cursor_numbered s id after Hwf Hf Ha)) as Hlen.
  rewrite length_fmap, length_seqZ in Hlen.
  set (evs := after_cursor after (log_of s id)) in *.
  destruct (take (Z.to_nat limit) evs) as [|e page] eqn:Ep.
  { destruct evs; [done|]. destruct (Z.to_nat limit) eqn:?; [lia|done]. }
  assert (Hpos : (0 < length (take (Z.to_nat limit) evs))%nat) by (rewrite Ep; cbn; lia).
  rewrite <- Ep. clear Ep. cbn [pg_NextSequence].
  assert (Hm : (length (take (Z.to_nat limit) evs) ≤ length evs)%nat) by (rewrite length_take; lia).
  rewrite IH by (rewrite length_take in *; lia). cbn [mbind result_bind].
  rewrite (Hnext (length (take (Z.to_nat limit) evs))) by done.
  rewrite <- (take_length_id (Z.to_nat limit)) at 1. by rewrite take_drop.
Qed.

(** ** The log over time *)

(** [t]'s log of [id] is what remains of [s]'s log after appends at the end and
    drops at the front. *)
Definition log_extends (id : string) (s t : State) : Prop :=
  ∃ k new, log_of t id = drop k (log_of s id ++ new) ∧
    Forall (λ e, latest_of s id < ev_Sequence e) new ∧ latest_of s id ≤ latest_of t id.

Lemma log_extends_refl id s : log_extends id s s.
Proof. exists 0%nat, []. rewrite app_nil_r. split_and!; done || lia. Qed.

Lemma log_extends_trans id s t u : log_extends id s t → log_extends id t u → log_extends id s u.
Proof.
  intros (k1 & n1 & H1 & Hf1 & Hl1) (k2 & n2 & H2 & Hf2 & Hl2).
  destruct (decide (k1 ≤ length (log_of s id ++ n1))%nat) as [Hk|Hk].
  - exists (k1 + k2)%nat, (n1 ++ n2). split_and!; [|apply Forall_app; split; [done|]|lia].
    + rewrite H2, H1, app_assoc, <- (drop_drop _ k2 k1). f_equal.
      by rewrite (drop_app_le _ n2) by done.
    + eapply Forall_impl; [done|]. cbn. intros; lia.
  - rewrite drop_ge in H1 by lia. rewrite H1 in H2.
    exists (length (log_of s id) + k2)%nat, n2. split_and!; [|eapply Forall_impl; [done|]; cbn; intros; lia|lia].
    rewrite H2, <- drop_drop, drop_app_length. done.
Qed.

Lemma log_same id s t : Events t = Events s → EventLatest t = EventLatest s → log_extends id s t.
Proof.
  intros HE HL. exists 0%nat, []. unfold log_of, latest_of. rewrite HE, HL, app_nil_r.
  split_and!; done || lia.
Qed.

Lemma appendRetainedEvent_extends id e s :
  0 ≤ latest_of s (ev_SandboxID e) < 2^64 - 1 → log_extends id s (appendRetainedEvent e s).2.
Proof.
  intros Hr. destruct (decide (ev_SandboxID e = id)) as [Heq|Hne].
  - set (e' := ev_set_sequence (u64 (latest_of s (ev_SandboxID e) + 1)) e).
    destruct (retain_spec (log_of s id ++ [e'])) as (_ & k & _ & Hk & _).
    assert (Hseq : ev_Sequence e' = latest_of s id + 1).
    { cbn. rewrite Heq in *. apply u64_small. unfold u64_range. lia. }
    exists k, [e']. split_and!; [|repeat constructor; lia|].
    + rewrite <- Hk. unfold log_of at 1. cbn. rewrite Heq, get_or_insert.
      unfold e', log_of, latest_of. by rewrite Heq.
    + unfold latest_of at 2. cbn. rewrite Heq, get_or_insert.
      change (u64 _) with (u64 (latest_of s id + 1)). rewrite u64_small; [lia|].
      unfold u64_range. rewrite Heq in Hr. lia.
  - exists 0%nat, []. unfold log_of, latest_of. cbn. rewrite app_nil_r, !get_or_insert_ne by done.
    split_and!; done || lia.
Qed.

Lemma repo_exec_log id c s s' :
  state_wf s → latest_of s (call_sandbox c) < 2^64 - 1 → repo_exec c s = Ok s' → log_extends id s s'.
Proof.
  intros Hwf Hroom H. pose proof (latest_range s (call_sandbox c) Hwf).
  destruct c; cbn [call_sandbox] in *; exec_cases H.
  - apply ReserveCreate_Ok in H as (_&_&_&_&_&_&_&[(?&_&_&_&_&->)|(_&_&_&_&_&->)]); by apply log_same.
  - apply ReserveMutation_Ok in H as (_&_&_&_&_&_&_&_&_&Hev&cur&_&[(?&_&_&_&_&_&->)|H]); [by apply log_same|].
    destruct H as (_&_&_&_&_&_&_&_&_&_&l&Hl&Heq).
    rewrite Heq by (by apply (wf_leases s Hwf) in Hl as [? _]).
    eapply log_extends_trans; [|apply appendRetainedEvent_extends]; [by apply log_same|].
    unfold latest_of in *. cbn. rewrite Hev. lia.
  - apply UpdateSandbox_Ok in H as (_&cur&_&_&_&_&_&_&l&->&_). by apply log_same.
  - apply UpdateOperation_Ok in H as (_&cur&_&_&_&_&_&->). by apply log_same.
  - apply ReplaceLease_Ok in H as (_&cur&sb&_&_&_&_&_&->). by apply log_same.
  - apply AppendEvent_Ok in H as (_&sb&_&_&_&_&[(_&_&_&->)|[_ Heq]]); [by apply log_same|].
    replace s1 with (appendRetainedEvent ev s).2 by (by rewrite <- Heq).
    apply appendRetainedEvent_extends. lia.
Qed.

Lemma steps_log id n s t :
  nsteps disciplined_step n s t → state_wf s → (∀ k, latest_of s k + Z.of_nat n < 2^64) → log_extends id s t.
Proof.
  revert t. induction n as [|n IH]; intros t Hn Hs Hlt.
  { inversion Hn; subst. apply log_extends_refl. }
  apply nsteps_inv_r in Hn as (s0 & Hn & c & Hd & Hc).
  assert (Hlt' : ∀ k, latest_of s k + Z.of_nat n < 2^64) by (intros i; specialize (Hlt i); lia).
  destruct (steps_wf n s s0 Hn Hs Hlt') as [Hwf0 Hlat].
  eapply log_extends_trans; [by apply IH|]. eapply repo_exec_log; [done| |done].
  specialize (Hlat (call_sandbox c)). specialize (Hlt (call_sandbox c)). lia.
Qed.

(** ** Theorems *)

(** in a reachable state a read with a legal page size never
    indexes out of range; a cursor past the latest event is refused as ahead,
    one before the retained window as expired, both with the window's bounds,
    and every other cursor gets the first [limit] retained events after it and
    the cursor to continue from. *)
Theorem event_page n s id after limit :
  nsteps disciplined_step n NewState s → Z.of_nat n < 2^64 - 1 →
  is_Some (Sandboxes s !! id) → 0 ≤ after < 2^64 → 1 ≤ limit ≤ maxEventPageSize →
  ReadEvents id after limit s = page_spec s id after limit.
Proof.
  intros Hn Hlt Hs Ha Hl. destruct (reachable_wf n s Hn) as [Hwf Hlat]; [lia|].
  apply ReadEvents_spec; try done; [|lia]. specialize (Hlat id). lia.
Qed.

Lemma after_event_steps : nsteps disciplined_step 2 NewState Runs.after_event.
Proof.
  apply (nsteps_l _ 1 _ Runs.after_create); [|apply (nsteps_l _ 0 _ Runs.after_event); [|constructor]].
  - exists Runs.create. split; [exact I|vm_compute; reflexivity].
  - exists Runs.append. split; [vm_compute; eauto|vm_compute; reflexivity].
Qed.

Lemma event_page_witness :
  ReadEvents "sandbox-1" 0 10 Runs.after_event = page_spec Runs.after_event "sandbox-1" 0 10 ∧
  ReadEvents "sandbox-1" 0 10 Runs.after_event
    = Ok (mkEventPage [ev_set_sequence 1 Runs.ev0] 1 1 1) ∧
  ReadEvents "sandbox-1" 2 10 Runs.after_event
    = Err [ErrInvalidCursor : sentinel; ErrCursorAhead : sentinel; CursorBounds 1 1].
Proof.
  split; [|split; vm_compute; reflexivity].
  apply (event_page 2 _ _ _ _ after_event_steps); unfold maxEventPageSize; try lia.
  vm_compute. eauto.
Defined.

(** C34 (termination): following the returned cursor from any position inside
    the retained window, with any legal page size, ends and yields every
    retained event after that position exactly once and in order, up to the
    latest one. *)
Theorem event_stream_complete n s id after limit fuel :
  nsteps disciplined_step n NewState s → Z.of_nat n < 2^64 - 1 →
  is_Some (Sandboxes s !! id) → 1 ≤ limit ≤ maxEventPageSize →
  first_of s id ≤ after + 1 → 0 ≤ after ≤ latest_of s id →
  latest_of s id - after < Z.of_nat fuel →
  ∃ evs, read_all fuel id after limit s = Ok evs ∧
    evs = after_cursor after (log_of s id) ∧
    ev_Sequence <$> evs = seqZ (after + 1) (latest_of s id - after).
Proof.
  intros Hn Hlt Hs Hl Hf Ha Hfuel. destruct (reachable_wf n s Hn) as [Hwf Hlat]; [lia|].
  eexists. split; [|split; [done|by apply after_cursor_numbered]].
  apply read_all_complete; try done. specialize (Hlat id). lia.
Qed.

Lemma event_stream_complete_witness :
  ∃ evs, read_all 5 "sandbox-1" 0 1 Runs.after_event = Ok evs ∧
    evs = after_cursor 0 (log_of Runs.after_event "sandbox-1") ∧
    ev_Sequence <$> evs = seqZ (0 + 1) (latest_of Runs.after_event "sandbox-1" - 0).
Proof.
  apply (event_stream_complete 2 _ _ _ _ _ after_event_steps); unfold maxEventPageSize; try lia.
  - vm_compute. eauto.
  - vm_compute. discriminate.
  - vm_compute. split; discriminate.
  - vm_compute. reflexivity.
Defined.

(** the log is append-only over any run: an event that is
    readable at a later time and whose sequence number had been assigned
    earlier was in the earlier log, unchanged; and the latest sequence number
    never goes back, so a cursor handed out once is never ahead later. *)
Theorem event_log_append_only n1 n2 s t id e :
  nsteps disciplined_step n1 NewState s → nsteps disciplined_step n2 s t →
  Z.of_nat n1 + Z.of_nat n2 < 2^64 →
  latest_of s id ≤ latest_of t id ∧
  (e ∈ log_of t id → ev_Sequence e ≤ latest_of s id → e ∈ log_of s id).
Proof.
  intros Hn1 Hn2 Hlt. destruct (reachable_wf n1 s Hn1) as [Hwf Hlat]; [lia|].
  destruct (steps_log id n2 s t Hn2 Hwf) as (k & new & Ht & Hnew & Hle).
  { intros i. specialize (Hlat i). lia. }
  split; [done|]. rewrite Ht. intros Hin Hseq.
  assert (Hin' : e ∈ log_of s id ++ new).
  { rewrite <- (take_drop k (log_of s id ++ new)). set_solver. }
  apply elem_of_app in Hin' as [?|Hin']; [done|].
  rewrite Forall_forall in Hnew. specialize (Hnew _ Hin'). lia.
Qed.

Definition ev0_2 : Event :=
  mkEvent "event-2" "sandbox-1" "operation-1" 0 1 7 "ready" "" Samples.t0.
Definition after_event2 : State :=
  match repo_exec (CallAppendEvent ev0_2) Runs.after_event with Ok s => s | Err _ => NewState end.

Lemma event_log_append_only_witness :
  let e := ev_set_sequence 1 Runs.ev0 in
  length (log_of after_event2 "sandbox-1") = 2%nat ∧ e ∈ log_of Runs.after_event "sandbox-1".
Proof.
  split; [vm_compute; reflexivity|].
  apply (event_log_append_only 2 1 Runs.after_event after_event2 "sandbox-1" _ after_event_steps).
  - apply (nsteps_l _ 0 _ after_event2); [|constructor].
    exists (CallAppendEvent ev0_2). split; [vm_compute; eauto|vm_compute; reflexivity].
  - lia.
  - vm_compute. left.
  - vm_compute. discriminate.
Defined.
