(* ===== verification/LifecycleSnapshot.v ===== *)
(** * Snapshots of the lifecycle repository

    [Export] and [Import] of [provider/lifecycle/repository/state.go]: the
    persisted form of the state, the checks made when it is loaded, and the
    round trip between them.  [Import] builds each map in its own loop; the
    error of every refusal is [ErrCorrupt] (the inner error is formatted with
    %v, so it is not part of the chain). *)

From S2P Require Import Prelude LifecycleModel LifecycleTransition LifecycleState LifecycleRepository LifecycleEvents.
From stdpp Require Import base gmap strings list fin_maps relations sorting.
From Stdlib Require Import ZArith Lia.

Local Open Scope Z_scope.

Definition legacySnapshotVersion : Z := 1.
Definition snapshotVersion : Z := 2.

Record FencingRecord := mkFencingRecord { fr_Scope : string; fr_Token : Z }.
Record EventCursorRecord := mkEventCursorRecord { ec_SandboxID : string; ec_LatestSequence : Z }.

Record PersistedState := mkPersistedState {
  ps_Version : Z;
  ps_Sandboxes : list Sandbox;
  ps_Operations : list Operation;
  ps_Leases : list Lease;
  ps_Events : list Event;
  ps_EventCursors : list EventCursorRecord;
  ps_Idempotency : list IdempotencyRecord;
  ps_Fencing : list FencingRecord;
}.

(** ** Export *)

(** Events are sorted by sandbox, then by sequence number. *)
Definition event_le (a b : Event) : Prop :=
  if decide (ev_SandboxID a = ev_SandboxID b) then ev_Sequence a ≤ ev_Sequence b
  else String.le (ev_SandboxID a) (ev_SandboxID b).

#[export] Instance event_le_dec a b : Decision (event_le a b).
Proof. unfold event_le. case_decide; apply _. Defined.

Definition Export (s : State) : PersistedState :=
  mkPersistedState snapshotVersion
    (sort_by sb_ID (map_to_list (Sandboxes s)).*2)
    (sort_by op_ID (map_to_list (Operations s)).*2)
    (sort_by ls_SandboxID (map_to_list (Leases s)).*2)
    (merge_sort event_le (mjoin (map_to_list (Events s)).*2))
    (sort_by ec_SandboxID
       ((λ '(sandboxID, latest), mkEventCursorRecord sandboxID latest)
          <$> filter (λ p, p.2 > 0) (map_to_list (EventLatest s))))
    (sort_by ir_Scope (map_to_list (Idempotency s)).*2)
    (sort_by fr_Scope ((λ '(scope, token), mkFencingRecord scope token) <$> map_to_list (Fencing s))).

(** ** Import *)

Definition corrupt {A} : result A := Err [ErrCorrupt : sentinel].

(** [if err := x.Validate(); err != nil { return ErrCorrupt }] *)
Definition checked (r : result unit) : result unit :=
  match r with Ok _ => Ok () | Err _ => corrupt end.

Definition check_that (P : Prop) `{!Decision P} : result unit := if decide P then Ok () else corrupt.

Definition load_sandboxes (l : list Sandbox) : result (gmap string Sandbox) :=
  foldM (load_one [ErrCorrupt : sentinel] sb_ID id (λ sb, checked (Sandbox_Validate sb))) ∅ l.

(** The duplicate check and the reference check return the same error, so
    their order does not show. *)
Definition load_operations (sandboxes : gmap string Sandbox) (l : list Operation)
    : result (gmap string Operation) :=
  foldM (load_one [ErrCorrupt : sentinel] op_ID id (λ op,
    _ ← checked (Operation_Validate op);
    check_that (is_Some (sandboxes !! op_SandboxID op)))) ∅ l.

Definition load_leases (sandboxes : gmap string Sandbox) (l : list Lease) : result (gmap string Lease) :=
  foldM (load_one [ErrCorrupt : sentinel] ls_SandboxID id (λ lease,
    _ ← checked (Lease_Validate lease);
    check_that (is_Some (sandboxes !! ls_SandboxID lease)))) ∅ l.

Definition load_event (sandboxes : gmap string Sandbox) (operations : gmap string Operation)
    (events : gmap string (list Event)) (event : Event) : result (gmap string (list Event)) :=
  _ ← checked (Event_Validate event);
  _ ← check_that (ev_Sequence event ≠ 0);
  _ ← check_that (is_Some (sandboxes !! ev_SandboxID event));
  _ ← check_that (is_Some (operations !! ev_OperationID event));
  let list := get_or [] events (ev_SandboxID event) in
  _ ← (match last list with
       | Some previous => check_that (ev_Sequence event = u64 (ev_Sequence previous + 1))
       | None => Ok ()
       end);
  Ok (<[ev_SandboxID event := list ++ [event]]> events).

Definition load_cursors (events : gmap string (list Event)) (l : list EventCursorRecord)
    : result (gmap string Z) :=
  foldM (load_one [ErrCorrupt : sentinel] ec_SandboxID ec_LatestSequence (λ cursor,
    _ ← checked (ValidateIdentifier (ec_SandboxID cursor));
    _ ← check_that (ec_LatestSequence cursor ≠ 0);
    check_that (ev_Sequence <$> last (get_or [] events (ec_SandboxID cursor))
                = Some (ec_LatestSequence cursor)))) ∅ l.

(** The loop over the loaded events: a current snapshot must hold a cursor for
    each sandbox with events, a legacy one gets it from a log that starts at 1. *)
Definition complete_cursor (version : Z) (latest : gmap string Z) (p : string * list Event)
    : result (gmap string Z) :=
  let '(sandboxID, events) := p in
  if decide (maxRetainedEvents < length events)%nat then corrupt else
  match events with
  | [] => Ok latest
  | e :: _ =>
      if decide (is_Some (latest !! sandboxID)) then Ok latest else
      if decide (version = snapshotVersion) then corrupt else
      if decide (ev_Sequence e ≠ 1) then corrupt else
      Ok (<[sandboxID := from_option ev_Sequence 0 (last events)]> latest)
  end.

Definition load_idempotency (operations : gmap string Operation) (l : list IdempotencyRecord)
    : result (gmap string IdempotencyRecord) :=
  foldM (load_one [ErrCorrupt : sentinel] ir_Scope id (λ record,
    _ ← check_that (ir_Scope record ≠ "" ∧ ir_Key record ≠ "" ∧ ir_RequestDigest record ≠ "");
    _ ← checked (Operation_Validate (ir_Operation record));
    check_that (is_Some (operations !! op_ID (ir_Operation record))))) ∅ l.

Definition load_fencing (l : list FencingRecord) : result (gmap string Z) :=
  foldM (load_one [ErrCorrupt : sentinel] fr_Scope fr_Token (λ record,
    check_that (fr_Scope record ≠ "" ∧ fr_Token record ≠ 0))) ∅ l.

Definition check_sandbox (leases : gmap string Lease) (fencing : gmap string Z)
    (p : string * Sandbox) : result unit :=
  let '(sandboxID, sandbox) := p in
  match leases !! sandboxID with
  | None => corrupt
  | Some lease =>
      if decide (ls_ExpiresAt lease ≠ sb_LeaseExpiresAt sandbox ∨ ls_Generation lease ≠ sb_Generation sandbox)
      then corrupt else
      match fencing !! fencingScope (sb_ProviderRevisionID sandbox) (sb_ID sandbox) with
      | None => corrupt
      | Some token => if decide (token < ls_FencingToken lease) then corrupt else Ok ()
      end
  end.

Definition Import (snapshot : PersistedState) : result State :=
  if decide (ps_Version snapshot ≠ legacySnapshotVersion ∧ ps_Version snapshot ≠ snapshotVersion)
  then corrupt else
  sandboxes ← load_sandboxes (ps_Sandboxes snapshot);
  operations ← load_operations sandboxes (ps_Operations snapshot);
  leases ← load_leases sandboxes (ps_Leases snapshot);
  events ← foldM (load_event sandboxes operations) ∅ (ps_Events snapshot);
  cursors ← load_cursors events (ps_EventCursors snapshot);
  latest ← foldM (complete_cursor (ps_Version snapshot)) cursors (map_to_list events);
  idempotency ← load_idempotency operations (ps_Idempotency snapshot);
  fencing ← load_fencing (ps_Fencing snapshot);
  _ ← foldM (λ _ p, check_sandbox leases fencing p) () (map_to_list sandboxes);
  Ok (mkState sandboxes operations leases events latest idempotency fencing).

(** ** The round trip *)

Lemma checked_Ok r u : checked r = Ok u ↔ r = Ok ().
Proof. destruct r as [[]|], u; cbn; split; done. Qed.

Lemma check_that_Ok P `{!Decision P} u : check_that P = Ok u ↔ P.
Proof. unfold check_that. destruct u. case_decide; split; done. Qed.

Lemma check_that_true P `{!Decision P} : P → check_that P = Ok ().
Proof. by rewrite check_that_Ok. Qed.

Lemma checked_true r : r = Ok () → checked r = Ok ().
Proof. by rewrite checked_Ok. Qed.

#[export] Hint Resolve check_that_true checked_true : go.

Lemma elem_of_values {A} (m : gmap string A) (l : list A) x :
  l ≡ₚ (map_to_list m).*2 → x ∈ l → ∃ k, m !! k = Some x.
Proof.
  intros -> ([k y] & -> & Hy)%list_elem_of_fmap. apply elem_of_map_to_list in Hy. eauto.
Qed.

(** Loading the sorted values of a map that passes the checks. *)
Lemma load_values {A} e (key : A → string) check (m : gmap string A) l :
  (∀ k v, m !! k = Some v → key v = k ∧ check v = Ok ()) → l ≡ₚ (map_to_list m).*2 →
  foldM (load_one e key id check) ∅ l = Ok m.
Proof.
  intros Hm Hl. apply load_of_map.
  - apply Forall_forall. intros x Hx. destruct (elem_of_values _ _ _ Hl Hx) as [k Hk].
    by apply Hm in Hk as [_ ?].
  - apply keyed_values; [|done]. by intros k v [? _]%Hm.
Qed.

Ltac run_checks := repeat (rewrite ?checked_true, ?check_that_true by eauto; cbn [mbind result_bind]).

Lemma load_sandboxes_export s :
  state_wf s → load_sandboxes (ps_Sandboxes (Export s)) = Ok (Sandboxes s).
Proof.
  intros Hwf. apply load_values; [|apply sort_by_perm].
  intros k v [? ?]%(wf_sandboxes s Hwf). auto with go.
Qed.

Lemma load_operations_export s :
  state_wf s → load_operations (Sandboxes s) (ps_Operations (Export s)) = Ok (Operations s).
Proof.
  intros Hwf. apply load_values; [|apply sort_by_perm].
  intros k v (?&?&?)%(wf_operations s Hwf). split; [done|]. run_checks. done.
Qed.

Lemma load_leases_export s :
  state_wf s → load_leases (Sandboxes s) (ps_Leases (Export s)) = Ok (Leases s).
Proof.
  intros Hwf. apply load_values; [|apply sort_by_perm].
  intros k v (<-&?&?)%(wf_leases s Hwf). split; [done|]. run_checks. done.
Qed.

Lemma load_idempotency_export s :
  state_wf s → load_idempotency (Operations s) (ps_Idempotency (Export s)) = Ok (Idempotency s).
Proof.
  intros Hwf. apply load_values; [|apply sort_by_perm].
  intros k v (<-&?&?&?&Hop)%(wf_idempotency s Hwf).
  destruct (wf_operations s Hwf _ _ Hop) as (_&?&_). split; [done|]. run_checks. done.
Qed.

Lemma load_fencing_export s : state_wf s → load_fencing (ps_Fencing (Export s)) = Ok (Fencing s).
Proof.
  intros Hwf. apply load_of_map.
  - apply Forall_forall. intros x. cbn. rewrite sort_by_perm.
    intros ([k t] & -> & Hk)%list_elem_of_fmap. apply elem_of_map_to_list in Hk.
    apply check_that_true. by apply (wf_fencing s Hwf) in Hk.
  - cbn. rewrite sort_by_perm, <- list_fmap_compose.
    erewrite list_fmap_ext; [by rewrite list_fmap_id|]. by intros i [k t] _.
Qed.

(** *** Events *)

Definition of_sandbox (k : string) (l : list Event) : list Event :=
  filter (λ e, ev_SandboxID e = k) l.

#[export] Instance of_sandbox_proper k : Proper ((≡ₚ) ==> (≡ₚ)) (of_sandbox k).
Proof. intros l1 l2 H. unfold of_sandbox. by rewrite H. Qed.

#[export] Instance event_le_total : Total event_le.
Proof.
  intros a b. unfold event_le. destruct (decide (ev_SandboxID a = ev_SandboxID b)) as [Heq|Hne].
  - rewrite Heq, decide_True by done. lia.
  - rewrite decide_False by congruence. apply (total String.le).
Qed.

#[export] Instance event_le_trans : Transitive event_le.
Proof.
  intros a b c. unfold event_le.
  destruct (decide (ev_SandboxID a = ev_SandboxID b)) as [Hab|Hab].
  - rewrite Hab. case_decide; [lia|done].
  - destruct (decide (ev_SandboxID b = ev_SandboxID c)) as [Hbc|Hbc].
    + rewrite <- Hbc. by rewrite decide_False by done.
    + case_decide as Hac; [|apply transitivity]. rewrite <- Hac. intros H1 H2.
      destruct Hab. by apply (anti_symm String.le).
Qed.

Lemma StronglySorted_filter {A} (R : relation A) (P : A → Prop) `{!∀ x, Decision (P x)} l :
  StronglySorted R l → StronglySorted R (filter P l).
Proof.
  induction 1 as [|x l Hl IH Hx]; [constructor|]. rewrite filter_cons. case_decide; [|done].
  constructor; [done|]. apply Forall_forall. rewrite Forall_forall in Hx.
  intros y [_ Hy]%list_elem_of_filter. auto.
Qed.

Lemma StronglySorted_impl {A} (R1 R2 : relation A) l :
  (∀ x y, x ∈ l → y ∈ l → R1 x y → R2 x y) → StronglySorted R1 l → StronglySorted R2 l.
Proof.
  intros HR. induction 1 as [|x l Hl IH Hx]; constructor.
  - apply IH. intros y z Hy Hz. apply HR; by right.
  - rewrite Forall_forall in *. intros y Hy. apply HR; [left|by right|auto].
Qed.

Lemma numbered_sorted n evs :
  numbered n evs → StronglySorted (λ a b, ev_Sequence a ≤ ev_Sequence b) evs.
Proof.
  induction evs as [|e evs IH]; intros Hn; constructor.
  - apply IH. apply (numbered_drop 1) in Hn; [done|cbn; lia].
  - apply Forall_forall. intros x [i Hi]%list_elem_of_lookup.
    rewrite (numbered_first _ _ _ Hn), (numbered_lookup n (e :: evs) (S i) x) by done. cbn. lia.
Qed.

Lemma numbered_inj n evs x y :
  numbered n evs → x ∈ evs → y ∈ evs → ev_Sequence x = ev_Sequence y → x = y.
Proof.
  intros Hn [i Hi]%list_elem_of_lookup [j Hj]%list_elem_of_lookup Heq.
  rewrite (numbered_lookup n evs i x), (numbered_lookup n evs j y) in Heq by done.
  assert (i = j) by lia. congruence.
Qed.

Lemma of_sandbox_join s k :
  state_wf s → of_sandbox k (mjoin (map_to_list (Events s)).*2) ≡ₚ log_of s k.
Proof.
  intros Hwf. unfold log_of, get_or.
  assert (Hother : ∀ m : gmap string (list Event), (∀ i evs, m !! i = Some evs → Events s !! i = Some evs ∧ i ≠ k) →
    of_sandbox k (mjoin (map_to_list m).*2) = []).
  { intros m Hm. apply filter_none.
    intros e (evs & He & ([i evs'] & -> & Hi)%list_elem_of_fmap)%list_elem_of_join.
    apply elem_of_map_to_list, Hm in Hi as [Hi Hne].
    destruct (wf_events s Hwf _ _ Hi) as (_&_&_&Hall&_). rewrite Forall_forall in Hall.
    destruct (Hall _ He) as (<-&_). done. }
  destruct (Events s !! k) as [evs|] eqn:Ek; cbn [default from_option].
  - rewrite <- (map_to_list_delete _ _ _ Ek). rewrite fmap_cons. cbn [snd mjoin list_join].
    unfold of_sandbox in *. rewrite filter_app, Hother, app_nil_r, filter_all; [done|..].
    + intros e He. destruct (wf_events s Hwf _ _ Ek) as (_&_&_&Hall&_). rewrite Forall_forall in Hall. by apply Hall.
    + intros i evs' Hi. apply lookup_delete_Some in Hi as [? ?]. by split.
  - rewrite Hother; [done|]. intros i evs Hi. split; [done|congruence].
Qed.

(** The exported events of one sandbox are its log. *)
Lemma export_events_of s k : state_wf s → of_sandbox k (ps_Events (Export s)) = log_of s k.
Proof.
  intros Hwf. destruct (wf_events_all s k Hwf) as (_&_&_&Hnum&_).
  assert (Hp : of_sandbox k (ps_Events (Export s)) ≡ₚ log_of s k).
  { rewrite <- of_sandbox_join by done. cbn. by rewrite merge_sort_Permutation. }
  eapply (StronglySorted_unique_strong (λ a b, ev_Sequence a ≤ ev_Sequence b)); [| | |done].
  - intros x y Hx Hy Hxy Hyx. rewrite Hp in Hx. by eapply numbered_inj; [..|lia].
  - apply (StronglySorted_impl event_le).
    + intros x y [Hx _]%list_elem_of_filter [Hy _]%list_elem_of_filter.
      unfold event_le. by rewrite decide_True by congruence.
    + apply StronglySorted_filter. cbn. apply StronglySorted_merge_sort; apply _.
  - by apply numbered_sorted in Hnum.
Qed.

Lemma of_sandbox_split k pre x post :
  ev_SandboxID x = k →
  of_sandbox k (pre ++ x :: post) = of_sandbox k pre ++ x :: of_sandbox k post.
Proof. intros Hx. unfold of_sandbox. rewrite filter_app. by rewrite filter_cons_True. Qed.

(** What the loop has built after a prefix of the events. *)
Definition loaded_events (pre : list Event) (m : gmap string (list Event)) : Prop :=
  ∀ k, m !! k = match of_sandbox k pre with [] => None | evs => Some evs end.

Lemma loaded_get pre m k : loaded_events pre m → get_or [] m k = of_sandbox k pre.
Proof. intros H. unfold get_or. rewrite (H k). by destruct (of_sandbox k pre). Qed.

Lemma loaded_snoc pre m x :
  loaded_events pre m →
  loaded_events (pre ++ [x])
    (<[ev_SandboxID x := of_sandbox (ev_SandboxID x) pre ++ [x]]> m).
Proof.
  intros Hm k. unfold of_sandbox. rewrite filter_app. rewrite lookup_insert. case_decide as Heq.
  - subst. rewrite filter_cons_True by done. cbn. by destruct (filter _ pre).
  - rewrite filter_cons_False by done. rewrite filter_nil, app_nil_r. apply Hm.
Qed.

(** Every exported event passes the checks of its step. *)
Lemma load_event_step s pre x post m :
  state_wf s → ps_Events (Export s) = pre ++ x :: post → loaded_events pre m →
  load_event (Sandboxes s) (Operations s) m x
  = Ok (<[ev_SandboxID x := of_sandbox (ev_SandboxID x) pre ++ [x]]> m).
Proof.
  intros Hwf HE Hm. unfold load_event. rewrite (loaded_get pre) by done.
  pose proof (export_events_of s (ev_SandboxID x) Hwf) as Hlog.
  rewrite HE, of_sandbox_split in Hlog by done.
  destruct (wf_events_all s (ev_SandboxID x) Hwf) as (_&Hall&Hb&Hnum&_).
  fold (log_of s (ev_SandboxID x)) in *. rewrite <- Hlog in *.
  set (pre' := of_sandbox (ev_SandboxID x) pre) in *.
  apply Forall_app in Hall as [_ [(_ & Hval & Hop) _]%Forall_cons].
  assert (Hseq : ∀ i e, (pre' ++ x :: of_sandbox (ev_SandboxID x) post) !! i = Some e → _)
    by (intros i e; apply (numbered_lookup _ _ i e Hnum)).
  assert (Hxseq := Hseq (length pre') x ltac:(by rewrite list_lookup_middle)).
  rewrite length_app in *. cbn [length] in *.
  assert (Hsb : is_Some (Sandboxes s !! ev_SandboxID x)).
  { unfold log_of, get_or in Hlog. destruct (Events s !! ev_SandboxID x) as [evs|] eqn:Ek.
    - by destruct (wf_events s Hwf _ _ Ek) as (_&_&?&_).
    - cbn in Hlog. by destruct pre'. }
  rewrite checked_true by done. cbn [mbind result_bind].
  rewrite !check_that_true by (done || lia). cbn [mbind result_bind].
  destruct (last pre') as [e|] eqn:El; [|done].
  rewrite last_lookup in El. pose proof (lookup_lt_Some _ _ _ El) as Hlt.
  rewrite check_that_true; [done|].
  rewrite (Hseq (pred (length pre')) e) by (by rewrite lookup_app_l by lia).
  rewrite u64_small by (unfold u64_range; lia). lia.
Qed.

Lemma load_events_export s :
  state_wf s →
  foldM (load_event (Sandboxes s) (Operations s)) ∅ (ps_Events (Export s)) = Ok (Events s).
Proof.
  intros Hwf. destruct (foldM_Ok (load_event (Sandboxes s) (Operations s)) loaded_events
    (ps_Events (Export s)) ∅) as (m & -> & Hm).
  - intros k. by rewrite lookup_empty.
  - intros pre x post m Hl Hm. eexists. split; [by eapply load_event_step|by apply loaded_snoc].
  - f_equal. apply map_eq. intros k. rewrite (Hm k), export_events_of by done.
    unfold log_of, get_or. destruct (Events s !! k) as [evs|] eqn:Ek; [|done].
    destruct (wf_events s Hwf _ _ Ek) as (Hne & _). cbn. by destruct evs.
Qed.

(** *** Cursors *)

Lemma latest_pos s k n : state_wf s → EventLatest s !! k = Some n → 0 < n.
Proof.
  intros Hwf Hk. destruct (wf_latest s Hwf _ _ Hk) as [evs Hevs].
  destruct (wf_events s Hwf _ _ Hevs) as (Hne&_&_&_&n'&Hn'&Hb&_).
  destruct evs; [done|]. cbn [length] in Hb. assert (n = n') by congruence. lia.
Qed.

Lemma last_sequence s k n :
  state_wf s → EventLatest s !! k = Some n →
  ev_Sequence <$> last (get_or [] (Events s) k) = Some n.
Proof.
  intros Hwf Hk. destruct (wf_latest s Hwf _ _ Hk) as [evs Hevs].
  destruct (wf_events s Hwf _ _ Hevs) as (Hne&_&_&_&n'&Hn'&_&Hnum).
  rewrite (get_or_Some _ _ _ _ Hevs).
  destruct (last evs) as [e|] eqn:El; [|by apply last_None in El].
  cbn. rewrite (numbered_last _ _ _ Hnum El). congruence.
Qed.

Lemma sandbox_key_identifier s k :
  state_wf s → is_Some (Sandboxes s !! k) → ValidateIdentifier k = Ok ().
Proof.
  intros Hwf [sb Hsb]. destruct (wf_sandboxes s Hwf _ _ Hsb) as [<- Hv].
  apply Sandbox_Validate_ids in Hv as [? _]. by apply ValidateIdentifier_Ok.
Qed.

Lemma load_cursors_export s :
  state_wf s → load_cursors (Events s) (ps_EventCursors (Export s)) = Ok (EventLatest s).
Proof.
  intros Hwf. cbn [Export ps_EventCursors].
  rewrite filter_all by (intros [k n] Hk%elem_of_map_to_list; cbn; pose proof (latest_pos s k n Hwf Hk); lia).
  apply load_of_map.
  - apply Forall_forall. intros x. rewrite sort_by_perm.
    intros ([k n] & -> & Hk)%list_elem_of_fmap. apply elem_of_map_to_list in Hk. cbn.
    rewrite checked_true. 2: { apply (sandbox_key_identifier s); [done|].
      destruct (wf_latest s Hwf _ _ Hk) as [evs Hevs]. by destruct (wf_events s Hwf _ _ Hevs) as (_&_&?&_). }
    cbn [mbind result_bind]. pose proof (latest_pos s k n Hwf Hk). rewrite (check_that_true (n ≠ 0)) by lia.
    cbn [mbind result_bind]. apply check_that_true. by apply last_sequence.
  - rewrite sort_by_perm, <- list_fmap_compose.
    erewrite list_fmap_ext; [by rewrite list_fmap_id|]. by intros i [k n] _.
Qed.

Lemma complete_cursors_export s v :
  state_wf s →
  foldM (complete_cursor v) (EventLatest s) (map_to_list (Events s)) = Ok (EventLatest s).
Proof.
  intros Hwf. destruct (foldM_Ok (complete_cursor v) (λ _ m, m = EventLatest s)
    (map_to_list (Events s)) (EventLatest s)) as (m & -> & ->); [done| |done].
  intros pre [k evs] post m Hl ->.
  assert (Hk : Events s !! k = Some evs).
  { apply elem_of_map_to_list. rewrite Hl. set_solver. }
  destruct (wf_events s Hwf _ _ Hk) as (Hne&Hlen&_&_&n&Hn&_).
  exists (EventLatest s). split; [|done]. unfold complete_cursor.
  rewrite decide_False by lia. destruct evs; [done|]. by rewrite decide_True by eauto.
Qed.

Lemma check_sandboxes_export s :
  state_wf s →
  foldM (λ _ p, check_sandbox (Leases s) (Fencing s) p) () (map_to_list (Sandboxes s)) = Ok ().
Proof.
  intros Hwf. apply foldM_checks. intros [k sb] Hk%elem_of_map_to_list.
  destruct (wf_lease_of s Hwf _ _ Hk) as (l & tok & Hl & He & Hg & Hf & Hle).
  unfold check_sandbox. rewrite Hl, decide_False by (intros [?|?]; congruence).
  rewrite Hf, decide_False by lia. done.
Qed.

Lemma Import_Export s : state_wf s → Import (Export s) = Ok s.
Proof.
  intros Hwf. unfold Import. rewrite decide_False by (intros [_ H]; by destruct H).
  rewrite load_sandboxes_export by done. cbn [mbind result_bind].
  rewrite load_operations_export by done. cbn [mbind result_bind].
  rewrite load_leases_export by done. cbn [mbind result_bind].
  rewrite load_events_export by done. cbn [mbind result_bind].
  rewrite load_cursors_export by done. cbn [mbind result_bind].
  rewrite complete_cursors_export by done. cbn [mbind result_bind].
  rewrite load_idempotency_export by done. cbn [mbind result_bind].
  rewrite load_fencing_export by done. cbn [mbind result_bind].
  rewrite check_sandboxes_export by done. by destruct s.
Qed.

(** ** What a loaded snapshot satisfies *)

(** The part of the invariant that [Import] does not check: an idempotency
    record holds the current value of its operation, and no two records answer
    for the same operation. *)
Definition idempotency_consistent (s : State) : Prop :=
  (∀ k r, Idempotency s !! k = Some r →
     Operations s !! op_ID (ir_Operation r) = Some (ir_Operation r)) ∧
  (∀ k1 k2 r1 r2, Idempotency s !! k1 = Some r1 → Idempotency s !! k2 = Some r2 →
     op_ID (ir_Operation r1) = op_ID (ir_Operation r2) → k1 = k2).

(** One sandbox's loaded log. *)
Definition log_loaded (sandboxes : gmap string Sandbox) (operations : gmap string Operation)
    (k : string) (evs : list Event) : Prop :=
  is_Some (sandboxes !! k) ∧
  Forall (λ e, ev_SandboxID e = k ∧ Event_Validate e = Ok () ∧
               is_Some (operations !! ev_OperationID e)) evs ∧
  ∃ n, ev_Sequence <$> last evs = Some n ∧ Z.of_nat (length evs) ≤ n < 2^64 ∧ numbered n evs.

Lemma load_event_loaded sandboxes operations m x m' :
  u64_range (ev_Sequence x) →
  (∀ k evs, m !! k = Some evs → log_loaded sandboxes operations k evs) →
  load_event sandboxes operations m x = Ok m' →
  ∀ k evs, m' !! k = Some evs → log_loaded sandboxes operations k evs.
Proof.
  intros Hr Hm H k evs Hk. unfold load_event in H. inv_ok H.
  apply checked_Ok in Hstep. apply check_that_Ok in Hstep0, Hstep1, Hstep2.
  ins_inv Hk; [|by apply Hm].
  assert (Hx : ev_Sequence <$> last [x] = Some (ev_Sequence x)) by done.
  unfold get_or in *. destruct (m !! ev_SandboxID x) as [old|] eqn:Eo; cbn [default from_option id] in *.
  - destruct (Hm _ _ Eo) as (_ & Hall & n & Hlast & Hb & Hnum).
    destruct (last old) as [p|] eqn:El; [|done]. rewrite check_that_Ok in Hstep3.
    injection Hlast as Hp. rewrite Hp in Hstep3. unfold u64_range in Hr.
    assert (Hn : ev_Sequence x = n + 1).
    { destruct (decide (n + 1 < 2^64)); [rewrite u64_small in Hstep3; unfold u64_range; lia|].
      replace (n + 1) with (2^64) in Hstep3 by lia. done. }
    split_and!; [done|apply Forall_app; by repeat constructor|].
    exists (n + 1). rewrite last_snoc, length_app. cbn. split_and!; [by rewrite Hn|lia|lia|].
    by apply numbered_snoc.
  - split_and!; [done|by repeat constructor|]. exists (ev_Sequence x).
    unfold u64_range in Hr. split_and!; [done|cbn; lia|lia|].
    unfold numbered. cbn [app length fmap list_fmap].
    replace (ev_Sequence x - Z.of_nat 1 + 1) with (ev_Sequence x) by lia.
    done.
Qed.

Lemma complete_cursors_Ok v l latest latest' :
  foldM (complete_cursor v) latest l = Ok latest' →
  (∀ k evs, (k, evs) ∈ l → (length evs ≤ maxRetainedEvents)%nat ∧ (evs ≠ [] → is_Some (latest' !! k))) ∧
  (∀ k, is_Some (latest !! k) → is_Some (latest' !! k)) ∧
  (∀ k n, latest' !! k = Some n →
     latest !! k = Some n ∨ ∃ evs, (k, evs) ∈ l ∧ ev_Sequence <$> last evs = Some n).
Proof.
  revert latest. induction l as [|[k0 evs0] l IH]; intros latest H; cbn [foldM] in H.
  { simplify_eq. split_and!; [set_solver|done|by left]. }
  destruct (complete_cursor v latest (k0, evs0)) as [latest1|] eqn:E; [|done].
  apply IH in H as (H1 & H2 & H3).
  assert (Hstep : (length evs0 ≤ maxRetainedEvents)%nat ∧ (evs0 ≠ [] → is_Some (latest1 !! k0)) ∧
    (latest1 = latest ∨ ∃ n, ev_Sequence <$> last evs0 = Some n ∧ latest1 = <[k0 := n]> latest)).
  { unfold complete_cursor, corrupt in E. apply guard_Ok in E as [Hlen E].
    split; [lia|]. destruct evs0 as [|e evs0]; [simplify_eq; split; [done|by left]|].
    case_decide as Hk0; [simplify_eq; auto|]. inv_ok E.
    split; [intros _; apply insert_eq_is_Some|]. right.
    destruct (last (e :: evs0)) as [y|] eqn:El; [by exists (ev_Sequence y)|].
    by apply last_None in El. }
  destruct Hstep as (Hlen & Hsome & Hcase). split_and!.
  - intros k evs [[= -> ->]|Hin]%elem_of_cons; [|by apply H1]. split; [done|]. eauto.
  - intros k Hk. apply H2. destruct Hcase as [->|(n & _ & ->)]; [done|]. by apply insert_is_Some.
  - intros k n Hk. destruct (H3 k n Hk) as [Hi|(evs & ? & ?)]; [|right; exists evs; set_solver].
    destruct Hcase as [->|(n0 & Hn0 & ->)]; [by left|].
    ins_inv Hi; [|by left]. right. exists evs0. split; [left|done].
Qed.

(** The sequence number under a key is the one of its last retained event. *)
Lemma imported_latest events cursors v l latest k n :
  load_cursors events l = Ok cursors →
  foldM (complete_cursor v) cursors (map_to_list events) = Ok latest →
  latest !! k = Some n → ev_Sequence <$> last (get_or [] events k) = Some n.
Proof.
  intros Hc H Hk. apply complete_cursors_Ok in H as (_ & _ & H).
  destruct (H k n Hk) as [Hcur|(evs & Hin & Hl)].
  - apply load_Ok in Hc as (Hc & _). destruct (Hc _ _ Hcur) as [?|(x & _ & Hx & <- & <-)]; [by rewrite lookup_empty in *|].
    inv_ok Hx. by rewrite check_that_Ok in Hx.
  - apply elem_of_map_to_list in Hin. by rewrite (get_or_Some _ _ _ _ Hin).
Qed.

Lemma load_id_Ok {A} e (key : A → string) check l (m : gmap string A) k v :
  foldM (load_one e key id check) ∅ l = Ok m → m !! k = Some v → key v = k ∧ check v = Ok ().
Proof.
  intros H Hk. apply load_Ok in H as (H & _). destruct (H k v Hk) as [Hx|(x & _ & ? & ? & <-)].
  - by rewrite lookup_empty in Hx.
  - done.
Qed.

(** The loops behind a successful import. *)
Ltac import_inv H := unfold Import, corrupt in H; inv_ok H; cbn in *.

Lemma Import_events p s k evs :
  Forall (λ e, u64_range (ev_Sequence e)) (ps_Events p) → Import p = Ok s →
  Events s !! k = Some evs →
  log_loaded (Sandboxes s) (Operations s) k evs ∧ (length evs ≤ maxRetainedEvents)%nat ∧
  EventLatest s !! k = ev_Sequence <$> last evs.
Proof.
  intros Hr H Hk. rewrite Forall_forall in Hr. import_inv H.
  assert (Hload : log_loaded x x0 k evs).
  { revert k evs Hk. eapply (foldM_inv _ (λ m, ∀ k evs, m !! k = Some evs → log_loaded x x0 k evs));
      [by intros ? ? ?%lookup_empty_Some|..|done].
    intros m0 e m1 He Hm0 Hm1. by eapply load_event_loaded; [apply Hr|..]. }
  pose proof Hload as (_ & _ & n & Hn & _).
  pose proof (complete_cursors_Ok _ _ _ _ Hstep4) as (Hc & _).
  destruct (Hc k evs) as [Hlen Hsome]; [by apply elem_of_map_to_list|].
  split_and!; [done..|]. destruct Hsome as [n' Hn']; [by destruct evs|].
  pose proof (imported_latest _ _ _ _ _ _ _ Hstep3 Hstep4 Hn') as Hl.
  rewrite (get_or_Some _ _ _ _ Hk) in Hl. congruence.
Qed.

Lemma Import_latest p s k n :
  Import p = Ok s → EventLatest s !! k = Some n → is_Some (Events s !! k).
Proof.
  intros H Hk. import_inv H.
  pose proof (imported_latest _ _ _ _ _ _ _ Hstep3 Hstep4 Hk) as Hl.
  unfold get_or in Hl. destruct (x2 !! k); [eauto|done].
Qed.

Lemma Import_wf p s :
  Forall (λ e, u64_range (ev_Sequence e)) (ps_Events p) → Import p = Ok s →
  idempotency_consistent s → state_wf s.
Proof.
  intros Hr H [Hc1 Hc2]. split.
  5: { intros k evs Hk. destruct (Import_events p s k evs Hr H Hk) as ((Hs & Hall & n & Hn & Hb & Hnum) & Hlen & Hlat).
       split_and!; [by intros ->|done|done|done|]. exists n. rewrite Hlat. done. }
  5: { intros k n. by apply (Import_latest p s k n). }
  - intros k sb Hk. import_inv H. eapply load_id_Ok in Hk as [? Hv]; [|done]. by apply checked_Ok in Hv.
  - intros k o Hk. import_inv H. eapply load_id_Ok in Hk as [? Hv]; [|done]. cbv beta in Hv. inv_ok Hv.
    apply checked_Ok in Hstep8. by apply check_that_Ok in Hv.
  - intros k l Hk. import_inv H. eapply load_id_Ok in Hk as [<- Hv]; [|done]. cbv beta in Hv. inv_ok Hv.
    apply checked_Ok in Hstep8. by apply check_that_Ok in Hv.
  - intros k sb Hk. import_inv H.
    destruct x7. pose proof (proj1 (foldM_checks _ _) Hstep7 (k, sb)) as Hcheck.
    specialize (Hcheck ltac:(by apply elem_of_map_to_list)). unfold check_sandbox, corrupt in Hcheck.
    destruct (x1 !! k) as [l|]; [|done]. inv_ok Hcheck. nor Hguard0.
    destruct (x6 !! _) as [tok|] eqn:Hf; [|done]. inv_ok Hcheck.
    exists l, tok. apply dec_stable in Hguard0, Hguard1. split_and!; done || lia.
  - intros k r Hk. pose proof (Hc1 k r Hk). import_inv H. eapply load_id_Ok in Hk as [<- Hv]; [|done]. cbv beta in Hv. inv_ok Hv.
    apply check_that_Ok in Hstep8 as (?&?&?). by split_and!.
  - done.
  - intros k t Hk. import_inv H. apply load_Ok in Hstep6 as (Hl & _).
    destruct (Hl k t Hk) as [Hx|(y & _ & Hy & <- & <-)]; [by rewrite lookup_empty in Hx|].
    by apply check_that_Ok in Hy.
Qed.

(** ** Theorems *)

(** C32 (roundtrip): the snapshot exported from any state reached by fewer than
    2^64 disciplined repository calls (see [disciplined]) is accepted by [Import] and gives back that state, so
    a restart, or the roll-back of a write that could not be persisted, loses
    and changes nothing. *)
Theorem snapshot_roundtrip n s :
  nsteps disciplined_step n NewState s → Z.of_nat n < 2^64 → Import (Export s) = Ok s.
Proof. intros Hn Hlt. apply Import_Export. by destruct (reachable_wf n s Hn Hlt). Qed.

Lemma snapshot_roundtrip_witness :
  ps_Events (Export Runs.after_event) = [ev_set_sequence 1 Runs.ev0] ∧
  Import (Export Runs.after_event) = Ok Runs.after_event.
Proof.
  split; [vm_compute; reflexivity|]. apply (snapshot_roundtrip 2 _ after_event_steps). lia.
Defined.

(** whatever snapshot, of the current or the legacy version, is
    presented to [Import], an accepted one yields a state that satisfies the
    whole repository invariant, provided its idempotency records agree with
    the operations they name (the one thing that is not checked on load). *)
Theorem snapshot_checks p s :
  Forall (λ e, u64_range (ev_Sequence e)) (ps_Events p) → Import p = Ok s →
  idempotency_consistent s → state_wf s.
Proof. apply Import_wf. Qed.

(** The legacy form of a snapshot: version 1, no cursors. *)
Definition legacy (p : PersistedState) : PersistedState :=
  mkPersistedState legacySnapshotVersion (ps_Sandboxes p) (ps_Operations p) (ps_Leases p)
    (ps_Events p) [] (ps_Idempotency p) (ps_Fencing p).

Lemma snapshot_checks_witness :
  Import (legacy (Export Runs.after_event)) = Ok Runs.after_event ∧ state_wf Runs.after_event.
Proof.
  assert (H : Import (legacy (Export Runs.after_event)) = Ok Runs.after_event)
    by (vm_compute; reflexivity).
  split; [exact H|]. refine (snapshot_checks (legacy (Export Runs.after_event)) _ _ H _).
  { replace (ps_Events _) with [ev_set_sequence 1 Runs.ev0] by (vm_compute; reflexivity).
    constructor; [|constructor]. unfold u64_range. cbn. lia. }
  split.
  - intros k r Hk. apply elem_of_map_to_list in Hk. vm_compute in Hk.
    apply list_elem_of_singleton in Hk. injection Hk as -> ->. vm_compute. reflexivity.
  - intros k1 k2 r1 r2 H1%elem_of_map_to_list H2%elem_of_map_to_list _. vm_compute in H1, H2.
    apply list_elem_of_singleton in H1, H2. congruence.
Defined.

(** Three calls whose arguments the repository does not check: a lease with a
    token above the presented one, a sandbox under another provider revision,
    an event of an operation that does not exist. *)
Definition sb_with_revision (rev : string) (s : Sandbox) : Sandbox :=
  mkSandbox (sb_ID s) (sb_TenantID s) (sb_WorkOrderID s) (sb_WorkspaceID s) rev
    (sb_RuntimeProfile s) (sb_Network s) (sb_SandboxSlotKey s) (sb_DesiredState s)
    (sb_ObservedState s) (sb_Generation s) (sb_ObservedGeneration s) (sb_LeaseExpiresAt s)
    (sb_CreatedAt s) (sb_UpdatedAt s).

Definition unchecked_calls : list repo_call :=
  [CallReplaceLease (mkLease "sandbox-1" (sb_LeaseExpiresAt Runs.sb0) 1 8) 7;
   CallUpdateSandbox (sb_with_revision "revision-2" Runs.sb0) 1 7;
   CallAppendEvent (mkEvent "event-9" "sandbox-1" "operation-9" 0 1 7 "ready" "" Samples.t0)].

(** each of these calls is accepted in a reachable state, and the
    state it leaves is one whose own snapshot [Import] refuses as corrupt: the
    conditions of [disciplined] are needed, and the repository does not enforce
    them. *)
Theorem snapshot_refused_after_unchecked_calls :
  Forall (λ c, ∃ s', repo_exec c Runs.after_create = Ok s' ∧
                     Import (Export s') = Err [ErrCorrupt : sentinel]) unchecked_calls.
Proof.
  repeat constructor; eexists; split; try (vm_compute; reflexivity).
Qed.
