(* ===== verification/LifecyclePorts.v ===== *)
(** * The ports of the lifecycle coordinator

    The coordinator ([provider/lifecycle/coordinator]) works through four
    ports: the repository, the runtime driver, the clock and the caller's
    context.  A coordinator function is a program [prog] over the calls of
    these ports.  A program has two readings:
    - [exec]: what it may do when each call is answered as the port allows,
      other callers reserve operations in between, and the process may stop at
      any call.  The repository answers as [repository.State] does, or with a
      transport error, or it commits and then reports a durability failure;
      driver, clock and context answers are unconstrained;
    - [interp]: the run under a concrete implementation of the ports. *)

From S2P Require Import Prelude Program LifecycleModel LifecycleTransition LifecycleState LifecycleRepository.
From stdpp Require Import base gmap strings list fin_maps relations.
From Stdlib Require Import ZArith Lia.

Local Open Scope Z_scope.

(** ** Contexts *)

Inductive Context :=
  | CtxNil
  | CtxCaller
  | CtxBackground
  | CtxWithTimeout (parent : Context) (remaining : Z)
  | CtxWithoutCancel (parent : Context).

(** ** Runtime observations *)

Inductive RuntimeState :=
  | RuntimeAbsent | RuntimeProvisioning | RuntimeReady | RuntimeSuspended
  | RuntimeOther (raw : string).

Record RuntimeObservation := mkRuntimeObservation { ro_State : RuntimeState }.

#[export] Instance RuntimeState_eq_dec : EqDecision RuntimeState.
Proof. solve_decision. Defined.
#[export] Instance RuntimeObservation_eq_dec : EqDecision RuntimeObservation.
Proof. solve_decision. Defined.

(** The optional capabilities of the composed driver. *)
Record DriverCaps := mkDriverCaps {
  has_StateController : bool;
  has_OrphanCleaner : bool;
}.

(** ** Calls *)

Inductive eff : Type → Type :=
  (* coordinator.Clock, context.Context *)
  | ENow : eff Time
  | ECtxErr (ctx : Context) : eff (option goerr)
  (* repository.Repository *)
  | EReserveCreate (ctx : Context) (key digest : string) (sb : Sandbox) (op : Operation)
      : eff (result CreateResult)
  | EReserveMutation (ctx : Context) (key digest : string) (g : Z) (sb : Sandbox) (op : Operation)
      (ev : Event) : eff (result MutationResult)
  | EGetSandbox (ctx : Context) (id : string) : eff (result Sandbox)
  | EListSandboxes (ctx : Context) : eff (result (list Sandbox))
  | EUpdateSandbox (ctx : Context) (sb : Sandbox) (g tok : Z) : eff (result unit)
  | EGetOperation (ctx : Context) (id : string) : eff (result Operation)
  | EListOperations (ctx : Context) : eff (result (list Operation))
  | EUpdateOperation (ctx : Context) (op : Operation) : eff (result unit)
  | EGetLease (ctx : Context) (id : string) : eff (result Lease)
  | EAppendEvent (ctx : Context) (ev : Event) : eff (result Event)
  | EReadEvents (ctx : Context) (id : string) (after limit : Z) : eff (result EventPage)
  (* coordinator.Driver, StateController, OrphanCleaner *)
  | ECreate (ctx : Context) (sb : Sandbox) : eff (result unit)
  | EInspect (ctx : Context) (id : string) : eff (result RuntimeObservation)
  | ESuspend (ctx : Context) (id : string) : eff (result unit)
  | EResume (ctx : Context) (id : string) : eff (result unit)
  | ERemove (ctx : Context) (id : string) : eff (result unit).

(** ** Programs *)

Abbreviation prog := (Program.prog eff).

(** ** Execution

    A configuration is the repository state and the log, newest entry first,
    of the driver calls with their answers and of the operation records that
    were stored. *)

Inductive log_entry :=
  | LStored (op : Operation)
  | LCreate (sb : Sandbox) (r : result unit)
  | LInspect (id : string) (r : result RuntimeObservation)
  | LSuspend (id : string) (r : result unit)
  | LResume (id : string) (r : result unit)
  | LRemove (id : string) (r : result unit).

Definition cfg : Type := State * list log_entry.

(** Errors an adapter adds to those of the state. *)
Definition transport_error (e : goerr) : Prop :=
  e = [Canceled : sentinel] ∨ e = [DeadlineExceeded : sentinel] ∨
  e = [ErrClosed : sentinel] ∨ e = [ErrDurability : sentinel].

(** A read, and a write of the state [f], through an adapter. *)
Definition answers_read {X} (r : result X) (s : State) (x : result X) (s' : State) : Prop :=
  s' = s ∧ (x = r ∨ ∃ e, transport_error e ∧ x = Err e).

Definition answers_write {X} (f : State → result (X * State)) (s : State) (x : result X) (s' : State)
    : Prop :=
  match f s with
  | Ok (v, t) => (x = Ok v ∧ s' = t) ∨ (x = Err [ErrDurability : sentinel] ∧ s' = t) ∨
                 (s' = s ∧ ∃ e, transport_error e ∧ x = Err e)
  | Err e => s' = s ∧ (x = Err e ∨ ∃ e', transport_error e' ∧ x = Err e')
  end.

Definition respond {X} (e : eff X) : cfg → X → cfg → Prop :=
  match e in eff X return cfg → X → cfg → Prop with
  | ENow | ECtxErr _ => λ σ _ σ', σ' = σ
  | EReserveCreate _ key digest sb op => λ σ x σ',
      answers_write (ReserveCreate key digest sb op) σ.1 x σ'.1 ∧ σ'.2 = σ.2
  | EReserveMutation _ key digest g sb op ev => λ σ x σ',
      answers_write (ReserveMutation key digest g sb op ev) σ.1 x σ'.1 ∧ σ'.2 = σ.2
  | EGetSandbox _ id => λ σ x σ', answers_read (GetSandbox id σ.1) σ.1 x σ'.1 ∧ σ'.2 = σ.2
  | EListSandboxes _ => λ σ x σ', answers_read (Ok (ListSandboxes σ.1)) σ.1 x σ'.1 ∧ σ'.2 = σ.2
  | EUpdateSandbox _ sb g tok => λ σ x σ',
      answers_write (UpdateSandbox sb g tok) σ.1 x σ'.1 ∧ σ'.2 = σ.2
  | EGetOperation _ id => λ σ x σ', answers_read (GetOperation id σ.1) σ.1 x σ'.1 ∧ σ'.2 = σ.2
  | EListOperations _ => λ σ x σ', answers_read (Ok (ListOperations σ.1)) σ.1 x σ'.1 ∧ σ'.2 = σ.2
  | EUpdateOperation _ op => λ σ x σ',
      answers_write (UpdateOperation op) σ.1 x σ'.1 ∧
      ((UpdateOperation op σ.1 = Ok ((), σ'.1) ∧ σ'.2 = LStored op :: σ.2) ∨
       (σ'.1 = σ.1 ∧ σ'.2 = σ.2 ∧ x ≠ Ok ()))
  | EGetLease _ id => λ σ x σ', answers_read (GetLease id σ.1) σ.1 x σ'.1 ∧ σ'.2 = σ.2
  | EAppendEvent _ ev => λ σ x σ', answers_write (AppendEvent ev) σ.1 x σ'.1 ∧ σ'.2 = σ.2
  | EReadEvents _ id after limit => λ σ x σ',
      answers_read (ReadEvents id after limit σ.1) σ.1 x σ'.1 ∧ σ'.2 = σ.2
  | ECreate _ sb => λ σ x σ', σ' = (σ.1, LCreate sb x :: σ.2)
  | EInspect _ id => λ σ x σ', σ' = (σ.1, LInspect id x :: σ.2)
  | ESuspend _ id => λ σ x σ', σ' = (σ.1, LSuspend id x :: σ.2)
  | EResume _ id => λ σ x σ', σ' = (σ.1, LResume id x :: σ.2)
  | ERemove _ id => λ σ x σ', σ' = (σ.1, LRemove id x :: σ.2)
  end.

(** What other callers may do between two calls: the coordinator's lock keeps
    other reconciliations out, new operations may be reserved. *)
Definition is_reserve (c : repo_call) : Prop :=
  match c with CallReserveCreate _ _ _ _ | CallReserveMutation _ _ _ _ _ _ => True | _ => False end.

Definition interfere (σ σ' : cfg) : Prop :=
  (∃ c, is_reserve c ∧ repo_exec c σ.1 = Ok σ'.1) ∧ σ'.2 = σ.2.

Abbreviation exec := (Program.exec (@respond) interfere).
Abbreviation safe := (Program.safe (@respond) interfere).
