(* ===== verification/LifecycleFile.v ===== *)
(** * The file adapter: [provider/lifecycle/repository/file]

    The repository for one controller process: every write exports the whole
    state, replaces the file atomically and rolls the in-memory state back when
    the file was not replaced.  Which system call fails is a parameter of each
    write ([OSFaults]); the JSON encoding is a parameter of the section. *)

From S2P Require Import Prelude Program FileStore LifecycleModel LifecycleTransition LifecycleState LifecycleRepository LifecycleEvents LifecycleSnapshot LifecyclePorts.
From stdpp Require Import base gmap strings list fin_maps relations.
From Stdlib Require Import ZArith Lia.

Local Open Scope Z_scope.

Definition maxFileSize : Z := Z.shiftl 32 20.

Section file.
(** The contents of a file, [json.Encoder.Encode] and the strict decoding of
    one JSON value followed by the end of the file. *)
Context {bytes : Type} (encode : PersistedState → option bytes) (size : bytes → Z)
  (decode : bytes → option PersistedState).

Record FileRepository := mkFileRepository {
  file_state : State;
  file_closed : bool;
  file_disk : option bytes;
}.

(** [load]: a missing file is an empty repository. *)
Definition load (faults : OpenFaults) (disk : option bytes) : result State :=
  match disk with
  | None => Ok NewState
  | Some b =>
      if of_open faults then Err [ErrExternal "open lifecycle repository"] else
      if of_stat faults then Err [ErrExternal "stat lifecycle repository"] else
      if decide (of_irregular faults = true ∨ size b > maxFileSize) then Err [ErrCorrupt : sentinel] else
      match decode b with
      | None => Err [ErrCorrupt : sentinel]
      | Some snapshot => Import snapshot
      end
  end.

Definition file_NewRepository (path : string) (faults : OpenFaults) (disk : option bytes)
    : result FileRepository :=
  if decide (blank path = true) then Err [ErrExternal "lifecycle repository path is required"] else
  if of_mkdir faults then Err [ErrExternal "create lifecycle repository directory"] else
  if of_lock faults then Err [ErrExternal "lock lifecycle repository"] else
  state ← load faults disk; Ok (mkFileRepository state false disk).

Definition durability {A} : result A := Err [ErrDurability : sentinel].

(** [persist] returns whether the file was replaced, and an error. *)
Definition persist (os : OSFaults) (r : FileRepository) : bool * option goerr * FileRepository :=
  let failed := (false, Some [ErrDurability : sentinel], r) in
  match os_ctx_persist os with
  | Some c => (false, Some [c : sentinel], r)
  | None =>
  if os_mkdir os || os_createTemp os || os_chmod os || os_encode os then failed else
  match encode (Export (file_state r)) with
  | None => failed
  | Some b =>
  if os_stat os then failed else
  if decide (size b > maxFileSize) then failed else
  if os_sync os || os_close os then failed else
  match os_ctx_rename os with
  | Some c => (false, Some [c : sentinel], r)
  | None =>
  if os_rename os then failed else
  let r := mkFileRepository (file_state r) (file_closed r) (Some b) in
  if os_openDir os then (true, Some [ErrDurability : sentinel], r) else
  if os_syncDir os || os_closeDir os then (true, Some [ErrDurability : sentinel], r) else
  (true, None, r)
  end end end.

Definition file_set_state (s : State) (r : FileRepository) : FileRepository :=
  mkFileRepository s (file_closed r) (file_disk r).

Definition mutate {X} (os : OSFaults) (mutation : State → result (X * State)) (r : FileRepository)
    : result X * FileRepository :=
  match os_ctx_before_lock os with
  | Some c => (Err [c : sentinel], r)
  | None =>
  if file_closed r then (Err [ErrClosed : sentinel], r) else
  match os_ctx_locked os with
  | Some c => (Err [c : sentinel], r)
  | None =>
  let previous := Export (file_state r) in
  match mutation (file_state r) with
  | Err err => (Err err, r)
  | Ok (v, s) =>
      match persist os (file_set_state s r) with
      | (committed, None, r') => (Ok v, r')
      | (committed, Some err, r') =>
          (Err err,
           if committed then r' else
           match Import previous with Ok p => file_set_state p r' | Err _ => r' end)
      end
  end end end.

Definition file_Close (r : FileRepository) : FileRepository :=
  mkFileRepository (file_state r) true (file_disk r).

(** *** The repository interface

    [ReserveCreate] and [ReserveMutation] consult the context once more before
    [mutate] does; [entry] is what it answers. *)

Definition at_entry {X} (entry : option context_sentinel)
    (k : FileRepository → result X * FileRepository) (r : FileRepository) : result X * FileRepository :=
  match entry with Some c => (Err [c : sentinel], r) | None => k r end.

Definition file_ReserveCreate entry os key digest sb op :=
  at_entry entry (mutate os (ReserveCreate key digest sb op)).
Definition file_ReserveMutation entry os key digest g sb op ev :=
  at_entry entry (mutate os (ReserveMutation key digest g sb op ev)).
Definition file_UpdateSandbox os sb g tok := mutate os (UpdateSandbox sb g tok).
Definition file_UpdateOperation os op := mutate os (UpdateOperation op).
Definition file_ReplaceLease os l tok := mutate os (ReplaceLease l tok).
Definition file_AppendEvent os ev := mutate os (AppendEvent ev).

Definition file_read {X} (entry : option context_sentinel) (f : State → result X) (r : FileRepository)
    : result X :=
  match entry with
  | Some c => Err [c : sentinel]
  | None => if file_closed r then Err [ErrClosed : sentinel] else f (file_state r)
  end.

Definition file_GetSandbox entry id := file_read entry (GetSandbox id).
Definition file_ListSandboxes entry := file_read entry (λ s, Ok (ListSandboxes s)).
Definition file_GetOperation entry id := file_read entry (GetOperation id).
Definition file_ListOperations entry := file_read entry (λ s, Ok (ListOperations s)).
Definition file_GetLease entry id := file_read entry (GetLease id).
Definition file_ListEvents entry id after limit := file_read entry (ListEvents id after limit).
Definition file_ReadEvents entry id after limit := file_read entry (ReadEvents id after limit).

(** A write of the interface. *)
Definition file_write (entry : option context_sentinel) (os : OSFaults) (c : repo_call) (r : FileRepository)
    : FileRepository :=
  match c with
  | CallReserveCreate key digest sb op => (file_ReserveCreate entry os key digest sb op r).2
  | CallReserveMutation key digest g sb op ev => (file_ReserveMutation entry os key digest g sb op ev r).2
  | CallUpdateSandbox sb g tok => (file_UpdateSandbox os sb g tok r).2
  | CallUpdateOperation op => (file_UpdateOperation os op r).2
  | CallReplaceLease l tok => (file_ReplaceLease os l tok r).2
  | CallAppendEvent ev => (file_AppendEvent os ev r).2
  end.

(** ** Proofs *)

(** Snapshots that JSON represents faithfully (strings are valid UTF-8, times
    are in the range of RFC 3339) decode to themselves. *)
Context (faithful : PersistedState → Prop).
Context (json_roundtrip : ∀ p b, faithful p → encode p = Some b → decode b = Some p).

(** A restart would load exactly the state in memory. *)
Definition file_ok (r : FileRepository) : Prop :=
  state_wf (file_state r) ∧ load of_ok (file_disk r) = Ok (file_state r).

(** What [persist] does: nothing on disk and an error, or the new snapshot on
    disk with or without an error. *)
Lemma persist_cases os r :
  state_wf (file_state r) → faithful (Export (file_state r)) →
  (∃ e, transport_error e ∧ persist os r = (false, Some e, r)) ∨
  (∃ b err, persist os r = (true, err, mkFileRepository (file_state r) (file_closed r) (Some b)) ∧
     (err = None ∨ err = Some [ErrDurability : sentinel]) ∧ load of_ok (Some b) = Ok (file_state r)).
Proof.
  intros Hwf Hf. unfold persist.
  assert (Hdur : transport_error [ErrDurability : sentinel]) by (unfold transport_error; auto).
  assert (Hctx : ∀ c : context_sentinel, transport_error [c : sentinel])
    by (intros []; unfold transport_error; auto).
  destruct (os_ctx_persist os); [left; eauto|].
  destruct (os_mkdir os || os_createTemp os || os_chmod os || os_encode os); [left; eauto|].
  destruct (encode _) as [b|] eqn:Eb; [|left; eauto]. destruct (os_stat os); [left; eauto|].
  case_decide as Hsize; [left; eauto|]. destruct (os_sync os || os_close os); [left; eauto|].
  destruct (os_ctx_rename os); [left; eauto|]. destruct (os_rename os); [left; eauto|].
  right. exists b.
  assert (Hload : load of_ok (Some b) = Ok (file_state r)).
  { unfold load. cbn [of_open of_stat of_irregular of_ok]. rewrite decide_False by (intros [?|?]; done). rewrite (json_roundtrip _ _ Hf Eb). by apply Import_Export. }
  destruct (os_openDir os); [eauto|]. destruct (os_syncDir os || os_closeDir os); eauto.
Qed.

(** One write of an adapter whose file agrees with its memory. *)
Lemma mutate_spec {X} os (f : State → result (X * State)) r :
  file_ok r →
  (∀ v s, f (file_state r) = Ok (v, s) → state_wf s ∧ faithful (Export s)) →
  let '(x, r') := mutate os f r in
  file_ok r' ∧ answers_write f (file_state r) x (file_state r').
Proof.
  intros [Hwf Hload] Hf. unfold mutate.
  assert (Hsame : ∀ e, transport_error e → file_ok r ∧ answers_write f (file_state r) (Err e) (file_state r)).
  { intros e He. split; [done|]. unfold answers_write. destruct (f _) as [[v s]|]; eauto 6. }
  assert (Hctx : ∀ c : context_sentinel, transport_error [c : sentinel])
    by (intros []; unfold transport_error; auto).
  destruct (os_ctx_before_lock os) as [c|]; [by apply Hsame|].
  destruct (file_closed r) eqn:Ec; [apply Hsame; unfold transport_error; auto|].
  destruct (os_ctx_locked os) as [c|]; [by apply Hsame|].
  destruct (f (file_state r)) as [[v s]|e] eqn:Ef.
  2: { split; [done|]. unfold answers_write. rewrite Ef. auto. }
  destruct (Hf v s eq_refl) as [Hs Hfs].
  destruct (persist_cases os (file_set_state s r) Hs Hfs) as [(e & He & ->)|(b & err & -> & Herr & Hb)].
  - rewrite (Import_Export _ Hwf). split; [by split|]. unfold answers_write. rewrite Ef. eauto 6.
  - destruct Herr as [-> | ->]; (split; [by split|]); unfold answers_write; rewrite Ef; auto.
Qed.

(** Runs: writes of any kind under any faults. *)
Definition write_of (c : repo_call) (s : State) : result (unit * State) :=
  s' ← repo_exec c s; Ok ((), s').

Lemma mutate_state {X Y} os (f : State → result (X * State)) (g : State → result (Y * State)) r :
  (x ← f (file_state r); Ok x.2) = (x ← g (file_state r); Ok x.2) → (mutate os f r).2 = (mutate os g r).2.
Proof.
  intros H. unfold mutate. destruct (os_ctx_before_lock os), (file_closed r), (os_ctx_locked os); try done.
  destruct (f _) as [[v s]|e], (g _) as [[w t]|e']; cbn in H; try done. injection H as ->.
  by destruct (persist os _) as [[[] [?|]] ?].
Qed.

Lemma file_write_cases entry os c r :
  file_write entry os c r = r ∨ file_write entry os c r = (mutate os (write_of c) r).2.
Proof.
  destruct c; cbn [file_write];
    unfold file_ReserveCreate, file_ReserveMutation, file_UpdateSandbox, file_UpdateOperation,
      file_ReplaceLease, file_AppendEvent, at_entry;
    try (destruct entry; [by left|]); right; apply mutate_state; unfold write_of; cbn [repo_exec].
  all: by match goal with |- (x ← ?m; _) = _ => destruct m as [[]|] end.
Qed.

(** A call under any faults, by a disciplined caller, whose snapshot JSON can
    represent. *)
Definition disciplined_file_step (r r' : FileRepository) : Prop :=
  ∃ c entry os, disciplined (file_state r) c ∧
    (∀ s, repo_exec c (file_state r) = Ok s → faithful (Export s)) ∧
    file_write entry os c r = r'.

Definition empty_repository : FileRepository := mkFileRepository NewState false None.

Lemma file_step_spec r r' n :
  file_ok r → (∀ k, latest_of (file_state r) k ≤ Z.of_nat n) → Z.of_nat n < 2^64 - 1 →
  disciplined_file_step r r' →
  file_ok r' ∧ (file_state r' = file_state r ∨ disciplined_step (file_state r) (file_state r')).
Proof.
  intros Hok Hlat Hn (c & entry & os & Hd & Hf & <-).
  destruct (file_write_cases entry os c r) as [-> | ->]; [by split; [|left]|].
  pose proof (mutate_spec os (write_of c) r Hok) as Hspec.
  destruct (mutate os (write_of c) r) as [x r'] eqn:E. cbn.
  destruct Hspec as [Hok' Hw].
  { intros v s Hws. unfold write_of in Hws. apply bind_Ok in Hws as (s' & Hs' & [= <- <-]).
    split; [|by apply Hf]. destruct Hok as [Hwf _].
    eapply repo_exec_wf; [done|done| |done]. specialize (Hlat (call_sandbox c)). lia. }
  split; [done|]. unfold answers_write, write_of in Hw.
  destruct (repo_exec c (file_state r)) as [s|e] eqn:Ec; cbn in Hw; [|left; naive_solver].
  destruct Hw as [[_ ->]|[[_ ->]|[-> _]]]; [right; by exists c..|by left].
Qed.

Lemma file_run n r :
  nsteps disciplined_file_step n empty_repository r → Z.of_nat n < 2^64 →
  file_ok r ∧ ∃ m, (m ≤ n)%nat ∧ nsteps disciplined_step m NewState (file_state r).
Proof.
  revert r. induction n as [|n IH]; intros r Hn Hlt.
  { inversion Hn; subst. split; [by split; [apply NewState_wf|]|]. exists 0%nat. split; [lia|constructor]. }
  apply nsteps_inv_r in Hn as (r0 & Hn & Hstep).
  destruct (IH r0 Hn ltac:(lia)) as (Hok & m & Hm & Hrun).
  destruct (reachable_wf m _ Hrun) as [_ Hlat]; [lia|].
  destruct (file_step_spec r0 r m Hok Hlat ltac:(lia) Hstep) as (Hok' & [-> | Hs]).
  - split; [done|]. exists m. split; [lia|done].
  - split; [done|]. exists (S m). split; [lia|]. by eapply nsteps_r.
Qed.

(** C24 (refinement): whatever disciplined calls are made whose snapshots JSON can
    represent, fewer than 2^64, and whatever system calls fail or contexts are
    cancelled on the way, a run of the file repository is a run of
    the abstract repository (of at most as many steps), and opening the file
    again at any time gives exactly the state that is in memory: no write is
    half applied, none that was reported as committed is lost, none that was
    rolled back comes back. *)
Theorem file_repository_durable path n r :
  blank path = false → nsteps disciplined_file_step n empty_repository r → Z.of_nat n < 2^64 →
  (∃ m, (m ≤ n)%nat ∧ nsteps disciplined_step m NewState (file_state r)) ∧
  file_NewRepository path of_ok (file_disk r) = Ok (mkFileRepository (file_state r) false (file_disk r)).
Proof.
  intros Hp Hn Hlt. destruct (file_run n r Hn Hlt) as ([_ Hload] & Hrun).
  split; [done|]. unfold file_NewRepository. by rewrite Hp, Hload.
Qed.

End file.

(** A file that holds the snapshot itself. *)
Module FileRuns.

Definition mutate_ := mutate (bytes := PersistedState) (X := unit) Some (λ _, 1).
Definition r0 : FileRepository (bytes := PersistedState) := @empty_repository PersistedState.
Definition r1 : FileRepository (bytes := PersistedState) := (mutate_ os_ok (write_of Runs.create) r0).2.
Definition r2 : FileRepository (bytes := PersistedState) := (mutate_ os_rename_fails (write_of Runs.append) r1).2.
Definition r3 : FileRepository (bytes := PersistedState) := (mutate_ os_syncDir_fails (write_of Runs.append) r2).2.

Lemma steps : nsteps (disciplined_file_step Some (λ _, 1) (λ _, True)) 3 r0 r3.
Proof.
  apply (nsteps_l _ 2 _ r1); [|apply (nsteps_l _ 1 _ r2); [|apply (nsteps_l _ 0 _ r3); [|constructor]]].
  - exists Runs.create, None, os_ok. split_and!; [exact I|done|reflexivity].
  - exists Runs.append, None, os_rename_fails. split_and!; [vm_compute; eauto|done|reflexivity].
  - exists Runs.append, None, os_syncDir_fails. split_and!; [vm_compute; eauto|done|reflexivity].
Qed.

End FileRuns.

(** The rename of the second write fails, the directory sync of the third. *)
Lemma file_repository_durable_witness :
  file_state FileRuns.r2 = Runs.after_create ∧ file_state FileRuns.r3 = Runs.after_event ∧
  file_NewRepository (λ _, 1) Some "/var/lib/lifecycle.json" of_ok (file_disk FileRuns.r3)
    = Ok (mkFileRepository (file_state FileRuns.r3) false (file_disk FileRuns.r3)).
Proof.
  split; [vm_compute; reflexivity|]. split; [vm_compute; reflexivity|].
  refine (proj2 (file_repository_durable Some (λ _, 1) Some (λ _, True) _ "/var/lib/lifecycle.json" 3 _
    _ FileRuns.steps _)).
  - intros p b _ [= ->]. reflexivity.
  - vm_compute; reflexivity.
  - lia.
Defined.
