(* ===== verification/LifecycleMemory.v ===== *)
(** * The in-memory adapter and the fake driver

    [provider/lifecycle/repository/memory] and [provider/lifecycle/driver/fake]
    as implementations of the coordinator's ports.  Each method first consults
    its context; what successive [ctx.Err()] and [clock.Now()] calls return is
    a script of the world.  [handle] composes the two adapters; the theorem is
    that its answers are answers the ports allow. *)

From S2P Require Import Prelude Program LifecycleModel LifecycleTransition LifecycleState LifecycleRepository LifecyclePorts.
From stdpp Require Import base gmap strings list fin_maps.
From Stdlib Require Import ZArith Lia.

Local Open Scope Z_scope.

(** ** Worlds *)

Record MemoryRepository := mkMemoryRepository {
  mem_state : State;
  mem_closed : bool;
}.

Definition memory_NewRepository : MemoryRepository := mkMemoryRepository NewState false.

Definition FakeDriver : Type := gmap string RuntimeState.
Definition fake_New : FakeDriver := ∅.

(** [w_log] records the calls, it does not influence them. *)
Record World := mkWorld {
  w_mem : MemoryRepository;
  w_fake : FakeDriver;
  w_clock : list Time;
  w_ctx : list (option context_sentinel);
  w_log : list log_entry;
}.

Definition w_set_mem (m : MemoryRepository) (w : World) : World :=
  mkWorld m (w_fake w) (w_clock w) (w_ctx w) (w_log w).
Definition w_set_fake (f : FakeDriver) (w : World) : World :=
  mkWorld (w_mem w) f (w_clock w) (w_ctx w) (w_log w).
Definition w_add_log (e : log_entry) (w : World) : World :=
  mkWorld (w_mem w) (w_fake w) (w_clock w) (w_ctx w) (e :: w_log w).

(** The clock stays at its last reading, an exhausted context script means no
    further cancellation. *)
Definition clock_Now (w : World) : Time * World :=
  match w_clock w with
  | [] => (0, w)
  | [t] => (t, w)
  | t :: ts => (t, mkWorld (w_mem w) (w_fake w) ts (w_ctx w) (w_log w))
  end.

Definition ctx_Err (w : World) : option context_sentinel * World :=
  match w_ctx w with
  | [] => (None, w)
  | c :: cs => (c, mkWorld (w_mem w) (w_fake w) (w_clock w) cs (w_log w))
  end.

Definition memory_contextError (ctx : Context) (w : World) : option context_sentinel * World :=
  match ctx with CtxNil => (Some Canceled, w) | _ => ctx_Err w end.

(** [if err := contextError(ctx); err != nil { return err }; k] *)
Definition guard_ctx {X} (ctx : Context) (k : World → result X * World) (w : World) : result X * World :=
  let '(err, w) := memory_contextError ctx w in
  match err with Some e => (Err [e : sentinel], w) | None => k w end.

(** ** Memory repository *)

Definition checkOpenAndContext {X} (ctx : Context) (k : World → result X * World) (w : World)
    : result X * World :=
  if mem_closed (w_mem w) then (Err [ErrClosed : sentinel], w) else guard_ctx ctx k w.

Definition memory_write {X} (ctx : Context) (f : State → result (X * State)) : World → result X * World :=
  guard_ctx ctx (checkOpenAndContext ctx (λ w,
    match f (mem_state (w_mem w)) with
    | Ok (v, s) => (Ok v, w_set_mem (mkMemoryRepository s (mem_closed (w_mem w))) w)
    | Err e => (Err e, w)
    end)).

Definition memory_read {X} (ctx : Context) (f : State → result X) : World → result X * World :=
  guard_ctx ctx (λ w,
    if mem_closed (w_mem w) then (Err [ErrClosed : sentinel], w) else (f (mem_state (w_mem w)), w)).

Definition memory_Close (w : World) : World :=
  w_set_mem (mkMemoryRepository (mem_state (w_mem w)) true) w.

Definition memory_ReserveCreate ctx key digest sb op :=
  memory_write ctx (ReserveCreate key digest sb op).
Definition memory_ReserveMutation ctx key digest g sb op ev :=
  memory_write ctx (ReserveMutation key digest g sb op ev).
Definition memory_GetSandbox ctx id := memory_read ctx (GetSandbox id).
Definition memory_UpdateSandbox ctx sb g tok := memory_write ctx (UpdateSandbox sb g tok).
Definition memory_ListSandboxes ctx := memory_read ctx (λ s, Ok (ListSandboxes s)).
Definition memory_GetOperation ctx id := memory_read ctx (GetOperation id).
Definition memory_UpdateOperation ctx op := memory_write ctx (UpdateOperation op).
Definition memory_ListOperations ctx := memory_read ctx (λ s, Ok (ListOperations s)).
Definition memory_GetLease ctx id := memory_read ctx (GetLease id).
Definition memory_ReplaceLease ctx l tok := memory_write ctx (ReplaceLease l tok).
Definition memory_AppendEvent ctx ev := memory_write ctx (AppendEvent ev).
Definition memory_ListEvents ctx id after limit := memory_read ctx (ListEvents id after limit).
Definition memory_ReadEvents ctx id after limit := memory_read ctx (ReadEvents id after limit).

(** ** Fake driver *)

(** [ctx.Err()] as an operation's last result. *)
Definition ctx_result (ctx : Context) (w : World) : result unit * World :=
  guard_ctx ctx (λ w, (Ok (), w)) w.

Definition fake_Create (ctx : Context) (sandbox : Sandbox) : World → result unit * World :=
  guard_ctx ctx (λ w,
    if decide (sb_ID sandbox = "") then (Err [SFakeDriver], w) else
    guard_ctx ctx (λ w, (Ok (), w_set_fake (<[sb_ID sandbox := RuntimeReady]> (w_fake w)) w)) w).

Definition fake_Inspect (ctx : Context) (id : string) : World → result RuntimeObservation * World :=
  guard_ctx ctx (λ w,
    if decide (id = "") then (Err [SFakeDriver], w) else
    guard_ctx ctx (λ w, (Ok (mkRuntimeObservation (default RuntimeAbsent (w_fake w !! id))), w)) w).

Definition fake_transition (ctx : Context) (id : string) (from to : RuntimeState)
    : World → result unit * World :=
  guard_ctx ctx (λ w,
    if decide (id = "") then (Err [SFakeDriver], w) else
    if decide (w_fake w !! id = Some from) then ctx_result ctx (w_set_fake (<[id := to]> (w_fake w)) w)
    else (Err [SFakeDriver], w)).

Definition fake_Suspend ctx id := fake_transition ctx id RuntimeReady RuntimeSuspended.
Definition fake_Resume ctx id := fake_transition ctx id RuntimeSuspended RuntimeReady.

Definition fake_Remove (ctx : Context) (id : string) : World → result unit * World :=
  guard_ctx ctx (λ w,
    if decide (id = "") then (Err [SFakeDriver], w) else
    ctx_result ctx (w_set_fake (delete id (w_fake w)) w)).

(** ** The composed ports *)

(** A driver call and its answer in the log. *)
Definition logged {X} (entry : X → log_entry) (m : World → X * World) (w : World) : X * World :=
  let '(x, w) := m w in (x, w_add_log (entry x) w).

(** A stored operation in the log. *)
Definition logged_store (op : Operation) (m : World → result unit * World) (w : World)
    : result unit * World :=
  let '(x, w) := m w in
  match x with Ok _ => (x, w_add_log (LStored op) w) | Err _ => (x, w) end.

Definition handle {X} (e : eff X) : World → X * World :=
  match e in eff X return World → X * World with
  | ENow => clock_Now
  | ECtxErr ctx => λ w, let '(e, w) := memory_contextError ctx w in ((λ c, [SContext c]) <$> e, w)
  | EReserveCreate ctx key digest sb op => memory_ReserveCreate ctx key digest sb op
  | EReserveMutation ctx key digest g sb op ev => memory_ReserveMutation ctx key digest g sb op ev
  | EGetSandbox ctx id => memory_GetSandbox ctx id
  | EListSandboxes ctx => memory_ListSandboxes ctx
  | EUpdateSandbox ctx sb g tok => memory_UpdateSandbox ctx sb g tok
  | EGetOperation ctx id => memory_GetOperation ctx id
  | EListOperations ctx => memory_ListOperations ctx
  | EUpdateOperation ctx op => logged_store op (memory_UpdateOperation ctx op)
  | EGetLease ctx id => memory_GetLease ctx id
  | EAppendEvent ctx ev => memory_AppendEvent ctx ev
  | EReadEvents ctx id after limit => memory_ReadEvents ctx id after limit
  | ECreate ctx sb => logged (LCreate sb) (fake_Create ctx sb)
  | EInspect ctx id => logged (LInspect id) (fake_Inspect ctx id)
  | ESuspend ctx id => logged (LSuspend id) (fake_Suspend ctx id)
  | EResume ctx id => logged (LResume id) (fake_Resume ctx id)
  | ERemove ctx id => logged (LRemove id) (fake_Remove ctx id)
  end.

Definition abs (w : World) : cfg := (mem_state (w_mem w), w_log w).
Definition run {A} (p : prog A) (w : World) : A * World := interp (@handle) p w.

(** ** The adapters implement the ports *)

Lemma ctx_abs ctx w : abs (memory_contextError ctx w).2 = abs w.
Proof. destruct ctx, w as [m f c [|x xs] l]; done. Qed.

Lemma transport_ctx (c : context_sentinel) : transport_error [c : sentinel].
Proof. unfold transport_error. destruct c; auto. Qed.

Lemma guard_ctx_cases {X} ctx (k : World → result X * World) w :
  (∃ (c : context_sentinel) w', guard_ctx ctx k w = (Err [c : sentinel], w') ∧ abs w' = abs w ) ∨
  (∃ w', guard_ctx ctx k w = k w' ∧ abs w' = abs w).
Proof.
  unfold guard_ctx. pose proof (ctx_abs ctx w) as H.
  destruct (memory_contextError ctx w) as [[c|] w']; [left; by exists c, w'|right; by exists w'].
Qed.

(** Split on the answer of the next context check. *)
Ltac ctx_cases c w Ha :=
  lazymatch goal with
  | |- context [guard_ctx ?ctx ?k ?w0] => destruct (guard_ctx_cases ctx k w0) as [(c & w & -> & Ha)|(w & -> & Ha)]
  end.

Lemma memory_write_answers {X} ctx (f : State → result (X * State)) w :
  answers_write f (abs w).1 (memory_write ctx f w).1 (abs (memory_write ctx f w).2).1 ∧
  w_log (memory_write ctx f w).2 = w_log w.
Proof.
  assert (Hfault : ∀ e w', transport_error e → abs w' = abs w →
    answers_write f (abs w).1 (Err e) (abs w').1 ∧ w_log w' = w_log w).
  { intros e w' He Ha. split; [|by injection Ha]. rewrite Ha. unfold answers_write.
    destruct (f _) as [[v t]|]; [right; right|split; [done|right]]; eauto. }
  unfold memory_write. ctx_cases c w1 Ha.
  { apply Hfault; [apply transport_ctx|done]. }
  unfold checkOpenAndContext. destruct (mem_closed (w_mem w1)).
  { apply Hfault; [by right; right; left|done]. }
  ctx_cases c w2 Ha'.
  { apply Hfault; [apply transport_ctx|cbn [snd]; congruence]. }
  cbv beta. rewrite Ha in Ha'. injection Ha' as Hs Hl. unfold abs, answers_write. cbn [fst snd].
  rewrite Hs. destruct (f (mem_state (w_mem w))) as [[v t]|e]; cbn; auto.
Qed.

Lemma memory_read_answers {X} ctx (f : State → result X) w :
  answers_read (f (abs w).1) (abs w).1 (memory_read ctx f w).1 (abs (memory_read ctx f w).2).1 ∧
  w_log (memory_read ctx f w).2 = w_log w.
Proof.
  unfold memory_read, answers_read.
  ctx_cases c w1 Ha; cbv beta.
  { injection Ha as Hs Hl. cbn. split_and!; [done| |done]. right. eexists. split; [apply transport_ctx|done]. }
  injection Ha as Hs Hl. destruct (mem_closed (w_mem w1)); cbn; rewrite Hs; split_and!; auto.
  right. eexists. split; [|done]. by right; right; left.
Qed.

Lemma guard_ctx_abs {X} ctx (k : World → result X * World) w :
  (∀ w, abs (k w).2 = abs w) → abs (guard_ctx ctx k w).2 = abs w.
Proof.
  intros Hk. destruct (guard_ctx_cases ctx k w) as [(c & w' & -> & Ha)|(w1 & -> & Ha)]; [done|].
  by rewrite Hk.
Qed.

Lemma logged_respond {X} (entry : X → log_entry) (m : World → X * World) w :
  (∀ w, abs (m w).2 = abs w) →
  abs (logged entry m w).2 = ((abs w).1, entry (logged entry m w).1 :: (abs w).2).
Proof.
  intros Hm. unfold logged. specialize (Hm w). destruct (m w) as [x w']. cbn in *.
  unfold abs in *. cbn. by injection Hm as -> ->.
Qed.

Lemma fake_Create_abs ctx sb w : abs (fake_Create ctx sb w).2 = abs w.
Proof.
  apply guard_ctx_abs. clear w. intros w. case_decide; [done|]. by apply guard_ctx_abs.
Qed.

Lemma fake_Inspect_abs ctx id w : abs (fake_Inspect ctx id w).2 = abs w.
Proof.
  apply guard_ctx_abs. clear w. intros w. case_decide; [done|]. by apply guard_ctx_abs.
Qed.

Lemma ctx_result_abs ctx w : abs (ctx_result ctx w).2 = abs w.
Proof. by apply guard_ctx_abs. Qed.

Lemma fake_transition_abs ctx id from to w : abs (fake_transition ctx id from to w).2 = abs w.
Proof.
  apply guard_ctx_abs. clear w. intros w. case_decide; [done|]. case_decide; [|done].
  by rewrite ctx_result_abs.
Qed.

Lemma fake_Remove_abs ctx id w : abs (fake_Remove ctx id w).2 = abs w.
Proof. apply guard_ctx_abs. clear w. intros w. case_decide; [done|]. by rewrite ctx_result_abs. Qed.

(** A write that answers without an error has taken effect. *)
Lemma answers_write_Ok {X} (f : State → result (X * State)) s v s' :
  answers_write f s (Ok v) s' → f s = Ok (v, s').
Proof.
  unfold answers_write. destruct (f s) as [[v' t]|e]; [|naive_solver].
  intros [[[= ->] ->]|[[? _]|(_ & e & _ & ?)]]; done.
Qed.

(** The in-memory store reports no error after a write. *)
Lemma memory_write_Err {X} ctx (f : State → result (X * State)) w e w' :
  memory_write ctx f w = (Err e, w') → abs w' = abs w.
Proof.
  unfold memory_write. ctx_cases c w1 Ha.
  { by intros [= _ <-]. }
  unfold checkOpenAndContext. destruct (mem_closed (w_mem w1)); [by intros [= _ <-]|].
  ctx_cases c w2 Ha'.
  { intros [= _ <-]. congruence. }
  cbv beta. destruct (f _) as [[v t]|]; [done|]. intros [= _ <-]. congruence.
Qed.

Lemma memory_store_answers ctx op w :
  respond (EUpdateOperation ctx op) (abs w)
    (logged_store op (memory_UpdateOperation ctx op) w).1
    (abs (logged_store op (memory_UpdateOperation ctx op) w).2).
Proof.
  pose proof (memory_write_answers ctx (UpdateOperation op) w) as [Hw Hl].
  unfold logged_store, memory_UpdateOperation.
  destruct (memory_write ctx (UpdateOperation op) w) as [[[]|e] w'] eqn:E; cbn in *.
  - split; [done|]. left. split; [by apply answers_write_Ok in Hw|]. by rewrite Hl.
  - split; [done|]. right. apply memory_write_Err in E. unfold abs in E. injection E as ? ?. done.
Qed.

Lemma handle_responds {X} (e : eff X) w : respond e (abs w) (handle e w).1 (abs (handle e w).2).
Proof.
  destruct e; cbn [respond handle].
  - unfold clock_Now. by destruct w as [m f [|t [|t' ts]] c l].
  - pose proof (ctx_abs ctx w) as H. by destruct (memory_contextError ctx w).
  - apply memory_write_answers.
  - apply memory_write_answers.
  - apply memory_read_answers.
  - apply (memory_read_answers ctx (λ s, Ok (ListSandboxes s))).
  - apply memory_write_answers.
  - apply memory_read_answers.
  - apply (memory_read_answers ctx (λ s, Ok (ListOperations s))).
  - apply memory_store_answers.
  - apply memory_read_answers.
  - apply memory_write_answers.
  - apply memory_read_answers.
  - apply logged_respond. intros. apply fake_Create_abs.
  - apply logged_respond. intros. apply fake_Inspect_abs.
  - apply logged_respond. intros. apply fake_transition_abs.
  - apply logged_respond. intros. apply fake_transition_abs.
  - apply logged_respond. intros. apply fake_Remove_abs.
Qed.

Lemma run_exec {A} (p : prog A) w : exec p (abs w) (Some (run p w).1) (abs (run p w).2).
Proof. apply interp_exec. intros. apply handle_responds. Qed.

(** the in-memory repository composed with the fake driver
    implements the ports the coordinator is verified against: every answer of
    every call, with any clock and any cancellation of the context at any
    point, is one the abstract ports allow, and every run of a coordinator
    program under it is one of the program's abstract executions. *)
Theorem memory_refines_ports {A} (p : prog A) w :
  (∀ X (e : eff X) w, respond e (abs w) (handle e w).1 (abs (handle e w).2)) ∧
  exec p (abs w) (Some (run p w).1) (abs (run p w).2).
Proof. split; [intros; apply handle_responds|apply run_exec]. Qed.
