(* ===== verification/LifecycleCoordinator.v ===== *)
(** * The lifecycle coordinator: [provider/lifecycle/coordinator]

    Every method of [Coordinator], from [coordinator.go] and [mutation.go], as
    a program over its ports.  A method returns a value and an optional error;
    where Go returns the zero value with an error, so does the model.  The
    coordinator keeps no state of its own apart from its lock, which
    [ReconcileOperation] and [ProcessExpiredLeases] hold: [exec] lets only
    reservations happen between their calls. *)

From Stdlib Require Import Ascii ZArith Lia.
From S2P Require Import Prelude Program LifecycleModel LifecycleTransition LifecycleState LifecycleRepository LifecyclePorts.
From stdpp Require Import base gmap strings list fin_maps pretty.

Local Open Scope Z_scope.

(** ** Results *)

Record Result := mkResult {
  rs_Operation : Operation;
  rs_Sandbox : Sandbox;
  rs_Dispatched : bool;
}.

#[export] Instance zero_Result : Zero Result := mkResult zeroOperation zeroSandbox false.
#[export] Instance zero_CreateResult : Zero CreateResult := zeroCreateResult.
#[export] Instance zero_MutationResult : Zero MutationResult := zeroMutationResult.
#[export] Instance zero_EventPage : Zero EventPage := zeroEventPage.
#[export] Instance zero_Sandbox : Zero Sandbox := zeroSandbox.
#[export] Instance zero_Operation : Zero Operation := zeroOperation.

Local Open Scope program_scope.

(** ** Identifiers and times *)

Definition hex_digit (n : N) : ascii :=
  ascii_of_N (if (n <? 10)%N then 48 + n else 87 + n).

(** [fmt.Sprintf("%x", bytes)] *)
Fixpoint hex (s : string) : string :=
  match s with
  | EmptyString => EmptyString
  | String c s => String (hex_digit (byte c / 16)) (String (hex_digit (byte c mod 16)) (hex s))
  end.

(** [t.Sub(u)] saturates at the bounds of [time.Duration]. *)
Definition Sub (t u : Time) : Z := Z.max (- 2^63) (Z.min (2^63 - 1) (t - u)).

Definition persistenceTimeout : Z := 5 * Second.
Definition eventPageSize : Z := 100.
Definition leaseExpiryOperationTimeout : Z := 300 * Second.

Definition sep : string := String NUL EmptyString.

Definition terminalOperation (state : OperationState) : bool :=
  match state with OperationSucceeded | OperationFailed | OperationCancelled => true | _ => false end.

Definition unknownOutcomeObserved (operationType : OperationType) (sandbox : Sandbox) : bool :=
  if decide (sb_ObservedGeneration sandbox ≠ sb_Generation sandbox) then false else
  match operationType with
  | OperationCreate | OperationResume => bool_decide (sb_ObservedState sandbox = ObservedReady)
  | OperationSuspend => bool_decide (sb_ObservedState sandbox = ObservedSuspended)
  | OperationTerminate => bool_decide (sb_ObservedState sandbox = ObservedTerminated)
  | _ => false
  end.

(** [if result.Operation.ID != "" { results = append(results, result) }] *)
Definition collect (results : list Result) (result : Result) : list Result :=
  if decide (op_ID (rs_Operation result) ≠ "") then results ++ [result] else results.

(** The loop over pending operations, over the ports [E] of whoever runs it. *)
Fixpoint reconcile_each {E} (getSandbox : string → Program.prog E (result Sandbox)) (reconcile : string → Program.prog E (outcome Result))
    (operations : list Operation) (results : list Result) : Program.prog E (outcome (list Result)) :=
  match operations with
  | [] => done_with results
  | operation :: operations =>
      let advance :=
        r ← reconcile (op_ID operation);
        match r with
        | (result, Some err) => Ret (collect results result, Some err)
        | (result, None) => reconcile_each getSandbox reconcile operations (results ++ [result])
        end in
      if terminalOperation (op_State operation) then reconcile_each getSandbox reconcile operations results else
      if decide (op_State operation = OperationOutcomeUnknown) then
        orelse (getSandbox (op_SandboxID operation))
          (λ err, Ret (results, Some err))
          (λ sandbox, if unknownOutcomeObserved (op_Type operation) sandbox
                      then reconcile_each getSandbox reconcile operations results else advance)
      else advance
  end.

Definition contextError (ctx : Context) : prog (option goerr) :=
  match ctx with CtxNil => Ret (Some [Canceled : sentinel]) | _ => call (ECtxErr ctx) end.

(** [if err := contextError(ctx); err != nil { return zero, err }; k] *)
Definition with_context {A} `{!Zero A} (ctx : Context) (k : prog (outcome A)) : prog (outcome A) :=
  err ← contextError ctx; match err with Some e => fail e | None => k end.

Definition operationContext (parent : Context) (deadline : Time) : prog Context :=
  now ← call ENow;
  let remaining := Sub deadline now in
  Ret (CtxWithTimeout parent (if decide (remaining < 0) then 0 else remaining)).

Definition persistenceContext (parent : Context) : Context :=
  let parent := match parent with CtxNil => CtxBackground | _ => parent end in
  CtxWithTimeout (CtxWithoutCancel parent) persistenceTimeout.

(** [errors.Is(err, ErrUnknownRuntime) || errors.Is(err, context.Canceled) || ...] *)
Definition outcome_unknown (e : goerr) : bool :=
  errors_is e ErrUnknownRuntime || errors_is e Canceled || errors_is e DeadlineExceeded.

Section coordinator.
(** [crypto/sha256.Sum256] as a function on byte strings, and
    [t.UTC().Format(time.RFC3339Nano)]. *)
Context (sha256 : string → string) (format_time : Time → string).
(** The capabilities of the composed driver. *)
Context (caps : DriverCaps).

(** ** Events *)

Definition event_of (operation : Operation) (sandbox : Sandbox) (kind : string) (now : Time) : Event :=
  mkEvent
    ("event-" +:+ hex (sha256 (op_ID operation +:+ sep +:+ OperationState_string (op_State operation)
                               +:+ sep +:+ kind)))
    (sb_ID sandbox) (op_ID operation) 0 (sb_Generation sandbox) (op_FencingToken operation) kind "" now.

Definition appendEvent (ctx : Context) (operation : Operation) (sandbox : Sandbox) (kind : string)
    (now : Time) : prog (result Event) :=
  call (EAppendEvent ctx (event_of operation sandbox kind now)).

Definition eventID (operationID kind : string) : string :=
  "event-" +:+ hex (sha256 (operationID +:+ sep +:+ kind)).

Definition acceptedEvent (operation : Operation) (sandbox : Sandbox) (digest kind : string)
    (now : Time) : Event :=
  mkEvent (eventID (op_ID operation) kind) (sb_ID sandbox) (op_ID operation) 0
    (sb_Generation sandbox) (op_FencingToken operation) kind digest now.

(** ** Recording outcomes *)

Definition failBeforeDispatch (ctx : Context) (operation : Operation) (sandbox : Sandbox)
    (code : string) (cause : goerr) : prog (outcome Result) :=
  let writeCtx := persistenceContext ctx in
  now ← call ENow;
  updatedOperation <~ Ret (FailOperation operation now (mkFailure code false FailureKnown));
  call (EUpdateOperation writeCtx updatedOperation) ;~
  now ← call ENow;
  appendEvent writeCtx updatedOperation sandbox "failed" now ;~
  Ret (mkResult updatedOperation sandbox false, Some cause).

Definition markReady (ctx : Context) (operation : Operation) (sandbox : Sandbox) (dispatched : bool)
    : prog (outcome Result) :=
  let writeCtx := persistenceContext ctx in
  now ← call ENow;
  ready <~ Ret (ApplyObservedTransition sandbox ObservedReady (sb_Generation sandbox) now);
  call (EUpdateSandbox writeCtx ready (sb_Generation sandbox) (op_FencingToken operation)) ;~
  now ← call ENow;
  updatedOperation <~ Ret (SucceedOperation operation now);
  call (EUpdateOperation writeCtx updatedOperation) ;~
  now ← call ENow;
  appendEvent writeCtx updatedOperation ready "ready" now ;~
  done_with (mkResult updatedOperation ready dispatched).

Definition markSandboxReady (ctx : Context) (operation : Operation) (sandbox : Sandbox)
    : prog (outcome Result) :=
  if decide (sb_ObservedState sandbox = ObservedReady ∧ sb_ObservedGeneration sandbox = sb_Generation sandbox)
  then done_with (mkResult operation sandbox false) else
  let writeCtx := persistenceContext ctx in
  now ← call ENow;
  ready <~ Ret (ApplyObservedTransition sandbox ObservedReady (sb_Generation sandbox) now);
  call (EUpdateSandbox writeCtx ready (sb_Generation sandbox) (op_FencingToken operation)) ;~
  now ← call ENow;
  appendEvent writeCtx operation ready "reconciled-ready" now ;~
  done_with (mkResult operation ready false).

Definition markKnownFailure (ctx : Context) (operation : Operation) (sandbox : Sandbox)
    (code : string) (cause : goerr) : prog (outcome Result) :=
  let writeCtx := persistenceContext ctx in
  let finish (failedSandbox : Sandbox) : prog (outcome Result) :=
    now ← call ENow;
    updatedOperation <~ Ret (FailOperation operation now (mkFailure code true FailureKnown));
    call (EUpdateOperation writeCtx updatedOperation) ;~
    now ← call ENow;
    appendEvent writeCtx updatedOperation failedSandbox "failed" now ;~
    Ret (mkResult updatedOperation failedSandbox true, Some cause) in
  now ← call ENow;
  match ApplyObservedTransition sandbox ObservedFailed (sb_Generation sandbox) now with
  | Ok failedSandbox =>
      call (EUpdateSandbox writeCtx failedSandbox (sb_Generation sandbox) (op_FencingToken operation)) ;~
      finish failedSandbox
  | Err transitionErr =>
      if errors_is transitionErr ErrInvalidTransition then finish sandbox else fail transitionErr
  end.

Definition markUnknownWithDispatch (ctx : Context) (operation : Operation) (sandbox : Sandbox)
    (code : string) (cause : goerr) (dispatched : bool) : prog (outcome Result) :=
  let writeCtx := persistenceContext ctx in
  now ← call ENow;
  match MarkOutcomeUnknown operation now (mkFailure code true FailureUnknown) with
  | Err err =>
      if errors_is err ErrTerminalOperation then done_with (mkResult operation sandbox false)
      else fail err
  | Ok updatedOperation =>
      call (EUpdateOperation writeCtx updatedOperation) ;~
      now ← call ENow;
      appendEvent writeCtx updatedOperation sandbox "outcome-unknown" now ;~
      Ret (mkResult updatedOperation sandbox dispatched, Some cause)
  end.

Definition markUnknown (ctx : Context) (operation : Operation) (sandbox : Sandbox) (code : string)
    (cause : goerr) : prog (outcome Result) :=
  markUnknownWithDispatch ctx operation sandbox code cause true.

(** ** Create *)

Definition dispatchCreate (ctx : Context) (operation : Operation) (sandbox : Sandbox)
    : prog (outcome Result) :=
  now ← call ENow;
  match CheckDeadline now (op_Deadline operation) with
  | Err err => failBeforeDispatch ctx operation sandbox "deadline_expired" err
  | Ok _ =>
  err ← contextError ctx;
  match err with
  | Some err => failBeforeDispatch ctx operation sandbox "cancelled_before_dispatch" err
  | None =>
  provisioning <~ Ret (ApplyObservedTransition sandbox ObservedProvisioning (sb_Generation sandbox) now);
  call (EUpdateSandbox ctx provisioning (sb_Generation sandbox) (op_FencingToken operation)) ;~
  updatedOperation <~ Ret (BeginOperation operation now);
  call (EUpdateOperation ctx updatedOperation) ;~
  appendEvent ctx updatedOperation provisioning "provisioning" now ;~
  operationCtx ← operationContext ctx (op_Deadline operation);
  err ← contextError operationCtx;
  match err with
  | Some err => markUnknownWithDispatch ctx updatedOperation provisioning "dispatch_deadline" err false
  | None =>
  orelse (call (ECreate operationCtx provisioning))
    (λ err, if outcome_unknown err
            then markUnknown ctx updatedOperation provisioning "runtime_create_unknown" err
            else markKnownFailure ctx updatedOperation provisioning "runtime_create_failed" err)
    (λ _, markReady ctx updatedOperation provisioning true)
  end end end.

Definition reconcileCreate (ctx : Context) (operation : Operation) (sandbox : Sandbox)
    : prog (outcome Result) :=
  operationCtx ← operationContext ctx (op_Deadline operation);
  err ← contextError operationCtx;
  match err with
  | Some err => markUnknown ctx operation sandbox "reconcile_deadline" err
  | None =>
  orelse (call (EInspect operationCtx (sb_ID sandbox)))
    (λ err, markUnknown ctx operation sandbox "reconcile_inspect_unknown" err)
    (λ observation,
      match ro_State observation with
      | RuntimeReady =>
          if decide (op_State operation = OperationOutcomeUnknown)
          then markSandboxReady ctx operation sandbox
          else markReady ctx operation sandbox false
      | RuntimeAbsent =>
          if decide (op_State operation = OperationOutcomeUnknown)
          then done_with (mkResult operation sandbox false)
          else markKnownFailure ctx operation sandbox "runtime_absent" [ErrRuntimeIsAbsent : sentinel]
      | RuntimeProvisioning => done_with (mkResult operation sandbox false)
      | _ => markUnknown ctx operation sandbox "invalid_runtime_observation" [ErrUnknownRuntime : sentinel]
      end)
  end.

(** ** Lease renewal *)

Definition reconcileLease (ctx : Context) (operation : Operation) (sandbox : Sandbox)
    : prog (outcome Result) :=
  if decide (op_State operation = OperationOutcomeUnknown)
  then done_with (mkResult operation sandbox false) else
  let writeCtx := persistenceContext ctx in
  let finish (updated : Operation) : prog (outcome Result) :=
    now ← call ENow;
    updated <~ Ret (SucceedOperation updated now);
    call (EUpdateOperation writeCtx updated) ;~
    now ← call ENow;
    appendEvent writeCtx updated sandbox "lease-renewal-succeeded" now ;~
    done_with (mkResult updated sandbox false) in
  if decide (op_State operation = OperationAccepted) then
    now ← call ENow;
    match BeginOperation operation now with
    | Err err => failBeforeDispatch ctx operation sandbox "deadline_expired" err
    | Ok updated => call (EUpdateOperation writeCtx updated) ;~ finish updated
    end
  else finish operation.

(** ** Suspend and resume *)

(** [controller.Suspend] or [controller.Resume], as a call. *)
Definition desiredRuntimeAction (operationType : OperationType)
    : result (RuntimeState * ObservedState * (Context → string → eff (result unit))) :=
  if has_StateController caps then
    match operationType with
    | OperationSuspend => Ok (RuntimeSuspended, ObservedSuspending, ESuspend)
    | OperationResume => Ok (RuntimeReady, ObservedResuming, EResume)
    | _ => Err [ErrInvalidCoordinator : sentinel]
    end
  else Err [ErrInvalidCoordinator : sentinel].

Definition markDesiredTarget (ctx : Context) (operation : Operation) (sandbox : Sandbox)
    (target : RuntimeState) (dispatched : bool) : prog (outcome Result) :=
  let '(observed, kind) :=
    if decide (target = RuntimeSuspended) then (ObservedSuspended, "suspended") else (ObservedReady, "ready") in
  if decide (sb_ObservedState sandbox = observed ∧ sb_ObservedGeneration sandbox = sb_Generation sandbox)
  then done_with (mkResult operation sandbox dispatched) else
  let writeCtx := persistenceContext ctx in
  let finish (updatedOperation : Operation) (updatedSandbox : Sandbox) : prog (outcome Result) :=
    now ← call ENow;
    appendEvent writeCtx updatedOperation updatedSandbox kind now ;~
    done_with (mkResult updatedOperation updatedSandbox dispatched) in
  now ← call ENow;
  updatedSandbox <~ Ret (ApplyObservedTransition sandbox observed (sb_Generation sandbox) now);
  call (EUpdateSandbox writeCtx updatedSandbox (sb_Generation sandbox) (op_FencingToken operation)) ;~
  if decide (op_State operation ≠ OperationOutcomeUnknown) then
    now ← call ENow;
    updatedOperation <~ Ret (SucceedOperation operation now);
    call (EUpdateOperation writeCtx updatedOperation) ;~
    finish updatedOperation updatedSandbox
  else finish operation updatedSandbox.

(** The part after the operation is known to be running or unknown. *)
Definition controlDesiredState (ctx : Context) (operation : Operation) (sandbox : Sandbox)
    (target : RuntimeState) (action : Context → string → eff (result unit)) : prog (outcome Result) :=
  operationCtx ← operationContext ctx (op_Deadline operation);
  orelse (call (EInspect operationCtx (sb_ID sandbox)))
    (λ err, markUnknown ctx operation sandbox "reconcile_inspect_unknown" err)
    (λ observation,
      if decide (ro_State observation = target) then markDesiredTarget ctx operation sandbox target false else
      if decide (op_State operation = OperationOutcomeUnknown)
      then done_with (mkResult operation sandbox false) else
      orelse (call (action operationCtx (sb_ID sandbox)))
        (λ err, if outcome_unknown err
                then markUnknown ctx operation sandbox "lifecycle_control_unknown" err
                else markKnownFailure ctx operation sandbox "lifecycle_control_failed" err)
        (λ _,
          confirmed ← call (EInspect operationCtx (sb_ID sandbox));
          match confirmed with
          | Err inspectErr =>
              markUnknown ctx operation sandbox "lifecycle_confirmation_unknown"
                ((ErrUnknownRuntime : sentinel) :: inspectErr)
          | Ok confirmed =>
              if decide (ro_State confirmed ≠ target)
              then markUnknown ctx operation sandbox "lifecycle_confirmation_unknown"
                     [ErrUnknownRuntime : sentinel]
              else markDesiredTarget ctx operation sandbox target true
          end)).

Definition reconcileDesiredState (ctx : Context) (operation : Operation) (sandbox : Sandbox)
    : prog (outcome Result) :=
  match desiredRuntimeAction (op_Type operation) with
  | Err err =>
      if decide (op_State operation = OperationOutcomeUnknown)
      then Ret (mkResult operation sandbox false, Some err)
      else markKnownFailure ctx operation sandbox "lifecycle_control_unsupported" err
  | Ok (target, intermediate, action) =>
      if decide (op_State operation = OperationAccepted) then
        now ← call ENow;
        transitioning <~ Ret (ApplyObservedTransition sandbox intermediate (sb_Generation sandbox) now);
        call (EUpdateSandbox ctx transitioning (sb_Generation sandbox) (op_FencingToken operation)) ;~
        match BeginOperation operation now with
        | Err beginErr => failBeforeDispatch ctx operation transitioning "deadline_expired" beginErr
        | Ok updated =>
            call (EUpdateOperation ctx updated) ;~
            appendEvent ctx updated transitioning (ObservedState_string intermediate) now ;~
            controlDesiredState ctx updated transitioning target action
        end
      else controlDesiredState ctx operation sandbox target action
  end.

(** ** Terminate *)

Definition markTerminated (ctx : Context) (operation : Operation) (sandbox : Sandbox)
    (dispatched : bool) : prog (outcome Result) :=
  if decide (sb_ObservedState sandbox = ObservedTerminated ∧ sb_ObservedGeneration sandbox = sb_Generation sandbox)
  then done_with (mkResult operation sandbox dispatched) else
  let writeCtx := persistenceContext ctx in
  let finish (updatedOperation : Operation) (terminated : Sandbox) : prog (outcome Result) :=
    now ← call ENow;
    appendEvent writeCtx updatedOperation terminated "terminated" now ;~
    done_with (mkResult updatedOperation terminated dispatched) in
  now ← call ENow;
  terminated <~ Ret (ApplyObservedTransition sandbox ObservedTerminated (sb_Generation sandbox) now);
  call (EUpdateSandbox writeCtx terminated (sb_Generation sandbox) (op_FencingToken operation)) ;~
  if decide (op_State operation ≠ OperationOutcomeUnknown) then
    now ← call ENow;
    updatedOperation <~ Ret (SucceedOperation operation now);
    call (EUpdateOperation writeCtx updatedOperation) ;~
    finish updatedOperation terminated
  else finish operation terminated.

Definition removeRuntime (ctx : Context) (operation : Operation) (sandbox : Sandbox)
    : prog (outcome Result) :=
  operationCtx ← operationContext ctx (op_Deadline operation);
  orelse (call (EInspect operationCtx (sb_ID sandbox)))
    (λ err, markUnknown ctx operation sandbox "termination_inspect_unknown" err)
    (λ observation,
      if decide (ro_State observation = RuntimeAbsent) then markTerminated ctx operation sandbox false else
      if decide (op_State operation = OperationOutcomeUnknown)
      then done_with (mkResult operation sandbox false) else
      orelse (call (ERemove operationCtx (sb_ID sandbox)))
        (λ err, markUnknown ctx operation sandbox "runtime_remove_unknown" err)
        (λ _,
          observation ← call (EInspect operationCtx (sb_ID sandbox));
          match observation with
          | Err err =>
              markUnknown ctx operation sandbox "termination_confirmation_unknown"
                ((ErrUnknownRuntime : sentinel) :: err)
          | Ok observation =>
              if decide (ro_State observation ≠ RuntimeAbsent)
              then markUnknown ctx operation sandbox "termination_confirmation_unknown"
                     [ErrUnknownRuntime : sentinel]
              else markTerminated ctx operation sandbox true
          end)).

Definition reconcileTerminate (ctx : Context) (operation : Operation) (sandbox : Sandbox)
    : prog (outcome Result) :=
  if has_OrphanCleaner caps then
    if decide (op_State operation = OperationAccepted) then
      now ← call ENow;
      terminating <~ Ret (ApplyObservedTransition sandbox ObservedTerminating (sb_Generation sandbox) now);
      call (EUpdateSandbox ctx terminating (sb_Generation sandbox) (op_FencingToken operation)) ;~
      match BeginOperation operation now with
      | Err err => failBeforeDispatch ctx operation terminating "deadline_expired" err
      | Ok updated =>
          call (EUpdateOperation ctx updated) ;~
          appendEvent ctx updated terminating "terminating" now ;~
          removeRuntime ctx updated terminating
      end
    else removeRuntime ctx operation sandbox
  else
    if decide (op_State operation = OperationOutcomeUnknown)
    then Ret (mkResult operation sandbox false, Some [ErrInvalidCoordinator : sentinel])
    else markKnownFailure ctx operation sandbox "termination_unsupported"
           [ErrInvalidCoordinator : sentinel].

(** ** Reconciliation *)

Definition reconcileOperation (ctx : Context) (operationID : string) : prog (outcome Result) :=
  with_context ctx (
  operation <~ call (EGetOperation ctx operationID);
  sandbox <~ call (EGetSandbox ctx (op_SandboxID operation));
  if terminalOperation (op_State operation) then done_with (mkResult operation sandbox false) else
  match op_Type operation, op_State operation with
  | OperationCreate, OperationAccepted => dispatchCreate ctx operation sandbox
  | OperationCreate, (OperationRunning | OperationOutcomeUnknown) => reconcileCreate ctx operation sandbox
  | OperationExtendLease, _ => reconcileLease ctx operation sandbox
  | (OperationSuspend | OperationResume), _ => reconcileDesiredState ctx operation sandbox
  | OperationTerminate, _ => reconcileTerminate ctx operation sandbox
  | _, _ => fail [ErrInvalidCoordinator : sentinel]
  end).

Definition ReconcileOperation (ctx : Context) (operationID : string) : prog (outcome Result) :=
  reconcileOperation ctx operationID.

Definition reconcile_all (ctx : Context) : list Operation → list Result → prog (outcome (list Result)) :=
  reconcile_each (λ id, call (EGetSandbox ctx id)) (ReconcileOperation ctx).

Definition ReconcilePending (ctx : Context) : prog (outcome (list Result)) :=
  with_context ctx (
  operations <~ call (EListOperations ctx);
  reconcile_all ctx operations []).

(** ** Acceptance *)

Definition AcceptCreate (ctx : Context) (request : CreateRequest) : prog (outcome CreateResult) :=
  with_context ctx (
  now ← call ENow;
  so <~ Ret (StartCreate request now);
  pass (call (EReserveCreate ctx (cr_IdempotencyKey request) (cr_RequestDigest request) so.1 so.2))).

Definition coordinator_GetSandbox (ctx : Context) (id : string) : prog (outcome Sandbox) :=
  with_context ctx (pass (call (EGetSandbox ctx id))).

Definition coordinator_GetOperation (ctx : Context) (id : string) : prog (outcome Operation) :=
  with_context ctx (pass (call (EGetOperation ctx id))).

Definition coordinator_ReadEvents (ctx : Context) (id : string) (after : Z) : prog (outcome EventPage) :=
  with_context ctx (pass (call (EReadEvents ctx id after eventPageSize))).

(** [(result, ok, err)]: an operation already recorded under the request's id. *)
Definition mutationReplay (ctx : Context) (sandboxID : string) (request : MutationRequest)
    : prog (MutationResult * bool * option goerr) :=
  orelse (call (EGetOperation ctx (mr_OperationID request)))
    (λ err,
      if errors_is err ErrNotFound then Ret (zero, false, None) else Ret (zero, false, Some err))
    (λ operation,
      if decide (op_SandboxID operation ≠ sandboxID ∨ op_AttemptID operation ≠ mr_AttemptID request
                 ∨ op_FencingToken operation ≠ mr_FencingToken request
                 ∨ op_IdempotencyKey operation ≠ mr_IdempotencyKey request
                 ∨ op_RequestDigest operation ≠ mr_RequestDigest request)
      then Ret (zero, true, Some [ErrIdempotencyConflict : sentinel]) else
      orelse (call (EGetSandbox ctx sandboxID))
        (λ err, Ret (zero, true, Some err))
        (λ sandbox, Ret (mkMutationResult operation sandbox true, true, None))).

(** The common shape of the three mutations: replay, read, start, reserve. *)
Definition accept_mutation (ctx : Context) (sandboxID : string) (request : MutationRequest)
    (kind : string) (start : Sandbox → Time → result (Sandbox * Operation))
    : prog (outcome MutationResult) :=
  with_context ctx (
  replay ← mutationReplay ctx sandboxID request;
  let '(replay, ok, err) := replay in
  if ok || bool_decide (is_Some err) then Ret (replay, err) else
  now ← call ENow;
  sandbox <~ call (EGetSandbox ctx sandboxID);
  uo <~ Ret (start sandbox now);
  let event := acceptedEvent uo.2 uo.1 (mr_RequestDigest request) kind now in
  pass (call (EReserveMutation ctx (mr_IdempotencyKey request) (mr_RequestDigest request)
                (mr_ExpectedGeneration request) uo.1 uo.2 event))).

Definition AcceptDesiredState (ctx : Context) (sandboxID : string) (request : DesiredStateRequest)
    : prog (outcome MutationResult) :=
  accept_mutation ctx sandboxID (dr_Mutation request) "desired-state-requested"
    (λ sandbox now, StartDesiredState sandbox request now).

Definition AcceptLease (ctx : Context) (sandboxID : string) (request : LeaseRequest)
    (maxLeaseSeconds : Z) : prog (outcome MutationResult) :=
  accept_mutation ctx sandboxID (lr_Mutation request) "lease-extended"
    (λ sandbox now, '(updated, _, operation) ← StartLeaseRenewal sandbox request maxLeaseSeconds now;
                    Ok (updated, operation)).

Definition AcceptTerminate (ctx : Context) (sandboxID : string) (request : TerminateRequest)
    : prog (outcome MutationResult) :=
  accept_mutation ctx sandboxID (tr_Mutation request) "termination-requested"
    (λ sandbox now, StartTerminate sandbox request now).

(** ** Lease expiry *)

Definition leaseExpiryTerminateRequest (sandbox : Sandbox) (lease : Lease) (now : Time)
    : TerminateRequest :=
  let seed := sb_ProviderRevisionID sandbox +:+ sep +:+ sb_ID sandbox +:+ sep
              +:+ pretty (Z.to_N (sb_Generation sandbox)) +:+ sep
              +:+ format_time (sb_LeaseExpiresAt sandbox) in
  let id := "lease-expiry-" +:+ hex (String.substring 0 16 (sha256 seed)) in
  let requestDigest := sha256 ("lease-expiry-request" +:+ sep +:+ seed) in
  mkTerminateRequest
    (mkMutationRequest id id (ls_FencingToken lease) id ("sha256:" +:+ hex requestDigest)
       (now + leaseExpiryOperationTimeout) (sb_Generation sandbox))
    "lease_expired".

Definition pending_terminations (operations : list Operation) : gset string :=
  list_to_set (op_SandboxID <$>
    filter (λ op, op_Type op = OperationTerminate ∧ terminalOperation (op_State op) = false) operations).

Fixpoint expire_all (ctx : Context) (now : Time) (sandboxes : list Sandbox)
    (pendingTermination : gset string) (results : list Result) : prog (outcome (list Result)) :=
  match sandboxes with
  | [] => done_with results
  | sandbox :: sandboxes =>
      if decide (Before now (sb_LeaseExpiresAt sandbox) ∨ sb_ObservedState sandbox = ObservedTerminated
                 ∨ sb_ObservedState sandbox = ObservedExpired)
      then expire_all ctx now sandboxes pendingTermination results else
      if decide (sb_ID sandbox ∈ pendingTermination)
      then expire_all ctx now sandboxes pendingTermination results else
      orelse (call (EGetLease ctx (sb_ID sandbox))) (λ leaseErr, Ret (results, Some leaseErr)) (λ lease,
      let request := leaseExpiryTerminateRequest sandbox lease now in
      orelse (Ret (StartTerminate sandbox request now)) (λ startErr, Ret (results, Some startErr)) (λ uo,
      let event := acceptedEvent uo.2 uo.1 (mr_RequestDigest (tr_Mutation request)) "lease-expired" now in
      orelse (call (EReserveMutation ctx (mr_IdempotencyKey (tr_Mutation request))
                      (mr_RequestDigest (tr_Mutation request))
                      (mr_ExpectedGeneration (tr_Mutation request)) uo.1 uo.2 event))
        (λ reserveErr,
          if errors_is reserveErr ErrGenerationConflict || errors_is reserveErr ErrStaleFencingToken
          then expire_all ctx now sandboxes pendingTermination results
          else Ret (results, Some reserveErr))
        (λ reserved,
          r ← reconcileOperation ctx (op_ID (mres_Operation reserved));
          let results := collect results r.1 in
          match r.2 with
          | Some reconcileErr => Ret (results, Some reconcileErr)
          | None => expire_all ctx now sandboxes ({[ sb_ID sandbox ]} ∪ pendingTermination) results
          end)))
  end.

(** What [ProcessExpiredLeases] does under the lock. *)
Definition sweep_leases (ctx : Context) : prog (outcome (list Result)) :=
  sandboxes <~ call (EListSandboxes ctx);
  operations <~ call (EListOperations ctx);
  now ← call ENow;
  expire_all ctx now sandboxes (pending_terminations operations) [].

Definition ProcessExpiredLeases (ctx : Context) : prog (outcome (list Result)) := with_context ctx (sweep_leases ctx).

End coordinator.
