(* ===== verification/LifecycleDispatch.v ===== *)
(** * What the coordinator dispatches

    The invariant that links the repository, the runtime driver's calls and the
    operation records the coordinator stores, and the proof that every
    coordinator method maintains it at every call, whatever the ports answer,
    whatever other callers reserve meanwhile and wherever the process stops.
    The theorems read the invariant off the log of a history. *)

From S2P Require Import Prelude Program LifecycleModel LifecycleTransition LifecycleState LifecycleRepository LifecyclePorts LifecycleCoordinator.
From stdpp Require Import base gmap strings list fin_maps relations.
From Stdlib Require Import ZArith Lia.

Local Open Scope Z_scope.

(** ** The log *)

(** The latest stored record of an operation. *)
Fixpoint last_stored (log : list log_entry) (id : string) : option Operation :=
  match log with
  | [] => None
  | LStored op :: log => if decide (op_ID op = id) then Some op else last_stored log id
  | _ :: log => last_stored log id
  end.

(** A running operation of type [ty] on sandbox [id] is on record. *)
Definition running_for (ty : OperationType) (id : string) (log : list log_entry) : Prop :=
  ∃ op, last_stored log (op_ID op) = Some op ∧ op_State op = OperationRunning ∧
        op_Type op = ty ∧ op_SandboxID op = id.

(** The driver's last word confirms that [op] took effect. *)
Definition observed_last (id : string) (st : RuntimeState) (log : list log_entry) : Prop :=
  head log = Some (LInspect id (Ok (mkRuntimeObservation st))).

(** A renewal is carried out by no driver: the lease was stored when it was accepted.
    Its last version on record is a running one. *)
Definition renewal_running (op : Operation) (log : list log_entry) : Prop :=
  ∃ old, last_stored log (op_ID op) = Some old ∧ op_State old = OperationRunning ∧ op_Type old = OperationExtendLease.

Definition confirmed (op : Operation) (log : list log_entry) : Prop :=
  match op_Type op with
  | OperationCreate =>
      (∃ sb, head log = Some (LCreate sb (Ok ())) ∧ sb_ID sb = op_SandboxID op) ∨
      observed_last (op_SandboxID op) RuntimeReady log
  | OperationSuspend => observed_last (op_SandboxID op) RuntimeSuspended log
  | OperationResume => observed_last (op_SandboxID op) RuntimeReady log
  | OperationTerminate => observed_last (op_SandboxID op) RuntimeAbsent log
  | OperationExtendLease => renewal_running op log
  | OperationTypeOther _ => False
  end.

(** The version of an operation that a stored one replaces. *)
Definition replaces (op : Operation) (log : list log_entry) : Prop :=
  ∃ old, op_moves old op ∧
    (last_stored log (op_ID op) = Some old ∨
     (last_stored log (op_ID op) = None ∧ op_State old = OperationAccepted)).

Definition entry_ok (e : log_entry) (log : list log_entry) : Prop :=
  match e with
  | LStored op => replaces op log ∧ (op_State op = OperationSucceeded → confirmed op log)
  | LCreate sb _ =>
      running_for OperationCreate (sb_ID sb) log ∧ ∀ sb' r, LCreate sb' r ∈ log → sb_ID sb' ≠ sb_ID sb
  | LInspect _ _ => True
  | LSuspend id _ => running_for OperationSuspend id log
  | LResume id _ => running_for OperationResume id log
  | LRemove id _ => running_for OperationTerminate id log
  end.

Fixpoint log_ok (log : list log_entry) : Prop :=
  match log with [] => True | e :: log => entry_ok e log ∧ log_ok log end.

(** ** The invariant *)

Record coord_inv (σ : cfg) : Prop := mkCoordInv {
  ci_sandbox k sb : Sandboxes σ.1 !! k = Some sb → sb_ID sb = k;
  ci_operation k op : Operations σ.1 !! k = Some op →
    op_ID op = k ∧ Operation_Validate op = Ok () ∧ is_Some (Sandboxes σ.1 !! op_SandboxID op);
  ci_one_create k1 k2 o1 o2 :
    Operations σ.1 !! k1 = Some o1 → Operations σ.1 !! k2 = Some o2 →
    op_Type o1 = OperationCreate → op_Type o2 = OperationCreate →
    op_SandboxID o1 = op_SandboxID o2 → k1 = k2;
  ci_stored k op : Operations σ.1 !! k = Some op →
    last_stored σ.2 k = Some op ∨ (last_stored σ.2 k = None ∧ op_State op = OperationAccepted);
  ci_logged k op : last_stored σ.2 k = Some op → Operations σ.1 !! k = Some op;
  ci_created sb r : LCreate sb r ∈ σ.2 →
    is_Some (Sandboxes σ.1 !! sb_ID sb) ∧
    ∀ k op, Operations σ.1 !! k = Some op → op_Type op = OperationCreate →
            op_SandboxID op = sb_ID sb → op_State op ≠ OperationAccepted;
  ci_log : log_ok σ.2;
}.

Lemma coord_inv_init : coord_inv (NewState, []).
Proof. split; cbn; intros *; rewrite ?lookup_empty; try done; set_solver. Qed.

(** Changes that keep operations, sandbox keys and the log. *)
Lemma coord_inv_quiet s s' log :
  coord_inv (s, log) → Operations s' = Operations s →
  (∀ k sb, Sandboxes s' !! k = Some sb → sb_ID sb = k) →
  (∀ k, is_Some (Sandboxes s !! k) → is_Some (Sandboxes s' !! k)) →
  coord_inv (s', log).
Proof.
  intros [H1 H2 H3 H4 H5 H6 H7] HO HS Hk. cbn in *. split; cbn; rewrite ?HO; auto.
  - intros k op Hop. destruct (H2 k op Hop) as (?&?&?). split_and!; auto.
  - intros sb r Hin. destruct (H6 sb r Hin). split; auto.
Qed.

(** A new accepted operation. *)
Lemma coord_inv_reserve s s' log op :
  coord_inv (s, log) →
  Operations s !! op_ID op = None → Operations s' = <[op_ID op := op]> (Operations s) →
  Operation_Validate op = Ok () → op_State op = OperationAccepted →
  is_Some (Sandboxes s' !! op_SandboxID op) →
  (op_Type op = OperationCreate → Sandboxes s !! op_SandboxID op = None) →
  (∀ k sb, Sandboxes s' !! k = Some sb → sb_ID sb = k) →
  (∀ k, is_Some (Sandboxes s !! k) → is_Some (Sandboxes s' !! k)) →
  coord_inv (s', log).
Proof.
  intros [H1 H2 H3 H4 H5 H6 H7] Hnew HO Hv Hacc Hsb Hcr HS Hk. cbn in *.
  assert (Hnl : last_stored log (op_ID op) = None).
  { destruct (last_stored log (op_ID op)) eqn:E; [|done]. apply H5 in E. congruence. }
  assert (Hother : ∀ k o, Operations s !! k = Some o → op_Type op = OperationCreate →
            op_SandboxID o ≠ op_SandboxID op).
  { intros k o Ho Hty Heq. destruct (H2 k o Ho) as (_&_&[x Hx]). rewrite Heq, Hcr in Hx; done. }
  split; cbn; rewrite ?HO; auto.
  - intros k o Ho. ins_inv Ho; [done|]. destruct (H2 k o Ho) as (?&?&?). split_and!; auto.
  - intros k1 k2 o1 o2 Ho1 Ho2 Ht1 Ht2 Heq.
    ins_inv Ho1; ins_inv Ho2; try done; [exfalso..|by eapply H3].
    + by eapply Hother.
    + by eapply Hother.
  - intros k o Ho. ins_inv Ho; [by right|auto].
  - intros k o Ho. rewrite lookup_insert_ne; [auto|]. congruence.
  - intros sb r Hin. destruct (H6 sb r Hin) as [[x Hx] Hst]. split; [eauto|].
    intros k o Ho Hty Heq. ins_inv Ho; [|by eapply Hst].
    rewrite <- Heq, Hcr in Hx; done.
Qed.

(** ** Calls of the repository *)

Lemma ReserveMutation_writes key digest g sb op ev s r s' :
  ReserveMutation key digest g sb op ev s = Ok (r, s') →
  s' = s ∨ (Operations s !! op_ID op = None ∧ Operations s' = <[op_ID op := op]> (Operations s) ∧
            Sandboxes s' = <[sb_ID sb := sb]> (Sandboxes s)).
Proof.
  intros H. pose proof H as (_&_&_&_&_&_&_&_&_&_&cur&Hc&[(?&_&_&_&_&_&->)|Hn])%ReserveMutation_Ok; [by left|].
  destruct Hn as (Hi&_&_&_&_&_&Hop&_). right. split; [done|].
  unfold ReserveMutation in H. inv_ok H. rewrite Hc, Hi in H. do 5 apply guard_Ok in H as [_ H].
  destruct (Leases s !! _); [|done]. by injection H as <- <-.
Qed.

Lemma coord_inv_reserve_call c s s' log :
  is_reserve c → repo_exec c s = Ok s' → coord_inv (s, log) → coord_inv (s', log).
Proof.
  intros Hc H HI. destruct c; try done; exec_cases H.
  - apply ReserveCreate_Ok in H as (_&Hv&_&_&_&Hst&Hid&[(?&_&_&_&_&->)|(_&HS&HO&_&_&->)]); [done|].
    apply (coord_inv_reserve s _ log op); try done; cbn; rewrite ?Hid; auto with go.
    intros k x Hx. ins_inv Hx; [done|]. by apply (ci_sandbox _ HI).
  - pose proof H as (_&Hv&_&_&_&Hty&Hst&Hid&_&_&_)%ReserveMutation_Ok.
    apply ReserveMutation_writes in H as [->|(HO & HO' & HS')]; [done|].
    apply (coord_inv_reserve s _ log op); try done; rewrite ?HS', ?Hid; auto with go.
    intros k x Hx. ins_inv Hx; [done|]. by apply (ci_sandbox _ HI).
Qed.

Lemma coord_inv_interfere σ σ' : interfere σ σ' → coord_inv σ → coord_inv σ'.
Proof.
  destruct σ as [s log], σ' as [s' log']. intros [(c & Hc & H) Hlog] HI. cbn in *. subst.
  by eapply coord_inv_reserve_call.
Qed.

(** The invariant after a call that stores no operation record. *)
Definition quiet {X} (e : eff X) : Prop :=
  match e with
  | EUpdateOperation _ _ | EReserveCreate _ _ _ _ _ | EReserveMutation _ _ _ _ _ _ _
  | ECreate _ _ | EInspect _ _ | ESuspend _ _ | EResume _ _ | ERemove _ _ => False
  | _ => True
  end.

Lemma answers_write_cases {X} (f : State → result (X * State)) s x s' :
  answers_write f s x s' → s' = s ∨ ∃ v, f s = Ok (v, s').
Proof. unfold answers_write. destruct (f s) as [[v t]|e]; naive_solver. Qed.

Lemma quiet_respond {X} (e : eff X) σ x σ' :
  quiet e → respond e σ x σ' → coord_inv σ →
  coord_inv σ' ∧ Operations σ'.1 = Operations σ.1 ∧ σ'.2 = σ.2.
Proof.
  destruct σ as [s log], σ' as [s' log']. intros Hq Hr HI.
  destruct e; try done; cbn in Hr.
  all: try (by simplify_eq).
  all: destruct Hr as [Hr ->].
  all: try (destruct Hr as [-> _]; done).
  - apply answers_write_cases in Hr as [->|(v & H)]; [done|].
    apply UpdateSandbox_Ok in H as (_&cur&_&_&_&_&_&_&l&->&_). cbn.
    split; [|done]. eapply coord_inv_quiet; [done|done|..]; cbn; [|auto with go].
    intros k y Hy. ins_inv Hy; [done|]. by apply (ci_sandbox _ HI).
  - apply answers_write_cases in Hr as [->|(v & H)]; [done|].
    apply AppendEvent_Ok in H as (_&sb&_&_&_&_&[(_&_&_&->)|[_ Heq]]); [done|].
    replace s' with (appendRetainedEvent ev s).2 by (by rewrite <- Heq). cbn.
    split; [|done]. eapply coord_inv_quiet; [done|done|..]; cbn; [apply (ci_sandbox _ HI)|done].
Qed.

(** ** Stored operations *)

Lemma op_moves_fields o o' :
  op_moves o o' → op_ID o' = op_ID o ∧ op_Type o' = op_Type o ∧ op_SandboxID o' = op_SandboxID o ∧
  (op_State o' = OperationAccepted → op_State o = OperationAccepted).
Proof.
  intros [->|[_ [(now & -> & _)|(st & now & f & -> & _ & Ht)]]]; [done|done|].
  cbn. split_and!; try done. intros ->. by destruct (op_State o).
Qed.

Lemma coord_inv_store s s' log cur op :
  coord_inv (s, log) → Operations s !! op_ID op = Some cur → op_moves cur op →
  (op_State op = OperationSucceeded → confirmed op log) →
  UpdateOperation op s = Ok ((), s') → coord_inv (s', LStored op :: log).
Proof.
  intros HI Hcur Hm Hconf H.
  apply UpdateOperation_Ok in H as (Hv&cur'&Hcur'&_&_&_&_&->).
  destruct (op_moves_fields _ _ Hm) as (Hid & Hty & Hsb & Hacc).
  destruct HI as [H1 H2 H3 H4 H5 H6 H7]. cbn in *.
  split; cbn; auto.
  - intros k o Ho. ins_inv Ho; [|by apply H2]. destruct (H2 _ _ Hcur) as (?&_&?).
    split_and!; [done|done|congruence].
  - intros k1 k2 o1 o2 Ho1 Ho2 Ht1 Ht2 Heq. ins_inv Ho1; ins_inv Ho2; [done|..|by eapply H3].
    + eapply (H3 _ _ cur o2); [done|done|congruence..].
    + eapply (H3 _ _ o1 cur); [done|done|congruence..].
  - intros k o Ho. ins_inv Ho; [rewrite decide_True by done; by left|].
    rewrite decide_False by done. auto.
  - intros k o Ho. case_decide as Heq; [simplify_eq; by rewrite lookup_insert_eq|].
    rewrite lookup_insert_ne by done. auto.
  - intros sb r [?|Hin]%elem_of_cons; [done|]. destruct (H6 sb r Hin) as [? Hst]. split; [done|].
    intros k o Ho Hot Hos Hoa. ins_inv Ho; [|by eapply Hst].
    eapply (Hst _ cur); [done|congruence|congruence|by apply Hacc].
  - split; [|done]. split; [|done]. exists cur. split; [done|].
    destruct (H4 _ _ Hcur) as [?|[? ?]]; auto.
Qed.

(** A driver call is logged; the repository does not change. *)
Lemma coord_inv_driver s log e :
  coord_inv (s, log) → entry_ok e log → (∀ op, e ≠ LStored op) →
  (∀ sb r, e = LCreate sb r → is_Some (Sandboxes s !! sb_ID sb) ∧
     ∀ k op, Operations s !! k = Some op → op_Type op = OperationCreate →
             op_SandboxID op = sb_ID sb → op_State op ≠ OperationAccepted) →
  coord_inv (s, e :: log).
Proof.
  intros [H1 H2 H3 H4 H5 H6 H7] He Hne Hcr. cbn in *.
  assert (Hls : ∀ k, last_stored (e :: log) k = last_stored log k).
  { intros k. destruct e; try done. by destruct (Hne op). }
  split; cbn [fst snd]; auto.
  - intros k op Hk. rewrite Hls. auto.
  - intros k op. rewrite Hls. auto.
  - intros sb r [<-|Hin]%elem_of_cons; [by apply (Hcr sb r)|by apply (H6 sb r)].
  - by split.
Qed.

(** ** Rules

    [ok_from op log p]: [p] maintains the invariant when it starts with [op]
    the stored version of its operation and [log] the log. *)

Definition holds (op : Operation) (log : list log_entry) (σ : cfg) : Prop :=
  Operations σ.1 !! op_ID op = Some op ∧ σ.2 = log.

Definition keeps {A} (p : prog A) (σ : cfg) : Prop := safe coord_inv p (λ _ _, True) σ.

Definition ok_from {A} (op : Operation) (log : list log_entry) (p : prog A) : Prop :=
  ∀ σ, coord_inv σ → holds op log σ → keeps p σ.

Lemma interfere_inv σ σ' : rtc interfere σ σ' → coord_inv σ → coord_inv σ'.
Proof. induction 1; eauto using coord_inv_interfere. Qed.

Lemma interfere_log σ σ' : rtc interfere σ σ' → σ'.2 = σ.2.
Proof. induction 1 as [|? ? ? [_ ?]]; congruence. Qed.

Lemma interfere_operation σ σ' id op :
  interfere σ σ' → Operations σ.1 !! id = Some op → Operations σ'.1 !! id = Some op.
Proof.
  intros [(c & Hc & H) _] Hop. destruct c; try done; exec_cases H.
  - apply ReserveCreate_Ok in H as (_&_&_&_&_&_&_&[(?&_&_&_&_&->)|(_&_&HO&_&_&->)]); [done|].
    cbn. by apply insert_fresh_keeps.
  - apply ReserveMutation_writes in H as [->|(HO & -> & _)]; [done|]. by apply insert_fresh_keeps.
Qed.

Lemma interfere_holds σ σ' op log : rtc interfere σ σ' → holds op log σ → holds op log σ'.
Proof.
  induction 1 as [|σ σ1 σ' H1 _ IH]; [done|]. intros [Ho Hl]. apply IH.
  split; [by eapply interfere_operation|]. destruct H1 as [_ ?]. congruence.
Qed.

Section rules.
Context {A : Type} (op : Operation) (log : list log_entry).
Implicit Types p : prog A.

Lemma ok_ret (a : A) : ok_from op log (Ret a).
Proof. by intros σ _ _. Qed.

Lemma ok_know (P : Prop) p :
  (∀ σ, coord_inv σ → holds op log σ → P) → (P → ok_from op log p) → ok_from op log p.
Proof. intros HP Hp σ HI Hh. by apply Hp; [eapply HP|..]. Qed.

Lemma ok_quiet {X} (e : eff X) (k : X → prog A) :
  quiet e → (∀ x, ok_from op log (k x)) → ok_from op log (Vis e k).
Proof.
  intros Hq Hk σ HI Hh σ0 x σ1 Hi Hr.
  apply (interfere_inv _ _ Hi) in HI. apply (interfere_holds _ _ _ _ Hi) in Hh.
  destruct (quiet_respond e σ0 x σ1 Hq Hr HI) as (HI1 & HO & HL). split; [done|].
  apply Hk; [done|]. destruct Hh. split; congruence.
Qed.

Lemma ok_get_sandbox ctx id (k : result Sandbox → prog A) :
  (∀ sb, sb_ID sb = id → ok_from op log (k (Ok sb))) → (∀ e, ok_from op log (k (Err e))) →
  ok_from op log (Vis (EGetSandbox ctx id) k).
Proof.
  intros Hok Herr σ HI Hh σ0 x σ1 Hi Hr.
  apply (interfere_inv _ _ Hi) in HI. apply (interfere_holds _ _ _ _ Hi) in Hh.
  destruct (quiet_respond (EGetSandbox ctx id) σ0 x σ1 I Hr HI) as (HI1 & HO & HL). split; [done|].
  assert (Hh1 : holds op log σ1) by (destruct Hh; split; congruence).
  destruct x as [sb|e]; [|by apply Herr]. apply Hok; [|done..].
  destruct Hr as [[_ [H|(e & _ & ?)]] _]; [|done].
  unfold GetSandbox in H. destruct (Sandboxes σ0.1 !! id) as [sb'|] eqn:E; [|done].
  injection H as ->. by apply (ci_sandbox _ HI) in E.
Qed.

Lemma ok_store ctx op' (k : result unit → prog A) :
  op_moves op op' → (op_State op' = OperationSucceeded → confirmed op' log) →
  ok_from op' (LStored op' :: log) (k (Ok ())) → (∀ e, ∃ a, k (Err e) = Ret a) →
  ok_from op log (Vis (EUpdateOperation ctx op') k).
Proof.
  intros Hm Hc Hk Herr σ HI Hh σ0 x σ1 Hi Hr.
  apply (interfere_inv _ _ Hi) in HI. apply (interfere_holds _ _ _ _ Hi) in Hh.
  destruct σ0 as [s0 l0], σ1 as [s1 l1]. destruct Hr as [Hw Hl]. cbn in *.
  destruct Hh as [Ho <-]. destruct (op_moves_fields _ _ Hm) as (Hid & _). cbn in Ho.
  assert (HI1 : coord_inv (s1, l1)).
  { destruct Hl as [[HU ->]|(-> & -> & _)]; [|done]. eapply coord_inv_store; [done| |done..].
    by rewrite Hid. }
  split; [done|]. destruct x as [[]|e]; [|destruct (Herr e) as [a ->]; done].
  destruct Hl as [[HU ->]|(_ & _ & ?)]; [|done]. apply Hk; [done|]. split; [|done].
  apply UpdateOperation_Ok in HU as (_&cur&_&_&_&_&_&->). cbn. by rewrite lookup_insert_eq.
Qed.

(** A driver call other than [Create]. *)
Lemma ok_driver {X} (e : eff X) (entry : X → log_entry) (k : X → prog A) :
  (∀ σ x σ', respond e σ x σ' ↔ σ' = (σ.1, entry x :: σ.2)) →
  (∀ x o, entry x ≠ LStored o) → (∀ x sb r, entry x ≠ LCreate sb r) →
  (∀ σ, coord_inv σ → holds op log σ → ∀ x, entry_ok (entry x) log) →
  (∀ x, ok_from op (entry x :: log) (k x)) → ok_from op log (Vis e k).
Proof.
  intros Hresp Hns Hnc He Hk σ HI Hh σ0 x σ1 Hi Hr.
  apply (interfere_inv _ _ Hi) in HI. apply (interfere_holds _ _ _ _ Hi) in Hh.
  apply Hresp in Hr as ->. pose proof (He σ0 HI Hh x) as Hx. destruct Hh as [Ho Hlog].
  assert (HI1 : coord_inv (σ0.1, entry x :: σ0.2)).
  { apply coord_inv_driver; [by destruct σ0|by rewrite Hlog|apply Hns|].
    intros sb r ?. by destruct (Hnc x sb r). }
  split; [done|]. apply Hk; [done|]. split; [done|]. cbn. by rewrite Hlog.
Qed.

Lemma ok_inspect ctx id (k : result RuntimeObservation → prog A) :
  (∀ x, ok_from op (LInspect id x :: log) (k x)) → ok_from op log (Vis (EInspect ctx id) k).
Proof. intros Hk. by apply (ok_driver _ (LInspect id)). Qed.
End rules.

(** A stored operation that is running is on record as running. *)
Lemma holds_running op log σ :
  coord_inv σ → holds op log σ → op_State op = OperationRunning →
  running_for (op_Type op) (op_SandboxID op) log.
Proof.
  intros HI [Ho <-] Hr. exists op.
  destruct (ci_stored _ HI _ _ Ho) as [?|[_ ?]]; [done|congruence].
Qed.

Definition fresh_create (id : string) (log : list log_entry) : Prop :=
  ∀ sb r, LCreate sb r ∈ log → sb_ID sb ≠ id.

Lemma holds_fresh op log σ :
  coord_inv σ → holds op log σ → op_State op = OperationAccepted → op_Type op = OperationCreate →
  fresh_create (op_SandboxID op) log.
Proof.
  intros HI [Ho <-] Ha Ht sb r Hin Heq. destruct (ci_created _ HI sb r Hin) as [_ H].
  by apply (H _ _ Ho).
Qed.

Lemma ok_create {A} op log ctx sb (k : result unit → prog A) :
  op_State op = OperationRunning → op_Type op = OperationCreate → op_SandboxID op = sb_ID sb →
  fresh_create (sb_ID sb) log →
  (∀ x, ok_from op (LCreate sb x :: log) (k x)) → ok_from op log (Vis (ECreate ctx sb) k).
Proof.
  intros Hr Ht Hs Hf Hk σ HI Hh σ0 x σ1 Hi Hresp.
  apply (interfere_inv _ _ Hi) in HI. apply (interfere_holds _ _ _ _ Hi) in Hh.
  cbn in Hresp. subst σ1. pose proof (holds_running _ _ _ HI Hh Hr) as Hrun. destruct Hh as [Ho Hlog].
  assert (HI1 : coord_inv (σ0.1, LCreate sb x :: σ0.2)).
  { apply coord_inv_driver; [by destruct σ0| |done|].
    - rewrite Hlog. split; [by rewrite <- Ht, <- Hs|exact Hf].
    - intros sb' r [= <- <-]. destruct (ci_operation _ HI _ _ Ho) as (_ & _ & ?).
      split; [by rewrite <- Hs|]. intros k' o Hk' Hty Hsb.
      assert (k' = op_ID op) as -> by (eapply (ci_one_create _ HI); [done..|congruence]).
      assert (o = op) as -> by congruence. congruence. }
  split; [done|]. apply Hk; [done|]. split; [done|]. cbn. by rewrite Hlog.
Qed.

(** ** The coordinator's methods *)

Lemma transition_spec op next now f op' :
  transitionOperation op next now f = Ok op' → op_moves op op' ∧ op_State op' = next.
Proof.
  intros H. split; [by eapply transitionOperation_moves|].
  by apply transitionOperation_Ok in H as (_ & _ & [[? ->]|(_&_&_&_&_&_&_&_&->)]).
Qed.

Lemma begin_spec op now op' :
  BeginOperation op now = Ok op' → op_moves op op' ∧ op_State op' = OperationRunning.
Proof. unfold BeginOperation. intros H. inv_ok H. by eapply transition_spec. Qed.

Lemma unknown_spec op now f op' :
  MarkOutcomeUnknown op now f = Ok op' → op_moves op op' ∧ op_State op' = OperationOutcomeUnknown.
Proof. unfold MarkOutcomeUnknown. intros H. inv_ok H. by eapply transition_spec. Qed.

Lemma observed_ID sb next g now sb' :
  ApplyObservedTransition sb next g now = Ok sb' → sb_ID sb' = sb_ID sb.
Proof. unfold ApplyObservedTransition. intros H. by inv_ok H. Qed.

Lemma confirmed_moves op op' log : op_moves op op' → confirmed op log → confirmed op' log.
Proof. intros (Hid & Hty & Hsb & _)%op_moves_fields. unfold confirmed, renewal_running. by rewrite Hid, Hty, Hsb. Qed.

(** Reduce a program to its next call. *)
Ltac prog_simpl :=
  cbv beta zeta delta [Program.fail done_with pass appendEvent call operationContext with_context];
  cbn [orelse mbind prog_bind prog_bind_def contextError fst snd].

(** Take one step of [ok_from op log p] that stores nothing. *)
Ltac ok_step :=
  prog_simpl;
  lazymatch goal with
  | |- ok_from _ _ (Ret _) => apply ok_ret
  | |- ok_from _ _ (Vis (EUpdateOperation _ _) _) => fail "store"
  | |- ok_from _ _ (Vis (EInspect _ _) _) => apply ok_inspect; intros [[?st]|?]
  | |- ok_from _ _ (Vis ENow _) => apply ok_quiet; [exact I|intros ?now]
  | |- ok_from _ _ (Vis (ECtxErr _) _) => apply ok_quiet; [exact I|intros [?|]]
  | |- ok_from _ _ (Vis _ _) => apply ok_quiet; [exact I|intros [?|?]]
  | |- ok_from _ _ (prog_bind_def _ (match ?c with _ => _ end)) => destruct c eqn:?
  | |- ok_from _ _ (match ?r with _ => _ end) => destruct r eqn:?
  end.

(** Store the operation produced by a transition whose specification is [spec]. *)
Ltac ok_store_by H spec :=
  prog_simpl; let Hm := fresh "Hm" in let Hst := fresh "Hst" in
  pose proof (spec _ _ _ _ H) as [Hm Hst] || pose proof (spec _ _ _ H) as [Hm Hst];
  apply ok_store; [exact Hm|try (rewrite Hst; discriminate)| |intros ?; eexists; reflexivity].

Section methods.
Context (sha256 : string → string) (caps : DriverCaps).

Lemma fail_spec op now f op' :
  FailOperation op now f = Ok op' → op_moves op op' ∧ op_State op' = OperationFailed.
Proof. apply transition_spec. Qed.

Lemma succeed_spec op now op' :
  SucceedOperation op now = Ok op' → op_moves op op' ∧ op_State op' = OperationSucceeded.
Proof. apply transition_spec. Qed.

Lemma ok_failBeforeDispatch op log ctx sb code cause :
  ok_from op log (failBeforeDispatch sha256 ctx op sb code cause).
Proof.
  unfold failBeforeDispatch. do 2 ok_step; [|ok_step].
  ok_store_by Heqr fail_spec. by repeat ok_step.
Qed.

Lemma ok_markReady op log ctx sb d :
  confirmed op log → ok_from op log (markReady sha256 ctx op sb d).
Proof.
  intros Hc. unfold markReady. do 2 ok_step; [|ok_step]. do 3 ok_step; [|by ok_step..].
  ok_store_by Heqr0 succeed_spec; [intros _; by eapply confirmed_moves|].
  by repeat ok_step.
Qed.

Lemma ok_markSandboxReady op log ctx sb : ok_from op log (markSandboxReady sha256 ctx op sb).
Proof. unfold markSandboxReady. by repeat ok_step. Qed.

Lemma ok_markKnownFailure op log ctx sb code cause :
  ok_from op log (markKnownFailure sha256 ctx op sb code cause).
Proof.
  unfold markKnownFailure.
  assert (Hfin : ∀ sb', ok_from op log (
    now ← call ENow;
    orelse (Ret (FailOperation op now (mkFailure code true FailureKnown))) Program.fail (λ op',
    orelse (call (EUpdateOperation (persistenceContext ctx) op')) Program.fail (λ _,
    now ← call ENow;
    orelse (appendEvent sha256 (persistenceContext ctx) op' sb' "failed" now) Program.fail (λ _,
    Ret (mkResult op' sb' true, Some cause)))))).
  { intros sb'. do 2 ok_step; [|ok_step]. ok_store_by Heqr fail_spec. by repeat ok_step. }
  do 2 ok_step.
  - ok_step; [apply Hfin|ok_step].
  - ok_step; [apply Hfin|ok_step].
Qed.

Lemma ok_markUnknownWithDispatch op log ctx sb code cause d :
  ok_from op log (markUnknownWithDispatch sha256 ctx op sb code cause d).
Proof.
  unfold markUnknownWithDispatch. do 2 ok_step; [|by repeat ok_step].
  ok_store_by Heqr unknown_spec. by repeat ok_step.
Qed.

Lemma ok_markUnknown op log ctx sb code cause :
  ok_from op log (markUnknown sha256 ctx op sb code cause).
Proof. apply ok_markUnknownWithDispatch. Qed.

Lemma ok_contextError op log ctx (k : option goerr → prog (outcome Result)) :
  (∀ x, ok_from op log (k x)) → ok_from op log (contextError ctx ≫= k).
Proof. intros Hk. destruct ctx; cbn; try (by apply ok_quiet). apply Hk. Qed.

Lemma ok_dispatchCreate op log ctx sb :
  op_State op = OperationAccepted → op_Type op = OperationCreate → op_SandboxID op = sb_ID sb →
  ok_from op log (dispatchCreate sha256 ctx op sb).
Proof.
  intros Hst Hty Hsb. apply (ok_know _ _ (fresh_create (op_SandboxID op) log)).
  { intros σ HI Hh. by eapply holds_fresh. }
  intros Hfresh. unfold dispatchCreate. do 2 ok_step; [|apply ok_failBeforeDispatch].
  apply ok_contextError. intros [e|]; [apply ok_failBeforeDispatch|].
  ok_step; [|by ok_step]. pose proof (observed_ID _ _ _ _ _ Heqr0) as Hid.
  do 2 ok_step; [|by repeat ok_step..].
  ok_store_by Heqr1 begin_spec. destruct (op_moves_fields _ _ Hm) as (_ & Hty' & Hsb' & _).
  ok_step; [|ok_step]. do 2 ok_step; [apply ok_markUnknownWithDispatch|]. prog_simpl.
  apply ok_create; [done|congruence|congruence|..].
  { rewrite Hid, <- Hsb. intros sb' r [?|Hin]%elem_of_cons; [done|]. by eapply Hfresh. }
  intros [[]|e].
  - apply ok_markReady. unfold confirmed. rewrite Hty', Hty. left. eexists. split; [done|]. congruence.
  - case_match; [apply ok_markUnknown|apply ok_markKnownFailure].
Qed.

Lemma ok_reconcileCreate op log ctx sb :
  op_Type op = OperationCreate → op_SandboxID op = sb_ID sb →
  ok_from op log (reconcileCreate sha256 ctx op sb).
Proof.
  intros Hty Hsb. unfold reconcileCreate. do 2 ok_step; [apply ok_markUnknown|].
  ok_step; [|apply ok_markUnknown]. ok_step.
  - case_decide; [ok_step|apply ok_markKnownFailure].
  - ok_step.
  - case_decide; [apply ok_markSandboxReady|]. apply ok_markReady.
    unfold confirmed. rewrite Hty, Hsb. right. cbn in *. by subst.
  - apply ok_markUnknown.
  - apply ok_markUnknown.
Qed.

Lemma holds_renewal op log σ :
  coord_inv σ → holds op log σ → op_State op = OperationRunning → op_Type op = OperationExtendLease → confirmed op log.
Proof.
  intros HI [Ho <-] Hr Hty. unfold confirmed. rewrite Hty. exists op. split; [|done].
  destruct (ci_stored _ HI _ _ Ho) as [?|[_ ?]]; [done|congruence].
Qed.

Lemma ok_reconcileLease op log ctx sb :
  op_State op = OperationAccepted ∨ op_State op = OperationRunning ∨ op_State op = OperationOutcomeUnknown →
  op_Type op = OperationExtendLease → ok_from op log (reconcileLease sha256 ctx op sb).
Proof.
  intros Hlive Hty. unfold reconcileLease. case_decide; [ok_step|].
  assert (Hfin : ∀ o l, op_State o = OperationRunning → op_Type o = OperationExtendLease → ok_from o l (
    now ← call ENow;
    orelse (Ret (SucceedOperation o now)) Program.fail (λ updated,
    orelse (call (EUpdateOperation (persistenceContext ctx) updated)) Program.fail (λ _,
    now ← call ENow;
    orelse (appendEvent sha256 (persistenceContext ctx) updated sb "lease-renewal-succeeded" now)
      Program.fail (λ _, done_with (mkResult updated sb false)))))).
  { intros o l Hr Ho. apply (ok_know _ _ (confirmed o l)); [intros σ HI Hh; by eapply holds_renewal|]. intros Hc.
    do 2 ok_step; [|ok_step]. ok_store_by Heqr succeed_spec; [|by repeat ok_step]. intros _. by eapply confirmed_moves. }
  case_decide; [|apply Hfin; naive_solver]. do 2 ok_step; [|apply ok_failBeforeDispatch].
  ok_store_by Heqr begin_spec. apply Hfin; [done|]. destruct (op_moves_fields _ _ Hm) as (_ & -> & _). done.
Qed.

(** Success of an operation whose target the driver just reported. *)
Lemma ok_markDesiredTarget op log ctx sb target d :
  (op_State op ≠ OperationOutcomeUnknown → confirmed op log) →
  ok_from op log (markDesiredTarget sha256 ctx op sb target d).
Proof.
  intros Hc. unfold markDesiredTarget. prog_simpl. destruct (decide (target = RuntimeSuspended)).
  all: case_decide; [ok_step|]; do 2 ok_step; [|ok_step]; ok_step; [|ok_step];
    case_decide; [|by repeat ok_step]; do 2 ok_step; [|ok_step];
    ok_store_by Heqr0 succeed_spec; [intros _; eapply confirmed_moves; eauto|by repeat ok_step].
Qed.

Lemma ok_markTerminated op log ctx sb d :
  (op_State op ≠ OperationOutcomeUnknown → confirmed op log) →
  ok_from op log (markTerminated sha256 ctx op sb d).
Proof.
  intros Hc. unfold markTerminated. case_decide; [ok_step|]; do 2 ok_step; [|ok_step]; ok_step; [|ok_step];
    case_decide; [|by repeat ok_step]; do 2 ok_step; [|ok_step];
    ok_store_by Heqr0 succeed_spec; [intros _; eapply confirmed_moves; eauto|by repeat ok_step].
Qed.

(** What [desiredRuntimeAction] returns. *)
Definition action_for (ty : OperationType) (target : RuntimeState)
    (action : Context → string → eff (result unit)) : Prop :=
  (ty = OperationSuspend ∧ target = RuntimeSuspended ∧ action = ESuspend) ∨
  (ty = OperationResume ∧ target = RuntimeReady ∧ action = EResume).

Lemma desiredRuntimeAction_Ok ty target mid action :
  desiredRuntimeAction caps ty = Ok (target, mid, action) → action_for ty target action.
Proof. unfold desiredRuntimeAction, action_for. repeat case_match; naive_solver. Qed.

Lemma action_confirmed op target action log :
  action_for (op_Type op) target action → observed_last (op_SandboxID op) target log → confirmed op log.
Proof. unfold confirmed. by intros [(->&->&_)|(->&->&_)]. Qed.

Lemma ok_action {A} op log ctx id target action (k : result unit → prog A) :
  action_for (op_Type op) target action → op_State op = OperationRunning → op_SandboxID op = id →
  (∀ x l, (∀ i st, head l ≠ Some (LInspect i st)) → ok_from op (l ++ log) (k x)) →
  ok_from op log (Vis (action ctx id) k).
Proof.
  intros Hact Hr Hid Hk.
  destruct Hact as [(Hty & _ & ->)|(Hty & _ & ->)];
    [apply (ok_driver _ _ _ (LSuspend id))|apply (ok_driver _ _ _ (LResume id))]; try done.
  - intros σ HI Hh x. cbn. rewrite <- Hty, <- Hid. by eapply holds_running.
  - intros x. by apply (Hk x [LSuspend id x]).
  - intros σ HI Hh x. cbn. rewrite <- Hty, <- Hid. by eapply holds_running.
  - intros x. by apply (Hk x [LResume id x]).
Qed.

Lemma ok_controlDesiredState op log ctx sb target action :
  action_for (op_Type op) target action → op_SandboxID op = sb_ID sb →
  op_State op = OperationRunning ∨ op_State op = OperationOutcomeUnknown →
  ok_from op log (controlDesiredState sha256 ctx op sb target action).
Proof.
  intros Hact Hsb Hst. unfold controlDesiredState. do 2 ok_step; [|apply ok_markUnknown].
  cbn [ro_State]. case_decide; [subst; apply ok_markDesiredTarget; intros _|].
  { eapply action_confirmed; [done|]. by rewrite Hsb. }
  case_decide; [ok_step|]. prog_simpl. eapply ok_action; [done|naive_solver|done|].
  intros x l Hl. destruct x as [[]|e].
  2: { case_match; [apply ok_markUnknown|apply ok_markKnownFailure]. }
  ok_step; [|apply ok_markUnknown]. cbn [ro_State]. case_decide as Hd; [apply ok_markUnknown|].
  apply ok_markDesiredTarget. intros _. eapply action_confirmed; [done|].
  subst. by rewrite Hsb.
Qed.

Lemma ok_reconcileDesiredState op log ctx sb :
  op_SandboxID op = sb_ID sb →
  op_State op = OperationAccepted ∨ op_State op = OperationRunning ∨ op_State op = OperationOutcomeUnknown →
  ok_from op log (reconcileDesiredState sha256 caps ctx op sb).
Proof.
  intros Hsb Hst. unfold reconcileDesiredState.
  destruct (desiredRuntimeAction caps (op_Type op)) as [[[target mid] action]|e] eqn:E.
  2: { case_decide; [ok_step|apply ok_markKnownFailure]. }
  apply desiredRuntimeAction_Ok in E. case_decide as Ha; [|apply ok_controlDesiredState; naive_solver].
  do 2 ok_step; [|ok_step]. pose proof (observed_ID _ _ _ _ _ Heqr) as Hid. ok_step; [|ok_step].
  ok_step; [|apply ok_failBeforeDispatch]. ok_store_by Heqr0 begin_spec.
  destruct (op_moves_fields _ _ Hm) as (_ & Hty & Hs & _). ok_step; [|ok_step].
  apply ok_controlDesiredState; [by rewrite Hty|congruence|by left].
Qed.

Lemma ok_removeRuntime op log ctx sb :
  op_Type op = OperationTerminate → op_SandboxID op = sb_ID sb →
  op_State op = OperationRunning ∨ op_State op = OperationOutcomeUnknown →
  ok_from op log (removeRuntime sha256 ctx op sb).
Proof.
  intros Hty Hsb Hst. unfold removeRuntime. do 2 ok_step; [|apply ok_markUnknown].
  cbn [ro_State].
  assert (Hconf : ∀ l, confirmed op (LInspect (sb_ID sb) (Ok (mkRuntimeObservation RuntimeAbsent)) :: l)).
  { intros l. unfold confirmed. by rewrite Hty, Hsb. }
  case_decide; [subst; apply ok_markTerminated; intros _; apply Hconf|]. case_decide; [ok_step|].
  prog_simpl. apply (ok_driver _ _ _ (LRemove (sb_ID sb))); try done.
  { intros σ HI Hh x. pose proof (holds_running _ _ _ HI Hh ltac:(naive_solver)) as Hrun.
    by rewrite Hty, Hsb in Hrun. }
  intros [[]|e]; [|apply ok_markUnknown]. ok_step; [|apply ok_markUnknown].
  cbn [ro_State]. case_decide as Hd; [apply ok_markUnknown|]. subst.
  apply ok_markTerminated. intros _. apply Hconf.
Qed.

Lemma ok_reconcileTerminate op log ctx sb :
  op_Type op = OperationTerminate → op_SandboxID op = sb_ID sb →
  op_State op = OperationAccepted ∨ op_State op = OperationRunning ∨ op_State op = OperationOutcomeUnknown →
  ok_from op log (reconcileTerminate sha256 caps ctx op sb).
Proof.
  intros Hty Hsb Hst. unfold reconcileTerminate. destruct (has_OrphanCleaner caps).
  2: { case_decide; [ok_step|apply ok_markKnownFailure]. }
  case_decide as Ha; [|apply ok_removeRuntime; naive_solver].
  do 2 ok_step; [|ok_step]. pose proof (observed_ID _ _ _ _ _ Heqr) as Hid. ok_step; [|ok_step].
  ok_step; [|apply ok_failBeforeDispatch]. ok_store_by Heqr0 begin_spec.
  destruct (op_moves_fields _ _ Hm) as (_ & Hty' & Hs & _). ok_step; [|ok_step].
  apply ok_removeRuntime; [congruence|congruence|by left].
Qed.
End methods.

(** ** Entry points

    [keeps_inv p]: [p] maintains the invariant from any configuration. *)

Definition keeps_inv {A} (p : prog A) : Prop := ∀ σ, coord_inv σ → keeps p σ.

Definition harmless {X} (e : eff X) : Prop :=
  match e with
  | EUpdateOperation _ _ | ECreate _ _ | ESuspend _ _ | EResume _ _ | ERemove _ _ => False
  | _ => True
  end.

Lemma harmless_respond {X} (e : eff X) σ x σ' :
  harmless e → respond e σ x σ' → coord_inv σ → coord_inv σ'.
Proof.
  intros Hh Hr HI. destruct σ as [s log], σ' as [s' log'].
  destruct e; try done; try (by eapply quiet_respond; [|exact Hr|]); cbn in Hr.
  - destruct Hr as [Hw ->]. apply answers_write_cases in Hw as [->|(v & H)]; [done|].
    eapply (coord_inv_reserve_call (CallReserveCreate key digest sb op)); [done| |done].
    cbn [repo_exec]. by rewrite H.
  - destruct Hr as [Hw ->]. apply answers_write_cases in Hw as [->|(v & H)]; [done|].
    eapply (coord_inv_reserve_call (CallReserveMutation key digest g sb op ev)); [done| |done].
    cbn [repo_exec]. by rewrite H.
  - injection Hr as -> ->. apply coord_inv_driver; by try done.
Qed.

Lemma inv_ret {A} (a : A) : keeps_inv (Ret a).
Proof. by intros σ _. Qed.

Lemma inv_call {A X} (e : eff X) (k : X → prog A) :
  harmless e → (∀ x, keeps_inv (k x)) → keeps_inv (Vis e k).
Proof.
  intros Hh Hk σ HI σ0 x σ1 Hi Hr. apply (interfere_inv _ _ Hi) in HI.
  pose proof (harmless_respond e σ0 x σ1 Hh Hr HI). split; [done|]. by apply Hk.
Qed.

Lemma inv_bind {A B} (p : prog A) (f : A → prog B) :
  keeps_inv p → (∀ a, keeps_inv (f a)) → keeps_inv (p ≫= f).
Proof.
  intros Hp Hf σ HI. apply safe_bind. eapply safe_mono; [|exact (safe_inv _ _ _ p _ σ HI (Hp σ HI))].
  intros a σ' [HI' _]. by apply Hf.
Qed.

Lemma inv_get_operation {A} ctx id (k : result Operation → prog A) :
  (∀ op log, op_ID op = id → Operation_Validate op = Ok () → ok_from op log (k (Ok op))) →
  (∀ e, keeps_inv (k (Err e))) → keeps_inv (Vis (EGetOperation ctx id) k).
Proof.
  intros Hok Herr σ HI σ0 x σ1 Hi Hr. apply (interfere_inv _ _ Hi) in HI.
  pose proof (harmless_respond (EGetOperation ctx id) σ0 x σ1 I Hr HI) as HI1. split; [done|].
  destruct x as [op|e]; [|by apply Herr]. destruct Hr as [[Hs [H|(e & _ & ?)]] Hl]; [|done].
  unfold GetOperation in H. destruct (Operations σ0.1 !! id) as [op'|] eqn:E; [|done].
  injection H as ->. destruct (ci_operation _ HI _ _ E) as (Hid & Hv & _).
  apply (Hok op' σ1.2); [done|done|done|]. split; [|done]. by rewrite Hs, Hid.
Qed.

Ltac inv_step :=
  prog_simpl;
  lazymatch goal with
  | |- keeps_inv (Ret _) => apply inv_ret
  | |- keeps_inv (Vis _ _) => apply inv_call; [exact I|intros ?x]
  | |- keeps_inv (match ?r with _ => _ end) => destruct r eqn:?
  | |- keeps_inv (prog_bind_def _ (match ?c with _ => _ end)) => destruct c eqn:?
  | |- keeps_inv (prog_bind_def _ (contextError ?c)) => destruct c
  end.

Section entries.
Context (sha256 : string → string) (format_time : Time → string) (caps : DriverCaps).

Lemma inv_with_context {A} `{!Zero A} ctx (p : prog (outcome A)) :
  keeps_inv p → keeps_inv (with_context ctx p).
Proof.
  intros Hp. unfold with_context. apply inv_bind.
  - destruct ctx; cbn; try (apply inv_call; [exact I|intros; apply inv_ret]). apply inv_ret.
  - intros [e|]; [apply inv_ret|done].
Qed.

Lemma inv_reconcileOperation ctx id : keeps_inv (reconcileOperation sha256 caps ctx id).
Proof.
  unfold reconcileOperation. apply inv_with_context. prog_simpl.
  apply inv_get_operation; [|intros e; apply inv_ret]. intros op log Hid Hv. prog_simpl.
  apply ok_get_sandbox; [|intros e; apply ok_ret]. intros sb Hsb. symmetry in Hsb.
  assert (Hst : op_State op = OperationAccepted ∨ op_State op = OperationRunning ∨
    op_State op = OperationOutcomeUnknown ∨ terminalOperation (op_State op) = true).
  { apply Operation_Validate_Ok in Hv as (_ & Hs & _). destruct (op_State op); cbn; auto. }
  destruct (terminalOperation (op_State op)) eqn:Et; [apply ok_ret|].
  assert (Hlive : op_State op = OperationAccepted ∨ op_State op = OperationRunning ∨
    op_State op = OperationOutcomeUnknown) by naive_solver.
  destruct (op_Type op) eqn:Hty.
  - destruct Hlive as [Hs|[Hs|Hs]]; rewrite Hs;
      [by apply ok_dispatchCreate|by apply ok_reconcileCreate..].
  - by apply ok_reconcileLease.
  - by apply ok_reconcileDesiredState.
  - by apply ok_reconcileDesiredState.
  - by apply ok_reconcileTerminate.
  - apply ok_ret.
Qed.

Lemma inv_reconcile_all ctx ops results : keeps_inv (reconcile_all sha256 caps ctx ops results).
Proof.
  revert results. unfold reconcile_all. induction ops as [|op ops IH]; intros results; cbn [reconcile_each]; [apply inv_ret|].
  assert (Hrec : keeps_inv (
    r ← ReconcileOperation sha256 caps ctx (op_ID op);
    match r with
    | (result, Some err) => Ret (collect results result, Some err)
    | (result, None) => reconcile_each (λ id, call (EGetSandbox ctx id)) (ReconcileOperation sha256 caps ctx) ops (results ++ [result])
    end)).
  { apply inv_bind; [apply inv_reconcileOperation|]. intros [r [e|]]; [apply inv_ret|apply IH]. }
  destruct (terminalOperation _); [apply IH|]. case_decide; [|done].
  prog_simpl. apply inv_call; [exact I|]. intros [sb|e]; [|apply inv_ret].
  case_match; [apply IH|done].
Qed.

Lemma inv_ReconcilePending ctx : keeps_inv (ReconcilePending sha256 caps ctx).
Proof.
  apply inv_with_context. prog_simpl. apply inv_call; [exact I|].
  intros [ops|e]; [apply inv_reconcile_all|apply inv_ret].
Qed.

Lemma inv_AcceptCreate ctx request : keeps_inv (AcceptCreate ctx request).
Proof.
  apply inv_with_context. prog_simpl. apply inv_call; [exact I|]. intros now.
  destruct (StartCreate request now); [|apply inv_ret]. by repeat inv_step.
Qed.

Lemma inv_accept_mutation ctx id request kind start :
  keeps_inv (accept_mutation sha256 ctx id request kind start).
Proof.
  apply inv_with_context. apply inv_bind.
  - unfold mutationReplay. by repeat inv_step.
  - intros [[replay ok] err]. by repeat inv_step.
Qed.

Lemma inv_expire_all ctx now sbs pending results :
  keeps_inv (expire_all sha256 format_time caps ctx now sbs pending results).
Proof.
  revert pending results. induction sbs as [|sb sbs IH]; intros pending results;
    cbn [expire_all]; [apply inv_ret|].
  do 2 (case_decide; [apply IH|]). prog_simpl. apply inv_call; [exact I|].
  intros [lease|e]; [|apply inv_ret]. destruct (StartTerminate _ _ _) as [uo|e]; [|apply inv_ret].
  apply inv_call; [exact I|]. intros [reserved|e].
  - apply inv_bind; [apply inv_reconcileOperation|]. intros [r [e|]]; [apply inv_ret|apply IH].
  - case_match; [apply IH|apply inv_ret].
Qed.

Lemma inv_ProcessExpiredLeases ctx : keeps_inv (ProcessExpiredLeases sha256 format_time caps ctx).
Proof.
  apply inv_with_context. prog_simpl. apply inv_call; [exact I|]. intros [sbs|e]; [|apply inv_ret].
  prog_simpl. apply inv_call; [exact I|]. intros [ops|e]; [|apply inv_ret].
  prog_simpl. apply inv_call; [exact I|]. intros now. apply inv_expire_all.
Qed.
End entries.
