(* ===== verification/LifecycleGuarantees.v ===== *)
(** * What the coordinator guarantees over a history

    A history is any sequence of coordinator calls, each of which may stop at
    any point (a crash) and be interleaved with reservations, and of
    reservations by other callers, over a repository that starts empty.  The
    theorems read the guarantees off the log that the history leaves. *)

From S2P Require Import Prelude Program LifecycleModel LifecycleTransition LifecycleState LifecycleRepository LifecyclePorts LifecycleMemory LifecycleCoordinator LifecycleDispatch.
From stdpp Require Import base gmap strings list fin_maps relations sorting.
From Stdlib Require Import Ascii ZArith Lia.

Local Open Scope Z_scope.

(** ** Histories *)

Inductive coord_call :=
  | DoReconcileOperation (ctx : Context) (id : string)
  | DoReconcilePending (ctx : Context)
  | DoProcessExpiredLeases (ctx : Context)
  | DoAcceptCreate (ctx : Context) (request : CreateRequest)
  | DoAcceptDesiredState (ctx : Context) (id : string) (request : DesiredStateRequest)
  | DoAcceptLease (ctx : Context) (id : string) (request : LeaseRequest) (maxLeaseSeconds : Z)
  | DoAcceptTerminate (ctx : Context) (id : string) (request : TerminateRequest).

Section histories.
Context (sha256 : string → string) (format_time : Time → string) (caps : DriverCaps).

(** Forget the result of a call. *)
Definition ignore {A} (p : prog A) : prog unit := p ≫= λ _, Ret ().

Definition call_prog (c : coord_call) : prog unit :=
  match c with
  | DoReconcileOperation ctx id => ignore (ReconcileOperation sha256 caps ctx id)
  | DoReconcilePending ctx => ignore (ReconcilePending sha256 caps ctx)
  | DoProcessExpiredLeases ctx => ignore (ProcessExpiredLeases sha256 format_time caps ctx)
  | DoAcceptCreate ctx request => ignore (AcceptCreate ctx request)
  | DoAcceptDesiredState ctx id request => ignore (AcceptDesiredState sha256 ctx id request)
  | DoAcceptLease ctx id request max => ignore (AcceptLease sha256 ctx id request max)
  | DoAcceptTerminate ctx id request => ignore (AcceptTerminate sha256 ctx id request)
  end.

Definition history_step (σ σ' : cfg) : Prop :=
  interfere σ σ' ∨ ∃ c o, exec (call_prog c) σ o σ'.

Definition history (σ : cfg) : Prop := rtc history_step (NewState, []) σ.

Lemma call_keeps c : keeps_inv (call_prog c).
Proof.
  assert (Hi : ∀ A (p : prog A), keeps_inv p → keeps_inv (ignore p)).
  { intros A p Hp. apply inv_bind; [done|]. intros. apply inv_ret. }
  destruct c; cbn [call_prog]; apply Hi.
  - exact (inv_reconcileOperation sha256 caps ctx id).
  - apply inv_ReconcilePending.
  - apply inv_ProcessExpiredLeases.
  - apply inv_AcceptCreate.
  - unfold AcceptDesiredState. apply inv_accept_mutation.
  - unfold AcceptLease. apply inv_accept_mutation.
  - unfold AcceptTerminate. apply inv_accept_mutation.
Qed.

Lemma history_inv σ : history σ → coord_inv σ.
Proof.
  unfold history. intros H. cut (coord_inv (NewState, []) → coord_inv σ).
  { intros Hi. apply Hi, coord_inv_init. }
  induction H as [|σ1 σ2 σ3 Hstep _ IH]; [done|]. intros HI. apply IH.
  destruct Hstep as [Hi|(c & o & Hx)]; [by eapply coord_inv_interfere|].
  by destruct (safe_exec _ _ coord_inv _ _ _ _ _ HI (call_keeps c σ1 HI) Hx).
Qed.

(** ** Reading the log *)

Lemma log_ok_split l1 e l2 : log_ok (l1 ++ e :: l2) → entry_ok e l2.
Proof. induction l1 as [|x l1 IH]; cbn; [by intros [? _]|]. intros [_ ?]. auto. Qed.

Definition created (log : list log_entry) : list string :=
  omap (λ e, match e with LCreate sb _ => Some (sb_ID sb) | _ => None end) log.

Lemma created_in id log : id ∈ created log ↔ ∃ sb r, LCreate sb r ∈ log ∧ sb_ID sb = id.
Proof.
  unfold created. rewrite list_elem_of_omap. split.
  - intros (e & He & H). destruct e; try done. injection H as <-. eauto.
  - intros (sb & r & Hin & <-). exists (LCreate sb r). done.
Qed.

Lemma log_ok_created log : log_ok log → NoDup (created log).
Proof.
  induction log as [|e log IH]; intros Hlog; [constructor|]. destruct Hlog as [He Hlog].
  unfold created. cbn. destruct e; cbn; try (by apply IH). constructor; [|by apply IH].
  intros Hin. apply created_in in Hin as (sb' & r' & Hin & Heq). by apply (proj2 He sb' r').
Qed.

Lemma op_moves_settled o o' :
  op_moves o o' → OperationState_terminal (op_State o) = true → o' = o.
Proof. intros [->|[Ht _]] H; [done|congruence]. Qed.

Lemma settled_last log op :
  log_ok log → LStored op ∈ log → OperationState_terminal (op_State op) = true →
  last_stored log (op_ID op) = Some op.
Proof.
  induction log as [|e log IH]; intros Hlog Hin Ht; [set_solver|]. destruct Hlog as [He Hlog].
  apply elem_of_cons in Hin as [<-|Hin]; [cbn; by rewrite decide_True|].
  specialize (IH Hlog Hin Ht). destruct e; cbn; try done.
  case_decide as Hid; [|done]. destruct He as [(old & Hm & Hold) _]. rewrite Hid, IH in Hold.
  f_equal. apply op_moves_settled in Hm; [|by destruct Hold as [[= ->]|[? _]]].
  destruct Hold as [[= ->]|[? _]]; done.
Qed.

(** ** Theorems *)

(** C1 (safety): over any history, with crashes at any point, lost or wrong
    driver answers, repository faults and concurrent reservations, the driver's
    [Create] is called at most once for each sandbox. *)
Theorem create_at_most_once σ : history σ → NoDup (created σ.2).
Proof. intros H. apply log_ok_created, ci_log. by apply history_inv. Qed.

(** A driver call that changes the runtime, its operation type and its sandbox. *)
Definition dispatches (e : log_entry) : option (OperationType * string) :=
  match e with
  | LCreate sb _ => Some (OperationCreate, sb_ID sb)
  | LSuspend id _ => Some (OperationSuspend, id)
  | LResume id _ => Some (OperationResume, id)
  | LRemove id _ => Some (OperationTerminate, id)
  | LInspect _ _ | LStored _ => None
  end.

(** the runtime is changed only on behalf of an operation of that
    type on that sandbox that had been stored as running before the call and
    whose latest stored state is running: never for an operation that is only
    accepted, has settled, or whose outcome is unknown. *)
Theorem dispatch_only_when_running σ later e earlier ty id :
  history σ → σ.2 = later ++ e :: earlier → dispatches e = Some (ty, id) → running_for ty id earlier.
Proof.
  intros H Hlog He. apply history_inv, ci_log in H. rewrite Hlog in H.
  apply log_ok_split in H. destruct e; cbn in He; simplify_eq; cbn in H; tauto.
Qed.

(** C5 (safety): an operation is stored as succeeded only when the driver call
    just before confirmed it: a create by the [Create] that returned without
    error or by an inspection that found the sandbox ready, a suspend, resume
    or termination by an inspection that found it suspended, ready or absent; and a
    lease renewal, for which no driver is called, only when its last version on
    record was running. *)
Theorem success_is_confirmed σ later op earlier :
  history σ → σ.2 = later ++ LStored op :: earlier → op_State op = OperationSucceeded →
  confirmed op earlier.
Proof.
  intros H Hlog He. apply history_inv, ci_log in H. rewrite Hlog in H.
  apply log_ok_split in H as [_ H]. auto.
Qed.

(** C21 (invariant): once an operation has been stored with a settled outcome
    (succeeded, failed, cancelled or unknown) that record is the one in the
    repository for the rest of the history. *)
Theorem settled_outcome_is_final σ op :
  history σ → LStored op ∈ σ.2 → OperationState_terminal (op_State op) = true →
  Operations σ.1 !! op_ID op = Some op.
Proof.
  intros H Hin Ht. apply history_inv in H. apply (ci_logged _ H).
  apply settled_last; [apply H|done|done].
Qed.

End histories.

(** ** An attempt that was fenced out

    What happens to an operation of which a newer token has fenced out the
    attempt: first what the calls of the coordinator leave as it is. *)

Definition same_sandbox (sb sb' : Sandbox) : Prop :=
  sb_ID sb' = sb_ID sb ∧ sb_ProviderRevisionID sb' = sb_ProviderRevisionID sb.

(** From [s] to [s'] sandboxes kept their identity, fences did not fall, and only
    operations in [P] changed. *)
Record keeps_except (P : string → Prop) (s s' : State) : Prop := mkKeepsExcept {
  ke_sandbox k sb : Sandboxes s !! k = Some sb → ∃ sb', Sandboxes s' !! k = Some sb' ∧ same_sandbox sb sb';
  ke_fence k : get_or 0 (Fencing s) k ≤ get_or 0 (Fencing s') k;
  ke_operation k o : ¬ P k → Operations s !! k = Some o → Operations s' !! k = Some o;
}.

#[export] Instance keeps_except_po P : PreOrder (keeps_except P).
Proof.
  split.
  - intros s. split; [|done..]. intros k sb ?. by exists sb.
  - intros s1 s2 s3 [a1 b1 c1] [a2 b2 c2]. split; [|intros k; by etransitivity; [apply b1|apply b2]|auto].
    intros k sb (sb2 & H2 & [e1 e2])%a1. apply a2 in H2 as (sb3 & ? & [e3 e4]). exists sb3. split; [done|]. split; congruence.
Qed.

Lemma keeps_weaken (P P' : string → Prop) s s' : (∀ k, P k → P' k) → keeps_except P s s' → keeps_except P' s s'.
Proof. intros HP [? ? H3]. split; [done..|]. intros k o Hk. apply H3. auto. Qed.

Lemma insert_same (m : gmap string Sandbox) new :
  (∀ cur, m !! sb_ID new = Some cur → same_sandbox cur new) →
  ∀ k sb, m !! k = Some sb → ∃ sb', <[sb_ID new := new]> m !! k = Some sb' ∧ same_sandbox sb sb'.
Proof. intros Hn k sb Hk. rewrite lookup_insert. case_decide as Heq; [subst; eauto|]. by exists sb. Qed.

Lemma ReserveMutation_fencing key digest g sb op ev s r s' k :
  ReserveMutation key digest g sb op ev s = Ok (r, s') → get_or 0 (Fencing s) k ≤ get_or 0 (Fencing s') k.
Proof.
  intros H. pose proof H as (_&_&_&_&_&_&_&_&_&_&cur&Hc&[(?&_&_&_&_&_&->)|Hn])%ReserveMutation_Ok; [done|].
  destruct Hn as (Hi&_). unfold ReserveMutation in H. inv_ok H. rewrite Hc, Hi in H.
  apply guard_Ok in H as [_ H]. apply guard_Ok in H as [_ H]. apply guard_Ok in H as [Hf H]. do 2 apply guard_Ok in H as [_ H].
  destruct (Leases s !! _); [|done]. injection H as <- <-. cbn. case_decide; [apply fencing_raise_le; lia|done].
Qed.

Lemma reserve_keeps P c s s' : is_reserve c → repo_exec c s = Ok s' → keeps_except P s s'.
Proof.
  intros Hc H. destruct c; try done; exec_cases H.
  - apply ReserveCreate_Ok in H as (_&_&_&_&_&_&_&[(?&_&_&_&_&->)|(_&HS&HO&Hf&_&->)]); [done|].
    split; cbn.
    + apply insert_same. congruence.
    + intros k. apply fencing_raise_le. lia.
    + intros k o _. by apply insert_fresh_keeps.
  - pose proof (λ k, ReserveMutation_fencing _ _ _ _ _ _ _ _ _ k H) as Hf.
    pose proof H as (_&_&_&_&_&_&_&_&_&_&cur&HS&[(?&_&_&_&_&_&->)|Hn])%ReserveMutation_Ok; [done|].
    destruct Hn as (_&_&Hsame&_). apply ReserveMutation_writes in H as [->|(HO & HO' & HS')]; [done|].
    split; [|done|rewrite HO'; intros k o _; by apply insert_fresh_keeps]. rewrite HS'. apply insert_same.
    intros c Hc'. simplify_eq. destruct Hsame as (?&_&_&_&?&_). by split.
Qed.

Lemma interfere_keeps P σ σ' : rtc interfere σ σ' → keeps_except P σ.1 σ'.1.
Proof. induction 1 as [|σ σ1 σ' [(c & Hc & H) _] _ IH]; [done|]. etransitivity; [by eapply reserve_keeps|done]. Qed.

(** *** The writes of a reconciliation *)

(** A call that writes no operation but [id] and no sandbox but [sb]. *)
Definition allowed (id : string) (sb : Sandbox) {X} (e : eff X) : Prop :=
  match e with
  | EUpdateOperation _ op => op_ID op = id
  | EUpdateSandbox _ sb' _ _ => same_sandbox sb sb'
  | _ => True
  end.

Definition known (sb : Sandbox) (s : State) : Prop := ∃ cur, Sandboxes s !! sb_ID sb = Some cur ∧ same_sandbox sb cur.

Lemma known_keeps P sb s s' : keeps_except P s s' → known sb s → known sb s'.
Proof. intros HP (cur & Hc & [e1 e2]). apply (ke_sandbox _ _ _ HP) in Hc as (c' & Hc' & [? ?]). exists c'. split; [done|]. split; congruence. Qed.

(** Neither reservations nor events nor the driver change what is on record. *)
Definition calm {X} (e : eff X) : Prop := match e with EUpdateOperation _ _ | EUpdateSandbox _ _ _ _ => False | _ => True end.

Lemma calm_respond P {X} (e : eff X) σ x σ' : calm e → respond e σ x σ' → keeps_except P σ.1 σ'.1.
Proof.
  intros Hc Hr. destruct e; try done; cbn in Hr.
  all: try (by subst σ'); try (by destruct Hr as [[-> _] _]).
  all: destruct Hr as [Hw Hr]; apply answers_write_cases in Hw as [->|(v & H)]; try done.
  - eapply (reserve_keeps _ (CallReserveCreate key digest sb op)); [done|]. cbn [repo_exec]. by rewrite H.
  - eapply (reserve_keeps _ (CallReserveMutation key digest g sb op ev)); [done|]. cbn [repo_exec]. by rewrite H.
  - apply AppendEvent_Ok in H as (_&sb'&_&_&_&_&[(_&_&_&->)|[_ Heq]]); [done|].
    replace (σ'.1) with (appendRetainedEvent ev σ.1).2 by (by rewrite <- Heq). split; cbn; [|done..]. intros k sb'' ?. by exists sb''.
Qed.

Lemma allowed_respond id sb {X} (e : eff X) σ x σ' :
  allowed id sb e → known sb σ.1 → respond e σ x σ' → keeps_except (eq id) σ.1 σ'.1.
Proof.
  intros Ha (cur & Hc & [Hc1 Hc2]) Hr. destruct e; cbn in Ha; try (by eapply calm_respond; [|exact Hr]).
  all: destruct Hr as [Hw Hr]; apply answers_write_cases in Hw as [->|(v & H)]; try done.
  - destruct Ha as [Ha1 Ha2]. apply UpdateSandbox_Ok in H as (_&c'&HS&_&_&_&_&_&l&->&_). split; cbn; [|done..].
    apply insert_same. intros c Hc'. rewrite Ha1 in Hc'. simplify_eq. split; congruence.
  - apply UpdateOperation_Ok in H as (_&c'&_&_&_&_&_&->). split; cbn; [|done|].
    + intros k sb' ?. by exists sb'.
    + intros k o Hne Ho. rewrite lookup_insert_ne; congruence.
Qed.

Fixpoint frames (id : string) (sb : Sandbox) {A} (p : prog A) : Prop :=
  match p with Ret _ => True | Vis e k => allowed id sb e ∧ ∀ x, frames id sb (k x) end.

Lemma frames_safe id sb s0 {A} (p : prog A) σ :
  frames id sb p → known sb σ.1 → keeps_except (eq id) s0 σ.1 → safe (λ σ', keeps_except (eq id) s0 σ'.1) p (λ _ _, True) σ.
Proof.
  revert σ. induction p as [a|X e k IH]; intros σ Hf Hk H0; [done|]. destruct Hf as [Ha Hf]. intros σ0 x σ1 Hi Hr.
  pose proof (interfere_keeps (eq id) _ _ Hi) as H1. apply (known_keeps _ _ _ _ H1) in Hk.
  pose proof (allowed_respond id sb e σ0 x σ1 Ha Hk Hr) as H2.
  assert (keeps_except (eq id) s0 σ1.1) by (do 2 (etransitivity; [done|]); done). split; [done|].
  apply IH; [done|exact (known_keeps _ _ _ _ H2 Hk)|done].
Qed.

Lemma frames_bind id sb {A B} (p : prog A) (f : A → prog B) : frames id sb p → (∀ a, frames id sb (f a)) → frames id sb (p ≫= f).
Proof. intros Hp Hf. induction p as [a|X e k IH]; cbn in *; [done|]. destruct Hp as [? Hk]. split; [done|]. intros x. by apply IH. Qed.

Lemma observed_same sb0 sb next g now sb' :
  ApplyObservedTransition sb next g now = Ok sb' → same_sandbox sb0 sb → same_sandbox sb0 sb'.
Proof. by intros (_&_&_&_&_&_&->)%ApplyObservedTransition_Ok. Qed.

Lemma moves_ID id op op' : op_moves op op' → op_ID op = id → op_ID op' = id.
Proof. intros (? & _)%op_moves_fields. congruence. Qed.

Lemma moves_token op op' : op_moves op op' → op_FencingToken op' = op_FencingToken op.
Proof. by intros [->|[_ [(now & -> & _)|(st & now & f & -> & _ & Ht)]]]. Qed.

Lemma begin_ID id op now op' : BeginOperation op now = Ok op' → op_ID op = id → op_ID op' = id.
Proof. intros [? _]%begin_spec. by eapply moves_ID. Qed.
Lemma unknown_ID id op now f op' : MarkOutcomeUnknown op now f = Ok op' → op_ID op = id → op_ID op' = id.
Proof. intros [? _]%unknown_spec. by eapply moves_ID. Qed.
Lemma transition_ID id op next now f op' : transitionOperation op next now f = Ok op' → op_ID op = id → op_ID op' = id.
Proof. intros [? _]%transition_spec. by eapply moves_ID. Qed.

Create HintDb frames.
#[local] Hint Resolve observed_same begin_ID unknown_ID transition_ID : frames.

(** Walk to the next call. *)
Ltac frame_step :=
  prog_simpl;
  lazymatch goal with
  | |- frames _ _ (Ret _) => exact I
  | |- frames _ _ (Vis _ _) => split; [first [exact I|cbn; eauto 4 with frames]|intros ?]
  | |- frames _ _ (match ?r with _ => _ end) => destruct r eqn:?
  | |- frames _ _ (prog_bind_def _ (match ?c with _ => _ end)) => destruct c eqn:?
  | |- frames _ _ _ => eauto 4 with frames
  end.
Ltac walk := repeat frame_step.

Section frames.
Context (sha256 : string → string) (caps : DriverCaps) (id : string) (sb0 : Sandbox).
Implicit Types (op : Operation) (sb : Sandbox).

Lemma frames_failBeforeDispatch ctx op sb code cause : op_ID op = id → frames id sb0 (failBeforeDispatch sha256 ctx op sb code cause).
Proof using Type. intros. unfold failBeforeDispatch. walk. Qed.
Lemma frames_markReady ctx op sb d : op_ID op = id → same_sandbox sb0 sb → frames id sb0 (markReady sha256 ctx op sb d).
Proof using Type. intros. unfold markReady. walk. Qed.
Lemma frames_markSandboxReady ctx op sb : same_sandbox sb0 sb → frames id sb0 (markSandboxReady sha256 ctx op sb).
Proof using Type. intros. unfold markSandboxReady. walk. Qed.
Lemma frames_markKnownFailure ctx op sb code cause : op_ID op = id → same_sandbox sb0 sb → frames id sb0 (markKnownFailure sha256 ctx op sb code cause).
Proof using Type. intros. unfold markKnownFailure. walk. Qed.
Lemma frames_markUnknownWithDispatch ctx op sb code cause d : op_ID op = id → frames id sb0 (markUnknownWithDispatch sha256 ctx op sb code cause d).
Proof using Type. intros. unfold markUnknownWithDispatch. walk. Qed.
Lemma frames_markDesiredTarget ctx op sb target d : op_ID op = id → same_sandbox sb0 sb → frames id sb0 (markDesiredTarget sha256 ctx op sb target d).
Proof using Type. intros. unfold markDesiredTarget. walk. Qed.
Lemma frames_markTerminated ctx op sb d : op_ID op = id → same_sandbox sb0 sb → frames id sb0 (markTerminated sha256 ctx op sb d).
Proof using Type. intros. unfold markTerminated. walk. Qed.
#[local] Hint Resolve frames_failBeforeDispatch frames_markReady frames_markSandboxReady frames_markKnownFailure
  frames_markUnknownWithDispatch frames_markDesiredTarget frames_markTerminated : frames.

Lemma frames_dispatchCreate ctx op sb : op_ID op = id → same_sandbox sb0 sb → frames id sb0 (dispatchCreate sha256 ctx op sb).
Proof using Type. intros. unfold dispatchCreate, markUnknown. destruct ctx; walk. Qed.
Lemma frames_reconcileCreate ctx op sb : op_ID op = id → same_sandbox sb0 sb → frames id sb0 (reconcileCreate sha256 ctx op sb).
Proof using Type. intros. unfold reconcileCreate, markUnknown. walk. Qed.
Lemma frames_reconcileLease ctx op sb : op_ID op = id → frames id sb0 (reconcileLease sha256 ctx op sb).
Proof using Type. intros. unfold reconcileLease. walk. Qed.
Lemma frames_controlDesiredState ctx op sb target action :
  (∀ c i, allowed id sb0 (action c i)) → op_ID op = id → same_sandbox sb0 sb → frames id sb0 (controlDesiredState sha256 ctx op sb target action).
Proof using Type. intros. unfold controlDesiredState, markUnknown. walk. Qed.
Lemma frames_reconcileDesiredState ctx op sb : op_ID op = id → same_sandbox sb0 sb → frames id sb0 (reconcileDesiredState sha256 caps ctx op sb).
Proof using Type.
  intros Hid Hsb. unfold reconcileDesiredState. destruct (desiredRuntimeAction caps (op_Type op)) as [[[target mid] action]|err] eqn:Ea; [|walk].
  assert (Hact : ∀ c i, allowed id sb0 (action c i)).
  { unfold desiredRuntimeAction in Ea. destruct (has_StateController caps), (op_Type op); by simplify_eq. }
  walk; apply frames_controlDesiredState; eauto with frames.
Qed.
Lemma frames_removeRuntime ctx op sb : op_ID op = id → same_sandbox sb0 sb → frames id sb0 (removeRuntime sha256 ctx op sb).
Proof using Type. intros. unfold removeRuntime, markUnknown. walk. Qed.
Lemma frames_reconcileTerminate ctx op sb : op_ID op = id → same_sandbox sb0 sb → frames id sb0 (reconcileTerminate sha256 caps ctx op sb).
Proof using Type. intros. unfold reconcileTerminate. walk; apply frames_removeRuntime; eauto with frames. Qed.
End frames.

Section fenced.
Context (sha256 : string → string) (format_time : Time → string) (caps : DriverCaps).

(** A reconciliation writes its own operation and that one's sandbox. *)
Lemma reconcile_confined ctx id σ :
  coord_inv σ →
  safe (λ σ', coord_inv σ' ∧ keeps_except (eq id) σ.1 σ'.1) (reconcileOperation sha256 caps ctx id) (λ _ _, True) σ.
Proof using Type.
  intros HI. cut (safe (λ σ', keeps_except (eq id) σ.1 σ'.1) (reconcileOperation sha256 caps ctx id) (λ _ _, True) σ).
  { intros Hk. pose proof (safe_and (@respond) interfere _ _ _ _ _ _ (inv_reconcileOperation sha256 caps ctx id σ HI) Hk) as Hs. revert Hs. by apply safe_weaken. }
  unfold reconcileOperation, with_context. set (body := orelse (call (EGetOperation ctx id)) _ _).
  assert (Hbody : ∀ σ1, coord_inv σ1 → keeps_except (eq id) σ.1 σ1.1 → safe (λ σ', keeps_except (eq id) σ.1 σ'.1) body (λ _ _, True) σ1).
  { intros σ1 HI1 H1. unfold body. prog_simpl. intros σ2 x σ3 Hi2 Hr.
    apply (interfere_inv _ _ Hi2) in HI1. pose proof (transitivity H1 (interfere_keeps _ _ _ Hi2)) as H2.
    destruct Hr as [[Hs Hx] Hl]. rewrite Hs. split; [done|]. destruct x as [op|e]; [|done].
    destruct Hx as [Hx|(e & _ & ?)]; [|done]. unfold GetOperation in Hx. destruct (Operations σ2.1 !! id) as [op'|] eqn:Eo; [|done]. injection Hx as ->.
    destruct (ci_operation _ HI1 _ _ Eo) as (Hid & _).
    prog_simpl. intros σ4 y σ5 Hi4 Hr. pose proof (interfere_keeps (eq id) _ _ Hi4) as H4. rewrite Hs in H4.
    pose proof (transitivity H2 H4) as H5. destruct Hr as [[Hs5 Hy] _]. rewrite Hs5. split; [done|]. destruct y as [sb|e]; [|done].
    destruct Hy as [Hy|(e & _ & ?)]; [|done]. unfold GetSandbox in Hy. destruct (Sandboxes σ4.1 !! op_SandboxID op') as [sb'|] eqn:Es; [|done]. injection Hy as ->.
    assert (HI4 : coord_inv σ4).
    { apply (interfere_inv _ _ Hi4). destruct σ2, σ3. cbn in Hs, Hl. by subst. }
    pose proof (ci_sandbox _ HI4 _ _ Es) as Hsb.
    apply (frames_safe id sb'); [|exists sb'; split; [by rewrite Hs5, Hsb|done]|by rewrite Hs5].
    assert (Hsame : same_sandbox sb' sb') by done. destruct (terminalOperation (op_State op')); [done|].
    destruct (op_Type op'); try destruct (op_State op'); try done;
      eauto using frames_dispatchCreate, frames_reconcileCreate, frames_reconcileLease, frames_reconcileDesiredState, frames_reconcileTerminate. }
  clearbody body. apply safe_bind. destruct ctx; cbn [contextError call safe]; [done|..].
  all: intros σ0 x σ1 Hi ->; pose proof (interfere_keeps (eq id) _ _ Hi); split; [done|]; destruct x; [done|];
    apply Hbody; [by eapply interfere_inv|done].
Qed.

(** The attempt of [op] holds a token that its sandbox is fenced against. *)
Definition fenced_out (op : Operation) (s : State) : Prop :=
  Operations s !! op_ID op = Some op ∧
  ∃ sb, Sandboxes s !! op_SandboxID op = Some sb ∧ sb_ID sb = op_SandboxID op ∧ op_FencingToken op < fence_of s sb.

Lemma fenced_keeps P op s s' : keeps_except P s s' → ¬ P (op_ID op) → fenced_out op s → fenced_out op s'.
Proof using Type.
  intros HP Hn [Ho (sb & Hsb & Hid & Hf)]. split; [by eapply ke_operation|].
  destruct (ke_sandbox _ _ _ HP _ _ Hsb) as (sb' & Hsb' & [e1 e2]). exists sb'. split_and!; [done|congruence|].
  unfold fence_of in *. rewrite e1, e2. eapply Z.lt_le_trans; [done|]. by apply ke_fence with P.
Qed.

(** *** The reconciliation of a fenced-out create *)

Definition nothing : string → Prop := λ _, False.

Section stuck.
Context (op : Operation) (s0 : State) (Hcreate : op_Type op = OperationCreate) (Haccepted : op_State op = OperationAccepted).
Context (Hfenced : fenced_out op s0).

(** From every state in which [op] is as it was, [p] fails and changes no operation. *)
Definition refused (p : prog (outcome Result)) : Prop :=
  ∀ σ, keeps_except nothing s0 σ.1 → safe (λ σ', keeps_except nothing s0 σ'.1) p (λ r _, is_Some r.2) σ.

Lemma refused_err (r : Result) e : refused (Ret (r, Some e)).
Proof using Type. intros σ _. by eexists. Qed.

Lemma refused_call {X} (e : eff X) k :
  (∀ σ x σ', fenced_out op σ.1 → respond e σ x σ' → σ'.1 = σ.1 ∧ refused (k x)) → refused (Vis e k).
Proof using Hfenced.
  intros He σ H0 σ1 x σ2 Hi Hr. pose proof (transitivity H0 (interfere_keeps nothing _ _ Hi)) as H1.
  destruct (He σ1 x σ2) as [Hs Hk]; [by eapply fenced_keeps; [exact H1|intros []|]|done|]. rewrite Hs. split; [done|]. apply Hk. by rewrite Hs.
Qed.

Lemma refused_now k : (∀ t, refused (k t)) → refused (Vis ENow k).
Proof using Hfenced. intros Hk. apply refused_call. intros σ x σ' _ ->. by split. Qed.
Lemma refused_ctx ctx k : (∀ t, refused (k t)) → refused (Vis (ECtxErr ctx) k).
Proof using Hfenced. intros Hk. apply refused_call. intros σ x σ' _ ->. by split. Qed.

Lemma refused_operation ctx op' k :
  op_moves op op' → (∀ e, refused (k (Err e))) → refused (Vis (EUpdateOperation ctx op') k).
Proof using Hfenced.
  intros Hm Hk. apply refused_call. intros σ x σ' [_ (sb & Hsb & Hid & Hf)] [Hw _].
  destruct (op_moves_fields _ _ Hm) as (_ & _ & Hsame & _). pose proof (moves_token _ _ Hm) as Htok. unfold answers_write in Hw.
  destruct (UpdateOperation op' σ.1) as [[v t]|e] eqn:E.
  - apply UpdateOperation_Ok in E as (_&c&_&_&_&_&Heq&_). exfalso. unfold operationProviderRevision, get_or in Heq.
    rewrite Hsame, Hsb in Heq. cbn in Heq. unfold fence_of, get_or in Hf. rewrite Hid in Hf. rewrite Htok in Heq. lia.
  - destruct Hw as [-> [->|(e' & _ & ->)]]; auto.
Qed.

Lemma refused_sandbox ctx sb' g k :
  sb_ID sb' = op_SandboxID op → (∀ e, refused (k (Err e))) → refused (Vis (EUpdateSandbox ctx sb' g (op_FencingToken op)) k).
Proof using Hfenced.
  intros Hid' Hk. apply refused_call. intros σ x σ' [_ (sb & Hsb & Hid & Hf)] [Hw _]. unfold answers_write in Hw.
  destruct (UpdateSandbox sb' g _ σ.1) as [[v t]|e] eqn:E.
  - apply UpdateSandbox_Ok in E as (_&c&HS&_&_&Heq&_). exfalso. rewrite Hid' in HS. simplify_eq. unfold fence_of in Hf. lia.
  - destruct Hw as [-> [->|(e' & _ & ->)]]; auto.
Qed.

Lemma refused_failBeforeDispatch ctx sb code cause : refused (failBeforeDispatch sha256 ctx op sb code cause).
Proof using Hfenced.
  unfold failBeforeDispatch. prog_simpl. apply refused_now. intros t. destruct (FailOperation _ _ _) eqn:E; [|apply refused_err].
  prog_simpl. apply refused_operation; [by eapply fail_spec|]. intros. apply refused_err.
Qed.

Lemma refused_dispatchCreate ctx sb : sb_ID sb = op_SandboxID op → refused (dispatchCreate sha256 ctx op sb).
Proof using Hfenced.
  intros Hid. unfold dispatchCreate. prog_simpl. apply refused_now. intros now.
  destruct (CheckDeadline now _); [|apply refused_failBeforeDispatch].
  destruct ctx; prog_simpl; [apply refused_failBeforeDispatch|..].
  all: apply refused_ctx; intros [e|]; [apply refused_failBeforeDispatch|].
  all: destruct (ApplyObservedTransition _ _ _ _) eqn:E; [|apply refused_err].
  all: prog_simpl; apply refused_sandbox; [by apply observed_ID in E as ->|]; intros; apply refused_err.
Qed.

Lemma refused_reconcileOperation ctx : refused (reconcileOperation sha256 caps ctx (op_ID op)).
Proof using Hfenced Hcreate Haccepted.
  unfold reconcileOperation, with_context. set (body := orelse (call (EGetOperation ctx (op_ID op))) _ _).
  assert (Hbody : refused body).
  { unfold body. prog_simpl. apply refused_call. intros σ x σ' [Ho (sb & Hsb & Hid & _)] [[-> Hx] _]. split; [done|].
    unfold GetOperation in Hx. rewrite Ho in Hx. destruct Hx as [->|(e & _ & ->)]; [|apply refused_err].
    prog_simpl. apply refused_call. intros σ1 y σ1' [_ (sb1 & Hsb1 & Hid1 & _)] [[-> Hy] _]. split; [done|].
    unfold GetSandbox in Hy. rewrite Hsb1 in Hy. destruct Hy as [->|(e & _ & ->)]; [|apply refused_err].
    rewrite Hcreate, Haccepted. cbn [terminalOperation OperationState_terminal]. by apply refused_dispatchCreate. }
  clearbody body. destruct ctx; prog_simpl; [apply refused_err|..]; (apply refused_ctx; intros [e|]; [apply refused_err|exact Hbody]).
Qed.
End stuck.

(** *** A pass over the pending operations *)

Section pass.
Context (op : Operation) (Hcreate : op_Type op = OperationCreate) (Haccepted : op_State op = OperationAccepted).

Lemma fenced_reconcile ctx σ :
  coord_inv σ → fenced_out op σ.1 →
  safe (λ σ', coord_inv σ' ∧ keeps_except nothing σ.1 σ'.1) (ReconcileOperation sha256 caps ctx (op_ID op)) (λ r _, is_Some r.2) σ.
Proof using Hcreate Haccepted.
  intros HI Hf. pose proof (safe_and (@respond) interfere _ _ _ _ _ _ (inv_reconcileOperation sha256 caps ctx (op_ID op) σ HI)
    (refused_reconcileOperation op σ.1 Hcreate Haccepted Hf ctx σ (reflexivity _))) as Hs.
  revert Hs. apply safe_weaken; [done|]. by intros a σ' [_ ?].
Qed.

(** The loop stops at [op]: what comes after it is not touched. *)
Lemma fenced_loop ctx P s1 ops pre post results σ :
  ops = pre ++ op :: post → (∀ o, o ∈ pre → P (op_ID o)) → ¬ P (op_ID op) → fenced_out op s1 → coord_inv σ → keeps_except P s1 σ.1 →
  safe (λ σ', coord_inv σ' ∧ keeps_except P s1 σ'.1) (reconcile_all sha256 caps ctx ops results) (λ r _, is_Some r.2) σ.
Proof using Hcreate Haccepted.
  intros -> HP Hn Hf. revert results σ HP. unfold reconcile_all. induction pre as [|o pre IH]; intros results σ HP HI H1; cbn [app reconcile_each].
  { rewrite Haccepted. cbn [terminalOperation OperationState_terminal]. rewrite decide_False by done. apply safe_bind.
    eapply safe_weaken; [| |apply fenced_reconcile; [exact HI|by eapply fenced_keeps]].
    - intros σ' [? Hk]. split; [done|]. etransitivity; [exact H1|]. by eapply keeps_weaken; [|exact Hk].
    - intros [r [e|]] σ' Hr; [by eexists|by destruct Hr]. }
  assert (Htail : ∀ results σ', coord_inv σ' → keeps_except P s1 σ'.1 → safe (λ σ', coord_inv σ' ∧ keeps_except P s1 σ'.1)
    (reconcile_each (λ id, call (EGetSandbox ctx id)) (ReconcileOperation sha256 caps ctx) (pre ++ op :: post) results) (λ r _, is_Some r.2) σ').
  { intros r' σ' HI' H1'. apply IH; [|done..]. intros o' Ho. apply HP. by right. }
  assert (Hrec : ∀ σ', coord_inv σ' → keeps_except P s1 σ'.1 → safe (λ σ', coord_inv σ' ∧ keeps_except P s1 σ'.1)
    (r ← ReconcileOperation sha256 caps ctx (op_ID o);
     match r with
     | (result, Some err) => Ret (collect results result, Some err)
     | (result, None) => reconcile_each (λ id, call (EGetSandbox ctx id)) (ReconcileOperation sha256 caps ctx) (pre ++ op :: post) (results ++ [result])
     end) (λ r _, is_Some r.2) σ').
  { intros σ' HI' H1'. apply safe_bind. pose proof (reconcile_confined ctx (op_ID o) σ' HI') as Hc.
    apply (safe_weaken (@respond) interfere _ (λ σ', coord_inv σ' ∧ keeps_except P s1 σ'.1) _ _ (λ _ _, True)) in Hc; [|clear Hc|done].
    - apply safe_inv in Hc; [|done]. revert Hc. apply safe_mono. intros [r [e|]] σ2 [[? ?] _]; [by eexists|by apply Htail].
    - intros σ2 [? Hk]. split; [done|]. etransitivity; [exact H1'|]. eapply keeps_weaken; [|exact Hk]. intros k <-. apply HP. left. }
  destruct (terminalOperation (op_State o)); [by apply Htail|]. case_decide; [|by apply Hrec].
  prog_simpl. intros σ2 x σ3 Hi Hr. apply (interfere_inv _ _ Hi) in HI. pose proof (transitivity H1 (interfere_keeps P _ _ Hi)) as H2.
  destruct σ2 as [s2 l2], σ3 as [s3 l3]. destruct Hr as [[Hs _] Hl]. cbn in Hs, Hl. subst s3 l3. split; [done|].
  destruct x as [sb|e]; [|by eexists]. case_match; [by apply Htail|by apply Hrec].
Qed.

(** Behind [op] in the order of the listing. *)
Definition behind (op' : Operation) : Prop := key_le op_ID op op' ∧ op_ID op' ≠ op_ID op.

Lemma listed_split σ :
  coord_inv σ → fenced_out op σ.1 →
  ∃ pre post, ListOperations σ.1 = pre ++ op :: post ∧ (op_ID op ∉ (op_ID <$> pre)) ∧ ∀ op', behind op' → op_ID op' ∉ (op_ID <$> pre).
Proof using Type.
  clear Hcreate Haccepted. intros HI [Ho _]. assert (Hin : op ∈ ListOperations σ.1).
  { unfold ListOperations. rewrite sort_by_perm. apply list_elem_of_fmap. exists (op_ID op, op). split; [done|]. by apply elem_of_map_to_list. }
  apply list_elem_of_split_l in Hin as (pre & post & Heq & Hnot). exists pre, post. split; [done|].
  assert (Hpre : ∀ o, o ∈ pre → Operations σ.1 !! op_ID o = Some o ∧ key_le op_ID o op).
  { intros o Hpre. assert (Hl : o ∈ ListOperations σ.1) by (rewrite Heq; set_solver). split.
    - unfold ListOperations in Hl. rewrite sort_by_perm in Hl. apply list_elem_of_fmap in Hl as ([k o'] & -> & Hm%elem_of_map_to_list).
      destruct (ci_operation _ HI _ _ Hm) as [<- _]. done.
    - pose proof (sort_by_sorted op_ID (map_to_list (Operations σ.1)).*2) as Hs. unfold ListOperations in Heq. rewrite Heq in Hs.
      eapply StronglySorted_app_1_elem_of; [exact Hs|done|left]. }
  split.
  - intros (o & Hid & Hp)%list_elem_of_fmap. destruct (Hpre o Hp) as [Hl _]. rewrite <- Hid, Ho in Hl. by simplify_eq.
  - intros op' [Hle Hne] (o & Hid & Hp)%list_elem_of_fmap. destruct (Hpre o Hp) as [_ Hle']. apply Hne. unfold key_le in *. rewrite <- Hid in Hle'.
    by apply (anti_symm String.le).
Qed.

Lemma fenced_pass ctx σ :
  coord_inv σ → fenced_out op σ.1 →
  safe (λ σ', coord_inv σ' ∧ fenced_out op σ'.1 ∧ ∀ op', behind op' → Operations σ.1 !! op_ID op' = Some op' → Operations σ'.1 !! op_ID op' = Some op')
    (ReconcilePending sha256 caps ctx) (λ r _, is_Some r.2) σ.
Proof using Hcreate Haccepted.
  intros HI Hf. assert (Hquiet : ∀ σ', rtc interfere σ σ' → coord_inv σ' ∧ fenced_out op σ'.1 ∧
    ∀ op', behind op' → Operations σ.1 !! op_ID op' = Some op' → Operations σ'.1 !! op_ID op' = Some op').
  { intros σ' Hi. pose proof (interfere_keeps nothing _ _ Hi) as Hk. split_and!; [by eapply interfere_inv|eapply fenced_keeps; [exact Hk|intros []|done]|].
    intros op' _. apply (ke_operation _ _ _ Hk). intros []. }
  unfold ReconcilePending, with_context. set (body := orelse (call (EListOperations ctx)) _ _).
  assert (Hbody : ∀ σ1, rtc interfere σ σ1 → safe (λ σ', coord_inv σ' ∧ fenced_out op σ'.1 ∧
    ∀ op', behind op' → Operations σ.1 !! op_ID op' = Some op' → Operations σ'.1 !! op_ID op' = Some op') body (λ r _, is_Some r.2) σ1).
  { intros σ1 Hi1. unfold body. prog_simpl. intros [s2 l2] x [s3 l3] Hi Hr. destruct Hr as [[Hs Hx] Hl]. cbn in Hs, Hl. subst s3 l3.
    pose proof (Hquiet _ (transitivity Hi1 Hi)) as (HI2 & Hf2 & Hb2). split; [done|].
    destruct Hx as [->|(e & _ & ->)]; [|by eexists]. cbn [fst]. destruct (listed_split _ HI2 Hf2) as (pre & post & Heq & Hno & Hbeh).
    apply (safe_weaken (@respond) interfere (λ σ', coord_inv σ' ∧ keeps_except (λ k, k ∈ (op_ID <$> pre)) s2 σ'.1) _ _ (λ r _, is_Some r.2));
      [|done|apply (fenced_loop ctx (λ k, k ∈ (op_ID <$> pre)) s2 _ pre post); [done| |done..]].
    - intros σ' [HI' Hk]. split_and!; [done|by eapply fenced_keeps|]. intros op' Hb Ho. apply (ke_operation _ _ _ Hk); [by apply Hbeh|by apply Hb2].
    - intros o Hp. by apply list_elem_of_fmap_2. }
  clearbody body. destruct ctx; prog_simpl; [by eexists|..]; (intros σ1 x σ2 Hi Hr; cbn in Hr; subst σ2; split; [by apply Hquiet|]; destruct x as [e|]; [by eexists|by apply Hbody]).
Qed.
End pass.

(** *** The rest of a history *)

Section always.
Context (op : Operation) (Hcreate : op_Type op = OperationCreate) (Haccepted : op_State op = OperationAccepted).

Definition stays {A} (p : prog A) : Prop :=
  ∀ σ, coord_inv σ → fenced_out op σ.1 → safe (λ σ', coord_inv σ' ∧ fenced_out op σ'.1) p (λ _ _, True) σ.

Lemma stays_ret {A} (a : A) : stays (Ret a).
Proof using Type. by intros σ _ _. Qed.

Lemma stays_bind {A B} (p : prog A) (f : A → prog B) : stays p → (∀ a, stays (f a)) → stays (p ≫= f).
Proof using Type.
  intros Hp Hf σ HI H0. apply safe_bind. eapply safe_mono; [|exact (safe_inv _ _ _ p _ σ (conj HI H0) (Hp σ HI H0))].
  intros a σ' [[HI' H'] _]. by apply Hf.
Qed.

Lemma stays_call {A X} (e : eff X) (k : X → prog A) : harmless e ∧ calm e → (∀ x, stays (k x)) → stays (Vis e k).
Proof using Type.
  intros [Hh Hc] Hk σ HI H0 σ0 x σ1 Hi Hr. apply (interfere_inv _ _ Hi) in HI.
  pose proof (harmless_respond e σ0 x σ1 Hh Hr HI) as HI1.
  pose proof (transitivity (interfere_keeps nothing _ _ Hi) (calm_respond nothing e σ0 x σ1 Hc Hr)) as H1.
  apply (fenced_keeps nothing op _ _ H1) in H0; [|intros []]. split; [done|]. by apply Hk.
Qed.

Lemma stays_reconcileOperation ctx id : stays (reconcileOperation sha256 caps ctx id).
Proof using Hcreate Haccepted.
  intros σ HI Hf. destruct (decide (id = op_ID op)) as [->|Hne].
  - eapply safe_weaken; [|done|by apply fenced_reconcile]. intros σ' [? Hk]. split; [done|]. by eapply fenced_keeps; [exact Hk|intros []|].
  - eapply safe_weaken; [|done|by apply reconcile_confined]. intros σ' [? Hk]. split; [done|]. by eapply fenced_keeps; [exact Hk|done|].
Qed.

Lemma stays_with_context {A} `{!Zero A} ctx (p : prog (outcome A)) : stays p → stays (with_context ctx p).
Proof using Type.
  intros Hp. unfold with_context. apply stays_bind.
  - destruct ctx; cbn; try (apply stays_call; [done|intros; apply stays_ret]). apply stays_ret.
  - intros [e|]; [apply stays_ret|done].
Qed.

Ltac stays_step :=
  prog_simpl;
  lazymatch goal with
  | |- stays (Ret _) => apply stays_ret
  | |- stays (Vis _ _) => apply stays_call; [done|intros ?x]
  | |- stays (match ?r with _ => _ end) => destruct r eqn:?
  | |- stays (prog_bind_def _ (match ?c with _ => _ end)) => destruct c eqn:?
  end.

Lemma stays_reconcile_all ctx ops results : stays (reconcile_all sha256 caps ctx ops results).
Proof using Hcreate Haccepted.
  revert results. unfold reconcile_all. induction ops as [|o ops IH]; intros results; cbn [reconcile_each]; [apply stays_ret|].
  assert (Hrec : stays (
    r ← ReconcileOperation sha256 caps ctx (op_ID o);
    match r with
    | (result, Some err) => Ret (collect results result, Some err)
    | (result, None) => reconcile_each (λ id, call (EGetSandbox ctx id)) (ReconcileOperation sha256 caps ctx) ops (results ++ [result])
    end)).
  { apply stays_bind; [apply stays_reconcileOperation|]. intros [r [e|]]; [apply stays_ret|apply IH]. }
  destruct (terminalOperation _); [apply IH|]. case_decide; [|done].
  prog_simpl. apply stays_call; [done|]. intros [sb|e]; [|apply stays_ret]. case_match; [apply IH|done].
Qed.

Lemma stays_accept_mutation ctx id request kind start : stays (accept_mutation sha256 ctx id request kind start).
Proof using Type.
  apply stays_with_context. apply stays_bind.
  - unfold mutationReplay. by repeat stays_step.
  - intros [[replay ok] err]. by repeat stays_step.
Qed.

Lemma stays_expire_all ctx now sbs pending results : stays (expire_all sha256 format_time caps ctx now sbs pending results).
Proof using Hcreate Haccepted.
  revert pending results. induction sbs as [|sb sbs IH]; intros pending results; cbn [expire_all]; [apply stays_ret|].
  do 2 (case_decide; [apply IH|]). prog_simpl. apply stays_call; [done|].
  intros [lease|e]; [|apply stays_ret]. destruct (StartTerminate _ _ _) as [uo|e]; [|apply stays_ret].
  apply stays_call; [done|]. intros [reserved|e].
  - apply stays_bind; [apply stays_reconcileOperation|]. intros [r [e|]]; [apply stays_ret|apply IH].
  - case_match; [apply IH|apply stays_ret].
Qed.

Lemma stays_call_prog c : stays (call_prog sha256 format_time caps c).
Proof using Hcreate Haccepted.
  assert (Hi : ∀ A (p : prog A), stays p → stays (ignore p)) by (intros A p Hp; apply stays_bind; [done|]; intros; apply stays_ret).
  destruct c; cbn [call_prog]; apply Hi.
  - apply stays_reconcileOperation.
  - apply stays_with_context. prog_simpl. apply stays_call; [done|]. intros [ops|e]; [apply stays_reconcile_all|apply stays_ret].
  - apply stays_with_context. unfold sweep_leases. prog_simpl. do 2 (apply stays_call; [done|]; intros [?|?]; [|apply stays_ret]; prog_simpl).
    apply stays_call; [done|]. intros now. apply stays_expire_all.
  - apply stays_with_context. by repeat stays_step.
  - apply stays_accept_mutation.
  - apply stays_accept_mutation.
  - apply stays_accept_mutation.
Qed.

Lemma history_fenced σ σ' :
  rtc (history_step sha256 format_time caps) σ σ' → coord_inv σ ∧ fenced_out op σ.1 → coord_inv σ' ∧ fenced_out op σ'.1.
Proof using Hcreate Haccepted.
  induction 1 as [|σ σ1 σ' Hstep _ IH]; [done|]. intros [HI Hf]. apply IH. destruct Hstep as [Hi|(c & o & Hx)].
  - pose proof (interfere_keeps nothing _ _ (rtc_once _ _ Hi)) as Hk. split; [by eapply coord_inv_interfere|].
    by eapply fenced_keeps; [exact Hk|intros []|].
  - exact (proj1 (safe_exec (@respond) interfere _ _ _ _ _ _ (conj HI Hf) (stays_call_prog c σ HI Hf) Hx)).
Qed.
End always.

(** C35 (error): once a create that was accepted and never begun is fenced out by a newer
    token for its sandbox, it stays on record as accepted in every continuation of the
    history, whoever calls what; and every completed pass of [ReconcilePending], at
    any time and whatever the ports answer, returns an error and leaves every
    operation behind it in the order of the pass, such as the termination that
    brought the newer token, exactly as it was. *)
Theorem fenced_out_create_blocks_reconciliation op σ σ1 ctx results err σ2 :
  history sha256 format_time caps σ → op_Type op = OperationCreate → op_State op = OperationAccepted → fenced_out op σ.1 →
  rtc (history_step sha256 format_time caps) σ σ1 →
  exec (ReconcilePending sha256 caps ctx) σ1 (Some (results, err)) σ2 →
  is_Some err ∧ Operations σ1.1 !! op_ID op = Some op ∧ Operations σ2.1 !! op_ID op = Some op ∧
  ∀ op', Operations σ1.1 !! op_ID op' = Some op' → behind op op' → Operations σ2.1 !! op_ID op' = Some op'.
Proof using Type.
  intros Hh Hc Ha Hf Hr Hx. apply history_inv in Hh. destruct (history_fenced op Hc Ha σ σ1 Hr (conj Hh Hf)) as [HI1 Hf1].
  destruct (safe_exec (@respond) interfere _ _ _ _ _ _ (conj HI1 (conj Hf1 (λ op' _ H, H))) (fenced_pass op Hc Ha ctx σ1 HI1 Hf1) Hx) as [(_ & [Hf2 _] & Hb) Herr].
  split_and!; [by apply (Herr (results, err))|apply Hf1|done|]. intros op' Ho Hbe. by apply Hb.
Qed.
End fenced.

(** ** A concrete history

    Create a sandbox and reconcile it, then terminate it, on the in-memory
    repository and the fake driver. *)

Module CoordRuns.

(** 32 bytes that tell the event seeds of this history apart. *)
Definition sha256 (x : string) : string :=
  let p := String.append "00000000000000000000000000000000" x in
  String.substring (String.length p - 32) 32 p.
Definition format_time (_ : Time) : string := "2026-01-01T00:00:00Z".
Definition caps : DriverCaps := mkDriverCaps true true.
Definition do_call (c : coord_call) : prog unit := call_prog sha256 format_time caps c.

Definition w0 : World := mkWorld memory_NewRepository fake_New [Samples.t0] [] [].
Definition w1 : World := (run (do_call (DoAcceptCreate CtxCaller Samples.create0)) w0).2.
Definition w2 : World := (run (do_call (DoReconcileOperation CtxCaller "operation-1")) w1).2.
Definition terminate : TerminateRequest :=
  mkTerminateRequest (Samples.mutation "terminate-1" 7 1) "caller request".
Definition w3 : World := (run (do_call (DoAcceptTerminate CtxCaller "sandbox-1" terminate)) w2).2.
Definition w4 : World := (run (do_call (DoReconcilePending CtxCaller)) w3).2.

Lemma run_step c w : history_step sha256 format_time caps (abs w) (abs (run (do_call c) w).2).
Proof. right. exists c, (Some (run (do_call c) w).1). apply run_exec. Qed.

Lemma history_w4 : history sha256 format_time caps (abs w4).
Proof.
  unfold history. change (NewState, []) with (abs w0).
  apply (rtc_l _ _ (abs w1)); [apply run_step|]. apply (rtc_l _ _ (abs w2)); [apply run_step|].
  apply (rtc_l _ _ (abs w3)); [apply run_step|]. apply rtc_once, run_step.
Qed.

(** The create operation as it ends up. *)
Definition created_op : Operation := op_set_state OperationSucceeded Samples.t0 None Runs.op0.
Definition terminated_op : Operation :=
  op_set_state OperationSucceeded Samples.t0 None
    (mutationOperation (tr_Mutation terminate) "sandbox-1" OperationTerminate Samples.t0).

End CoordRuns.

Lemma create_at_most_once_witness :
  created (abs CoordRuns.w4).2 = ["sandbox-1"] ∧ NoDup (created (abs CoordRuns.w4).2).
Proof.
  split; [vm_compute; reflexivity|].
  apply (create_at_most_once CoordRuns.sha256 CoordRuns.format_time CoordRuns.caps).
  exact CoordRuns.history_w4.
Defined.

Lemma dispatch_only_when_running_witness :
  running_for OperationTerminate "sandbox-1" (drop 3 (abs CoordRuns.w4).2).
Proof.
  apply (dispatch_only_when_running CoordRuns.sha256 CoordRuns.format_time CoordRuns.caps
    (abs CoordRuns.w4) (take 2 (abs CoordRuns.w4).2) (LRemove "sandbox-1" (Ok ()))).
  - exact CoordRuns.history_w4.
  - vm_compute. reflexivity.
  - reflexivity.
Defined.

Lemma success_is_confirmed_witness :
  confirmed CoordRuns.terminated_op (drop 1 (abs CoordRuns.w4).2).
Proof.
  apply (success_is_confirmed CoordRuns.sha256 CoordRuns.format_time CoordRuns.caps
    (abs CoordRuns.w4) []).
  - exact CoordRuns.history_w4.
  - vm_compute. reflexivity.
  - reflexivity.
Defined.

Lemma settled_outcome_is_final_witness :
  Operations (abs CoordRuns.w4).1 !! "operation-1" = Some CoordRuns.created_op.
Proof.
  apply (settled_outcome_is_final CoordRuns.sha256 CoordRuns.format_time CoordRuns.caps
    (abs CoordRuns.w4) CoordRuns.created_op).
  - exact CoordRuns.history_w4.
  - apply list_elem_of_lookup_2 with 5%nat. vm_compute. reflexivity.
  - reflexivity.
Defined.

(** ** A create that was fenced out

    A create is accepted with token 7 and, before it is reconciled, a
    termination of the same sandbox is accepted with token 8. *)

Module FencedOut.

Definition terminate8 : TerminateRequest :=
  mkTerminateRequest (Samples.mutation "terminate-1" 8 1) "caller request".
Definition w2 : World :=
  (run (CoordRuns.do_call (DoAcceptTerminate CtxCaller "sandbox-1" terminate8)) CoordRuns.w1).2.
Definition pass : outcome (list Result) * World := run (ReconcilePending CoordRuns.sha256 CoordRuns.caps CtxCaller) w2.
Definition terminate_op : Operation := default Runs.op0 (Operations (abs w2).1 !! "terminate-1").

Lemma history_w2 : history CoordRuns.sha256 CoordRuns.format_time CoordRuns.caps (abs w2).
Proof.
  unfold history. change (NewState, []) with (abs CoordRuns.w0).
  apply (rtc_l _ _ (abs CoordRuns.w1)); [apply CoordRuns.run_step|]. apply rtc_once, CoordRuns.run_step.
Qed.

End FencedOut.

Lemma fenced_out_create_blocks_reconciliation_witness :
  is_Some FencedOut.pass.1.2 ∧ op_State FencedOut.terminate_op = OperationAccepted ∧
  Operations (abs FencedOut.pass.2).1 !! "terminate-1" = Some FencedOut.terminate_op.
Proof.
  destruct (fenced_out_create_blocks_reconciliation CoordRuns.sha256 CoordRuns.format_time CoordRuns.caps Runs.op0 (abs FencedOut.w2) (abs FencedOut.w2)
    CtxCaller FencedOut.pass.1.1 FencedOut.pass.1.2 (abs FencedOut.pass.2)) as (He & _ & _ & Hb).
  - exact FencedOut.history_w2.
  - reflexivity.
  - reflexivity.
  - split; [vm_compute; reflexivity|]. eexists. split; [vm_compute; reflexivity|]. split; [reflexivity|]. vm_compute. reflexivity.
  - apply rtc_refl.
  - rewrite <- surjective_pairing. apply run_exec.
  - split; [exact He|]. split; [vm_compute; reflexivity|]. apply (Hb FencedOut.terminate_op); [vm_compute; reflexivity|].
    split; [by apply (bool_decide_unpack _); vm_compute|vm_compute; discriminate].
Defined.
