(* ===== verification/ExecModel.v ===== *)
(** * Process execution: [provider/exec]

    The data of [model.go], [result.go] and [ledger.go] with their validation:
    execution requests, dispatch receipts, runtime observations, retained
    results and their terminal summaries, cancellation intents.  A pointer
    field is an [option]; the deep copies ([Clone]) are identities on immutable
    values.  Validation loops over Go maps return the same error whatever entry
    fails, so their order does not show. *)

From S2P Require Import Prelude.
From stdpp Require Import base gmap strings list fin_maps.
From Stdlib Require Import Ascii ZArith Lia.

Local Open Scope Z_scope.

(** ** Bounds *)

Definition MaxCommandItems : nat := 64.
Definition MaxCommandItemRunes : nat := 4096.
Definition MaxWorkingDirectoryRunes : nat := 256.
Definition MaxIdempotencyKeyRunes : nat := 200.
Definition MaxEnvironmentValues : nat := 64.
Definition MaxSecretReferences : nat := 64.
Definition MaxCaptureBytes : Z := Z.shiftl 8 20.
Definition MinRetention : Z := Second.
Definition MaxRetention : Z := 86400 * Second.

(** ** Patterns *)

Definition id_char (c : ascii) : bool := is_alnum c || one_of "._:-" c.
Definition ref_char (c : ascii) : bool := is_alnum c || one_of "._:/-" c.

Definition identifierPattern (s : string) : bool := match_head_tail is_alnum id_char 199 s.

Definition digestPattern (s : string) : bool :=
  match cut_prefix "sha256:" s with
  | Some h => all_bytes is_lower_hex h && bool_decide (String.length h = 64%nat)
  | None => false
  end.

(** The working directory pattern: /workspace or /tmp, then any number of names
    that each start with a slash, a letter, digit, underscore or dash and go on
    with these or dots.  The position is after the root, just after a slash, or
    inside a name. *)
Inductive dir_position := AtRoot | AfterSlash | InName.

Fixpoint directory_tail (at_ : dir_position) (s : string) : bool :=
  match s with
  | EmptyString => match at_ with AfterSlash => false | _ => true end
  | String c s =>
      match at_ with
      | AtRoot => one_of "/" c && directory_tail AfterSlash s
      | AfterSlash => (is_alnum c || one_of "_-" c) && directory_tail InName s
      | InName =>
          (one_of "/" c && directory_tail AfterSlash s)
          || ((is_alnum c || one_of "._-" c) && directory_tail InName s)
      end
  end.

Definition after_prefix (prefix s : string) (p : string → bool) : bool :=
  match cut_prefix prefix s with Some t => p t | None => false end.

Definition workingDirectoryPattern (s : string) : bool :=
  after_prefix "/workspace" s (directory_tail AtRoot) || after_prefix "/tmp" s (directory_tail AtRoot).

Definition environmentNamePattern (s : string) : bool :=
  match_head_tail (λ c, is_upper c || is_lower c || one_of "_" c) (λ c, is_alnum c || one_of "_" c) 63 s.

Definition opaque_reference (s : string) : bool := match_head_tail is_alnum ref_char 399 s.
Definition environmentRefPattern (s : string) : bool := after_prefix "envref:" s opaque_reference.
Definition grantPattern (s : string) : bool := after_prefix "grant:" s opaque_reference.
Definition referencePattern (s : string) : bool := after_prefix "ref:" s opaque_reference.

Definition signalPattern (s : string) : bool :=
  bool_decide (s ≠ "") && all_bytes (λ c, is_alnum c || one_of "._-" c) s.

(** [^[A-Z][A-Z0-9_]{2,63}$] *)
Definition resultCodePattern (s : string) : bool :=
  match_head_tail is_upper (λ c, is_upper c || is_digit c || one_of "_" c) 63 s
  && (3 <=? String.length s)%nat.

(** [strings.ContainsAny(item, "\x00\r\n")] *)
Definition line_break (c : ascii) : bool := in_range 0 0 c || in_range 13 13 c || in_range 10 10 c.
Definition has_line_break (s : string) : bool := negb (all_bytes (λ c, negb (line_break c)) s).

(** ** Data *)

Inductive ResultStatus :=
  | ResultCompleted | ResultFailed | ResultCancelled | ResultOutcomeUnknown
  | ResultStatusOther (raw : string).

Inductive ErrorOutcome :=
  | ErrorOutcomeKnown | ErrorOutcomeUnknown | ErrorOutcomeOther (raw : string).

Inductive CancellationReason :=
  | CancellationCallerRequested | CancellationDeadlineExceeded | CancellationShutdown
  | CancellationPolicy | CancellationReasonOther (raw : string).

Record Request := mkRequest {
  rq_SandboxID : string;
  rq_OperationID : string;
  rq_AttemptID : string;
  rq_FencingToken : Z;
  rq_ExpectedGeneration : Z;
  rq_IdempotencyKey : string;
  rq_RequestDigest : string;
  rq_Deadline : Time;
  rq_Command : list string;
  rq_WorkingDirectory : string;
  rq_ResultRetention : Z;
  rq_Environment : gmap string string;
  rq_SecretReferenceIDs : list string;
  rq_SecretGrantID : string;
  rq_SecretGrantDigest : string;
  rq_StdinReference : string;
  rq_CaptureStdout : bool;
  rq_CaptureStderr : bool;
  rq_CaptureMaxBytes : Z;
}.

Record Invocation := mkInvocation { iv_Request : Request; iv_StartedAt : Time }.

Record Dispatch := mkDispatch { dp_ExecutionReference : string; dp_AcceptedAt : Time }.
Definition zeroDispatch : Dispatch := mkDispatch "" 0.

Record ResultError := mkResultError {
  re_Code : string;
  re_Message : string;
  re_Retryable : bool;
  re_Outcome : ErrorOutcome;
}.

Record ResultOutcome := mkResultOutcome {
  ro_Status : ResultStatus;
  ro_ExitCode : option Z;
  ro_Signal : string;
  ro_StdoutReference : string;
  ro_StderrReference : string;
  ro_Error : option ResultError;
}.

Record Result := mkResult {
  r_OperationID : string;
  r_AttemptID : string;
  r_FencingToken : Z;
  r_SandboxID : string;
  r_Status : ResultStatus;
  r_ExitCode : option Z;
  r_Signal : string;
  r_StdoutReference : string;
  r_StderrReference : string;
  r_StartedAt : Time;
  r_CompletedAt : Time;
  r_RetainedUntil : Time;
  r_Error : option ResultError;
}.

Record TerminalSummary := mkTerminalSummary {
  ts_Status : ResultStatus;
  ts_CompletedAt : Time;
  ts_Error : option ResultError;
}.

Record Observation := mkObservation {
  ob_ExecutionReference : string;
  ob_Status : ResultStatus;
  ob_Running : bool;
  ob_StartedAt : Time;
  ob_CompletedAt : Time;
  ob_ExitCode : option Z;
  ob_Signal : string;
  ob_StdoutReference : string;
  ob_StderrReference : string;
  ob_Error : option ResultError;
}.

Record UsageIdentity := mkUsageIdentity {
  ui_SandboxID : string;
  ui_OperationID : string;
  ui_AttemptID : string;
  ui_FencingToken : Z;
}.

Record CancellationIntent := mkCancellationIntent {
  ci_SandboxID : string;
  ci_OperationID : string;
  ci_AttemptID : string;
  ci_FencingToken : Z;
  ci_ExpectedGeneration : Z;
  ci_IdempotencyKey : string;
  ci_RequestDigest : string;
  ci_Deadline : Time;
  ci_TargetOperationID : string;
  ci_TargetAttemptID : string;
  ci_Reason : CancellationReason;
}.

Record ExecutionRecord := mkExecutionRecord {
  er_Request : Request;
  er_ReservedAt : Time;
  er_Dispatch : Dispatch;
  er_Attached : bool;
  er_Result : option Result;
  er_Terminal : option TerminalSummary;
  er_ResultExpired : bool;
}.

Record ExecutionAttachment := mkExecutionAttachment {
  ea_OperationID : string;
  ea_AttemptID : string;
  ea_SandboxID : string;
  ea_FencingToken : Z;
  ea_ExpectedGeneration : Z;
  ea_Dispatch : Dispatch;
}.

Record ExecutionReservation := mkExecutionReservation {
  xr_Execution : ExecutionRecord;
  xr_Replayed : bool;
}.

Record CancellationReservation := mkCancellationReservation {
  xc_Intent : CancellationIntent;
  xc_ReservedAt : Time;
  xc_Replayed : bool;
}.

#[export] Instance ResultStatus_eq_dec : EqDecision ResultStatus.
Proof. solve_decision. Defined.
#[export] Instance ErrorOutcome_eq_dec : EqDecision ErrorOutcome.
Proof. solve_decision. Defined.
#[export] Instance CancellationReason_eq_dec : EqDecision CancellationReason.
Proof. solve_decision. Defined.
#[export] Instance Dispatch_eq_dec : EqDecision Dispatch.
Proof. solve_decision. Defined.
#[export] Instance ResultError_eq_dec : EqDecision ResultError.
Proof. solve_decision. Defined.
#[export] Instance Result_eq_dec : EqDecision Result.
Proof. solve_decision. Defined.
#[export] Instance TerminalSummary_eq_dec : EqDecision TerminalSummary.
Proof. solve_decision. Defined.

(** ** Validation *)

Definition status_valid (s : ResultStatus) : bool :=
  match s with ResultStatusOther _ => false | _ => true end.
Definition reason_valid (r : CancellationReason) : bool :=
  match r with CancellationReasonOther _ => false | _ => true end.

(** The common checks of [Result.Validate] and [TerminalSummary.Validate] on an
    attached error. *)
Definition result_error_malformed (e : option ResultError) : bool :=
  match e with
  | None => false
  | Some e =>
      negb (resultCodePattern (re_Code e)) || negb (validBoundedString (re_Message e) 1 512)
      || bool_decide (re_Outcome e ≠ ErrorOutcomeKnown ∧ re_Outcome e ≠ ErrorOutcomeUnknown)
  end.

Definition error_outcome_unknown (e : option ResultError) : bool :=
  match e with Some e => bool_decide (re_Outcome e = ErrorOutcomeUnknown) | None => false end.

Definition bad_request {A} : result A := Err [ErrInvalidRequest : sentinel].

Definition Request_Validate (r : Request) (now : Time) : result unit :=
  if decide (identifierPattern (rq_SandboxID r) = false ∨ identifierPattern (rq_OperationID r) = false
             ∨ identifierPattern (rq_AttemptID r) = false) then bad_request else
  if decide (validBoundedString (rq_IdempotencyKey r) 1 MaxIdempotencyKeyRunes = false)
  then bad_request else
  if decide (rq_FencingToken r < 1 ∨ rq_ExpectedGeneration r < 1) then bad_request else
  if decide (digestPattern (rq_RequestDigest r) = false) then bad_request else
  if decide (IsZero (rq_Deadline r)) then bad_request else
  if decide (¬ After (rq_Deadline r) now) then Err [ExecErrDeadlineExpired : sentinel] else
  if decide (rq_Command r = [] ∨ (MaxCommandItems < length (rq_Command r))%nat) then bad_request else
  if decide (Exists (λ item, validBoundedString item 1 MaxCommandItemRunes = false
                             ∨ has_line_break item = true) (rq_Command r)) then bad_request else
  if decide (validBoundedString (rq_WorkingDirectory r) 1 MaxWorkingDirectoryRunes = false
             ∨ workingDirectoryPattern (rq_WorkingDirectory r) = false) then bad_request else
  if decide (rq_ResultRetention r < MinRetention ∨ rq_ResultRetention r > MaxRetention)
  then bad_request else
  if decide (MaxEnvironmentValues < size (rq_Environment r))%nat then bad_request else
  if decide (Exists (λ p, environmentNamePattern p.1 = false ∨ environmentRefPattern p.2 = false)
               (map_to_list (rq_Environment r))) then bad_request else
  if decide (MaxSecretReferences < length (rq_SecretReferenceIDs r))%nat then bad_request else
  if decide (Exists (λ x, identifierPattern x = false) (rq_SecretReferenceIDs r)) then bad_request else
  if decide (bool_decide (rq_SecretGrantID r = "") ≠ bool_decide (rq_SecretGrantDigest r = "")
             ∨ (rq_SecretGrantID r ≠ "" ∧ grantPattern (rq_SecretGrantID r) = false)
             ∨ (rq_SecretGrantDigest r ≠ "" ∧ digestPattern (rq_SecretGrantDigest r) = false))
  then bad_request else
  if decide (rq_StdinReference r ≠ "" ∧ referencePattern (rq_StdinReference r) = false)
  then bad_request else
  if decide (rq_CaptureMaxBytes r < 0 ∨ rq_CaptureMaxBytes r > MaxCaptureBytes) then bad_request else
  Ok ().

Definition ExecutionReference_Validate (r : string) : result unit :=
  if decide (referencePattern r = false) then Err [ErrInvalidDispatch : sentinel] else Ok ().

Definition Dispatch_Validate (d : Dispatch) : result unit :=
  if decide (is_ok (ExecutionReference_Validate (dp_ExecutionReference d)) = false
             ∨ IsZero (dp_AcceptedAt d))
  then Err [ErrInvalidDispatch : sentinel] else Ok ().

Definition exit_code_out_of_range (code : option Z) : bool :=
  match code with Some c => (c <? -1) || (255 <? c) | None => false end.

Definition bad_result {A} : result A := Err [ErrInvalidResult : sentinel].

Definition Result_Validate (r : Result) : result unit :=
  if decide (identifierPattern (r_OperationID r) = false ∨ identifierPattern (r_AttemptID r) = false
             ∨ identifierPattern (r_SandboxID r) = false) then bad_result else
  if decide (r_FencingToken r < 1) then bad_result else
  if decide (status_valid (r_Status r) = false) then bad_result else
  if exit_code_out_of_range (r_ExitCode r) then bad_result else
  if decide (validBoundedString (r_Signal r) 0 64 = false
             ∨ (r_Signal r ≠ "" ∧ signalPattern (r_Signal r) = false)) then bad_result else
  if decide ((r_StdoutReference r ≠ "" ∧ referencePattern (r_StdoutReference r) = false)
             ∨ (r_StderrReference r ≠ "" ∧ referencePattern (r_StderrReference r) = false))
  then bad_result else
  if decide (IsZero (r_StartedAt r) ∨ IsZero (r_CompletedAt r) ∨ IsZero (r_RetainedUntil r)
             ∨ Before (r_CompletedAt r) (r_StartedAt r) ∨ ¬ After (r_RetainedUntil r) (r_CompletedAt r))
  then bad_result else
  if decide (result_error_malformed (r_Error r) = true) then bad_result else
  if decide (r_Status r = ResultOutcomeUnknown ∧ error_outcome_unknown (r_Error r) = false)
  then bad_result else Ok ().

(** [completedAt.Add(request.ResultRetention)] *)
Definition NewResult (request : Request) (startedAt completedAt : Time) (outcome : ResultOutcome)
    : result Result :=
  let result :=
    mkResult (rq_OperationID request) (rq_AttemptID request) (rq_FencingToken request)
      (rq_SandboxID request) (ro_Status outcome) (ro_ExitCode outcome) (ro_Signal outcome)
      (ro_StdoutReference outcome) (ro_StderrReference outcome) startedAt completedAt
      (completedAt + rq_ResultRetention request) (ro_Error outcome) in
  _ ← Result_Validate result; Ok result.

Definition summary_of (result : Result) : TerminalSummary :=
  mkTerminalSummary (r_Status result) (r_CompletedAt result) (r_Error result).

Definition NewTerminalSummary (result : Result) : Prelude.result TerminalSummary :=
  _ ← Result_Validate result; Ok (summary_of result).

Definition TerminalSummary_Validate (s : TerminalSummary) : result unit :=
  if decide (status_valid (ts_Status s) = false) then bad_result else
  if decide (IsZero (ts_CompletedAt s)) then bad_result else
  if decide (result_error_malformed (ts_Error s) = true) then bad_result else
  if decide (ts_Status s = ResultOutcomeUnknown ∧ error_outcome_unknown (ts_Error s) = false)
  then bad_result else Ok ().

Definition Result_UsageIdentity (r : Result) : result UsageIdentity :=
  _ ← Result_Validate r;
  Ok (mkUsageIdentity (r_SandboxID r) (r_OperationID r) (r_AttemptID r) (r_FencingToken r)).

(** The request [Observation.Validate] probes an outcome with. *)
Definition probe : Request :=
  mkRequest "probe" "probe" "probe" 1 0 "" "" 0 [] "" Second ∅ [] "" "" "" false false 0.

Definition observation_outcome (o : Observation) : ResultOutcome :=
  mkResultOutcome (ob_Status o) (ob_ExitCode o) (ob_Signal o) (ob_StdoutReference o)
    (ob_StderrReference o) (ob_Error o).

Definition bad_observation {A} : result A := Err [ErrInvalidObservation : sentinel].

Definition Observation_Validate (o : Observation) : result unit :=
  if decide (is_ok (ExecutionReference_Validate (ob_ExecutionReference o)) = false
             ∨ IsZero (ob_StartedAt o)) then bad_observation else
  if ob_Running o then
    if decide (ob_Status o ≠ ResultStatusOther "" ∨ ¬ IsZero (ob_CompletedAt o)
               ∨ is_Some (ob_ExitCode o) ∨ ob_Signal o ≠ "" ∨ is_Some (ob_Error o))
    then bad_observation else Ok ()
  else
  if decide (IsZero (ob_CompletedAt o) ∨ Before (ob_CompletedAt o) (ob_StartedAt o))
  then bad_observation else
  if is_ok (NewResult probe (ob_StartedAt o) (ob_CompletedAt o) (observation_outcome o))
  then Ok () else bad_observation.

Definition bad_cancellation {A} : result A := Err [ErrInvalidCancellation : sentinel].

Definition CancellationIntent_Validate (i : CancellationIntent) (now : Time) : result unit :=
  if decide (identifierPattern (ci_SandboxID i) = false ∨ identifierPattern (ci_OperationID i) = false
             ∨ identifierPattern (ci_AttemptID i) = false
             ∨ identifierPattern (ci_TargetOperationID i) = false
             ∨ identifierPattern (ci_TargetAttemptID i) = false) then bad_cancellation else
  if decide (validBoundedString (ci_IdempotencyKey i) 1 MaxIdempotencyKeyRunes = false
             ∨ ci_FencingToken i < 1 ∨ ci_ExpectedGeneration i < 1
             ∨ digestPattern (ci_RequestDigest i) = false) then bad_cancellation else
  if decide (IsZero (ci_Deadline i) ∨ ¬ After (ci_Deadline i) now) then bad_cancellation else
  if reason_valid (ci_Reason i) then Ok () else bad_cancellation.

#[global] Arguments Request_Validate : simpl never.
#[global] Arguments Dispatch_Validate : simpl never.
#[global] Arguments Result_Validate : simpl never.
#[global] Arguments TerminalSummary_Validate : simpl never.
#[global] Arguments CancellationIntent_Validate : simpl never.
#[global] Arguments NewResult : simpl never.
#[global] Arguments NewTerminalSummary : simpl never.

(** ** Facts about validation *)

(** A request that is valid at one time is valid at every time before its deadline. *)
Lemma Request_Validate_at r now now' :
  Request_Validate r now = Ok () → now' < rq_Deadline r → Request_Validate r now' = Ok ().
Proof.
  unfold Request_Validate, bad_request. intros H Hd.
  do 17 (let G := fresh "G" in apply guard_Ok in H as [G H]).
  rewrite !decide_False by done. rewrite (decide_False (P := ¬ After _ _)) by (unfold After; tauto).
  by rewrite !decide_False by done.
Qed.

Lemma Request_Validate_deadline r now :
  Request_Validate r now = Ok () → now < rq_Deadline r ∧ rq_Deadline r ≠ 0.
Proof.
  unfold Request_Validate, bad_request, After, IsZero. intros H.
  do 6 (let G := fresh "G" in apply guard_Ok in H as [G H]). split; [|done]. lia.
Qed.

Lemma Request_Validate_fields r now :
  Request_Validate r now = Ok () →
  identifierPattern (rq_OperationID r) = true ∧ rq_IdempotencyKey r ≠ "" ∧
  digestPattern (rq_RequestDigest r) = true ∧ MinRetention ≤ rq_ResultRetention r ≤ MaxRetention.
Proof.
  unfold Request_Validate, bad_request. intros H.
  do 10 (let G := fresh "G" in apply guard_Ok in H as [G H]).
  nor G. boolify. split_and!; try done; [|lia|lia].
  intros Hk. rewrite Hk in *. done.
Qed.

Lemma digest_nonempty d : digestPattern d = true → d ≠ "".
Proof. by intros H ->. Qed.

Lemma Result_Validate_times r :
  Result_Validate r = Ok () →
  r_StartedAt r ≠ 0 ∧ r_CompletedAt r ≠ 0 ∧ r_StartedAt r ≤ r_CompletedAt r < r_RetainedUntil r.
Proof.
  unfold Result_Validate, bad_result, IsZero, Before, After. intros H.
  do 3 (let G := fresh "G" in apply guard_Ok in H as [G H]).
  destruct (exit_code_out_of_range _); [done|].
  do 3 (let G := fresh "G" in apply guard_Ok in H as [G H]). nor G4. split_and!; try done; lia.
Qed.

Lemma summary_valid r : Result_Validate r = Ok () → TerminalSummary_Validate (summary_of r) = Ok ().
Proof.
  intros H. destruct (Result_Validate_times r H) as (_ & Hc & _). revert H.
  unfold Result_Validate, TerminalSummary_Validate, bad_result, IsZero. intros H.
  do 3 (let G := fresh "G" in apply guard_Ok in H as [G H]).
  destruct (exit_code_out_of_range _); [done|].
  do 5 (let G := fresh "G" in apply guard_Ok in H as [G H]). cbn.
  by rewrite !decide_False by done.
Qed.

Lemma NewTerminalSummary_Ok r t :
  NewTerminalSummary r = Ok t ↔ Result_Validate r = Ok () ∧ t = summary_of r.
Proof.
  unfold NewTerminalSummary. split.
  - intros H. inv_ok H. by destruct x.
  - by intros [-> ->].
Qed.

Lemma NewResult_Ok rq st ct o r :
  NewResult rq st ct o = Ok r →
  Result_Validate r = Ok () ∧ r_OperationID r = rq_OperationID rq ∧ r_AttemptID r = rq_AttemptID rq ∧
  r_SandboxID r = rq_SandboxID rq ∧ r_FencingToken r = rq_FencingToken rq ∧
  r_Status r = ro_Status o ∧ r_StartedAt r = st ∧ r_CompletedAt r = ct ∧
  r_RetainedUntil r = ct + rq_ResultRetention rq.
Proof. unfold NewResult. intros H. inv_ok H. destruct x. by split_and!. Qed.

Lemma CancellationIntent_Validate_at i now now' :
  CancellationIntent_Validate i now = Ok () → now' < ci_Deadline i →
  CancellationIntent_Validate i now' = Ok ().
Proof.
  unfold CancellationIntent_Validate, bad_cancellation, After. intros H Hd.
  do 3 (let G := fresh "G" in apply guard_Ok in H as [G H]). nor G1.
  rewrite !decide_False; try done. intros [?|?]; [done|lia].
Qed.

Lemma CancellationIntent_Validate_fields i now :
  CancellationIntent_Validate i now = Ok () →
  identifierPattern (ci_OperationID i) = true ∧ ci_IdempotencyKey i ≠ "" ∧
  digestPattern (ci_RequestDigest i) = true ∧ now < ci_Deadline i.
Proof.
  unfold CancellationIntent_Validate, bad_cancellation, After. intros H.
  do 3 (let G := fresh "G" in apply guard_Ok in H as [G H]). nor G. nor G0. nor G1. boolify.
  split_and!; try done; [|lia]. intros Hk. rewrite Hk in *. done.
Qed.

Lemma identifier_nonempty s : identifierPattern s = true → s ≠ "".
Proof. apply match_head_tail_nonempty. Qed.
