(* ===== verification/ExecState.v ===== *)
(** * Execution repository: [provider/exec/repository/state.go]

    The adapter-independent state of the exec repository: admission records
    with their receipts and retained results, cancellation intents, and the
    idempotency records of both, with every operation on it and the snapshot
    that adapters persist. *)

From S2P Require Import Prelude ExecModel.
From stdpp Require Import base gmap strings list fin_maps relations.
From Stdlib Require Import ZArith Lia.

Local Open Scope Z_scope.

Definition snapshotVersion : Z := 2.

Record IdempotencyRecord := mkIdempotencyRecord {
  ir_Key : string;
  ir_RequestDigest : string;
  ir_OperationID : string;
}.

Record State := mkState {
  Executions : gmap string ExecutionRecord;
  ExecutionIdempotency : gmap string IdempotencyRecord;
  CancellationIntents : gmap string CancellationIntent;
  CancellationReservedAt : gmap string Time;
  CancellationIdempotency : gmap string IdempotencyRecord;
}.

(** A JSON object may be absent, which Go decodes to a nil map. *)
Record PersistedState := mkPersistedState {
  ps_Version : Z;
  ps_Executions : option (gmap string ExecutionRecord);
  ps_ExecutionIdempotency : option (gmap string IdempotencyRecord);
  ps_CancellationIntents : option (gmap string CancellationIntent);
  ps_CancellationReservedAt : option (gmap string Time);
  ps_CancellationIdempotency : option (gmap string IdempotencyRecord);
}.

Definition NewState : State := mkState ∅ ∅ ∅ ∅ ∅.

Definition set_executions (e : gmap string ExecutionRecord) (s : State) : State :=
  mkState e (ExecutionIdempotency s) (CancellationIntents s) (CancellationReservedAt s)
    (CancellationIdempotency s).

Definition conflict {A} : result A := Err [ExecErrConflict : sentinel].
Definition corrupt {A} : result A := Err [ExecErrCorrupt : sentinel].

(** ** Identities *)

Definition sameExecutionIdentity (left right : Request) : Prop :=
  rq_OperationID left = rq_OperationID right ∧ rq_AttemptID left = rq_AttemptID right ∧
  rq_SandboxID left = rq_SandboxID right ∧ rq_FencingToken left = rq_FencingToken right ∧
  rq_RequestDigest left = rq_RequestDigest right.

#[export] Instance sameExecutionIdentity_dec l r : Decision (sameExecutionIdentity l r).
Proof. unfold sameExecutionIdentity. apply _. Defined.

Definition executionAttachmentMatches (request : Request) (a : ExecutionAttachment) : Prop :=
  rq_OperationID request = ea_OperationID a ∧ rq_AttemptID request = ea_AttemptID a ∧
  rq_SandboxID request = ea_SandboxID a ∧ rq_FencingToken request = ea_FencingToken a ∧
  rq_ExpectedGeneration request = ea_ExpectedGeneration a.

#[export] Instance executionAttachmentMatches_dec r a : Decision (executionAttachmentMatches r a).
Proof. unfold executionAttachmentMatches. apply _. Defined.

Definition validateAttachment (a : ExecutionAttachment) : result unit :=
  _ ← Dispatch_Validate (ea_Dispatch a);
  if decide (identifierPattern (ea_OperationID a) = false ∨ identifierPattern (ea_AttemptID a) = false
             ∨ identifierPattern (ea_SandboxID a) = false)
  then Err [ErrInvalidRequest : sentinel] else
  if decide (ea_FencingToken a < 1 ∨ ea_ExpectedGeneration a < 1)
  then Err [ErrInvalidRequest : sentinel] else Ok ().

(** Another operation's receipt carries the same reference. *)
Definition reference_taken (executions : gmap string ExecutionRecord) (operationID reference : string)
    : Prop :=
  Exists (λ p, p.1 ≠ operationID ∧ er_Attached p.2 = true ∧
               dp_ExecutionReference (er_Dispatch p.2) = reference) (map_to_list executions).

#[export] Instance reference_taken_dec e o r : Decision (reference_taken e o r).
Proof. unfold reference_taken. apply _. Defined.

(** ** Executions *)

Definition attach (d : Dispatch) (r : ExecutionRecord) : ExecutionRecord :=
  mkExecutionRecord (er_Request r) (er_ReservedAt r) d true (er_Result r) (er_Terminal r)
    (er_ResultExpired r).

Definition reserveExecutionAt (request : Request) (acceptedAt : Time) (dispatch : list Dispatch)
    (s : State) : result (ExecutionReservation * State) :=
  if decide (1 < length dispatch)%nat then Err [ErrInvalidDispatch : sentinel] else
  if decide (IsZero acceptedAt) then Err [ErrInvalidRequest : sentinel] else
  _ ← Request_Validate request acceptedAt;
  _ ← (match dispatch with
       | d :: _ => _ ← Dispatch_Validate d;
                   if decide (Before (dp_AcceptedAt d) acceptedAt) then conflict else Ok ()
       | [] => Ok ()
       end);
  match ExecutionIdempotency s !! rq_IdempotencyKey request with
  | Some existing =>
      if decide (ir_RequestDigest existing ≠ rq_RequestDigest request
                 ∨ ir_OperationID existing ≠ rq_OperationID request)
      then Err [ExecErrIdempotencyConflict : sentinel] else
      match Executions s !! ir_OperationID existing with
      | None => corrupt
      | Some record =>
          if decide (¬ sameExecutionIdentity (er_Request record) request) then conflict else
          Ok (mkExecutionReservation record true, s)
      end
  | None =>
      if decide (is_Some (Executions s !! rq_OperationID request))
      then Err [ExecErrAlreadyExists : sentinel] else
      if decide (is_Some (CancellationIntents s !! rq_OperationID request))
      then Err [ExecErrAlreadyExists : sentinel] else
      if decide (Exists (λ d, reference_taken (Executions s) (rq_OperationID request)
                                (dp_ExecutionReference d)) dispatch) then conflict else
      let record := mkExecutionRecord request acceptedAt zeroDispatch false None None false in
      let record := match dispatch with d :: _ => attach d record | [] => record end in
      Ok (mkExecutionReservation record false,
          mkState (<[rq_OperationID request := record]> (Executions s))
            (<[rq_IdempotencyKey request :=
                 mkIdempotencyRecord (rq_IdempotencyKey request) (rq_RequestDigest request)
                   (rq_OperationID request)]> (ExecutionIdempotency s))
            (CancellationIntents s) (CancellationReservedAt s) (CancellationIdempotency s))
  end.

Definition ReserveExecutionAt := reserveExecutionAt.

(** [systemNow] is what [time.Now().UTC()] returns. *)
Definition ReserveExecution (systemNow : Time) (request : Request) (dispatch : list Dispatch) (s : State)
    : result (ExecutionReservation * State) :=
  let acceptedAt := match dispatch with [d] => dp_AcceptedAt d | _ => systemNow end in
  reserveExecutionAt request acceptedAt dispatch s.

Definition AttachExecution (a : ExecutionAttachment) (s : State)
    : result (ExecutionReservation * State) :=
  _ ← validateAttachment a;
  match Executions s !! ea_OperationID a with
  | None => Err [ExecErrNotFound : sentinel]
  | Some record =>
      if decide (¬ executionAttachmentMatches (er_Request record) a) then conflict else
      if decide (Before (dp_AcceptedAt (ea_Dispatch a)) (er_ReservedAt record)) then conflict else
      if er_Attached record then
        if decide (dp_ExecutionReference (er_Dispatch record) ≠ dp_ExecutionReference (ea_Dispatch a))
        then conflict else Ok (mkExecutionReservation record true, s)
      else
        if decide (reference_taken (Executions s) (ea_OperationID a)
                     (dp_ExecutionReference (ea_Dispatch a))) then conflict else
        let record := attach (ea_Dispatch a) record in
        Ok (mkExecutionReservation record false,
            set_executions (<[ea_OperationID a := record]> (Executions s)) s)
  end.

Definition GetExecution (operationID : string) (s : State) : result ExecutionRecord :=
  match Executions s !! operationID with
  | Some record => Ok record
  | None => Err [ExecErrNotFound : sentinel]
  end.

(** The records in the order of the sorted operation ids. *)
Definition ListExecutions (s : State) : list ExecutionRecord :=
  (sort_by fst (map_to_list (Executions s))).*2.

(** ** Cancellations *)

Definition ReserveCancellation (intent : CancellationIntent) (now : Time) (s : State)
    : result (CancellationReservation * State) :=
  _ ← CancellationIntent_Validate intent now;
  match CancellationIdempotency s !! ci_IdempotencyKey intent with
  | Some existing =>
      if decide (ir_RequestDigest existing ≠ ci_RequestDigest intent
                 ∨ ir_OperationID existing ≠ ci_OperationID intent)
      then Err [ExecErrIdempotencyConflict : sentinel] else
      match CancellationIntents s !! ir_OperationID existing with
      | None => corrupt
      | Some stored =>
          match CancellationReservedAt s !! ci_OperationID stored with
          | None => corrupt
          | Some reservedAt =>
              if decide (IsZero reservedAt) then corrupt else
              Ok (mkCancellationReservation stored reservedAt true, s)
          end
      end
  | None =>
      match Executions s !! ci_TargetOperationID intent with
      | None => Err [ExecErrNotFound : sentinel]
      | Some target =>
          if decide (rq_AttemptID (er_Request target) ≠ ci_TargetAttemptID intent
                     ∨ rq_SandboxID (er_Request target) ≠ ci_SandboxID intent
                     ∨ rq_ExpectedGeneration (er_Request target) ≠ ci_ExpectedGeneration intent)
          then conflict else
          if decide (is_Some (er_Result target) ∨ er_ResultExpired target = true)
          then Err [ExecErrAlreadyExists : sentinel] else
          if decide (is_Some (Executions s !! ci_OperationID intent))
          then Err [ExecErrAlreadyExists : sentinel] else
          if decide (is_Some (CancellationIntents s !! ci_OperationID intent))
          then Err [ExecErrAlreadyExists : sentinel] else
          Ok (mkCancellationReservation intent now false,
              mkState (Executions s) (ExecutionIdempotency s)
                (<[ci_OperationID intent := intent]> (CancellationIntents s))
                (<[ci_OperationID intent := now]> (CancellationReservedAt s))
                (<[ci_IdempotencyKey intent :=
                     mkIdempotencyRecord (ci_IdempotencyKey intent) (ci_RequestDigest intent)
                       (ci_OperationID intent)]> (CancellationIdempotency s)))
      end
  end.

Definition GetCancellation (operationID : string) (s : State) : result CancellationIntent :=
  match CancellationIntents s !! operationID with
  | Some intent => Ok intent
  | None => Err [ExecErrNotFound : sentinel]
  end.

Definition GetCancellationReservation (operationID : string) (s : State)
    : result CancellationReservation :=
  intent ← GetCancellation operationID s;
  match CancellationReservedAt s !! operationID with
  | None => corrupt
  | Some reservedAt =>
      if decide (IsZero reservedAt) then corrupt else Ok (mkCancellationReservation intent reservedAt true)
  end.

(** ** Results *)

(** Evidence without a receipt may only be a failure or an unknown outcome. *)
Definition needs_receipt (st : ResultStatus) : Prop :=
  st ≠ ResultFailed ∧ st ≠ ResultOutcomeUnknown.

#[export] Instance needs_receipt_dec st : Decision (needs_receipt st).
Proof. unfold needs_receipt. apply _. Defined.

Definition retain_result (result : Result) (t : TerminalSummary) (r : ExecutionRecord) : ExecutionRecord :=
  mkExecutionRecord (er_Request r) (er_ReservedAt r) (er_Dispatch r) (er_Attached r) (Some result)
    (Some t) (er_ResultExpired r).

Definition StoreResult (result : Result) (s : State) : Prelude.result (unit * State) :=
  _ ← Result_Validate result;
  match Executions s !! r_OperationID result with
  | None => Err [ExecErrNotFound : sentinel]
  | Some record =>
      if decide (rq_AttemptID (er_Request record) ≠ r_AttemptID result
                 ∨ rq_SandboxID (er_Request record) ≠ r_SandboxID result
                 ∨ rq_FencingToken (er_Request record) ≠ r_FencingToken result) then conflict else
      if decide (Before (r_StartedAt result) (er_ReservedAt record)) then conflict else
      if decide (er_Attached record = false ∧ needs_receipt (r_Status result)) then conflict else
      if decide (r_RetainedUntil result ≠ r_CompletedAt result + rq_ResultRetention (er_Request record))
      then conflict else
      if er_ResultExpired record then Err [ErrExpired : sentinel] else
      match er_Result record with
      | Some stored =>
          if decide (stored = result) then
            terminal ← (match NewTerminalSummary result with Ok t => Ok t | Err _ => corrupt end);
            if decide (er_Terminal record ≠ Some terminal) then corrupt else Ok ((), s)
          else conflict
      | None =>
          terminal ← NewTerminalSummary result;
          Ok ((), set_executions
                    (<[r_OperationID result := retain_result result terminal record]> (Executions s)) s)
      end
  end.

Definition expire (r : ExecutionRecord) : ExecutionRecord :=
  mkExecutionRecord (er_Request r) (er_ReservedAt r) (er_Dispatch r) (er_Attached r) None
    (er_Terminal r) true.

(** [(result, error, changed)] and the next state. *)
Definition ReadResult (operationID : string) (now : Time) (s : State)
    : Prelude.result Result * bool * State :=
  match Executions s !! operationID with
  | None => (Err [ExecErrNotFound : sentinel], false, s)
  | Some record =>
      if er_ResultExpired record then (Err [ErrExpired : sentinel], false, s) else
      match er_Result record with
      | None => (Err [ErrPending : sentinel], false, s)
      | Some result =>
          if decide (¬ Before now (r_RetainedUntil result))
          then (Err [ErrExpired : sentinel], true,
                set_executions (<[operationID := expire record]> (Executions s)) s)
          else (Ok result, false, s)
      end
  end.

(** ** Snapshots *)

Definition Export (s : State) : PersistedState :=
  mkPersistedState snapshotVersion (Some (Executions s)) (Some (ExecutionIdempotency s))
    (Some (CancellationIntents s)) (Some (CancellationReservedAt s)) (Some (CancellationIdempotency s)).

Definition validPersistedRequest (request : Request) : bool :=
  bool_decide (¬ IsZero (rq_Deadline request))
  && is_ok (Request_Validate request (rq_Deadline request - Nanosecond)).

Definition validateStoredResult (record : ExecutionRecord) : Prelude.result unit :=
  match er_Result record with
  | None => corrupt
  | Some result =>
      if decide (er_Attached record = false ∧ needs_receipt (r_Status result)) then corrupt else
      if decide (is_ok (Result_Validate result) = false
                 ∨ r_OperationID result ≠ rq_OperationID (er_Request record)
                 ∨ r_AttemptID result ≠ rq_AttemptID (er_Request record)
                 ∨ r_SandboxID result ≠ rq_SandboxID (er_Request record)
                 ∨ r_FencingToken result ≠ rq_FencingToken (er_Request record)
                 ∨ r_RetainedUntil result ≠ r_CompletedAt result + rq_ResultRetention (er_Request record))
      then corrupt else Ok ()
  end.

Definition er_set (attached : bool) (reservedAt : Time) (terminal : option TerminalSummary)
    (r : ExecutionRecord) : ExecutionRecord :=
  mkExecutionRecord (er_Request r) reservedAt (er_Dispatch r) attached (er_Result r) terminal
    (er_ResultExpired r).

(** The terminal summary a legacy expired record gets. *)
Definition expired_summary (r : ExecutionRecord) : TerminalSummary :=
  let completedAt :=
    if decide (er_Attached r = true ∧ After (dp_AcceptedAt (er_Dispatch r)) (er_ReservedAt r))
    then dp_AcceptedAt (er_Dispatch r) else er_ReservedAt r in
  mkTerminalSummary ResultOutcomeUnknown completedAt
    (Some (mkResultError "SANDBOX_EXEC_OUTCOME_UNKNOWN"
             "expired execution outcome is no longer available" false ErrorOutcomeUnknown)).

(** The checks and repairs of one persisted execution, in the order of the code. *)
Definition import_receipt (r : ExecutionRecord) : Prelude.result ExecutionRecord :=
  let r := if decide (er_Attached r = false ∧ dp_ExecutionReference (er_Dispatch r) ≠ "")
           then er_set true (er_ReservedAt r) (er_Terminal r) r else r in
  r ← (if decide (IsZero (er_ReservedAt r)) then
         if er_Attached r then Ok (er_set (er_Attached r) (dp_AcceptedAt (er_Dispatch r)) (er_Terminal r) r)
         else corrupt
       else Ok r);
  if er_Attached r then
    if decide (is_ok (Dispatch_Validate (er_Dispatch r)) = false
               ∨ Before (dp_AcceptedAt (er_Dispatch r)) (er_ReservedAt r))
    then corrupt else Ok r
  else if decide (er_Dispatch r ≠ zeroDispatch) then corrupt else Ok r.

Definition import_summary (r : ExecutionRecord) : Prelude.result ExecutionRecord :=
  match er_Result r with
  | None => Ok r
  | Some result =>
      _ ← validateStoredResult r;
      terminal ← (match NewTerminalSummary result with Ok t => Ok t | Err _ => corrupt end);
      match er_Terminal r with
      | None => Ok (er_set (er_Attached r) (er_ReservedAt r) (Some terminal) r)
      | Some t =>
          if decide (is_ok (TerminalSummary_Validate t) = false ∨ t ≠ terminal) then corrupt else Ok r
      end
  end.

Definition import_terminal (r : ExecutionRecord) : Prelude.result ExecutionRecord :=
  r ← import_summary r;
  if decide (er_ResultExpired r = true ∧ is_Some (er_Result r)) then corrupt else
  let r := if decide (er_ResultExpired r = true ∧ er_Terminal r = None)
           then er_set (er_Attached r) (er_ReservedAt r) (Some (expired_summary r)) r else r in
  match er_Terminal r with
  | None => Ok r
  | Some t =>
      if decide (is_ok (TerminalSummary_Validate t) = false
                 ∨ Before (ts_CompletedAt t) (er_ReservedAt r)
                 ∨ (er_Result r = None ∧ er_ResultExpired r = false))
      then corrupt else Ok r
  end.

Definition import_execution (operationID : string) (r : ExecutionRecord) : Prelude.result ExecutionRecord :=
  if decide (operationID = "" ∨ rq_OperationID (er_Request r) ≠ operationID
             ∨ validPersistedRequest (er_Request r) = false) then corrupt else
  r ← import_receipt r; import_terminal r.

(** An idempotency record and what it must agree with. *)
Definition import_idempotency (identity : string → option (string * string)) (key : string)
    (i : IdempotencyRecord) : Prelude.result IdempotencyRecord :=
  if decide (key = "" ∨ ir_Key i ≠ key ∨ ir_RequestDigest i = "" ∨ ir_OperationID i = "")
  then corrupt else
  if decide (identity (ir_OperationID i) ≠ Some (key, ir_RequestDigest i)) then corrupt else Ok i.

Definition execution_identity (e : gmap string ExecutionRecord) (operationID : string)
    : option (string * string) :=
  r ← e !! operationID; Some (rq_IdempotencyKey (er_Request r), rq_RequestDigest (er_Request r)).

Definition cancellation_identity (c : gmap string CancellationIntent) (operationID : string)
    : option (string * string) :=
  i ← c !! operationID; Some (ci_IdempotencyKey i, ci_RequestDigest i).

(** Every record is reachable through the idempotency record of its key. *)
Definition check_indexed {A} (key : A → string) (idem : gmap string IdempotencyRecord)
    (p : string * A) : Prelude.result unit :=
  if decide (ir_OperationID <$> idem !! key p.2 = Some p.1) then Ok () else corrupt.

Definition import_cancellation (version : Z) (executions : gmap string ExecutionRecord)
    (reserved : gmap string Time) (operationID : string) (i : CancellationIntent)
    : Prelude.result (CancellationIntent * Time) :=
  if decide (operationID = "" ∨ ci_OperationID i ≠ operationID
             ∨ is_ok (CancellationIntent_Validate i 0) = false) then corrupt else
  if decide (is_Some (executions !! operationID)) then corrupt else
  match executions !! ci_TargetOperationID i with
  | None => corrupt
  | Some target =>
      if decide (rq_AttemptID (er_Request target) ≠ ci_TargetAttemptID i
                 ∨ rq_SandboxID (er_Request target) ≠ ci_SandboxID i
                 ∨ rq_ExpectedGeneration (er_Request target) ≠ ci_ExpectedGeneration i)
      then corrupt else
      let reservedAt := get_or 0 reserved operationID in
      let reservedAt := if decide (version = 1 ∧ IsZero reservedAt) then er_ReservedAt target else reservedAt in
      if decide (IsZero reservedAt ∨ After reservedAt (ci_Deadline i)) then corrupt else
      Ok (i, reservedAt)
  end.

Definition Import (p : PersistedState) : Prelude.result State :=
  if decide (ps_Version p ≠ 1 ∧ ps_Version p ≠ snapshotVersion) then corrupt else
  match ps_Executions p, ps_ExecutionIdempotency p, ps_CancellationIntents p,
        ps_CancellationIdempotency p with
  | Some executions, Some executionIdempotency, Some intents, Some cancellationIdempotency =>
      if decide (ps_Version p = snapshotVersion ∧ ps_CancellationReservedAt p = None) then corrupt else
      executions ← import_map import_execution executions;
      executionIdempotency ← import_map (import_idempotency (execution_identity executions)) executionIdempotency;
      _ ← foldM (λ _ p, check_indexed (λ r, rq_IdempotencyKey (er_Request r)) executionIdempotency p) ()
            (map_to_list executions);
      cancellations ← import_map (import_cancellation (ps_Version p) executions
                                    (default ∅ (ps_CancellationReservedAt p))) intents;
      let intents := fst <$> cancellations in
      cancellationIdempotency ← import_map (import_idempotency (cancellation_identity intents)) cancellationIdempotency;
      _ ← foldM (λ _ p, check_indexed ci_IdempotencyKey cancellationIdempotency p) () (map_to_list intents);
      Ok (mkState executions executionIdempotency intents (snd <$> cancellations) cancellationIdempotency)
  | _, _, _, _ => corrupt
  end.

#[global] Arguments reserveExecutionAt : simpl never.
#[global] Arguments AttachExecution : simpl never.
#[global] Arguments ReserveCancellation : simpl never.
#[global] Arguments StoreResult : simpl never.
#[global] Arguments ReadResult : simpl never.
