(* ===== verification/ExecInvariant.v ===== *)
(** * The invariant of the execution repository

    What every state of [provider/exec/repository] satisfies, that each
    operation preserves it, that a snapshot of such a state loads back to it,
    and how records evolve over a run. *)

From S2P Require Import Prelude ExecModel ExecState.
From stdpp Require Import base gmap strings list fin_maps relations.
From Stdlib Require Import ZArith Lia.

Local Open Scope Z_scope.

(** ** One record *)

Definition receipt_wf (r : ExecutionRecord) : Prop :=
  if er_Attached r
  then Dispatch_Validate (er_Dispatch r) = Ok () ∧ er_ReservedAt r ≤ dp_AcceptedAt (er_Dispatch r)
  else er_Dispatch r = zeroDispatch.

(** Evidence is absent, retained with its summary, or expired to its summary. *)
Definition evidence_wf (r : ExecutionRecord) : Prop :=
  match er_Result r with
  | Some res =>
      validateStoredResult r = Ok () ∧ er_Terminal r = Some (summary_of res) ∧
      er_ResultExpired r = false ∧ er_ReservedAt r ≤ r_StartedAt res
  | None =>
      match er_Terminal r with
      | Some t => er_ResultExpired r = true ∧ TerminalSummary_Validate t = Ok () ∧
                  er_ReservedAt r ≤ ts_CompletedAt t
      | None => er_ResultExpired r = false
      end
  end.

Definition record_wf (k : string) (r : ExecutionRecord) : Prop :=
  rq_OperationID (er_Request r) = k ∧ validPersistedRequest (er_Request r) = true ∧
  er_ReservedAt r ≠ 0 ∧ receipt_wf r ∧ evidence_wf r.

(** ** The state *)

(** The target of a cancellation. *)
Definition targets (e : gmap string ExecutionRecord) (i : CancellationIntent) : Prop :=
  ∃ r, e !! ci_TargetOperationID i = Some r ∧ rq_AttemptID (er_Request r) = ci_TargetAttemptID i ∧
    rq_SandboxID (er_Request r) = ci_SandboxID i ∧
    rq_ExpectedGeneration (er_Request r) = ci_ExpectedGeneration i.

(** An idempotency index over records with the given identities. *)
Definition index_wf (identity : string → option (string * string)) (idem : gmap string IdempotencyRecord)
    : Prop :=
  ∀ key i, idem !! key = Some i →
    ir_Key i = key ∧ key ≠ "" ∧ ir_RequestDigest i ≠ "" ∧ ir_OperationID i ≠ "" ∧
    identity (ir_OperationID i) = Some (key, ir_RequestDigest i).

Record exec_wf (s : State) : Prop := mkExecWf {
  xw_record k r : Executions s !! k = Some r → record_wf k r;
  xw_reference k1 k2 r1 r2 :
    Executions s !! k1 = Some r1 → Executions s !! k2 = Some r2 →
    er_Attached r1 = true → er_Attached r2 = true →
    dp_ExecutionReference (er_Dispatch r1) = dp_ExecutionReference (er_Dispatch r2) → k1 = k2;
  xw_index : index_wf (execution_identity (Executions s)) (ExecutionIdempotency s);
  xw_indexed k r : Executions s !! k = Some r →
    ir_OperationID <$> ExecutionIdempotency s !! rq_IdempotencyKey (er_Request r) = Some k;
  xw_cancel k i : CancellationIntents s !! k = Some i →
    ci_OperationID i = k ∧ CancellationIntent_Validate i 0 = Ok () ∧ Executions s !! k = None ∧
    targets (Executions s) i ∧
    ∃ t : Time, CancellationReservedAt s !! k = Some t ∧ t ≠ 0 ∧ t ≤ ci_Deadline i;
  xw_reserved k (t : Time) : CancellationReservedAt s !! k = Some t → is_Some (CancellationIntents s !! k);
  xw_cancel_index : index_wf (cancellation_identity (CancellationIntents s)) (CancellationIdempotency s);
  xw_cancel_indexed k i : CancellationIntents s !! k = Some i →
    ir_OperationID <$> CancellationIdempotency s !! ci_IdempotencyKey i = Some k;
}.

Lemma exec_wf_init : exec_wf NewState.
Proof. split; unfold index_wf; cbn; intros *; rewrite ?lookup_empty; done. Qed.

(** ** Evolution of a record *)

Definition record_evolves (r r' : ExecutionRecord) : Prop :=
  er_Request r' = er_Request r ∧ er_ReservedAt r' = er_ReservedAt r ∧
  (er_Attached r = true → er_Attached r' = true ∧ er_Dispatch r' = er_Dispatch r) ∧
  (∀ t, er_Terminal r = Some t → er_Terminal r' = Some t) ∧
  (∀ res, er_Result r = Some res →
     er_Result r' = Some res ∨ (er_Result r' = None ∧ er_ResultExpired r' = true)) ∧
  (er_ResultExpired r = true → er_Result r = None → er_ResultExpired r' = true ∧ er_Result r' = None).

#[export] Instance record_evolves_po : PreOrder record_evolves.
Proof.
  split; [intros r; split_and!; auto|].
  intros a b c (H1&H2&H3&H4&H5&H6) (G1&G2&G3&G4&G5&G6). split_and!; [congruence..| | | |].
  - intros Ha. destruct (H3 Ha) as [Hb ?]. destruct (G3 Hb). split; congruence.
  - eauto.
  - intros res Hr. destruct (H5 res Hr) as [Hb|[Hb1 Hb2]]; [eauto|].
    right. destruct (G6 Hb2 Hb1). done.
  - intros Hx Hn. destruct (H6 Hx Hn). eauto.
Qed.

(** ** What the operations do *)

Lemma reserve_Ok rq at_ d s r s' :
  reserveExecutionAt rq at_ d s = Ok (r, s') →
  Request_Validate rq at_ = Ok () ∧ at_ ≠ 0 ∧
  ((∃ i rec, ExecutionIdempotency s !! rq_IdempotencyKey rq = Some i ∧
      ir_OperationID i = rq_OperationID rq ∧ Executions s !! rq_OperationID rq = Some rec ∧
      sameExecutionIdentity (er_Request rec) rq ∧ r = mkExecutionReservation rec true ∧ s' = s) ∨
   (∃ rec, ExecutionIdempotency s !! rq_IdempotencyKey rq = None ∧
      Executions s !! rq_OperationID rq = None ∧ CancellationIntents s !! rq_OperationID rq = None ∧
      er_Request rec = rq ∧ er_ReservedAt rec = at_ ∧ er_Result rec = None ∧ er_Terminal rec = None ∧
      er_ResultExpired rec = false ∧ receipt_wf rec ∧
      (er_Attached rec = true →
         ¬ reference_taken (Executions s) (rq_OperationID rq) (dp_ExecutionReference (er_Dispatch rec))) ∧
      r = mkExecutionReservation rec false ∧
      s' = mkState (<[rq_OperationID rq := rec]> (Executions s))
            (<[rq_IdempotencyKey rq :=
                 mkIdempotencyRecord (rq_IdempotencyKey rq) (rq_RequestDigest rq) (rq_OperationID rq)]>
               (ExecutionIdempotency s))
            (CancellationIntents s) (CancellationReservedAt s) (CancellationIdempotency s))).
Proof.
  unfold reserveExecutionAt, conflict, corrupt, IsZero. intros H.
  apply guard_Ok in H as [Hlen H]. apply guard_Ok in H as [Hz H].
  apply bind_Ok in H as ([] & Hv & H). apply bind_Ok in H as ([] & Hd & H).
  split_and!; [done|done|].
  destruct (ExecutionIdempotency s !! _) as [i|] eqn:Ei.
  - left. apply guard_Ok in H as [Hg H]. nor Hg. apply dec_stable in Hg, Hg0.
    destruct (Executions s !! ir_OperationID i) as [rec|] eqn:Er; [|done].
    apply guard_Ok in H as [Hs [= <- <-]]. apply dec_stable in Hs.
    exists i, rec. rewrite <- Hg. by split_and!.
  - right. do 3 (let G := fresh "G" in apply guard_Ok in H as [G H]). injection H as <- <-.
    apply eq_None_not_Some in G, G0. unfold receipt_wf.
    destruct d as [|d0 d].
    + exists (mkExecutionRecord rq at_ zeroDispatch false None None false). by split_and!.
    + apply bind_Ok in Hd as ([] & Hdv & Hd). apply guard_Ok in Hd as [Hb _]. unfold Before in Hb.
      exists (mkExecutionRecord rq at_ d0 true None None false). split_and!; try done.
      * cbn. split; [done|]. cbn. lia.
      * intros _ Ht. apply G1. by left.
Qed.

Lemma attach_Ok a s r s' :
  AttachExecution a s = Ok (r, s') →
  validateAttachment a = Ok () ∧
  ∃ rec, Executions s !! ea_OperationID a = Some rec ∧ executionAttachmentMatches (er_Request rec) a ∧
    er_ReservedAt rec ≤ dp_AcceptedAt (ea_Dispatch a) ∧
    ((er_Attached rec = true ∧
      dp_ExecutionReference (er_Dispatch rec) = dp_ExecutionReference (ea_Dispatch a) ∧
      r = mkExecutionReservation rec true ∧ s' = s) ∨
     (er_Attached rec = false ∧
      ¬ reference_taken (Executions s) (ea_OperationID a) (dp_ExecutionReference (ea_Dispatch a)) ∧
      r = mkExecutionReservation (attach (ea_Dispatch a) rec) false ∧
      s' = set_executions (<[ea_OperationID a := attach (ea_Dispatch a) rec]> (Executions s)) s)).
Proof.
  unfold AttachExecution, conflict, Before. intros H. apply bind_Ok in H as ([] & Hv & H).
  split; [done|]. destruct (Executions s !! _) as [rec|] eqn:Er; [|done]. exists rec.
  apply guard_Ok in H as [Hm H]. apply guard_Ok in H as [Hb H]. apply dec_stable in Hm.
  split_and!; [done|done|lia|]. destruct (er_Attached rec).
  - left. apply guard_Ok in H as [Hr [= <- <-]]. by apply dec_stable in Hr.
  - right. by apply guard_Ok in H as [Ht [= <- <-]].
Qed.

Lemma cancel_Ok i now s r s' :
  ReserveCancellation i now s = Ok (r, s') →
  CancellationIntent_Validate i now = Ok () ∧
  ((∃ x stored (t : Time), CancellationIdempotency s !! ci_IdempotencyKey i = Some x ∧
      ir_RequestDigest x = ci_RequestDigest i ∧ ir_OperationID x = ci_OperationID i ∧
      CancellationIntents s !! ci_OperationID i = Some stored ∧
      CancellationReservedAt s !! ci_OperationID stored = Some t ∧
      r = mkCancellationReservation stored t true ∧ s' = s) ∨
   (CancellationIdempotency s !! ci_IdempotencyKey i = None ∧ targets (Executions s) i ∧
    Executions s !! ci_OperationID i = None ∧ CancellationIntents s !! ci_OperationID i = None ∧
    r = mkCancellationReservation i now false ∧
    s' = mkState (Executions s) (ExecutionIdempotency s)
           (<[ci_OperationID i := i]> (CancellationIntents s))
           (<[ci_OperationID i := now]> (CancellationReservedAt s))
           (<[ci_IdempotencyKey i :=
                mkIdempotencyRecord (ci_IdempotencyKey i) (ci_RequestDigest i) (ci_OperationID i)]>
              (CancellationIdempotency s)))).
Proof.
  unfold ReserveCancellation, conflict, corrupt. intros H. apply bind_Ok in H as ([] & Hv & H).
  split; [done|]. destruct (CancellationIdempotency s !! _) as [x|] eqn:Ex.
  - left. apply guard_Ok in H as [G H]. nor G. apply dec_stable in G, G0. rewrite G in H.
    destruct (CancellationIntents s !! _) as [stored|] eqn:Es; [|done].
    destruct (CancellationReservedAt s !! _) as [t|] eqn:Et; [|done].
    apply guard_Ok in H as [_ [= <- <-]]. exists x, stored, t. by split_and!.
  - right. destruct (Executions s !! ci_TargetOperationID i) as [target|] eqn:Et; [|done].
    do 4 (let G := fresh "G" in apply guard_Ok in H as [G H]). injection H as <- <-.
    nor G. apply dec_stable in G, G3, G4. apply eq_None_not_Some in G1, G2.
    split_and!; try done. by exists target.
Qed.

Lemma store_Ok res s s' :
  StoreResult res s = Ok ((), s') →
  Result_Validate res = Ok () ∧
  ∃ rec, Executions s !! r_OperationID res = Some rec ∧ er_ResultExpired rec = false ∧
    ((er_Result rec = Some res ∧ s' = s) ∨
     (er_Result rec = None ∧ rq_AttemptID (er_Request rec) = r_AttemptID res ∧
      rq_SandboxID (er_Request rec) = r_SandboxID res ∧
      rq_FencingToken (er_Request rec) = r_FencingToken res ∧
      er_ReservedAt rec ≤ r_StartedAt res ∧
      ¬ (er_Attached rec = false ∧ needs_receipt (r_Status res)) ∧
      r_RetainedUntil res = r_CompletedAt res + rq_ResultRetention (er_Request rec) ∧
      s' = set_executions
             (<[r_OperationID res := retain_result res (summary_of res) rec]> (Executions s)) s)).
Proof.
  unfold StoreResult, conflict, corrupt, Before. intros H. apply bind_Ok in H as ([] & Hv & H).
  split; [done|]. destruct (Executions s !! _) as [rec|] eqn:Er; [|done]. exists rec.
  do 4 (let G := fresh "G" in apply guard_Ok in H as [G H]).
  destruct (er_ResultExpired rec); [done|]. split_and!; [done|done|].
  destruct (er_Result rec) as [old|] eqn:Eo.
  - left. case_decide as Heq; [|done]. subst. inv_ok H. done.
  - right. nor G. apply dec_stable in G, G3, G4, G2.
    apply bind_Ok in H as (t & [_ ->]%NewTerminalSummary_Ok & [= <-]). split_and!; try done. lia.
Qed.

Lemma read_cases op now s x b s' :
  ReadResult op now s = (x, b, s') →
  (s' = s ∧ b = false) ∨
  ∃ rec res, Executions s !! op = Some rec ∧ er_Result rec = Some res ∧ er_ResultExpired rec = false ∧
    r_RetainedUntil res ≤ now ∧ x = Err [ErrExpired : sentinel] ∧ b = true ∧
    s' = set_executions (<[op := expire rec]> (Executions s)) s.
Proof.
  unfold ReadResult, Before. destruct (Executions s !! op) as [rec|] eqn:Er; [|intros [= <- <- <-]; auto].
  destruct (er_ResultExpired rec) eqn:Ex; [intros [= <- <- <-]; auto|].
  destruct (er_Result rec) as [res|] eqn:Es; [|intros [= <- <- <-]; auto].
  case_decide as Hn; intros [= <- <- <-]; [right|by left].
  exists rec, res. split_and!; try done. lia.
Qed.

(** ** Preservation *)

Lemma identity_update (e : gmap string ExecutionRecord) k rec rec' id :
  e !! k = Some rec → er_Request rec' = er_Request rec →
  execution_identity (<[k := rec']> e) id = execution_identity e id.
Proof.
  intros Hk Hr. unfold execution_identity. rewrite lookup_insert.
  case_decide as Heq; [subst; rewrite Hk; cbn; by rewrite Hr|done].
Qed.

Lemma targets_update (e : gmap string ExecutionRecord) k rec rec' i :
  e !! k = Some rec → er_Request rec' = er_Request rec → targets e i → targets (<[k := rec']> e) i.
Proof.
  intros Hk Hr (r & Hi & H). destruct (decide (k = ci_TargetOperationID i)) as [Heq|Hne].
  - exists rec'. rewrite <- Heq, lookup_insert_eq, Hr. assert (r = rec) as -> by congruence. done.
  - exists r. by rewrite lookup_insert_ne.
Qed.

Lemma reference_free (e : gmap string ExecutionRecord) op ref k r :
  ¬ reference_taken e op ref → e !! k = Some r → k ≠ op → er_Attached r = true →
  dp_ExecutionReference (er_Dispatch r) ≠ ref.
Proof.
  intros Hn Hk Hne Ha Heq. apply Hn, Exists_exists. exists (k, r).
  split; [by apply elem_of_map_to_list|done].
Qed.

(** A new version of a record for the same request. *)
Lemma exec_wf_update s k rec rec' :
  exec_wf s → Executions s !! k = Some rec → er_Request rec' = er_Request rec → record_wf k rec' →
  (∀ k2 r2, k2 ≠ k → Executions s !! k2 = Some r2 → er_Attached r2 = true → er_Attached rec' = true →
     dp_ExecutionReference (er_Dispatch r2) ≠ dp_ExecutionReference (er_Dispatch rec')) →
  exec_wf (set_executions (<[k := rec']> (Executions s)) s).
Proof.
  intros [H1 H2 H3 H4 H5 H6 H7 H8] Hk Hrq Hwf Href. split; cbn; auto.
  - intros i r Hi. ins_inv Hi; [done|auto].
  - intros k1 k2 r1 r2 Hk1 Hk2 Ha1 Ha2 Heq. ins_inv Hk1; ins_inv Hk2; [done|..|by eapply H2].
    + destruct (Href k2 r2); [congruence|done..].
    + destruct (Href k1 r1); [congruence|done..].
  - intros key i Hi. rewrite (identity_update _ _ rec) by done. by apply H3.
  - intros i r Hi. ins_inv Hi; [rewrite Hrq; by apply H4|by apply H4].
  - intros i c Hi. destruct (H5 i c Hi) as (?&?&Hn&?&?). split_and!; [done|done| |by eapply targets_update|done].
    rewrite lookup_insert_ne; congruence.
Qed.

Lemma validPersisted rq now :
  Request_Validate rq now = Ok () → validPersistedRequest rq = true.
Proof.
  intros H. destruct (Request_Validate_deadline rq now H) as [_ Hz]. unfold validPersistedRequest.
  rewrite bool_decide_eq_true_2 by done. cbn.
  rewrite (Request_Validate_at rq now) by (done || unfold Nanosecond; lia). done.
Qed.

Lemma validPersisted_fields rq :
  validPersistedRequest rq = true →
  identifierPattern (rq_OperationID rq) = true ∧ MinRetention ≤ rq_ResultRetention rq ≤ MaxRetention.
Proof.
  unfold validPersistedRequest. rewrite andb_true_iff, is_ok_true. intros [_ [[] H]].
  apply Request_Validate_fields in H as (?&_&_&?). done.
Qed.

Lemma reserve_wf rq at_ d s r s' :
  exec_wf s → reserveExecutionAt rq at_ d s = Ok (r, s') → exec_wf s'.
Proof.
  intros Hs (Hv & Hz & [(i & rec & _ & _ & _ & _ & _ & ->)|H])%reserve_Ok; [done|].
  destruct H as (rec & Hi & He & Hc & Hrq & Hat & Hres & Hterm & Hexp & Hrec & Href & _ & ->).
  destruct (Request_Validate_fields rq at_ Hv) as (Hid & Hkey & Hdig & _).
  destruct Hs as [H1 H2 H3 H4 H5 H6 H7 H8].
  assert (Hfresh : ∀ k r0, Executions s !! k = Some r0 → k ≠ rq_OperationID rq) by (intros ? ? ? ->; congruence).
  split; cbn; auto.
  - intros k r0 Hk. ins_inv Hk; [|auto]. split_and!; [done|by eapply validPersisted|done|done|].
    unfold evidence_wf. by rewrite Hres, Hterm.
  - intros k1 k2 r1 r2 Hk1 Hk2 Ha1 Ha2 Heq. ins_inv Hk1; ins_inv Hk2; [done|exfalso..|by eapply H2].
    + eapply (reference_free _ _ _ k2 r2 (Href Ha1)); [done|congruence|done|congruence].
    + eapply (reference_free _ _ _ k1 r1 (Href Ha2)); [done|congruence|done|congruence].
  - intros key x Hx. ins_inv Hx; cbn.
    + split_and!; [done|done|by apply digest_nonempty|by apply identifier_nonempty|].
      unfold execution_identity. rewrite lookup_insert_eq. done.
    + destruct (H3 key x Hx) as (?&?&?&?&Hident). split_and!; try done.
      unfold execution_identity in *. destruct (Executions s !! ir_OperationID x) as [y|] eqn:Ey; [|done].
      by rewrite lookup_insert_ne, Ey by (apply not_eq_sym; eauto).
  - intros k r0 Hk. ins_inv Hk; [by rewrite lookup_insert_eq|].
    rewrite lookup_insert_ne; [by apply H4|]. intros Heq. specialize (H4 k r0 Hk). rewrite <- Heq, Hi in H4. done.
  - intros k c Hk. destruct (H5 k c Hk) as (?&?&Hn&(y & Hy & ?)&?).
    split_and!; [done|done|rewrite lookup_insert_ne; congruence| |done].
    exists y. by rewrite lookup_insert_ne by (apply not_eq_sym; eauto).
Qed.

Lemma attach_wf a s r s' : exec_wf s → AttachExecution a s = Ok (r, s') → exec_wf s'.
Proof.
  intros Hs (Hv & rec & Hk & Hm & Hle & [(_ & _ & _ & ->)|(Ha & Hfree & _ & ->)])%attach_Ok; [done|].
  destruct (xw_record s Hs _ _ Hk) as (Hid & Hrq & Hz & _ & Hev).
  apply (exec_wf_update s _ rec); [done|done|done| |].
  - split_and!; try done.
    + cbn. unfold validateAttachment in Hv. apply bind_Ok in Hv as ([] & Hd & _). done.
    + unfold evidence_wf in *. cbn. destruct (er_Result rec) as [res|]; [|done].
      destruct Hev as (Hvr & ? & ? & ?). split_and!; try done. revert Hvr.
      unfold validateStoredResult, corrupt. cbn. destruct (er_Result rec); [|done].
      intros Hg. apply guard_Ok in Hg as [_ Hg]. by rewrite decide_False by (intros [? _]; done).
  - intros k2 r2 Hne Hk2 Ha2 _. by eapply reference_free.
Qed.

Lemma cancel_wf i now s r s' :
  exec_wf s → 0 < now → ReserveCancellation i now s = Ok (r, s') → exec_wf s'.
Proof.
  intros Hs Hnow (Hv & [(?&?&?&_&_&_&_&_&_&->)|(Hi & Ht & He & Hc & _ & ->)])%cancel_Ok; [done|].
  destruct (CancellationIntent_Validate_fields i now Hv) as (Hid & Hkey & Hdig & Hdl).
  destruct Hs as [H1 H2 H3 H4 H5 H6 H7 H8].
  split; cbn; auto.
  - intros k c Hk. ins_inv Hk.
    + split_and!; try done; [eapply CancellationIntent_Validate_at; [done|lia]|].
      exists now. rewrite lookup_insert_eq. split_and!; [done|lia|lia].
    + destruct (H5 k c Hk) as (?&?&?&?&?). split_and!; try done. by rewrite lookup_insert_ne.
  - intros k t Hk. ins_inv Hk; [apply insert_eq_is_Some|apply insert_is_Some; eauto].
  - intros key x Hx. ins_inv Hx; cbn.
    + split_and!; [done|done|by apply digest_nonempty|by apply identifier_nonempty|].
      unfold cancellation_identity. by rewrite lookup_insert_eq.
    + destruct (H7 key x Hx) as (?&?&?&?&Hident). split_and!; try done.
      unfold cancellation_identity in *. destruct (CancellationIntents s !! ir_OperationID x) as [y|] eqn:Ey; [|done].
      rewrite lookup_insert_ne; [by rewrite Ey|]. congruence.
  - intros k c Hk. ins_inv Hk; [by rewrite lookup_insert_eq|].
    rewrite lookup_insert_ne; [by apply H8|]. intros Heq. specialize (H8 k c Hk). rewrite <- Heq, Hi in H8. done.
Qed.

Lemma store_wf res s s' : exec_wf s → StoreResult res s = Ok ((), s') → exec_wf s'.
Proof.
  intros Hs (Hv & rec & Hk & Hexp & [[_ ->]|H])%store_Ok; [done|].
  destruct H as (Hnone & Ha & Hsb & Hf & Hst & Hrec & Hret & ->).
  destruct (xw_record s Hs _ _ Hk) as (Hid & Hrq & Hz & Hreceipt & Hev).
  apply (exec_wf_update s _ rec); [done|done|done| |].
  - split_and!; try done. unfold evidence_wf. cbn. split_and!; try done.
    unfold validateStoredResult, corrupt. cbn. rewrite decide_False by done.
    rewrite decide_False; [done|]. rewrite Hv. cbn.
    intros [?|[?|[?|[?|[?|?]]]]]; congruence.
  - intros k2 r2 Hne Hk2 Ha2 Ha1 Heq. destruct Hne. by eapply (xw_reference s Hs k2 _ r2 rec).
Qed.

Lemma validateStoredResult_valid r res :
  er_Result r = Some res → validateStoredResult r = Ok () → Result_Validate res = Ok ().
Proof.
  unfold validateStoredResult, corrupt. intros ->. intros Hvr.
  do 2 (let G := fresh "G" in apply guard_Ok in Hvr as [G Hvr]). nor G0.
  by apply not_false_is_true, is_ok_true in G1 as [[] ?].
Qed.

Lemma read_wf op now s x b s' : exec_wf s → ReadResult op now s = (x, b, s') → exec_wf s'.
Proof.
  intros Hs [[-> _]|(rec & res & Hk & Hr & Hexp & _ & _ & _ & ->)]%read_cases; [done|].
  destruct (xw_record s Hs _ _ Hk) as (Hid & Hrq & Hz & Hreceipt & Hev).
  apply (exec_wf_update s _ rec); [done|done|done| |].
  - split_and!; try done. unfold evidence_wf in *. rewrite Hr in Hev. cbn.
    destruct Hev as (Hvr & -> & _ & Hst). split; [done|].
    pose proof (validateStoredResult_valid rec res Hr Hvr) as Hval.
    split; [by apply summary_valid|]. apply Result_Validate_times in Hval as (_&_&?). cbn. lia.
  - intros k2 r2 Hne Hk2 Ha2 Ha1 Heq. destruct Hne. by eapply (xw_reference s Hs k2 _ r2 rec).
Qed.
