(* ===== verification/ExecRepository.v ===== *)
(** * Runs of the execution repository

    The operations of [provider/exec/repository] as one transition function and
    the guarantees that hold over any sequence of calls, however the adapter's
    lock orders the callers. *)

From S2P Require Import Prelude ExecModel ExecState ExecInvariant.
From stdpp Require Import base gmap strings list fin_maps relations.
From Stdlib Require Import ZArith Lia.

Local Open Scope Z_scope.

(** ** Calls *)

Inductive exec_call :=
  | XReserve (rq : Request) (at_ : Time) (d : list Dispatch)
  | XAttach (a : ExecutionAttachment)
  | XCancel (i : CancellationIntent) (now : Time)
  | XStore (res : Result)
  | XRead (op : string) (now : Time).

(** The next state; a refused call leaves the state as it was. *)
Definition exec_apply (c : exec_call) (s : State) : State :=
  match c with
  | XReserve rq at_ d => match reserveExecutionAt rq at_ d s with Ok (_, s') => s' | Err _ => s end
  | XAttach a => match AttachExecution a s with Ok (_, s') => s' | Err _ => s end
  | XCancel i now => match ReserveCancellation i now s with Ok (_, s') => s' | Err _ => s end
  | XStore res => match StoreResult res s with Ok (_, s') => s' | Err _ => s end
  | XRead op now => (ReadResult op now s).2
  end.

Fixpoint exec_run (calls : list exec_call) (s : State) : State :=
  match calls with [] => s | c :: calls => exec_run calls (exec_apply c s) end.

(** The clock of a cancellation is past Go's zero time. *)
Definition timely (c : exec_call) : Prop :=
  match c with XCancel _ now => 0 < now | _ => True end.

Definition exec_reachable (s : State) : Prop :=
  ∃ calls, Forall timely calls ∧ exec_run calls NewState = s.

Lemma exec_apply_wf c s : timely c → exec_wf s → exec_wf (exec_apply c s).
Proof.
  intros Ht Hs. destruct c; cbn.
  - destruct (reserveExecutionAt _ _ _ _) as [[r s']|] eqn:E; [by eapply reserve_wf|done].
  - destruct (AttachExecution _ _) as [[r s']|] eqn:E; [by eapply attach_wf|done].
  - destruct (ReserveCancellation _ _ _) as [[r s']|] eqn:E; [by eapply cancel_wf|done].
  - destruct (StoreResult _ _) as [[[] s']|] eqn:E; [by eapply store_wf|done].
  - destruct (ReadResult op now s) as [[x b] s'] eqn:E. by eapply read_wf.
Qed.

Lemma exec_run_wf calls s : Forall timely calls → exec_wf s → exec_wf (exec_run calls s).
Proof.
  revert s. induction calls as [|c calls IH]; intros s Ht Hs; [done|].
  apply Forall_cons in Ht as [? ?]. apply IH; [done|]. by apply exec_apply_wf.
Qed.

Lemma exec_reachable_wf s : exec_reachable s → exec_wf s.
Proof. intros (calls & Ht & <-). by apply exec_run_wf, exec_wf_init. Qed.

(** ** Evolution *)

Lemma insert_evolves (e : gmap string ExecutionRecord) k new i r :
  (∀ cur, e !! k = Some cur → record_evolves cur new) →
  e !! i = Some r → ∃ r', <[k := new]> e !! i = Some r' ∧ record_evolves r r'.
Proof. intros Hg Hi. rewrite lookup_insert. case_decide as Heq; [subst; eauto|]. by exists r. Qed.

Lemma attach_evolves d r : er_Attached r = false → record_evolves r (attach d r).
Proof. intros Ha. split_and!; try done; [congruence|]. intros res Hr. by left. Qed.

Lemma retain_evolves k res t r :
  record_wf k r → er_Result r = None → er_ResultExpired r = false → record_evolves r (retain_result res t r).
Proof.
  intros (_&_&_&_&Hev) Hn Hx. unfold evidence_wf in Hev. rewrite Hn in Hev.
  split_and!; try done; [|congruence..]. intros t' Ht. rewrite Ht in Hev. destruct Hev; congruence.
Qed.

Lemma expire_evolves r : record_evolves r (expire r).
Proof. split_and!; try done. intros res Hr. by right. Qed.

Lemma exec_apply_evolves c s k r :
  exec_wf s → Executions s !! k = Some r →
  ∃ r', Executions (exec_apply c s) !! k = Some r' ∧ record_evolves r r'.
Proof.
  intros Hs Hk. assert (Hsame : ∃ r', Executions s !! k = Some r' ∧ record_evolves r r') by (by exists r).
  destruct c; cbn.
  - destruct (reserveExecutionAt _ _ _ _) as [[x s']|] eqn:E; [|done].
    apply reserve_Ok in E as (_&_&[(?&?&_&_&_&_&_&->)|(rec&_&He&_&_&_&_&_&_&_&_&_&->)]); [done|].
    cbn. apply insert_evolves; [congruence|done].
  - destruct (AttachExecution _ _) as [[x s']|] eqn:E; [|done].
    apply attach_Ok in E as (_&rec&Hrec&_&_&[(_&_&_&->)|(Ha&_&_&->)]); [done|].
    cbn. apply insert_evolves; [|done]. intros cur Hcur. simplify_eq. by apply attach_evolves.
  - destruct (ReserveCancellation _ _ _) as [[x s']|] eqn:E; [|done].
    by apply cancel_Ok in E as (_&[(?&?&?&_&_&_&_&_&_&->)|(_&_&_&_&_&->)]).
  - destruct (StoreResult _ _) as [[[] s']|] eqn:E; [|done].
    apply store_Ok in E as (_&rec&Hrec&Hexp&[[_ ->]|Hnew]); [done|].
    destruct Hnew as (Hnone&_&_&_&_&_&_&->). cbn. apply insert_evolves; [|done].
    intros cur Hcur. simplify_eq. eapply retain_evolves; [by eapply xw_record|done..].
  - destruct (ReadResult op now s) as [[x b] s'] eqn:E. cbn.
    apply read_cases in E as [[-> _]|(rec&res&Hrec&Hr&Hexp&_&_&_&->)]; [done|].
    cbn. apply insert_evolves; [|done]. intros cur Hcur. simplify_eq. apply expire_evolves.
Qed.

Lemma exec_run_evolves calls s k r :
  Forall timely calls → exec_wf s → Executions s !! k = Some r →
  ∃ r', Executions (exec_run calls s) !! k = Some r' ∧ record_evolves r r'.
Proof.
  revert s r. induction calls as [|c calls IH]; intros s r Ht Hs Hk; [by exists r|].
  apply Forall_cons in Ht as [Hc Ht]. destruct (exec_apply_evolves c s k r Hs Hk) as (r1 & H1 & E1).
  destruct (IH _ r1 Ht (exec_apply_wf c s Hc Hs) H1) as (r2 & H2 & E2). exists r2.
  split; [done|by transitivity r1].
Qed.

Lemma exec_run_app c1 c2 s : exec_run (c1 ++ c2) s = exec_run c2 (exec_run c1 s).
Proof. revert s. induction c1 as [|c c1 IH]; intros s; [done|]. apply IH. Qed.

(** Idempotency records and cancellation intents are only ever added. *)
Definition ledger_grows (s s' : State) : Prop :=
  ExecutionIdempotency s ⊆ ExecutionIdempotency s' ∧ CancellationIntents s ⊆ CancellationIntents s' ∧
  CancellationReservedAt s ⊆ CancellationReservedAt s' ∧
  CancellationIdempotency s ⊆ CancellationIdempotency s'.

#[export] Instance ledger_grows_po : PreOrder ledger_grows.
Proof.
  split; [by intros s; split_and!|].
  intros a b c (?&?&?&?) (?&?&?&?). split_and!; by etransitivity.
Qed.

Lemma exec_apply_grows c s : exec_wf s → ledger_grows s (exec_apply c s).
Proof.
  intros Hs. assert (Hsame : ledger_grows s s) by done. destruct c; cbn.
  - destruct (reserveExecutionAt _ _ _ _) as [[x s']|] eqn:E; [|done].
    apply reserve_Ok in E as (_&_&[(?&?&_&_&_&_&_&->)|(rec&Hi&He&_&_&_&_&_&_&_&_&_&->)]); [done|].
    split_and!; try done. by apply insert_subseteq.
  - destruct (AttachExecution _ _) as [[x s']|] eqn:E; [|done].
    by apply attach_Ok in E as (_&rec&Hrec&_&_&[(_&_&_&->)|(Ha&_&_&->)]).
  - destruct (ReserveCancellation _ _ _) as [[x s']|] eqn:E; [|done].
    apply cancel_Ok in E as (_&[(?&?&?&_&_&_&_&_&_&->)|(Hi&_&_&Hc&_&->)]); [done|].
    split_and!; try done; apply insert_subseteq; [done| |done].
    destruct (CancellationReservedAt s !! ci_OperationID i) eqn:Et; [|done].
    apply (xw_reserved s Hs) in Et as [? ?]. congruence.
  - destruct (StoreResult _ _) as [[[] s']|] eqn:E; [|done].
    by apply store_Ok in E as (_&rec&Hrec&Hexp&[[_ ->]|(_&_&_&_&_&_&_&->)]).
  - destruct (ReadResult op now s) as [[x b] s'] eqn:E.
    by apply read_cases in E as [[-> _]|(rec&res&_&_&_&_&_&_&->)].
Qed.

Lemma exec_run_grows calls s : Forall timely calls → exec_wf s → ledger_grows s (exec_run calls s).
Proof.
  revert s. induction calls as [|c calls IH]; intros s Ht Hs; [done|].
  apply Forall_cons in Ht as [Hc Ht]. etransitivity; [by apply exec_apply_grows|].
  by apply IH, exec_apply_wf.
Qed.

(** ** Snapshots *)

Lemma import_receipt_id r :
  er_ReservedAt r ≠ 0 → receipt_wf r → import_receipt r = Ok r.
Proof.
  unfold import_receipt, receipt_wf, IsZero, Before, corrupt. intros Hz Hr.
  destruct (er_Attached r) eqn:Ea.
  - destruct Hr as [Hd Hle]. rewrite (decide_False (P := true = false ∧ _)) by (by intros [? _]).
    rewrite (decide_False (P := er_ReservedAt r = 0)) by done. cbn [mbind result_bind].
    rewrite Ea, Hd. rewrite decide_False; [done|]. cbn. intros [?|?]; [done|lia].
  - rewrite (decide_False (P := false = false ∧ _)) by (rewrite Hr; by intros [_ ?]).
    rewrite (decide_False (P := er_ReservedAt r = 0)) by done. cbn [mbind result_bind].
    rewrite Ea. by rewrite decide_False by (intros ?; done).
Qed.

(** A terminal summary agrees with the evidence it summarizes. *)
Definition summary_checked (r : ExecutionRecord) : Prop :=
  match er_Terminal r with
  | Some t => TerminalSummary_Validate t = Ok () ∧ er_ReservedAt r ≤ ts_CompletedAt t ∧
              (er_Result r = None → er_ResultExpired r = true)
  | None => er_ResultExpired r = false
  end.

Definition evidence_checked (r : ExecutionRecord) : Prop :=
  (∀ res, er_Result r = Some res →
     validateStoredResult r = Ok () ∧ er_Terminal r = Some (summary_of res) ∧ er_ResultExpired r = false) ∧
  summary_checked r.

Lemma evidence_wf_checked r : evidence_wf r → evidence_checked r.
Proof.
  unfold evidence_wf, evidence_checked, summary_checked. destruct (er_Result r) as [res|] eqn:Er.
  - intros (Hv & Ht & Hx & Hle). pose proof (validateStoredResult_valid r res Er Hv) as Hval.
    split; [by intros ? [= <-]|]. rewrite Ht.
    apply Result_Validate_times in Hval as Htimes. split_and!; [by apply summary_valid| |done].
    cbn. lia.
  - intros Hev. split; [done|]. destruct (er_Terminal r); [|done]. destruct Hev as (?&?&?). done.
Qed.

Lemma import_summary_id r :
  (∀ res, er_Result r = Some res → validateStoredResult r = Ok () ∧ er_Terminal r = Some (summary_of res)) →
  import_summary r = Ok r.
Proof.
  intros Hres. unfold import_summary, corrupt. destruct (er_Result r) as [res|] eqn:Er; [|done].
  destruct (Hres res eq_refl) as (Hv & Ht).
  pose proof (validateStoredResult_valid r res Er Hv) as Hval. rewrite Hv. cbn [mbind result_bind].
  rewrite (proj2 (NewTerminalSummary_Ok res (summary_of res))) by done. cbn [mbind result_bind].
  rewrite Ht, (summary_valid res Hval). by rewrite decide_False by (by intros [?|?]).
Qed.

Lemma import_terminal_id r : evidence_checked r → import_terminal r = Ok r.
Proof.
  unfold import_terminal, Before, corrupt. intros [Hres Hsum].
  rewrite import_summary_id by (intros res Hr; by destruct (Hres res Hr) as (?&?&_)).
  cbn [mbind result_bind]. rewrite (decide_False (P := _ ∧ is_Some _)).
  2:{ intros [Hx [res Hr]]. destruct (Hres res Hr) as (_&_&?). congruence. }
  unfold summary_checked in Hsum. destruct (er_Terminal r) as [t|] eqn:Et.
  - rewrite (decide_False (P := _ ∧ Some t = None)) by (by intros [_ ?]). rewrite Et.
    destruct Hsum as (Hv & Hle & Hx). rewrite Hv. rewrite decide_False; [done|].
    intros [?|[?|[Hn Hf]]]; [done|lia|]. specialize (Hx Hn). congruence.
  - rewrite (decide_False (P := er_ResultExpired r = true ∧ _)) by (intros [? _]; congruence).
    by rewrite Et.
Qed.

(** What loading a snapshot establishes: the invariant of runs, except that
    receipts need not be distinct and a result may start before its
    reservation. *)
Record exec_checked (s : State) : Prop := mkExecChecked {
  xk_record k r : Executions s !! k = Some r →
    k ≠ "" ∧ rq_OperationID (er_Request r) = k ∧ validPersistedRequest (er_Request r) = true ∧
    er_ReservedAt r ≠ 0 ∧ receipt_wf r ∧ evidence_checked r;
  xk_index : index_wf (execution_identity (Executions s)) (ExecutionIdempotency s);
  xk_indexed k r : Executions s !! k = Some r →
    ir_OperationID <$> ExecutionIdempotency s !! rq_IdempotencyKey (er_Request r) = Some k;
  xk_cancel k i : CancellationIntents s !! k = Some i →
    k ≠ "" ∧ ci_OperationID i = k ∧ CancellationIntent_Validate i 0 = Ok () ∧ Executions s !! k = None ∧
    targets (Executions s) i ∧
    ∃ t : Time, CancellationReservedAt s !! k = Some t ∧ t ≠ 0 ∧ t ≤ ci_Deadline i;
  xk_reserved k (t : Time) : CancellationReservedAt s !! k = Some t → is_Some (CancellationIntents s !! k);
  xk_cancel_index : index_wf (cancellation_identity (CancellationIntents s)) (CancellationIdempotency s);
  xk_cancel_indexed k i : CancellationIntents s !! k = Some i →
    ir_OperationID <$> CancellationIdempotency s !! ci_IdempotencyKey i = Some k;
}.

Lemma exec_wf_checked s : exec_wf s → exec_checked s.
Proof.
  intros [H1 H2 H3 H4 H5 H6 H7 H8]. split; try done.
  - intros k r Hk. destruct (H1 k r Hk) as (Hid & Hv & ? & ? & ?).
    destruct (validPersisted_fields _ Hv) as [Hp _]. rewrite Hid in Hp.
    split_and!; try done; [by apply identifier_nonempty|by apply evidence_wf_checked].
  - intros k i Hk. destruct (H5 k i Hk) as (Hid & Hv & ? & ? & ?).
    destruct (CancellationIntent_Validate_fields i 0 Hv) as (Hp & _). rewrite Hid in Hp.
    split_and!; try done. by apply identifier_nonempty.
Qed.

Lemma import_idempotency_Ok identity key i i' :
  import_idempotency identity key i = Ok i' ↔
  i' = i ∧ ir_Key i = key ∧ key ≠ "" ∧ ir_RequestDigest i ≠ "" ∧ ir_OperationID i ≠ "" ∧
  identity (ir_OperationID i) = Some (key, ir_RequestDigest i).
Proof.
  unfold import_idempotency, corrupt. split.
  - intros H. do 2 (let G := fresh "G" in apply guard_Ok in H as [G H]). injection H as <-. nor G.
    split_and!; try done; by apply dec_stable.
  - intros (-> & <- & ? & ? & ? & Hi). rewrite decide_False by (intros [?|[?|[?|?]]]; congruence).
    rewrite decide_False; [done|]. by intros ?.
Qed.

Lemma import_index_id identity m :
  index_wf identity m → import_map (import_idempotency identity) m = Ok m.
Proof.
  intros Hm. apply import_map_total; [|done]. intros k a Hk. exists a. split; [|done].
  apply import_idempotency_Ok. split; [done|]. by apply Hm.
Qed.

Lemma import_index_wf identity m m' :
  import_map (import_idempotency identity) m = Ok m' → m' = m ∧ index_wf identity m.
Proof.
  intros H. pose proof (import_map_Ok _ _ _ H) as Hk. split.
  - apply map_eq. intros k. specialize (Hk k). destruct (m !! k) as [a|]; [|done].
    destruct Hk as (b & [-> _]%import_idempotency_Ok & ->). done.
  - intros k i Hi. specialize (Hk k). rewrite Hi in Hk. destruct Hk as (b & Hb & _).
    by apply import_idempotency_Ok in Hb as [_ ?].
Qed.

Lemma check_indexed_all {A} (key : A → string) idem (m : gmap string A) :
  foldM (λ _ p, check_indexed key idem p) () (map_to_list m) = Ok () ↔
  ∀ k a, m !! k = Some a → ir_OperationID <$> idem !! key a = Some k.
Proof.
  assert (Hstep : ∀ p, check_indexed key idem p = Ok () ↔ ir_OperationID <$> idem !! key p.2 = Some p.1).
  { intros p. unfold check_indexed, corrupt. by case_decide. }
  rewrite foldM_checks. setoid_rewrite Hstep. split.
  - intros H k a Hk. apply (H (k, a)). by apply elem_of_map_to_list.
  - intros H [k a] Hk. apply elem_of_map_to_list in Hk. by apply H.
Qed.

Lemma import_cancellation_Ok version e reserved k i x :
  import_cancellation version e reserved k i = Ok x →
  k ≠ "" ∧ ci_OperationID i = k ∧ CancellationIntent_Validate i 0 = Ok () ∧ e !! k = None ∧
  targets e i ∧ x.1 = i ∧ x.2 ≠ 0 ∧ x.2 ≤ ci_Deadline i.
Proof.
  unfold import_cancellation, corrupt, IsZero, After. intros H.
  do 2 (let G := fresh "G" in apply guard_Ok in H as [G H]).
  destruct (e !! ci_TargetOperationID i) as [target|] eqn:Et; [|done].
  do 2 (let G := fresh "G" in apply guard_Ok in H as [G H]). injection H as <-.
  nor G. nor G1. nor G2. apply eq_None_not_Some in G0.
  assert (Hv : CancellationIntent_Validate i 0 = Ok ()).
  { destruct (CancellationIntent_Validate i 0) as [[]|]; [done|]. naive_solver. }
  cbn. split_and!; try done; try (by apply dec_stable); [|lia].
  exists target. split_and!; try done; by apply dec_stable.
Qed.

Lemma import_cancellation_id e (reserved : gmap string Time) k i (t : Time) :
  k ≠ "" → ci_OperationID i = k → CancellationIntent_Validate i 0 = Ok () → e !! k = None → targets e i →
  reserved !! k = Some t → t ≠ 0 → t ≤ ci_Deadline i →
  import_cancellation snapshotVersion e reserved k i = Ok (i, t).
Proof.
  intros Hk Hid Hv He (target & Ht & Ha & Hs & Hg) Hr Hz Hd.
  assert (get_or 0 reserved k = t) as Hget by (by apply get_or_Some).
  unfold import_cancellation, corrupt, IsZero, After. rewrite Hv, Ht, He, Hget. cbn [is_ok].
  rewrite (decide_False (P := k = "" ∨ _)) by (intros [?|[?|?]]; congruence).
  rewrite (decide_False (P := is_Some None)) by (by intros []).
  rewrite (decide_False (P := rq_AttemptID _ ≠ _ ∨ _)) by (intros [?|[?|?]]; congruence).
  rewrite (decide_False (P := snapshotVersion = 1 ∧ _)) by (by intros [? _]).
  by rewrite decide_False by (intros [?|?]; [done|lia]).
Qed.

Lemma import_executions_id s :
  exec_checked s → import_map import_execution (Executions s) = Ok (Executions s).
Proof.
  intros Hs. apply import_map_total; [|done]. intros k r Hk. exists r. split; [|done].
  destruct (xk_record s Hs k r Hk) as (Hne & Hid & Hv & Hz & Hr & He). unfold import_execution, corrupt.
  rewrite decide_False by (intros [?|[?|?]]; congruence).
  rewrite import_receipt_id by done. by apply import_terminal_id.
Qed.

Lemma exec_Import_Export s : exec_checked s → Import (Export s) = Ok s.
Proof.
  intros Hs. unfold Import, Export. cbn [ps_Version ps_Executions ps_ExecutionIdempotency
    ps_CancellationIntents ps_CancellationReservedAt ps_CancellationIdempotency default].
  rewrite (decide_False (P := _ ≠ 1 ∧ _)) by (by intros [_ ?]).
  rewrite (decide_False (P := _ ∧ Some _ = None)) by (by intros [_ ?]).
  rewrite import_executions_id by done. cbn [mbind result_bind].
  rewrite import_index_id by apply (xk_index s Hs). cbn [mbind result_bind].
  rewrite (proj2 (check_indexed_all _ _ _)) by apply (xk_indexed s Hs). cbn [mbind result_bind].
  set (pairs := map_zip_with pair (CancellationIntents s) (CancellationReservedAt s)).
  assert (Hpairs : ∀ k, pairs !! k = match CancellationIntents s !! k, CancellationReservedAt s !! k with
                                    | Some i, Some t => Some (i, t) | _, _ => None end)
    by (intros k; apply map_lookup_zip_with).
  rewrite (import_map_total _ _ pairs).
  - cbn [mbind result_bind]. assert (fst <$> pairs = CancellationIntents s) as ->.
    { apply map_eq. intros k. rewrite lookup_fmap, Hpairs.
      destruct (CancellationIntents s !! k) as [i|] eqn:Ei; [|done].
      by destruct (xk_cancel s Hs k i Ei) as (_&_&_&_&_&t&->&_). }
    assert (snd <$> pairs = CancellationReservedAt s) as ->.
    { apply map_eq. intros k. rewrite lookup_fmap, Hpairs.
      destruct (CancellationReservedAt s !! k) as [t|] eqn:Ei; [|by destruct (CancellationIntents s !! k)].
      by destruct (xk_reserved s Hs k t Ei) as [? ->]. }
    cbn [mbind result_bind]. rewrite import_index_id by apply (xk_cancel_index s Hs). cbn [mbind result_bind].
    rewrite (proj2 (check_indexed_all _ _ _)) by apply (xk_cancel_indexed s Hs). by destruct s.
  - intros k i Hi. destruct (xk_cancel s Hs k i Hi) as (?&?&?&?&?&t&Ht&?&?).
    exists (i, t). rewrite Hpairs, Hi, Ht. split; [by apply import_cancellation_id|done].
  - intros k Hi. by rewrite Hpairs, Hi.
Qed.

Lemma import_receipt_Ok r r' :
  import_receipt r = Ok r' →
  er_Request r' = er_Request r ∧ er_Result r' = er_Result r ∧ er_Terminal r' = er_Terminal r ∧
  er_ReservedAt r' ≠ 0 ∧ receipt_wf r'.
Proof.
  unfold import_receipt, corrupt. intros H.
  set (r1 := if decide _ then er_set true _ _ r else r) in H.
  assert (Hr1 : er_Request r1 = er_Request r ∧ er_Result r1 = er_Result r ∧ er_Terminal r1 = er_Terminal r)
    by (unfold r1; by destruct (decide _)).
  destruct Hr1 as (<- & <- & <-). clearbody r1.
  apply bind_Ok in H as (r2 & H2 & H). unfold IsZero, Before in *.
  assert (Hr2 : er_Request r2 = er_Request r1 ∧ er_Result r2 = er_Result r1 ∧
    er_Terminal r2 = er_Terminal r1 ∧
    (er_ReservedAt r2 ≠ 0 ∨ (er_Attached r2 = true ∧ er_ReservedAt r2 = dp_AcceptedAt (er_Dispatch r2)))).
  { clear H. case_decide; [destruct (er_Attached r1) eqn:Ea|]; simplify_eq; cbn; auto 6. }
  destruct Hr2 as (<- & <- & <- & Hz). unfold receipt_wf. destruct (er_Attached r2) eqn:Ea.
  - apply guard_Ok in H as [G [= <-]]. nor G. rewrite Ea.
    destruct (Dispatch_Validate (er_Dispatch r2)) as [[]|] eqn:Ed; [|naive_solver].
    split_and!; try done; [|lia]. destruct Hz as [?|[_ ->]]; [done|].
    unfold Dispatch_Validate, IsZero in Ed. apply guard_Ok in Ed as [Gd _]. by nor Gd.
  - apply guard_Ok in H as [G [= <-]]. apply dec_stable in G. rewrite Ea.
    destruct Hz as [?|[? _]]; [done|congruence].
Qed.

Lemma validateStoredResult_ext r r' :
  er_Request r' = er_Request r → er_Result r' = er_Result r → er_Attached r' = er_Attached r →
  validateStoredResult r' = validateStoredResult r.
Proof. unfold validateStoredResult. by intros -> -> ->. Qed.

Lemma import_summary_Ok r r' :
  import_summary r = Ok r' →
  (er_Result r = None ∧ r' = r) ∨
  ∃ res, er_Result r = Some res ∧ validateStoredResult r = Ok () ∧
    r' = er_set (er_Attached r) (er_ReservedAt r) (Some (summary_of res)) r.
Proof.
  unfold import_summary, corrupt. destruct (er_Result r) as [res|] eqn:Er; [|by intros [= <-]; left].
  intros H. right. exists res. apply bind_Ok in H as ([] & Hv & H).
  apply bind_Ok in H as (t & Ht & H). split_and!; [done|done|].
  destruct (NewTerminalSummary res) as [t'|] eqn:En; [|done]. injection Ht as <-.
  apply NewTerminalSummary_Ok in En as [_ ->].
  destruct (er_Terminal r) as [t|] eqn:Et; [|by injection H as <-].
  apply guard_Ok in H as [G [= <-]]. nor G. apply dec_stable in G. subst t.
  destruct r; cbn in *. by subst.
Qed.

Lemma import_terminal_Ok r r' :
  import_terminal r = Ok r' →
  (∃ t, r' = er_set (er_Attached r) (er_ReservedAt r) t r) ∧ evidence_checked r'.
Proof.
  unfold import_terminal, corrupt. intros H. apply bind_Ok in H as (r1 & H1 & H).
  apply import_summary_Ok in H1.
  assert (Hr1 : (∃ t, r1 = er_set (er_Attached r) (er_ReservedAt r) t r) ∧
    ∀ res, er_Result r1 = Some res → validateStoredResult r1 = Ok () ∧ er_Terminal r1 = Some (summary_of res)).
  { destruct H1 as [[Hn ->]|(res & Hr & Hv & ->)].
    - split; [exists (er_Terminal r); by destruct r|congruence].
    - split; [by eexists|]. intros res' Hres'. cbn in Hres'. simplify_eq. split; [|done].
      by rewrite (validateStoredResult_ext r). }
  destruct Hr1 as [(t1 & ->) Hres]. clear H1. apply guard_Ok in H as [Hx H]. cbv zeta in H.
  set (r2 := if decide _ then _ else _) in H.
  assert (Hr2 : (∃ t, r2 = er_set (er_Attached r) (er_ReservedAt r) t r) ∧
    (is_Some (er_Result r) → er_Terminal r2 = t1) ∧
    (er_ResultExpired r2 = true → er_Terminal r2 ≠ None)).
  { clear H. unfold r2. case_decide as Hd; cbn; (split_and!; [by eexists|..]); try done.
    - intros Hs. destruct Hx. by destruct Hd as [? _].
    - intros Hs Hn. by destruct Hd. }
  destruct Hr2 as [(t2 & Ht2) (Hkeep & Hset)]. clearbody r2. subst r2. cbn in *.
  assert (r' = er_set (er_Attached r) (er_ReservedAt r) t2 r) as ->.
  { destruct t2; [by apply guard_Ok in H as [_ [= <-]]|by injection H as <-]. }
  split; [by eexists|]. split.
  - cbn. intros res Hr. destruct (Hres res Hr) as [Hv Ht]. rewrite Hkeep, Ht by eauto.
    split_and!; [by rewrite (validateStoredResult_ext (er_set (er_Attached r) (er_ReservedAt r) t1 r))|done|].
    apply not_true_is_false. intros ?. apply Hx. eauto.
  - unfold summary_checked. cbn. unfold Before in H. destruct t2 as [t|].
    + apply guard_Ok in H as [G _]. nor G.
      destruct (TerminalSummary_Validate t) as [[]|]; [|naive_solver]. split_and!; [done|lia|].
      intros Hn. apply not_false_is_true. intros Hf. by destruct G.
    + apply not_true_is_false. intros ?. by apply Hset.
Qed.

Lemma import_execution_Ok k r r' :
  import_execution k r = Ok r' →
  k ≠ "" ∧ rq_OperationID (er_Request r') = k ∧ validPersistedRequest (er_Request r') = true ∧
  er_ReservedAt r' ≠ 0 ∧ receipt_wf r' ∧ evidence_checked r'.
Proof.
  unfold import_execution, corrupt. intros H. apply guard_Ok in H as [G H]. nor G.
  apply bind_Ok in H as (r1 & (Hrq & _ & _ & Hz & Hw)%import_receipt_Ok & H).
  apply import_terminal_Ok in H as [(t & ->) Hev]. unfold receipt_wf in *. cbn in *. rewrite Hrq.
  split_and!; try done; [by apply dec_stable|by apply not_false_is_true].
Qed.

Lemma Import_checked p s : Import p = Ok s → exec_checked s.
Proof.
  unfold Import, corrupt. intros H. apply guard_Ok in H as [_ H].
  destruct (ps_Executions p) as [e0|], (ps_ExecutionIdempotency p) as [i0|],
    (ps_CancellationIntents p) as [c0|], (ps_CancellationIdempotency p) as [x0|]; try done.
  apply guard_Ok in H as [_ H].
  apply bind_Ok in H as (e & He & H). apply bind_Ok in H as (i & [-> Hi]%import_index_wf & H).
  apply bind_Ok in H as ([] & Hall & H). pose proof (proj1 (check_indexed_all (λ r, rq_IdempotencyKey (er_Request r)) _ _) Hall) as Hind.
  apply bind_Ok in H as (c & Hc & H). cbv zeta in H.
  apply bind_Ok in H as (x & [-> Hx]%import_index_wf & H).
  apply bind_Ok in H as ([] & Hxall & [= <-]).
  pose proof (proj1 (check_indexed_all ci_IdempotencyKey _ _) Hxall) as Hxind.
  assert (Hcs : ∀ k i (t : Time), c !! k = Some (i, t) →
    k ≠ "" ∧ ci_OperationID i = k ∧ CancellationIntent_Validate i 0 = Ok () ∧ e !! k = None ∧
    targets e i ∧ t ≠ 0 ∧ t ≤ ci_Deadline i).
  { intros k i t Hk. pose proof (import_map_Ok _ _ _ Hc k) as Hf. rewrite Hk in Hf.
    destruct (c0 !! k) as [i1|]; [|done]. destruct Hf as (b & Hb & [= <-]).
    apply import_cancellation_Ok in Hb as (?&?&?&?&?&Hb&?&?). cbn in Hb. by subst i1. }
  split; cbn; try done.
  - intros k r Hk. pose proof (import_map_Ok _ _ _ He k) as Hf. rewrite Hk in Hf.
    destruct (e0 !! k) as [r0|]; [|done]. destruct Hf as (b & Hb & [= <-]). by eapply import_execution_Ok.
  - intros k i Hk. rewrite lookup_fmap_Some in Hk. destruct Hk as ([i1 t] & <- & Hk).
    destruct (Hcs k i1 t Hk) as (?&?&?&?&?&?&?). split_and!; try done.
    exists t. by rewrite lookup_fmap, Hk.
  - intros k t Hk. rewrite lookup_fmap_Some in Hk. destruct Hk as ([i1 t1] & _ & Hk).
    rewrite lookup_fmap, Hk. by eexists.
Qed.
