(* ===== verification/ExecGuarantees.v ===== *)
(** * Guarantees of the execution repository

    The properties of [provider/exec/repository/state.go] that its callers rely
    on, over runs of any length from the empty state: the invariant, exclusive
    admission, permanent evidence, retention of results, replay of
    cancellations, and snapshots. *)

From S2P Require Import Prelude ExecModel ExecState ExecInvariant ExecRepository.
From stdpp Require Import base gmap strings list fin_maps relations.
From Stdlib Require Import ZArith Lia.

Local Open Scope Z_scope.

(** ** A sample run *)

Module ExecRuns.
Definition t0 : Time := 63000000000 * Second.
Definition digest0 : string :=
  "sha256:0123456789abcdef0123456789abcdef0123456789abcdef0123456789abcdef".

Definition request : Request :=
  mkRequest "sandbox-1" "exec-1" "attempt-1" 3 1 "key-1" digest0 (t0 + 60 * Second)
    ["sh"; "-c"; "true"] "/workspace/app" (60 * Second) {["HOME" := "envref:home"]} [] "" "" ""
    true true 1024.
Definition dispatch : Dispatch := mkDispatch "ref:runtime/1" (t0 + Second).
Definition attachment : ExecutionAttachment :=
  mkExecutionAttachment "exec-1" "attempt-1" "sandbox-1" 3 1 dispatch.
Definition cancellation : CancellationIntent :=
  mkCancellationIntent "sandbox-1" "cancel-1" "attempt-2" 3 1 "key-2" digest0 (t0 + 60 * Second)
    "exec-1" "attempt-1" CancellationCallerRequested.
Definition result : Result :=
  mkResult "exec-1" "attempt-1" 3 "sandbox-1" ResultCompleted (Some 0) "" "ref:out/1" ""
    (t0 + Second) (t0 + 2 * Second) (t0 + 62 * Second) None.

Definition admitted : list exec_call := [XReserve request t0 []; XAttach attachment].
Definition cancelled : list exec_call := admitted ++ [XCancel cancellation (t0 + Second)].
Definition finished : list exec_call := cancelled ++ [XStore result].

Lemma finished_timely : Forall timely finished.
Proof. repeat (apply Forall_cons; split; [vm_compute; done|]). apply Forall_nil_2. Qed.

Example stored : (ReadResult "exec-1" (t0 + 3 * Second) (exec_run finished NewState)).1.1 = Ok result.
Proof. vm_compute. reflexivity. Qed.
End ExecRuns.

(** ** The invariant *)

(** every state the exec repository reaches is well formed: each
    record is stored under its own operation id with a valid request, has
    either a valid receipt no earlier than its reservation or none at all, and
    has either no evidence, a valid result with exactly its summary, or an
    expired result whose summary remains; no two executions share a runtime
    reference; idempotency records and records point at each other; and every
    cancellation names an existing execution of the same attempt, sandbox and
    generation, under an operation id that is not an execution's. *)
Theorem exec_repository_invariant calls :
  Forall timely calls → exec_wf (exec_run calls NewState).
Proof. intros Ht. by apply exec_run_wf, exec_wf_init. Qed.

Lemma exec_repository_invariant_witness :
  exec_wf (exec_run ExecRuns.finished NewState) ∧
  size (Executions (exec_run ExecRuns.finished NewState)) = 1%nat.
Proof.
  split; [apply exec_repository_invariant, ExecRuns.finished_timely|vm_compute; reflexivity].
Defined.

(** ** Admission *)

Lemma reserved_record rq at_ d s r s' :
  reserveExecutionAt rq at_ d s = Ok (r, s') → exec_wf s →
  ∃ i, Executions s' !! rq_OperationID rq = Some (xr_Execution r) ∧
    ExecutionIdempotency s' !! rq_IdempotencyKey rq = Some i ∧ ir_OperationID i = rq_OperationID rq ∧
    sameExecutionIdentity (er_Request (xr_Execution r)) rq.
Proof.
  intros (_ & _ & [(i & rec & Hi & Hop & Hrec & Hsame & -> & ->)|H])%reserve_Ok Hs; [by exists i|].
  destruct H as (rec & _ & _ & _ & Hrq & _ & _ & _ & _ & _ & _ & -> & ->). cbn.
  eexists. rewrite !lookup_insert_eq. by rewrite Hrq.
Qed.

Lemma sameExecutionIdentity_via a b c :
  sameExecutionIdentity a b → sameExecutionIdentity a c → sameExecutionIdentity b c.
Proof. intros (?&?&?&?&?) (?&?&?&?&?). split_and!; congruence. Qed.

(** admission is exclusive.  Once an execution is reserved, every
    later accepted reservation under its operation id or its idempotency key
    is a replay: it writes nothing, was asked with the same operation, attempt,
    sandbox, fencing token and digest, and returns the record that was reserved,
    with whatever receipt and evidence it has gained since.  So one admission is
    never dispatched as two. *)
Theorem reservation_is_exclusive pre rq at_ d r s' calls rq2 at2 d2 r2 t' :
  Forall timely pre → Forall timely calls →
  reserveExecutionAt rq at_ d (exec_run pre NewState) = Ok (r, s') →
  reserveExecutionAt rq2 at2 d2 (exec_run calls s') = Ok (r2, t') →
  rq_OperationID rq2 = rq_OperationID rq ∨ rq_IdempotencyKey rq2 = rq_IdempotencyKey rq →
  xr_Replayed r2 = true ∧ t' = exec_run calls s' ∧ sameExecutionIdentity rq rq2 ∧
  record_evolves (xr_Execution r) (xr_Execution r2).
Proof.
  intros Hpre Hcalls H1 H2 Hor. pose proof (exec_run_wf pre _ Hpre exec_wf_init) as Hs.
  pose proof (reserve_wf _ _ _ _ _ _ Hs H1) as Hs'.
  destruct (reserved_record _ _ _ _ _ _ H1 Hs) as (i & Hrec & Hi & Hop & Hsame).
  destruct (exec_run_evolves calls s' _ _ Hcalls Hs' Hrec) as (rec' & Hrec' & Hev).
  destruct (exec_run_grows calls s' Hcalls Hs') as (Hidem & _).
  pose proof (lookup_weaken _ _ _ _ Hi Hidem) as Hi'.
  apply reserve_Ok in H2 as (_ & _ & [(i2 & rec2 & Hi2 & Hop2 & Hrec2 & Hsame2 & -> & ->)|H2]).
  - assert (rq_OperationID rq2 = rq_OperationID rq) as Heq.
    { destruct Hor as [?|Hk]; [done|]. rewrite Hk in Hi2. congruence. }
    rewrite Heq in Hrec2. assert (rec2 = rec') as -> by congruence. split_and!; try done.
    destruct Hev as [Hrq _]. rewrite Hrq in Hsame2. by eapply sameExecutionIdentity_via.
  - destruct H2 as (_ & Hnone & Hnone2 & _). destruct Hor as [Heq|Heq]; rewrite Heq in *; congruence.
Qed.

Lemma reservation_is_exclusive_witness :
  reserveExecutionAt ExecRuns.request (ExecRuns.t0 + 5 * Second) [] (exec_run (tail ExecRuns.finished)
      (exec_run [XReserve ExecRuns.request ExecRuns.t0 []] NewState)) =
    Ok (mkExecutionReservation
          (mkExecutionRecord ExecRuns.request ExecRuns.t0 ExecRuns.dispatch true (Some ExecRuns.result)
             (Some (summary_of ExecRuns.result)) false) true, exec_run ExecRuns.finished NewState) ∧
  record_evolves (mkExecutionRecord ExecRuns.request ExecRuns.t0 zeroDispatch false None None false)
    (mkExecutionRecord ExecRuns.request ExecRuns.t0 ExecRuns.dispatch true (Some ExecRuns.result)
             (Some (summary_of ExecRuns.result)) false).
Proof.
  split; [vm_compute; reflexivity|].
  refine (proj2 (proj2 (proj2 (reservation_is_exclusive [] ExecRuns.request ExecRuns.t0 []
    (mkExecutionReservation
       (mkExecutionRecord ExecRuns.request ExecRuns.t0 zeroDispatch false None None false) false)
    (exec_run [XReserve ExecRuns.request ExecRuns.t0 []] NewState) (tail ExecRuns.finished)
    ExecRuns.request (ExecRuns.t0 + 5 * Second) []
    (mkExecutionReservation
       (mkExecutionRecord ExecRuns.request ExecRuns.t0 ExecRuns.dispatch true (Some ExecRuns.result)
             (Some (summary_of ExecRuns.result)) false) true)
    (exec_run ExecRuns.finished NewState) _ _ _ _ _)))).
  - apply Forall_nil_2.
  - exact (Forall_inv_tail ExecRuns.finished_timely).
  - vm_compute; reflexivity.
  - vm_compute; reflexivity.
  - left; reflexivity.
Defined.

(** ** Evidence *)

(** what is recorded about an execution is never taken back.  Over
    any later run its request and reservation time stay, an attached receipt
    stays attached with the same reference, the terminal summary never changes
    once written, and a result is either kept exactly or marked expired, for
    good. *)
Theorem evidence_is_permanent pre calls k r :
  Forall timely pre → Forall timely calls →
  Executions (exec_run pre NewState) !! k = Some r →
  ∃ r', Executions (exec_run (pre ++ calls) NewState) !! k = Some r' ∧
    er_Request r' = er_Request r ∧ er_ReservedAt r' = er_ReservedAt r ∧
    (er_Attached r = true → er_Attached r' = true ∧ er_Dispatch r' = er_Dispatch r) ∧
    (∀ t, er_Terminal r = Some t → er_Terminal r' = Some t) ∧
    (∀ res, er_Result r = Some res →
       er_Result r' = Some res ∨ (er_Result r' = None ∧ er_ResultExpired r' = true)) ∧
    (er_ResultExpired r = true → er_ResultExpired r' = true ∧ er_Result r' = None).
Proof.
  intros Hpre Hcalls Hk. pose proof (exec_run_wf pre _ Hpre exec_wf_init) as Hs.
  destruct (exec_run_evolves calls _ k r Hcalls Hs Hk) as (r' & Hk' & Hrq & Hat & Hatt & Ht & Hres & Hexp).
  exists r'. rewrite exec_run_app. split_and!; try done. intros Hx. apply Hexp; [done|].
  destruct (xw_record _ Hs _ _ Hk) as (_&_&_&_&Hev). unfold evidence_wf in Hev.
  destruct (er_Result r); [|done]. destruct Hev as (_&_&?&_). congruence.
Qed.

Lemma evidence_is_permanent_witness :
  ∃ r', Executions (exec_run (ExecRuns.finished ++ [XRead "exec-1" (ExecRuns.t0 + 62 * Second)]) NewState)
          !! "exec-1" = Some r' ∧ er_Terminal r' = Some (summary_of ExecRuns.result).
Proof.
  destruct (evidence_is_permanent ExecRuns.finished [XRead "exec-1" (ExecRuns.t0 + 62 * Second)] "exec-1"
    (mkExecutionRecord ExecRuns.request ExecRuns.t0 ExecRuns.dispatch true (Some ExecRuns.result)
       (Some (summary_of ExecRuns.result)) false)) as (r' & Hk & _ & _ & _ & Ht & _).
  - exact ExecRuns.finished_timely.
  - apply Forall_cons; split; [exact I|apply Forall_nil_2].
  - vm_compute; reflexivity.
  - exists r'. split; [exact Hk|apply Ht; reflexivity].
Defined.

(** ** Results *)

(** Reads of an operation happen before its retention ends. *)
Definition reads_before (op : string) (deadline : Time) (c : exec_call) : Prop :=
  match c with XRead op' now => op' = op → now < deadline | _ => True end.

Lemma exec_apply_keeps_result c s k r res :
  exec_wf s → Executions s !! k = Some r → er_Result r = Some res →
  reads_before k (r_RetainedUntil res) c →
  ∃ r', Executions (exec_apply c s) !! k = Some r' ∧ er_Result r' = Some res.
Proof.
  intros Hs Hk Hr Hc. destruct (exec_apply_evolves c s k r Hs Hk) as (r' & Hk' & _ & _ & _ & _ & Hres & _).
  exists r'. split; [done|]. destruct (Hres res Hr) as [?|[Hn _]]; [done|exfalso].
  assert (Hsame : Executions (exec_apply c s) !! k = Some r → False) by congruence.
  destruct c; cbn in *.
  - destruct (reserveExecutionAt _ _ _ _) as [[x s']|] eqn:E; [|done].
    apply reserve_Ok in E as (_&_&[(?&?&_&_&_&_&_&->)|(rec&_&He&_&_&_&_&_&_&_&_&_&->)]); [done|].
    apply Hsame. cbn. rewrite lookup_insert_ne; congruence.
  - destruct (AttachExecution _ _) as [[x s']|] eqn:E; [|done].
    apply attach_Ok in E as (_&rec&Hrec&_&_&[(_&_&_&->)|(Ha&_&_&->)]); [done|]. cbn in Hk'.
    ins_inv Hk'; [|congruence]. cbn in Hn. congruence.
  - destruct (ReserveCancellation _ _ _) as [[x s']|] eqn:E; [|done].
    by apply cancel_Ok in E as (_&[(?&?&?&_&_&_&_&_&_&->)|(_&_&_&_&_&->)]).
  - destruct (StoreResult _ _) as [[[] s']|] eqn:E; [|done].
    apply store_Ok in E as (_&rec&Hrec&Hexp&[[_ ->]|Hnew]); [done|].
    destruct Hnew as (Hnone&_&_&_&_&_&_&->). cbn in Hk'. ins_inv Hk'; [|congruence]. done.
  - destruct (ReadResult op now s) as [[x b] s'] eqn:E. cbn in *.
    apply read_cases in E as [[-> _]|(rec&res'&Hrec&Hr'&Hexp&Hle&_&_&->)]; [done|]. cbn in Hk'.
    ins_inv Hk'; [|congruence]. assert (rec = r) as -> by congruence. simplify_eq. specialize (Hc eq_refl). lia.
Qed.

Lemma exec_run_keeps_result calls s k r res :
  Forall timely calls → exec_wf s → Executions s !! k = Some r → er_Result r = Some res →
  Forall (reads_before k (r_RetainedUntil res)) calls →
  ∃ r', Executions (exec_run calls s) !! k = Some r' ∧ er_Result r' = Some res.
Proof.
  revert s r. induction calls as [|c calls IH]; intros s r Ht Hs Hk Hr Hc; [by exists r|].
  apply Forall_cons in Ht as [Ht1 Ht]. apply Forall_cons in Hc as [Hc1 Hc].
  destruct (exec_apply_keeps_result c s k r res Hs Hk Hr Hc1) as (r1 & Hk1 & Hr1).
  by apply (IH _ r1 Ht (exec_apply_wf c s Ht1 Hs)).
Qed.

Lemma stored_record res s s' :
  exec_wf s → StoreResult res s = Ok ((), s') →
  ∃ r, Executions s' !! r_OperationID res = Some r ∧ er_Result r = Some res.
Proof.
  intros Hs (_ & rec & Hrec & _ & [[Hr ->]|(_&_&_&_&_&_&_&->)])%store_Ok; [by exists rec|].
  cbn. rewrite lookup_insert_eq. by eexists.
Qed.

(** Reading a retained result at a given time. *)
Lemma ReadResult_retained s k r res now :
  exec_wf s → Executions s !! k = Some r → er_Result r = Some res →
  ReadResult k now s =
  if decide (now < r_RetainedUntil res) then (Ok res, false, s)
  else (Err [ErrExpired : sentinel], true, set_executions (<[k := expire r]> (Executions s)) s).
Proof.
  intros Hs Hk Hr. destruct (xw_record s Hs k r Hk) as (_&_&_&_&Hev). unfold evidence_wf in Hev.
  rewrite Hr in Hev. destruct Hev as (_&_&Hx&_). unfold ReadResult, Before. rewrite Hk, Hx, Hr.
  by repeat case_decide.
Qed.

(** a stored result is retained and then expires for good.  After
    any later run in which the result was not read past its retention, a read
    before the deadline returns exactly the stored result and writes nothing;
    a read at or after the deadline reports expiry, and from then on every
    read does, whatever its clock, while the terminal summary of the result
    stays on record. *)
Theorem result_retention pre res s' calls :
  Forall timely pre → Forall timely calls →
  StoreResult res (exec_run pre NewState) = Ok ((), s') →
  Forall (reads_before (r_OperationID res) (r_RetainedUntil res)) calls →
  let t := exec_run calls s' in
  (∀ now, now < r_RetainedUntil res → ReadResult (r_OperationID res) now t = (Ok res, false, t)) ∧
  (∀ now, r_RetainedUntil res ≤ now →
     ∃ t', ReadResult (r_OperationID res) now t = (Err [ErrExpired : sentinel], true, t') ∧
     ∀ later now', Forall timely later →
       ReadResult (r_OperationID res) now' (exec_run later t')
         = (Err [ErrExpired : sentinel], false, exec_run later t') ∧
       er_Terminal <$> Executions (exec_run later t') !! r_OperationID res = Some (Some (summary_of res))).
Proof.
  intros Hpre Hcalls Hst Hreads t. pose proof (exec_run_wf pre _ Hpre exec_wf_init) as Hs.
  pose proof (store_wf _ _ _ Hs Hst) as Hs'. destruct (stored_record _ _ _ Hs Hst) as (r0 & Hk0 & Hr0).
  destruct (exec_run_keeps_result calls s' _ r0 res Hcalls Hs' Hk0 Hr0 Hreads) as (r & Hk & Hr).
  pose proof (exec_run_wf calls _ Hcalls Hs') as Ht. fold t in Hk, Ht.
  split; intros now Hnow; pose proof (ReadResult_retained t _ r res now Ht Hk Hr) as Hread.
  - by rewrite decide_True in Hread.
  - rewrite decide_False in Hread by lia. eexists. split; [exact Hread|]. intros later now' Hlater.
    pose proof (read_wf _ _ _ _ _ _ Ht Hread) as Ht'. set (t' := set_executions _ _) in *.
    assert (Hk' : Executions t' !! r_OperationID res = Some (expire r)) by apply lookup_insert_eq.
    destruct (exec_run_evolves later t' _ _ Hlater Ht' Hk') as (r2 & Hk2 & _ & _ & _ & Hterm & _ & Hexp).
    destruct (Hexp eq_refl eq_refl) as [Hx _]. unfold ReadResult. rewrite Hk2, Hx. split; [done|].
    cbn. f_equal. apply Hterm. destruct (xw_record t Ht _ _ Hk) as (_&_&_&_&Hev).
    unfold evidence_wf in Hev. rewrite Hr in Hev. by destruct Hev as (_&?&_).
Qed.

Lemma result_retention_witness :
  ReadResult "exec-1" (ExecRuns.t0 + 61 * Second) (exec_run ExecRuns.finished NewState)
  = (Ok ExecRuns.result, false, exec_run ExecRuns.finished NewState).
Proof.
  refine (proj1 (result_retention ExecRuns.cancelled ExecRuns.result (exec_run ExecRuns.finished NewState)
    [] _ _ _ _) (ExecRuns.t0 + 61 * Second) _).
  - exact (proj1 (proj1 (Forall_app _ _ _) ExecRuns.finished_timely)).
  - apply Forall_nil_2.
  - vm_compute; reflexivity.
  - apply Forall_nil_2.
  - vm_compute; reflexivity.
Defined.

(** ** Cancellations *)

Lemma cancelled_record i now s r s' :
  exec_wf s → 0 < now → ReserveCancellation i now s = Ok (r, s') →
  ∃ x, CancellationIntents s' !! ci_OperationID i = Some (xc_Intent r) ∧
    CancellationReservedAt s' !! ci_OperationID i = Some (xc_ReservedAt r) ∧
    CancellationIdempotency s' !! ci_IdempotencyKey i = Some x ∧
    ir_OperationID x = ci_OperationID i ∧ ir_RequestDigest x = ci_RequestDigest i.
Proof.
  intros Hs Hn (_ & [(x&stored&t&Hx&Hd&Hop&Hc&Ht&->&->)|(_&_&_&_&->&->)])%cancel_Ok.
  - exists x. cbn. destruct (xw_cancel s Hs _ _ Hc) as (Hid & _). rewrite Hid in Ht. done.
  - eexists. cbn. by rewrite !lookup_insert_eq.
Qed.

(** a cancellation is recorded once.  After it has been reserved,
    every later accepted reservation under its operation id or idempotency key
    is a replay that writes nothing and returns the first intent with its first
    reservation time; lookups return the same; the operation id is never an
    execution's, and the execution it targets remains on record. *)
Theorem cancellation_recorded_once pre i now r s' calls :
  Forall timely pre → Forall timely calls → 0 < now →
  ReserveCancellation i now (exec_run pre NewState) = Ok (r, s') →
  let t := exec_run calls s' in
  (∀ i2 now2 r2 t', ReserveCancellation i2 now2 t = Ok (r2, t') →
     ci_OperationID i2 = ci_OperationID i ∨ ci_IdempotencyKey i2 = ci_IdempotencyKey i →
     r2 = mkCancellationReservation (xc_Intent r) (xc_ReservedAt r) true ∧ t' = t) ∧
  GetCancellationReservation (ci_OperationID i) t
    = Ok (mkCancellationReservation (xc_Intent r) (xc_ReservedAt r) true) ∧
  Executions t !! ci_OperationID i = None ∧ targets (Executions t) (xc_Intent r).
Proof.
  intros Hpre Hcalls Hnow Hc t. pose proof (exec_run_wf pre _ Hpre exec_wf_init) as Hs.
  pose proof (cancel_wf _ _ _ _ _ Hs Hnow Hc) as Hs'.
  destruct (cancelled_record _ _ _ _ _ Hs Hnow Hc) as (x & Hi & Hr & Hx & Hop & Hdig).
  pose proof (exec_run_wf calls _ Hcalls Hs') as Ht.
  destruct (exec_run_grows calls s' Hcalls Hs') as (_ & G1 & G2 & G3). fold t in Ht, G1, G2, G3.
  pose proof (lookup_weaken _ _ _ _ Hi G1) as Hi'. pose proof (lookup_weaken _ _ _ _ Hr G2) as Hr'.
  pose proof (lookup_weaken _ _ _ _ Hx G3) as Hx'.
  destruct (xw_cancel t Ht _ _ Hi') as (Hid & _ & Hno & Htg & t1 & Ht1 & Hz & _).
  split_and!; try done.
  - intros i2 now2 r2 t' (_ & [(x2&stored&tm&Hx2&Hd2&Hop2&Hc2&Htm&->&->)|Hfresh])%cancel_Ok Hor.
    + assert (ci_OperationID i2 = ci_OperationID i) as Heq.
      { destruct Hor as [?|Hk]; [done|]. rewrite Hk in Hx2. congruence. }
      rewrite Heq in Hc2. assert (stored = xc_Intent r) as -> by congruence.
      rewrite Hid in Htm. split; [|done]. f_equal. congruence.
    + destruct Hfresh as (Hn1 & _ & _ & Hn2 & _).
      destruct Hor as [Heq|Heq]; rewrite Heq in *; congruence.
  - unfold GetCancellationReservation, GetCancellation, IsZero. rewrite Hi'. cbn [mbind result_bind].
    rewrite Hr'. rewrite decide_False; [done|]. congruence.
Qed.

Lemma cancellation_recorded_once_witness :
  GetCancellationReservation "cancel-1" (exec_run ExecRuns.finished NewState)
  = Ok (mkCancellationReservation ExecRuns.cancellation (ExecRuns.t0 + Second) true).
Proof.
  refine (proj1 (proj2 (cancellation_recorded_once ExecRuns.admitted ExecRuns.cancellation
    (ExecRuns.t0 + Second)
    (mkCancellationReservation ExecRuns.cancellation (ExecRuns.t0 + Second) false)
    (exec_run ExecRuns.cancelled NewState) [XStore ExecRuns.result] _ _ _ _))).
  - exact (proj1 (proj1 (Forall_app _ _ _) (proj1 (proj1 (Forall_app _ _ _) ExecRuns.finished_timely)))).
  - apply Forall_cons; split; [exact I|apply Forall_nil_2].
  - vm_compute; reflexivity.
  - vm_compute; reflexivity.
Defined.

(** ** Snapshots *)

(** the state of any run loads back, unchanged, from the snapshot
    that is persisted of it. *)
Theorem exec_snapshot_roundtrip calls :
  Forall timely calls → Import (Export (exec_run calls NewState)) = Ok (exec_run calls NewState).
Proof. intros Ht. by apply exec_Import_Export, exec_wf_checked, exec_run_wf, exec_wf_init. Qed.

Lemma exec_snapshot_roundtrip_witness :
  Import (Export (exec_run ExecRuns.finished NewState)) = Ok (exec_run ExecRuns.finished NewState).
Proof. apply exec_snapshot_roundtrip, ExecRuns.finished_timely. Defined.

(** loading is a migration that settles at once.  Whatever
    snapshot loads, of version 1 or 2, with receipts, reservation times or
    summaries to be repaired, the loaded state satisfies every check of the
    loader, and its own snapshot loads back to exactly the same state. *)
Theorem exec_migration_stable p s :
  Import p = Ok s → exec_checked s ∧ Import (Export s) = Ok s.
Proof. intros H. apply Import_checked in H. split; [done|by apply exec_Import_Export]. Qed.

(** A version-1 snapshot of an expired execution: no attachment flag, no
    reservation time, no summary, no cancellation times. *)
Definition legacy_snapshot : PersistedState :=
  mkPersistedState 1
    (Some {["exec-1" := mkExecutionRecord ExecRuns.request 0 ExecRuns.dispatch false None None true]})
    (Some {["key-1" := mkIdempotencyRecord "key-1" ExecRuns.digest0 "exec-1"]})
    (Some {["cancel-1" := ExecRuns.cancellation]}) None
    (Some {["key-2" := mkIdempotencyRecord "key-2" ExecRuns.digest0 "cancel-1"]}).

Lemma exec_migration_stable_witness :
  match Import legacy_snapshot with
  | Ok s => Import (Export s) = Ok s ∧
            CancellationReservedAt s !! "cancel-1" = Some (ExecRuns.t0 + Second) ∧
            (er_Terminal <$> Executions s !! "exec-1") ≫= (λ t, ts_Status <$> t) = Some ResultOutcomeUnknown
  | Err _ => False
  end.
Proof.
  destruct (Import legacy_snapshot) as [s|e] eqn:E; [|vm_compute in E; discriminate].
  split; [exact (proj2 (exec_migration_stable legacy_snapshot s E))|].
  vm_compute in E. injection E as <-. split; vm_compute; reflexivity.
Defined.

(** Two executions that claim one runtime reference. *)
Definition shared_reference_snapshot : PersistedState :=
  let second := mkRequest "sandbox-1" "exec-2" "attempt-1" 3 1 "key-3" ExecRuns.digest0
    (ExecRuns.t0 + 60 * Second) ["sh"] "/tmp" (60 * Second) ∅ [] "" "" "" false false 0 in
  let record rq := mkExecutionRecord rq ExecRuns.t0 ExecRuns.dispatch true None None false in
  mkPersistedState 2
    (Some (<["exec-1" := record ExecRuns.request]> {["exec-2" := record second]}))
    (Some (<["key-1" := mkIdempotencyRecord "key-1" ExecRuns.digest0 "exec-1"]>
             {["key-3" := mkIdempotencyRecord "key-3" ExecRuns.digest0 "exec-2"]}))
    (Some ∅) (Some ∅) (Some ∅).

(** the loader does not check that receipts are distinct.  It accepts a
    snapshot in which two executions carry the same runtime reference, a state
    no run reaches, since attaching refuses a reference another execution has. *)
Theorem loader_accepts_shared_reference :
  ∃ s, Import shared_reference_snapshot = Ok s ∧ ¬ exec_reachable s.
Proof.
  destruct (Import shared_reference_snapshot) as [s|e] eqn:E; [|vm_compute in E; discriminate].
  exists s. split; [done|]. intros Hr. apply exec_reachable_wf in Hr.
  assert (Hne : "exec-1" ≠ "exec-2") by done. vm_compute in E. injection E as <-.
  apply Hne. eapply (xw_reference _ Hr); vm_compute; reflexivity.
Qed.
