(* ===== verification/Threads.v ===== *)
(** * Threads

    Several calls of a coordinator in flight at once, each a program over the
    same ports.  A pool is a shared state and a list of threads; a step starts
    a thread or performs one call of one of them, so runs are all
    interleavings.  A thread that is never scheduled again models a caller
    that crashed.  Each thread keeps the trace of its calls and their answers,
    newest first.

    A [rule] says which call a thread may make after a trace; [follows] checks
    a program against a rule for all plausible answers, and [pool_lawful]
    carries the check over to every interleaving. *)

From S2P Require Import Prelude Program.
From stdpp Require Import base list relations.

Inductive event (E : Type → Type) :=
  | Ev {X : Type} (e : E X) (x : X).
Arguments Ev {E X} e x.

Record thread (E : Type → Type) := mkThread {
  th_trace : list (event E);
  th_prog : prog E ();
}.
Arguments mkThread {E}.
Arguments th_trace {E}.
Arguments th_prog {E}.

(** A program whose result nobody reads. *)
Definition discard {E A} (p : prog E A) : prog E () := _ ← p; Ret ().

(** All that has been called. *)
Definition events {E} (ts : list (thread E)) : list (event E) := ts ≫= th_trace.

Section threads.
Context {E : Type → Type} {S : Type}.
Implicit Types (tr : list (event E)) (ts : list (thread E)) (s : S).

(** ** Programs and traces *)

Section rules.
Context (rule : list (event E) → ∀ X, E X → Prop) (plausible : ∀ X, E X → X → Prop).

Fixpoint follows {A} (p : prog E A) tr (Q : A → list (event E) → Prop) : Prop :=
  match p with
  | Ret a => Q a tr
  | Vis e k => rule tr _ e ∧ ∀ x, plausible _ e x → follows (k x) (Ev e x :: tr) Q
  end.

Lemma follows_mono {A} (p : prog E A) tr (Q Q' : A → list (event E) → Prop) :
  (∀ a tr', Q a tr' → Q' a tr') → follows p tr Q → follows p tr Q'.
Proof using Type.
  intros HQ. revert tr. induction p as [a|X e k IH]; intros tr; cbn; [apply HQ|].
  intros [Hr Hk]. split; [done|]. intros x Hx. by apply IH, Hk.
Qed.

Lemma follows_bind {A B} (p : prog E A) (f : A → prog E B) tr Q :
  follows p tr (λ a tr', follows (f a) tr' Q) → follows (p ≫= f) tr Q.
Proof using Type.
  revert tr. induction p as [a|X e k IH]; intros tr; cbn; [done|].
  intros [Hr Hk]. split; [done|]. intros x Hx. by apply IH, Hk.
Qed.

(** Every call was allowed when it was made. *)
Fixpoint lawful tr : Prop :=
  match tr with
  | [] => True
  | Ev e _ :: tr => rule tr _ e ∧ lawful tr
  end.
End rules.

(** What the rule said when an event was made. *)
Definition event_rule (rule : list (event E) → ∀ X, E X → Prop) tr (ev : event E) : Prop :=
  let '@Ev _ X e _ := ev in rule tr X e.

Lemma lawful_event rule tr ev :
  lawful rule tr → ev ∈ tr → ∃ tr', ev :: tr' `suffix_of` tr ∧ event_rule rule tr' ev.
Proof using Type.
  induction tr as [|[X e x] tr IH]; intros Hl Hin; [by apply not_elem_of_nil in Hin|]. destruct Hl as [Hr Hl].
  apply elem_of_cons in Hin as [->|Hin]; [by exists tr|].
  destruct (IH Hl Hin) as (tr' & Hs & He). exists tr'. split; [by apply suffix_cons_r|done].
Qed.

Lemma in_events ev ts : ev ∈ events ts ↔ ∃ th, ev ∈ th_trace th ∧ th ∈ ts.
Proof using Type. unfold events. by rewrite list_elem_of_bind. Qed.

Lemma trace_events th ts : th ∈ ts → th_trace th ⊆ events ts.
Proof using Type. intros Hth ev Hev. apply in_events. eauto. Qed.

Lemma events_call ts1 tr (p p' : prog E ()) (ev : event E) ts2 :
  events (ts1 ++ mkThread (ev :: tr) p' :: ts2) ≡ₚ ev :: events (ts1 ++ mkThread tr p :: ts2).
Proof using Type. unfold events. rewrite !bind_app. cbn. symmetry. apply Permutation_middle. Qed.

(** ** Pools *)

Section pools.
Context (respond : ∀ X, E X → S → X → S → Prop) (spawn : prog E () → Prop).

Inductive pool_step : S * list (thread E) → S * list (thread E) → Prop :=
  | pool_spawn s ts p : spawn p → pool_step (s, ts) (s, mkThread [] p :: ts)
  | pool_call s ts1 tr X (e : E X) k ts2 x s' :
      respond X e s x s' →
      pool_step (s, ts1 ++ mkThread tr (Vis e k) :: ts2)
        (s', ts1 ++ mkThread (Ev e x :: tr) (k x) :: ts2).

(** An invariant of the state that makes answers plausible. *)
Context (rule : list (event E) → ∀ X, E X → Prop) (plausible : ∀ X, E X → X → Prop) (I : S → Prop).

Lemma pool_lawful s0 s ts :
  (∀ X (e : E X) tr s x s', rule tr X e → I s → respond X e s x s' → I s' ∧ plausible X e x) →
  (∀ p, spawn p → follows rule plausible p [] (λ _ _, True)) →
  I s0 → rtc pool_step (s0, []) (s, ts) →
  I s ∧ ∀ th, th ∈ ts → lawful rule (th_trace th) ∧
                       follows rule plausible (th_prog th) (th_trace th) (λ _ _, True).
Proof using Type.
  intros Hresp Hspawn H0 Hrun.
  enough (Hall : ∀ σ, rtc pool_step (s0, []) σ → I σ.1 ∧ ∀ th, th ∈ σ.2 → lawful rule (th_trace th) ∧
    follows rule plausible (th_prog th) (th_trace th) (λ _ _, True)) by apply (Hall (s, ts) Hrun).
  clear Hrun s ts. apply rtc_ind_r; [cbn; set_solver|].
  intros _ _ _ [s ts p Hp|s ts1 tr X e k ts2 x s' Hr] [HI Hts]; cbn in *.
  - split; [done|]. intros th [->|Hth]%elem_of_cons; [|by apply Hts]. split; [done|by apply Hspawn].
  - destruct (Hts (mkThread tr (Vis e k))) as [Hl [Hrule Hk]]; [set_solver|]. cbn in *.
    destruct (Hresp X e tr s x s' Hrule HI Hr) as [HI' Hx].
    split; [done|]. intros th [Hth|[->|Hth]%elem_of_cons]%elem_of_app; [apply Hts; set_solver| |apply Hts; set_solver].
    cbn. split; [done|by apply Hk].
Qed.
End pools.

(** ** Histories

    A relation between all that has been called and the state, kept by every call
    that the rule allows. *)
Section histories.
Context (respond : ∀ X, E X → S → X → S → Prop) (spawn : prog E () → Prop).
Context (rule : list (event E) → ∀ X, E X → Prop) (plausible : ∀ X, E X → X → Prop) (I : S → Prop).
Context (H : list (event E) → S → Prop).
Context (H_perm : ∀ evs evs' s, evs ≡ₚ evs' → H evs s → H evs' s).
Context (H_step : ∀ X (e : E X) tr evs s x s', rule tr X e → tr ⊆ evs → I s → H evs s → respond X e s x s' → H (Ev e x :: evs) s').
Context (I_step : ∀ X (e : E X) tr s x s', rule tr X e → I s → respond X e s x s' → I s' ∧ plausible X e x).
Context (spawned : ∀ p, spawn p → follows rule plausible p [] (λ _ _, True)).

Lemma pool_history s0 s ts :
  I s0 → H [] s0 → rtc (pool_step respond spawn) (s0, []) (s, ts) → H (events ts) s.
Proof using H_perm H_step I_step spawned.
  intros HI H0 Hrun. enough (Hall : ∀ σ, rtc (pool_step respond spawn) (s0, []) σ → H (events σ.2) σ.1) by apply (Hall _ Hrun).
  clear Hrun s ts. apply rtc_ind_r; [done|].
  intros σ1 σ2 Hrun Hstep Hl. destruct Hstep as [s ts p Hp|s ts1 tr X e k ts2 x s' Hr]; cbn in *; [done|].
  destruct (pool_lawful respond spawn rule plausible I s0 _ _ I_step spawned HI Hrun) as [Hs Hts].
  destruct (Hts (mkThread tr (Vis e k))) as [_ [Hrule _]]; [set_solver|]. cbn in Hrule.
  eapply H_perm; [symmetry; apply (events_call ts1 tr (Vis e k) (k x) (Ev e x) ts2)|].
  eapply H_step; [done| |done|done|done]. apply (trace_events (mkThread tr (Vis e k))). set_solver.
Qed.
End histories.

(** What a rule said holds of the whole trace, when it is monotone. *)
Lemma lawful_monotone rule (P : list (event E) → Prop) tr ev :
  (∀ tr tr', tr ⊆ tr' → P tr → P tr') → (∀ tr, event_rule rule tr ev → P tr) → lawful rule tr → ev ∈ tr → P tr.
Proof using Type.
  intros Hm HP Hl Hin. destruct (lawful_event rule tr ev Hl Hin) as (tr' & [pre ->] & Hr).
  eapply Hm; [|by apply HP]. set_solver.
Qed.

(** Counting over threads. *)
Lemma events_submseteq {A} (f g : event E → option A) ts :
  (∀ th, th ∈ ts → omap f (th_trace th) ⊆+ omap g (th_trace th)) → omap f (events ts) ⊆+ omap g (events ts).
Proof using Type.
  intros Hts. induction ts as [|th ts IH]; [done|]. unfold events in *. cbn. rewrite !omap_app.
  apply submseteq_app; [apply Hts; left|]. apply IH. intros th' ?. apply Hts. by right.
Qed.

(** ** Concrete runs *)

Section interp.
Context {W : Type} (h : ∀ X, E X → W → X * W).

(** The trace of a thread run to its end, and the world it leaves. *)
Fixpoint trace_from {A} (p : prog E A) (w : W) tr : list (event E) * W :=
  match p with
  | Ret _ => (tr, w)
  | Vis e k => let '(x, w') := h _ e w in trace_from (k x) w' (Ev e x :: tr)
  end.

Context (respond : ∀ X, E X → S → X → S → Prop) (spawn : prog E () → Prop) (abs : W → S).
Context (implements : ∀ X (e : E X) w, respond X e (abs w) (h X e w).1 (abs (h X e w).2)).

(** A thread runs to its end without being interrupted. *)
Lemma pool_thread p w tr ts :
  rtc (pool_step respond spawn) (abs w, mkThread tr p :: ts)
    (abs (trace_from p w tr).2, mkThread (trace_from p w tr).1 (Ret ()) :: ts).
Proof using implements.
  revert w tr. induction p as [[]|X e k IH]; intros w tr; cbn; [constructor|].
  pose proof (implements X e w) as Hr. destruct (h X e w) as [x w']. cbn in *.
  eapply rtc_l; [|apply IH]. apply (pool_call respond spawn (abs w) [] tr X e k ts x (abs w') Hr).
Qed.

Fixpoint pool_of (ps : list (prog E ())) (w : W) ts : list (thread E) * W :=
  match ps with
  | [] => (ts, w)
  | p :: ps => let '(tr, w') := trace_from p w [] in pool_of ps w' (mkThread tr (Ret ()) :: ts)
  end.

(** Threads one after the other. *)
Lemma pool_sequence ps w ts :
  Forall spawn ps →
  rtc (pool_step respond spawn) (abs w, ts) (abs (pool_of ps w ts).2, (pool_of ps w ts).1).
Proof using implements.
  revert w ts. induction ps as [|p ps IH]; intros w ts Hps; cbn; [constructor|].
  apply Forall_cons in Hps as [Hp Hps].
  eapply rtc_l; [apply (pool_spawn _ _ _ _ p Hp)|]. etransitivity; [apply pool_thread|].
  destruct (trace_from p w []) as [tr w']. cbn. by apply IH.
Qed.
End interp.
(** ** Concrete runs with calls that wait

    A thread runs until a call is not enabled, and stays there. *)
Section waiting.
Context {W : Type} (h : ∀ X, E X → W → X * W) (enabled : ∀ X, E X → W → bool).

Fixpoint run_enabled (p : prog E ()) (w : W) tr : thread E * W :=
  match p with
  | Ret a => (mkThread tr (Ret a), w)
  | Vis e k =>
      if enabled _ e w then let '(x, w') := h _ e w in run_enabled (k x) w' (Ev e x :: tr)
      else (mkThread tr (Vis e k), w)
  end.

Fixpoint pool_enabled (ps : list (prog E ())) (w : W) ts : list (thread E) * W :=
  match ps with
  | [] => (ts, w)
  | p :: ps => let '(th, w') := run_enabled p w [] in pool_enabled ps w' (th :: ts)
  end.

Context (respond : ∀ X, E X → S → X → S → Prop) (spawn : prog E () → Prop) (abs : W → S).
Context (implements : ∀ X (e : E X) w, enabled X e w = true → respond X e (abs w) (h X e w).1 (abs (h X e w).2)).

Lemma pool_run_enabled p w tr ts :
  rtc (pool_step respond spawn) (abs w, mkThread tr p :: ts) (abs (run_enabled p w tr).2, (run_enabled p w tr).1 :: ts).
Proof using implements.
  revert w tr. induction p as [a|X e k IH]; intros w tr; cbn; [constructor|].
  destruct (enabled X e w) eqn:Ee; [|constructor]. pose proof (implements X e w Ee) as Hr. destruct (h X e w) as [x w']. cbn in *.
  eapply rtc_l; [|apply IH]. apply (pool_call respond spawn (abs w) [] tr X e k ts x (abs w') Hr).
Qed.

Lemma pool_sequence_enabled ps w ts :
  Forall spawn ps → rtc (pool_step respond spawn) (abs w, ts) (abs (pool_enabled ps w ts).2, (pool_enabled ps w ts).1).
Proof using implements.
  revert w ts. induction ps as [|p ps IH]; intros w ts Hps; cbn; [constructor|]. apply Forall_cons in Hps as [Hp Hps].
  eapply rtc_l; [apply (pool_spawn _ _ _ _ p Hp)|]. etransitivity; [apply pool_run_enabled|].
  destruct (run_enabled p w []) as [th w']. cbn. by apply IH.
Qed.
End waiting.
End threads.

(** * Programs over part of the ports

    An application that works through a coordinator has the coordinator's ports
    and some of its own.  [embed] reads a program over ports [E] as a program over
    more ports [F]; what is known about the program over [E] carries over to the
    part of a trace that concerns [E]. *)

Section embedding.
Context {E F : Type → Type} (inj : ∀ X, E X → F X).

Fixpoint embed {A} (p : prog E A) : prog F A :=
  match p with
  | Ret a => Ret a
  | Vis e k => Vis (inj _ e) (λ x, embed (k x))
  end.

(** ** Traces *)

Context (proj : event F → option (event E)).
Context (proj_inj : ∀ X (e : E X) x, proj (Ev (inj X e) x) = Some (Ev e x)).

Lemma follows_embed {A} ruleE plausibleE ruleF plausibleF (p : prog E A) tr (Q : A → list (event F) → Prop) :
  (∀ tr' X (e : E X), tr ⊆ tr' → ruleE (omap proj tr') X e → ruleF tr' X (inj X e)) →
  (∀ X (e : E X) x, plausibleF X (inj X e) x → plausibleE X e x) →
  follows ruleE plausibleE p (omap proj tr) (λ a trE, ∀ trF, tr ⊆ trF → omap proj trF = trE → Q a trF) →
  follows ruleF plausibleF (embed p) tr Q.
Proof using proj_inj.
  intros Hrule Hplausible. revert tr Hrule. induction p as [a|X e k IH]; intros tr Hrule; cbn; [intros H; by apply H|].
  intros [Hr Hk]. split; [by apply Hrule|]. intros x Hx. apply IH; [intros; apply Hrule; set_solver|]. cbn. rewrite proj_inj.
  eapply follows_mono; [|apply Hk, Hplausible, Hx]. intros a trE HQ trF Hsub. apply HQ. set_solver.
Qed.

(** ** Runs *)

Context {C : Type} (respondE : ∀ X, E X → C → X → C → Prop) (respondF : ∀ X, F X → C → X → C → Prop).
Context (interfere : C → C → Prop).
Context (respond_inj : ∀ X (e : E X) s x s', respondF X (inj X e) s x s' ↔ respondE X e s x s').

Lemma exec_embed {A} (p : prog E A) s o s' :
  exec respondF interfere (embed p) s o s' ↔ exec respondE interfere p s o s'.
Proof using respond_inj.
  revert s. induction p as [a|X e k IH]; intros s; cbn; [done|]. setoid_rewrite respond_inj. by setoid_rewrite IH.
Qed.

Lemma safe_embed {A} I (p : prog E A) Q s :
  safe respondE interfere I p Q s → safe respondF interfere I (embed p) Q s.
Proof using respond_inj.
  revert s. induction p as [a|X e k IH]; intros s; cbn; [done|]. intros H s0 x s1 Hi Hr%respond_inj.
  destruct (H s0 x s1 Hi Hr) as [? ?]. auto.
Qed.
End embedding.

(** Two rules at once. *)
Lemma follows_and {E : Type → Type} {A} (R1 R2 : list (event E) → ∀ X, E X → Prop) P (p : prog E A) tr Q1 Q2 :
  follows R1 P p tr Q1 → follows R2 P p tr Q2 →
  follows (λ tr X e, R1 tr X e ∧ R2 tr X e) P p tr (λ a tr', Q1 a tr' ∧ Q2 a tr').
Proof. revert tr. induction p as [a|X e k IH]; intros tr; cbn; [done|]. intros [? ?] [? ?]. split; auto. Qed.

Lemma follows_weaken {E : Type → Type} {A} (R1 R2 : list (event E) → ∀ X, E X → Prop) P (p : prog E A) tr Q :
  (∀ tr X e, R1 tr X e → R2 tr X e) → follows R1 P p tr Q → follows R2 P p tr Q.
Proof. intros HR. revert tr. induction p as [a|X e k IH]; intros tr; cbn; [done|]. intros [? ?]. split; auto. Qed.
