(* ===== verification/LifecycleApplication.v ===== *)
(** * The lifecycle application: [provider/lifecycle/application]

    The application runs the coordinator from many goroutines at once: the
    callers of its methods, a worker per accepted operation, and a worker that
    sweeps pending operations and expired leases on every tick.  They share the
    coordinator's lock, which [ReconcilePending] takes anew for every operation,
    and the registry of workers under [workerMu] with its wait group.

    The coordinator's guarantees are about histories: calls one after the other,
    among reservations.  Here it is shown that every interleaving of the
    application is one of these, and that closing it waits for its workers. *)

From S2P Require Import Prelude Program Threads LifecycleModel LifecycleTransition LifecycleState LifecycleRepository LifecyclePorts LifecycleMemory LifecycleCoordinator LifecycleDispatch LifecycleGuarantees.
From stdpp Require Import base gmap strings list fin_maps relations.
From Stdlib Require Import ZArith Lia.

Local Open Scope Z_scope.

Definition ErrInvalidApplication : sentinel := SNamed "lifecycle/application" "ErrInvalidApplication".
Definition leaseSweepInterval : Z := Second.

(** ** Ports *)

(** The calls of the coordinator and what the application has of its own.  [ATick]
    is the [select] of the lease worker: a tick, or the end of its context. *)
Inductive aeff : Type → Type :=
  | ALife {X} (e : eff X) : aeff X
  | ALock : aeff ()
  | AUnlock : aeff ()
  | AClosed : aeff bool
  | ASchedule (id : string) : aeff ()
  | AWorkerBegin (id : string) : aeff ()
  | AWorkerDone (id : string) : aeff ()
  | ALeaseBegin : aeff ()
  | ATick : aeff bool
  | ALeaseDone : aeff ()
  | AClose : aeff ()
  | AWait : aeff ().

Abbreviation aprog := (Program.prog aeff).

(** ** The workers *)

Inductive LeaseState := LeasePending | LeaseRunning | LeaseEnded.

(** [wk_workers] is the map of workers; [wk_pending] are goroutines that were
    started and have not run yet.  The count of the wait group is the size of
    [wk_workers] and one for the lease worker. *)
Record Workers := mkWorkers { wk_workers : gset string; wk_pending : gset string; wk_closed : bool; wk_lease : LeaseState }.

Definition NewWorkers : Workers := mkWorkers ∅ ∅ false LeasePending.

Definition schedule_worker (id : string) (w : Workers) : Workers :=
  if wk_closed w then w else
  if decide (id ∈ wk_workers w) then w else
  mkWorkers ({[id]} ∪ wk_workers w) ({[id]} ∪ wk_pending w) (wk_closed w) (wk_lease w).
Definition begin_worker (id : string) (w : Workers) : Workers :=
  mkWorkers (wk_workers w) (wk_pending w ∖ {[id]}) (wk_closed w) (wk_lease w).
Definition finish_worker (id : string) (w : Workers) : Workers :=
  mkWorkers (wk_workers w ∖ {[id]}) (wk_pending w) (wk_closed w) (wk_lease w).
Definition set_lease (l : LeaseState) (w : Workers) : Workers := mkWorkers (wk_workers w) (wk_pending w) (wk_closed w) l.
Definition close_workers (w : Workers) : Workers := mkWorkers (wk_workers w) (wk_pending w) true (wk_lease w).

Record Shared := mkShared { sh_cfg : cfg; sh_locked : bool; sh_workers : Workers }.

Definition NewShared : Shared := mkShared (NewState, []) false NewWorkers.
Definition set_workers (w : Workers) (σ : Shared) : Shared := mkShared (sh_cfg σ) (sh_locked σ) w.
Definition set_locked (b : bool) (σ : Shared) : Shared := mkShared (sh_cfg σ) b (sh_workers σ).

Definition arespond {X} (e : aeff X) : Shared → X → Shared → Prop :=
  match e in aeff X return Shared → X → Shared → Prop with
  | ALife e => λ σ x σ', respond e (sh_cfg σ) x (sh_cfg σ') ∧ sh_locked σ' = sh_locked σ ∧ sh_workers σ' = sh_workers σ
  | ALock => λ σ _ σ', sh_locked σ = false ∧ σ' = set_locked true σ
  | AUnlock => λ σ _ σ', σ' = set_locked false σ
  | AClosed => λ σ x σ', x = wk_closed (sh_workers σ) ∧ σ' = σ
  | ASchedule id => λ σ _ σ', σ' = set_workers (schedule_worker id (sh_workers σ)) σ
  | AWorkerBegin id => λ σ _ σ', id ∈ wk_pending (sh_workers σ) ∧ σ' = set_workers (begin_worker id (sh_workers σ)) σ
  | AWorkerDone id => λ σ _ σ', σ' = set_workers (finish_worker id (sh_workers σ)) σ
  | ALeaseBegin => λ σ _ σ', wk_lease (sh_workers σ) = LeasePending ∧ σ' = set_workers (set_lease LeaseRunning (sh_workers σ)) σ
  | ATick => λ σ x σ', (x = false → wk_closed (sh_workers σ) = true) ∧ σ' = σ
  | ALeaseDone => λ σ _ σ', σ' = set_workers (set_lease LeaseEnded (sh_workers σ)) σ
  | AClose => λ σ _ σ', σ' = set_workers (close_workers (sh_workers σ)) σ
  | AWait => λ σ _ σ', wk_workers (sh_workers σ) = ∅ ∧ wk_lease (sh_workers σ) = LeaseEnded ∧ σ' = σ
  end.

(** ** The application *)

(** Which of its parts an application has. *)
Record Application := mkApplication { la_coordinator : bool; la_workerContext : bool; la_cancelWorkers : bool }.

(** The goroutine that [New] starts is [lease_worker]. *)
Definition New (repo driver clock : bool) : result Application :=
  if decide (repo = false ∨ driver = false ∨ clock = false) then Err [ErrInvalidApplication] else Ok (mkApplication true true true).

(** [context.WithCancel(context.Background())] *)
Definition workerContext : Context := CtxBackground.

Section application.
Context (sha256 : string → string) (format_time : Time → string) (caps : DriverCaps).

Abbreviation life := (embed (λ X, @ALife X)).

(** The coordinator's methods that take its lock. *)
Definition locked {A} (p : prog A) : aprog A := _ ← call ALock; r ← life p; _ ← call AUnlock; Ret r.

Definition locked_ReconcileOperation (ctx : Context) (operationID : string) : aprog (outcome Result) :=
  locked (reconcileOperation sha256 caps ctx operationID).

Definition if_live {A} `{!Zero A} (ctx : Context) (k : aprog (outcome A)) : aprog (outcome A) :=
  err ← life (contextError ctx); match err with Some e => fail e | None => k end.

Definition locked_ReconcilePending (ctx : Context) : aprog (outcome (list Result)) :=
  if_live ctx (orelse (call (ALife (EListOperations ctx))) fail (λ operations,
    reconcile_each (λ id, call (ALife (EGetSandbox ctx id))) (locked_ReconcileOperation ctx) operations [])).

Definition locked_ProcessExpiredLeases (ctx : Context) : aprog (outcome (list Result)) :=
  if_live ctx (locked (sweep_leases sha256 format_time caps ctx)).

Definition ready (a : Application) (ctx : Context) : aprog (option goerr) :=
  if negb (la_coordinator a && la_workerContext a && la_cancelWorkers a) then Ret (Some [ErrInvalidApplication]) else
  match ctx with
  | CtxNil => Ret (Some [Canceled : sentinel])
  | _ =>
      err ← call (ALife (ECtxErr ctx));
      match err with
      | Some e => Ret (Some e)
      | None => closed ← call AClosed; Ret (if (closed : bool) then Some [ErrInvalidApplication] else None)
      end
  end.

Definition if_ready {A} `{!Zero A} (a : Application) (ctx : Context) (k : aprog (outcome A)) : aprog (outcome A) :=
  err ← ready a ctx; match err with Some e => fail e | None => k end.

Definition Recover (a : Application) (ctx : Context) : aprog (option goerr) :=
  err ← ready a ctx;
  match err with
  | Some e => Ret (Some e)
  | None =>
      pending ← locked_ReconcilePending ctx;
      match pending.2 with
      | Some e => Ret (Some e)
      | None => expired ← locked_ProcessExpiredLeases ctx; Ret expired.2
      end
  end.

Definition application_ProcessExpiredLeases (a : Application) (ctx : Context) : aprog (outcome (list Result)) :=
  if_ready a ctx (locked_ProcessExpiredLeases ctx).

Definition schedule (operationID : string) : aprog () := call (ASchedule operationID).

(** What the four methods that accept an operation do with it. *)
Definition accepting {A} `{!Zero A} (a : Application) (ctx : Context) (operation : A → Operation) (accept : prog (outcome A))
    : aprog (outcome A) :=
  if_ready a ctx (
  r ← life accept;
  match r with
  | (_, Some err) => fail err
  | (result, None) =>
      _ ← (if decide (op_State (operation result) = OperationAccepted) then schedule (op_ID (operation result)) else Ret ());
      done_with result
  end).

Definition application_AcceptCreate a ctx request := accepting a ctx cres_Operation (AcceptCreate ctx request).
Definition application_AcceptDesiredState a ctx sandboxID request :=
  accepting a ctx mres_Operation (AcceptDesiredState sha256 ctx sandboxID request).
Definition application_AcceptLease a ctx sandboxID request maxLeaseSeconds :=
  accepting a ctx mres_Operation (AcceptLease sha256 ctx sandboxID request maxLeaseSeconds).
Definition application_AcceptTerminate a ctx sandboxID request :=
  accepting a ctx mres_Operation (AcceptTerminate sha256 ctx sandboxID request).
Definition application_ReadEvents a ctx sandboxID after := if_ready a ctx (life (coordinator_ReadEvents ctx sandboxID after)).
Definition application_GetSandbox a ctx id := if_ready a ctx (life (coordinator_GetSandbox ctx id)).
Definition application_GetOperation a ctx id := if_ready a ctx (life (coordinator_GetOperation ctx id)).

Definition Close : aprog () := _ ← call AClose; call AWait.

(** The goroutine of [schedule]. *)
Definition worker (operationID : string) : aprog () :=
  _ ← call (AWorkerBegin operationID);
  _ ← locked_ReconcileOperation workerContext operationID;
  call (AWorkerDone operationID).

(** The goroutine of [startLeaseWorker], for up to [n] rounds of its loop; a run
    in which no more rounds are taken is one in which it is not scheduled. *)
Fixpoint lease_rounds (n : nat) : aprog () :=
  match n with
  | O => Ret ()
  | S n =>
      tick ← call ATick;
      if (tick : bool) then
        _ ← locked_ReconcilePending workerContext;
        _ ← locked_ProcessExpiredLeases workerContext;
        lease_rounds n
      else call ALeaseDone
  end.
Definition lease_worker (n : nat) : aprog () := _ ← call ALeaseBegin; lease_rounds n.

(** ** Runs *)

Inductive app_call :=
  | AppRecover (ctx : Context)
  | AppProcessExpiredLeases (ctx : Context)
  | AppAcceptCreate (ctx : Context) (request : CreateRequest)
  | AppAcceptDesiredState (ctx : Context) (id : string) (request : DesiredStateRequest)
  | AppAcceptLease (ctx : Context) (id : string) (request : LeaseRequest) (maxLeaseSeconds : Z)
  | AppAcceptTerminate (ctx : Context) (id : string) (request : TerminateRequest)
  | AppReadEvents (ctx : Context) (id : string) (after : Z)
  | AppGetSandbox (ctx : Context) (id : string)
  | AppGetOperation (ctx : Context) (id : string)
  | AppClose
  | AppWorker (id : string)
  | AppLeaseWorker (n : nat).

Definition app_prog (a : Application) (c : app_call) : aprog () :=
  match c with
  | AppRecover ctx => discard (Recover a ctx)
  | AppProcessExpiredLeases ctx => discard (application_ProcessExpiredLeases a ctx)
  | AppAcceptCreate ctx rq => discard (application_AcceptCreate a ctx rq)
  | AppAcceptDesiredState ctx id rq => discard (application_AcceptDesiredState a ctx id rq)
  | AppAcceptLease ctx id rq m => discard (application_AcceptLease a ctx id rq m)
  | AppAcceptTerminate ctx id rq => discard (application_AcceptTerminate a ctx id rq)
  | AppReadEvents ctx id after => discard (application_ReadEvents a ctx id after)
  | AppGetSandbox ctx id => discard (application_GetSandbox a ctx id)
  | AppGetOperation ctx id => discard (application_GetOperation a ctx id)
  | AppClose => Close
  | AppWorker id => worker id
  | AppLeaseWorker n => lease_worker n
  end.

Definition app_spawn (p : aprog ()) : Prop := ∃ a c, p = app_prog a c.

Definition app_run (σ : Shared) (ts : list (thread aeff)) : Prop :=
  rtc (pool_step (@arespond) app_spawn) (NewShared, []) (σ, ts).
End application.

(** ** Interleavings are histories *)

Section refinement.
Context (sha256 : string → string) (format_time : Time → string) (caps : DriverCaps).

Abbreviation history := (history sha256 format_time caps).
Abbreviation app_prog := (app_prog sha256 format_time caps).
Abbreviation app_spawn := (app_spawn sha256 format_time caps).
Abbreviation app_run := (app_run sha256 format_time caps).

(** Programs that extend histories, wherever they stop. *)
Definition extends (q : prog ()) (σ : cfg) : Prop := ∀ o σ', exec q σ o σ' → history σ'.
Definition keeps_history (q : prog ()) : Prop := ∀ σ, history σ → extends q σ.

(** Calls that the callers of the coordinator make without its lock. *)
Definition harmless {X} (e : eff X) : Prop := ∀ σ x σ', respond e σ x σ' → σ' = σ ∨ interfere σ σ'.

Lemma history_more σ σ' : history σ → σ' = σ ∨ interfere σ σ' → history σ'.
Proof. intros H [->|Hi]; [done|]. unfold LifecycleGuarantees.history in *. eapply rtc_r; [done|by left]. Qed.

Lemma extends_history q σ : extends q σ → history σ.
Proof. intros H. apply (H None). destruct q; cbn; auto. Qed.

Lemma extends_call {X} (e : eff X) k σ x σ' : extends (Vis e k) σ → respond e σ x σ' → extends (k x) σ'.
Proof. intros H Hr o σ2 Hx. apply (H o). right. exists σ, x, σ'. split; [constructor|done]. Qed.

Lemma extends_among q σ σ' : extends q σ → σ' = σ ∨ interfere σ σ' → extends q σ'.
Proof.
  intros H [->|Hi]; [done|]. pose proof (history_more _ _ (extends_history q σ H) (or_intror Hi)) as Hh. intros o σ2 Hx.
  destruct q as [[]|X e k]; [by destruct Hx as [-> _]|]. destruct Hx as [[-> _]|(σ0 & x & σ1 & Hr & Hrest)]; [done|].
  apply (H o). right. exists σ0, x, σ1. split; [by eapply rtc_l|done].
Qed.

Lemma harmless_read {X} (r : State → result X) (e : eff (result X)) :
  (∀ σ x σ', respond e σ x σ' → answers_read (r σ.1) σ.1 x σ'.1 ∧ σ'.2 = σ.2) → harmless e.
Proof. intros He [s l] x [s' l'] Hr. destruct (He _ _ _ Hr) as [[? _] ?]. cbn in *. left. congruence. Qed.

Lemma harmless_reserve {X} (f : State → result (X * State)) (c : repo_call) (e : eff (result X)) :
  (∀ σ x σ', respond e σ x σ' → answers_write f σ.1 x σ'.1 ∧ σ'.2 = σ.2) → is_reserve c →
  (∀ s v s', f s = Ok (v, s') → repo_exec c s = Ok s') → harmless e.
Proof.
  intros He Hc Hf [s l] x [s' l'] Hr. destruct (He _ _ _ Hr) as [Ha ?]. cbn in *. subst l'. unfold answers_write in Ha.
  destruct (f s) as [[v t]|] eqn:Ef; [|left; by destruct Ha as [-> _]].
  assert (s' = s ∨ s' = t) as [-> | ->] by naive_solver; [by left|]. right. split; [|done]. exists c. split; [done|]. by eapply Hf.
Qed.

(** *** What a thread is doing *)

Inductive role := Worker (id : string) | LeaseWorker.

(** The rest of the locked call that the thread is in, the worker it is, and
    whether it has closed the application. *)
Record ghost := mkGhost { gh_inside : option (prog ()); gh_role : option role; gh_closing : bool }.

Definition role_after {X} (e : aeff X) (r : option role) : option role :=
  match e with
  | AWorkerBegin id => Some (Worker id)
  | ALeaseBegin => Some LeaseWorker
  | AWorkerDone _ | ALeaseDone => None
  | _ => r
  end.

(** The first and the last call of a worker, and the order of closing. *)
Definition role_before {X} (e : aeff X) (g : ghost) : Prop :=
  match e with
  | AWorkerBegin _ | ALeaseBegin => gh_role g = None
  | AWorkerDone id => gh_role g = Some (Worker id)
  | ALeaseDone => gh_role g = Some LeaseWorker
  | AWait => gh_closing g = true
  | _ => True
  end.

Definition closing_after {X} (e : aeff X) (c : bool) : bool := match e with AClose => true | _ => c end.

Definition ghost_after {X} (e : aeff X) (inside : option (prog ())) (g : ghost) : ghost :=
  mkGhost inside (role_after e (gh_role g)) (closing_after e (gh_closing g)).

Definition step_ok {X} (e : aeff X) (g : ghost) (rec : ghost → X → Prop) : Prop :=
  role_before e g ∧
  match e in aeff X return (option (prog ()) → X → Prop) → Prop with
  | ALife e => λ next,
      match gh_inside g with
      | None => harmless e ∧ ∀ x, next None x
      | Some q => ∃ k, q = Vis e k ∧ ∀ x, next (Some (k x)) x
      end
  | ALock => λ next, gh_inside g = None ∧ ∃ q, keeps_history q ∧ next (Some q) ()
  | AUnlock => λ next, gh_inside g = Some (Ret ()) ∧ next None ()
  | _ => λ next, gh_inside g = None ∧ ∀ x, next None x
  end (λ inside x, rec (ghost_after e inside g) x).

Fixpoint well {A} (g : ghost) (p : aprog A) (Q : ghost → Prop) : Prop :=
  match p with
  | Ret _ => Q g
  | Vis e k => step_ok e g (λ g' x, well g' (k x) Q)
  end.

Lemma step_ok_mono {X} (e : aeff X) g (R R' : ghost → X → Prop) : (∀ g' x, R g' x → R' g' x) → step_ok e g R → step_ok e g R'.
Proof.
  intros HR [Hb He]. split; [done|]. revert He. destruct e; try (intros [? ?]; split; auto; fail).
  - destruct (gh_inside g); [intros (k & ? & ?)|intros [? ?]]; eauto.
  - intros (? & q & ? & ?). eauto.
Qed.

Lemma well_mono {A} g (p : aprog A) (Q Q' : ghost → Prop) : (∀ g', Q g' → Q' g') → well g p Q → well g p Q'.
Proof.
  intros HQ. revert g. induction p as [a|X e k IH]; intros g; cbn; [apply HQ|]. apply step_ok_mono. intros g' x. apply IH.
Qed.

Lemma well_bind {A B} g (p : aprog A) (f : A → aprog B) R Q :
  well g p R → (∀ g' a, R g' → well g' (f a) Q) → well g (p ≫= f) Q.
Proof.
  intros Hp Hf. revert g Hp. induction p as [a|X e k IH]; intros g Hp; cbn; [by apply Hf|].
  eapply step_ok_mono; [|exact Hp]. intros g' x. apply IH.
Qed.

(** Outside of the lock, in the same role. *)
Definition outside (r : option role) (c : bool) (g : ghost) : Prop := g = mkGhost None r c.

Lemma well_locked {A} r c (p : prog A) : keeps_history (ignore p) → well (mkGhost None r c) (locked p) (outside r c).
Proof.
  intros Hp. unfold locked. cbn. split; [done|]. split; [done|]. exists (ignore p). split; [done|]. clear Hp. unfold ghost_after, ignore. cbn.
  induction p as [a|X e k IH]; [done|]. cbn. split; [done|]. eexists. split; [done|]. apply IH.
Qed.

(** Calls of the coordinator without the lock. *)
Fixpoint harmless_prog {A} (p : prog A) : Prop :=
  match p with Ret _ => True | Vis e k => harmless e ∧ ∀ x, harmless_prog (k x) end.

Lemma well_life {A} r c (p : prog A) : harmless_prog p → well (mkGhost None r c) (embed (λ X, @ALife X) p) (outside r c).
Proof. induction p as [a|X e k IH]; [done|]. intros [? Hk]. split; [done|]. split; [done|]. intros x. by apply IH. Qed.

Lemma harmless_bind {A B} (p : prog A) (f : A → prog B) : harmless_prog p → (∀ a, harmless_prog (f a)) → harmless_prog (p ≫= f).
Proof. intros Hp Hf. induction p as [a|X e k IH]; cbn; [done|]. destruct Hp. auto. Qed.

(** *** The methods *)

Lemma harmless_call {A} (e : eff A) : harmless e → harmless_prog (call e).
Proof. done. Qed.

Lemma harmless_GetSandbox ctx id : harmless (EGetSandbox ctx id).
Proof. by apply (harmless_read (GetSandbox id)). Qed.
Lemma harmless_GetOperation ctx id : harmless (EGetOperation ctx id).
Proof. by apply (harmless_read (GetOperation id)). Qed.
Lemma harmless_ListOperations ctx : harmless (EListOperations ctx).
Proof. by apply (harmless_read (λ s, Ok (ListOperations s))). Qed.
Lemma harmless_ReadEvents ctx id after limit : harmless (EReadEvents ctx id after limit).
Proof. by apply (harmless_read (ReadEvents id after limit)). Qed.
Lemma harmless_Now : harmless ENow.
Proof. intros σ x σ' ->. by left. Qed.
Lemma harmless_CtxErr ctx : harmless (ECtxErr ctx).
Proof. intros σ x σ' ->. by left. Qed.
Lemma harmless_ReserveCreate ctx key digest sb op : harmless (EReserveCreate ctx key digest sb op).
Proof. apply (harmless_reserve (ReserveCreate key digest sb op) (CallReserveCreate key digest sb op)); [done|done|]. intros s v s' H. cbn. by rewrite H. Qed.
Lemma harmless_ReserveMutation ctx key digest g sb op ev : harmless (EReserveMutation ctx key digest g sb op ev).
Proof.
  apply (harmless_reserve (ReserveMutation key digest g sb op ev) (CallReserveMutation key digest g sb op ev)); [done|done|].
  intros s v s' H. cbn. by rewrite H.
Qed.
Create HintDb harmless.
#[local] Hint Resolve harmless_GetSandbox harmless_GetOperation harmless_ListOperations harmless_ReadEvents harmless_Now harmless_CtxErr
  harmless_ReserveCreate harmless_ReserveMutation : harmless.

Lemma harmless_orelse {X B} (e : eff (result X)) (z : goerr → prog B) (k : X → prog B) :
  harmless e → (∀ err, harmless_prog (z err)) → (∀ x, harmless_prog (k x)) → harmless_prog (orelse (call e) z k).
Proof. intros He Hz Hk. cbn. split; [done|]. intros [x|err]; [apply Hk|apply Hz]. Qed.

Lemma harmless_contextError ctx : harmless_prog (contextError ctx).
Proof. destruct ctx; cbn; [done|..]; split; auto with harmless. Qed.

Lemma harmless_with_context {A} `{!Zero A} ctx (k : prog (outcome A)) : harmless_prog k → harmless_prog (with_context ctx k).
Proof. intros Hk. apply harmless_bind; [apply harmless_contextError|]. by intros [e|]. Qed.

Lemma harmless_pass {X} `{!Zero X} (e : eff (result X)) : harmless e → harmless_prog (pass (call e)).
Proof. intros He. by apply harmless_orelse. Qed.

Lemma harmless_AcceptCreate ctx request : harmless_prog (AcceptCreate ctx request).
Proof.
  apply harmless_with_context. cbn [mbind prog_bind prog_bind_def call harmless_prog]. split; [auto with harmless|]. intros now.
  unfold orelse. cbn [mbind prog_bind prog_bind_def]. destruct (StartCreate request now) as [so|e]; [|done]. apply harmless_pass. auto with harmless.
Qed.

Lemma harmless_accept_mutation ctx id request kind start : harmless_prog (accept_mutation sha256 ctx id request kind start).
Proof.
  apply harmless_with_context. apply harmless_bind.
  - apply harmless_orelse; [auto with harmless|intros err; by destruct (errors_is _ _)|]. intros op. case_decide; [done|].
    by apply harmless_orelse; [auto with harmless|..].
  - intros [[replay ok] err]. destruct (ok || _); [done|]. cbn [mbind prog_bind prog_bind_def call harmless_prog].
    split; [auto with harmless|]. intros now. apply harmless_orelse; [auto with harmless|done|]. intros sandbox.
    unfold orelse. cbn [mbind prog_bind prog_bind_def]. destruct (start sandbox now) as [uo|e]; [|done]. apply harmless_pass. auto with harmless.
Qed.

(** Locked calls extend histories. *)
Lemma reconcile_keeps ctx id : keeps_history (ignore (reconcileOperation sha256 caps ctx id)).
Proof.
  intros σ Hh o σ' Hx. unfold LifecycleGuarantees.history in *. eapply rtc_r; [done|]. right. by exists (DoReconcileOperation ctx id), o.
Qed.

Lemma sweep_keeps ctx : ctx ≠ CtxNil → keeps_history (ignore (sweep_leases sha256 format_time caps ctx)).
Proof.
  intros Hc σ Hh o σ' Hx. unfold LifecycleGuarantees.history in *. eapply rtc_r; [done|]. right. exists (DoProcessExpiredLeases ctx), o.
  assert (∃ X (e : eff X) k x, call_prog sha256 format_time caps (DoProcessExpiredLeases ctx) = Vis e k ∧
    k x = ignore (sweep_leases sha256 format_time caps ctx) ∧ respond e σ x σ) as (X & e & k & x & -> & Hk & Hr).
  { exists (option goerr), (ECtxErr ctx), (λ err, (match err with Some e => fail e | None => sweep_leases sha256 format_time caps ctx end)
      ≫= λ _, Ret ()), None. by destruct ctx. }
  right. exists σ, x, σ. rewrite Hk. split_and!; [constructor|done|done].
Qed.

Section threads.
Context (r : option role) (c : bool).
Abbreviation here := (mkGhost None r c).
Abbreviation well_here p := (well here p (outside r c)).

Lemma well_then {A B} (p : aprog A) (f : A → aprog B) : well_here p → (∀ a, well_here (f a)) → well_here (p ≫= f).
Proof. intros Hp Hf. eapply well_bind; [exact Hp|]. intros g a ->. apply Hf. Qed.

Lemma well_read {X} (e : eff X) : harmless e → well_here (call (ALife e)).
Proof. intros He. split; [done|]. by split. Qed.

Lemma well_reconcile ctx id : well_here (locked_ReconcileOperation sha256 caps ctx id).
Proof. apply well_locked, reconcile_keeps. Qed.

Lemma well_live {A} `{!Zero A} ctx (k : aprog (outcome A)) : (ctx ≠ CtxNil → well_here k) → well_here (if_live ctx k).
Proof.
  intros Hk. assert (ctx = CtxNil ∨ ctx ≠ CtxNil) as [->|Hc] by (destruct ctx; auto); [done|].
  apply well_then; [apply well_life, harmless_contextError|]. intros [e|]; [done|auto].
Qed.

Lemma well_pending ctx : well_here (locked_ReconcilePending sha256 caps ctx).
Proof.
  apply well_live. intros _. apply well_then; [apply well_read; auto with harmless|]. intros [ops|e]; [|done].
  generalize (@nil Result). induction ops as [|op ops IH]; intros results; [done|]. cbn [reconcile_each].
  assert (Hadv : well_here (r0 ← locked_ReconcileOperation sha256 caps ctx (op_ID op);
    match r0 with
    | (result, Some err) => Ret (collect results result, Some err)
    | (result, None) => reconcile_each (λ id, call (ALife (EGetSandbox ctx id))) (locked_ReconcileOperation sha256 caps ctx) ops (results ++ [result])
    end)).
  { apply well_then; [apply well_reconcile|]. intros [res [e|]]; [done|apply IH]. }
  destruct (terminalOperation _); [apply IH|]. case_decide; [|exact Hadv].
  apply well_then; [apply well_read; auto with harmless|]. intros [sandbox|e]; [|done].
  destruct (unknownOutcomeObserved _ _); [apply IH|exact Hadv].
Qed.

Lemma well_sweep ctx : well_here (locked_ProcessExpiredLeases sha256 format_time caps ctx).
Proof. apply well_live. intros Hc. by apply well_locked, sweep_keeps. Qed.

Lemma well_ready a ctx : well_here (ready a ctx).
Proof.
  unfold ready. destruct (negb _); [done|].
  assert (ctx = CtxNil ∨ ctx ≠ CtxNil) as [->|Hc] by (destruct ctx; auto); [done|].
  assert (well_here (err ← call (ALife (ECtxErr ctx));
    match err with Some e => Ret (Some e) | None => closed ← call AClosed; Ret (if (closed : bool) then Some [ErrInvalidApplication] else None) end)) as Hw.
  { apply well_then; [apply well_read; auto with harmless|]. intros [e|]; [done|]. split; [done|]. by split. }
  by destruct ctx.
Qed.

Lemma well_if_ready {A} `{!Zero A} a ctx (k : aprog (outcome A)) : well_here k → well_here (if_ready a ctx k).
Proof. intros Hk. apply well_then; [apply well_ready|]. by intros [e|]. Qed.

Lemma well_accepting {A} `{!Zero A} a ctx (operation : A → Operation) (accept : prog (outcome A)) :
  harmless_prog accept → well_here (accepting a ctx operation accept).
Proof.
  intros Ha. apply well_if_ready. apply well_then; [by apply well_life|]. intros [res [e|]]; [done|].
  apply well_then; [|done]. case_decide; [|done]. split; [done|]. by split.
Qed.

Lemma well_rounds n : r = Some LeaseWorker → well here (lease_rounds sha256 format_time caps n) (λ _, True).
Proof.
  intros Hr. induction n as [|n IH]; [done|]. cbn [lease_rounds]. split; [done|]. split; [done|]. intros [].
  - eapply well_bind; [apply well_pending|]. intros g x ->. eapply well_bind; [apply well_sweep|]. by intros g x' ->.
  - by split.
Qed.
End threads.

Lemma well_app a c : well (mkGhost None None false) (app_prog a c) (λ _, True).
Proof.
  assert (Hd : ∀ A (p : aprog A), well (mkGhost None None false) p (outside None false) → well (mkGhost None None false) (discard p) (λ _, True)).
  { intros A p Hp. eapply well_bind; [exact Hp|]. done. }
  destruct c; cbn [LifecycleApplication.app_prog]; try (apply Hd).
  - apply well_then; [apply well_ready|]. intros [e|]; [done|]. apply well_then; [apply well_pending|]. intros [res [e|]]; [done|].
    by apply well_then; [apply well_sweep|].
  - apply well_if_ready, well_sweep.
  - apply well_accepting, harmless_AcceptCreate.
  - apply well_accepting, harmless_accept_mutation.
  - apply well_accepting, harmless_accept_mutation.
  - apply well_accepting, harmless_accept_mutation.
  - apply well_if_ready, well_life, harmless_with_context, harmless_pass. auto with harmless.
  - apply well_if_ready, well_life, harmless_with_context, harmless_pass. auto with harmless.
  - apply well_if_ready, well_life, harmless_with_context, harmless_pass. auto with harmless.
  - split; [done|]. split; [done|]. intros x. split; [done|]. by split.
  - split; [done|]. split; [done|]. intros x. eapply well_bind; [apply well_reconcile|]. intros g y ->. by split.
  - split; [done|]. split; [done|]. intros x. by apply well_rounds.
Qed.

(** *** The pool *)

(** The worker that a thread is, between its first and its last call. *)
Fixpoint role_of (tr : list (event aeff)) : option role :=
  match tr with [] => None | Ev e _ :: tr => role_after e (role_of tr) end.

Definition roles (ts : list (thread aeff)) : list role := omap (role_of ∘ th_trace) ts.

(** The lock is held by the one thread that is inside a locked call. *)
Definition lock_ok (σ : cfg) (held : bool) (insides : list (prog ())) : Prop :=
  match held, insides with false, [] => True | true, [q] => extends q σ | _, _ => False end.

Record workers_ok (w : Workers) (rs : list role) : Prop := mkWorkersOk {
  wo_single : NoDup rs;
  wo_worker id : Worker id ∈ rs → id ∈ wk_workers w ∧ (id ∉ wk_pending w);
  wo_pending : wk_pending w ⊆ wk_workers w;
  wo_lease : LeaseWorker ∈ rs → wk_lease w = LeaseRunning;
}.

Definition stopped (w : Workers) : Prop := wk_closed w = true ∧ wk_workers w = ∅ ∧ wk_lease w = LeaseEnded.

Record app_inv (σ : Shared) (ts : list (thread aeff)) (gs : list ghost) : Prop := mkAppInv {
  ai_threads : Forall2 (λ th g, well g (th_prog th) (λ _, True) ∧ role_of (th_trace th) = gh_role g) ts gs;
  ai_history : history (sh_cfg σ);
  ai_lock : lock_ok (sh_cfg σ) (sh_locked σ) (omap gh_inside gs);
  ai_workers : workers_ok (sh_workers σ) (omap gh_role gs);
  ai_closing : Forall (λ g, gh_closing g = true → wk_closed (sh_workers σ) = true) gs;
  ai_awaited : Ev AWait () ∈ events ts → stopped (sh_workers σ);
}.

Lemma omap_middle {A B} (f : A → option B) l1 a l2 : omap f (l1 ++ a :: l2) = omap f l1 ++ option_list (f a) ++ omap f l2.
Proof. rewrite omap_app. cbn. by destruct (f a). Qed.

Lemma lock_ok_inside σ held i1 q i2 : lock_ok σ held (i1 ++ q :: i2) → held = true ∧ i1 = [] ∧ i2 = [] ∧ extends q σ.
Proof. destruct held, i1 as [|q' [|]], i2; cbn; try done. Qed.

Lemma lock_ok_among σ σ' held l : lock_ok σ held l → σ' = σ ∨ interfere σ σ' → lock_ok σ' held l.
Proof. destruct held, l as [|q [|]]; cbn; try done. intros H Hi. by eapply extends_among. Qed.

(** A call and the lock. *)
Lemma app_lock_step {X} (e : aeff X) g (R : ghost → X → Prop) σ x σ' i1 i2 :
  step_ok e g R → arespond e σ x σ' → history (sh_cfg σ) →
  lock_ok (sh_cfg σ) (sh_locked σ) (i1 ++ option_list (gh_inside g) ++ i2) →
  ∃ inside, R (ghost_after e inside g) x ∧ history (sh_cfg σ') ∧ lock_ok (sh_cfg σ') (sh_locked σ') (i1 ++ option_list inside ++ i2).
Proof.
  intros [_ Hok] Hr Hh Hl. destruct e.
  1:{ cbn in Hok, Hr. destruct Hr as (Hr & Hlk & _). destruct (gh_inside g) as [q|].
    - destruct Hok as (k & -> & Hk). cbn in Hl. apply lock_ok_inside in Hl as (Hheld & -> & -> & Hex).
      pose proof (extends_call e k _ x _ Hex Hr) as Hn. exists (Some (k x)). split; [apply Hk|]. cbn. rewrite Hlk, Hheld.
      split; [by eapply extends_history|done].
    - destruct Hok as [He Hk]. exists None. split; [apply Hk|]. apply He in Hr. rewrite Hlk.
      split; [by eapply history_more|by eapply lock_ok_among]. }
  1:{ cbn in Hok, Hr. destruct Hok as (Hin & q & Hq & HR), Hr as [Hfree ->]. rewrite Hin, Hfree in Hl. exists (Some q). destruct x. split; [done|].
    split; [done|]. cbn in *. destruct i1, i2; cbn in *; try done. by apply Hq. }
  1:{ cbn in Hok, Hr. destruct Hok as (Hin & HR). subst σ'. rewrite Hin in Hl. cbn in Hl. apply lock_ok_inside in Hl as (_ & -> & -> & _).
    exists None. by destruct x. }
  all: destruct Hok as [Hin HR]; exists None; rewrite Hin in Hl; (split; [apply HR|]); cbn in Hr;
    assert (sh_cfg σ' = sh_cfg σ ∧ sh_locked σ' = sh_locked σ) as [-> ->] by naive_solver; done.
Qed.

(** A call and the workers. *)
Lemma app_workers_step {X} (e : aeff X) g σ x σ' rs1 rs2 :
  role_before e g → arespond e σ x σ' → workers_ok (sh_workers σ) (rs1 ++ option_list (gh_role g) ++ rs2) →
  workers_ok (sh_workers σ') (rs1 ++ option_list (role_after e (gh_role g)) ++ rs2).
Proof.
  intros Hb Hr Hw. assert (Hsame : sh_workers σ' = sh_workers σ → role_after e (gh_role g) = gh_role g →
    workers_ok (sh_workers σ') (rs1 ++ option_list (role_after e (gh_role g)) ++ rs2)) by (by intros -> ->).
  destruct Hw as [H1 H2 H3 H4]. destruct e; cbn in Hb, Hr; try (apply Hsame; naive_solver); clear Hsame; cbn [role_after].
  - rewrite Hr. cbn. unfold schedule_worker. destruct (wk_closed _); [done|]. case_decide as Hd; [done|]. split; cbn; [done| |set_solver|done].
    intros id' Hid. destruct (H2 id' Hid). set_solver.
  - destruct Hr as [Hp ->]. rewrite Hb in *. cbn in *. split; cbn.
    + apply NoDup_Permutation_proper with (Worker id :: rs1 ++ rs2); [by rewrite <- Permutation_middle|]. constructor; [|done].
      intros Hin. by apply H2 in Hin as [_ ?].
    + intros id' Hid. destruct (decide (id' = id)) as [->|Hne]; [set_solver|].
      destruct (H2 id') as [? ?]; [rewrite elem_of_app, elem_of_cons in *; naive_solver|]. set_solver.
    + set_solver.
    + intros Hl. apply H4. rewrite elem_of_app, elem_of_cons in *. naive_solver.
  - rewrite Hr. rewrite Hb in *. cbn in *. rewrite <- Permutation_middle in H1. apply NoDup_cons in H1 as [Hn H1]. split; cbn; [done| | |].
    + intros id' Hid. assert (id' ≠ id) by (intros ->; done). destruct (H2 id'); [rewrite elem_of_app, elem_of_cons in *; naive_solver|]. set_solver.
    + destruct (H2 id); [set_solver|]. set_solver.
    + intros Hl. apply H4. rewrite elem_of_app, elem_of_cons in *. naive_solver.
  - destruct Hr as [Hp ->]. rewrite Hb in *. cbn in *. split; cbn; [|intros id' Hid; apply H2; rewrite elem_of_app, elem_of_cons in *; naive_solver|done|done].
    apply NoDup_Permutation_proper with (LeaseWorker :: rs1 ++ rs2); [by rewrite <- Permutation_middle|]. constructor; [|done].
    intros Hin. apply H4 in Hin. congruence.
  - rewrite Hr. rewrite Hb in *. cbn in *. rewrite <- Permutation_middle in H1. apply NoDup_cons in H1 as [Hn H1].
    split; cbn; [done|intros id' Hid; apply H2; rewrite elem_of_app, elem_of_cons in *; naive_solver|done|done].
  - rewrite Hr. by split.
Qed.

Lemma app_closed_step {X} (e : aeff X) σ x σ' :
  arespond e σ x σ' → wk_closed (sh_workers σ) = true → wk_closed (sh_workers σ') = true.
Proof.
  destruct e; cbn; intros Hr Hc; try (naive_solver congruence). subst σ'. cbn. unfold schedule_worker. by rewrite Hc.
Qed.

Lemma app_stopped_step {X} (e : aeff X) σ x σ' : arespond e σ x σ' → stopped (sh_workers σ) → stopped (sh_workers σ').
Proof.
  intros Hr Hs. pose proof Hs as (Hc & Hw & Hl). destruct e; cbn in Hr; unfold stopped in *;
    try (assert (sh_workers σ' = sh_workers σ) as -> by naive_solver; done).
  - subst σ'. cbn. unfold schedule_worker. by rewrite Hc.
  - destruct Hr as [_ ->]. by cbn.
  - subst σ'. cbn. rewrite Hw. split_and!; [done|set_solver|done].
  - destruct Hr as [? _]. congruence.
  - by subst σ'.
  - by subst σ'.
Qed.

Definition is_wait (ev : event aeff) : bool := let '@Ev _ _ e _ := ev in match e with AWait => true | _ => false end.

Lemma app_inv_call σ ts1 tr X (e : aeff X) k ts2 x σ' gs :
  app_inv σ (ts1 ++ mkThread tr (Vis e k) :: ts2) gs → arespond e σ x σ' →
  ∃ gs', app_inv σ' (ts1 ++ mkThread (Ev e x :: tr) (k x) :: ts2) gs'.
Proof.
  intros [H1 H2 H3 H4 H5 H6] Hr. apply Forall2_app_inv_l in H1 as (gs1 & gs0 & H1a & H1b & ->).
  apply Forall2_cons_inv_l in H1b as (g & gs2 & [Hw Hrole] & H1b & ->). cbn in Hw, Hrole.
  rewrite (omap_middle gh_inside) in H3. rewrite (omap_middle gh_role) in H4. apply Forall_app in H5 as [H5a [H5b H5c]%Forall_cons].
  destruct (app_lock_step e g _ σ x σ' _ _ Hw Hr H2 H3) as (inside & Hk & Hh & Hl). destruct Hw as [Hb _].
  exists (gs1 ++ ghost_after e inside g :: gs2). split.
  - apply Forall2_app; [done|]. constructor; [|done]. cbn. by rewrite Hrole.
  - done.
  - by rewrite (omap_middle gh_inside).
  - rewrite (omap_middle gh_role). by eapply app_workers_step.
  - pose proof (app_closed_step e σ x σ' Hr) as Hcl. apply Forall_app.
    split; [eapply Forall_impl; [exact H5a|]; cbn; auto|].
    apply Forall_cons. split; [|eapply Forall_impl; [exact H5c|]; cbn; auto]. cbn. destruct e; cbn; try (by auto). cbn in Hr. by subst σ'.
  - rewrite (events_call ts1 tr (Vis e k) (k x) (Ev e x) ts2). intros [Heq|Hin]%elem_of_cons; [|by eapply app_stopped_step, H6].
    assert (Hwait : is_wait (Ev e x) = true) by (by rewrite <- Heq). destruct e; try done. cbn in Hr. destruct Hr as (Hw & Hls & ->). split_and!; [|done|done]. apply H5b, Hb.
Qed.

Lemma app_run_inv σ ts : app_run σ ts → ∃ gs, app_inv σ ts gs.
Proof.
  intros Hrun. enough (Hall : ∀ τ, rtc (pool_step (@arespond) app_spawn) (NewShared, []) τ → ∃ gs, app_inv τ.1 τ.2 gs) by apply (Hall _ Hrun).
  clear Hrun σ ts. apply rtc_ind_r.
  - exists []. split; cbn; [constructor|apply rtc_refl|done| |constructor|set_solver].
    split; cbn; [constructor|intros id Hid; set_solver|done|set_solver].
  - intros _ _ _ [σ ts p (a & c & ->)|σ ts1 tr X e k ts2 x σ' Hr] [gs Hinv]; cbn in *; [|by eapply app_inv_call].
    destruct Hinv as [H1 H2 H3 H4 H5 H6]. exists (mkGhost None None false :: gs). split; cbn; try done; [|by constructor].
    constructor; [|done]. split; [apply well_app|done].
Qed.

(** C2 (refinement): the application implements the coordinator's histories.  For every
    interleaving of calls of the application, workers and lease sweeps, any of
    which may stop at any call, the repository and the log of driver calls are those of
    a history: one coordinator call after the other, with nothing but
    reservations in between.  So every guarantee about histories holds of the
    running application, although sweeps release the coordinator's lock
    between two operations. *)
Theorem application_implements_histories σ ts : app_run σ ts → history (sh_cfg σ).
Proof. intros Hrun. destruct (app_run_inv σ ts Hrun) as [gs Hinv]. apply Hinv. Qed.

(** workers are single and awaited.  An operation has at most one worker
    at a time, there is at most one lease worker, and once a call that closes the
    application has returned, no worker is running, and none ever starts. *)
Theorem lifecycle_close_awaits_workers σ ts :
  app_run σ ts → NoDup (roles ts) ∧ (Ev AWait () ∈ events ts → roles ts = [] ∧ wk_pending (sh_workers σ) = ∅).
Proof.
  intros Hrun. destruct (app_run_inv σ ts Hrun) as [gs [H1 _ _ [Hn Hwk Hp Hl] _ Hw]].
  assert (roles ts = omap gh_role gs) as ->.
  { clear -H1. induction H1 as [|th g ts gs [_ Hr] _ IH]; [done|]. unfold roles in *. cbn. rewrite Hr, IH. done. }
  split; [done|]. intros (_ & He & Hls)%Hw. split; [|set_solver]. apply elem_of_nil_inv. intros [id|] Hin.
  - apply Hwk in Hin as [? _]. set_solver.
  - apply Hl in Hin. congruence.
Qed.
End refinement.

(** ** A concrete run

    A sandbox is created by a worker; its termination is accepted and the
    application closed, which waits.  The lease worker has one more round, in
    which it reconciles the termination; the worker of the termination finds it
    settled, and closing returns. *)

Module AppRuns.
Record AppWorld := mkAppWorld { aw_world : World; aw_locked : bool; aw_workers : Workers; aw_ticks : nat }.

Definition abs (w : AppWorld) : Shared := mkShared (LifecycleMemory.abs (aw_world w)) (aw_locked w) (aw_workers w).
Definition set (f : Workers → Workers) (w : AppWorld) : AppWorld := mkAppWorld (aw_world w) (aw_locked w) (f (aw_workers w)) (aw_ticks w).
Definition lock (b : bool) (w : AppWorld) : AppWorld := mkAppWorld (aw_world w) b (aw_workers w) (aw_ticks w).
Definition tick (w : AppWorld) : bool * AppWorld :=
  match aw_ticks w with O => (false, w) | S n => (true, mkAppWorld (aw_world w) (aw_locked w) (aw_workers w) n) end.

Definition app_handle {X} (e : aeff X) : AppWorld → X * AppWorld :=
  match e in aeff X return AppWorld → X * AppWorld with
  | ALife e => λ w, let '(x, w') := handle e (aw_world w) in (x, mkAppWorld w' (aw_locked w) (aw_workers w) (aw_ticks w))
  | ALock => λ w, ((), lock true w)
  | AUnlock => λ w, ((), lock false w)
  | AClosed => λ w, (wk_closed (aw_workers w), w)
  | ASchedule id => λ w, ((), set (schedule_worker id) w)
  | AWorkerBegin id => λ w, ((), set (begin_worker id) w)
  | AWorkerDone id => λ w, ((), set (finish_worker id) w)
  | ALeaseBegin => λ w, ((), set (set_lease LeaseRunning) w)
  | ATick => tick
  | ALeaseDone => λ w, ((), set (set_lease LeaseEnded) w)
  | AClose => λ w, ((), set close_workers w)
  | AWait => λ w, ((), w)
  end.

Definition app_enabled {X} (e : aeff X) (w : AppWorld) : bool :=
  match e with
  | ALock => negb (aw_locked w)
  | AWorkerBegin id => bool_decide (id ∈ wk_pending (aw_workers w))
  | ALeaseBegin => match wk_lease (aw_workers w) with LeasePending => true | _ => false end
  | ATick => match aw_ticks w with O => wk_closed (aw_workers w) | S _ => true end
  | AWait => bool_decide (wk_workers (aw_workers w) = ∅) && match wk_lease (aw_workers w) with LeaseEnded => true | _ => false end
  | _ => true
  end.

Lemma app_handle_responds X (e : aeff X) w :
  app_enabled e w = true → arespond e (abs w) (app_handle e w).1 (abs (app_handle e w).2).
Proof.
  destruct e; cbn; try done.
  - intros _. pose proof (handle_responds e (aw_world w)) as Hr. by destruct (handle e (aw_world w)).
  - by intros ->%negb_true_iff.
  - by intros ?%bool_decide_eq_true.
  - by destruct (wk_lease (aw_workers w)) eqn:El.
  - unfold tick. destruct (aw_ticks w) as [|n]; cbn; [|done]. by intros ->.
  - intros [?%bool_decide_eq_true ?]%andb_true_iff. by destruct (wk_lease (aw_workers w)) eqn:El.
Qed.

Definition application : Application := mkApplication true true true.
Definition world : AppWorld := mkAppWorld CoordRuns.w0 false NewWorkers 1.
Definition calls : list app_call :=
  [AppAcceptCreate CtxCaller Samples.create0; AppWorker "operation-1";
   AppAcceptTerminate CtxCaller "sandbox-1" CoordRuns.terminate; AppClose;
   AppLeaseWorker 2; AppWorker "terminate-1"; AppClose].
Definition final : list (thread aeff) * AppWorld :=
  pool_enabled (@app_handle) (@app_enabled) (app_prog CoordRuns.sha256 CoordRuns.format_time CoordRuns.caps application <$> calls) world [].

Lemma app_final_run : app_run CoordRuns.sha256 CoordRuns.format_time CoordRuns.caps (abs final.2) final.1.
Proof.
  apply (pool_sequence_enabled (@app_handle) (@app_enabled) (@arespond) _ abs app_handle_responds _ world []).
  apply Forall_fmap, Forall_forall. intros c _. by exists application, c.
Qed.
End AppRuns.

Lemma application_implements_histories_witness :
  created (sh_cfg (AppRuns.abs AppRuns.final.2)).2 = ["sandbox-1"] ∧
  history CoordRuns.sha256 CoordRuns.format_time CoordRuns.caps (sh_cfg (AppRuns.abs AppRuns.final.2)).
Proof.
  split; [vm_compute; reflexivity|].
  apply (application_implements_histories CoordRuns.sha256 CoordRuns.format_time CoordRuns.caps _ AppRuns.final.1).
  exact AppRuns.app_final_run.
Defined.

Lemma lifecycle_close_awaits_workers_witness :
  roles AppRuns.final.1 = [] ∧ wk_pending (sh_workers (AppRuns.abs AppRuns.final.2)) = ∅.
Proof.
  apply (lifecycle_close_awaits_workers CoordRuns.sha256 CoordRuns.format_time CoordRuns.caps _ AppRuns.final.1).
  - exact AppRuns.app_final_run.
  - vm_compute. repeat first [left|right].
Defined.
