(* ===== verification/ExecPorts.v ===== *)
(** * The ports of the execution coordinator

    [provider/exec/port.go], the repository interface of
    [provider/exec/repository/repository.go], the clock and the caller's
    context, as calls with the answers each may give.  The repository answers
    as [repository.State] does, or with a transport error (a cancelled context,
    a closed repository, a durability failure) that left the state as it was,
    or it commits and then reports a durability failure.  A reservation whose
    write failed is returned together with the error, as the file repository
    does; of the other writes no caller reads the value when there is an error.
    The clock is past
    Go's zero time.  Executor, observer, canceler, cleaner and result observer
    answer anything. *)

From S2P Require Import Prelude Program Threads ExecModel ExecState ExecInvariant ExecRepository.
From stdpp Require Import base gmap strings list fin_maps relations.
From Stdlib Require Import ZArith Lia.

Local Open Scope Z_scope.

Inductive Context :=
  | CtxNil
  | CtxCaller
  | CtxBackground
  | CtxWithDeadline (parent : Context) (deadline : Time)
  | CtxWithTimeout (parent : Context) (timeout : Z)
  | CtxWithoutCancel (parent : Context).

Definition zeroRequest : Request := mkRequest "" "" "" 0 0 "" "" 0 [] "" 0 ∅ [] "" "" "" false false 0.
Definition zeroRecord : ExecutionRecord := mkExecutionRecord zeroRequest 0 zeroDispatch false None None false.
#[export] Instance zero_Reservation : Zero ExecutionReservation := mkExecutionReservation zeroRecord false.

Inductive eff : Type → Type :=
  (* coordinator.Clock, context.Context *)
  | ENow : eff Time
  | ECtxErr (ctx : Context) : eff (option goerr)
  (* repository.Repository *)
  | EReserveExecutionAt (ctx : Context) (rq : Request) (acceptedAt : Time) (d : list Dispatch)
      : eff (outcome ExecutionReservation)
  | EAttachExecution (ctx : Context) (a : ExecutionAttachment) : eff (result ExecutionReservation)
  | EGetExecution (ctx : Context) (id : string) : eff (result ExecutionRecord)
  | EListExecutions (ctx : Context) : eff (result (list ExecutionRecord))
  | EReserveCancellationAt (ctx : Context) (i : CancellationIntent) (acceptedAt : Time)
      : eff (result CancellationReservation)
  | EGetCancellation (ctx : Context) (id : string) : eff (result CancellationIntent)
  | EGetCancellationReservation (ctx : Context) (id : string) : eff (result CancellationReservation)
  | EStoreResult (ctx : Context) (r : Result) : eff (result unit)
  | EGetResult (ctx : Context) (id : string) (now : Time) : eff (result Result)
  (* Executor, Observer, Canceler, ResultCleaner, ResultObserver *)
  | EStart (ctx : Context) (invocation : Invocation) : eff (result string)
  | EObserve (ctx : Context) (rq : Request) : eff (result Observation)
  | ECancel (ctx : Context) (a : ExecutionAttachment) : eff (result unit)
  | ECleanupResult (ctx : Context) (rq : Request) : eff (result unit)
  | EObserveResult (ctx : Context) (r : Result) : eff (result unit).

Abbreviation prog := (Program.prog eff).

(** ** Answers *)

Definition transport_error (e : goerr) : Prop :=
  e = [Canceled : sentinel] ∨ e = [DeadlineExceeded : sentinel] ∨
  e = [ExecErrClosed : sentinel] ∨ e = [ExecErrDurability : sentinel].

Definition answers_read {X} (r : result X) (s : State) (x : result X) (s' : State) : Prop :=
  s' = s ∧ (x = r ∨ ∃ e, transport_error e ∧ x = Err e).

(** [r] and [t] are what the state operation returns and its next state. *)
Definition answers_write {X} (r : result X) (s t : State) (x : result X) (s' : State) : Prop :=
  (x = r ∧ s' = t) ∨ (x = Err [ExecErrDurability : sentinel] ∧ s' = t) ∨
  (s' = s ∧ ∃ e, transport_error e ∧ x = Err e).

(** An operation that leaves the state alone when it fails. *)
Definition next {X} (m : result (X * State)) (s : State) : State :=
  match m with Ok (_, t) => t | Err _ => s end.
Definition value {X} (m : result (X * State)) : result X := x ← m; Ok x.1.

(** A value and an error as the state returns them: the value is zero on an error. *)
Definition returned {X} `{!Zero X} (r : result X) : outcome X :=
  match r with Ok v => (v, None) | Err e => (zero, Some e) end.

(** Writes whose value is returned although the file was not written. *)
Definition answers_reserve {X} `{!Zero X} (m : result (X * State)) (s : State) (x : outcome X) (s' : State) : Prop :=
  (x = returned (value m) ∧ s' = next m s) ∨
  (∃ v t, m = Ok (v, t) ∧ (s' = t ∨ s' = s) ∧ ∃ e, transport_error e ∧ x = (v, Some e)) ∨
  (s' = s ∧ ∃ e, transport_error e ∧ x = (zero, Some e)).

Definition respond {X} (e : eff X) : State → X → State → Prop :=
  match e in eff X return State → X → State → Prop with
  | ENow => λ s x s', 0 < x ∧ s' = s
  | ECtxErr _ => λ s x s', s' = s
  | EReserveExecutionAt _ rq at_ d => λ s x s', answers_reserve (ReserveExecutionAt rq at_ d s) s x s'
  | EAttachExecution _ a => λ s x s',
      answers_write (value (AttachExecution a s)) s (next (AttachExecution a s) s) x s'
  | EGetExecution _ id => λ s x s', answers_read (GetExecution id s) s x s'
  | EListExecutions _ => λ s x s', answers_read (Ok (ListExecutions s)) s x s'
  | EReserveCancellationAt _ i at_ => λ s x s',
      answers_write (value (ReserveCancellation i at_ s)) s (next (ReserveCancellation i at_ s) s) x s'
  | EGetCancellation _ id => λ s x s', answers_read (GetCancellation id s) s x s'
  | EGetCancellationReservation _ id => λ s x s', answers_read (GetCancellationReservation id s) s x s'
  | EStoreResult _ r => λ s x s',
      answers_write (value (StoreResult r s)) s (next (StoreResult r s) s) x s'
  | EGetResult _ id now => λ s x s',
      answers_write (ReadResult id now s).1.1 s (ReadResult id now s).2 x s'
  | EStart _ _ | EObserve _ _ | ECancel _ _ | ECleanupResult _ _ | EObserveResult _ _ =>
      λ s _ s', s' = s
  end.

(** The call of the repository behind a write. *)
Definition call_of {X} (e : eff X) : option exec_call :=
  match e with
  | EReserveExecutionAt _ rq at_ d => Some (XReserve rq at_ d)
  | EAttachExecution _ a => Some (XAttach a)
  | EReserveCancellationAt _ i at_ => Some (XCancel i at_)
  | EStoreResult _ r => Some (XStore r)
  | EGetResult _ id now => Some (XRead id now)
  | _ => None
  end.

Lemma answers_write_state {X} (r : result X) s t x s' :
  answers_write r s t x s' → s' = s ∨ s' = t.
Proof. intros [[_ ->]|[[_ ->]|[-> _]]]; auto. Qed.

Lemma answers_reserve_state {X} `{!Zero X} (m : result (X * State)) s x s' :
  answers_reserve m s x s' → s' = s ∨ s' = next m s.
Proof. intros [[_ ->]|[(v & t & -> & [-> | ->] & _)|[-> _]]]; auto. Qed.

(** Whatever is answered, the state took one call or none. *)
Lemma respond_state {X} (e : eff X) s x s' :
  respond e s x s' → s' = s ∨ ∃ c, call_of e = Some c ∧ s' = exec_apply c s.
Proof.
  destruct e; cbn; try (intros [-> _]; by left); try (intros ->; by left); try (intros [_ ->]; by left);
    (intros [-> | ->]%answers_write_state || intros [-> | ->]%answers_reserve_state); auto; right; eexists; (split; [done|]); cbn; unfold next;
    unfold ReserveExecutionAt.
  - by destruct (reserveExecutionAt _ _ _ _) as [[]|].
  - by destruct (AttachExecution _ _) as [[]|].
  - by destruct (ReserveCancellation _ _ _) as [[]|].
  - by destruct (StoreResult _ _) as [[]|].
  - done.
Qed.

(** A write that answers without an error took effect. *)
Lemma exec_answers_write_Ok {X} (m : result (X * State)) s v s' :
  answers_write (value m) s (next m s) (Ok v) s' → m = Ok (v, s').
Proof.
  intros [[Hv ->]|[[? _]|(_ & e & _ & ?)]]; [|done..].
  destruct m as [[v' t]|e]; cbn in *; congruence.
Qed.

Lemma answers_reserve_Ok {X} `{!Zero X} (m : result (X * State)) s v s' :
  answers_reserve m s (v, None) s' → m = Ok (v, s').
Proof. intros [[Hv ->]|[(?&?&_&_&e&_&?)|(_&e&_&?)]]; [|done..]. destruct m as [[v' t]|e]; cbn in *; congruence. Qed.

Lemma answers_read_Ok {X} (r : result X) s v s' : answers_read r s (Ok v) s' → r = Ok v ∧ s' = s.
Proof. intros [-> [->|(e & _ & ?)]]; done. Qed.
