(* ===== verification/ExecMemory.v ===== *)
(** * The in-memory execution repository: [provider/exec/repository/memory]

    Every method consults its context before it takes the lock, and writes
    consult it again under the lock; what successive [ctx.Err()] and clock
    calls return is a script of the world.  The runtime (executor, observer,
    canceler, cleaner, result observer) is a parameter.  [handle] composes
    them; the theorem is that its answers are answers the ports allow. *)

From S2P Require Import Prelude Program Threads ExecModel ExecState ExecRepository ExecPorts.
From stdpp Require Import base gmap strings list fin_maps.
From Stdlib Require Import ZArith Lia.

Local Open Scope Z_scope.

Record MemoryRepository := mkMemoryRepository {
  mem_state : State;
  mem_closed : bool;
}.

Definition NewRepository : MemoryRepository := mkMemoryRepository NewState false.

(** Clock readings are nanoseconds past Go's zero time. *)
Record World := mkWorld {
  w_mem : MemoryRepository;
  w_clock : list positive;
  w_ctx : list (option context_sentinel);
}.

Definition w_set_state (s : State) (w : World) : World :=
  mkWorld (mkMemoryRepository s (mem_closed (w_mem w))) (w_clock w) (w_ctx w).

(** The clock stays at its last reading. *)
Definition clock_Now (w : World) : Time * World :=
  match w_clock w with
  | [] => (1, w)
  | [t] => (Z.pos t, w)
  | t :: ts => (Z.pos t, mkWorld (w_mem w) ts (w_ctx w))
  end.

(** An exhausted script means no further cancellation. *)
Definition ctx_Err (w : World) : option context_sentinel * World :=
  match w_ctx w with
  | [] => (None, w)
  | c :: cs => (c, mkWorld (w_mem w) (w_clock w) cs)
  end.

Definition memory_ContextError (ctx : Context) (w : World) : option context_sentinel * World :=
  match ctx with CtxNil => (Some Canceled, w) | _ => ctx_Err w end.

Definition guard_ctx {X} (ctx : Context) (k : World → result X * World) (w : World) : result X * World :=
  let '(err, w) := memory_ContextError ctx w in
  match err with Some e => (Err [e : sentinel], w) | None => k w end.

Definition guard_closed {X} (k : World → result X * World) (w : World) : result X * World :=
  if mem_closed (w_mem w) then (Err [ExecErrClosed : sentinel], w) else k w.

Definition checkOpen {X} (ctx : Context) (k : World → result X * World) : World → result X * World :=
  guard_closed (guard_ctx ctx k).

Definition memory_write {X} (ctx : Context) (f : State → result (X * State)) : World → result X * World :=
  guard_ctx ctx (checkOpen ctx (λ w,
    (value (f (mem_state (w_mem w))), w_set_state (next (f (mem_state (w_mem w))) (mem_state (w_mem w))) w))).

Definition memory_read {X} (ctx : Context) (f : State → result X) : World → result X * World :=
  guard_ctx ctx (guard_closed (λ w, (f (mem_state (w_mem w)), w))).

(** [systemNow] is what [time.Now().UTC()] returns. *)
Definition memory_ReserveExecutionAt ctx rq at_ d (w : World) : outcome ExecutionReservation * World :=
  let '(x, w) := memory_write ctx (ReserveExecutionAt rq at_ d) w in (returned x, w).
Definition memory_ReserveExecution (systemNow : Time) ctx rq (d : list Dispatch) :=
  let acceptedAt := match d with [d0] => dp_AcceptedAt d0 | _ => systemNow end in
  memory_ReserveExecutionAt ctx rq acceptedAt d.
Definition memory_AttachExecution ctx a := memory_write ctx (AttachExecution a).
Definition memory_GetExecution ctx id := memory_read ctx (GetExecution id).
Definition memory_ListExecutions ctx := memory_read ctx (λ s, Ok (ListExecutions s)).
Definition memory_ReserveCancellationAt ctx i at_ := memory_write ctx (ReserveCancellation i at_).
Definition memory_ReserveCancellation (systemNow : Time) ctx i := memory_ReserveCancellationAt ctx i systemNow.
Definition memory_GetCancellation ctx id := memory_read ctx (GetCancellation id).
Definition memory_GetCancellationReservation ctx id := memory_read ctx (GetCancellationReservation id).
Definition memory_StoreResult ctx r := memory_write ctx (StoreResult r).
Definition memory_GetResult (ctx : Context) (id : string) (now : Time) : World → result Result * World :=
  guard_ctx ctx (guard_closed (λ w,
    let '(r, _, s) := ReadResult id now (mem_state (w_mem w)) in (r, w_set_state s w))).
Definition memory_Close (w : World) : World :=
  mkWorld (mkMemoryRepository (mem_state (w_mem w)) true) (w_clock w) (w_ctx w).

(** ** The composed ports *)

Record Runtime := mkRuntime {
  rt_Start : Context → Invocation → result string;
  rt_Observe : Context → Request → result Observation;
  rt_Cancel : Context → ExecutionAttachment → result unit;
  rt_CleanupResult : Context → Request → result unit;
  rt_ObserveResult : Context → Result → result unit;
}.

Section ports.
Context (rt : Runtime).

Definition handle {X} (e : eff X) : World → X * World :=
  match e in eff X return World → X * World with
  | ENow => clock_Now
  | ECtxErr ctx => λ w, let '(e, w) := memory_ContextError ctx w in ((λ c, [SContext c]) <$> e, w)
  | EReserveExecutionAt ctx rq at_ d => memory_ReserveExecutionAt ctx rq at_ d
  | EAttachExecution ctx a => memory_AttachExecution ctx a
  | EGetExecution ctx id => memory_GetExecution ctx id
  | EListExecutions ctx => memory_ListExecutions ctx
  | EReserveCancellationAt ctx i at_ => memory_ReserveCancellationAt ctx i at_
  | EGetCancellation ctx id => memory_GetCancellation ctx id
  | EGetCancellationReservation ctx id => memory_GetCancellationReservation ctx id
  | EStoreResult ctx r => memory_StoreResult ctx r
  | EGetResult ctx id now => memory_GetResult ctx id now
  | EStart ctx inv => λ w, (rt_Start rt ctx inv, w)
  | EObserve ctx rq => λ w, (rt_Observe rt ctx rq, w)
  | ECancel ctx a => λ w, (rt_Cancel rt ctx a, w)
  | ECleanupResult ctx rq => λ w, (rt_CleanupResult rt ctx rq, w)
  | EObserveResult ctx r => λ w, (rt_ObserveResult rt ctx r, w)
  end.

Definition abs (w : World) : State := mem_state (w_mem w).

(** ** The adapter implements the ports *)

Lemma exec_ctx_abs ctx w : abs (memory_ContextError ctx w).2 = abs w.
Proof. destruct ctx, w as [m c [|x xs]]; done. Qed.

(** Answers that leave the state alone. *)
Definition refused {X} (w : World) (x : result X) (w' : World) : Prop :=
  abs w' = abs w ∧ ∃ e, transport_error e ∧ x = Err e.

Lemma exec_guard_ctx {X} ctx (k : World → result X * World) w :
  refused w (guard_ctx ctx k w).1 (guard_ctx ctx k w).2 ∨ ∃ w', guard_ctx ctx k w = k w' ∧ abs w' = abs w.
Proof.
  unfold guard_ctx. pose proof (exec_ctx_abs ctx w) as Ha.
  destruct (memory_ContextError ctx w) as [[c|] w']; [left|right; by exists w'].
  split; [done|]. eexists. split; [|done]. unfold transport_error. destruct c; auto.
Qed.

Lemma exec_guard_closed {X} (k : World → result X * World) w :
  refused w (guard_closed k w).1 (guard_closed k w).2 ∨ guard_closed k w = k w.
Proof.
  unfold guard_closed. destruct (mem_closed _); [left|by right]. split; [done|].
  eexists. split; [|done]. by right; right; left.
Qed.

Lemma refused_write {X} (r : result X) t w x w' :
  refused w x w' → answers_write r (abs w) t x (abs w').
Proof. intros [-> ?]. right. by right. Qed.

Lemma refused_eq {X} w1 w (x : result X) w' : abs w1 = abs w → refused w1 x w' → refused w x w'.
Proof. unfold refused. by intros ->. Qed.

Lemma exec_write_cases {X} ctx (f : State → result (X * State)) w :
  refused w (memory_write ctx f w).1 (memory_write ctx f w).2 ∨
  ((memory_write ctx f w).1 = value (f (abs w)) ∧ abs (memory_write ctx f w).2 = next (f (abs w)) (abs w)).
Proof.
  unfold memory_write, checkOpen. set (body := λ w : World, _).
  destruct (exec_guard_ctx ctx (guard_closed (guard_ctx ctx body)) w) as [?|(w1 & -> & H1)]; [by left|].
  destruct (exec_guard_closed (guard_ctx ctx body) w1) as [Hr| ->]; [left; by apply (refused_eq w1)|].
  destruct (exec_guard_ctx ctx body w1) as [Hr|(w2 & -> & H2)]; [left; by apply (refused_eq w1)|].
  right. rewrite <- H1, <- H2. by split.
Qed.

Lemma exec_write_answers {X} ctx (f : State → result (X * State)) w :
  answers_write (value (f (abs w))) (abs w) (next (f (abs w)) (abs w))
    (memory_write ctx f w).1 (abs (memory_write ctx f w).2).
Proof. destruct (exec_write_cases ctx f w) as [Hr|[-> ->]]; [by apply refused_write|by left]. Qed.

Lemma exec_reserve_answers ctx rq at_ d w :
  answers_reserve (ReserveExecutionAt rq at_ d (abs w)) (abs w)
    (memory_ReserveExecutionAt ctx rq at_ d w).1 (abs (memory_ReserveExecutionAt ctx rq at_ d w).2).
Proof.
  unfold memory_ReserveExecutionAt. pose proof (exec_write_cases ctx (ReserveExecutionAt rq at_ d) w) as Hc.
  destruct (memory_write _ _ w) as [x w']. cbn in *. destruct Hc as [[-> (e & He & ->)]|[-> ->]]; [right; right; eauto|by left].
Qed.

Lemma exec_read_answers {X} ctx (f : State → result X) w :
  answers_read (f (abs w)) (abs w) (memory_read ctx f w).1 (abs (memory_read ctx f w).2).
Proof.
  unfold memory_read. set (body := λ w : World, _).
  destruct (exec_guard_ctx ctx (guard_closed body) w) as [[-> ?]|(w1 & -> & H1)]; [split; auto|].
  destruct (exec_guard_closed body w1) as [[-> ?]| ->]; rewrite <- H1; [split; auto|]. split; [done|by left].
Qed.

Lemma exec_handle_responds {X} (e : eff X) w : respond e (abs w) (handle e w).1 (abs (handle e w).2).
Proof.
  destruct e; cbn [respond handle]; try done.
  - unfold clock_Now. by destruct w as [m [|t [|t' ts]] c].
  - pose proof (exec_ctx_abs ctx w) as Ha. by destruct (memory_ContextError ctx w).
  - apply exec_reserve_answers.
  - apply exec_write_answers.
  - apply exec_read_answers.
  - apply (exec_read_answers ctx (λ s, Ok (ListExecutions s))).
  - apply exec_write_answers.
  - apply exec_read_answers.
  - apply exec_read_answers.
  - apply exec_write_answers.
  - unfold memory_GetResult. set (body := λ w : World, _).
    destruct (exec_guard_ctx ctx (guard_closed body) w) as [?|(w1 & -> & H1)]; [by apply refused_write|].
    destruct (exec_guard_closed body w1) as [Hr| ->]; [by apply refused_write, (refused_eq w1)|].
    rewrite <- H1. left. unfold body, abs. by destruct (ReadResult id now _) as [[r b] s].
Qed.
End ports.
