(* ===== verification/ExecCoordinator.v ===== *)
(** * The execution coordinator: [provider/exec/coordinator/coordinator.go]

    Every method of the coordinator as a program over the ports.  The optional
    ports of a coordinator are flags; a nil receiver is a coordinator without
    any port.  [c.clock.Now().UTC()] is one clock call; a [(value, error)]
    result is an [outcome]. *)

From S2P Require Import Prelude Program ExecModel ExecState ExecPorts.
From stdpp Require Import base gmap strings list fin_maps relations.
From Stdlib Require Import ZArith Lia.

Local Open Scope Z_scope.
Local Open Scope program_scope.

Definition cancellationPersistenceTimeout : Z := 5 * Second.

Inductive CancellationStatus :=
  | CancellationPending | CancellationConfirmed | CancellationStatusOther (raw : string).

Record CancellationResult := mkCancellationResult {
  cr_Reservation : CancellationReservation;
  cr_Status : CancellationStatus;
}.

(** Which ports are present. *)
Record Coordinator := mkCoordinator {
  c_repository : bool;
  c_executor : bool;
  c_observer : bool;
  c_canceler : bool;
  c_cleaner : bool;
  c_resultSink : bool;
  c_clock : bool;
}.

(** ** Zero values *)

Definition zeroIntent : CancellationIntent :=
  mkCancellationIntent "" "" "" 0 0 "" "" 0 "" "" (CancellationReasonOther "").

#[export] Instance zero_Record : Zero ExecutionRecord := zeroRecord.
#[export] Instance zero_Intent : Zero CancellationIntent := zeroIntent.
#[export] Instance zero_Cancellation : Zero CancellationReservation :=
  mkCancellationReservation zeroIntent 0 false.
#[export] Instance zero_ExecResult : Zero Result :=
  mkResult "" "" 0 "" (ResultStatusOther "") None "" "" "" 0 0 0 None.
#[export] Instance zero_CancellationResult : Zero CancellationResult :=
  mkCancellationResult zero (CancellationStatusOther "").

(** ** Construction *)

Definition newWithRuntime (repo executor observer canceler cleaner resultSink clock : bool)
    : result Coordinator :=
  if decide (repo = false ∨ executor = false ∨ clock = false)
  then Err [ExecErrInvalidCoordinator : sentinel]
  else Ok (mkCoordinator repo executor observer canceler cleaner resultSink clock).

Definition NewWithRuntime (repo executor observer canceler cleaner clock : bool) : result Coordinator :=
  newWithRuntime repo executor observer canceler cleaner false clock.
Definition NewWithObserver (repo executor observer clock canceler : bool) : result Coordinator :=
  NewWithRuntime repo executor observer canceler false clock.
Definition New (repo executor clock canceler : bool) : result Coordinator :=
  NewWithRuntime repo executor false canceler false clock.
Definition NewWithRuntimeAndResultObserver (repo executor observer canceler cleaner resultSink clock : bool)
    : result Coordinator :=
  newWithRuntime repo executor observer canceler cleaner resultSink clock.

(** ** Contexts *)

(** [repository.ContextError] *)
Definition ContextError (ctx : Context) : prog (option goerr) :=
  match ctx with CtxNil => Ret (Some [Canceled : sentinel]) | _ => call (ECtxErr ctx) end.

Definition with_context {A} `{!Zero A} (ctx : Context) (k : prog (outcome A)) : prog (outcome A) :=
  err ← ContextError ctx; match err with Some e => fail e | None => k end.

Definition nonNilContext (ctx : Context) : Context :=
  match ctx with CtxNil => CtxBackground | _ => ctx end.

(** The guard every method starts with. *)
Definition usable {A} `{!Zero A} (present : bool) (k : prog (outcome A)) : prog (outcome A) :=
  if present then k else fail [ExecErrInvalidCoordinator : sentinel].

Section coordinator.
Context (c : Coordinator).

Definition observeResult (ctx : Context) (result : Result) : prog (Prelude.result unit) :=
  if c_resultSink c then call (EObserveResult ctx result) else Ret (Ok ()).

(** ** Start *)

Definition attachment_of (request : Request) (d : Dispatch) : ExecutionAttachment :=
  mkExecutionAttachment (rq_OperationID request) (rq_AttemptID request) (rq_SandboxID request)
    (rq_FencingToken request) (rq_ExpectedGeneration request) d.

Definition Start (ctx : Context) (request : Request) : prog (outcome ExecutionReservation) :=
  usable (c_repository c && c_executor c && c_clock c) (with_context ctx (
  now ← call ENow;
  Ret (Request_Validate request now) ;~
  '(reservation, err) ← call (EReserveExecutionAt ctx request now []);
  if decide (is_Some err ∨ xr_Replayed reservation = true) then Ret (reservation, err) else
  let operationContext := CtxWithDeadline ctx (rq_Deadline request) in
  err ← call (ECtxErr operationContext);
  match err with
  | Some e => Ret (reservation, Some e)
  | None =>
  started ← call (EStart operationContext (mkInvocation request now));
  match started with
  | Err e =>
      if errors_is e Canceled || errors_is e DeadlineExceeded
      then Ret (reservation, Some [ErrDispatchUnknown : sentinel])
      else Ret (reservation, Some e)
  | Ok reference =>
  attached ← call (EAttachExecution ctx (attachment_of request (mkDispatch reference now)));
  match attached with
  | Err e => Ret (reservation, Some ((ErrDispatchUnknown : sentinel) :: e))
  | Ok attached => done_with attached
  end end end)).

(** ** Queries *)

Definition coordinator_GetExecution (ctx : Context) (operationID : string) : prog (outcome ExecutionRecord) :=
  usable (c_repository c) (with_context ctx (pass (call (EGetExecution ctx operationID)))).

Definition coordinator_GetCancellation (ctx : Context) (operationID : string)
    : prog (outcome CancellationIntent) :=
  usable (c_repository c) (with_context ctx (pass (call (EGetCancellation ctx operationID)))).

Definition coordinator_GetCancellationReservation (ctx : Context) (operationID : string)
    : prog (outcome CancellationReservation) :=
  usable (c_repository c) (with_context ctx (pass (call (EGetCancellationReservation ctx operationID)))).

(** Retained output is due for cleanup. *)
Definition output_due (record : ExecutionRecord) (now : Time) : bool :=
  er_ResultExpired record
  || match er_Result record with
     | Some result => negb (bool_decide (Before now (r_RetainedUntil result)))
     | None => false
     end.

Definition GetResult (ctx : Context) (operationID : string) (now : Time) : prog (outcome Result) :=
  usable (c_repository c) (with_context ctx (
  record <~ call (EGetExecution ctx operationID);
  (if c_cleaner c && output_due record now then call (ECleanupResult ctx (er_Request record)) else Ret (Ok ())) ;~
  result <~ call (EGetResult ctx operationID now);
  observeResult ctx result ;~
  done_with result)).

(** ** Evidence *)

(** [if err := c.observeResult(ctx, result); err != nil { return result, err }; return result, nil] *)
Definition observed (ctx : Context) (result : Result) : prog (outcome Result) :=
  orelse (observeResult ctx result) (λ e, Ret (result, Some e)) (λ _, done_with result).

Definition StoreOutcome (ctx : Context) (operationID : string) (startedAt completedAt : Time)
    (o : ResultOutcome) : prog (outcome Result) :=
  usable (c_repository c) (with_context ctx (
  record <~ call (EGetExecution ctx operationID);
  match er_Result record with
  | Some result => observed ctx result
  | None =>
      let startedAt := if decide (IsZero startedAt) then er_ReservedAt record else startedAt in
      let completedAt := if decide (Before completedAt startedAt) then startedAt else completedAt in
      result <~ Ret (NewResult (er_Request record) startedAt completedAt o);
      call (EStoreResult ctx result) ;~
      observed ctx result
  end)).

Definition set_result (result : option Result) (r : ExecutionRecord) : ExecutionRecord :=
  mkExecutionRecord (er_Request r) (er_ReservedAt r) (er_Dispatch r) (er_Attached r) result
    (er_Terminal r) (er_ResultExpired r).
Definition set_terminal (t : option TerminalSummary) (r : ExecutionRecord) : ExecutionRecord :=
  mkExecutionRecord (er_Request r) (er_ReservedAt r) (er_Dispatch r) (er_Attached r) (er_Result r)
    t (er_ResultExpired r).

(** What follows a consistent receipt in [Reconcile]. *)
Definition settle (ctx : Context) (operationID : string) (observation : Observation)
    (record : ExecutionRecord) : prog (outcome ExecutionRecord) :=
  if ob_Running observation then done_with record else
  '(result, err) ← StoreOutcome ctx operationID (ob_StartedAt observation) (ob_CompletedAt observation)
                     (observation_outcome observation);
  match err with
  | Some e => Ret (record, Some e)
  | None =>
      let record := set_result (Some result) record in
      match NewTerminalSummary result with
      | Err e => Ret (record, Some e)
      | Ok terminal => done_with (set_terminal (Some terminal) record)
      end
  end.

Definition Reconcile (ctx : Context) (operationID : string) : prog (outcome ExecutionRecord) :=
  usable (c_repository c && c_clock c) (with_context ctx (
  record <~ call (EGetExecution ctx operationID);
  if decide (is_Some (er_Result record) ∨ er_ResultExpired record = true ∨ c_observer c = false)
  then done_with record else
  observation ← call (EObserve ctx (er_Request record));
  match observation with
  | Err e => Ret (record, Some e)
  | Ok observation =>
  if is_ok (Observation_Validate observation) then
    if er_Attached record then
      if decide (dp_ExecutionReference (er_Dispatch record) ≠ ob_ExecutionReference observation)
      then Ret (record, Some [ExecErrConflict : sentinel])
      else settle ctx operationID observation record
    else
      attached ← call (EAttachExecution ctx (attachment_of (er_Request record)
                         (mkDispatch (ob_ExecutionReference observation) (ob_StartedAt observation))));
      match attached with
      | Err e => Ret (record, Some e)
      | Ok attached => settle ctx operationID observation (xr_Execution attached)
      end
  else Ret (record, Some [ErrInvalidObservation : sentinel])
  end)).

(** ** Recovery *)

Definition unknown_outcome : ResultOutcome :=
  mkResultOutcome ResultOutcomeUnknown None "" "" ""
    (Some (mkResultError "SANDBOX_EXEC_OUTCOME_UNKNOWN" "execution outcome requires reconciliation" true
             ErrorOutcomeUnknown)).

(** One unfinished record: what is appended to the results, or the error to return. *)
Definition recover_pending (ctx : Context) (record : ExecutionRecord) : prog (result ExecutionRecord) :=
  '(reconciled, err) ← Reconcile ctx (rq_OperationID (er_Request record));
  match err with
  | None => Ret (Ok reconciled)
  | Some e =>
      if errors_is e ErrExecutionNotFound then
        now ← call ENow;
        '(result, err) ← StoreOutcome ctx (rq_OperationID (er_Request record)) (er_ReservedAt record) now
                           unknown_outcome;
        match err with
        | Some e => Ret (Err e)
        | None => Ret (Ok (set_result (Some result) record))
        end
      else Ret (Err e)
  end.

(** One record with retained evidence. *)
Definition recover_retained (ctx : Context) (record : ExecutionRecord) (result : Result)
    : prog (Prelude.result unit) :=
  observedErr ← observeResult ctx result;
  match observedErr with
  | Err e => Ret (Err e)
  | Ok _ =>
      now ← call ENow;
      if decide (¬ Before now (r_RetainedUntil result)) then
        now ← call ENow;
        '(_, err) ← GetResult ctx (rq_OperationID (er_Request record)) now;
        match err with
        | Some e => if errors_is e ErrExpired then Ret (Ok ()) else Ret (Err e)
        | None => Ret (Ok ())
        end
      else Ret (Ok ())
  end.

Fixpoint recover_all (ctx : Context) (records results : list ExecutionRecord)
    : prog (outcome (list ExecutionRecord)) :=
  match records with
  | [] => done_with results
  | record :: records =>
      if er_ResultExpired record then
        orelse (if c_cleaner c then call (ECleanupResult ctx (er_Request record)) else Ret (Ok ()))
          (λ e, Ret (results, Some e)) (λ _, recover_all ctx records results)
      else
      match er_Result record with
      | Some result =>
          orelse (recover_retained ctx record result)
            (λ e, Ret (results, Some e)) (λ _, recover_all ctx records results)
      | None =>
          orelse (recover_pending ctx record)
            (λ e, Ret (results, Some e)) (λ reconciled, recover_all ctx records (results ++ [reconciled]))
      end
  end.

Definition Recover (ctx : Context) : prog (outcome (list ExecutionRecord)) :=
  usable (c_repository c) (
  records <~ call (EListExecutions ctx);
  recover_all ctx records []).

(** ** Cancellation *)

(** The external cancellation of an attached target and its evidence. *)
Definition cancel_target (ctx : Context) (intent : CancellationIntent) (target : ExecutionRecord)
    (pending : CancellationResult) : prog (outcome CancellationResult) :=
  let cancelContext := CtxWithDeadline ctx (ci_Deadline intent) in
  err ← call (ECtxErr cancelContext);
  match err with
  | Some e => Ret (pending, Some e)
  | None =>
  orelse (call (ECancel cancelContext (attachment_of (er_Request target) (er_Dispatch target))))
    (λ e, Ret (pending, Some e)) (λ _,
  now ← call ENow;
  let now := if decide (Before now (dp_AcceptedAt (er_Dispatch target)))
             then dp_AcceptedAt (er_Dispatch target) else now in
  match NewResult (er_Request target) (dp_AcceptedAt (er_Dispatch target)) now
          (mkResultOutcome ResultCancelled None "" "" "" None) with
  | Err e => Ret (pending, Some e)
  | Ok retained =>
      let writeCtx := CtxWithTimeout (CtxWithoutCancel (nonNilContext ctx)) cancellationPersistenceTimeout in
      orelse (call (EStoreResult writeCtx retained)) (λ e, Ret (pending, Some e)) (λ _,
      orelse (observeResult writeCtx retained) (λ e, Ret (pending, Some e)) (λ _,
      done_with (mkCancellationResult (cr_Reservation pending) CancellationConfirmed)))
  end)
  end.

Definition Cancel (ctx : Context) (intent : CancellationIntent) : prog (outcome CancellationResult) :=
  usable (c_repository c && c_clock c) (with_context ctx (
  now ← call ENow;
  reservation <~ call (EReserveCancellationAt ctx intent now);
  let intent := if xc_Replayed reservation then xc_Intent reservation else intent in
  let pending := mkCancellationResult reservation CancellationPending in
  orelse (call (EGetExecution ctx (ci_TargetOperationID intent))) (λ e, Ret (pending, Some e)) (λ target,
  if xc_Replayed reservation then
    done_with (mkCancellationResult reservation
      (match er_Terminal target with
       | Some t => if decide (ts_Status t = ResultCancelled) then CancellationConfirmed else CancellationPending
       | None => CancellationPending
       end))
  else if er_Attached target && c_canceler c then cancel_target ctx intent target pending
  else done_with pending))).

End coordinator.
