(* ===== verification/ExecConcurrency.v ===== *)
(** * The execution coordinator under concurrency

    The coordinator has no lock of its own: any number of its methods may run
    at once over one repository, interleaved call by call, and any of them may
    stop for good at any call.  The guarantees are therefore about pools of
    threads ([Threads]): an execution is started at most once, and every
    receipt and every known outcome on record was reported by the runtime. *)

From S2P Require Import Prelude Program Threads ExecModel ExecState ExecInvariant ExecRepository ExecPorts ExecCoordinator.
From stdpp Require Import base gmap strings list fin_maps relations.
From Stdlib Require Import ZArith Lia.

Local Open Scope Z_scope.

(** ** The interface *)

Inductive exec_api :=
  | ApiStart (ctx : Context) (request : Request)
  | ApiGetExecution (ctx : Context) (id : string)
  | ApiGetCancellation (ctx : Context) (id : string)
  | ApiGetCancellationReservation (ctx : Context) (id : string)
  | ApiGetResult (ctx : Context) (id : string) (now : Time)
  | ApiStoreOutcome (ctx : Context) (id : string) (startedAt completedAt : Time) (o : ResultOutcome)
  | ApiReconcile (ctx : Context) (id : string)
  | ApiRecover (ctx : Context)
  | ApiCancel (ctx : Context) (intent : CancellationIntent).

Definition api_prog (c : Coordinator) (a : exec_api) : prog () :=
  match a with
  | ApiStart ctx rq => discard (Start c ctx rq)
  | ApiGetExecution ctx id => discard (coordinator_GetExecution c ctx id)
  | ApiGetCancellation ctx id => discard (coordinator_GetCancellation c ctx id)
  | ApiGetCancellationReservation ctx id => discard (coordinator_GetCancellationReservation c ctx id)
  | ApiGetResult ctx id now => discard (GetResult c ctx id now)
  | ApiStoreOutcome ctx id st ct o => discard (StoreOutcome c ctx id st ct o)
  | ApiReconcile ctx id => discard (Reconcile c ctx id)
  | ApiRecover ctx => discard (Recover c ctx)
  | ApiCancel ctx i => discard (ExecCoordinator.Cancel c ctx i)
  end.

(** Callers that hand in evidence themselves are left out where the origin of
    evidence matters. *)
Definition hands_in_evidence (a : exec_api) : Prop :=
  match a with ApiStoreOutcome _ _ _ _ _ => True | _ => False end.

(** [trusting] pools have such callers, others do not. *)
Definition spawn (trusting : bool) (p : prog ()) : Prop :=
  ∃ c a, p = api_prog c a ∧ (trusting = false → ¬ hands_in_evidence a).

Definition pool_run (trusting : bool) (s : State) (ts : list (thread eff)) : Prop :=
  rtc (pool_step (@respond) (spawn trusting)) (NewState, []) (s, ts).

(** ** What traces say *)

Definition started_by (ev : event eff) : option string :=
  match ev with
  | Ev (EStart _ inv) _ => Some (rq_OperationID (iv_Request inv))
  | _ => None
  end.

Definition fresh_reservation (rq : Request) (x : outcome ExecutionReservation) : option string :=
  match x with
  | (r, None) => if xr_Replayed r then None else Some (rq_OperationID rq)
  | (_, Some _) => None
  end.

Definition reserved_by (ev : event eff) : option string :=
  let '@Ev _ X e x := ev in
  match e in eff X return X → option string with
  | EReserveExecutionAt _ rq _ _ => λ x, fresh_reservation rq x
  | _ => λ _, None
  end x.

Definition cancelled_by (ev : event eff) : option string :=
  match ev with
  | Ev (ECancel _ a) _ => Some (ea_OperationID a)
  | _ => None
  end.

Definition fresh_intent (i : CancellationIntent) (x : result CancellationReservation)
    : option CancellationIntent :=
  match x with
  | Ok r => if xc_Replayed r then None else Some i
  | Err _ => None
  end.

Definition intended_by (ev : event eff) : option CancellationIntent :=
  let '@Ev _ X e x := ev in
  match e in eff X return X → option CancellationIntent with
  | EReserveCancellationAt _ i _ => λ x, fresh_intent i x
  | _ => λ _, None
  end x.

Definition starts (tr : list (event eff)) : list string := omap started_by tr.
Definition reservations (tr : list (event eff)) : list string := omap reserved_by tr.
Definition cancels (tr : list (event eff)) : list string := omap cancelled_by tr.
Definition intents (tr : list (event eff)) : list CancellationIntent := omap intended_by tr.

(** A receipt comes from the executor's answer or from an observation. *)
Definition receipt_known (tr : list (event eff)) (operationID reference : string) : Prop :=
  (∃ ctx inv, Ev (EStart ctx inv) (Ok reference) ∈ tr ∧ rq_OperationID (iv_Request inv) = operationID) ∨
  (∃ ctx rq o, Ev (EObserve ctx rq) (Ok o) ∈ tr ∧ rq_OperationID rq = operationID ∧
     ob_ExecutionReference o = reference).

(** A known outcome comes from a confirmed cancellation or from an observation
    of the finished process; an unknown outcome claims nothing. *)
Definition evidence_known (tr : list (event eff)) (operationID : string) (o : ResultOutcome) : Prop :=
  ro_Status o = ResultOutcomeUnknown ∨
  (∃ ctx a, Ev (ECancel ctx a) (Ok ()) ∈ tr ∧ ea_OperationID a = operationID ∧ ro_Status o = ResultCancelled) ∨
  (∃ ctx rq ob, Ev (EObserve ctx rq) (Ok ob) ∈ tr ∧ rq_OperationID rq = operationID ∧
     ob_Running ob = false ∧ Observation_Validate ob = Ok () ∧ o = observation_outcome ob).

Definition outcome_of (r : Result) : ResultOutcome :=
  mkResultOutcome (r_Status r) (r_ExitCode r) (r_Signal r) (r_StdoutReference r) (r_StderrReference r)
    (r_Error r).

(** ** The rule *)

Definition rule (trusting : bool) (tr : list (event eff)) (X : Type) (e : eff X) : Prop :=
  match e with
  | EReserveExecutionAt _ _ _ d => d = []
  | EReserveCancellationAt _ _ now => 0 < now
  | EStart _ inv => rq_OperationID (iv_Request inv) :: starts tr ⊆+ reservations tr
  | ECancel _ a => ea_OperationID a :: cancels tr ⊆+ (ci_TargetOperationID <$> intents tr)
  | EAttachExecution _ a => receipt_known tr (ea_OperationID a) (dp_ExecutionReference (ea_Dispatch a))
  | EStoreResult _ r => trusting = true ∨ evidence_known tr (r_OperationID r) (outcome_of r)
  | _ => True
  end.

Definition plausible (X : Type) (e : eff X) : X → Prop :=
  match e in eff X return X → Prop with
  | ENow => λ x, 0 < x
  | EGetExecution _ id => λ x, match x with Ok r => rq_OperationID (er_Request r) = id | Err _ => True end
  | _ => λ _, True
  end.

Lemma receipt_known_mono tr tr' id ref : tr ⊆ tr' → receipt_known tr id ref → receipt_known tr' id ref.
Proof. unfold receipt_known. set_solver. Qed.

Lemma evidence_known_mono tr tr' id o : tr ⊆ tr' → evidence_known tr id o → evidence_known tr' id o.
Proof.
  intros Hs [?|[(ctx&a&?&?&?)|(ctx&rq&ob&?&?)]]; [by left|right; left|right; right].
  - exists ctx, a. split_and!; auto.
  - exists ctx, rq, ob. split; auto.
Qed.

(** ** The methods follow the rule *)

Section methods.
Context (trusting : bool) (c : Coordinator).
Abbreviation obeys := (follows (rule trusting) plausible).

Lemma obeys_usable {A} `{!Zero A} b (k : prog (outcome A)) tr :
  obeys k tr (λ _ _, True) → obeys (usable b k) tr (λ _ _, True).
Proof. by destruct b. Qed.

Lemma obeys_context {A} `{!Zero A} ctx (k : prog (outcome A)) tr :
  (∀ tr', tr ⊆ tr' → starts tr' = starts tr → cancels tr' = cancels tr →
     reservations tr' = reservations tr → intents tr' = intents tr → obeys k tr' (λ _ _, True)) →
  obeys (with_context ctx k) tr (λ _ _, True).
Proof.
  intros Hk. unfold with_context, ContextError.
  destruct ctx; cbn; [done|..]; (split; [done|]); intros [e|] _; cbn; try done; apply Hk; set_solver.
Qed.

Lemma obeys_seq {A B} (p : prog A) (f : A → prog B) tr Q :
  obeys p tr (λ _ _, True) → (∀ a tr, obeys (f a) tr Q) → obeys (p ≫= f) tr Q.
Proof. intros Hp Hf. apply follows_bind. eapply follows_mono; [|exact Hp]. intros. apply Hf. Qed.

Lemma obeys_orelse {A B} (m : prog (result A)) (z : goerr → prog B) (k : A → prog B) tr Q :
  obeys m tr (λ _ _, True) → (∀ e tr, obeys (z e) tr Q) → (∀ a tr, obeys (k a) tr Q) →
  obeys (orelse m z k) tr Q.
Proof. intros Hm Hz Hk. apply obeys_seq; [done|]. intros [a|e] tr'; auto. Qed.

Lemma obeys_observeResult ctx r tr : obeys (observeResult c ctx r) tr (λ _ _, True).
Proof. unfold observeResult. by destruct (c_resultSink c). Qed.

Lemma obeys_observed ctx r tr : obeys (observed c ctx r) tr (λ _ _, True).
Proof. apply obeys_orelse; [apply obeys_observeResult|done..]. Qed.

Lemma NewResult_outcome rq st ct o r :
  NewResult rq st ct o = Ok r → outcome_of r = o ∧ r_OperationID r = rq_OperationID rq.
Proof. unfold NewResult. intros H. inv_ok H. by destruct o. Qed.

Lemma obeys_StoreOutcome ctx id st ct o tr :
  trusting = true ∨ evidence_known tr id o → obeys (StoreOutcome c ctx id st ct o) tr (λ _ _, True).
Proof.
  intros Ho. apply obeys_usable, obeys_context. intros tr1 Hsub _ _ _ _. cbn.
  split; [done|]. intros [record|e] Hid; cbn; [|done].
  destruct (er_Result record) as [r|]; [apply obeys_observed|].
  destruct (NewResult _ _ _ _) as [r|e] eqn:En; cbn; [|done].
  apply NewResult_outcome in En as [Hout Hop]. split.
  - destruct Ho as [?|Ho]; [by left|right]. rewrite Hout, Hop, Hid. eapply evidence_known_mono; [|done]. set_solver.
  - intros [[]|e] _; [apply obeys_observed|done].
Qed.

Lemma obeys_settle ctx id ob record tr :
  trusting = true ∨ ob_Running ob = true ∨ evidence_known tr id (observation_outcome ob) →
  obeys (settle c ctx id ob record) tr (λ _ _, True).
Proof.
  intros Ho. unfold settle. destruct (ob_Running ob); [done|].
  apply obeys_seq; [apply obeys_StoreOutcome; naive_solver|]. intros [r [e|]] tr'; [done|].
  by destruct (NewTerminalSummary r).
Qed.

Lemma obeys_Reconcile ctx id tr : obeys (Reconcile c ctx id) tr (λ _ _, True).
Proof.
  apply obeys_usable, obeys_context. intros tr1 _ _ _ _ _. cbn.
  split; [done|]. intros [record|e] Hid; cbn; [|done]. case_decide; [done|]. cbn.
  split; [done|]. intros [ob|e] _; cbn; [|done].
  destruct (Observation_Validate ob) as [[]|] eqn:Hval; cbn; [|done].
  set (tr2 := Ev (EObserve _ _) _ :: _).
  assert (Hev : ∀ tr', tr2 ⊆ tr' → trusting = true ∨ ob_Running ob = true ∨
    evidence_known tr' id (observation_outcome ob)).
  { intros tr' Hs. right. destruct (ob_Running ob) eqn:Er; [by left|right]. right. right.
    exists ctx, (er_Request record), ob. split_and!; try done. apply Hs. left. }
  destruct (er_Attached record).
  - case_decide; [done|]. by apply obeys_settle, Hev.
  - cbn. split.
    + right. exists ctx, (er_Request record), ob. split_and!; try done. left.
    + intros [a|e] _; [|done]. apply obeys_settle, Hev. set_solver.
Qed.

Lemma obeys_GetResult ctx id now tr : obeys (GetResult c ctx id now) tr (λ _ _, True).
Proof.
  apply obeys_usable, obeys_context. intros tr1 _ _ _ _ _. cbn.
  split; [done|]. intros [record|e] _; cbn; [|done].
  apply obeys_orelse; [by destruct (_ && _)|done|]. intros [] tr2. cbn.
  split; [done|]. intros [r|e] _; [|done]. apply obeys_orelse; [apply obeys_observeResult|done..].
Qed.

Lemma obeys_recover_pending ctx record tr : obeys (recover_pending c ctx record) tr (λ _ _, True).
Proof.
  apply obeys_seq; [apply obeys_Reconcile|]. intros [r [e|]] tr1; [|done].
  destruct (errors_is _ _); [|done]. cbn. split; [done|]. intros now _.
  apply obeys_seq; [|by intros [r' [e'|]] tr2]. apply obeys_StoreOutcome. right. by left.
Qed.

Lemma obeys_recover_retained ctx record r tr : obeys (recover_retained c ctx record r) tr (λ _ _, True).
Proof.
  apply obeys_seq; [apply obeys_observeResult|]. intros [[]|e] tr1; [|done]. cbn.
  split; [done|]. intros now _. case_decide; [|done]. cbn. split; [done|]. intros now' _.
  apply obeys_seq; [apply obeys_GetResult|]. intros [r' [e|]] tr2; [|done]. by destruct (errors_is _ _).
Qed.

Lemma obeys_recover_all ctx records results tr :
  obeys (recover_all c ctx records results) tr (λ _ _, True).
Proof.
  revert results tr. induction records as [|record records IH]; intros results tr; [done|]. cbn.
  destruct (er_ResultExpired record).
  { apply obeys_orelse; [by destruct (c_cleaner c)|done|intros; apply IH]. }
  destruct (er_Result record).
  - apply obeys_orelse; [apply obeys_recover_retained|done|intros; apply IH].
  - apply obeys_orelse; [apply obeys_recover_pending|done|intros; apply IH].
Qed.

Lemma obeys_Recover ctx tr : obeys (Recover c ctx) tr (λ _ _, True).
Proof.
  apply obeys_usable. cbn. split; [done|]. intros [records|e] _; [|done]. apply obeys_recover_all.
Qed.

Lemma obeys_Start ctx rq tr0 : starts tr0 = [] → reservations tr0 = [] → obeys (Start c ctx rq) tr0 (λ _ _, True).
Proof.
  intros Hs0 Hr0. apply obeys_usable, obeys_context. intros tr _ Hst _ Hrs _. rewrite Hs0 in Hst. rewrite Hr0 in Hrs. cbn. split; [done|]. intros now _.
  destruct (Request_Validate rq now) as [[]|e]; cbn; [|done]. split; [done|].
  intros [r err] _; cbn. case_decide as Hd; [done|].
  assert (err = None ∧ xr_Replayed r = false) as [-> Er] by (destruct err, (xr_Replayed r); naive_solver). cbn. split; [done|].
  intros [e|] _; [done|]. cbn. split.
  { rewrite Er. unfold starts, reservations in Hst, Hrs. rewrite Hst, Hrs. done. }
  intros [ref|e] _; [|by destruct (_ || _)]. cbn. split.
  - left. eexists _, _. split; [left|done].
  - by intros [a|e] _.
Qed.

Lemma obeys_Cancel ctx i tr0 : cancels tr0 = [] → intents tr0 = [] → obeys (ExecCoordinator.Cancel c ctx i) tr0 (λ _ _, True).
Proof.
  intros Hc0 Hi0. apply obeys_usable, obeys_context. intros tr _ _ Hcs _ His. rewrite Hc0 in Hcs. rewrite Hi0 in His. cbn. split; [done|]. intros now Hnow.
  split; [done|]. intros [r|e] _; cbn; [|done]. split; [done|]. intros [target|e] Htg; [|done].
  destruct (xc_Replayed r) eqn:Er; [done|]. destruct (_ && _); [|done]. cbn. split; [done|].
  intros [e|] _; [done|]. cbn. split.
  { rewrite Er. unfold cancels, intents in Hcs, His. rewrite Hcs, His. cbn. cbn in Htg. by rewrite Htg. }
  intros [[]|e] _; [|done]. cbn. split; [done|]. intros now2 _.
  destruct (NewResult _ _ _ _) as [res|e] eqn:En; cbn; [|done].
  apply NewResult_outcome in En as [Hout Hop]. split.
  - right. rewrite Hout, Hop. right. left. eexists _, _. split_and!; [by do 1 right; left|done|done].
  - intros [[]|e] _; [|done]. apply obeys_orelse; [apply obeys_observeResult|done..].
Qed.

Lemma obeys_api a : (trusting = false → ¬ hands_in_evidence a) → obeys (api_prog c a) [] (λ _ _, True).
Proof.
  intros Ha. destruct a; (apply obeys_seq; [|done]).
  - by apply obeys_Start.
  - apply obeys_usable, obeys_context. intros. cbn. split; [done|]. by intros [].
  - apply obeys_usable, obeys_context. intros. cbn. split; [done|]. by intros [].
  - apply obeys_usable, obeys_context. intros. cbn. split; [done|]. by intros [].
  - apply obeys_GetResult.
  - apply obeys_StoreOutcome. destruct trusting; [by left|]. destruct Ha; done.
  - apply obeys_Reconcile.
  - apply obeys_Recover.
  - by apply obeys_Cancel.
Qed.
End methods.

(** ** Pools *)

Lemma respond_timely {X} (e : eff X) s x s' :
  (∀ cl, call_of e = Some cl → timely cl) → exec_wf s → respond e s x s' → exec_wf s' ∧ plausible X e x.
Proof.
  intros Hr Hs Hx. split.
  - destruct (respond_state e s x s' Hx) as [-> | (cl & Hc & ->)]; [done|]. apply exec_apply_wf; auto.
  - destruct e; cbn in *; try done; [by destruct Hx|].
    destruct x as [r|]; [|done]. apply answers_read_Ok in Hx as [Hg ->].
    unfold GetExecution in Hg. destruct (Executions s !! id) as [r'|] eqn:Ek; simplify_eq.
    by destruct (xw_record s Hs _ _ Ek).
Qed.

Lemma respond_wf trusting {X} (e : eff X) tr s x s' :
  rule trusting tr X e → exec_wf s → respond e s x s' → exec_wf s' ∧ plausible X e x.
Proof. intros Hr. apply respond_timely. intros cl Hc. destruct e; cbn in *; simplify_eq; done. Qed.

Lemma pool_obeys trusting s ts :
  pool_run trusting s ts →
  exec_wf s ∧ ∀ th, th ∈ ts → lawful (rule trusting) (th_trace th) ∧
    follows (rule trusting) plausible (th_prog th) (th_trace th) (λ _ _, True).
Proof.
  intros Hrun. eapply pool_lawful; [| |apply exec_wf_init|exact Hrun].
  - intros. by eapply respond_wf.
  - intros p (c & a & -> & Ha). by apply obeys_api.
Qed.

(** *** Calls and the state *)

(** Where a receipt and a summary of the next state come from. *)
Lemma exec_apply_receipt c s k r' :
  Executions (exec_apply c s) !! k = Some r' → er_Attached r' = true →
  (∃ r, Executions s !! k = Some r ∧ er_Attached r = true ∧ er_Dispatch r' = er_Dispatch r) ∨
  (∃ a, c = XAttach a ∧ ea_OperationID a = k ∧ er_Dispatch r' = ea_Dispatch a) ∨
  (∃ rq at_ d, c = XReserve rq at_ d ∧ d ≠ []).
Proof.
  intros Hk Ha. destruct c; cbn in Hk.
  - destruct d; [|right; right; eauto 6]. destruct (reserveExecutionAt _ _ _ _) as [[x s']|] eqn:E; [|left; eauto].
    unfold reserveExecutionAt, conflict, corrupt in E. inv_ok E.
    destruct (ExecutionIdempotency s !! _).
    + inv_ok E. destruct (Executions s !! ir_OperationID i); inv_ok E. left; eauto.
    + inv_ok E. cbn in Hk. ins_inv Hk; [done|left; eauto].
  - destruct (AttachExecution _ _) as [[x s']|] eqn:E; [|left; eauto].
    apply attach_Ok in E as (_&rec&Hrec&_&_&[(_&_&_&->)|(_&_&_&->)]); [left; eauto|].
    cbn in Hk. ins_inv Hk; [right; left; eauto|left; eauto].
  - destruct (ReserveCancellation _ _ _) as [[x s']|] eqn:E; [|left; eauto].
    apply cancel_Ok in E as (_&[(?&?&?&_&_&_&_&_&_&->)|(_&_&_&_&_&->)]); left; eauto.
  - destruct (StoreResult _ _) as [[[] s']|] eqn:E; [|left; eauto].
    apply store_Ok in E as (_&rec&Hrec&_&[[_ ->]|(_&_&_&_&_&_&_&->)]); [left; eauto|].
    cbn in Hk. ins_inv Hk; left; eauto.
  - destruct (ReadResult op now s) as [[x b] s'] eqn:E. cbn in Hk.
    apply read_cases in E as [[-> _]|(rec&res&Hrec&_&_&_&_&_&->)]; [left; eauto|].
    cbn in Hk. ins_inv Hk; left; eauto.
Qed.

Lemma exec_apply_summary c s k r' t :
  Executions (exec_apply c s) !! k = Some r' → er_Terminal r' = Some t →
  (∃ r, Executions s !! k = Some r ∧ er_Terminal r = Some t) ∨
  (∃ res, c = XStore res ∧ r_OperationID res = k ∧ t = summary_of res).
Proof.
  intros Hk Ht. destruct c; cbn in Hk.
  - destruct (reserveExecutionAt _ _ _ _) as [[x s']|] eqn:E; [|left; eauto].
    apply reserve_Ok in E as (_&_&[(?&?&_&_&_&_&_&->)|(rec&_&_&_&_&_&_&Hn&_&_&_&_&->)]); [left; eauto|].
    cbn in Hk. ins_inv Hk; [congruence|left; eauto].
  - destruct (AttachExecution _ _) as [[x s']|] eqn:E; [|left; eauto].
    apply attach_Ok in E as (_&rec&Hrec&_&_&[(_&_&_&->)|(_&_&_&->)]); [left; eauto|].
    cbn in Hk. ins_inv Hk; left; eauto.
  - destruct (ReserveCancellation _ _ _) as [[x s']|] eqn:E; [|left; eauto].
    apply cancel_Ok in E as (_&[(?&?&?&_&_&_&_&_&_&->)|(_&_&_&_&_&->)]); left; eauto.
  - destruct (StoreResult _ _) as [[[] s']|] eqn:E; [|left; eauto].
    apply store_Ok in E as (_&rec&Hrec&_&[[_ ->]|(_&_&_&_&_&_&_&->)]); [left; eauto|].
    cbn in Hk. ins_inv Hk; [|left; eauto]. cbn in Ht. simplify_eq. right. eauto.
  - destruct (ReadResult op now s) as [[x b] s'] eqn:E. cbn in Hk.
    apply read_cases in E as [[-> _]|(rec&res&Hrec&_&_&_&_&_&->)]; [left; eauto|].
    cbn in Hk. ins_inv Hk; left; eauto.
Qed.

(** What the calls made so far say about the state. *)
Record ledger (evs : list (event eff)) (s : State) : Prop := mkLedger {
  lg_reserved : NoDup (reservations evs) ∧
    ∀ id, id ∈ reservations evs → is_Some (Executions s !! id);
  lg_intended : NoDup (ci_OperationID <$> intents evs) ∧
    ∀ i, i ∈ intents evs → CancellationIntents s !! ci_OperationID i = Some i;
  lg_receipt k r : Executions s !! k = Some r → er_Attached r = true →
    ∃ ctx a x, Ev (EAttachExecution ctx a) x ∈ evs ∧ ea_OperationID a = k ∧ ea_Dispatch a = er_Dispatch r;
  lg_summary k r t : Executions s !! k = Some r → er_Terminal r = Some t →
    ∃ ctx res x, Ev (EStoreResult ctx res) x ∈ evs ∧ r_OperationID res = k ∧ t = summary_of res;
}.

#[export] Instance ledger_proper : Proper ((≡ₚ) ==> (=) ==> impl) ledger.
Proof.
  intros evs evs' Hp s _ <- [[H1 H2] [H3 H4] H5 H6].
  assert (Hr : reservations evs ≡ₚ reservations evs') by (by apply omap_Permutation).
  assert (Hi : intents evs ≡ₚ intents evs') by (by apply omap_Permutation).
  split.
  - setoid_rewrite <- Hr. done.
  - setoid_rewrite <- Hi. done.
  - setoid_rewrite <- Hp. done.
  - setoid_rewrite <- Hp. done.
Qed.

Lemma ledger_init : ledger [] NewState.
Proof.
  split; cbn; try (split; [apply NoDup_nil_2|set_solver]); intros *; by rewrite lookup_empty.
Qed.

(** Records stay on record. *)
Lemma respond_keeps {X} (e : eff X) s x s' :
  exec_wf s → respond e s x s' →
  (∀ k, is_Some (Executions s !! k) → is_Some (Executions s' !! k)) ∧
  CancellationIntents s ⊆ CancellationIntents s'.
Proof.
  intros Hs Hx. destruct (respond_state e s x s' Hx) as [-> | (c & _ & ->)]; [done|]. split.
  - intros k [r Hk]. destruct (exec_apply_evolves c s k r Hs Hk) as (r' & ? & _). eauto.
  - by destruct (exec_apply_grows c s Hs) as (_&?&_).
Qed.

Lemma reserved_fresh {X} (e : eff X) s x s' id :
  respond e s x s' → reserved_by (Ev e x) = Some id →
  Executions s !! id = None ∧ is_Some (Executions s' !! id).
Proof.
  intros Hx Hr. destruct e; cbn in Hr; try done. unfold fresh_reservation in Hr.
  destruct x as [r [err|]]; [done|]. destruct (xr_Replayed r) eqn:Er; [done|]. injection Hr as <-.
  apply answers_reserve_Ok in Hx. apply reserve_Ok in Hx as (_&_&[(?&?&_&_&_&_&->&_)|Hnew]); [done|].
  destruct Hnew as (rec&_&He&_&_&_&_&_&_&_&_&_&->). split; [done|]. cbn. by rewrite lookup_insert_eq.
Qed.

Lemma intended_fresh {X} (e : eff X) s x s' i :
  respond e s x s' → intended_by (Ev e x) = Some i →
  CancellationIntents s !! ci_OperationID i = None ∧ CancellationIntents s' !! ci_OperationID i = Some i.
Proof.
  intros Hx Hr. destruct e; cbn in Hr; try done. unfold fresh_intent in Hr.
  destruct x as [r|]; [|done]. destruct (xc_Replayed r) eqn:Er; [done|]. injection Hr as <-.
  apply exec_answers_write_Ok in Hx. apply cancel_Ok in Hx as (_&[(?&?&?&_&_&_&_&_&->&_)|(_&_&_&Hn&_&->)]); [done|].
  split; [done|]. cbn. by rewrite lookup_insert_eq.
Qed.

Lemma ledger_step trusting {X} (e : eff X) tr evs s x s' :
  rule trusting tr X e → exec_wf s → ledger evs s → respond e s x s' → ledger (Ev e x :: evs) s'.
Proof.
  intros Hrule Hs [[H1 H2] [H3 H4] H5 H6] Hx. destruct (respond_keeps e s x s' Hs Hx) as [Hkeep Hsub]. split.
  - change (reservations (Ev e x :: evs)) with
      (match reserved_by (Ev e x) with Some id => id :: reservations evs | None => reservations evs end).
    destruct (reserved_by _) as [id|] eqn:Er; [|by auto].
    destruct (reserved_fresh e s x s' id Hx Er) as [Hn Hy]. split.
    + apply NoDup_cons. split; [|done]. intros [? ?]%H2. congruence.
    + intros id' [->|Hid]%elem_of_cons; auto.
  - change (intents (Ev e x :: evs)) with
      (match intended_by (Ev e x) with Some i => i :: intents evs | None => intents evs end).
    assert (Hold : ∀ i, i ∈ intents evs → CancellationIntents s' !! ci_OperationID i = Some i).
    { intros i Hi. by eapply lookup_weaken; [apply H4|]. }
    destruct (intended_by _) as [i|] eqn:Er; [|done].
    destruct (intended_fresh e s x s' i Hx Er) as [Hn Hy]. split.
    + apply NoDup_cons. split; [|done]. intros (i' & Heq & Hi')%list_elem_of_fmap.
      apply H4 in Hi'. congruence.
    + intros i' [->|Hid]%elem_of_cons; auto.
  - intros k r' Hk Ha.
    destruct (respond_state e s x s' Hx) as [-> | (c & Hc & ->)];
      [destruct (H5 k r' Hk Ha) as (ctx&a&y&?&?); exists ctx, a, y; split; [by right|done]|].
    destruct (exec_apply_receipt c s k r' Hk Ha) as [(r&Hr&Har&->)|[(a&->&?&?)|(rq&at_&d&->&Hd)]].
    + destruct (H5 k r Hr Har) as (ctx&a&y&?&?). exists ctx, a, y. split; [by right|done].
    + destruct e; cbn in Hc; simplify_eq. eexists ctx, a, x. split; [left|done].
    + destruct e; cbn in Hc; by simplify_eq.
  - intros k r' t Hk Ht.
    destruct (respond_state e s x s' Hx) as [-> | (c & Hc & ->)];
      [destruct (H6 k r' t Hk Ht) as (ctx&a&y&?&?); exists ctx, a, y; split; [by right|done]|].
    destruct (exec_apply_summary c s k r' t Hk Ht) as [(r&Hr&Htr)|(res&->&?&?)].
    + destruct (H6 k r t Hr Htr) as (ctx&a&y&?&?). exists ctx, a, y. split; [by right|done].
    + destruct e; cbn in Hc; simplify_eq. eexists ctx, res, x. split; [left|done].
Qed.

Lemma pool_ledger trusting s ts : pool_run trusting s ts → ledger (events ts) s.
Proof.
  intros Hrun. enough (Hall : ∀ σ, rtc (pool_step (@respond) (spawn trusting)) (NewState, []) σ →
    ledger (events σ.2) σ.1) by apply (Hall _ Hrun).
  clear Hrun s ts. apply rtc_ind_r; [apply ledger_init|].
  intros σ1 σ2 Hrun Hstep Hl. destruct Hstep as [s ts p Hp|s ts1 tr X e k ts2 x s' Hr]; cbn in *; [done|].
  destruct (pool_obeys trusting _ _ Hrun) as [Hs Hts].
  destruct (Hts (mkThread tr (Vis e k))) as [_ [Hrule _]]; [set_solver|]. cbn in Hrule.
  rewrite (events_call ts1 tr (Vis e k) (k x) (Ev e x) ts2). by eapply ledger_step.
Qed.

(** *** Lawful traces *)

Lemma lawful_starts trusting tr : lawful (rule trusting) tr → starts tr ⊆+ reservations tr.
Proof.
  induction tr as [|[X e x] tr IH]; intros Hl; [done|]. destruct Hl as [Hr Hl]. specialize (IH Hl).
  destruct e; try exact IH; [|done]. cbn. destruct (fresh_reservation rq x); [by apply submseteq_cons|done].
Qed.

Lemma lawful_cancels trusting tr :
  lawful (rule trusting) tr → cancels tr ⊆+ (ci_TargetOperationID <$> intents tr).
Proof.
  induction tr as [|[X e x] tr IH]; intros Hl; [done|]. destruct Hl as [Hr Hl]. specialize (IH Hl).
  destruct e; try exact IH; [|done]. cbn. destruct (fresh_intent i x); [by apply submseteq_cons|done].
Qed.

Lemma suffix_tail_subseteq {A} (x : A) l k : x :: l `suffix_of` k → l ⊆ k.
Proof. intros [k' ->]. set_solver. Qed.

Lemma lawful_attach trusting tr ctx a x :
  lawful (rule trusting) tr → Ev (EAttachExecution ctx a) x ∈ tr →
  receipt_known tr (ea_OperationID a) (dp_ExecutionReference (ea_Dispatch a)).
Proof.
  intros Hl Hin. destruct (lawful_event _ _ _ Hl Hin) as (tr' & Hs & Hr).
  eapply receipt_known_mono; [by eapply suffix_tail_subseteq|exact Hr].
Qed.

Lemma lawful_store tr ctx res x :
  lawful (rule false) tr → Ev (EStoreResult ctx res) x ∈ tr →
  evidence_known tr (r_OperationID res) (outcome_of res).
Proof.
  intros Hl Hin. destruct (lawful_event _ _ _ Hl Hin) as (tr' & Hs & Hr). destruct Hr as [?|Hr]; [done|].
  eapply evidence_known_mono; [by eapply suffix_tail_subseteq|exact Hr].
Qed.
