(* ===== verification/ExecPoolGuarantees.v ===== *)
(** * Guarantees of the execution coordinator

    What holds of every interleaving of any number of calls of the coordinator,
    whoever crashes where, and what a single healthy call achieves. *)

From S2P Require Import Prelude Program Threads ExecModel ExecState ExecInvariant ExecRepository ExecGuarantees ExecPorts ExecMemory ExecCoordinator ExecConcurrency.
From stdpp Require Import base gmap strings list fin_maps relations.
From Stdlib Require Import ZArith Lia.

Local Open Scope Z_scope.

(** ** A sample pool *)

Module PoolRuns.
Definition finished : Observation :=
  mkObservation "ref:runtime/1" ResultCompleted false (ExecRuns.t0 + Second) (ExecRuns.t0 + 2 * Second)
    (Some 0) "" "ref:out/1" "" None.

(** A runtime that accepts everything and reports the process as finished. *)
Definition runtime : Runtime :=
  mkRuntime (λ _ _, Ok "ref:runtime/1") (λ _ _, Ok finished) (λ _ _, Ok ()) (λ _ _, Ok ()) (λ _ _, Ok ()).

Definition coordinator : Coordinator := mkCoordinator true true true true true true true.
Definition clock : positive := Z.to_pos ExecRuns.t0.
Definition world : World := mkWorld NewRepository [clock] [].

(** The same request twice, a cancellation, recovery. *)
Definition calls : list (prog ()) :=
  [api_prog coordinator (ApiStart CtxCaller ExecRuns.request);
   api_prog coordinator (ApiStart CtxCaller ExecRuns.request);
   api_prog coordinator (ApiRecover CtxCaller);
   api_prog coordinator (ApiCancel CtxCaller ExecRuns.cancellation)].

Definition final : list (thread eff) * World := pool_of (@handle runtime) calls world [].

Lemma final_run trusting : pool_run trusting (abs final.2) final.1.
Proof.
  apply (pool_sequence (@handle runtime) (@respond) (spawn trusting) abs
           (λ X e w, exec_handle_responds runtime e w) calls world []).
  repeat (apply Forall_cons; split; [eexists _, _; split; [reflexivity|intros _ []]|]). apply Forall_nil_2.
Qed.
End PoolRuns.

(** ** Dispatch *)

Lemma submseteq_nodup {A} (l k : list A) : l ⊆+ k → NoDup k → NoDup l.
Proof. intros [k' ->]%submseteq_Permutation Hnd. by apply NoDup_app in Hnd as [? _]. Qed.

Lemma events_starts trusting ts :
  (∀ th, th ∈ ts → lawful (rule trusting) (th_trace th)) → starts (events ts) ⊆+ reservations (events ts).
Proof.
  intros Hts. induction ts as [|th ts IH]; [done|]. unfold events, starts, reservations in *. cbn.
  rewrite !omap_app. apply submseteq_app; [apply (lawful_starts trusting), Hts; left|].
  apply IH. intros th' ?. apply Hts. by right.
Qed.

Lemma events_cancels trusting ts :
  (∀ th, th ∈ ts → lawful (rule trusting) (th_trace th)) →
  cancels (events ts) ⊆+ (ci_TargetOperationID <$> intents (events ts)).
Proof.
  intros Hts. induction ts as [|th ts IH]; [done|]. unfold events, cancels, intents in *. cbn.
  rewrite !omap_app, fmap_app. apply submseteq_app; [apply (lawful_cancels trusting), Hts; left|].
  apply IH. intros th' ?. apply Hts. by right.
Qed.

Lemma pool_lawful_traces trusting s ts :
  pool_run trusting s ts → ∀ th, th ∈ ts → lawful (rule trusting) (th_trace th).
Proof. intros Hrun th Hth. by destruct (pool_obeys trusting s ts Hrun) as [_ []%(λ H, H th Hth)]. Qed.

(** the executor is called at most once per execution.  Over every
    interleaving of any number of concurrent and repeated calls of the
    coordinator, with repository writes that fail, commit without an answer or
    are cut off by a crash, no operation id is ever started twice, and whatever
    was started is durably on record; the repository satisfies its invariant
    throughout. *)
Theorem started_at_most_once trusting s ts :
  pool_run trusting s ts →
  NoDup (starts (events ts)) ∧ (∀ id, id ∈ starts (events ts) → is_Some (Executions s !! id)) ∧ exec_wf s.
Proof.
  intros Hrun. destruct (pool_ledger trusting s ts Hrun) as [[Hnd Hrec] _ _ _].
  pose proof (events_starts trusting ts (pool_lawful_traces trusting s ts Hrun)) as Hsub.
  split_and!.
  - by eapply submseteq_nodup.
  - intros id Hid. apply Hrec. by eapply elem_of_submseteq.
  - by apply (pool_obeys trusting s ts).
Qed.

Lemma started_at_most_once_witness :
  starts (events PoolRuns.final.1) = ["exec-1"] ∧ NoDup (starts (events PoolRuns.final.1)).
Proof.
  split; [vm_compute; reflexivity|].
  exact (proj1 (started_at_most_once true _ _ (PoolRuns.final_run true))).
Defined.

(** ** Cancellation *)

(** the canceler is never called without a recorded intent, nor twice
    for one.  Over every interleaving, the calls of the canceler on an execution
    are at most as many as the distinct cancellation intents for it that were
    durably reserved, each under its own operation id and still on record. *)
Theorem cancellations_are_intended trusting s ts :
  pool_run trusting s ts →
  cancels (events ts) ⊆+ (ci_TargetOperationID <$> intents (events ts)) ∧
  NoDup (ci_OperationID <$> intents (events ts)) ∧
  ∀ i, i ∈ intents (events ts) → CancellationIntents s !! ci_OperationID i = Some i.
Proof.
  intros Hrun. destruct (pool_ledger trusting s ts Hrun) as [_ [Hnd Hrec] _ _].
  split; [|done]. apply (events_cancels trusting), (pool_lawful_traces trusting s ts Hrun).
Qed.

(** A start, the cancellation twice. *)
Definition cancel_pool : list (thread eff) * World :=
  pool_of (@handle PoolRuns.runtime)
    [api_prog PoolRuns.coordinator (ApiStart CtxCaller ExecRuns.request);
     api_prog PoolRuns.coordinator (ApiCancel CtxCaller ExecRuns.cancellation);
     api_prog PoolRuns.coordinator (ApiCancel CtxCaller ExecRuns.cancellation)] PoolRuns.world [].

Lemma cancel_pool_run trusting : pool_run trusting (abs cancel_pool.2) cancel_pool.1.
Proof.
  apply (pool_sequence (@handle PoolRuns.runtime) (@respond) (spawn trusting) abs
           (λ X e w, exec_handle_responds PoolRuns.runtime e w) _ PoolRuns.world []).
  repeat (apply Forall_cons; split; [eexists _, _; split; [reflexivity|intros _ []]|]). apply Forall_nil_2.
Qed.

Lemma cancellations_are_intended_witness :
  cancels (events cancel_pool.1) = ["exec-1"] ∧
  cancels (events cancel_pool.1) ⊆+ (ci_TargetOperationID <$> intents (events cancel_pool.1)).
Proof.
  split; [vm_compute; reflexivity|].
  exact (proj1 (cancellations_are_intended true _ _ (cancel_pool_run true))).
Defined.

(** ** Evidence *)

(** every receipt on record was issued by the runtime.  When an
    execution is attached, its reference is one the executor returned for this
    operation or the observer reported for it, also when the receipt was lost
    in a crash and recovered later. *)
Theorem receipts_are_reported trusting s ts k r :
  pool_run trusting s ts → Executions s !! k = Some r → er_Attached r = true →
  receipt_known (events ts) k (dp_ExecutionReference (er_Dispatch r)).
Proof.
  intros Hrun Hk Ha. destruct (pool_ledger trusting s ts Hrun) as [_ _ Hrec _].
  destruct (Hrec k r Hk Ha) as (ctx & a & x & (th & Hev & Hth)%in_events & <- & <-).
  eapply receipt_known_mono; [by apply trace_events|].
  eapply lawful_attach; [by eapply pool_lawful_traces|done].
Qed.

Lemma receipts_are_reported_witness :
  ∃ r, Executions (abs cancel_pool.2) !! "exec-1" = Some r ∧ er_Attached r = true ∧
    receipt_known (events cancel_pool.1) "exec-1" "ref:runtime/1".
Proof.
  destruct (Executions (abs cancel_pool.2) !! "exec-1") as [r|] eqn:E; [|vm_compute in E; discriminate].
  pose proof (receipts_are_reported true _ _ "exec-1" r (cancel_pool_run true) E) as Hr.
  exists r. vm_compute in E. injection E as <-. split; [reflexivity|]. split; [reflexivity|exact (Hr eq_refl)].
Defined.

(** every known outcome on record was reported by the runtime.  Where
    evidence is not handed in from outside, the terminal summary of an
    execution, retained or expired, either says that the outcome is unknown, or
    says cancelled and the canceler confirmed the cancellation of this
    execution, or repeats the status and the error of a valid observation of
    this execution after it had stopped. *)
Theorem outcomes_are_reported s ts k r t :
  pool_run false s ts → Executions s !! k = Some r → er_Terminal r = Some t →
  ts_Status t = ResultOutcomeUnknown ∨
  (ts_Status t = ResultCancelled ∧
     ∃ ctx a, Ev (ECancel ctx a) (Ok ()) ∈ events ts ∧ ea_OperationID a = k) ∨
  (∃ ctx rq ob, Ev (EObserve ctx rq) (Ok ob) ∈ events ts ∧ rq_OperationID rq = k ∧
     ob_Running ob = false ∧ Observation_Validate ob = Ok () ∧
     ts_Status t = ob_Status ob ∧ ts_Error t = ob_Error ob).
Proof.
  intros Hrun Hk Ht. destruct (pool_ledger false s ts Hrun) as [_ _ _ Hsum].
  destruct (Hsum k r t Hk Ht) as (ctx & res & x & (th & Hev & Hth)%in_events & <- & ->).
  assert (Hknown : evidence_known (events ts) (r_OperationID res) (outcome_of res)).
  { eapply evidence_known_mono; [by apply trace_events|].
    eapply lawful_store; [by eapply pool_lawful_traces|done]. }
  destruct Hknown as [?|[(ctx'&a&?&?&?)|(ctx'&rq&ob&?&?&?&?&Ho)]]; [by left|right; left|right; right].
  - split; [done|]. by exists ctx', a.
  - exists ctx', rq, ob. split_and!; try done; by injection Ho.
Qed.

Lemma outcomes_are_reported_witness :
  ∃ r t, Executions (abs PoolRuns.final.2) !! "exec-1" = Some r ∧ er_Terminal r = Some t ∧
    ts_Status t = ResultCompleted ∧
    ∃ ctx rq ob, Ev (EObserve ctx rq) (Ok ob) ∈ events PoolRuns.final.1 ∧ rq_OperationID rq = "exec-1" ∧
      ts_Status t = ob_Status ob.
Proof.
  destruct (Executions (abs PoolRuns.final.2) !! "exec-1") as [r|] eqn:E; [|vm_compute in E; discriminate].
  pose proof (outcomes_are_reported _ _ "exec-1" r (summary_of ExecRuns.result) (PoolRuns.final_run false) E) as Hr.
  exists r, (summary_of ExecRuns.result). vm_compute in E. injection E as <-.
  split; [reflexivity|]. split; [reflexivity|]. split; [reflexivity|].
  destruct (Hr eq_refl) as [He|[[He _]|(ctx&rq&ob&?&?&_&_&?&_)]]; [discriminate He|discriminate He|].
  exists ctx, rq, ob. auto.
Defined.

(** ** The in-memory repository *)

(** the in-memory repository implements the ports the coordinator
    is verified against.  Whatever the runtime answers, every answer of every
    call, with any clock and any cancellation of the context at any point, is
    one the ports allow, and calls of the coordinator that run under it one
    after the other are one of the interleavings the guarantees cover. *)
Theorem exec_memory_refines_ports rt trusting ps clock ctxs :
  (∀ X (e : eff X) w, respond e (abs w) (handle rt e w).1 (abs (handle rt e w).2)) ∧
  let w := mkWorld NewRepository clock ctxs in
  (Forall (spawn trusting) ps →
   pool_run trusting (abs (pool_of (@handle rt) ps w []).2) (pool_of (@handle rt) ps w []).1).
Proof.
  split; [intros; apply exec_handle_responds|]. intros w Hps.
  apply (pool_sequence (@handle rt) (@respond) (spawn trusting) abs
           (λ X e w, exec_handle_responds rt e w) ps w [] Hps).
Qed.

Lemma exec_memory_refines_ports_witness :
  pool_run false (abs (pool_of (@handle PoolRuns.runtime)
    [api_prog PoolRuns.coordinator (ApiRecover CtxCaller)] PoolRuns.world []).2)
    (pool_of (@handle PoolRuns.runtime)
      [api_prog PoolRuns.coordinator (ApiRecover CtxCaller)] PoolRuns.world []).1.
Proof.
  apply (proj2 (exec_memory_refines_ports PoolRuns.runtime false
    [api_prog PoolRuns.coordinator (ApiRecover CtxCaller)] [PoolRuns.clock] [])).
  apply Forall_cons; split; [|apply Forall_nil_2]. exists PoolRuns.coordinator, (ApiRecover CtxCaller).
  split; [reflexivity|intros _ []].
Defined.

(** ** A healthy start *)

Lemma reserve_fresh rq at_ s :
  at_ ≠ 0 → Request_Validate rq at_ = Ok () →
  ExecutionIdempotency s !! rq_IdempotencyKey rq = None → Executions s !! rq_OperationID rq = None →
  CancellationIntents s !! rq_OperationID rq = None →
  let record := mkExecutionRecord rq at_ zeroDispatch false None None false in
  ∃ s', reserveExecutionAt rq at_ [] s = Ok (mkExecutionReservation record false, s') ∧
    Executions s' = <[rq_OperationID rq := record]> (Executions s).
Proof.
  intros Hz Hv Hi He Hc record. unfold reserveExecutionAt, IsZero, conflict. rewrite Hi, He, Hc, Hv.
  rewrite (decide_False (P := (1 < length [])%nat)) by (cbn; lia). rewrite (decide_False (P := at_ = 0)) by done.
  cbn [mbind result_bind]. rewrite !(decide_False (P := is_Some None)) by (by intros []).
  rewrite decide_False by (by intros ?%Exists_nil). eexists. split; [done|done].
Qed.

Lemma attach_fresh rq ref at_ s s' r0 :
  Request_Validate rq at_ = Ok () → at_ ≠ 0 → referencePattern ref = true →
  ¬ reference_taken (Executions s) (rq_OperationID rq) ref →
  Executions s' = <[rq_OperationID rq := r0]> (Executions s) →
  er_Request r0 = rq → er_ReservedAt r0 = at_ → er_Attached r0 = false →
  AttachExecution (attachment_of rq (mkDispatch ref at_)) s' =
  Ok (mkExecutionReservation (attach (mkDispatch ref at_) r0) false,
      set_executions (<[rq_OperationID rq := attach (mkDispatch ref at_) r0]> (Executions s')) s').
Proof.
  intros Hv Hz Hp Hfree Hs' Hrq Hat Hatt. unfold AttachExecution, conflict, Before.
  assert (validateAttachment (attachment_of rq (mkDispatch ref at_)) = Ok ()) as ->.
  { unfold Request_Validate, bad_request in Hv. do 3 (let G := fresh "G" in apply guard_Ok in Hv as [G Hv]).
    unfold validateAttachment, Dispatch_Validate, ExecutionReference_Validate, IsZero. cbn.
    rewrite Hp, (decide_False (P := true = false)) by done. cbn.
    rewrite (decide_False (P := true = false ∨ at_ = 0)) by (by intros [?|?]). cbn [mbind result_bind].
    rewrite decide_False by tauto. by rewrite decide_False by tauto. }
  cbn [mbind result_bind attachment_of ea_OperationID ea_Dispatch dp_AcceptedAt dp_ExecutionReference].
  rewrite Hs', lookup_insert_eq, Hatt, Hat. rewrite (decide_False (P := at_ < at_)) by lia.
  rewrite (decide_False (P := ¬ executionAttachmentMatches _ _)).
  2:{ intros Hn. apply Hn. rewrite Hrq. by split_and!. }
  rewrite decide_False; [done|]. intros Ht. apply Hfree. apply Exists_exists in Ht as ([k r] & Hin & Hne & Ha & Hr).
  apply Exists_exists. exists (k, r). split; [|done]. apply elem_of_map_to_list in Hin.
  apply elem_of_map_to_list. cbn in Hne. by rewrite lookup_insert_ne in Hin by congruence.
Qed.

(** A world that is open and cancels nothing. *)
Definition healthy (w : World) : Prop := mem_closed (w_mem w) = false ∧ w_ctx w = [].

Lemma healthy_guard {X} ctx (k : World → result X * World) w :
  healthy w → ctx ≠ CtxNil → guard_ctx ctx k w = k w.
Proof.
  intros [_ Hc] Hn. unfold guard_ctx, memory_ContextError, ctx_Err. rewrite Hc. by destruct ctx.
Qed.

Lemma healthy_write {X} ctx (f : State → result (X * State)) w :
  healthy w → ctx ≠ CtxNil →
  memory_write ctx f w = (value (f (abs w)), w_set_state (next (f (abs w)) (abs w)) w).
Proof.
  intros Hw Hn. unfold memory_write, checkOpen. rewrite healthy_guard by done.
  unfold guard_closed. destruct Hw as [Hc Hx]. rewrite Hc. by rewrite healthy_guard.
Qed.

Lemma healthy_context {A} rt `{!Zero A} ctx (k : prog (outcome A)) w :
  healthy w → ctx ≠ CtxNil → interp (@handle rt) (with_context ctx k) w = interp (@handle rt) k w.
Proof.
  intros [Hc Hx] Hn. unfold with_context, ContextError.
  destruct ctx; [done|..]; cbn; unfold ctx_Err; by rewrite Hx.
Qed.

(** starting works when nothing fails.  With the in-memory
    repository open, no cancellation, a request that is valid now and under a
    new operation id and key, and a runtime that accepts it under a well-formed
    reference nobody else has, [Start] returns without an error an attached,
    fresh reservation with that reference, and exactly that record is on file. *)
Theorem healthy_start rt c ctx rq ref now w :
  c_repository c = true → c_executor c = true → c_clock c = true → ctx ≠ CtxNil →
  healthy w → w_clock w = [now] → Request_Validate rq (Z.pos now) = Ok () →
  ExecutionIdempotency (abs w) !! rq_IdempotencyKey rq = None →
  Executions (abs w) !! rq_OperationID rq = None →
  CancellationIntents (abs w) !! rq_OperationID rq = None →
  (∀ ctx' inv, rt_Start rt ctx' inv = Ok ref) → referencePattern ref = true →
  ¬ reference_taken (Executions (abs w)) (rq_OperationID rq) ref →
  let record := mkExecutionRecord rq (Z.pos now) (mkDispatch ref (Z.pos now)) true None None false in
  ∃ w', interp (@handle rt) (Start c ctx rq) w = ((mkExecutionReservation record false, None), w') ∧
    Executions (abs w') !! rq_OperationID rq = Some record.
Proof.
  intros Hr He Hcl Hn Hw Hclk Hv Hi Hx Hc Hrt Hp Hfree record.
  destruct (reserve_fresh rq (Z.pos now) (abs w) ltac:(done) Hv Hi Hx Hc) as (s1 & H1 & Hs1).
  pose proof (attach_fresh rq ref (Z.pos now) (abs w) s1 _ Hv ltac:(done) Hp Hfree Hs1 eq_refl eq_refl eq_refl) as H2.
  set (w1 := w_set_state s1 w). assert (Hw1 : healthy w1) by done.
  unfold Start. rewrite Hr, He, Hcl. cbn [andb usable]. rewrite healthy_context by done.
  cbn [mbind prog_bind prog_bind_def call interp handle]. unfold clock_Now at 1. rewrite Hclk.
  rewrite Hv. cbn [orelse mbind prog_bind prog_bind_def call interp handle].
  unfold memory_ReserveExecutionAt, ReserveExecutionAt. rewrite healthy_write by done. rewrite H1.
  cbn [fst value returned mbind result_bind]. rewrite decide_False by (cbn; intros [[? ?]|?]; done).
  cbn [fst xr_Replayed interp handle prog_bind prog_bind_def mbind next call]. fold w1.
  cbn [memory_ContextError]. unfold ctx_Err. destruct Hw1 as [Ho1 Hx1]. rewrite Hx1.
  cbn [fmap option_fmap option_map interp handle prog_bind prog_bind_def mbind call]. rewrite Hrt.
  cbn [mbind prog_bind prog_bind_def call interp handle]. unfold memory_AttachExecution.
  rewrite healthy_write by done. change (abs w1) with s1. rewrite H2. cbn. eexists. split; [reflexivity|].
  cbn. by rewrite lookup_insert_eq.
Qed.

Lemma healthy_start_witness :
  ∃ w', interp (@handle PoolRuns.runtime) (Start PoolRuns.coordinator CtxCaller ExecRuns.request) PoolRuns.world
    = ((mkExecutionReservation (mkExecutionRecord ExecRuns.request ExecRuns.t0
          (mkDispatch "ref:runtime/1" ExecRuns.t0) true None None false) false, None), w').
Proof.
  destruct (healthy_start PoolRuns.runtime PoolRuns.coordinator CtxCaller ExecRuns.request "ref:runtime/1"
    PoolRuns.clock PoolRuns.world) as (w' & Hs & _); try reflexivity.
  - discriminate.
  - split; reflexivity.
  - intros Ht. apply Exists_nil in Ht. exact Ht.
  - exists w'. exact Hs.
Defined.
