(* ===== verification/ExecFile.v ===== *)
(** * The file repository of executions: [provider/exec/repository/file]

    The exec repository for one controller process: every write exports the
    whole state, replaces the file atomically and rolls the state in memory
    back when the file was not replaced.  A read that expires a result is such
    a write.  Which system call fails is a parameter of each call ([OSFaults]);
    the JSON encoding is a parameter of the section.  The theorem is that the
    adapter answers as the ports of the coordinator allow and that its file
    always holds the state in memory. *)

From S2P Require Import Prelude Program Threads FileStore ExecModel ExecState ExecInvariant ExecRepository ExecGuarantees ExecPorts ExecConcurrency.
From stdpp Require Import base gmap strings list fin_maps relations.
From Stdlib Require Import ZArith Lia.

Local Open Scope Z_scope.

Definition maxFileSize : Z := Z.shiftl 16 20.

Section file.
Context {bytes : Type} (encode : PersistedState → option bytes) (size : bytes → Z)
  (decode : bytes → option PersistedState).

Record FileRepository := mkFileRepository {
  file_state : State;
  file_closed : bool;
  file_disk : option bytes;
}.

(** ** Opening *)

Definition load (faults : OpenFaults) (disk : option bytes) : result State :=
  match disk with
  | None => Ok NewState
  | Some b =>
      if of_open faults then Err [ErrExternal "open exec repository"] else
      if of_stat faults then Err [ErrExternal "stat exec repository"] else
      if decide (of_irregular faults = true ∨ size b > maxFileSize) then corrupt else
      match decode b with
      | None => corrupt
      | Some snapshot => match Import snapshot with Ok s => Ok s | Err _ => corrupt end
      end
  end.

Definition file_NewRepository (path : string) (faults : OpenFaults) (disk : option bytes)
    : result FileRepository :=
  if decide (blank path = true) then Err [ErrExternal "exec repository path is required"] else
  if of_mkdir faults then Err [ErrExternal "create exec repository directory"] else
  if of_lock faults then Err [ErrExternal "lock exec repository"] else
  state ← load faults disk; Ok (mkFileRepository state false disk).

(** ** Writing *)

(** [persist] returns whether the file was replaced, and an error.  Unlike the
    lifecycle repository it does not create the directory again. *)
Definition persist (os : OSFaults) (r : FileRepository) : bool * option goerr * FileRepository :=
  let failed := (false, Some [ExecErrDurability : sentinel], r) in
  match os_ctx_persist os with
  | Some c => (false, Some [c : sentinel], r)
  | None =>
  if os_createTemp os || os_chmod os || os_encode os then failed else
  match encode (Export (file_state r)) with
  | None => failed
  | Some b =>
  if os_stat os then failed else
  if decide (size b > maxFileSize) then failed else
  if os_sync os || os_close os then failed else
  match os_ctx_rename os with
  | Some c => (false, Some [c : sentinel], r)
  | None =>
  if os_rename os then failed else
  let r := mkFileRepository (file_state r) (file_closed r) (Some b) in
  if os_openDir os then (true, Some [ExecErrDurability : sentinel], r) else
  if os_syncDir os || os_closeDir os then (true, Some [ExecErrDurability : sentinel], r) else
  (true, None, r)
  end end end.

Definition file_set_state (s : State) (r : FileRepository) : FileRepository :=
  mkFileRepository s (file_closed r) (file_disk r).

(** [_ = r.state.Import(previous)] when the file was not replaced. *)
Definition roll_back (committed : bool) (previous : PersistedState) (r : FileRepository) : FileRepository :=
  if committed then r else
  match Import previous with Ok p => file_set_state p r | Err _ => r end.

Definition mutate {X} (os : OSFaults) (mutation : State → result (X * State)) (r : FileRepository)
    : result X * FileRepository :=
  match os_ctx_before_lock os with
  | Some c => (Err [c : sentinel], r)
  | None =>
  if file_closed r then (Err [ExecErrClosed : sentinel], r) else
  match os_ctx_locked os with
  | Some c => (Err [c : sentinel], r)
  | None =>
  let previous := Export (file_state r) in
  match mutation (file_state r) with
  | Err err => (Err err, r)
  | Ok (v, s) =>
      match persist os (file_set_state s r) with
      | (_, None, r') => (Ok v, r')
      | (committed, Some err, r') => (Err err, roll_back committed previous r')
      end
  end end end.

(** ** The repository interface *)

(** The reservation is assigned by the mutation: it is returned also when the
    write behind it failed. *)
Definition assigned (os : OSFaults) (mutation : State → result (ExecutionReservation * State)) (r : FileRepository)
    : ExecutionReservation :=
  match os_ctx_before_lock os, file_closed r, os_ctx_locked os, mutation (file_state r) with
  | None, false, None, Ok (v, _) => v
  | _, _, _, _ => zero
  end.

Definition file_ReserveExecutionAt os rq at_ d (r : FileRepository) : outcome ExecutionReservation * FileRepository :=
  let '(x, r') := mutate os (ReserveExecutionAt rq at_ d) r in
  ((assigned os (ReserveExecutionAt rq at_ d) r, match x with Ok _ => None | Err err => Some err end), r').
Definition file_ReserveExecution (systemNow : Time) os rq (d : list Dispatch) :=
  let acceptedAt := match d with [d0] => dp_AcceptedAt d0 | _ => systemNow end in
  file_ReserveExecutionAt os rq acceptedAt d.
Definition file_AttachExecution os a := mutate os (AttachExecution a).
Definition file_ReserveCancellationAt os i at_ := mutate os (ReserveCancellation i at_).
Definition file_ReserveCancellation (systemNow : Time) os i := file_ReserveCancellationAt os i systemNow.
Definition file_StoreResult os res := mutate os (StoreResult res).

Definition file_read {X} (entry : option context_sentinel) (f : State → result X) (r : FileRepository)
    : result X * FileRepository :=
  match entry with
  | Some c => (Err [c : sentinel], r)
  | None => if file_closed r then (Err [ExecErrClosed : sentinel], r) else (f (file_state r), r)
  end.

Definition file_GetExecution entry id := file_read entry (GetExecution id).
Definition file_ListExecutions entry := file_read entry (λ s, Ok (ListExecutions s)).
Definition file_GetCancellation entry id := file_read entry (GetCancellation id).
Definition file_GetCancellationReservation entry id := file_read entry (GetCancellationReservation id).

Definition file_GetResult (os : OSFaults) (operationID : string) (now : Time) (r : FileRepository)
    : result Result * FileRepository :=
  match os_ctx_before_lock os with
  | Some c => (Err [c : sentinel], r)
  | None =>
  if file_closed r then (Err [ExecErrClosed : sentinel], r) else
  let previous := Export (file_state r) in
  let '(result, changed, s) := ReadResult operationID now (file_state r) in
  if changed then
    match persist os (file_set_state s r) with
    | (_, None, r') => (result, r')
    | (committed, Some err, r') => (Err err, roll_back committed previous r')
    end
  else (result, file_set_state s r)
  end.

Definition file_Close (r : FileRepository) : FileRepository :=
  mkFileRepository (file_state r) true (file_disk r).

(** A call of the repository through the adapter; other calls do not reach it. *)
Definition file_handle {X} (os : OSFaults) (e : eff X) : option (FileRepository → X * FileRepository) :=
  match e in eff X return option (FileRepository → X * FileRepository) with
  | EReserveExecutionAt _ rq at_ d => Some (file_ReserveExecutionAt os rq at_ d)
  | EAttachExecution _ a => Some (file_AttachExecution os a)
  | EGetExecution _ id => Some (file_GetExecution (os_ctx_before_lock os) id)
  | EListExecutions _ => Some (file_ListExecutions (os_ctx_before_lock os))
  | EReserveCancellationAt _ i at_ => Some (file_ReserveCancellationAt os i at_)
  | EGetCancellation _ id => Some (file_GetCancellation (os_ctx_before_lock os) id)
  | EGetCancellationReservation _ id => Some (file_GetCancellationReservation (os_ctx_before_lock os) id)
  | EStoreResult _ res => Some (file_StoreResult os res)
  | EGetResult _ id now => Some (file_GetResult os id now)
  | _ => None
  end.

(** ** Proofs *)

(** Snapshots that JSON represents faithfully decode to themselves. *)
Context (faithful : PersistedState → Prop).
Context (json_roundtrip : ∀ p b, faithful p → encode p = Some b → decode b = Some p).

(** A restart would load exactly the state in memory. *)
Definition file_ok (r : FileRepository) : Prop :=
  exec_wf (file_state r) ∧ load of_ok (file_disk r) = Ok (file_state r).

Lemma exec_transport_ctx (c : context_sentinel) : transport_error [c : sentinel].
Proof. unfold transport_error. destruct c; auto. Qed.

Lemma exec_transport_durability : transport_error [ExecErrDurability : sentinel].
Proof. unfold transport_error. auto. Qed.

Lemma exec_transport_closed : transport_error [ExecErrClosed : sentinel].
Proof. unfold transport_error. auto. Qed.

#[local] Hint Resolve exec_transport_ctx exec_transport_durability exec_transport_closed : go.

Lemma exec_persist_cases os r :
  exec_wf (file_state r) → faithful (Export (file_state r)) →
  (∃ e, transport_error e ∧ persist os r = (false, Some e, r)) ∨
  (∃ b err, persist os r = (true, err, mkFileRepository (file_state r) (file_closed r) (Some b)) ∧
     (err = None ∨ err = Some [ExecErrDurability : sentinel]) ∧ load of_ok (Some b) = Ok (file_state r)).
Proof.
  intros Hwf Hf. unfold persist.
  destruct (os_ctx_persist os); [left; eauto with go|].
  destruct (os_createTemp os || os_chmod os || os_encode os); [left; eauto with go|].
  destruct (encode _) as [b|] eqn:Eb; [|left; eauto with go]. destruct (os_stat os); [left; eauto with go|].
  case_decide as Hsize; [left; eauto with go|]. destruct (os_sync os || os_close os); [left; eauto with go|].
  destruct (os_ctx_rename os); [left; eauto with go|]. destruct (os_rename os); [left; eauto with go|].
  right. exists b. assert (Hload : load of_ok (Some b) = Ok (file_state r)).
  { unfold load. cbn [of_open of_stat of_irregular of_ok]. rewrite decide_False by (intros [?|?]; done).
    rewrite (json_roundtrip _ _ Hf Eb), exec_Import_Export; [done|]. by apply exec_wf_checked. }
  destruct (os_openDir os); [eauto|]. destruct (os_syncDir os || os_closeDir os); eauto.
Qed.

(** The end of a write: [v] is what the state returned. *)
Lemma commit_spec {X} os (v : result X) t r :
  file_ok r → exec_wf t → faithful (Export t) →
  let '(x, r') := match persist os (file_set_state t r) with
                  | (_, None, r') => (v, r')
                  | (committed, Some err, r') => (Err err, roll_back committed (Export (file_state r)) r')
                  end in
  file_ok r' ∧ answers_write v (file_state r) t x (file_state r').
Proof.
  intros [Hwf Hload] Ht Hf. unfold roll_back, answers_write.
  destruct (exec_persist_cases os (file_set_state t r) Ht Hf) as [(e & He & ->)|(b & err & -> & Herr & Hb)].
  - rewrite exec_Import_Export by (by apply exec_wf_checked). split; [done|]. right. right. eauto.
  - destruct Herr as [-> | ->]; (split; [done|]); [by left|right; by left].
Qed.

Lemma exec_mutate_spec {X} os (f : State → result (X * State)) r :
  file_ok r → exec_wf (next (f (file_state r)) (file_state r)) →
  faithful (Export (next (f (file_state r)) (file_state r))) →
  file_ok (mutate os f r).2 ∧
  answers_write (value (f (file_state r))) (file_state r) (next (f (file_state r)) (file_state r))
    (mutate os f r).1 (file_state (mutate os f r).2).
Proof.
  intros Hok Ht Hf. unfold mutate.
  assert (Hsame : ∀ e, transport_error e → file_ok r ∧ answers_write (value (f (file_state r))) (file_state r)
    (next (f (file_state r)) (file_state r)) (Err e) (file_state r)) by (intros; split; [done|right; right; eauto]).
  destruct (os_ctx_before_lock os) as [c|]; [apply Hsame; auto with go|].
  destruct (file_closed r) eqn:Ec; [apply Hsame; auto with go|].
  destruct (os_ctx_locked os) as [c|]; [apply Hsame; auto with go|].
  destruct (f (file_state r)) as [[v s]|e] eqn:Ef; [|split; [done|by left]].
  pose proof (commit_spec os (Ok v) s r Hok Ht Hf) as Hc.
  by destruct (persist os (file_set_state s r)) as [[committed [err|]] r'].
Qed.

Lemma exec_reserve_spec os rq at_ d r :
  let m := ReserveExecutionAt rq at_ d (file_state r) in
  file_ok r → exec_wf (next m (file_state r)) → faithful (Export (next m (file_state r))) →
  file_ok (file_ReserveExecutionAt os rq at_ d r).2 ∧
  answers_reserve m (file_state r) (file_ReserveExecutionAt os rq at_ d r).1 (file_state (file_ReserveExecutionAt os rq at_ d r).2).
Proof.
  intros m Hok Ht Hf. destruct (exec_mutate_spec os (ReserveExecutionAt rq at_ d) r Hok Ht Hf) as [Hok' Ha].
  unfold file_ReserveExecutionAt. destruct (mutate _ _ r) as [x r'] eqn:Em. cbn in *. split; [done|].
  unfold mutate in Em. unfold assigned, answers_reserve. fold m in Ha, Em |- *.
  destruct (os_ctx_before_lock os); [simplify_eq; right; right; eauto with go|].
  destruct (file_closed r); [simplify_eq; right; right; eauto with go|].
  destruct (os_ctx_locked os); [simplify_eq; right; right; eauto with go|].
  destruct m as [[v t]|e] eqn:E; [|simplify_eq; by left].
  destruct Ha as [[-> ->]|[[-> ->]|(-> & e & He & ->)]]; [by left|right; left..]; exists v, t; eauto 10 with go.
Qed.

Lemma exec_read_spec {X} entry (f : State → result X) r :
  (file_read entry f r).2 = r ∧
  answers_read (f (file_state r)) (file_state r) (file_read entry f r).1 (file_state (file_read entry f r).2).
Proof.
  unfold file_read, answers_read. destruct entry as [c|]; [split_and!; eauto with go|].
  destruct (file_closed r); split_and!; eauto with go.
Qed.

Lemma exec_GetResult_spec os id now r :
  file_ok r → faithful (Export (ReadResult id now (file_state r)).2) →
  file_ok (file_GetResult os id now r).2 ∧
  answers_write (ReadResult id now (file_state r)).1.1 (file_state r) (ReadResult id now (file_state r)).2
    (file_GetResult os id now r).1 (file_state (file_GetResult os id now r).2).
Proof.
  intros Hok Hf. unfold file_GetResult.
  destruct (os_ctx_before_lock os) as [c|]; [split; [done|right; right; eauto with go]|].
  destruct (file_closed r) eqn:Ec; [split; [done|right; right; eauto with go]|].
  destruct (ReadResult id now (file_state r)) as [[v changed] s] eqn:E. cbn in *.
  assert (Hs : exec_wf s) by (destruct Hok; by eapply read_wf). destruct changed.
  - pose proof (commit_spec os v s r Hok Hs Hf) as Hc.
    by destruct (persist os (file_set_state s r)) as [[committed [err|]] r'].
  - apply read_cases in E as [[-> _]|(?&?&_&_&_&_&_&?&_)]; [|done].
    split; [|by left]. unfold file_ok. by destruct r.
Qed.

(** Calls with a sound clock whose effect JSON can represent. *)
Definition admissible {X} (e : eff X) (r : FileRepository) : Prop :=
  ∀ c, call_of e = Some c → timely c ∧ faithful (Export (exec_apply c (file_state r))).

Lemma exec_apply_next c s :
  exec_apply c s = match c with
  | XReserve rq at_ d => next (ReserveExecutionAt rq at_ d s) s
  | XAttach a => next (AttachExecution a s) s
  | XCancel i now => next (ReserveCancellation i now s) s
  | XStore res => next (StoreResult res s) s
  | XRead op now => (ReadResult op now s).2
  end.
Proof. by destruct c. Qed.

Lemma file_handle_spec {X} os (e : eff X) h r :
  file_handle os e = Some h → file_ok r → admissible e r →
  file_ok (h r).2 ∧ respond e (file_state r) (h r).1 (file_state (h r).2).
Proof.
  intros Hh Hok Ha. assert (Hwf : ∀ c, call_of e = Some c → exec_wf (exec_apply c (file_state r))).
  { intros c Hc. destruct (Ha c Hc), Hok. by apply exec_apply_wf. }
  assert (Hread : ∀ Y entry (f : State → result Y), file_ok (file_read entry f r).2).
  { intros. by destruct (exec_read_spec entry f r) as [-> _]. }
  destruct e; cbn in Hh; simplify_eq.
  all: try (split; [apply Hread|]; cbn [respond]; apply exec_read_spec).
  all: unfold file_AttachExecution, file_ReserveCancellationAt, file_StoreResult.
  all: specialize (Ha _ eq_refl); specialize (Hwf _ eq_refl); rewrite exec_apply_next in Ha, Hwf;
    destruct Ha as [_ Ha]; cbn [respond].
  all: first [by apply exec_reserve_spec | by apply exec_mutate_spec | by apply exec_GetResult_spec].
Qed.

(** Runs of the adapter: calls under any faults, and [Close]. *)
Definition empty_repository : FileRepository := mkFileRepository NewState false None.

Definition file_step (r r' : FileRepository) : Prop :=
  r' = file_Close r ∨
  ∃ X (e : eff X) os h, file_handle os e = Some h ∧ admissible e r ∧ (h r).2 = r'.

Lemma file_run_ok r :
  rtc file_step empty_repository r → file_ok r ∧ exec_reachable (file_state r).
Proof.
  revert r. apply rtc_ind_r; [split; [split; [apply exec_wf_init|done]|by exists []]|].
  intros r r' _ [-> | (X & e & os & h & Hh & Ha & <-)] [Hok (calls & Ht & Hr)]; [by split; [|exists calls]|].
  destruct (file_handle_spec os e h r Hh Hok Ha) as [Hok' Hresp]. split; [done|].
  destruct (respond_state _ _ _ _ Hresp) as [-> | (c & Hc & ->)]; [by exists calls|].
  exists (calls ++ [c]). split; [|by rewrite exec_run_app, Hr].
  apply Forall_app. split; [done|]. apply Forall_singleton. by destruct (Ha c Hc).
Qed.

(** whatever calls are made and whatever system calls fail or
    contexts are cancelled on the way, the file repository is in a state that
    calls of the abstract repository reach, opening its file again gives
    exactly that state, and every further call of the repository interface is
    answered as the ports of the coordinator allow, so that the coordinator's
    guarantees hold over it. *)
Theorem exec_file_repository_durable path r :
  blank path = false → rtc file_step empty_repository r →
  exec_reachable (file_state r) ∧
  file_NewRepository path of_ok (file_disk r) = Ok (mkFileRepository (file_state r) false (file_disk r)) ∧
  ∀ X (e : eff X) os h, file_handle os e = Some h → admissible e r →
    respond e (file_state r) (h r).1 (file_state (h r).2).
Proof.
  intros Hp Hrun. destruct (file_run_ok r Hrun) as [Hok Hreach]. split_and!; [done| |].
  - unfold file_NewRepository. destruct Hok as [_ Hload]. by rewrite Hp, Hload.
  - intros X e os h Hh Ha. by destruct (file_handle_spec os e h r Hh Hok Ha).
Qed.
End file.

(** A file that holds the snapshot itself: a reservation, an attachment whose
    rename fails, the attachment again with a failing directory sync. *)
Module ExecFileRuns.
Definition disk_mutate {X} := mutate (bytes := PersistedState) (X := X) Some (λ _, 1).
Definition r0 : FileRepository (bytes := PersistedState) := @empty_repository PersistedState.
Definition r1 : FileRepository (bytes := PersistedState) :=
  (disk_mutate os_ok (ReserveExecutionAt ExecRuns.request ExecRuns.t0 []) r0).2.
Definition r2 : FileRepository (bytes := PersistedState) :=
  (disk_mutate os_rename_fails (AttachExecution ExecRuns.attachment) r1).2.
Definition r3 : FileRepository (bytes := PersistedState) :=
  (disk_mutate os_syncDir_fails (AttachExecution ExecRuns.attachment) r2).2.

Lemma exec_file_steps : rtc (file_step Some (λ _, 1) (λ _, True)) r0 r3.
Proof.
  eapply rtc_l; [|eapply rtc_l; [|eapply rtc_l; [|constructor]]].
  - right. exists _, (EReserveExecutionAt CtxCaller ExecRuns.request ExecRuns.t0 []), os_ok. eexists.
    split; [reflexivity|]. split; [intros c [= <-]; done|reflexivity].
  - right. exists _, (EAttachExecution CtxCaller ExecRuns.attachment), os_rename_fails. eexists.
    split; [reflexivity|]. split; [intros c [= <-]; done|reflexivity].
  - right. exists _, (EAttachExecution CtxCaller ExecRuns.attachment), os_syncDir_fails. eexists.
    split; [reflexivity|]. split; [intros c [= <-]; done|reflexivity].
Qed.
End ExecFileRuns.

Lemma exec_file_repository_durable_witness :
  file_state ExecFileRuns.r2 = file_state ExecFileRuns.r1 ∧
  file_state ExecFileRuns.r3 = exec_run ExecRuns.admitted NewState ∧
  file_NewRepository (λ _, 1) Some "/var/lib/exec.json" of_ok (file_disk ExecFileRuns.r3)
    = Ok (mkFileRepository (file_state ExecFileRuns.r3) false (file_disk ExecFileRuns.r3)).
Proof.
  split; [vm_compute; reflexivity|]. split; [vm_compute; reflexivity|].
  refine (proj1 (proj2 (exec_file_repository_durable Some (λ _, 1) Some (λ _, True) _ "/var/lib/exec.json" _
    _ ExecFileRuns.exec_file_steps))).
  - intros p b _ [= ->]. reflexivity.
  - vm_compute; reflexivity.
Defined.
