(* ===== verification/GatewayModel.v ===== *)
(** * Runtime Gateway: data and validation

    The data of [gateway/model.go] and [gateway/port.go], their validation, and
    the pure helpers of [gateway/application.go] and [gateway/capacity.go]:
    events of the audit log, subjects derived from a grant, the check of a
    resolved endpoint, classification of errors.  An error is the list of
    sentinels it wraps; [errors.Join] concatenates.  An interface value that may
    be nil is an [option] or a boolean. *)

From S2P Require Import Prelude.
From stdpp Require Import base strings list.
From Stdlib Require Import Ascii ZArith Lia.

Local Open Scope Z_scope.

(** ** Errors *)

Definition gateway_error (name : string) : sentinel := SNamed "gateway" name.
Definition ErrInvalidRequest : sentinel := gateway_error "ErrInvalidRequest".
Definition ErrInvalidGrant : sentinel := gateway_error "ErrInvalidGrant".
Definition ErrUnauthorized : sentinel := gateway_error "ErrUnauthorized".
Definition ErrRevoked : sentinel := gateway_error "ErrRevoked".
Definition ErrExpired : sentinel := gateway_error "ErrExpired".
Definition ErrReferenceUnavailable : sentinel := gateway_error "ErrReferenceUnavailable".
Definition ErrStaleReference : sentinel := gateway_error "ErrStaleReference".
Definition ErrReconnectExhausted : sentinel := gateway_error "ErrReconnectExhausted".
Definition ErrCapacityExhausted : sentinel := gateway_error "ErrCapacityExhausted".
Definition ErrCapacityUnavailable : sentinel := gateway_error "ErrCapacityUnavailable".
Definition ErrRevocationUnavailable : sentinel := gateway_error "ErrRevocationUnavailable".
Definition ErrDownstreamFenceLost : sentinel := gateway_error "ErrDownstreamFenceLost".
Definition ErrDownstreamUnavailable : sentinel := gateway_error "ErrDownstreamUnavailable".
Definition ErrAuditUnavailable : sentinel := gateway_error "ErrAuditUnavailable".
Definition ErrProxyUnavailable : sentinel := gateway_error "ErrProxyUnavailable".
Definition errCapacityLeaseLost : sentinel := gateway_error "errCapacityLeaseLost".
Definition errCapacityLeaseUnavailable : sentinel := gateway_error "errCapacityLeaseUnavailable".

(** ** Bounds and patterns *)

Definition Millisecond : Z := 1000000.
Definition MaxReconnectAttempts : Z := 3.
Definition MaxReconnectBackoff : Z := 30 * Second.
Definition MaxConnectionCapacity : Z := 1000.
Definition MaxDownstreamFenceBytes : nat := 512.
Definition MinCapacityReleaseTimeout : Z := 100 * Millisecond.
Definition DefaultCapacityReleaseTimeout : Z := 5 * Second.
Definition MaxCapacityReleaseTimeout : Z := 30 * Second.

Definition identifierPattern (s : string) : bool :=
  match_head_tail is_alnum (λ c, is_alnum c || one_of "._:-" c) 199 s.

Definition reference_name (s : string) : bool :=
  match_head_tail is_alnum (λ c, is_alnum c || one_of "._-" c) 199 s.

Definition matches_after (prefix : string) (p : string → bool) (s : string) : bool :=
  match cut_prefix prefix s with Some t => p t | None => false end.

Definition terminalReferencePattern : string → bool := matches_after "ref:session:" reference_name.
Definition browserReferencePattern : string → bool := matches_after "ref:browser-session:" reference_name.
Definition downstreamFencePattern : string → bool :=
  matches_after "v1." (λ s, bool_decide (s ≠ "") && all_bytes (λ c, is_alnum c || one_of "_-" c) s).

(** ** Fences *)

(** [strings.ContainsAny(opaque, "\r\n\t ")] *)
Definition fence_space (c : ascii) : bool := in_range 13 13 c || in_range 10 10 c || in_range 9 9 c || in_range 32 32 c.

Definition NewDownstreamFence (opaque : string) : result string :=
  if decide ((String.length opaque < 4)%nat ∨ (MaxDownstreamFenceBytes < String.length opaque)%nat
             ∨ downstreamFencePattern opaque = false
             ∨ all_bytes (λ c, negb (fence_space c)) opaque = false)
  then Err [ErrDownstreamUnavailable] else Ok opaque.

Definition DownstreamFence_Validate (fence : string) : result unit := _ ← NewDownstreamFence fence; Ok ().

Record DownstreamFenceSubject := mkDownstreamFenceSubject {
  fs_TenantID : string;
  fs_SandboxID : string;
  fs_BrowserSessionID : string;
  fs_CapabilityProfileID : string;
  fs_ConnectionGeneration : Z;
  fs_ExpiresAt : Time;
}.

Definition DownstreamFenceSubject_Validate (s : DownstreamFenceSubject) : result unit :=
  if decide (Exists (λ v, identifierPattern v = false)
               [fs_TenantID s; fs_SandboxID s; fs_BrowserSessionID s; fs_CapabilityProfileID s])
  then Err [ErrDownstreamUnavailable] else
  if decide (fs_ConnectionGeneration s < 1 ∨ IsZero (fs_ExpiresAt s)) then Err [ErrDownstreamUnavailable] else
  Ok ().

(** ** Revocation and capacity subjects *)

Record RevocationSubject := mkRevocationSubject { rs_GrantID : string; rs_ExpiresAt : Time }.

Definition RevocationSubject_Validate (s : RevocationSubject) : result unit :=
  if decide (identifierPattern (rs_GrantID s) = false ∨ IsZero (rs_ExpiresAt s))
  then Err [ErrInvalidGrant] else Ok ().

Record CapacitySubject := mkCapacitySubject {
  cs_TenantID : string;
  cs_SandboxID : string;
  cs_RuntimeSessionID : string;
  cs_BrowserSessionID : string;
  cs_CapabilityProfileID : string;
  cs_ExpiresAt : Time;
}.

(** Exactly one of the two session ids is set; the code counts them. *)
Definition CapacitySubject_Validate (s : CapacitySubject) : result unit :=
  if decide (identifierPattern (cs_TenantID s) = false ∨ identifierPattern (cs_SandboxID s) = false
             ∨ identifierPattern (cs_CapabilityProfileID s) = false ∨ IsZero (cs_ExpiresAt s))
  then Err [ErrInvalidRequest] else
  if decide (cs_RuntimeSessionID s ≠ "" ∧ identifierPattern (cs_RuntimeSessionID s) = false)
  then Err [ErrInvalidRequest] else
  let sessions := if decide (cs_RuntimeSessionID s ≠ "") then 1 else 0 in
  if decide (cs_BrowserSessionID s ≠ "" ∧ identifierPattern (cs_BrowserSessionID s) = false)
  then Err [ErrInvalidRequest] else
  let sessions := if decide (cs_BrowserSessionID s ≠ "") then sessions + 1 else sessions in
  if decide (sessions ≠ 1) then Err [ErrInvalidRequest] else Ok ().

Inductive CapacityEventKind :=
  | CapacityEventLost | CapacityEventUnavailable | CapacityEventKindOther (raw : string).

(** [Err] may be nil. *)
Record CapacityEvent := mkCapacityEvent { ce_Kind : CapacityEventKind; ce_Err : goerr }.

(** The third argument of [errors.Join] is a fresh error where the code makes one. *)
Definition capacityEventError (event : CapacityEvent) (open : bool) : goerr :=
  if negb open then [ErrCapacityUnavailable; errCapacityLeaseUnavailable; ErrExternal "capacity lease event stream closed"]
  else match ce_Kind event with
  | CapacityEventLost => ErrCapacityUnavailable :: errCapacityLeaseLost :: ce_Err event
  | CapacityEventUnavailable => ErrCapacityUnavailable :: errCapacityLeaseUnavailable :: ce_Err event
  | CapacityEventKindOther _ =>
      ErrCapacityUnavailable :: errCapacityLeaseUnavailable
        :: ErrExternal "capacity lease event kind is invalid" :: ce_Err event
  end.

(** ** Requests and grants *)

Record ConnectRequest := mkConnectRequest {
  cr_CallerID : string;
  cr_TenantID : string;
  cr_SandboxID : string;
  cr_RuntimeSessionID : string;
  cr_BrowserSessionID : string;
  cr_CapabilityProfileID : string;
  cr_HandoffReference : string;
}.

Definition validSessionIdentity (r : ConnectRequest) : bool :=
  if decide (cr_RuntimeSessionID r ≠ "" ∧ cr_BrowserSessionID r = "")
  then identifierPattern (cr_RuntimeSessionID r)
  else if decide (cr_BrowserSessionID r ≠ "" ∧ cr_RuntimeSessionID r = "")
  then identifierPattern (cr_BrowserSessionID r)
  else false.

Definition validReference (r : ConnectRequest) : bool :=
  if decide (cr_RuntimeSessionID r ≠ "") then terminalReferencePattern (cr_HandoffReference r)
  else browserReferencePattern (cr_HandoffReference r).

(** The loop over a Go map reports the same error whichever entry fails. *)
Definition ConnectRequest_Validate (r : ConnectRequest) : result unit :=
  if decide (Exists (λ v, identifierPattern v = false)
               [cr_CallerID r; cr_TenantID r; cr_SandboxID r; cr_CapabilityProfileID r])
  then Err [ErrInvalidRequest] else
  if decide (validSessionIdentity r = false) then Err [ErrInvalidRequest] else
  if decide (validReference r = false) then Err [ErrInvalidRequest] else Ok ().

Record Grant := mkGrant {
  g_GrantID : string;
  g_CallerID : string;
  g_TenantID : string;
  g_SandboxID : string;
  g_RuntimeSessionID : string;
  g_BrowserSessionID : string;
  g_CapabilityProfileID : string;
  g_HandoffReference : string;
  g_ConnectionGeneration : Z;
  g_ExpiresAt : Time;
}.

Definition grant_request (g : Grant) : ConnectRequest :=
  mkConnectRequest (g_CallerID g) (g_TenantID g) (g_SandboxID g) (g_RuntimeSessionID g)
    (g_BrowserSessionID g) (g_CapabilityProfileID g) (g_HandoffReference g).

Definition Grant_Validate (g : Grant) (now : Time) : result unit :=
  if decide (IsZero now ∨ identifierPattern (g_GrantID g) = false) then Err [ErrInvalidGrant] else
  if decide (is_ok (ConnectRequest_Validate (grant_request g)) = false) then Err [ErrInvalidGrant] else
  if decide (g_ConnectionGeneration g < 1 ∨ IsZero (g_ExpiresAt g) ∨ ¬ After (g_ExpiresAt g) now)
  then Err [ErrInvalidGrant] else Ok ().

Definition matches (g : Grant) (r : ConnectRequest) : bool :=
  bool_decide (g_CallerID g = cr_CallerID r ∧ g_TenantID g = cr_TenantID r
    ∧ g_SandboxID g = cr_SandboxID r ∧ g_RuntimeSessionID g = cr_RuntimeSessionID r
    ∧ g_BrowserSessionID g = cr_BrowserSessionID r
    ∧ g_CapabilityProfileID g = cr_CapabilityProfileID r
    ∧ g_HandoffReference g = cr_HandoffReference r).

Definition capacitySubjectForGrant (g : Grant) : CapacitySubject :=
  mkCapacitySubject (g_TenantID g) (g_SandboxID g) (g_RuntimeSessionID g) (g_BrowserSessionID g)
    (g_CapabilityProfileID g) (g_ExpiresAt g).
Definition revocationSubjectForGrant (g : Grant) : RevocationSubject :=
  mkRevocationSubject (g_GrantID g) (g_ExpiresAt g).
Definition downstreamFenceSubjectForGrant (g : Grant) : DownstreamFenceSubject :=
  mkDownstreamFenceSubject (g_TenantID g) (g_SandboxID g) (g_BrowserSessionID g)
    (g_CapabilityProfileID g) (g_ConnectionGeneration g) (g_ExpiresAt g).

(** ** Endpoints *)

(** [ep_Dial] says whether the [Dial] function is set. *)
Record Endpoint := mkEndpoint {
  ep_Reference : string;
  ep_SandboxID : string;
  ep_RuntimeSessionID : string;
  ep_BrowserSessionID : string;
  ep_CapabilityProfileID : string;
  ep_ConnectionGeneration : Z;
  ep_ExpiresAt : Time;
  ep_Dial : bool;
}.

Definition endpoint_request (e : Endpoint) (g : Grant) : ConnectRequest :=
  mkConnectRequest "" "" "" (g_RuntimeSessionID g) (g_BrowserSessionID g) "" (ep_Reference e).

Definition validateEndpoint (e : Endpoint) (g : Grant) (now : Time) : result unit :=
  if decide (ep_Reference e ≠ g_HandoffReference g ∨ validReference (endpoint_request e g) = false)
  then Err [ErrReferenceUnavailable] else
  if decide (ep_SandboxID e ≠ g_SandboxID g ∨ ep_RuntimeSessionID e ≠ g_RuntimeSessionID g
             ∨ ep_BrowserSessionID e ≠ g_BrowserSessionID g
             ∨ ep_CapabilityProfileID e ≠ g_CapabilityProfileID g) then Err [ErrStaleReference] else
  if decide (ep_ConnectionGeneration e ≠ g_ConnectionGeneration g) then Err [ErrStaleReference] else
  if decide (ep_Dial e = false) then Err [ErrReferenceUnavailable] else
  if decide (IsZero (ep_ExpiresAt e) ∨ ¬ After (ep_ExpiresAt e) now) then Err [ErrExpired] else
  if decide (After (g_ExpiresAt g) (ep_ExpiresAt e)) then Err [ErrStaleReference] else Ok ().

(** ** Audit events *)

Inductive AuditEventType :=
  | AuditAuthorized | AuditDenied | AuditConnected | AuditReconnected | AuditBackendClosed
  | AuditRevoked | AuditExpired | AuditClientClosed | AuditReconnectFailed
  | AuditCapacityRejected | AuditCapacityUnavailable | AuditCapacityLost
  | AuditCapacityReleaseFailed | AuditRevocationUnavailable | AuditDownstreamFenceLost
  | AuditDownstreamUnavailable.

#[export] Instance AuditEventType_eq_dec : EqDecision AuditEventType.
Proof. solve_decision. Defined.

Record AuditEvent := mkAuditEvent {
  ae_Type : AuditEventType;
  ae_At : Time;
  ae_GrantID : string;
  ae_CallerID : string;
  ae_TenantID : string;
  ae_SandboxID : string;
  ae_RuntimeSessionID : string;
  ae_BrowserSessionID : string;
  ae_ConnectionGeneration : Z;
  ae_Attempt : Z;
  ae_Frames : Z;
  ae_Bytes : Z;
  ae_Reason : string;
}.

Definition eventForGrant (g : Grant) (type : AuditEventType) (at_ : Time) (attempt frames bytes : Z)
    (reason : string) : AuditEvent :=
  mkAuditEvent type at_ (g_GrantID g) (g_CallerID g) (g_TenantID g) (g_SandboxID g)
    (g_RuntimeSessionID g) (g_BrowserSessionID g) (g_ConnectionGeneration g) attempt frames bytes reason.

Definition connectedEvent (reconnects : Z) : AuditEventType :=
  if decide (reconnects = 0) then AuditConnected else AuditReconnected.

Definition capacityAuditType (err : goerr) : option AuditEventType :=
  if errors_is err errCapacityLeaseLost then Some AuditCapacityLost else
  if errors_is err ErrCapacityUnavailable then Some AuditCapacityUnavailable else None.

(** ** Classification of errors *)

Definition is_context_error (err : goerr) : bool :=
  errors_is err (Canceled : sentinel) || errors_is err (DeadlineExceeded : sentinel).

(** An [error] that may be nil. *)
Definition is_some_error (err : option goerr) (s : sentinel) : bool :=
  match err with Some e => errors_is e s | None => false end.

Definition downstreamFenceError (errs : list (option goerr)) : option sentinel :=
  if existsb (λ e, is_some_error e ErrDownstreamFenceLost) errs then Some ErrDownstreamFenceLost else
  if existsb (λ e, is_some_error e ErrDownstreamUnavailable) errs then Some ErrDownstreamUnavailable
  else None.

(** ** Facts *)

(** A valid grant that matches a request is the request with a grant id, a
    generation and an expiry added. *)
Lemma matches_request g r : matches g r = true ↔ grant_request g = r.
Proof.
  unfold matches, grant_request. rewrite bool_decide_eq_true. destruct r; cbn.
  split; [intros; destruct_and!; by subst|by intros [= -> -> -> -> -> -> ->]].
Qed.

Lemma Grant_Validate_Ok g now :
  Grant_Validate g now = Ok () →
  now ≠ 0 ∧ 1 ≤ g_ConnectionGeneration g ∧ now < g_ExpiresAt g ∧
  ConnectRequest_Validate (grant_request g) = Ok ().
Proof.
  unfold Grant_Validate, IsZero, After. intros H. inv_ok H.
  destruct (ConnectRequest_Validate _) as [[]|]; [|by destruct Hguard0].
  nor Hguard. nor Hguard1. split_and!; [done|lia|lia|done].
Qed.

(** An accepted endpoint is the one the grant is bound to, and outlives it. *)
Lemma validateEndpoint_Ok e g now :
  validateEndpoint e g now = Ok () →
  ep_Reference e = g_HandoffReference g ∧ ep_SandboxID e = g_SandboxID g ∧
  ep_RuntimeSessionID e = g_RuntimeSessionID g ∧ ep_BrowserSessionID e = g_BrowserSessionID g ∧
  ep_CapabilityProfileID e = g_CapabilityProfileID g ∧
  ep_ConnectionGeneration e = g_ConnectionGeneration g ∧ now < ep_ExpiresAt e ∧
  g_ExpiresAt g ≤ ep_ExpiresAt e.
Proof.
  unfold validateEndpoint, After, IsZero. intros H. inv_ok H.
  nor Hguard. nor Hguard0. nor Hguard3.
  repeat match goal with H : ¬ (_ ≠ _) |- _ => apply dec_stable in H end.
  split_and!; try done; lia.
Qed.
