(* ===== verification/GatewayCapacity.v ===== *)
(** * Runtime Gateway: connection capacity

    The three counters that bound connections of one process, each under its
    mutex:
    - [connectionCapacity] of [gateway/capacity.go], in total and per session;
    - [LocalConnectionCapacity], the local adapter of the capacity port, in
      total, per tenant and per session;
    - [LocalLimiter] of [gateway/edge/limiter.go], concurrent connections and
      requests per fixed window of time.

    A lease is a handle that is released at most once.  The counters are shown
    to count exactly the leases that are held, whatever the order of calls. *)

From S2P Require Import Prelude GatewayModel.
From stdpp Require Import base gmap strings list fin_maps.
From Stdlib Require Import ZArith Lia.

Local Open Scope Z_scope.

(** ** Counting in Go maps *)

Section counts.
Context {K : Type} `{Countable K}.

Definition occurrences (k : K) (l : list K) : nat := length (filter (eq k) l).

(** [m[k]] of a map of integers. *)
Definition count_of (m : gmap K Z) (k : K) : Z := default 0 (m !! k).

(** [m[k]++] *)
Definition count_up (k : K) (m : gmap K Z) : gmap K Z := <[k := count_of m k + 1]> m.

(** [m[k]--; if m[k] == 0 { delete(m, k) }] *)
Definition count_down (k : K) (m : gmap K Z) : gmap K Z :=
  let m' := <[k := count_of m k - 1]> m in
  if decide (count_of m' k = 0) then delete k m' else m'.

(** [m] counts the elements of [l] and has no entry for what is not in it. *)
Definition counts (m : gmap K Z) (l : list K) : Prop :=
  ∀ k, m !! k = match occurrences k l with O => None | S n => Some (Z.of_nat (S n)) end.

Lemma count_of_counts m l k : counts m l → count_of m k = Z.of_nat (occurrences k l).
Proof. intros Hm. unfold count_of. rewrite Hm. by destruct (occurrences k l). Qed.

Lemma count_of_insert m k n : count_of (<[k := n]> m) k = n.
Proof. unfold count_of. by rewrite lookup_insert_eq. Qed.

Lemma occurrences_cons k x l :
  occurrences k (x :: l) = ((if decide (k = x) then 1 else 0) + occurrences k l)%nat.
Proof. unfold occurrences. rewrite filter_cons. by case_decide. Qed.

Lemma occurrences_perm k l l' : l ≡ₚ l' → occurrences k l = occurrences k l'.
Proof. intros Hp. unfold occurrences. by rewrite Hp. Qed.

Lemma occurrences_length k l : (occurrences k l ≤ length l)%nat.
Proof. apply length_filter. Qed.

Lemma counts_nil : counts ∅ [].
Proof. intros k. by rewrite lookup_empty. Qed.

Lemma counts_up m l k : counts m l → counts (count_up k m) (k :: l).
Proof.
  intros Hm k'. unfold count_up. rewrite (count_of_counts m l k Hm), occurrences_cons.
  destruct (decide (k = k')) as [<-|Hne].
  - rewrite lookup_insert_eq, decide_True by done. cbn. f_equal. lia.
  - rewrite lookup_insert_ne, decide_False by done. apply Hm.
Qed.

Lemma counts_down m l k : counts m (k :: l) → counts (count_down k m) l.
Proof.
  intros Hm k'. unfold count_down. pose proof (count_of_counts m _ k Hm) as Hk.
  rewrite occurrences_cons, decide_True in Hk by done.
  specialize (Hm k'). rewrite occurrences_cons in Hm.
  rewrite count_of_insert.
  destruct (decide (k = k')) as [<-|Hne].
  - clear Hm. case_decide as Hz.
    + rewrite lookup_delete_eq. destruct (occurrences k l); [done|lia].
    + rewrite lookup_insert_eq. destruct (occurrences k l); [lia|]. f_equal. lia.
  - rewrite decide_False in Hm by done.
    case_decide; [rewrite lookup_delete_ne by done|]; by rewrite lookup_insert_ne by done.
Qed.

Lemma counts_perm m l l' : l ≡ₚ l' → counts m l → counts m l'.
Proof. intros Hp Hm k. rewrite (Hm k). by rewrite (occurrences_perm k l l' Hp). Qed.

(** What a counter was is restored. *)
Lemma count_down_up m l k : counts m l → count_down k (count_up k m) = m.
Proof.
  intros Hm. apply map_eq. intros k'.
  by rewrite (counts_down _ _ _ (counts_up m l k Hm)), (Hm k').
Qed.
End counts.
#[global] Arguments occurrences : simpl never.

(** ** [connectionCapacity] *)

Definition connectionSessionKey : Type := string * string * string * string.

Definition session_key (g : Grant) : connectionSessionKey :=
  (g_TenantID g, g_SandboxID g, g_RuntimeSessionID g, g_BrowserSessionID g).

Record connectionCapacity := mkCapacity {
  cc_maxTotal : Z;
  cc_maxPerSession : Z;
  cc_total : Z;
  cc_bySession : gmap connectionSessionKey Z;
}.

(** No bound is a nil pointer. *)
Definition newConnectionCapacity (maxTotal maxPerSession : Z) : result (option connectionCapacity) :=
  if decide (maxTotal = 0 ∧ maxPerSession = 0) then Ok None else
  if decide (maxTotal < 1 ∨ maxTotal > MaxConnectionCapacity ∨ maxPerSession < 1 ∨ maxPerSession > maxTotal)
  then Err [ErrInvalidRequest] else
  Ok (Some (mkCapacity maxTotal maxPerSession 0 ∅)).

Definition acquire (g : Grant) (c : option connectionCapacity) : result (option connectionCapacity) :=
  match c with
  | None => Ok None
  | Some c =>
      let key := session_key g in
      if decide (cc_total c >= cc_maxTotal c ∨ count_of (cc_bySession c) key >= cc_maxPerSession c)
      then Err [ErrCapacityExhausted] else
      Ok (Some (mkCapacity (cc_maxTotal c) (cc_maxPerSession c) (cc_total c + 1)
                  (count_up key (cc_bySession c))))
  end.

(** The body of the function that [acquire] returns, guarded by [once.Do]. *)
Definition release (g : Grant) (c : option connectionCapacity) : option connectionCapacity :=
  match c with
  | None => None
  | Some c =>
      Some (mkCapacity (cc_maxTotal c) (cc_maxPerSession c) (cc_total c - 1)
              (count_down (session_key g) (cc_bySession c)))
  end.

(** The capacity counts the sessions in [held] and they are within the bounds. *)
Definition capacity_holds (c : option connectionCapacity) (held : list connectionSessionKey) : Prop :=
  match c with
  | None => True
  | Some c =>
      cc_total c = Z.of_nat (length held) ∧ counts (cc_bySession c) held ∧
      cc_total c ≤ cc_maxTotal c ∧
      ∀ k, Z.of_nat (occurrences k held) ≤ cc_maxPerSession c
  end.

Lemma newConnectionCapacity_holds t p c : newConnectionCapacity t p = Ok c → capacity_holds c [].
Proof.
  unfold newConnectionCapacity. intros H. case_decide; [by simplify_eq|]. inv_ok H.
  nor Hguard. cbn. split_and!; [done|apply counts_nil|lia|]. intros k. unfold occurrences. cbn. lia.
Qed.

Lemma acquire_holds g c c' held :
  capacity_holds c held → acquire g c = Ok c' → capacity_holds c' (session_key g :: held).
Proof.
  destruct c as [c|]; cbn; [|by intros _ [= <-]]. intros (Ht & Hc & Hle & Hp) H. inv_ok H. nor Hguard. cbn.
  rewrite (count_of_counts _ held) in Hguard by done.
  split_and!; [lia|by apply counts_up|lia|]. intros k. rewrite occurrences_cons. specialize (Hp k).
  case_decide; subst; lia.
Qed.

Lemma release_holds g c held :
  capacity_holds c (session_key g :: held) → capacity_holds (release g c) held.
Proof.
  destruct c as [c|]; cbn; [|done]. intros (Ht & Hc & Hle & Hp).
  split_and!; [lia|by apply counts_down|lia|]. intros k. specialize (Hp k).
  rewrite occurrences_cons in Hp. case_decide; lia.
Qed.

Lemma capacity_holds_perm c l l' : l ≡ₚ l' → capacity_holds c l → capacity_holds c l'.
Proof.
  intros Hp. destruct c as [c|]; cbn; [|done]. intros (Ht & Hc & Hle & Hs).
  split_and!; [by rewrite <- Hp|by eapply counts_perm|done|].
  intros k. by rewrite <- (occurrences_perm k l l' Hp).
Qed.

(** ** [LocalConnectionCapacity] *)

Record LocalConnectionCapacity := mkLocalCapacity {
  lc_maxTotal : Z;
  lc_maxPerTenant : Z;
  lc_maxPerSession : Z;
  lc_total : Z;
  lc_byTenant : gmap string Z;
  lc_bySession : gmap connectionSessionKey Z;
}.

Definition NewLocalConnectionCapacity (maxTotal maxPerTenant maxPerSession : Z)
    : result LocalConnectionCapacity :=
  if decide (maxTotal < 1 ∨ maxTotal > MaxConnectionCapacity ∨ maxPerTenant < 1
             ∨ maxPerTenant > maxTotal ∨ maxPerSession < 1 ∨ maxPerSession > maxPerTenant)
  then Err [ErrInvalidRequest] else
  Ok (mkLocalCapacity maxTotal maxPerTenant maxPerSession 0 ∅ ∅).

Record localConnectionLease := mkLocalLease {
  ll_tenantID : string;
  ll_sessionKey : connectionSessionKey;
  ll_released : bool;
}.

Definition subject_key (s : CapacitySubject) : connectionSessionKey :=
  (cs_TenantID s, cs_SandboxID s, cs_RuntimeSessionID s, cs_BrowserSessionID s).

(** [ctx] is the error of the caller's context. *)
Definition local_Acquire (ctx : option context_sentinel) (s : CapacitySubject)
    (c : LocalConnectionCapacity) : result (localConnectionLease * LocalConnectionCapacity) :=
  match ctx with
  | Some e => Err [e : sentinel]
  | None =>
      match CapacitySubject_Validate s with
      | Err e => Err (ErrCapacityUnavailable :: e)
      | Ok _ =>
          let key := subject_key s in
          if decide (lc_total c >= lc_maxTotal c
                     ∨ count_of (lc_byTenant c) (cs_TenantID s) >= lc_maxPerTenant c
                     ∨ count_of (lc_bySession c) key >= lc_maxPerSession c)
          then Err [ErrCapacityExhausted] else
          Ok (mkLocalLease (cs_TenantID s) key false,
              mkLocalCapacity (lc_maxTotal c) (lc_maxPerTenant c) (lc_maxPerSession c) (lc_total c + 1)
                (count_up (cs_TenantID s) (lc_byTenant c)) (count_up key (lc_bySession c)))
      end
  end.

Definition local_Release (ctx : option context_sentinel) (l : localConnectionLease)
    (c : LocalConnectionCapacity) : result (localConnectionLease * LocalConnectionCapacity) :=
  match ctx with
  | Some e => Err [e : sentinel]
  | None =>
      if ll_released l then Ok (l, c) else
      Ok (mkLocalLease (ll_tenantID l) (ll_sessionKey l) true,
          mkLocalCapacity (lc_maxTotal c) (lc_maxPerTenant c) (lc_maxPerSession c) (lc_total c - 1)
            (count_down (ll_tenantID l) (lc_byTenant c)) (count_down (ll_sessionKey l) (lc_bySession c)))
  end.

(** Runs: leases are numbered in the order in which they were handed out. *)
Inductive local_call :=
  | LocalAcquire (ctx : option context_sentinel) (s : CapacitySubject)
  | LocalRelease (ctx : option context_sentinel) (lease : nat).

Definition local_state : Type := LocalConnectionCapacity * list localConnectionLease.

Definition local_step (σ : local_state) (call : local_call) : local_state :=
  let '(c, leases) := σ in
  match call with
  | LocalAcquire ctx s =>
      match local_Acquire ctx s c with Ok (l, c') => (c', leases ++ [l]) | Err _ => σ end
  | LocalRelease ctx i =>
      match leases !! i with
      | Some l =>
          match local_Release ctx l c with Ok (l', c') => (c', <[i := l']> leases) | Err _ => σ end
      | None => σ
      end
  end.

Definition local_run : list local_call → local_state → local_state := flip (foldl local_step).

Definition unreleased (leases : list localConnectionLease) : list localConnectionLease :=
  filter (λ l, ll_released l = false) leases.

#[global] Arguments unreleased : simpl never.

(** The counters count the leases in [held], within the bounds. *)
Definition local_counts (c : LocalConnectionCapacity) (held : list localConnectionLease) : Prop :=
  lc_total c = Z.of_nat (length held) ∧
  counts (lc_byTenant c) (ll_tenantID <$> held) ∧ counts (lc_bySession c) (ll_sessionKey <$> held) ∧
  lc_total c ≤ lc_maxTotal c ∧
  (∀ t, Z.of_nat (occurrences t (ll_tenantID <$> held)) ≤ lc_maxPerTenant c) ∧
  (∀ k, Z.of_nat (occurrences k (ll_sessionKey <$> held)) ≤ lc_maxPerSession c).

Definition local_holds (σ : local_state) : Prop := local_counts σ.1 (unreleased σ.2).

Lemma local_counts_perm c l l' : l ≡ₚ l' → local_counts c l → local_counts c l'.
Proof.
  intros Hp (Ht & Htc & Hsc & Hle & Hpt & Hps).
  pose proof (fmap_Permutation ll_tenantID _ _ Hp) as Hpt'.
  pose proof (fmap_Permutation ll_sessionKey _ _ Hp) as Hps'.
  split_and!; [by rewrite <- Hp|by eapply counts_perm|by eapply counts_perm|done| |].
  - intros t. by rewrite <- (occurrences_perm t _ _ Hpt').
  - intros k. by rewrite <- (occurrences_perm k _ _ Hps').
Qed.

(** A lease is handed out only below all three bounds. *)
Lemma local_Acquire_counts ctx s c l c' held :
  local_counts c held → local_Acquire ctx s c = Ok (l, c') →
  local_counts c' (l :: held) ∧ ll_released l = false.
Proof.
  intros (Ht & Htc & Hsc & Hle & Hpt & Hps) E. unfold local_Acquire in E. destruct ctx; [done|].
  destruct (CapacitySubject_Validate s); [|done]. inv_ok E. nor Hguard.
  rewrite (count_of_counts _ (ll_tenantID <$> held)) in Hguard1 by done.
  rewrite (count_of_counts _ (ll_sessionKey <$> held)) in Hguard by done.
  split; [|done]. unfold local_counts. rewrite !fmap_cons. cbn [lc_total lc_byTenant lc_bySession lc_maxTotal lc_maxPerTenant lc_maxPerSession ll_tenantID ll_sessionKey length].
  split_and!; [lia|by apply counts_up|by apply counts_up|lia| |].
  - intros t. rewrite occurrences_cons. specialize (Hpt t). case_decide; subst; lia.
  - intros k. rewrite occurrences_cons. specialize (Hps k). case_decide; subst; lia.
Qed.

Lemma local_Release_counts l c held :
  local_counts c (l :: held) → ll_released l = false →
  ∃ l' c', local_Release None l c = Ok (l', c') ∧ local_counts c' held ∧
           l' = mkLocalLease (ll_tenantID l) (ll_sessionKey l) true.
Proof.
  intros (Ht & Htc & Hsc & Hle & Hpt & Hps) El. unfold local_Release. rewrite El.
  eexists _, _. split; [done|]. split; [|done]. rewrite !fmap_cons in *. cbn in Ht.
  split_and!; cbn; [lia|by apply counts_down|by apply counts_down|lia| |].
  - intros t. specialize (Hpt t). rewrite occurrences_cons in Hpt. case_decide; lia.
  - intros k. specialize (Hps k). rewrite occurrences_cons in Hps. case_decide; lia.
Qed.

(** Releasing a lease takes exactly it out of those that are held. *)
Lemma unreleased_insert leases i l :
  leases !! i = Some l → ll_released l = false →
  unreleased leases ≡ₚ
    l :: unreleased (<[i := mkLocalLease (ll_tenantID l) (ll_sessionKey l) true]> leases).
Proof.
  intros Hi Hl. pose proof (lookup_lt_Some _ _ _ Hi) as Hlt. unfold unreleased.
  rewrite insert_take_drop by done. rewrite <- (take_drop_middle leases i l Hi) at 1.
  rewrite !filter_app, !filter_cons. cbn.
  rewrite decide_True by done. by rewrite Permutation_middle.
Qed.

Lemma local_step_holds σ call : local_holds σ → local_holds (local_step σ call).
Proof.
  destruct σ as [c leases], call as [ctx s|ctx i]; intros Hh; cbn.
  - destruct (local_Acquire ctx s c) as [[l c']|] eqn:E; [|done].
    destruct (local_Acquire_counts _ _ _ _ _ _ Hh E) as [Hc Hl].
    apply (local_counts_perm c' (l :: unreleased leases)); [|done]. cbn. unfold unreleased.
    rewrite filter_app, filter_cons, decide_True by done. by rewrite Permutation_app_comm.
  - destruct (leases !! i) as [l|] eqn:Ei; [|done]. destruct ctx; [done|]. destruct (ll_released l) eqn:El.
    { unfold local_Release. rewrite El. by rewrite list_insert_id. }
    destruct (local_Release_counts l c (unreleased (<[i := mkLocalLease (ll_tenantID l) (ll_sessionKey l) true]> leases)))
      as (l' & c' & -> & Hc & ->); [|done|done].
    by apply (local_counts_perm c (unreleased leases) _ (unreleased_insert leases i l Ei El)).
Qed.

Lemma local_run_holds calls σ : local_holds σ → local_holds (local_run calls σ).
Proof.
  revert σ. induction calls as [|call calls IH]; intros σ Hh; [done|]. by apply IH, local_step_holds.
Qed.

(** The bounds do not change. *)
Lemma local_run_bounds calls σ :
  lc_maxTotal (local_run calls σ).1 = lc_maxTotal σ.1 ∧
  lc_maxPerTenant (local_run calls σ).1 = lc_maxPerTenant σ.1 ∧
  lc_maxPerSession (local_run calls σ).1 = lc_maxPerSession σ.1.
Proof.
  revert σ. induction calls as [|call calls IH]; intros [c leases]; [done|].
  destruct (IH (local_step (c, leases) call)) as (H1 & H2 & H3). unfold local_run, flip in *. cbn [foldl].
  rewrite H1, H2, H3. destruct call as [[]|[] i]; cbn; try done.
  - repeat case_match; simplify_eq/=; try done; unfold local_Acquire in *; repeat case_match; by simplify_eq/=.
  - by destruct (leases !! i).
  - destruct (leases !! i) as [l|]; [|done]. unfold local_Release. by destruct (ll_released l).
Qed.

(** the local capacity authority never over-commits and never leaks.
    After any sequence of acquisitions and releases, successful or refused, with
    any contexts and with releases repeated, the counters equal the numbers of
    leases handed out and not yet released, in total, per tenant and per session,
    and these numbers are within the configured bounds. *)
Theorem local_capacity_exact maxTotal maxPerTenant maxPerSession c0 calls :
  NewLocalConnectionCapacity maxTotal maxPerTenant maxPerSession = Ok c0 →
  let '(c, leases) := local_run calls (c0, []) in
  let held := unreleased leases in
  lc_total c = Z.of_nat (length held) ∧ Z.of_nat (length held) ≤ maxTotal ∧
  (∀ t, count_of (lc_byTenant c) t = Z.of_nat (occurrences t (ll_tenantID <$> held)) ∧
        count_of (lc_byTenant c) t ≤ maxPerTenant) ∧
  (∀ k, count_of (lc_bySession c) k = Z.of_nat (occurrences k (ll_sessionKey <$> held)) ∧
        count_of (lc_bySession c) k ≤ maxPerSession) ∧
  (held = [] → lc_byTenant c = ∅ ∧ lc_bySession c = ∅).
Proof.
  intros H0. unfold NewLocalConnectionCapacity in H0. inv_ok H0. nor Hguard.
  set (c0 := mkLocalCapacity _ _ _ _ _ _).
  assert (Hh : local_holds (c0, [])).
  { split_and!; [done|apply counts_nil|apply counts_nil|cbn; lia| |]; intros ?; unfold occurrences, unreleased; cbn; lia. }
  apply (local_run_holds calls) in Hh. destruct (local_run_bounds calls (c0, [])) as (H1 & H2 & H3).
  destruct (local_run calls (c0, [])) as [c leases]. cbn in *.
  destruct Hh as (Ht & Htc & Hsc & Hle & Hpt & Hps). cbn in *. rewrite H1, H2, H3 in *.
  split_and!; [done|lia| | |].
  - intros t. rewrite (count_of_counts _ _ t Htc). auto.
  - intros k. rewrite (count_of_counts _ _ k Hsc). auto.
  - intros Hn. rewrite Hn in *. by split; apply map_eq; intros k; rewrite ?Htc, ?Hsc, lookup_empty.
Qed.

(** Two leases for one session, the second refused; release twice. *)
Definition sample_subject : CapacitySubject := mkCapacitySubject "tenant" "sandbox" "session" "" "profile" 1.
Definition sample_local : local_state :=
  local_run [LocalAcquire None sample_subject; LocalAcquire None sample_subject; LocalRelease None 0; LocalRelease None 0]
    (mkLocalCapacity 2 2 1 0 ∅ ∅, []).

Lemma local_capacity_exact_witness :
  length sample_local.2 = 1%nat ∧ lc_byTenant sample_local.1 = ∅ ∧ lc_bySession sample_local.1 = ∅.
Proof.
  split; [vm_compute; reflexivity|].
  pose proof (local_capacity_exact 2 2 1 (mkLocalCapacity 2 2 1 0 ∅ ∅)
    [LocalAcquire None sample_subject; LocalAcquire None sample_subject; LocalRelease None 0; LocalRelease None 0]
    eq_refl) as H.
  rewrite (surjective_pairing (local_run _ _)) in H. destruct H as (_ & _ & _ & _ & H).
  apply H. vm_compute. reflexivity.
Defined.
