(* ===== verification/GatewayLimiter.v ===== *)
(** * Runtime Gateway: the public-edge limiter

    [gateway/edge/limiter.go]: a bound on concurrent public connections and on
    requests per fixed window of time, checked before a connection is upgraded.
    The clock is read once per call; leases are numbered in the order in which
    they were handed out. *)

From S2P Require Import Prelude GatewayModel GatewayCapacity.
From stdpp Require Import base strings list.
From Stdlib Require Import ZArith Lia.

Local Open Scope Z_scope.

Definition edge_error (name : string) : sentinel := SNamed "edge" name.
Definition ErrInvalidOptions : sentinel := edge_error "ErrInvalidOptions".
Definition ErrUnavailable : sentinel := edge_error "ErrUnavailable".
Definition EdgeErrCapacityExhausted : sentinel := edge_error "ErrCapacityExhausted".
Definition ErrRateLimited : sentinel := edge_error "ErrRateLimited".

Definition MaxConcurrentConnections : Z := 1000.
Definition MaxRequestsPerWindow : Z := 100000.
Definition MinWindow : Z := 100 * Millisecond.
Definition MaxWindow : Z := 60 * Second.

Record LocalLimiter := mkLimiter {
  lm_maxConcurrent : Z;
  lm_maxRequestsPerWindow : Z;
  lm_window : Z;
  lm_windowStart : Time;
  lm_requests : Z;
  lm_active : Z;
}.

(** [typed_nil_clock]: the clock option is an interface that holds a nil value. *)
Definition NewLocalLimiter (maxConcurrent maxRequests window : Z) (typed_nil_clock : bool)
    : result LocalLimiter :=
  if decide (maxConcurrent < 1 ∨ maxConcurrent > MaxConcurrentConnections) then Err [ErrInvalidOptions] else
  if decide (maxRequests < 1 ∨ maxRequests > MaxRequestsPerWindow) then Err [ErrInvalidOptions] else
  if decide (window < MinWindow ∨ window > MaxWindow) then Err [ErrInvalidOptions] else
  if typed_nil_clock then Err [ErrInvalidOptions] else
  Ok (mkLimiter maxConcurrent maxRequests window 0 0 0).

Inductive limiter_error :=
  | Refused (e : goerr)
  | Rejected (cause : sentinel) (retryAfter : Z).

Definition newRejection (cause : sentinel) (retryAfter : Z) : limiter_error :=
  Rejected cause (if decide (retryAfter <= 0) then Second else retryAfter).

(** [RetryAfter(err)] *)
Definition RetryAfter (e : limiter_error) : Z :=
  match e with Rejected _ d => d | Refused _ => 0 end.

Inductive ctx_arg := NilContext | LiveContext | EndedContext (e : context_sentinel).

(** The window the reading falls into: its start and the requests counted in it. *)
Definition current_window (now : Time) (l : LocalLimiter) : option (Time * Z) :=
  if decide (IsZero (lm_windowStart l)) then Some (now, lm_requests l)
  else if decide (Before now (lm_windowStart l)) then None
  else
    let elapsed := Sub now (lm_windowStart l) in
    if decide (elapsed >= lm_window l)
    then Some (lm_windowStart l + (elapsed ÷ lm_window l) * lm_window l, 0)
    else Some (lm_windowStart l, lm_requests l).

Definition limiter_set (start : Time) (requests active : Z) (l : LocalLimiter) : LocalLimiter :=
  mkLimiter (lm_maxConcurrent l) (lm_maxRequestsPerWindow l) (lm_window l) start requests active.

Definition limiter_Acquire (ctx : ctx_arg) (now : Time) (l : LocalLimiter)
    : option limiter_error * LocalLimiter :=
  match ctx with
  | NilContext => (Some (Refused [ErrUnavailable]), l)
  | EndedContext e => (Some (Refused [e : sentinel]), l)
  | LiveContext =>
      if decide (IsZero now) then (Some (Refused [ErrUnavailable]), l) else
      match current_window now l with
      | None => (Some (Refused [ErrUnavailable]), l)
      | Some (start, requests) =>
          let windowEnd := start + lm_window l in
          if decide (requests >= lm_maxRequestsPerWindow l)
          then (Some (newRejection ErrRateLimited (Sub windowEnd now)),
                limiter_set start requests (lm_active l) l)
          else if decide (lm_active l >= lm_maxConcurrent l)
          then (Some (newRejection EdgeErrCapacityExhausted Second),
                limiter_set start (requests + 1) (lm_active l) l)
          else (None, limiter_set start (requests + 1) (lm_active l + 1) l)
      end
  end.

(** [localLease.Release] under its [sync.Once]. *)
Definition limiter_Release (l : LocalLimiter) : LocalLimiter :=
  if decide (lm_active l > 0)
  then limiter_set (lm_windowStart l) (lm_requests l) (lm_active l - 1) l else l.

(** ** Runs *)

Inductive limiter_call :=
  | LimiterAcquire (ctx : ctx_arg) (now : Time)
  | LimiterRelease (lease : nat).

(** The leases say whether they are still held; the log has the time of every
    request that was counted, newest first. *)
Record limiter_state := mkLimiterState {
  lms_limiter : LocalLimiter;
  lms_held : list bool;
  lms_log : list Time;
}.

Definition limiter_step (σ : limiter_state) (call : limiter_call) : limiter_state :=
  match call with
  | LimiterAcquire ctx now =>
      match limiter_Acquire ctx now (lms_limiter σ) with
      | (None, l) => mkLimiterState l (lms_held σ ++ [true]) (now :: lms_log σ)
      | (Some (Rejected cause _), l) =>
          mkLimiterState l (lms_held σ)
            (if decide (cause = EdgeErrCapacityExhausted) then now :: lms_log σ else lms_log σ)
      | (Some (Refused _), l) => mkLimiterState l (lms_held σ) (lms_log σ)
      end
  | LimiterRelease i =>
      match lms_held σ !! i with
      | Some true => mkLimiterState (limiter_Release (lms_limiter σ)) (<[i := false]> (lms_held σ)) (lms_log σ)
      | _ => σ
      end
  end.

Definition limiter_run : list limiter_call → limiter_state → limiter_state := flip (foldl limiter_step).

Definition held_count (held : list bool) : Z := Z.of_nat (length (filter (eq true) held)).

(** Requests at times in [[start, start + window)]. *)
Definition in_window (window start : Z) (t : Time) : Prop := start ≤ t < start + window.
#[export] Instance in_window_dec w s t : Decision (in_window w s t).
Proof. unfold in_window. apply _. Defined.
Definition requests_in (window start : Z) (log : list Time) : Z :=
  Z.of_nat (length (filter (in_window window start) log)).

Lemma requests_in_cons W s t log :
  requests_in W s (t :: log) = (if decide (in_window W s t) then 1 else 0) + requests_in W s log.
Proof. unfold requests_in. rewrite filter_cons. case_decide; cbn; lia. Qed.

Lemma requests_in_nonneg W s log : 0 ≤ requests_in W s log.
Proof. unfold requests_in. lia. Qed.

Lemma held_count_app held : held_count (held ++ [true]) = held_count held + 1.
Proof. unfold held_count. rewrite filter_app, length_app. rewrite filter_cons. case_decide; [|done]. cbn. lia. Qed.

Lemma held_count_insert held i :
  held !! i = Some true → held_count (<[i := false]> held) = held_count held - 1.
Proof.
  intros (l1 & l2 & -> & ->)%list_elem_of_split_length. unfold held_count.
  rewrite insert_app_r_alt, Nat.sub_diag by lia. cbn.
  rewrite !filter_app, !length_app, !filter_cons. repeat case_decide; try done. cbn. lia.
Qed.

(** ** Windows

    Windows start at multiples of the window after the first request; [n] is
    the number of the current one. *)

Record limiter_ok (W M C base : Z) (σ : limiter_state) : Prop := {
  lok_bounds : lm_window (lms_limiter σ) = W ∧ lm_maxRequestsPerWindow (lms_limiter σ) = M ∧
               lm_maxConcurrent (lms_limiter σ) = C;
  lok_active : lm_active (lms_limiter σ) = held_count (lms_held σ) ∧ lm_active (lms_limiter σ) ≤ C;
  lok_fresh : lm_windowStart (lms_limiter σ) = 0 → lms_log σ = [] ∧ lm_requests (lms_limiter σ) = 0;
  lok_start : lm_windowStart (lms_limiter σ) ≠ 0 → base ≤ lm_windowStart (lms_limiter σ);
}.

Record windows_ok (W M w0 : Z) (σ : limiter_state) : Prop := {
  wok_aligned : ∃ n, 0 ≤ n ∧ lm_windowStart (lms_limiter σ) = w0 + n * W;
  wok_current : lm_requests (lms_limiter σ) = requests_in W (lm_windowStart (lms_limiter σ)) (lms_log σ);
  wok_past : ∀ t, t ∈ lms_log σ → t < lm_windowStart (lms_limiter σ) + W;
  wok_rate : ∀ n, requests_in W (w0 + n * W) (lms_log σ) ≤ M;
}.

(** Aligned windows that share a point are the same. *)
Lemma aligned_eq W w0 n m t : 0 < W → in_window W (w0 + n * W) t → in_window W (w0 + m * W) t → n = m.
Proof. unfold in_window. intros. nia. Qed.

Lemma requests_in_future W s log : (∀ t, t ∈ log → t < s) → requests_in W s log = 0.
Proof.
  induction log as [|t log IH]; intros Hlog; [done|]. rewrite requests_in_cons, decide_False.
  - rewrite IH; [done|]. intros u Hu. apply Hlog. by right.
  - intros [? _]. specialize (Hlog t). rewrite elem_of_cons in Hlog. lia.
Qed.

(** The window that [current_window] computes is the aligned one of the reading. *)
Lemma current_window_ok W M w0 σ base now start requests :
  0 < W → lm_window (lms_limiter σ) = W → lm_windowStart (lms_limiter σ) ≠ 0 →
  base ≤ lm_windowStart (lms_limiter σ) → now < base + 2^63 → windows_ok W M w0 σ →
  current_window now (lms_limiter σ) = Some (start, requests) →
  ∃ n, 0 ≤ n ∧ start = w0 + n * W ∧ lm_windowStart (lms_limiter σ) ≤ start ∧ in_window W start now ∧
       requests = requests_in W start (lms_log σ).
Proof.
  intros HW Hwin Hnz Hb Hnow [[n [Hn Ha]] Hc Hp Hr] H. unfold current_window, IsZero, Before in H.
  rewrite decide_False in H by done. rewrite Hwin in H.
  destruct (decide (now < _)) as [|Hge]; [done|]. set (ws := lm_windowStart (lms_limiter σ)) in *.
  assert (Hsub : Sub now ws = now - ws) by (unfold Sub; lia). rewrite Hsub in H.
  case_decide as He; injection H as <- <-.
  - rewrite Z.quot_div_nonneg by lia. set (q := (now - ws) `div` W).
    assert (Hq : q * W ≤ now - ws < q * W + W).
    { pose proof (Z.mul_div_le (now - ws) W HW). pose proof (Z.mul_succ_div_gt (now - ws) W HW). unfold q. lia. }
    assert (1 ≤ q) by (apply Z.div_le_lower_bound; lia).
    exists (n + q). split_and!; [lia|rewrite Ha; lia|nia|unfold in_window; lia|].
    symmetry. apply requests_in_future. intros t Ht. apply Hp in Ht. nia.
  - exists n. split_and!; try lia. unfold in_window. lia.
Qed.

(** ** Every step keeps the counts *)

Lemma held_count_nonneg held : 0 ≤ held_count held.
Proof. unfold held_count. lia. Qed.

Definition call_time (call : limiter_call) (base : Z) : Prop :=
  match call with LimiterAcquire _ now => now = 0 ∨ base ≤ now < base + 2^63 | LimiterRelease _ => True end.

(** The first request opens the first window. *)
Definition first_window (W M w0 : Z) (σ : limiter_state) : Prop :=
  lm_windowStart (lms_limiter σ) ≠ 0 → windows_ok W M w0 σ.

Section limiter_steps.
Context (W M C base : Z).
Context (HW : 0 < W) (HM : 1 ≤ M) (HC : 1 ≤ C) (Hbase : 0 < base).

Lemma limiter_acquire_ok σ ctx now w0 :
  limiter_ok W M C base σ → first_window W M w0 σ → call_time (LimiterAcquire ctx now) base →
  ∃ w0', limiter_ok W M C base (limiter_step σ (LimiterAcquire ctx now)) ∧
         first_window W M w0' (limiter_step σ (LimiterAcquire ctx now)) ∧
         (lm_windowStart (lms_limiter σ) ≠ 0 → w0' = w0).
Proof using HW HM HC Hbase.
  intros Hok Hf Hnow. destruct Hok as [(Hb1 & Hb2 & Hb3) (Ha1 & Ha2) Hfr Hst]. cbn in Hnow.
  destruct σ as [l held log]. cbn [lms_limiter lms_held lms_log] in *.
  assert (Hsame : ∃ w0', limiter_ok W M C base (mkLimiterState l held log) ∧
    first_window W M w0' (mkLimiterState l held log) ∧ (lm_windowStart l ≠ 0 → w0' = w0)).
  { exists w0. split; [by split|]. by split. }
  cbn. unfold limiter_Acquire. destruct ctx; [done| |done]. unfold IsZero. destruct (decide (now = 0)) as [|Hn0]; [done|].
  destruct Hnow as [|Hnow]; [done|].
  destruct (current_window now l) as [[start requests]|] eqn:E; [|done]. cbn.
  assert (Hwin : ∃ w1 n, (lm_windowStart l ≠ 0 → w1 = w0) ∧ 0 ≤ n ∧ start = w1 + n * W ∧ in_window W start now ∧
    base ≤ start ∧ requests = requests_in W start log ∧
    (∀ k, requests_in W (w1 + k * W) log ≤ M) ∧ (∀ t, t ∈ log → t < start + W)).
  { destruct (decide (lm_windowStart l = 0)) as [Hz|Hnz].
    - unfold current_window, IsZero in E. rewrite decide_True in E by done. simplify_eq.
      destruct (Hfr Hz) as [-> ->]. exists start, 0. unfold in_window. split_and!; try done; try lia.
      + intros k. unfold requests_in. cbn. lia.
      + intros t Ht. by apply elem_of_nil in Ht.
    - pose proof (Hf Hnz) as Hwok.
      destruct (current_window_ok W M w0 (mkLimiterState l held log) base now start requests HW Hb1 Hnz (Hst Hnz) ltac:(lia) Hwok E)
        as (n & Hn & Hs & Hle & Hin & Hreq). cbn in *. destruct Hwok as [_ _ Hp Hr]. cbn in *. pose proof (Hst Hnz).
      exists w0, n. split_and!; try done; try lia. intros t Ht. apply Hp in Ht. lia. }
  destruct Hwin as (w1 & n & Hw1 & Hn & Hs & Hin & Hbs & Hreq & Hrate & Hpast).
  assert (Hcount : ∀ l' held', lm_windowStart l' = start → lm_requests l' = requests + 1 → requests < M →
    windows_ok W M w1 (mkLimiterState l' held' (now :: log))).
  { intros l' held' H1 H2 H3. split; cbn.
    - exists n. split; [done|]. by rewrite H1.
    - rewrite H1, requests_in_cons, decide_True by done. lia.
    - rewrite H1. intros u [->|Hu]%elem_of_cons; [destruct Hin; lia|by apply Hpast].
    - intros m. rewrite requests_in_cons. specialize (Hrate m). case_decide as Hm; [|lia].
      rewrite Hs in Hin. rewrite (aligned_eq W w1 m n now HW Hm Hin), <- Hs. lia. }
  exists w1. rewrite Hb2, Hb3. destruct (decide (requests >= M)) as [Hfull|Hnot]; cbn.
  - split; [|split; [|done]].
    + split; cbn; [by split_and!|by split| |by intros _]. intros Hz. lia.
    + intros _. split; cbn; [by exists n|done|done|done].
  - destruct (decide (lm_active l >= C)) as [Hcap|Hcap]; cbn.
    + split; [|split; [|done]].
      * split; cbn; [by split_and!|by split| |by intros _]. intros Hz. lia.
      * intros _. apply Hcount; cbn; lia.
    + split; [|split; [|done]].
      * split; cbn; [by split_and!| | |by intros _]; [rewrite held_count_app; lia|]. intros Hz. lia.
      * intros _. apply Hcount; cbn; lia.
Qed.

Lemma limiter_release_ok σ i w0 :
  limiter_ok W M C base σ → first_window W M w0 σ →
  limiter_ok W M C base (limiter_step σ (LimiterRelease i)) ∧
  first_window W M w0 (limiter_step σ (LimiterRelease i)).
Proof using Hbase.
  intros Hok Hf. cbn. destruct (lms_held σ !! i) as [[]|] eqn:Ei; [|by split..].
  destruct Hok as [(Hb1 & Hb2 & Hb3) (Ha1 & Ha2) Hfr Hst].
  pose proof (held_count_insert _ _ Ei) as Hi. pose proof (held_count_nonneg (<[i:=false]> (lms_held σ))).
  unfold limiter_Release. rewrite decide_True by lia. split.
  - split; cbn; [by split_and!|lia|done|done].
  - intros Hnz. cbn in Hnz. destruct (Hf Hnz) as [H1 H2 H3 H4]. by split.
Qed.

Lemma limiter_run_ok calls σ w0 :
  Forall (λ call, call_time call base) calls → limiter_ok W M C base σ → first_window W M w0 σ →
  ∃ w0', limiter_ok W M C base (limiter_run calls σ) ∧ first_window W M w0' (limiter_run calls σ).
Proof using HW HM HC Hbase.
  intros Hc. revert σ w0. induction calls as [|call calls IH]; intros σ w0 Hok Hf; [by exists w0|].
  apply Forall_cons in Hc as [Hc Hcs]. destruct call as [ctx now|i].
  - destruct (limiter_acquire_ok σ ctx now w0 Hok Hf Hc) as (w1 & ? & ? & _). by apply (IH Hcs _ w1).
  - destruct (limiter_release_ok σ i w0 Hok Hf). by apply (IH Hcs _ w0).
Qed.
End limiter_steps.

(** C31 (bounds): the public edge admits at most the configured rate and number of
    connections.  After any sequence of attempts and releases, with a clock that
    may stand still or go backwards but stays within 292 years, there are windows
    of the configured length, one after the other, such that at most
    [maxRequests] attempts were counted in each of them; the connections held are
    exactly those counted as active and at most [maxConcurrent]. *)
Theorem limiter_bounds maxConcurrent maxRequests window l0 base calls :
  NewLocalLimiter maxConcurrent maxRequests window false = Ok l0 → 0 < base →
  Forall (λ call, call_time call base) calls →
  let σ := limiter_run calls (mkLimiterState l0 [] []) in
  lm_active (lms_limiter σ) = held_count (lms_held σ) ∧ held_count (lms_held σ) ≤ maxConcurrent ∧
  ∃ first, ∀ n, requests_in window (first + n * window) (lms_log σ) ≤ maxRequests.
Proof.
  intros H0 Hb Hc σ. unfold σ; clear σ. unfold NewLocalLimiter in H0. inv_ok H0. nor Hguard. nor Hguard0. nor Hguard1.
  unfold MinWindow, Millisecond in *.
  destruct (limiter_run_ok window maxRequests maxConcurrent base ltac:(lia) ltac:(lia) ltac:(lia) Hb calls
    (mkLimiterState (mkLimiter maxConcurrent maxRequests window 0 0 0) [] []) 0 Hc) as (w0 & [_ (H1 & H2) Hfr _] & Hf).
  - split; cbn; [done|unfold held_count; cbn; lia|done|done].
  - by intros [].
  - set (σ := limiter_run calls _) in *. split; [done|]. split; [by rewrite <- H1|].
    destruct (decide (lm_windowStart (lms_limiter σ) = 0)) as [Hz|Hnz].
    + exists 0. intros n. destruct (Hfr Hz) as [-> _]. unfold requests_in. cbn. lia.
    + exists w0. by destruct (Hf Hnz) as [_ _ _ Hr].
Qed.

(** Two requests per window, one connection at a time. *)
Definition sample_limiter : LocalLimiter := mkLimiter 1 2 Second 0 0 0.
Definition sample_attempts : list limiter_call :=
  [LimiterAcquire LiveContext Second; LimiterAcquire LiveContext Second; LimiterRelease 0;
   LimiterAcquire LiveContext Second; LimiterAcquire LiveContext (3 * Second)].

Lemma limiter_bounds_witness :
  let σ := limiter_run sample_attempts (mkLimiterState sample_limiter [] []) in
  lms_log σ = [3 * Second; Second; Second] ∧ held_count (lms_held σ) ≤ 1 ∧
  ∃ first, ∀ n, requests_in Second (first + n * Second) (lms_log σ) ≤ 2.
Proof.
  split; [vm_compute; reflexivity|].
  apply (limiter_bounds 1 2 Second sample_limiter 1 sample_attempts); [reflexivity|lia|].
  unfold sample_attempts, Second.
  repeat (apply Forall_cons_2; [first [exact I|right; lia]|]). apply Forall_nil_2.
Defined.
