(* ===== verification/GatewayRevocations.v ===== *)
(** * Runtime Gateway: the in-memory revocation source

    [gateway/memory_revocation.go].  A watch is a handle with a channel that is
    closed at most once and the error it was closed with; each open watch has a
    goroutine that waits for its context.  The methods run under the mutex, so
    they are single steps; the goroutine takes two, because it leaves the
    mutex between unregistering its watch and finishing it. *)

From S2P Require Import Prelude GatewayModel.
From stdpp Require Import base gmap strings list fin_maps fin_sets relations.
From Stdlib Require Import ZArith.

(** Where the goroutine of a watch is. *)
Inductive watcher := NoGoroutine | Waiting | Unregistered.

Record memoryRevocationWatch := mkWatch {
  w_grant : string;
  w_err : option goerr;       (* [Some e]: the channel is closed and [Err] is [e] *)
  w_goroutine : watcher;
}.

Record MemoryRevocations := mkRevocations {
  mr_revoked : gset string;
  mr_watchers : gmap string (gset nat);
  mr_watches : list memoryRevocationWatch;
}.

Definition NewMemoryRevocations : MemoryRevocations := mkRevocations ∅ ∅ [].

(** [finish]: the [sync.Once] keeps the first error. *)
Definition finish (err : goerr) (w : memoryRevocationWatch) : memoryRevocationWatch :=
  mkWatch (w_grant w) (match w_err w with Some e => Some e | None => Some err end) (w_goroutine w).

Definition leave (pc : watcher) (w : memoryRevocationWatch) : memoryRevocationWatch :=
  mkWatch (w_grant w) (w_err w) pc.

Definition watchers_of (r : MemoryRevocations) (grant : string) : gset nat :=
  default ∅ (mr_watchers r !! grant).

(** A watch is identified by its position. *)
Definition memory_Watch (ctx : option context_sentinel) (s : RevocationSubject) (r : MemoryRevocations)
    : result nat * MemoryRevocations :=
  match ctx with
  | Some e => (Err [e : sentinel], r)
  | None =>
      if decide (is_ok (RevocationSubject_Validate s) = false) then (Err [ErrRevocationUnavailable], r) else
      let id := length (mr_watches r) in
      if decide (rs_GrantID s ∈ mr_revoked r) then
        (Ok id, mkRevocations (mr_revoked r) (mr_watchers r)
                  (mr_watches r ++ [finish [ErrRevoked] (mkWatch (rs_GrantID s) None NoGoroutine)]))
      else
        (Ok id, mkRevocations (mr_revoked r)
                  (<[rs_GrantID s := {[id]} ∪ watchers_of r (rs_GrantID s)]> (mr_watchers r))
                  (mr_watches r ++ [mkWatch (rs_GrantID s) None Waiting]))
  end.

(** [for watch := range watchers { watch.finish(ErrRevoked) }] *)
Definition finish_all (ids : gset nat) (ws : list memoryRevocationWatch) : list memoryRevocationWatch :=
  imap (λ i w, if decide (i ∈ ids) then finish [ErrRevoked] w else w) ws.

Definition memory_Revoke (ctx : option context_sentinel) (s : RevocationSubject) (r : MemoryRevocations)
    : result unit * MemoryRevocations :=
  match ctx with
  | Some e => (Err [e : sentinel], r)
  | None =>
      if decide (is_ok (RevocationSubject_Validate s) = false) then (Err [ErrRevocationUnavailable], r) else
      if decide (rs_GrantID s ∈ mr_revoked r) then (Ok (), r) else
      (Ok (), mkRevocations ({[rs_GrantID s]} ∪ mr_revoked r)
                (delete (rs_GrantID s) (mr_watchers r))
                (finish_all (watchers_of r (rs_GrantID s)) (mr_watches r)))
  end.

(** The goroutine of watch [id] sees that its context ended and unregisters. *)
Definition unregister (id : nat) (r : MemoryRevocations) : MemoryRevocations :=
  match mr_watches r !! id with
  | Some (mkWatch grant err Waiting as w) =>
      let watchers :=
        match mr_watchers r !! grant with
        | None => mr_watchers r
        | Some ids =>
            let ids' := ids ∖ {[id]} in
            if decide (ids' = ∅) then delete grant (mr_watchers r) else <[grant := ids']> (mr_watchers r)
        end in
      mkRevocations (mr_revoked r) watchers (<[id := leave Unregistered w]> (mr_watches r))
  | _ => r
  end.

(** ... and finishes its watch with the error of the context. *)
Definition finish_cancelled (id : nat) (err : context_sentinel) (r : MemoryRevocations) : MemoryRevocations :=
  match mr_watches r !! id with
  | Some (mkWatch grant e Unregistered as w) =>
      mkRevocations (mr_revoked r) (mr_watchers r)
        (<[id := leave NoGoroutine (finish [err : sentinel] w)]> (mr_watches r))
  | _ => r
  end.

(** The other branch of the goroutine's [select]: the watch is done. *)
Definition goroutine_returns (id : nat) (r : MemoryRevocations) : MemoryRevocations :=
  match mr_watches r !! id with
  | Some (mkWatch grant (Some e) Waiting as w) =>
      mkRevocations (mr_revoked r) (mr_watchers r) (<[id := leave NoGoroutine w]> (mr_watches r))
  | _ => r
  end.

Inductive revocation_call :=
  | CallWatch (ctx : option context_sentinel) (s : RevocationSubject)
  | CallRevoke (ctx : option context_sentinel) (s : RevocationSubject)
  | GoUnregister (id : nat)
  | GoFinish (id : nat) (err : context_sentinel)
  | GoReturn (id : nat).

Definition revocation_step (r : MemoryRevocations) (c : revocation_call) : MemoryRevocations :=
  match c with
  | CallWatch ctx s => (memory_Watch ctx s r).2
  | CallRevoke ctx s => (memory_Revoke ctx s r).2
  | GoUnregister id => unregister id r
  | GoFinish id err => finish_cancelled id err r
  | GoReturn id => goroutine_returns id r
  end.

Definition revocation_run : list revocation_call → MemoryRevocations → MemoryRevocations :=
  flip (foldl revocation_step).

(** ** The invariant

    A watch that is not done has a goroutine; while the goroutine waits, the
    watch is registered under its grant and the grant is not revoked.  Only
    watches of revoked grants report a revocation. *)

Definition revoked_err : option goerr := Some [ErrRevoked].

Record revocations_ok (r : MemoryRevocations) : Prop := {
  rok_open : ∀ i w, mr_watches r !! i = Some w → w_err w = None → w_goroutine w ≠ NoGoroutine;
  rok_waiting : ∀ i w, mr_watches r !! i = Some w → w_err w = None → w_goroutine w = Waiting →
    i ∈ watchers_of r (w_grant w) ∧ w_grant w ∉ mr_revoked r;
  rok_registered : ∀ g i, i ∈ watchers_of r g →
    ∃ w, mr_watches r !! i = Some w ∧ w_grant w = g ∧ w_goroutine w = Waiting ∧ w_err w = None;
  rok_true : ∀ i w, mr_watches r !! i = Some w → w_err w = revoked_err → w_grant w ∈ mr_revoked r;
}.

Lemma revocations_ok_new : revocations_ok NewMemoryRevocations.
Proof. split; [done|done| |done]. intros g i. unfold watchers_of. cbn. set_solver. Qed.

Lemma watchers_insert r g ids g' :
  default ∅ (<[g := ids]> (mr_watchers r) !! g') = (if decide (g = g') then ids else watchers_of r g').
Proof.
  unfold watchers_of. case_decide; subst; [by rewrite lookup_insert_eq|by rewrite lookup_insert_ne].
Qed.

Lemma watchers_delete r g g' :
  default ∅ (delete g (mr_watchers r) !! g') = (if decide (g = g') then ∅ else watchers_of r g').
Proof.
  unfold watchers_of. case_decide; subst; [by rewrite lookup_delete_eq|by rewrite lookup_delete_ne].
Qed.

Lemma watch_ok ctx s r : revocations_ok r → revocations_ok (memory_Watch ctx s r).2.
Proof.
  intros Hok. destruct Hok as [Ho Hw Hr Ht]. unfold memory_Watch. destruct ctx; [by split|].
  case_decide; [by split|]. case_decide as Hrev; cbn.
  - split; cbn.
    + intros i w [[_ ?]|[_ <-]]%lookup_snoc_Some; [by eapply Ho|done].
    + intros i w [[_ ?]|[_ <-]]%lookup_snoc_Some; [by eapply Hw|done].
    + intros g i Hi. destruct (Hr g i Hi) as (w & Hl & ?). exists w. split; [|done]. by apply lookup_app_l_Some.
    + intros i w [[_ ?]|[_ <-]]%lookup_snoc_Some; [by eapply Ht|done].
  - split; cbn.
    + intros i w [[_ ?]|[_ <-]]%lookup_snoc_Some; [by eapply Ho|done].
    + intros i w [[_ Hi]|[-> <-]]%lookup_snoc_Some Hn Hg; unfold watchers_of; cbn; rewrite watchers_insert.
      * destruct (Hw i w Hi Hn Hg) as [Hin Hnr]. split; [|done]. case_decide as Hd; [rewrite Hd|]; set_solver.
      * rewrite decide_True by done. set_solver.
    + intros g i. unfold watchers_of at 1. cbn. rewrite watchers_insert. intros Hi.
      assert (i = length (mr_watches r) ∧ rs_GrantID s = g ∨ i ∈ watchers_of r g) as [[-> <-]|Hold]
        by (case_decide; set_solver).
      * eexists. split; [by apply lookup_snoc_Some; right|done].
      * destruct (Hr g i Hold) as (w & Hl & ?). exists w. split; [|done]. by apply lookup_app_l_Some.
    + intros i w [[_ ?]|[_ <-]]%lookup_snoc_Some; [by eapply Ht|done].
Qed.

(** The watches after [finish_all], one by one. *)
Lemma finish_all_lookup ids ws i w' :
  finish_all ids ws !! i = Some w' →
  ∃ w, ws !! i = Some w ∧ w' = if decide (i ∈ ids) then finish [ErrRevoked] w else w.
Proof.
  unfold finish_all. rewrite list_lookup_imap. destruct (ws !! i) as [w|]; cbn; [|done].
  intros [= <-]. eauto.
Qed.

Lemma revoke_ok ctx s r : revocations_ok r → revocations_ok (memory_Revoke ctx s r).2.
Proof.
  intros [Ho Hw Hr Ht]. unfold memory_Revoke. destruct ctx; [by split|].
  case_decide; [by split|]. case_decide as Hrev; cbn; [by split|]. split; cbn.
  - intros i w' (w & Hi & ->)%finish_all_lookup. case_decide; cbn; [|by eapply Ho].
    destruct (w_err w) eqn:E; [done|done].
  - intros i w' (w & Hi & ->)%finish_all_lookup. case_decide as Hin; cbn.
    + by destruct (w_err w).
    + intros Hn Hg. destruct (Hw i w Hi Hn Hg) as [Hin' Hnr]. unfold watchers_of. cbn.
      assert (rs_GrantID s ≠ w_grant w) by (intros Heq; by rewrite <- Heq in Hin').
      rewrite watchers_delete, decide_False by done. set_solver.
  - intros g i. unfold watchers_of at 1. cbn. rewrite watchers_delete. case_decide; [set_solver|]. intros Hi.
    destruct (Hr g i Hi) as (w & Hl & Hg & Hgo & Hn). unfold finish_all. rewrite list_lookup_imap, Hl. cbn.
    eexists. split; [done|]. case_decide as Hin; [|done].
    destruct (Hr _ i Hin) as (w0 & Hl0 & Hg0 & _). simplify_eq.
  - intros i w' (w & Hi & ->)%finish_all_lookup. case_decide as Hin; cbn.
    + intros _. destruct (Hr _ _ Hin) as (w0 & Hi0 & Hg & _). simplify_eq. set_solver.
    + intros He. apply elem_of_union_r. by eapply Ht.
Qed.

(** Unregistering removes exactly one watch from the registry. *)
Lemma unregister_watchers r g id g' :
  default ∅ (match mr_watchers r !! g with
             | None => mr_watchers r
             | Some ids => if decide (ids ∖ {[id]} = ∅) then delete g (mr_watchers r)
                           else <[g := ids ∖ {[id]}]> (mr_watchers r)
             end !! g') = if decide (g = g') then watchers_of r g' ∖ {[id]} else watchers_of r g'.
Proof.
  destruct (mr_watchers r !! g) as [ids|] eqn:E.
  - assert (Hg : watchers_of r g = ids) by (unfold watchers_of; by rewrite E).
    case_decide as He; [rewrite watchers_delete|rewrite watchers_insert]; case_decide; subst; try done.
  - unfold watchers_of. case_decide; subst; [|done]. rewrite E. cbn. set_solver.
Qed.

Lemma unregister_ok id r : revocations_ok r → revocations_ok (unregister id r).
Proof.
  intros [Ho Hw Hr Ht]. unfold unregister. destruct (mr_watches r !! id) as [[g err []]|] eqn:Ei; try by split.
  split; cbn.
  - intros i w [(<- & <- & _)|[_ ?]]%list_lookup_insert_Some; [done|by eapply Ho].
  - intros i w [(<- & <- & _)|[Hne Hi]]%list_lookup_insert_Some; [done|]. intros Hn Hg.
    destruct (Hw i w Hi Hn Hg) as [Hin Hnr]. unfold watchers_of. cbn. rewrite unregister_watchers.
    split; [|done]. case_decide; set_solver.
  - intros g' i. unfold watchers_of at 1. cbn. rewrite unregister_watchers. intros Hi.
    assert (i ∈ watchers_of r g' ∧ (i = id → g ≠ g')) as [Hold Hne] by (case_decide; set_solver).
    destruct (Hr g' i Hold) as (w & Hl & Hg & Hgo). exists w. split; [|done].
    rewrite list_lookup_insert_ne; [done|]. intros ->. simplify_eq/=. by apply Hne.
  - intros i w [(<- & <- & _)|[_ Hi]]%list_lookup_insert_Some; [|by eapply Ht]. intros He. by apply (Ht _ _ Ei).
Qed.

(** A step of a goroutine whose watch is no longer registered. *)
Lemma goroutine_ok id w w' r :
  revocations_ok r → mr_watches r !! id = Some w → w_grant w' = w_grant w →
  (∀ g, id ∉ watchers_of r g) → is_Some (w_err w') → (w_err w' = revoked_err → w_err w = revoked_err) →
  revocations_ok (mkRevocations (mr_revoked r) (mr_watchers r) (<[id := w']> (mr_watches r))).
Proof.
  intros [Ho Hw Hr Ht] Hid Hg Hreg [e He] Hrev. split; cbn.
  - intros i w0 [(<- & <- & _)|[_ Hi]]%list_lookup_insert_Some; [by rewrite He|by eapply Ho].
  - intros i w0 [(<- & <- & _)|[_ Hi]]%list_lookup_insert_Some; [by rewrite He|by eapply Hw].
  - intros g i Hi. destruct (Hr g i Hi) as (w0 & Hl & ?). exists w0. split; [|done].
    rewrite list_lookup_insert_ne; [done|]. intros ->. by apply (Hreg g).
  - intros i w0 [(<- & <- & _)|[_ Hi]]%list_lookup_insert_Some; [|by eapply Ht].
    intros Hw0. rewrite Hg. by apply (Ht _ _ Hid), Hrev.
Qed.

Lemma finish_cancelled_ok id err r : revocations_ok r → revocations_ok (finish_cancelled id err r).
Proof.
  intros Hok. unfold finish_cancelled. destruct (mr_watches r !! id) as [[g e []]|] eqn:Ei; try done.
  eapply goroutine_ok; [done|done|done| |by destruct e|by destruct e].
  intros g' Hin. destruct (rok_registered r Hok g' id Hin) as (w & ? & ? & ? & ?). by simplify_eq.
Qed.

Lemma goroutine_returns_ok id r : revocations_ok r → revocations_ok (goroutine_returns id r).
Proof.
  intros Hok. unfold goroutine_returns. destruct (mr_watches r !! id) as [[g [e|] []]|] eqn:Ei; try done.
  eapply goroutine_ok; [done|done|done| |done|done].
  intros g' Hin. destruct (rok_registered r Hok g' id Hin) as (w & ? & ? & ? & ?). by simplify_eq.
Qed.

Lemma revocation_step_ok r c : revocations_ok r → revocations_ok (revocation_step r c).
Proof.
  destruct c; [apply watch_ok|apply revoke_ok|apply unregister_ok|apply finish_cancelled_ok|apply goroutine_returns_ok].
Qed.

Lemma revocation_run_ok cs r : revocations_ok r → revocations_ok (revocation_run cs r).
Proof. revert r. induction cs as [|c cs IH]; intros r Hr; [done|]. by apply IH, revocation_step_ok. Qed.

(** ** Watches are stable *)

Definition keeps_watches (ws ws' : list memoryRevocationWatch) : Prop :=
  ∀ i w, ws !! i = Some w → ∃ w', ws' !! i = Some w' ∧ w_grant w' = w_grant w ∧
    (∀ e, w_err w = Some e → w_err w' = Some e).

Lemma keeps_watches_insert ws i w w' :
  ws !! i = Some w → w_grant w' = w_grant w → (∀ e, w_err w = Some e → w_err w' = Some e) →
  keeps_watches ws (<[i := w']> ws).
Proof.
  intros Hi Hg He j w0 Hj. destruct (decide (i = j)) as [<-|Hne].
  - simplify_eq. exists w'. split; [|done]. apply list_lookup_insert_eq. by eapply lookup_lt_Some.
  - exists w0. by rewrite list_lookup_insert_ne.
Qed.

Lemma keeps_watches_refl ws : keeps_watches ws ws.
Proof. intros i w Hi. eauto. Qed.

Lemma keeps_watches_snoc ws w : keeps_watches ws (ws ++ [w]).
Proof. intros i w0 Hi. exists w0. split; [by apply lookup_app_l_Some|done]. Qed.

#[local] Hint Resolve keeps_watches_refl keeps_watches_snoc : core.

Lemma revocation_step_keeps r c : keeps_watches (mr_watches r) (mr_watches (revocation_step r c)).
Proof.
  destruct c as [ctx s|ctx s|id|id err|id]; cbn.
  - unfold memory_Watch. destruct ctx; [done|]. repeat case_decide; cbn; auto.
  - unfold memory_Revoke. destruct ctx; [done|]. repeat case_decide; cbn; auto.
    intros i w Hi. unfold finish_all. rewrite list_lookup_imap, Hi. cbn. eexists. split; [done|].
    case_decide; cbn; [|done]. split; [done|]. by intros e ->.
  - unfold unregister. destruct (mr_watches r !! id) as [[g e []]|] eqn:Ei; auto. by eapply keeps_watches_insert.
  - unfold finish_cancelled. destruct (mr_watches r !! id) as [[g e []]|] eqn:Ei; auto.
    eapply keeps_watches_insert; [done|done|]. by intros e' [= ->].
  - unfold goroutine_returns. destruct (mr_watches r !! id) as [[g [e|] []]|] eqn:Ei; auto. by eapply keeps_watches_insert.
Qed.

Lemma revocation_run_keeps cs r : keeps_watches (mr_watches r) (mr_watches (revocation_run cs r)).
Proof.
  revert r. induction cs as [|c cs IH]; intros r; [done|]. intros i w Hi.
  destruct (revocation_step_keeps r c i w Hi) as (w1 & H1 & Hg1 & He1).
  destruct (IH (revocation_step r c) i w1 H1) as (w2 & H2 & Hg2 & He2).
  exists w2. split_and!; [done|congruence|]. intros e He. by apply He2, He1.
Qed.

(** a revocation reaches every watch of the grant, and only those.
    After any history of watches, revocations, and contexts that end in between,
    a watch of a revoked grant is done, reporting the revocation unless its own
    context ended first, or else its context has ended and it is about to be done;
    a watch never reports a revocation of a grant that is not revoked; and in any
    continuation a watch that is done keeps its report. *)
Theorem revocation_reaches_watches cs i w :
  let r := revocation_run cs NewMemoryRevocations in
  mr_watches r !! i = Some w →
  (w_grant w ∈ mr_revoked r → w_err w = None → w_goroutine w = Unregistered) ∧
  (w_err w = revoked_err → w_grant w ∈ mr_revoked r) ∧
  ∀ cs' e, w_err w = Some e →
    ∃ w', mr_watches (revocation_run cs' r) !! i = Some w' ∧ w_grant w' = w_grant w ∧ w_err w' = Some e.
Proof.
  intros r Hi. assert (Hok : revocations_ok r) by (apply revocation_run_ok, revocations_ok_new).
  destruct Hok as [Ho Hw _ Ht]. split_and!.
  - intros Hin Hn. destruct (w_goroutine w) eqn:Eg; [by destruct (Ho i w Hi Hn)| |done].
    by destruct (Hw i w Hi Hn Eg).
  - by apply (Ht i).
  - intros cs' e He. destruct (revocation_run_keeps cs' r i w Hi) as (w' & ? & ? & H'). eauto.
Qed.

Definition sample_grant : RevocationSubject := mkRevocationSubject "grant" 1%Z.

Lemma revocation_reaches_watches_witness :
  let r := revocation_run [CallWatch None sample_grant; CallWatch None sample_grant; GoUnregister 1;
             CallRevoke None sample_grant; GoFinish 1 Canceled; CallWatch None sample_grant] NewMemoryRevocations in
  (w_err <$> mr_watches r) = [revoked_err; Some [Canceled : sentinel]; revoked_err] ∧
  ∀ w, mr_watches r !! 0%nat = Some w → w_err w = revoked_err → w_grant w ∈ mr_revoked r.
Proof.
  split; [vm_compute; reflexivity|]. intros w Hw.
  exact (proj1 (proj2 (revocation_reaches_watches _ 0 w Hw))).
Defined.
