(* ===== verification/GatewayConnect.v ===== *)
(** * Runtime Gateway: the connection

    [gateway/application.go] as programs over the ports of [gateway/port.go]:
    the authorizer, the local and the external capacity, the revocation watch,
    the recorder, the resolver, the backend and client streams, the clock and the
    contexts.  [Connect] proxies one connection; its loop over reconnects takes
    fuel.

    - The goroutines that copy frames ([transfer]) run beside the connection;
      it sees what they send on their channel ([EProxyWait], [ETransfer]).  The
      goroutines that watch capacity events and revocations only cancel a
      context with a cause, which shows in the answers of [ECause] and
      [ECtxErr].
    - [ctx.Err()] is read once where the code reads it twice in a row: a context
      that has ended stays ended.
    - [defer]red calls are made where the surrounding function returns. *)

From S2P Require Import Prelude Program GatewayModel GatewayCapacity.
From stdpp Require Import base gmap strings list.
From Stdlib Require Import ZArith Lia.

Local Open Scope Z_scope.

(** ** Ports *)

Inductive Ctx :=
  | CtxNil
  | CtxCaller
  | CtxBackground
  | CtxTimeout (d : Z)
  | CtxCapacity (parent : Ctx)
  | CtxWatch (parent : Ctx)
  | CtxAuthority (parent : Ctx)
  | CtxAttempt (parent : Ctx).

(** A lease: whether its event channel is set, whether it offers a fence. *)
Record Lease := mkLease { ls_events : bool; ls_fenced : bool }.

(** The error of a revocation watch that is done, as far as the code compares it. *)
Inductive watch_end := WatchRevoked | WatchContext (e : context_sentinel) | WatchUnavailable | WatchOther.

Inductive streamSide := clientSide | backendSide.
#[export] Instance streamSide_eq_dec : EqDecision streamSide.
Proof. solve_decision. Defined.

Record transferResult := mkTransferResult {
  tr_side : streamSide;
  tr_writeFailed : bool;
  tr_err : goerr;
  tr_frames : Z;
  tr_bytes : Z;
}.

(** What the [select] of a running proxy attempt saw first. *)
Inductive proxy_signal :=
  | SignalResult (r : transferResult) | SignalWatch | SignalExpiry | SignalContext.

Inductive eff : Type → Type :=
  | ENow : eff Time
  | ECause (ctx : Ctx) : eff (option goerr)
  | ECtxErr (ctx : Ctx) : eff (option goerr)
  | ECancel (ctx : Ctx) : eff unit
  | EAuthorize (ctx : Ctx) (r : ConnectRequest) : eff (result Grant)
  | ELocalAcquire (g : Grant) : eff (result unit)
  | ELocalRelease (g : Grant) : eff unit
  | EAcquire (ctx : Ctx) (s : CapacitySubject) : eff (result (option Lease))
  | ELeaseEvent : eff (option (option CapacityEvent))
  | EDownstreamFence : eff (result string)
  | ERelease (ctx : Ctx) : eff (result unit)
  | EWatch (ctx : Ctx) (s : RevocationSubject) : eff (result bool)
  | EWatchErr : eff (option watch_end)
  | ERecord (ctx : Ctx) (e : AuditEvent) : eff (result unit)
  | EResolve (ctx : Ctx) (reference : string) : eff (result Endpoint)
  | EResolveFenced (ctx : Ctx) (reference : string) (s : DownstreamFenceSubject) (fence : string)
      : eff (result Endpoint)
  | EDial (ctx : Ctx) (e : Endpoint) : eff (bool * option goerr)
  | ECloseClient (ctx : Ctx) : eff unit
  | ECloseBackend (ctx : Ctx) : eff unit
  | EBackoff (ctx : Ctx) (d : Z) : eff unit
  | EProxyStart (ctx : Ctx) : eff unit
  | EProxyWait (expiresIn : Z) : eff proxy_signal
  | EExpiryFired : eff bool
  | ETransfer : eff transferResult.

Abbreviation prog := (Program.prog eff).

(** ** The gateway *)

Record Gateway := mkGateway {
  gw_authenticatedCapacity : bool;
  gw_requireDownstreamFence : bool;
  gw_maxReconnects : Z;
  gw_reconnectBackoff : Z;
  gw_capacityReleaseTimeout : Z;
}.

(** An interface value: nil, an interface that holds a nil value, or set. *)
Inductive iface := Nil | TypedNil | Present.
#[export] Instance iface_eq_dec : EqDecision iface.
Proof. solve_decision. Defined.

Record Options := mkOptions {
  op_Authorizer : iface;
  op_Resolver : iface;
  op_FencedResolver : iface;
  op_Revocations : iface;
  op_Recorder : iface;
  op_Clock : iface;
  op_MaxReconnects : Z;
  op_ReconnectBackoff : Z;
  op_Capacity : iface;
  op_RequireDownstreamFencing : bool;
  op_CapacityReleaseTimeout : Z;
  op_MaxConnections : Z;
  op_MaxConnectionsPerSession : Z;
}.

(** The gateway and its local capacity, which its connections share. *)
Definition New (o : Options) : result (Gateway * option connectionCapacity) :=
  if decide (op_Authorizer o ≠ Present ∨ op_Revocations o ≠ Present ∨ op_Recorder o ≠ Present ∨ op_Clock o = TypedNil)
  then Err [ErrProxyUnavailable] else
  if (if op_RequireDownstreamFencing o
      then bool_decide (op_Resolver o ≠ Nil ∨ op_FencedResolver o ≠ Present ∨ op_Capacity o = Nil)
      else bool_decide (op_Resolver o ≠ Present ∨ op_FencedResolver o ≠ Nil))
  then Err [ErrProxyUnavailable] else
  let maxReconnects := if decide (op_MaxReconnects o = 0) then MaxReconnectAttempts else op_MaxReconnects o in
  if decide (maxReconnects < 0 ∨ maxReconnects > MaxReconnectAttempts) then Err [ErrInvalidRequest] else
  if decide (op_ReconnectBackoff o < 0 ∨ op_ReconnectBackoff o > MaxReconnectBackoff) then Err [ErrInvalidRequest] else
  if decide (op_Capacity o = TypedNil) then Err [ErrProxyUnavailable] else
  let timeout :=
    if decide (op_CapacityReleaseTimeout o = 0) then DefaultCapacityReleaseTimeout else op_CapacityReleaseTimeout o in
  if decide (timeout < MinCapacityReleaseTimeout ∨ timeout > MaxCapacityReleaseTimeout)
  then Err [ErrInvalidRequest] else
  capacity ← newConnectionCapacity (op_MaxConnections o) (op_MaxConnectionsPerSession o);
  Ok (mkGateway (bool_decide (op_Capacity o = Present)) (op_RequireDownstreamFencing o) maxReconnects
        (op_ReconnectBackoff o) timeout, capacity).

Section gateway.
Context (g : Gateway).

(** ** Authority *)

Definition revocationWatchError : prog (option goerr) :=
  done_ ← call EWatchErr;
  Ret match done_ with
      | None => None
      | Some WatchRevoked => Some [ErrRevoked]
      | Some (WatchContext e) => Some [e : sentinel]
      | Some WatchUnavailable => Some [ErrRevocationUnavailable]
      | Some WatchOther => Some [ErrRevocationUnavailable]
      end.

Definition capacityContextError (ctx : Ctx) : prog (option goerr) :=
  match ctx with
  | CtxNil => Ret (Some [Canceled : sentinel])
  | _ =>
      cause ← call (ECause ctx);
      Ret (if is_some_error cause ErrCapacityUnavailable then cause else None)
  end.

Definition contextResult (ctx : Ctx) (fallback : goerr) : prog goerr :=
  capacityErr ← capacityContextError ctx;
  Ret (default fallback capacityErr).

Definition watch_unavailable (e : goerr) : goerr :=
  if is_context_error e then e else ErrProxyUnavailable :: ErrRevocationUnavailable :: e.

Definition revocationSetupError (ctx : Ctx) (expiresAt : Time) (sourceErr : goerr) : prog goerr :=
  now ← call ENow;
  if decide (¬ Before now expiresAt) then Ret [ErrExpired] else
  capacityErr ← capacityContextError ctx;
  match capacityErr with
  | Some e => Ret e
  | None =>
      ctxErr ← call (ECtxErr ctx);
      match ctxErr with
      | Some e => Ret (if is_context_error sourceErr then e else [ErrProxyUnavailable; ErrRevocationUnavailable])
      | None => Ret [ErrProxyUnavailable; ErrRevocationUnavailable]
      end
  end.

Definition authorityError (ctx : Ctx) (expiresAt : Time) : prog (option goerr) :=
  revocationErr ← revocationWatchError;
  if is_some_error revocationErr ErrRevoked then Ret (Some [ErrRevoked]) else
  now ← call ENow;
  if decide (¬ Before now expiresAt) then Ret (Some [ErrExpired]) else
  capacityErr ← capacityContextError ctx;
  match capacityErr with
  | Some e => Ret (Some e)
  | None =>
      match revocationErr with
      | Some e => Ret (Some (watch_unavailable e))
      | None => call (ECtxErr ctx)
      end
  end.

Definition externalBoundaryError (ctx : Ctx) (expiresAt : Time) (operationErr : option goerr)
    : prog (option goerr) :=
  revocationErr ← revocationWatchError;
  if is_some_error revocationErr ErrRevoked then Ret (Some [ErrRevoked]) else
  now ← call ENow;
  if decide (¬ Before now expiresAt) then Ret (Some [ErrExpired]) else
  capacityErr ← capacityContextError ctx;
  match capacityErr with
  | Some e => Ret (Some e)
  | None =>
      ctxErr ← call (ECtxErr ctx);
      let rest :=
        match revocationErr with
        | Some e => Some (watch_unavailable e)
        | None => ctxErr
        end in
      Ret (if gw_requireDownstreamFence g then
             match downstreamFenceError [operationErr], operationErr with
             | Some s, _ => Some [s]
             | None, Some e =>
                 if bool_decide (is_Some ctxErr) && is_context_error e then rest else Some [ErrDownstreamUnavailable]
             | None, None => rest
             end
           else rest)
  end.

(** ** Audit *)

Definition with_time (at_ : Time) (e : AuditEvent) : AuditEvent :=
  mkAuditEvent (ae_Type e) at_ (ae_GrantID e) (ae_CallerID e) (ae_TenantID e) (ae_SandboxID e)
    (ae_RuntimeSessionID e) (ae_BrowserSessionID e) (ae_ConnectionGeneration e) (ae_Attempt e)
    (ae_Frames e) (ae_Bytes e) (ae_Reason e).

Definition record (ctx : Ctx) (e : AuditEvent) : prog (result unit) :=
  if decide (IsZero (ae_At e)) then now ← call ENow; call (ERecord ctx (with_time now e))
  else call (ERecord ctx e).

Definition recordBoundedEvent (e : AuditEvent) : prog unit :=
  _ ← record (CtxTimeout (gw_capacityReleaseTimeout g)) e; Ret ().

(** [g.recordBoundedEvent(eventForGrant(grant, type, g.clock.Now(), ...))] *)
Definition record_now (grant : Grant) (type : AuditEventType) (attempt frames bytes : Z) (reason : string)
    : prog unit :=
  now ← call ENow; recordBoundedEvent (eventForGrant grant type now attempt frames bytes reason).

Definition recordDenied (ctx : Ctx) (r : ConnectRequest) (at_ : Time) (reason : goerr) : prog unit :=
  let bounded := if errors_is reason ErrRevoked then "grant revoked" else "caller authorization denied" in
  _ ← call (ERecord ctx (mkAuditEvent AuditDenied at_ "" (cr_CallerID r) (cr_TenantID r) (cr_SandboxID r)
                           (cr_RuntimeSessionID r) (cr_BrowserSessionID r) 0 0 0 0 bounded));
  Ret ().

Definition recordAuthorityTermination (grant : Grant) (err : goerr) (attempt frames bytes : Z) : prog unit :=
  if errors_is err ErrRevoked then record_now grant AuditRevoked attempt frames bytes "grant revoked"
  else if errors_is err ErrExpired then record_now grant AuditExpired attempt frames bytes "grant expired"
  else if errors_is err ErrRevocationUnavailable
  then record_now grant AuditRevocationUnavailable attempt frames bytes "revocation authority unavailable"
  else Ret ().

Definition recordBoundaryTermination (grant : Grant) (err : goerr) (attempt frames bytes : Z) : prog unit :=
  if errors_is err ErrDownstreamFenceLost
  then record_now grant AuditDownstreamFenceLost attempt frames bytes "downstream action fence lost"
  else if errors_is err ErrDownstreamUnavailable
  then record_now grant AuditDownstreamUnavailable attempt frames bytes "downstream action fence unavailable"
  else recordAuthorityTermination grant err attempt frames bytes.

(** ** Leases *)

Definition initialCapacityEventError (events : bool) : prog (option goerr) :=
  if negb events then Ret (Some [ErrCapacityUnavailable; errCapacityLeaseUnavailable]) else
  received ← call ELeaseEvent;
  Ret match received with
      | None => None
      | Some None => Some (capacityEventError (mkCapacityEvent (CapacityEventKindOther "") []) false)
      | Some (Some event) => Some (capacityEventError event true)
      end.

(** [*resultErr] before and after. *)
Definition finishCapacityLease (grant : Grant) (resultErr : option goerr) : prog (option goerr) :=
  _ ← match (match resultErr with Some e => capacityAuditType e | None => None end) with
      | Some type =>
          record_now grant type 0 0 0
            (if decide (type = AuditCapacityLost) then "connection capacity lease lost"
             else "connection capacity unavailable")
      | None => Ret ()
      end;
  released ← call (ERelease (CtxTimeout (gw_capacityReleaseTimeout g)));
  match released with
  | Ok _ => Ret resultErr
  | Err releaseErr =>
      let resultErr' :=
        if is_some_error resultErr ErrDownstreamFenceLost || is_some_error resultErr ErrDownstreamUnavailable
        then resultErr
        else Some (default [] resultErr ++ ErrCapacityUnavailable :: releaseErr) in
      _ ← record_now grant AuditCapacityReleaseFailed 0 0 0 "connection capacity lease release failed";
      Ret resultErr'
  end.

(** ** Reconnects *)

Definition waitReconnect (ctx : Ctx) (expiresAt : Time) : prog (option goerr) :=
  err ← authorityError ctx expiresAt;
  match err with
  | Some e => Ret (Some e)
  | None =>
      if decide (gw_reconnectBackoff g = 0) then Ret None else
      _ ← call (EBackoff ctx (gw_reconnectBackoff g));
      authorityError ctx expiresAt
  end.

Definition resolve (ctx : Ctx) (grant : Grant) (fence : string) : prog (result Endpoint) :=
  if gw_requireDownstreamFence g
  then call (EResolveFenced ctx (g_HandoffReference grant) (downstreamFenceSubjectForGrant grant) fence)
  else call (EResolve ctx (g_HandoffReference grant)).

Definition closeStream (backend : bool) : prog unit :=
  if backend then call (ECloseBackend (CtxTimeout (gw_capacityReleaseTimeout g))) else Ret ().

(** ** One proxy attempt *)

Record proxyResult := mkProxyResult {
  pr_clientClosed : bool;
  pr_backendClosed : bool;
  pr_revoked : bool;
  pr_expired : bool;
  pr_err : goerr;
  pr_frames : Z;
  pr_bytes : Z;
}.

Definition callerDerivedTransferError (callerErr : option goerr) (transferErr : goerr) : bool :=
  match callerErr with
  | None => false
  | Some e =>
      (errors_is e (Canceled : sentinel) && errors_is transferErr (Canceled : sentinel))
      || (errors_is e (DeadlineExceeded : sentinel) && errors_is transferErr (DeadlineExceeded : sentinel))
  end.

Definition of_backend (r : transferResult) : bool := bool_decide (tr_side r = backendSide).

Definition downstreamFenceTransferError (callerErr : option goerr) (rs : list transferResult) : option sentinel :=
  if negb (gw_requireDownstreamFence g) then None else
  if existsb (λ r, of_backend r && errors_is (tr_err r) ErrDownstreamFenceLost) rs then Some ErrDownstreamFenceLost else
  if existsb (λ r, of_backend r && (errors_is (tr_err r) ErrDownstreamUnavailable
                     || (tr_writeFailed r && negb (callerDerivedTransferError callerErr (tr_err r))))) rs
  then Some ErrDownstreamUnavailable else None.

(** How an attempt ended, once its authority, its two transfers and the contexts are known. *)
Definition proxy_verdict (ctx : Ctx) (revocationErr capacityErr : option goerr) (expired : bool)
    (first second : transferResult) : prog proxyResult :=
  let result (clientClosed backendClosed : bool) (err : goerr) :=
    mkProxyResult clientClosed backendClosed (is_some_error revocationErr ErrRevoked) expired err
      (u64 (tr_frames first + tr_frames second)) (u64 (tr_bytes first + tr_bytes second)) in
  if is_some_error revocationErr ErrRevoked || expired then Ret (result false false (tr_err first)) else
  match capacityErr with
  | Some e => Ret (result false false e)
  | None =>
      callerErr ← call (ECtxErr CtxCaller);
      match downstreamFenceTransferError callerErr [first; second] with
      | Some s => Ret (result false false [s])
      | None =>
          match revocationErr with
          | Some e => Ret (result false false (watch_unavailable e))
          | None =>
              match callerErr with
              | Some e => err ← contextResult ctx e; Ret (result false false err)
              | None =>
                  ctxErr ← call (ECtxErr ctx);
                  match ctxErr with
                  | Some e => err ← contextResult ctx e; Ret (result false false err)
                  | None =>
                      Ret match tr_side first with
                          | clientSide => result true false (tr_err first)
                          | backendSide => result false true (tr_err first)
                          end
                  end
              end
          end
      end
  end.

(** The end of an attempt, once the first signal came and the watch was read. *)
Definition proxy_settle (ctx : Ctx) (grant : Grant) (first : option transferResult) (expired : bool)
    (revocationErr : option goerr) : prog proxyResult :=
  fired ← (if expired then Ret true else call EExpiryFired);
  expired ← (if (fired : bool) then Ret true else
             now ← call ENow; Ret (bool_decide (¬ Before now (g_ExpiresAt grant))));
  capacityErr ← capacityContextError ctx;
  ctxErr ← call (ECtxErr ctx);
  let authorityStopped :=
    bool_decide (is_Some revocationErr) || expired || bool_decide (is_Some capacityErr)
    || (match first with None => true | Some _ => false end && bool_decide (is_Some ctxErr)) in
  _ ← call (ECancel (CtxAttempt ctx));
  _ ← call (ECloseBackend CtxBackground);
  _ ← (if authorityStopped then call (ECloseClient CtxBackground) else Ret ());
  first ← match first with Some r => Ret r | None => call ETransfer end;
  second ← call ETransfer;
  proxy_verdict ctx revocationErr capacityErr expired first second.

(** A grant that has expired before the first wait counts as an expiry signal. *)
Definition proxyAttempt (ctx : Ctx) (grant : Grant) : prog proxyResult :=
  _ ← call (EProxyStart (CtxAttempt ctx));
  started ← call ENow;
  let expiresIn := Sub (g_ExpiresAt grant) started in
  signal ← (if decide (expiresIn <= 0) then Ret SignalExpiry else call (EProxyWait expiresIn));
  let first := match signal with SignalResult r => Some r | _ => None end in
  let expired := match signal with SignalExpiry => true | _ => false end in
  revocationErr ← revocationWatchError;
  proxy_settle ctx grant first expired revocationErr.

(** ** The loop

    [None]: the fuel ran out. *)

(** [_ = client.Close(context.Background()); return err] *)
Definition close_client (err : option goerr) : prog (option (option goerr)) :=
  _ ← call (ECloseClient CtxBackground); Ret (Some err).

(** The end of an iteration that cannot reconnect any more, or may. *)
Definition reconnect_or (ctx : Ctx) (grant : Grant) (reconnects frames bytes : Z) (next : prog (option (option goerr)))
    : prog (option (option goerr)) :=
  waited ← waitReconnect ctx (g_ExpiresAt grant);
  match waited with
  | Some err => _ ← recordAuthorityTermination grant err reconnects frames bytes; close_client (Some err)
  | None => next
  end.

(** [errors.Join(ErrAuditUnavailable, err)] *)
Definition audit_unavailable (err : goerr) : option goerr := Some (ErrAuditUnavailable :: err).

(** The [switch] on the result of a proxy attempt. *)
Definition after_proxy (ctx : Ctx) (grant : Grant) (reconnects : Z) (result : proxyResult)
    (next : prog (option (option goerr))) : prog (option (option goerr)) :=
  let frames := pr_frames result in
  let bytes := pr_bytes result in
  if pr_revoked result then
    _ ← recordAuthorityTermination grant [ErrRevoked] reconnects frames bytes; close_client (Some [ErrRevoked])
  else if pr_expired result then
    _ ← recordAuthorityTermination grant [ErrExpired] reconnects frames bytes; close_client (Some [ErrExpired])
  else if errors_is (pr_err result) ErrDownstreamFenceLost then
    _ ← recordBoundaryTermination grant [ErrDownstreamFenceLost] reconnects frames bytes;
    close_client (Some [ErrDownstreamFenceLost])
  else if errors_is (pr_err result) ErrDownstreamUnavailable then
    _ ← recordBoundaryTermination grant [ErrDownstreamUnavailable] reconnects frames bytes;
    close_client (Some [ErrDownstreamUnavailable])
  else if pr_clientClosed result then
    now ← call ENow;
    recorded ← record ctx (eventForGrant grant AuditClientClosed now reconnects frames bytes "client closed");
    match recorded with
    | Err err => Ret (Some (audit_unavailable err))
    | Ok _ => Ret (Some None)
    end
  else if pr_backendClosed result then
    now ← call ENow;
    recorded ← record ctx (eventForGrant grant AuditBackendClosed now reconnects frames bytes "backend disconnected");
    match recorded with
    | Err err => close_client (audit_unavailable err)
    | Ok _ =>
        if decide (reconnects >= gw_maxReconnects g) then
          now ← call ENow;
          _ ← record ctx (eventForGrant grant AuditReconnectFailed now reconnects frames bytes "reconnect limit reached");
          close_client (Some [ErrReconnectExhausted])
        else reconnect_or ctx grant reconnects frames bytes next
    end
  else
    _ ← call (ECloseClient CtxBackground);
    authorityErr ← authorityError ctx (g_ExpiresAt grant);
    match authorityErr with
    | Some err => _ ← recordAuthorityTermination grant err reconnects frames bytes; Ret (Some (Some err))
    | None =>
        Ret (Some (Some (if is_context_error (pr_err result) then pr_err result
                         else ErrProxyUnavailable :: pr_err result)))
    end.

Definition after_dial (ctx : Ctx) (grant : Grant) (now : Time) (reconnects : Z)
    (next : prog (option (option goerr))) : prog (option (option goerr)) :=
  authorityErr ← authorityError ctx (g_ExpiresAt grant);
  match authorityErr with
  | Some err =>
      _ ← recordAuthorityTermination grant err reconnects 0 0;
      _ ← call (ECloseBackend CtxBackground);
      close_client (Some err)
  | None =>
      recorded ← record ctx (eventForGrant grant (connectedEvent reconnects) now reconnects 0 0 "");
      match recorded with
      | Err err => _ ← call (ECloseBackend CtxBackground); close_client (audit_unavailable err)
      | Ok _ =>
          result ← proxyAttempt ctx grant;
          _ ← call (ECloseBackend CtxBackground);
          after_proxy ctx grant reconnects result next
      end
  end.

Definition after_resolve (ctx : Ctx) (grant : Grant) (now : Time) (reconnects : Z) (endpoint : Endpoint)
    (next : prog (option (option goerr))) : prog (option (option goerr)) :=
  match validateEndpoint endpoint grant now with
  | Err err => close_client (Some err)
  | Ok _ =>
      dialled ← call (EDial ctx endpoint);
      let '(backend, dialErr) := dialled in
      boundaryErr ← externalBoundaryError ctx (g_ExpiresAt grant) dialErr;
      match boundaryErr, dialErr with
      | Some err, _ =>
          _ ← recordBoundaryTermination grant err reconnects 0 0;
          _ ← closeStream backend;
          close_client (Some err)
      | None, Some err =>
          _ ← closeStream backend;
          if is_context_error err then
            _ ← call (ECloseClient CtxBackground);
            err' ← contextResult ctx err;
            Ret (Some (Some err'))
          else if decide (reconnects >= gw_maxReconnects g) then
            _ ← record ctx (eventForGrant grant AuditReconnectFailed now reconnects 0 0 "backend dial failed");
            close_client (Some (ErrReconnectExhausted :: err))
          else reconnect_or ctx grant reconnects 0 0 next
      | None, None =>
          if negb backend then
            _ ← call (ECloseClient CtxBackground);
            if gw_requireDownstreamFence g then
              _ ← recordBoundaryTermination grant [ErrDownstreamUnavailable] reconnects 0 0;
              Ret (Some (Some [ErrDownstreamUnavailable]))
            else Ret (Some (Some [ErrReferenceUnavailable; ErrExternal "resolver returned nil backend stream"]))
          else after_dial ctx grant now reconnects next
      end
  end.

(** One iteration; [next] is the following one. *)
Definition connect_once (ctx : Ctx) (grant : Grant) (fence : string) (reconnects : Z)
    (next : prog (option (option goerr))) : prog (option (option goerr)) :=
  authorityErr ← authorityError ctx (g_ExpiresAt grant);
  match authorityErr with
  | Some err => _ ← recordAuthorityTermination grant err reconnects 0 0; close_client (Some err)
  | None =>
      now ← call ENow;
      resolved ← resolve ctx grant fence;
      let resolveErr := match resolved with Err e => Some e | Ok _ => None end in
      boundaryErr ← externalBoundaryError ctx (g_ExpiresAt grant) resolveErr;
      match boundaryErr, resolved with
      | Some err, _ => _ ← recordBoundaryTermination grant err reconnects 0 0; close_client (Some err)
      | None, Err err =>
          if is_context_error err then
            _ ← call (ECloseClient CtxBackground);
            err' ← contextResult ctx err;
            Ret (Some (Some err'))
          else if decide (reconnects = 0) then
            _ ← record ctx (eventForGrant grant AuditReconnectFailed now reconnects 0 0 "handoff resolution failed");
            close_client (Some (ErrReferenceUnavailable :: err))
          else if decide (reconnects >= gw_maxReconnects g) then
            _ ← record ctx (eventForGrant grant AuditReconnectFailed now reconnects 0 0 "handoff resolution failed");
            close_client (Some (ErrReconnectExhausted :: err))
          else reconnect_or ctx grant reconnects 0 0 next
      | None, Ok endpoint => after_resolve ctx grant now reconnects endpoint next
      end
  end.

Fixpoint connect_loop (fuel : nat) (ctx : Ctx) (grant : Grant) (fence : string) (reconnects : Z)
    : prog (option (option goerr)) :=
  match fuel with
  | O => Ret None
  | S fuel => connect_once ctx grant fence reconnects (connect_loop fuel ctx grant fence (reconnects + 1))
  end.

(** ** [Connect] *)

(** From the revocation watch to the end of the loop, with its deferred cancellations. *)
Definition connect_watched (fuel : nat) (ctx : Ctx) (grant : Grant) (now : Time) (fence : string)
    : prog (option (option goerr)) :=
  watched ← call (EWatch (CtxWatch ctx) (revocationSubjectForGrant grant));
  result ←
    match watched with
    | Err err =>
        err' ← revocationSetupError ctx (g_ExpiresAt grant) err;
        _ ← recordAuthorityTermination grant err' 0 0 0;
        Ret (Some (Some err'))
    | Ok false =>
        err' ← revocationSetupError ctx (g_ExpiresAt grant) [ErrExternal "revocation watcher is unavailable"];
        _ ← recordAuthorityTermination grant err' 0 0 0;
        Ret (Some (Some err'))
    | Ok true =>
        authorityErr ← authorityError ctx (g_ExpiresAt grant);
        match authorityErr with
        | Some err => _ ← recordAuthorityTermination grant err 0 0 0; Ret (Some (Some err))
        | None =>
            recorded ← record (CtxAuthority ctx) (eventForGrant grant AuditAuthorized now 0 0 0 "");
            result ←
              match recorded with
              | Err err => Ret (Some (audit_unavailable err))
              | Ok _ => connect_loop fuel (CtxAuthority ctx) grant fence 0
              end;
            _ ← call (ECancel (CtxAuthority ctx));
            Ret result
        end
    end;
  _ ← call (ECancel (CtxWatch ctx));
  Ret result.

(** The fence of a lease that has one. *)
Definition lease_fence (lease : Lease) : prog (option string) :=
  if negb (gw_requireDownstreamFence g) then Ret (Some "") else
  if negb (ls_fenced lease) then Ret None else
  fence ← call EDownstreamFence;
  Ret match fence with
      | Ok f => if is_ok (DownstreamFence_Validate f) then Some f else None
      | Err _ => None
      end.

(** With an acquired lease, until it is released. *)
Definition connect_leased (fuel : nat) (ctx : Ctx) (grant : Grant) (now : Time) (lease : Lease)
    : prog (option (option goerr)) :=
  initial ← initialCapacityEventError (ls_events lease);
  match initial with
  | Some err => result ← finishCapacityLease grant (Some err); Ret (Some result)
  | None =>
      fence ← lease_fence lease;
      match fence with
      | None =>
          _ ← recordBoundedEvent (eventForGrant grant AuditDownstreamUnavailable now 0 0 0
                                    "downstream action fence unavailable");
          result ← finishCapacityLease grant (Some [ErrDownstreamUnavailable]);
          Ret (Some result)
      | Some fence =>
          lost ← capacityContextError (CtxCapacity ctx);
          result ←
            match lost with
            | Some err => Ret (Some (Some err))
            | None => connect_watched fuel (CtxCapacity ctx) grant now fence
            end;
          _ ← call (ECancel (CtxCapacity ctx));
          match result with
          | None => Ret None
          | Some resultErr => resultErr' ← finishCapacityLease grant resultErr; Ret (Some resultErr')
          end
      end
  end.

Definition connect_authorized (fuel : nat) (ctx : Ctx) (grant : Grant) (now : Time)
    : prog (option (option goerr)) :=
  if negb (gw_authenticatedCapacity g) then connect_watched fuel ctx grant now "" else
  acquired ← call (EAcquire ctx (capacitySubjectForGrant grant));
  match acquired with
  | Err err =>
      if is_context_error err then Ret (Some (Some err)) else
      if errors_is err ErrCapacityExhausted then
        _ ← record ctx (eventForGrant grant AuditCapacityRejected now 0 0 0 "authenticated connection capacity exhausted");
        Ret (Some (Some err))
      else
        _ ← record ctx (eventForGrant grant AuditCapacityUnavailable now 0 0 0 "connection capacity unavailable");
        Ret (Some (Some (ErrCapacityUnavailable :: err)))
  | Ok None =>
      _ ← record ctx (eventForGrant grant AuditCapacityUnavailable now 0 0 0 "connection capacity lease unavailable");
      Ret (Some (Some [ErrCapacityUnavailable]))
  | Ok (Some lease) => connect_leased fuel ctx grant now lease
  end.

(** [ctx] is nil or the caller's context; [client]: the stream is set. *)
Definition Connect (fuel : nat) (ctx : Ctx) (request : ConnectRequest) (client : bool)
    : prog (option (option goerr)) :=
  if negb client then Ret (Some (Some [ErrProxyUnavailable])) else
  match ctx with
  | CtxNil => Ret (Some (Some [Canceled : sentinel]))
  | _ =>
  match ConnectRequest_Validate request with
  | Err err => Ret (Some (Some err))
  | Ok _ =>
      now ← call ENow;
      if decide (IsZero now) then Ret (Some (Some [ErrProxyUnavailable])) else
      authorized ← call (EAuthorize ctx request);
      match authorized with
      | Err err =>
          _ ← recordDenied ctx request now err;
          Ret (Some (Some (if is_context_error err then err else ErrUnauthorized :: err)))
      | Ok grant =>
          match Grant_Validate grant now, matches grant request with
          | Ok _, true =>
              acquired ← call (ELocalAcquire grant);
              match acquired with
              | Err err =>
                  _ ← record ctx (eventForGrant grant AuditCapacityRejected now 0 0 0 "connection capacity exhausted");
                  Ret (Some (Some err))
              | Ok _ =>
                  result ← connect_authorized fuel ctx grant now;
                  _ ← call (ELocalRelease grant);
                  Ret result
              end
          | Ok _, false =>
              _ ← recordDenied ctx request now [ErrUnauthorized];
              Ret (Some (Some [ErrUnauthorized; ErrUnauthorized]))
          | Err err, _ =>
              _ ← recordDenied ctx request now err;
              Ret (Some (Some (ErrUnauthorized :: err)))
          end
      end
  end
  end.
End gateway.

(** ** Copying frames

    The goroutine [transfer]: what happens to the frames it copies, until a
    call fails.  [None]: it is still running. *)
Inductive copy_step :=
  | Copied (payload : nat)
  | ReceiveFails (err : goerr)
  | SendFails (payload : nat) (err : goerr).

Definition oppositeSide (s : streamSide) : streamSide :=
  match s with clientSide => backendSide | backendSide => clientSide end.

Fixpoint transfer (source : streamSide) (frames bytes : Z) (script : list copy_step) : option transferResult :=
  match script with
  | [] => None
  | ReceiveFails err :: _ => Some (mkTransferResult source false err frames bytes)
  | SendFails _ err :: _ => Some (mkTransferResult (oppositeSide source) true err frames bytes)
  | Copied payload :: script => transfer source (u64 (frames + 1)) (u64 (bytes + Z.of_nat payload)) script
  end.

Definition copied (script : list copy_step) : list nat :=
  omap (λ s, match s with Copied n => Some n | _ => None end) script.

(** What is reported are the frames copied before the first failure, modulo 2^64. *)
Lemma transfer_counts source frames bytes script r :
  transfer source frames bytes script = Some r →
  ∃ pre, pre `prefix_of` script ∧ Forall (λ s, ∃ n, s = Copied n) pre ∧
    u64 (tr_frames r) = u64 (frames + Z.of_nat (length pre)) ∧
    u64 (tr_bytes r) = u64 (bytes + Z.of_nat (sum_list (copied pre))).
Proof.
  revert frames bytes. induction script as [|[n|err|n err] script IH]; intros frames bytes H; cbn in H; [done| | |].
  - destruct (IH _ _ H) as (pre & Hp & Hall & Hf & Hb). exists (Copied n :: pre).
    split_and!; [by apply prefix_cons|constructor; [eauto|done]| |].
    + rewrite Hf. unfold u64. rewrite Zplus_mod_idemp_l. f_equal. rewrite length_cons. lia.
    + rewrite Hb. unfold u64. rewrite Zplus_mod_idemp_l. f_equal.
      change (copied (Copied n :: pre)) with (n :: copied pre). unfold sum_list_with, id. fold (sum_list_with (λ x, x) (copied pre)). lia.
  - simplify_eq. exists []. cbn. split_and!; [apply prefix_nil|constructor|f_equal; lia..].
  - simplify_eq. exists []. cbn. split_and!; [apply prefix_nil|constructor|f_equal; lia..].
Qed.
