(* ===== verification/GatewayProtocol.v ===== *)
(** * Runtime Gateway: the protocol of a connection

    An abstract specification of what one connection may do, and the proof that
    [Connect] implements it.  A connection is seen through its [note]s: what its
    calls of the ports were and what they answered.  A [Session] is what has
    been established so far; [advance] says which note may come next:

    - capacity is acquired only for a grant that is valid and bound to the
      request, and given back in the order in which it was taken;
    - a handoff is resolved, a backend dialled, frames proxied, only while the
      capacity is held, after the authorization was recorded, for an endpoint
      that matches the grant, and only when since the previous of these
      actions the revocation watch was seen open and then the clock before the
      expiry of the grant;
    - nothing of this happens once a revocation was seen. *)

From S2P Require Import Prelude Program Threads GatewayModel GatewayCapacity GatewayConnect.
From stdpp Require Import base gmap strings list.
From Stdlib Require Import ZArith Lia.

Local Open Scope Z_scope.

(** ** Notes *)

Inductive note :=
  | NSilent
  | NClock (t : Time)
  | NWatchOpen
  | NRevoked
  | NAuthorized (r : ConnectRequest) (g : Grant)
  | NAcquired (g : Grant)
  | NReleased (g : Grant)
  | NLeased (s : CapacitySubject)
  | NFenced (fence : string)
  | NReturned
  | NWatching (s : RevocationSubject)
  | NAudited (e : AuditEvent)
  | NResolved (reference : string) (fence : option (DownstreamFenceSubject * string)) (e : option Endpoint)
  | NDialled (e : Endpoint)
  | NProxied.

Definition answer_of {A} (r : result A) : option A := match r with Ok a => Some a | Err _ => None end.

(** Which records are part of the protocol. *)
Definition audited_type (t : AuditEventType) : bool :=
  match t with AuditAuthorized | AuditConnected | AuditReconnected => true | _ => false end.

Definition note_of {X} (e : eff X) : X → note :=
  match e in eff X return X → note with
  | ENow => NClock
  | EWatchErr => λ x, match x with None => NWatchOpen | Some WatchRevoked => NRevoked | _ => NSilent end
  | EAuthorize _ r => λ x, match x with Ok g => NAuthorized r g | Err _ => NSilent end
  | ELocalAcquire g => λ x, match x with Ok _ => NAcquired g | Err _ => NSilent end
  | ELocalRelease g => λ _, NReleased g
  | EAcquire _ s => λ x, match x with Ok (Some _) => NLeased s | _ => NSilent end
  | EDownstreamFence => λ x, match x with Ok f => NFenced f | Err _ => NSilent end
  | ERelease _ => λ _, NReturned
  | EWatch _ s => λ x, match x with Ok true => NWatching s | _ => NSilent end
  | ERecord _ ev => λ x, match x with
                         | Ok _ => if audited_type (ae_Type ev) then NAudited ev else NSilent
                         | Err _ => NSilent
                         end
  | EResolve _ ref => λ x, NResolved ref None (answer_of x)
  | EResolveFenced _ ref s f => λ x, NResolved ref (Some (s, f)) (answer_of x)
  | EDial _ ep => λ _, NDialled ep
  | EProxyStart _ => λ _, NProxied
  | _ => λ _, NSilent
  end.

Definition event_note (ev : event eff) : note := match ev with Ev e x => note_of e x end.
Definition notes (tr : list (event eff)) : list note := event_note <$> tr.

(** ** Sessions *)

(** What is held: the request with its grant, local capacity, a lease. *)
Record Hold := mkHold {
  h_grant : option (ConnectRequest * Grant);
  h_local : bool;
  h_leased : bool;
  h_over : bool;
  h_watching : bool;
  h_audited : bool;
  h_fence : option string;
}.

Inductive stage := Idle | Resolved (t : Time) (e : Endpoint) | Dialled | Connected.

Record Session := mkSession {
  s_hold : Hold;
  s_attempts : nat;
  s_stage : stage;
  s_start : option Time;
  s_last : Time;
  s_checked : bool;
  s_cleared : bool;
  s_revoked : bool;
}.

Definition fresh_hold : Hold := mkHold None false false false false false None.
Definition fresh_session : Session := mkSession fresh_hold 0 Idle None 0 false false false.

Section spec.
Context (g : Gateway).

Definition with_hold (h : Hold) (σ : Session) : Session :=
  mkSession h (s_attempts σ) (s_stage σ) (s_start σ) (s_last σ) (s_checked σ) (s_cleared σ) (s_revoked σ).

(** After an action the next one needs a new clearance. *)
Definition acted (attempts : nat) (st : stage) (σ : Session) : Session :=
  mkSession (s_hold σ) attempts st (s_start σ) (s_last σ) false false (s_revoked σ).

Definition expiry (h : Hold) : Time := match h_grant h with Some (_, gr) => g_ExpiresAt gr | None => 0 end.

(** The clock clears what was checked before it when it reads a time before the expiry. *)
Definition clock (t : Time) (σ : Session) : Session :=
  mkSession (s_hold σ) (s_attempts σ) (s_stage σ) (Some (default t (s_start σ))) t (s_checked σ)
    (s_cleared σ || (s_checked σ && (t <? expiry (s_hold σ)))) (s_revoked σ).

Definition watch_open (σ : Session) : Session :=
  mkSession (s_hold σ) (s_attempts σ) (s_stage σ) (s_start σ) (s_last σ) true (s_cleared σ) (s_revoked σ).
Definition saw_revocation (σ : Session) : Session :=
  mkSession (s_hold σ) (s_attempts σ) (s_stage σ) (s_start σ) (s_last σ) (s_checked σ) (s_cleared σ) true.

(** All that must be in place for an action. *)
Definition allowed (σ : Session) : bool :=
  h_local (s_hold σ) && h_audited (s_hold σ) && s_cleared σ && negb (s_revoked σ)
  && (negb (gw_authenticatedCapacity g) || h_leased (s_hold σ)).

Definition grant_ok (σ : Session) (gr : Grant) : Prop :=
  match h_grant (s_hold σ), s_start σ with
  | Some (r, gr'), Some t => gr' = gr ∧ Grant_Validate gr t = Ok () ∧ matches gr r = true
  | _, _ => False
  end.

Definition fence_ok (σ : Session) (gr : Grant) (f : option (DownstreamFenceSubject * string)) : Prop :=
  if gw_requireDownstreamFence g
  then ∃ fence, h_fence (s_hold σ) = Some fence ∧ f = Some (downstreamFenceSubjectForGrant gr, fence) ∧
                DownstreamFence_Validate fence = Ok ()
  else f = None.

Definition connected_type (attempts : nat) : AuditEventType := connectedEvent (Z.of_nat attempts - 1).

(** [advance σ n σ']: in [σ] the note [n] may be made, and leads to [σ']. *)
Inductive advance (σ : Session) : note → Session → Prop :=
  | adv_silent : advance σ NSilent σ
  | adv_clock t : advance σ (NClock t) (clock t σ)
  | adv_watch_open : advance σ NWatchOpen (watch_open σ)
  | adv_revoked : advance σ NRevoked (saw_revocation σ)
  | adv_authorized r gr :
      h_grant (s_hold σ) = None → h_over (s_hold σ) = false →
      advance σ (NAuthorized r gr) (with_hold (mkHold (Some (r, gr)) false false false false false None) σ)
  | adv_acquired gr :
      grant_ok σ gr → h_local (s_hold σ) = false → h_over (s_hold σ) = false →
      advance σ (NAcquired gr) (with_hold (mkHold (h_grant (s_hold σ)) true false false false false None) σ)
  | adv_leased r gr :
      h_grant (s_hold σ) = Some (r, gr) → h_local (s_hold σ) = true → h_leased (s_hold σ) = false →
      h_watching (s_hold σ) = false →
      advance σ (NLeased (capacitySubjectForGrant gr))
        (with_hold (mkHold (h_grant (s_hold σ)) true true false false false None) σ)
  | adv_fenced f :
      h_local (s_hold σ) = true → h_leased (s_hold σ) = true → h_watching (s_hold σ) = false →
      advance σ (NFenced f)
        (with_hold (mkHold (h_grant (s_hold σ)) true true false false false (Some f)) σ)
  | adv_watching r gr :
      h_grant (s_hold σ) = Some (r, gr) → h_local (s_hold σ) = true → h_watching (s_hold σ) = false →
      advance σ (NWatching (revocationSubjectForGrant gr))
        (with_hold (mkHold (h_grant (s_hold σ)) true (h_leased (s_hold σ)) false true false (h_fence (s_hold σ))) σ)
  | adv_audited r gr ev :
      ae_Type ev = AuditAuthorized → h_grant (s_hold σ) = Some (r, gr) → ae_GrantID ev = g_GrantID gr →
      h_local (s_hold σ) = true → h_watching (s_hold σ) = true → s_cleared σ = true → s_revoked σ = false →
      advance σ (NAudited ev)
        (with_hold (mkHold (h_grant (s_hold σ)) true (h_leased (s_hold σ)) false true true
                      (h_fence (s_hold σ))) σ)
  | adv_resolved r gr ref f e :
      h_grant (s_hold σ) = Some (r, gr) → ref = g_HandoffReference gr → fence_ok σ gr f →
      allowed σ = true → Z.of_nat (s_attempts σ) ≤ gw_maxReconnects g →
      advance σ (NResolved ref f e)
        (acted (S (s_attempts σ)) (match e with Some ep => Resolved (s_last σ) ep | None => Idle end) σ)
  | adv_dialled r gr t ep :
      h_grant (s_hold σ) = Some (r, gr) → s_stage σ = Resolved t ep → validateEndpoint ep gr t = Ok () →
      allowed σ = true →
      advance σ (NDialled ep) (acted (s_attempts σ) Dialled σ)
  | adv_connected r gr ev :
      ae_Type ev = connected_type (s_attempts σ) → h_grant (s_hold σ) = Some (r, gr) →
      ae_GrantID ev = g_GrantID gr → s_stage σ = Dialled → s_cleared σ = true →
      advance σ (NAudited ev)
        (mkSession (s_hold σ) (s_attempts σ) Connected (s_start σ) (s_last σ) (s_checked σ) (s_cleared σ) (s_revoked σ))
  | adv_proxied : s_stage σ = Connected → allowed σ = true → advance σ NProxied (acted (s_attempts σ) Idle σ)
  | adv_returned :
      h_local (s_hold σ) = true → h_leased (s_hold σ) = true →
      advance σ NReturned
        (with_hold (mkHold (h_grant (s_hold σ)) true false false (h_watching (s_hold σ))
                      (h_audited (s_hold σ)) (h_fence (s_hold σ))) σ)
  | adv_released gr :
      grant_ok σ gr → h_local (s_hold σ) = true → h_leased (s_hold σ) = false →
      advance σ (NReleased gr)
        (with_hold (mkHold (h_grant (s_hold σ)) false false true (h_watching (s_hold σ))
                      (h_audited (s_hold σ)) (h_fence (s_hold σ))) σ).

(** Notes, newest first, that the protocol allows, and where they lead. *)
Inductive replays : list note → Session → Prop :=
  | replays_nil : replays [] fresh_session
  | replays_cons n ns σ σ' : replays ns σ → advance σ n σ' → replays (n :: ns) σ'.

(** ** Programs that obey the protocol *)

Fixpoint obeys {A} (p : prog A) (σ : Session) (Q : A → Session → Prop) : Prop :=
  match p with
  | Ret a => Q a σ
  | Vis e k => ∀ x, ∃ σ', advance σ (note_of e x) σ' ∧ obeys (k x) σ' Q
  end.

Lemma obeys_bind {A B} (p : prog A) (f : A → prog B) σ Q :
  obeys p σ (λ a σ', obeys (f a) σ' Q) → obeys (p ≫= f) σ Q.
Proof using Type.
  revert σ. induction p as [a|X e k IH]; intros σ; cbn; [done|].
  intros H x. destruct (H x) as (σ' & Ha & Hk). exists σ'. split; [done|]. by apply IH.
Qed.

Lemma obeys_mono {A} (p : prog A) σ (Q Q' : A → Session → Prop) :
  (∀ a σ', Q a σ' → Q' a σ') → obeys p σ Q → obeys p σ Q'.
Proof using Type.
  intros HQ. revert σ. induction p as [a|X e k IH]; intros σ; cbn; [apply HQ|].
  intros H x. destruct (H x) as (σ' & Ha & Hk). exists σ'. split; [done|]. by apply IH.
Qed.
End spec.

(** A whole run of a program: its answers, its trace, its result. *)
Fixpoint completes {A} (p : prog A) (tr : list (event eff)) (a : A) (tr' : list (event eff)) : Prop :=
  match p with
  | Ret b => b = a ∧ tr' = tr
  | Vis e k => ∃ x, completes (k x) (Ev e x :: tr) a tr'
  end.

Lemma completes_obeys {A} g (p : prog A) tr a tr' σ Q :
  completes p tr a tr' → replays g (notes tr) σ → obeys g p σ Q →
  ∃ σ', replays g (notes tr') σ' ∧ Q a σ'.
Proof.
  revert tr σ. induction p as [b|X e k IH]; intros tr σ; cbn.
  - intros [-> ->] Hr HQ. eauto.
  - intros [x Hc] Hr Ho. destruct (Ho x) as (σ1 & Ha & Ho1).
    apply (IH x (Ev e x :: tr) σ1 Hc); [|done]. cbn. by apply replays_cons with σ.
Qed.

#[global] Arguments obeys : simpl never.
