(* ===== verification/GatewayGuarantees.v ===== *)
(** * Runtime Gateway: guarantees

    [Connect] implements the protocol of [GatewayProtocol], ends, and gives
    back what it took; connections that share a gateway never exceed its
    capacity. *)

From S2P Require Import Prelude Program Threads GatewayModel GatewayCapacity GatewayConnect GatewayProtocol.
From stdpp Require Import base gmap strings list relations.
From Stdlib Require Import ZArith Lia.

Local Open Scope Z_scope.

(** ** Quiet calls

    [moved σ σ']: nothing was done that the protocol restricts. *)

Record moved (σ σ' : Session) : Prop := {
  mv_hold : s_hold σ' = s_hold σ;
  mv_attempts : s_attempts σ' = s_attempts σ;
  mv_stage : s_stage σ' = s_stage σ;
  mv_start : ∀ t, s_start σ = Some t → s_start σ' = Some t;
  mv_cleared : s_cleared σ = true → s_cleared σ' = true;
}.

Definition calm (σ σ' : Session) : Prop := moved σ σ' ∧ s_revoked σ' = s_revoked σ.

#[export] Instance moved_refl : Reflexive moved.
Proof. by split. Qed.
#[export] Instance moved_trans : Transitive moved.
Proof. intros σ1 σ2 σ3 [] []. split; try congruence; auto. Qed.
#[export] Instance calm_refl : Reflexive calm.
Proof. by split. Qed.
#[export] Instance calm_trans : Transitive calm.
Proof. intros σ1 σ2 σ3 [H1 E1] [H2 E2]. split; [by transitivity σ2|congruence]. Qed.

Lemma calm_clock t σ : calm σ (clock t σ).
Proof. split; [|done]. split; cbn; [done..|by intros ? ->|by intros ->]. Qed.
Lemma moved_watch_open σ : calm σ (watch_open σ).
Proof. by split. Qed.
Lemma moved_saw_revocation σ : moved σ (saw_revocation σ).
Proof. by split. Qed.

#[export] Hint Resolve calm_clock moved_watch_open moved_saw_revocation : go.

Section programs.
Context (g : Gateway).

Local Abbreviation obeys := (obeys g).

(** A call without a note. *)
Lemma silent_obeys {X} (e : eff X) σ (Q : X → Session → Prop) :
  (∀ x, note_of e x = NSilent) → (∀ x, Q x σ) → obeys (call e) σ Q.
Proof using Type. intros Hn H x. exists σ. rewrite Hn. split; [constructor|apply H]. Qed.

Lemma now_obeys σ (Q : Time → Session → Prop) :
  (∀ t σ', calm σ σ' → s_last σ' = t → Q t σ') → obeys (call ENow) σ Q.
Proof using Type. intros H t. exists (clock t σ). split; [constructor|]. apply H; [apply calm_clock|done]. Qed.

Lemma capacityContextError_obeys ctx σ (Q : option goerr → Session → Prop) :
  (∀ e, Q e σ) → obeys (capacityContextError ctx) σ Q.
Proof using Type.
  intros H. unfold capacityContextError. destruct ctx; [apply H|..];
    (intros x; exists σ; split; [constructor|apply H]).
Qed.

Lemma contextResult_obeys ctx e σ (Q : goerr → Session → Prop) :
  (∀ e, Q e σ) → obeys (contextResult ctx e) σ Q.
Proof using Type.
  intros H. unfold contextResult. apply obeys_bind, capacityContextError_obeys. intros e'. apply H.
Qed.

(** Recording an event outside the protocol. *)
Lemma record_obeys ctx ev σ (Q : result unit → Session → Prop) :
  audited_type (ae_Type ev) = false → (∀ x σ', calm σ σ' → Q x σ') → obeys (record ctx ev) σ Q.
Proof using Type.
  intros Ht H. unfold record.
  assert (Hrec : ∀ ev' σ', audited_type (ae_Type ev') = false → calm σ σ' → obeys (call (ERecord ctx ev')) σ' Q).
  { intros ev' σ' Hev Hc. apply silent_obeys; [|auto]. intros x. cbn. rewrite Hev. by destruct x. }
  case_decide; [|by apply Hrec].
  apply obeys_bind, now_obeys. intros t σ' Hc _. by apply Hrec.
Qed.

Lemma record_now_obeys grant type a f b reason σ (Q : unit → Session → Prop) :
  audited_type type = false → (∀ σ', calm σ σ' → Q () σ') → obeys (record_now g grant type a f b reason) σ Q.
Proof using Type.
  intros Ht H. unfold record_now, recordBoundedEvent. apply obeys_bind, now_obeys. intros t σ1 Hc1 _.
  apply obeys_bind, record_obeys; [done|]. intros x σ2 Hc2. apply H. by transitivity σ1.
Qed.

Lemma recordBoundedEvent_obeys ev σ (Q : unit → Session → Prop) :
  audited_type (ae_Type ev) = false → (∀ σ', calm σ σ' → Q () σ') → obeys (recordBoundedEvent g ev) σ Q.
Proof using Type. intros Ht H. apply obeys_bind, record_obeys; [done|]. intros x σ' Hc. by apply H. Qed.

Lemma recordDenied_obeys ctx r t e σ (Q : unit → Session → Prop) :
  Q () σ → obeys (recordDenied ctx r t e) σ Q.
Proof using Type. intros H. apply obeys_bind, silent_obeys; [by intros []|]. by intros x. Qed.

Lemma recordAuthorityTermination_obeys grant e a f b σ (Q : unit → Session → Prop) :
  (∀ σ', calm σ σ' → Q () σ') → obeys (recordAuthorityTermination g grant e a f b) σ Q.
Proof using Type.
  intros H. unfold recordAuthorityTermination. repeat case_match; try (by apply record_now_obeys). by apply H.
Qed.

Lemma recordBoundaryTermination_obeys grant e a f b σ (Q : unit → Session → Prop) :
  (∀ σ', calm σ σ' → Q () σ') → obeys (recordBoundaryTermination g grant e a f b) σ Q.
Proof using Type.
  intros H. unfold recordBoundaryTermination. repeat case_match; try (by apply record_now_obeys).
  by apply recordAuthorityTermination_obeys.
Qed.

(** ** Authority *)

Lemma revocationWatchError_obeys σ (Q : option goerr → Session → Prop) :
  Q None (watch_open σ) → Q (Some [ErrRevoked]) (saw_revocation σ) →
  (∀ e, errors_is e ErrRevoked = false → Q (Some e) σ) → obeys revocationWatchError σ Q.
Proof using Type.
  intros H1 H2 H3 x. destruct x as [[|c| |]|]; eexists; (split; [constructor|]); cbn; try done; apply H3; by try destruct c.
Qed.

(** What a check of the authority establishes: no error means that the watch was
    open and the clock before the expiry; a revocation that was seen is the error. *)
Definition checked_authority (σ : Session) (a : option goerr) (σ' : Session) : Prop :=
  moved σ σ' ∧ (a = None → s_cleared σ' = true ∧ s_revoked σ' = false) ∧
  (s_revoked σ' = true → a = Some [ErrRevoked]).

Lemma clock_clears t σ : s_checked σ = true → ¬ ¬ Before t (expiry (s_hold σ)) → s_cleared (clock t σ) = true.
Proof using Type.
  unfold Before. intros Hc Ht. cbn. rewrite Hc. replace (t <? expiry (s_hold σ)) with true by lia.
  by rewrite orb_true_r.
Qed.

(** The shared beginning of [authorityError] and [externalBoundaryError]. *)
Lemma authority_obeys ctx exp σ (rest : option goerr → prog (option goerr)) (Q : option goerr → Session → Prop) :
  expiry (s_hold σ) = exp → s_revoked σ = false →
  (∀ a σ', checked_authority σ a σ' → Q a σ') →
  (∀ e σ', moved σ σ' → s_revoked σ' = false → (e = None → s_cleared σ' = true) → obeys (rest e) σ' Q) →
  obeys (revocationErr ← revocationWatchError;
         if is_some_error revocationErr ErrRevoked then Ret (Some [ErrRevoked]) else
         now ← call ENow;
         if decide (¬ Before now exp) then Ret (Some [ErrExpired]) else
         capacityErr ← capacityContextError ctx;
         match capacityErr with Some e => Ret (Some e) | None => rest revocationErr end) σ Q.
Proof using Type.
  intros Hexp Hrev HQ Hrest. apply obeys_bind, revocationWatchError_obeys.
  - cbn. intros t. exists (clock t (watch_open σ)). split; [constructor|]. cbn beta.
    assert (Hc : calm σ (clock t (watch_open σ))) by (transitivity (watch_open σ); auto with go).
    destruct Hc as [Hm Hr]. rewrite Hrev in Hr.
    destruct (decide (¬ Before t exp)) as [Hd|Hd].
    { apply HQ. split_and!; [done|done|congruence]. }
    apply obeys_bind, capacityContextError_obeys. intros [e|].
    + apply HQ. split_and!; [done|done|congruence].
    + apply Hrest; [done|done|]. intros _. apply clock_clears; [done|by rewrite <- Hexp in Hd].
  - cbn. apply HQ. split_and!; [auto with go|done|done].
  - intros e He. cbn [is_some_error]. rewrite He. apply obeys_bind, now_obeys. intros t σ' [Hm Hr] _. rewrite Hrev in Hr.
    destruct (decide (¬ Before t exp)).
    { apply HQ. split_and!; [done|done|congruence]. }
    apply obeys_bind, capacityContextError_obeys. intros [e'|].
    + apply HQ. split_and!; [done|done|congruence].
    + by apply Hrest.
Qed.

Lemma authorityError_obeys ctx exp σ (Q : option goerr → Session → Prop) :
  expiry (s_hold σ) = exp → s_revoked σ = false →
  (∀ a σ', checked_authority σ a σ' → Q a σ') → obeys (authorityError ctx exp) σ Q.
Proof using Type.
  intros He Hr HQ. apply authority_obeys; [done|done|done|]. intros e σ' Hm Hrev Hc. destruct e as [e|].
  - apply HQ. split_and!; [done|done|congruence].
  - apply silent_obeys; [done|]. intros x. apply HQ. split_and!; [done|by auto|congruence].
Qed.

Lemma externalBoundaryError_obeys ctx exp err σ (Q : option goerr → Session → Prop) :
  expiry (s_hold σ) = exp → s_revoked σ = false →
  (∀ a σ', checked_authority σ a σ' → Q a σ') → obeys (externalBoundaryError g ctx exp err) σ Q.
Proof using Type.
  intros He Hr HQ. apply authority_obeys; [done|done|done|]. intros e σ' Hm Hrev Hc.
  apply obeys_bind, silent_obeys; [done|]. intros x. cbn. apply HQ.
  split_and!; [done| |congruence]. intros Hn. split; [|done]. apply Hc. by repeat case_match; simplify_eq/=.
Qed.

Lemma waitReconnect_obeys ctx exp σ (Q : option goerr → Session → Prop) :
  expiry (s_hold σ) = exp → s_revoked σ = false →
  (∀ a σ', checked_authority σ a σ' → Q a σ') → obeys (waitReconnect g ctx exp) σ Q.
Proof using Type.
  intros He Hr HQ. apply obeys_bind, authorityError_obeys; [done|done|]. intros [e|] σ1 H1; [by apply HQ|].
  case_decide; [by apply HQ|]. apply obeys_bind, silent_obeys; [done|]. intros _.
  destruct H1 as (Hm & Hc & _). destruct (Hc eq_refl) as [_ Hrev].
  apply authorityError_obeys; [by rewrite (mv_hold _ _ Hm)|done|].
  intros a σ2 (Hm2 & Hc2 & Hr2). apply HQ. split_and!; [by transitivity σ1|done|done].
Qed.

(** ** A proxy attempt *)

Lemma proxy_verdict_obeys ctx rerr cerr expired first second σ (Q : proxyResult → Session → Prop) :
  (∀ r, pr_revoked r = is_some_error rerr ErrRevoked → Q r σ) →
  obeys (proxy_verdict g ctx rerr cerr expired first second) σ Q.
Proof using Type.
  intros H. unfold proxy_verdict. case_match; [by apply H|]. destruct cerr; [by apply H|].
  apply obeys_bind, silent_obeys; [done|]. intros callerErr.
  destruct (downstreamFenceTransferError _ _ _); [by apply H|]. destruct rerr; [by apply H|].
  destruct callerErr.
  { apply obeys_bind, contextResult_obeys. intros e. by apply H. }
  apply obeys_bind, silent_obeys; [done|]. intros [e|].
  { apply obeys_bind, contextResult_obeys. intros e'. by apply H. }
  destruct (tr_side first); by apply H.
Qed.

Lemma proxy_settle_obeys ctx gr first expired rerr σ0 σ (Q : proxyResult → Session → Prop) :
  moved σ0 σ → (s_revoked σ = true → is_some_error rerr ErrRevoked = true) →
  (∀ r σ', moved σ0 σ' → (s_revoked σ' = true → pr_revoked r = true) → Q r σ') →
  obeys (proxy_settle g ctx gr first expired rerr) σ Q.
Proof using Type.
  intros Hm Hr HQ. unfold proxy_settle.
  apply obeys_bind. eapply (obeys_mono _ _ _ (λ _ σ', σ' = σ)); [|by destruct expired; [|apply silent_obeys]].
  intros fired ? ->. apply obeys_bind.
  eapply (obeys_mono _ _ _ (λ _ σ', calm σ σ')).
  2: { destruct fired; [exact (calm_refl σ)|]. apply obeys_bind, now_obeys. by intros t σ' Hc _. }
  intros late σ1 [Hm1 Hr1]. apply obeys_bind, capacityContextError_obeys. intros cerr.
  do 3 (apply obeys_bind, silent_obeys; [done|]; intros ?). apply obeys_bind.
  eapply (obeys_mono _ _ _ (λ _ σ', σ' = σ1)); [|by case_match; [apply silent_obeys|]].
  intros _ ? ->. apply obeys_bind. eapply (obeys_mono _ _ _ (λ _ σ', σ' = σ1)); [|by destruct first; [|apply silent_obeys]].
  intros r1 ? ->. apply obeys_bind, silent_obeys; [done|]. intros r2.
  apply proxy_verdict_obeys. intros r Hrr. apply HQ; [by transitivity σ|]. rewrite Hr1, Hrr. apply Hr.
Qed.

Lemma allowed_elim σ :
  allowed g σ = true →
  h_local (s_hold σ) = true ∧ h_audited (s_hold σ) = true ∧ s_cleared σ = true ∧ s_revoked σ = false ∧
  (gw_authenticatedCapacity g = true → h_leased (s_hold σ) = true).
Proof using Type.
  unfold allowed. rewrite !andb_true_iff, negb_true_iff, orb_true_iff, negb_true_iff.
  intros [[[[??]?]?][?|?]]; split_and!; try done; congruence.
Qed.

Lemma allowed_intro σ :
  h_local (s_hold σ) = true → h_audited (s_hold σ) = true → s_cleared σ = true → s_revoked σ = false →
  (gw_authenticatedCapacity g = true → h_leased (s_hold σ) = true) → allowed g σ = true.
Proof using Type.
  intros H1 H2 H3 H4 H5. unfold allowed. rewrite H1, H2, H3, H4. cbn.
  by destruct (gw_authenticatedCapacity g); [apply H5|].
Qed.

Lemma proxyAttempt_obeys ctx gr σ (Q : proxyResult → Session → Prop) :
  s_stage σ = Connected → allowed g σ = true →
  (∀ r σ', moved (acted (s_attempts σ) Idle σ) σ' → (s_revoked σ' = true → pr_revoked r = true) → Q r σ') →
  obeys (proxyAttempt g ctx gr) σ Q.
Proof using Type.
  intros Hst Hal HQ. destruct (allowed_elim σ Hal) as (_ & _ & _ & Hrev & _).
  intros []. eexists. split; [by apply adv_proxied|]. set (σ0 := acted _ _ _) in *. cbn beta.
  apply obeys_bind, now_obeys. intros t σ1 [Hm1 Hr1] _. change (s_revoked σ0) with (s_revoked σ) in Hr1.
  apply obeys_bind. eapply (obeys_mono _ _ _ (λ _ σ', σ' = σ1)); [|by case_decide; [|apply silent_obeys]].
  intros signal ? ->. apply obeys_bind, revocationWatchError_obeys; [| |intros e He];
    eapply proxy_settle_obeys; try exact HQ; try done.
  - transitivity σ1; [done|apply moved_watch_open].
  - intros Hx. change (s_revoked σ1 = true) in Hx. congruence.
  - by transitivity σ1; [|apply moved_saw_revocation].
  - intros Hx. congruence.
Qed.

(** ** The loop *)

(** Where an iteration starts: capacity is held for the grant, and the
    authorization was recorded; [n] reconnects were made. *)
Record in_loop (gr : Grant) (fence : string) (n : nat) (σ : Session) : Prop := {
  il_grant : ∃ r, h_grant (s_hold σ) = Some (r, gr);
  il_local : h_local (s_hold σ) = true;
  il_audited : h_audited (s_hold σ) = true;
  il_leased : gw_authenticatedCapacity g = true → h_leased (s_hold σ) = true;
  il_fence : gw_requireDownstreamFence g = true →
             h_fence (s_hold σ) = Some fence ∧ DownstreamFence_Validate fence = Ok ();
  il_attempts : s_attempts σ = n;
  il_revoked : s_revoked σ = false;
}.

(** How it ends: with a verdict, which is the revocation if one was seen. *)
Definition verdict (σ0 : Session) (a : option (option goerr)) (σ : Session) : Prop :=
  s_hold σ = s_hold σ0 ∧ (∀ t, s_start σ0 = Some t → s_start σ = Some t) ∧
  ∃ v, a = Some v ∧ (s_revoked σ = true → is_some_error v ErrRevoked = true).

Definition same (σ0 σ : Session) : Prop :=
  s_hold σ = s_hold σ0 ∧ (∀ t, s_start σ0 = Some t → s_start σ = Some t).

Lemma same_moved σ0 σ σ' : same σ0 σ → moved σ σ' → same σ0 σ'.
Proof using Type. intros [H1 H2] [M1 _ _ M4 _]. split; [congruence|auto]. Qed.

Lemma close_client_obeys σ0 σ v :
  same σ0 σ → (s_revoked σ = true → is_some_error v ErrRevoked = true) →
  obeys (close_client v) σ (verdict σ0).
Proof using Type.
  intros [H1 H2] Hv. apply obeys_bind, silent_obeys; [done|]. intros _. split_and!; [done|done|by exists v].
Qed.

(** The shape of an end: the termination is recorded, then the client closed. *)
Lemma end_authority_obeys σ0 σ gr e a f b :
  same σ0 σ → (s_revoked σ = true → e = [ErrRevoked]) →
  obeys (_ ← recordAuthorityTermination g gr e a f b; close_client (Some e)) σ (verdict σ0).
Proof using Type.
  intros Hs He. apply obeys_bind, recordAuthorityTermination_obeys. intros σ' [Hm Hr].
  apply close_client_obeys; [by eapply same_moved|]. rewrite Hr. intros ->%He. done.
Qed.

Lemma end_boundary_obeys σ0 σ gr e a f b (k : prog (option (option goerr))) :
  same σ0 σ → (s_revoked σ = true → e = [ErrRevoked]) →
  (∀ σ', same σ0 σ' → (s_revoked σ' = true → e = [ErrRevoked]) → obeys k σ' (verdict σ0)) →
  obeys (_ ← recordBoundaryTermination g gr e a f b; k) σ (verdict σ0).
Proof using Type.
  intros Hs He Hk. apply obeys_bind, recordBoundaryTermination_obeys. intros σ' [Hm Hr].
  apply Hk; [by eapply same_moved|]. by rewrite Hr.
Qed.

Section iteration.
Context (gr : Grant) (fence : string) (σ0 : Session) (n : nat) (reconnects : Z) (ctx : Ctx).
Context (next : prog (option (option goerr))).
Context (Hrec : reconnects = Z.of_nat n).
Context (Hnext : Z.of_nat (S n) ≤ gw_maxReconnects g →
                 ∀ σ', in_loop gr fence (S n) σ' → same σ0 σ' → obeys next σ' (verdict σ0)).

Lemma in_loop_same m σ σ' :
  in_loop gr fence m σ → s_hold σ' = s_hold σ → s_attempts σ' = s_attempts σ → s_revoked σ' = false →
  in_loop gr fence m σ'.
Proof using Type. intros [] H1 H2 H3. split; rewrite ?H1; try done. congruence. Qed.

Lemma in_loop_moved m σ σ' : in_loop gr fence m σ → moved σ σ' → s_revoked σ' = false → in_loop gr fence m σ'.
Proof using Type. intros Hl [] Hr. by apply (in_loop_same m σ). Qed.

Lemma in_loop_calm m σ σ' : in_loop gr fence m σ → calm σ σ' → in_loop gr fence m σ'.
Proof using Type. intros Hl [Hm Hr]. apply (in_loop_moved m σ); [done|done|]. rewrite Hr. apply Hl. Qed.

Lemma in_loop_expiry m σ : in_loop gr fence m σ → expiry (s_hold σ) = g_ExpiresAt gr.
Proof using Type. intros [[r Hr] _ _ _ _ _ _]. unfold expiry. by rewrite Hr. Qed.

Lemma in_loop_allowed m σ : in_loop gr fence m σ → s_cleared σ = true → allowed g σ = true.
Proof using Type. intros [] Hc. by apply allowed_intro. Qed.

(** No revocation is pending inside an iteration. *)
Lemma unrevoked m σ (P : Prop) : in_loop gr fence m σ → s_revoked σ = true → P.
Proof using Type. intros [] ?. congruence. Qed.

Lemma reconnect_or_obeys σ f b :
  in_loop gr fence (S n) σ → same σ0 σ → ¬ reconnects >= gw_maxReconnects g →
  obeys (reconnect_or g ctx gr reconnects f b next) σ (verdict σ0).
Proof using Hrec Hnext.
  intros Hl Hs Hlt. apply obeys_bind, waitReconnect_obeys; [by eapply in_loop_expiry|apply Hl|].
  intros [e|] σ1 (Hm & Hc & Hr).
  - apply end_authority_obeys; [by eapply same_moved|]. intros H1. by apply Hr in H1 as [= ->].
  - apply Hnext; [lia| |by eapply same_moved]. apply (in_loop_moved _ σ); [done|done|by apply Hc].
Qed.

(** An outcome that closes the client without a recorded reason. *)
Lemma end_obeys m σ v : in_loop gr fence m σ → same σ0 σ → obeys (close_client v) σ (verdict σ0).
Proof using Type. intros Hl Hs. apply close_client_obeys; [done|]. by apply (unrevoked m). Qed.

Lemma ret_obeys m σ v : in_loop gr fence m σ → same σ0 σ → verdict σ0 (Some v) σ.
Proof using Type. intros Hl [??]. split_and!; [done|done|]. exists v. split; [done|]. by apply (unrevoked m). Qed.

Lemma after_proxy_obeys σ result :
  (s_revoked σ = false → in_loop gr fence (S n) σ) → same σ0 σ → (s_revoked σ = true → pr_revoked result = true) →
  obeys (after_proxy g ctx gr reconnects result next) σ (verdict σ0).
Proof using Hrec Hnext.
  intros Hl Hs Hr. unfold after_proxy. destruct (pr_revoked result).
  { by apply end_authority_obeys. }
  assert (Hrev : s_revoked σ = false) by (destruct (s_revoked σ); [by discriminate Hr|done]).
  specialize (Hl Hrev). clear Hr.
  case_match. { apply end_authority_obeys; [done|]. by apply (unrevoked (S n)). }
  do 2 (case_match; [apply end_boundary_obeys; [done|by apply (unrevoked (S n))|];
    intros σ' Hs' Hr'; apply close_client_obeys; [done|]; by intros ?%Hr'|]).
  case_match.
  { apply obeys_bind, now_obeys. intros t σ1 Hc1 _. apply obeys_bind, record_obeys; [done|]. intros x σ2 Hc2.
    assert (Hc : calm σ σ2) by (by transitivity σ1). apply (in_loop_calm _ _ _ Hl) in Hc as Hl2.
    assert (Hs2 : same σ0 σ2) by (destruct Hc; by eapply same_moved). destruct x; by apply (ret_obeys (S n)). }
  case_match.
  { apply obeys_bind, now_obeys. intros t σ1 Hc1 _. apply obeys_bind, record_obeys; [done|]. intros x σ2 Hc2.
    assert (Hc : calm σ σ2) by (by transitivity σ1). apply (in_loop_calm _ _ _ Hl) in Hc as Hl2.
    assert (Hs2 : same σ0 σ2) by (destruct Hc; by eapply same_moved).
    destruct x; [|by apply (end_obeys (S n))]. case_decide; [|by apply reconnect_or_obeys].
    apply obeys_bind, now_obeys. intros t' σ3 Hc3 _. apply obeys_bind, record_obeys; [done|]. intros x σ4 Hc4.
    assert (Hc' : calm σ2 σ4) by (by transitivity σ3).
    apply (end_obeys (S n)); [by eapply in_loop_calm|]. destruct Hc'. by eapply same_moved. }
  apply obeys_bind, silent_obeys; [done|]. intros _.
  apply obeys_bind, authorityError_obeys; [by eapply in_loop_expiry|done|]. intros [e|] σ1 (Hm & Hc & Hr).
  - apply obeys_bind, recordAuthorityTermination_obeys. intros σ2 [Hm2 Hr2].
    destruct (same_moved σ0 σ σ2) as [Hh1 Hh2]; [done|by transitivity σ1|].
    split_and!; [done|done|]. exists (Some e). split; [done|]. rewrite Hr2. by intros [= ->]%Hr.
  - apply (ret_obeys (S n)); [|by eapply same_moved]. apply (in_loop_moved _ σ); [done|done|by apply Hc].
Qed.

Lemma recordConnected_obeys t σ (Q : result unit → Session → Prop) :
  in_loop gr fence (S n) σ → s_stage σ = Dialled → s_cleared σ = true →
  (∀ e σ', calm σ σ' → Q (Err e) σ') →
  (∀ σ', s_hold σ' = s_hold σ → s_attempts σ' = s_attempts σ → s_stage σ' = Connected → s_cleared σ' = true →
         s_revoked σ' = false → (∀ t, s_start σ = Some t → s_start σ' = Some t) → Q (Ok ()) σ') →
  obeys (record ctx (eventForGrant gr (connectedEvent reconnects) t reconnects 0 0 "")) σ Q.
Proof using Hrec.
  clear Hnext. intros Hl Hst Hcl HE HO.
  assert (Hgo : ∀ ev σ', ae_Type ev = connectedEvent reconnects → ae_GrantID ev = g_GrantID gr → calm σ σ' →
    obeys (call (ERecord ctx ev)) σ' Q).
  { intros ev σ' Ht Hg Hc. pose proof (in_loop_calm _ _ _ Hl Hc) as [[r Hr] _ _ _ _ Ha Hv].
    destruct Hc as [[Hh Hat Hst' Hss Hcl'] Hrv].
    assert (Hau : audited_type (ae_Type ev) = true) by (rewrite Ht; unfold connectedEvent; by case_decide).
    intros [[]|e].
    - eexists. split. { cbn. rewrite Hau. eapply adv_connected; [|done|done|congruence|auto].
        rewrite Ha, Ht, Hrec. unfold connected_type. f_equal. lia. }
      apply HO; cbn; try done; auto.
    - exists σ'. split; [constructor|]. by apply HE. }
  unfold record. case_decide; [|by apply Hgo].
  apply obeys_bind, now_obeys. intros t' σ' Hc _. by apply Hgo.
Qed.

Lemma after_dial_obeys t σ :
  in_loop gr fence (S n) σ → same σ0 σ → s_stage σ = Dialled →
  obeys (after_dial g ctx gr t reconnects next) σ (verdict σ0).
Proof using Hrec Hnext.
  intros Hl Hs Hst. apply obeys_bind, authorityError_obeys; [by eapply in_loop_expiry|apply Hl|].
  intros [e|] σ1 (Hm & Hc & Hr).
  - apply obeys_bind, recordAuthorityTermination_obeys. intros σ2 [Hm2 Hr2].
    apply obeys_bind, silent_obeys; [done|]. intros _.
    apply close_client_obeys; [eapply same_moved; [done|by transitivity σ1]|]. rewrite Hr2. by intros [= ->]%Hr.
  - destruct (Hc eq_refl) as [Hcl Hrv]. pose proof (in_loop_moved _ _ _ Hl Hm Hrv) as Hl1.
    pose proof (same_moved _ _ _ Hs Hm) as Hs1.
    apply obeys_bind, recordConnected_obeys; [done|by rewrite (mv_stage _ _ Hm)|done| |].
    + intros e σ2 Hc2. apply obeys_bind, silent_obeys; [done|]. intros _.
      apply (end_obeys (S n)); [by eapply in_loop_calm|]. destruct Hc2. by eapply same_moved.
    + intros σ2 H1 H2 H3 H4 H5 H6. pose proof (in_loop_same _ _ _ Hl1 H1 H2 H5) as Hl2.
      apply obeys_bind, proxyAttempt_obeys; [done|by eapply in_loop_allowed|].
      intros r σ3 Hm3 Hr3. apply obeys_bind, silent_obeys; [done|]. intros _. apply after_proxy_obeys; [| |done].
      * intros Hrv3. apply (in_loop_same _ σ2); [done|apply Hm3|apply Hm3|done].
      * destruct Hs1 as [Hs1 Hs2]. destruct Hm3 as [M1 _ _ M4 _]. split; [cbn in M1; congruence|]. intros u Hu. apply M4. cbn. auto.
Qed.

Lemma boundary_obeys m σ exp err (Q : option goerr → Session → Prop) :
  in_loop gr fence m σ → exp = g_ExpiresAt gr →
  (∀ e σ', moved σ σ' → (s_revoked σ' = true → e = [ErrRevoked]) → Q (Some e) σ') →
  (∀ σ', in_loop gr fence m σ' → moved σ σ' → s_cleared σ' = true → Q None σ') →
  obeys (externalBoundaryError g ctx exp err) σ Q.
Proof using Type.
  intros Hl -> HE HO. apply externalBoundaryError_obeys; [by eapply in_loop_expiry|apply Hl|].
  intros [e|] σ' (Hm & Hc & Hr).
  - apply HE; [done|]. by intros [= ->]%Hr.
  - destruct (Hc eq_refl). apply HO; [by eapply in_loop_moved|done|done].
Qed.

Lemma closeStream_obeys backend σ (Q : unit → Session → Prop) : Q () σ → obeys (closeStream g backend) σ Q.
Proof using Type. intros H. destruct backend; [|done]. apply silent_obeys; [done|]. by intros []. Qed.

(** A failed attempt that was not the last one. *)
Lemma failed_obeys σ now err reason :
  in_loop gr fence (S n) σ → same σ0 σ →
  obeys (if decide (reconnects >= gw_maxReconnects g)
         then _ ← record ctx (eventForGrant gr AuditReconnectFailed now reconnects 0 0 reason);
              close_client (Some (ErrReconnectExhausted :: err))
         else reconnect_or g ctx gr reconnects 0 0 next) σ (verdict σ0).
Proof using Hrec Hnext.
  intros Hl Hs. case_decide; [|by apply reconnect_or_obeys].
  apply obeys_bind, record_obeys; [done|]. intros x σ' Hc.
  apply (end_obeys (S n)); [by eapply in_loop_calm|]. destruct Hc. by eapply same_moved.
Qed.

Lemma interrupted_obeys m σ err :
  in_loop gr fence m σ → same σ0 σ →
  obeys (_ ← call (ECloseClient CtxBackground); err' ← contextResult ctx err; Ret (Some (Some err'))) σ (verdict σ0).
Proof using Type.
  intros Hl Hs. apply obeys_bind, silent_obeys; [done|]. intros _.
  apply obeys_bind, contextResult_obeys. intros e. by apply (ret_obeys m).
Qed.

Lemma after_resolve_obeys t endpoint σ :
  in_loop gr fence (S n) σ → same σ0 σ → s_stage σ = Resolved t endpoint → s_cleared σ = true →
  obeys (after_resolve g ctx gr t reconnects endpoint next) σ (verdict σ0).
Proof using Hrec Hnext.
  intros Hl Hs Hst Hcl. unfold after_resolve. destruct (validateEndpoint endpoint gr t) as [[]|e] eqn:Hv.
  2: by apply (end_obeys (S n)).
  destruct (il_grant _ _ _ _ Hl) as [r Hgr]. intros [backend dialErr]. eexists. split.
  { eapply adv_dialled; [done|done|done|by eapply in_loop_allowed]. }
  cbn beta iota. set (σ1 := acted _ _ _).
  assert (Hl1 : in_loop gr fence (S n) σ1) by (apply (in_loop_same _ σ); [done..|apply Hl]).
  assert (Hs1 : same σ0 σ1) by (by destruct Hs).
  apply obeys_bind, (boundary_obeys (S n)); [done|done| |].
  - intros e σ2 Hm Hr. apply end_boundary_obeys; [by eapply same_moved|done|].
    intros σ3 Hs3 Hr3. apply obeys_bind, closeStream_obeys, close_client_obeys; [done|]. by intros ->%Hr3.
  - intros σ2 Hl2 Hm Hcl2. pose proof (same_moved _ _ _ Hs1 Hm) as Hs2. destruct dialErr as [e|].
    + apply obeys_bind, closeStream_obeys. case_match; [by apply (interrupted_obeys (S n))|by apply failed_obeys].
    + destruct backend; [apply after_dial_obeys; [done|done|]; by rewrite (mv_stage _ _ Hm)|].
      apply obeys_bind, silent_obeys; [done|]. intros _. case_match; [|by apply (ret_obeys (S n))].
      apply obeys_bind, recordBoundaryTermination_obeys. intros σ3 Hc3.
      apply (ret_obeys (S n)); [by eapply in_loop_calm|]. destruct Hc3. by eapply same_moved.
Qed.

(** Resolving the handoff uses one of the allowed attempts. *)
Lemma resolve_obeys σ (Q : result Endpoint → Session → Prop) :
  in_loop gr fence n σ → s_cleared σ = true → reconnects ≤ gw_maxReconnects g →
  (∀ x σ', in_loop gr fence (S n) σ' → s_hold σ' = s_hold σ → s_start σ' = s_start σ →
     s_stage σ' = match x with Ok ep => Resolved (s_last σ) ep | Err _ => Idle end → Q x σ') →
  obeys (resolve g ctx gr fence) σ Q.
Proof using Hrec.
  clear Hnext. intros Hl Hcl Hle HQ. destruct (il_grant _ _ _ _ Hl) as [r Hgr]. unfold resolve.
  pose proof (il_attempts _ _ _ _ Hl) as Ha.
  assert (Hdo : ∀ f x, fence_ok g σ gr f → ∃ σ', advance g σ (NResolved (g_HandoffReference gr) f (answer_of x)) σ' ∧ Q x σ').
  { intros f x Hf. eexists. split.
    - eapply adv_resolved; [done|done|done|by eapply in_loop_allowed|lia].
    - apply HQ; cbn; [|done|done|by destruct x].
      split; cbn; try apply Hl. by rewrite Ha. }
  destruct (gw_requireDownstreamFence g) eqn:Ef; intros x; apply Hdo; unfold fence_ok; rewrite Ef.
  - destruct (il_fence _ _ _ _ Hl Ef). eauto.
  - done.
Qed.

Lemma connect_once_obeys σ :
  in_loop gr fence n σ → same σ0 σ → reconnects ≤ gw_maxReconnects g →
  obeys (connect_once g ctx gr fence reconnects next) σ (verdict σ0).
Proof using Hrec Hnext.
  intros Hl Hs Hle. apply obeys_bind, authorityError_obeys; [by eapply in_loop_expiry|apply Hl|].
  intros [e|] σ1 (Hm & Hc & Hr).
  { apply end_authority_obeys; [by eapply same_moved|]. by intros [= ->]%Hr. }
  destruct (Hc eq_refl) as [Hcl Hrv]. pose proof (in_loop_moved _ _ _ Hl Hm Hrv) as Hl1.
  pose proof (same_moved _ _ _ Hs Hm) as Hs1.
  apply obeys_bind, now_obeys. intros t σ2 Hc2 Hlast. pose proof (in_loop_calm _ _ _ Hl1 Hc2) as Hl2.
  destruct Hc2 as [Hm2 Hr2]. pose proof (same_moved _ _ _ Hs1 Hm2) as Hs2.
  apply obeys_bind, resolve_obeys; [done|by apply Hm2|done|]. intros x σ3 Hl3 Hh3 Hss3 Hst3.
  assert (Hs3 : same σ0 σ3). { destruct Hs2 as [A B]. split; [congruence|]. intros u Hu. rewrite Hss3. auto. }
  apply obeys_bind, (boundary_obeys (S n)); [done|done| |].
  - intros e σ4 Hm4 Hr4. apply end_boundary_obeys; [by eapply same_moved|done|].
    intros σ5 Hs5 Hr5. apply close_client_obeys; [done|]. by intros ->%Hr5.
  - intros σ4 Hl4 Hm4 Hcl4. pose proof (same_moved _ _ _ Hs3 Hm4) as Hs4. destruct x as [ep|e].
    + apply after_resolve_obeys; [done|done| |done]. by rewrite (mv_stage _ _ Hm4), Hst3, Hlast.
    + case_match; [by apply (interrupted_obeys (S n))|]. case_decide; [|by apply failed_obeys].
      apply obeys_bind, record_obeys; [done|]. intros x σ5 Hc5.
      apply (end_obeys (S n)); [by eapply in_loop_calm|]. destruct Hc5. by eapply same_moved.
Qed.
End iteration.

Lemma connect_loop_obeys gr fence ctx σ0 fuel n σ :
  in_loop gr fence n σ → same σ0 σ → Z.of_nat n ≤ gw_maxReconnects g →
  gw_maxReconnects g - Z.of_nat n < Z.of_nat fuel →
  obeys (connect_loop g fuel ctx gr fence (Z.of_nat n)) σ (verdict σ0).
Proof using Type.
  revert n σ. induction fuel as [|fuel IH]; intros n σ Hl Hs Hn Hf; [lia|].
  apply (connect_once_obeys gr fence σ0 n (Z.of_nat n)); [done| |done|done|done].
  intros Hn' σ' Hl' Hs'. replace (Z.of_nat n + 1) with (Z.of_nat (S n)) by lia. apply IH; [done|done|lia|lia].
Qed.

(** ** From the watch to the end *)

(** Capacity is held for [gr], and nothing else has happened. *)
Record holding (gr : Grant) (leased : bool) (σ : Session) : Prop := {
  hd_grant : ∃ r, h_grant (s_hold σ) = Some (r, gr);
  hd_ok : grant_ok σ gr;
  hd_local : h_local (s_hold σ) = true;
  hd_leased : h_leased (s_hold σ) = leased;
  hd_revoked : s_revoked σ = false;
}.

Record before_watch (gr : Grant) (σ : Session) : Prop := {
  bw_watching : h_watching (s_hold σ) = false;
  bw_attempts : s_attempts σ = 0%nat;
}.

(** The capacity is still held, and a verdict was reached. *)
Record settled (gr : Grant) (leased : bool) (a : option (option goerr)) (σ : Session) : Prop := {
  sd_ok : grant_ok σ gr;
  sd_local : h_local (s_hold σ) = true;
  sd_leased : h_leased (s_hold σ) = leased;
  sd_verdict : ∃ v, a = Some v ∧ (s_revoked σ = true → is_some_error v ErrRevoked = true);
}.

Lemma grant_ok_moved σ σ' gr : grant_ok σ gr → moved σ σ' → grant_ok σ' gr.
Proof using Type.
  unfold grant_ok. intros H [Hh _ _ Hs _]. rewrite Hh. destruct (h_grant (s_hold σ)) as [[r gr']|]; [|done].
  destruct (s_start σ) as [t|]; [|done]. by rewrite (Hs t eq_refl).
Qed.

(** [grant_ok] depends on the grant and the first reading of the clock. *)
Lemma grant_ok_same σ σ' gr :
  grant_ok σ gr → h_grant (s_hold σ') = h_grant (s_hold σ) → (∀ t, s_start σ = Some t → s_start σ' = Some t) →
  grant_ok σ' gr.
Proof using Type.
  unfold grant_ok. intros H Hh Hs. rewrite Hh. destruct (h_grant (s_hold σ)) as [[r gr']|]; [|done].
  destruct (s_start σ) as [t|]; [|done]. by rewrite (Hs t eq_refl).
Qed.

Lemma holding_moved gr l σ σ' : holding gr l σ → moved σ σ' → s_revoked σ' = false → holding gr l σ'.
Proof using Type.
  intros [] Hm Hr. pose proof (mv_hold _ _ Hm) as Hh. split; rewrite ?Hh; try done. by eapply grant_ok_moved.
Qed.
Lemma holding_calm gr l σ σ' : holding gr l σ → calm σ σ' → holding gr l σ'.
Proof using Type. intros H [Hm Hr]. eapply holding_moved; [done|done|]. rewrite Hr. apply H. Qed.
Lemma before_watch_moved gr σ σ' : before_watch gr σ → moved σ σ' → before_watch gr σ'.
Proof using Type. intros [] [Hh Ha _ _ _]. split; [by rewrite Hh|congruence]. Qed.

Lemma settled_holding gr l v σ : holding gr l σ → settled gr l (Some v) σ.
Proof using Type. intros []. split; try done. exists v. split; [done|]. congruence. Qed.

Lemma settled_error gr l e σ σ' :
  holding gr l σ → moved σ σ' → (s_revoked σ' = true → e = [ErrRevoked]) → settled gr l (Some (Some e)) σ'.
Proof using Type.
  intros [] Hm Hr. pose proof (mv_hold _ _ Hm) as Hh. split; rewrite ?Hh; try done; [by eapply grant_ok_moved|].
  exists (Some e). split; [done|]. by intros ->%Hr.
Qed.

Lemma revocationSetupError_obeys ctx exp e σ (Q : goerr → Session → Prop) :
  (∀ e σ', calm σ σ' → Q e σ') → obeys (revocationSetupError ctx exp e) σ Q.
Proof using Type.
  intros HQ. apply obeys_bind, now_obeys. intros t σ' Hc _. case_decide; [by apply HQ|].
  apply obeys_bind, capacityContextError_obeys. intros [?|]; [by apply HQ|].
  apply obeys_bind, silent_obeys; [done|]. intros [?|]; by apply HQ.
Qed.

Lemma setup_failed_obeys ctx gr l err σ :
  holding gr l σ →
  obeys (err' ← revocationSetupError ctx (g_ExpiresAt gr) err;
         _ ← recordAuthorityTermination g gr err' 0 0 0; Ret (Some (Some err'))) σ (settled gr l).
Proof using Type.
  intros Hh. apply obeys_bind, revocationSetupError_obeys. intros e σ1 Hc1.
  apply obeys_bind, recordAuthorityTermination_obeys. intros σ2 Hc2.
  apply settled_holding. eapply holding_calm; [by eapply holding_calm|done].
Qed.

(** Deferred cancellations. *)
Lemma cancel_obeys {A} ctx (a : A) σ (Q : A → Session → Prop) :
  Q a σ → obeys (_ ← call (ECancel ctx); Ret a) σ Q.
Proof using Type. intros H. apply obeys_bind, silent_obeys; [done|]. by intros _. Qed.

Lemma recordAuthorized_obeys ctx gr t σ (Q : result unit → Session → Prop) :
  holding gr (h_leased (s_hold σ)) σ → h_watching (s_hold σ) = true → s_cleared σ = true →
  (∀ e σ', calm σ σ' → Q (Err e) σ') →
  (∀ σ', h_grant (s_hold σ') = h_grant (s_hold σ) → h_local (s_hold σ') = true →
         h_leased (s_hold σ') = h_leased (s_hold σ) → h_audited (s_hold σ') = true →
         h_fence (s_hold σ') = h_fence (s_hold σ) → s_attempts σ' = s_attempts σ → s_revoked σ' = false →
         (∀ t, s_start σ = Some t → s_start σ' = Some t) → Q (Ok ()) σ') →
  obeys (record ctx (eventForGrant gr AuditAuthorized t 0 0 0 "")) σ Q.
Proof using Type.
  intros Hh Hw Hcl HE HO.
  assert (Hgo : ∀ ev σ', ae_Type ev = AuditAuthorized → ae_GrantID ev = g_GrantID gr → calm σ σ' →
    obeys (call (ERecord ctx ev)) σ' Q).
  { intros ev σ' Ht Hg Hc. pose proof (holding_calm _ _ _ _ Hh Hc) as [[r Hr] _ Hl _ Hv].
    pose proof Hc as [[Hhd Ha _ Hss Hcl'] _].
    intros [[]|e].
    - eexists. split. { cbn. rewrite Ht. cbn. eapply adv_audited; [done|done|done|done|by rewrite Hhd|by apply Hcl'|done]. }
      apply HO; cbn; first [done|congruence|auto].
    - exists σ'. split; [constructor|]. by apply HE. }
  unfold record. case_decide; [|by apply Hgo].
  apply obeys_bind, now_obeys. intros t' σ' Hc _. by apply Hgo.
Qed.

Context (Hmax : 0 ≤ gw_maxReconnects g) (fuel : nat) (Hfuel : gw_maxReconnects g < Z.of_nat fuel).

Lemma connect_watched_obeys ctx gr now fence l σ :
  holding gr l σ → before_watch gr σ → (gw_authenticatedCapacity g = true → l = true) →
  (gw_requireDownstreamFence g = true → h_fence (s_hold σ) = Some fence ∧ DownstreamFence_Validate fence = Ok ()) →
  obeys (connect_watched g fuel ctx gr now fence) σ (settled gr l).
Proof using Hmax Hfuel.
  intros Hh Hb Hl Hfen. destruct (hd_grant _ _ _ Hh) as [r Hgr].
  assert (Hbad : ∀ err, obeys (result ← (err' ← revocationSetupError ctx (g_ExpiresAt gr) err;
      _ ← recordAuthorityTermination g gr err' 0 0 0; Ret (Some (Some err')));
    _ ← call (ECancel (CtxWatch ctx)); Ret result) σ (settled gr l)).
  { intros err. apply obeys_bind. eapply obeys_mono; [|by apply setup_failed_obeys].
    intros a σ' Hs. by apply cancel_obeys. }
  intros [[]|err]; [| |exists σ; split; [constructor|apply Hbad]]; [|exists σ; split; [constructor|apply Hbad]].
  eexists. split; [apply (adv_watching _ _ r); [done|apply Hh|apply Hb]|]. cbn beta iota.
  match goal with |- GatewayProtocol.obeys _ _ ?s _ => set (σ1 := s) end.
  assert (Hh1 : holding gr l σ1).
  { split; [by exists r|by apply (grant_ok_same σ); [apply Hh|..]|done|apply Hh|apply Hh]. }
  apply obeys_bind. eapply (obeys_mono _ _ _ (settled gr l)).
  { intros a σ' Hs. by apply cancel_obeys. }
  apply obeys_bind, authorityError_obeys; [unfold expiry; cbn; by rewrite Hgr|apply Hh1|].
  intros [e|] σ2 (Hm & Hc & Hr).
  { apply obeys_bind, recordAuthorityTermination_obeys. intros σ3 [Hm3 Hr3].
    apply (settled_error _ _ _ σ1); [done|by transitivity σ2|]. rewrite Hr3. by intros [= ->]%Hr. }
  destruct (Hc eq_refl) as [Hcl Hrv]. pose proof (holding_moved _ _ _ _ Hh1 Hm Hrv) as Hh2.
  pose proof (mv_hold _ _ Hm) as Hhold. apply obeys_bind, recordAuthorized_obeys.
  - by rewrite (hd_leased _ _ _ Hh2).
  - by rewrite Hhold.
  - done.
  - intros e σ3 Hc3. cbn. exists σ3. split; [constructor|]. apply settled_holding. by eapply holding_calm.
  - intros σ3 H1 H2 H3 H4 H5 H6 H7 H8. apply obeys_bind.
    eapply obeys_mono; [|apply (connect_loop_obeys gr fence (CtxAuthority ctx) σ3 fuel 0 σ3); [|by split|lia|lia]].
    + intros a σ4 (Hs4 & Hst4 & Hv4). apply cancel_obeys. rewrite Hhold in *.
      split; rewrite ?Hs4; try done; [|rewrite H3; apply Hh1].
      eapply grant_ok_same; [apply Hh1| |]; [by rewrite Hs4, H1|]. intros t Ht. by apply Hst4, H8, Hm.
    + rewrite Hhold in *. split; try done; [rewrite H1; cbn; eauto|intros Ha; rewrite H3; cbn|rewrite H5; cbn; apply Hfen|].
      * rewrite (hd_leased _ _ _ Hh). by apply Hl.
      * rewrite H6, (mv_attempts _ _ Hm). apply Hb.
Qed.

(** ** Leases *)

Definition finished (gr : Grant) (a : option (option goerr)) (σ : Session) : Prop := settled gr false a σ.

Lemma finishCapacityLease_obeys gr v σ (Q : option goerr → Session → Prop) :
  settled gr true (Some v) σ →
  (∀ v' σ', finished gr (Some v') σ' → Q v' σ') → obeys (finishCapacityLease g gr v) σ Q.
Proof using Type.
  clear Hmax Hfuel fuel. intros Hs HQ. apply obeys_bind.
  eapply (obeys_mono _ _ _ (λ _ σ', calm σ σ')).
  2: { destruct v as [e|]; cbn; [|exact (calm_refl σ)]. unfold capacityAuditType.
       repeat case_match; simplify_eq; try exact (calm_refl σ); by apply record_now_obeys. }
  intros _ σ1 [Hm Hr]. intros x. eexists. split; [apply adv_returned; rewrite (mv_hold _ _ Hm); apply Hs|]. cbn beta.
  match goal with |- GatewayProtocol.obeys _ _ ?s _ => set (σ2 := s) end.
  destruct Hs as [Hok Hlo Hle (w & [= <-] & Hw)].
  assert (Hf : ∀ v' σ', moved σ2 σ' → s_revoked σ' = s_revoked σ →
    (is_some_error v ErrRevoked = true → is_some_error v' ErrRevoked = true) → finished gr (Some v') σ').
  { intros v' σ' Hm' Hr' Hv'. pose proof (mv_hold _ _ Hm') as Hh'. split; rewrite ?Hh'; cbn; [|done|done|].
    - eapply grant_ok_moved; [|done]. eapply (grant_ok_same σ); [done|cbn; by rewrite (mv_hold _ _ Hm)|apply Hm].
    - exists v'. split; [done|]. rewrite Hr'. auto. }
  destruct x as [|e].
  - apply HQ. by apply Hf.
  - apply obeys_bind, record_now_obeys; [done|]. intros σ3 [Hm3 Hr3]. apply HQ, Hf; [done|by rewrite Hr3|].
    case_match; [done|]. destruct v as [v|]; cbn; [|done]. unfold errors_is. rewrite !bool_decide_eq_true. set_solver.
Qed.

Lemma initialCapacityEventError_obeys b σ (Q : option goerr → Session → Prop) :
  (∀ e, Q e σ) → obeys (initialCapacityEventError b) σ Q.
Proof using Type.
  intros HQ. destruct b; [|apply HQ]. apply obeys_bind, silent_obeys; [done|]. intros x. apply HQ.
Qed.

Lemma lease_fence_obeys gr lease σ (Q : option string → Session → Prop) :
  holding gr true σ → before_watch gr σ →
  (∀ x σ', holding gr true σ' → before_watch gr σ' →
     (∀ f, x = Some f → gw_requireDownstreamFence g = true →
           h_fence (s_hold σ') = Some f ∧ DownstreamFence_Validate f = Ok ()) → Q x σ') →
  obeys (lease_fence g lease) σ Q.
Proof using Type.
  intros Hh Hb HQ. unfold lease_fence. destruct (gw_requireDownstreamFence g) eqn:Ef; cbn; [|by apply HQ].
  destruct (ls_fenced lease); cbn; [|by apply HQ].
  intros [f|e]; [|exists σ; split; [constructor|by apply HQ]].
  eexists. split; [apply adv_fenced; [apply Hh|apply Hh|apply Hb]|]. apply HQ.
  - split; [apply Hh|by apply (grant_ok_same σ); [apply Hh|..]|done|done|apply Hh].
  - destruct Hb. by split.
  - intros f' Hf' _. cbn. destruct (DownstreamFence_Validate f) as [[]|] eqn:Ev; cbn in Hf'; [|done]. by simplify_eq.
Qed.

Lemma connect_leased_obeys ctx gr now lease σ :
  holding gr true σ → before_watch gr σ →
  obeys (connect_leased g fuel ctx gr now lease) σ (finished gr).
Proof using Hmax Hfuel.
  intros Hh Hb. apply obeys_bind, initialCapacityEventError_obeys. intros [e|].
  { apply obeys_bind, finishCapacityLease_obeys; [by apply settled_holding|done]. }
  apply obeys_bind, (lease_fence_obeys gr); [done|done|]. intros [f|] σ1 Hh1 Hb1 Hf1.
  - apply obeys_bind, capacityContextError_obeys. intros lost. apply obeys_bind.
    eapply (obeys_mono _ _ _ (settled gr true)).
    2: { destruct lost; [by apply settled_holding|]. apply connect_watched_obeys; auto. }
    intros a σ2 Hs2. apply obeys_bind, silent_obeys; [done|]. intros _.
    destruct (sd_verdict _ _ _ _ Hs2) as (v & -> & _). by apply obeys_bind, finishCapacityLease_obeys.
  - apply obeys_bind, recordBoundedEvent_obeys; [done|]. intros σ2 Hc2.
    apply obeys_bind, finishCapacityLease_obeys; [|done]. apply settled_holding. by eapply holding_calm.
Qed.

Lemma connect_authorized_obeys ctx gr now σ :
  (gw_requireDownstreamFence g = true → gw_authenticatedCapacity g = true) →
  holding gr false σ → before_watch gr σ →
  obeys (connect_authorized g fuel ctx gr now) σ (finished gr).
Proof using Hmax Hfuel.
  intros Hcfg Hh Hb. unfold connect_authorized. destruct (gw_authenticatedCapacity g) eqn:Ea; cbn.
  2: { apply connect_watched_obeys; [done|done|congruence|]. intros ?. by discriminate Hcfg. }
  assert (Hret : ∀ v σ', calm σ σ' → finished gr (Some v) σ') by (intros v σ' Hc; apply settled_holding; by eapply holding_calm).
  destruct (hd_grant _ _ _ Hh) as [r Hgr]. intros [[lease|]|e].
  - eexists. split; [apply (adv_leased _ _ r); [done|apply Hh|apply Hh|apply Hb]|]. apply connect_leased_obeys.
    + split; [apply Hh|by apply (grant_ok_same σ); [apply Hh|..]|done|done|apply Hh].
    + destruct Hb. by split.
  - exists σ. split; [constructor|]. apply obeys_bind, record_obeys; [done|]. intros x σ' Hc. by apply Hret.
  - exists σ. split; [constructor|]. case_match; [by apply Hret|].
    case_match; (apply obeys_bind, record_obeys; [done|]; intros x σ' Hc; by apply Hret).
Qed.

(** ** The whole connection *)

(** A connection ends with a verdict and holds nothing; a revocation that it saw
    is the verdict. *)
Definition ended (a : option (option goerr)) (σ : Session) : Prop :=
  h_local (s_hold σ) = false ∧ h_leased (s_hold σ) = false ∧
  ∃ v, a = Some v ∧ (s_revoked σ = true → is_some_error v ErrRevoked = true).

Lemma ended_unheld v σ :
  h_local (s_hold σ) = false → h_leased (s_hold σ) = false → s_revoked σ = false → ended (Some v) σ.
Proof using Type. intros ???. split_and!; [done|done|]. exists v. split; [done|congruence]. Qed.

Lemma call_obeys {X B} (e : eff X) (k : X → prog B) σ Q :
  (∀ x, ∃ σ', advance g σ (note_of e x) σ' ∧ obeys (k x) σ' Q) → obeys (call e ≫= k) σ Q.
Proof using Type. done. Qed.

Lemma Connect_obeys ctx request client :
  (gw_requireDownstreamFence g = true → gw_authenticatedCapacity g = true) →
  obeys (Connect g fuel ctx request client) fresh_session ended.
Proof using Hmax Hfuel.
  intros Hcfg. unfold Connect. destruct client; [|by apply ended_unheld].
  destruct ctx; [by apply ended_unheld|..].
  all: destruct (ConnectRequest_Validate request); [|by apply ended_unheld].
  all: apply call_obeys; intros t; exists (clock t fresh_session); (split; [apply adv_clock|]); cbn beta; case_decide; [by apply ended_unheld|].
  all: apply call_obeys; intros [gr|e]; [|exists (clock t fresh_session); split; [constructor|];
         apply obeys_bind, recordDenied_obeys; by apply ended_unheld].
  all: eexists; (split; [by apply adv_authorized|]); cbn beta iota;
       destruct (Grant_Validate gr t) as [[]|e] eqn:Hv; [|apply obeys_bind, recordDenied_obeys; by apply ended_unheld].
  all: destruct (matches gr request) eqn:Hmt; [|apply obeys_bind, recordDenied_obeys; by apply ended_unheld].
  all: apply call_obeys; intros [[]|e]; [|eexists; split; [apply adv_silent|]; apply obeys_bind, record_obeys; [done|];
         intros x σ' [Hm Hr]; apply ended_unheld; rewrite ?(mv_hold _ _ Hm); done].
  all: eexists; (split; [by apply adv_acquired|]).
  all: apply obeys_bind; eapply obeys_mono; [|apply (connect_authorized_obeys _ gr); [done|split; cbn; eauto|by split]].
  all: intros v σ [Hok Hlo Hle Hvd]; apply call_obeys; intros []; eexists; (split; [by apply adv_released|]); split_and!; done.
Qed.
End programs.
