(* ===== verification/GatewayConnections.v ===== *)
(** * Runtime Gateway: what a connection guarantees

    Consequences of [Connect_obeys] for single connections, in terms of the
    calls they made, and for any number of connections that share one gateway
    and its local capacity. *)

From S2P Require Import Prelude Program Threads GatewayModel GatewayCapacity GatewayConnect GatewayProtocol GatewayGuarantees.
From stdpp Require Import base gmap strings list relations.
From Stdlib Require Import ZArith Lia.

Local Open Scope Z_scope.

(** The fuel of a connection: one iteration and its reconnects. *)
Definition enough (g : Gateway) : nat := S (Z.to_nat (gw_maxReconnects g)).
Definition connection (g : Gateway) (ctx : Ctx) (rq : ConnectRequest) (client : bool) : prog (option (option goerr)) :=
  Connect g (enough g) ctx rq client.

(** A gateway as [New] makes it. *)
Definition configured (g : Gateway) : Prop :=
  0 ≤ gw_maxReconnects g ≤ MaxReconnectAttempts ∧
  (gw_requireDownstreamFence g = true → gw_authenticatedCapacity g = true).

Lemma New_configured o g c : New o = Ok (g, c) → configured g ∧ capacity_holds c [].
Proof.
  unfold New. intros H. apply guard_Ok in H as [_ H].
  destruct (op_RequireDownstreamFencing o) eqn:Er; case_bool_decide as Hb; try done.
  all: inv_ok H; nor Hguard; subst; (split; [|by eapply newConnectionCapacity_holds]); split; cbn; [split; lia|].
  - intros _. apply bool_decide_eq_true. nor Hb. by destruct (op_Capacity o).
  - done.
Qed.

Section single.
Context (g : Gateway).

Lemma connection_obeys ctx rq client :
  configured g → obeys g (connection g ctx rq client) fresh_session ended.
Proof using Type. intros [? ?]. apply Connect_obeys; [lia|unfold enough; lia|done]. Qed.

Lemma connection_replays ctx rq client a tr :
  configured g → completes (connection g ctx rq client) [] a tr →
  ∃ σ, replays g (notes tr) σ ∧ ended a σ.
Proof using Type.
  intros Hg Hc. eapply completes_obeys; [done|constructor|by apply connection_obeys].
Qed.

(** ** What the notes say about the session they lead to *)

Definition resolved_note (n : note) : bool := match n with NResolved _ _ _ => true | _ => false end.
Definition dialled_note (n : note) : bool := match n with NDialled _ => true | _ => false end.
Definition count (p : note → bool) (ns : list note) : nat := length (filter (λ n, p n = true) ns).

Lemma count_cons p n ns : count p (n :: ns) = ((if p n then 1 else 0) + count p ns)%nat.
Proof using Type. unfold count. rewrite filter_cons. destruct (p n); case_decide; done. Qed.

(** Every dial has a resolution of its own. *)
Lemma replays_attempts ns σ :
  replays g ns σ →
  count resolved_note ns = s_attempts σ ∧
  Z.of_nat (count resolved_note ns) ≤ Z.max 0 (gw_maxReconnects g + 1) ∧
  (count dialled_note ns + match s_stage σ with Resolved _ _ => 1 | _ => 0 end ≤ count resolved_note ns)%nat.
Proof using Type.
  induction 1 as [|n ns σ σ' _ (IH1 & IH2 & IH3) Hadv]; [cbn; lia|].
  rewrite !count_cons. destruct Hadv; cbn in *; try (repeat case_match; lia).
  match goal with H : s_stage _ = Resolved _ _ |- _ => rewrite H in IH3 end. lia.
Qed.

(** The history behind a session: what is held was taken and not given back. *)
Record history (ns : list note) (σ : Session) : Prop := {
  hs_grant : ∀ r gr, h_grant (s_hold σ) = Some (r, gr) → NAuthorized r gr ∈ ns;
  hs_revoked : s_revoked σ = false → NRevoked ∉ ns;
  hs_over : h_local (s_hold σ) = true → h_over (s_hold σ) = false;
  hs_released : ∀ gr, NReleased gr ∈ ns → h_over (s_hold σ) = true;
  hs_local : h_local (s_hold σ) = true → ∃ r gr t, h_grant (s_hold σ) = Some (r, gr) ∧
    s_start σ = Some t ∧ Grant_Validate gr t = Ok () ∧ matches gr r = true ∧ NAcquired gr ∈ ns;
  hs_leased : h_leased (s_hold σ) = true → ∃ r gr since before, h_grant (s_hold σ) = Some (r, gr) ∧
    ns = since ++ NLeased (capacitySubjectForGrant gr) :: before ∧ NReturned ∉ since;
  hs_audited : h_audited (s_hold σ) = true → ∃ r gr ev, h_grant (s_hold σ) = Some (r, gr) ∧
    NAudited ev ∈ ns ∧ ae_Type ev = AuditAuthorized ∧ ae_GrantID ev = g_GrantID gr;
}.

Lemma history_leased_cons n ns (h h' : Hold) :
  n ≠ NReturned → h_grant h' = h_grant h →
  (∃ r gr since before, h_grant h = Some (r, gr) ∧
    ns = since ++ NLeased (capacitySubjectForGrant gr) :: before ∧ NReturned ∉ since) →
  ∃ r gr since before, h_grant h' = Some (r, gr) ∧
    n :: ns = since ++ NLeased (capacitySubjectForGrant gr) :: before ∧ NReturned ∉ since.
Proof using Type.
  intros Hn Hh (r & gr & since & before & Hgr & -> & Hs). exists r, gr, (n :: since), before.
  split_and!; [congruence|done|]. by apply not_elem_of_cons.
Qed.

Lemma replays_history ns σ : replays g ns σ → history ns σ.
Proof using Type.
  induction 1 as [|n ns σ σ' _ [IH1 IH2 IH3 IH4 IH5 IH6 IH7] Hadv]; [split; cbn; try done; intros; set_solver|].
  split.
  - intros r gr Hgr. destruct Hadv; cbn in *; try (right; by apply IH1). simplify_eq. left.
  - intros Hr. destruct Hadv; cbn in *; try (apply not_elem_of_cons; split; [done|by apply IH2]).
  - destruct Hadv; cbn in *; auto.
  - intros gr [<-|Hin]%elem_of_cons; [by inversion Hadv|]. specialize (IH4 gr Hin).
    destruct Hadv; cbn in *; auto; exfalso;
      first [congruence|specialize (IH3 ltac:(assumption)); congruence].
  - intros Hl.
    destruct Hadv; cbn in *; try done;
      try (destruct IH5 as (? & ? & ? & ? & Hst & ? & ? & ?); [done|]; eexists _, _, _;
           split_and!; [done|rewrite ?Hst; done|done|done|by right]).
    unfold grant_ok in *. destruct (h_grant (s_hold σ)) as [[r gr']|]; [|done]. destruct (s_start σ) as [t|]; [|done].
    destruct_and!; subst. eexists _, _, _. split_and!; [done|done|done|done|left].
  - intros Hl. destruct Hadv; cbn in *; try done; try (eapply history_leased_cons; [done|done|by apply IH6]).
    exists r, gr, [], ns. split_and!; [done|done|set_solver].
  - intros Ha. destruct Hadv; cbn in *; try done;
      try (destruct IH7 as (? & ? & ? & ? & ? & ? & ?); [done|]; eexists _, _, _; split_and!; [done|by right|done|done]).
    eexists _, _, _. split_and!; [done|left|done|done].
Qed.

(** The history behind a backend: dialled for an endpoint of the grant, and what
    was checked since. *)
Record backend_history (ns : list note) (σ : Session) : Prop := mkBackendHistory {
  bh_dialled : ∃ r gr ep t since before, h_grant (s_hold σ) = Some (r, gr) ∧
    ns = since ++ NDialled ep :: before ∧ validateEndpoint ep gr t = Ok () ∧
    (s_checked σ = true → NWatchOpen ∈ since) ∧
    (s_cleared σ = true → ∃ late t' early, since = late ++ NClock t' :: early ∧ NWatchOpen ∈ early ∧ t' < g_ExpiresAt gr) ∧
    (s_stage σ = Connected → ∃ ev, NAudited ev ∈ since ∧ ae_GrantID ev = g_GrantID gr ∧
       (ae_Type ev = AuditConnected ∨ ae_Type ev = AuditReconnected));
}.

(** A note that leaves the stage alone, and what it checks. *)
Lemma backend_history_cons n ns σ σ' :
  backend_history ns σ → h_grant (s_hold σ') = h_grant (s_hold σ) → s_stage σ' = s_stage σ →
  (s_checked σ' = true → s_checked σ = true ∨ n = NWatchOpen) →
  (s_cleared σ' = true → s_cleared σ = true ∨ s_checked σ = true ∧ ∃ t, n = NClock t ∧ t < expiry (s_hold σ)) →
  backend_history (n :: ns) σ'.
Proof using Type.
  intros [(r & gr & ep & t & since & before & Hgr & -> & Hv & Hch & Hcl & Hco)] Hh Hst Hc Hk.
  split. exists r, gr, ep, t, (n :: since), before. split_and!; [congruence|done|done| | |].
  - intros [H| ->]%Hc; [right; by apply Hch|left].
  - intros [H|(H & t' & -> & Ht)]%Hk.
    + destruct (Hcl H) as (late & t' & early & -> & ? & ?). exists (n :: late), t', early. done.
    + exists [], t', since. split_and!; [done|by apply Hch|]. unfold expiry in Ht. by rewrite Hgr in Ht.
  - rewrite Hst. intros (ev & ? & ?)%Hco. exists ev. split; [by right|done].
Qed.

Lemma replays_backend ns σ :
  replays g ns σ → s_stage σ = Dialled ∨ s_stage σ = Connected → backend_history ns σ.
Proof using Type.
  induction 1 as [|n ns σ σ' Hr IH Hadv]; [by intros [|]|]. intros Hst.
  destruct Hadv; cbn in Hst; try (by destruct Hst); try (apply (backend_history_cons _ _ σ); cbn; auto; fail).
  - apply (backend_history_cons _ _ σ); cbn; auto. intros [?|[? ?%Z.ltb_lt]%andb_true_iff]%orb_true_iff; eauto.
  - destruct (IH Hst) as [(? & ? & ? & ? & ? & ? & ? & _)]. congruence.
  - by destruct e, Hst.
  - split. exists r, gr, ep, t, [], ns. split_and!; try done.
  - destruct IH as [(r' & gr' & ep & t & since & before & Hgr & -> & Hv & Hch & Hcl & Hco)]; [by left|].
    split. exists r', gr', ep, t, (NAudited ev :: since), before. simplify_eq. split_and!; try done.
    + intros ?. right. by apply Hch.
    + intros Hc. destruct (Hcl Hc) as (late & t' & early & -> & ? & ?). exists (NAudited ev :: late), t', early. done.
    + intros _. exists ev. split; [left|]. split; [done|]. rewrite H. unfold connected_type, connectedEvent. case_decide; auto.
Qed.
End single.

(** ** Single connections *)

(** C7 (refinement): a connection implements the abstract protocol of
    [GatewayProtocol].  Whatever the ports answer, a connection of a gateway made
    by [New] makes only the calls the protocol allows, in its order; it reaches a
    verdict within the fuel of one iteration per allowed reconnect, gives back the
    local capacity and the lease it took, and if it ever saw that the grant is
    revoked, its verdict is the revocation. *)
Theorem connect_implements_protocol o g c ctx rq client a tr :
  New o = Ok (g, c) → completes (connection g ctx rq client) [] a tr →
  ∃ σ v, replays g (notes tr) σ ∧ a = Some v ∧
    h_local (s_hold σ) = false ∧ h_leased (s_hold σ) = false ∧
    (NRevoked ∈ notes tr → is_some_error v ErrRevoked = true).
Proof.
  intros [Hg _]%New_configured Hc.
  destruct (connection_replays g ctx rq client a tr Hg Hc) as (σ & Hr & Hl & Hle & v & -> & Hv).
  exists σ, v. split_and!; try done. intros Hin. apply Hv.
  destruct (s_revoked σ) eqn:E; [done|]. by destruct (hs_revoked _ _ (replays_history g _ _ Hr) E).
Qed.


(** reconnects are bounded.  A connection resolves its handoff at most
    once more than the configured number of reconnects, which is at most three, and
    dials at most as often as it resolves. *)
Theorem reconnects_bounded o g c ctx rq client a tr :
  New o = Ok (g, c) → completes (connection g ctx rq client) [] a tr →
  Z.of_nat (count resolved_note (notes tr)) ≤ gw_maxReconnects g + 1 ≤ MaxReconnectAttempts + 1 ∧
  (count dialled_note (notes tr) ≤ count resolved_note (notes tr))%nat.
Proof.
  intros [Hg _]%New_configured Hc. destruct (connection_replays g ctx rq client a tr Hg Hc) as (σ & Hr & _).
  destruct Hg as [[? ?] _]. destruct (replays_attempts g _ _ Hr) as (_ & ? & ?). lia.
Qed.

(** ** Connections that share a gateway *)

(** The local capacity answers as [connectionCapacity] does; the other ports
    answer anything. *)
Definition gateway_respond X (e : eff X) : option connectionCapacity → X → option connectionCapacity → Prop :=
  match e in eff X return option connectionCapacity → X → option connectionCapacity → Prop with
  | ELocalAcquire gr => λ c x c',
      match acquire gr c with
      | Ok c1 => x = Ok () ∧ c' = c1
      | Err err => x = Err err ∧ c' = c
      end
  | ELocalRelease gr => λ c _ c', c' = release gr c
  | _ => λ c _ c', c' = c
  end.

Definition a_connection (g : Gateway) (p : prog ()) : Prop :=
  ∃ ctx rq client, p = discard (connection g ctx rq client).

Definition gateway_pool (g : Gateway) (c0 c : option connectionCapacity) (ts : list (thread eff)) : Prop :=
  rtc (pool_step gateway_respond (a_connection g)) (c0, []) (c, ts).

Fixpoint remove_key (k : connectionSessionKey) (l : list connectionSessionKey) : list connectionSessionKey :=
  match l with
  | [] => []
  | x :: l => if decide (x = k) then l else x :: remove_key k l
  end.

(** The session keys a connection holds: acquired and not released. *)
Fixpoint held_keys (ns : list note) : list connectionSessionKey :=
  match ns with
  | [] => []
  | NAcquired gr :: ns => session_key gr :: held_keys ns
  | NReleased gr :: ns => remove_key (session_key gr) (held_keys ns)
  | _ :: ns => held_keys ns
  end.

Definition thread_keys (th : thread eff) : list connectionSessionKey := held_keys (notes (th_trace th)).

Definition session_keys (σ : Session) : list connectionSessionKey :=
  match h_grant (s_hold σ) with
  | Some (_, gr) => if h_local (s_hold σ) then [session_key gr] else []
  | None => []
  end.

Lemma grant_ok_grant σ gr : grant_ok σ gr → ∃ r, h_grant (s_hold σ) = Some (r, gr).
Proof.
  unfold grant_ok. destruct (h_grant (s_hold σ)) as [[r gr']|]; [|done]. destruct (s_start σ); [|done].
  intros (-> & _ & _). eauto.
Qed.

Lemma held_keys_session g ns σ : replays g ns σ → held_keys ns = session_keys σ.
Proof.
  induction 1 as [|n ns σ σ' Hr IH Hadv]; [done|].
  destruct Hadv; cbn; rewrite ?IH; unfold session_keys; cbn; try done.
  - by rewrite H.
  - destruct (grant_ok_grant _ _ H) as [r ->]. by rewrite H0.
  - by rewrite H, H0.
  - by rewrite H.
  - by rewrite H, H0.
  - by rewrite H0, H2.
  - by rewrite H.
  - destruct (grant_ok_grant _ _ H) as [r ->]. rewrite H0. cbn. by rewrite decide_True.
Qed.

(** What a pool of connections maintains. *)
Record pool_ok (g : Gateway) (st : option connectionCapacity * list (thread eff)) : Prop := {
  po_threads : Forall (λ th, ∃ σ, replays g (notes (th_trace th)) σ ∧
                 obeys g (th_prog th) σ (λ _ σ', h_local (s_hold σ') = false)) st.2;
  po_capacity : capacity_holds st.1 (st.2 ≫= thread_keys);
}.

Lemma pool_step_ok g st st' :
  configured g → pool_ok g st → pool_step gateway_respond (a_connection g) st st' → pool_ok g st'.
Proof.
  intros Hg [Ht Hc] Hstep. destruct Hstep as [c ts p (ctx & rq & client & ->)|c ts1 tr X e k ts2 x c' Hresp]; cbn in *.
  - split; cbn; [|done]. apply Forall_cons. split; [|done]. exists fresh_session. split; [constructor|].
    apply obeys_bind. eapply obeys_mono; [|by apply connection_obeys]. by intros a σ (? & _).
  - apply Forall_app in Ht as [Ht1 [(σ & Hr & Ho) Ht2]%Forall_cons]. cbn in *. destruct (Ho x) as (σ' & Hadv & Ho').
    assert (Hr' : replays g (note_of e x :: notes tr) σ') by (by eapply replays_cons).
    split; cbn; [apply Forall_app; split; [done|]; apply Forall_cons; split; [by exists σ'|done]|].
    rewrite bind_app, bind_cons in Hc |- *. unfold thread_keys at 2 in Hc. unfold thread_keys at 2. cbn in Hc |- *.
    rewrite (held_keys_session _ _ _ Hr) in Hc. change (event_note (Ev e x)) with (note_of e x).
    set (l1 := ts1 ≫= thread_keys) in *. set (l2 := ts2 ≫= thread_keys) in *.
    assert (Hmv : ∀ kk l, l1 ++ (kk :: l) ++ l2 ≡ₚ kk :: l1 ++ l ++ l2) by (intros; symmetry; apply Permutation_middle).
    destruct e; cbn in Hresp, Hr', Hadv |- *;
      try (subst c'; rewrite (held_keys_session _ _ _ Hr); exact Hc);
      try (subst c'; repeat case_match; cbn; rewrite (held_keys_session _ _ _ Hr); exact Hc).
    + destruct (acquire g0 c) as [c1|err] eqn:Ea; destruct Hresp as [-> ->]; cbn.
      * rewrite (held_keys_session _ _ _ Hr). eapply capacity_holds_perm; [symmetry; apply Hmv|]. by eapply acquire_holds.
      * by rewrite (held_keys_session _ _ _ Hr).
    + subst c'. rewrite (held_keys_session _ _ _ Hr). inversion Hadv as [| | | | | | | | | | | | | | |gr Hok Hlo Hle]; subst.
      destruct (grant_ok_grant _ _ Hok) as [r Hgr]. unfold session_keys in *. rewrite Hgr, Hlo in *. cbn.
      rewrite decide_True by done. cbn. apply release_holds. eapply capacity_holds_perm; [apply (Hmv _ [])|done].
Qed.

Lemma pool_always_ok g c0 c ts : configured g → capacity_holds c0 [] → gateway_pool g c0 c ts → pool_ok g (c, ts).
Proof.
  intros Hg Hc0 Hrun. enough (Hall : ∀ st, rtc (pool_step gateway_respond (a_connection g)) (c0, []) st → pool_ok g st) by auto.
  apply rtc_ind_r; [by split; [constructor|]|]. intros st st' _ Hstep Hok. by eapply pool_step_ok.
Qed.

(** C25 (invariant): connections never exceed the local capacity and never leak it.
    Over every interleaving of any number of connections of one gateway, whatever
    the other ports answer and whichever connections stop half-way, the counters of
    the local capacity are exactly those of the connections between acquisition and
    release, in total and per session, within the configured bounds; a connection
    that has returned holds nothing. *)
Theorem connections_within_capacity o g c0 c ts :
  New o = Ok (g, Some c0) → gateway_pool g (Some c0) (Some c) ts →
  let held := ts ≫= thread_keys in
  cc_total c = Z.of_nat (length held) ∧ Z.of_nat (length held) ≤ cc_maxTotal c ∧
  (∀ k, count_of (cc_bySession c) k = Z.of_nat (occurrences k held) ∧
        count_of (cc_bySession c) k ≤ cc_maxPerSession c) ∧
  ∀ th, th ∈ ts → th_prog th = Ret () → thread_keys th = [].
Proof.
  intros [Hg Hc0]%New_configured Hrun held.
  destruct (pool_always_ok g _ _ _ Hg Hc0 Hrun) as [Hts (Ht & Hs & Hle & Hp)]. cbn in *. fold held in Ht, Hs, Hp.
  split_and!; [done|lia| |].
  - intros k. rewrite (count_of_counts _ _ k Hs). auto.
  - intros th Hth Hret. rewrite Forall_forall in Hts. destruct (Hts th Hth) as (σ & Hr & Ho).
    unfold thread_keys. rewrite (held_keys_session _ _ _ Hr). rewrite Hret in Ho. change (h_local (s_hold σ) = false) in Ho.
    unfold session_keys. rewrite Ho. by destruct (h_grant (s_hold σ)) as [[]|].
Qed.

(** ** A sample connection

    The backend closes once, the gateway reconnects, then the client closes. *)

Module GatewayRuns.
Definition options : Options := mkOptions Present Present Nil Present Present Nil 0 0 Present false 0 2 1.
Definition gateway : Gateway := mkGateway true false 3 0 (5 * Second).
Definition capacity : connectionCapacity := mkCapacity 2 1 0 ∅.

Definition t0 : Time := 1000 * Second.
Definition request : ConnectRequest :=
  mkConnectRequest "caller" "tenant" "sandbox" "session" "" "profile" "ref:session:one".
Definition grant : Grant :=
  mkGrant "grant" "caller" "tenant" "sandbox" "session" "" "profile" "ref:session:one" 1 (2000 * Second).
Definition endpoint : Endpoint :=
  mkEndpoint "ref:session:one" "sandbox" "session" "" "profile" 1 (3000 * Second) true.

(** The capacity and the sides that will close, in order. *)
Definition World : Type := option connectionCapacity * list streamSide.

Definition closed_by (side : streamSide) : transferResult := mkTransferResult side false [ErrExternal "closed"] 1 10.

Definition handle X (e : eff X) : World → X * World :=
  match e in eff X return World → X * World with
  | ENow => λ w, (t0, w)
  | ECause _ => λ w, (None, w)
  | ECtxErr _ => λ w, (None, w)
  | ECancel _ => λ w, ((), w)
  | EAuthorize _ _ => λ w, (Ok grant, w)
  | ELocalAcquire gr => λ w, match acquire gr w.1 with Ok c => (Ok (), (c, w.2)) | Err e => (Err e, w) end
  | ELocalRelease gr => λ w, ((), (release gr w.1, w.2))
  | EAcquire _ _ => λ w, (Ok (Some (mkLease true false)), w)
  | ELeaseEvent => λ w, (None, w)
  | EDownstreamFence => λ w, (Err [], w)
  | ERelease _ => λ w, (Ok (), w)
  | EWatch _ _ => λ w, (Ok true, w)
  | EWatchErr => λ w, (None, w)
  | ERecord _ _ => λ w, (Ok (), w)
  | EResolve _ _ => λ w, (Ok endpoint, w)
  | EResolveFenced _ _ _ _ => λ w, (Ok endpoint, w)
  | EDial _ _ => λ w, ((true, None), w)
  | ECloseClient _ => λ w, ((), w)
  | ECloseBackend _ => λ w, ((), w)
  | EBackoff _ _ => λ w, ((), w)
  | EProxyStart _ => λ w, ((), w)
  | EProxyWait _ => λ w, (SignalResult (closed_by (default clientSide (head w.2))), (w.1, tail w.2))
  | EExpiryFired => λ w, (false, w)
  | ETransfer => λ w, (closed_by clientSide, w)
  end.

Definition world : World := (Some capacity, [backendSide; clientSide]).
Definition program : prog (option (option goerr)) := connection gateway CtxCaller request true.
Definition trace : list (event eff) := (trace_from handle program world []).1.
Definition verdict : option (option goerr) := (interp handle program world).1.
End GatewayRuns.

Lemma completes_interp {W A} (h : ∀ X, eff X → W → X * W) (p : prog A) w tr :
  completes p tr (interp h p w).1 (trace_from h p w tr).1.
Proof.
  revert w tr. induction p as [a|X e k IH]; intros w tr; cbn; [done|].
  destruct (h X e w) as [x w']. exists x. apply IH.
Qed.

Lemma sample_completes : completes GatewayRuns.program [] GatewayRuns.verdict GatewayRuns.trace.
Proof. apply completes_interp. Qed.

Lemma connect_implements_protocol_witness :
  GatewayRuns.verdict = Some None ∧
  ∃ σ v, replays GatewayRuns.gateway (notes GatewayRuns.trace) σ ∧ GatewayRuns.verdict = Some v ∧
    h_local (s_hold σ) = false ∧ h_leased (s_hold σ) = false ∧
    (NRevoked ∈ notes GatewayRuns.trace → is_some_error v ErrRevoked = true).
Proof.
  split; [vm_compute; reflexivity|].
  exact (connect_implements_protocol GatewayRuns.options GatewayRuns.gateway (Some GatewayRuns.capacity)
           CtxCaller GatewayRuns.request true _ _ eq_refl sample_completes).
Defined.


Lemma reconnects_bounded_witness :
  count resolved_note (notes GatewayRuns.trace) = 2%nat ∧
  (count dialled_note (notes GatewayRuns.trace) ≤ count resolved_note (notes GatewayRuns.trace))%nat.
Proof.
  split; [vm_compute; reflexivity|].
  exact (proj2 (reconnects_bounded GatewayRuns.options GatewayRuns.gateway (Some GatewayRuns.capacity)
           CtxCaller GatewayRuns.request true _ _ eq_refl sample_completes)).
Defined.

(** Two connections for the same session, one after the other. *)
Definition sample_pool : list (thread eff) * GatewayRuns.World :=
  pool_of GatewayRuns.handle [discard GatewayRuns.program; discard GatewayRuns.program] GatewayRuns.world [].

Lemma sample_pool_run : gateway_pool GatewayRuns.gateway (Some GatewayRuns.capacity) sample_pool.2.1 sample_pool.1.
Proof.
  apply (pool_sequence GatewayRuns.handle gateway_respond (a_connection GatewayRuns.gateway) fst)
    with (w := GatewayRuns.world) (ts := []).
  - intros X e w. destruct e; try done. cbn. by destruct (acquire _ _).
  - repeat (apply Forall_cons_2; [by eexists _, _, _|]). apply Forall_nil_2.
Qed.

Lemma connections_within_capacity_witness :
  sample_pool.2.1 = Some GatewayRuns.capacity ∧
  ∀ th, th ∈ sample_pool.1 → th_prog th = Ret () → thread_keys th = [].
Proof.
  assert (Hc : sample_pool.2.1 = Some GatewayRuns.capacity) by (vm_compute; reflexivity).
  split; [exact Hc|]. pose proof sample_pool_run as Hrun. rewrite Hc in Hrun.
  exact (proj2 (proj2 (proj2 (connections_within_capacity GatewayRuns.options GatewayRuns.gateway
           GatewayRuns.capacity GatewayRuns.capacity sample_pool.1 eq_refl Hrun)))).
Defined.
