(* ===== verification/AdmissionJson.v ===== *)
(** * Provider admission: strict JSON

    The token machines that [provider/admission] and its file guard run over
    Go's [json.Decoder]: [consumeJSONValue] ([scanJSONValue] in the guard), which
    refuses objects with duplicate keys, and [validateStrictJSON], which bounds
    nesting and numbers.  A decoder is the list of tokens it will deliver;
    [None] is a position where it reports a syntax error.  Both machines are
    compared with a reference definition on JSON trees. *)

From S2P Require Import Prelude.
From stdpp Require Import base strings list sets.
From Stdlib Require Import Ascii ZArith Lia.

(** ** Tokens and trees *)

Inductive jtoken :=
  | TOpenObject | TCloseObject | TOpenArray | TCloseArray
  | TText (s : string) | TNumber (s : string) | TBool (b : bool) | TNull.

Abbreviation decoder := (list (option jtoken)).

#[warnings="-register-all"]
Inductive json :=
  | JText (s : string)
  | JNumber (s : string)
  | JBool (b : bool)
  | JNull
  | JArray (l : list json)
  | JObject (l : list (string * json)).

(** The tokens of a document. *)
Fixpoint tokens_of (v : json) : decoder :=
  match v with
  | JText s => [Some (TText s)]
  | JNumber s => [Some (TNumber s)]
  | JBool b => [Some (TBool b)]
  | JNull => [Some TNull]
  | JArray l => Some TOpenArray :: concat (tokens_of <$> l) ++ [Some TCloseArray]
  | JObject l =>
      Some TOpenObject :: concat ((λ m, Some (TText m.1) :: tokens_of m.2) <$> l) ++ [Some TCloseObject]
  end.

Definition elements (l : list json) : decoder := concat (tokens_of <$> l).
Definition members (l : list (string * json)) : decoder :=
  concat ((λ m, Some (TText m.1) :: tokens_of m.2) <$> l).

#[global] Arguments elements : simpl never.
#[global] Arguments members : simpl never.

Section json_ind.
Context (P : json → Prop).
Context (Htext : ∀ s, P (JText s)) (Hnum : ∀ s, P (JNumber s)) (Hbool : ∀ b, P (JBool b)) (Hnull : P JNull).
Context (Harr : ∀ l, Forall P l → P (JArray l)) (Hobj : ∀ l, Forall (λ m, P m.2) l → P (JObject l)).

Fixpoint json_nested_ind (v : json) : P v :=
  match v with
  | JText s => Htext s
  | JNumber s => Hnum s
  | JBool b => Hbool b
  | JNull => Hnull
  | JArray l =>
      Harr l ((fix go l : Forall P l :=
        match l with [] => Forall_nil_2 _ | v :: l => Forall_cons_2 _ _ _ (json_nested_ind v) (go l) end) l)
  | JObject l =>
      Hobj l ((fix go l : Forall (λ m, P m.2) l :=
        match l with
        | [] => Forall_nil_2 _
        | m :: l => Forall_cons_2 _ _ _ (json_nested_ind m.2) (go l)
        end) l)
  end.
End json_ind.

(** ** Duplicate keys *)

(** [decoder.More()]: something other than a closing delimiter follows. *)
Definition More (d : decoder) : bool :=
  match d with
  | [] | Some TCloseObject :: _ | Some TCloseArray :: _ => false
  | _ => true
  end.

(** The decoder after the value, or an error; [None] is also the answer when the
    fuel runs out, which [consume_fuel] excludes. *)
Fixpoint consumeJSONValue (fuel : nat) (d : decoder) : option decoder :=
  match fuel with
  | O => None
  | S fuel =>
      match d with
      | [] | None :: _ => None
      | Some TOpenObject :: d => consumeMembers fuel [] d
      | Some TOpenArray :: d => consumeElements fuel d
      | Some TCloseObject :: _ | Some TCloseArray :: _ => None
      | Some _ :: d => Some d
      end
  end
with consumeMembers (fuel : nat) (keys : list string) (d : decoder) : option decoder :=
  match fuel with
  | O => None
  | S fuel =>
      if More d then
        match d with
        | Some (TText key) :: d =>
            if decide (key ∈ keys) then None else
            match consumeJSONValue fuel d with
            | Some d => consumeMembers fuel (key :: keys) d
            | None => None
            end
        | _ => None
        end
      else
        match d with
        | Some TCloseObject :: d => Some d
        | _ => None
        end
  end
with consumeElements (fuel : nat) (d : decoder) : option decoder :=
  match fuel with
  | O => None
  | S fuel =>
      if More d then
        match consumeJSONValue fuel d with
        | Some d => consumeElements fuel d
        | None => None
        end
      else
        match d with
        | Some TCloseArray :: d => Some d
        | _ => None
        end
  end.

Definition fuel_for (d : decoder) : nat := S (2 * length d).

(** [consumeJSONValue], then [decoder.Token()] must report the end of the input. *)
Definition hasNoDuplicateJSONKeys (d : decoder) : bool :=
  match consumeJSONValue (fuel_for d) d with Some [] => true | _ => false end.

(** The reference: no object of the tree has two members of the same name. *)
Fixpoint unique_keys (v : json) : Prop :=
  match v with
  | JArray l => foldr (λ v P, unique_keys v ∧ P) True l
  | JObject l => NoDup l.*1 ∧ foldr (λ m P, unique_keys m.2 ∧ P) True l
  | _ => True
  end.

Lemma unique_elements l : foldr (λ v P, unique_keys v ∧ P) True l ↔ Forall unique_keys l.
Proof. induction l; cbn; [by rewrite Forall_nil|]. by rewrite Forall_cons, IHl. Qed.
Lemma unique_members (l : list (string * json)) :
  foldr (λ m P, unique_keys m.2 ∧ P) True l ↔ Forall (λ m, unique_keys m.2) l.
Proof. induction l; cbn; [by rewrite Forall_nil|]. by rewrite Forall_cons, IHl. Qed.

(** More fuel never hurts. *)
Lemma consume_mono fuel :
  (∀ d d', consumeJSONValue fuel d = Some d' → ∀ fuel', fuel ≤ fuel' → consumeJSONValue fuel' d = Some d') ∧
  (∀ keys d d', consumeMembers fuel keys d = Some d' → ∀ fuel', fuel ≤ fuel' → consumeMembers fuel' keys d = Some d') ∧
  (∀ d d', consumeElements fuel d = Some d' → ∀ fuel', fuel ≤ fuel' → consumeElements fuel' d = Some d').
Proof.
  induction fuel as [|fuel (IH1 & IH2 & IH3)]; [done|]. split_and!.
  - intros d d' H [|fuel'] Hle; [lia|]. destruct d as [|[[]|] d]; cbn in *; try done; [apply IH2|apply IH3]; auto with lia.
  - intros keys d d' H [|fuel'] Hle; [lia|]. cbn in *. destruct (More d); [|done].
    destruct d as [|[[]|] d]; try done. case_decide; [done|].
    destruct (consumeJSONValue fuel d) as [d1|] eqn:E; [|done].
    rewrite (IH1 _ _ E fuel') by lia. by apply (IH2 _ _ _ H); lia.
  - intros d d' H [|fuel'] Hle; [lia|]. cbn in *. destruct (More d); [|done].
    destruct (consumeJSONValue fuel d) as [d1|] eqn:E; [|done].
    rewrite (IH1 _ _ E fuel') by lia. by apply (IH3 _ _ H); lia.
Qed.

Lemma tokens_start v rest : More (tokens_of v ++ rest) = true ∧ (0 < length (tokens_of v))%nat.
Proof. destruct v; cbn; lia. Qed.

Lemma elements_cons v l : elements (v :: l) = tokens_of v ++ elements l.
Proof. done. Qed.
Lemma members_cons m l : members (m :: l) = Some (TText m.1) :: tokens_of m.2 ++ members l.
Proof. done. Qed.

(** Trees without duplicate keys are consumed. *)
Definition consumed (v : json) : Prop :=
  unique_keys v → ∀ rest fuel, 2 * length (tokens_of v) ≤ fuel →
  consumeJSONValue fuel (tokens_of v ++ rest) = Some rest.

Lemma consume_elements l rest fuel :
  Forall consumed l → Forall unique_keys l → S (2 * length (elements l)) ≤ fuel →
  consumeElements fuel (elements l ++ Some TCloseArray :: rest) = Some rest.
Proof.
  intros Hc. revert fuel. induction l as [|v l IH]; intros fuel Hu Hf; (destruct fuel as [|fuel]; [lia|]); cbn; [done|].
  apply Forall_cons in Hc as [Hv Hc], Hu as [Hu Hus]. rewrite elements_cons, length_app in Hf.
  rewrite elements_cons, <- app_assoc. destruct (tokens_start v (elements l ++ Some TCloseArray :: rest)) as [-> Hlen].
  rewrite Hv by (done || lia). apply IH; [done|done|lia].
Qed.

Lemma consume_members l keys rest fuel :
  Forall (λ m, consumed m.2) l → Forall (λ m, unique_keys m.2) l → NoDup l.*1 → (∀ k, k ∈ l.*1 → k ∉ keys) →
  S (2 * length (members l)) ≤ fuel →
  consumeMembers fuel keys (members l ++ Some TCloseObject :: rest) = Some rest.
Proof.
  intros Hc. revert keys fuel. induction l as [|[k v] l IH]; intros keys fuel Hu Hnd Hk Hf;
    (destruct fuel as [|fuel]; [lia|]); [done|].
  apply Forall_cons in Hc as [Hv Hc], Hu as [Hu Hus]. cbn in Hv, Hu, Hnd, Hk. apply NoDup_cons in Hnd as [Hnot Hnd].
  rewrite members_cons in Hf |- *. cbn in Hf |- *. rewrite length_app in Hf.
  rewrite decide_False by (apply Hk; left). rewrite <- app_assoc, Hv by (done || lia).
  apply IH; [done|done|done| |lia]. intros k' Hk'. apply not_elem_of_cons. split; [by intros ->|]. apply Hk. by right.
Qed.

Lemma consume_tree v : consumed v.
Proof.
  induction v as [s|s|b| |l IH|l IH] using json_nested_ind; intros Hu rest fuel Hf.
  1-4: destruct fuel as [|fuel]; [cbn in Hf; lia|done].
  - destruct fuel as [|fuel]; [cbn in Hf; lia|]. cbn. fold (elements l). rewrite <- app_assoc. cbn in Hu, Hf.
    rewrite unique_elements in Hu. rewrite length_app in Hf. fold (elements l) in Hf. cbn in Hf. apply consume_elements; [done|done|lia].
  - destruct fuel as [|fuel]; [cbn in Hf; lia|]. cbn. fold (members l). rewrite <- app_assoc. cbn in Hu, Hf.
    destruct Hu as [Hnd Hu]. rewrite unique_members in Hu. rewrite length_app in Hf. fold (members l) in Hf. cbn in Hf.
    apply consume_members; [done|done|done|set_solver|lia].
Qed.

(** Whatever is consumed is a tree without duplicate keys. *)
Lemma consume_sound fuel :
  (∀ d d', consumeJSONValue fuel d = Some d' → ∃ v, d = tokens_of v ++ d' ∧ unique_keys v) ∧
  (∀ keys d d', consumeMembers fuel keys d = Some d' →
     ∃ l, d = members l ++ Some TCloseObject :: d' ∧ NoDup l.*1 ∧ (∀ k, k ∈ l.*1 → k ∉ keys) ∧
          Forall (λ m, unique_keys m.2) l) ∧
  (∀ d d', consumeElements fuel d = Some d' →
     ∃ l, d = elements l ++ Some TCloseArray :: d' ∧ Forall unique_keys l).
Proof.
  induction fuel as [|fuel (IH1 & IH2 & IH3)]; [done|]. split_and!.
  - intros d d' H. destruct d as [|[[]|] d]; cbn in H; try done.
    + apply IH2 in H as (l & -> & Hnd & _ & Hu). exists (JObject l). cbn. rewrite unique_members.
      fold (members l). by rewrite <- app_assoc.
    + apply IH3 in H as (l & -> & Hu). exists (JArray l). cbn. rewrite unique_elements.
      fold (elements l). by rewrite <- app_assoc.
    + injection H as <-. by exists (JText s).
    + injection H as <-. by exists (JNumber s).
    + injection H as <-. by exists (JBool b).
    + injection H as <-. by exists JNull.
  - intros keys d d' H. cbn in H. destruct (More d) eqn:Em.
    + destruct d as [|[[]|] d]; try done. case_decide as Hin; [done|].
      destruct (consumeJSONValue fuel d) as [d1|] eqn:E; [|done].
      apply IH1 in E as (v & -> & Hv). apply IH2 in H as (l & -> & Hnd & Hk & Hu).
      exists ((s, v) :: l). rewrite members_cons. cbn. rewrite <- app_assoc. split_and!; [done| | |by constructor].
      * apply NoDup_cons. split; [|done]. intros Hs. apply Hk in Hs. set_solver.
      * intros k [->|Hl]%elem_of_cons; [done|]. apply Hk in Hl. set_solver.
    + destruct d as [|[[]|] d]; try done. injection H as <-. exists []. cbn. split_and!; try done; [constructor|set_solver].
  - intros d d' H. cbn in H. destruct (More d) eqn:Em.
    + destruct (consumeJSONValue fuel d) as [d1|] eqn:E; [|done].
      apply IH1 in E as (v & -> & Hv). apply IH3 in H as (l & -> & Hu).
      exists (v :: l). rewrite elements_cons, <- app_assoc. split; [done|by constructor].
    + destruct d as [|[[]|] d]; try done. injection H as <-. by exists [].
Qed.

(** the duplicate-key check accepts exactly the right documents.
    The recursive-descent scan over the decoder's tokens accepts a token stream if
    and only if it is the whole of one JSON value in which no object, at any depth,
    has two members of the same name; in particular its loop always ends. *)
Theorem duplicate_keys_reference d :
  hasNoDuplicateJSONKeys d = true ↔ ∃ v, d = tokens_of v ∧ unique_keys v.
Proof.
  unfold hasNoDuplicateJSONKeys. split.
  - destruct (consumeJSONValue (fuel_for d) d) as [[|]|] eqn:E; try done. intros _.
    apply consume_sound in E as (v & -> & Hv). exists v. by rewrite app_nil_r.
  - intros (v & -> & Hv). rewrite <- (app_nil_r (tokens_of v)) at 2.
    by rewrite (consume_tree v Hv []) by (unfold fuel_for; lia).
Qed.

(** ** Depth and numbers *)

Definition maxAdmissionJSONDepth : Z := 64.
Definition maxAdmissionNumberBytes : nat := 128.
Definition maxSafeJSONInteger : Z := 9007199254740991.

Definition admission_error (name : string) : sentinel := SNamed "admission" name.
Definition ErrInvalidRequestDocument : sentinel := admission_error "ErrInvalidRequestDocument".
Definition bad_document {A} : result A := Err [ErrInvalidRequestDocument].

(** A finite float64 that JCS can print: an integer or not. *)
Inductive float_class := FInteger (z : Z) | FFraction.

(** [strings.IndexAny(encoded, "eE")], as what follows the exponent mark. *)
Fixpoint after_exponent (s : string) : option string :=
  match s with
  | EmptyString => None
  | String c s => if one_of "eE" c then Some s else after_exponent s
  end.

Definition trim_sign (sign s : string) : string := default s (cut_prefix sign s).

Section strict.
(** [strconv.ParseFloat] with [jcs.NumberToJSON]: [None] on an error, NaN or Inf. *)
Context (parse_float : string → option float_class).

Definition validateStrictJSONNumber (encoded : string) : result unit :=
  if decide (encoded = "" ∨ maxAdmissionNumberBytes < String.length encoded)%nat then bad_document else
  if match after_exponent encoded with
     | Some e =>
         let digits := trim_sign "-" (trim_sign "+" e) in
         bool_decide (String.length digits = 0 ∨ 4 < String.length digits)%nat
     | None => false
     end then bad_document else
  match parse_float encoded with
  | None => bad_document
  | Some FFraction => Ok ()
  | Some (FInteger z) => if decide (Z.abs z > maxSafeJSONInteger)%Z then bad_document else Ok ()
  end.

(** The loop of [validateStrictJSON]: [depth], [started], [complete]. *)
Fixpoint strict_loop (d : decoder) (depth : Z) (started complete : bool) : result unit :=
  match d with
  | [] =>
      if negb started || negb complete || negb (bool_decide (depth = 0%Z)) then bad_document else Ok ()
  | None :: _ => Err [ErrExternal "JSON syntax"]
  | Some token :: d =>
      if complete then bad_document else
      let scalar :=
        if decide (depth = 0%Z) then
          if started then bad_document else strict_loop d depth true true
        else strict_loop d depth started complete in
      match token with
      | TOpenObject | TOpenArray =>
          if decide (depth = 0%Z ∧ started = true) then bad_document else
          if decide (depth + 1 > maxAdmissionJSONDepth)%Z then bad_document else
          strict_loop d (depth + 1)%Z true complete
      | TCloseObject | TCloseArray =>
          if decide (depth = 0%Z) then bad_document else
          strict_loop d (depth - 1)%Z started (if decide (depth - 1 = 0)%Z then true else complete)
      | TNumber n => match validateStrictJSONNumber n with Ok _ => scalar | Err e => Err e end
      | TText _ | TBool _ | TNull => scalar
      end
  end.

Definition validateStrictJSON (d : decoder) : result unit := strict_loop d 0 false false.

(** The reference: nesting and numbers of a tree. *)
Fixpoint nesting (v : json) : Z :=
  match v with
  | JArray l => 1 + foldr (λ v n, Z.max (nesting v) n) 0 l
  | JObject l => 1 + foldr (λ m n, Z.max (nesting m.2) n) 0 l
  | _ => 0
  end%Z.

Fixpoint numbers_ok (v : json) : bool :=
  match v with
  | JNumber s => is_ok (validateStrictJSONNumber s)
  | JArray l => forallb numbers_ok l
  | JObject l => forallb (λ m, numbers_ok m.2) l
  | _ => true
  end.

Definition fits (depth : Z) (v : json) : bool := (depth + nesting v <=? maxAdmissionJSONDepth)%Z && numbers_ok v.

(** [m] goes on as [k] where [b] holds and fails where it does not. *)
Definition gated (b : bool) (m k : result unit) : Prop :=
  if b then m = k else is_ok m = false.

Lemma gated_trans b c m k1 k2 : gated b m k1 → gated c k1 k2 → gated (b && c) m k2.
Proof using Type. unfold gated. destruct b; cbn; [|done]. by intros ->. Qed.

(** Inside a document, at a positive depth, a value that fits is passed over. *)
Definition passes (v : json) : Prop :=
  ∀ depth rest, (0 < depth ≤ maxAdmissionJSONDepth)%Z →
    gated (fits depth v) (strict_loop (tokens_of v ++ rest) depth true false) (strict_loop rest depth true false).

Lemma nesting_nonneg v : (0 ≤ nesting v)%Z.
Proof using Type.
  destruct v as [| | | |l|l]; cbn; try lia;
    [assert (0 ≤ foldr (λ v n, Z.max (nesting v) n) 0 l)%Z|assert (0 ≤ foldr (λ m n, Z.max (nesting m.2) n) 0 l)%Z];
    try lia; induction l; cbn; lia.
Qed.

Lemma pass_elements l depth rest :
  Forall passes l → (0 < depth ≤ maxAdmissionJSONDepth)%Z →
  gated ((depth + foldr (λ v n, Z.max (nesting v) n) 0 l <=? maxAdmissionJSONDepth)%Z && forallb numbers_ok l)
    (strict_loop (elements l ++ rest) depth true false) (strict_loop rest depth true false).
Proof using Type.
  intros Hl Hd. induction l as [|v l IH]; cbn.
  - replace (depth + 0 <=? maxAdmissionJSONDepth)%Z with true by lia. done.
  - apply Forall_cons in Hl as [Hv Hl]. rewrite elements_cons, <- app_assoc.
    assert (Hb : (depth + Z.max (nesting v) (foldr (λ v n, Z.max (nesting v) n) 0 l) <=? maxAdmissionJSONDepth)%Z
                 && (numbers_ok v && forallb numbers_ok l)
               = fits depth v && ((depth + foldr (λ v n, Z.max (nesting v) n) 0 l <=? maxAdmissionJSONDepth)%Z
                                  && forallb numbers_ok l)).
    { unfold fits. destruct (numbers_ok v), (forallb numbers_ok l); rewrite ?andb_true_r, ?andb_false_r; lia. }
    rewrite Hb. eapply gated_trans; [apply Hv; lia|by apply IH].
Qed.

Lemma pass_members (l : list (string * json)) depth rest :
  Forall (λ m, passes m.2) l → (0 < depth ≤ maxAdmissionJSONDepth)%Z →
  gated ((depth + foldr (λ m n, Z.max (nesting m.2) n) 0 l <=? maxAdmissionJSONDepth)%Z && forallb (λ m, numbers_ok m.2) l)
    (strict_loop (members l ++ rest) depth true false) (strict_loop rest depth true false).
Proof using Type.
  intros Hl Hd. induction l as [|[k v] l IH]; cbn.
  - replace (depth + 0 <=? maxAdmissionJSONDepth)%Z with true by lia. done.
  - apply Forall_cons in Hl as [Hv Hl]. cbn in Hv. rewrite members_cons. cbn. rewrite <- app_assoc.
    rewrite decide_False by lia.
    assert (Hb : (depth + Z.max (nesting v) (foldr (λ m n, Z.max (nesting m.2) n) 0 l) <=? maxAdmissionJSONDepth)%Z
                 && (numbers_ok v && forallb (λ m, numbers_ok m.2) l)
               = fits depth v && ((depth + foldr (λ m n, Z.max (nesting m.2) n) 0 l <=? maxAdmissionJSONDepth)%Z
                                  && forallb (λ m, numbers_ok m.2) l)).
    { unfold fits. destruct (numbers_ok v), (forallb _ l); rewrite ?andb_true_r, ?andb_false_r; lia. }
    rewrite Hb. eapply gated_trans; [apply Hv; lia|by apply IH].
Qed.

Lemma foldr_max_nonneg {A} (f : A → Z) l : (0 ≤ foldr (λ v n, Z.max (f v) n) 0 l)%Z.
Proof using Type. induction l; cbn; lia. Qed.

(** A bracketed sequence that was passed over inside. *)
Lemma pass_bracket depth inner (b : bool) d close rest (complete_ : bool) :
  close = TCloseArray ∨ close = TCloseObject → (0 ≤ depth)%Z → (0 ≤ inner)%Z →
  complete_ = bool_decide (depth = 0%Z) →
  ((depth + 1 ≤ maxAdmissionJSONDepth)%Z →
     gated ((depth + 1 + inner <=? maxAdmissionJSONDepth)%Z && b)
       (strict_loop (d ++ Some close :: rest) (depth + 1) true false)
       (strict_loop (Some close :: rest) (depth + 1) true false)) →
  gated ((depth + (1 + inner) <=? maxAdmissionJSONDepth)%Z && b)
    (if decide (depth + 1 > maxAdmissionJSONDepth)%Z then bad_document
     else strict_loop (d ++ Some close :: rest) (depth + 1) true false)
    (strict_loop rest depth true complete_).
Proof using Type.
  intros Hcl Hd Hi -> Hin. rewrite Z.add_assoc. case_decide as Hdeep.
  { replace (depth + 1 + inner <=? maxAdmissionJSONDepth)%Z with false by lia. done. }
  specialize (Hin ltac:(lia)).
  assert (Heq : strict_loop (Some close :: rest) (depth + 1) true false = strict_loop rest depth true (bool_decide (depth = 0%Z))).
  { replace (strict_loop rest depth true (bool_decide (depth = 0%Z)))
      with (strict_loop rest (depth + 1 - 1) true (if decide (depth + 1 - 1 = 0)%Z then true else false)).
    - destruct Hcl as [-> | ->]; cbn; rewrite decide_False by lia; done.
    - replace (depth + 1 - 1)%Z with depth by lia. by case_decide; case_bool_decide. }
  by rewrite Heq in Hin.
Qed.

Lemma pass_tree v : passes v.
Proof using Type.
  induction v as [s|s|b| |l IH|l IH] using json_nested_ind; intros depth rest Hd; unfold fits;
    cbn [nesting numbers_ok tokens_of app strict_loop].
  1-4: replace (depth + 0 <=? maxAdmissionJSONDepth)%Z with true by lia; rewrite decide_False by lia; try done.
  - cbn. by destruct (validateStrictJSONNumber s).
  - rewrite decide_False by lia. fold (elements l). rewrite <- app_assoc.
    apply (pass_bracket _ _ _ (elements l) TCloseArray _ false); [auto|lia|apply (foldr_max_nonneg nesting)| |].
    + symmetry. apply bool_decide_eq_false. lia.
    + intros Hle. apply pass_elements; [done|lia].
  - rewrite decide_False by lia. fold (members l). rewrite <- app_assoc.
    apply (pass_bracket _ _ _ (members l) TCloseObject _ false);
      [auto|lia|apply (foldr_max_nonneg (λ m : string * json, nesting m.2))| |].
    + symmetry. apply bool_decide_eq_false. lia.
    + intros Hle. apply pass_members; [done|lia].
Qed.

Lemma gated_end b m : gated b m (Ok ()) → (m = Ok () ↔ b = true).
Proof using Type. unfold gated. destruct b; [by intros ->|]. destruct m; by cbn. Qed.

(** A value at the start of a document: it is passed over when it fits, and then
    nothing may follow. *)
Lemma strict_value v rest :
  gated (fits 0 v) (strict_loop (tokens_of v ++ rest) 0 false false) (strict_loop rest 0 true true).
Proof using Type.
  unfold fits. destruct v as [s|s|b| |l|l]; cbn [tokens_of app strict_loop nesting numbers_ok].
  1-4: cbn; try done.
  - by destruct (validateStrictJSONNumber s).
  - rewrite decide_False by (by intros [_ ?]). fold (elements l). rewrite <- app_assoc.
    apply (pass_bracket 0 _ _ (elements l) TCloseArray rest true); [auto|lia|apply (foldr_max_nonneg nesting)|done|].
    intros Hle. apply pass_elements; [|lia]. apply Forall_true. apply pass_tree.
  - rewrite decide_False by (by intros [_ ?]). fold (members l). rewrite <- app_assoc.
    apply (pass_bracket 0 _ _ (members l) TCloseObject rest true);
      [auto|lia|apply (foldr_max_nonneg (λ m : string * json, nesting m.2))|done|].
    intros Hle. apply pass_members; [|lia]. apply Forall_true. intros m. apply pass_tree.
Qed.

(** *** Streams that are not one value *)

(** What a [json.Decoder] delivers: the tokens of values one after the other, up to
    some token; there the input ends, also inside a value, or is not JSON. *)
Definition delivered (d : decoder) : Prop :=
  ∃ vs p rest, p ++ rest = elements vs ∧ (d = p ∨ ∃ more, d = p ++ None :: more).

(** How deep a stream ends. *)
Definition weight (t : option jtoken) : Z :=
  match t with
  | Some (TOpenObject | TOpenArray) => 1
  | Some (TCloseObject | TCloseArray) => -1
  | _ => 0
  end.
Definition level (d : decoder) : Z := foldr (λ t n, weight t + n)%Z 0%Z d.

Lemma level_cons t d : level (t :: d) = (weight t + level d)%Z.
Proof using Type. done. Qed.
Lemma level_app d d' : level (d ++ d') = (level d + level d')%Z.
Proof using Type. induction d as [|t d IH]; [done|]. cbn [app]. rewrite !level_cons. lia. Qed.

Lemma strict_next t d depth started complete :
  strict_loop (Some t :: d) depth started complete = Ok () →
  ∃ started' complete', strict_loop d (depth + weight (Some t)) started' complete' = Ok ().
Proof using Type.
  cbn [strict_loop]. destruct complete; [done|]. replace (depth + 0)%Z with depth by lia.
  assert (Hs : (if decide (depth = 0%Z) then if started then bad_document else strict_loop d depth true true
                else strict_loop d depth started false) = Ok () →
    ∃ started' complete', strict_loop d (depth + 0) started' complete' = Ok ()).
  { rewrite Z.add_0_r. case_decide; [destruct started; [done|]|]; eauto. }
  destruct t; cbn [weight]; try exact Hs.
  1,3: repeat case_decide; try done; eauto.
  1,2: case_decide; [done|]; rewrite <- Z.sub_opp_r, Z.opp_involutive || idtac; eauto.
  destruct (validateStrictJSONNumber s); [exact Hs|done].
Qed.

(** A syntax error is never passed over, and a stream is accepted only where all its
    values are closed. *)
Lemma strict_syntax p more depth started complete : strict_loop (p ++ None :: more) depth started complete ≠ Ok ().
Proof using Type.
  revert depth started complete. induction p as [|[t|] p IH]; intros depth started complete; cbn [app]; [done| |done].
  intros (? & ? & ?)%strict_next. by eapply IH.
Qed.

Lemma strict_level d depth started complete : strict_loop d depth started complete = Ok () → (depth + level d = 0)%Z.
Proof using Type.
  revert depth started complete. induction d as [|[t|] d IH]; intros depth started complete; [| |done].
  - cbn. destruct started, complete; try done. cbn. case_bool_decide; [|done]. cbn. lia.
  - intros (? & ? & H)%strict_next. apply IH in H. rewrite level_cons. lia.
Qed.

(** Inside a value the depth is positive. *)
Definition nested (v : json) : Prop :=
  level (tokens_of v) = 0%Z ∧
  ∀ p rest, p ++ rest = tokens_of v → (0 ≤ level p)%Z ∧ (p ≠ [] → rest ≠ [] → (0 < level p)%Z).

(** Sequences of parts that are nested. *)
Lemma level_parts (parts : list decoder) p rest :
  Forall (λ d, level d = 0%Z ∧ ∀ p rest, p ++ rest = d → (0 ≤ level p)%Z) parts →
  (level (concat parts) = 0%Z) ∧ (p ++ rest = concat parts → (0 ≤ level p)%Z).
Proof using Type.
  intros Hp. revert p rest. induction parts as [|d parts IH]; intros p rest; cbn.
  - split; [done|]. intros [-> _]%app_nil. cbn. lia.
  - apply Forall_cons in Hp as [[Hd Hpre] Hp]. rewrite level_app. destruct (IH Hp p rest) as [Hc _]. split; [lia|].
    intros Heq. apply app_eq_inv in Heq as [(k & -> & Hk)|(k & -> & Hk)].
    + rewrite level_app, Hd. destruct (IH Hp k rest) as [_ Hk']. specialize (Hk' (eq_sym Hk)). lia.
    + by apply (Hpre p k).
Qed.

Lemma nested_bracket open close parts :
  weight open = 1%Z → weight close = (-1)%Z →
  Forall (λ d, level d = 0%Z ∧ ∀ p rest, p ++ rest = d → (0 ≤ level p)%Z) parts →
  level (open :: concat parts ++ [close]) = 0%Z ∧
  ∀ p rest, p ++ rest = open :: concat parts ++ [close] → (0 ≤ level p)%Z ∧ (p ≠ [] → rest ≠ [] → (0 < level p)%Z).
Proof using Type.
  intros Ho Hc Hp. destruct (level_parts parts [] (concat parts) Hp) as [H0 _].
  assert (Hall : level (open :: concat parts ++ [close]) = 0%Z).
  { rewrite level_cons, level_app, H0, level_cons. cbn. lia. }
  split; [done|]. intros [|t p] rest Heq; [cbn; split; [lia|done]|]. cbn in Heq. injection Heq as -> Heq. rewrite level_cons.
  induction rest as [|u rest _] using rev_ind.
  - rewrite app_nil_r in Heq. subst p. rewrite level_cons in Hall. split; [lia|done].
  - rewrite app_assoc in Heq. apply app_inj_tail in Heq as [Heq _]. destruct (level_parts parts p rest Hp) as [_ Hl].
    specialize (Hl Heq). split; [lia|]. intros; lia.
Qed.

Lemma nested_tree v : nested v.
Proof using Type.
  assert (Hscalar : ∀ t, weight t = 0%Z → level [t] = 0%Z ∧
    ∀ p rest, p ++ rest = [t] → (0 ≤ level p)%Z ∧ (p ≠ [] → rest ≠ [] → (0 < level p)%Z)).
  { intros t Ht. split; [rewrite level_cons; cbn; lia|]. intros [|u [|]] rest Heq; cbn in Heq; simplify_eq.
    - cbn. split; [lia|done].
    - rewrite level_cons. cbn. split; [lia|]. done. }
  induction v as [s|s|b| |l IH|l IH] using json_nested_ind; [by apply Hscalar..| |]; cbn [tokens_of].
  - apply nested_bracket; [done|done|]. apply Forall_fmap. eapply Forall_impl; [exact IH|]. intros v [? Hv]. split; [done|].
    intros p rest Hp. by apply (Hv p rest).
  - apply nested_bracket; [done|done|]. apply Forall_fmap. eapply Forall_impl; [exact IH|]. intros [k v] [H0 Hv]. cbn [snd] in H0, Hv.
    change (level (Some (TText k) :: tokens_of v) = 0%Z ∧ ∀ p rest, p ++ rest = Some (TText k) :: tokens_of v → (0 ≤ level p)%Z).
    split; [by rewrite level_cons, H0|]. intros [|t p] rest Hp; [cbn; lia|]. cbn in Hp. injection Hp as -> Hp.
    rewrite level_cons. destruct (Hv p rest Hp). cbn [weight]. lia.
Qed.

(** C26 (equivalence): [validateStrictJSON] accepts exactly the documents that are one
    JSON value, nested at most 64 deep, with numbers that JSON implementations agree
    on.  Of everything a decoder may deliver (any number of values, an input that ends
    inside a value, a syntax error anywhere), its token loop, which tracks the depth
    and whether a value has started and ended, accepts a stream if and only if it is
    the tokens of one such value and nothing else. *)
Theorem strict_json_reference d :
  delivered d →
  validateStrictJSON d = Ok () ↔ ∃ v, d = tokens_of v ∧ (nesting v ≤ maxAdmissionJSONDepth)%Z ∧ numbers_ok v = true.
Proof using Type.
  assert (Hfit : ∀ v, fits 0 v = true ↔ (nesting v ≤ maxAdmissionJSONDepth)%Z ∧ numbers_ok v = true).
  { intros v. unfold fits. rewrite andb_true_iff, Z.leb_le. done. }
  intros (vs & p & rest & Hp & Hd). unfold validateStrictJSON. split.
  - destruct Hd as [->|(more & ->)]; [|intros H; by apply strict_syntax in H]. intros H.
    destruct vs as [|v vs]; [apply app_nil in Hp as [-> _]; done|]. rewrite elements_cons in Hp.
    apply app_eq_inv in Hp as [(k & -> & _)|(k & Hk & _)].
    + exists v. pose proof (strict_value v k) as Hv. rewrite <- Hfit. unfold gated in Hv. destruct (fits 0 v); [|by rewrite H in Hv].
      split; [|done]. rewrite H in Hv. destruct k as [|[t|] k]; [by rewrite app_nil_r|done..].
    + apply strict_level in H as Hl. destruct (nested_tree v) as [_ Hn]. destruct (Hn p k) as [_ Hpos]; [done|].
      destruct k as [|t k]; [|exfalso; destruct p; [done|]; specialize (Hpos ltac:(done) ltac:(done)); lia].
      rewrite app_nil_r in Hk. subst p. exists v. rewrite <- Hfit. split; [done|].
      pose proof (strict_value v []) as Hv. rewrite app_nil_r in Hv. unfold gated in Hv. destruct (fits 0 v); [done|by rewrite H in Hv].
  - intros (v & -> & Hv). apply Hfit in Hv. pose proof (strict_value v []) as H. rewrite app_nil_r, Hv in H. exact H.
Qed.
End strict.

(** A document followed by a second one, and one that ends too early. *)
Lemma strict_json_reference_witness :
  let parse := λ _ : string, Some FFraction in
  let v := JObject [("a", JArray [JNumber "1.5"; JNull])] in
  validateStrictJSON parse (tokens_of v) = Ok () ∧
  validateStrictJSON parse (tokens_of v ++ tokens_of v) ≠ Ok () ∧
  ¬ ∃ w, take 3 (tokens_of v) = tokens_of w ∧ (nesting w ≤ maxAdmissionJSONDepth)%Z ∧ numbers_ok parse w = true.
Proof.
  intros parse v. split; [|split].
  - apply (strict_json_reference parse (tokens_of v)).
    + exists [v], (tokens_of v), []. split; [reflexivity|by left].
    + exists v. split_and!; [reflexivity|vm_compute; discriminate|reflexivity].
  - vm_compute. discriminate.
  - intros H. apply (strict_json_reference parse (take 3 (tokens_of v))) in H; [vm_compute in H; discriminate H|].
    exists [v], (take 3 (tokens_of v)), (drop 3 (tokens_of v)). split; [reflexivity|by left].
Defined.
