(* ===== verification/AdmissionGuard.v ===== *)
(** * Provider admission: the mutation guard

    [provider/admission/file/guard.go]: the durable ledger of consumed bearer
    ids and fencing high-water marks.  [Reserve] runs under the mutex.  A write
    replaces the file by a rename; the new content is durable once the directory
    was synced.  The file is therefore two values, what is visible and what
    survives a power loss.  Which system call fails is a parameter ([OSFaults]);
    the JSON codec, with its checks of the shape of the document, and SHA-256 are
    parameters of the section. *)

From S2P Require Import Prelude FileStore.
From stdpp Require Import base gmap strings list fin_maps sorting.
From Stdlib Require Import Ascii ZArith Lia.

Local Open Scope Z_scope.

(** ** Data *)

Definition formatVersion : Z := 1.
Definition maxStateFileBytes : Z := Z.shiftl 4 20.
Definition maxGuardEntries : nat := 4096.
Definition maxScopeInputBytes : Z := Z.shiftl 16 10.
Definition maxTokenLifetime : Z := 300 * Second.

(** [mg_JTIFingerprint] is an array of 32 bytes. *)
Record MutationGuardRequest := mkGuardRequest {
  mg_ProviderRevisionID : string;
  mg_SandboxID : string;
  mg_OperationID : string;
  mg_AttemptID : string;
  mg_FencingToken : Z;
  mg_JTIFingerprint : string;
  mg_ExpiresAt : Time;
}.

Inductive MutationGuardDecision := MutationGuardAccepted | MutationGuardReplayed | MutationGuardStaleFencing.

Record fenceRecord := mkFence { fr_token : Z; fr_expiresAt : Time }.
#[export] Instance fenceRecord_eq_dec : EqDecision fenceRecord.
Proof. solve_decision. Defined.

Record replayEntry := mkReplayEntry { re_JTIFingerprint : string; re_ExpiresAt : Time }.
Record fenceEntry := mkFenceEntry { fe_ScopeFingerprint : string; fe_FencingToken : Z; fe_ExpiresAt : Time }.

(** A nil slice is [None]. *)
Record snapshot := mkSnapshot {
  sn_Version : Z;
  sn_Replays : option (list replayEntry);
  sn_Fences : option (list fenceEntry);
}.

(** [g_open]: the process holds the lock. *)
Record Guard := mkGuard {
  g_replays : gmap string Time;
  g_fences : gmap string fenceRecord;
  g_open : bool;
}.

Definition guard_error {A} (message : string) : result A := Err [ErrExternal message].

(** ** Validation *)

Definition zero_fingerprint : string := String.string_of_list_ascii (replicate 32 NUL).

(** The loop over the scope adds up the lengths. *)
Definition add_scope_bytes (total : Z) (value : string) : result Z :=
  if decide (utf8_count value = None ∨ blank value = true)
  then guard_error "provider admission guard request scope is invalid" else
  let total := total + Z.of_nat (String.length value) in
  if decide (total > maxScopeInputBytes)
  then guard_error "provider admission guard request scope exceeds its bound" else Ok total.

Definition validateRequest (r : MutationGuardRequest) (now : Time) : result unit :=
  if decide (IsZero now ∨ mg_FencingToken r < 1 ∨ mg_JTIFingerprint r = zero_fingerprint)
  then guard_error "provider admission guard request is invalid" else
  if decide (IsZero (mg_ExpiresAt r) ∨ ¬ After (mg_ExpiresAt r) now ∨ Sub (mg_ExpiresAt r) now > maxTokenLifetime)
  then guard_error "provider admission guard request expiry is invalid" else
  _ ← foldM add_scope_bytes 0 [mg_ProviderRevisionID r; mg_SandboxID r; mg_OperationID r; mg_AttemptID r];
  Ok ().

Definition validStoredExpiry (expiresAt now : Time) : bool :=
  bool_decide (¬ IsZero expiresAt ∧ ¬ After expiresAt (now + maxTokenLifetime)).

Definition validFingerprint (value : string) : bool :=
  bool_decide (String.length value = 64%nat) && all_bytes is_lower_hex value.

(** ** Expiry *)

Definition alive_replays (now : Time) (replays : gmap string Time) : gmap string Time :=
  filter (λ p, After p.2 now) replays.
Definition alive_fences (now : Time) (fences : gmap string fenceRecord) : gmap string fenceRecord :=
  filter (λ p, After (fr_expiresAt p.2) now) fences.

(** The maps without what has expired, and whether anything had. *)
Definition pruneExpired (now : Time) (replays : gmap string Time) (fences : gmap string fenceRecord)
    : gmap string Time * gmap string fenceRecord * bool :=
  (alive_replays now replays, alive_fences now fences,
   negb (bool_decide (map_Forall (λ _ e, After e now) replays))
   || negb (bool_decide (map_Forall (λ _ f, After (fr_expiresAt f) now) fences))).

Section guard.
Context (sha256 : string → string).
Context {bytes : Type} (encode : snapshot → option bytes) (file_size : bytes → Z) (decode : bytes → option snapshot).

(** [binary.BigEndian.PutUint32] *)
Definition uint32_bytes (n : N) : string :=
  String.string_of_list_ascii [ascii_of_N (n / 2^24 mod 256); ascii_of_N (n / 2^16 mod 256);
                        ascii_of_N (n / 2^8 mod 256); ascii_of_N (n mod 256)]%N.

Definition prefixed (value : string) : string := uint32_bytes (N.of_nat (String.length value)) +:+ value.

Definition scopeFingerprint (r : MutationGuardRequest) : string :=
  hex_encode (sha256 ("sandbox-runtime/provider-admission-guard-scope/v1" +:+ prefixed (mg_ProviderRevisionID r)
                      +:+ prefixed (mg_SandboxID r) +:+ prefixed (mg_OperationID r))).

(** ** The file *)

(** [st_durable] is what a power loss leaves. *)
Record Store := mkStore { st_visible : option bytes; st_durable : option bytes }.

Definition replay_entries (replays : gmap string Time) : list replayEntry :=
  sort_by re_JTIFingerprint ((λ p, mkReplayEntry p.1 p.2) <$> map_to_list replays).
Definition fence_entries (fences : gmap string fenceRecord) : list fenceEntry :=
  sort_by fe_ScopeFingerprint ((λ p, mkFenceEntry p.1 (fr_token p.2) (fr_expiresAt p.2)) <$> map_to_list fences).

Definition makeSnapshot (replays : gmap string Time) (fences : gmap string fenceRecord) : snapshot :=
  mkSnapshot formatVersion (Some (replay_entries replays)) (Some (fence_entries fences)).

Definition guard_failed (store : Store) (message : string) : bool * option goerr * Store :=
  (false, Some [ErrExternal message], store).

(** Whether the file was replaced, and an error. *)
Definition persist (os : OSFaults) (replays : gmap string Time) (fences : gmap string fenceRecord) (store : Store)
    : bool * option goerr * Store :=
  match os_ctx_persist os with
  | Some c => (false, Some [c : sentinel], store)
  | None =>
  if os_mkdir os then guard_failed store "create provider admission guard directory" else
  if os_createTemp os then guard_failed store "create provider admission guard temporary file" else
  if os_chmod os then guard_failed store "secure provider admission guard temporary file" else
  match (if os_encode os then None else encode (makeSnapshot replays fences)) with
  | None => guard_failed store "encode provider admission guard"
  | Some b =>
  if os_stat os then guard_failed store "stat provider admission guard temporary file" else
  if decide (file_size b > maxStateFileBytes) then guard_failed store "provider admission guard exceeds its bound" else
  if os_sync os then guard_failed store "sync provider admission guard" else
  if os_close os then guard_failed store "close provider admission guard" else
  match os_ctx_rename os with
  | Some c => (false, Some [c : sentinel], store)
  | None =>
  if os_rename os then guard_failed store "replace provider admission guard" else
  let renamed := mkStore (Some b) (st_durable store) in
  if os_openDir os then (true, Some [ErrExternal "open provider admission guard directory"], renamed) else
  if os_syncDir os then (true, Some [ErrExternal "sync provider admission guard directory"], renamed) else
  let synced := mkStore (Some b) (Some b) in
  if os_closeDir os then (true, Some [ErrExternal "sync provider admission guard directory"], synced) else
  (true, None, synced)
  end end end.

(** [if committed { g.replays = replays; g.fences = fences }] *)
Definition commit (committed : bool) (replays : gmap string Time) (fences : gmap string fenceRecord) (g : Guard) : Guard :=
  if committed then mkGuard replays fences (g_open g) else g.

(** [persistRejected] and [persistUnavailable]: the answer after a prune was stored. *)
Definition persist_pruned (os : OSFaults) (replays : gmap string Time) (fences : gmap string fenceRecord)
    (changed : bool) (answer : result MutationGuardDecision) (g : Guard) (store : Store)
    : result MutationGuardDecision * Guard * Store :=
  if negb changed then (answer, g, store) else
  let '(committed, err, store') := persist os replays fences store in
  (match err with Some e => Err e | None => answer end, commit committed replays fences g, store').

Definition persistRejected (os : OSFaults) replays fences changed (decision : MutationGuardDecision) (g : Guard) (store : Store) :=
  persist_pruned os replays fences changed (Ok decision) g store.
Definition persistUnavailable (os : OSFaults) replays fences changed (message : string) (g : Guard) (store : Store) :=
  persist_pruned os replays fences changed (guard_error message) g store.

(** The high-water mark of a scope after an accepted request. *)
Definition advance_fence (r : MutationGuardRequest) (previous : option fenceRecord) : fenceRecord :=
  let previous_ := default (mkFence 0 0) previous in
  mkFence
    (if decide (previous = None ∨ mg_FencingToken r > fr_token previous_) then mg_FencingToken r else fr_token previous_)
    (if decide (After (mg_ExpiresAt r) (fr_expiresAt previous_)) then mg_ExpiresAt r else fr_expiresAt previous_).

(** [os_ctx_locked] is the error of the context once the mutex is held. *)
Definition Reserve (os : OSFaults) (now : Time) (r : MutationGuardRequest) (g : Guard) (store : Store)
    : result MutationGuardDecision * Guard * Store :=
  if negb (g_open g) then (guard_error "provider admission guard is closed", g, store) else
  match os_ctx_locked os with
  | Some c => (Err [c : sentinel], g, store)
  | None =>
  match validateRequest r now with
  | Err e => (Err e, g, store)
  | Ok _ =>
  let '(replays, fences, changed) := pruneExpired now (g_replays g) (g_fences g) in
  let jti := hex_encode (mg_JTIFingerprint r) in
  if decide (is_Some (replays !! jti))
  then persistRejected os replays fences changed MutationGuardReplayed g store else
  let scope := scopeFingerprint r in
  if match fences !! scope with Some previous => bool_decide (mg_FencingToken r < fr_token previous) | None => false end
  then persistRejected os replays fences changed MutationGuardStaleFencing g store else
  if decide (maxGuardEntries <= size replays)%nat
  then persistUnavailable os replays fences changed "provider admission guard replay capacity is exhausted" g store else
  if decide (fences !! scope = None ∧ (maxGuardEntries <= size fences)%nat)
  then persistUnavailable os replays fences changed "provider admission guard fencing capacity is exhausted" g store else
  let replays := <[jti := mg_ExpiresAt r]> replays in
  let fences := <[scope := advance_fence r (fences !! scope)]> fences in
  let '(committed, err, store') := persist os replays fences store in
  (match err with Some e => Err e | None => Ok MutationGuardAccepted end, commit committed replays fences g, store')
  end end.

(** ** Opening *)

Definition check_replay (now : Time) (e : replayEntry) : result unit :=
  if validFingerprint (re_JTIFingerprint e) && validStoredExpiry (re_ExpiresAt e) now then Ok ()
  else guard_error "provider admission guard has an invalid replay entry".
Definition check_fence (now : Time) (e : fenceEntry) : result unit :=
  if validFingerprint (fe_ScopeFingerprint e) && negb (bool_decide (fe_FencingToken e < 1)) && validStoredExpiry (fe_ExpiresAt e) now
  then Ok () else guard_error "provider admission guard has an invalid fencing entry".

(** The entries of a decoded snapshot. *)
Definition load_snapshot (now : Time) (stored : snapshot) : result (gmap string Time * gmap string fenceRecord) :=
  match sn_Replays stored, sn_Fences stored with
  | Some replays, Some fences =>
      if decide (sn_Version stored ≠ formatVersion) then guard_error "unsupported version or collection" else
      if decide ((maxGuardEntries < length replays)%nat ∨ (maxGuardEntries < length fences)%nat)
      then guard_error "provider admission guard state exceeds entry capacity" else
      if decide (IsZero now) then guard_error "provider admission guard clock is indeterminate" else
      replays ← foldM (load_one [ErrExternal "provider admission guard has a duplicate replay entry"]
                         re_JTIFingerprint re_ExpiresAt (check_replay now)) ∅ replays;
      fences ← foldM (load_one [ErrExternal "provider admission guard has a duplicate fencing entry"]
                        fe_ScopeFingerprint (λ e, mkFence (fe_FencingToken e) (fe_ExpiresAt e)) (check_fence now)) ∅ fences;
      Ok (replays, fences)
  | _, _ => guard_error "unsupported version or collection"
  end.

Definition load (faults : OpenFaults) (now : Time) (file : option bytes)
    : result (gmap string Time * gmap string fenceRecord) :=
  match file with
  | None => Ok (∅, ∅)
  | Some b =>
      if of_open faults then guard_error "open provider admission guard" else
      if of_stat faults then guard_error "stat provider admission guard" else
      if of_irregular faults then guard_error "provider admission guard state file must be a regular 0600 file" else
      if decide (file_size b > maxStateFileBytes) then guard_error "provider admission guard exceeds its bound" else
      match decode b with
      | None => guard_error "decode provider admission guard"
      | Some stored => load_snapshot now stored
      end
  end.

(** The clock is read three times. *)
Definition NewGuard (path : string) (faults : OpenFaults) (os : OSFaults) (now0 now1 now2 : Time) (store : Store)
    : result Guard * Store :=
  if decide (blank path = true) then (guard_error "provider admission guard path is required", store) else
  if decide (IsZero now0) then (guard_error "provider admission guard requires a determinate clock", store) else
  if of_lock faults then (guard_error "lock provider admission guard", store) else
  match load faults now1 (st_visible store) with
  | Err e => (Err e, store)
  | Ok (replays, fences) =>
      let '(replays, fences, changed) := pruneExpired now2 replays fences in
      let guard := mkGuard replays fences true in
      if negb changed then (Ok guard, store) else
      let '(_, err, store') := persist os replays fences store in
      (match err with Some e => Err e | None => Ok guard end, store')
  end.

Definition guard_Close (g : Guard) : Guard := mkGuard (g_replays g) (g_fences g) false.

(** ** Histories

    One process at a time holds the guard; processes crash or close it, the
    machine may lose what was not synced, and a new process opens the file unless
    the lock is held.  The clock never goes back and a fingerprint has the 32 bytes
    of its type.  The log has the accepted reservations, newest first. *)

Record accepted := mkAccepted {
  ac_jti : string;
  ac_scope : string;
  ac_token : Z;
  ac_expires : Time;
  ac_at : Time;
}.

Record world := mkWorld {
  w_guard : option Guard;
  w_store : Store;
  w_now : Time;
  w_log : list accepted;
}.

Inductive guard_event :=
  | EvReserve (os : OSFaults) (now : Time) (r : MutationGuardRequest)
  | EvOpen (path : string) (faults : OpenFaults) (os : OSFaults) (now0 now1 now2 : Time)
  | EvClose
  | EvCrash (power_loss : bool).

Definition accept (now : Time) (r : MutationGuardRequest) : accepted :=
  mkAccepted (hex_encode (mg_JTIFingerprint r)) (scopeFingerprint r) (mg_FencingToken r) (mg_ExpiresAt r) now.

Definition log_answer (now : Time) (r : MutationGuardRequest) (answer : result MutationGuardDecision) (log : list accepted)
    : list accepted :=
  match answer with Ok MutationGuardAccepted => accept now r :: log | _ => log end.

Definition guard_step (w : world) (ev : guard_event) : world :=
  match ev with
  | EvReserve os now r =>
      match w_guard w with
      | None => mkWorld None (w_store w) now (w_log w)
      | Some g =>
          let '(answer, g', store') := Reserve os now r g (w_store w) in
          mkWorld (Some g') store' now (log_answer now r answer (w_log w))
      end
  | EvOpen path faults os now0 now1 now2 =>
      if match w_guard w with Some g => g_open g | None => false end
      then mkWorld (w_guard w) (w_store w) now2 (w_log w) else
      let '(opened, store') := NewGuard path faults os now0 now1 now2 (w_store w) in
      mkWorld (match opened with Ok g => Some g | Err _ => None end) store' now2 (w_log w)
  | EvClose => mkWorld (guard_Close <$> w_guard w) (w_store w) (w_now w) (w_log w)
  | EvCrash power_loss =>
      mkWorld None
        (if power_loss then mkStore (st_durable (w_store w)) (st_durable (w_store w)) else w_store w)
        (w_now w) (w_log w)
  end.

Definition event_times (ev : guard_event) (now : Time) : Prop :=
  match ev with
  | EvReserve _ t r => now ≤ t ∧ String.length (mg_JTIFingerprint r) = 32%nat
  | EvOpen _ _ _ t0 t1 t2 => now ≤ t0 ∧ t0 ≤ t1 ∧ t1 ≤ t2
  | _ => True
  end.

Definition event_clock (ev : guard_event) (now : Time) : Time :=
  match ev with EvReserve _ t _ => t | EvOpen _ _ _ _ _ t => t | _ => now end.

Definition guard_run : list guard_event → world → world := flip (foldl guard_step).

Fixpoint timely (evs : list guard_event) (now : Time) : Prop :=
  match evs with
  | [] => True
  | ev :: evs =>
      event_times ev now ∧
      timely evs (event_clock ev now)
  end.

Definition first_world (now : Time) : world := mkWorld None (mkStore None None) now [].

(** ** The invariant *)

Context (sha256_length : ∀ s, String.length (sha256 s) = 32%nat).
Context (json_roundtrip : ∀ s b, encode s = Some b → decode b = Some s).

(** The reservations that have not expired are in the maps. *)
Definition covers (now : Time) (log : list accepted) (replays : gmap string Time) (fences : gmap string fenceRecord) : Prop :=
  ∀ a, a ∈ log → now < ac_expires a →
    (∃ e : Time, replays !! ac_jti a = Some e ∧ ac_expires a ≤ e) ∧
    (∃ f, fences !! ac_scope a = Some f ∧ ac_token a ≤ fr_token f ∧ ac_expires a ≤ fr_expiresAt f).

(** What [load] checks of every entry. *)
Definition well_formed (now : Time) (replays : gmap string Time) (fences : gmap string fenceRecord) : Prop :=
  (size replays <= maxGuardEntries)%nat ∧ (size fences <= maxGuardEntries)%nat ∧
  map_Forall (λ k e, validFingerprint k = true ∧ validStoredExpiry e now = true) replays ∧
  map_Forall (λ k f, validFingerprint k = true ∧ 1 ≤ fr_token f ∧ validStoredExpiry (fr_expiresAt f) now = true) fences.

Definition sound (now : Time) (log : list accepted) (replays : gmap string Time) (fences : gmap string fenceRecord) : Prop :=
  well_formed now replays fences ∧ covers now log replays fences.

Definition sound_file (now : Time) (log : list accepted) (file : option bytes) : Prop :=
  match file with
  | None => covers now log ∅ ∅
  | Some b => ∃ replays fences, encode (makeSnapshot replays fences) = Some b ∧ file_size b ≤ maxStateFileBytes ∧
                sound now log replays fences
  end.

(** An acceptance against the ones before it. *)
Definition later_than (b a : accepted) : Prop :=
  ac_at a ≤ ac_at b < ac_expires b ∧
  (ac_jti b = ac_jti a → ac_expires a ≤ ac_at b) ∧
  (ac_scope b = ac_scope a → ac_at b < ac_expires a → ac_token a ≤ ac_token b).

Definition sound_world (w : world) : Prop :=
  0 ≤ w_now w ∧
  (∀ g, w_guard w = Some g → sound (w_now w) (w_log w) (g_replays g) (g_fences g)) ∧
  sound_file (w_now w) (w_log w) (st_visible (w_store w)) ∧
  sound_file (w_now w) (w_log w) (st_durable (w_store w)) ∧
  (∀ a, a ∈ w_log w → ac_at a ≤ w_now w ∧ ac_at a < ac_expires a) ∧
  (∀ l1 b l2 a, w_log w = l1 ++ b :: l2 → a ∈ l2 → later_than b a).

(** *** Time passes *)

Lemma validStoredExpiry_later e now now' :
  now ≤ now' → validStoredExpiry e now = true → validStoredExpiry e now' = true.
Proof using. unfold validStoredExpiry, After. rewrite !bool_decide_eq_true. intros ? [? ?]. split; [done|lia]. Qed.

Lemma sound_later now now' log replays fences :
  now ≤ now' → sound now log replays fences → sound now' log replays fences.
Proof using.
  intros Hle ((? & ? & Hr & Hf) & Hc). split; [split_and!; try done|].
  - intros k e [? ?]%Hr. split; [done|]. by eapply validStoredExpiry_later.
  - intros k f (? & ? & ?)%Hf. split_and!; [done..|]. by eapply validStoredExpiry_later.
  - intros a Ha Hexp. apply Hc; [done|lia].
Qed.

Lemma sound_file_later now now' log file : now ≤ now' → sound_file now log file → sound_file now' log file.
Proof using.
  intros Hle. destruct file as [b|]; cbn.
  - intros (r & f & ? & ? & ?). exists r, f. eauto using sound_later.
  - intros Hc a Ha Hexp. apply Hc; [done|lia].
Qed.

(** *** Pruning *)

Lemma sound_prune now log replays fences :
  sound now log replays fences → sound now log (alive_replays now replays) (alive_fences now fences).
Proof using.
  intros ((? & ? & Hr & Hf) & Hc). unfold alive_replays, alive_fences. split; [split_and!|].
  - etrans; [apply map_size_filter|done].
  - etrans; [apply map_size_filter|done].
  - intros k e [He _]%map_lookup_filter_Some. by apply Hr.
  - intros k f [He _]%map_lookup_filter_Some. by apply Hf.
  - intros a Ha Hexp. destruct (Hc a Ha Hexp) as [(e & He & ?) (f & Hfe & ? & ?)]. split.
    + exists e. rewrite map_lookup_filter_Some. unfold After. cbn. split; [split; [done|lia]|lia].
    + exists f. rewrite map_lookup_filter_Some. unfold After. cbn. split_and!; [done|lia..].
Qed.

(** *** Writing and loading *)

(** A write leaves a sound file, durable when no error is reported, and is
    visible when it says so. *)
Lemma persist_sound os now log replays fences store committed err store' :
  sound now log replays fences →
  sound_file now log (st_visible store) → sound_file now log (st_durable store) →
  persist os replays fences store = (committed, err, store') →
  sound_file now log (st_visible store') ∧ sound_file now log (st_durable store') ∧
  (err = None → committed = true ∧ st_visible store' = st_durable store' ∧
    ∃ b, st_durable store' = Some b ∧ encode (makeSnapshot replays fences) = Some b ∧ file_size b ≤ maxStateFileBytes).
Proof using.
  intros Hs Hv Hd H. unfold persist, guard_failed in H.
  repeat (case_match || case_decide; simplify_eq; try done);
    match goal with E : encode _ = Some ?b |- _ =>
      assert (sound_file now log (Some b)) by (exists replays, fences; split_and!; [done|lia|done..]) end;
    split_and!; try done.
  intros _. split_and!; [done..|]. eexists. split_and!; [done..|lia].
Qed.

Lemma replay_entries_load now replays :
  map_Forall (λ k e, validFingerprint k = true ∧ validStoredExpiry e now = true) replays →
  foldM (load_one [ErrExternal "provider admission guard has a duplicate replay entry"]
           re_JTIFingerprint re_ExpiresAt (check_replay now)) ∅ (replay_entries replays) = Ok replays.
Proof using.
  intros Hm. apply load_of_map.
  - apply Forall_forall. intros x. unfold replay_entries. rewrite sort_by_perm.
    intros ([k e] & -> & Hk)%list_elem_of_fmap. apply elem_of_map_to_list, Hm in Hk as [Hk He].
    unfold check_replay. cbn. by rewrite Hk, He.
  - unfold replay_entries. rewrite sort_by_perm, <- list_fmap_compose.
    erewrite list_fmap_ext; [by rewrite list_fmap_id|]. by intros i [k e] _.
Qed.

Lemma fence_entries_load now fences :
  map_Forall (λ k f, validFingerprint k = true ∧ 1 ≤ fr_token f ∧ validStoredExpiry (fr_expiresAt f) now = true) fences →
  foldM (load_one [ErrExternal "provider admission guard has a duplicate fencing entry"]
           fe_ScopeFingerprint (λ e, mkFence (fe_FencingToken e) (fe_ExpiresAt e)) (check_fence now)) ∅
    (fence_entries fences) = Ok fences.
Proof using.
  intros Hm. apply load_of_map.
  - apply Forall_forall. intros x. unfold fence_entries. rewrite sort_by_perm.
    intros ([k f] & -> & Hk)%list_elem_of_fmap. apply elem_of_map_to_list, Hm in Hk as (Hk & Ht & He).
    unfold check_fence. cbn in *. rewrite Hk, He, bool_decide_false by lia. done.
  - unfold fence_entries. rewrite sort_by_perm, <- list_fmap_compose.
    erewrite list_fmap_ext; [by rewrite list_fmap_id|]. by intros i [k [t e]] _.
Qed.

(** The file of a guard loads as the maps it was made of. *)
Lemma load_snapshot_made now replays fences :
  ¬ IsZero now → well_formed now replays fences →
  load_snapshot now (makeSnapshot replays fences) = Ok (replays, fences).
Proof using.
  intros Hnow (Hr & Hf & Hmr & Hmf). unfold load_snapshot, makeSnapshot. cbn [sn_Replays sn_Fences sn_Version].
  rewrite decide_False by (by intros []).
  rewrite decide_False.
  2: { unfold replay_entries, fence_entries. rewrite !sort_by_perm, !length_fmap, !length_map_to_list. lia. }
  rewrite decide_False by done.
  rewrite (replay_entries_load now) by done. cbn [mbind result_bind].
  by rewrite (fence_entries_load now).
Qed.

(** *** Reserving *)

Lemma fingerprint_of s : String.length s = 32%nat → validFingerprint (hex_encode s) = true.
Proof using.
  intros [Hl Ha]%hex_encode_valid. unfold validFingerprint. by rewrite Ha, bool_decide_true.
Qed.

Lemma validateRequest_Ok r now :
  validateRequest r now = Ok () →
  1 ≤ mg_FencingToken r ∧ now < mg_ExpiresAt r ∧ validStoredExpiry (mg_ExpiresAt r) now = true.
Proof using.
  unfold validateRequest. intros H. case_decide as H1; [done|]. case_decide as H2; [done|].
  unfold validStoredExpiry. rewrite bool_decide_eq_true. unfold After, Sub, maxTokenLifetime, Second in *.
  destruct (decide (IsZero (mg_ExpiresAt r))); [tauto|]. split_and!; [lia|lia|done|lia].
Qed.

(** What the accepted request leaves in the maps covers it, and what was covered. *)
Lemma sound_accept now log r replays fences :
  0 ≤ now → sound now log replays fences → validateRequest r now = Ok () → String.length (mg_JTIFingerprint r) = 32%nat →
  replays !! hex_encode (mg_JTIFingerprint r) = None →
  (size replays < maxGuardEntries)%nat → ¬ (fences !! scopeFingerprint r = None ∧ (maxGuardEntries <= size fences)%nat) →
  sound now (accept now r :: log) (<[hex_encode (mg_JTIFingerprint r) := mg_ExpiresAt r]> replays)
    (<[scopeFingerprint r := advance_fence r (fences !! scopeFingerprint r)]> fences).
Proof using sha256_length.
  intros Hnow ((Hsr & Hsf & Hr & Hf) & Hc) (Ht & Hexp & Hvalid)%validateRequest_Ok Hlen Hfresh Hcap Hcapf.
  pose proof (fingerprint_of _ Hlen) as Hjti.
  assert (Hscope : validFingerprint (scopeFingerprint r) = true) by apply fingerprint_of, sha256_length.
  set (prev := fences !! scopeFingerprint r) in *. split; [split_and!|].
  - rewrite map_size_insert, Hfresh. lia.
  - rewrite map_size_insert. fold prev. destruct prev; [done|]. destruct (decide (maxGuardEntries <= size fences)%nat); [tauto|lia].
  - by apply map_Forall_insert_2.
  - apply map_Forall_insert_2; [|done]. split; [done|]. unfold advance_fence.
    destruct prev as [f|] eqn:Ef; cbn.
    + apply Hf in Ef as (_ & ? & ?). split; repeat case_decide; done || lia.
    + unfold After. split; repeat case_decide; try (lia || tauto || done).
  - intros a [->|Ha]%elem_of_cons Hlive; cbn.
    + rewrite !lookup_insert_eq. split; [eexists; split; [done|lia]|]. eexists. split; [done|].
      unfold advance_fence, After. cbn. repeat case_decide; split; tauto || lia.
    + destruct (Hc a Ha Hlive) as [(e & He & ?) (f & Hfe & ? & ?)]. split.
      * exists e. rewrite lookup_insert_ne; [done|]. intros Heq. rewrite Heq, He in Hfresh. done.
      * destruct (decide (scopeFingerprint r = ac_scope a)) as [Heq|Hne].
        -- rewrite Heq, lookup_insert_eq. eexists. split; [done|]. unfold prev. rewrite Heq, Hfe.
           unfold advance_fence, After. cbn. repeat case_decide; destruct_or?; simplify_eq; lia.
        -- exists f. by rewrite lookup_insert_ne.
Qed.


Lemma sound_forget now a log replays fences :
  sound now (a :: log) replays fences → sound now log replays fences.
Proof using. intros [Hw Hc]. split; [done|]. intros b Hb. apply Hc. by right. Qed.

(** The memory and both files. *)
Definition sound_all (now : Time) (log : list accepted) (g : Guard) (store : Store) : Prop :=
  sound now log (g_replays g) (g_fences g) ∧
  sound_file now log (st_visible store) ∧ sound_file now log (st_durable store).

(** Storing the pruned maps keeps everything sound and accepts nothing. *)
Lemma persist_pruned_sound os now log replays fences changed answer g store answer' g' store' :
  sound now log replays fences → sound_all now log g store → answer ≠ Ok MutationGuardAccepted →
  persist_pruned os replays fences changed answer g store = (answer', g', store') →
  sound_all now log g' store' ∧ answer' ≠ Ok MutationGuardAccepted.
Proof using.
  intros Hp (Hs & Hv & Hd) Hans. unfold persist_pruned. destruct changed; cbn [negb]; [|by intros [= <- <- <-]].
  destruct (persist os replays fences store) as [[c e] st] eqn:Ep. intros [= <- <- <-].
  destruct (persist_sound _ _ _ _ _ _ _ _ _ Hp Hv Hd Ep) as (? & ? & _).
  split; [|by destruct e]. split_and!; [by destruct c|done..].
Qed.

(** Storing the maps with the new reservation. *)
Lemma persist_accept_sound os now log r replays fences g store c e store' :
  sound now (accept now r :: log) replays fences → sound_all now log g store →
  persist os replays fences store = (c, e, store') →
  let answer := match e with Some e => Err e | None => Ok MutationGuardAccepted end in
  sound_all now (log_answer now r answer log) (commit c replays fences g) store'.
Proof using.
  intros Hn (Hs & Hv & Hd) Ep.
  destruct (persist_sound _ _ _ _ _ _ _ _ _ (sound_forget _ _ _ _ _ Hn) Hv Hd Ep) as (Hv' & Hd' & Hok).
  destruct e as [e|]; cbn.
  - split_and!; [|done..]. destruct c; [by eapply sound_forget|done].
  - destruct (Hok eq_refl) as (-> & Heq & b & Hb & Henc & Hsz).
    assert (sound_file now (accept now r :: log) (Some b)) by (exists replays, fences; done).
    split_and!; [done|by rewrite Heq, Hb|by rewrite Hb].
Qed.

(** The outcomes of a reservation: nothing was logged and everything stays sound,
    or it was accepted, no live reservation had its id or a greater token, and the
    new one is covered everywhere. *)
Lemma Reserve_sound os now r g store log answer g' store' :
  0 ≤ now → String.length (mg_JTIFingerprint r) = 32%nat → sound_all now log g store →
  Reserve os now r g store = (answer, g', store') →
  sound_all now (log_answer now r answer log) g' store' ∧
  (answer = Ok MutationGuardAccepted →
    now < mg_ExpiresAt r ∧ ∀ a, a ∈ log → now < ac_expires a →
      hex_encode (mg_JTIFingerprint r) ≠ ac_jti a ∧ (scopeFingerprint r = ac_scope a → ac_token a ≤ mg_FencingToken r)).
Proof using sha256_length.
  intros Hnow Hlen Hall H. unfold Reserve in H.
  destruct (g_open g); cbn [negb] in H; [|by simplify_eq].
  destruct (os_ctx_locked os); [by simplify_eq|].
  destruct (validateRequest r now) as [[]|] eqn:Hval; [|by simplify_eq].
  pose proof (sound_prune _ _ _ _ (proj1 Hall)) as Hp. cbn [pruneExpired] in H.
  set (replays := alive_replays now (g_replays g)) in *. set (fences := alive_fences now (g_fences g)) in *.
  set (changed := (_ || _)) in H. clearbody changed replays fences.
  assert (Hrej : ∀ ans, ans ≠ Ok MutationGuardAccepted →
    persist_pruned os replays fences changed ans g store = (answer, g', store') →
    sound_all now (log_answer now r answer log) g' store' ∧ answer ≠ Ok MutationGuardAccepted).
  { intros ans Hans Hq. destruct (persist_pruned_sound _ _ _ _ _ _ _ _ _ _ _ _ Hp Hall Hans Hq) as [? ?].
    split; [|done]. by destruct answer as [[]|]. }
  case_decide as Hjti; [apply Hrej in H; [naive_solver|done]|].
  destruct (match _ with Some previous => _ | None => false end) eqn:Hstale; [apply Hrej in H; [naive_solver|done]|].
  case_decide; [apply Hrej in H; [naive_solver|done]|].
  case_decide; [apply Hrej in H; [naive_solver|done]|].
  apply eq_None_not_Some in Hjti.
  destruct (persist os _ _ store) as [[c e] st] eqn:Ep. injection H as <- <- <-. split.
  - eapply persist_accept_sound; [|done|done]. apply sound_accept; [done..|lia|done].
  - intros _. split; [by apply validateRequest_Ok in Hval as (_ & ? & _)|].
    intros a Ha Hlive. destruct (proj2 Hp a Ha Hlive) as [(x & Hx & _) (f & Hf & Ht & _)].
    split; [intros Heq; rewrite Heq, Hx in Hjti; done|]. intros Heq. rewrite Heq, Hf in Hstale.
    apply bool_decide_eq_false in Hstale. lia.
Qed.

(** *** Opening *)

Lemma load_sound faults now log file replays fences :
  sound_file now log file → load faults now file = Ok (replays, fences) → sound now log replays fences.
Proof using json_roundtrip.
  unfold load, sound_file. destruct file as [b|].
  - intros (r & f & Henc & Hsz & Hs) H. do 4 (case_match; [done|]). rewrite (json_roundtrip _ _ Henc) in H.
    assert (Hnow : ¬ IsZero now).
    { intros Hz. unfold load_snapshot in H. cbn [makeSnapshot sn_Replays sn_Fences] in H.
      repeat case_decide; done. }
    rewrite load_snapshot_made in H by (done || apply Hs). by injection H as <- <-.
  - intros Hc [= <- <-]. split; [|done].
    split_and!; [rewrite map_size_empty; unfold maxGuardEntries; lia..| |]; apply map_Forall_empty.
Qed.

Lemma NewGuard_sound path faults os log now0 now1 now2 store opened store' :
  now0 ≤ now1 → now1 ≤ now2 →
  sound_file now0 log (st_visible store) → sound_file now0 log (st_durable store) →
  NewGuard path faults os now0 now1 now2 store = (opened, store') →
  sound_file now2 log (st_visible store') ∧ sound_file now2 log (st_durable store') ∧
  (∀ g, opened = Ok g → sound now2 log (g_replays g) (g_fences g)).
Proof using json_roundtrip.
  intros H01 H12 Hv Hd H. unfold NewGuard in H.
  pose proof (sound_file_later _ _ _ _ (Z.le_trans _ _ _ H01 H12) Hv) as Hv2.
  pose proof (sound_file_later _ _ _ _ (Z.le_trans _ _ _ H01 H12) Hd) as Hd2.
  case_decide; [by simplify_eq|]. case_decide; [by simplify_eq|].
  destruct (of_lock faults); [by simplify_eq|].
  destruct (load faults now1 (st_visible store)) as [[r f]|] eqn:El; [|by simplify_eq].
  apply (load_sound _ _ log) in El; [|by eapply sound_file_later].
  apply (sound_later _ now2), sound_prune in El; [|done]. cbn [pruneExpired] in H.
  destruct (negb (_ || _)); [simplify_eq; split_and!; [done..|by intros ? [= <-]]|].
  destruct (persist os _ _ store) as [[c e] st] eqn:Ep.
  destruct (persist_sound _ _ _ _ _ _ _ _ _ El Hv2 Hd2 Ep) as (? & ? & _).
  destruct e; simplify_eq; split_and!; try done. by intros ? [= <-].
Qed.

(** *** Every step *)

Lemma sound_world_later w now :
  w_now w ≤ now → sound_world w → sound_world (mkWorld (w_guard w) (w_store w) now (w_log w)).
Proof using.
  intros Hle (H0 & Hg & Hv & Hd & Hlog & Hord). split_and!; cbn; [lia| | | | |done].
  - intros g Eg. eapply sound_later; [done|by apply Hg].
  - by eapply sound_file_later.
  - by eapply sound_file_later.
  - intros a [? ?]%Hlog. lia.
Qed.

Lemma ordered_cons b log :
  (∀ a, a ∈ log → later_than b a) → (∀ l1 b l2 a, log = l1 ++ b :: l2 → a ∈ l2 → later_than b a) →
  ∀ l1 c l2 a, b :: log = l1 ++ c :: l2 → a ∈ l2 → later_than c a.
Proof using.
  intros Hb Hlog [|d l1] c l2 a Heq Ha; injection Heq as Hd Hl; subst; [by apply Hb|]. by eapply Hlog.
Qed.

Lemma reserve_step os now r w :
  w_now w ≤ now → String.length (mg_JTIFingerprint r) = 32%nat → sound_world w →
  sound_world (guard_step w (EvReserve os now r)).
Proof using sha256_length.
  intros Hle Hlen Hw%(sound_world_later _ now Hle). cbn. destruct (w_guard w) as [g|] eqn:Eg; [|done].
  destruct Hw as (H0 & Hg & Hv & Hd & Hlog & Hord). cbn in *.
  destruct (Reserve os now r g (w_store w)) as [[answer g'] store'] eqn:Er.
  destruct (Reserve_sound _ _ _ _ _ (w_log w) _ _ _ H0 Hlen (conj (Hg _ eq_refl) (conj Hv Hd)) Er) as ((Hs & ? & ?) & Hacc).
  split_and!; cbn; [done|by intros ? [= <-]|done|done| |].
  - intros a. destruct answer as [[]|]; cbn; try apply Hlog.
    intros [->|Ha]%elem_of_cons; [|by apply Hlog]. cbn. destruct (Hacc eq_refl). lia.
  - destruct answer as [[]|]; cbn; try done. destruct (Hacc eq_refl) as [Hexp Hfresh].
    apply ordered_cons; [|done]. intros a Ha. destruct (Hlog a Ha) as [? ?]. split_and!; cbn; [lia|done| |].
    + intros Heq. destruct (decide (now < ac_expires a)) as [Hlive|]; [|lia]. by destruct (Hfresh a Ha Hlive).
    + intros Heq Hlive. by apply Hfresh.
Qed.

Lemma open_step path faults os now0 now1 now2 w :
  w_now w ≤ now0 → now0 ≤ now1 → now1 ≤ now2 → sound_world w →
  sound_world (guard_step w (EvOpen path faults os now0 now1 now2)).
Proof using json_roundtrip.
  intros H0 H1 H2 Hw. cbn. destruct (match w_guard w with Some g => g_open g | None => false end).
  { apply sound_world_later; [lia|done]. }
  destruct (sound_world_later _ now0 H0 Hw) as (Hn & _ & Hv & Hd & Hlog & Hord). cbn in *.
  destruct (NewGuard path faults os now0 now1 now2 (w_store w)) as [opened store'] eqn:En.
  destruct (NewGuard_sound _ _ _ (w_log w) _ _ _ _ _ _ H1 H2 Hv Hd En) as (? & ? & Hg).
  split_and!; cbn; [lia| |done|done| |done].
  - destruct opened as [g|]; [|done]. intros ? [= <-]. by apply Hg.
  - intros a [? ?]%Hlog. lia.
Qed.

Lemma step_sound w ev : event_times ev (w_now w) → sound_world w → sound_world (guard_step w ev).
Proof using sha256_length json_roundtrip.
  destruct ev as [os now r|path faults os now0 now1 now2| |power]; cbn [event_times].
  - intros [? ?]. by apply reserve_step.
  - intros (? & ? & ?). by apply open_step.
  - intros _ (? & Hg & Hw). split_and!; cbn; try apply Hw; [done|].
    intros g (g0 & Eg & ->)%fmap_Some. by apply (Hg g0).
  - intros _ (? & Hg & Hv & Hd & ? & ?). split_and!; cbn; try done; by destruct power.
Qed.

Lemma step_clock w ev : w_now (guard_step w ev) = event_clock ev (w_now w).
Proof using.
  destruct ev; cbn.
  3, 4: done.
  - destruct (w_guard w) as [g|]; [|done]. by destruct (Reserve _ _ _ g _) as [[? ?] ?].
  - case_match; [done|]. by destruct (NewGuard _ _ _ _ _ _ _) as [? ?].
Qed.

Lemma run_sound evs w : timely evs (w_now w) → sound_world w → sound_world (guard_run evs w).
Proof using sha256_length json_roundtrip.
  revert w. induction evs as [|ev evs IH]; intros w Ht Hw; [done|]. destruct Ht as [Hev Ht].
  apply (IH (guard_step w ev)); [by rewrite step_clock|by apply step_sound].
Qed.

Lemma first_world_sound now : 0 ≤ now → sound_world (first_world now).
Proof using.
  intros Hn. split_and!; cbn; try done; try (intros x Hx; by apply elem_of_nil in Hx).
  intros [|? ?] b l2 x Heq; done.
Qed.

(** C11 (safety): across any history of reservations with failing system calls, closings,
    crashes, power losses and reopenings, under a clock that does not go back, a
    bearer (an id with an expiry) is accepted at most once, and never after its
    expiry; an id is accepted again only after every earlier bearer with it has
    expired. *)
Theorem bearer_accepted_once evs start l1 b l2 a :
  0 ≤ start → timely evs start →
  w_log (guard_run evs (first_world start)) = l1 ++ b :: l2 → a ∈ l2 →
  ac_at b < ac_expires b ∧ (ac_jti b, ac_expires b) ≠ (ac_jti a, ac_expires a) ∧
  (ac_jti b = ac_jti a → ac_expires a ≤ ac_at b).
Proof using sha256_length json_roundtrip.
  intros H0 Ht Hlog Ha.
  destruct (run_sound evs (first_world start) Ht (first_world_sound _ H0)) as (_ & _ & _ & _ & _ & Hord).
  destruct (Hord _ _ _ _ Hlog Ha) as ((? & ?) & Hj & _). split_and!; [done| |done].
  intros [= Hjti Hexp]. specialize (Hj Hjti). lia.
Qed.

(** in the same histories the fencing tokens accepted for one operation do
    not go back while an earlier acceptance for it has not expired. *)
Theorem fencing_never_regresses evs start l1 b l2 a :
  0 ≤ start → timely evs start →
  w_log (guard_run evs (first_world start)) = l1 ++ b :: l2 → a ∈ l2 →
  ac_scope b = ac_scope a → ac_at b < ac_expires a → ac_token a ≤ ac_token b.
Proof using sha256_length json_roundtrip.
  intros H0 Ht Hlog Ha.
  destruct (run_sound evs (first_world start) Ht (first_world_sound _ H0)) as (_ & _ & _ & _ & _ & Hord).
  by destruct (Hord _ _ _ _ Hlog Ha) as (_ & _ & Hs).
Qed.

(** *** Availability *)

Lemma load_healthy now log file :
  ¬ IsZero now → sound_file now log file → ∃ replays fences, load of_ok now file = Ok (replays, fences).
Proof using json_roundtrip.
  intros Hnow. unfold load, sound_file. destruct file as [b|]; [|eauto].
  intros (r & f & Henc & Hsz & Hs & _). cbn [of_ok of_open of_stat of_irregular].
  rewrite decide_False by lia. rewrite (json_roundtrip _ _ Henc), load_snapshot_made by done. eauto.
Qed.

Lemma persist_healthy replays fences store b :
  encode (makeSnapshot replays fences) = Some b → file_size b ≤ maxStateFileBytes →
  persist os_ok replays fences store = (true, None, mkStore (Some b) (Some b)).
Proof using. intros He Hsz. unfold persist. cbn. rewrite He. by rewrite decide_False by lia. Qed.

(** The last instant [encoding/json] can write: the end of the year 9999. *)
Definition lastInstant : Time := 3652059 * 86400 * Second - 1.

(** Snapshots of at most [maxGuardEntries] entries of each kind, with fingerprints as
    keys and expiries that [encoding/json] can write, encode within the size bound. *)
Definition json_encodes : Prop :=
  ∀ replays fences,
    (size replays <= maxGuardEntries)%nat → (size fences <= maxGuardEntries)%nat →
    map_Forall (λ k e, validFingerprint k = true ∧ 0 < e ≤ lastInstant) replays →
    map_Forall (λ k f, validFingerprint k = true ∧ 0 < fr_expiresAt f ≤ lastInstant) fences →
    ∃ b, encode (makeSnapshot replays fences) = Some b ∧ file_size b ≤ maxStateFileBytes.

(** Maps with nothing expired. *)
Definition alive (now : Time) (replays : gmap string Time) (fences : gmap string fenceRecord) : Prop :=
  map_Forall (λ _ e, now < e) replays ∧ map_Forall (λ _ f, now < fr_expiresAt f) fences.

Lemma alive_pruned now replays fences : alive now (alive_replays now replays) (alive_fences now fences).
Proof using.
  split; [intros k e [_ H]%map_lookup_filter_Some|intros k f [_ H]%map_lookup_filter_Some]; unfold After in H; cbn in H; lia.
Qed.

Lemma alive_encodes now replays fences :
  json_encodes → 0 ≤ now → now + maxTokenLifetime ≤ lastInstant → well_formed now replays fences → alive now replays fences →
  ∃ b, encode (makeSnapshot replays fences) = Some b ∧ file_size b ≤ maxStateFileBytes.
Proof using.
  intros Hj Hnow Hlast (Hr & Hf & Hrs & Hfs) [Har Haf].
  assert (Hrange : ∀ e, validStoredExpiry e now = true → now < e → 0 < e ≤ lastInstant).
  { intros e He Hlt. unfold validStoredExpiry, After in He. apply bool_decide_eq_true in He as [_ He]. lia. }
  apply Hj; [done|done| |].
  - intros k e Hk. destruct (Hrs k e Hk). split; [done|]. apply Hrange; [done|by eapply Har].
  - intros k f Hk. destruct (Hfs k f Hk) as (? & _ & ?). split; [done|]. apply Hrange; [done|by eapply Haf].
Qed.

Lemma NewGuard_healthy path now0 now1 now2 store log :
  blank path = false → 0 < now0 → now0 ≤ now1 → now1 ≤ now2 → json_encodes → now2 + maxTokenLifetime ≤ lastInstant →
  sound_file now0 log (st_visible store) →
  ∃ g store', NewGuard path of_ok os_ok now0 now1 now2 store = (Ok g, store') ∧ g_open g = true.
Proof using json_roundtrip.
  intros Hpath H0 H01 H12 Henc Hlast Hv. unfold NewGuard.
  rewrite decide_False by congruence. rewrite decide_False by (unfold IsZero; lia). cbn [of_ok of_lock].
  apply (sound_file_later _ now1) in Hv; [|done].
  destruct (load_healthy now1 log _ ltac:(unfold IsZero; lia) Hv) as (r & f & Hl).
  rewrite Hl. cbn [pruneExpired]. destruct (negb (_ || _)); [eauto|].
  pose proof (load_sound _ _ _ _ _ _ Hv Hl) as Hs. apply (sound_later _ now2), sound_prune in Hs as [Hwf _]; [|done].
  destruct (alive_encodes now2 _ _ Henc ltac:(lia) Hlast Hwf (alive_pruned _ _ _)) as (b & Hb & Hsz).
  rewrite (persist_healthy _ _ _ _ Hb Hsz). eauto.
Qed.

Lemma Reserve_healthy now r g store log :
  g_open g = true → 0 ≤ now → validateRequest r now = Ok () → String.length (mg_JTIFingerprint r) = 32%nat →
  json_encodes → now + maxTokenLifetime ≤ lastInstant → sound now log (g_replays g) (g_fences g) →
  let replays := alive_replays now (g_replays g) in let fences := alive_fences now (g_fences g) in
  replays !! hex_encode (mg_JTIFingerprint r) = None →
  (∀ f, fences !! scopeFingerprint r = Some f → fr_token f ≤ mg_FencingToken r) →
  (size replays < maxGuardEntries)%nat → (is_Some (fences !! scopeFingerprint r) ∨ (size fences < maxGuardEntries)%nat) →
  (Reserve os_ok now r g store).1.1 = Ok MutationGuardAccepted.
Proof using sha256_length.
  intros Hopen Hnow Hval Hlen Henc Hlast Hs. cbv zeta. intros Hjti Hfence Hsize Hroom. unfold Reserve.
  apply sound_prune in Hs. rewrite Hopen, Hval. cbn [negb os_ok os_ctx_locked pruneExpired].
  set (replays := alive_replays now (g_replays g)) in *. set (fences := alive_fences now (g_fences g)) in *.
  rewrite decide_False by (rewrite Hjti; by intros []).
  assert (match fences !! scopeFingerprint r with
          | Some previous => bool_decide (mg_FencingToken r < fr_token previous) | None => false end = false) as ->.
  { destruct (fences !! scopeFingerprint r) as [f|]; [|done]. apply bool_decide_false. specialize (Hfence f eq_refl). lia. }
  rewrite decide_False by lia.
  rewrite decide_False by (intros [Hn ?]; rewrite Hn in Hroom; destruct Hroom as [[? ?]|]; [done|lia]).
  destruct (sound_accept now log r replays fences) as [Hwf _]; try done.
  { intros [Hn ?]. rewrite Hn in Hroom. destruct Hroom as [[? ?]|]; [done|lia]. }
  destruct (alive_encodes now _ _ Henc Hnow Hlast Hwf) as (b & Hb & Hsz); [|by rewrite (persist_healthy _ _ _ _ Hb Hsz)].
  destruct (alive_pruned now (g_replays g) (g_fences g)) as [Har Haf]. apply validateRequest_Ok in Hval as (_ & Hexp & _).
  split; (apply map_Forall_insert_2; [|done]); [done|]. fold fences in Haf. unfold advance_fence, After.
  destruct (fences !! scopeFingerprint r) as [f|] eqn:Ef; cbn; [apply Haf in Ef|]; case_decide; lia.
Qed.

(** C29 (liveness): whatever happened before, once the process that held it is gone the guard
    opens when the system calls succeed: no crash leaves a file the next process
    refuses.  The guard it gives accepts a valid request for which there is room,
    whose id no live entry has and whose token is not below the live one of its
    operation.  The clock is within the years that JSON can represent. *)
Theorem guard_recovers evs start path now0 now1 now2 :
  0 ≤ start → timely evs start →
  w_now (guard_run evs (first_world start)) ≤ now0 → now0 ≤ now1 → now1 ≤ now2 → 0 < now0 →
  blank path = false → json_encodes → now2 + maxTokenLifetime ≤ lastInstant →
  ∃ g store, NewGuard path of_ok os_ok now0 now1 now2 (w_store (guard_run evs (first_world start))) = (Ok g, store) ∧
    ∀ now r, now2 ≤ now → now + maxTokenLifetime ≤ lastInstant →
      validateRequest r now = Ok () → String.length (mg_JTIFingerprint r) = 32%nat →
      alive_replays now (g_replays g) !! hex_encode (mg_JTIFingerprint r) = None →
      (∀ f, alive_fences now (g_fences g) !! scopeFingerprint r = Some f → fr_token f ≤ mg_FencingToken r) →
      (size (alive_replays now (g_replays g)) < maxGuardEntries)%nat →
      (size (alive_fences now (g_fences g)) < maxGuardEntries)%nat →
      (Reserve os_ok now r g store).1.1 = Ok MutationGuardAccepted.
Proof using sha256_length json_roundtrip.
  intros H0 Ht Hn H01 H12 Hpos Hpath Henc Hlast.
  destruct (sound_world_later _ now0 Hn (run_sound evs (first_world start) Ht (first_world_sound _ H0))) as (_ & _ & Hv & Hd & _).
  set (w := guard_run evs (first_world start)) in *. cbn in Hv, Hd.
  destruct (NewGuard_healthy path now0 now1 now2 (w_store w) (w_log w)) as (g & store & Hg & Hopen); try done.
  exists g, store. split; [done|]. intros now r Hnow Hlate Hval Hlen Hjti Hf Hs1 Hs2.
  destruct (NewGuard_sound _ _ _ (w_log w) _ _ _ _ _ _ H01 H12 Hv Hd Hg) as (_ & _ & Hs).
  specialize (Hs g eq_refl). apply (sound_later _ now) in Hs; [|done].
  eapply Reserve_healthy; try done; [lia|by right].
Qed.
End guard.

(** ** Samples

    The codec is the identity and the digest keeps the first 32 bytes of its
    input from the scope on. *)
Module GuardRuns.

Definition pad32 (s : string) : string :=
  String.string_of_list_ascii (take 32 (String.list_ascii_of_string s ++ replicate 32 NUL)).
Definition digest (s : string) : string :=
  pad32 (String.string_of_list_ascii (drop 50 (String.list_ascii_of_string s))).

Lemma pad32_length s : String.length (pad32 s) = 32%nat.
Proof.
  assert (Hl : ∀ l, String.length (String.string_of_list_ascii l) = length l) by (intros l; induction l; cbn; congruence).
  unfold pad32. rewrite Hl, length_take, length_app, length_replicate. lia.
Qed.

Lemma digest_length s : String.length (digest s) = 32%nat.
Proof. apply pad32_length. Qed.

Definition request (operation bearer : string) (token : Z) (expires : Time) : MutationGuardRequest :=
  mkGuardRequest "rev" "sbx" operation "att" token (pad32 bearer) expires.

(** A power loss after an accepted reservation and one whose directory sync failed. *)
Definition history : list guard_event :=
  [EvOpen "guard.json" of_ok os_ok 10 10 10;
   EvReserve os_ok 20 (request "op" "first" 7 1000);
   EvReserve os_syncDir_fails 30 (request "op" "second" 9 1000);
   EvCrash true;
   EvOpen "guard.json" of_ok os_ok 40 40 40;
   EvReserve os_ok 50 (request "op" "first" 7 1000);
   EvReserve os_ok 60 (request "op" "third" 6 1000);
   EvReserve os_ok 70 (request "op" "third" 7 1000)].

Definition run : world := guard_run digest Some (λ _, 0) Some history (first_world 10).

Definition first_accepted : accepted := accept digest 20 (request "op" "first" 7 1000).
Definition third_accepted : accepted := accept digest 70 (request "op" "third" 7 1000).

Lemma history_timely : timely history 10.
Proof. repeat (split; [cbn [event_times event_clock request mg_JTIFingerprint]; rewrite ?pad32_length; lia|]). done. Qed.

Lemma run_log : w_log (guard_run digest Some (λ _, 0) Some history (first_world 10)) = [] ++ third_accepted :: [first_accepted].
Proof. vm_compute. reflexivity. Qed.

Lemma codec_roundtrip (s b : snapshot) : Some s = Some b → Some b = Some s.
Proof. congruence. Qed.

Lemma codec_encodes : json_encodes Some (λ _, 0).
Proof. intros r f _ _ _ _. eexists. by split. Qed.
End GuardRuns.
Import GuardRuns.

Lemma bearer_accepted_once_witness :
  ac_at third_accepted < ac_expires third_accepted ∧
  (ac_jti third_accepted, ac_expires third_accepted) ≠ (ac_jti first_accepted, ac_expires first_accepted) ∧
  (ac_jti third_accepted = ac_jti first_accepted → ac_expires first_accepted ≤ ac_at third_accepted).
Proof.
  apply (bearer_accepted_once digest Some (λ _, 0) Some digest_length codec_roundtrip history 10
           [] third_accepted [first_accepted] first_accepted).
  - lia.
  - exact history_timely.
  - exact run_log.
  - by left.
Defined.

Lemma fencing_never_regresses_witness : ac_token first_accepted ≤ ac_token third_accepted.
Proof.
  apply (fencing_never_regresses digest Some (λ _, 0) Some digest_length codec_roundtrip history 10
           [] third_accepted [first_accepted] first_accepted).
  - lia.
  - exact history_timely.
  - exact run_log.
  - by left.
  - vm_compute. reflexivity.
  - vm_compute. reflexivity.
Defined.

Lemma guard_recovers_witness :
  ∃ g store, NewGuard Some (λ _, 0) Some "guard.json" of_ok os_ok 100 100 100 (w_store run) = (Ok g, store) ∧
    ∀ now r, 100 ≤ now → now + maxTokenLifetime ≤ lastInstant → validateRequest r now = Ok () → String.length (mg_JTIFingerprint r) = 32%nat →
      alive_replays now (g_replays g) !! hex_encode (mg_JTIFingerprint r) = None →
      (∀ f, alive_fences now (g_fences g) !! scopeFingerprint digest r = Some f → fr_token f ≤ mg_FencingToken r) →
      (size (alive_replays now (g_replays g)) < maxGuardEntries)%nat →
      (size (alive_fences now (g_fences g)) < maxGuardEntries)%nat →
      (Reserve digest Some (λ _, 0) os_ok now r g store).1.1 = Ok MutationGuardAccepted.
Proof.
  apply (guard_recovers digest Some (λ _, 0) Some digest_length codec_roundtrip history 10).
  - lia.
  - exact history_timely.
  - vm_compute. discriminate.
  - lia.
  - lia.
  - lia.
  - reflexivity.
  - exact codec_encodes.
  - vm_compute. discriminate.
Defined.
