(* ===== verification/AdmissionDecode.v ===== *)
(** * Provider admission: closed JSON documents

    [decodeClosedJSON] and [hasExactRequiredJSONMembers] of
    [provider/admission/jws.go] over the struct decoding of Go's [encoding/json].
    That decoding takes a member whose name differs from a field's name only in
    case for that field, lets a later member overwrite an earlier one and skips a
    null: a closed document is one where none of this can happen.  What the
    package uses of libraries is the class [Platform].
    (A third alias of one slice field would also see the elements an earlier,
    longer value left behind its end; such documents are refused later.) *)

From stdpp Require Import base strings list gmap.
From Stdlib Require Import Ascii NArith ZArith Lia.
From S2P Require Import Prelude AdmissionJson.

(** * Provider admission: the base64url carriers

    [base64.RawURLEncoding.Strict()], as the compact JWS segments and the
    admission context carrier use it ([provider/admission/jws.go],
    [context.go]): no padding, trailing bits zero, and, as Go's decoder does,
    carriage returns and line feeds skipped wherever they stand. *)

Section encoding.
Local Open Scope N_scope.

(** ** The alphabet *)

Definition symbol (n : N) : ascii :=
  ascii_of_N (if n <? 26 then 65 + n else if n <? 52 then 71 + n else if n <? 62 then n - 4 else if n =? 62 then 45 else 95).

Definition sextet (c : ascii) : option N :=
  if is_upper c then Some (byte c - 65) else
  if is_lower c then Some (byte c - 71) else
  if is_digit c then Some (byte c + 4) else
  if bool_decide (byte c = 45) then Some 62 else
  if bool_decide (byte c = 95) then Some 63 else None.

Definition is_newline (c : ascii) : bool := bool_decide (byte c = 10) || bool_decide (byte c = 13).

(** ** Coding lists of bytes *)

Fixpoint encode64 (l : list ascii) : list ascii :=
  match l with
  | a :: b :: c :: l =>
      let a := byte a in let b := byte b in let c := byte c in
      symbol (a / 4) :: symbol (a mod 4 * 16 + b / 16) :: symbol (b mod 16 * 4 + c / 64) :: symbol (c mod 64) :: encode64 l
  | [a; b] => let a := byte a in let b := byte b in [symbol (a / 4); symbol (a mod 4 * 16 + b / 16); symbol (b mod 16 * 4)]
  | [a] => let a := byte a in [symbol (a / 4); symbol (a mod 4 * 16)]
  | [] => []
  end.

(** Four symbols are three bytes; two or three symbols at the end are one or two
    bytes, and the bits left over are zero. *)
Fixpoint decode64 (l : list ascii) : option (list ascii) :=
  match l with
  | p :: q :: r :: s :: l =>
      p ← sextet p; q ← sextet q; r ← sextet r; s ← sextet s;
      rest ← decode64 l;
      Some (ascii_of_N (p * 4 + q / 16) :: ascii_of_N (q mod 16 * 16 + r / 4) :: ascii_of_N (r mod 4 * 64 + s) :: rest)
  | [p; q; r] =>
      p ← sextet p; q ← sextet q; r ← sextet r;
      if r mod 4 =? 0 then Some [ascii_of_N (p * 4 + q / 16); ascii_of_N (q mod 16 * 16 + r / 4)] else None
  | [p; q] =>
      p ← sextet p; q ← sextet q;
      if q mod 16 =? 0 then Some [ascii_of_N (p * 4 + q / 16)] else None
  | [_] => None
  | [] => Some []
  end.

Definition bytes_of (s : string) : list ascii := String.list_ascii_of_string s.
Definition string_of (l : list ascii) : string := String.string_of_list_ascii l.
Definition without_newlines (s : string) : list ascii := filter (λ c, is_newline c = false) (bytes_of s).

Definition EncodeToString (s : string) : string := string_of (encode64 (bytes_of s)).
Definition DecodeString (s : string) : option string := string_of <$> decode64 (without_newlines s).

(** ** Round trips *)

Lemma sextet_symbol n : n < 64 → sextet (symbol n) = Some n.
Proof.
  intros Hn. destruct n as [|p]; [reflexivity|].
  do 6 (destruct p as [p|p|]; try reflexivity; try lia).
Qed.

Lemma symbol_sextet c n : sextet c = Some n → n < 64 ∧ symbol n = c ∧ is_newline c = false.
Proof.
  destruct c as [[] [] [] [] [] [] [] []]; vm_compute; intros [= <-]; repeat split.
Qed.

Lemma byte_bound c : byte c < 256.
Proof. apply N_ascii_bounded. Qed.

Lemma byte_ascii n : n < 256 → byte (ascii_of_N n) = n.
Proof. apply N_ascii_embedding. Qed.

Lemma ascii_byte c n : byte c = n → ascii_of_N n = c.
Proof. intros <-. apply ascii_N_embedding. Qed.

(** Three bytes and four sextets are the same number. *)
Ltac pack := zify; Z.to_euclidean_division_equations; lia.

Section chunks.
Context {A : Type} (P : list A → Prop) (P0 : P []) (P1 : ∀ a, P [a]) (P2 : ∀ a b, P [a; b]).

Lemma chunks3_ind (P3 : ∀ a b c l, P l → P (a :: b :: c :: l)) : ∀ l, P l.
Proof using P0 P1 P2.
  fix IH 1. intros [|a [|b [|c l]]]; [exact P0|apply P1|apply P2|]. apply P3, IH.
Qed.

Lemma chunks4_ind (P3 : ∀ a b c, P [a; b; c]) (P4 : ∀ a b c d l, P l → P (a :: b :: c :: d :: l)) : ∀ l, P l.
Proof using P0 P1 P2.
  fix IH 1. intros [|a [|b [|c [|d l]]]]; [exact P0|apply P1|apply P2|apply P3|]. apply P4, IH.
Qed.
End chunks.

Lemma decode64_encode64 l : decode64 (encode64 l) = Some l.
Proof.
  induction l as [|a|a b|a b c l IH] using chunks3_ind; cbn [encode64 decode64]; [done|..];
    pose proof (byte_bound a); try pose proof (byte_bound b); try pose proof (byte_bound c);
    rewrite !sextet_symbol by pack; cbn [mbind option_bind].
  - rewrite (proj2 (N.eqb_eq _ 0)) by pack. repeat f_equal; apply ascii_byte; pack.
  - rewrite (proj2 (N.eqb_eq _ 0)) by pack. repeat f_equal; apply ascii_byte; pack.
  - rewrite IH. cbn. repeat f_equal; apply ascii_byte; pack.
Qed.

(** [sextets H] reads the symbols of a successful decoding. *)
Ltac sextets H :=
  repeat match type of H with
  | (sextet ?c ≫= _) = Some _ =>
      let n := fresh "n" in let E := fresh "E" in let B := fresh "B" in let S := fresh "S" in
      destruct (sextet c) as [n|] eqn:E; [|discriminate H];
      destruct (symbol_sextet c n E) as (B & S & _); cbn [mbind option_bind] in H
  end.

Lemma encode64_decode64 l b : decode64 l = Some b → encode64 b = l.
Proof.
  revert b. induction l as [|p|p q|p q r|p q r s l IH] using chunks4_ind; intros b H; cbn [decode64] in H.
  - by simplify_eq.
  - done.
  - sextets H. destruct (_ =? 0) eqn:Ez; [|done]. apply N.eqb_eq in Ez. injection H as <-.
    cbn [encode64]. rewrite !byte_ascii by pack. subst. repeat f_equal; pack.
  - sextets H. destruct (_ =? 0) eqn:Ez; [|done]. apply N.eqb_eq in Ez. injection H as <-.
    cbn [encode64]. rewrite !byte_ascii by pack. subst. repeat f_equal; pack.
  - sextets H. destruct (decode64 l) as [rest|]; [|done]. injection H as <-.
    cbn [encode64]. rewrite !byte_ascii by pack. rewrite (IH rest eq_refl). subst. repeat f_equal; pack.
Qed.

Lemma symbol_no_newline n : n < 64 → is_newline (symbol n) = false.
Proof. intros Hn. by destruct (symbol_sextet _ _ (sextet_symbol n Hn)) as (_ & _ & ?). Qed.

Lemma encode64_no_newline l : Forall (λ c, is_newline c = false) (encode64 l).
Proof.
  induction l as [|a|a b|a b c l IH] using chunks3_ind; cbn [encode64]; repeat constructor; try done;
    pose proof (byte_bound a); try pose proof (byte_bound b); try pose proof (byte_bound c);
    apply symbol_no_newline; pack.
Qed.

Lemma string_of_bytes_of s : string_of (bytes_of s) = s.
Proof. apply String.string_of_list_ascii_of_string. Qed.
Lemma bytes_of_string_of l : bytes_of (string_of l) = l.
Proof. apply String.list_ascii_of_string_of_list_ascii. Qed.

(** The carriers are canonical: encoding and decoding give every byte string
    back, and a carrier that decodes is, line breaks aside, the encoding of what
    it decodes to, so that two carriers of one value differ only in line breaks. *)
Theorem carrier_roundtrip s t :
  DecodeString (EncodeToString s) = Some s ∧
  (DecodeString t = Some s ↔ EncodeToString s = string_of (without_newlines t)).
Proof.
  assert (Hs : DecodeString (EncodeToString s) = Some s).
  { unfold DecodeString, EncodeToString, without_newlines.
    rewrite bytes_of_string_of, filter_all by (by apply Forall_forall, encode64_no_newline).
    rewrite decode64_encode64. cbn. by rewrite string_of_bytes_of. }
  split; [done|]. unfold DecodeString, EncodeToString in *. split.
  - intros (b & Hb & ->)%fmap_Some. rewrite bytes_of_string_of. by rewrite (encode64_decode64 _ _ Hb).
  - intros He. apply (f_equal bytes_of) in He. rewrite !bytes_of_string_of in He.
    rewrite <- He, decode64_encode64. cbn. by rewrite string_of_bytes_of.
Qed.
End encoding.

(** ** The platform *)

(** The functions of other packages that [provider/admission] calls: of
    [encoding/json] the case folding of names, the reading of an [int64], the
    tokens of a document, its parsing and its printing; the JCS transform of
    [github.com/gowebpki/jcs]; [strconv.ParseFloat]; [time.Parse] with
    [time.RFC3339Nano]; whether [url.Parse] gives an absolute URL without fragment
    that prints as the input; [url.ParseQuery]; the printing of a list of name and
    value pairs (nil is [None]); SHA-256; the P-256 curve; and the two signature
    schemes. *)
Class Platform := {
  fold_name : string → string;
  parse_int : string → option Z;
  tokens : string → decoder;
  parse : string → option json;
  marshal : json → string;
  jcs_Transform : string → option string;
  parse_float : string → option float_class;
  parse_time : string → option Time;
  absolute_url : string → bool;
  parse_query : string → option (gmap string (list string));
  json_query : option (list (string * string)) → string;
  sha256 : string → string;
  on_P256 : Z * Z → bool;
  ed25519_Verify : string → string → string → bool;
  ecdsa_Verify : Z * Z → string → Z → Z → bool;
}.

(** What is relied on: the decoder's tokens are those of the document it parses,
    an [int64] is in range, and a digest has 32 bytes. *)
Class PlatformLaws {pf : Platform} : Prop := {
  parse_tokens : ∀ data v, parse data = Some v → tokens data = tokens_of v;
  parse_int_range : ∀ s z, parse_int s = Some z → i64_range z;
  sha256_length : ∀ s, String.length (sha256 s) = 32%nat;
}.
#[global] Arguments PlatformLaws {_}.

(** ** Trees and their tokens *)

Definition tokens_determine (v : json) : Prop :=
  ∀ w rest rest', tokens_of v ++ rest = tokens_of w ++ rest' → v = w ∧ rest = rest'.

Lemma elements_determine l l' rest rest' :
  Forall tokens_determine l →
  elements l ++ Some TCloseArray :: rest = elements l' ++ Some TCloseArray :: rest' → l = l' ∧ rest = rest'.
Proof.
  intros Hl. revert l'. induction Hl as [|v l Hv Hl IH]; intros [|v' l']; rewrite ?elements_cons, <- ?app_assoc; intros H.
  - cbn in H. by injection H.
  - destruct v'; cbn in H; discriminate H.
  - destruct v; cbn in H; discriminate H.
  - destruct (Hv _ _ _ H) as [-> H']. destruct (IH _ H') as [-> ->]. done.
Qed.

Lemma members_determine l l' rest rest' :
  Forall (λ m, tokens_determine m.2) l →
  members l ++ Some TCloseObject :: rest = members l' ++ Some TCloseObject :: rest' → l = l' ∧ rest = rest'.
Proof.
  intros Hl. revert l'. induction Hl as [|[k v] l Hv Hl IH]; intros [|[k' v'] l']; rewrite ?members_cons; cbn;
    rewrite <- ?app_assoc; intros H; try discriminate H.
  - by injection H.
  - injection H as -> H. cbn in Hv. destruct (Hv _ _ _ H) as [-> H']. destruct (IH _ H') as [-> ->]. done.
Qed.

(** A document is determined by its tokens. *)
Lemma tokens_of_inj v : tokens_determine v.
Proof.
  induction v as [s|s|b| |l IH|l IH] using json_nested_ind; intros w rest rest' H; destruct w; cbn in H;
    try discriminate H; try (injection H as ->; by subst); try (by injection H as ->).
  - injection H as H. rewrite <- !app_assoc in H. destruct (elements_determine _ _ _ _ IH H) as [-> ->]. done.
  - injection H as H. rewrite <- !app_assoc in H. destruct (members_determine _ _ _ _ IH H) as [-> ->]. done.
Qed.

Lemma no_duplicates_unique v : hasNoDuplicateJSONKeys (tokens_of v) = true → unique_keys v.
Proof.
  unfold hasNoDuplicateJSONKeys. destruct (consumeJSONValue _ _) as [[|]|] eqn:E; try done. intros _.
  apply consume_sound in E as (w & H & Hw). rewrite <- (app_nil_r (tokens_of v)) in H.
  by destruct (tokens_of_inj _ _ _ _ H) as [-> _].
Qed.

(** ** Struct decoding *)

(** The Go types of the documents and their values; a struct is its fields. *)
#[warnings="-register-all"]
Inductive kind := KText | KInt64 | KSlice (k : kind) | KStruct (fields : list (string * kind)).

#[warnings="-register-all"]
Inductive value := VText (s : string) | VInt (z : Z) | VSlice (l : option (list value)) | VStruct (l : list value).

Fixpoint zero_value (k : kind) : value :=
  match k with
  | KText => VText ""
  | KInt64 => VInt 0
  | KSlice _ => VSlice None
  | KStruct fields => VStruct ((λ f, zero_value f.2) <$> fields)
  end.

Section decode.
Context {pf : Platform}.

(** The field a member name selects: an exact match, else one up to case. *)
Definition find_field (fields : list (string * kind)) (key : string) : option (nat * (string * kind)) :=
  match list_find (λ f, f.1 = key) fields with
  | Some found => Some found
  | None => list_find (λ f, fold_name f.1 = fold_name key) fields
  end.

(** Decoding [v] into a variable of kind [k] that holds [old]; [None] is a type
    error or an unknown field ([DisallowUnknownFields]). *)
Fixpoint decode_value (v : json) (k : kind) (old : value) : option value :=
  match v, k with
  | JNull, KSlice _ => Some (VSlice None)
  | JNull, _ => Some old
  | JText s, KText => Some (VText s)
  | JNumber s, KInt64 => VInt <$> parse_int s
  | JArray l, KSlice k =>
      let olds := match old with VSlice (Some olds) => olds | _ => [] end in
      (VSlice ∘ Some) <$>
      (fix go (l : list json) (olds : list value) : option (list value) :=
         match l with
         | [] => Some []
         | v :: l =>
             x ← decode_value v k (default (zero_value k) (head olds));
             xs ← go l (tail olds);
             Some (x :: xs)
         end) l olds
  | JObject ms, KStruct fields =>
      VStruct <$>
      (fix go (ms : list (string * json)) (cur : list value) : option (list value) :=
         match ms with
         | [] => Some cur
         | (key, v) :: ms =>
             '(i, f) ← find_field fields key;
             x ← decode_value v f.2 (default (zero_value f.2) (cur !! i));
             go ms (<[i := x]> cur)
         end) ms (match old with VStruct cur => cur | _ => [] end)
  | _, _ => None
  end.

(** The loop over the members of an object. *)
Fixpoint decode_members (fields : list (string * kind)) (ms : list (string * json)) (cur : list value) : option (list value) :=
  match ms with
  | [] => Some cur
  | (key, v) :: ms =>
      '(i, f) ← find_field fields key;
      x ← decode_value v f.2 (default (zero_value f.2) (cur !! i));
      decode_members fields ms (<[i := x]> cur)
  end.

Lemma decode_object ms fields cur :
  decode_value (JObject ms) (KStruct fields) (VStruct cur) = VStruct <$> decode_members fields ms cur.
Proof using Type.
  cbn [decode_value]. f_equal. revert cur. induction ms as [|[key v] ms IH]; intros cur; [done|].
  cbn [decode_members]. destruct (find_field fields key) as [[i f]|]; [|done]. cbn.
  destruct (decode_value v f.2 _); [|done]. cbn. apply IH.
Qed.

(** ** Closed documents *)

(** The trailing [Decode] must report the end of the input: [parse] is the whole
    of the input. *)
Definition decodeClosedJSON (data : string) (k : kind) : option value :=
  if hasNoDuplicateJSONKeys (tokens data)
  then v ← parse data; decode_value v k (zero_value k)
  else None.

(** [json.Unmarshal] into a [map[string]json.RawMessage]. *)
Definition json_object (v : json) : option (gmap string json) :=
  match v with
  | JObject ms => Some (list_to_map (reverse ms))
  | JNull => Some ∅
  | _ => None
  end.

Definition has_exact_members (required : list string) (v : json) : bool :=
  match json_object v with
  | None => false
  | Some document =>
      bool_decide (size document = length required)
      && forallb (λ name, match document !! name with Some JNull | None => false | Some _ => true end) required
  end.

Definition hasExactRequiredJSONMembers (data : string) (required : list string) : bool :=
  match parse data with Some v => has_exact_members required v | None => false end.

(** ** A closed document has no aliases *)

Lemma find_field_exact fields i name k :
  NoDup fields.*1 → fields !! i = Some (name, k) → find_field fields name = Some (i, (name, k)).
Proof using Type.
  intros Hnd Hi. unfold find_field.
  destruct (list_find (λ f, f.1 = name) fields) as [[j [n' k']]|] eqn:E.
  - apply list_find_Some in E as (Hj & Hn & _). cbn in Hn. subst n'.
    assert (i = j) as -> by (eapply (NoDup_lookup fields.*1 i j name); [done|by rewrite list_lookup_fmap, Hi|by rewrite list_lookup_fmap, Hj]).
    rewrite Hi in Hj. by simplify_eq.
  - apply list_find_None in E. rewrite Forall_forall in E. destruct (E (name, k)); [by eapply list_elem_of_lookup_2|done].
Qed.

(** Members named exactly like the fields: each field takes its own member, the
    others keep what they had. *)
Lemma decode_members_exact fields ms cur vals :
  NoDup fields.*1 → NoDup ms.*1 → (∀ key, key ∈ ms.*1 → key ∈ fields.*1) → length cur = length fields →
  decode_members fields ms cur = Some vals →
  ∀ i name k, fields !! i = Some (name, k) →
    (name ∉ ms.*1 → vals !! i = cur !! i) ∧
    (∀ v, (name, v) ∈ ms → ∃ x, vals !! i = Some x ∧ decode_value v k (default (zero_value k) (cur !! i)) = Some x).
Proof using Type.
  intros Hnd. revert cur. induction ms as [|[key v] ms IH]; intros cur Hms Hin Hlen H i name k Hi.
  { cbn in H. simplify_eq. split; [done|]. intros v Hv%elem_of_nil. done. }
  apply NoDup_cons in Hms as [Hfresh Hms]. cbn [fmap list_fmap fst] in Hfresh.
  pose proof (Hin key ltac:(left)) as Hkey. apply list_elem_of_fmap in Hkey as ([key' k'] & Heq & Hj). cbn in Heq. subst key'.
  apply list_elem_of_lookup in Hj as [j Hj]. cbn [decode_members] in H. rewrite (find_field_exact _ _ _ _ Hnd Hj) in H.
  cbn in H. destruct (decode_value v k' _) as [x|] eqn:Ex; [|done]. cbn in H.
  assert (j < length cur)%nat by (rewrite Hlen; by eapply lookup_lt_Some).
  specialize (IH (<[j:=x]> cur) Hms (λ k Hk, Hin k (list_elem_of_further _ _ _ Hk)) ltac:(by rewrite length_insert) H i name k Hi) as [IH1 IH2].
  destruct (decide (i = j)) as [->|Hne].
  - rewrite Hi in Hj. injection Hj as <- <-. rewrite list_lookup_insert_eq in IH1 by done. split; [intros []; left|].
    intros v' [Hv|Hv]%elem_of_cons.
    + injection Hv as ->. exists x. split; [by apply IH1|done].
    + destruct Hfresh. apply list_elem_of_fmap. by exists (name, v').
  - assert (name ≠ key).
    { intros ->. apply Hne. eapply (NoDup_lookup fields.*1 i j key); [done|by rewrite list_lookup_fmap, Hi|by rewrite list_lookup_fmap, Hj]. }
    rewrite list_lookup_insert_ne in IH1, IH2 by done. split; [intros Hn; apply IH1; intros ?; apply Hn; by right|].
    intros v' [Hv|Hv]%elem_of_cons; [congruence|by apply IH2].
Qed.

Lemma object_lookup (ms : list (string * json)) name v :
  NoDup ms.*1 → (list_to_map (reverse ms) : gmap string json) !! name = Some v ↔ (name, v) ∈ ms.
Proof using Type.
  intros Hnd. rewrite <- (elem_of_list_to_map (M := gmap string)).
  - by rewrite elem_of_reverse.
  - rewrite fmap_reverse. by rewrite reverse_Permutation.
Qed.

Lemma exact_members_object required ms :
  NoDup required → NoDup ms.*1 → has_exact_members required (JObject ms) = true →
  ms.*1 ≡ₚ required ∧ (∀ name, name ∈ required → ∃ v, (name, v) ∈ ms ∧ v ≠ JNull).
Proof using Type.
  intros Hr Hms. unfold has_exact_members. cbn [json_object]. rewrite andb_true_iff, bool_decide_eq_true, forallb_forall.
  intros [Hsize Hall].
  assert (Hhas : ∀ name, name ∈ required → ∃ v, (name, v) ∈ ms ∧ v ≠ JNull).
  { intros name Hname%list_elem_of_In. specialize (Hall _ Hname).
    destruct (_ !! name) as [v|] eqn:E; [|done]. apply object_lookup in E; [|done].
    exists v. split; [done|]. by intros ->. }
  split; [|done].
  assert (Hlen : length ms = length required).
  { rewrite <- Hsize. rewrite map_size_list_to_map by (rewrite fmap_reverse; by rewrite reverse_Permutation).
    by rewrite length_reverse. }
  symmetry. apply submseteq_length_Permutation; [|rewrite length_fmap; lia]. apply NoDup_submseteq; [done|].
  intros name (v & Hv & _)%Hhas. apply list_elem_of_fmap. by exists (name, v).
Qed.

Context {pl : PlatformLaws}.

Lemma closed_document_fields data fields x :
  NoDup fields.*1 → fields ≠ [] →
  decodeClosedJSON data (KStruct fields) = Some x → hasExactRequiredJSONMembers data fields.*1 = true →
  ∃ ms vals, parse data = Some (JObject ms) ∧ NoDup ms.*1 ∧ ms.*1 ≡ₚ fields.*1 ∧ x = VStruct vals ∧
    ∀ i name k, fields !! i = Some (name, k) →
      ∃ v y, (name, v) ∈ ms ∧ v ≠ JNull ∧ vals !! i = Some y ∧ decode_value v k (zero_value k) = Some y.
Proof using Type*.
  intros Hnd Hne Hd He. unfold decodeClosedJSON, hasExactRequiredJSONMembers in *.
  destruct (hasNoDuplicateJSONKeys (tokens data)) eqn:Hdup; [|done].
  destruct (parse data) as [v|] eqn:Ep; [|done]. rewrite (parse_tokens _ _ Ep) in Hdup. apply no_duplicates_unique in Hdup.
  destruct v as [s|s|b| |l|ms]; cbn in He; try done.
  { by destruct fields. }
  destruct Hdup as [Hms _]. destruct (exact_members_object _ _ Hnd Hms He) as [Hin Hhas].
  cbn [mbind option_bind zero_value] in Hd. rewrite decode_object in Hd. apply fmap_Some in Hd as (vals & Hd & ->).
  exists ms, vals. split_and!; [done..|]. intros i name k Hi.
  destruct (Hhas name) as (v & Hv & Hnull).
  { apply list_elem_of_fmap. exists (name, k). split; [done|]. by eapply list_elem_of_lookup_2. }
  destruct (decode_members_exact _ _ _ _ Hnd Hms ltac:(by intros ?; rewrite Hin) (length_fmap _ _) Hd i name k Hi) as [_ Hx].
  destruct (Hx v Hv) as (y & Hy & Hdec). exists v, y. split_and!; [done..|].
  rewrite list_lookup_fmap, Hi in Hdec. done.
Qed.
End decode.
