(* ===== verification/AdmissionModel.v ===== *)
(** * Provider admission: data and checks

    The value objects of [provider/admission] ([jws.go], [context.go],
    [binding.go], [authority.go], [keysource.go], [port.go]) and the checks on
    them.  [Operation], [DigestProfile], [Algorithm] and [KeyID] are strings in
    the source. *)

From stdpp Require Import base strings list gmap.
From Stdlib Require Import Ascii ZArith Lia.
From S2P Require Import Prelude AdmissionJson AdmissionDecode.

Local Open Scope Z_scope.

(** ** Text *)

Definition validRequiredText (value : string) : bool :=
  bool_decide (is_Some (utf8_count value)) && negb (blank value).

Definition validBoundedText (value : string) (minimum maximum : nat) : bool :=
  validRequiredText value && validBoundedString value minimum maximum.

Definition is_path_byte (c : ascii) : bool := is_alnum c || one_of "._:-" c.

Definition audiencePattern (s : string) : bool :=
  match cut_prefix "urn:shell-echo:sandbox-runtime:provider-instance:" s with
  | Some rest => all_bytes is_path_byte rest && (1 <=? String.length rest)%nat && (String.length rest <=? 200)%nat
  | None => false
  end.

Definition digestPattern (s : string) : bool :=
  match cut_prefix "sha256:" s with
  | Some rest => all_bytes is_lower_hex rest && bool_decide (String.length rest = 64%nat)
  | None => false
  end.

(** [(?:/[A-Za-z0-9._:-]+)+]; [inside] says that the current segment has a byte. *)
Fixpoint path_segments (inside : bool) (s : string) : bool :=
  match s with
  | EmptyString => inside
  | String c s =>
      if bool_decide (c = "/"%char) then inside && path_segments false s
      else is_path_byte c && path_segments true s
  end.
Definition contextPathPattern (s : string) : bool :=
  match cut_prefix "/v1/" s with Some rest => path_segments false rest | None => false end.

(** ** Operations and profiles *)

Abbreviation Operation := string (only parsing).
Abbreviation DigestProfile := string (only parsing).
Abbreviation Algorithm := string (only parsing).
Abbreviation KeyID := string (only parsing).

Definition OperationReadEvents : Operation := "read_events".
Definition DigestProfileRequestExcludingDigest : DigestProfile := "rfc8785-request-excluding-request-digest-v1".
Definition DigestProfileFullDocument : DigestProfile := "rfc8785-full-document-v1".
Definition AlgorithmEdDSA : Algorithm := "EdDSA".
Definition AlgorithmES256 : Algorithm := "ES256".

Definition mutations : list Operation :=
  ["create"; "restore"; "set_desired_state"; "extend_lease"; "exec"; "cancel_exec"; "open_runtime_session";
   "close_runtime_session"; "open_browser_session"; "open_desktop_session"; "close_desktop_session";
   "stage_artifact"; "snapshot"; "terminate"]%string.

Definition Mutation (operation : Operation) : bool := bool_decide (operation ∈ mutations).

Definition operations : list Operation :=
  ["create"; "restore"; "set_desired_state"; "extend_lease"; "exec"; "cancel_exec"; "open_runtime_session";
   "close_runtime_session"; "connect_runtime_session"; "open_browser_session"; "open_desktop_session";
   "close_desktop_session"; "stage_artifact"; "snapshot"; "terminate"; "read_sandbox"; "read_operation";
   "read_result"; "read_runtime_session"; "read_browser_session"; "read_desktop_session";
   "read_artifact_staging_evidence"; "read_usage_evidence"; "read_snapshot_manifest"; "read_events"]%string.

Definition Operation_Supported (operation : Operation) : bool := bool_decide (operation ∈ operations).

Definition DigestProfile_Supported (profile : DigestProfile) : bool :=
  bool_decide (profile = DigestProfileRequestExcludingDigest ∨ profile = DigestProfileFullDocument).

Definition Algorithm_Supported (algorithm : Algorithm) : bool :=
  bool_decide (algorithm = AlgorithmEdDSA ∨ algorithm = AlgorithmES256).

Definition request_contract (name : string) : string := "urn:shell-echo:sandbox-runtime:request:" +:+ name +:+ ":v1".
Definition descriptor_contract (name : string) : string := "urn:shell-echo:sandbox-runtime:descriptor:" +:+ name +:+ ":v1".

Definition requestBindings : list (Operation * (string * DigestProfile)) :=
  let request operation name := (operation, (request_contract name, DigestProfileRequestExcludingDigest)) in
  let descriptor operation name := (operation, (descriptor_contract name, DigestProfileFullDocument)) in
  [request "create" "create"; request "restore" "restore"; request "set_desired_state" "set-desired-state";
   request "extend_lease" "extend-lease"; request "exec" "exec"; request "cancel_exec" "cancel-exec";
   request "open_runtime_session" "open-runtime-session"; request "close_runtime_session" "close-runtime-session";
   descriptor "connect_runtime_session" "runtime-session-connect";
   request "open_browser_session" "open-browser-session"; request "open_desktop_session" "open-desktop-session";
   request "close_desktop_session" "close-desktop-session"; request "stage_artifact" "stage-artifact";
   request "snapshot" "snapshot"; request "terminate" "terminate";
   descriptor "read_sandbox" "status"; descriptor "read_operation" "operation"; descriptor "read_result" "exec-result";
   descriptor "read_runtime_session" "runtime-session"; descriptor "read_browser_session" "browser-session";
   descriptor "read_desktop_session" "desktop-session";
   descriptor "read_artifact_staging_evidence" "artifact-staging-evidence";
   descriptor "read_usage_evidence" "usage-evidence"; descriptor "read_snapshot_manifest" "snapshot-manifest";
   descriptor "read_events" "events"]%string.

Definition request_binding (operation : Operation) : option (string * DigestProfile) :=
  (list_to_map requestBindings : gmap string (string * DigestProfile)) !! operation.

(** The claims it is given are only read for these three. *)
Definition validRequestBinding (operation : Operation) (contract : string) (profile : DigestProfile) : bool :=
  match request_binding operation with
  | Some (contractID, profile') => bool_decide (contract = contractID) && bool_decide (profile = profile')
  | None => false
  end.

(** ** Documents *)

Definition AdmissionContextContractID : string := "urn:shell-echo:sandbox-runtime:admission-context:v1".
Definition AdmissionContextDigestProfile : string := "rfc8785-full-document-excluding-context-digest-v1".
Definition MaxAdmissionContextBytes : Z := 16384.
Definition expectedJWSType : string := "agent-sandbox-operation-admission+jwt".
Definition maxCompactJWSBytes : Z := Z.shiftl 8 10.

Record JWSHeader := mkHeader { jh_Algorithm : Algorithm; jh_KeyID : KeyID; jh_Type : string }.

Record TokenClaims := mkClaims {
  tc_JTI : string; tc_Issuer : string; tc_Subject : string; tc_Audience : string;
  tc_IssuedAt : Z; tc_NotBefore : Z; tc_ExpiresAt : Z;
  tc_Operation : Operation; tc_ProviderRevisionID : string; tc_SandboxID : string; tc_OperationID : string;
  tc_AttemptID : string; tc_FencingToken : Z; tc_TenantID : string; tc_WorkOrderID : string;
  tc_PolicyDigest : string; tc_PolicyDecidedAt : string;
  tc_RequestContractID : string; tc_RequestDigestProfile : DigestProfile; tc_RequestDigest : string;
  tc_DeadlineAt : string; tc_AdmissionContextContractID : string; tc_AdmissionContextDigestProfile : string;
  tc_AdmissionContextDigest : string;
}.

Record VerifiedToken := mkToken { vt_Header : JWSHeader; vt_Claims : TokenClaims }.

Record AdmissionQuery := mkQuery { aq_Name : string; aq_Value : string }.

(** A nil [NormalizedQuery] is [None]. *)
Record AdmissionTarget := mkTarget { at_Method : string; at_Path : string; at_NormalizedQuery : option (list AdmissionQuery) }.

Record AdmissionContext := mkContext {
  cx_ContextContractID : string; cx_ContextDigestProfile : string; cx_ContextDigest : string;
  cx_ControllerSubject : string; cx_ProviderRevisionID : string; cx_ProviderInstanceAudience : string;
  cx_TenantID : string; cx_WorkOrderID : string; cx_PolicyDigest : string; cx_PolicyDecidedAt : string;
  cx_Operation : Operation; cx_SandboxID : string; cx_OperationID : string; cx_AttemptID : string;
  cx_FencingToken : Z; cx_DeadlineAt : string; cx_RequestContractID : string;
  cx_RequestDigestProfile : DigestProfile; cx_RequestDigest : string; cx_HTTPTarget : AdmissionTarget;
}.

(** The fields of the documents, by their JSON names. *)
Definition header_fields : list (string * kind) := [("alg", KText); ("kid", KText); ("typ", KText)]%string.

Definition claims_fields : list (string * kind) :=
  [("jti", KText); ("iss", KText); ("sub", KText); ("aud", KText); ("iat", KInt64); ("nbf", KInt64); ("exp", KInt64);
   ("operation", KText); ("provider_revision_id", KText); ("sandbox_id", KText); ("operation_id", KText);
   ("attempt_id", KText); ("fencing_token", KInt64); ("tenant_id", KText); ("work_order_id", KText);
   ("policy_digest", KText); ("policy_decided_at", KText); ("request_contract_id", KText);
   ("request_digest_profile", KText); ("request_digest", KText); ("deadline_at", KText);
   ("admission_context_contract_id", KText); ("admission_context_digest_profile", KText);
   ("admission_context_digest", KText)]%string.

Definition query_fields : list (string * kind) := [("name", KText); ("value", KText)]%string.
Definition target_fields : list (string * kind) :=
  [("method", KText); ("path", KText); ("normalized_query", KSlice (KStruct query_fields))]%string.

Definition context_fields : list (string * kind) :=
  [("context_contract_id", KText); ("context_digest_profile", KText); ("context_digest", KText);
   ("controller_subject", KText); ("provider_revision_id", KText); ("provider_instance_audience", KText);
   ("tenant_id", KText); ("work_order_id", KText); ("policy_digest", KText); ("policy_decided_at", KText);
   ("operation", KText); ("sandbox_id", KText); ("operation_id", KText); ("attempt_id", KText);
   ("fencing_token", KInt64); ("deadline_at", KText); ("request_contract_id", KText);
   ("request_digest_profile", KText); ("request_digest", KText); ("http_target", KStruct target_fields)]%string.

(** The members a document must have. *)
Definition jwsHeaderMembers : list string := ["alg"; "kid"; "typ"]%string.
Definition tokenClaimMembers : list string :=
  ["jti"; "iss"; "sub"; "aud"; "iat"; "nbf"; "exp"; "operation"; "provider_revision_id"; "sandbox_id"; "operation_id";
   "attempt_id"; "fencing_token"; "tenant_id"; "work_order_id"; "policy_digest"; "policy_decided_at";
   "request_contract_id"; "request_digest_profile"; "request_digest"; "deadline_at"; "admission_context_contract_id";
   "admission_context_digest_profile"; "admission_context_digest"]%string.
Definition admissionContextMembers : list string :=
  ["context_contract_id"; "context_digest_profile"; "context_digest"; "controller_subject"; "provider_revision_id";
   "provider_instance_audience"; "tenant_id"; "work_order_id"; "policy_digest"; "policy_decided_at"; "operation";
   "sandbox_id"; "operation_id"; "attempt_id"; "fencing_token"; "deadline_at"; "request_contract_id";
   "request_digest_profile"; "request_digest"; "http_target"]%string.
Definition admissionTargetMembers : list string := ["method"; "path"; "normalized_query"]%string.
Definition admissionQueryMembers : list string := ["name"; "value"]%string.

Definition fields_of (v : value) : list value := match v with VStruct l => l | _ => [] end.
Definition text_at (l : list value) (i : nat) : string := match l !! i with Some (VText s) => s | _ => "" end.
Definition int_at (l : list value) (i : nat) : Z := match l !! i with Some (VInt z) => z | _ => 0 end.

Definition header_of (v : value) : JWSHeader :=
  let l := fields_of v in mkHeader (text_at l 0) (text_at l 1) (text_at l 2).

Definition claims_of (v : value) : TokenClaims :=
  let l := fields_of v in let t := text_at l in let z := int_at l in
  (mkClaims (t 0) (t 1) (t 2) (t 3) (z 4) (z 5) (z 6) (t 7) (t 8) (t 9) (t 10) (t 11) (z 12) (t 13) (t 14) (t 15) (t 16)
    (t 17) (t 18) (t 19) (t 20) (t 21) (t 22) (t 23))%nat.

Definition query_of (v : value) : AdmissionQuery := let l := fields_of v in mkQuery (text_at l 0) (text_at l 1).
Definition target_of (v : value) : AdmissionTarget :=
  let l := fields_of v in
  mkTarget (text_at l 0) (text_at l 1) (match l !! 2%nat with Some (VSlice (Some qs)) => Some (query_of <$> qs) | _ => None end).

Definition context_of (v : value) : AdmissionContext :=
  let l := fields_of v in let t := text_at l in let z := int_at l in
  (mkContext (t 0) (t 1) (t 2) (t 3) (t 4) (t 5) (t 6) (t 7) (t 8) (t 9) (t 10) (t 11) (t 12) (t 13) (z 14) (t 15) (t 16)
    (t 17) (t 18) (target_of (default (VStruct []) (l !! 19))))%nat.

(** ** Checks *)

(** [time.Unix(sec, 0)]: the seconds are moved to the zero time in 64 bits. *)
Definition unixToInternal : Z := 62135596800.
Definition unix_time (sec : Z) : Time := i64 (sec + unixToInternal) * Second.

Section checks.
Context {pf : Platform}.

(** A value with a colon must parse as an absolute URL without a fragment that
    prints as itself ([absolute_url]). *)
Definition maxAdmissionAuthorityTextRunes : nat := 200.
Definition validIssuer (issuer : string) : bool :=
  if negb (validBoundedText issuer 1 maxAdmissionAuthorityTextRunes) || negb (bool_decide (TrimSpace issuer = issuer))
  then false else
  if negb (bool_decide (":"%char ∈ String.list_ascii_of_string issuer)) then true else absolute_url issuer.

Record AdmissionAuthority := mkAuthority { issuer : string; providerRevisionID : string; providerInstanceAudience : string }.

Definition authority_valid (a : AdmissionAuthority) : bool :=
  validIssuer (issuer a) && validBoundedText (providerRevisionID a) 1 maxAdmissionAuthorityTextRunes
  && audiencePattern (providerInstanceAudience a).

Definition NewAdmissionAuthority (issuer_ revision audience : string) : result AdmissionAuthority :=
  if negb (validIssuer issuer_) then Err [ErrExternal "provider admission issuer is invalid"] else
  if negb (validBoundedText revision 1 maxAdmissionAuthorityTextRunes)
  then Err [ErrExternal "provider admission revision is invalid"] else
  if negb (audiencePattern audience) then Err [ErrExternal "provider admission audience is invalid"] else
  Ok (mkAuthority issuer_ revision audience).

Definition validateHeader (header : JWSHeader) : bool :=
  Algorithm_Supported (jh_Algorithm header) && bool_decide (jh_Type header = expectedJWSType)
  && validBoundedText (jh_KeyID header) 1 128.

Definition is_time (s : string) : bool := bool_decide (is_Some (parse_time s)).

Definition validateClaimsShape (c : TokenClaims) : bool :=
  if negb (validIssuer (tc_Issuer c)) || negb (Operation_Supported (tc_Operation c))
     || negb (DigestProfile_Supported (tc_RequestDigestProfile c))
     || negb (validRequestBinding (tc_Operation c) (tc_RequestContractID c) (tc_RequestDigestProfile c))
  then false else
  if bool_decide (tc_IssuedAt c < 0 ∨ tc_NotBefore c < 0 ∨ tc_ExpiresAt c < 0 ∨ tc_FencingToken c < 1
                  ∨ tc_FencingToken c > maxSafeJSONInteger) then false else
  if negb (audiencePattern (tc_Audience c)) || negb (digestPattern (tc_PolicyDigest c))
     || negb (digestPattern (tc_RequestDigest c)) then false else
  if negb (is_time (tc_DeadlineAt c)) then false else
  if negb (is_time (tc_PolicyDecidedAt c)) then false else
  if negb (bool_decide (tc_AdmissionContextContractID c = AdmissionContextContractID))
     || negb (bool_decide (tc_AdmissionContextDigestProfile c = AdmissionContextDigestProfile))
     || negb (digestPattern (tc_AdmissionContextDigest c)) then false else
  if negb (validBoundedText (tc_JTI c) 16 200) || negb (validBoundedText (tc_Subject c) 1 200) then false else
  forallb (λ value, validBoundedText value 1 200)
    [tc_ProviderRevisionID c; tc_SandboxID c; tc_OperationID c; tc_AttemptID c; tc_TenantID c; tc_WorkOrderID c].

(** *** The admission context *)

(** [strconv.ParseInt(value, 10, 64)] then [FormatInt] back: decimal digits
    without a leading zero or sign, up to the bound. *)
Definition decimal (s : string) : Z :=
  fold_left (λ n c, 10 * n + Z.of_N (byte c - 48)) (String.list_ascii_of_string s) 0.
Definition validAfterSequence (value : string) : bool :=
  match value with
  | EmptyString => false
  | String c rest =>
      all_bytes is_digit value && (bool_decide (value = "0") || negb (bool_decide (c = "0"%char)))
      && (decimal value <=? maxSafeJSONInteger)
  end.

Definition validForOperation (target : AdmissionTarget) (operation : Operation) : bool :=
  match at_NormalizedQuery target with
  | None => false
  | Some query =>
      if negb (bool_decide (at_Method target = "GET" ∨ at_Method target = "POST"))%string
         || (String.length (at_Path target) <? 4)%nat || (600 <? String.length (at_Path target))%nat
         || negb (contextPathPattern (at_Path target)) || (4 <? length query)%nat then false else
      if negb (bool_decide (operation = OperationReadEvents)) then bool_decide (query = []) else
      if negb (bool_decide (at_Method target = "GET")%string) then false else
      match query with
      | [] => true
      | [q] => bool_decide (aq_Name q = "after_sequence")%string && validAfterSequence (aq_Value q)
      | _ => false
      end
  end.

Definition validAdmissionContext (c : AdmissionContext) : bool :=
  if negb (bool_decide (cx_ContextContractID c = AdmissionContextContractID))
     || negb (bool_decide (cx_ContextDigestProfile c = AdmissionContextDigestProfile))
     || negb (digestPattern (cx_ContextDigest c)) || negb (digestPattern (cx_PolicyDigest c))
     || negb (digestPattern (cx_RequestDigest c)) || negb (Operation_Supported (cx_Operation c))
     || negb (DigestProfile_Supported (cx_RequestDigestProfile c))
     || negb (validForOperation (cx_HTTPTarget c) (cx_Operation c))
     || bool_decide (cx_FencingToken c < 1) || bool_decide (cx_FencingToken c > maxSafeJSONInteger) then false else
  if negb (audiencePattern (cx_ProviderInstanceAudience c))
     || negb (forallb (λ value, validBoundedText value 1 200)
          [cx_ControllerSubject c; cx_ProviderRevisionID c; cx_TenantID c; cx_WorkOrderID c; cx_SandboxID c;
           cx_OperationID c; cx_AttemptID c; cx_RequestContractID c]) then false else
  if negb (validRequestBinding (cx_Operation c) (cx_RequestContractID c) (cx_RequestDigestProfile c)) then false else
  forallb is_time [cx_PolicyDecidedAt c; cx_DeadlineAt c].

(** [hasExactAdmissionContextMembers] over the parsed document. *)
Definition exact_context_members (document : json) : bool :=
  has_exact_members admissionContextMembers document &&
  match d ← json_object document; d !! "http_target"%string with
  | None => false
  | Some target =>
      has_exact_members admissionTargetMembers target &&
      match t ← json_object target; t !! "normalized_query"%string with
      | Some (JArray items) => forallb (has_exact_members admissionQueryMembers) items
      | _ => false
      end
  end.

(** *** The binding *)

Record TokenBinding := mkBinding {
  tb_Caller : string; tb_ProviderRevisionID : string; tb_Audience : string; tb_Operation : Operation;
  tb_SandboxID : string; tb_OperationID : string; tb_AttemptID : string; tb_FencingToken : Z;
  tb_TenantID : string; tb_WorkOrderID : string; tb_PolicyDigest : string;
  tb_RequestContractID : string; tb_RequestDigestProfile : DigestProfile; tb_RequestDigest : string;
  tb_PolicyDecisionAt : Time; tb_DeadlineAt : Time;
  tb_AdmissionContextContractID : string; tb_AdmissionContextDigestProfile : string; tb_AdmissionContextDigest : string;
}.

Definition parseTime (value : string) : Time := default 0 (parse_time value).

Definition TokenBinding_of (c : AdmissionContext) (caller : string) : TokenBinding :=
  mkBinding caller (cx_ProviderRevisionID c) (cx_ProviderInstanceAudience c) (cx_Operation c)
    (cx_SandboxID c) (cx_OperationID c) (cx_AttemptID c) (cx_FencingToken c) (cx_TenantID c) (cx_WorkOrderID c)
    (cx_PolicyDigest c) (cx_RequestContractID c) (cx_RequestDigestProfile c) (cx_RequestDigest c)
    (parseTime (cx_PolicyDecidedAt c)) (parseTime (cx_DeadlineAt c))
    (cx_ContextContractID c) (cx_ContextDigestProfile c) (cx_ContextDigest c).

Definition validTokenBinding (b : TokenBinding) : bool :=
  if negb (validBoundedText (tb_Caller b) 1 200) || negb (validRequiredText (tb_ProviderRevisionID b))
     || negb (audiencePattern (tb_Audience b)) || negb (Operation_Supported (tb_Operation b))
     || bool_decide (tb_FencingToken b < 1) || bool_decide (tb_FencingToken b > maxSafeJSONInteger)
     || negb (digestPattern (tb_PolicyDigest b)) || negb (digestPattern (tb_RequestDigest b))
     || negb (DigestProfile_Supported (tb_RequestDigestProfile b))
     || bool_decide (IsZero (tb_PolicyDecisionAt b)) || bool_decide (IsZero (tb_DeadlineAt b)) then false else
  if negb (validRequestBinding (tb_Operation b) (tb_RequestContractID b) (tb_RequestDigestProfile b)) then false else
  forallb validRequiredText [tb_SandboxID b; tb_OperationID b; tb_AttemptID b; tb_TenantID b; tb_WorkOrderID b].

(** The difference of two 64-bit counts of seconds. *)
Definition validBearerLifetime (c : TokenClaims) (now : Time) : bool :=
  if bool_decide (IsZero now ∨ tc_IssuedAt c > tc_NotBefore c ∨ tc_NotBefore c >= tc_ExpiresAt c
                  ∨ i64 (tc_ExpiresAt c - tc_IssuedAt c) > 300) then false else
  negb (bool_decide (Before now (unix_time (tc_NotBefore c)))) && bool_decide (Before now (unix_time (tc_ExpiresAt c))).

Definition validTokenLifetime (c : TokenClaims) (policyDecisionAt deadlineAt now : Time) : bool :=
  if negb (validBearerLifetime c now) then false else
  negb (bool_decide (Before (unix_time (tc_NotBefore c)) policyDecisionAt ∨ After (unix_time (tc_ExpiresAt c)) deadlineAt)).

Definition sameRFC3339Time (value : string) (expected : Time) : bool :=
  match parse_time value with Some parsed => bool_decide (parsed = expected) | None => false end.

Definition ErrUnauthorizedTokenBinding : sentinel := admission_error "ErrUnauthorizedTokenBinding".
Definition errInactiveBearer : sentinel := admission_error "errInactiveBearer".

Definition claims_match (c : TokenClaims) (b : TokenBinding) (a : AdmissionAuthority) : bool :=
  bool_decide (tc_Issuer c = issuer a ∧ tc_ProviderRevisionID c = providerRevisionID a
    ∧ tc_Audience c = providerInstanceAudience a ∧ tc_Subject c = tb_Caller b
    ∧ tc_ProviderRevisionID c = tb_ProviderRevisionID b ∧ tc_Audience c = tb_Audience b
    ∧ tc_Operation c = tb_Operation b ∧ tc_SandboxID c = tb_SandboxID b ∧ tc_OperationID c = tb_OperationID b
    ∧ tc_AttemptID c = tb_AttemptID b ∧ tc_FencingToken c = tb_FencingToken b ∧ tc_TenantID c = tb_TenantID b
    ∧ tc_WorkOrderID c = tb_WorkOrderID b ∧ tc_PolicyDigest c = tb_PolicyDigest b
    ∧ tc_RequestContractID c = tb_RequestContractID b ∧ tc_RequestDigestProfile c = tb_RequestDigestProfile b
    ∧ tc_RequestDigest c = tb_RequestDigest b
    ∧ (tb_AdmissionContextContractID b = ""%string ∨ sameRFC3339Time (tc_PolicyDecidedAt c) (tb_PolicyDecisionAt b) = true)
    ∧ tc_AdmissionContextContractID c = tb_AdmissionContextContractID b
    ∧ tc_AdmissionContextDigestProfile c = tb_AdmissionContextDigestProfile b
    ∧ tc_AdmissionContextDigest c = tb_AdmissionContextDigest b).

Definition ValidateTokenBinding (token : VerifiedToken) (b : TokenBinding) (a : AdmissionAuthority) (now : Time) : result unit :=
  let c := vt_Claims token in
  if negb (authority_valid a) || negb (validateClaimsShape c) || negb (validTokenBinding b)
  then Err [ErrUnauthorizedTokenBinding] else
  if negb (claims_match c b a) then Err [ErrUnauthorizedTokenBinding] else
  match parse_time (tc_DeadlineAt c) with
  | None => Err [ErrUnauthorizedTokenBinding]
  | Some deadline =>
      if negb (bool_decide (deadline = tb_DeadlineAt b)) then Err [ErrUnauthorizedTokenBinding] else
      if decide (IsZero now) then Err [ErrUnauthorizedTokenBinding] else
      if negb (validBearerLifetime c now) then Err [ErrUnauthorizedTokenBinding; errInactiveBearer] else
      if negb (validTokenLifetime c (tb_PolicyDecisionAt b) deadline now) then Err [ErrUnauthorizedTokenBinding] else
      Ok ()
  end.
End checks.
