(* ===== verification/AdmissionGate.v ===== *)
(** * Provider admission: the protected operation gate

    [VerifyCompactJWS], [DecodeAdmissionContextCarrier], [ValidateTarget],
    [VerifyRequestDigest], the static key source and [ProtectedOperationGate] of
    [provider/admission], over the port of the mutation guard.  The errors of the
    context and the readings of the clock are arguments, one for each place that
    asks for them. *)

From stdpp Require Import base strings list gmap.
From Stdlib Require Import Ascii ZArith Lia.
From S2P Require Import Prelude FileStore AdmissionJson AdmissionGuard AdmissionDecode AdmissionModel.

Local Open Scope Z_scope.

Definition ErrInvalidToken : sentinel := admission_error "ErrInvalidToken".
Definition ErrInvalidAdmissionContext : sentinel := admission_error "ErrInvalidAdmissionContext".
Definition ErrAdmissionContextTargetMismatch : sentinel := admission_error "ErrAdmissionContextTargetMismatch".
Definition ErrRequestDigestMismatch : sentinel := admission_error "ErrRequestDigestMismatch".
Definition ErrUnauthenticated : sentinel := admission_error "ErrUnauthenticated".
Definition ErrForbidden : sentinel := admission_error "ErrForbidden".
Definition ErrConflict : sentinel := admission_error "ErrConflict".
Definition ErrUnavailable : sentinel := admission_error "ErrUnavailable".

(** ** Keys *)

(** The dynamic type of a [crypto.PublicKey]: an Ed25519 key, a (possibly nil)
    [*ecdsa.PublicKey] with the name of its curve and its point, or another. *)
Record ecdsaKey := mkECDSA { ek_Curve : option string; ek_Point : option (Z * Z) }.
Inductive PublicKey := Ed25519Key (key : string) | ECDSAKey (key : option ecdsaKey) | OtherKey.

Record StaticTrustedKey := mkStaticKey { sk_ID : KeyID; sk_Algorithm : Algorithm; sk_PublicKey : PublicKey }.
Record staticTrustedKey := mkTrusted { tk_algorithm : Algorithm; tk_publicKey : PublicKey }.
Abbreviation staticTrustedKeySource := (gmap string staticTrustedKey).

Definition MaxStaticTrustedKeys : nat := 32.
Definition ed25519_PublicKeySize : nat := 32.
Definition P256 : string := "P-256".

(** [strings.Split(s, ".")] *)
Fixpoint split_dots (s : string) : list string :=
  match s with
  | EmptyString => [EmptyString]
  | String c s =>
      if bool_decide (c = "."%char) then EmptyString :: split_dots s else
      match split_dots s with
      | segment :: rest => String c segment :: rest
      | [] => [String c EmptyString]
      end
  end.

(** [strings.ContainsAny] *)
Definition contains_any (s chars : string) : bool := negb (all_bytes (λ c, negb (one_of chars c)) s).

(** The big-endian number of [new(big.Int).SetBytes]. *)
Definition SetBytes (s : string) : Z :=
  fold_left (λ n c, 256 * n + Z.of_N (byte c)) (String.list_ascii_of_string s) 0.

Section gate.
Context {pf : Platform}.

Definition clonePublicKeyForAlgorithm (algorithm : Algorithm) (key : PublicKey) : option PublicKey :=
  if decide (algorithm = AlgorithmEdDSA) then
    match key with
    | Ed25519Key k => if decide (String.length k = ed25519_PublicKeySize) then Some (Ed25519Key k) else None
    | _ => None
    end
  else if decide (algorithm = AlgorithmES256) then
    match key with
    | ECDSAKey (Some (mkECDSA _ (Some point))) => if on_P256 point then Some (ECDSAKey (Some (mkECDSA (Some P256) (Some point)))) else None
    | _ => None
    end
  else None.

Definition add_trusted_key (frozen : staticTrustedKeySource) (entry : StaticTrustedKey) : result staticTrustedKeySource :=
  if negb (validBoundedText (sk_ID entry) 1 128) || negb (Algorithm_Supported (sk_Algorithm entry))
  then Err [ErrExternal "trusted verification key is invalid"] else
  if decide (is_Some (frozen !! sk_ID entry)) then Err [ErrExternal "trusted verification key ID is duplicated"] else
  match clonePublicKeyForAlgorithm (sk_Algorithm entry) (sk_PublicKey entry) with
  | None => Err [ErrExternal "trusted verification key does not match its algorithm"]
  | Some key => Ok (<[sk_ID entry := mkTrusted (sk_Algorithm entry) key]> frozen)
  end.

Definition NewStaticTrustedKeySource (keys : list StaticTrustedKey) : result staticTrustedKeySource :=
  if decide (keys = [] ∨ (MaxStaticTrustedKeys < length keys)%nat)
  then Err [ErrExternal "trusted verification key count is outside the allowed range"] else
  foldM add_trusted_key ∅ keys.

Definition Lookup (ctx : option context_sentinel) (s : staticTrustedKeySource) (keyID : KeyID) (algorithm : Algorithm)
    : result PublicKey :=
  match ctx with
  | Some c => Err [c : sentinel]
  | None =>
      match s !! keyID with
      | Some entry =>
          if decide (tk_algorithm entry = algorithm) then
            match clonePublicKeyForAlgorithm algorithm (tk_publicKey entry) with
            | Some key => Ok key
            | None => Err [ErrExternal "trusted verification key is unavailable"]
            end
          else Err [ErrExternal "trusted verification key is unavailable"]
      | None => Err [ErrExternal "trusted verification key is unavailable"]
      end
  end.

(** ** Compact tokens *)

Definition decodeCompactSegment (segment : string) : option string :=
  match DecodeString segment with
  | Some decoded => if decide (decoded = EmptyString) then None else Some decoded
  | None => None
  end.

Definition verifySignature (algorithm : Algorithm) (key : PublicKey) (signingInput signature : string) : bool :=
  if decide (algorithm = AlgorithmEdDSA) then
    match key with
    | Ed25519Key k => bool_decide (String.length k = ed25519_PublicKeySize) && ed25519_Verify k signingInput signature
    | _ => false
    end
  else if decide (algorithm = AlgorithmES256) then
    match key with
    | ECDSAKey (Some k) =>
        if bool_decide (ek_Curve k = Some P256) && bool_decide (String.length signature = 64%nat)
        then match ek_Point k with
             | Some point => ecdsa_Verify point (sha256 signingInput) (SetBytes (String.substring 0 32 signature)) (SetBytes (String.substring 32 32 signature))
             | None => false
             end
        else false
    | _ => false
    end
  else false.

Definition decodeHeader (data : string) : option JWSHeader :=
  match decodeClosedJSON data (KStruct header_fields) with
  | Some v =>
      let header := header_of v in
      if hasExactRequiredJSONMembers data jwsHeaderMembers && validateHeader header then Some header else None
  | None => None
  end.

Definition decodeClaims (data : string) (a : AdmissionAuthority) : option TokenClaims :=
  match decodeClosedJSON data (KStruct claims_fields) with
  | Some v =>
      let claims := claims_of v in
      if hasExactRequiredJSONMembers data tokenClaimMembers && validateClaimsShape claims
         && bool_decide (tc_Issuer claims = issuer a) then Some claims else None
  | None => None
  end.

(** [ctx] is the error of the context at the start, in [Lookup] and after its
    failure. *)
Definition VerifyCompactJWS (ctx ctx_lookup ctx_failed : option context_sentinel) (compact : string)
    (keys : staticTrustedKeySource) (a : AdmissionAuthority) : result VerifiedToken :=
  match ctx with
  | Some c => Err [c : sentinel]
  | None =>
  if negb (authority_valid a) || bool_decide (compact = EmptyString)
     || bool_decide (Z.of_nat (String.length compact) > maxCompactJWSBytes) then Err [ErrInvalidToken] else
  match split_dots compact with
  | [s0; s1; s2] =>
      if decide (s0 = EmptyString ∨ s1 = EmptyString ∨ s2 = EmptyString) then Err [ErrInvalidToken] else
      match decodeCompactSegment s0, decodeCompactSegment s1, decodeCompactSegment s2 with
      | Some headerBytes, Some payloadBytes, Some signature =>
          match decodeHeader headerBytes with
          | None => Err [ErrInvalidToken]
          | Some header =>
          match decodeClaims payloadBytes a with
          | None => Err [ErrInvalidToken]
          | Some claims =>
          match Lookup ctx_lookup keys (jh_KeyID header) (jh_Algorithm header) with
          | Err _ => match ctx_failed with Some c => Err [c : sentinel] | None => Err [ErrInvalidToken] end
          | Ok key =>
              if verifySignature (jh_Algorithm header) key (s0 +:+ "." +:+ s1) signature
              then Ok (mkToken header claims) else Err [ErrInvalidToken]
          end end end
      | _, _, _ => Err [ErrInvalidToken]
      end
  | _ => Err [ErrInvalidToken]
  end end.

(** ** Documents *)

Definition canonicalSHA256 (canonical : string) : string := "sha256:" +:+ hex_encode (sha256 canonical).

(** [delete(document, name)], then [json.Marshal], which sorts the keys. *)
Definition marshal_without (name : string) (document : gmap string json) : string :=
  marshal (JObject (sort_by fst (map_to_list (delete name document)))).

Definition maxAdmissionDocumentBytes : Z := Z.shiftl 1 20.

Fixpoint last_byte (s : string) : option ascii :=
  match s with EmptyString => None | String c EmptyString => Some c | String _ s => last_byte s end.

Definition canonicalAdmissionDocument (document : string) : result string :=
  if decide (document = EmptyString ∨ Z.of_nat (String.length document) > maxAdmissionDocumentBytes
             ∨ utf8_count document = None) then Err [ErrInvalidRequestDocument] else
  _ ← validateStrictJSON parse_float (tokens document);
  match jcs_Transform document with
  | Some (String "{" rest as canonical) =>
      if decide ((2 <= String.length canonical)%nat ∧ last_byte canonical = Some "}"%char)
      then Ok canonical else Err [ErrInvalidRequestDocument]
  | _ => Err [ErrInvalidRequestDocument]
  end.

Definition canonicalWithoutRequestDigest (canonical expectedDigest : string) : result string :=
  match v ← parse canonical; json_object v with
  | None => Err [ErrInvalidRequestDocument]
  | Some document =>
      match document !! "request_digest"%string with
      | Some (JText requestDigest) =>
          if negb (digestPattern requestDigest) then Err [ErrInvalidRequestDocument] else
          if negb (bool_decide (requestDigest = expectedDigest)) then Err [ErrRequestDigestMismatch] else
          match jcs_Transform (marshal_without "request_digest" document) with
          | Some canonical => Ok canonical
          | None => Err [ErrInvalidRequestDocument]
          end
      | _ => Err [ErrInvalidRequestDocument]
      end
  end.

Definition VerifyRequestDigest (profile : DigestProfile) (expectedDigest document : string) : result unit :=
  if negb (DigestProfile_Supported profile) || negb (digestPattern expectedDigest) then Err [ErrInvalidRequestDocument] else
  match canonicalAdmissionDocument document with
  | Err _ => Err [ErrInvalidRequestDocument]
  | Ok canonical =>
      match (if decide (profile = DigestProfileRequestExcludingDigest)
             then canonicalWithoutRequestDigest canonical expectedDigest else Ok canonical) with
      | Err e => if errors_is e ErrRequestDigestMismatch then Err [ErrRequestDigestMismatch] else Err [ErrInvalidRequestDocument]
      | Ok canonical =>
          if negb (bool_decide (canonicalSHA256 canonical = expectedDigest)) then Err [ErrRequestDigestMismatch] else Ok ()
      end
  end.

(** ** The admission context *)

Definition admissionContextDigest (raw : string) : option string :=
  if hasNoDuplicateJSONKeys (tokens raw) then
    document ← v ← parse raw; json_object v;
    canonical ← jcs_Transform (marshal_without "context_digest" document);
    Some (canonicalSHA256 canonical)
  else None.

Definition carrier_separators : string :=
  String "=" (String " " (String (ascii_of_N 9) (String (ascii_of_N 13) (String (ascii_of_N 10) EmptyString)))).

Definition DecodeAdmissionContextCarrier (carrier : string) : result AdmissionContext :=
  if decide (carrier = EmptyString ∨ Z.of_nat (String.length carrier) > MaxAdmissionContextBytes)
  then Err [ErrInvalidAdmissionContext] else
  if contains_any carrier carrier_separators || bool_decide (utf8_count carrier = None)
  then Err [ErrInvalidAdmissionContext] else
  match DecodeString carrier with
  | None => Err [ErrInvalidAdmissionContext]
  | Some raw =>
      if decide (raw = EmptyString ∨ Z.of_nat (String.length raw) > MaxAdmissionContextBytes ∨ utf8_count raw = None)
      then Err [ErrInvalidAdmissionContext] else
      match decodeClosedJSON raw (KStruct context_fields), parse raw with
      | Some v, Some document =>
          let context := context_of v in
          if negb (exact_context_members document) || negb (validAdmissionContext context)
          then Err [ErrInvalidAdmissionContext] else
          if decide (admissionContextDigest raw = Some (cx_ContextDigest context))
          then Ok context else Err [ErrInvalidAdmissionContext]
      | _, _ => Err [ErrInvalidAdmissionContext]
      end
  end.

(** The parts of an [http.Request] that are compared. *)
Record HTTPRequest := mkRequest { hr_Method : string; hr_Path : string; hr_RawQuery : string; hr_ForceQuery : bool }.

Definition query_item (p : string * list string) : option AdmissionQuery :=
  match p.2 with
  | [value] => if decide (value = EmptyString) then None else Some (mkQuery p.1 value)
  | _ => None
  end.

Definition mustJSON (items : option (list AdmissionQuery)) : string :=
  json_query ((λ l : list AdmissionQuery, (λ q, (aq_Name q, aq_Value q)) <$> l) <$> items).

Definition ValidateTarget (context : AdmissionContext) (request : HTTPRequest) : result unit :=
  let target := cx_HTTPTarget context in
  if decide (at_Method target ≠ hr_Method request ∨ at_Path target ≠ hr_Path request)
  then Err [ErrAdmissionContextTargetMismatch] else
  match parse_query (hr_RawQuery request) with
  | None => Err [ErrAdmissionContextTargetMismatch]
  | Some query =>
      if hr_ForceQuery request && bool_decide (query = ∅) then Err [ErrAdmissionContextTargetMismatch] else
      match mapM query_item (map_to_list query) with
      | None => Err [ErrAdmissionContextTargetMismatch]
      | Some items =>
          if decide (mustJSON (Some (sort_by aq_Name items)) = mustJSON (at_NormalizedQuery target))
          then Ok () else Err [ErrAdmissionContextTargetMismatch]
      end
  end.

(** ** The gate *)

Record ProtectedOperationRequest := mkProtected { po_CompactToken : string; po_Binding : TokenBinding; po_Document : string }.

Record ProtectedOperationGate := mkGate { pg_keys : staticTrustedKeySource; pg_authority : AdmissionAuthority }.

(** [now] is the reading of the clock at construction. *)
Definition NewProtectedOperationGate (keys : staticTrustedKeySource) (a : AdmissionAuthority) (now : Time)
    : result ProtectedOperationGate :=
  if negb (authority_valid a) || bool_decide (IsZero now)
  then Err [ErrExternal "protected Provider admission requires keys, authority, clock, and mutation guard"] else
  Ok (mkGate keys a).

(** What a call meets: the errors of its context at each place that asks for
    one, the readings of the clock, and the faults of the guard's storage. *)
Record GateCall := mkCall {
  gc_ctx : option context_sentinel;
  gc_ctx_verify : option context_sentinel;
  gc_ctx_lookup : option context_sentinel;
  gc_ctx_lookup_failed : option context_sentinel;
  gc_ctx_verify_failed : option context_sentinel;
  gc_now : Time;
  gc_os : OSFaults;
  gc_now_guard : Time;
  gc_ctx_reserve_failed : option context_sentinel;
}.

Definition verify (call : GateCall) (compact : string) (g : ProtectedOperationGate) : result VerifiedToken :=
  VerifyCompactJWS (gc_ctx_verify call) (gc_ctx_lookup call) (gc_ctx_lookup_failed call) compact (pg_keys g) (pg_authority g).

(** The error reported for a token that does not verify. *)
Definition or_context {A} (ctx : option context_sentinel) (s : sentinel) : result A :=
  match ctx with Some c => Err [c : sentinel] | None => Err [s] end.

Definition AuthenticateBearer (call : GateCall) (compact : string) (g : ProtectedOperationGate) : result unit :=
  if negb (authority_valid (pg_authority g)) then Err [ErrUnavailable] else
  match gc_ctx call with
  | Some c => Err [c : sentinel]
  | None =>
      match verify call compact g with
      | Err _ => or_context (gc_ctx_verify_failed call) ErrUnauthenticated
      | Ok token => if validBearerLifetime (vt_Claims token) (gc_now call) then Ok () else Err [ErrUnauthenticated]
      end
  end.

Definition guard_request (c : TokenClaims) : MutationGuardRequest :=
  mkGuardRequest (tc_ProviderRevisionID c) (tc_SandboxID c) (tc_OperationID c) (tc_AttemptID c) (tc_FencingToken c)
    (sha256 (tc_JTI c)) (unix_time (tc_ExpiresAt c)).

(** The checks of [Admit] before the guard is asked. *)
Definition admit_checks (call : GateCall) (request : ProtectedOperationRequest) (g : ProtectedOperationGate)
    : result VerifiedToken :=
  if negb (authority_valid (pg_authority g)) then Err [ErrUnavailable] else
  match gc_ctx call with
  | Some c => Err [c : sentinel]
  | None =>
  match verify call (po_CompactToken request) g with
  | Err _ => or_context (gc_ctx_verify_failed call) ErrUnauthenticated
  | Ok token =>
  match ValidateTokenBinding token (po_Binding request) (pg_authority g) (gc_now call) with
  | Err e => if errors_is e errInactiveBearer then Err [ErrUnauthenticated] else Err [ErrForbidden]
  | Ok _ =>
  match VerifyRequestDigest (tc_RequestDigestProfile (vt_Claims token)) (tc_RequestDigest (vt_Claims token)) (po_Document request) with
  | Err e => if errors_is e ErrInvalidRequestDocument then Err [ErrForbidden; ErrInvalidRequestDocument] else Err [ErrForbidden]
  | Ok _ => Ok token
  end end end end.

(** The answer of the guard. *)
Definition guard_answer (ctx : option context_sentinel) (decision : result MutationGuardDecision) : result unit :=
  match decision with
  | Err _ => or_context ctx ErrUnavailable
  | Ok MutationGuardAccepted => Ok ()
  | Ok MutationGuardReplayed | Ok MutationGuardStaleFencing => Err [ErrConflict]
  end.

(** [Reserve] is the port of the guard. *)
Definition Admit {G} (reserve : MutationGuardRequest → G → result MutationGuardDecision * G)
    (call : GateCall) (request : ProtectedOperationRequest) (g : ProtectedOperationGate) (guard : G) : result unit * G :=
  match admit_checks call request g with
  | Err e => (Err e, guard)
  | Ok token =>
      if negb (Mutation (tc_Operation (vt_Claims token))) then (Ok (), guard) else
      let '(decision, guard') := reserve (guard_request (vt_Claims token)) guard in
      (guard_answer (gc_ctx_reserve_failed call) decision, guard')
  end.

(** ** What an admitted request is *)

(** The segments, the header and the claims of a token that verifies. *)
Record signed_by (a : AdmissionAuthority) (keys : staticTrustedKeySource) (compact : string) (token : VerifiedToken) : Prop :=
  mkSigned {
    sb_parts : ∃ s0 s1 s2 headerBytes payload signature key,
      split_dots compact = [s0; s1; s2] ∧ DecodeString s0 = Some headerBytes ∧ DecodeString s1 = Some payload ∧
      DecodeString s2 = Some signature ∧ decodeHeader headerBytes = Some (vt_Header token) ∧
      decodeClaims payload a = Some (vt_Claims token) ∧
      (∃ entry, keys !! jh_KeyID (vt_Header token) = Some entry ∧ tk_algorithm entry = jh_Algorithm (vt_Header token) ∧
         clonePublicKeyForAlgorithm (jh_Algorithm (vt_Header token)) (tk_publicKey entry) = Some key) ∧
      verifySignature (jh_Algorithm (vt_Header token)) key (s0 +:+ "." +:+ s1) signature = true;
    sb_issuer : tc_Issuer (vt_Claims token) = issuer a;
    sb_shape : validateClaimsShape (vt_Claims token) = true;
  }.

Lemma decodeCompactSegment_Some s b : decodeCompactSegment s = Some b → DecodeString s = Some b.
Proof using. unfold decodeCompactSegment. destruct (DecodeString s); [|done]. case_decide; [done|]. by intros [= ->]. Qed.

Lemma Lookup_Ok ctx keys kid alg key :
  Lookup ctx keys kid alg = Ok key →
  ∃ entry, keys !! kid = Some entry ∧ tk_algorithm entry = alg ∧ clonePublicKeyForAlgorithm alg (tk_publicKey entry) = Some key.
Proof using.
  unfold Lookup. destruct ctx; [done|]. destruct (keys !! kid) as [entry|]; [|done]. case_decide; [|done].
  destruct (clonePublicKeyForAlgorithm alg _) eqn:E; [|done]. intros [= ->]. eauto.
Qed.

Lemma decodeClaims_Some data a c :
  decodeClaims data a = Some c → validateClaimsShape c = true ∧ tc_Issuer c = issuer a.
Proof using.
  unfold decodeClaims. destruct (decodeClosedJSON data _) as [v|]; [|done].
  destruct (_ && _ && _) eqn:E; [|done]. intros [= <-].
  apply andb_true_iff in E as [[_ ?]%andb_true_iff ?%bool_decide_eq_true]. done.
Qed.

Lemma verify_Ok call compact g token :
  verify call compact g = Ok token → signed_by (pg_authority g) (pg_keys g) compact token.
Proof using.
  unfold verify, VerifyCompactJWS. intros H. destruct (gc_ctx_verify call); [done|].
  destruct (_ || _ || _); [done|]. destruct (split_dots compact) as [|s0 [|s1 [|s2 [|]]]] eqn:Es; try done.
  case_decide; [done|].
  destruct (decodeCompactSegment s0) as [hb|] eqn:E0; [|done]. destruct (decodeCompactSegment s1) as [pb|] eqn:E1; [|done].
  destruct (decodeCompactSegment s2) as [sg|] eqn:E2; [|done].
  destruct (decodeHeader hb) as [header|] eqn:Eh; [|done]. destruct (decodeClaims pb _) as [claims|] eqn:Ec; [|done].
  destruct (Lookup _ _ _ _) as [key|] eqn:El; [|by destruct (gc_ctx_lookup_failed call)].
  destruct (verifySignature _ _ _ _) eqn:Ev; [|done]. injection H as <-. cbn.
  destruct (decodeClaims_Some _ _ _ Ec) as [? ?]. split; [|done|done]. cbn.
  exists s0, s1, s2, hb, pb, sg, key. split_and!; eauto using decodeCompactSegment_Some, Lookup_Ok.
Qed.
End gate.
