(* ===== verification/AdmissionAdmit.v ===== *)
(** * Provider admission: what admission guarantees

    The claims of a verified token are exactly the members of its payload; an
    admitted request is signed, bound, alive and digested as its token says; and,
    with the file guard behind the gate, a mutation token is admitted at most once
    whatever crashes. *)

From stdpp Require Import base strings list gmap.
From Stdlib Require Import Ascii ZArith Lia.
From S2P Require Import Prelude FileStore AdmissionJson AdmissionGuard AdmissionDecode AdmissionModel AdmissionGate.

Local Open Scope Z_scope.

(** ** Claims *)

Definition claims_texts (c : TokenClaims) : list (string * string) :=
  [("jti", tc_JTI c); ("iss", tc_Issuer c); ("sub", tc_Subject c); ("aud", tc_Audience c); ("operation", tc_Operation c);
   ("provider_revision_id", tc_ProviderRevisionID c); ("sandbox_id", tc_SandboxID c); ("operation_id", tc_OperationID c);
   ("attempt_id", tc_AttemptID c); ("tenant_id", tc_TenantID c); ("work_order_id", tc_WorkOrderID c);
   ("policy_digest", tc_PolicyDigest c); ("policy_decided_at", tc_PolicyDecidedAt c);
   ("request_contract_id", tc_RequestContractID c); ("request_digest_profile", tc_RequestDigestProfile c);
   ("request_digest", tc_RequestDigest c); ("deadline_at", tc_DeadlineAt c);
   ("admission_context_contract_id", tc_AdmissionContextContractID c);
   ("admission_context_digest_profile", tc_AdmissionContextDigestProfile c);
   ("admission_context_digest", tc_AdmissionContextDigest c)]%string.

Definition claims_ints (c : TokenClaims) : list (string * Z) :=
  [("iat", tc_IssuedAt c); ("nbf", tc_NotBefore c); ("exp", tc_ExpiresAt c); ("fencing_token", tc_FencingToken c)]%string.

Section admission.
Context {pf : Platform} {pl : PlatformLaws}.

(** The members of a payload, and the claims read from them. *)
Definition payload_of (ms : list (string * json)) (c : TokenClaims) : Prop :=
  NoDup ms.*1 ∧ ms.*1 ≡ₚ tokenClaimMembers ∧
  Forall (λ p : string * string, (p.1, JText p.2) ∈ ms) (claims_texts c) ∧
  Forall (λ p : string * Z, ∃ literal, (p.1, JNumber literal) ∈ ms ∧ parse_int literal = Some p.2) (claims_ints c).

Lemma closed_text (vals : list value) (ms : list (string * json)) i name v y :
  v ≠ JNull → (name, v) ∈ ms → vals !! i = Some y → decode_value v KText (zero_value KText) = Some y →
  (name, JText (text_at vals i)) ∈ ms.
Proof using. intros ? Hv Hy Hd. destruct v; cbn in Hd; try done. simplify_eq. unfold text_at. by rewrite Hy. Qed.

Lemma closed_int (vals : list value) (ms : list (string * json)) i name v y :
  v ≠ JNull → (name, v) ∈ ms → vals !! i = Some y → decode_value v KInt64 (zero_value KInt64) = Some y →
  ∃ literal, (name, JNumber literal) ∈ ms ∧ parse_int literal = Some (int_at vals i).
Proof using.
  intros ? Hv Hy Hd. destruct v as [| literal| | | |]; cbn in Hd; try done. apply fmap_Some in Hd as (z & Hz & ->).
  exists literal. split; [done|]. unfold int_at. by rewrite Hy.
Qed.

Lemma claims_fields_members : claims_fields.*1 = tokenClaimMembers.
Proof using. done. Qed.
Lemma tokenClaimMembers_NoDup : NoDup tokenClaimMembers.
Proof using. apply (bool_decide_unpack _). vm_compute. exact I. Qed.

(** Where the claims stand among the fields. *)
Definition text_positions : list (string * nat) :=
  omap (λ p, match p.2.2 with KText => Some (p.2.1, p.1) | _ => None end) (zip (seq 0 24) claims_fields).
Definition int_positions : list (string * nat) :=
  omap (λ p, match p.2.2 with KInt64 => Some (p.2.1, p.1) | _ => None end) (zip (seq 0 24) claims_fields).

Lemma text_positions_ok : Forall (λ p, claims_fields !! p.2 = Some (p.1, KText)) text_positions.
Proof using. vm_compute. repeat constructor. Qed.
Lemma int_positions_ok : Forall (λ p, claims_fields !! p.2 = Some (p.1, KInt64)) int_positions.
Proof using. vm_compute. repeat constructor. Qed.

Lemma decodeClaims_payload data a c :
  decodeClaims data a = Some c → ∃ ms, parse data = Some (JObject ms) ∧ payload_of ms c.
Proof using pl.
  unfold decodeClaims. destruct (decodeClosedJSON data _) as [v|] eqn:Ed; [|done].
  destruct (_ && _ && _) eqn:E; [|done]. intros [= <-]. apply andb_true_iff in E as [[Hm _]%andb_true_iff _].
  rewrite <- claims_fields_members in Hm.
  destruct (closed_document_fields data claims_fields v) as (ms & vals & Hp & Hms & Hin & -> & Hf); try done.
  { rewrite claims_fields_members. apply tokenClaimMembers_NoDup. }
  exists ms. split; [done|]. split_and!; [done|by rewrite Hin| |].
  - change (claims_texts _) with ((λ p : string * nat, (p.1, text_at vals p.2)) <$> text_positions).
    apply Forall_fmap. eapply Forall_impl; [apply text_positions_ok|]. intros [name i] Hi. cbn in *.
    destruct (Hf _ _ _ Hi) as (v & y & ? & ? & ? & ?). by eapply closed_text.
  - change (claims_ints _) with ((λ p : string * nat, (p.1, int_at vals p.2)) <$> int_positions).
    apply Forall_fmap. eapply Forall_impl; [apply int_positions_ok|]. intros [name i] Hi. cbn in *.
    destruct (Hf _ _ _ Hi) as (v & y & ? & ? & ? & ?). by eapply closed_int.
Qed.

(** the claims are the payload's members: a payload that is accepted is a
    JSON object whose members are exactly the locked claim names, each once, and
    every claim is the value of the member with exactly its name.  No member whose
    name differs in case, no duplicate and no null can stand for a claim. *)
Theorem claims_are_the_payload data a c :
  decodeClaims data a = Some c →
  ∃ ms, parse data = Some (JObject ms) ∧ ms.*1 ≡ₚ tokenClaimMembers ∧ NoDup ms.*1 ∧
    (∀ name s, (name, s) ∈ claims_texts c → (name, JText s) ∈ ms) ∧
    (∀ name z, (name, z) ∈ claims_ints c → ∃ literal, (name, JNumber literal) ∈ ms ∧ parse_int literal = Some z).
Proof using pl.
  intros (ms & Hp & Hnd & Hperm & Ht & Hi)%decodeClaims_payload. exists ms. rewrite Forall_forall in Ht. rewrite Forall_forall in Hi.
  split_and!; [done..| |]; intros name x Hx; [by apply (Ht (name, x))|by apply (Hi (name, x))].
Qed.

(** ** Lifetimes *)

Lemma claims_range data a c :
  decodeClaims data a = Some c → i64_range (tc_IssuedAt c) ∧ i64_range (tc_NotBefore c) ∧ i64_range (tc_ExpiresAt c).
Proof using pl.
  intros (ms & _ & _ & _ & _ & Hi)%decodeClaims_payload. unfold claims_ints in Hi.
  repeat (apply Forall_cons in Hi as [(? & _ & ?%parse_int_range) Hi]). done.
Qed.

Lemma shape_ints c :
  validateClaimsShape c = true → 0 ≤ tc_IssuedAt c ∧ 0 ≤ tc_NotBefore c ∧ 0 ≤ tc_ExpiresAt c ∧ 1 ≤ tc_FencingToken c.
Proof using.
  unfold validateClaimsShape. destruct (_ || _ || _ || _); [done|].
  destruct (bool_decide _) eqn:E; [done|]. apply bool_decide_eq_false in E. intros _. lia.
Qed.

(** The window of a bearer is at most five minutes long and contains [now]. *)
Lemma bearer_window c now :
  i64_range (tc_IssuedAt c) → i64_range (tc_ExpiresAt c) → 0 ≤ tc_IssuedAt c → 0 ≤ tc_ExpiresAt c →
  validBearerLifetime c now = true →
  ¬ IsZero now ∧ tc_IssuedAt c ≤ tc_NotBefore c < tc_ExpiresAt c ∧ tc_ExpiresAt c ≤ tc_IssuedAt c + 300 ∧
  unix_time (tc_NotBefore c) ≤ now < unix_time (tc_ExpiresAt c) ∧ unix_time (tc_ExpiresAt c) ≤ now + maxTokenLifetime.
Proof using.
  unfold i64_range. intros Hri Hre Hi He. unfold validBearerLifetime, Before.
  destruct (bool_decide _) eqn:E; [done|]. apply bool_decide_eq_false in E.
  assert (Hz : ¬ IsZero now) by tauto. assert (H1 : tc_IssuedAt c ≤ tc_NotBefore c < tc_ExpiresAt c) by lia.
  assert (H2 : i64 (tc_ExpiresAt c - tc_IssuedAt c) ≤ 300) by lia. clear E.
  rewrite i64_small in H2 by (unfold i64_range; lia).
  rewrite andb_true_iff, negb_true_iff, bool_decide_eq_false, bool_decide_eq_true. intros [H3 H4].
  split_and!; [done|lia..| |lia|lia|]; [lia|].
  unfold maxTokenLifetime, unix_time, unixToInternal, i64, Second in *.
  assert (Hnw : (tc_NotBefore c + 62135596800 + 2^63) `mod` 2^64 ≤ (tc_ExpiresAt c + 62135596800 + 2^63) `mod` 2^64) by lia.
  Z.to_euclidean_division_equations. lia.
Qed.

(** ** Admission *)

Lemma ValidateTokenBinding_Ok token b a now :
  ValidateTokenBinding token b a now = Ok () →
  claims_match (vt_Claims token) b a = true ∧ parse_time (tc_DeadlineAt (vt_Claims token)) = Some (tb_DeadlineAt b) ∧
  validBearerLifetime (vt_Claims token) now = true ∧
  validTokenLifetime (vt_Claims token) (tb_PolicyDecisionAt b) (tb_DeadlineAt b) now = true.
Proof using.
  unfold ValidateTokenBinding. destruct (_ || _ || _); [done|]. destruct (claims_match _ b a); [|done].
  destruct (parse_time _) as [deadline|]; [|done]. destruct (bool_decide _) eqn:Ed; [|done].
  apply bool_decide_eq_true in Ed as ->. case_decide; [done|].
  destruct (validBearerLifetime _ now); [|done]. by destruct (validTokenLifetime _ _ _ now).
Qed.

(** The document is the one whose digest the token carries. *)
Definition digested (profile digest document : string) : Prop :=
  ∃ canonical, jcs_Transform document = Some canonical ∧
    if decide (profile = DigestProfileRequestExcludingDigest) then
      ∃ members rest, parse canonical = Some members ∧ json_object members = Some rest ∧
        rest !! "request_digest"%string = Some (JText digest) ∧
        ∃ stripped, jcs_Transform (marshal_without "request_digest" rest) = Some stripped ∧ canonicalSHA256 stripped = digest
    else canonicalSHA256 canonical = digest.

Lemma canonicalAdmissionDocument_Ok document canonical :
  canonicalAdmissionDocument document = Ok canonical → jcs_Transform document = Some canonical.
Proof using.
  unfold canonicalAdmissionDocument. case_decide; [done|]. destruct (validateStrictJSON _ _); [|done]. cbn.
  destruct (jcs_Transform document) as [[|c rest]|]; [done| |done].
  destruct c as [[] [] [] [] [] [] [] []]; try done. case_decide; [|done]. by intros [= <-].
Qed.

Lemma VerifyRequestDigest_Ok profile digest document :
  VerifyRequestDigest profile digest document = Ok () → digested profile digest document.
Proof using.
  unfold VerifyRequestDigest, digested. destruct (_ || _); [done|].
  destruct (canonicalAdmissionDocument document) as [canonical|] eqn:Ec; [|done].
  apply canonicalAdmissionDocument_Ok in Ec. intros H. exists canonical. split; [done|]. case_decide.
  - unfold canonicalWithoutRequestDigest in H. destruct (parse canonical) as [members|] eqn:Ep; [|done]. cbn in H.
    destruct (json_object members) as [rest|] eqn:Ej; [|done]. exists members, rest.
    destruct (rest !! _) as [[requestDigest| | | | |]|]; try done.
    destruct (digestPattern requestDigest); [|done]. cbn [negb] in H.
    destruct (bool_decide (requestDigest = digest)) eqn:Ed; [|done]. apply bool_decide_eq_true in Ed as ->. cbn [negb] in H.
    destruct (jcs_Transform (marshal_without _ _)) as [stripped|] eqn:Es; [|done].
    destruct (bool_decide _) eqn:Eq; [|done]. apply bool_decide_eq_true in Eq. eauto 10.
  - destruct (bool_decide _) eqn:Eq; [|done]. by apply bool_decide_eq_true in Eq.
Qed.

(** What the checks before the guard establish. *)
Record checked (call : GateCall) (request : ProtectedOperationRequest) (g : ProtectedOperationGate) (token : VerifiedToken) : Prop :=
  mkChecked {
    ck_signed : signed_by (pg_authority g) (pg_keys g) (po_CompactToken request) token;
    ck_match : claims_match (vt_Claims token) (po_Binding request) (pg_authority g) = true;
    ck_deadline : parse_time (tc_DeadlineAt (vt_Claims token)) = Some (tb_DeadlineAt (po_Binding request));
    ck_alive : validBearerLifetime (vt_Claims token) (gc_now call) = true;
    ck_window : validTokenLifetime (vt_Claims token) (tb_PolicyDecisionAt (po_Binding request))
                  (tb_DeadlineAt (po_Binding request)) (gc_now call) = true;
    ck_digest : digested (tc_RequestDigestProfile (vt_Claims token)) (tc_RequestDigest (vt_Claims token)) (po_Document request);
  }.

Lemma admit_checks_Ok call request g token : admit_checks call request g = Ok token → checked call request g token.
Proof using.
  unfold admit_checks. destruct (authority_valid _); [|done]. cbn [negb]. destruct (gc_ctx call); [done|].
  destruct (verify call _ g) as [t|] eqn:Ev; [|by destruct (gc_ctx_verify_failed call)].
  destruct (ValidateTokenBinding t _ _ _) as [[]|] eqn:Eb; [|by case_match].
  destruct (VerifyRequestDigest _ _ _) as [[]|] eqn:Ed; [|by case_match]. intros [= <-].
  apply ValidateTokenBinding_Ok in Eb as (? & ? & ? & ?). apply VerifyRequestDigest_Ok in Ed.
  apply verify_Ok in Ev. by split.
Qed.

Lemma checked_window call request g token :
  checked call request g token →
  let c := vt_Claims token in
  ¬ IsZero (gc_now call) ∧ tc_IssuedAt c ≤ tc_NotBefore c < tc_ExpiresAt c ∧ tc_ExpiresAt c ≤ tc_IssuedAt c + 300 ∧
  unix_time (tc_NotBefore c) ≤ gc_now call < unix_time (tc_ExpiresAt c) ∧
  unix_time (tc_ExpiresAt c) ≤ gc_now call + maxTokenLifetime.
Proof using pl.
  intros [[(s0 & s1 & s2 & hb & pb & sg & key & _ & _ & _ & _ & _ & Hc & _) _ Hs] _ _ Ha _ _].
  apply claims_range in Hc as (? & ? & ?). apply shape_ints in Hs as (? & ? & ? & _). by apply bearer_window.
Qed.

(** An admitted request passed the checks, and the guard if it is a mutation. *)
Lemma Admit_Ok {G} (reserve : MutationGuardRequest → G → result MutationGuardDecision * G) call request g guard guard' :
  Admit reserve call request g guard = (Ok (), guard') →
  ∃ token, checked call request g token ∧
    if Mutation (tc_Operation (vt_Claims token))
    then reserve (guard_request (vt_Claims token)) guard = (Ok MutationGuardAccepted, guard') else guard' = guard.
Proof using.
  unfold Admit. destruct (admit_checks call request g) as [token|] eqn:Ec; [|done]. intros H. exists token.
  split; [by apply admit_checks_Ok|]. destruct (Mutation _); cbn [negb] in H; [|by simplify_eq].
  destruct (reserve _ guard) as [[[]|e] g'] eqn:Er; cbn in H; simplify_eq; try done.
  by destruct (gc_ctx_reserve_failed call).
Qed.

(** C12 (safety): only genuine requests are admitted: an admitted request carries a token
    signed with the trusted key its header names, whose claims are the members of
    its signed payload and agree with the caller, the provider, the operation, the
    sandbox, the attempt, the fencing token, the tenant, the work order and the
    policy the transport bound; its window is at most five minutes, contains the
    present, starts after the policy decision and ends before the deadline; its
    digest is that of the document; and a mutation was accepted by the guard. *)
Theorem admitted_requests_are_genuine {G} (reserve : MutationGuardRequest → G → result MutationGuardDecision * G)
    call request g guard guard' :
  Admit reserve call request g guard = (Ok (), guard') →
  ∃ token, signed_by (pg_authority g) (pg_keys g) (po_CompactToken request) token ∧
    let c := vt_Claims token in let b := po_Binding request in
    (tc_Issuer c = issuer (pg_authority g) ∧ tc_ProviderRevisionID c = providerRevisionID (pg_authority g) ∧
     tc_Audience c = providerInstanceAudience (pg_authority g)) ∧
    (tc_Subject c = tb_Caller b ∧ tc_Operation c = tb_Operation b ∧ tc_SandboxID c = tb_SandboxID b ∧
     tc_OperationID c = tb_OperationID b ∧ tc_AttemptID c = tb_AttemptID b ∧ tc_FencingToken c = tb_FencingToken b ∧
     tc_TenantID c = tb_TenantID b ∧ tc_WorkOrderID c = tb_WorkOrderID b ∧ tc_PolicyDigest c = tb_PolicyDigest b ∧
     tc_RequestDigest c = tb_RequestDigest b ∧ tc_AdmissionContextDigest c = tb_AdmissionContextDigest b) ∧
    (unix_time (tc_NotBefore c) ≤ gc_now call < unix_time (tc_ExpiresAt c) ∧
     unix_time (tc_ExpiresAt c) ≤ gc_now call + maxTokenLifetime ∧
     tb_PolicyDecisionAt b ≤ unix_time (tc_NotBefore c) ∧ unix_time (tc_ExpiresAt c) ≤ tb_DeadlineAt b) ∧
    digested (tc_RequestDigestProfile c) (tc_RequestDigest c) (po_Document request) ∧
    (if Mutation (tc_Operation c) then reserve (guard_request c) guard = (Ok MutationGuardAccepted, guard') else guard' = guard).
Proof using pl.
  intros (token & Hc & Hg)%Admit_Ok. exists token. destruct (checked_window _ _ _ _ Hc) as (_ & _ & _ & ? & ?).
  destruct Hc as [? Hm _ _ Hw Hd]. split; [done|]. cbv zeta.
  unfold claims_match in Hm. apply bool_decide_eq_true in Hm. destruct_and! Hm.
  unfold validTokenLifetime, Before, After in Hw. destruct (negb (validBearerLifetime _ _)); [done|].
  apply negb_true_iff, bool_decide_eq_false in Hw. split_and!; done || lia.
Qed.

(** ** The gate before the file guard *)

Context {bytes : Type} (encode : snapshot → option bytes) (file_size : bytes → Z) (decode : bytes → option snapshot).
Context (json_roundtrip : ∀ s b, encode s = Some b → decode b = Some s).

(** The port, implemented by the guard and its file. *)
Definition file_reserve (call : GateCall) (r : MutationGuardRequest) (st : Guard * Store (bytes := bytes))
    : result MutationGuardDecision * (Guard * Store) :=
  let '(decision, guard, store) := Reserve sha256 encode file_size (gc_os call) (gc_now_guard call) r st.1 st.2 in
  (decision, (guard, store)).

(** A gate process and its guard; the admitted mutations and when, newest first. *)
Record gate_world := mkGateWorld {
  gw_guard : option Guard;
  gw_store : Store (bytes := bytes);
  gw_now : Time;
  gw_admitted : list (TokenClaims * Time);
}.

(** A request, or what happens to the process of the guard. *)
Inductive gate_event := GvAdmit (call : GateCall) (request : ProtectedOperationRequest) | GvGuard (ev : guard_event).

(** The claims with which a request reaches the guard. *)
Definition reserving (call : GateCall) (request : ProtectedOperationRequest) (g : ProtectedOperationGate) : option TokenClaims :=
  match admit_checks call request g with
  | Ok token => if Mutation (tc_Operation (vt_Claims token)) then Some (vt_Claims token) else None
  | Err _ => None
  end.

Definition gate_step (g : ProtectedOperationGate) (w : gate_world) (ev : gate_event) : gate_world :=
  match ev with
  | GvAdmit call request =>
      match gw_guard w with
      | None => w
      | Some guard =>
          let '(answer, (guard', store')) := Admit (file_reserve call) call request g (guard, gw_store w) in
          match reserving call request g with
          | None => mkGateWorld (Some guard') store' (gw_now w) (gw_admitted w)
          | Some c =>
              mkGateWorld (Some guard') store' (gc_now_guard call)
                (match answer with Ok _ => (c, gc_now_guard call) :: gw_admitted w | Err _ => gw_admitted w end)
          end
      end
  | GvGuard ev =>
      let w' := guard_step sha256 encode file_size decode (mkWorld (gw_guard w) (gw_store w) (gw_now w) []) ev in
      mkGateWorld (w_guard w') (w_store w') (w_now w') (gw_admitted w)
  end.

Definition gate_run (g : ProtectedOperationGate) : list gate_event → gate_world → gate_world := flip (foldl (gate_step g)).

(** Requests reserve through the gate only; the clock of the process goes forward. *)
Definition gate_times (ev : gate_event) (now : Time) : Prop :=
  match ev with
  | GvAdmit call _ => now ≤ gc_now_guard call
  | GvGuard (EvReserve _ _ _) => False
  | GvGuard ev => event_times ev now
  end.

Fixpoint gate_timely (g : ProtectedOperationGate) (evs : list gate_event) (w : gate_world) : Prop :=
  match evs with [] => True | ev :: evs => gate_times ev (gw_now w) ∧ gate_timely g evs (gate_step g w ev) end.

Definition first_gate (start : Time) : gate_world := mkGateWorld None (mkStore None None) start [].

(** The guard's view of the history. *)
Definition guard_view (w : gate_world) : world :=
  mkWorld (gw_guard w) (gw_store w) (gw_now w) ((λ p, accept sha256 p.2 (guard_request p.1)) <$> gw_admitted w).

Lemma guard_answer_accepted ctx d : is_ok (guard_answer ctx d) = true ↔ d = Ok MutationGuardAccepted.
Proof using. destruct d as [[]|]; cbn; try done. destruct ctx; done. Qed.

(** The gate is a client of the guard: a request is one reservation or none. *)
Lemma gate_step_view g w ev :
  gate_times ev (gw_now w) →
  guard_view (gate_step g w ev) = guard_view w ∨
  ∃ gev, event_times gev (gw_now w) ∧ guard_view (gate_step g w ev) = guard_step sha256 encode file_size decode (guard_view w) gev.
Proof using pl.
  destruct ev as [call request|gev]; cbn [gate_times gate_step].
  - intros Hnow. destruct w as [[guard|] store now admitted]; [|by left]. cbn [gw_guard gw_store gw_now gw_admitted].
    unfold Admit, reserving. destruct (admit_checks call request g) as [token|]; [|by left].
    destruct (Mutation _); cbn [negb]; [|by left]. right.
    exists (EvReserve (gc_os call) (gc_now_guard call) (guard_request (vt_Claims token))). split.
    { split; [done|]. apply sha256_length. }
    cbn [guard_step guard_view w_guard gw_guard w_store gw_store w_log]. unfold file_reserve. cbn [fst snd].
    destruct (Reserve _ _ _ _ _ _ guard store) as [[d guard'] store']. unfold guard_view. cbn. f_equal.
    pose proof (guard_answer_accepted (gc_ctx_reserve_failed call) d) as Ha.
    destruct (guard_answer _ d); cbn in Ha; destruct d as [[]|]; try done; naive_solver.
  - intros Ht. right. exists gev. destruct gev as [|path faults os now0 now1 now2| |p]; [done|..]; split; try done.
    cbn. unfold guard_view. cbn. case_match; [done|]. by destruct (NewGuard _ _ _ _ _ _ _ _ _ _) as [? ?].
Qed.

Lemma gate_run_sound g evs w :
  gate_timely g evs w → sound_world encode file_size (guard_view w) →
  sound_world encode file_size (guard_view (gate_run g evs w)).
Proof using pl json_roundtrip.
  revert w. induction evs as [|ev evs IH]; intros w Ht Hw; [done|]. destruct Ht as [Hev Ht].
  apply (IH (gate_step g w ev) Ht). destruct (gate_step_view g w ev Hev) as [->|(gev & Hg & ->)]; [done|].
  apply step_sound; auto using sha256_length.
Qed.

(** C3 (safety): end to end, a mutation token is admitted at most once: in any history of
    requests with failing storage, closings, crashes, power losses and reopenings,
    while the clock does not go back, two admitted mutations never carry the same
    token id and expiry, and the fencing tokens admitted for one operation of a
    sandbox do not go back while an earlier token has not expired. *)
Theorem mutations_admitted_once g evs start l1 c2 t2 l2 c1 t1 :
  0 ≤ start → gate_timely g evs (first_gate start) →
  gw_admitted (gate_run g evs (first_gate start)) = l1 ++ (c2, t2) :: l2 → (c1, t1) ∈ l2 →
  (tc_JTI c2, tc_ExpiresAt c2) ≠ (tc_JTI c1, tc_ExpiresAt c1) ∧
  (tc_ProviderRevisionID c2 = tc_ProviderRevisionID c1 → tc_SandboxID c2 = tc_SandboxID c1 →
   tc_OperationID c2 = tc_OperationID c1 → t2 < unix_time (tc_ExpiresAt c1) → tc_FencingToken c1 ≤ tc_FencingToken c2).
Proof using pl json_roundtrip.
  intros H0 Ht Hlog Hin. pose proof (first_world_sound encode file_size start H0) as H1.
  apply (gate_run_sound g evs (first_gate start) Ht) in H1 as (_ & _ & _ & _ & _ & Hord).
  unfold guard_view in Hord. cbn [w_log] in Hord. rewrite Hlog, fmap_app, fmap_cons in Hord.
  destruct (Hord _ _ _ (accept sha256 t1 (guard_request c1)) eq_refl) as ((_ & Hlive) & Hj & Hs).
  { apply list_elem_of_fmap. by exists (c1, t1). }
  unfold accept, scopeFingerprint in Hj, Hs, Hlive. cbn in Hj, Hs, Hlive. split.
  - intros [= Hjti Hexp]. rewrite Hjti in Hj. rewrite Hexp in Hlive. specialize (Hj eq_refl). lia.
  - intros Hr Hsb Hop Hnow. rewrite Hr, Hsb, Hop in Hs. by apply Hs.
Qed.

(** ** The gate never confuses the guard *)

Lemma utf8_bytes n s : utf8_count s = Some n → (String.length s <= 4 * n)%nat.
Proof using.
  remember (String.length s) as len eqn:Hlen. assert (Hle : (String.length s <= len)%nat) by lia. rewrite Hlen. clear Hlen.
  revert s n Hle. induction len as [|len IH]; intros s n Hle H.
  { destruct s; cbn in *; [lia|lia]. }
  assert (Hstep : ∀ k (t : string), (String.length t <= len)%nat → S <$> utf8_count t = Some n → (k <= 4)%nat →
            (k + String.length t <= 4 * n)%nat).
  { intros k t Hl (m & Hm & ->)%fmap_Some Hk. specialize (IH t m Hl Hm). lia. }
  destruct s as [|c s1]; [cbn; lia|]. cbn in H, Hle. destruct (in_range 0 127 c); [by apply (Hstep 1%nat s1); [lia|..]; try lia|].
  destruct s1 as [|d s2]; [done|]. cbn in Hle. destruct (lead2 c d); [apply (Hstep 2%nat s2); [lia|done|lia]|].
  destruct s2 as [|e s3]; [done|]. cbn in Hle. destruct (lead3 c d && continuation e); [apply (Hstep 3%nat s3); [lia|done|lia]|].
  destruct s3 as [|f s4]; [done|]. cbn in Hle. destruct (_ && _ && _); [apply (Hstep 4%nat s4); [lia|done|lia]|done].
Qed.

Lemma bounded_text value minimum maximum :
  validBoundedText value minimum maximum = true →
  is_Some (utf8_count value) ∧ blank value = false ∧ (String.length value <= 4 * maximum)%nat.
Proof using.
  unfold validBoundedText, validRequiredText, validBoundedString.
  destruct (utf8_count value) as [n|] eqn:E; [|by rewrite bool_decide_false by (by intros [])].
  rewrite !andb_true_iff, negb_true_iff, !Nat.leb_le. intros [[_ ?] [_ ?]]. apply utf8_bytes in E. split_and!; [eauto|done|lia].
Qed.

Lemma scope_fits l total :
  Forall (λ s, validBoundedText s 1 200 = true) l → 0 ≤ total → total + 800 * Z.of_nat (length l) ≤ maxScopeInputBytes →
  is_ok (foldM add_scope_bytes total l) = true.
Proof using.
  intros Hl. revert total. induction Hl as [|s l Hs Hl IH]; intros total H0 Hmax; [done|].
  apply bounded_text in Hs as ([n Hn] & Hb & Hlen). cbn [foldM]. unfold add_scope_bytes at 1.
  rewrite decide_False by (rewrite Hn, Hb; naive_solver). cbn [length] in Hmax. rewrite decide_False by lia.
  cbn [mbind result_bind]. apply IH; lia.
Qed.

Lemma shape_texts c :
  validateClaimsShape c = true →
  Forall (λ s, validBoundedText s 1 200 = true) [tc_ProviderRevisionID c; tc_SandboxID c; tc_OperationID c; tc_AttemptID c].
Proof using.
  unfold validateClaimsShape. repeat (case_match; [done|]).
  rewrite forallb_forall. intros Hall. apply Forall_forall. intros x Hx%list_elem_of_In. apply Hall.
  cbn in *. tauto.
Qed.

(** What the gate asks of the guard is always a valid request: for every
    token that passed the checks, the guard's own validation of the request built
    from it succeeds until the token expires.  The guard's limits (five minutes of
    lifetime, 16 KiB of scope) are never the reason a genuine mutation is refused. *)
Theorem gate_requests_are_valid call request g token now :
  admit_checks call request g = Ok token →
  0 < gc_now call → gc_now call ≤ now → now < unix_time (tc_ExpiresAt (vt_Claims token)) →
  sha256 (tc_JTI (vt_Claims token)) ≠ zero_fingerprint →
  validateRequest (guard_request (vt_Claims token)) now = Ok ().
Proof using pl.
  intros Hc%admit_checks_Ok H0 Hle Hexp Hfp. destruct (checked_window _ _ _ _ Hc) as (_ & _ & _ & _ & Hlife).
  destruct Hc as [[_ _ Hs] _ _ _ _ _]. pose proof (shape_ints _ Hs) as (_ & _ & _ & Hft). apply shape_texts in Hs.
  unfold validateRequest, IsZero, After, Sub, maxTokenLifetime, Second in *. cbn [guard_request mg_ProviderRevisionID mg_SandboxID
    mg_OperationID mg_AttemptID mg_FencingToken mg_JTIFingerprint mg_ExpiresAt].
  rewrite decide_False by (intros [|[|]]; [lia|lia|done]). rewrite decide_False by lia.
  pose proof (scope_fits _ 0 Hs ltac:(lia) ltac:(vm_compute; discriminate)) as Hok.
  by destruct (foldM _ _ _).
Qed.
End admission.

(** ** Samples

    A small platform: documents are named by short strings, the digest pads, and a
    signature is the text [SIG]. *)
Module GateRuns.
Local Open Scope string_scope.

Definition hash (s : string) : string := GuardRuns.pad32 s.
Definition document_digest : string := "sha256:" +:+ hex_encode (hash "M").
Definition plain_digest : string := "sha256:" +:+ hex_encode (hash "policy").

Definition claims (jti : string) (fencing : Z) : TokenClaims :=
  mkClaims jti "issuer" "spiffe://caller" "urn:shell-echo:sandbox-runtime:provider-instance:a" 0 0 100 "create" "rev" "sbx" "op"
    "att" fencing "tenant" "order" plain_digest "T0" (request_contract "create") DigestProfileRequestExcludingDigest
    document_digest "T1" AdmissionContextContractID AdmissionContextDigestProfile plain_digest.

Definition number (z : Z) : string := if decide (z = 0) then "0" else if decide (z = 100) then "100" else "7".
Definition payload (c : TokenClaims) : json :=
  JObject (((λ p, (p.1, JText p.2)) <$> claims_texts c) ++ ((λ p, (p.1, JNumber (number p.2))) <$> claims_ints c)).

Definition first_claims : TokenClaims := claims "first-token-identifier" 7.
Definition second_claims : TokenClaims := claims "second-token-identifier" 7.

Definition documents (s : string) : option json :=
  if decide (s = "H") then Some (JObject [("alg", JText "EdDSA"); ("kid", JText "key"); ("typ", JText expectedJWSType)]) else
  if decide (s = "P1") then Some (payload first_claims) else
  if decide (s = "P2") then Some (payload second_claims) else
  if decide (s = "{D}") then Some (JObject [("request_digest", JText document_digest)]) else None.

Definition platform_with (documents : string → option json) : Platform := {|
  fold_name s := s;
  parse_int s := if decide (s = "0") then Some 0 else if decide (s = "100") then Some 100 else if decide (s = "7") then Some 7 else None;
  tokens s := match documents s with Some v => tokens_of v | None => [None] end;
  parse := documents;
  marshal _ := "M";
  jcs_Transform := Some;
  parse_float _ := Some FFraction;
  parse_time s := if decide (s = "T0") then Some 1 else if decide (s = "T1") then Some (10^30) else None;
  absolute_url _ := true;
  parse_query _ := Some ∅;
  json_query _ := "";
  sha256 := hash;
  on_P256 _ := false;
  ed25519_Verify _ _ signature := bool_decide (signature = "SIG");
  ecdsa_Verify _ _ _ _ := false;
|}.

Lemma platform_with_laws documents : PlatformLaws (pf := platform_with documents).
Proof.
  split; cbn.
  - by intros data v ->.
  - intros s z. unfold i64_range. repeat case_decide; intros [= <-]; lia.
  - intros s. apply GuardRuns.pad32_length.
Qed.

Definition platform : Platform := platform_with documents.
Definition platform_laws : PlatformLaws (pf := platform) := platform_with_laws documents.

Definition compact (payload : string) : string :=
  EncodeToString "H" +:+ "." +:+ EncodeToString payload +:+ "." +:+ EncodeToString "SIG".

Definition gate : ProtectedOperationGate :=
  mkGate {["key" := mkTrusted "EdDSA" (Ed25519Key (hash "public"))]}
    (mkAuthority "issuer" "rev" "urn:shell-echo:sandbox-runtime:provider-instance:a").

Definition binding : TokenBinding :=
  mkBinding "spiffe://caller" "rev" "urn:shell-echo:sandbox-runtime:provider-instance:a" "create" "sbx" "op" "att" 7 "tenant" "order"
    plain_digest (request_contract "create") DigestProfileRequestExcludingDigest document_digest 1 (10^30)
    AdmissionContextContractID AdmissionContextDigestProfile plain_digest.

Definition at_second (n : Z) : Time := (unixToInternal + n) * Second.
Definition call_at (n : Z) : GateCall := mkCall None None None None None (at_second n) os_ok (at_second n) None.
Definition request (payload : string) : ProtectedOperationRequest := mkProtected (compact payload) binding "{D}".

(** The first token is replayed after a power loss and refused; a second one for
    the same operation is admitted. *)
Definition history : list gate_event :=
  [GvGuard (EvOpen "guard.json" of_ok os_ok (at_second 0) (at_second 0) (at_second 0));
   GvAdmit (call_at 10) (request "P1");
   GvGuard (EvCrash true);
   GvGuard (EvOpen "guard.json" of_ok os_ok (at_second 20) (at_second 20) (at_second 20));
   GvAdmit (call_at 30) (request "P1");
   GvAdmit (call_at 40) (request "P2")].

Definition opened : Guard := mkGuard ∅ ∅ true.
Definition empty_store : Store (bytes := snapshot) := mkStore None None.
End GateRuns.
Import GateRuns.

Lemma claims_are_the_payload_witness :
  ∃ ms, parse (Platform := platform) "P1" = Some (JObject ms) ∧ ms.*1 ≡ₚ tokenClaimMembers ∧ NoDup ms.*1 ∧
    (∀ name s, (name, s) ∈ claims_texts first_claims → (name, JText s) ∈ ms) ∧
    (∀ name z, (name, z) ∈ claims_ints first_claims →
       ∃ literal, (name, JNumber literal) ∈ ms ∧ parse_int (Platform := platform) literal = Some z).
Proof.
  apply (claims_are_the_payload (pl := platform_laws) "P1" (pg_authority gate) first_claims).
  vm_compute. reflexivity.
Defined.

Lemma admitted_requests_are_genuine_witness :
  ∃ token, signed_by (pf := platform) (pg_authority gate) (pg_keys gate) (compact "P1") token ∧
    let c := vt_Claims token in let b := binding in
    (tc_Issuer c = issuer (pg_authority gate) ∧ tc_ProviderRevisionID c = providerRevisionID (pg_authority gate) ∧
     tc_Audience c = providerInstanceAudience (pg_authority gate)) ∧
    (tc_Subject c = tb_Caller b ∧ tc_Operation c = tb_Operation b ∧ tc_SandboxID c = tb_SandboxID b ∧
     tc_OperationID c = tb_OperationID b ∧ tc_AttemptID c = tb_AttemptID b ∧ tc_FencingToken c = tb_FencingToken b ∧
     tc_TenantID c = tb_TenantID b ∧ tc_WorkOrderID c = tb_WorkOrderID b ∧ tc_PolicyDigest c = tb_PolicyDigest b ∧
     tc_RequestDigest c = tb_RequestDigest b ∧ tc_AdmissionContextDigest c = tb_AdmissionContextDigest b) ∧
    (unix_time (tc_NotBefore c) ≤ at_second 10 < unix_time (tc_ExpiresAt c) ∧
     unix_time (tc_ExpiresAt c) ≤ at_second 10 + maxTokenLifetime ∧
     tb_PolicyDecisionAt b ≤ unix_time (tc_NotBefore c) ∧ unix_time (tc_ExpiresAt c) ≤ tb_DeadlineAt b) ∧
    digested (pf := platform) (tc_RequestDigestProfile c) (tc_RequestDigest c) "{D}" ∧
    (if Mutation (tc_Operation c)
     then file_reserve (pf := platform) Some (λ _, 0) (call_at 10) (guard_request (pf := platform) c) (opened, empty_store) =
       (Ok MutationGuardAccepted, snd (Admit (pf := platform) (file_reserve (pf := platform) Some (λ _, 0) (call_at 10))
                                    (call_at 10) (request "P1") gate (opened, empty_store)))
     else snd (Admit (pf := platform) (file_reserve (pf := platform) Some (λ _, 0) (call_at 10)) (call_at 10) (request "P1") gate
            (opened, empty_store)) = (opened, empty_store)).
Proof.
  apply (admitted_requests_are_genuine (pl := platform_laws) (file_reserve (pf := platform) Some (λ _, 0) (call_at 10))
           (call_at 10) (request "P1") gate (opened, empty_store)).
  vm_compute. reflexivity.
Defined.

Lemma gate_history_timely : gate_timely (pf := platform) Some (λ _, 0) Some gate history (first_gate (at_second 0)).
Proof. vm_compute. repeat split; discriminate. Qed.

Lemma gate_history_admitted :
  gw_admitted (gate_run (pf := platform) Some (λ _, 0) Some gate history (first_gate (at_second 0))) =
  [] ++ (second_claims, at_second 40) :: [(first_claims, at_second 10)].
Proof. vm_compute. reflexivity. Qed.

Lemma mutations_admitted_once_witness :
  (tc_JTI second_claims, tc_ExpiresAt second_claims) ≠ (tc_JTI first_claims, tc_ExpiresAt first_claims) ∧
  (tc_ProviderRevisionID second_claims = tc_ProviderRevisionID first_claims → tc_SandboxID second_claims = tc_SandboxID first_claims →
   tc_OperationID second_claims = tc_OperationID first_claims → at_second 40 < unix_time (tc_ExpiresAt first_claims) →
   tc_FencingToken first_claims ≤ tc_FencingToken second_claims).
Proof.
  apply (mutations_admitted_once (pl := platform_laws) Some (λ _, 0) Some GuardRuns.codec_roundtrip gate history (at_second 0)
           [] second_claims (at_second 40) [(first_claims, at_second 10)] first_claims (at_second 10)).
  - vm_compute. discriminate.
  - exact gate_history_timely.
  - exact gate_history_admitted.
  - by left.
Defined.

Lemma gate_requests_are_valid_witness :
  validateRequest (guard_request (pf := platform) first_claims) (at_second 50) = Ok ().
Proof.
  apply (gate_requests_are_valid (pl := platform_laws) (call_at 10) (request "P1") gate
           (mkToken (mkHeader "EdDSA" "key" expectedJWSType) first_claims) (at_second 50)).
  - vm_compute. reflexivity.
  - vm_compute. reflexivity.
  - vm_compute. discriminate.
  - vm_compute. reflexivity.
  - vm_compute. discriminate.
Defined.
