(* ===== verification/ProviderTransport.v ===== *)
(** * Provider transport: from an HTTP request to an admitted dispatch

    [providerapi/protected_request.go] and [protected_handler.go]: the mTLS
    caller, the bearer header, the route table, the request document, and
    [ServeHTTP] up to the application it calls.  [strings.EqualFold] and the
    decoding of a route's document by [providerapi/v1] are parameters. *)

From stdpp Require Import base strings list gmap pretty.
From Stdlib Require Import Ascii ZArith Lia.
From S2P Require Import Prelude FileStore AdmissionJson AdmissionGuard AdmissionDecode AdmissionModel AdmissionGate.

Local Open Scope Z_scope.

(** ** The caller *)

Inductive ExtKeyUsage := ExtKeyUsageAny | ExtKeyUsageServerAuth | ExtKeyUsageClientAuth | ExtKeyUsageOther.
#[export] Instance ExtKeyUsage_eq_dec : EqDecision ExtKeyUsage.
Proof. solve_decision. Defined.

(** The URI names of a certificate, printed; a nil URI is [None]. *)
Record Certificate := mkCertificate { ce_ExtKeyUsage : list ExtKeyUsage; ce_URIs : list (option string) }.

(** [VerifiedChains]; a nil certificate is [None]. *)
Abbreviation ConnectionState := (list (list (option Certificate))).

Definition transport_error {A} (message : string) : result A := Err [ErrExternal message].

Fixpoint usage_found (required : ExtKeyUsage) (found : bool) (usages : list ExtKeyUsage) : bool :=
  match usages with
  | [] => found
  | u :: usages =>
      if decide (u = ExtKeyUsageAny) then false else
      usage_found required (if decide (u = required) then true else found) usages
  end.
Definition hasExplicitExtKeyUsage (certificate : Certificate) (required : ExtKeyUsage) : bool :=
  usage_found required false (ce_ExtKeyUsage certificate).

Definition verifiedClientLeaf (state : ConnectionState) : result Certificate :=
  match state with
  | [] | [] :: _ => transport_error "provider mTLS client has no verified certificate chain"
  | (None :: _) :: _ => transport_error "provider mTLS client has no verified leaf certificate"
  | (Some leaf :: _) :: _ => Ok leaf
  end.

(** The loop over the URI names of the leaf. *)
Fixpoint match_identity (allowed : gset string) (matched : string) (uris : list (option string)) : result string :=
  match uris with
  | [] => if decide (matched = ""%string) then transport_error "provider mTLS client URI identity is not allowed" else Ok matched
  | None :: uris => match_identity allowed matched uris
  | Some candidate :: uris =>
      if decide (candidate ∉ allowed) then match_identity allowed matched uris else
      if decide (matched ≠ ""%string) then transport_error "provider mTLS client has multiple allowed URI identities" else
      match_identity allowed candidate uris
  end.

Definition Caller (allowed : gset string) (state : ConnectionState) : result string :=
  if decide (allowed = ∅) then transport_error "provider mTLS identity admission is unavailable" else
  leaf ← verifiedClientLeaf state;
  if negb (hasExplicitExtKeyUsage leaf ExtKeyUsageClientAuth)
  then transport_error "provider mTLS client certificate lacks explicit client-auth usage" else
  match_identity allowed "" (ce_URIs leaf).

Definition maxCompactBearerBytes : Z := Z.shiftl 8 10.
Definition bearer_separators : string :=
  String " " (String (ascii_of_N 9) (String (ascii_of_N 13) (String (ascii_of_N 10) EmptyString))).

Definition extractCompactBearer (values : list string) : result string :=
  match values with
  | [value] =>
      match cut_prefix "Bearer " value with
      | Some bearer =>
          if decide (bearer = EmptyString ∨ Z.of_nat (String.length bearer) > maxCompactBearerBytes
                     ∨ contains_any bearer bearer_separators = true)
          then transport_error "protected Provider request has an invalid bearer header" else Ok bearer
      | None => transport_error "protected Provider request has an invalid bearer header"
      end
  | _ => transport_error "protected Provider request has an invalid bearer header"
  end.

(** ** Requests *)

(** A body that is nil or [http.NoBody], or its bytes and whether an error follows. *)
Inductive Body := BodyNil | NoBody | BodyOf (content : string) (fails : bool).

Record ProtectedRequest := mkProtectedRequest {
  pr_Method : string;
  pr_Path : string;
  pr_RawQuery : string;
  pr_ForceQuery : bool;
  pr_TLS : option ConnectionState;
  pr_Authorization : list string;
  pr_AdmissionContext : list string;
  pr_ContentType : string;
  pr_ContentLength : Z;
  pr_TransferEncoding : list string;
  pr_Body : Body;
  pr_HTTP11 : bool;
  pr_Origin : list string;
  pr_WebSocketProtocol : list string;
  pr_SessionHandoff : list string;
}.

Definition http_request (r : ProtectedRequest) : HTTPRequest :=
  mkRequest (pr_Method r) (pr_Path r) (pr_RawQuery r) (pr_ForceQuery r).

Definition protectedFacts (allowed : gset string) (request : ProtectedRequest) : result (string * string) :=
  match pr_TLS request with
  | None => transport_error "protected Provider request has no TLS state"
  | Some state =>
      caller ← Caller allowed state;
      bearer ← extractCompactBearer (pr_Authorization request);
      Ok (caller, bearer)
  end.

(** ** Routes *)

Fixpoint trim_slashes_left (s : string) : string :=
  match s with String "/" s => trim_slashes_left s | _ => s end.
Definition reverse_string (s : string) : string := string_of (reverse (bytes_of s)).
(** [strings.Trim(s, "/")] *)
Definition trim_slashes (s : string) : string := reverse_string (trim_slashes_left (reverse_string (trim_slashes_left s))).

(** [strings.Split(s, "/")] *)
Fixpoint split_slashes (s : string) : list string :=
  match s with
  | EmptyString => [EmptyString]
  | String c s =>
      if bool_decide (c = "/"%char) then EmptyString :: split_slashes s else
      match split_slashes s with
      | segment :: rest => String c segment :: rest
      | [] => [String c EmptyString]
      end
  end.

(** [strings.HasSuffix] then [strings.TrimSuffix]. *)
Definition cut_suffix (suffix s : string) : option string :=
  reverse_string <$> cut_prefix (reverse_string suffix) (reverse_string s).

Record protectedRoute := mkRoute { ro_operation : Operation; ro_maxBodyBytes : Z; ro_allowUnavailable : bool; ro_oversizeStatus : Z }.

Definition StatusBadRequest : Z := 400.
Definition StatusRequestEntityTooLarge : Z := 413.

Definition KiB (n : Z) : Z := Z.shiftl n 10.
Definition MaxCreateRequestBytes : Z := Z.shiftl 1 20.
Definition MaxRestoreRequestBytes : Z := Z.shiftl 1 20.

(** The table of the routes below a sandbox: operation, body limit, whether it may
    be unavailable. *)
Definition sandbox_routes : list (string * (Operation * Z * bool)) :=
  [("desired-state", ("set_desired_state", KiB 64, true)); ("lease", ("extend_lease", KiB 64, true));
   ("exec", ("exec", KiB 256, true)); ("exec:cancel", ("cancel_exec", KiB 64, false));
   ("runtime-sessions", ("open_runtime_session", KiB 64, true)); ("browser-sessions", ("open_browser_session", KiB 64, true));
   ("desktop-sessions", ("open_desktop_session", KiB 64, true)); ("snapshots", ("snapshot", KiB 256, true));
   ("artifacts:stage", ("stage_artifact", KiB 64, true)); (":terminate", ("terminate", KiB 64, true))]%string.

Definition oversize_is_bad_request (operation : Operation) : bool :=
  bool_decide (operation ∈ ["open_runtime_session"; "open_browser_session"; "open_desktop_session"; "stage_artifact"; "exec";
                            "cancel_exec"]%string).

(** The routes that read one operation. *)
Definition operation_routes : list (string * (Operation * bool)) :=
  [("runtime-session", ("read_runtime_session", true)); ("browser-session", ("read_browser_session", true));
   ("desktop-session", ("read_desktop_session", true)); ("exec-result", ("read_result", false));
   ("snapshot-manifest", ("read_snapshot_manifest", true));
   ("artifact-staging-evidence", ("read_artifact_staging_evidence", true)); ("usage-evidence", ("read_usage_evidence", true))]%string.

Definition assoc {A} (l : list (string * A)) (k : string) : option A := snd <$> (snd <$> list_find (λ p, p.1 = k) l).

(** The values of the path: [sandbox_id], [operation_id] and a session id. *)
Record pathValues := mkPathValues { pv_sandbox : option string; pv_operation : option string; pv_session : option string }.

Definition sandbox_path (id : string) : pathValues := mkPathValues (Some id) None None.
Definition close_route (operation : Operation) (id part : string) : option (protectedRoute * pathValues) :=
  match cut_suffix ":close" part with
  | Some session =>
      if decide (session = EmptyString) then None else
      Some (mkRoute operation (KiB 64) true StatusBadRequest, mkPathValues (Some id) None (Some session))
  | None => None
  end.

(** The branch for [v1/sandboxes/{id}...]. *)
Definition match_sandbox_route (method : string) (parts : list string) : option (protectedRoute * pathValues) :=
  let get := bool_decide (method = "GET")%string in let post := bool_decide (method = "POST")%string in
  match parts with
  | [_; _; id] =>
      match (if post then cut_suffix ":terminate" id else None) with
      | Some (String _ _ as id) => Some (mkRoute "terminate" (KiB 64) true 0, sandbox_path id)
      | _ => if get then Some (mkRoute "read_sandbox" 0 true 0, sandbox_path id) else None
      end
  | [_; _; id; tail] =>
      match (if post then assoc sandbox_routes tail else None) with
      | Some (operation, limit, unavailable) =>
          Some (mkRoute operation limit unavailable (if oversize_is_bad_request operation then StatusBadRequest else 0),
                sandbox_path id)
      | None =>
          if decide (tail = "events"%string ∧ get = true) then Some (mkRoute "read_events" 0 true 0, sandbox_path id) else None
      end
  | [_; _; id; collection; part] =>
      if negb post then None else
      if decide (collection = "runtime-sessions"%string) then close_route "close_runtime_session" id part else
      if decide (collection = "desktop-sessions"%string) then close_route "close_desktop_session" id part else None
  | _ => None
  end.

(** The branch for [v1/operations/{id}...]. *)
Definition match_operation_route (method : string) (parts : list string) : option (protectedRoute * pathValues) :=
  if negb (bool_decide (method = "GET")%string) then None else
  match parts with
  | [_; _; id] => Some (mkRoute "read_operation" 0 true 0, mkPathValues None (Some id) None)
  | [_; _; id; tail] =>
      match assoc operation_routes tail with
      | Some (operation, unavailable) => Some (mkRoute operation 0 unavailable 0, mkPathValues None (Some id) None)
      | None => None
      end
  | _ => None
  end.

Definition matchProtectedRoute (method path_ : string) : option (protectedRoute * pathValues) :=
  let path := trim_slashes path_ in
  let none := mkPathValues None None None in
  if decide (path = "v1/runtime-sessions:connect" ∧ method = "GET")%string
  then Some (mkRoute "connect_runtime_session" 0 true 0, none) else
  let parts := split_slashes path in
  if decide (parts = ["v1"; "sandboxes"] ∧ method = "POST")%string
  then Some (mkRoute "create" MaxCreateRequestBytes true StatusBadRequest, none) else
  if decide (path = "v1/sandboxes:restore" ∧ method = "POST")%string
  then Some (mkRoute "restore" MaxRestoreRequestBytes true 0, none) else
  match parts with
  | "v1" :: "sandboxes" :: String _ _ :: _ => match_sandbox_route method parts
  | "v1" :: "operations" :: String _ _ :: _ => match_operation_route method parts
  | _ => None
  end%string.

(** ** Documents *)

Section transport.
Context {pf : Platform}.
Context (equal_fold : string → string → bool) (valid_document : Operation → string → bool).

Definition readBodyIsEmpty (body : Body) : bool :=
  match body with BodyNil | NoBody => true | BodyOf content fails => bool_decide (content = EmptyString) && negb fails end.

Definition bodyLimitStatus (route : protectedRoute) : Z :=
  if decide (ro_oversizeStatus route ≠ 0) then ro_oversizeStatus route else StatusRequestEntityTooLarge.

(** [strconv.ParseUint(s, 10, 53)] *)
Definition parse_uint53 (s : string) : option Z :=
  if negb (bool_decide (s = EmptyString)) && all_bytes is_digit s && (decimal s <? 2^53) then Some (decimal s) else None.

Definition parseLifecycleEventCursor (rawQuery : string) : option Z :=
  if decide (rawQuery = EmptyString) then Some 0 else
  query ← parse_query rawQuery;
  if decide (size query ≠ 1%nat) then None else
  match query !! "after_sequence"%string with
  | Some [value] => if decide (value = EmptyString) then None else parse_uint53 value
  | _ => None
  end.

(** [json.Marshal] of a map prints its keys in order. *)
Definition readDescriptor (context : AdmissionContext) (request : ProtectedRequest) (values : pathValues) : result string :=
  let document : gmap string json :=
    list_to_map [("operation", JText (cx_Operation context)); ("sandbox_id", JText (cx_SandboxID context));
      ("operation_id", JText (match pv_operation values with Some (String _ _ as id) => id | _ => cx_OperationID context end));
      ("attempt_id", JText (cx_AttemptID context)); ("fencing_token", JNumber (pretty (cx_FencingToken context)))]%string in
  let print (document : gmap string json) := marshal (JObject (sort_by fst (map_to_list document))) in
  if decide (cx_Operation context = OperationReadEvents) then
    match parseLifecycleEventCursor (pr_RawQuery request) with
    | Some sequence => Ok (print (<["after_sequence"%string := JNumber (pretty sequence)]> document))
    | None => transport_error "invalid lifecycle event cursor"
    end
  else Ok (print document).

Definition runtimeSessionWebSocketProtocol : string := "sandbox-runtime-terminal.v1".
Definition maxRuntimeSessionConnectCarrierBytes : Z := 5462.
Definition maxRuntimeSessionConnectDescriptorBytes : Z := 4096.

Definition runtimeSessionConnectDocument (request : ProtectedRequest) : option string :=
  if negb (pr_HTTP11 request) || negb (bool_decide (pr_RawQuery request = EmptyString)) || pr_ForceQuery request
     || negb (bool_decide (pr_ContentLength request = 0)) || negb (bool_decide (pr_TransferEncoding request = []))
     || negb (readBodyIsEmpty (pr_Body request)) || negb (bool_decide (pr_Origin request = []))
     || negb (bool_decide (pr_WebSocketProtocol request = [runtimeSessionWebSocketProtocol])) then None else
  match pr_SessionHandoff request with
  | [carrier] =>
      if decide (carrier = EmptyString ∨ Z.of_nat (String.length carrier) > maxRuntimeSessionConnectCarrierBytes
                 ∨ contains_any carrier (String "," carrier_separators) = true ∨ utf8_count carrier = None) then None else
      match DecodeString carrier with
      | Some document =>
          if decide (document = EmptyString ∨ Z.of_nat (String.length document) > maxRuntimeSessionConnectDescriptorBytes
                     ∨ utf8_count document = None) then None else Some document
      | None => None
      end
  | _ => None
  end.

(** What [io.ReadAll] of the limited body gives; [None] is an error. *)
Definition read_limited (limit : Z) (content : string) (fails : bool) : option string :=
  if decide (Z.of_nat (String.length content) > limit) then Some (String.substring 0 (Z.to_nat (limit + 1)) content) else
  if fails then None else Some content.

(** The document, or the status of the refusal. *)
Definition protectedDocument (request : ProtectedRequest) (context : AdmissionContext) (route : protectedRoute)
    (values : pathValues) : string + Z :=
  if decide (ro_operation route = "connect_runtime_session"%string) then
    match runtimeSessionConnectDocument request with Some document => inl document | None => inr StatusBadRequest end
  else if decide (pr_Method request = "GET"%string) then
    if negb (bool_decide (pr_ContentLength request = 0)) || negb (bool_decide (pr_TransferEncoding request = []))
       || negb (readBodyIsEmpty (pr_Body request)) then inr StatusBadRequest else
    match readDescriptor context request values with Ok document => inl document | Err _ => inr StatusBadRequest end
  else
    if negb (equal_fold (pr_ContentType request) "application/json") then inr StatusBadRequest else
    if decide (pr_ContentLength request > ro_maxBodyBytes route) then inr (bodyLimitStatus route) else
    match pr_Body request with
    | BodyNil => inr StatusBadRequest
    | NoBody => inr (bodyLimitStatus route)
    | BodyOf content fails =>
        match read_limited (ro_maxBodyBytes route) content fails with
        | None => inr (bodyLimitStatus route)
        | Some document =>
            if decide (Z.of_nat (String.length document) > ro_maxBodyBytes route ∨ document = EmptyString)
            then inr (bodyLimitStatus route) else inl document
        end
    end.

(** ** The handler *)

Record Capability := mkCapability { cp_ID : string; cp_Versions : list string; cp_Profiles : list string }.

Definition capabilityAdvertised (capabilities : list Capability) (id version profile : string) : bool :=
  existsb (λ c, bool_decide (cp_ID c = id ∧ cp_Versions c = [version] ∧ cp_Profiles c = [profile])) capabilities.

(** Which applications are composed; [control] says that an application also
    implements its control interface. *)
Record Composition := mkComposition {
  co_allowed : gset string;
  co_gate : ProtectedOperationGate;
  co_application : option bool;
  co_sessionApp : option bool;
  co_sessionConnector : bool;
  co_browserApp : bool;
  co_desktopApp : bool;
  co_artifactApp : bool;
  co_execApp : bool;
  co_usageReader : bool;
  co_operationReader : bool;
  co_capabilities : list Capability;
}.

(** The [serve] method that is called. *)
Inductive Handler :=
  | serveOperation | serveCreate | serveSandboxStatus | serveLifecycleMutation | serveLifecycleEvents
  | serveArtifactStage | serveArtifactEvidence | serveExec | serveExecCancellation | serveExecResult | serveUsageEvidence
  | serveRuntimeSessionOpen | serveRuntimeSessionHandoff | serveRuntimeSessionClose | serveRuntimeSessionConnect
  | serveBrowserSessionOpen | serveBrowserSessionHandoff
  | serveDesktopSessionOpen | serveDesktopSessionClose | serveDesktopSessionHandoff.

Record Refusal := mkRefusal { rf_status : Z; rf_code : string; rf_retryable : bool }.

Inductive Reply :=
  | Refused (refusal : Refusal)
  | Served (handler : Handler) (context : AdmissionContext) (document : string).

Definition Unauthenticated : Refusal := mkRefusal 401 "SANDBOX_UNAUTHENTICATED" false.
Definition Unavailable : Refusal := mkRefusal 503 "SANDBOX_PROVIDER_UNAVAILABLE" true.
Definition InvalidRequest (status : Z) : Refusal := mkRefusal status "SANDBOX_INVALID_REQUEST" false.
Definition Forbidden : Refusal := mkRefusal 403 "SANDBOX_FORBIDDEN" false.
Definition Conflict : Refusal := mkRefusal 409 "SANDBOX_CONFLICT" false.
Definition ProviderError : Refusal := mkRefusal 500 "SANDBOX_PROVIDER_ERROR" false.
Definition Unsupported : Refusal := mkRefusal 422 "SANDBOX_CAPABILITY_UNSUPPORTED" false.

Definition admission_reply (e : goerr) (route : protectedRoute) : Refusal :=
  if errors_is e ErrUnauthenticated then Unauthenticated else
  if errors_is e ErrInvalidRequestDocument then InvalidRequest 400 else
  if errors_is e ErrForbidden then Forbidden else
  if errors_is e ErrConflict then Conflict else
  if ro_allowUnavailable route then Unavailable else ProviderError.

(** The method an admitted request is dispatched to, or why it is not. *)
Definition select (co : Composition) (route : protectedRoute) : Handler + Refusal :=
  let op := ro_operation route in
  let serve (handler : Handler) : Handler + Refusal := inl handler in
  let refuse (refusal : Refusal) : Handler + Refusal := inr refusal in
  let control := capabilityAdvertised (co_capabilities co) "sandbox.lifecycle-control" "1.0.0" "lifecycle-control-v1" in
  let terminal := capabilityAdvertised (co_capabilities co) "sandbox.terminal-control" "1.0.0" "terminal-control-v1" in
  let unavailable := refuse (if ro_allowUnavailable route then Unavailable else ProviderError) in
  if bool_decide (op = "read_operation"%string) && (bool_decide (is_Some (co_application co)) || co_operationReader co)
  then serve serveOperation else
  match co_application co, op with
  | Some _, "create" => serve serveCreate
  | Some _, "read_sandbox" => serve serveSandboxStatus
  | Some implements, ("set_desired_state" | "extend_lease" | "terminate") =>
      if control then if implements then serve serveLifecycleMutation else refuse Unavailable else refuse Unsupported
  | Some implements, "read_events" =>
      if control then if implements then serve serveLifecycleEvents else refuse Unavailable else refuse Unsupported
  | None, ("set_desired_state" | "extend_lease" | "terminate" | "read_events") => refuse Unsupported
  | _, "stage_artifact" => if co_artifactApp co then serve serveArtifactStage else unavailable
  | _, "read_artifact_staging_evidence" => if co_artifactApp co then serve serveArtifactEvidence else unavailable
  | _, "exec" => if co_execApp co then serve serveExec else unavailable
  | _, "cancel_exec" => if co_execApp co then serve serveExecCancellation else unavailable
  | _, "read_result" => if co_execApp co then serve serveExecResult else unavailable
  | _, "read_usage_evidence" => if co_usageReader co then serve serveUsageEvidence else unavailable
  | _, "open_runtime_session" => if bool_decide (is_Some (co_sessionApp co)) then serve serveRuntimeSessionOpen else unavailable
  | _, "read_runtime_session" => if bool_decide (is_Some (co_sessionApp co)) then serve serveRuntimeSessionHandoff else unavailable
  | _, "close_runtime_session" =>
      match co_sessionApp co with
      | Some implements => if terminal then if implements then serve serveRuntimeSessionClose else refuse Unavailable else refuse Unsupported
      | None => refuse Unsupported
      end
  | _, "connect_runtime_session" => if co_sessionConnector co then serve serveRuntimeSessionConnect else refuse Unsupported
  | _, "open_browser_session" => if co_browserApp co then serve serveBrowserSessionOpen else unavailable
  | _, "read_browser_session" => if co_browserApp co then serve serveBrowserSessionHandoff else unavailable
  | _, "open_desktop_session" => if co_desktopApp co then serve serveDesktopSessionOpen else unavailable
  | _, "close_desktop_session" => if co_desktopApp co then serve serveDesktopSessionClose else unavailable
  | _, "read_desktop_session" => if co_desktopApp co then serve serveDesktopSessionHandoff else unavailable
  | _, _ => unavailable
  end%string.

Definition dispatch (co : Composition) (route : protectedRoute) (context : AdmissionContext) (document : string) : Reply :=
  match select co route with inl handler => Served handler context document | inr refusal => Refused refusal end.

Definition path_agrees (value : option string) (id : string) : bool :=
  match value with Some (String _ _ as v) => bool_decide (id = v) | _ => true end.

(** The two calls of the gate each meet their own faults. *)
Definition ServeHTTP {G} (reserve : MutationGuardRequest → G → result MutationGuardDecision * G)
    (co : Composition) (authenticate admitting : GateCall) (request : ProtectedRequest) (guard : G) : Reply * G :=
  match matchProtectedRoute (pr_Method request) (pr_Path request) with
  | None => (Refused (mkRefusal 404 "" false), guard)
  | Some (route, values) =>
  match protectedFacts (co_allowed co) request with
  | Err _ => (Refused Unauthenticated, guard)
  | Ok (caller, bearer) =>
  match AuthenticateBearer authenticate bearer (co_gate co) with
  | Err e => (Refused (if errors_is e ErrUnauthenticated then Unauthenticated else Unavailable), guard)
  | Ok _ =>
  match pr_AdmissionContext request with
  | [carrier] =>
      match DecodeAdmissionContextCarrier carrier with
      | Err _ => (Refused (InvalidRequest 400), guard)
      | Ok context =>
          if negb (bool_decide (cx_Operation context = ro_operation route))
             || negb (is_ok (ValidateTarget context (http_request request))) then (Refused (InvalidRequest 400), guard) else
          if negb (bool_decide (cx_ControllerSubject context = caller)) then (Refused Forbidden, guard) else
          if negb (path_agrees (pv_sandbox values) (cx_SandboxID context)) then (Refused Forbidden, guard) else
          if negb (path_agrees (pv_operation values) (cx_OperationID context)) then (Refused Forbidden, guard) else
          match protectedDocument request context route values with
          | inr status => (Refused (InvalidRequest status), guard)
          | inl document =>
              if negb (valid_document (ro_operation route) document) then (Refused (InvalidRequest 400), guard) else
              let '(admitted, guard) :=
                Admit reserve admitting (mkProtected bearer (TokenBinding_of context caller) document) (co_gate co) guard in
              match admitted with
              | Err e => (Refused (admission_reply e route), guard)
              | Ok _ => (dispatch co route context document, guard)
              end
          end
      end
  | _ => (Refused (InvalidRequest 400), guard)
  end end end end.
End transport.
