(* ===== verification/ProviderAdmission.v ===== *)
(** * Provider transport: what the handler guarantees

    The caller is the one allowed name of the verified certificate; the route
    table is total and separates reads from mutations; an application is called
    only for a request whose signed token authorises its caller, its operation, its
    path and its document; and the mutation guard is consulted for nothing else. *)

From stdpp Require Import base strings list gmap pretty.
From Stdlib Require Import Ascii ZArith Lia.
From S2P Require Import Prelude FileStore AdmissionJson AdmissionGuard AdmissionDecode AdmissionModel AdmissionGate AdmissionAdmit ProviderTransport.

Local Open Scope Z_scope.

(** ** The caller *)

Definition allowed_names (allowed : gset string) (uris : list (option string)) : list string :=
  filter (λ u, u ∈ allowed) (omap id uris).

Lemma match_identity_spec allowed matched uris c :
  ""%string ∉ allowed →
  match_identity allowed matched uris = Ok c ↔
  if decide (matched = ""%string) then allowed_names allowed uris = [c]
  else allowed_names allowed uris = [] ∧ c = matched.
Proof.
  intros Hne. revert matched. induction uris as [|[u|] uris IH]; intros matched; cbn [match_identity].
  - case_decide; [done|]. split; [by intros [= ->]|by intros [_ ->]].
  - unfold allowed_names. cbn [omap list_omap id]. rewrite filter_cons. fold (allowed_names allowed uris).
    destruct (decide (u ∈ allowed)) as [Hu|Hu].
    + rewrite (decide_False (P := u ∉ allowed)) by tauto. destruct (decide (matched = ""%string)) as [->|Hm].
      * rewrite decide_False by tauto. rewrite IH, decide_False by (by intros ->).
        split; [by intros [-> ->]|by intros [= -> ->]].
      * rewrite decide_True by done. split; [done|]. by intros [? ?].
    + rewrite decide_True by done. apply IH.
  - apply IH.
Qed.

(** A caller is recognised exactly when the verified leaf certificate is for
    client authentication and one and only one of its URI names is allowed; it is
    that name.  No order of the names and no second allowed name selects another. *)
Theorem caller_is_unique allowed leaf chain chains c :
  ""%string ∉ allowed →
  Caller allowed ((Some leaf :: chain) :: chains) = Ok c ↔
  hasExplicitExtKeyUsage leaf ExtKeyUsageClientAuth = true ∧ allowed_names allowed (ce_URIs leaf) = [c].
Proof.
  intros Hne. unfold Caller. cbn [verifiedClientLeaf mbind result_bind]. case_decide as He.
  - split; [done|]. intros [_ Hn]. assert (c ∈ allowed_names allowed (ce_URIs leaf)) as Hc by (rewrite Hn; by left).
    apply list_elem_of_filter in Hc as [Hc _]. set_solver.
  - destruct (hasExplicitExtKeyUsage leaf _); cbn [negb]; [|naive_solver].
    rewrite match_identity_spec by done. rewrite decide_True by done. naive_solver.
Qed.

Lemma caller_is_unique_witness :
  Caller {["spiffe://a"; "spiffe://b"]} [[Some (mkCertificate [ExtKeyUsageClientAuth] [Some "spiffe://x"; Some "spiffe://b"]%string)]]
    = Ok "spiffe://b"%string ↔
  hasExplicitExtKeyUsage (mkCertificate [ExtKeyUsageClientAuth] [Some "spiffe://x"; Some "spiffe://b"]%string)
    ExtKeyUsageClientAuth = true ∧
  allowed_names {["spiffe://a"; "spiffe://b"]} [Some "spiffe://x"; Some "spiffe://b"]%string = ["spiffe://b"%string].
Proof.
  apply (caller_is_unique {["spiffe://a"; "spiffe://b"]}
           (mkCertificate [ExtKeyUsageClientAuth] [Some "spiffe://x"; Some "spiffe://b"]%string) [] []).
  vm_compute. set_solver.
Defined.

(** ** Routes *)

Definition route_ok (method operation : string) : bool :=
  Operation_Supported operation &&
  if Mutation operation then bool_decide (method = "POST")%string else bool_decide (method = "GET")%string.

Lemma assoc_Some {A} (l : list (string * A)) k a : assoc l k = Some a → (k, a) ∈ l.
Proof.
  unfold assoc. intros (p & ([i [k' a']] & Hf & ->)%fmap_Some & ->)%fmap_Some.
  apply list_find_Some in Hf as (Hi & Hk & _). cbn in *. subst. by eapply list_elem_of_lookup_2.
Qed.

Lemma sandbox_routes_ok k operation limit unavailable :
  assoc sandbox_routes k = Some (operation, limit, unavailable) → route_ok "POST" operation = true.
Proof.
  intros Hk%assoc_Some.
  assert (Hall : Forall (λ p, route_ok "POST" p.2.1.1 = true) sandbox_routes) by (repeat constructor).
  rewrite Forall_forall in Hall. by apply (Hall _ Hk).
Qed.

Lemma operation_routes_ok k operation unavailable :
  assoc operation_routes k = Some (operation, unavailable) → route_ok "GET" operation = true.
Proof.
  intros Hk%assoc_Some.
  assert (Hall : Forall (λ p, route_ok "GET" p.2.1 = true) operation_routes) by (repeat constructor).
  rewrite Forall_forall in Hall. by apply (Hall _ Hk).
Qed.

Lemma match_sandbox_route_ok method parts route values :
  match_sandbox_route method parts = Some (route, values) → route_ok method (ro_operation route) = true.
Proof.
  unfold match_sandbox_route, close_route. destruct parts as [|a [|b [|id [|tail [|part [|]]]]]]; try done.
  - destruct (bool_decide (method = "POST")%string) eqn:Ep.
    + apply bool_decide_eq_true in Ep as ->. destruct (cut_suffix _ _) as [[|]|]; cbn; [done| |done]. by intros [= <- <-].
    + destruct (bool_decide (method = "GET")%string) eqn:Eg; [|done]. apply bool_decide_eq_true in Eg as ->. by intros [= <- <-].
  - destruct (bool_decide (method = "POST")%string) eqn:Ep.
    + apply bool_decide_eq_true in Ep as ->. destruct (assoc sandbox_routes tail) as [[[o l] u]|] eqn:Ea.
      * intros [= <- <-]. by eapply sandbox_routes_ok.
      * case_decide as H; [|done]. destruct H as [_ Hg%bool_decide_eq_true]. done.
    + cbv iota. destruct (decide (_ ∧ _)) as [[-> Hg%bool_decide_eq_true]|]; [|done]. subst. by intros [= <- <-].
  - destruct (bool_decide (method = "POST")%string) eqn:Ep; [|done]. apply bool_decide_eq_true in Ep as ->. cbn [negb].
    repeat case_decide; try done; (destruct (cut_suffix _ _); [|done]); (case_decide; [done|]); by intros [= <- <-].
Qed.

Lemma match_operation_route_ok method parts route values :
  match_operation_route method parts = Some (route, values) → route_ok method (ro_operation route) = true.
Proof.
  unfold match_operation_route. destruct (bool_decide (method = "GET")%string) eqn:Eg; [|done].
  apply bool_decide_eq_true in Eg as ->. cbn [negb]. destruct parts as [|a [|b [|id [|tail [|]]]]]; try done.
  - by intros [= <- <-].
  - destruct (assoc operation_routes tail) as [[o u]|] eqn:Ea; [|done]. intros [= <- <-]. by eapply operation_routes_ok.
Qed.

Lemma route_operation_ok method path route values :
  matchProtectedRoute method path = Some (route, values) → route_ok method (ro_operation route) = true.
Proof.
  unfold matchProtectedRoute. cbv zeta. case_decide as H1; [destruct H1 as [_ ->]; by intros [= <- <-]|].
  case_decide as H2; [destruct H2 as [_ ->]; by intros [= <- <-]|].
  case_decide as H3; [destruct H3 as [_ ->]; by intros [= <- <-]|].
  intros H. assert (match_sandbox_route method (split_slashes (trim_slashes path)) = Some (route, values) ∨
                    match_operation_route method (split_slashes (trim_slashes path)) = Some (route, values)) as [?|?].
  { revert H. generalize (split_slashes (trim_slashes path)). intros parts. repeat (case_match; try done); auto. }
  - by eapply match_sandbox_route_ok.
  - by eapply match_operation_route_ok.
Qed.

(** A request for each operation. *)
Definition sample_requests : list (string * string) :=
  [("POST", "/v1/sandboxes"); ("POST", "/v1/sandboxes:restore"); ("POST", "/v1/sandboxes/s:terminate");
   ("GET", "/v1/sandboxes/s"); ("POST", "/v1/sandboxes/s/desired-state"); ("POST", "/v1/sandboxes/s/lease");
   ("POST", "/v1/sandboxes/s/exec"); ("POST", "/v1/sandboxes/s/exec:cancel"); ("POST", "/v1/sandboxes/s/runtime-sessions");
   ("POST", "/v1/sandboxes/s/browser-sessions"); ("POST", "/v1/sandboxes/s/desktop-sessions");
   ("POST", "/v1/sandboxes/s/snapshots"); ("POST", "/v1/sandboxes/s/artifacts:stage"); ("GET", "/v1/sandboxes/s/events");
   ("POST", "/v1/sandboxes/s/runtime-sessions/r:close"); ("POST", "/v1/sandboxes/s/desktop-sessions/d:close");
   ("GET", "/v1/operations/o"); ("GET", "/v1/operations/o/runtime-session"); ("GET", "/v1/operations/o/browser-session");
   ("GET", "/v1/operations/o/desktop-session"); ("GET", "/v1/operations/o/exec-result");
   ("GET", "/v1/operations/o/snapshot-manifest"); ("GET", "/v1/operations/o/artifact-staging-evidence");
   ("GET", "/v1/operations/o/usage-evidence"); ("GET", "/v1/runtime-sessions:connect")]%string.

Lemma sample_requests_cover :
  Forall (λ operation, Exists (λ p, (ro_operation ∘ fst) <$> matchProtectedRoute p.1 p.2 = Some operation) sample_requests) operations.
Proof. apply (bool_decide_unpack _). vm_compute. exact I. Qed.

(** The route table: a route that matches names a supported operation, a
    mutation exactly when the method is POST and a read exactly when it is GET; and
    every supported operation has a route. *)
Theorem routes_are_total :
  (∀ method path route values, matchProtectedRoute method path = Some (route, values) →
     Operation_Supported (ro_operation route) = true ∧
     (method = "POST"%string ↔ Mutation (ro_operation route) = true) ∧
     (method = "GET"%string ↔ Mutation (ro_operation route) = false)) ∧
  (∀ operation, Operation_Supported operation = true →
     ∃ method path route values, matchProtectedRoute method path = Some (route, values) ∧ ro_operation route = operation).
Proof.
  split.
  - intros method path route values H%route_operation_ok. unfold route_ok in H. apply andb_true_iff in H as [Hs Hm].
    split; [done|]. destruct (Mutation (ro_operation route)); apply bool_decide_eq_true in Hm as ->; done.
  - intros operation Hop. unfold Operation_Supported in Hop. apply bool_decide_eq_true in Hop.
    pose proof sample_requests_cover as Hall. rewrite Forall_forall in Hall.
    apply Hall, Exists_exists in Hop as ([method path] & _ & Hf). apply fmap_Some in Hf as ([route values] & Hr & ->).
    by exists method, path, route, values.
Qed.

(** ** The handler *)

Section handler.
Context {pf : Platform} {pl : PlatformLaws}.
Context (equal_fold : string → string → bool) (valid_document : Operation → string → bool).
Context {G : Type} (reserve : MutationGuardRequest → G → result MutationGuardDecision * G).

Local Abbreviation serve := (ServeHTTP equal_fold valid_document reserve).

(** The checks that precede the gate. *)
Record framed (co : Composition) (request : ProtectedRequest) (context : AdmissionContext) (route : protectedRoute)
    (values : pathValues) (caller bearer document : string) : Prop := mkFramed {
  fr_route : matchProtectedRoute (pr_Method request) (pr_Path request) = Some (route, values);
  fr_facts : protectedFacts (co_allowed co) request = Ok (caller, bearer);
  fr_operation : cx_Operation context = ro_operation route;
  fr_target : ValidateTarget context (http_request request) = Ok ();
  fr_subject : cx_ControllerSubject context = caller;
  fr_sandbox : path_agrees (pv_sandbox values) (cx_SandboxID context) = true;
  fr_operation_id : path_agrees (pv_operation values) (cx_OperationID context) = true;
  fr_document : protectedDocument equal_fold request context route values = inl document;
  fr_schema : valid_document (ro_operation route) document = true;
}.

Local Ltac refused := left; cbn [negb] in *; simplify_eq; eauto.

(** A request is refused with the guard untouched, or it passed all the checks and
    the answer is that of the gate. *)
Lemma ServeHTTP_cases co authenticate admitting request guard reply guard' :
  serve co authenticate admitting request guard = (reply, guard') →
  (guard' = guard ∧ ∃ refusal, reply = Refused refusal) ∨
  ∃ context route values caller bearer document answer,
    framed co request context route values caller bearer document ∧
    Admit reserve admitting (mkProtected bearer (TokenBinding_of context caller) document) (co_gate co) guard = (answer, guard') ∧
    reply = match answer with Err e => Refused (admission_reply e route) | Ok _ => dispatch co route context document end.
Proof using.
  unfold ServeHTTP. intros H.
  destruct (matchProtectedRoute _ _) as [[route values]|] eqn:Er; [|refused].
  destruct (protectedFacts _ _) as [[caller bearer]|] eqn:Ef; [|refused].
  destruct (AuthenticateBearer _ _ _) as [[]|e]; [|refused].
  destruct (pr_AdmissionContext request) as [|carrier [|]]; [refused| |refused].
  destruct (DecodeAdmissionContextCarrier carrier) as [context|]; [|refused].
  destruct (_ || _) eqn:Eo; [refused|]. apply orb_false_iff in Eo as [Eop Et].
  apply negb_false_iff, bool_decide_eq_true in Eop. apply negb_false_iff, is_ok_true in Et as [[] Et].
  destruct (bool_decide (_ = caller)) eqn:Ec; [|refused]. apply bool_decide_eq_true in Ec.
  destruct (path_agrees (pv_sandbox values) _) eqn:Es; [|refused].
  destruct (path_agrees (pv_operation values) _) eqn:Eid; [|refused]. cbn [negb] in H.
  destruct (protectedDocument _ _ _ _ _) as [document|status] eqn:Ed; [|refused].
  destruct (valid_document _ _) eqn:Ev; cbn [negb] in H; [|refused].
  destruct (Admit _ _ _ _ _) as [answer guard1] eqn:Ea. right.
  exists context, route, values, caller, bearer, document, answer.
  destruct answer; simplify_eq; by split_and!.
Qed.

Lemma path_agrees_true value id v : path_agrees value id = true → value = Some v → v ≠ ""%string → id = v.
Proof using. intros H -> Hv. destruct v; [done|]. cbn in H. by apply bool_decide_eq_true in H. Qed.

(** C8 (safety): an application is called only for what a signed token authorises: the
    request matched a route, its mTLS caller is the subject of a verified token
    whose operation is that of the route, whose sandbox and operation are those of
    the path where the path has them, whose target is the method and path of the
    request, and whose digest is that of the document handed to the application;
    and a mutation was accepted by the guard. *)
Theorem served_requests_are_authorised co authenticate admitting request guard handler context document guard' :
  serve co authenticate admitting request guard = (Served handler context document, guard') →
  ∃ route values caller bearer token,
    matchProtectedRoute (pr_Method request) (pr_Path request) = Some (route, values) ∧
    protectedFacts (co_allowed co) request = Ok (caller, bearer) ∧
    signed_by (pg_authority (co_gate co)) (pg_keys (co_gate co)) bearer token ∧
    let c := vt_Claims token in
    tc_Subject c = caller ∧ tc_Operation c = ro_operation route ∧ tc_SandboxID c = cx_SandboxID context ∧
    tc_OperationID c = cx_OperationID context ∧ tc_FencingToken c = cx_FencingToken context ∧
    (∀ id, pv_sandbox values = Some id → id ≠ ""%string → tc_SandboxID c = id) ∧
    (∀ id, pv_operation values = Some id → id ≠ ""%string → tc_OperationID c = id) ∧
    at_Method (cx_HTTPTarget context) = pr_Method request ∧ at_Path (cx_HTTPTarget context) = pr_Path request ∧
    digested (tc_RequestDigestProfile c) (tc_RequestDigest c) document ∧
    (if Mutation (ro_operation route) then reserve (guard_request c) guard = (Ok MutationGuardAccepted, guard') else guard' = guard).
Proof using.
  intros [(_ & ? & ?)|(context' & route & values & caller & bearer & document' & answer & Hf & Ha & Hr)]%ServeHTTP_cases; [done|].
  destruct answer as [[]|e]; [|done]. unfold dispatch in Hr. destruct (select co route); [|done]. injection Hr as <- <- <-.
  apply Admit_Ok in Ha as (token & [Hs Hm _ _ _ Hd] & Hg). unfold claims_match in Hm. apply bool_decide_eq_true in Hm. cbn in Hm, Hs, Hd.
  destruct_and! Hm. destruct Hf as [Hroute Hfacts Hop Ht Hsub Hsb Hid _ _].
  unfold ValidateTarget in Ht. case_decide as Hne; [done|]. apply not_or_split in Hne as [Hmeth Hpath].
  apply dec_stable in Hmeth, Hpath. exists route, values, caller, bearer, token. cbv zeta.
  assert (Hopc : tc_Operation (vt_Claims token) = ro_operation route) by congruence. rewrite Hopc in Hg.
  split_and!; try done; try congruence.
  - intros id Hv Hne. rewrite <- (path_agrees_true _ _ _ Hsb Hv Hne). congruence.
  - intros id Hv Hne. rewrite <- (path_agrees_true _ _ _ Hid Hv Hne). congruence.
Qed.

(** the guard's replay state is consumed by nothing but a genuine mutation: a
    request changes it only after it passed every check of the transport and of the
    gate, and then by the one reservation its token asks for.  Requests that are
    malformed, unauthenticated, forbidden, oversized or reads leave it as it was,
    whatever the reply. *)
Theorem guard_consulted_only_for_mutations co authenticate admitting request guard :
  let guard' := snd (serve co authenticate admitting request guard) in
  guard' = guard ∨
  ∃ context route values caller bearer document token,
    framed co request context route values caller bearer document ∧ pr_Method request = "POST"%string ∧
    checked admitting (mkProtected bearer (TokenBinding_of context caller) document) (co_gate co) token ∧
    Mutation (tc_Operation (vt_Claims token)) = true ∧ guard' = snd (reserve (guard_request (vt_Claims token)) guard).
Proof using.
  cbv zeta. destruct (serve co authenticate admitting request guard) as [reply guard'] eqn:E. cbn [snd].
  apply ServeHTTP_cases in E as [[? _]|(context & route & values & caller & bearer & document & answer & Hf & Ha & _)]; [by left|].
  unfold Admit in Ha. destruct (admit_checks _ _ _) as [token|] eqn:Ec; [|left; by simplify_eq].
  apply admit_checks_Ok in Ec. destruct (Mutation _) eqn:Em; cbn [negb] in Ha; [|left; by simplify_eq].
  destruct (reserve _ guard) as [d g'] eqn:Er. simplify_eq. right.
  exists context, route, values, caller, bearer, document, token. rewrite Er. split_and!; try done.
  pose proof (route_operation_ok _ _ _ _ (fr_route _ _ _ _ _ _ _ _ Hf)) as Hroute. unfold route_ok in Hroute.
  apply andb_true_iff in Hroute as [_ Hroute].
  destruct Ec as [_ Hm _ _ _ _]. unfold claims_match in Hm. apply bool_decide_eq_true in Hm. cbn in Hm. destruct_and! Hm.
  pose proof (fr_operation _ _ _ _ _ _ _ _ Hf).
  assert (Hop : ro_operation route = tc_Operation (vt_Claims token)) by congruence.
  rewrite Hop, Em in Hroute. by apply bool_decide_eq_true in Hroute.
Qed.
End handler.

(** ** Sample *)
Module TransportRuns.
Import GateRuns.
Local Open Scope string_scope.

Definition transport_claims : TokenClaims :=
  mkClaims "third-token-identifier" "issuer" "spiffe://caller" "urn:shell-echo:sandbox-runtime:provider-instance:a" 0 0 100 "create"
    "rev" "sbx" "op" "att" 7 "tenant" "order" plain_digest "T0" (request_contract "create") DigestProfileRequestExcludingDigest
    document_digest "T1" AdmissionContextContractID AdmissionContextDigestProfile document_digest.

Definition target : AdmissionTarget := mkTarget "POST" "/v1/sandboxes" (Some []).
Definition create_context : AdmissionContext :=
  mkContext AdmissionContextContractID AdmissionContextDigestProfile document_digest "spiffe://caller" "rev"
    "urn:shell-echo:sandbox-runtime:provider-instance:a" "tenant" "order" plain_digest "T0" "create" "sbx" "op" "att" 7 "T1"
    (request_contract "create") DigestProfileRequestExcludingDigest document_digest target.

Definition context_document : json :=
  JObject [("context_contract_id", JText AdmissionContextContractID); ("context_digest_profile", JText AdmissionContextDigestProfile);
    ("context_digest", JText document_digest); ("controller_subject", JText "spiffe://caller"); ("provider_revision_id", JText "rev");
    ("provider_instance_audience", JText "urn:shell-echo:sandbox-runtime:provider-instance:a"); ("tenant_id", JText "tenant");
    ("work_order_id", JText "order"); ("policy_digest", JText plain_digest); ("policy_decided_at", JText "T0");
    ("operation", JText "create"); ("sandbox_id", JText "sbx"); ("operation_id", JText "op"); ("attempt_id", JText "att");
    ("fencing_token", JNumber "7"); ("deadline_at", JText "T1"); ("request_contract_id", JText (request_contract "create"));
    ("request_digest_profile", JText DigestProfileRequestExcludingDigest); ("request_digest", JText document_digest);
    ("http_target", JObject [("method", JText "POST"); ("path", JText "/v1/sandboxes"); ("normalized_query", JArray [])])].

Definition transport_documents (s : string) : option json :=
  if decide (s = "P3") then Some (payload transport_claims) else
  if decide (s = "C") then Some context_document else documents s.
Definition transport_platform : Platform := platform_with transport_documents.

Definition composition : Composition :=
  mkComposition {["spiffe://caller"]} gate (Some true) None false false false false false false false [].

Definition create_request : ProtectedRequest :=
  mkProtectedRequest "POST" "/v1/sandboxes" "" false
    (Some [[Some (mkCertificate [ExtKeyUsageClientAuth] [Some "spiffe://caller"])]])
    ["Bearer " +:+ compact "P3"] [EncodeToString "C"] "application/json" 3 [] (BodyOf "{D}" false) true [] [] [].

Definition same (a b : string) : bool := bool_decide (a = b).
Definition reserve_at_10 := file_reserve (pf := transport_platform) Some (λ _, 0) (call_at 10).
End TransportRuns.
Import GateRuns TransportRuns.

Lemma served_requests_are_authorised_witness :
  ∃ route values caller bearer token,
    matchProtectedRoute "POST" "/v1/sandboxes" = Some (route, values) ∧
    protectedFacts (co_allowed composition) create_request = Ok (caller, bearer) ∧
    signed_by (pf := transport_platform) (pg_authority gate) (pg_keys gate) bearer token ∧
    let c := vt_Claims token in
    tc_Subject c = caller ∧ tc_Operation c = ro_operation route ∧ tc_SandboxID c = cx_SandboxID create_context ∧
    tc_OperationID c = cx_OperationID create_context ∧ tc_FencingToken c = cx_FencingToken create_context ∧
    (∀ id, pv_sandbox values = Some id → id ≠ ""%string → tc_SandboxID c = id) ∧
    (∀ id, pv_operation values = Some id → id ≠ ""%string → tc_OperationID c = id) ∧
    at_Method (cx_HTTPTarget create_context) = "POST"%string ∧ at_Path (cx_HTTPTarget create_context) = "/v1/sandboxes"%string ∧
    digested (pf := transport_platform) (tc_RequestDigestProfile c) (tc_RequestDigest c) "{D}" ∧
    (if Mutation (ro_operation route)
     then reserve_at_10 (guard_request (pf := transport_platform) c) (opened, empty_store) =
       (Ok MutationGuardAccepted, snd (ServeHTTP (pf := transport_platform) same (λ _ _, true) reserve_at_10 composition (call_at 10)
                                    (call_at 10) create_request (opened, empty_store)))
     else snd (ServeHTTP (pf := transport_platform) same (λ _ _, true) reserve_at_10 composition (call_at 10) (call_at 10)
            create_request (opened, empty_store)) = (opened, empty_store)).
Proof.
  apply (served_requests_are_authorised (pf := transport_platform) same (λ _ _, true) reserve_at_10 composition (call_at 10)
           (call_at 10) create_request (opened, empty_store) serveCreate create_context "{D}").
  vm_compute. reflexivity.
Defined.
