(* ===== verification/SessionModel.v ===== *)
(** * Terminal sessions: [provider/session/model.go], [close.go], [port.go]

    The records of open and close operations of terminal sessions, their
    validation and their transitions.  A pointer field is an [option]; a
    [time.Time] is an instant. *)

From S2P Require Import Prelude ExecModel.
From stdpp Require Import base strings list.
From Stdlib Require Import Ascii ZArith Lia.

Local Open Scope Z_scope.

(** ** Errors *)

Definition session_error (name : string) : sentinel := SNamed "session" name.
Definition ErrInvalidRequest : sentinel := session_error "ErrInvalidRequest".
Definition ErrDeadlineExpired : sentinel := session_error "ErrDeadlineExpired".
Definition ErrInvalidExpiry : sentinel := session_error "ErrInvalidExpiry".
Definition ErrInvalidRecord : sentinel := session_error "ErrInvalidRecord".
Definition ErrInvalidHandoff : sentinel := session_error "ErrInvalidHandoff".
Definition ErrInvalidAllocation : sentinel := session_error "ErrInvalidAllocation".
Definition ErrAllocationConflict : sentinel := session_error "ErrAllocationConflict".
Definition ErrInvalidTransition : sentinel := session_error "ErrInvalidTransition".
Definition ErrTerminalOperation : sentinel := session_error "ErrTerminalOperation".
Definition ErrHandoffUnavailable : sentinel := session_error "ErrHandoffUnavailable".
Definition ErrHandoffExpired : sentinel := session_error "ErrHandoffExpired".
Definition ErrNotFound : sentinel := session_error "ErrNotFound".
Definition ErrConflict : sentinel := session_error "ErrConflict".
Definition ErrIdempotencyConflict : sentinel := session_error "ErrIdempotencyConflict".
Definition ErrSandboxNotReady : sentinel := session_error "ErrSandboxNotReady".
Definition ErrProviderRevisionConflict : sentinel := session_error "ErrProviderRevisionConflict".
Definition ErrGenerationConflict : sentinel := session_error "ErrGenerationConflict".
Definition ErrLeaseExpired : sentinel := session_error "ErrLeaseExpired".
Definition ErrStaleFencingToken : sentinel := session_error "ErrStaleFencingToken".
Definition ErrCapabilityUnsupported : sentinel := session_error "ErrCapabilityUnsupported".

Definition refuse {A} (s : sentinel) : result A := Err [s].

(** ** Patterns *)

Definition id_char (c : ascii) : bool := is_alnum c || one_of "._:-" c.
Definition identifierPattern (s : string) : bool := match_head_tail is_alnum id_char 199 s.

Definition digestPattern (s : string) : bool :=
  match cut_prefix "sha256:" s with
  | Some rest => all_bytes is_lower_hex rest && bool_decide (String.length rest = 64%nat)
  | None => false
  end.

Definition endpointPattern (s : string) : bool :=
  match cut_prefix "ref:session:" s with
  | Some rest => match_head_tail is_alnum (λ c, is_alnum c || one_of "._-" c) 199 rest
  | None => false
  end.

Definition allocationPattern (s : string) : bool :=
  match cut_prefix "ref:terminal/" s with
  | Some rest => all_bytes is_lower_hex rest && bool_decide (String.length rest = 32%nat)
  | None => false
  end.

(** ** Records *)

Definition RuntimeTerminal : string := "terminal".
Definition ProtocolWebSocket : string := "websocket".
Definition MaxIdempotencyKeyRunes : nat := 200.

Record OpenRequest := mkOpenRequest {
  or_SandboxID : string; or_ProviderRevisionID : string; or_OperationID : string; or_AttemptID : string;
  or_FencingToken : Z; or_IdempotencyKey : string; or_RequestDigest : string; or_Deadline : Time;
  or_ExpectedGeneration : Z; or_RuntimeSessionID : string; or_RuntimeType : string;
  or_CapabilityProfileID : string; or_ExpiresAt : Time;
}.

Inductive Status :=
  | StatusAccepted | StatusRunning | StatusSucceeded | StatusFailed | StatusCancelled | StatusOutcomeUnknown
  | StatusOther (raw : string).

Record EndpointEvidence := mkEndpointEvidence { ee_InternalEndpointReference : string; ee_ConnectionGeneration : Z }.

Record Handoff := mkHandoff {
  ho_OperationID : string; ho_AttemptID : string; ho_FencingToken : Z; ho_SandboxID : string; ho_RuntimeSessionID : string;
  ho_RuntimeType : string; ho_CapabilityProfileID : string; ho_Protocol : string; ho_InternalEndpointReference : string;
  ho_ConnectionGeneration : Z; ho_ExpiresAt : Time;
}.

Record AllocationReceipt := mkReceipt {
  al_Reference : string; al_SandboxID : string; al_RuntimeSessionID : string; al_OperationID : string; al_AttemptID : string;
  al_FencingToken : Z; al_ExpectedGeneration : Z; al_ConnectionGeneration : Z; al_AllocatedAt : Time; al_ExpiresAt : Time;
}.

Inductive AllocationState :=
  | AllocationRunning | AllocationAbsent | AllocationExpired | AllocationOutcomeUnknown | AllocationOther (raw : string).

Record AllocationEvidence := mkEvidence { av_Receipt : AllocationReceipt; av_State : AllocationState; av_ObservedAt : Time }.

Record Record_ := mkRecord {
  rc_Request : OpenRequest; rc_Status : Status; rc_AcceptedAt : Time; rc_ObservedAt : Time;
  rc_Allocation : option AllocationEvidence; rc_Handoff : option Handoff;
}.

Record SandboxAuthority := mkSandboxAuthority {
  sa_SandboxID : string; sa_ProviderRevisionID : string; sa_Ready : bool; sa_Generation : Z; sa_LeaseExpiresAt : Time;
  sa_FencingToken : Z; sa_CapabilityProfileID : string;
}.

Record Reservation := mkReservation { rv_Record : Record_; rv_Replayed : bool }.

Record CloseRequest := mkCloseRequest {
  cr_SandboxID : string; cr_ProviderRevisionID : string; cr_OperationID : string; cr_AttemptID : string; cr_FencingToken : Z;
  cr_IdempotencyKey : string; cr_RequestDigest : string; cr_Deadline : Time; cr_ExpectedGeneration : Z;
  cr_RuntimeSessionID : string; cr_ConnectionGeneration : Z; cr_Reason : string;
}.

Record CloseRecord := mkCloseRecord {
  cl_Request : CloseRequest; cl_SourceOpenOperationID : string; cl_Receipt : AllocationReceipt; cl_Status : Status;
  cl_AcceptedAt : Time; cl_ObservedAt : Time;
}.

Record CloseReservation := mkCloseReservation { cv_Record : CloseRecord; cv_Replayed : bool }.

#[export] Instance OpenRequest_eq_dec : EqDecision OpenRequest.
Proof. solve_decision. Defined.
#[export] Instance Status_eq_dec : EqDecision Status.
Proof. solve_decision. Defined.
#[export] Instance AllocationReceipt_eq_dec : EqDecision AllocationReceipt.
Proof. solve_decision. Defined.
#[export] Instance AllocationState_eq_dec : EqDecision AllocationState.
Proof. solve_decision. Defined.
#[export] Instance AllocationEvidence_eq_dec : EqDecision AllocationEvidence.
Proof. solve_decision. Defined.
#[export] Instance Handoff_eq_dec : EqDecision Handoff.
Proof. solve_decision. Defined.
#[export] Instance Record_eq_dec : EqDecision Record_.
Proof. solve_decision. Defined.
#[export] Instance SandboxAuthority_eq_dec : EqDecision SandboxAuthority.
Proof. solve_decision. Defined.
#[export] Instance CloseRequest_eq_dec : EqDecision CloseRequest.
Proof. solve_decision. Defined.
#[export] Instance CloseRecord_eq_dec : EqDecision CloseRecord.
Proof. solve_decision. Defined.

(** ** Validation *)

(** Every identifier of a list; the source ranges over a map, and each failure
    gives the same sentinel. *)
Definition identifiers (l : list string) : Prop := Forall (λ s, identifierPattern s = true) l.
#[export] Instance identifiers_dec l : Decision (identifiers l).
Proof. unfold identifiers. apply _. Defined.

Definition validateStructure (r : OpenRequest) : result unit :=
  if decide (¬ identifiers [or_SandboxID r; or_ProviderRevisionID r; or_OperationID r; or_AttemptID r; or_RuntimeSessionID r;
                            or_CapabilityProfileID r]) then refuse ErrInvalidRequest else
  if decide (validBoundedString (or_IdempotencyKey r) 1 MaxIdempotencyKeyRunes = false) then refuse ErrInvalidRequest else
  if decide (or_FencingToken r < 1 ∨ or_ExpectedGeneration r < 1) then refuse ErrInvalidRequest else
  if decide (digestPattern (or_RequestDigest r) = false) then refuse ErrInvalidRequest else
  if decide (IsZero (or_Deadline r)) then refuse ErrInvalidRequest else
  if decide (IsZero (or_ExpiresAt r)) then refuse ErrInvalidExpiry else
  if decide (or_RuntimeType r ≠ RuntimeTerminal) then refuse ErrInvalidRequest else Ok ().

Definition OpenRequest_Validate (r : OpenRequest) (now : Time) : result unit :=
  if decide (IsZero now) then refuse ErrInvalidRequest else
  _ ← validateStructure r;
  if decide (¬ After (or_Deadline r) now) then refuse ErrDeadlineExpired else
  if decide (¬ After (or_ExpiresAt r) now ∨ After (or_ExpiresAt r) (or_Deadline r)) then refuse ErrInvalidExpiry else Ok ().

Definition Status_valid (s : Status) : bool := match s with StatusOther _ => false | _ => true end.
Definition Status_terminal (s : Status) : bool :=
  match s with StatusSucceeded | StatusFailed | StatusCancelled | StatusOutcomeUnknown => true | _ => false end.

Definition EndpointEvidence_validate (e : EndpointEvidence) : result unit :=
  if decide (endpointPattern (ee_InternalEndpointReference e) = false ∨ ee_ConnectionGeneration e < 1)
  then refuse ErrInvalidHandoff else Ok ().

Definition AllocationReceipt_Validate (r : AllocationReceipt) : result unit :=
  if decide (allocationPattern (al_Reference r) = false) then refuse ErrInvalidAllocation else
  if decide (¬ identifiers [al_SandboxID r; al_RuntimeSessionID r; al_OperationID r; al_AttemptID r])
  then refuse ErrInvalidAllocation else
  if decide (al_FencingToken r < 1 ∨ al_ExpectedGeneration r < 1 ∨ al_ConnectionGeneration r < 1 ∨ IsZero (al_AllocatedAt r)
             ∨ IsZero (al_ExpiresAt r) ∨ ¬ After (al_ExpiresAt r) (al_AllocatedAt r))
  then refuse ErrInvalidAllocation else Ok ().

Definition matchesRequest (r : AllocationReceipt) (request : OpenRequest) : Prop :=
  al_SandboxID r = or_SandboxID request ∧ al_RuntimeSessionID r = or_RuntimeSessionID request ∧
  al_OperationID r = or_OperationID request ∧ al_AttemptID r = or_AttemptID request ∧
  al_FencingToken r = or_FencingToken request ∧ al_ExpectedGeneration r = or_ExpectedGeneration request ∧
  al_ExpiresAt r = or_ExpiresAt request.
#[export] Instance matchesRequest_dec r q : Decision (matchesRequest r q).
Proof. unfold matchesRequest. apply _. Defined.

Definition AllocationState_valid (s : AllocationState) : bool := match s with AllocationOther _ => false | _ => true end.

Definition AllocationEvidence_Validate (e : AllocationEvidence) (request : OpenRequest) : result unit :=
  if decide (is_ok (AllocationReceipt_Validate (av_Receipt e)) = false ∨ ¬ matchesRequest (av_Receipt e) request
             ∨ AllocationState_valid (av_State e) = false ∨ IsZero (av_ObservedAt e)
             ∨ Before (av_ObservedAt e) (al_AllocatedAt (av_Receipt e)))
  then refuse ErrInvalidAllocation else Ok ().

Definition Handoff_Validate (h : Handoff) : result unit :=
  if decide (¬ identifiers [ho_OperationID h; ho_AttemptID h; ho_SandboxID h; ho_RuntimeSessionID h; ho_CapabilityProfileID h])
  then refuse ErrInvalidHandoff else
  if decide (ho_FencingToken h < 1 ∨ ho_RuntimeType h ≠ RuntimeTerminal ∨ ho_Protocol h ≠ ProtocolWebSocket ∨ IsZero (ho_ExpiresAt h))
  then refuse ErrInvalidHandoff else
  EndpointEvidence_validate (mkEndpointEvidence (ho_InternalEndpointReference h) (ho_ConnectionGeneration h)).

Definition SandboxAuthority_Validate (a : SandboxAuthority) : result unit :=
  if decide (¬ identifiers [sa_SandboxID a; sa_ProviderRevisionID a]) then refuse ErrInvalidRecord else
  if decide (sa_Generation a < 1 ∨ sa_FencingToken a < 1 ∨ IsZero (sa_LeaseExpiresAt a)) then refuse ErrInvalidRecord else
  if decide (sa_Ready a = true ∧ identifierPattern (sa_CapabilityProfileID a) = false) then refuse ErrInvalidRecord else Ok ().

Definition handoffMatchesRequest (h : Handoff) (request : OpenRequest) : Prop :=
  ho_OperationID h = or_OperationID request ∧ ho_AttemptID h = or_AttemptID request ∧
  ho_FencingToken h = or_FencingToken request ∧ ho_SandboxID h = or_SandboxID request ∧
  ho_RuntimeSessionID h = or_RuntimeSessionID request ∧ ho_RuntimeType h = or_RuntimeType request ∧
  ho_CapabilityProfileID h = or_CapabilityProfileID request ∧ ho_ExpiresAt h = or_ExpiresAt request.
#[export] Instance handoffMatchesRequest_dec h q : Decision (handoffMatchesRequest h q).
Proof. unfold handoffMatchesRequest. apply _. Defined.

(** The [error] of the request is kept under the record's sentinel only. *)
Definition Record_Validate (r : Record_) : result unit :=
  if decide (IsZero (rc_AcceptedAt r) ∨ IsZero (rc_ObservedAt r) ∨ Before (rc_ObservedAt r) (rc_AcceptedAt r)
             ∨ Status_valid (rc_Status r) = false) then refuse ErrInvalidRecord else
  if decide (is_ok (OpenRequest_Validate (rc_Request r) (rc_AcceptedAt r)) = false) then refuse ErrInvalidRecord else
  _ ← match rc_Allocation r with
      | Some a =>
          if decide (is_ok (AllocationEvidence_Validate a (rc_Request r)) = false ∨ After (av_ObservedAt a) (rc_ObservedAt r))
          then refuse ErrInvalidRecord else Ok ()
      | None => Ok ()
      end;
  match rc_Handoff r with
  | None => if decide (rc_Status r = StatusSucceeded) then refuse ErrInvalidRecord else Ok ()
  | Some h =>
      if decide (rc_Status r ≠ StatusSucceeded) then refuse ErrInvalidRecord else
      if decide (¬ Before (rc_ObservedAt r) (or_ExpiresAt (rc_Request r))) then refuse ErrInvalidRecord else
      if decide (is_ok (Handoff_Validate h) = false ∨ ¬ handoffMatchesRequest h (rc_Request r))
      then refuse ErrInvalidRecord else Ok ()
  end.

Definition NewRecord (request : OpenRequest) (acceptedAt : Time) : result Record_ :=
  _ ← OpenRequest_Validate request acceptedAt;
  Ok (mkRecord request StatusAccepted acceptedAt acceptedAt None None).

(** ** Transitions *)

Definition transitions (from to : Status) : bool :=
  match from, to with
  | StatusAccepted, (StatusRunning | StatusFailed | StatusCancelled | StatusOutcomeUnknown) => true
  | StatusRunning, (StatusSucceeded | StatusFailed | StatusCancelled | StatusOutcomeUnknown) => true
  | _, _ => false
  end.

Definition handoff_of (request : OpenRequest) (e : EndpointEvidence) : Handoff :=
  mkHandoff (or_OperationID request) (or_AttemptID request) (or_FencingToken request) (or_SandboxID request)
    (or_RuntimeSessionID request) RuntimeTerminal (or_CapabilityProfileID request) ProtocolWebSocket
    (ee_InternalEndpointReference e) (ee_ConnectionGeneration e) (or_ExpiresAt request).

Definition Transition (record : Record_) (next : Status) (observedAt : Time) (evidence : option EndpointEvidence) : result Record_ :=
  _ ← Record_Validate record;
  if decide (Status_valid next = false ∨ IsZero observedAt ∨ Before observedAt (rc_ObservedAt record))
  then refuse ErrInvalidTransition else
  if decide (rc_Status record = next) then
    if decide (is_Some evidence) then refuse ErrTerminalOperation else Ok record
  else
  if decide (Status_terminal (rc_Status record) = true) then refuse ErrTerminalOperation else
  if decide (transitions (rc_Status record) next = false) then refuse ErrInvalidTransition else
  if decide (next = StatusRunning ∧ ¬ After (or_Deadline (rc_Request record)) observedAt) then refuse ErrDeadlineExpired else
  if decide (next ≠ StatusSucceeded ∧ is_Some evidence) then refuse ErrHandoffUnavailable else
  let request := rc_Request record in
  if decide (next ≠ StatusSucceeded)
  then Ok (mkRecord request next (rc_AcceptedAt record) observedAt (rc_Allocation record) None) else
  match evidence with
  | None => refuse ErrHandoffUnavailable
  | Some e =>
      if decide (¬ Before observedAt (or_ExpiresAt request) ∨ ¬ Before observedAt (or_Deadline request))
      then refuse ErrHandoffUnavailable else
      _ ← EndpointEvidence_validate e;
      let updated := mkRecord request next (rc_AcceptedAt record) observedAt (rc_Allocation record) (Some (handoff_of request e)) in
      _ ← Record_Validate updated;
      Ok updated
  end.

(** [sameAllocationReceipt] compares every field. *)
Definition sameAllocationReceipt (left right : AllocationReceipt) : Prop :=
  al_Reference left = al_Reference right ∧ al_SandboxID left = al_SandboxID right ∧
  al_RuntimeSessionID left = al_RuntimeSessionID right ∧ al_OperationID left = al_OperationID right ∧
  al_AttemptID left = al_AttemptID right ∧ al_FencingToken left = al_FencingToken right ∧
  al_ExpectedGeneration left = al_ExpectedGeneration right ∧ al_ConnectionGeneration left = al_ConnectionGeneration right ∧
  al_AllocatedAt left = al_AllocatedAt right ∧ al_ExpiresAt left = al_ExpiresAt right.
#[export] Instance sameAllocationReceipt_dec l r : Decision (sameAllocationReceipt l r).
Proof. unfold sameAllocationReceipt. apply _. Defined.

Definition set_allocation (r : Record_) (a : AllocationEvidence) : Record_ :=
  mkRecord (rc_Request r) (rc_Status r) (rc_AcceptedAt r) (rc_ObservedAt r) (Some a) (rc_Handoff r).

Definition AttachAllocation (record : Record_) (receipt : AllocationReceipt) : result Record_ :=
  _ ← Record_Validate record;
  if decide (is_ok (AllocationReceipt_Validate receipt) = false ∨ ¬ matchesRequest receipt (rc_Request record)
             ∨ Before (al_AllocatedAt receipt) (rc_AcceptedAt record)
             ∨ ¬ Before (al_AllocatedAt receipt) (or_Deadline (rc_Request record))) then refuse ErrInvalidAllocation else
  match rc_Allocation record with
  | Some a => if decide (sameAllocationReceipt (av_Receipt a) receipt) then Ok record else refuse ErrAllocationConflict
  | None =>
      if decide (rc_Status record ≠ StatusAccepted) then refuse ErrTerminalOperation else
      updated ← Transition record StatusRunning (al_AllocatedAt receipt) None;
      let updated := set_allocation updated (mkEvidence receipt AllocationRunning (al_AllocatedAt receipt)) in
      _ ← Record_Validate updated;
      Ok updated
  end.

Definition ObserveAllocation (record : Record_) (observation : AllocationEvidence) : result Record_ :=
  _ ← Record_Validate record;
  match rc_Allocation record with
  | None => refuse ErrTerminalOperation
  | Some a =>
      if decide (rc_Status record ≠ StatusRunning) then refuse ErrTerminalOperation else
      if decide (is_ok (AllocationEvidence_Validate observation (rc_Request record)) = false
                 ∨ ¬ sameAllocationReceipt (av_Receipt a) (av_Receipt observation)
                 ∨ Before (av_ObservedAt observation) (av_ObservedAt a)) then refuse ErrAllocationConflict else
      status ← match av_State observation with
               | AllocationRunning => Ok StatusRunning
               | AllocationAbsent | AllocationExpired => Ok StatusFailed
               | AllocationOutcomeUnknown => Ok StatusOutcomeUnknown
               | AllocationOther _ => refuse ErrInvalidAllocation
               end;
      let updated := mkRecord (rc_Request record) status (rc_AcceptedAt record) (av_ObservedAt observation) (Some observation)
                       (rc_Handoff record) in
      _ ← Record_Validate updated;
      Ok updated
  end.

(** ** Close operations *)

Definition CloseRequest_Validate (r : CloseRequest) (now : Time) : result unit :=
  if decide (IsZero now) then refuse ErrInvalidRequest else
  if decide (¬ identifiers [cr_SandboxID r; cr_ProviderRevisionID r; cr_OperationID r; cr_AttemptID r; cr_RuntimeSessionID r])
  then refuse ErrInvalidRequest else
  if decide (cr_FencingToken r < 1 ∨ cr_ExpectedGeneration r < 1 ∨ cr_ConnectionGeneration r < 1
             ∨ validBoundedString (cr_IdempotencyKey r) 1 MaxIdempotencyKeyRunes = false
             ∨ digestPattern (cr_RequestDigest r) = false ∨ validBoundedString (cr_Reason r) 1 256 = false)
  then refuse ErrInvalidRequest else
  if decide (IsZero (cr_Deadline r) ∨ ¬ After (cr_Deadline r) now) then refuse ErrDeadlineExpired else Ok ().

Definition CloseRecord_Validate (r : CloseRecord) : result unit :=
  if decide (IsZero (cl_AcceptedAt r) ∨ IsZero (cl_ObservedAt r) ∨ Before (cl_ObservedAt r) (cl_AcceptedAt r)
             ∨ Status_valid (cl_Status r) = false ∨ identifierPattern (cl_SourceOpenOperationID r) = false)
  then refuse ErrInvalidRecord else
  if decide (is_ok (CloseRequest_Validate (cl_Request r) (cl_AcceptedAt r)) = false) then refuse ErrInvalidRecord else
  if decide (is_ok (AllocationReceipt_Validate (cl_Receipt r)) = false ∨ al_SandboxID (cl_Receipt r) ≠ cr_SandboxID (cl_Request r)
             ∨ al_RuntimeSessionID (cl_Receipt r) ≠ cr_RuntimeSessionID (cl_Request r)
             ∨ al_ConnectionGeneration (cl_Receipt r) ≠ cr_ConnectionGeneration (cl_Request r)
             ∨ al_OperationID (cl_Receipt r) ≠ cl_SourceOpenOperationID r)
  then refuse ErrInvalidRecord else Ok ().

Definition NewCloseRecord (request : CloseRequest) (source : Record_) (acceptedAt : Time) : result CloseRecord :=
  _ ← CloseRequest_Validate request acceptedAt;
  if decide (is_ok (Record_Validate source) = false ∨ rc_Status source ≠ StatusSucceeded) then refuse ErrHandoffUnavailable else
  match rc_Allocation source, rc_Handoff source with
  | Some a, Some h =>
      let receipt := av_Receipt a in
      if decide (or_SandboxID (rc_Request source) ≠ cr_SandboxID request
                 ∨ or_ProviderRevisionID (rc_Request source) ≠ cr_ProviderRevisionID request
                 ∨ or_RuntimeSessionID (rc_Request source) ≠ cr_RuntimeSessionID request
                 ∨ al_ConnectionGeneration receipt ≠ cr_ConnectionGeneration request
                 ∨ ho_ConnectionGeneration h ≠ cr_ConnectionGeneration request) then refuse ErrConflict else
      let record := mkCloseRecord request (or_OperationID (rc_Request source)) receipt StatusAccepted acceptedAt acceptedAt in
      _ ← CloseRecord_Validate record;
      Ok record
  | _, _ => refuse ErrHandoffUnavailable
  end.

Definition TransitionClose (record : CloseRecord) (next : Status) (observedAt : Time) : result CloseRecord :=
  _ ← CloseRecord_Validate record;
  if decide (Status_valid next = false ∨ IsZero observedAt ∨ Before observedAt (cl_ObservedAt record))
  then refuse ErrInvalidTransition else
  if decide (cl_Status record = next) then Ok record else
  if decide (Status_terminal (cl_Status record) = true) then refuse ErrTerminalOperation else
  if decide ((cl_Status record = StatusAccepted ∧ next ≠ StatusRunning ∧ next ≠ StatusFailed ∧ next ≠ StatusOutcomeUnknown)
             ∨ (cl_Status record = StatusRunning ∧ next ≠ StatusSucceeded ∧ next ≠ StatusFailed ∧ next ≠ StatusOutcomeUnknown))
  then refuse ErrInvalidTransition else
  let updated := mkCloseRecord (cl_Request record) (cl_SourceOpenOperationID record) (cl_Receipt record) next
                   (cl_AcceptedAt record) observedAt in
  _ ← CloseRecord_Validate updated;
  Ok updated.

(** * Terminal allocations: [provider/terminal/model.go]

    What the terminal runtime is asked for and what it reports, and the
    translations of [provider/session/application/vertical.go] between these and
    the records of sessions. *)

Definition terminal_error (name : string) : sentinel := SNamed "terminal" name.
Definition TerminalErrInvalidRequest : sentinel := terminal_error "ErrInvalidRequest".
Definition ErrInvalidReceipt : sentinel := terminal_error "ErrInvalidReceipt".
Definition TerminalErrInvalidObservation : sentinel := terminal_error "ErrInvalidObservation".
Definition ErrAllocationUnknown : sentinel := terminal_error "ErrAllocationUnknown".
Definition ErrTerminalNotFound : sentinel := terminal_error "ErrTerminalNotFound".
Definition ErrTerminalExpired : sentinel := terminal_error "ErrTerminalExpired".
Definition ErrTerminalConflict : sentinel := terminal_error "ErrTerminalConflict".
Definition ErrTerminalCapacity : sentinel := terminal_error "ErrTerminalCapacity".
Definition ErrTerminalUnsupported : sentinel := terminal_error "ErrTerminalUnsupported".

Record AllocationRequest := mkAllocationRequest {
  ar_SandboxID : string; ar_RuntimeSessionID : string; ar_OperationID : string; ar_AttemptID : string; ar_FencingToken : Z;
  ar_ExpectedGeneration : Z; ar_RequestDigest : string; ar_WorkingDirectory : string; ar_ExpiresAt : Time;
}.

(** The regular expression is the one of [provider/exec]. *)
Definition AllocationRequest_Validate (r : AllocationRequest) (now : Time) : result unit :=
  if decide (IsZero now) then refuse TerminalErrInvalidRequest else
  if decide (¬ identifiers [ar_SandboxID r; ar_RuntimeSessionID r; ar_OperationID r; ar_AttemptID r])
  then refuse TerminalErrInvalidRequest else
  if decide (ar_FencingToken r < 1 ∨ ar_ExpectedGeneration r < 1) then refuse TerminalErrInvalidRequest else
  if decide (SessionModel.digestPattern (ar_RequestDigest r) = false) then refuse TerminalErrInvalidRequest else
  if decide (workingDirectoryPattern (ar_WorkingDirectory r) = false) then refuse TerminalErrInvalidRequest else
  if decide (IsZero (ar_ExpiresAt r) ∨ ¬ After (ar_ExpiresAt r) now) then refuse TerminalErrInvalidRequest else Ok ().

Record Allocation := mkAllocation { an_Request : AllocationRequest; an_AllocatedAt : Time }.

Definition Allocation_Validate (a : Allocation) : result unit :=
  if decide (IsZero (an_AllocatedAt a)) then refuse TerminalErrInvalidRequest else
  AllocationRequest_Validate (an_Request a) (an_AllocatedAt a).

Record Receipt := mkTerminalReceipt {
  tr_Reference : string; tr_SandboxID : string; tr_RuntimeSessionID : string; tr_OperationID : string; tr_AttemptID : string;
  tr_FencingToken : Z; tr_ExpectedGeneration : Z; tr_ConnectionGeneration : Z; tr_AllocatedAt : Time; tr_ExpiresAt : Time;
}.
#[export] Instance Receipt_eq_dec : EqDecision Receipt.
Proof. solve_decision. Defined.

(** The pattern of references is the one of session allocations. *)
Definition Reference_Validate (r : string) : result unit :=
  if decide (allocationPattern r = false) then refuse ErrInvalidReceipt else Ok ().

Definition Receipt_Validate (r : Receipt) : result unit :=
  _ ← Reference_Validate (tr_Reference r);
  if decide (¬ identifiers [tr_SandboxID r; tr_RuntimeSessionID r; tr_OperationID r; tr_AttemptID r])
  then refuse ErrInvalidReceipt else
  if decide (tr_FencingToken r < 1 ∨ tr_ExpectedGeneration r < 1 ∨ tr_ConnectionGeneration r < 1 ∨ IsZero (tr_AllocatedAt r)
             ∨ IsZero (tr_ExpiresAt r) ∨ ¬ After (tr_ExpiresAt r) (tr_AllocatedAt r))
  then refuse ErrInvalidReceipt else Ok ().

Definition Matches (r : Receipt) (q : AllocationRequest) : Prop :=
  tr_SandboxID r = ar_SandboxID q ∧ tr_RuntimeSessionID r = ar_RuntimeSessionID q ∧ tr_OperationID r = ar_OperationID q ∧
  tr_AttemptID r = ar_AttemptID q ∧ tr_FencingToken r = ar_FencingToken q ∧
  tr_ExpectedGeneration r = ar_ExpectedGeneration q ∧ tr_ExpiresAt r = ar_ExpiresAt q.
#[export] Instance Matches_dec r q : Decision (Matches r q).
Proof. unfold Matches. apply _. Defined.

Inductive ObservationState :=
  | ObservationRunning | ObservationAbsent | ObservationExpired | ObservationOutcomeUnknown | ObservationOther (raw : string).
#[export] Instance ObservationState_eq_dec : EqDecision ObservationState.
Proof. solve_decision. Defined.

Record Observation := mkTerminalObservation { on_Receipt : Receipt; on_State : ObservationState; on_ObservedAt : Time }.

Definition Observation_Validate (o : Observation) : result unit :=
  if decide (is_ok (Receipt_Validate (on_Receipt o)) = false ∨ IsZero (on_ObservedAt o)
             ∨ Before (on_ObservedAt o) (tr_AllocatedAt (on_Receipt o))) then refuse TerminalErrInvalidObservation else
  match on_State o with ObservationOther _ => refuse TerminalErrInvalidObservation | _ => Ok () end.

(** ** Translations *)

Definition terminalRequest (r : OpenRequest) (workingDirectory : string) : AllocationRequest :=
  mkAllocationRequest (or_SandboxID r) (or_RuntimeSessionID r) (or_OperationID r) (or_AttemptID r) (or_FencingToken r)
    (or_ExpectedGeneration r) (or_RequestDigest r) workingDirectory (or_ExpiresAt r).

Definition sessionReceipt (r : Receipt) : AllocationReceipt :=
  mkReceipt (tr_Reference r) (tr_SandboxID r) (tr_RuntimeSessionID r) (tr_OperationID r) (tr_AttemptID r) (tr_FencingToken r)
    (tr_ExpectedGeneration r) (tr_ConnectionGeneration r) (tr_AllocatedAt r) (tr_ExpiresAt r).

Definition terminalReceipt (r : AllocationReceipt) : Receipt :=
  mkTerminalReceipt (al_Reference r) (al_SandboxID r) (al_RuntimeSessionID r) (al_OperationID r) (al_AttemptID r)
    (al_FencingToken r) (al_ExpectedGeneration r) (al_ConnectionGeneration r) (al_AllocatedAt r) (al_ExpiresAt r).

Definition observed_state (s : ObservationState) : AllocationState :=
  match s with
  | ObservationRunning => AllocationRunning
  | ObservationAbsent => AllocationAbsent
  | ObservationExpired => AllocationExpired
  | ObservationOutcomeUnknown | ObservationOther _ => AllocationOutcomeUnknown
  end.

Definition sessionObservation (o : Observation) : AllocationEvidence :=
  mkEvidence (sessionReceipt (on_Receipt o)) (observed_state (on_State o)) (on_ObservedAt o).

Lemma session_terminal_receipt r : sessionReceipt (terminalReceipt r) = r.
Proof. by destruct r. Qed.

Lemma terminal_session_receipt r : terminalReceipt (sessionReceipt r) = r.
Proof. by destruct r. Qed.
