(* ===== verification/SessionState.v ===== *)
(** * Terminal session repository: [provider/session/repository/state.go]

    The adapter-independent state of the session repository: open and close
    operations, their idempotency records and the sandbox authorities, with every
    operation on it and the snapshot that adapters persist. *)

From S2P Require Import Prelude SessionModel.
From stdpp Require Import base gmap strings list fin_maps.
From Stdlib Require Import ZArith Lia.

Local Open Scope Z_scope.

Definition repository_error (name : string) : sentinel := SNamed "session/repository" name.
Definition ErrAlreadyExists : sentinel := repository_error "ErrAlreadyExists".
Definition ErrAuthorityConflict : sentinel := repository_error "ErrAuthorityConflict".
Definition ErrCorrupt : sentinel := repository_error "ErrCorrupt".

Definition legacySnapshotVersion : Z := 1.
Definition allocationSnapshotVersion : Z := 2.
Definition snapshotVersion : Z := 3.

Record IdempotencyRecord := mkIdempotency { id_Scope : string; id_Key : string; id_RequestDigest : string; id_OperationID : string }.

Record State := mkState {
  Sessions : gmap string Record_;
  Closes : gmap string CloseRecord;
  Idempotency : gmap string IdempotencyRecord;
  CloseIdempotency : gmap string IdempotencyRecord;
  Authorities : gmap string SandboxAuthority;
}.

Record PersistedState := mkPersisted {
  ps_Version : Z;
  ps_Sessions : list Record_;
  ps_Closes : list CloseRecord;
  ps_Idempotency : list IdempotencyRecord;
  ps_CloseIdempotency : list IdempotencyRecord;
  ps_Authorities : list SandboxAuthority;
}.

Definition NewState : State := mkState ∅ ∅ ∅ ∅ ∅.

Definition set_sessions (m : gmap string Record_) (s : State) : State :=
  mkState m (Closes s) (Idempotency s) (CloseIdempotency s) (Authorities s).
Definition set_authorities (m : gmap string SandboxAuthority) (s : State) : State :=
  mkState (Sessions s) (Closes s) (Idempotency s) (CloseIdempotency s) m.

Definition corrupt {A} : result A := Err [ErrCorrupt].

(** ** Authorities *)

Definition put_authority (a : SandboxAuthority) (s : State) : State :=
  set_authorities (<[sa_SandboxID a := a]> (Authorities s)) s.

Definition PutSandboxAuthority (a : SandboxAuthority) (s : State) : result (unit * State) :=
  _ ← SandboxAuthority_Validate a;
  match Authorities s !! sa_SandboxID a with
  | Some existing => if decide (existing = a) then Ok ((), s) else refuse ErrAuthorityConflict
  | None => Ok ((), put_authority a s)
  end.

(** [current.Generation+1] is an [int64]. *)
Definition ReplaceSandboxAuthority (a : SandboxAuthority) (expectedGeneration fencingToken : Z) (s : State) : result (unit * State) :=
  _ ← SandboxAuthority_Validate a;
  match Authorities s !! sa_SandboxID a with
  | None => refuse ErrNotFound
  | Some current =>
      if decide (sa_Generation current ≠ expectedGeneration ∨ sa_Generation a < sa_Generation current
                 ∨ sa_Generation a > i64 (sa_Generation current + 1)) then refuse ErrGenerationConflict else
      if decide (fencingToken ≠ sa_FencingToken current) then refuse ErrStaleFencingToken else
      if decide (sa_FencingToken a < sa_FencingToken current) then refuse ErrStaleFencingToken else
      if decide (sa_ProviderRevisionID a ≠ sa_ProviderRevisionID current) then refuse ErrProviderRevisionConflict else
      Ok ((), put_authority a s)
  end.

Definition GetSandboxAuthority (sandboxID : string) (s : State) : result SandboxAuthority :=
  match Authorities s !! sandboxID with Some a => Ok a | None => refuse ErrNotFound end.

Definition SynchronizeSandboxAuthority (a : SandboxAuthority) (s : State) : result (unit * State) :=
  _ ← SandboxAuthority_Validate a;
  match Authorities s !! sa_SandboxID a with
  | None => Ok ((), put_authority a s)
  | Some current =>
      if decide (sa_ProviderRevisionID current ≠ sa_ProviderRevisionID a) then refuse ErrProviderRevisionConflict else
      if decide (sa_CapabilityProfileID current ≠ sa_CapabilityProfileID a) then refuse ErrCapabilityUnsupported else
      if decide (sa_Generation a < sa_Generation current) then refuse ErrGenerationConflict else
      if decide (sa_FencingToken a < sa_FencingToken current) then refuse ErrStaleFencingToken else
      Ok ((), put_authority a s)
  end.

Definition checkAuthority (a : SandboxAuthority) (request : OpenRequest) (now : Time) : result unit :=
  if decide (is_ok (SandboxAuthority_Validate a) = false) then corrupt else
  if decide (sa_ProviderRevisionID a ≠ or_ProviderRevisionID request) then refuse ErrProviderRevisionConflict else
  if decide (sa_Ready a = false) then refuse ErrSandboxNotReady else
  if decide (sa_Generation a ≠ or_ExpectedGeneration request) then refuse ErrGenerationConflict else
  if decide (¬ After (sa_LeaseExpiresAt a) now ∨ After (or_ExpiresAt request) (sa_LeaseExpiresAt a)) then refuse ErrLeaseExpired else
  if decide (sa_FencingToken a ≠ or_FencingToken request) then refuse ErrStaleFencingToken else
  if decide (sa_CapabilityProfileID a ≠ or_CapabilityProfileID request) then refuse ErrCapabilityUnsupported else Ok ().

Definition checkCloseAuthority (a : SandboxAuthority) (request : CloseRequest) : result unit :=
  if decide (is_ok (SandboxAuthority_Validate a) = false) then corrupt else
  if decide (sa_ProviderRevisionID a ≠ cr_ProviderRevisionID request) then refuse ErrProviderRevisionConflict else
  if decide (sa_Generation a ≠ cr_ExpectedGeneration request) then refuse ErrGenerationConflict else
  if decide (sa_FencingToken a ≠ cr_FencingToken request) then refuse ErrStaleFencingToken else Ok ().

(** ** Identities *)

Definition scope_of (sandbox revision key : string) : string := sandbox +:+ String NUL (revision +:+ String NUL key).
Definition idempotencyScope (r : OpenRequest) : string := scope_of (or_SandboxID r) (or_ProviderRevisionID r) (or_IdempotencyKey r).
Definition closeIdempotencyScope (r : CloseRequest) : string :=
  scope_of (cr_SandboxID r) (cr_ProviderRevisionID r) (cr_IdempotencyKey r).

Definition sameOpenRequest (left right : OpenRequest) : Prop :=
  or_SandboxID left = or_SandboxID right ∧ or_ProviderRevisionID left = or_ProviderRevisionID right ∧
  or_OperationID left = or_OperationID right ∧ or_AttemptID left = or_AttemptID right ∧
  or_FencingToken left = or_FencingToken right ∧ or_IdempotencyKey left = or_IdempotencyKey right ∧
  or_RequestDigest left = or_RequestDigest right ∧ or_Deadline left = or_Deadline right ∧
  or_ExpectedGeneration left = or_ExpectedGeneration right ∧ or_RuntimeSessionID left = or_RuntimeSessionID right ∧
  or_RuntimeType left = or_RuntimeType right ∧ or_CapabilityProfileID left = or_CapabilityProfileID right ∧
  or_ExpiresAt left = or_ExpiresAt right.
Definition sameCloseRequest (left right : CloseRequest) : Prop :=
  cr_SandboxID left = cr_SandboxID right ∧ cr_ProviderRevisionID left = cr_ProviderRevisionID right ∧
  cr_OperationID left = cr_OperationID right ∧ cr_AttemptID left = cr_AttemptID right ∧
  cr_FencingToken left = cr_FencingToken right ∧ cr_IdempotencyKey left = cr_IdempotencyKey right ∧
  cr_RequestDigest left = cr_RequestDigest right ∧ cr_Deadline left = cr_Deadline right ∧
  cr_ExpectedGeneration left = cr_ExpectedGeneration right ∧ cr_RuntimeSessionID left = cr_RuntimeSessionID right ∧
  cr_ConnectionGeneration left = cr_ConnectionGeneration right ∧ cr_Reason left = cr_Reason right.
#[export] Instance sameOpenRequest_dec l r : Decision (sameOpenRequest l r).
Proof. unfold sameOpenRequest. apply _. Defined.
#[export] Instance sameCloseRequest_dec l r : Decision (sameCloseRequest l r).
Proof. unfold sameCloseRequest. apply _. Defined.

(** ** Opening *)

Definition ReserveOpenAt (request : OpenRequest) (acceptedAt : Time) (s : State) : result (Reservation * State) :=
  if decide (IsZero acceptedAt) then refuse ErrInvalidRequest else
  _ ← OpenRequest_Validate request acceptedAt;
  a ← GetSandboxAuthority (or_SandboxID request) s;
  _ ← checkAuthority a request acceptedAt;
  let scope := idempotencyScope request in
  if decide (is_Some (CloseIdempotency s !! scope)) then refuse ErrIdempotencyConflict else
  match Idempotency s !! scope with
  | Some existing =>
      if decide (id_RequestDigest existing ≠ or_RequestDigest request) then refuse ErrIdempotencyConflict else
      match Sessions s !! id_OperationID existing with
      | None => corrupt
      | Some record =>
          if decide (¬ sameOpenRequest (rc_Request record) request) then refuse ErrConflict else
          Ok (mkReservation record true, s)
      end
  | None =>
      if decide (is_Some (Sessions s !! or_OperationID request)) then refuse ErrAlreadyExists else
      if decide (is_Some (Closes s !! or_OperationID request)) then refuse ErrAlreadyExists else
      record ← NewRecord request acceptedAt;
      Ok (mkReservation record false,
          mkState (<[or_OperationID request := record]> (Sessions s)) (Closes s)
            (<[scope := mkIdempotency scope (or_IdempotencyKey request) (or_RequestDigest request) (or_OperationID request)]> (Idempotency s))
            (CloseIdempotency s) (Authorities s))
  end.

Definition GetOpenAt (operationID : string) (now : Time) (s : State) : result Record_ :=
  match Sessions s !! operationID with
  | None => refuse ErrNotFound
  | Some record =>
      if decide (is_ok (Record_Validate record) = false) then corrupt else
      if decide (IsZero now) then refuse ErrInvalidRecord else
      if decide (rc_Status record = StatusSucceeded ∧ ¬ Before now (or_ExpiresAt (rc_Request record))) then refuse ErrHandoffExpired else
      Ok record
  end.

Definition ListOpen (s : State) : list Record_ := snd <$> sort_by fst (map_to_list (Sessions s)).

(** The reference of the allocation of a record. *)
Definition reference_of (r : Record_) : option string := (λ a, al_Reference (av_Receipt a)) <$> rc_Allocation r.

(** Another operation has the reference of the receipt. *)
Definition reference_taken (sessions : gmap string Record_) (operationID reference : string) : Prop :=
  Exists (λ p, p.1 ≠ operationID ∧ reference_of p.2 = Some reference) (map_to_list sessions).
#[export] Instance reference_taken_dec m o r : Decision (reference_taken m o r).
Proof. unfold reference_taken. apply _. Defined.

Definition AttachAllocation_ (receipt : AllocationReceipt) (s : State) : result (Reservation * State) :=
  _ ← AllocationReceipt_Validate receipt;
  match Sessions s !! al_OperationID receipt with
  | None => refuse ErrNotFound
  | Some current =>
      if decide (reference_taken (Sessions s) (al_OperationID receipt) (al_Reference receipt)) then refuse ErrAllocationConflict else
      _ ← match rc_Allocation current with
          | None =>
              a ← GetSandboxAuthority (or_SandboxID (rc_Request current)) s;
              checkAuthority a (rc_Request current) (al_AllocatedAt receipt)
          | Some _ => Ok ()
          end;
      updated ← AttachAllocation current receipt;
      Ok (mkReservation updated (bool_decide (is_Some (rc_Allocation current))),
          set_sessions (<[al_OperationID receipt := updated]> (Sessions s)) s)
  end.

Definition ObserveAllocation_ (operationID : string) (observation : AllocationEvidence) (s : State) : result (Record_ * State) :=
  match Sessions s !! operationID with
  | None => refuse ErrNotFound
  | Some current =>
      updated ← ObserveAllocation current observation;
      Ok (updated, set_sessions (<[operationID := updated]> (Sessions s)) s)
  end.

Definition evidence_of (h : Handoff) : EndpointEvidence :=
  mkEndpointEvidence (ho_InternalEndpointReference h) (ho_ConnectionGeneration h).

Definition UpdateOpenAt (record : Record_) (expectedStatus : Status) (now : Time) (s : State) : result (unit * State) :=
  if decide (IsZero now) then refuse ErrInvalidRecord else
  match Sessions s !! or_OperationID (rc_Request record) with
  | None => refuse ErrNotFound
  | Some current =>
      if decide (rc_Status current ≠ expectedStatus) then refuse ErrConflict else
      if decide (¬ sameOpenRequest (rc_Request current) (rc_Request record) ∨ rc_AcceptedAt current ≠ rc_AcceptedAt record)
      then refuse ErrConflict else
      if decide (rc_Allocation current ≠ rc_Allocation record
                 ∨ (rc_Status current = StatusAccepted ∧ rc_Status record = StatusRunning)) then refuse ErrConflict else
      if decide (rc_Status record = StatusSucceeded ∧ rc_Allocation current = None) then refuse ErrInvalidAllocation else
      _ ← Record_Validate record;
      updated ← Transition current (rc_Status record) (rc_ObservedAt record) (evidence_of <$> rc_Handoff record);
      if decide (updated ≠ record) then refuse ErrConflict else
      _ ← (if decide (rc_Status record = StatusSucceeded ∧ rc_Status current ≠ StatusSucceeded) then
             a ← GetSandboxAuthority (or_SandboxID (rc_Request record)) s;
             checkAuthority a (rc_Request record) now
           else Ok ());
      Ok ((), set_sessions (<[or_OperationID (rc_Request record) := record]> (Sessions s)) s)
  end.

(** ** Closing *)

(** The open operations of a runtime session. *)
Definition sources (request : CloseRequest) (s : State) : list Record_ :=
  filter (λ r, or_SandboxID (rc_Request r) = cr_SandboxID request ∧ or_RuntimeSessionID (rc_Request r) = cr_RuntimeSessionID request)
    (map_to_list (Sessions s)).*2.

Definition ReserveCloseAt (request : CloseRequest) (acceptedAt : Time) (s : State) : result (CloseReservation * State) :=
  _ ← CloseRequest_Validate request acceptedAt;
  a ← GetSandboxAuthority (cr_SandboxID request) s;
  _ ← checkCloseAuthority a request;
  let scope := closeIdempotencyScope request in
  if decide (is_Some (Idempotency s !! scope)) then refuse ErrIdempotencyConflict else
  match CloseIdempotency s !! scope with
  | Some existing =>
      if decide (id_RequestDigest existing ≠ cr_RequestDigest request ∨ id_OperationID existing ≠ cr_OperationID request)
      then refuse ErrIdempotencyConflict else
      match Closes s !! id_OperationID existing with
      | None => corrupt
      | Some record =>
          if decide (¬ sameCloseRequest (cl_Request record) request) then refuse ErrConflict else
          Ok (mkCloseReservation record true, s)
      end
  | None =>
      if decide (is_Some (Sessions s !! cr_OperationID request)) then refuse ErrAlreadyExists else
      if decide (is_Some (Closes s !! cr_OperationID request)) then refuse ErrAlreadyExists else
      match sources request s with
      | [] => refuse ErrNotFound
      | [source] =>
          record ← NewCloseRecord request source acceptedAt;
          Ok (mkCloseReservation record false,
              mkState (Sessions s) (<[cr_OperationID request := record]> (Closes s)) (Idempotency s)
                (<[scope := mkIdempotency scope (cr_IdempotencyKey request) (cr_RequestDigest request) (cr_OperationID request)]>
                   (CloseIdempotency s)) (Authorities s))
      | _ => refuse ErrConflict
      end
  end.

Definition GetClose (operationID : string) (s : State) : result CloseRecord :=
  match Closes s !! operationID with
  | None => refuse ErrNotFound
  | Some record => if decide (is_ok (CloseRecord_Validate record) = false) then corrupt else Ok record
  end.

Definition ListClose (s : State) : list CloseRecord := snd <$> sort_by fst (map_to_list (Closes s)).

Definition UpdateCloseAt (record : CloseRecord) (expectedStatus : Status) (s : State) : result (unit * State) :=
  match Closes s !! cr_OperationID (cl_Request record) with
  | None => refuse ErrNotFound
  | Some current =>
      if decide (cl_Status current ≠ expectedStatus ∨ ¬ sameCloseRequest (cl_Request current) (cl_Request record)
                 ∨ cl_SourceOpenOperationID current ≠ cl_SourceOpenOperationID record ∨ cl_Receipt current ≠ cl_Receipt record
                 ∨ cl_AcceptedAt current ≠ cl_AcceptedAt record) then refuse ErrConflict else
      updated ← TransitionClose current (cl_Status record) (cl_ObservedAt record);
      if decide (updated ≠ record) then refuse ErrConflict else
      Ok ((), mkState (Sessions s) (<[cr_OperationID (cl_Request record) := record]> (Closes s)) (Idempotency s)
                (CloseIdempotency s) (Authorities s))
  end.

(** ** Snapshots *)

Definition Export (s : State) : PersistedState :=
  mkPersisted snapshotVersion
    (sort_by (or_OperationID ∘ rc_Request) (map_to_list (Sessions s)).*2)
    (sort_by (cr_OperationID ∘ cl_Request) (map_to_list (Closes s)).*2)
    (sort_by id_Scope (map_to_list (Idempotency s)).*2)
    (sort_by id_Scope (map_to_list (CloseIdempotency s)).*2)
    (sort_by sa_SandboxID (map_to_list (Authorities s)).*2).

Definition validatePersistedRecord (record : Record_) : result unit :=
  match rc_Status record, rc_Allocation record with
  | StatusAccepted, Some _ => corrupt
  | StatusRunning, None => corrupt
  | (StatusRunning | StatusSucceeded), Some a => if decide (av_State a ≠ AllocationRunning) then corrupt else Ok ()
  | _, _ => Ok ()
  end.

(** Version 1 had no allocations; its running operations have an unknown outcome. *)
Definition migrate (version : Z) (record : Record_) : result Record_ :=
  if decide (version ≠ legacySnapshotVersion) then Ok record else
  if decide (is_Some (rc_Allocation record)) then corrupt else
  if decide (rc_Status record = StatusRunning)
  then Ok (mkRecord (rc_Request record) StatusOutcomeUnknown (rc_AcceptedAt record) (rc_ObservedAt record) (rc_Allocation record)
             (rc_Handoff record))
  else Ok record.

(** The authority of the sandbox is there and of the same revision. *)
Definition has_authority (authorities : gmap string SandboxAuthority) (sandbox revision : string) : bool :=
  match authorities !! sandbox with Some a => bool_decide (sa_ProviderRevisionID a = revision) | None => false end.

Definition load_session (version : Z) (authorities : gmap string SandboxAuthority) (loaded : gmap string Record_) (record : Record_)
    : result (gmap string Record_) :=
  record ← migrate version record;
  if decide (is_ok (Record_Validate record) = false) then corrupt else
  _ ← validatePersistedRecord record;
  let request := rc_Request record in
  if decide (is_Some (loaded !! or_OperationID request)) then corrupt else
  if decide (has_authority authorities (or_SandboxID request) (or_ProviderRevisionID request) = false) then corrupt else
  if decide (is_Some (reference_of record) ∧ Exists (λ p, reference_of p.2 = reference_of record) (map_to_list loaded))
  then corrupt else
  Ok (<[or_OperationID request := record]> loaded).

Definition close_source_ok (sessions : gmap string Record_) (record : CloseRecord) : bool :=
  match sessions !! cl_SourceOpenOperationID record with
  | Some source =>
      bool_decide ((av_Receipt <$> rc_Allocation source) = Some (cl_Receipt record)
                   ∧ or_SandboxID (rc_Request source) = cr_SandboxID (cl_Request record)
                   ∧ or_RuntimeSessionID (rc_Request source) = cr_RuntimeSessionID (cl_Request record))
  | None => false
  end.

Definition load_close (version : Z) (authorities : gmap string SandboxAuthority) (sessions : gmap string Record_)
    (loaded : gmap string CloseRecord) (record : CloseRecord) : result (gmap string CloseRecord) :=
  let request := cl_Request record in
  if decide (version ≠ snapshotVersion ∨ is_ok (CloseRecord_Validate record) = false) then corrupt else
  if decide (is_Some (sessions !! cr_OperationID request)) then corrupt else
  if decide (is_Some (loaded !! cr_OperationID request)) then corrupt else
  if decide (close_source_ok sessions record = false) then corrupt else
  if decide (has_authority authorities (cr_SandboxID request) (cr_ProviderRevisionID request) = false) then corrupt else
  Ok (<[cr_OperationID request := record]> loaded).

Definition idempotency_blank (r : IdempotencyRecord) : Prop :=
  id_Scope r = "" ∨ id_Key r = "" ∨ id_RequestDigest r = "" ∨ id_OperationID r = "".
#[export] Instance idempotency_blank_dec r : Decision (idempotency_blank r).
Proof. unfold idempotency_blank. apply _. Defined.

(** [binding] gives the digest, key and scope of the operation. *)
Definition load_idempotency (binding : string → option (string * string * string)) (other : gmap string IdempotencyRecord)
    (loaded : gmap string IdempotencyRecord) (record : IdempotencyRecord) : result (gmap string IdempotencyRecord) :=
  if decide (idempotency_blank record) then corrupt else
  if decide (binding (id_OperationID record) ≠ Some (id_RequestDigest record, id_Key record, id_Scope record)) then corrupt else
  if decide (is_Some (other !! id_Scope record)) then corrupt else
  if decide (is_Some (loaded !! id_Scope record)) then corrupt else
  Ok (<[id_Scope record := record]> loaded).

Definition open_binding (sessions : gmap string Record_) (operationID : string) : option (string * string * string) :=
  (λ r, (or_RequestDigest (rc_Request r), or_IdempotencyKey (rc_Request r), idempotencyScope (rc_Request r))) <$> sessions !! operationID.
Definition close_binding (closes : gmap string CloseRecord) (operationID : string) : option (string * string * string) :=
  (λ r, (cr_RequestDigest (cl_Request r), cr_IdempotencyKey (cl_Request r), closeIdempotencyScope (cl_Request r))) <$> closes !! operationID.

Definition Import (snapshot : PersistedState) : result State :=
  let version := ps_Version snapshot in
  if decide (version ≠ legacySnapshotVersion ∧ version ≠ allocationSnapshotVersion ∧ version ≠ snapshotVersion) then corrupt else
  authorities ← foldM (load_one [ErrCorrupt] sa_SandboxID id
                         (λ a, if decide (is_ok (SandboxAuthority_Validate a) = false) then corrupt else Ok ())) ∅ (ps_Authorities snapshot);
  sessions ← foldM (load_session version authorities) ∅ (ps_Sessions snapshot);
  closes ← foldM (load_close version authorities sessions) ∅ (ps_Closes snapshot);
  idempotency ← foldM (load_idempotency (open_binding sessions) ∅) ∅ (ps_Idempotency snapshot);
  closeIdempotency ← foldM (load_idempotency (close_binding closes) idempotency) ∅ (ps_CloseIdempotency snapshot);
  if decide (¬ map_Forall (λ _ r, is_Some (idempotency !! idempotencyScope (rc_Request r))) sessions) then corrupt else
  if decide (¬ map_Forall (λ _ r, is_Some (closeIdempotency !! closeIdempotencyScope (cl_Request r))) closes) then corrupt else
  Ok (mkState sessions closes idempotency closeIdempotency authorities).
