(* ===== verification/SessionInvariant.v ===== *)
(** * The invariant of the terminal session repository

    What every state of [provider/session/repository] satisfies, that each
    operation preserves it, how records evolve over a run, and that a snapshot of
    such a state loads back to it. *)

From S2P Require Import Prelude SessionModel SessionState.
From stdpp Require Import base gmap strings list fin_maps.
From Stdlib Require Import ZArith Lia.

Local Open Scope Z_scope.

(** ** One record *)

Definition handoff_wf (r : Record_) : Prop :=
  match rc_Handoff r with
  | None => rc_Status r ≠ StatusSucceeded
  | Some h => rc_Status r = StatusSucceeded ∧ rc_ObservedAt r < or_ExpiresAt (rc_Request r) ∧
              Handoff_Validate h = Ok () ∧ handoffMatchesRequest h (rc_Request r)
  end.

Definition allocation_wf (r : Record_) : Prop :=
  match rc_Allocation r with
  | None => True
  | Some a => AllocationEvidence_Validate a (rc_Request r) = Ok () ∧ av_ObservedAt a ≤ rc_ObservedAt r
  end.

Lemma Record_Validate_spec r :
  Record_Validate r = Ok () ↔
  rc_AcceptedAt r ≠ 0 ∧ rc_ObservedAt r ≠ 0 ∧ rc_AcceptedAt r ≤ rc_ObservedAt r ∧ Status_valid (rc_Status r) = true ∧
  OpenRequest_Validate (rc_Request r) (rc_AcceptedAt r) = Ok () ∧ allocation_wf r ∧ handoff_wf r.
Proof.
  unfold Record_Validate, allocation_wf, handoff_wf, refuse, IsZero, Before, After. split.
  - intros H. crack H. split_and!; [done|done|lia|done|done| |].
    + destruct (rc_Allocation r) as [a|]; [|done]. crack Hstep. split; [done|lia].
    + destruct (rc_Handoff r) as [h|]; crack H; [|done]. split_and!; [done|lia|done|done].
  - intros (H1 & H2 & H3 & H4 & H5 & H6 & H7). rewrite decide_False by (rewrite H4; naive_solver lia).
    rewrite decide_False by (by rewrite H5).
    assert (match rc_Allocation r with
            | Some a => if decide (is_ok (AllocationEvidence_Validate a (rc_Request r)) = false ∨ rc_ObservedAt r < av_ObservedAt a)
                        then Err [ErrInvalidRecord] else Ok ()
            | None => Ok () end = Ok ()) as ->.
    { destruct (rc_Allocation r) as [a|]; [|done]. destruct H6 as [-> ?]. rewrite decide_False; [done|]. cbn. naive_solver lia. }
    cbn [mbind result_bind]. destruct (rc_Handoff r) as [h|]; [|by rewrite decide_False].
    destruct H7 as (? & ? & Hh & ?). rewrite decide_False by naive_solver. rewrite decide_False by lia.
    rewrite decide_False; [done|]. rewrite Hh. cbn. naive_solver.
Qed.

Definition persistable (r : Record_) : Prop := Record_Validate r = Ok () ∧ validatePersistedRecord r = Ok ().

Lemma validatePersistedRecord_spec r :
  validatePersistedRecord r = Ok () ↔
  match rc_Status r with
  | StatusAccepted => rc_Allocation r = None
  | StatusRunning => ∃ a, rc_Allocation r = Some a ∧ av_State a = AllocationRunning
  | StatusSucceeded => ∀ a, rc_Allocation r = Some a → av_State a = AllocationRunning
  | _ => True
  end.
Proof.
  unfold validatePersistedRecord, corrupt. destruct (rc_Status r), (rc_Allocation r); try case_decide; naive_solver.
Qed.

(** How the record of an operation may change. *)
Definition record_evolves (r r' : Record_) : Prop :=
  rc_Request r' = rc_Request r ∧ rc_AcceptedAt r' = rc_AcceptedAt r ∧
  (Status_terminal (rc_Status r) = true → r' = r) ∧
  (rc_Status r' = StatusAccepted → rc_Status r = StatusAccepted) ∧
  (∀ a, rc_Allocation r = Some a → ∃ a', rc_Allocation r' = Some a' ∧ av_Receipt a' = av_Receipt a).

Lemma record_evolves_refl r : record_evolves r r.
Proof. split_and!; eauto. Qed.

Lemma record_evolves_trans r1 r2 r3 : record_evolves r1 r2 → record_evolves r2 r3 → record_evolves r1 r3.
Proof.
  intros (R1 & A1 & T1 & S1 & L1) (R2 & A2 & T2 & S2 & L2). split_and!; [congruence|congruence| |auto|].
  - intros Ht. rewrite (T1 Ht) in *. auto.
  - intros a Ha. destruct (L1 a Ha) as (a' & Ha' & He). destruct (L2 a' Ha') as (a'' & ? & ?). exists a''. split; [done|congruence].
Qed.

Lemma identifiers_cons s l : identifiers (s :: l) ↔ identifierPattern s = true ∧ identifiers l.
Proof. unfold identifiers. by rewrite Forall_cons. Qed.

(** *** Transitions *)

Lemma Transition_Ok r next t e r' :
  Transition r next t e = Ok r' →
  Record_Validate r = Ok () ∧
  (r' = r ∧ next = rc_Status r ∨
   Status_terminal (rc_Status r) = false ∧ transitions (rc_Status r) next = true ∧ rc_ObservedAt r ≤ t ∧ t ≠ 0 ∧
   Record_Validate r' = Ok () ∧
   r' = mkRecord (rc_Request r) next (rc_AcceptedAt r) t (rc_Allocation r) (rc_Handoff r') ∧
   (is_Some (rc_Handoff r') ↔ next = StatusSucceeded)).
Proof.
  unfold Transition, refuse, IsZero, Before. intros H. inv_ok H. destruct x. split; [done|]. split_guards.
  case_decide as Hs; [case_decide; [done|]; simplify_eq; by left|]. right. crack H.
  case_decide as Hn.
  - injection H as <-. cbn. split_and!; try done; [lia|]. 
    apply Record_Validate_spec in Hstep as (? & ? & ? & ? & ? & Ha & Hh). apply Record_Validate_spec.
    unfold allocation_wf, handoff_wf in *. cbn in *. split_and!; try done; [lia|].
    destruct (rc_Allocation r); [|done]. destruct Ha. split; [done|lia].
  - subst next. destruct e as [e|]; [|done]. crack H. destruct x, x0. cbn. split_and!; try done; lia.
Qed.

Lemma Transition_evolves r next t e r' : Transition r next t e = Ok r' → record_evolves r r'.
Proof.
  intros (_ & [[-> _]|(Ht & Htr & _ & _ & _ & -> & _)])%Transition_Ok; [apply record_evolves_refl|].
  split_and!; cbn; try done; [congruence| |eauto]. intros ->. by destruct (rc_Status r).
Qed.

(** A transition that is not to [running] keeps what the loader checks. *)
Lemma Transition_persistable r next t e r' :
  persistable r → next ≠ StatusRunning → Transition r next t e = Ok r' → persistable r'.
Proof.
  intros [Hv Hp] Hnr (_ & [[-> _]|(Ht & Htr & _ & _ & Hv' & Heq & _)])%Transition_Ok; [done|]. split; [done|].
  apply validatePersistedRecord_spec in Hp. apply validatePersistedRecord_spec. rewrite Heq. cbn.
  destruct (rc_Status r), next; try done. destruct Hp as (a & Ha & Hst). intros a' Ha'. congruence.
Qed.

Lemma sameReceipt_eq l r : sameAllocationReceipt l r → l = r.
Proof. unfold sameAllocationReceipt. destruct l, r. cbn. naive_solver. Qed.

Lemma Attach_Ok r receipt r' :
  AttachAllocation r receipt = Ok r' →
  persistable r → persistable r' ∧ record_evolves r r' ∧ al_OperationID receipt = or_OperationID (rc_Request r) ∧
  (r' = r ∨ rc_Allocation r = None ∧ av_Receipt <$> rc_Allocation r' = Some receipt ∧ rc_Status r' = StatusRunning).
Proof.
  unfold AttachAllocation, refuse. intros H Hp. inv_ok H. destruct x. split_guards.
  match goal with K : matchesRequest _ _ |- _ => destruct K as (_ & _ & Hop & _) end.
  destruct (rc_Allocation r) as [a|] eqn:Ea.
  - case_decide; [|done]. injection H as <-. split_and!; [done|apply record_evolves_refl|done|by left].
  - crack H. destruct x0. split_and!; [|..|done|].
    + split; [done|]. apply Transition_Ok in Hstep0 as (_ & [[_ ?]|(_ & _ & _ & _ & _ & -> & _)]); [congruence|].
      apply validatePersistedRecord_spec. cbn. eauto.
    + apply Transition_evolves in Hstep0 as (? & ? & Hterm & ? & ?). split_and!; cbn; try done.
      * intros Ht. match goal with K : rc_Status r = StatusAccepted |- _ => by rewrite K in Ht end.
      * intros a. by rewrite Ea.
    + right. cbn. apply Transition_Ok in Hstep0 as (_ & [[_ ?]|(_ & _ & _ & _ & _ & -> & _)]); [congruence|done].
Qed.

Lemma Observe_Ok r obs r' :
  ObserveAllocation r obs = Ok r' →
  persistable r → persistable r' ∧ record_evolves r r' ∧ reference_of r' = reference_of r ∧ rc_Status r = StatusRunning.
Proof.
  unfold ObserveAllocation, refuse. intros H Hp. inv_ok H. destruct x. destruct (rc_Allocation r) as [a|] eqn:Ea; [|done].
  inv_ok H. split_guards.
  match goal with K : sameAllocationReceipt _ _ |- _ => apply sameReceipt_eq in K end.
  match goal with K : rc_Status r = StatusRunning |- _ => rename K into Hrun end.
  destruct x0. split_and!; [|..|done].
  - split; [done|]. apply validatePersistedRecord_spec. cbn.
    destruct (av_State obs) eqn:Eo; cbn in Hstep0; simplify_eq; try done; eauto.
  - split_and!; cbn; try done; [by rewrite Hrun| |].
    + destruct (av_State obs); cbn in Hstep0; by simplify_eq.
    + intros a0. rewrite Ea. intros [= <-]. eauto.
  - unfold reference_of. cbn. rewrite Ea. cbn. congruence.
Qed.

(** ** The state *)

(** An idempotency index over operations with the given bindings. *)
Definition index_wf (binding : string → option (string * string * string)) (idem : gmap string IdempotencyRecord) : Prop :=
  ∀ scope i, idem !! scope = Some i →
    id_Scope i = scope ∧ ¬ idempotency_blank i ∧ binding (id_OperationID i) = Some (id_RequestDigest i, id_Key i, id_Scope i).

(** A close operation against its open operation. *)
Definition closes_source (sessions : gmap string Record_) (r : CloseRecord) : Prop :=
  ∃ source, sessions !! cl_SourceOpenOperationID r = Some source ∧ rc_Status source = StatusSucceeded ∧
    av_Receipt <$> rc_Allocation source = Some (cl_Receipt r) ∧
    or_SandboxID (rc_Request source) = cr_SandboxID (cl_Request r) ∧
    or_RuntimeSessionID (rc_Request source) = cr_RuntimeSessionID (cl_Request r).

Record session_wf (s : State) : Prop := mkSessionWf {
  sw_authority k a : Authorities s !! k = Some a → sa_SandboxID a = k ∧ SandboxAuthority_Validate a = Ok ();
  sw_record k r : Sessions s !! k = Some r →
    or_OperationID (rc_Request r) = k ∧ persistable r ∧
    has_authority (Authorities s) (or_SandboxID (rc_Request r)) (or_ProviderRevisionID (rc_Request r)) = true;
  sw_reference k1 k2 r1 r2 : Sessions s !! k1 = Some r1 → Sessions s !! k2 = Some r2 →
    is_Some (reference_of r1) → reference_of r1 = reference_of r2 → k1 = k2;
  sw_index : index_wf (open_binding (Sessions s)) (Idempotency s);
  sw_indexed k r : Sessions s !! k = Some r → id_OperationID <$> Idempotency s !! idempotencyScope (rc_Request r) = Some k;
  sw_close k r : Closes s !! k = Some r →
    cr_OperationID (cl_Request r) = k ∧ CloseRecord_Validate r = Ok () ∧ Sessions s !! k = None ∧ closes_source (Sessions s) r ∧
    has_authority (Authorities s) (cr_SandboxID (cl_Request r)) (cr_ProviderRevisionID (cl_Request r)) = true;
  sw_close_index : index_wf (close_binding (Closes s)) (CloseIdempotency s);
  sw_close_indexed k r : Closes s !! k = Some r → id_OperationID <$> CloseIdempotency s !! closeIdempotencyScope (cl_Request r) = Some k;
  sw_disjoint scope : is_Some (CloseIdempotency s !! scope) → Idempotency s !! scope = None;
}.

Lemma session_wf_init : session_wf NewState.
Proof.
  split; unfold index_wf; cbn; intros *; rewrite ?lookup_empty; try done.
Qed.

(** *** Authorities *)

(** The authority of a sandbox keeps its revision. *)
Lemma put_authority_wf a s :
  session_wf s → SandboxAuthority_Validate a = Ok () →
  (∀ current, Authorities s !! sa_SandboxID a = Some current → sa_ProviderRevisionID a = sa_ProviderRevisionID current) →
  session_wf (put_authority a s).
Proof.
  intros Hs Ha Hrev.
  assert (Hkeep : ∀ sandbox revision, has_authority (Authorities s) sandbox revision = true →
            has_authority (<[sa_SandboxID a := a]> (Authorities s)) sandbox revision = true).
  { intros sandbox revision. unfold has_authority. destruct (decide (sa_SandboxID a = sandbox)) as [<-|Hne].
    - rewrite lookup_insert_eq. destruct (Authorities s !! sa_SandboxID a) as [c|] eqn:E; [|done].
      rewrite (Hrev c eq_refl). done.
    - by rewrite lookup_insert_ne. }
  destruct Hs as [H1 H2 H3 H4 H5 H6 H7 H8 H9]. split; cbn; try done.
  - intros k b Hb. ins_inv Hb; [done|by apply H1].
  - intros k r Hr. destruct (H2 k r Hr) as (? & ? & ?). auto.
  - intros k r Hr. destruct (H6 k r Hr) as (? & ? & ? & ? & ?). split_and!; auto.
Qed.

Lemma PutSandboxAuthority_wf a s u s' : session_wf s → PutSandboxAuthority a s = Ok (u, s') → session_wf s'.
Proof.
  intros Hs H. unfold PutSandboxAuthority, refuse in H. inv_ok H. destruct x. destruct (Authorities s !! _) eqn:E.
  - case_decide; [|done]. by simplify_eq.
  - simplify_eq. apply put_authority_wf; [done|done|congruence].
Qed.

Lemma ReplaceSandboxAuthority_wf a g f s u s' : session_wf s → ReplaceSandboxAuthority a g f s = Ok (u, s') → session_wf s'.
Proof.
  intros Hs H. unfold ReplaceSandboxAuthority, refuse in H. inv_ok H. destruct x. destruct (Authorities s !! _) eqn:E; [|done].
  crack H. simplify_eq. apply put_authority_wf; [done|done|congruence].
Qed.

Lemma SynchronizeSandboxAuthority_wf a s u s' : session_wf s → SynchronizeSandboxAuthority a s = Ok (u, s') → session_wf s'.
Proof.
  intros Hs H. unfold SynchronizeSandboxAuthority, refuse in H. inv_ok H. destruct x. destruct (Authorities s !! _) eqn:E.
  - crack H. simplify_eq. apply put_authority_wf; [done|done|congruence].
  - simplify_eq. apply put_authority_wf; [done|done|congruence].
Qed.

(** *** Updates of a session *)

Lemma reference_taken_spec m o ref :
  reference_taken m o ref ↔ ∃ k r, m !! k = Some r ∧ k ≠ o ∧ reference_of r = Some ref.
Proof.
  unfold reference_taken. rewrite Exists_exists. split.
  - intros ([k r] & Hin%elem_of_map_to_list & ? & ?). eauto.
  - intros (k & r & Hk & ? & ?). exists (k, r). by rewrite elem_of_map_to_list.
Qed.

Lemma set_session_wf k r r' s :
  session_wf s → Sessions s !! k = Some r → persistable r' → record_evolves r r' →
  (reference_of r' = reference_of r ∨ ∃ ref, reference_of r' = Some ref ∧ ¬ reference_taken (Sessions s) k ref) →
  session_wf (set_sessions (<[k := r']> (Sessions s)) s).
Proof.
  intros [H1 H2 H3 H4 H5 H6 H7 H8 H9] Hk Hp (Hreq & _ & Hterm & _) Href.
  assert (Hunique : ∀ k2 r2, k2 ≠ k → Sessions s !! k2 = Some r2 → is_Some (reference_of r') → reference_of r' ≠ reference_of r2).
  { intros k2 r2 Hne Hk2 [ref Hr] Heq. destruct Href as [Hsame|(ref' & Hr' & Hnot)].
    - apply Hne. eapply H3; [done|exact Hk|rewrite <- Heq, Hr; eauto|congruence].
    - apply Hnot, reference_taken_spec. exists k2, r2. split_and!; [done|done|congruence]. }
  split; cbn; try done.
  - intros k2 r2 Hr2. ins_inv Hr2; [|by apply H2]. destruct (H2 _ _ Hk) as (? & _ & ?). rewrite Hreq. done.
  - intros k1 k2 r1 r2 Hr1 Hr2 Hs Heq. ins_inv Hr1; ins_inv Hr2; [done| | |by eapply H3].
    + exfalso. by eapply Hunique.
    + exfalso. eapply (Hunique k1 r1); [done|done|by rewrite <- Heq|done].
  - intros scope i Hi. destruct (H4 scope i Hi) as (? & ? & Hb). split_and!; [done|done|]. rewrite <- Hb.
    unfold open_binding. destruct (decide (k = id_OperationID i)) as [<-|Hne]; [|by rewrite lookup_insert_ne].
    rewrite lookup_insert_eq, Hk. cbn. by rewrite Hreq.
  - intros k2 r2 Hr2. ins_inv Hr2; [|by apply H5]. rewrite Hreq. by apply H5.
  - intros k2 c Hc. destruct (H6 k2 c Hc) as (? & ? & Hnone & (src & Hsrc & Hst & Hx) & ?). split_and!; try done.
    + rewrite lookup_insert_ne; [done|congruence].
    + exists src. split; [|done]. destruct (decide (k = cl_SourceOpenOperationID c)) as [Heq|Hne]; [|by rewrite lookup_insert_ne].
      rewrite <- Heq in *. rewrite Hk in Hsrc. injection Hsrc as <-. rewrite lookup_insert_eq, Hterm by (by rewrite Hst). done.
Qed.

Lemma AttachAllocation_wf receipt s v s' : session_wf s → AttachAllocation_ receipt s = Ok (v, s') → session_wf s'.
Proof.
  intros Hs H. unfold AttachAllocation_, refuse in H. inv_ok H. destruct (Sessions s !! _) as [r|] eqn:Er; [|done].
  inv_ok H. destruct (sw_record s Hs _ _ Er) as (_ & Hp & _).
  destruct (Attach_Ok _ _ _ Hstep1 Hp) as (? & ? & _ & [->|(_ & Hr & _)]).
  - eapply set_session_wf; eauto.
  - eapply set_session_wf; [done|done|done|done|]. right. exists (al_Reference receipt).
    split; [|done]. revert Hr. unfold reference_of.
    match goal with |- context [fmap _ (rc_Allocation ?u)] => destruct (rc_Allocation u) end; cbn; congruence.
Qed.

Lemma ObserveAllocation_wf k obs s r s' : session_wf s → ObserveAllocation_ k obs s = Ok (r, s') → session_wf s'.
Proof.
  intros Hs H. unfold ObserveAllocation_, refuse in H. destruct (Sessions s !! k) as [r0|] eqn:Er; [|done]. inv_ok H.
  destruct (sw_record s Hs _ _ Er) as (_ & Hp & _). destruct (Observe_Ok _ _ _ Hstep Hp) as (? & ? & ? & _).
  eapply set_session_wf; eauto.
Qed.

(** What an update read and did. *)
Lemma UpdateOpenAt_Ok record expected now s u s' :
  UpdateOpenAt record expected now s = Ok (u, s') →
  ∃ current, Sessions s !! or_OperationID (rc_Request record) = Some current ∧ rc_Status current = expected ∧
    rc_Allocation current = rc_Allocation record ∧ ¬ (rc_Status current = StatusAccepted ∧ rc_Status record = StatusRunning) ∧
    Transition current (rc_Status record) (rc_ObservedAt record) (evidence_of <$> rc_Handoff record) = Ok record ∧
    (rc_Status record = StatusSucceeded → is_Some (rc_Allocation current)) ∧
    (rc_Status record = StatusSucceeded → rc_Status current ≠ StatusSucceeded →
       ∃ a, Authorities s !! or_SandboxID (rc_Request record) = Some a ∧ checkAuthority a (rc_Request record) now = Ok ()) ∧
    s' = set_sessions (<[or_OperationID (rc_Request record) := record]> (Sessions s)) s.
Proof.
  unfold UpdateOpenAt, refuse. intros H. inv_ok H. destruct (Sessions s !! _) as [current|] eqn:Ec; [|done]. crack H.
  subst. exists current. split_and!; try done.
  - intros Hsucc. destruct (rc_Allocation current); [eauto|]. tauto.
  - intros Hsucc Hne. rewrite decide_True in Hstep1 by done. unfold GetSandboxAuthority, refuse in Hstep1.
    destruct (Authorities s !! _) as [a|] eqn:Ea; [|done]. inv_ok Hstep1. destruct x1. eauto.
Qed.

Lemma UpdateOpenAt_wf record expected now s u s' : session_wf s → UpdateOpenAt record expected now s = Ok (u, s') → session_wf s'.
Proof.
  intros Hs (current & Hc & _ & Hal & Hnr & Ht & _ & _ & ->)%UpdateOpenAt_Ok.
  destruct (sw_record s Hs _ _ Hc) as (_ & Hp & _). apply (set_session_wf _ current); try done.
  - destruct (decide (rc_Status record = StatusRunning)) as [Hr|Hr].
    + apply Transition_Ok in Ht as (_ & [[-> _]|(Hterm & Htr & _)]); [done|].
      rewrite Hr in Htr. destruct (rc_Status current); try done. tauto.
    + by eapply Transition_persistable.
  - by eapply Transition_evolves.
  - left. unfold reference_of. by rewrite Hal.
Qed.

(** *** Opening *)

Lemma checkAuthority_Ok a request now :
  checkAuthority a request now = Ok () →
  sa_ProviderRevisionID a = or_ProviderRevisionID request ∧ sa_Ready a = true ∧ sa_Generation a = or_ExpectedGeneration request ∧
  sa_FencingToken a = or_FencingToken request ∧ sa_CapabilityProfileID a = or_CapabilityProfileID request ∧
  now < sa_LeaseExpiresAt a ∧ or_ExpiresAt request ≤ sa_LeaseExpiresAt a.
Proof.
  unfold checkAuthority, corrupt, refuse, After. intros H. crack H. split_and!; try done; lia.
Qed.

Lemma session_scope_nonempty a b c : scope_of a b c ≠ "".
Proof. unfold scope_of. by destruct a. Qed.

Lemma session_digest_nonempty s : digestPattern s = true → s ≠ "".
Proof. by intros ? ->. Qed.

Lemma new_index_wf (binding binding' : string → option (string * string * string)) idem i :
  index_wf binding idem → ¬ idempotency_blank i → binding (id_OperationID i) = None →
  binding' (id_OperationID i) = Some (id_RequestDigest i, id_Key i, id_Scope i) →
  (∀ o, o ≠ id_OperationID i → binding' o = binding o) →
  index_wf binding' (<[id_Scope i := i]> idem).
Proof.
  intros Hw Hb Hnone Hi Hother scope j Hj. ins_inv Hj; [done|]. destruct (Hw scope j Hj) as (? & ? & Hj').
  split_and!; [done|done|]. rewrite Hother; [done|]. intros Heq. rewrite Heq in Hj'. congruence.
Qed.

(** The identifiers of a valid request are not blank. *)
Lemma OpenRequest_Validate_Ok r now :
  OpenRequest_Validate r now = Ok () →
  now ≠ 0 ∧ identifierPattern (or_OperationID r) = true ∧ validBoundedString (or_IdempotencyKey r) 1 MaxIdempotencyKeyRunes = true ∧
  digestPattern (or_RequestDigest r) = true.
Proof.
  unfold OpenRequest_Validate, validateStructure, refuse, IsZero. intros H. crack H.
  match goal with K : identifiers _ |- _ => rewrite !identifiers_cons in K end. naive_solver.
Qed.

Lemma NewRecord_Ok request t r :
  NewRecord request t = Ok r → r = mkRecord request StatusAccepted t t None None ∧ persistable r.
Proof.
  unfold NewRecord. intros H. inv_ok H. destruct x. split; [done|]. split; [|done].
  destruct (OpenRequest_Validate_Ok _ _ Hstep) as (? & _). apply Record_Validate_spec. cbn. split_and!; try done; lia.
Qed.

(** What a new reservation found. *)
Lemma ReserveOpenAt_Ok request t s v s' :
  ReserveOpenAt request t s = Ok (v, s') →
  OpenRequest_Validate request t = Ok () ∧ CloseIdempotency s !! idempotencyScope request = None ∧
  (∃ a, Authorities s !! or_SandboxID request = Some a ∧ checkAuthority a request t = Ok ()) ∧
  ((∃ i, Idempotency s !! idempotencyScope request = Some i ∧ Sessions s !! id_OperationID i = Some (rv_Record v) ∧
         sameOpenRequest (rc_Request (rv_Record v)) request ∧ rv_Replayed v = true ∧ s' = s) ∨
   Idempotency s !! idempotencyScope request = None ∧ Sessions s !! or_OperationID request = None ∧
   Closes s !! or_OperationID request = None ∧ NewRecord request t = Ok (rv_Record v) ∧ rv_Replayed v = false ∧
   s' = mkState (<[or_OperationID request := rv_Record v]> (Sessions s)) (Closes s)
          (<[idempotencyScope request := mkIdempotency (idempotencyScope request) (or_IdempotencyKey request) (or_RequestDigest request)
               (or_OperationID request)]> (Idempotency s)) (CloseIdempotency s) (Authorities s)).
Proof.
  unfold ReserveOpenAt, refuse, corrupt, GetSandboxAuthority, refuse. intros H. crack H. destruct x, x1. destruct (Authorities s !! _) as [a|]; [|done]. simplify_eq.
  split_and!; [done|done|eauto|]. destruct (Idempotency s !! _) as [i|].
  - left. inv_ok H. destruct (Sessions s !! id_OperationID i) as [r|] eqn:Er; [|done]. crack H. eauto 10.
  - right. crack H. done.
Qed.

Lemma ReserveOpenAt_wf request t s v s' : session_wf s → ReserveOpenAt request t s = Ok (v, s') → session_wf s'.
Proof.
  intros Hs (Hv & Hclose & (a & Ha & Hauth) & [(? & _ & _ & _ & _ & ->)|(Hfree & Hnew & Hcnew & Hrec & _ & ->)])%ReserveOpenAt_Ok; [done|].
  destruct (NewRecord_Ok _ _ _ Hrec) as [-> Hp]. destruct (checkAuthority_Ok _ _ _ Hauth) as (Hrev & _).
  destruct (OpenRequest_Validate_Ok _ _ Hv) as (_ & Hid & Hkey & Hdig).
  destruct Hs as [H1 H2 H3 H4 H5 H6 H7 H8 H9]. split; cbn; try done.
  - intros k r Hr. ins_inv Hr; [|by apply H2]. split_and!; [done|done|]. unfold has_authority. cbn. rewrite Ha.
    by apply bool_decide_eq_true.
  - intros k1 k2 r1 r2 Hr1 Hr2 Hsome Heq. ins_inv Hr1; [by destruct Hsome|].
    ins_inv Hr2; [rewrite Heq in Hsome; by destruct Hsome|]. by eapply H3.
  - apply (new_index_wf (open_binding (Sessions s)) _ _ (mkIdempotency _ _ _ _)); cbn; [done| | | |].
    + unfold idempotency_blank. cbn.
      intros [?%session_scope_nonempty|[?|[?|?]]]; [done|by eapply bounded_nonempty|by eapply session_digest_nonempty|by eapply match_head_tail_nonempty].
    + unfold open_binding. by rewrite Hnew.
    + unfold open_binding. by rewrite lookup_insert_eq.
    + intros o Ho. unfold open_binding. by rewrite lookup_insert_ne.
  - intros k r Hr. ins_inv Hr; [by rewrite lookup_insert_eq|]. rewrite lookup_insert_ne; [by apply H5|].
    intros Heq. apply H5 in Hr. rewrite <- Heq, Hfree in Hr. done.
  - intros k c Hc. destruct (H6 k c Hc) as (? & ? & ? & (src & Hsrc & ?) & ?). split_and!; try done.
    + rewrite lookup_insert_ne by congruence. done.
    + exists src. rewrite lookup_insert_ne by congruence. done.
  - intros scope Hsc. rewrite lookup_insert_ne; [by apply H9|]. intros <-. rewrite Hclose in Hsc. by destruct Hsc.
Qed.

(** *** Closing *)

Lemma CloseRequest_Validate_Ok r now :
  CloseRequest_Validate r now = Ok () →
  now ≠ 0 ∧ identifierPattern (cr_OperationID r) = true ∧ validBoundedString (cr_IdempotencyKey r) 1 MaxIdempotencyKeyRunes = true ∧
  digestPattern (cr_RequestDigest r) = true.
Proof.
  unfold CloseRequest_Validate, refuse, IsZero. intros H. crack H.
  match goal with K : identifiers _ |- _ => rewrite !identifiers_cons in K end. naive_solver.
Qed.

Lemma NewCloseRecord_Ok request source t c :
  NewCloseRecord request source t = Ok c →
  cl_Request c = request ∧ CloseRecord_Validate c = Ok () ∧ cl_SourceOpenOperationID c = or_OperationID (rc_Request source) ∧
  rc_Status source = StatusSucceeded ∧ av_Receipt <$> rc_Allocation source = Some (cl_Receipt c) ∧
  or_SandboxID (rc_Request source) = cr_SandboxID request ∧ or_ProviderRevisionID (rc_Request source) = cr_ProviderRevisionID request ∧
  or_RuntimeSessionID (rc_Request source) = cr_RuntimeSessionID request ∧
  ho_ConnectionGeneration <$> rc_Handoff source = Some (cr_ConnectionGeneration request).
Proof.
  unfold NewCloseRecord, refuse. intros H. crack H.
  destruct (rc_Allocation source) as [a|]; [|done]. destruct (rc_Handoff source) as [h|]; [|done]. crack H.
  destruct x0. cbn. split_and!; try done. congruence.
Qed.

Lemma sources_spec request s source :
  source ∈ sources request s ↔
  (∃ k, Sessions s !! k = Some source) ∧ or_SandboxID (rc_Request source) = cr_SandboxID request ∧
  or_RuntimeSessionID (rc_Request source) = cr_RuntimeSessionID request.
Proof.
  unfold sources. rewrite list_elem_of_filter, list_elem_of_fmap. split.
  - intros [? ([k r] & -> & Hin%elem_of_map_to_list)]. eauto.
  - intros [[k Hk] ?]. split; [done|]. exists (k, source). by rewrite elem_of_map_to_list.
Qed.

Lemma ReserveCloseAt_Ok request t s v s' :
  ReserveCloseAt request t s = Ok (v, s') →
  CloseRequest_Validate request t = Ok () ∧ Idempotency s !! closeIdempotencyScope request = None ∧
  (∃ a, Authorities s !! cr_SandboxID request = Some a ∧ checkCloseAuthority a request = Ok ()) ∧
  ((∃ i, CloseIdempotency s !! closeIdempotencyScope request = Some i ∧ Closes s !! id_OperationID i = Some (cv_Record v) ∧
         sameCloseRequest (cl_Request (cv_Record v)) request ∧ cv_Replayed v = true ∧ s' = s) ∨
   CloseIdempotency s !! closeIdempotencyScope request = None ∧ Sessions s !! cr_OperationID request = None ∧
   Closes s !! cr_OperationID request = None ∧ cv_Replayed v = false ∧
   (∃ source, sources request s = [source] ∧ NewCloseRecord request source t = Ok (cv_Record v)) ∧
   s' = mkState (Sessions s) (<[cr_OperationID request := cv_Record v]> (Closes s)) (Idempotency s)
          (<[closeIdempotencyScope request := mkIdempotency (closeIdempotencyScope request) (cr_IdempotencyKey request)
               (cr_RequestDigest request) (cr_OperationID request)]> (CloseIdempotency s)) (Authorities s)).
Proof.
  unfold ReserveCloseAt, refuse, corrupt, GetSandboxAuthority, refuse. intros H. crack H. destruct x, x1.
  destruct (Authorities s !! _) as [a|]; [|done]. simplify_eq.
  split_and!; [done|done|eauto|]. destruct (CloseIdempotency s !! _) as [i|].
  - left. crack H. destruct (Closes s !! id_OperationID i) as [r|] eqn:Er; [|done]. crack H. eauto 10.
  - right. crack H. destruct (sources request s) as [|source [|]]; [done| |done]. inv_ok H. split_and!; eauto.
Qed.

Lemma checkCloseAuthority_Ok a request :
  checkCloseAuthority a request = Ok () →
  sa_ProviderRevisionID a = cr_ProviderRevisionID request ∧ sa_Generation a = cr_ExpectedGeneration request ∧
  sa_FencingToken a = cr_FencingToken request.
Proof. unfold checkCloseAuthority, corrupt, refuse. intros H. by crack H. Qed.

(** The close operations after one of them was written. *)
Lemma close_source_of s request source c t :
  session_wf s → sources request s = [source] → NewCloseRecord request source t = Ok c → closes_source (Sessions s) c.
Proof.
  intros Hs Hsrc Hn. destruct (NewCloseRecord_Ok _ _ _ _ Hn) as (Hr & _ & Hid & Hst & Hal & Hsb & _ & Hrs & _).
  assert (Hin : source ∈ sources request s) by (rewrite Hsrc; set_solver).
  apply sources_spec in Hin as ([k Hk] & _ & _). destruct (sw_record s Hs _ _ Hk) as (Hkey & _ & _).
  exists source. rewrite Hid, Hkey, Hr. done.
Qed.

Lemma ReserveCloseAt_wf request t s v s' : session_wf s → ReserveCloseAt request t s = Ok (v, s') → session_wf s'.
Proof.
  intros Hs (Hv & Hopen & (a & Ha & Hauth) & [(? & _ & _ & _ & _ & ->)|(Hfree & Hnew & Hcnew & _ & (source & Hsrc & Hrec) & ->)])%ReserveCloseAt_Ok; [done|].
  pose proof (close_source_of _ _ _ _ _ Hs Hsrc Hrec) as Hcs. revert Hcs Hrec. generalize (cv_Record v) as c. intros c Hcs Hrec.
  destruct (NewCloseRecord_Ok _ _ _ _ Hrec) as (Hr & Hval & _). destruct (checkCloseAuthority_Ok _ _ Hauth) as (Hrev & _).
  destruct (CloseRequest_Validate_Ok _ _ Hv) as (_ & Hid & Hkey & Hdig).
  destruct Hs as [H1 H2 H3 H4 H5 H6 H7 H8 H9]. split; cbn; try done.
  - intros k r Hk. ins_inv Hk; [|by apply H6]. split_and!; try done. unfold has_authority. rewrite Ha. by apply bool_decide_eq_true.
  - apply (new_index_wf (close_binding (Closes s)) _ _ (mkIdempotency _ _ _ _)); cbn; [done| | | |].
    + unfold idempotency_blank. cbn.
      intros [?%session_scope_nonempty|[?|[?|?]]]; [done|by eapply bounded_nonempty|by eapply session_digest_nonempty|by eapply match_head_tail_nonempty].
    + unfold close_binding. by rewrite Hcnew.
    + unfold close_binding. rewrite lookup_insert_eq. cbn. by rewrite Hr.
    + intros o Ho. unfold close_binding. by rewrite lookup_insert_ne.
  - intros k r Hk. ins_inv Hk; [by rewrite lookup_insert_eq|]. rewrite lookup_insert_ne; [by apply H8|].
    intros Heq. apply H8 in Hk. rewrite <- Heq, Hfree in Hk. done.
  - intros scope Hsc. destruct (decide (scope = closeIdempotencyScope request)) as [->|Hne]; [done|].
    rewrite lookup_insert_ne in Hsc by done. by apply H9.
Qed.

(** How a close operation may change. *)
Definition close_evolves (c c' : CloseRecord) : Prop :=
  cl_Request c' = cl_Request c ∧ cl_SourceOpenOperationID c' = cl_SourceOpenOperationID c ∧ cl_Receipt c' = cl_Receipt c ∧
  cl_AcceptedAt c' = cl_AcceptedAt c ∧ (Status_terminal (cl_Status c) = true → c' = c).

Lemma close_evolves_refl c : close_evolves c c.
Proof. by split_and!. Qed.

Lemma close_evolves_trans c1 c2 c3 : close_evolves c1 c2 → close_evolves c2 c3 → close_evolves c1 c3.
Proof.
  intros (? & ? & ? & ? & T1) (? & ? & ? & ? & T2). split_and!; try congruence. intros Ht. rewrite (T1 Ht) in *. auto.
Qed.

Lemma UpdateCloseAt_Ok c expected s u s' :
  UpdateCloseAt c expected s = Ok (u, s') →
  ∃ current, Closes s !! cr_OperationID (cl_Request c) = Some current ∧ cl_Status current = expected ∧ close_evolves current c ∧
    CloseRecord_Validate c = Ok () ∧
    s' = mkState (Sessions s) (<[cr_OperationID (cl_Request c) := c]> (Closes s)) (Idempotency s) (CloseIdempotency s) (Authorities s).
Proof.
  unfold UpdateCloseAt, TransitionClose, refuse. intros H. destruct (Closes s !! _) as [current|] eqn:Ec; [|done]. crack H.
  exists current. split_and!; try done.
  - match goal with K : _ = Ok x |- _ => revert K end. case_decide as Hst; [intros K; simplify_eq; apply close_evolves_refl|].
    intros K. crack K. destruct c; cbn in *; simplify_eq. split_and!; cbn; congruence.
  - match goal with K : _ = Ok x |- _ => revert K end. case_decide as Hst; [intros K; simplify_eq; by destruct x0|].
    intros K. crack K. destruct c; cbn in *; simplify_eq. by match goal with u : unit |- _ => destruct u end.
Qed.

Lemma UpdateCloseAt_wf c expected s u s' : session_wf s → UpdateCloseAt c expected s = Ok (u, s') → session_wf s'.
Proof.
  intros Hs (current & Hc & _ & (Hreq & Hsrc & Hrcp & _) & Hval & ->)%UpdateCloseAt_Ok.
  destruct Hs as [H1 H2 H3 H4 H5 H6 H7 H8 H9]. split; cbn; try done.
  - intros k r Hk. ins_inv Hk; [|by apply H6]. destruct (H6 _ _ Hc) as (? & _ & ? & Hs & ?). rewrite Hreq in *.
    split_and!; try done. unfold closes_source in *. by rewrite Hsrc, Hrcp, Hreq.
  - intros scope i Hi. destruct (H7 scope i Hi) as (? & ? & Hb). split_and!; [done|done|]. rewrite <- Hb. unfold close_binding.
    destruct (decide (cr_OperationID (cl_Request c) = id_OperationID i)) as [Heq|Hne]; [|by rewrite lookup_insert_ne].
    rewrite <- Heq, lookup_insert_eq, Hc. cbn. by rewrite Hreq.
  - intros k r Hk. ins_inv Hk; [|by apply H8]. rewrite Hreq in *. by apply H8.
Qed.
