(* ===== verification/SessionGuarantees.v ===== *)
(** * Guarantees of the terminal session repository

    Runs of [provider/session/repository/state.go]: sequences of calls, each of
    which changes the state or is refused and leaves it.  The adapters
    ([repository/memory], [repository/file]) hold such a state behind a mutex. *)

From S2P Require Import Prelude SessionModel SessionState SessionInvariant.
From stdpp Require Import base gmap strings list fin_maps.
From Stdlib Require Import ZArith Lia.

Local Open Scope Z_scope.

(** ** Runs *)

Inductive session_op :=
  | OpPutAuthority (a : SandboxAuthority)
  | OpReplaceAuthority (a : SandboxAuthority) (expectedGeneration fencingToken : Z)
  | OpSynchronizeAuthority (a : SandboxAuthority)
  | OpReserveOpen (request : OpenRequest) (acceptedAt : Time)
  | OpAttachAllocation (receipt : AllocationReceipt)
  | OpObserveAllocation (operationID : string) (observation : AllocationEvidence)
  | OpUpdateOpen (record : Record_) (expectedStatus : Status) (now : Time)
  | OpReserveClose (request : CloseRequest) (acceptedAt : Time)
  | OpUpdateClose (record : CloseRecord) (expectedStatus : Status).

(** The next state, or the error. *)
Definition next_state (op : session_op) (s : State) : result State :=
  match op with
  | OpPutAuthority a => '(_, s') ← PutSandboxAuthority a s; Ok s'
  | OpReplaceAuthority a g f => '(_, s') ← ReplaceSandboxAuthority a g f s; Ok s'
  | OpSynchronizeAuthority a => '(_, s') ← SynchronizeSandboxAuthority a s; Ok s'
  | OpReserveOpen r t => '(_, s') ← ReserveOpenAt r t s; Ok s'
  | OpAttachAllocation r => '(_, s') ← AttachAllocation_ r s; Ok s'
  | OpObserveAllocation k o => '(_, s') ← ObserveAllocation_ k o s; Ok s'
  | OpUpdateOpen r e t => '(_, s') ← UpdateOpenAt r e t s; Ok s'
  | OpReserveClose r t => '(_, s') ← ReserveCloseAt r t s; Ok s'
  | OpUpdateClose r e => '(_, s') ← UpdateCloseAt r e s; Ok s'
  end.

Definition perform (s : State) (op : session_op) : State := match next_state op s with Ok s' => s' | Err _ => s end.
Definition perform_all (ops : list session_op) (s : State) : State := fold_left perform ops s.

Lemma perform_all_app ops1 ops2 s : perform_all (ops1 ++ ops2) s = perform_all ops2 (perform_all ops1 s).
Proof. apply fold_left_app. Qed.

Lemma next_state_wf op s s' : session_wf s → next_state op s = Ok s' → session_wf s'.
Proof.
  intros Hs H. destruct op; cbn in H; apply bind_Ok in H as ([v s1] & H & [= <-]).
  - by eapply PutSandboxAuthority_wf.
  - by eapply ReplaceSandboxAuthority_wf.
  - by eapply SynchronizeSandboxAuthority_wf.
  - by eapply ReserveOpenAt_wf.
  - by eapply AttachAllocation_wf.
  - by eapply ObserveAllocation_wf.
  - by eapply UpdateOpenAt_wf.
  - by eapply ReserveCloseAt_wf.
  - by eapply UpdateCloseAt_wf.
Qed.

Lemma perform_wf op s : session_wf s → session_wf (perform s op).
Proof. intros Hs. unfold perform. destruct (next_state op s) eqn:E; [by eapply next_state_wf|done]. Qed.

Lemma perform_all_wf ops s : session_wf s → session_wf (perform_all ops s).
Proof. revert s. induction ops as [|op ops IH]; intros s Hs; [done|]. by apply IH, perform_wf. Qed.

Lemma session_reachable_wf ops : session_wf (perform_all ops NewState).
Proof. apply perform_all_wf, session_wf_init. Qed.

(** ** Evolution *)

Definition sessions_evolve (m m' : gmap string Record_) : Prop :=
  ∀ k r, m !! k = Some r → ∃ r', m' !! k = Some r' ∧ record_evolves r r'.
Definition closes_evolve (m m' : gmap string CloseRecord) : Prop :=
  ∀ k c, m !! k = Some c → ∃ c', m' !! k = Some c' ∧ close_evolves c c'.
(** Idempotency records stay. *)
Definition state_evolves (s s' : State) : Prop :=
  sessions_evolve (Sessions s) (Sessions s') ∧ closes_evolve (Closes s) (Closes s') ∧
  Idempotency s ⊆ Idempotency s' ∧ CloseIdempotency s ⊆ CloseIdempotency s'.

Lemma state_evolves_refl s : state_evolves s s.
Proof. split_and!; [|..|done|done]; intros k r Hr; exists r; auto using record_evolves_refl, close_evolves_refl. Qed.

Lemma state_evolves_trans s1 s2 s3 : state_evolves s1 s2 → state_evolves s2 s3 → state_evolves s1 s3.
Proof.
  intros (A1 & B1 & C1 & D1) (A2 & B2 & C2 & D2). split_and!; [| |by etrans|by etrans].
  - intros k r Hr. destruct (A1 k r Hr) as (r' & Hr' & ?). destruct (A2 k r' Hr') as (r'' & ? & ?).
    exists r''. eauto using record_evolves_trans.
  - intros k r Hr. destruct (B1 k r Hr) as (r' & Hr' & ?). destruct (B2 k r' Hr') as (r'' & ? & ?).
    exists r''. eauto using close_evolves_trans.
Qed.

Lemma put_authority_evolves a s : state_evolves s (put_authority a s).
Proof. destruct (state_evolves_refl s) as (? & ? & ? & ?). by split_and!. Qed.

Lemma set_session_evolves k r r' s :
  Sessions s !! k = Some r → record_evolves r r' → state_evolves s (set_sessions (<[k := r']> (Sessions s)) s).
Proof.
  intros Hk Hr. destruct (state_evolves_refl s) as (_ & ? & ? & ?). split_and!; try done. intros k2 r2 Hr2. cbn.
  destruct (decide (k = k2)) as [<-|Hne].
  - rewrite lookup_insert_eq. simplify_eq. eauto.
  - rewrite lookup_insert_ne by done. exists r2. auto using record_evolves_refl.
Qed.

Lemma next_state_evolves op s s' : session_wf s → next_state op s = Ok s' → state_evolves s s'.
Proof.
  intros Hs H. destruct op; cbn in H; apply bind_Ok in H as ([v s1] & H & [= <-]).
  - unfold PutSandboxAuthority, refuse in H. inv_ok H. destruct (Authorities s !! _); [case_decide|]; simplify_eq;
      [apply state_evolves_refl|apply put_authority_evolves].
  - unfold ReplaceSandboxAuthority, refuse in H. inv_ok H. destruct (Authorities s !! _); [|done]. crack H. apply put_authority_evolves.
  - unfold SynchronizeSandboxAuthority, refuse in H. inv_ok H. destruct (Authorities s !! _); crack H; apply put_authority_evolves.
  - apply ReserveOpenAt_Ok in H as (_ & _ & _ & [(i & _ & _ & _ & _ & ->)|(Hi & Hk & _ & _ & _ & ->)]); [apply state_evolves_refl|].
    destruct (state_evolves_refl s) as (? & ? & ? & ?). split_and!; try done; cbn.
    + intros k r Hr. rewrite lookup_insert_ne by congruence. exists r. auto using record_evolves_refl.
    + by apply insert_subseteq.
  - unfold AttachAllocation_, refuse in H. inv_ok H. destruct (Sessions s !! _) as [r|] eqn:Er; [|done]. inv_ok H.
    destruct (sw_record s Hs _ _ Er) as (_ & Hp & _). eapply set_session_evolves; [done|]. by eapply Attach_Ok.
  - unfold ObserveAllocation_, refuse in H. destruct (Sessions s !! _) as [r|] eqn:Er; [|done]. inv_ok H.
    destruct (sw_record s Hs _ _ Er) as (_ & Hp & _). eapply set_session_evolves; [done|]. by eapply Observe_Ok.
  - apply UpdateOpenAt_Ok in H as (current & Hc & _ & _ & _ & Ht & _ & _ & ->).
    eapply set_session_evolves; [done|]. by eapply Transition_evolves.
  - apply ReserveCloseAt_Ok in H as (_ & _ & _ & [(i & _ & _ & _ & _ & ->)|(Hi & Hk & Hc & _ & _ & ->)]); [apply state_evolves_refl|].
    destruct (state_evolves_refl s) as (? & ? & ? & ?). split_and!; try done; cbn.
    + intros k r Hr. rewrite lookup_insert_ne by congruence. exists r. auto using close_evolves_refl.
    + by apply insert_subseteq.
  - apply UpdateCloseAt_Ok in H as (current & Hc & _ & He & _ & ->).
    destruct (state_evolves_refl s) as (? & ? & ? & ?). split_and!; try done; cbn. intros k r Hr.
    destruct (decide (cr_OperationID (cl_Request record) = k)) as [<-|Hne].
    + rewrite lookup_insert_eq. simplify_eq. eauto.
    + rewrite lookup_insert_ne by done. exists r. auto using close_evolves_refl.
Qed.

Lemma perform_all_evolves ops s : session_wf s → state_evolves s (perform_all ops s).
Proof.
  revert s. induction ops as [|op ops IH]; intros s Hs; [apply state_evolves_refl|]. cbn.
  eapply state_evolves_trans; [|by apply IH, perform_wf]. unfold perform.
  destruct (next_state op s) eqn:E; [by eapply next_state_evolves|apply state_evolves_refl].
Qed.

(** ** Success *)

Lemma sameOpenRequest_eq l r : sameOpenRequest l r → l = r.
Proof. unfold sameOpenRequest. destruct l, r. cbn. naive_solver. Qed.

Lemma Observe_status r obs r' : ObserveAllocation r obs = Ok r' → rc_Status r' ≠ StatusSucceeded.
Proof.
  unfold ObserveAllocation, refuse. intros H. inv_ok H. destruct (rc_Allocation r); [|done]. inv_ok H. cbn.
  destruct (av_State obs); by simplify_eq.
Qed.

(** The authority that a success is recorded under. *)
Definition authorised (a : SandboxAuthority) (r : Record_) (now : Time) : Prop :=
  sa_ProviderRevisionID a = or_ProviderRevisionID (rc_Request r) ∧ sa_Ready a = true ∧
  sa_Generation a = or_ExpectedGeneration (rc_Request r) ∧ sa_FencingToken a = or_FencingToken (rc_Request r) ∧
  sa_CapabilityProfileID a = or_CapabilityProfileID (rc_Request r) ∧
  now < sa_LeaseExpiresAt a ∧ or_ExpiresAt (rc_Request r) ≤ sa_LeaseExpiresAt a.

(** Call [op] on [s] recorded the success [r] of operation [k]. *)
Definition records_success (s : State) (op : session_op) (k : string) (r : Record_) : Prop :=
  ∃ now current a e, op = OpUpdateOpen r StatusRunning now ∧
    Sessions s !! k = Some current ∧ rc_Status current = StatusRunning ∧ rc_Allocation current = Some e ∧
    av_State e = AllocationRunning ∧ rc_Allocation r = Some e ∧ rc_ObservedAt r < or_Deadline (rc_Request r) ∧
    Authorities s !! or_SandboxID (rc_Request r) = Some a ∧ authorised a r now.

Lemma Transition_success r t e r' :
  Transition r StatusSucceeded t e = Ok r' → rc_Status r ≠ StatusSucceeded → rc_ObservedAt r' < or_Deadline (rc_Request r').
Proof.
  unfold Transition, refuse, Before. intros H Hne. inv_ok H. rewrite decide_False in H by done. inv_ok H.
  rewrite decide_False in H by naive_solver. destruct e as [e|]; [|done]. crack H. cbn. lia.
Qed.

Lemma UpdateOpenAt_success record expected now s u s' :
  session_wf s → UpdateOpenAt record expected now s = Ok (u, s') → rc_Status record = StatusSucceeded →
  Sessions s !! or_OperationID (rc_Request record) = Some record ∨
  records_success s (OpUpdateOpen record expected now) (or_OperationID (rc_Request record)) record.
Proof.
  intros Hs (current & Hc & He & Hal & _ & Ht & _ & Hauth & _)%UpdateOpenAt_Ok Hsucc. rewrite Hsucc in Ht.
  destruct (decide (rc_Status current = StatusSucceeded)) as [Hcs|Hcs].
  - left. apply Transition_Ok in Ht as (_ & [[-> _]|(Hx & _)]); [done|]. by rewrite Hcs in Hx.
  - right. destruct (Hauth Hsucc Hcs) as (a & Ha & Hok). pose proof (Transition_success _ _ _ _ Ht Hcs).
    apply Transition_Ok in Ht as (_ & [[_ ?]|(_ & Htr & _)]); [done|].
    destruct (sw_record s Hs _ _ Hc) as (_ & [_ Hp%validatePersistedRecord_spec] & _).
    destruct (rc_Status current) eqn:Ec; try done. destruct Hp as (e & Hce & Hst).
    exists now, current, a, e. split_and!; try done; [congruence|congruence|]. by apply checkAuthority_Ok.
Qed.

Lemma success_step op s s' k r :
  session_wf s → next_state op s = Ok s' → Sessions s' !! k = Some r → rc_Status r = StatusSucceeded →
  Sessions s !! k = Some r ∨ records_success s op k r.
Proof.
  intros Hs H Hk Hr. destruct op; cbn in H; apply bind_Ok in H as ([v s1] & H & [= <-]).
  - unfold PutSandboxAuthority, refuse in H. inv_ok H. destruct (Authorities s !! _); [case_decide|]; simplify_eq; by left.
  - unfold ReplaceSandboxAuthority, refuse in H. inv_ok H. destruct (Authorities s !! _); [|done]. crack H. by left.
  - unfold SynchronizeSandboxAuthority, refuse in H. inv_ok H. destruct (Authorities s !! _); crack H; by left.
  - apply ReserveOpenAt_Ok in H as (_ & _ & _ & [(i & _ & _ & _ & _ & ->)|(_ & _ & _ & Hn & _ & ->)]); [by left|].
    cbn in Hk. ins_inv Hk; [|by left]. apply NewRecord_Ok in Hn as [Hn _]. by rewrite Hn in Hr.
  - unfold AttachAllocation_, refuse in H. inv_ok H. destruct (Sessions s !! _) as [r0|] eqn:Er; [|done]. inv_ok H.
    cbn in Hk. ins_inv Hk; [|by left]. destruct (sw_record s Hs _ _ Er) as (_ & Hp & _).
    destruct (Attach_Ok _ _ _ Hstep1 Hp) as (_ & _ & _ & [->|(_ & _ & Hrun)]); [by left|congruence].
  - unfold ObserveAllocation_, refuse in H. destruct (Sessions s !! _) as [r0|] eqn:Er; [|done]. inv_ok H.
    cbn in Hk. ins_inv Hk; [|by left]. by apply Observe_status in Hstep.
  - pose proof (UpdateOpenAt_success _ _ _ _ _ _ Hs H) as Hu.
    apply UpdateOpenAt_Ok in H as (current & _ & _ & _ & _ & _ & _ & _ & ->). cbn in Hk. ins_inv Hk; [auto|by left].
  - apply ReserveCloseAt_Ok in H as (_ & _ & _ & [(i & _ & _ & _ & _ & ->)|(_ & _ & _ & _ & _ & ->)]); by left.
  - apply UpdateCloseAt_Ok in H as (current & _ & _ & _ & _ & ->). by left.
Qed.

(** ** Snapshots *)

Section import.
Context (s : State) (Hs : session_wf s).

Lemma load_authorities_wf :
  foldM (load_one [ErrCorrupt] sa_SandboxID id
           (λ a, if decide (is_ok (SandboxAuthority_Validate a) = false) then corrupt else Ok ())) ∅ (ps_Authorities (Export s))
  = Ok (Authorities s).
Proof using Hs.
  apply load_of_map.
  - apply Forall_forall. intros a [k Hk]%elem_of_listing. destruct (sw_authority s Hs _ _ Hk) as [_ ->]. done.
  - apply (export_listing sa_SandboxID). intros k a Hk. by destruct (sw_authority s Hs _ _ Hk).
Qed.

Lemma load_sessions_wf :
  foldM (load_session snapshotVersion (Authorities s)) ∅ (ps_Sessions (Export s)) = Ok (Sessions s).
Proof using Hs.
  apply (load_steps (or_OperationID ∘ rc_Request) id).
  - intros m0 r [k Hk]%elem_of_listing Hsub Hnone. destruct (sw_record s Hs _ _ Hk) as (Hkey & [Hv Hp] & Ha).
    unfold load_session, migrate. cbn [mbind result_bind]. rewrite decide_True by done. cbn [mbind result_bind].
    rewrite Hv, Hp, Ha. cbn in *. rewrite Hnone. pass.
    rewrite decide_False; [done|]. intros [Hsome Hex].
    apply Exists_exists in Hex as ([k2 r2] & Hin%elem_of_map_to_list & Heq). cbn in Heq.
    assert (k2 = k).
    { eapply (sw_reference s Hs); [by eapply lookup_weaken|exact Hk|by rewrite Heq|done]. }
    subst k2. rewrite Hkey in Hnone. congruence.
  - apply (export_listing (or_OperationID ∘ rc_Request)). intros k r Hk. by destruct (sw_record s Hs _ _ Hk).
Qed.

Lemma load_closes_wf :
  foldM (load_close snapshotVersion (Authorities s) (Sessions s)) ∅ (ps_Closes (Export s)) = Ok (Closes s).
Proof using Hs.
  apply (load_steps (cr_OperationID ∘ cl_Request) id).
  - intros m0 c [k Hk]%elem_of_listing _ Hnone.
    destruct (sw_close s Hs _ _ Hk) as (Hkey & Hv & Hfree & (src & Hsrc & _ & Hal & Hsb & Hrs) & Ha).
    unfold load_close, close_source_ok. rewrite Hv, Hsrc, Ha. cbn in *. rewrite Hnone, Hkey, Hfree.
    rewrite bool_decide_eq_true_2 by done. by pass.
  - apply (export_listing (cr_OperationID ∘ cl_Request)). intros k c Hk. by destruct (sw_close s Hs _ _ Hk).
Qed.

Lemma load_index_wf binding other idem :
  index_wf binding idem → (∀ scope, is_Some (idem !! scope) → other !! scope = None) →
  foldM (load_idempotency binding other) ∅ (sort_by id_Scope (map_to_list idem).*2) = Ok idem.
Proof.
  clear s Hs. intros Hw Hother. apply (load_steps id_Scope id).
  - intros m0 i [k Hk]%elem_of_listing _ Hnone. destruct (Hw _ _ Hk) as (Hkey & Hb & Hbind).
    unfold load_idempotency. rewrite Hbind, (Hother (id_Scope i)), Hnone by (rewrite Hkey; eauto). by pass.
  - apply (export_listing id_Scope). intros k i Hk. by destruct (Hw _ _ Hk).
Qed.

Lemma session_Import_Export : Import (Export s) = Ok s.
Proof using Hs.
  unfold Import. cbn [Export ps_Version]. rewrite decide_False by naive_solver.
  rewrite load_authorities_wf. cbn [mbind result_bind].
  rewrite load_sessions_wf. cbn [mbind result_bind].
  rewrite load_closes_wf. cbn [mbind result_bind Export ps_Idempotency ps_CloseIdempotency].
  rewrite (load_index_wf _ _ _ (sw_index s Hs)) by done. cbn [mbind result_bind].
  rewrite (load_index_wf _ _ _ (sw_close_index s Hs) (sw_disjoint s Hs)). cbn [mbind result_bind].
  rewrite decide_False; [|intros Hn; apply Hn; intros k r Hk; apply (sw_indexed s Hs) in Hk; by destruct (Idempotency s !! _)].
  rewrite decide_False; [by destruct s|intros Hn; apply Hn; intros k r Hk; apply (sw_close_indexed s Hs) in Hk; by destruct (CloseIdempotency s !! _)].
Qed.
End import.

(** ** A sample run: a terminal is opened, its allocation observed, and its success recorded *)

Module SessionSample.
Definition digest : string := "sha256:0123456789abcdef0123456789abcdef0123456789abcdef0123456789abcdef".
Definition authority : SandboxAuthority := mkSandboxAuthority "box" "rev" true 1 1000 7 "shell".
Definition request : OpenRequest := mkOpenRequest "box" "rev" "op" "try" 7 "key" digest 500 1 "rs" "terminal" "shell" 400.
Definition receipt : AllocationReceipt :=
  mkReceipt "ref:terminal/0123456789abcdef0123456789abcdef" "box" "rs" "op" "try" 7 1 1 20 400.
Definition evidence : AllocationEvidence := mkEvidence receipt AllocationRunning 30.
Definition succeeded : Record_ :=
  mkRecord request StatusSucceeded 10 40 (Some evidence) (Some (handoff_of request (mkEndpointEvidence "ref:session:a" 1))).
Definition opened : list session_op :=
  [OpPutAuthority authority; OpReserveOpen request 10; OpAttachAllocation receipt; OpObserveAllocation "op" evidence;
   OpUpdateOpen succeeded StatusRunning 40].
Definition closing : CloseRequest := mkCloseRequest "box" "rev" "close" "try2" 7 "key2" digest 600 1 "rs" 1 "done".
Definition ops : list session_op := opened ++ [OpReserveClose closing 50].

(** A first open operation of the same runtime session, which failed. *)
Definition first_request : OpenRequest := mkOpenRequest "box" "rev" "op0" "try0" 7 "key0" digest 500 1 "rs" "terminal" "shell" 400.
Definition retried : list session_op :=
  [OpPutAuthority authority; OpReserveOpen first_request 5; OpUpdateOpen (mkRecord first_request StatusFailed 5 8 None None) StatusAccepted 8]
  ++ opened.

Example closes_once : is_Some (Closes (perform_all ops NewState) !! "close").
Proof. vm_compute. eauto. Qed.
End SessionSample.

(** ** The guarantees *)

(** after any calls, every record of the session repository is valid and
    stored under its operation identifier, no two operations share an allocation,
    an operation has the authority of its sandbox and exactly one idempotency
    record, and a close operation names a succeeded open operation and carries
    its allocation receipt. *)
Theorem session_repository_invariant ops : session_wf (perform_all ops NewState).
Proof. apply session_reachable_wf. Qed.

(** the snapshot of any reachable state of the session repository loads, and
    gives that state back. *)
Theorem session_snapshot_roundtrip ops :
  Import (Export (perform_all ops NewState)) = Ok (perform_all ops NewState).
Proof. apply session_Import_Export, session_reachable_wf. Qed.

(** an open operation that is on record as succeeded was recorded by one
    update, made while the operation was running with an allocation observed as
    running, before its deadline, and under the authority of its sandbox: ready,
    of the same revision, generation, fencing token and capability profile, with
    a lease that covers the expiry of the session. *)
Theorem session_success_is_authorised ops k r :
  Sessions (perform_all ops NewState) !! k = Some r → rc_Status r = StatusSucceeded →
  ∃ ops1 op ops2, ops = ops1 ++ op :: ops2 ∧ records_success (perform_all ops1 NewState) op k r.
Proof.
  induction ops as [|op ops IH] using rev_ind; [done|]. rewrite perform_all_app. cbn. intros Hk Hr.
  assert (Hold : Sessions (perform_all ops NewState) !! k = Some r ∨ records_success (perform_all ops NewState) op k r).
  { unfold perform in Hk. destruct (next_state op _) eqn:E; [|by left]. by eapply success_step; [apply session_reachable_wf|..]. }
  destruct Hold as [Hold|Hnew].
  - destruct (IH Hold Hr) as (ops1 & op1 & ops2 & -> & Hrec). exists ops1, op1, (ops2 ++ [op]). by rewrite <- app_assoc.
  - by exists ops, op, [].
Qed.

Lemma session_success_is_authorised_witness :
  ∃ ops1 op ops2, SessionSample.ops = ops1 ++ op :: ops2 ∧
    records_success (perform_all ops1 NewState) op "op" SessionSample.succeeded.
Proof. apply session_success_is_authorised; vm_compute; reflexivity. Defined.

(** an idempotency key is bound to one request: when a reservation under the
    key of an earlier one succeeds, whatever happened between, the request is the
    same, the answer is a replay and the state is untouched. *)
Theorem session_keys_bind_requests ops1 ops2 request request' t t' v v' s1 s2 :
  ReserveOpenAt request t (perform_all ops1 NewState) = Ok (v, s1) →
  ReserveOpenAt request' t' (perform_all ops2 s1) = Ok (v', s2) →
  idempotencyScope request' = idempotencyScope request →
  request' = request ∧ rv_Replayed v' = true ∧ s2 = perform_all ops2 s1 ∧ record_evolves (rv_Record v) (rv_Record v').
Proof.
  intros H1 H2 Hscope. pose proof (ReserveOpenAt_wf _ _ _ _ _ (session_reachable_wf ops1) H1) as Hwf1.
  assert (∃ i, Idempotency s1 !! idempotencyScope request = Some i ∧ Sessions s1 !! id_OperationID i = Some (rv_Record v) ∧
               rc_Request (rv_Record v) = request) as (i & Hi & Hrec & Hreq).
  { apply ReserveOpenAt_Ok in H1 as (_ & _ & _ & [(i & ? & ? & ?%sameOpenRequest_eq & _ & ->)|(_ & _ & _ & Hn & _ & ->)]); [eauto|].
    apply NewRecord_Ok in Hn as [Hn _]. eexists. cbn. rewrite !lookup_insert_eq. split_and!; [done|cbn; by rewrite lookup_insert_eq|by rewrite Hn]. }
  destruct (perform_all_evolves ops2 s1 Hwf1) as (Hses & _ & Hidem & _).
  pose proof (lookup_weaken _ _ _ _ Hi Hidem) as Hi'. destruct (Hses _ _ Hrec) as (r' & Hr' & Hev).
  apply ReserveOpenAt_Ok in H2 as (_ & _ & _ & [(j & Hj & Hv' & Hsame%sameOpenRequest_eq & ? & ->)|(Hnone & _)]).
  - rewrite Hscope in Hj. simplify_eq. destruct Hev as (Hq & Hev). by split_and!.
  - rewrite Hscope in Hnone. congruence.
Qed.

Lemma session_keys_bind_requests_witness :
  ∃ v s1 v' s2,
    ReserveOpenAt SessionSample.request 10 (perform_all [OpPutAuthority SessionSample.authority] NewState) = Ok (v, s1) ∧
    ReserveOpenAt SessionSample.request 60 (perform_all SessionSample.opened s1) = Ok (v', s2) ∧
    rv_Replayed v' = true ∧ s2 = perform_all SessionSample.opened s1.
Proof.
  do 4 eexists. split; [vm_compute; reflexivity|]. split; [vm_compute; reflexivity|].
  edestruct (session_keys_bind_requests [OpPutAuthority SessionSample.authority] SessionSample.opened
    SessionSample.request SessionSample.request 10 60) as (_ & Hr & Hs & _); [vm_compute; reflexivity..|].
  split; [exact Hr|exact Hs].
Defined.

(** open and close operations never lose their records: requests, acceptance
    times and allocation receipts stay, and a settled outcome is final. *)
Theorem session_outcomes_are_final ops1 ops2 :
  state_evolves (perform_all ops1 NewState) (perform_all (ops1 ++ ops2) NewState).
Proof. rewrite perform_all_app. apply perform_all_evolves, session_reachable_wf. Qed.

(** C36 (error): a runtime session for which two open operations are on record, whatever
    became of them, can no longer be closed: every later close reservation of it
    that succeeds is a replay.  Open operations are never removed, so a session
    whose first open operation failed and that was opened again stays open. *)
Theorem retried_session_cannot_be_closed ops ops' k1 k2 r1 r2 request t :
  Sessions (perform_all ops NewState) !! k1 = Some r1 → Sessions (perform_all ops NewState) !! k2 = Some r2 → k1 ≠ k2 →
  or_SandboxID (rc_Request r1) = cr_SandboxID request → or_RuntimeSessionID (rc_Request r1) = cr_RuntimeSessionID request →
  or_SandboxID (rc_Request r2) = cr_SandboxID request → or_RuntimeSessionID (rc_Request r2) = cr_RuntimeSessionID request →
  ∀ v s', ReserveCloseAt request t (perform_all (ops ++ ops') NewState) = Ok (v, s') → cv_Replayed v = true.
Proof.
  intros H1 H2 Hne Hs1 Hr1 Hs2 Hr2 v s' (_ & _ & _ & [(? & _ & _ & _ & ? & _)|(_ & _ & _ & _ & (src & Hsrc & _) & _)])%ReserveCloseAt_Ok; [done|].
  exfalso. apply Hne. rewrite perform_all_app in Hsrc.
  assert (Hone : ∀ k r, Sessions (perform_all ops NewState) !! k = Some r → or_SandboxID (rc_Request r) = cr_SandboxID request →
            or_RuntimeSessionID (rc_Request r) = cr_RuntimeSessionID request → or_OperationID (rc_Request src) = k).
  { intros k r Hk Hs Hr. destruct (perform_all_evolves ops' _ (session_reachable_wf ops)) as (Hses & _).
    destruct (Hses k r Hk) as (r' & Hk' & Hreq & _).
    assert (Hin : r' ∈ sources request (perform_all ops' (perform_all ops NewState))).
    { apply sources_spec. rewrite Hreq. eauto. }
    rewrite Hsrc, list_elem_of_singleton in Hin. subst r'.
    by destruct (sw_record _ (perform_all_wf ops' _ (session_reachable_wf ops)) _ _ Hk'). }
  rewrite <- (Hone k1 r1), <- (Hone k2 r2) by done. done.
Qed.

Lemma retried_session_cannot_be_closed_witness :
  ∃ r1 r2, rc_Status r1 = StatusFailed ∧ rc_Status r2 = StatusSucceeded ∧
    ∀ v s', ReserveCloseAt SessionSample.closing 50 (perform_all (SessionSample.retried ++ []) NewState) = Ok (v, s') →
      cv_Replayed v = true.
Proof.
  exists (mkRecord SessionSample.first_request StatusFailed 5 8 None None), SessionSample.succeeded.
  split; [reflexivity|]. split; [reflexivity|].
  apply (retried_session_cannot_be_closed SessionSample.retried [] "op0" "op" (mkRecord SessionSample.first_request StatusFailed 5 8 None None)
    SessionSample.succeeded); try (vm_compute; reflexivity). discriminate.
Defined.
