(* ===== verification/SessionPorts.v ===== *)
(** * The ports of the session application

    The session authority of [provider/session/port.go] as its repository adapters
    implement it, the lifecycle reader, the terminal runtime, the registrar and
    the revoker of handoffs, the clock and the caller's context, as calls with the
    answers each may give.  The authority answers as [repository.State] does, or
    with a transport error that left the state as it was, or it commits and then
    reports a durability failure.  Everything else, the clock included, answers
    anything. *)

From S2P Require Import Prelude Program Threads LifecycleModel SessionModel SessionState SessionInvariant SessionGuarantees.
From stdpp Require Import base gmap strings list fin_maps relations.
From Stdlib Require Import ZArith Lia.

Local Open Scope Z_scope.

Inductive Context :=
  | CtxNil
  | CtxCaller
  | CtxWithDeadline (parent : Context) (deadline : Time)
  | CtxPersistence (parent : Context).

(** [EPanic] is a nil pointer that is dereferenced. *)
Inductive eff : Type → Type :=
  | ENow : eff Time
  | ECtxErr (ctx : Context) : eff (option goerr)
  | EPanic : eff ()
  (* lifecycle repository *)
  | EGetSandbox (ctx : Context) (id : string) : eff (result Sandbox)
  (* session.CoordinationAuthority, session.CloseAuthority *)
  | ESynchronize (ctx : Context) (a : SandboxAuthority) : eff (result unit)
  | EReserveOpen (ctx : Context) (rq : OpenRequest) (acceptedAt : Time) : eff (result Reservation)
  | EGetOpenAt (ctx : Context) (id : string) (now : Time) : eff (result Record_)
  | EListOpen (ctx : Context) : eff (result (list Record_))
  | EAttachAllocation (ctx : Context) (receipt : AllocationReceipt) : eff (result Reservation)
  | EObserveAllocation (ctx : Context) (id : string) (observation : AllocationEvidence) : eff (result Record_)
  | EUpdateOpenAt (ctx : Context) (record : Record_) (expected : Status) (now : Time) : eff (result unit)
  | EReserveClose (ctx : Context) (rq : CloseRequest) (acceptedAt : Time) : eff (result CloseReservation)
  | EGetClose (ctx : Context) (id : string) : eff (result CloseRecord)
  | EUpdateClose (ctx : Context) (record : CloseRecord) (expected : Status) : eff (result unit)
  | EListClose (ctx : Context) : eff (result (list CloseRecord))
  (* terminal.Runtime *)
  | EAllocate (ctx : Context) (a : Allocation) : eff (result Receipt)
  | EObserve (ctx : Context) (r : Receipt) : eff (result Observation)
  | ECleanup (ctx : Context) (r : Receipt) : eff (result unit)
  (* HandoffRegistrar, HandoffRevoker *)
  | ERegisterHandoff (ctx : Context) (record : Record_) : eff (result EndpointEvidence)
  | ERevokeHandoff (ctx : Context) (record : Record_) (at_ : Time) : eff (result unit).

Abbreviation prog := (Program.prog eff).

(** ** Answers *)

Definition ErrDurability : sentinel := session_error "ErrDurability".
Definition ErrClosed : sentinel := repository_error "ErrClosed".

Definition transport_error (e : goerr) : Prop :=
  e = [Canceled : sentinel] ∨ e = [DeadlineExceeded : sentinel] ∨ e = [ErrClosed] ∨ e = [ErrDurability].

Definition answers_read {X} (r : result X) (s : State) (x : result X) (s' : State) : Prop :=
  s' = s ∧ (x = r ∨ ∃ e, transport_error e ∧ x = Err e).

(** The operation [m] may take effect, with its answer or a durability failure,
    or not. *)
Definition answers_write {X} (m : result (X * State)) (s : State) (x : result X) (s' : State) : Prop :=
  match m with
  | Ok (v, t) => (x = Ok v ∧ s' = t) ∨ (x = Err [ErrDurability] ∧ s' = t)
  | Err e => x = Err e ∧ s' = s
  end ∨ (s' = s ∧ ∃ e, transport_error e ∧ x = Err e).

Definition respond {X} (e : eff X) : State → X → State → Prop :=
  match e in eff X return State → X → State → Prop with
  | ESynchronize _ a => λ s x s', answers_write (SynchronizeSandboxAuthority a s) s x s'
  | EReserveOpen _ rq at_ => λ s x s', answers_write (ReserveOpenAt rq at_ s) s x s'
  | EGetOpenAt _ id now => λ s x s', answers_read (GetOpenAt id now s) s x s'
  | EListOpen _ => λ s x s', answers_read (Ok (ListOpen s)) s x s'
  | EAttachAllocation _ r => λ s x s', answers_write (AttachAllocation_ r s) s x s'
  | EObserveAllocation _ id o => λ s x s', answers_write (ObserveAllocation_ id o s) s x s'
  | EUpdateOpenAt _ r e now => λ s x s', answers_write (UpdateOpenAt r e now s) s x s'
  | EReserveClose _ rq at_ => λ s x s', answers_write (ReserveCloseAt rq at_ s) s x s'
  | EGetClose _ id => λ s x s', answers_read (GetClose id s) s x s'
  | EUpdateClose _ r e => λ s x s', answers_write (UpdateCloseAt r e s) s x s'
  | EListClose _ => λ s x s', answers_read (Ok (ListClose s)) s x s'
  | _ => λ s _ s', s' = s
  end.

(** The call of the repository behind a write. *)
Definition op_of {X} (e : eff X) : option session_op :=
  match e with
  | ESynchronize _ a => Some (OpSynchronizeAuthority a)
  | EReserveOpen _ rq at_ => Some (OpReserveOpen rq at_)
  | EAttachAllocation _ r => Some (OpAttachAllocation r)
  | EObserveAllocation _ id o => Some (OpObserveAllocation id o)
  | EUpdateOpenAt _ r e now => Some (OpUpdateOpen r e now)
  | EReserveClose _ rq at_ => Some (OpReserveClose rq at_)
  | EUpdateClose _ r e => Some (OpUpdateClose r e)
  | _ => None
  end.

Lemma session_answers_write_state {X} (m : result (X * State)) s x s' :
  answers_write m s x s' → s' = s ∨ ∃ v, m = Ok (v, s').
Proof. intros [H|[-> _]]; [|by left]. destruct m as [[v t]|]; [right|left; naive_solver]. exists v. naive_solver. Qed.

Lemma answers_write_value {X} (m : result (X * State)) s v s' : answers_write m s (Ok v) s' → m = Ok (v, s').
Proof. intros [H|(_ & e & _ & ?)]; [|done]. destruct m as [[v' t]|]; naive_solver. Qed.

Lemma answers_read_value {X} (r : result X) s v s' : answers_read r s (Ok v) s' → r = Ok v ∧ s' = s.
Proof. intros [-> [->|(e & _ & ?)]]; done. Qed.

(** Whatever is answered, the state took one call or none. *)
Lemma session_respond_state {X} (e : eff X) s x s' :
  respond e s x s' → s' = s ∨ ∃ op, op_of e = Some op ∧ next_state op s = Ok s'.
Proof.
  destruct e; cbn; try (intros [-> _]; by left); try (intros ->; by left);
    intros [->|(v & Hv)]%session_answers_write_state; auto; right; eexists; (split; [done|]); cbn; by rewrite Hv.
Qed.
