(* ===== verification/SessionFile.v ===== *)
(** * The file repository of sessions: [provider/session/repository/file]

    The session repository for one controller process, a file store over
    [repository.State]: its directory is created again before every write, and the
    context is consulted again under the lock.  It answers as the ports of the
    application allow and its file always holds the state in memory. *)

From S2P Require Import Prelude Program FileStore LifecycleModel Threads SessionModel SessionState SessionInvariant SessionGuarantees SessionPorts.
From stdpp Require Import base gmap strings list fin_maps relations.
From Stdlib Require Import ZArith Lia.

Local Open Scope Z_scope.

(** * The in-memory session repository: [provider/session/repository/memory]

    Every method consults its context before it takes the lock, and writes consult
    it again under the lock; what successive [ctx.Err()] and clock calls return is
    a script of the world.  The lifecycle reader, the terminal runtime and the
    handoff registry are parameters; what the runtime observes may depend on the
    terminals it was asked to remove before.  [handle] composes them; its answers
    are answers the ports allow. *)

Record MemoryRepository := mkMemoryRepository { mem_state : State; mem_closed : bool }.

Definition NewRepository : MemoryRepository := mkMemoryRepository NewState false.

Record World := mkWorld {
  w_mem : MemoryRepository;
  w_clock : list positive;
  w_ctx : list (option context_sentinel);
  w_removed : list Receipt;
}.

Definition w_set_state (s : State) (w : World) : World :=
  mkWorld (mkMemoryRepository s (mem_closed (w_mem w))) (w_clock w) (w_ctx w) (w_removed w).

(** The clock stays at its last reading. *)
Definition clock_Now (w : World) : Time * World :=
  match w_clock w with
  | [] => (1, w)
  | [t] => (Z.pos t, w)
  | t :: ts => (Z.pos t, mkWorld (w_mem w) ts (w_ctx w) (w_removed w))
  end.

(** An exhausted script means no further cancellation. *)
Definition ctx_Err (w : World) : option context_sentinel * World :=
  match w_ctx w with
  | [] => (None, w)
  | c :: cs => (c, mkWorld (w_mem w) (w_clock w) cs (w_removed w))
  end.

Definition ContextError (ctx : Context) (w : World) : option context_sentinel * World :=
  match ctx with CtxNil => (Some Canceled, w) | _ => ctx_Err w end.

Definition guard_ctx {X} (ctx : Context) (k : World → result X * World) (w : World) : result X * World :=
  let '(err, w) := ContextError ctx w in
  match err with Some e => (Err [e : sentinel], w) | None => k w end.

Definition guard_closed {X} (k : World → result X * World) (w : World) : result X * World :=
  if mem_closed (w_mem w) then (Err [ErrClosed], w) else k w.

Definition checkOpen {X} (ctx : Context) (k : World → result X * World) : World → result X * World :=
  guard_closed (guard_ctx ctx k).

Definition memory_write {X} (ctx : Context) (f : State → result (X * State)) : World → result X * World :=
  guard_ctx ctx (checkOpen ctx (λ w,
    match f (mem_state (w_mem w)) with
    | Ok (x, s) => (Ok x, w_set_state s w)
    | Err e => (Err e, w)
    end)).

Definition memory_read {X} (ctx : Context) (f : State → result X) : World → result X * World :=
  guard_ctx ctx (guard_closed (λ w, (f (mem_state (w_mem w)), w))).

(** [systemNow] is what [time.Now().UTC()] returns. *)
Definition GetOpen (systemNow : Time) (operationID : string) (s : State) : result Record_ := GetOpenAt operationID systemNow s.

Definition memory_ReserveOpen ctx request acceptedAt := memory_write ctx (ReserveOpenAt request acceptedAt).
Definition memory_GetOpen (systemNow : Time) ctx operationID := memory_read ctx (GetOpen systemNow operationID).
Definition memory_GetOpenAt ctx operationID now := memory_read ctx (GetOpenAt operationID now).
Definition memory_ListOpen ctx := memory_read ctx (λ s, Ok (ListOpen s)).
Definition memory_AttachAllocation ctx receipt := memory_write ctx (AttachAllocation_ receipt).
Definition memory_ObserveAllocation ctx operationID observation := memory_write ctx (ObserveAllocation_ operationID observation).
Definition memory_ReserveClose ctx request acceptedAt := memory_write ctx (ReserveCloseAt request acceptedAt).
Definition memory_GetClose ctx operationID := memory_read ctx (GetClose operationID).
Definition memory_ListClose ctx := memory_read ctx (λ s, Ok (ListClose s)).
Definition memory_UpdateClose ctx record expectedStatus := memory_write ctx (UpdateCloseAt record expectedStatus).
Definition memory_UpdateOpenAt ctx record expectedStatus now := memory_write ctx (UpdateOpenAt record expectedStatus now).
Definition memory_UpdateOpen (systemNow : Time) ctx record expectedStatus := memory_write ctx (UpdateOpenAt record expectedStatus systemNow).
Definition memory_PutSandboxAuthority ctx authority := memory_write ctx (PutSandboxAuthority authority).
Definition memory_SynchronizeSandboxAuthority ctx authority := memory_write ctx (SynchronizeSandboxAuthority authority).
Definition memory_ReplaceSandboxAuthority ctx authority expectedGeneration fencingToken :=
  memory_write ctx (ReplaceSandboxAuthority authority expectedGeneration fencingToken).
Definition memory_GetSandboxAuthority ctx sandboxID := memory_read ctx (GetSandboxAuthority sandboxID).
Definition memory_Close (w : World) : World :=
  mkWorld (mkMemoryRepository (mem_state (w_mem w)) true) (w_clock w) (w_ctx w) (w_removed w).

(** ** The composed ports *)

Record Runtime := mkRuntime {
  rt_Sandbox : string → result Sandbox;
  rt_Allocate : Allocation → result Receipt;
  rt_Observe : list Receipt → Receipt → result Observation;
  rt_Cleanup : Receipt → result unit;
  rt_RegisterHandoff : Record_ → result EndpointEvidence;
  rt_RevokeHandoff : Record_ → Time → result unit;
}.

Section ports.
Context (rt : Runtime).

Definition handle {X} (e : eff X) : World → X * World :=
  match e in eff X return World → X * World with
  | ENow => clock_Now
  | ECtxErr ctx => λ w, let '(e, w) := ContextError ctx w in ((λ c, [SContext c]) <$> e, w)
  | EPanic => λ w, ((), w)
  | EGetSandbox _ id => λ w, (rt_Sandbox rt id, w)
  | ESynchronize ctx a => memory_SynchronizeSandboxAuthority ctx a
  | EReserveOpen ctx rq at_ => memory_ReserveOpen ctx rq at_
  | EGetOpenAt ctx id now => memory_GetOpenAt ctx id now
  | EListOpen ctx => memory_ListOpen ctx
  | EAttachAllocation ctx r => memory_AttachAllocation ctx r
  | EObserveAllocation ctx id o => memory_ObserveAllocation ctx id o
  | EUpdateOpenAt ctx r e now => memory_UpdateOpenAt ctx r e now
  | EReserveClose ctx rq at_ => memory_ReserveClose ctx rq at_
  | EGetClose ctx id => memory_GetClose ctx id
  | EUpdateClose ctx r e => memory_UpdateClose ctx r e
  | EListClose ctx => memory_ListClose ctx
  | EAllocate _ a => λ w, (rt_Allocate rt a, w)
  | EObserve _ r => λ w, (rt_Observe rt (w_removed w) r, w)
  | ECleanup _ r => λ w, (rt_Cleanup rt r, mkWorld (w_mem w) (w_clock w) (w_ctx w) (r :: w_removed w))
  | ERegisterHandoff _ r => λ w, (rt_RegisterHandoff rt r, w)
  | ERevokeHandoff _ r t => λ w, (rt_RevokeHandoff rt r t, w)
  end.

Definition abs (w : World) : State := mem_state (w_mem w).

(** ** The adapter implements the ports *)

Lemma session_ctx_abs ctx w : abs (ContextError ctx w).2 = abs w.
Proof. destruct ctx, w as [m c [|x xs] rm]; done. Qed.

(** Answers that leave the state alone. *)
Definition refused {X} (w : World) (x : result X) (w' : World) : Prop :=
  abs w' = abs w ∧ ∃ e, transport_error e ∧ x = Err e.

Lemma session_guard_ctx {X} ctx (k : World → result X * World) w :
  refused w (guard_ctx ctx k w).1 (guard_ctx ctx k w).2 ∨ ∃ w', guard_ctx ctx k w = k w' ∧ abs w' = abs w.
Proof.
  unfold guard_ctx. pose proof (session_ctx_abs ctx w) as Ha.
  destruct (ContextError ctx w) as [[c|] w']; [left|right; by exists w'].
  split; [done|]. eexists. split; [|done]. unfold transport_error. destruct c; auto.
Qed.

Lemma session_guard_closed {X} (k : World → result X * World) w :
  refused w (guard_closed k w).1 (guard_closed k w).2 ∨ guard_closed k w = k w.
Proof.
  unfold guard_closed. destruct (mem_closed _); [left|by right]. split; [done|].
  eexists. split; [|done]. by right; right; left.
Qed.

Lemma session_refused_write {X} (m : result (X * State)) w x w' : refused w x w' → answers_write m (abs w) x (abs w').
Proof. intros [-> ?]. by right. Qed.

Lemma session_refused_eq {X} w1 w (x : result X) w' : abs w1 = abs w → refused w1 x w' → refused w x w'.
Proof. unfold refused. by intros ->. Qed.

Lemma session_write_answers {X} ctx (f : State → result (X * State)) w :
  answers_write (f (abs w)) (abs w) (memory_write ctx f w).1 (abs (memory_write ctx f w).2).
Proof.
  unfold memory_write, checkOpen. set (body := λ w : World, _).
  destruct (session_guard_ctx ctx (guard_closed (guard_ctx ctx body)) w) as [?|(w1 & -> & H1)];
    [by apply session_refused_write|].
  destruct (session_guard_closed (guard_ctx ctx body) w1) as [Hr| ->];
    [by apply session_refused_write, (session_refused_eq w1)|].
  destruct (session_guard_ctx ctx body w1) as [Hr|(w2 & -> & H2)]; [by apply session_refused_write, (session_refused_eq w1)|].
  rewrite <- H1, <- H2. left. unfold body. fold (abs w2). destruct (f (abs w2)) as [[v s]|e]; [by left|done].
Qed.

Lemma session_read_answers {X} ctx (f : State → result X) w :
  answers_read (f (abs w)) (abs w) (memory_read ctx f w).1 (abs (memory_read ctx f w).2).
Proof.
  unfold memory_read. set (body := λ w : World, _).
  destruct (session_guard_ctx ctx (guard_closed body) w) as [[-> ?]|(w1 & -> & H1)]; [split; auto|].
  destruct (session_guard_closed body w1) as [[-> ?]| ->]; rewrite <- H1; [split; auto|]. split; [done|by left].
Qed.

Lemma session_handle_responds {X} (e : eff X) w : respond e (abs w) (handle e w).1 (abs (handle e w).2).
Proof.
  destruct e; cbn [respond handle]; try done; try apply session_write_answers; try apply session_read_answers.
  - unfold clock_Now. by destruct w as [m [|t [|t' ts]] c rm].
  - pose proof (session_ctx_abs ctx w) as Ha. by destruct (ContextError ctx w).
Qed.
End ports.

Definition maxFileSize : Z := Z.shiftl 32 20.

Definition session_layout : FileLayout State PersistedState :=
  mkFileLayout NewState Export Import ErrCorrupt ErrDurability ErrClosed maxFileSize "terminal session repository" true true.

Section file.
Context {bytes : Type} (encode : PersistedState → option bytes) (size : bytes → Z) (decode : bytes → option PersistedState).

Abbreviation FileRepository := (FileStore State bytes).

Definition load : OpenFaults → option bytes → result State := store_load session_layout size decode.
Definition file_NewRepository : string → OpenFaults → option bytes → result FileRepository := store_open session_layout size decode.
Definition persist : OSFaults → FileRepository → bool * option goerr * FileRepository := store_persist session_layout encode size.
Definition mutate {X} : OSFaults → (State → result (X * State)) → FileRepository → result X * FileRepository :=
  store_mutate session_layout encode size.

(** ** The repository interface *)

Definition file_write {X} : option context_sentinel → OSFaults → (State → result (X * State)) → FileRepository → result X * FileRepository :=
  store_write session_layout encode size.
Definition file_read {X} : option context_sentinel → (State → result X) → FileRepository → result X * FileRepository :=
  store_read session_layout.

Definition file_ReserveOpen entry os request acceptedAt := file_write entry os (ReserveOpenAt request acceptedAt).
Definition file_GetOpen (systemNow : Time) entry operationID := file_read entry (GetOpenAt operationID systemNow).
Definition file_GetOpenAt entry operationID now := file_read entry (GetOpenAt operationID now).
Definition file_ListOpen entry := file_read entry (λ s, Ok (ListOpen s)).
Definition file_AttachAllocation entry os receipt := file_write entry os (AttachAllocation_ receipt).
Definition file_ObserveAllocation entry os operationID observation := file_write entry os (ObserveAllocation_ operationID observation).
Definition file_ReserveClose entry os request acceptedAt := file_write entry os (ReserveCloseAt request acceptedAt).
Definition file_GetClose entry operationID := file_read entry (GetClose operationID).
Definition file_ListClose entry := file_read entry (λ s, Ok (ListClose s)).
Definition file_UpdateClose entry os record expectedStatus := file_write entry os (UpdateCloseAt record expectedStatus).
Definition file_UpdateOpen (systemNow : Time) entry os record expectedStatus := file_write entry os (UpdateOpenAt record expectedStatus systemNow).
Definition file_UpdateOpenAt entry os record expectedStatus now := file_write entry os (UpdateOpenAt record expectedStatus now).
Definition file_PutSandboxAuthority entry os authority := file_write entry os (PutSandboxAuthority authority).
Definition file_SynchronizeSandboxAuthority entry os authority := file_write entry os (SynchronizeSandboxAuthority authority).
Definition file_ReplaceSandboxAuthority entry os authority expectedGeneration fencingToken :=
  file_write entry os (ReplaceSandboxAuthority authority expectedGeneration fencingToken).
Definition file_GetSandboxAuthority entry sandboxID := file_read entry (GetSandboxAuthority sandboxID).
Definition file_Close : FileRepository → FileRepository := store_close.

(** A write of the repository interface; the value it returns is in the state. *)
Definition file_perform (op : session_op) (entry : option context_sentinel) (os : OSFaults) (r : FileRepository) : FileRepository :=
  match op with
  | OpPutAuthority a => (file_PutSandboxAuthority entry os a r).2
  | OpReplaceAuthority a g f => (file_ReplaceSandboxAuthority entry os a g f r).2
  | OpSynchronizeAuthority a => (file_SynchronizeSandboxAuthority entry os a r).2
  | OpReserveOpen rq at_ => (file_ReserveOpen entry os rq at_ r).2
  | OpAttachAllocation receipt => (file_AttachAllocation entry os receipt r).2
  | OpObserveAllocation id o => (file_ObserveAllocation entry os id o r).2
  | OpUpdateOpen record expected now => (file_UpdateOpenAt entry os record expected now r).2
  | OpReserveClose rq at_ => (file_ReserveClose entry os rq at_ r).2
  | OpUpdateClose record expected => (file_UpdateClose entry os record expected r).2
  end.

(** A call of the repository through the ports; other calls do not reach it. *)
Definition file_handle {X} (entry : option context_sentinel) (os : OSFaults) (e : eff X) : option (FileRepository → X * FileRepository) :=
  match e in eff X return option (FileRepository → X * FileRepository) with
  | ESynchronize _ a => Some (file_SynchronizeSandboxAuthority entry os a)
  | EReserveOpen _ rq at_ => Some (file_ReserveOpen entry os rq at_)
  | EGetOpenAt _ id now => Some (file_GetOpenAt entry id now)
  | EListOpen _ => Some (file_ListOpen entry)
  | EAttachAllocation _ r => Some (file_AttachAllocation entry os r)
  | EObserveAllocation _ id o => Some (file_ObserveAllocation entry os id o)
  | EUpdateOpenAt _ r e now => Some (file_UpdateOpenAt entry os r e now)
  | EReserveClose _ rq at_ => Some (file_ReserveClose entry os rq at_)
  | EGetClose _ id => Some (file_GetClose entry id)
  | EUpdateClose _ r e => Some (file_UpdateClose entry os r e)
  | EListClose _ => Some (file_ListClose entry)
  | _ => None
  end.

(** ** Proofs *)

Context (faithful : PersistedState → Prop).
Context (json_roundtrip : ∀ p b, faithful p → encode p = Some b → decode b = Some p).

#[local] Instance session_lawful : LawfulLayout session_layout encode decode session_wf faithful.
Proof using json_roundtrip. split; [apply session_wf_init|intros; by apply session_Import_Export|done]. Qed.

Abbreviation session_durable := (durable session_layout size decode session_wf).

(** The answers of the store are the ones of the ports. *)
Lemma session_file_answers {X} (m : result (X * State)) s x s' : file_answers session_layout m s x s' → answers_write m s x s'.
Proof using Type. intros [H|H]; [left|by right]. destruct m as [[v t]|]; [|done]. destruct H as [[->| ->] ->]; auto. Qed.

(** A write whose effect JSON can represent. *)
Definition representable (op : session_op) (r : FileRepository) : Prop :=
  ∀ t, next_state op (fs_state r) = Ok t → faithful (Export t).

Lemma representable_admissible {X} op (f : State → result (X * State)) (r : FileRepository) :
  session_wf (fs_state r) → representable op r →
  (∀ v t, f (fs_state r) = Ok (v, t) → next_state op (fs_state r) = Ok t) →
  admissible session_layout session_wf faithful f (fs_state r).
Proof using Type. intros Hs Hr Hf v t E. apply Hf in E. split; [by eapply next_state_wf|by apply Hr]. Qed.

Lemma session_file_perform_spec op entry os r :
  session_durable r → representable op r →
  session_durable (file_perform op entry os r) ∧
  (fs_state (file_perform op entry os r) = fs_state r ∨ next_state op (fs_state r) = Ok (fs_state (file_perform op entry os r))).
Proof using json_roundtrip.
  intros Hok Hr. assert (Hgo : ∀ X (f : State → result (X * State)),
    (∀ v t, f (fs_state r) = Ok (v, t) → next_state op (fs_state r) = Ok t) →
    session_durable (file_write entry os f r).2 ∧
    (fs_state (file_write entry os f r).2 = fs_state r ∨ next_state op (fs_state r) = Ok (fs_state (file_write entry os f r).2))).
  { intros X f Hf. unfold file_write. destruct (store_write_spec session_layout encode size decode session_wf faithful entry os f r) as [Hok' Ha]; [done| |].
    - destruct Hok. by eapply representable_admissible.
    - split; [done|]. apply file_answers_state in Ha as [->|(v & Hv)]; [by left|right; eauto]. }
  destruct op; cbn [file_perform]; apply Hgo; intros v t E; cbn; by rewrite E.
Qed.

Lemma session_file_handle_spec {X} entry os (e : eff X) h r :
  file_handle entry os e = Some h → session_durable r → (∀ op, op_of e = Some op → representable op r) →
  respond e (fs_state r) (h r).1 (fs_state (h r).2).
Proof using json_roundtrip.
  intros Hh Hok Hr.
  assert (Hread : ∀ Y (f : State → result Y), answers_read (f (fs_state r)) (fs_state r) (file_read entry f r).1 (fs_state (file_read entry f r).2)).
  { intros Y f. destruct (store_read_spec session_layout entry f r) as [E H]. unfold file_read, answers_read. rewrite E. by split. }
  destruct e; cbn in Hh; simplify_eq; cbn [respond]; try apply Hread.
  all: apply session_file_answers, (store_write_spec session_layout encode size decode session_wf faithful entry os); [done|]; destruct Hok;
    eapply representable_admissible; [done|by apply Hr|]; intros v t E; cbn; by rewrite E.
Qed.

(** Runs of the adapter: calls under any faults, and [Close]. *)
Definition empty_repository : FileRepository := empty_store session_layout.

Definition file_step (r r' : FileRepository) : Prop :=
  r' = file_Close r ∨ ∃ op entry os, representable op r ∧ r' = file_perform op entry os r.

Lemma session_file_run_ok r :
  rtc file_step empty_repository r → session_durable r ∧ ∃ ops, fs_state r = perform_all ops NewState.
Proof using json_roundtrip.
  revert r. apply rtc_ind_r; [split; [split; [apply session_wf_init|done]|by exists []]|].
  intros r r' _ [-> | (op & entry & os & Hr & ->)] [Hok [ops Hops]]; [eauto|].
  destruct (session_file_perform_spec op entry os r Hok Hr) as [Hok' Hst]. split; [done|].
  destruct Hst as [-> | Hn]; [eauto|]. exists (ops ++ [op]). rewrite perform_all_app. cbn. unfold perform.
  by rewrite <- Hops, Hn.
Qed.

(** whatever writes of the session repository are made and whatever
    system calls fail or contexts are cancelled on the way, the file repository
    is in a state that calls of the abstract repository reach, opening its file
    again gives exactly that state, and every further call is answered as the
    ports of the session application allow, so that the application's guarantees
    hold over it. *)
Theorem session_file_repository_durable path r :
  blank path = false → rtc file_step empty_repository r →
  (∃ ops, fs_state r = perform_all ops NewState) ∧
  file_NewRepository path of_ok (fs_disk r) = Ok (mkFileStore (fs_state r) false (fs_disk r)) ∧
  ∀ X (e : eff X) entry os h, file_handle entry os e = Some h → (∀ op, op_of e = Some op → representable op r) →
    respond e (fs_state r) (h r).1 (fs_state (h r).2).
Proof using json_roundtrip.
  intros Hp Hrun. destruct (session_file_run_ok r Hrun) as [Hok Hreach]. split_and!; [done| |].
  - by eapply store_reopens.
  - intros X e entry os h Hh Ha. by apply (session_file_handle_spec entry os e h r).
Qed.
End file.

(** A file that holds the snapshot itself: an authority is stored, a reservation
    whose rename fails, the reservation again with a failing directory sync. *)
Module SessionFileRuns.
Definition session_disk (op : session_op) (os : OSFaults) : FileStore State PersistedState → FileStore State PersistedState :=
  file_perform Some (λ _, 1) op None os.
Definition r0 : FileStore State PersistedState := empty_repository.
Definition r1 := session_disk (OpPutAuthority SessionSample.authority) os_ok r0.
Definition r2 := session_disk (OpReserveOpen SessionSample.request 10) os_rename_fails r1.
Definition r3 := session_disk (OpReserveOpen SessionSample.request 10) os_syncDir_fails r2.

Lemma session_file_steps : rtc (file_step Some (λ _, 1) (λ _, True)) r0 r3.
Proof.
  apply (rtc_l _ _ r1); [|apply (rtc_l _ _ r2); [|apply (rtc_l _ _ r3); [|constructor]]];
    right; eexists _, None, _; (split; [by intros t _|reflexivity]).
Qed.
End SessionFileRuns.

Lemma session_file_repository_durable_witness :
  fs_state SessionFileRuns.r2 = fs_state SessionFileRuns.r1 ∧
  is_Some (Sessions (fs_state SessionFileRuns.r3) !! "op") ∧
  file_NewRepository (λ _, 1) Some "/var/lib/session.json" of_ok (fs_disk SessionFileRuns.r3)
    = Ok (mkFileStore (fs_state SessionFileRuns.r3) false (fs_disk SessionFileRuns.r3)).
Proof.
  split; [vm_compute; reflexivity|]. split; [vm_compute; eauto|].
  refine (proj1 (proj2 (session_file_repository_durable Some (λ _, 1) Some (λ _, True) _ "/var/lib/session.json" _
    _ SessionFileRuns.session_file_steps))).
  - intros p b _ [= ->]. reflexivity.
  - vm_compute; reflexivity.
Defined.
