(* ===== verification/SessionVertical.v ===== *)
(** * The session application: [provider/session/application]

    [application.go], [vertical.go] and [close.go] as programs over the ports.
    The parts of a vertical are flags that say whether they are present; the
    repository adapters implement the timed reads and updates and the close
    authority, so those type assertions are flags as well where the code falls
    back to an error.  Methods whose value is dropped by every caller when they
    fail return a [result]. *)

From S2P Require Import Prelude Program LifecycleModel SessionModel SessionState SessionPorts.
From stdpp Require Import base gmap strings list fin_maps relations.
From Stdlib Require Import ZArith Lia.

Local Open Scope Z_scope.

(** ** Control *)

Definition failed {A} (e : goerr) : prog (result A) := Ret (Err e).
Definition returns {A} (a : A) : prog (result A) := Ret (Ok a).

Declare Scope session_scope.
Notation "x <~ m ; k" := (orelse m failed (λ x, k))
  (at level 20, m at level 100, k at level 200, only parsing) : session_scope.
Local Open Scope session_scope.

Definition application_error (name : string) : sentinel := SNamed "session/application" name.
Definition ErrInvalidApplication : sentinel := application_error "ErrInvalidApplication".
Definition ErrHandoffPending : sentinel := application_error "ErrHandoffPending".

(** ** Projections *)

Inductive OperationType := OperationOpenRuntimeSession | OperationCloseRuntimeSession.

Record Operation := mkOperation {
  pn_OperationID : string; pn_AttemptID : string; pn_FencingToken : Z; pn_SandboxID : string; pn_Status : Status;
  pn_ObservedAt : Time; pn_Type : OperationType;
}.

Definition operationProjection (r : Record_) : result Operation :=
  _ ← Record_Validate r;
  Ok (mkOperation (or_OperationID (rc_Request r)) (or_AttemptID (rc_Request r)) (or_FencingToken (rc_Request r))
        (or_SandboxID (rc_Request r)) (rc_Status r) (rc_ObservedAt r) OperationOpenRuntimeSession).

Definition closeOperationProjection (r : CloseRecord) : result Operation :=
  _ ← CloseRecord_Validate r;
  Ok (mkOperation (cr_OperationID (cl_Request r)) (cr_AttemptID (cl_Request r)) (cr_FencingToken (cl_Request r))
        (cr_SandboxID (cl_Request r)) (cl_Status r) (cl_ObservedAt r) OperationCloseRuntimeSession).

(** The projection copies every field of a valid handoff. *)
Definition handoffProjection (h : Handoff) : result Handoff := _ ← Handoff_Validate h; Ok h.

(** ** The application *)

Record TerminalProfile := mkProfile { tp_RuntimeProfileID : string; tp_CapabilityProfileID : string; tp_WorkingDirectory : string }.

Definition TerminalProfile_validate (p : TerminalProfile) : result unit :=
  if decide (SessionModel.identifierPattern (tp_RuntimeProfileID p) = false
             ∨ SessionModel.identifierPattern (tp_CapabilityProfileID p) = false ∨ tp_WorkingDirectory p ≠ "/workspace")
  then Err [ErrInvalidApplication] else Ok ().

Record Vertical := mkVertical {
  v_authority : bool; v_runtime : bool; v_sandboxes : bool; v_profile : TerminalProfile; v_clock : bool;
  v_registrar : bool; v_revoker : bool; v_closeAuthority : bool;
}.

Definition NewVerticalWithHandoffLifecycle (authority runtime sandboxes : bool) (profile : TerminalProfile)
    (registrar revoker clock closeAuthority : bool) : result Vertical :=
  if decide (authority = false ∨ runtime = false ∨ sandboxes = false ∨ clock = false ∨ is_ok (TerminalProfile_validate profile) = false)
  then Err [ErrInvalidApplication]
  else Ok (mkVertical authority runtime sandboxes profile clock registrar revoker closeAuthority).
Definition NewVerticalWithHandoffRegistrar (authority runtime sandboxes : bool) (profile : TerminalProfile)
    (registrar clock closeAuthority : bool) : result Vertical :=
  NewVerticalWithHandoffLifecycle authority runtime sandboxes profile registrar false clock closeAuthority.
Definition NewVertical (authority runtime sandboxes : bool) (profile : TerminalProfile) (clock closeAuthority : bool) : result Vertical :=
  NewVerticalWithHandoffRegistrar authority runtime sandboxes profile false clock closeAuthority.

Section vertical.
Context (v : Vertical).

Definition contextError (ctx : Context) : prog (result unit) :=
  match ctx with
  | CtxNil => failed [Canceled : sentinel]
  | _ => err ← call (ECtxErr ctx); Ret (match err with Some e => Err e | None => Ok () end)
  end.

Definition ready (ctx : Context) : prog (result unit) :=
  if decide (v_authority v = false ∨ v_runtime v = false ∨ v_sandboxes v = false ∨ v_clock v = false
             ∨ is_ok (TerminalProfile_validate (v_profile v)) = false)
  then failed [ErrInvalidApplication] else contextError ctx.

Definition getOpen (ctx : Context) (operationID : string) : prog (result Record_) :=
  now ← call ENow; call (EGetOpenAt ctx operationID now).

Definition updateOpen (ctx : Context) (record : Record_) (expected : Status) (now : Time) : prog (result unit) :=
  call (EUpdateOpenAt ctx record expected now).

Definition monotonicTime (value floor : Time) : Time := if decide (Before value floor) then floor else value.
Definition monotonicNow (floor : Time) : prog Time := now ← call ENow; Ret (monotonicTime now floor).

Definition knownAllocationFailure (e : goerr) : bool :=
  errors_is e TerminalErrInvalidRequest || errors_is e ErrTerminalNotFound || errors_is e ErrTerminalExpired
  || errors_is e ErrTerminalConflict || errors_is e ErrTerminalCapacity || errors_is e ErrTerminalUnsupported.

Definition authorityInvalid (e : goerr) : bool :=
  errors_is e ErrDeadlineExpired || errors_is e ErrInvalidExpiry || errors_is e ErrSandboxNotReady
  || errors_is e ErrProviderRevisionConflict || errors_is e ErrGenerationConflict || errors_is e ErrLeaseExpired
  || errors_is e ErrStaleFencingToken || errors_is e ErrCapabilityUnsupported.

Definition MaxInt64 : Z := 2 ^ 63 - 1.

(** What the lifecycle says of a sandbox, under the fencing token of the caller. *)
Definition authority_of (sandbox : Sandbox) (fencingToken : Z) : SandboxAuthority :=
  mkSandboxAuthority (sb_ID sandbox) (sb_ProviderRevisionID sandbox)
    (bool_decide (sb_DesiredState sandbox = DesiredReady) && bool_decide (sb_ObservedState sandbox = ObservedReady)
     && bool_decide (sb_ObservedGeneration sandbox = sb_Generation sandbox))
    (i64 (sb_Generation sandbox)) (sb_LeaseExpiresAt sandbox) fencingToken (tp_CapabilityProfileID (v_profile v)).

Definition synchronizeAndReserve (ctx : Context) (request : OpenRequest) (now : Time) : prog (result Reservation) :=
  sandbox <~ call (EGetSandbox ctx (or_SandboxID request));
  match Sandbox_Validate sandbox with
  | Err e => failed e
  | Ok _ =>
      if decide (sb_ID sandbox ≠ or_SandboxID request ∨ sb_Generation sandbox > MaxInt64 ∨ sb_ObservedGeneration sandbox > MaxInt64)
      then failed [ErrGenerationConflict] else
      if decide (sb_RuntimeProfile sandbox ≠ tp_RuntimeProfileID (v_profile v)
                 ∨ or_CapabilityProfileID request ≠ tp_CapabilityProfileID (v_profile v)) then failed [ErrCapabilityUnsupported] else
      _ <~ call (ESynchronize ctx (authority_of sandbox (or_FencingToken request)));
      call (EReserveOpen ctx request now)
  end.

Definition open_status (s : Status) : bool := match s with StatusAccepted | StatusRunning => true | _ => false end.

Definition persistStatus (ctx : Context) (record : Record_) (status : Status) (observedAt : Time) : prog (result Record_) :=
  if negb (open_status (rc_Status record)) then returns record else
  match Transition record status observedAt None with
  | Err e => failed e
  | Ok updated =>
      _ <~ updateOpen (CtxPersistence ctx) updated (rc_Status record) observedAt;
      returns updated
  end.

Definition cleanupTerminal (ctx : Context) (record : Record_) : prog (result Record_) :=
  match rc_Allocation record with
  | None => returns record
  | Some a =>
      now ← call ENow;
      if decide (rc_Status record = StatusFailed ∨ rc_Status record = StatusCancelled ∨ ¬ After (or_ExpiresAt (rc_Request record)) now)
      then _ <~ call (ECleanup ctx (terminalReceipt (av_Receipt a))); returns record
      else returns record
  end.

Definition invalidate (ctx : Context) (record : Record_) (now : Time) : prog (result Record_) :=
  updated <~ persistStatus ctx record StatusFailed (monotonicTime now (rc_ObservedAt record));
  match rc_Allocation record with
  | None => returns updated
  | Some a => _ <~ call (ECleanup ctx (terminalReceipt (av_Receipt a))); returns updated
  end.

Definition expire (ctx : Context) (record : Record_) (now : Time) : prog (result Record_) :=
  match rc_Allocation record with
  | None => persistStatus ctx record StatusFailed (monotonicTime now (rc_ObservedAt record))
  | Some a =>
      updated <~ call (EObserveAllocation (CtxPersistence ctx) (or_OperationID (rc_Request record))
                         (mkEvidence (av_Receipt a) AllocationExpired (monotonicTime now (av_ObservedAt a))));
      _ <~ call (ECleanup ctx (terminalReceipt (av_Receipt a)));
      returns updated
  end.

(** The observation to record: what the runtime reports of this receipt, or what
    its error says. *)
Definition observation_of (receipt : Receipt) (floor : Time) (answer : result Observation) : prog Observation :=
  observation ←
    match answer with
    | Ok o => Ret o
    | Err e =>
        now ← monotonicNow floor;
        Ret (mkTerminalObservation receipt
               (if errors_is e ErrTerminalNotFound then ObservationAbsent
                else if errors_is e ErrTerminalExpired then ObservationExpired else ObservationOutcomeUnknown) now)
    end;
  if decide (is_ok (Observation_Validate observation) = false ∨ on_Receipt observation ≠ receipt
             ∨ Before (on_ObservedAt observation) floor)
  then now ← monotonicNow floor; Ret (mkTerminalObservation receipt ObservationOutcomeUnknown now)
  else Ret observation.

Definition gone (r : Record_) : bool :=
  match rc_Allocation r with
  | Some a => match av_State a with AllocationAbsent | AllocationExpired => true | _ => false end
  | None => false
  end.

(** [record.Allocation.Receipt] of a record without allocation panics. *)
Definition observe (ctx : Context) (record : Record_) : prog (result Record_) :=
  match rc_Allocation record with
  | None => _ ← call EPanic; failed []
  | Some a =>
      let receipt := terminalReceipt (av_Receipt a) in
      answer ← call (EObserve ctx receipt);
      observation ← observation_of receipt (av_ObservedAt a) answer;
      updated <~ call (EObserveAllocation (CtxPersistence ctx) (or_OperationID (rc_Request record)) (sessionObservation observation));
      if gone updated then _ <~ call (ECleanup ctx receipt); returns updated else returns updated
  end.

Definition allocation_of (record : Record_) : Allocation :=
  mkAllocation (terminalRequest (rc_Request record) (tp_WorkingDirectory (v_profile v))) (rc_AcceptedAt record).

Definition allocate (ctx : Context) (record : Record_) : prog (result Record_) :=
  let allocation := allocation_of record in
  if decide (is_ok (Allocation_Validate allocation) = false)
  then now ← monotonicNow (rc_ObservedAt record); persistStatus ctx record StatusFailed now else
  answer ← call (EAllocate (CtxWithDeadline ctx (or_Deadline (rc_Request record))) allocation);
  match answer with
  | Err e =>
      now ← monotonicNow (rc_ObservedAt record);
      persistStatus ctx record (if knownAllocationFailure e then StatusFailed else StatusOutcomeUnknown) now
  | Ok receipt =>
      if decide (is_ok (Receipt_Validate receipt) = false ∨ ¬ Matches receipt (an_Request allocation)
                 ∨ tr_AllocatedAt receipt ≠ an_AllocatedAt allocation)
      then now ← monotonicNow (rc_ObservedAt record); persistStatus ctx record StatusOutcomeUnknown now else
      attached ← call (EAttachAllocation (CtxPersistence ctx) (sessionReceipt receipt));
      match attached with
      | Err e => failed (ErrAllocationUnknown :: e)
      | Ok reservation => returns (rv_Record reservation)
      end
  end.

Definition progress (ctx : Context) (record : Record_) : prog (result Record_) :=
  if negb (open_status (rc_Status record)) then cleanupTerminal ctx record else
  now ← call ENow;
  if decide (IsZero now) then failed [ErrInvalidRequest] else
  if decide (¬ After (or_Deadline (rc_Request record)) now ∨ ¬ After (or_ExpiresAt (rc_Request record)) now) then expire ctx record now else
  reservation ← synchronizeAndReserve ctx (rc_Request record) now;
  match reservation with
  | Err e => if authorityInvalid e then invalidate ctx record now else failed e
  | Ok reservation =>
      let record := rv_Record reservation in
      match rc_Status record with
      | StatusAccepted => allocate ctx record
      | StatusRunning => observe ctx record
      | _ => returns record
      end
  end.

Definition running_allocation (r : Record_) : option AllocationReceipt :=
  match rc_Status r, rc_Allocation r with
  | StatusRunning, Some a => match av_State a with AllocationRunning => Some (av_Receipt a) | _ => None end
  | _, _ => None
  end.

Definition CommitHandoff (ctx : Context) (operationID : string) (evidence : EndpointEvidence) : prog (result Operation) :=
  _ <~ ready ctx;
  record <~ getOpen ctx operationID;
  match running_allocation record with
  | None => failed [ErrHandoffUnavailable]
  | Some receipt =>
      if decide (ee_ConnectionGeneration evidence ≠ al_ConnectionGeneration receipt) then failed [ErrHandoffUnavailable] else
      now ← call ENow;
      reservation <~ synchronizeAndReserve ctx (rc_Request record) now;
      let record := rv_Record reservation in
      match running_allocation record with
      | None => failed [ErrHandoffUnavailable]
      | Some _ =>
          match Transition record StatusSucceeded now (Some evidence) with
          | Err e => failed e
          | Ok succeeded =>
              _ <~ updateOpen ctx succeeded StatusRunning now;
              Ret (operationProjection succeeded)
          end
      end
  end.

Definition completeHandoff (ctx : Context) (record : Record_) : prog (result Record_) :=
  if decide (rc_Status record ≠ StatusRunning ∨ v_registrar v = false) then returns record else
  evidence <~ call (ERegisterHandoff ctx record);
  _ <~ CommitHandoff ctx (or_OperationID (rc_Request record)) evidence;
  getOpen ctx (or_OperationID (rc_Request record)).

(** [progress] and [completeHandoff] in a row. *)
Definition advance (ctx : Context) (record : Record_) : prog (result Operation) :=
  record <~ progress ctx record;
  record <~ completeHandoff ctx record;
  Ret (operationProjection record).

Definition Open (ctx : Context) (request : OpenRequest) : prog (result Operation) :=
  _ <~ ready ctx;
  now ← call ENow;
  match OpenRequest_Validate request now with
  | Err e => failed e
  | Ok _ =>
      reservation <~ synchronizeAndReserve ctx request now;
      advance ctx (rv_Record reservation)
  end.

Definition Reconcile (ctx : Context) (operationID : string) : prog (result Operation) :=
  _ <~ ready ctx;
  record <~ getOpen ctx operationID;
  advance ctx record.

(** ** Closing *)

Definition readyClose (ctx : Context) : prog (result unit) :=
  _ <~ ready ctx;
  if v_closeAuthority v && v_revoker v then returns () else failed [ErrInvalidApplication].

Definition synchronizeCloseAuthority (ctx : Context) (request : CloseRequest) : prog (result unit) :=
  sandbox <~ call (EGetSandbox ctx (cr_SandboxID request));
  match Sandbox_Validate sandbox with
  | Err e => failed e
  | Ok _ =>
      if decide (sb_ID sandbox ≠ cr_SandboxID request ∨ sb_Generation sandbox > MaxInt64
                 ∨ sb_RuntimeProfile sandbox ≠ tp_RuntimeProfileID (v_profile v)) then failed [ErrGenerationConflict] else
      call (ESynchronize ctx (authority_of sandbox (cr_FencingToken request)))
  end.

Definition retainedOpen (ctx : Context) (operationID : string) : prog (result Record_) :=
  records <~ call (EListOpen ctx);
  match list_find (λ r, or_OperationID (rc_Request r) = operationID) records with
  | Some (_, record) => returns record
  | None => failed [ErrHandoffUnavailable]
  end.

Definition finishClose (ctx : Context) (record : CloseRecord) (status : Status) (immutable : bool) : prog (result CloseRecord) :=
  if immutable then returns record else
  now ← monotonicNow (cl_ObservedAt record);
  match TransitionClose record status now with
  | Err e => failed e
  | Ok updated => _ <~ call (EUpdateClose (CtxPersistence ctx) updated (cl_Status record)); returns updated
  end.

(** The close operation is begun before anything is revoked or removed. *)
Definition begin_close (ctx : Context) (record : CloseRecord) : prog (result CloseRecord) :=
  if decide (cl_Status record ≠ StatusAccepted) then returns record else
  now ← monotonicNow (cl_ObservedAt record);
  match TransitionClose record StatusRunning now with
  | Err e => failed e
  | Ok running => _ <~ call (EUpdateClose (CtxPersistence ctx) running StatusAccepted); returns running
  end.

Definition cleanup_status (e : goerr) : Status :=
  if errors_is e ErrTerminalConflict || errors_is e ErrTerminalUnsupported || errors_is e ErrInvalidReceipt
  then StatusFailed else StatusOutcomeUnknown.

(** Removing the allocation and looking that it is gone. *)
Definition remove_allocation (ctx : Context) (record : CloseRecord) : prog (result CloseRecord) :=
  let receipt := terminalReceipt (cl_Receipt record) in
  cleaned ← call (ECleanup ctx receipt);
  match cleaned with
  | Err e => finishClose ctx record (cleanup_status e) false
  | Ok _ =>
      answer ← call (EObserve ctx receipt);
      match answer with
      | Ok o =>
          if decide (on_Receipt o ≠ receipt ∨ on_State o ≠ ObservationAbsent)
          then finishClose ctx record StatusOutcomeUnknown false else finishClose ctx record StatusSucceeded false
      | Err _ => finishClose ctx record StatusOutcomeUnknown false
      end
  end.

Definition progressClose (ctx : Context) (record : CloseRecord) : prog (result CloseRecord) :=
  let immutableUnknown := bool_decide (cl_Status record = StatusOutcomeUnknown) in
  record <~ begin_close ctx record;
  if negb (bool_decide (cl_Status record = StatusRunning)) && negb immutableUnknown then returns record else
  source ← retainedOpen ctx (cl_SourceOpenOperationID record);
  match source with
  | Err _ => finishClose ctx record StatusOutcomeUnknown immutableUnknown
  | Ok source =>
      now ← monotonicNow (cl_ObservedAt record);
      revoked ← call (ERevokeHandoff ctx source now);
      match revoked with
      | Err _ => finishClose ctx record StatusOutcomeUnknown immutableUnknown
      | Ok _ =>
          if immutableUnknown
          then _ ← call (EObserve ctx (terminalReceipt (cl_Receipt record))); returns record
          else remove_allocation ctx record
      end
  end.

Definition CloseRuntimeSession (ctx : Context) (request : CloseRequest) : prog (result Operation) :=
  _ <~ readyClose ctx;
  now ← call ENow;
  match CloseRequest_Validate request now with
  | Err e => failed e
  | Ok _ =>
      _ <~ synchronizeCloseAuthority ctx request;
      reservation <~ call (EReserveClose ctx request now);
      record <~ progressClose ctx (cv_Record reservation);
      Ret (closeOperationProjection record)
  end.

(** ** Recovery *)

Fixpoint recover_closes (ctx : Context) (records : list CloseRecord) (results : list Operation) : prog (outcome (list Operation)) :=
  match records with
  | [] => done_with results
  | record :: records =>
      match cl_Status record with
      | StatusSucceeded | StatusFailed => recover_closes ctx records results
      | _ =>
          updated ← progressClose ctx record;
          match updated with
          | Err e => Ret (results, Some e)
          | Ok updated =>
              match closeOperationProjection updated with
              | Err e => Ret (results, Some e)
              | Ok projected => recover_closes ctx records (results ++ [projected])
              end
          end
      end
  end.

Definition recoverCloses (ctx : Context) : prog (outcome (list Operation)) :=
  orelse (readyClose ctx) fail (λ _, orelse (call (EListClose ctx)) fail (λ records, recover_closes ctx records [])).

Fixpoint recover_opens (ctx : Context) (records : list Record_) (results : list Operation) : prog (outcome (list Operation)) :=
  match records with
  | [] => done_with results
  | record :: records =>
      if negb (open_status (rc_Status record))
      then orelse (cleanupTerminal ctx record) (λ e, Ret (results, Some e)) (λ _, recover_opens ctx records results)
      else orelse (advance ctx record) (λ e, Ret (results, Some e)) (λ operation, recover_opens ctx records (results ++ [operation]))
  end.

Definition Recover (ctx : Context) : prog (outcome (list Operation)) :=
  orelse (ready ctx) fail (λ _, orelse (call (EListOpen ctx)) fail (λ records,
    opened ← recover_opens ctx records [];
    match opened with
    | (results, Some e) => Ret (results, Some e)
    | (results, None) =>
        if v_closeAuthority v && v_revoker v
        then closed ← recoverCloses ctx; Ret (results ++ closed.1, closed.2)
        else done_with results
    end)).

(** ** Reading, and accepting without a runtime *)

Definition application_ready (ctx : Context) : option goerr :=
  if v_authority v && v_clock v then match ctx with CtxNil => Some [Canceled : sentinel] | _ => None end
  else Some [ErrInvalidApplication].

Definition application_Open (ctx : Context) (request : OpenRequest) : prog (result Operation) :=
  match application_ready ctx with
  | Some e => failed e
  | None =>
      now ← call ENow;
      match OpenRequest_Validate request now with
      | Err e => failed e
      | Ok _ => reservation <~ call (EReserveOpen ctx request now); Ret (operationProjection (rv_Record reservation))
      end
  end.

Definition application_read (ctx : Context) (operationID : string) : prog (result (Time * Record_)) :=
  match application_ready ctx with
  | Some e => failed e
  | None =>
      now ← call ENow;
      if decide (IsZero now ∨ operationID = "") then failed [ErrInvalidRequest] else
      record <~ call (EGetOpenAt ctx operationID now); returns (now, record)
  end.

Definition application_GetOperation (ctx : Context) (operationID : string) : prog (result Operation) :=
  found <~ application_read ctx operationID;
  Ret (operationProjection found.2).

(** The answer about the handoff of a record. *)
Definition handoff_at (now : Time) (record : Record_) : result Handoff :=
  let expired := match rc_Handoff record with Some h => negb (bool_decide (Before now (ho_ExpiresAt h))) | None => false end in
  if decide (rc_Status record = StatusSucceeded ∧ expired = true) then Err [ErrHandoffExpired] else
  _ ← Record_Validate record;
  match rc_Status record with
  | StatusAccepted | StatusRunning => Err [ErrHandoffPending]
  | StatusFailed | StatusCancelled | StatusOutcomeUnknown => Err [ErrHandoffUnavailable]
  | StatusSucceeded =>
      match rc_Handoff record with
      | None => Err [ErrHandoffUnavailable]
      | Some h => if expired then Err [ErrHandoffExpired] else handoffProjection h
      end
  | StatusOther _ => Err [ErrInvalidRecord]
  end.

Definition GetHandoff (ctx : Context) (operationID : string) : prog (result Handoff) :=
  found <~ application_read ctx operationID;
  Ret (handoff_at found.1 found.2).

Definition GetOperation (ctx : Context) (operationID : string) : prog (result Operation) :=
  found ← application_GetOperation ctx operationID;
  match found with
  | Ok operation => returns operation
  | Err e =>
      if negb (errors_is e ErrNotFound) then failed e else
      if negb (v_closeAuthority v) then failed e else
      record <~ call (EGetClose ctx operationID);
      Ret (closeOperationProjection record)
  end.
End vertical.
