(* ===== verification/SessionConcurrency.v ===== *)
(** * The session application under concurrency

    Any number of calls of the application may run at once over one repository,
    interleaved call by call, and any of them may stop for good at any call.  The
    rule below says which call a method makes after which trace; every method
    follows it, and the ledger relates what was called to the state. *)

From S2P Require Import Prelude Program Threads LifecycleModel SessionModel SessionState SessionInvariant SessionGuarantees SessionPorts SessionVertical.
From stdpp Require Import base gmap strings list fin_maps relations.
From Stdlib Require Import ZArith Lia.

Local Open Scope Z_scope.

(** ** The interface *)

Inductive session_api :=
  | ApiOpen (ctx : Context) (request : OpenRequest)
  | ApiAccept (ctx : Context) (request : OpenRequest)
  | ApiReconcile (ctx : Context) (id : string)
  | ApiRecover (ctx : Context)
  | ApiCommitHandoff (ctx : Context) (id : string) (evidence : EndpointEvidence)
  | ApiClose (ctx : Context) (request : CloseRequest)
  | ApiGetHandoff (ctx : Context) (id : string)
  | ApiGetOperation (ctx : Context) (id : string).

Definition api_prog (v : Vertical) (a : session_api) : prog () :=
  match a with
  | ApiOpen ctx rq => discard (Open v ctx rq)
  | ApiAccept ctx rq => discard (application_Open v ctx rq)
  | ApiReconcile ctx id => discard (Reconcile v ctx id)
  | ApiRecover ctx => discard (Recover v ctx)
  | ApiCommitHandoff ctx id e => discard (CommitHandoff v ctx id e)
  | ApiClose ctx rq => discard (CloseRuntimeSession v ctx rq)
  | ApiGetHandoff ctx id => discard (GetHandoff v ctx id)
  | ApiGetOperation ctx id => discard (GetOperation v ctx id)
  end.

(** Callers that hand in handoff evidence themselves are left out where its origin
    matters. *)
Definition hands_in_evidence (a : session_api) : Prop := match a with ApiCommitHandoff _ _ _ => True | _ => False end.

Definition spawn (trusting : bool) (p : prog ()) : Prop :=
  ∃ v a, p = api_prog v a ∧ (trusting = false → ¬ hands_in_evidence a).

Definition pool_run (trusting : bool) (s : State) (ts : list (thread eff)) : Prop :=
  rtc (pool_step (@respond) (spawn trusting)) (NewState, []) (s, ts).

(** ** What traces say *)

(** The records an answer shows to be in the repository. *)
Definition seen (ev : event eff) : list Record_ :=
  let '@Ev _ X e x := ev in
  match e in eff X return X → list Record_ with
  | EReserveOpen _ _ _ | EAttachAllocation _ _ => λ x, match x with Ok v => [rv_Record v] | Err _ => [] end
  | EGetOpenAt _ _ _ | EObserveAllocation _ _ _ => λ x, match x with Ok r => [r] | Err _ => [] end
  | EListOpen _ => λ x, match x with Ok l => l | Err _ => [] end
  | EUpdateOpenAt _ r _ _ => λ x, match x with Ok _ => [r] | Err _ => [] end
  | _ => λ _, []
  end x.

Definition seen_closes (ev : event eff) : list CloseRecord :=
  let '@Ev _ X e x := ev in
  match e in eff X return X → list CloseRecord with
  | EReserveClose _ _ _ => λ x, match x with Ok v => [cv_Record v] | Err _ => [] end
  | EGetClose _ _ => λ x, match x with Ok r => [r] | Err _ => [] end
  | EListClose _ => λ x, match x with Ok l => l | Err _ => [] end
  | EUpdateClose _ r _ => λ x, match x with Ok _ => [r] | Err _ => [] end
  | _ => λ _, []
  end x.

Definition known (tr : list (event eff)) (r : Record_) : Prop := ∃ ev, ev ∈ tr ∧ r ∈ seen ev.
Definition known_close (tr : list (event eff)) (c : CloseRecord) : Prop := ∃ ev, ev ∈ tr ∧ c ∈ seen_closes ev.

(** The session of the record is over: its operation failed or was cancelled, or
    it is settled and a clock reading was past its expiry. *)
Definition session_over (tr : list (event eff)) (r : Record_) : Prop :=
  rc_Status r = StatusFailed ∨ rc_Status r = StatusCancelled ∨
  Status_terminal (rc_Status r) = true ∧ ∃ now, Ev ENow now ∈ tr ∧ or_ExpiresAt (rc_Request r) ≤ now.

Definition revoked (tr : list (event eff)) (c : CloseRecord) : Prop :=
  ∃ ctx source at_, Ev (ERevokeHandoff ctx source at_) (Ok ()) ∈ tr ∧
    or_OperationID (rc_Request source) = cl_SourceOpenOperationID c.

(** Why an allocation may be removed. *)
Definition cleanup_known (tr : list (event eff)) (receipt : AllocationReceipt) : Prop :=
  (∃ r, known tr r ∧ av_Receipt <$> rc_Allocation r = Some receipt ∧ session_over tr r) ∨
  (∃ c, known_close tr c ∧ cl_Receipt c = receipt ∧ cl_Status c = StatusRunning ∧ revoked tr c).

(** The allocation identity of a record. *)
Definition allocation_identity (r : Record_) : Allocation :=
  mkAllocation (terminalRequest (rc_Request r) "/workspace") (rc_AcceptedAt r).

(** A close operation whose handoff was revoked, whose allocation was then removed
    and after that observed to be absent, in this order (traces are newest
    first). *)
Definition close_confirmed (tr : list (event eff)) (c : CloseRecord) : Prop :=
  ∃ ctx1 source at_ ctx2 ctx3 o,
    [Ev (EObserve ctx3 (terminalReceipt (cl_Receipt c))) (Ok o); Ev (ECleanup ctx2 (terminalReceipt (cl_Receipt c))) (Ok ());
     Ev (ERevokeHandoff ctx1 source at_) (Ok ())] `sublist_of` tr ∧
    or_OperationID (rc_Request source) = cl_SourceOpenOperationID c ∧
    on_Receipt o = terminalReceipt (cl_Receipt c) ∧ on_State o = ObservationAbsent.

(** The handoff of the record is what the registrar answered for this operation. *)
Definition handoff_known (tr : list (event eff)) (r : Record_) : Prop :=
  ∃ ctx source e, Ev (ERegisterHandoff ctx source) (Ok e) ∈ tr ∧
    or_OperationID (rc_Request source) = or_OperationID (rc_Request r) ∧ rc_Handoff r = Some (handoff_of (rc_Request r) e).

(** ** The rule *)

Definition rule (trusting : bool) (tr : list (event eff)) (X : Type) (e : eff X) : Prop :=
  match e with
  | EPanic => False
  | EAllocate _ a => ∃ r, known tr r ∧ rc_Status r = StatusAccepted ∧ a = allocation_identity r
  | EAttachAllocation _ receipt =>
      ∃ ctx a rc, Ev (EAllocate ctx a) (Ok rc) ∈ tr ∧ Matches rc (an_Request a) ∧ receipt = sessionReceipt rc
  | EObserveAllocation _ _ obs =>
      av_State obs = AllocationRunning →
      ∃ ctx o, Ev (EObserve ctx (terminalReceipt (av_Receipt obs))) (Ok o) ∈ tr ∧ obs = sessionObservation o
  | EUpdateOpenAt _ r _ _ => rc_Status r = StatusSucceeded → trusting = true ∨ handoff_known tr r
  | EUpdateClose _ c _ => cl_Status c = StatusSucceeded → close_confirmed tr c
  | ECleanup _ rc => cleanup_known tr (sessionReceipt rc)
  | _ => True
  end.

(** What the answers are in every state of the repository. *)
Definition shows (X : Type) (e : eff X) : X → Prop :=
  match e in eff X return X → Prop with
  | EReserveOpen _ rq _ => λ x, match x with Ok v => rc_Request (rv_Record v) = rq | Err _ => True end
  | EGetOpenAt _ id _ => λ x, match x with Ok r => or_OperationID (rc_Request r) = id | Err _ => True end
  | EObserveAllocation _ _ obs => λ x,
      match x with
      | Ok r => rc_Allocation r = Some obs ∧ (av_State obs = AllocationAbsent ∨ av_State obs = AllocationExpired → rc_Status r = StatusFailed)
      | Err _ => True
      end
  | _ => λ _, True
  end.
Definition plausible (X : Type) (e : eff X) (x : X) : Prop :=
  (∀ r, r ∈ seen (Ev e x) → persistable r) ∧ shows X e x.

(** *** Growing traces *)

Lemma known_mono tr tr' r : tr ⊆ tr' → known tr r → known tr' r.
Proof. intros Hs (ev & ? & ?). exists ev. auto. Qed.
Lemma known_close_mono tr tr' c : tr ⊆ tr' → known_close tr c → known_close tr' c.
Proof. intros Hs (ev & ? & ?). exists ev. auto. Qed.
Lemma session_over_mono tr tr' r : tr ⊆ tr' → session_over tr r → session_over tr' r.
Proof. intros Hs [?|[?|(? & now & ? & ?)]]; [by left|by right; left|right; right]. split; [done|]. exists now. auto. Qed.
Lemma revoked_mono tr tr' c : tr ⊆ tr' → revoked tr c → revoked tr' c.
Proof. intros Hs (ctx & src & at_ & ? & ?). exists ctx, src, at_. auto. Qed.
Lemma cleanup_known_mono tr tr' rc : tr ⊆ tr' → cleanup_known tr rc → cleanup_known tr' rc.
Proof.
  intros Hs [(r & ? & ? & ?)|(c & ? & ? & ? & ?)]; [left; exists r|right; exists c];
    split_and!; eauto using known_mono, session_over_mono, known_close_mono, revoked_mono.
Qed.
Lemma handoff_known_mono tr tr' r : tr ⊆ tr' → handoff_known tr r → handoff_known tr' r.
Proof. intros Hs (ctx & src & e & ? & ? & ?). exists ctx, src, e. auto. Qed.

Lemma known_here ev tr r : r ∈ seen ev → known (ev :: tr) r.
Proof. intros Hr. exists ev. split; [left|done]. Qed.
Lemma known_close_here ev tr c : c ∈ seen_closes ev → known_close (ev :: tr) c.
Proof. intros Hr. exists ev. split; [left|done]. Qed.

(** ** The methods follow the rule *)

(** [post P] holds of a failure, and of a value that satisfies [P]. *)
Definition post {A} (P : A → list (event eff) → Prop) (x : result A) (tr : list (event eff)) : Prop :=
  match x with Ok a => P a tr | Err _ => True end.

Definition good (tr : list (event eff)) (r : Record_) : Prop := known tr r ∧ persistable r.

Lemma good_mono tr tr' r : tr ⊆ tr' → good tr r → good tr' r.
Proof. intros Hs [? ?]. split; [by eapply known_mono|done]. Qed.

Lemma suffix_subseteq {A} (l k : list A) : l `suffix_of` k → l ⊆ k.
Proof. intros [l' ->] x. set_solver. Qed.

Lemma open_status_spec s : open_status s = true ↔ s = StatusAccepted ∨ s = StatusRunning.
Proof. destruct s; cbn; naive_solver. Qed.

(** A valid status that is not open is terminal. *)
Lemma closed_terminal s : Status_valid s = true → open_status s = false → Status_terminal s = true.
Proof. by destruct s. Qed.

Lemma persistable_status r : persistable r → Status_valid (rc_Status r) = true.
Proof. intros [(_ & _ & _ & ? & _)%Record_Validate_spec _]. done. Qed.

Section methods.
Context (trusting : bool).
Abbreviation obeys := (follows (rule trusting) plausible).

Lemma follows_grows {A} (p : prog A) tr Q : obeys p tr Q → obeys p tr (λ a tr', tr `suffix_of` tr' ∧ Q a tr').
Proof.
  assert (Hgen : ∀ tr0, tr0 `suffix_of` tr → obeys p tr Q → obeys p tr (λ a tr', tr0 `suffix_of` tr' ∧ Q a tr')); [|by apply Hgen].
  revert tr. induction p as [a|X e k IH]; intros tr tr0 Hs; cbn; [done|].
  intros [Hr Hk]. split; [done|]. intros x Hx. apply IH; [|by apply Hk]. by apply suffix_cons_r.
Qed.

Lemma obeys_then {A B} (p : prog A) (f : A → prog B) tr P Q :
  obeys p tr P → (∀ a tr', tr `suffix_of` tr' → P a tr' → obeys (f a) tr' Q) → obeys (p ≫= f) tr Q.
Proof.
  intros Hp Hf. apply follows_bind. eapply follows_mono; [|by apply follows_grows]. intros a tr' [? ?]. by apply Hf.
Qed.

Lemma session_obeys_orelse {A B} (m : prog (result A)) (z : goerr → prog B) (k : A → prog B) tr P Q :
  obeys m tr (post P) → (∀ e tr', tr `suffix_of` tr' → obeys (z e) tr' Q) →
  (∀ a tr', tr `suffix_of` tr' → P a tr' → obeys (k a) tr' Q) → obeys (orelse m z k) tr Q.
Proof. intros Hm Hz Hk. eapply obeys_then; [exact Hm|]. intros [a|e] tr' Hs Hp; auto. Qed.

Lemma obeys_try {A B} (m : prog (result A)) (k : A → prog (result B)) tr P Q :
  obeys m tr (post P) → (∀ a tr', tr `suffix_of` tr' → P a tr' → obeys (k a) tr' (post Q)) →
  obeys (orelse m failed k) tr (post Q).
Proof. intros Hm Hk. eapply session_obeys_orelse; [exact Hm|done|exact Hk]. Qed.

(** A call the rule says nothing about, when nothing is needed of its answer. *)
Lemma obeys_now {B} (k : Time → prog B) tr Q :
  (∀ now tr', tr `suffix_of` tr' → Ev ENow now ∈ tr' → obeys (k now) tr' Q) → obeys (x ← call ENow; k x) tr Q.
Proof. intros Hk. cbn. split; [done|]. intros now _. apply Hk; [by apply suffix_cons_r|left]. Qed.

Lemma obeys_monotonicNow {B} floor (k : Time → prog B) tr Q :
  (∀ now tr', tr `suffix_of` tr' → obeys (k now) tr' Q) → obeys (x ← monotonicNow floor; k x) tr Q.
Proof. intros Hk. cbn. split; [done|]. intros now _. apply Hk. by apply suffix_cons_r. Qed.

Context (v : Vertical).

(** What [ready] checks of the profile. *)
Definition in_workspace : Prop := tp_WorkingDirectory (v_profile v) = "/workspace".

Lemma obeys_contextError ctx tr : obeys (contextError ctx) tr (post (λ _ _, True)).
Proof. destruct ctx; cbn; [done|..]; (split; [done|]); by intros [] _. Qed.

Lemma obeys_ready ctx tr : obeys (ready v ctx) tr (post (λ _ _, in_workspace)).
Proof.
  unfold ready. case_decide as Hd; [done|]. eapply follows_mono; [|apply obeys_contextError].
  intros [[]|] tr' _; cbn; [|done]. split_guards. unfold TerminalProfile_validate in *.
  match goal with H : _ = Ok () |- _ => apply guard_Ok in H as [H _] end. split_guards. done.
Qed.

Lemma obeys_getOpen ctx id tr : obeys (getOpen ctx id) tr (post (λ r tr', good tr' r ∧ or_OperationID (rc_Request r) = id)).
Proof.
  apply obeys_now. intros now tr1 _ _. cbn. split; [done|]. intros [r|] [Hp Hr]; cbn in *; [|done].
  split; [|done]. split; [apply known_here; set_solver|apply Hp; set_solver].
Qed.

Lemma obeys_synchronizeAndReserve ctx request now tr :
  obeys (synchronizeAndReserve v ctx request now) tr
    (post (λ rv tr', good tr' (rv_Record rv) ∧ rc_Request (rv_Record rv) = request)).
Proof.
  unfold synchronizeAndReserve. apply (obeys_try _ _ _ (λ _ _, True)); [cbn; split; [done|]; by intros []|].
  intros sandbox tr1 _ _. destruct (Sandbox_Validate sandbox); [|done]. do 2 (case_decide; [done|]).
  apply (obeys_try _ _ _ (λ _ _, True)); [cbn; split; [done|]; by intros []|]. intros [] tr2 _ _. cbn. split; [done|].
  intros [rv|] [Hp Hr]; cbn in *; [|done]. split; [|done]. split; [apply known_here; set_solver|apply Hp; set_solver].
Qed.

Lemma obeys_persistStatus ctx record status at_ tr :
  status = StatusFailed ∨ status = StatusOutcomeUnknown → good tr record →
  obeys (persistStatus ctx record status at_) tr
    (post (λ r tr', good tr' r ∧ (open_status (rc_Status record) = true → rc_Status r = status ∧ rc_Allocation r = rc_Allocation record))).
Proof.
  intros Hst Hg. unfold persistStatus. destruct (open_status (rc_Status record)) eqn:Eo; cbn [negb]; [|done].
  destruct (Transition _ _ _ _) as [updated|] eqn:Et; [|done].
  assert (rc_Status updated = status ∧ rc_Allocation updated = rc_Allocation record) as [Hs Ha].
  { apply Transition_Ok in Et as (_ & [[-> Heq]|(_ & _ & _ & _ & _ & -> & _)]); [|done].
    apply open_status_spec in Eo. destruct Hst as [-> | ->], Eo; congruence. }
  apply (obeys_try _ _ _ (λ _ tr', good tr' updated)); [|by intros [] tr1 _ ?; cbn].
  cbn. split; [intros Hs'; destruct Hst; congruence|]. intros [[]|] [Hp _]; cbn in *; [|done].
  split; [apply known_here; set_solver|apply Hp; set_solver].
Qed.

(** Cleaning up after a record of a session that is over. *)
Lemma obeys_cleanup {B} ctx r a (k : unit → prog (result B)) tr Q :
  known tr r → rc_Allocation r = Some a → session_over tr r →
  (∀ u tr', tr `suffix_of` tr' → obeys (k u) tr' (post Q)) →
  obeys (orelse (call (ECleanup ctx (terminalReceipt (av_Receipt a)))) failed k) tr (post Q).
Proof.
  intros Hk Ha Ho Hc. cbn. split.
  - rewrite session_terminal_receipt. left. exists r. by rewrite Ha.
  - intros [[]|] _; [|done]. apply Hc. by apply suffix_cons_r.
Qed.

Lemma obeys_cleanupTerminal ctx record tr :
  good tr record → open_status (rc_Status record) = false →
  obeys (cleanupTerminal ctx record) tr (post (λ r tr', good tr' r)).
Proof.
  intros Hg Ho. unfold cleanupTerminal. destruct (rc_Allocation record) as [a|] eqn:Ea; [|done].
  apply obeys_now. intros now tr1 Hs1 Hnow. apply (good_mono _ tr1) in Hg; [|by apply suffix_subseteq].
  case_decide as Hd; [|done]. eapply obeys_cleanup; [apply Hg|done| |].
  - destruct Hd as [?|[?|Hexp]]; [by left|by right; left|right; right]. split.
    + apply closed_terminal; [by apply persistable_status, Hg|done].
    + exists now. split; [done|]. unfold After in Hexp. lia.
  - intros [] tr2 Hs2. cbn. eapply good_mono; [by apply suffix_subseteq|done].
Qed.

Lemma obeys_invalidate ctx record now tr :
  good tr record → open_status (rc_Status record) = true →
  obeys (invalidate ctx record now) tr (post (λ r tr', good tr' r)).
Proof.
  intros Hg Ho. unfold invalidate. eapply obeys_try; [apply obeys_persistStatus; [by left|done]|].
  intros updated tr1 Hs1 [Hgu Hu]. destruct (Hu Ho) as [Hst Hal]. destruct (rc_Allocation record) as [a|] eqn:Ea; [|done].
  eapply obeys_cleanup; [apply Hgu|congruence|by left|].
  intros [] tr2 Hs2. cbn. eapply good_mono; [by apply suffix_subseteq|done].
Qed.

Lemma obeys_expire ctx record now tr :
  good tr record → obeys (expire ctx record now) tr (post (λ r tr', good tr' r)).
Proof.
  intros Hg. unfold expire. destruct (rc_Allocation record) as [a|] eqn:Ea.
  - apply (obeys_try _ _ _ (λ r tr', good tr' r ∧ av_Receipt <$> rc_Allocation r = Some (av_Receipt a) ∧ rc_Status r = StatusFailed)).
    + cbn. split; [done|]. intros [r|] [Hp Hrs]; cbn in *; [destruct Hrs as [Hr Hs]|done].
      split; [split; [apply known_here; set_solver|apply Hp; set_solver]|]. rewrite Hr. auto.
    + intros r tr1 Hs1 (Hgr & Hrc & Hst). destruct (rc_Allocation r) as [b|] eqn:Eb; [|done].
      injection Hrc as <-. eapply obeys_cleanup; [apply Hgr|done|by left|].
      intros [] tr2 Hs2. cbn. eapply good_mono; [by apply suffix_subseteq|done].
  - eapply follows_mono; [|apply obeys_persistStatus; [by left|done]]. intros [r|] tr1; cbn; [|done]. by intros [? _].
Qed.

(** What is recorded of an observation: running only when the runtime said so. *)
Lemma obeys_observation_of {B} ctx receipt floor answer (k : Observation → prog B) tr Q :
  Ev (EObserve ctx receipt) answer ∈ tr →
  (∀ o tr', tr `suffix_of` tr' → on_Receipt o = receipt → (on_State o = ObservationRunning → answer = Ok o) → obeys (k o) tr' Q) →
  obeys (o ← observation_of receipt floor answer; k o) tr Q.
Proof.
  intros Hin Hk. unfold observation_of.
  assert (Hcheck : ∀ o tr', tr `suffix_of` tr' → (on_State o = ObservationRunning → answer = Ok o) →
    obeys (o' ← (if decide (is_ok (Observation_Validate o) = false ∨ on_Receipt o ≠ receipt ∨ Before (on_ObservedAt o) floor)
                 then now ← monotonicNow floor; Ret (mkTerminalObservation receipt ObservationOutcomeUnknown now)
                 else Ret o); k o') tr' Q).
  { intros o tr' Hs Ho. case_decide as Hd.
    - cbn. split; [done|]. intros now _. apply Hk; [by apply suffix_cons_r|done|done].
    - split_guards. by apply Hk. }
  destruct answer as [o|e]; [by apply Hcheck|]. cbn. split; [done|]. intros now _.
  apply Hcheck; [by apply suffix_cons_r|]. cbn. do 2 (destruct (errors_is _ _); [done|]). done.
Qed.

Lemma gone_spec r : gone r = true → ∃ a, rc_Allocation r = Some a ∧ (av_State a = AllocationAbsent ∨ av_State a = AllocationExpired).
Proof. unfold gone. destruct (rc_Allocation r) as [a|]; [|done]. destruct (av_State a) eqn:E; try done; eauto. Qed.

Lemma observed_running s : observed_state s = AllocationRunning → s = ObservationRunning.
Proof. by destruct s. Qed.

Lemma obeys_observe ctx record tr :
  good tr record → rc_Status record = StatusRunning → obeys (observe ctx record) tr (post (λ r tr', good tr' r)).
Proof.
  intros [Hk [Hv Hp]] Hst. apply validatePersistedRecord_spec in Hp. rewrite Hst in Hp. destruct Hp as (a & Ha & _).
  unfold observe. rewrite Ha. cbn [mbind prog_bind prog_bind_def call follows]. split; [done|]. intros answer _.
  eapply (obeys_observation_of ctx); [left|]. intros o tr1 Hs1 Hrc Hrun.
  apply (obeys_try _ _ _ (λ r tr', good tr' r ∧ rc_Allocation r = Some (sessionObservation o) ∧ (gone r = true → rc_Status r = StatusFailed))).
  - cbn. split.
    + intros Hr%observed_running. exists ctx, o. split; [|done]. rewrite terminal_session_receipt, Hrc, <- (Hrun Hr).
      apply (suffix_subseteq _ _ Hs1). left.
    + intros [r|] [Hp Hrs]; cbn in *; [destruct Hrs as [Hr Hs]|done]. split; [split; [apply known_here; set_solver|apply Hp; set_solver]|].
      split; [done|]. intros (b & Hb & Hg)%gone_spec. rewrite Hr in Hb. injection Hb as <-. auto.
  - intros r tr2 Hs2 (Hgr & Hal & Hgone). destruct (gone r); [|done].
    assert (terminalReceipt (av_Receipt a) = terminalReceipt (av_Receipt (sessionObservation o))) as ->.
    { cbn. by rewrite terminal_session_receipt. }
    eapply obeys_cleanup; [apply Hgr|done|left; auto|].
    intros [] tr3 Hs3. cbn. eapply good_mono; [by apply suffix_subseteq|done].
Qed.

Lemma obeys_allocate ctx record tr :
  in_workspace → good tr record → rc_Status record = StatusAccepted → obeys (allocate v ctx record) tr (post (λ r tr', good tr' r)).
Proof.
  intros Hwd Hg Hst.
  assert (Hfin : ∀ status tr1, status = StatusFailed ∨ status = StatusOutcomeUnknown → tr `suffix_of` tr1 →
    obeys (now ← monotonicNow (rc_ObservedAt record); persistStatus ctx record status now) tr1 (post (λ r tr', good tr' r))).
  { intros status tr1 Hs Hsuf. apply obeys_monotonicNow. intros now tr2 Hs2.
    eapply follows_mono; [|apply obeys_persistStatus; [done|]].
    - intros [r|] tr3; cbn; [|done]. by intros [? _].
    - eapply good_mono; [|done]. apply suffix_subseteq. by etrans. }
  unfold allocate. case_decide as Hv; [apply Hfin; [by left|done]|].
  cbn [mbind prog_bind prog_bind_def call follows]. split.
  { exists record. split_and!; [apply Hg|done|]. unfold allocation_of. by rewrite Hwd. }
  intros [receipt|e] _; [|apply Hfin; [destruct (knownAllocationFailure e); auto|by apply suffix_cons_r]].
  case_decide as Hrc; [apply Hfin; [by right|by apply suffix_cons_r]|]. split_guards.
  cbn [follows]. split; [eexists _, _, _; split_and!; [left|done..]|].
  intros [rv|] [Hp _]; cbn in *; [|done]. split; [apply known_here; set_solver|apply Hp; set_solver].
Qed.

Lemma obeys_progress ctx record tr : in_workspace → good tr record → obeys (progress v ctx record) tr (post (λ r tr', good tr' r)).
Proof.
  intros Hwd Hg. unfold progress. destruct (open_status (rc_Status record)) eqn:Eo; cbn [negb]; [|by apply obeys_cleanupTerminal].
  apply obeys_now. intros now tr1 Hs1 _. apply (good_mono _ tr1) in Hg; [|by apply suffix_subseteq].
  case_decide; [done|]. case_decide; [by apply obeys_expire|].
  eapply obeys_then; [apply obeys_synchronizeAndReserve|]. intros [rv|e] tr2 Hs2 Hrv.
  - destruct Hrv as [Hgr _]. destruct (rc_Status (rv_Record rv)) eqn:Est; try done; [by apply obeys_allocate|by apply obeys_observe].
  - destruct (authorityInvalid e); [|done]. apply obeys_invalidate; [|done]. eapply good_mono; [by apply suffix_subseteq|done].
Qed.

Lemma Transition_handoff r t e r' :
  Transition r StatusSucceeded t (Some e) = Ok r' → rc_Status r ≠ StatusSucceeded →
  rc_Request r' = rc_Request r ∧ rc_Handoff r' = Some (handoff_of (rc_Request r) e).
Proof.
  unfold Transition, refuse. intros H Hne. inv_ok H. rewrite decide_False in H by done. inv_ok H.
  rewrite decide_False in H by naive_solver. inv_ok H. done.
Qed.

Lemma running_allocation_status r a : running_allocation r = Some a → rc_Status r = StatusRunning.
Proof. unfold running_allocation. by destruct (rc_Status r). Qed.

Lemma obeys_CommitHandoff ctx id evidence tr :
  trusting = true ∨ (∃ ctx' source, Ev (ERegisterHandoff ctx' source) (Ok evidence) ∈ tr ∧ or_OperationID (rc_Request source) = id) →
  obeys (CommitHandoff v ctx id evidence) tr (post (λ _ _, True)).
Proof.
  intros Hev. unfold CommitHandoff. eapply obeys_try; [apply obeys_ready|]. intros [] tr1 Hs1 _.
  eapply obeys_try; [apply obeys_getOpen|]. intros record tr2 Hs2 [Hg Hid].
  destruct (running_allocation record); [|done]. case_decide; [done|]. apply obeys_now. intros now tr3 Hs3 _.
  eapply obeys_try; [apply obeys_synchronizeAndReserve|]. intros rv tr4 Hs4 [Hgr Hreq].
  destruct (running_allocation (rv_Record rv)) eqn:Er; [|done]. apply running_allocation_status in Er.
  destruct (Transition _ _ _ _) as [succeeded|] eqn:Et; [|done].
  apply Transition_handoff in Et as [Hq Hh]; [|by rewrite Er].
  apply (obeys_try _ _ _ (λ _ _, True)); [|intros [] tr5 _ _; cbn; by destruct (operationProjection _)].
  cbn. split; [|by intros []]. intros _. destruct Hev as [?|(ctx' & source & Hin & Hop)]; [by left|right].
  exists ctx', source, evidence. split_and!.
  - apply (suffix_subseteq tr); [|done]. repeat (etrans; [eassumption|]). done.
  - congruence.
  - by rewrite Hq.
Qed.

Lemma obeys_completeHandoff ctx record tr :
  good tr record → obeys (completeHandoff v ctx record) tr (post (λ r tr', good tr' r)).
Proof.
  intros Hg. unfold completeHandoff. case_decide; [done|].
  apply (obeys_try _ _ _ (λ e tr', Ev (ERegisterHandoff ctx record) (Ok e) ∈ tr')).
  - cbn. split; [done|]. intros [e|] _; cbn; [left|done].
  - intros e tr1 Hs1 Hin. eapply obeys_try; [apply obeys_CommitHandoff; right; eauto|]. intros op tr2 Hs2 _.
    eapply follows_mono; [|apply obeys_getOpen]. intros [r|] tr3; cbn; [|done]. by intros [? _].
Qed.

Lemma obeys_advance ctx record tr : in_workspace → good tr record → obeys (advance v ctx record) tr (post (λ _ _, True)).
Proof.
  intros Hwd Hg. unfold advance. eapply obeys_try; [by apply obeys_progress|]. intros r tr1 Hs1 Hgr.
  eapply obeys_try; [by apply obeys_completeHandoff|]. intros r2 tr2 Hs2 _. cbn. by destruct (operationProjection r2).
Qed.

(** *** Closing *)

Lemma TransitionClose_Ok c status at_ c' :
  TransitionClose c status at_ = Ok c' →
  cl_Receipt c' = cl_Receipt c ∧ cl_SourceOpenOperationID c' = cl_SourceOpenOperationID c ∧ cl_Status c' = status.
Proof.
  unfold TransitionClose, refuse. intros H. inv_ok H. case_decide; [by simplify_eq|]. crack H. done.
Qed.

Lemma close_confirmed_same tr c c' :
  cl_Receipt c' = cl_Receipt c → cl_SourceOpenOperationID c' = cl_SourceOpenOperationID c → close_confirmed tr c → close_confirmed tr c'.
Proof. unfold close_confirmed. by intros -> ->. Qed.

Lemma close_confirmed_mono tr tr' c : tr `suffix_of` tr' → close_confirmed tr c → close_confirmed tr' c.
Proof.
  intros [l ->] (ctx1 & src & at_ & ctx2 & ctx3 & o & Hsub & ?). exists ctx1, src, at_, ctx2, ctx3, o.
  split; [by apply sublist_inserts_l|done].
Qed.

Lemma obeys_finishClose ctx c status immutable tr :
  (status = StatusSucceeded → close_confirmed tr c) → obeys (finishClose ctx c status immutable) tr (post (λ _ _, True)).
Proof.
  intros Hc. unfold finishClose. destruct immutable; [done|]. apply obeys_monotonicNow. intros now tr1 Hs1.
  destruct (TransitionClose _ _ _) as [c'|] eqn:Et; [|done]. apply TransitionClose_Ok in Et as (Hr & Hsrc & Hst).
  apply (obeys_try _ _ _ (λ _ _, True)); [|done]. cbn. split; [|by intros []]. rewrite Hst. intros Hs.
  eapply close_confirmed_same, close_confirmed_mono; eauto.
Qed.

Lemma obeys_begin_close ctx c tr :
  known_close tr c →
  obeys (begin_close ctx c) tr (post (λ c' tr', known_close tr' c' ∧ (cl_Status c' = cl_Status c ∨ cl_Status c' = StatusRunning))).
Proof.
  intros Hk. unfold begin_close. case_decide; [cbn; auto|]. apply obeys_monotonicNow. intros now tr1 Hs1.
  destruct (TransitionClose _ _ _) as [c'|] eqn:Et; [|done]. apply TransitionClose_Ok in Et as (_ & _ & Hst).
  apply (obeys_try _ _ _ (λ _ tr', known_close tr' c')); [|intros [] tr2 _ ?; cbn; auto].
  cbn. split; [by rewrite Hst|]. intros [[]|] _; cbn; [|done]. apply known_close_here. set_solver.
Qed.

Lemma obeys_remove_allocation ctx c ctx' source at_ tr :
  known_close tr c → cl_Status c = StatusRunning → Ev (ERevokeHandoff ctx' source at_) (Ok ()) ∈ tr →
  or_OperationID (rc_Request source) = cl_SourceOpenOperationID c →
  obeys (remove_allocation ctx c) tr (post (λ _ _, True)).
Proof.
  intros Hk Hst Hrev Hsrc. unfold remove_allocation. cbn [mbind prog_bind prog_bind_def call follows]. split.
  { cbn [rule]. rewrite session_terminal_receipt. right. exists c. split_and!; try done. by exists ctx', source, at_. }
  intros [[]|e] _; [|by apply obeys_finishClose; unfold cleanup_status; destruct (_ || _)].
  cbn [follows]. split; [done|]. intros [o|e] _; [|by apply obeys_finishClose].
  case_decide as Hd; [by apply obeys_finishClose|]. split_guards. apply obeys_finishClose. intros _.
  exists ctx', source, at_, ctx, ctx, o. split; [|done]. do 2 apply sublist_skip. by apply singleton_sublist_l.
Qed.

Lemma obeys_retainedOpen ctx id tr : obeys (retainedOpen ctx id) tr (post (λ r _, or_OperationID (rc_Request r) = id)).
Proof.
  unfold retainedOpen. apply (obeys_try _ _ _ (λ _ _, True)); [cbn; split; [done|]; by intros []|]. intros l tr1 _ _.
  destruct (list_find _ l) as [[i r]|] eqn:E; [|done]. apply list_find_Some in E as (_ & ? & _). done.
Qed.

Lemma obeys_progressClose ctx c tr : known_close tr c → obeys (progressClose ctx c) tr (post (λ _ _, True)).
Proof.
  intros Hk. unfold progressClose. eapply obeys_try; [by apply obeys_begin_close|]. intros c' tr1 Hs1 [Hk' Hst].
  case_bool_decide as Hrun.
  all: cbn [negb andb]. all: case_bool_decide as Hu; cbn [negb andb]; try done.
  all: eapply obeys_then; [apply obeys_retainedOpen|]; intros [source|] tr2 Hs2 Hsrc; [|by apply obeys_finishClose].
  all: apply obeys_monotonicNow; intros now tr3 Hs3; cbn [mbind prog_bind prog_bind_def call follows]; split; [done|].
  all: intros [[]|] _; [|by apply obeys_finishClose].
  - cbn. split; [done|]. by intros [].
  - eapply obeys_remove_allocation; [|done|left|done]. eapply known_close_mono; [|done].
    apply suffix_subseteq, suffix_cons_r. by etrans.
  - cbn. split; [done|]. by intros [].
Qed.

Lemma obeys_readyClose ctx tr : obeys (readyClose v ctx) tr (post (λ _ _, in_workspace)).
Proof.
  unfold readyClose. eapply obeys_try; [apply obeys_ready|]. intros [] tr1 _ ?. by destruct (_ && _).
Qed.

Lemma obeys_CloseRuntimeSession ctx request tr : obeys (CloseRuntimeSession v ctx request) tr (post (λ _ _, True)).
Proof.
  unfold CloseRuntimeSession. eapply obeys_try; [apply obeys_readyClose|]. intros [] tr1 _ _. apply obeys_now. intros now tr2 _ _.
  destruct (CloseRequest_Validate _ _); [|done].
  apply (obeys_try _ _ _ (λ _ _, True)).
  { unfold synchronizeCloseAuthority. apply (obeys_try _ _ _ (λ _ _, True)); [cbn; split; [done|]; by intros []|].
    intros sandbox tr3 _ _. destruct (Sandbox_Validate sandbox); [|done]. case_decide; [done|]. cbn. split; [done|]. by intros []. }
  intros [] tr3 _ _. apply (obeys_try _ _ _ (λ cv tr', known_close tr' (cv_Record cv))).
  { cbn. split; [done|]. intros [cv|] _; cbn; [|done]. apply known_close_here. set_solver. }
  intros cv tr4 _ Hk. eapply obeys_try; [by apply obeys_progressClose|]. intros c tr5 _ _. cbn. by destruct (closeOperationProjection c).
Qed.

(** *** Recovery *)

Lemma obeys_recover_closes ctx records results tr :
  Forall (known_close tr) records → obeys (recover_closes ctx records results) tr (λ _ _, True).
Proof.
  revert results tr. induction records as [|c records IH]; intros results tr Hr; [done|]. apply Forall_cons in Hr as [Hc Hr].
  assert (Hgo : obeys (updated ← progressClose ctx c;
      match updated with
      | Err e => Ret (results, Some e)
      | Ok updated => match closeOperationProjection updated with
                      | Err e => Ret (results, Some e)
                      | Ok projected => recover_closes ctx records (results ++ [projected])
                      end
      end) tr (λ _ _, True)).
  { eapply obeys_then; [by apply obeys_progressClose|]. intros [c'|e] tr1 Hs1 _; [|done].
    destruct (closeOperationProjection c'); [|done]. apply IH. eapply Forall_impl; [done|]. intros c0 ?.
    eapply known_close_mono; [by apply suffix_subseteq|done]. }
  cbn. destruct (cl_Status c); auto.
Qed.

Lemma obeys_recoverCloses ctx tr : obeys (recoverCloses v ctx) tr (λ _ _, True).
Proof.
  unfold recoverCloses. eapply session_obeys_orelse; [apply obeys_readyClose|done|]. intros [] tr1 _ _.
  apply (session_obeys_orelse _ _ _ _ (λ l tr', Forall (known_close tr') l)); [|done|].
  - cbn. split; [done|]. intros [l|] _; cbn; [|done]. apply Forall_forall. intros c Hc. by apply known_close_here.
  - intros l tr2 _ Hl. by apply obeys_recover_closes.
Qed.
End methods.

Section recovery.
Context (trusting : bool) (v : Vertical).
Abbreviation obeys := (follows (rule trusting) plausible).

Lemma obeys_recover_opens ctx records results tr :
  in_workspace v → Forall (good tr) records →
  obeys (recover_opens v ctx records results) tr (λ _ _, True).
Proof.
  intros Hwd. revert results tr. induction records as [|r records IH]; intros results tr Hr; [done|]. apply Forall_cons in Hr as [Hg Hr].
  assert (Hrest : ∀ results tr', tr `suffix_of` tr' → obeys (recover_opens v ctx records results) tr' (λ _ _, True)).
  { intros results' tr' Hs. apply IH. eapply Forall_impl; [done|]. intros r0 ?. eapply good_mono; [by apply suffix_subseteq|done]. }
  cbn. destruct (open_status (rc_Status r)) eqn:Eo; cbn [negb].
  - eapply session_obeys_orelse; [by apply obeys_advance|done|auto].
  - eapply session_obeys_orelse; [by apply obeys_cleanupTerminal|done|auto].
Qed.

Lemma session_obeys_Recover ctx tr : obeys (Recover v ctx) tr (λ _ _, True).
Proof.
  unfold Recover. eapply session_obeys_orelse; [apply obeys_ready|done|]. intros [] tr1 _ Hwd.
  apply (session_obeys_orelse _ _ _ _ _ (λ l tr', Forall (good tr') l)); [|done|].
  - cbn. split; [done|]. intros [l|] [Hp _]; cbn in *; [|done]. apply Forall_forall. intros r Hr. split; [by apply known_here|auto].
  - intros l tr2 _ Hl. eapply obeys_then; [by apply obeys_recover_opens|]. intros [results [e|]] tr3 _ _; [done|].
    destruct (_ && _); [|done]. apply (obeys_then _ _ _ _ (λ _ _, True)); [apply obeys_recoverCloses|by intros [] tr4 _ _].
Qed.

Lemma obeys_application_read ctx id tr : obeys (application_read v ctx id) tr (post (λ _ _, True)).
Proof.
  unfold application_read. destruct (application_ready v ctx); [done|]. apply obeys_now. intros now tr1 _ _.
  case_decide; [done|]. apply (obeys_try _ _ _ _ (λ _ _, True)); [|done]. cbn. split; [done|]. by intros [].
Qed.

Lemma obeys_GetOperation ctx id tr : obeys (GetOperation v ctx id) tr (post (λ _ _, True)).
Proof.
  unfold GetOperation. eapply (obeys_then _ _ _ _ (λ _ _, True)).
  - unfold application_GetOperation. eapply follows_mono; [|eapply (obeys_try _ _ _ _ _ (λ _ _, True)); [apply obeys_application_read|]]; [done|].
    intros found tr1 _ _. cbn. by destruct (operationProjection _).
  - intros [op|e] tr1 _ _; [done|]. destruct (errors_is _ _); [|done]. destruct (v_closeAuthority v); [|done]. cbn [negb].
    apply (obeys_try _ _ _ _ (λ _ _, True)); [cbn; split; [done|]; by intros []|]. intros c tr2 _ _. cbn.
    by destruct (closeOperationProjection c).
Qed.

Lemma session_obeys_api a : (trusting = false → ¬ hands_in_evidence a) → obeys (api_prog v a) [] (λ _ _, True).
Proof.
  intros Ha. destruct a; (eapply (obeys_then _ _ _ _ (λ _ _, True)); [|done]).
  - eapply follows_mono; [|eapply (obeys_try _ _ _ _ _ (λ _ _, True)); [apply obeys_ready|]]; [done|]. intros [] tr1 _ Hwd.
    apply obeys_now. intros now tr2 _ _. destruct (OpenRequest_Validate _ _); [|done].
    eapply obeys_try; [apply obeys_synchronizeAndReserve|]. intros rv tr3 _ [Hg _]. by apply obeys_advance.
  - unfold application_Open. destruct (application_ready v ctx); [done|]. apply obeys_now. intros now tr1 _ _.
    destruct (OpenRequest_Validate _ _); [|done]. cbn. split; [done|]. by intros [rv|] _.
  - eapply follows_mono; [|eapply (obeys_try _ _ _ _ _ (λ _ _, True)); [apply obeys_ready|]]; [done|]. intros [] tr1 _ Hwd.
    eapply obeys_try; [apply obeys_getOpen|]. intros r tr2 _ [Hg _]. by apply obeys_advance.
  - apply session_obeys_Recover.
  - eapply follows_mono; [|apply obeys_CommitHandoff]; [done|]. destruct trusting; [by left|]. destruct Ha; done.
  - eapply follows_mono; [|apply obeys_CloseRuntimeSession]. done.
  - eapply follows_mono; [|eapply (obeys_try _ _ _ _ _ (λ _ _, True)); [apply obeys_application_read|]]; [done|].
    intros found tr1 _ _. cbn. by destruct (handoff_at _ _).
  - eapply follows_mono; [|apply obeys_GetOperation]. done.
Qed.
End recovery.
