(* ===== verification/SessionPoolGuarantees.v ===== *)
(** * Guarantees of the session application

    What holds of every interleaving of any number of calls of the application,
    whoever crashes where. *)

From S2P Require Import Prelude Program Threads LifecycleModel SessionModel SessionState SessionInvariant SessionGuarantees SessionPorts SessionFile SessionVertical SessionConcurrency.
From stdpp Require Import base gmap strings list fin_maps relations.
From Stdlib Require Import ZArith Lia.

Local Open Scope Z_scope.

(** ** Answers and the state *)

Lemma elem_of_ListOpen s r : r ∈ ListOpen s → ∃ k, Sessions s !! k = Some r.
Proof.
  unfold ListOpen. rewrite list_elem_of_fmap. intros ([k r'] & -> & Hin). rewrite sort_by_perm in Hin.
  apply elem_of_map_to_list in Hin. eauto.
Qed.
Lemma elem_of_ListClose s c : c ∈ ListClose s → ∃ k, Closes s !! k = Some c.
Proof.
  unfold ListClose. rewrite list_elem_of_fmap. intros ([k c'] & -> & Hin). rewrite sort_by_perm in Hin.
  apply elem_of_map_to_list in Hin. eauto.
Qed.

Lemma ObserveAllocation_stored id obs s r s' : ObserveAllocation_ id obs s = Ok (r, s') → Sessions s' !! id = Some r.
Proof.
  unfold ObserveAllocation_, refuse. destruct (Sessions s !! id); [|done]. intros H. inv_ok H. cbn. by rewrite lookup_insert_eq.
Qed.
Lemma AttachAllocation_stored receipt s v s' :
  AttachAllocation_ receipt s = Ok (v, s') → Sessions s' !! al_OperationID receipt = Some (rv_Record v).
Proof.
  unfold AttachAllocation_, refuse. intros H. inv_ok H. destruct (Sessions s !! _); [|done]. inv_ok H. cbn. by rewrite lookup_insert_eq.
Qed.

(** What an answer shows is stored. *)
Lemma seen_stored {X} (e : eff X) s x s' r :
  session_wf s → session_wf s' → respond e s x s' → r ∈ seen (Ev e x) → Sessions s' !! or_OperationID (rc_Request r) = Some r.
Proof.
  intros Hs Hs' Hx Hr.
  assert (Hkey : ∀ k, Sessions s' !! k = Some r → Sessions s' !! or_OperationID (rc_Request r) = Some r).
  { intros k Hk. by destruct (sw_record s' Hs' _ _ Hk) as [-> _]. }
  destruct e; cbn in Hr; try (by apply not_elem_of_nil in Hr); destruct x as [x|]; try (by apply not_elem_of_nil in Hr);
    cbn in Hx; try apply list_elem_of_singleton in Hr; try subst.
  - apply answers_write_value, ReserveOpenAt_Ok in Hx as (_ & _ & _ & [(i & _ & ? & _ & _ & ->)|(_ & _ & _ & _ & _ & ->)]); [eauto|].
    apply (Hkey (or_OperationID rq)). cbn. by rewrite lookup_insert_eq.
  - apply answers_read_value in Hx as [Hg ->]. unfold GetOpenAt, corrupt, refuse in Hg.
    destruct (Sessions s !! id) eqn:E; [|done]. inv_ok Hg. eauto.
  - apply answers_read_value in Hx as [[= <-] ->]. apply elem_of_ListOpen in Hr as [k ?]. eauto.
  - apply answers_write_value, AttachAllocation_stored in Hx. eauto.
  - apply answers_write_value, ObserveAllocation_stored in Hx. eauto.
  - apply answers_write_value, UpdateOpenAt_Ok in Hx as (current & _ & _ & _ & _ & _ & _ & _ & ->). cbn. by rewrite lookup_insert_eq.
Qed.

Lemma seen_close_stored {X} (e : eff X) s x s' c :
  session_wf s → session_wf s' → respond e s x s' → c ∈ seen_closes (Ev e x) → Closes s' !! cr_OperationID (cl_Request c) = Some c.
Proof.
  intros Hs Hs' Hx Hr.
  assert (Hkey : ∀ k, Closes s' !! k = Some c → Closes s' !! cr_OperationID (cl_Request c) = Some c).
  { intros k Hk. by destruct (sw_close s' Hs' _ _ Hk) as [-> _]. }
  destruct e; cbn in Hr; try (by apply not_elem_of_nil in Hr); destruct x as [x|]; try (by apply not_elem_of_nil in Hr);
    cbn in Hx; try apply list_elem_of_singleton in Hr; try subst.
  - apply answers_write_value, ReserveCloseAt_Ok in Hx as (_ & _ & _ & [(i & _ & ? & _ & _ & ->)|(_ & _ & _ & _ & _ & ->)]); [eauto|].
    apply (Hkey (cr_OperationID rq)). cbn. by rewrite lookup_insert_eq.
  - apply answers_read_value in Hx as [Hg ->]. unfold GetClose, corrupt, refuse in Hg.
    destruct (Closes s !! id) eqn:E; [|done]. inv_ok Hg. eauto.
  - apply answers_write_value, UpdateCloseAt_Ok in Hx as (current & _ & _ & _ & _ & ->). cbn. by rewrite lookup_insert_eq.
  - apply answers_read_value in Hx as [[= <-] ->]. apply elem_of_ListClose in Hr as [k ?]. eauto.
Qed.

Lemma respond_shows {X} (e : eff X) s x s' : session_wf s → respond e s x s' → shows X e x.
Proof.
  intros Hs Hx. destruct e; cbn; try done; destruct x as [x|]; try done; cbn in Hx.
  - apply answers_write_value, ReserveOpenAt_Ok in Hx as (_ & _ & _ & [(i & _ & _ & Hsame & _ & _)|(_ & _ & _ & Hn & _ & _)]).
    + by apply sameOpenRequest_eq.
    + apply NewRecord_Ok in Hn as [-> _]. done.
  - apply answers_read_value in Hx as [Hg ->]. unfold GetOpenAt, corrupt, refuse in Hg.
    destruct (Sessions s !! id) eqn:E; [|done]. inv_ok Hg. by destruct (sw_record s Hs _ _ E).
  - apply answers_write_value in Hx. unfold ObserveAllocation_, refuse in Hx. destruct (Sessions s !! id); [|done]. inv_ok Hx.
    unfold ObserveAllocation, refuse in Hstep. inv_ok Hstep. destruct (rc_Allocation _); [|done]. inv_ok Hstep. cbn.
    split; [done|]. intros [Ho|Ho]; rewrite Ho in *; by simplify_eq.
Qed.

Lemma session_respond_wf trusting {X} (e : eff X) tr s x s' :
  rule trusting tr X e → session_wf s → respond e s x s' → session_wf s' ∧ plausible X e x.
Proof.
  intros Hr Hs Hx. assert (Hs' : session_wf s').
  { destruct (session_respond_state e s x s' Hx) as [-> | (op & _ & Hop)]; [done|by eapply next_state_wf]. }
  split; [done|]. split; [|by apply (respond_shows e s x s')]. intros r Hin. pose proof (seen_stored e s x s' r Hs Hs' Hx Hin) as Hst.
  by destruct (sw_record s' Hs' _ _ Hst) as (_ & ? & _).
Qed.

Lemma session_pool_obeys trusting s ts :
  pool_run trusting s ts →
  session_wf s ∧ ∀ th, th ∈ ts → lawful (rule trusting) (th_trace th) ∧
    follows (rule trusting) plausible (th_prog th) (th_trace th) (λ _ _, True).
Proof.
  intros Hrun. eapply pool_lawful; [| |apply session_wf_init|exact Hrun].
  - intros. by eapply session_respond_wf.
  - intros p (v & a & -> & Ha). by apply session_obeys_api.
Qed.

(** ** The ledger *)

(** Where the allocations and successes of the next state come from. *)
Lemma next_state_receipt op s s' k r' e' :
  session_wf s → next_state op s = Ok s' → Sessions s' !! k = Some r' → rc_Allocation r' = Some e' →
  (∃ r e, Sessions s !! k = Some r ∧ rc_Allocation r = Some e ∧ av_Receipt e = av_Receipt e') ∨
  (∃ receipt, op = OpAttachAllocation receipt ∧ av_Receipt e' = receipt).
Proof.
  intros Hs H Hk Ha. destruct op; cbn in H; apply bind_Ok in H as ([v s1] & H & [= <-]).
  - unfold PutSandboxAuthority, refuse in H. inv_ok H. destruct (Authorities s !! _); [case_decide|]; simplify_eq; left; eauto 10.
  - unfold ReplaceSandboxAuthority, refuse in H. inv_ok H. destruct (Authorities s !! _); [|done]. crack H. left; eauto 10.
  - unfold SynchronizeSandboxAuthority, refuse in H. inv_ok H. destruct (Authorities s !! _); crack H; left; eauto 10.
  - apply ReserveOpenAt_Ok in H as (_ & _ & _ & [(i & _ & _ & _ & _ & ->)|(_ & _ & _ & Hn & _ & ->)]); [left; eauto 10|].
    cbn in Hk. ins_inv Hk; [|left; eauto 10]. apply NewRecord_Ok in Hn as [Hn _]. by rewrite Hn in Ha.
  - unfold AttachAllocation_, refuse in H. inv_ok H. destruct (Sessions s !! _) as [r0|] eqn:Er; [|done]. inv_ok H.
    cbn in Hk. ins_inv Hk; [|left; eauto 10]. destruct (sw_record s Hs _ _ Er) as (_ & Hp & _).
    destruct (Attach_Ok _ _ _ Hstep1 Hp) as (_ & _ & _ & [->|(_ & Hrc & _)]); [left; eauto 10|right].
    rewrite Ha in Hrc. injection Hrc as <-. eauto.
  - unfold ObserveAllocation_, refuse in H. destruct (Sessions s !! _) as [r0|] eqn:Er; [|done]. inv_ok H.
    cbn in Hk. ins_inv Hk; [|left; eauto 10]. unfold ObserveAllocation, refuse in Hstep. inv_ok Hstep.
    destruct (rc_Allocation r0) as [a|] eqn:Ea; [|done]. inv_ok Hstep. cbn in Ha. simplify_eq. split_guards.
    match goal with K : sameAllocationReceipt _ _ |- _ => apply sameReceipt_eq in K end. left. eauto 10.
  - apply UpdateOpenAt_Ok in H as (current & Hc & _ & Hal & _ & _ & _ & _ & ->). cbn in Hk. ins_inv Hk; [|left; eauto 10].
    left. exists current, e'. split_and!; congruence.
  - apply ReserveCloseAt_Ok in H as (_ & _ & _ & [(i & _ & _ & _ & _ & ->)|(_ & _ & _ & _ & _ & ->)]); left; eauto 10.
  - apply UpdateCloseAt_Ok in H as (current & _ & _ & _ & _ & ->). left; eauto 10.
Qed.

Lemma next_state_closed op s s' k c :
  session_wf s → next_state op s = Ok s' → Closes s' !! k = Some c → cl_Status c = StatusSucceeded →
  Closes s !! k = Some c ∨ ∃ expected, op = OpUpdateClose c expected.
Proof.
  intros Hs H Hk Hst. destruct op; cbn in H; apply bind_Ok in H as ([v s1] & H & [= <-]).
  - unfold PutSandboxAuthority, refuse in H. inv_ok H. destruct (Authorities s !! _); [case_decide|]; simplify_eq; by left.
  - unfold ReplaceSandboxAuthority, refuse in H. inv_ok H. destruct (Authorities s !! _); [|done]. crack H. by left.
  - unfold SynchronizeSandboxAuthority, refuse in H. inv_ok H. destruct (Authorities s !! _); crack H; by left.
  - apply ReserveOpenAt_Ok in H as (_ & _ & _ & [(i & _ & _ & _ & _ & ->)|(_ & _ & _ & _ & _ & ->)]); by left.
  - unfold AttachAllocation_, refuse in H. inv_ok H. destruct (Sessions s !! _); [|done]. inv_ok H. by left.
  - unfold ObserveAllocation_, refuse in H. destruct (Sessions s !! _); [|done]. inv_ok H. by left.
  - apply UpdateOpenAt_Ok in H as (current & _ & _ & _ & _ & _ & _ & _ & ->). by left.
  - apply ReserveCloseAt_Ok in H as (_ & _ & _ & [(i & _ & _ & _ & _ & ->)|(_ & _ & _ & _ & (src & _ & Hn) & ->)]); [by left|].
    cbn in Hk. ins_inv Hk; [|by left]. unfold NewCloseRecord, refuse in Hn. inv_ok Hn.
    destruct (rc_Allocation src); [|done]. destruct (rc_Handoff src); [|done]. inv_ok Hn. by rewrite <- H in Hst.
  - apply UpdateCloseAt_Ok in H as (current & _ & _ & _ & _ & ->). cbn in Hk. ins_inv Hk; [right; eauto|by left].
Qed.

(** What the calls made so far say about the state. *)
Record ledger (evs : list (event eff)) (s : State) : Prop := mkLedger {
  lg_seen ev r : ev ∈ evs → r ∈ seen ev → ∃ r', Sessions s !! or_OperationID (rc_Request r) = Some r' ∧ record_evolves r r';
  lg_closes ev c : ev ∈ evs → c ∈ seen_closes ev → ∃ c', Closes s !! cr_OperationID (cl_Request c) = Some c' ∧ close_evolves c c';
  lg_receipt k r e : Sessions s !! k = Some r → rc_Allocation r = Some e →
    ∃ ctx x, Ev (EAttachAllocation ctx (av_Receipt e)) x ∈ evs;
  lg_success k r : Sessions s !! k = Some r → rc_Status r = StatusSucceeded →
    ∃ ctx now x, Ev (EUpdateOpenAt ctx r StatusRunning now) x ∈ evs;
  lg_closed k c : Closes s !! k = Some c → cl_Status c = StatusSucceeded → ∃ ctx e x, Ev (EUpdateClose ctx c e) x ∈ evs;
}.

#[export] Instance session_ledger_proper : Proper ((≡ₚ) ==> (=) ==> impl) ledger.
Proof. intros evs evs' Hp s _ <- [H1 H2 H3 H4 H5]. split; setoid_rewrite <- Hp; done. Qed.

Lemma session_ledger_init : ledger [] NewState.
Proof. split; cbn; intros *; rewrite ?lookup_empty; set_solver. Qed.

Lemma session_ledger_step trusting {X} (e : eff X) tr evs s x s' :
  rule trusting tr X e → session_wf s → ledger evs s → respond e s x s' → ledger (Ev e x :: evs) s'.
Proof.
  intros Hrule Hs [H1 H2 H3 H4 H5] Hx. destruct (session_respond_wf trusting e tr s x s' Hrule Hs Hx) as [Hs' _].
  assert (Hev : state_evolves s s').
  { destruct (session_respond_state e s x s' Hx) as [-> | (op & _ & Hop)]; [apply state_evolves_refl|by eapply next_state_evolves]. }
  destruct Hev as (Hses & Hcls & _).
  assert (Hop : s' = s ∨ ∃ op, op_of e = Some op ∧ next_state op s = Ok s') by (by eapply session_respond_state).
  split.
  - intros ev r [->|Hev]%elem_of_cons Hr.
    + exists r. split; [by apply (seen_stored e s x s')|apply record_evolves_refl].
    + destruct (H1 ev r Hev Hr) as (r1 & Hr1 & He1). destruct (Hses _ _ Hr1) as (r2 & ? & ?). eauto using record_evolves_trans.
  - intros ev c [->|Hev]%elem_of_cons Hc.
    + exists c. split; [by apply (seen_close_stored e s x s')|apply close_evolves_refl].
    + destruct (H2 ev c Hev Hc) as (c1 & Hc1 & He1). destruct (Hcls _ _ Hc1) as (c2 & ? & ?). eauto using close_evolves_trans.
  - intros k r a Hk Ha.
    assert (Hold : (∃ r0 a0, Sessions s !! k = Some r0 ∧ rc_Allocation r0 = Some a0 ∧ av_Receipt a0 = av_Receipt a) ∨
                   ∃ receipt, op_of e = Some (OpAttachAllocation receipt) ∧ av_Receipt a = receipt).
    { destruct Hop as [-> | (op & Hop & Hn)]; [left; eauto 10|].
      destruct (next_state_receipt op s s' k r a Hs Hn Hk Ha) as [?|(receipt & -> & ?)]; [by left|right; eauto]. }
    destruct Hold as [(r0 & a0 & Hr0 & Ha0 & <-)|(receipt & He & <-)].
    + destruct (H3 k r0 a0 Hr0 Ha0) as (ctx & y & ?). exists ctx, y. by right.
    + destruct e; cbn in He; try done. injection He as ->. eexists ctx, x. left.
  - intros k r Hk Hr.
    assert (Hold : Sessions s !! k = Some r ∨ ∃ now, op_of e = Some (OpUpdateOpen r StatusRunning now)).
    { destruct Hop as [-> | (op & Hop & Hn)]; [by left|].
      destruct (success_step op s s' k r Hs Hn Hk Hr) as [?|(now & ? & ? & ? & -> & _)]; [by left|right; eauto]. }
    destruct Hold as [Hold|(now & He)].
    + destruct (H4 k r Hold Hr) as (ctx & now & y & ?). exists ctx, now, y. by right.
    + destruct e; cbn in He; try done. injection He as -> -> ->. eexists ctx, _, x. left.
  - intros k c Hk Hc.
    assert (Hold : Closes s !! k = Some c ∨ ∃ ex, op_of e = Some (OpUpdateClose c ex)).
    { destruct Hop as [-> | (op & Hop & Hn)]; [by left|].
      destruct (next_state_closed op s s' k c Hs Hn Hk Hc) as [?|(ex & ->)]; [by left|right; eauto]. }
    destruct Hold as [Hold|(ex & He)].
    + destruct (H5 k c Hold Hc) as (ctx & ex & y & ?). exists ctx, ex, y. by right.
    + destruct e; cbn in He; try done. injection He as -> ->. eexists ctx, _, x. left.
Qed.

Lemma session_pool_ledger trusting s ts : pool_run trusting s ts → ledger (events ts) s.
Proof.
  intros Hrun. enough (Hall : ∀ σ, rtc (pool_step (@respond) (spawn trusting)) (NewState, []) σ →
    ledger (events σ.2) σ.1) by apply (Hall _ Hrun).
  clear Hrun s ts. apply rtc_ind_r; [apply session_ledger_init|].
  intros σ1 σ2 Hrun Hstep Hl. destruct Hstep as [s ts p Hp|s ts1 tr X e k ts2 x s' Hr]; cbn in *; [done|].
  destruct (session_pool_obeys trusting _ _ Hrun) as [Hs Hts].
  destruct (Hts (mkThread tr (Vis e k))) as [_ [Hrule _]]; [set_solver|]. cbn in Hrule.
  rewrite (events_call ts1 tr (Vis e k) (k x) (Ev e x) ts2). by eapply session_ledger_step.
Qed.

(** What the rule said of a call, in the trace of its thread. *)
Lemma session_event_rule trusting s ts ev :
  pool_run trusting s ts → ev ∈ events ts →
  ∃ th tr, th ∈ ts ∧ ev :: tr `suffix_of` th_trace th ∧ event_rule (rule trusting) tr ev.
Proof.
  intros Hrun (th & Hev & Hth)%in_events. destruct (session_pool_obeys trusting s ts Hrun) as [_ Hts].
  destruct (Hts th Hth) as [Hl _]. destruct (lawful_event _ _ _ Hl Hev) as (tr & ? & ?). eauto 10.
Qed.

Lemma suffix_known trusting s ts th tr ev r :
  pool_run trusting s ts → th ∈ ts → ev :: tr `suffix_of` th_trace th → known tr r →
  ∃ r', Sessions s !! or_OperationID (rc_Request r) = Some r' ∧ record_evolves r r'.
Proof.
  intros Hrun Hth Hsuf (ev' & Hin & Hr). apply (lg_seen _ _ (session_pool_ledger trusting s ts Hrun) ev' r); [|done].
  apply in_events. exists th. split; [|done]. eapply suffix_subseteq; [done|]. by right.
Qed.

(** ** A sample pool *)

Module SessionPoolRuns.
Definition sandbox : Sandbox :=
  mkSandbox "box" "tenant" "order" "workspace" "rev" "sandbox-runtime-coding-v1" (mkNetworkPolicy NetworkNone "" false) "slot/main"
    DesiredReady ObservedReady 1 1 1000 1 1.

(** A runtime that allocates one terminal per request and reports it as running
    until it is removed. *)
Definition reference : string := "ref:terminal/0123456789abcdef0123456789abcdef".
Definition issue (a : Allocation) : Receipt :=
  let q := an_Request a in
  mkTerminalReceipt reference (ar_SandboxID q) (ar_RuntimeSessionID q) (ar_OperationID q) (ar_AttemptID q) (ar_FencingToken q)
    (ar_ExpectedGeneration q) 1 (an_AllocatedAt a) (ar_ExpiresAt q).
Definition watch (removed : list Receipt) (r : Receipt) : Observation :=
  mkTerminalObservation r (if decide (r ∈ removed) then ObservationAbsent else ObservationRunning) 50.
Definition runtime : Runtime :=
  mkRuntime (λ _, Ok sandbox) (λ a, Ok (issue a)) (λ removed r, Ok (watch removed r)) (λ _, Ok ())
    (λ _, Ok (mkEndpointEvidence "ref:session:a" 1)) (λ _ _, Ok ()).

Definition vertical : Vertical :=
  mkVertical true true true (mkProfile "sandbox-runtime-coding-v1" "shell" "/workspace") true true true true.
Definition world : World := mkWorld NewRepository [40; 60]%positive [] [].

(** The request twice, which allocates and then observes the terminal, a read of
    its handoff, its end, and recovery. *)
Definition calls : list session_api :=
  [ApiOpen CtxCaller SessionSample.request; ApiOpen CtxCaller SessionSample.request; ApiReconcile CtxCaller "op";
   ApiGetHandoff CtxCaller "op"; ApiClose CtxCaller SessionSample.closing; ApiRecover CtxCaller].

Definition final : list (thread eff) * World := pool_of (@handle runtime) (api_prog vertical <$> calls) world [].

Lemma session_final_run trusting : pool_run trusting (abs final.2) final.1.
Proof.
  apply (pool_sequence (@handle runtime) (@respond) (spawn trusting) abs (λ X e w, session_handle_responds runtime e w) _ world []).
  apply Forall_fmap, Forall_forall. intros a Ha. exists vertical, a. split; [done|]. intros _ Hh.
  repeat (apply elem_of_cons in Ha as [->|Ha]; [done|]). by apply not_elem_of_nil in Ha.
Qed.
End SessionPoolRuns.

(** ** Guarantees *)

Lemma persistable_receipt r e :
  persistable r → rc_Allocation r = Some e → al_OperationID (av_Receipt e) = or_OperationID (rc_Request r).
Proof.
  intros [(_ & _ & _ & _ & _ & Ha & _)%Record_Validate_spec _] He. unfold allocation_wf in Ha. rewrite He in Ha.
  destruct Ha as [Hv _]. unfold AllocationEvidence_Validate, refuse in Hv. inv_ok Hv. split_guards.
  match goal with K : matchesRequest _ _ |- _ => by destruct K as (_ & _ & ? & _) end.
Qed.

(** C13 (safety): a terminal is allocated under one identity.  Over every interleaving of
    concurrent, repeated and crashed calls of the session application, whatever
    the repository, the runtime and the clock answer, each request for a
    terminal carries exactly the identity of the operation on record (its
    request and the time it was accepted), so that any two requests for one
    operation are the same one to the runtime. *)
Theorem allocations_share_identity trusting s ts ctx a x :
  pool_run trusting s ts → Ev (EAllocate ctx a) x ∈ events ts →
  (∃ r, Sessions s !! ar_OperationID (an_Request a) = Some r ∧ a = allocation_identity r) ∧
  ∀ ctx' a' x', Ev (EAllocate ctx' a') x' ∈ events ts →
    ar_OperationID (an_Request a') = ar_OperationID (an_Request a) → a' = a.
Proof.
  intros Hrun Hev. assert (Hid : ∀ ctx a x, Ev (EAllocate ctx a) x ∈ events ts →
    ∃ r, Sessions s !! ar_OperationID (an_Request a) = Some r ∧ a = allocation_identity r).
  { intros ctx' a' x' Hev'. destruct (session_event_rule trusting s ts _ Hrun Hev') as (th & tr & Hth & Hsuf & r & Hk & _ & ->).
    destruct (suffix_known trusting s ts th tr _ r Hrun Hth Hsuf Hk) as (r' & Hr' & Hq & Ht & _). exists r'. split; [done|].
    unfold allocation_identity. by rewrite Hq, Ht. }
  split; [eauto|]. intros ctx' a' x' Hev' Hop. destruct (Hid _ _ _ Hev) as (r & Hr & ->).
  destruct (Hid _ _ _ Hev') as (r' & Hr' & ->). congruence.
Qed.

Lemma allocations_share_identity_witness :
  ∃ ctx a x r, Ev (EAllocate ctx a) x ∈ events SessionPoolRuns.final.1 ∧
    Sessions (abs SessionPoolRuns.final.2) !! "op" = Some r ∧ a = allocation_identity r.
Proof.
  assert (Hev : Ev (EAllocate (CtxWithDeadline CtxCaller 500) (mkAllocation (terminalRequest SessionSample.request "/workspace") 40))
    (Ok (SessionPoolRuns.issue (mkAllocation (terminalRequest SessionSample.request "/workspace") 40))) ∈ events SessionPoolRuns.final.1)
    by (vm_compute; set_solver).
  destruct (proj1 (allocations_share_identity true _ _ _ _ _ (SessionPoolRuns.session_final_run true) Hev)) as (r & Hr & Ha).
  eexists _, _, _, r. split; [exact Hev|]. split; [exact Hr|exact Ha].
Defined.

(** what the repository says of a session, the runtime and the registrar
    said.  The allocation of an operation on record was issued by the runtime for
    exactly this operation, and where no caller hands in endpoint evidence
    itself, the handoff of a succeeded operation is what the registrar answered
    for this operation. *)
Theorem session_evidence_is_reported trusting s ts k r :
  pool_run trusting s ts → Sessions s !! k = Some r →
  (∀ e, rc_Allocation r = Some e → ∃ ctx rc,
     Ev (EAllocate ctx (allocation_identity r)) (Ok rc) ∈ events ts ∧ av_Receipt e = sessionReceipt rc) ∧
  (trusting = false → rc_Status r = StatusSucceeded → handoff_known (events ts) r).
Proof.
  intros Hrun Hk. pose proof (session_pool_ledger trusting s ts Hrun) as Hl. split.
  - intros e He. destruct (lg_receipt _ _ Hl k r e Hk He) as (ctx & x & Hev).
    destruct (session_event_rule trusting s ts _ Hrun Hev) as (th & tr & Hth & Hsuf & ctx' & a & rc & Hin & Hm & Hrc).
    assert (Hall : Ev (EAllocate ctx' a) (Ok rc) ∈ events ts).
    { apply in_events. exists th. split; [|done]. eapply suffix_subseteq; [done|]. by right. }
    destruct (session_event_rule trusting s ts _ Hrun Hall) as (th1 & tr1 & Hth1 & Hsuf1 & r1 & Hk1 & _ & ->).
    destruct (suffix_known trusting s ts th1 tr1 _ r1 Hrun Hth1 Hsuf1 Hk1) as (r' & Hr' & Hq & Ht & _).
    destruct (session_pool_obeys trusting s ts Hrun) as [Hs _]. destruct (sw_record s Hs _ _ Hk) as (Hkey & Hp & _).
    assert (or_OperationID (rc_Request r1) = k) as Hop.
    { apply persistable_receipt in He; [|done]. destruct Hm as (_ & _ & Hm & _). rewrite Hrc in He. cbn in He, Hm. congruence. }
    assert (r' = r) as -> by congruence. exists ctx', rc. split; [|done]. unfold allocation_identity. by rewrite Hq, Ht.
  - intros -> Hst. destruct (lg_success _ _ Hl k r Hk Hst) as (ctx & now & x & Hev).
    destruct (session_event_rule false s ts _ Hrun Hev) as (th & tr & Hth & Hsuf & Hr).
    destruct (Hr Hst) as [?|Hh]; [done|]. eapply handoff_known_mono; [|exact Hh].
    etrans; [|by apply trace_events]. intros ev' ?. eapply suffix_subseteq; [done|]. by right.
Qed.

Lemma session_evidence_is_reported_witness :
  ∃ r e ctx rc, Sessions (abs SessionPoolRuns.final.2) !! "op" = Some r ∧ rc_Allocation r = Some e ∧
    Ev (EAllocate ctx (allocation_identity r)) (Ok rc) ∈ events SessionPoolRuns.final.1 ∧ av_Receipt e = sessionReceipt rc ∧
    handoff_known (events SessionPoolRuns.final.1) r.
Proof.
  destruct (Sessions (abs SessionPoolRuns.final.2) !! "op") as [r|] eqn:E; [|vm_compute in E; discriminate].
  destruct (session_evidence_is_reported false _ _ "op" r (SessionPoolRuns.session_final_run false) E) as [Ha Hh].
  destruct (rc_Allocation r) as [e|] eqn:Ee; [|vm_compute in E; injection E as <-; discriminate Ee].
  destruct (Ha e eq_refl) as (ctx & rc & ? & ?). exists r, e, ctx, rc. split; [reflexivity|]. split; [exact Ee|].
  split; [assumption|]. split; [assumption|]. apply Hh; [reflexivity|]. vm_compute in E. injection E as <-. reflexivity.
Defined.

(** C14 (safety): a session is closed only when it is gone.  A close operation that is on
    record as succeeded was carried out by a call that revoked the handoff of the
    session, then had its terminal removed, and then observed that terminal to be
    absent, in this order. *)
Theorem close_success_is_confirmed trusting s ts k c :
  pool_run trusting s ts → Closes s !! k = Some c → cl_Status c = StatusSucceeded →
  ∃ th, th ∈ ts ∧ close_confirmed (th_trace th) c.
Proof.
  intros Hrun Hk Hst. destruct (lg_closed _ _ (session_pool_ledger trusting s ts Hrun) k c Hk Hst) as (ctx & e & x & Hev).
  destruct (session_event_rule trusting s ts _ Hrun Hev) as (th & tr & Hth & Hsuf & Hr). exists th. split; [done|].
  eapply close_confirmed_mono; [|exact (Hr Hst)]. by eapply suffix_cons_l.
Qed.

Lemma close_success_is_confirmed_witness :
  ∃ c th, Closes (abs SessionPoolRuns.final.2) !! "close" = Some c ∧ th ∈ SessionPoolRuns.final.1 ∧ close_confirmed (th_trace th) c.
Proof.
  destruct (Closes (abs SessionPoolRuns.final.2) !! "close") as [c|] eqn:E; [|vm_compute in E; discriminate].
  destruct (close_success_is_confirmed true _ _ "close" c (SessionPoolRuns.session_final_run true) E) as (th & ? & ?).
  - vm_compute in E. injection E as <-. reflexivity.
  - exists c, th. split; [reflexivity|]. split; assumption.
Defined.

(** C15 (safety): no live terminal is removed.  Every removal of a terminal is of the
    terminal of an operation that is now on record as failed or cancelled, or
    settled with a clock reading past its expiry, or of a session for which a
    close operation is on record and whose handoff was revoked before. *)
Theorem cleanup_is_justified trusting s ts ctx rc x :
  pool_run trusting s ts → Ev (ECleanup ctx rc) x ∈ events ts →
  (∃ k r, Sessions s !! k = Some r ∧ av_Receipt <$> rc_Allocation r = Some (sessionReceipt rc) ∧ session_over (events ts) r) ∨
  (∃ k c, Closes s !! k = Some c ∧ cl_Receipt c = sessionReceipt rc ∧ revoked (events ts) c).
Proof.
  intros Hrun Hev. destruct (session_event_rule trusting s ts _ Hrun Hev) as (th & tr & Hth & Hsuf & Hr).
  assert (Hsub : tr ⊆ events ts).
  { etrans; [|by apply trace_events]. intros ev' ?. eapply suffix_subseteq; [done|]. by right. }
  destruct Hr as [(r & Hk & Hrc & Hover)|(c & (ev & Hin & Hc) & Hrc & _ & Hrev)]; [left|right].
  - destruct (suffix_known trusting s ts th tr _ r Hrun Hth Hsuf Hk) as (r' & Hr' & _ & _ & Hfin & _).
    assert (r' = r) as -> by (apply Hfin; destruct Hover as [Hs|[Hs|[Hs _]]]; by rewrite Hs).
    exists (or_OperationID (rc_Request r)), r. split_and!; [done|done|]. by eapply session_over_mono.
  - destruct (lg_closes _ _ (session_pool_ledger trusting s ts Hrun) ev c) as (c' & Hc' & _ & Hsrc & Hrc' & _); [auto..|].
    exists (cr_OperationID (cl_Request c)), c'. split_and!; [done|congruence|].
    apply (revoked_mono _ _ _ Hsub) in Hrev. unfold revoked in *. by rewrite Hsrc.
Qed.

Lemma cleanup_is_justified_witness :
  ∃ ctx rc, Ev (ECleanup ctx rc) (Ok ()) ∈ events SessionPoolRuns.final.1 ∧
  ((∃ k r, Sessions (abs SessionPoolRuns.final.2) !! k = Some r ∧ av_Receipt <$> rc_Allocation r = Some (sessionReceipt rc) ∧
      session_over (events SessionPoolRuns.final.1) r) ∨
   (∃ k c, Closes (abs SessionPoolRuns.final.2) !! k = Some c ∧ cl_Receipt c = sessionReceipt rc ∧
      revoked (events SessionPoolRuns.final.1) c)).
Proof.
  assert (Hev : Ev (ECleanup CtxCaller (SessionPoolRuns.issue (mkAllocation (terminalRequest SessionSample.request "/workspace") 40)))
    (Ok ()) ∈ events SessionPoolRuns.final.1) by (vm_compute; set_solver).
  eexists _, _. split; [exact Hev|].
  apply (cleanup_is_justified true _ _ _ _ _ (SessionPoolRuns.session_final_run true) Hev).
Defined.

(** the application never dereferences the allocation of a record without one,
    whatever the interleaving. *)
Theorem session_application_never_panics trusting s ts th k :
  pool_run trusting s ts → th ∈ ts → ¬ th_prog th = Vis EPanic k.
Proof.
  intros Hrun Hth He. destruct (session_pool_obeys trusting s ts Hrun) as [_ Hts]. destruct (Hts th Hth) as [_ Hf].
  rewrite He in Hf. by destruct Hf as [[] _].
Qed.

Lemma session_application_never_panics_witness :
  ∃ th, th ∈ SessionPoolRuns.final.1 ∧ ∀ k, ¬ th_prog th = Vis EPanic k.
Proof.
  destruct SessionPoolRuns.final.1 as [|th ts] eqn:E; [vm_compute in E; discriminate|].
  exists th. split; [left|]. intros k. eapply (session_application_never_panics true _ _ th k (SessionPoolRuns.session_final_run true)).
  rewrite E. left.
Defined.
