(* ===== verification/SessionReference.v ===== *)
(** * Opaque handoff references: [provider/session/reference]

    The records of [model.go] that bind a reference to the allocation of a
    session, the registry state of [repository/state.go] with its snapshots, and
    the in-memory registry of [repository/memory]. *)

From S2P Require Import Prelude Program FileStore LifecycleModel SessionModel SessionState SessionInvariant SessionGuarantees.
From stdpp Require Import base gmap strings list fin_maps relations.
From Stdlib Require Import ZArith Lia.

Local Open Scope Z_scope.

Definition reference_error (name : string) : sentinel := SNamed "session/reference" name.
Definition ErrInvalidReference : sentinel := reference_error "ErrInvalidReference".
Definition RefErrInvalidRecord : sentinel := reference_error "ErrInvalidRecord".
Definition RefErrNotFound : sentinel := reference_error "ErrNotFound".
Definition RefErrAlreadyExists : sentinel := reference_error "ErrAlreadyExists".
Definition RefErrConflict : sentinel := reference_error "ErrConflict".
Definition ErrExpired : sentinel := reference_error "ErrExpired".
Definition ErrRevoked : sentinel := reference_error "ErrRevoked".
Definition ErrUnavailable : sentinel := reference_error "ErrUnavailable".
Definition ErrStale : sentinel := reference_error "ErrStale".
Definition RefErrDurability : sentinel := reference_error "ErrDurability".
Definition RefErrClosed : sentinel := reference_error "ErrClosed".

Definition sessionReferencePattern (s : string) : bool :=
  match cut_prefix "ref:session:" s with
  | Some rest => all_bytes is_lower_hex rest && bool_decide (String.length rest = 32%nat)
  | None => false
  end.

(** ** Records *)

Record ReferenceRecord := mkReference {
  rr_Reference : string; rr_OperationID : string; rr_AttemptID : string; rr_FencingToken : Z; rr_SandboxID : string;
  rr_ProviderRevisionID : string; rr_RuntimeSessionID : string; rr_CapabilityProfileID : string; rr_ConnectionGeneration : Z;
  rr_ExpiresAt : Time; rr_Receipt : AllocationReceipt; rr_CreatedAt : Time; rr_RevokedAt : option Time;
}.

Definition ReferenceRecord_Validate (r : ReferenceRecord) : result unit :=
  if decide (sessionReferencePattern (rr_Reference r) = false) then refuse ErrInvalidReference else
  if decide (¬ identifiers [rr_OperationID r; rr_AttemptID r; rr_SandboxID r; rr_ProviderRevisionID r; rr_RuntimeSessionID r;
                            rr_CapabilityProfileID r]) then refuse RefErrInvalidRecord else
  if decide (rr_FencingToken r < 1 ∨ rr_ConnectionGeneration r < 1 ∨ IsZero (rr_ExpiresAt r) ∨ IsZero (rr_CreatedAt r)
             ∨ ¬ Before (rr_CreatedAt r) (rr_ExpiresAt r)) then refuse RefErrInvalidRecord else
  if decide (is_ok (AllocationReceipt_Validate (rr_Receipt r)) = false
             ∨ al_OperationID (rr_Receipt r) ≠ rr_OperationID r ∨ al_AttemptID (rr_Receipt r) ≠ rr_AttemptID r
             ∨ al_FencingToken (rr_Receipt r) ≠ rr_FencingToken r ∨ al_SandboxID (rr_Receipt r) ≠ rr_SandboxID r
             ∨ al_RuntimeSessionID (rr_Receipt r) ≠ rr_RuntimeSessionID r
             ∨ al_ConnectionGeneration (rr_Receipt r) ≠ rr_ConnectionGeneration r ∨ al_ExpiresAt (rr_Receipt r) ≠ rr_ExpiresAt r
             ∨ Before (rr_CreatedAt r) (al_AllocatedAt (rr_Receipt r))) then refuse RefErrInvalidRecord else
  match rr_RevokedAt r with
  | Some t => if decide (IsZero t ∨ Before t (rr_CreatedAt r)) then refuse RefErrInvalidRecord else Ok ()
  | None => Ok ()
  end.

(** The allocation of a session that is running. *)
Definition running_receipt (source : Record_) : option AllocationReceipt :=
  match Record_Validate source, rc_Status source, rc_Allocation source with
  | Ok _, StatusRunning, Some a => match av_State a with AllocationRunning => Some (av_Receipt a) | _ => None end
  | _, _, _ => None
  end.

Definition NewReferenceRecord (reference : string) (source : Record_) (createdAt : Time) : result ReferenceRecord :=
  if decide (sessionReferencePattern reference = false) then refuse ErrInvalidReference else
  match running_receipt source with
  | None => refuse RefErrInvalidRecord
  | Some receipt =>
      let q := rc_Request source in
      if decide (IsZero createdAt ∨ ¬ Before createdAt (or_ExpiresAt q) ∨ Before createdAt (al_AllocatedAt receipt))
      then refuse ErrExpired else
      let record := mkReference reference (or_OperationID q) (or_AttemptID q) (or_FencingToken q) (or_SandboxID q)
        (or_ProviderRevisionID q) (or_RuntimeSessionID q) (or_CapabilityProfileID q) (al_ConnectionGeneration receipt)
        (or_ExpiresAt q) receipt createdAt None in
      _ ← ReferenceRecord_Validate record; Ok record
  end.

Definition Evidence (r : ReferenceRecord) : EndpointEvidence := mkEndpointEvidence (rr_Reference r) (rr_ConnectionGeneration r).

Definition activeAt (r : ReferenceRecord) (now : Time) : result unit :=
  _ ← ReferenceRecord_Validate r;
  if decide (is_Some (rr_RevokedAt r)) then refuse ErrRevoked else
  if decide (IsZero now ∨ ¬ Before now (rr_ExpiresAt r)) then refuse ErrExpired else Ok ().

(** The handoff and the receipt of a session that succeeded. *)
Definition succeeded_handoff (source : Record_) : option (Handoff * AllocationReceipt) :=
  match Record_Validate source, rc_Status source, rc_Handoff source, rc_Allocation source with
  | Ok _, StatusSucceeded, Some h, Some a => match av_State a with AllocationRunning => Some (h, av_Receipt a) | _ => None end
  | _, _, _, _ => None
  end.

(** [sameReceipt] compares the fields [sameAllocationReceipt] compares. *)
Definition matchesSucceeded (r : ReferenceRecord) (source : Record_) : result unit :=
  match succeeded_handoff source with
  | None => refuse ErrStale
  | Some (handoff, receipt) =>
      let q := rc_Request source in
      if decide (ho_InternalEndpointReference handoff ≠ rr_Reference r ∨ ho_ConnectionGeneration handoff ≠ rr_ConnectionGeneration r
                 ∨ or_OperationID q ≠ rr_OperationID r ∨ or_AttemptID q ≠ rr_AttemptID r ∨ or_FencingToken q ≠ rr_FencingToken r
                 ∨ or_SandboxID q ≠ rr_SandboxID r ∨ or_ProviderRevisionID q ≠ rr_ProviderRevisionID r
                 ∨ or_RuntimeSessionID q ≠ rr_RuntimeSessionID r ∨ or_CapabilityProfileID q ≠ rr_CapabilityProfileID r
                 ∨ or_ExpiresAt q ≠ rr_ExpiresAt r ∨ ¬ sameAllocationReceipt receipt (rr_Receipt r))
      then refuse ErrStale else Ok ()
  end.

(** ** The registry *)

Definition snapshotVersion : Z := 1.

Record Registry := mkRegistry { References : gmap string ReferenceRecord }.
Record PersistedRegistry := mkPersistedRegistry { pr_Version : Z; pr_References : list ReferenceRecord }.

Definition NewRegistry : Registry := mkRegistry ∅.

Definition Create (record : ReferenceRecord) (s : Registry) : result (unit * Registry) :=
  _ ← ReferenceRecord_Validate record;
  if decide (is_Some (References s !! rr_Reference record)) then refuse RefErrAlreadyExists else
  Ok ((), mkRegistry (<[rr_Reference record := record]> (References s))).

Definition Get (value : string) (s : Registry) : result ReferenceRecord :=
  match References s !! value with
  | None => refuse RefErrNotFound
  | Some record => if is_ok (ReferenceRecord_Validate record) then Ok record else refuse ErrUnavailable
  end.

Definition recordMatchesRunning (record : ReferenceRecord) (source : Record_) : Prop :=
  is_ok (ReferenceRecord_Validate record) = true ∧
  match rc_Allocation source with
  | None => False
  | Some a =>
      let q := rc_Request source in let receipt := av_Receipt a in
      rr_AttemptID record = or_AttemptID q ∧ rr_FencingToken record = or_FencingToken q ∧ rr_SandboxID record = or_SandboxID q ∧
      rr_ProviderRevisionID record = or_ProviderRevisionID q ∧ rr_RuntimeSessionID record = or_RuntimeSessionID q ∧
      rr_CapabilityProfileID record = or_CapabilityProfileID q ∧ rr_ConnectionGeneration record = al_ConnectionGeneration receipt ∧
      rr_ExpiresAt record = or_ExpiresAt q ∧ sameAllocationReceipt (rr_Receipt record) receipt
  end.
#[export] Instance recordMatchesRunning_dec record source : Decision (recordMatchesRunning record source).
Proof. unfold recordMatchesRunning. destruct (rc_Allocation source); apply _. Defined.

(** The records of one operation, in any order. *)
Definition registered (operationID : string) (s : Registry) : list ReferenceRecord :=
  filter (λ r, rr_OperationID r = operationID) (map_to_list (References s)).*2.

(** The iteration stops with the same error at a record that does not match and at
    the second one that does. *)
Definition FindRunning (source : Record_) (s : Registry) : result ReferenceRecord :=
  match running_receipt source with
  | None => refuse RefErrInvalidRecord
  | Some _ =>
      match registered (or_OperationID (rc_Request source)) s with
      | [] => refuse RefErrNotFound
      | [record] => if decide (recordMatchesRunning record source) then Ok record else refuse RefErrConflict
      | _ => refuse RefErrConflict
      end
  end.

Definition set_revoked (t : Time) (r : ReferenceRecord) : ReferenceRecord :=
  mkReference (rr_Reference r) (rr_OperationID r) (rr_AttemptID r) (rr_FencingToken r) (rr_SandboxID r) (rr_ProviderRevisionID r)
    (rr_RuntimeSessionID r) (rr_CapabilityProfileID r) (rr_ConnectionGeneration r) (rr_ExpiresAt r) (rr_Receipt r) (rr_CreatedAt r) (Some t).

Definition Revoke (value : string) (revokedAt : Time) (s : Registry) : result (unit * Registry) :=
  if decide (IsZero revokedAt) then refuse RefErrInvalidRecord else
  match References s !! value with
  | None => refuse RefErrNotFound
  | Some record =>
      if decide (is_Some (rr_RevokedAt record)) then Ok ((), s) else
      let record := set_revoked revokedAt record in
      _ ← ReferenceRecord_Validate record;
      Ok ((), mkRegistry (<[value := record]> (References s)))
  end.

Definition ExportReferences (s : Registry) : PersistedRegistry :=
  mkPersistedRegistry snapshotVersion (sort_by rr_Reference (map_to_list (References s)).*2).

Definition ImportReferences (snapshot : PersistedRegistry) : result Registry :=
  if decide (pr_Version snapshot ≠ snapshotVersion) then refuse ErrUnavailable else
  m ← foldM (load_one [ErrUnavailable] rr_Reference id
               (λ r, if is_ok (ReferenceRecord_Validate r) then Ok () else refuse ErrUnavailable)) ∅ (pr_References snapshot);
  Ok (mkRegistry m).

(** ** Invariant *)

Definition registry_wf (s : Registry) : Prop :=
  map_Forall (λ k r, rr_Reference r = k ∧ ReferenceRecord_Validate r = Ok ()) (References s).

(** Records are never removed or changed, except that they are revoked once. *)
Definition reference_evolves (r r' : ReferenceRecord) : Prop := r' = r ∨ rr_RevokedAt r = None ∧ ∃ t, r' = set_revoked t r.
Definition registry_evolves (s s' : Registry) : Prop :=
  ∀ k r, References s !! k = Some r → ∃ r', References s' !! k = Some r' ∧ reference_evolves r r'.

Lemma reference_evolves_trans r1 r2 r3 : reference_evolves r1 r2 → reference_evolves r2 r3 → reference_evolves r1 r3.
Proof. intros [->|(H1 & t & ->)] [->|(H2 & t' & ->)]; unfold reference_evolves; eauto. Qed.
Lemma registry_evolves_refl s : registry_evolves s s.
Proof. intros k r Hk. exists r. split; [done|by left]. Qed.
Lemma registry_evolves_trans s1 s2 s3 : registry_evolves s1 s2 → registry_evolves s2 s3 → registry_evolves s1 s3.
Proof.
  intros H1 H2 k r Hk. destruct (H1 k r Hk) as (r1 & Hr1 & He1). destruct (H2 k r1 Hr1) as (r2 & ? & ?).
  eauto using reference_evolves_trans.
Qed.
#[export] Instance registry_evolves_preorder : PreOrder registry_evolves.
Proof. split; [exact registry_evolves_refl|exact registry_evolves_trans]. Qed.

Lemma reference_evolves_operation r r' : reference_evolves r r' → rr_OperationID r' = rr_OperationID r ∧ rr_Reference r' = rr_Reference r.
Proof. by intros [->|(_ & t & ->)]. Qed.

Lemma Create_Ok record s s' :
  Create record s = Ok ((), s') →
  ReferenceRecord_Validate record = Ok () ∧ References s !! rr_Reference record = None ∧
  s' = mkRegistry (<[rr_Reference record := record]> (References s)).
Proof. unfold Create, refuse. intros H. inv_ok H. destruct x. split_and!; try done. by apply eq_None_not_Some. Qed.

Lemma Create_spec record s s' : registry_wf s → Create record s = Ok ((), s') → registry_wf s' ∧ registry_evolves s s'.
Proof.
  intros Hs (Hv & Hn & ->)%Create_Ok. split.
  - by apply map_Forall_insert_2.
  - intros k r Hk. exists r. cbn. rewrite lookup_insert_ne by congruence. split; [done|by left].
Qed.

Lemma Revoke_Ok value t s s' :
  Revoke value t s = Ok ((), s') →
  ∃ r r', References s !! value = Some r ∧ References s' = <[value := r']> (References s) ∧ reference_evolves r r' ∧
    is_Some (rr_RevokedAt r') ∧ (r' ≠ r → ReferenceRecord_Validate r' = Ok ()).
Proof.
  unfold Revoke, refuse. intros H. inv_ok H. destruct (References s !! value) as [r|] eqn:E; [|done].
  case_decide as Hr.
  - injection H as <-. exists r, r. rewrite insert_id by done. split_and!; try done. by left.
  - inv_ok H. destruct x. exists r, (set_revoked t r). split_and!; try done. right. split; [by apply eq_None_not_Some|eauto].
Qed.

Lemma Revoke_spec value t s s' : registry_wf s → Revoke value t s = Ok ((), s') → registry_wf s' ∧ registry_evolves s s'.
Proof.
  intros Hs (r & r' & Hr & Hm & He & _ & Hv)%Revoke_Ok. destruct s' as [m']. cbn in Hm. subst m'. split.
  - apply map_Forall_insert_2; [|done]. destruct (Hs _ _ Hr) as [Hkey Hval].
    destruct (reference_evolves_operation _ _ He) as [_ ->]. split; [done|].
    destruct He as [->|(? & t' & ->)]; [done|]. apply Hv. intros Heq. apply (f_equal rr_RevokedAt) in Heq. by rewrite H in Heq.
  - intros k r0 Hk. cbn. destruct (decide (k = value)) as [->|Hne].
    + rewrite lookup_insert_eq. simplify_eq. eauto.
    + rewrite lookup_insert_ne by done. exists r0. split; [done|by left].
Qed.

Lemma elem_of_registered r op s : r ∈ registered op s ↔ rr_OperationID r = op ∧ ∃ k, References s !! k = Some r.
Proof.
  unfold registered. rewrite list_elem_of_filter. f_equiv. rewrite list_elem_of_fmap. split.
  - intros ([k r'] & -> & Hin%elem_of_map_to_list). eauto.
  - intros (k & Hk). exists (k, r). split; [done|]. by apply elem_of_map_to_list.
Qed.

(** An answer of [FindRunning] is the one record of the operation; a miss means
    that there is none. *)
Lemma FindRunning_Ok source s r :
  FindRunning source s = Ok r →
  rr_OperationID r = or_OperationID (rc_Request source) ∧ (∃ k, References s !! k = Some r) ∧
  ∀ k r', References s !! k = Some r' → rr_OperationID r' = rr_OperationID r → r' = r.
Proof.
  unfold FindRunning, refuse. destruct (running_receipt source); [|done].
  destruct (registered _ s) as [|r0 [|]] eqn:E; [done| |done]. case_decide; [|done]. intros [= ->].
  assert (Hr : r ∈ registered (or_OperationID (rc_Request source)) s) by (rewrite E; set_solver).
  apply elem_of_registered in Hr as [Hop Hk]. split_and!; [done|done|]. intros k r' Hk' Hop'.
  assert (Hr' : r' ∈ registered (or_OperationID (rc_Request source)) s).
  { apply elem_of_registered. split; [congruence|eauto]. }
  rewrite E in Hr'. set_solver.
Qed.

Lemma FindRunning_miss source s e :
  FindRunning source s = Err e → errors_is e RefErrNotFound = true →
  ∀ k r, References s !! k = Some r → rr_OperationID r ≠ or_OperationID (rc_Request source).
Proof.
  unfold FindRunning, refuse. destruct (running_receipt source); [|by intros [= <-]].
  destruct (registered _ s) as [|r0 [|]] eqn:E; [| |by intros [= <-]].
  - intros _ _ k r Hk Hop. assert (Hr : r ∈ registered (or_OperationID (rc_Request source)) s) by (apply elem_of_registered; eauto).
    rewrite E in Hr. set_solver.
  - case_decide; [done|]. by intros [= <-].
Qed.

Lemma Import_Export_references s : registry_wf s → ImportReferences (ExportReferences s) = Ok s.
Proof.
  intros Hs. unfold ImportReferences. cbn [ExportReferences pr_Version pr_References]. rewrite decide_False by (by intros []).
  rewrite (load_of_map _ _ _ _ (References s)); [by destruct s| |].
  - apply Forall_forall. intros r [k Hk]%elem_of_listing. by destruct (Hs _ _ Hk) as [_ ->].
  - apply (export_listing rr_Reference). intros k r Hk. by destruct (Hs _ _ Hk).
Qed.

(** * The file registry of handoff references: [provider/session/reference/repository/file]

    A file store over the registry.  Its file always holds the registry in memory,
    so that revocations survive a restart. *)

Definition maxFileSize : Z := Z.shiftl 32 20.

Definition reference_layout : FileLayout Registry PersistedRegistry :=
  mkFileLayout NewRegistry ExportReferences ImportReferences ErrUnavailable RefErrDurability RefErrClosed maxFileSize
    "terminal reference registry" true false.

Section file.
Context {bytes : Type} (encode : PersistedRegistry → option bytes) (size : bytes → Z) (decode : bytes → option PersistedRegistry).
Abbreviation FileRegistry := (FileStore Registry bytes).

Definition load : OpenFaults → option bytes → result Registry := store_load reference_layout size decode.
Definition file_NewRegistry : string → OpenFaults → option bytes → result FileRegistry := store_open reference_layout size decode.
Definition persist : OSFaults → FileRegistry → bool * option goerr * FileRegistry := store_persist reference_layout encode size.
Definition mutate {X} : OSFaults → (Registry → result (X * Registry)) → FileRegistry → result X * FileRegistry :=
  store_mutate reference_layout encode size.

Definition file_Create (entry : option context_sentinel) (os : OSFaults) (record : ReferenceRecord) : FileRegistry → result unit * FileRegistry :=
  store_write reference_layout encode size entry os (Create record).
Definition file_Get (entry : option context_sentinel) (value : string) : FileRegistry → result ReferenceRecord * FileRegistry :=
  store_read reference_layout entry (Get value).
Definition file_FindRunning (entry : option context_sentinel) (source : Record_) : FileRegistry → result ReferenceRecord * FileRegistry :=
  store_read reference_layout entry (FindRunning source).
Definition file_Revoke (entry : option context_sentinel) (os : OSFaults) (value : string) (revokedAt : Time)
    : FileRegistry → result unit * FileRegistry :=
  store_write reference_layout encode size entry os (Revoke value revokedAt).
Definition file_Close : FileRegistry → FileRegistry := store_close.

Context (faithful : PersistedRegistry → Prop).
Context (json_roundtrip : ∀ p b, faithful p → encode p = Some b → decode b = Some p).

#[local] Instance reference_lawful : LawfulLayout reference_layout encode decode registry_wf faithful.
Proof using json_roundtrip. split; [apply map_Forall_empty|intros; by apply Import_Export_references|done]. Qed.

(** Runs of the registry: registrations and revocations under any faults,
    restarts, and [Close]. *)
Inductive registry_run : FileRegistry → FileRegistry → Prop :=
  | run_create record entry os r :
      admissible reference_layout registry_wf faithful (Create record) (fs_state r) → registry_run r (file_Create entry os record r).2
  | run_revoke value at_ entry os r :
      admissible reference_layout registry_wf faithful (Revoke value at_) (fs_state r) → registry_run r (file_Revoke entry os value at_ r).2
  | run_restart path faults r r' : file_NewRegistry path faults (fs_disk r) = Ok r' → registry_run r r'
  | run_close r : registry_run r (file_Close r).

Lemma reopen_state path faults r r' :
  durable reference_layout size decode registry_wf r → file_NewRegistry path faults (fs_disk r) = Ok r' →
  durable reference_layout size decode registry_wf r' ∧ fs_state r' = fs_state r.
Proof using Type.
  intros [Hwf Hload] H. unfold file_NewRegistry, store_open in H. inv_ok H. destruct (of_mkdir faults); [done|].
  destruct (of_lock faults); [done|]. inv_ok H. unfold store_load in *. destruct (fs_disk r) as [b|] eqn:Eb.
  - destruct (of_open faults); [done|]. destruct (of_stat faults); [done|]. cbn [of_open of_stat of_irregular of_ok] in *.
    inv_ok Hload. inv_ok Hstep. destruct (decode b) as [p|] eqn:Ed; [|done].
    rewrite Hload in Hstep. simplify_eq. split; [|done]. split; [done|]. unfold store_load. cbn.
    rewrite decide_False by done. by rewrite Ed.
  - simplify_eq. by split.
Qed.

Lemma registry_run_step r r' :
  registry_run r r' → durable reference_layout size decode registry_wf r →
  durable reference_layout size decode registry_wf r' ∧ registry_evolves (fs_state r) (fs_state r').
Proof using json_roundtrip.
  assert (Hgo : ∀ (f : Registry → result (unit * Registry)) entry os r,
    durable reference_layout size decode registry_wf r → admissible reference_layout registry_wf faithful f (fs_state r) →
    (∀ s', f (fs_state r) = Ok ((), s') → registry_evolves (fs_state r) s') →
    durable reference_layout size decode registry_wf (store_write reference_layout encode size entry os f r).2 ∧
    registry_evolves (fs_state r) (fs_state (store_write reference_layout encode size entry os f r).2)).
  { intros f entry os r0 Hd Ha He. destruct (store_write_spec reference_layout encode size decode registry_wf faithful entry os f r0 Hd Ha) as [Hd' Hans].
    split; [done|]. apply file_answers_state in Hans as [-> | [[] Hv]]; [done|by apply He]. }
  intros [record entry os r0 Ha|value at_ entry os r0 Ha|path faults r0 r1 Ho|r0] Hd.
  - apply Hgo; [done..|]. intros s' Hc. destruct Hd. by eapply Create_spec.
  - apply Hgo; [done..|]. intros s' Hc. destruct Hd. by eapply Revoke_spec.
  - destruct (reopen_state _ _ _ _ Hd Ho) as [? ->]. done.
  - done.
Qed.

(** the registry of handoff references forgets nothing: whatever
    registrations, revocations and restarts follow and whatever system calls fail
    on the way, the file holds exactly the registry in memory, every reference
    stays registered for what it was registered for, and a revoked one stays
    revoked. *)
Theorem reference_registry_durable path r r' :
  blank path = false → rtc registry_run (empty_store reference_layout) r → rtc registry_run r r' →
  registry_evolves (fs_state r) (fs_state r') ∧
  file_NewRegistry path of_ok (fs_disk r') = Ok (mkFileStore (fs_state r') false (fs_disk r')).
Proof using json_roundtrip.
  assert (Hrun : ∀ r r', rtc registry_run r r' → durable reference_layout size decode registry_wf r →
    durable reference_layout size decode registry_wf r' ∧ registry_evolves (fs_state r) (fs_state r')).
  { induction 1 as [r0|r0 r1 r2 Hs _ IH]; intros Hd; [done|]. destruct (registry_run_step _ _ Hs Hd) as [Hd1 He].
    destruct (IH Hd1). split; [done|by etrans]. }
  intros Hp H1 H2. destruct (Hrun _ _ H1) as [Hd _]; [split; [apply map_Forall_empty|done]|].
  destruct (Hrun _ _ H2 Hd) as [Hd' He]. split; [done|]. by eapply store_reopens.
Qed.
End file.

(** A registration, a revocation whose rename fails, the revocation again with a
    failing directory sync, and a restart. *)
Module ReferenceFileRuns.
Definition reference : string := "ref:session:0123456789abcdef0123456789abcdef".
Definition record : ReferenceRecord :=
  mkReference reference "op" "try" 7 "box" "rev" "rs" "shell" 1 400 SessionSample.receipt 35 None.
Definition r0 : FileStore Registry PersistedRegistry := empty_store reference_layout.
Definition r1 : FileStore Registry PersistedRegistry := (file_Create Some (λ _, 1) None os_ok record r0).2.
Definition r2 : FileStore Registry PersistedRegistry := (file_Revoke Some (λ _, 1) None os_rename_fails reference 60 r1).2.
Definition r3 : FileStore Registry PersistedRegistry := (file_Revoke Some (λ _, 1) None os_syncDir_fails reference 60 r2).2.

Lemma writable (f : Registry → result (unit * Registry)) s :
  registry_wf s → (∀ s', f s = Ok ((), s') → registry_wf s') → admissible reference_layout registry_wf (λ _, True) f s.
Proof. intros Hs Hf [] t Ht. split; [by apply Hf|done]. Qed.

Lemma reference_file_steps : rtc (registry_run Some (λ _, 1) Some (λ _, True)) r0 r1 ∧ rtc (registry_run Some (λ _, 1) Some (λ _, True)) r1 r3.
Proof.
  assert (Hj : ∀ (p b : PersistedRegistry), True → Some p = Some b → Some b = Some p) by (by intros p b _ [= ->]).
  assert (H0 : durable reference_layout (λ _, 1) Some registry_wf r0) by (split; [apply map_Forall_empty|done]).
  assert (S1 : registry_run Some (λ _, 1) Some (λ _, True) r0 r1).
  { apply run_create, writable; [by destruct H0|]. intros s' Hc. destruct H0. by eapply Create_spec. }
  destruct (registry_run_step Some (λ _, 1) Some (λ _, True) Hj _ _ S1 H0) as [H1 _].
  assert (S2 : registry_run Some (λ _, 1) Some (λ _, True) r1 r2).
  { apply run_revoke, writable; [by destruct H1|]. intros s' Hc. destruct H1. by eapply Revoke_spec. }
  destruct (registry_run_step Some (λ _, 1) Some (λ _, True) Hj _ _ S2 H1) as [H2 _].
  assert (S3 : registry_run Some (λ _, 1) Some (λ _, True) r2 r3).
  { apply run_revoke, writable; [by destruct H2|]. intros s' Hc. destruct H2. by eapply Revoke_spec. }
  split; [by apply rtc_once|]. eapply rtc_l; [exact S2|]. by apply rtc_once.
Qed.
End ReferenceFileRuns.

Lemma reference_registry_durable_witness :
  fs_state ReferenceFileRuns.r2 = fs_state ReferenceFileRuns.r1 ∧
  (rr_RevokedAt <$> References (fs_state ReferenceFileRuns.r3) !! ReferenceFileRuns.reference) = Some (Some 60) ∧
  file_NewRegistry (λ _, 1) Some "/var/lib/references.json" of_ok (fs_disk ReferenceFileRuns.r3)
    = Ok (mkFileStore (fs_state ReferenceFileRuns.r3) false (fs_disk ReferenceFileRuns.r3)).
Proof.
  split; [vm_compute; reflexivity|]. split; [vm_compute; reflexivity|].
  destruct ReferenceFileRuns.reference_file_steps as [S1 S2].
  refine (proj2 (reference_registry_durable Some (λ _, 1) Some (λ _, True) _ "/var/lib/references.json" _ _ _ S1 S2)).
  - intros p b _ [= ->]. reflexivity.
  - vm_compute; reflexivity.
Defined.
