(* ===== verification/SessionHandoffs.v ===== *)
(** * Registering, resolving and revoking handoffs

    [port.go] and [revocation.go] of [provider/session/reference] as programs over
    the registry, the session repository and the terminal runtime, with other
    callers of both repositories in between.  The mutex of the registrar keeps
    other registrations out while one runs: what may happen between its calls are
    revocations and calls of the session repository.  The closure [Dial] of an
    endpoint is a program of its own.

    The in-memory registry of [repository/memory] is the implementation in the
    examples. *)

From S2P Require Import Prelude Program LifecycleModel SessionModel SessionState SessionInvariant SessionGuarantees SessionPorts SessionReference.
From stdpp Require Import base gmap strings list fin_maps relations.
From Stdlib Require Import ZArith Lia.

Local Open Scope Z_scope.

(** ** Ports *)

Inductive handoff_eff : Type → Type :=
  | RNow : handoff_eff Time
  | RCtxErr (ctx : Context) : handoff_eff (option goerr)
  | RGenerate : handoff_eff (result string)
  (* Store *)
  | RCreate (ctx : Context) (record : ReferenceRecord) : handoff_eff (result unit)
  | RGet (ctx : Context) (value : string) : handoff_eff (result ReferenceRecord)
  | RFindRunning (ctx : Context) (source : Record_) : handoff_eff (result ReferenceRecord)
  | RRevoke (ctx : Context) (value : string) (revokedAt : Time) : handoff_eff (result unit)
  (* SessionReader *)
  | RGetOpenAt (ctx : Context) (operationID : string) (now : Time) : handoff_eff (result Record_)
  (* terminal.Attacher; the answer says whether there is a stream *)
  | RAttach (ctx : Context) (receipt : Receipt) : handoff_eff (result bool).

Abbreviation hprog := (Program.prog handoff_eff).

(** Both repositories, the last clock reading of the call and the terminals it
    attached to. *)
Record Handoffs := mkHandoffs { hs_registry : Registry; hs_sessions : State; hs_now : Time; hs_attached : list Receipt }.

Definition hs_set_registry (s : Registry) (σ : Handoffs) : Handoffs := mkHandoffs s (hs_sessions σ) (hs_now σ) (hs_attached σ).
Definition hs_set_sessions (s : State) (σ : Handoffs) : Handoffs := mkHandoffs (hs_registry σ) s (hs_now σ) (hs_attached σ).

Definition store_error (e : goerr) : Prop :=
  e = [Canceled : sentinel] ∨ e = [DeadlineExceeded : sentinel] ∨ e = [RefErrClosed] ∨ e = [RefErrDurability].

Definition store_write {X} (m : result (X * Registry)) (σ : Handoffs) (x : result X) (σ' : Handoffs) : Prop :=
  match m with
  | Ok (v, t) => (x = Ok v ∨ x = Err [RefErrDurability]) ∧ σ' = hs_set_registry t σ
  | Err e => x = Err e ∧ σ' = σ
  end ∨ (σ' = σ ∧ ∃ e, store_error e ∧ x = Err e).

Definition store_read {X} (r : result X) (σ : Handoffs) (x : result X) (σ' : Handoffs) : Prop :=
  σ' = σ ∧ (x = r ∨ ∃ e, store_error e ∧ x = Err e).

Definition handoff_respond {X} (e : handoff_eff X) : Handoffs → X → Handoffs → Prop :=
  match e in handoff_eff X return Handoffs → X → Handoffs → Prop with
  | RNow => λ σ x σ', σ' = mkHandoffs (hs_registry σ) (hs_sessions σ) x (hs_attached σ)
  | RCreate _ record => λ σ x σ', store_write (Create record (hs_registry σ)) σ x σ'
  | RGet _ value => λ σ x σ', store_read (Get value (hs_registry σ)) σ x σ'
  | RFindRunning _ source => λ σ x σ', store_read (FindRunning source (hs_registry σ)) σ x σ'
  | RRevoke _ value at_ => λ σ x σ', store_write (Revoke value at_ (hs_registry σ)) σ x σ'
  | RGetOpenAt _ id now => λ σ x σ', σ' = σ ∧ answers_read (GetOpenAt id now (hs_sessions σ)) (hs_sessions σ) x (hs_sessions σ)
  | RAttach _ receipt => λ σ _ σ', σ' = mkHandoffs (hs_registry σ) (hs_sessions σ) (hs_now σ) (receipt :: hs_attached σ)
  | _ => λ σ _ σ', σ' = σ
  end.

(** What others do in between: while a registration runs, and otherwise. *)
Inductive locked_step : Handoffs → Handoffs → Prop :=
  | locked_revoke value at_ σ s' : Revoke value at_ (hs_registry σ) = Ok ((), s') → locked_step σ (hs_set_registry s' σ)
  | locked_session op σ s' : next_state op (hs_sessions σ) = Ok s' → locked_step σ (hs_set_sessions s' σ).

Inductive other_step : Handoffs → Handoffs → Prop :=
  | other_locked σ σ' : locked_step σ σ' → other_step σ σ'
  | other_create record σ s' : Create record (hs_registry σ) = Ok ((), s') → other_step σ (hs_set_registry s' σ).

(** ** Registering *)

Definition failing {A} (e : goerr) : hprog (result A) := Ret (Err e).
Definition returning {A} (a : A) : hprog (result A) := Ret (Ok a).

Definition reference_contextError (ctx : Context) : hprog (option goerr) :=
  match ctx with CtxNil => Ret (Some [Canceled : sentinel]) | _ => call (RCtxErr ctx) end.

Definition MaxRegistrationAttempts : nat := 4.

Record Registration := mkRegistration { gn_Record : ReferenceRecord; gn_Evidence : EndpointEvidence }.
Definition registration (r : ReferenceRecord) : Registration := mkRegistration r (Evidence r).

Record Registrar := mkRegistrar { rg_store : bool; rg_clock : bool; rg_generator : bool }.

(** A missing generator is replaced by the secure one. *)
Definition NewRegistrar (store clock generator : bool) : result Registrar :=
  if decide (store = false ∨ clock = false) then Err [ErrUnavailable] else Ok (mkRegistrar store clock true).

Fixpoint register_attempts (attempts : nat) (ctx : Context) (source : Record_) (now : Time) : hprog (result Registration) :=
  match attempts with
  | O => failing [RefErrConflict]
  | S attempts =>
      generated ← call RGenerate;
      match generated with
      | Err e => failing e
      | Ok reference =>
          match NewReferenceRecord reference source now with
          | Err e => failing e
          | Ok record =>
              created ← call (RCreate ctx record);
              match created with
              | Ok _ => returning (registration record)
              | Err e => if errors_is e RefErrAlreadyExists then register_attempts attempts ctx source now else failing e
              end
          end
      end
  end.

Definition Register (r : Registrar) (ctx : Context) (source : Record_) : hprog (result Registration) :=
  if decide (rg_store r = false ∨ rg_clock r = false ∨ rg_generator r = false) then failing [ErrUnavailable] else
  err ← reference_contextError ctx;
  match err with
  | Some e => failing e
  | None =>
      found ← call (RFindRunning ctx source);
      match found with
      | Ok existing => if decide (is_Some (rr_RevokedAt existing)) then failing [ErrUnavailable] else returning (registration existing)
      | Err e =>
          if negb (errors_is e RefErrNotFound) then failing e else
          now ← call RNow;
          if decide (IsZero now) then failing [ErrUnavailable] else register_attempts MaxRegistrationAttempts ctx source now
      end
  end.

(** ** Resolving *)

Record Resolver := mkResolver { rs_store : bool; rs_sessions : bool; rs_attacher : bool; rs_clock : bool }.

Definition NewResolver (store sessions attacher clock : bool) : result Resolver :=
  if decide (store = false ∨ sessions = false ∨ attacher = false ∨ clock = false) then Err [ErrUnavailable]
  else Ok (mkResolver store sessions attacher clock).

(** An error of a port is hidden, unless the context ended. *)
Definition hide {A} (ctx : Context) : hprog (result A) :=
  err ← reference_contextError ctx; failing (match err with Some e => e | None => [ErrUnavailable] end).

Definition lookup_reference (r : Resolver) (ctx : Context) (reference : string) : hprog (result ReferenceRecord) :=
  if decide (rs_store r = false ∨ rs_sessions r = false ∨ rs_attacher r = false ∨ rs_clock r = false) then failing [ErrUnavailable] else
  err ← reference_contextError ctx;
  match err with
  | Some e => failing e
  | None =>
      if negb (sessionReferencePattern reference) then failing [ErrUnavailable] else
      now ← call RNow;
      if decide (IsZero now) then failing [ErrUnavailable] else
      got ← call (RGet ctx reference);
      match got with
      | Err _ => hide ctx
      | Ok record =>
          match activeAt record now with
          | Err e => failing e
          | Ok _ =>
              source ← call (RGetOpenAt ctx (rr_OperationID record) now);
              match source with
              | Err _ => hide ctx
              | Ok source => if is_ok (matchesSucceeded record source) then returning record else failing [ErrStale]
              end
          end
      end
  end.

Record Endpoint := mkEndpoint {
  ep_Reference : string; ep_SandboxID : string; ep_RuntimeSessionID : string; ep_CapabilityProfileID : string;
  ep_ConnectionGeneration : Z; ep_ExpiresAt : Time;
}.

Definition Resolve (r : Resolver) (ctx : Context) (reference : string) : hprog (result Endpoint) :=
  found ← lookup_reference r ctx reference;
  match found with
  | Err e => failing e
  | Ok record => returning (mkEndpoint (rr_Reference record) (rr_SandboxID record) (rr_RuntimeSessionID record)
                              (rr_CapabilityProfileID record) (rr_ConnectionGeneration record) (rr_ExpiresAt record))
  end.

(** [endpoint.Dial] *)
Definition Dial (r : Resolver) (reference : string) (dialCtx : Context) : hprog (result unit) :=
  fresh ← lookup_reference r dialCtx reference;
  match fresh with
  | Err e => failing e
  | Ok fresh =>
      stream ← call (RAttach dialCtx (terminalReceipt (rr_Receipt fresh)));
      match stream with
      | Err _ => hide dialCtx
      | Ok false => failing [ErrUnavailable]
      | Ok true => returning ()
      end
  end.

(** ** Revoking *)

Definition RevokeSucceededHandoff (store : bool) (ctx : Context) (source : Record_) (now : Time) : hprog (result unit) :=
  if decide (store = false ∨ IsZero now) then failing [ErrUnavailable] else
  err ← reference_contextError ctx;
  match err with
  | Some e => failing e
  | None =>
      match Record_Validate source, rc_Status source, rc_Handoff source with
      | Ok _, StatusSucceeded, Some handoff =>
          got ← call (RGet ctx (ho_InternalEndpointReference handoff));
          match got with
          | Err e => if errors_is e RefErrNotFound then returning () else failing e
          | Ok record =>
              match matchesSucceeded record source with
              | Err e => failing e
              | Ok _ =>
                  revoked ← call (RRevoke ctx (rr_Reference record) now);
                  match revoked with
                  | Ok _ => returning ()
                  | Err e => if errors_is e RefErrNotFound || errors_is e ErrRevoked then returning () else failing e
                  end
              end
          end
      | _, _, _ => failing [ErrStale]
      end
  end.

(** ** The in-memory registry *)

Record MemoryRegistry := mkMemoryRegistry { mr_state : Registry; mr_closed : bool }.

Definition NewMemoryRegistry : MemoryRegistry := mkMemoryRegistry NewRegistry false.

(** [err] is what [contextError] returned. *)
Definition registry_call {X} (err : option context_sentinel) (f : Registry → result (X * Registry)) (r : MemoryRegistry)
    : result X * MemoryRegistry :=
  match err with
  | Some c => (Err [c : sentinel], r)
  | None =>
      if mr_closed r then (Err [RefErrClosed], r) else
      match f (mr_state r) with
      | Ok (x, s) => (Ok x, mkMemoryRegistry s (mr_closed r))
      | Err e => (Err e, r)
      end
  end.
Definition registry_read {X} (err : option context_sentinel) (f : Registry → result X) : MemoryRegistry → result X * MemoryRegistry :=
  registry_call err (λ s, x ← f s; Ok (x, s)).

Definition registry_Create err record := registry_call err (Create record).
Definition registry_Get err value := registry_read err (Get value).
Definition registry_FindRunning err source := registry_read err (FindRunning source).
Definition registry_Revoke err value revokedAt := registry_call err (Revoke value revokedAt).
Definition registry_Close (r : MemoryRegistry) : MemoryRegistry := mkMemoryRegistry (mr_state r) true.

(** The registry composed with the session repository, a clock that stands still, a
    generator and a runtime; [hw_ctx] is what the context says. *)
Record HandoffWorld := mkHandoffWorld {
  hw_registry : MemoryRegistry; hw_sessions : State; hw_read : Time; hw_attached : list Receipt;
  hw_clock : Time; hw_generated : list string; hw_stream : bool; hw_ctx : option context_sentinel;
}.

Definition hw_set_registry (r : MemoryRegistry) (w : HandoffWorld) : HandoffWorld :=
  mkHandoffWorld r (hw_sessions w) (hw_read w) (hw_attached w) (hw_clock w) (hw_generated w) (hw_stream w) (hw_ctx w).

Definition hw_store {X} (f : MemoryRegistry → X * MemoryRegistry) (w : HandoffWorld) : X * HandoffWorld :=
  let '(x, r) := f (hw_registry w) in (x, hw_set_registry r w).

Definition hw_context (ctx : Context) (w : HandoffWorld) : option context_sentinel :=
  match ctx with CtxNil => Some Canceled | _ => hw_ctx w end.

Definition hw_handle {X} (e : handoff_eff X) : HandoffWorld → X * HandoffWorld :=
  match e in handoff_eff X return HandoffWorld → X * HandoffWorld with
  | RNow => λ w, (hw_clock w, mkHandoffWorld (hw_registry w) (hw_sessions w) (hw_clock w) (hw_attached w) (hw_clock w)
                                (hw_generated w) (hw_stream w) (hw_ctx w))
  | RCtxErr ctx => λ w, ((λ c, [SContext c]) <$> hw_context ctx w, w)
  | RGenerate => λ w,
      match hw_generated w with
      | [] => (Err [ErrExternal "rand"], w)
      | g :: gs => (Ok g, mkHandoffWorld (hw_registry w) (hw_sessions w) (hw_read w) (hw_attached w) (hw_clock w) gs (hw_stream w) (hw_ctx w))
      end
  | RCreate ctx record => λ w, hw_store (registry_Create (hw_context ctx w) record) w
  | RGet ctx value => λ w, hw_store (registry_Get (hw_context ctx w) value) w
  | RFindRunning ctx source => λ w, hw_store (registry_FindRunning (hw_context ctx w) source) w
  | RRevoke ctx value at_ => λ w, hw_store (registry_Revoke (hw_context ctx w) value at_) w
  | RGetOpenAt _ id now => λ w, (GetOpenAt id now (hw_sessions w), w)
  | RAttach _ receipt => λ w, (Ok (hw_stream w), mkHandoffWorld (hw_registry w) (hw_sessions w) (hw_read w) (receipt :: hw_attached w)
                                 (hw_clock w) (hw_generated w) (hw_stream w) (hw_ctx w))
  end.

Definition hw_abs (w : HandoffWorld) : Handoffs := mkHandoffs (mr_state (hw_registry w)) (hw_sessions w) (hw_read w) (hw_attached w).

Lemma store_error_ctx (c : context_sentinel) : store_error [c : sentinel].
Proof. unfold store_error. destruct c; auto. Qed.
Lemma store_error_closed : store_error [RefErrClosed].
Proof. unfold store_error. auto. Qed.

Lemma hw_store_write {X} err (f : Registry → result (X * Registry)) w :
  store_write (f (mr_state (hw_registry w))) (hw_abs w) (hw_store (registry_call err f) w).1 (hw_abs (hw_store (registry_call err f) w).2).
Proof.
  unfold hw_store, registry_call. destruct err as [c|]; [right; eauto using store_error_ctx|].
  destruct (mr_closed (hw_registry w)); [right; eauto using store_error_closed|].
  left. destruct (f _) as [[x s]|e]; [|done]. split; [by left|done].
Qed.

Lemma hw_store_read {X} err (f : Registry → result X) w :
  store_read (f (mr_state (hw_registry w))) (hw_abs w) (hw_store (registry_read err f) w).1 (hw_abs (hw_store (registry_read err f) w).2).
Proof.
  unfold hw_store, registry_read, registry_call. destruct err as [c|]; [split; eauto using store_error_ctx|].
  destruct (mr_closed (hw_registry w)); [split; eauto using store_error_closed|].
  destruct (f _) as [x|e]; (split; [done|by left]).
Qed.

Lemma hw_handle_responds {X} (e : handoff_eff X) w : handoff_respond e (hw_abs w) (hw_handle e w).1 (hw_abs (hw_handle e w).2).
Proof.
  destruct e; cbn [handoff_respond hw_handle]; try done.
  - by destruct (hw_generated w).
  - apply hw_store_write.
  - apply hw_store_read.
  - apply hw_store_read.
  - apply hw_store_write.
  - split; [done|]. split; [done|by left].
Qed.

Lemma hw_exec {A} (R : relation Handoffs) (p : hprog A) w :
  exec (@handoff_respond) R p (hw_abs w) (Some (interp (@hw_handle) p w).1) (hw_abs (interp (@hw_handle) p w).2).
Proof. apply interp_exec. intros. apply hw_handle_responds. Qed.

(** ** Interference *)

Definition hand_wf (σ : Handoffs) : Prop := registry_wf (hs_registry σ) ∧ session_wf (hs_sessions σ).

Definition hand_evolves (σ σ' : Handoffs) : Prop :=
  hand_wf σ → hand_wf σ' ∧ registry_evolves (hs_registry σ) (hs_registry σ') ∧
    state_evolves (hs_sessions σ) (hs_sessions σ') ∧ hs_attached σ' = hs_attached σ ∧ hs_now σ' = hs_now σ.

#[export] Instance hand_evolves_preorder : PreOrder hand_evolves.
Proof.
  split.
  - intros σ Hwf. split_and!; try done. apply state_evolves_refl.
  - intros σ1 σ2 σ3 H12 H23 Hwf. destruct (H12 Hwf) as (Hwf2 & ? & ? & ? & ?). destruct (H23 Hwf2) as (? & ? & ? & ? & ?).
    split_and!; try done; [by etrans|by eapply state_evolves_trans|congruence|congruence].
Qed.

Lemma locked_step_evolves σ σ' : locked_step σ σ' → hand_evolves σ σ'.
Proof.
  intros [value at_ s s' Hr|op s s' Hn] [Hreg Hses]; unfold hand_wf; cbn.
  - destruct (Revoke_spec _ _ _ _ Hreg Hr). split_and!; try done. apply state_evolves_refl.
  - split_and!; try done; [by eapply next_state_wf|by eapply next_state_evolves].
Qed.

Lemma other_step_evolves σ σ' : other_step σ σ' → hand_evolves σ σ'.
Proof.
  intros [s s' Hl|record s s' Hc]; [by apply locked_step_evolves|]. intros [Hreg Hses]. unfold hand_wf. cbn.
  destruct (Create_spec _ _ _ Hreg Hc). split_and!; try done. apply state_evolves_refl.
Qed.

Lemma interference_evolves (R : relation Handoffs) σ σ' :
  (∀ σ σ', R σ σ' → hand_evolves σ σ') → rtc R σ σ' → hand_evolves σ σ'.
Proof. intros HR. induction 1; [done|]. etrans; [by apply HR|done]. Qed.

(** Reasoning about a program among others: [R] is what they do, [I] an invariant
    they keep. *)
Section interference.
Context (R : relation Handoffs) (I : Handoffs → Prop).
Context (HR : ∀ σ σ', R σ σ' → hand_evolves σ σ').
Context (HI : ∀ σ σ', I σ → hand_evolves σ σ' → I σ').
Abbreviation hsafe := (safe (@handoff_respond) R I).

(** One call: others act, then the port answers. *)
Lemma hsafe_call {X A} (e : handoff_eff X) (k : X → hprog A) Q σ :
  I σ →
  (∀ σ0 x σ1, I σ0 → rtc R σ σ0 → hand_evolves σ σ0 → handoff_respond e σ0 x σ1 → I σ1 ∧ hsafe (k x) Q σ1) →
  hsafe (Vis e k) Q σ.
Proof using HR HI.
  intros Hd H σ0 x σ1 Hi Hr. pose proof (interference_evolves R σ σ0 HR Hi) as He. apply (H σ0 x σ1); [by eapply HI|done..].
Qed.

Lemma hsafe_contextError {A} ctx (k : option goerr → hprog A) Q σ :
  I σ → (∀ err σ1, I σ1 → rtc R σ σ1 → hand_evolves σ σ1 → hsafe (k err) Q σ1) → hsafe (reference_contextError ctx ≫= k) Q σ.
Proof using HR HI.
  intros Hd H. unfold reference_contextError. destruct ctx; [by apply (H _ σ)|..].
  all: apply hsafe_call; [done|]; intros σ0 x σ1 Hd0 Hi He ->; split; [done|by apply (H _ σ0)].
Qed.
End interference.

(** ** Resolution and attachment *)

(** The reference is on record, and names a session that succeeded with it. *)
Definition resolves (reference : string) (r : ReferenceRecord) (σ : Handoffs) : Prop :=
  (∃ r', References (hs_registry σ) !! reference = Some r' ∧ reference_evolves r r') ∧
  (∃ source, Sessions (hs_sessions σ) !! rr_OperationID r = Some source ∧ matchesSucceeded r source = Ok ()).

Lemma matchesSucceeded_final r source : matchesSucceeded r source = Ok () → rc_Status source = StatusSucceeded.
Proof. unfold matchesSucceeded, succeeded_handoff, refuse. destruct (Record_Validate source), (rc_Status source); done. Qed.

Lemma resolves_stable reference r σ σ' : hand_wf σ → hand_evolves σ σ' → resolves reference r σ → resolves reference r σ'.
Proof.
  intros Hwf He ((r' & Hr' & Her) & source & Hs & Hm). destruct (He Hwf) as (_ & Hreg & (Hses & _) & _ & _). split.
  - destruct (Hreg _ _ Hr') as (r2 & ? & ?). eauto using reference_evolves_trans.
  - destruct (Hses _ _ Hs) as (source' & Hs' & _ & _ & Hfin & _). exists source'.
    rewrite Hfin in * by (by rewrite (matchesSucceeded_final r source Hm)). done.
Qed.

Definition is_revoked (reference : string) (σ : Handoffs) : Prop :=
  ∃ r, References (hs_registry σ) !! reference = Some r ∧ is_Some (rr_RevokedAt r).

Lemma is_revoked_stable reference σ σ' : hand_wf σ → hand_evolves σ σ' → is_revoked reference σ → is_revoked reference σ'.
Proof.
  intros Hwf He (r & Hr & [t Ht]). destruct (He Hwf) as (_ & Hreg & _). destruct (Hreg _ _ Hr) as (r' & Hr' & Her).
  exists r'. split; [done|]. destruct Her as [->|(Hn & _)]; [by eexists|congruence].
Qed.

(** What a call that started in [start] did: it attached to nothing, or once, to
    the terminal of a session that succeeded with this reference. *)
Definition attached_once (reference : string) (start σ : Handoffs) : Prop :=
  hs_attached σ = hs_attached start ∨
  ¬ is_revoked reference start ∧
  ∃ r, hs_attached σ = terminalReceipt (rr_Receipt r) :: hs_attached start ∧ resolves reference r σ ∧ hs_now σ < rr_ExpiresAt r.

Section resolving.
Context (reference : string) (start : Handoffs).

Definition dialing (σ : Handoffs) : Prop := hand_wf σ ∧ attached_once reference start σ.
Abbreviation hsafe := (safe (@handoff_respond) other_step dialing).

Lemma dialing_stable σ σ' : dialing σ → hand_evolves σ σ' → dialing σ'.
Proof using Type.
  intros [Hwf Ha] He. destruct (He Hwf) as (Hwf' & _ & _ & Hat & Hn). split; [done|]. unfold attached_once. rewrite Hat, Hn.
  destruct Ha as [Ha|(Hr & r & Ha & Hres & Hexp)]; [by left|right]. split; [done|]. exists r.
  split_and!; try done. by apply (resolves_stable reference r σ σ').
Qed.

#[local] Ltac next_call := first
  [ apply (hsafe_contextError other_step dialing other_step_evolves dialing_stable)
  | apply (hsafe_call other_step dialing other_step_evolves dialing_stable) ]; [done|].

(** Nothing was attached yet, and what was looked up resolves. *)
Definition looked_up (x : result ReferenceRecord) (σ : Handoffs) : Prop :=
  dialing σ ∧ hs_attached σ = hs_attached start ∧
  match x with
  | Ok r => resolves reference r σ ∧ hs_now σ < rr_ExpiresAt r ∧ ¬ is_revoked reference start
  | Err _ => True
  end.

Lemma looked_up_error e σ : dialing σ → hs_attached σ = hs_attached start → looked_up (Err e) σ.
Proof using Type. done. Qed.

Lemma hide_looked_up ctx σ : dialing σ → hs_attached σ = hs_attached start → hsafe (hide ctx) looked_up σ.
Proof using Type.
  intros Hd Ha. unfold hide. next_call. intros err σ1 Hd1 _ He. cbn. split_and!; try done.
  destruct Hd as [Hwf _]. by destruct (He Hwf) as (_ & _ & _ & -> & _).
Qed.

Lemma Get_Ok value s r : Get value s = Ok r → References s !! value = Some r.
Proof using Type. unfold Get, refuse. destruct (References s !! value); [|done]. by destruct (is_ok _); intros; simplify_eq. Qed.

Lemma GetOpenAt_Ok id now s r : GetOpenAt id now s = Ok r → Sessions s !! id = Some r.
Proof using Type. unfold GetOpenAt, corrupt, refuse. destruct (Sessions s !! id); [|done]. intros H. by inv_ok H. Qed.

Lemma store_read_Ok {X} (r : result X) σ v σ' : store_read r σ (Ok v) σ' → r = Ok v ∧ σ' = σ.
Proof using Type. by intros [-> [<-|(e & _ & ?)]]. Qed.

Lemma hsafe_lookup resolver ctx : hand_wf start → hsafe (lookup_reference resolver ctx reference) looked_up start.
Proof using Type.
  intros Hwf. assert (Hd : dialing start) by (split; [done|by left]). unfold lookup_reference. case_decide; [done|].
  next_call. intros err σ1 [Hwf1 Hd1] _ He1. destruct (He1 Hwf) as (_ & _ & _ & Ha1 & _).
  destruct err as [e|]; [done|]. destruct (negb _); [done|].
  next_call. intros σ2 now σ3 [Hwf2 Hd2] _ He2 ->. destruct (He2 Hwf1) as (_ & _ & _ & Ha2 & _).
  set (σ3 := mkHandoffs _ _ _ _). assert (Hd3 : dialing σ3) by (split; [done|left; cbn; congruence]). split; [done|].
  case_decide; [apply looked_up_error; [done|cbn; congruence]|].
  next_call. intros σ4 got σ5 Hd4 _ He4 Hgot. destruct (He4 Hwf2) as (_ & _ & _ & Ha4 & Hn4). cbn in Ha4, Hn4.
  assert (Ha : hs_attached σ4 = hs_attached start) by congruence.
  destruct got as [record|e]; [|destruct Hgot as [-> _]; split; [done|by apply hide_looked_up]].
  apply store_read_Ok in Hgot as [Hrec%Get_Ok ->]. split; [done|].
  destruct (activeAt record now) as [[]|e] eqn:Eact; [|by apply looked_up_error].
  unfold activeAt, refuse in Eact. inv_ok Eact. split_guards. destruct Hd4 as [Hwf4 Hd4].
  next_call. intros σ6 got σ7 Hd6 _ He6 [-> Hses]. split; [done|].
  destruct (He6 Hwf4) as (_ & Hreg6 & _ & Ha6 & Hn6).
  destruct got as [source|e]; [|apply hide_looked_up; [done|congruence]].
  destruct (matchesSucceeded record source) as [[]|] eqn:Em; [|apply looked_up_error; [done|congruence]].
  cbn. split_and!; [done|congruence| |unfold Before in *; rewrite Hn6, Hn4; tauto|].
  - destruct (Hreg6 _ _ Hrec) as (r' & Hr' & Her). split; [eauto|]. exists source. split; [|done].
    by apply answers_read_value in Hses as [Hg%GetOpenAt_Ok _].
  - intros Hrev. apply (is_revoked_stable _ _ _ Hwf He1), (is_revoked_stable _ _ _ Hwf1 He2) in Hrev.
    apply (is_revoked_stable reference σ3 σ4 Hwf2 He4) in Hrev as (r & Hr & [t Hs]). simplify_eq.
Qed.

Lemma hsafe_Dial resolver ctx :
  hand_wf start → hsafe (Dial resolver reference ctx) (λ x σ, x = Ok () → hs_attached σ ≠ hs_attached start) start.
Proof using Type.
  intros Hwf. unfold Dial. apply safe_bind. eapply safe_mono; [|by apply (hsafe_lookup resolver ctx)].
  intros [r|e] σ (Hd & Ha & Hr); [|done]. destruct Hr as (Hres & Hexp & Hrev).
  next_call. intros σ0 stream σ1 [Hwf0 Hd0] _ He ->. destruct Hd as [Hwf1 _].
  destruct (He Hwf1) as (_ & _ & _ & Ha0 & Hn0). rewrite Ha0, Ha.
  assert (Hd1 : dialing (mkHandoffs (hs_registry σ0) (hs_sessions σ0) (hs_now σ0) (terminalReceipt (rr_Receipt r) :: hs_attached start))).
  { split; [done|]. right. split; [done|]. exists r. split_and!; [done| |cbn; congruence].
    by apply (resolves_stable reference r σ σ0). }
  split; [done|]. destruct stream as [[]|e].
  - cbn. intros _ Hl. apply (f_equal length) in Hl. cbn in Hl. lia.
  - done.
  - unfold hide. next_call. by intros err σ2 _ _ _.
Qed.
End resolving.

(** C19 (safety): whoever presents a reference is attached only to the terminal it was
    issued for.  A call that dials, with other callers of the registry and of the
    session repository in between and stopped at any point, attaches at most
    once, and then to the terminal of the operation the reference is registered
    for: that operation is on record as succeeded with exactly this reference as
    its handoff and this terminal as its allocation, and the reference had not
    expired at the call's reading of the clock.  If the reference was revoked
    when the call began, nothing is attached. *)
Theorem attachment_is_authorised resolver reference ctx σ o σ' :
  hand_wf σ → exec (@handoff_respond) other_step (Dial resolver reference ctx) σ o σ' →
  hs_attached σ' = hs_attached σ ∧ o ≠ Some (Ok ()) ∨
  ¬ is_revoked reference σ ∧
  ∃ r source h a,
    hs_attached σ' = terminalReceipt (rr_Receipt r) :: hs_attached σ ∧ hs_now σ' < rr_ExpiresAt r ∧
    Sessions (hs_sessions σ') !! rr_OperationID r = Some source ∧ rc_Status source = StatusSucceeded ∧
    rc_Handoff source = Some h ∧ ho_InternalEndpointReference h = reference ∧
    rc_Allocation source = Some a ∧ av_Receipt a = rr_Receipt r.
Proof.
  intros Hwf Hx. assert (Hd : dialing reference σ σ) by (split; [done|by left]).
  destruct (safe_exec _ _ _ _ _ _ _ _ Hd (hsafe_Dial reference σ resolver ctx Hwf) Hx) as [[Hwf' [Ha|(Hrev & r & Ha & Hres & Hexp)]] HQ].
  - left. split; [done|]. intros ->. by apply (HQ _ eq_refl).
  - right. split; [done|]. destruct Hres as ((r' & Hr' & Her) & source & Hs & Hm).
    assert (rr_Reference r = reference) as Hkey.
    { destruct Hwf' as [Hreg _]. destruct (Hreg _ _ Hr') as [<- _]. by destruct (reference_evolves_operation _ _ Her) as [_ ->]. }
    unfold matchesSucceeded, succeeded_handoff, refuse in Hm. destruct (Record_Validate source) as [[]|]; [|done].
    destruct (rc_Status source) eqn:Est; try done. destruct (rc_Handoff source) as [h|] eqn:Eh; [|done].
    destruct (rc_Allocation source) as [a|] eqn:Ea; [|done]. destruct (av_State a); try done. inv_ok Hm. split_guards.
    exists r, source, h, a. split_and!; try done; [congruence|]. by apply sameReceipt_eq.
Qed.

(** ** Revocation *)

Lemma hand_wf_stable σ σ' : hand_wf σ → hand_evolves σ σ' → hand_wf σ'.
Proof. intros Hwf He. by destruct (He Hwf). Qed.

Definition on_record (reference : string) (σ : Handoffs) : Prop := is_Some (References (hs_registry σ) !! reference).

Lemma on_record_stable reference σ σ' : hand_wf σ → hand_evolves σ σ' → on_record reference σ → on_record reference σ'.
Proof. intros Hwf He [r Hr]. destruct (He Hwf) as (_ & Hreg & _). destruct (Hreg _ _ Hr) as (r' & ? & _). by exists r'. Qed.

Lemma Get_found value s e : is_Some (References s !! value) → Get value s = Err e → errors_is e RefErrNotFound = false.
Proof. intros [r Hr]. unfold Get, refuse. rewrite Hr. destruct (is_ok _); [done|]. by intros [= <-]. Qed.

Lemma store_error_found e : store_error e → errors_is e RefErrNotFound = false ∧ errors_is e ErrRevoked = false ∧ errors_is e RefErrAlreadyExists = false.
Proof. by intros [->|[->|[->| ->]]]. Qed.

Lemma Revoke_found value t s e :
  is_Some (References s !! value) → Revoke value t s = Err e → errors_is e RefErrNotFound = false ∧ errors_is e ErrRevoked = false.
Proof.
  intros [r Hr]. unfold Revoke, refuse. rewrite Hr. case_decide; [by intros [= <-]|]. case_decide; [done|].
  unfold ReferenceRecord_Validate, refuse. cbn. repeat case_decide; cbn; intros ?; by simplify_eq.
Qed.

Lemma hsafe_Revoke store ctx source now h σ :
  hand_wf σ → rc_Handoff source = Some h → on_record (ho_InternalEndpointReference h) σ →
  safe (@handoff_respond) other_step hand_wf (RevokeSucceededHandoff store ctx source now)
    (λ x σ', hand_wf σ' ∧ (x = Ok () → is_revoked (ho_InternalEndpointReference h) σ')) σ.
Proof.
  intros Hwf Hh Hon. unfold RevokeSucceededHandoff. case_decide; [done|].
  apply (hsafe_contextError other_step hand_wf other_step_evolves hand_wf_stable); [done|]. intros [e|] σ1 Hwf1 _ He1; [done|].
  apply (on_record_stable _ _ _ Hwf He1) in Hon. destruct (Record_Validate source); [|done].
  destruct (rc_Status source); try done. rewrite Hh.
  apply (hsafe_call other_step hand_wf other_step_evolves hand_wf_stable); [done|]. intros σ2 got σ3 Hwf2 _ He2 Hgot.
  apply (on_record_stable _ _ _ Hwf1 He2) in Hon. destruct got as [record|e].
  2:{ destruct Hgot as [-> Hgot]. split; [done|]. assert (errors_is e RefErrNotFound = false) as ->; [|done].
      destruct Hgot as [Hg|(e' & He' & [= ->])]; [by eapply Get_found|by apply store_error_found]. }
  apply store_read_Ok in Hgot as [Hrec%Get_Ok ->]. split; [done|]. destruct (matchesSucceeded record source); [|done].
  assert (rr_Reference record = ho_InternalEndpointReference h) as -> by (destruct Hwf2 as [Hreg _]; by destruct (Hreg _ _ Hrec)).
  apply (hsafe_call other_step hand_wf other_step_evolves hand_wf_stable); [done|]. intros σ4 x σ5 Hwf4 _ He4 Hx.
  apply (on_record_stable _ _ _ Hwf2 He4) in Hon. destruct Hx as [Hx|(-> & e & He & ->)].
  2:{ split; [done|]. apply store_error_found in He as (-> & -> & _). done. }
  destruct (Revoke _ _ _) as [[[] s']|e] eqn:Er.
  - destruct Hx as [Hx ->]. destruct Hwf4 as [Hreg Hses]. destruct (Revoke_spec _ _ _ _ Hreg Er) as [Hreg' _].
    split; [done|]. apply Revoke_Ok in Er as (r & r' & Hr & Hm & _ & Hrev & _).
    assert (is_revoked (ho_InternalEndpointReference h) (hs_set_registry s' σ4)) by (exists r'; cbn; by rewrite Hm, lookup_insert_eq).
    destruct Hx as [-> | ->]; done.
  - destruct Hx as [-> ->]. split; [done|]. apply (Revoke_found _ _ _ _ Hon) in Er as [-> ->]. done.
Qed.

(** C20 (safety): once the handoff of a session was revoked, nobody is attached to its
    terminal any more: when a revocation of a reference that is on record has
    returned without error, then whatever others did before, in between and
    after, every call that dials this reference later attaches to nothing and
    fails. *)
Theorem revocation_is_final store ctx source now h resolver ctx' σ0 σ1 σ2 o σ3 :
  hand_wf σ0 → rc_Handoff source = Some h → on_record (ho_InternalEndpointReference h) σ0 →
  exec (@handoff_respond) other_step (RevokeSucceededHandoff store ctx source now) σ0 (Some (Ok ())) σ1 →
  rtc other_step σ1 σ2 →
  exec (@handoff_respond) other_step (Dial resolver (ho_InternalEndpointReference h) ctx') σ2 o σ3 →
  hs_attached σ3 = hs_attached σ2 ∧ o ≠ Some (Ok ()).
Proof.
  intros Hwf Hh Hon Hrev Hothers Hdial.
  destruct (safe_exec _ _ _ _ _ _ _ _ Hwf (hsafe_Revoke store ctx source now h σ0 Hwf Hh Hon) Hrev) as [_ HQ].
  destruct (HQ _ eq_refl) as [Hwf1 Hr]. specialize (Hr eq_refl).
  pose proof (interference_evolves other_step σ1 σ2 other_step_evolves Hothers) as He.
  pose proof (is_revoked_stable _ _ _ Hwf1 He Hr) as Hr2. pose proof (hand_wf_stable _ _ Hwf1 He) as Hwf2.
  assert (Hd : dialing (ho_InternalEndpointReference h) σ2 σ2) by (split; [done|by left]).
  destruct (safe_exec _ _ _ _ _ _ _ _ Hd (hsafe_Dial _ σ2 resolver ctx' Hwf2) Hdial) as [[_ [Ha|(Hn & _)]] HQ2]; [|done].
  split; [done|]. intros ->. by apply (HQ2 _ eq_refl).
Qed.

(** ** Registration *)

Definition one_reference (s : Registry) : Prop :=
  ∀ k1 k2 r1 r2, References s !! k1 = Some r1 → References s !! k2 = Some r2 → rr_OperationID r1 = rr_OperationID r2 → k1 = k2.

(** No reference of the operation. *)
Definition unregistered (operationID : string) (s : Registry) : Prop :=
  ∀ k r, References s !! k = Some r → rr_OperationID r ≠ operationID.

(** Others do not register. *)
Lemma locked_registry σ σ' k r' :
  locked_step σ σ' → References (hs_registry σ') !! k = Some r' →
  ∃ r, References (hs_registry σ) !! k = Some r ∧ rr_OperationID r = rr_OperationID r'.
Proof.
  intros [value at_ s s' Hr|op s s' _] Hk; cbn in Hk; [|eauto].
  apply Revoke_Ok in Hr as (r & r0 & Hr & Hm & He & _). rewrite Hm in Hk. destruct (decide (k = value)) as [->|Hne].
  - rewrite lookup_insert_eq in Hk. simplify_eq. destruct (reference_evolves_operation _ _ He) as [-> _]. eauto.
  - rewrite lookup_insert_ne in Hk by done. eauto.
Qed.

Lemma locked_registry_run σ σ' k r' :
  rtc locked_step σ σ' → References (hs_registry σ') !! k = Some r' →
  ∃ r, References (hs_registry σ) !! k = Some r ∧ rr_OperationID r = rr_OperationID r'.
Proof.
  intros Hrun. revert r'. induction Hrun as [|σ1 σ2 σ3 Hstep _ IH]; intros r' Hk; [eauto|].
  destruct (IH _ Hk) as (r2 & Hr2 & <-). by eapply locked_registry.
Qed.

(** While a registration runs, since the registry was [base]. *)
Definition registering (base : Registry) (σ : Handoffs) : Prop :=
  hand_wf σ ∧ one_reference (hs_registry σ) ∧ registry_evolves base (hs_registry σ).

Lemma one_reference_locked σ σ' : one_reference (hs_registry σ) → rtc locked_step σ σ' → one_reference (hs_registry σ').
Proof.
  intros H Hrun k1 k2 r1 r2 H1 H2 Hop. destruct (locked_registry_run _ _ _ _ Hrun H1) as (? & ? & ?).
  destruct (locked_registry_run _ _ _ _ Hrun H2) as (? & ? & ?). eapply H; eauto. congruence.
Qed.

Lemma unregistered_locked op σ σ' : unregistered op (hs_registry σ) → rtc locked_step σ σ' → unregistered op (hs_registry σ').
Proof. intros H Hrun k r Hk. destruct (locked_registry_run _ _ _ _ Hrun Hk) as (r0 & Hr0 & <-). eauto. Qed.

Lemma one_reference_create record s s' :
  one_reference s → unregistered (rr_OperationID record) s → Create record s = Ok ((), s') → one_reference s'.
Proof.
  intros Hone Hun (_ & _ & ->)%Create_Ok k1 k2 r1 r2 H1 H2 Hop. cbn in H1, H2.
  apply lookup_insert_Some in H1 as [[<- <-]|[? H1]], H2 as [[<- <-]|[? H2]]; [done| | |by eapply Hone];
    exfalso; by eapply Hun.
Qed.

Lemma NewReferenceRecord_Ok reference source now r :
  NewReferenceRecord reference source now = Ok r →
  rr_Reference r = reference ∧ rr_OperationID r = or_OperationID (rc_Request source) ∧ rr_RevokedAt r = None.
Proof.
  unfold NewReferenceRecord, refuse. intros H. inv_ok H. destruct (running_receipt source); [|done]. inv_ok H. done.
Qed.

(** The outcome of a registration: its reference is on record for the operation of
    the source. *)
Definition registered_as (source : Record_) (x : result Registration) (σ : Handoffs) : Prop :=
  match x with
  | Ok g => gn_Evidence g = Evidence (gn_Record g) ∧ rr_OperationID (gn_Record g) = or_OperationID (rc_Request source) ∧
            References (hs_registry σ) !! rr_Reference (gn_Record g) = Some (gn_Record g)
  | Err _ => True
  end.

Section registering.
Context (base : Registry).
Abbreviation rsafe := (safe (@handoff_respond) locked_step (registering base)).

Lemma rsafe_call {X A} (e : handoff_eff X) (k : X → hprog A) Q σ :
  registering base σ →
  (∀ σ0 x σ1, registering base σ0 → rtc locked_step σ σ0 → handoff_respond e σ0 x σ1 → registering base σ1 ∧ rsafe (k x) Q σ1) →
  rsafe (Vis e k) Q σ.
Proof using Type.
  intros (Hwf & Hone & Hb) H σ0 x σ1 Hi Hr. apply (H σ0 x σ1); [|done..].
  destruct (interference_evolves locked_step _ _ locked_step_evolves Hi Hwf) as (? & ? & _).
  split_and!; [done|by eapply one_reference_locked|by etrans].
Qed.

Lemma rsafe_attempts n ctx source now σ :
  registering base σ → unregistered (or_OperationID (rc_Request source)) (hs_registry σ) →
  rsafe (register_attempts n ctx source now) (registered_as source) σ.
Proof using Type.
  revert σ. induction n as [|n IH]; intros σ Hr Hun; cbn [register_attempts]; [done|].
  apply rsafe_call; [done|]. intros σ0 got σ1 Hr0 Hi ->. split; [done|]. apply (unregistered_locked _ _ _ Hun) in Hi as Hun0.
  destruct got as [reference|e]; [|done]. destruct (NewReferenceRecord _ _ _) as [record|] eqn:En; [|done].
  apply NewReferenceRecord_Ok in En as (_ & Hop & _).
  apply rsafe_call; [done|]. intros σ2 x σ3 Hr2 Hi2 Hx. apply (unregistered_locked _ _ _ Hun0) in Hi2 as Hun2.
  destruct Hx as [Hx|(-> & e & He & ->)].
  2:{ split; [done|]. by apply store_error_found in He as (_ & _ & ->). }
  destruct (Create record _) as [[[] s']|e] eqn:Ec.
  - destruct Hx as [Hx ->]. destruct Hr2 as ([Hreg Hses] & Hone & Hb). destruct (Create_spec _ _ _ Hreg Ec). split.
    { split_and!; [done| |by etrans]. eapply one_reference_create; [done| |done]. by rewrite Hop. }
    apply Create_Ok in Ec as (_ & _ & ->). destruct Hx as [-> | ->]; [|done]. cbn. by rewrite lookup_insert_eq.
  - destruct Hx as [-> ->]. split; [done|]. destruct (errors_is e RefErrAlreadyExists); [|done]. by apply IH.
Qed.

Lemma rsafe_Register registrar ctx source σ :
  registering base σ → rsafe (Register registrar ctx source) (registered_as source) σ.
Proof using Type.
  intros Hr. unfold Register. case_decide; [done|].
  assert (Hgo : ∀ σ1, registering base σ1 → rsafe (found ← call (RFindRunning ctx source);
      match found with
      | Ok existing => if decide (is_Some (rr_RevokedAt existing)) then failing [ErrUnavailable] else returning (registration existing)
      | Err e =>
          if negb (errors_is e RefErrNotFound) then failing e else
          now ← call RNow;
          if decide (IsZero now) then failing [ErrUnavailable] else register_attempts MaxRegistrationAttempts ctx source now
      end) (registered_as source) σ1).
  { intros σ1 Hr1. apply rsafe_call; [done|]. intros σ2 x σ3 Hr2 _ Hx. destruct x as [existing|e].
    - apply store_read_Ok in Hx as [Hx%FindRunning_Ok ->]. split; [done|]. case_decide; [done|].
      destruct Hx as (Hop & [k Hk] & _). cbn. split_and!; [done|done|].
      destruct Hr2 as ([Hreg _] & _). by destruct (Hreg _ _ Hk) as [-> _].
    - destruct Hx as [-> Hx]. split; [done|]. destruct (errors_is e RefErrNotFound) eqn:Ee; [|done]. cbn [negb].
      assert (Hun : unregistered (or_OperationID (rc_Request source)) (hs_registry σ2)).
      { destruct Hx as [Hx|(e' & He' & [= ->])]; [exact (FindRunning_miss source _ e (eq_sym Hx) Ee)|]. apply store_error_found in He' as (He' & _). congruence. }
      apply rsafe_call; [done|]. intros σ4 now σ5 Hr4 Hi ->. split; [done|]. case_decide; [done|].
      apply rsafe_attempts; [done|]. cbn. by eapply unregistered_locked. }
  unfold reference_contextError. destruct ctx; [done|..].
  all: apply rsafe_call; [done|]; intros σ0 err σ1 Hr0 _ ->; split; [done|]; destruct err as [e|]; [done|by apply Hgo].
Qed.
End registering.

Definition registry_step (σ σ' : Handoffs) : Prop :=
  locked_step σ σ' ∨ ∃ registrar ctx source o, exec (@handoff_respond) locked_step (Register registrar ctx source) σ o σ'.

Lemma registering_refl σ : hand_wf σ → one_reference (hs_registry σ) → registering (hs_registry σ) σ.
Proof. intros. split; [done|]. by split. Qed.

Lemma registry_step_spec σ σ' : registry_step σ σ' → hand_wf σ → one_reference (hs_registry σ) → registering (hs_registry σ) σ'.
Proof.
  intros [Hl|(registrar & ctx & source & o & Hx)] Hwf Hone.
  - destruct (locked_step_evolves _ _ Hl Hwf) as (? & ? & _). split_and!; try done. by eapply one_reference_locked, rtc_once.
  - pose proof (registering_refl σ Hwf Hone) as Hr.
    by destruct (safe_exec _ _ _ _ _ _ _ _ Hr (rsafe_Register (hs_registry σ) registrar ctx source σ Hr) Hx) as [? _].
Qed.

Lemma registry_run_spec σ σ' : rtc registry_step σ σ' → hand_wf σ → one_reference (hs_registry σ) → registering (hs_registry σ) σ'.
Proof.
  induction 1 as [σ|σ1 σ2 σ3 Hs _ IH]; intros Hwf Hone; [by apply registering_refl|].
  destruct (registry_step_spec _ _ Hs Hwf Hone) as (Hwf2 & Hone2 & Hb). destruct (IH Hwf2 Hone2) as (? & ? & ?).
  split_and!; try done. by etrans.
Qed.

(** an operation gets one reference.  Starting from an empty registry,
    whatever registrations, revocations and calls of the session repository
    happened, whichever of them failed or stopped half way and whatever the
    generator produced, two registrations of one operation that succeed return
    the same reference and the same evidence, also when the first answer was
    lost and the registration repeated. *)
Theorem registration_is_idempotent σ0 σ1 σ2 σ3 σ4 registrar registrar' ctx ctx' source source' g g' :
  hs_registry σ0 = NewRegistry → session_wf (hs_sessions σ0) → rtc registry_step σ0 σ1 →
  exec (@handoff_respond) locked_step (Register registrar ctx source) σ1 (Some (Ok g)) σ2 → rtc registry_step σ2 σ3 →
  exec (@handoff_respond) locked_step (Register registrar' ctx' source') σ3 (Some (Ok g')) σ4 →
  or_OperationID (rc_Request source') = or_OperationID (rc_Request source) →
  rr_Reference (gn_Record g') = rr_Reference (gn_Record g) ∧ gn_Evidence g' = gn_Evidence g.
Proof.
  intros H0 Hses Hrun1 Hx1 Hrun2 Hx2 Hop.
  assert (Hwf0 : hand_wf σ0) by (split; [rewrite H0; apply map_Forall_empty|done]).
  assert (Hone0 : one_reference (hs_registry σ0)) by (rewrite H0; intros k1 k2 r1 r2 H1; cbn in H1; by rewrite lookup_empty in H1).
  destruct (registry_run_spec _ _ Hrun1 Hwf0 Hone0) as (Hwf1 & Hone1 & _).
  pose proof (registering_refl σ1 Hwf1 Hone1) as Hr1.
  destruct (safe_exec _ _ _ _ _ _ _ _ Hr1 (rsafe_Register _ registrar ctx source σ1 Hr1) Hx1) as [(Hwf2 & Hone2 & _) Hg].
  destruct (Hg _ eq_refl) as (Hev & Hop1 & Hrec).
  destruct (registry_run_spec _ _ Hrun2 Hwf2 Hone2) as (Hwf3 & Hone3 & Hb3).
  pose proof (registering_refl σ3 Hwf3 Hone3) as Hr3.
  destruct (safe_exec _ _ _ _ _ _ _ _ Hr3 (rsafe_Register _ registrar' ctx' source' σ3 Hr3) Hx2) as [(_ & Hone4 & Hb4) Hg'].
  destruct (Hg' _ eq_refl) as (Hev' & Hop2 & Hrec').
  destruct (registry_evolves_trans _ _ _ Hb3 Hb4 _ _ Hrec) as (r & Hr & He).
  assert (rr_Reference (gn_Record g') = rr_Reference (gn_Record g)) as Heq.
  { eapply Hone4; [done..|]. destruct (reference_evolves_operation _ _ He). congruence. }
  split; [done|]. rewrite Hev, Hev'. unfold Evidence. f_equal; [done|]. rewrite Heq in Hrec'. simplify_eq.
  by destruct He as [->|(_ & t & ->)].
Qed.

(** ** A sample run: an operation is registered twice, succeeds, is dialled and revoked *)

Module HandoffRuns.
Definition reference : string := "ref:session:0123456789abcdef0123456789abcdef".
Definition running : Record_ := mkRecord SessionSample.request StatusRunning 10 30 (Some SessionSample.evidence) None.
Definition succeeded : Record_ :=
  mkRecord SessionSample.request StatusSucceeded 10 40 (Some SessionSample.evidence)
    (Some (handoff_of SessionSample.request (mkEndpointEvidence reference 1))).
Definition begun : list session_op :=
  [OpPutAuthority SessionSample.authority; OpReserveOpen SessionSample.request 10; OpAttachAllocation SessionSample.receipt;
   OpObserveAllocation "op" SessionSample.evidence].
Definition registrar : Registrar := mkRegistrar true true true.
Definition resolver : Resolver := mkResolver true true true true.

Definition w0 : HandoffWorld :=
  mkHandoffWorld NewMemoryRegistry (perform_all begun NewState) 0 [] 35 [reference; "ref:session:ffffffffffffffffffffffffffffffff"] true None.
Definition w1 : HandoffWorld := (interp (@hw_handle) (Register registrar CtxCaller running) w0).2.
Definition w2 : HandoffWorld :=
  mkHandoffWorld (hw_registry w1) (perform_all [OpUpdateOpen succeeded StatusRunning 40] (hw_sessions w1)) (hw_read w1) (hw_attached w1)
    50 (hw_generated w1) true None.
Definition w3 : HandoffWorld := (interp (@hw_handle) (RevokeSucceededHandoff true CtxCaller succeeded 60) w2).2.

Lemma w0_wf : hand_wf (hw_abs w0) ∧ one_reference (hs_registry (hw_abs w0)).
Proof.
  split; [split; [apply map_Forall_empty|apply session_reachable_wf]|].
  intros k1 k2 r1 r2 H1. cbn in H1. by rewrite lookup_empty in H1.
Qed.
Lemma w1_step : registry_step (hw_abs w0) (hw_abs w1).
Proof. right. eexists registrar, CtxCaller, running, _. apply hw_exec. Qed.
Lemma w2_wf : hand_wf (hw_abs w2).
Proof.
  destruct w0_wf as [Hwf Hone]. destruct (registry_step_spec _ _ w1_step Hwf Hone) as ([Hreg Hses] & _).
  split; [exact Hreg|]. apply perform_all_wf, Hses.
Qed.
End HandoffRuns.

Lemma attachment_is_authorised_witness :
  ∃ σ' r source h, hs_attached σ' = [terminalReceipt (rr_Receipt r)] ∧
    Sessions (hs_sessions σ') !! rr_OperationID r = Some source ∧ rc_Status source = StatusSucceeded ∧
    rc_Handoff source = Some h ∧ ho_InternalEndpointReference h = HandoffRuns.reference.
Proof.
  pose proof (hw_exec other_step (Dial HandoffRuns.resolver HandoffRuns.reference CtxCaller) HandoffRuns.w2) as Hx.
  destruct (attachment_is_authorised _ _ _ _ _ _ HandoffRuns.w2_wf Hx) as [[_ Ho]|(_ & r & source & h & a & Ha & _ & Hs & Hst & Hh & Hr & _)].
  - exfalso. apply Ho. vm_compute. reflexivity.
  - exists (hw_abs (interp (@hw_handle) (Dial HandoffRuns.resolver HandoffRuns.reference CtxCaller) HandoffRuns.w2).2), r, source, h.
    split; [exact Ha|]. split; [exact Hs|]. split; [exact Hst|]. split; [exact Hh|exact Hr].
Defined.

Lemma revocation_is_final_witness :
  (interp (@hw_handle) (RevokeSucceededHandoff true CtxCaller HandoffRuns.succeeded 60) HandoffRuns.w2).1 = Ok () ∧
  hs_attached (hw_abs (interp (@hw_handle) (Dial HandoffRuns.resolver HandoffRuns.reference CtxCaller) HandoffRuns.w3).2)
    = hs_attached (hw_abs HandoffRuns.w3).
Proof.
  pose proof (hw_exec other_step (RevokeSucceededHandoff true CtxCaller HandoffRuns.succeeded 60) HandoffRuns.w2) as Hx.
  assert (Ho : (interp (@hw_handle) (RevokeSucceededHandoff true CtxCaller HandoffRuns.succeeded 60) HandoffRuns.w2).1 = Ok ())
    by (vm_compute; reflexivity).
  split; [exact Ho|]. rewrite Ho in Hx.
  refine (proj1 (revocation_is_final true CtxCaller HandoffRuns.succeeded 60 (handoff_of SessionSample.request (mkEndpointEvidence HandoffRuns.reference 1))
    HandoffRuns.resolver CtxCaller _ _ _ _ _ HandoffRuns.w2_wf _ _ Hx (rtc_refl _ _) (hw_exec other_step _ HandoffRuns.w3))).
  - reflexivity.
  - vm_compute. eauto.
Defined.

(** The second registration of the operation draws no second reference. *)
Lemma registration_is_idempotent_witness :
  ∃ g g', (interp (@hw_handle) (Register HandoffRuns.registrar CtxCaller HandoffRuns.running) HandoffRuns.w0).1 = Ok g ∧
    (interp (@hw_handle) (Register HandoffRuns.registrar CtxCaller HandoffRuns.running) HandoffRuns.w1).1 = Ok g' ∧
    rr_Reference (gn_Record g') = rr_Reference (gn_Record g).
Proof.
  pose proof (hw_exec locked_step (Register HandoffRuns.registrar CtxCaller HandoffRuns.running) HandoffRuns.w0) as Hx.
  pose proof (hw_exec locked_step (Register HandoffRuns.registrar CtxCaller HandoffRuns.running) HandoffRuns.w1) as Hx'.
  destruct (interp (@hw_handle) (Register HandoffRuns.registrar CtxCaller HandoffRuns.running) HandoffRuns.w0).1 as [g|] eqn:E;
    [|vm_compute in E; discriminate].
  destruct (interp (@hw_handle) (Register HandoffRuns.registrar CtxCaller HandoffRuns.running) HandoffRuns.w1).1 as [g'|] eqn:E';
    [|vm_compute in E'; discriminate].
  exists g, g'. split; [reflexivity|]. split; [reflexivity|].
  refine (proj1 (registration_is_idempotent (hw_abs HandoffRuns.w0) _ _ _ _ _ _ _ _ _ _ g g' _ _ (rtc_refl _ _) Hx (rtc_refl _ _) Hx' _)).
  - reflexivity.
  - apply session_reachable_wf.
  - reflexivity.
Defined.
