(* ===== verification/ArtifactModel.v ===== *)
(** * Artifact staging: [provider/artifact/model.go] and [port.go]

    The records of the provider-local staging of artifacts, their validation and
    the transitions of a staging operation.  A pointer field is an [option];
    [Clone] is the identity on immutable values.  The validation loop over a Go map
    returns the same error whatever entry fails, so its order does not show. *)

From S2P Require Import Prelude.
From stdpp Require Import base strings list.
From Stdlib Require Import Ascii ZArith Lia.

Local Open Scope Z_scope.

(** ** Bounds and errors *)

Definition MaxIdentifierRunes : nat := 200.
Definition MaxPathRunes : nat := 512.
Definition MaxArtifactBytes : Z := Z.shiftl 64 20.
Definition MinRetention : Z := Second.
Definition MaxRetention : Z := 24 * 3600 * Second.

Definition artifact_error (name : string) : sentinel := SNamed "artifact" name.
Definition ErrInvalidRequest : sentinel := artifact_error "ErrInvalidRequest".
Definition ErrDeadlineExpired : sentinel := artifact_error "ErrDeadlineExpired".
Definition ErrInvalidEvidence : sentinel := artifact_error "ErrInvalidEvidence".
Definition ErrEvidenceExpired : sentinel := artifact_error "ErrEvidenceExpired".
Definition ErrInvalidOperation : sentinel := artifact_error "ErrInvalidOperation".
Definition ErrInvalidTransition : sentinel := artifact_error "ErrInvalidTransition".
Definition ErrTerminalOperation : sentinel := artifact_error "ErrTerminalOperation".
Definition ErrSourceMissing : sentinel := artifact_error "ErrSourceMissing".
Definition ErrEvidenceNotFound : sentinel := artifact_error "ErrEvidenceNotFound".
Definition ErrEvidencePending : sentinel := artifact_error "ErrEvidencePending".
Definition ErrOutcomeUnknown : sentinel := artifact_error "ErrOutcomeUnknown".
Definition ErrNotFound : sentinel := artifact_error "ErrNotFound".
Definition ErrConflict : sentinel := artifact_error "ErrConflict".
Definition ErrIdempotencyConflict : sentinel := artifact_error "ErrIdempotencyConflict".
Definition ErrGenerationConflict : sentinel := artifact_error "ErrGenerationConflict".
Definition ErrStaleFencingToken : sentinel := artifact_error "ErrStaleFencingToken".
Definition ErrSandboxNotReady : sentinel := artifact_error "ErrSandboxNotReady".
Definition ErrSandboxLeaseExpired : sentinel := artifact_error "ErrSandboxLeaseExpired".
Definition ErrTenantBinding : sentinel := artifact_error "ErrTenantBinding".
Definition ErrUnsupportedChecks : sentinel := artifact_error "ErrUnsupportedChecks".
Definition ErrDurability : sentinel := artifact_error "ErrDurability".

Definition refuse {A} (s : sentinel) : result A := Err [s].

(** ** Patterns *)

Definition id_char (c : ascii) : bool := is_alnum c || one_of "._:-" c.
Definition identifierPattern (s : string) : bool := match_head_tail is_alnum id_char 199 s.

(** A literal prefix and what follows it. *)
Definition prefixed (prefix : string) (rest : string → bool) (s : string) : bool :=
  match cut_prefix prefix s with Some t => rest t | None => false end.

Definition opaque_tail (s : string) : bool := match_head_tail is_alnum (λ c, is_alnum c || one_of "._:/-" c) 399 s.
Definition artifactReferencePattern : string → bool := prefixed "artifact-ref:" opaque_tail.
Definition referencePattern : string → bool := prefixed "ref:" opaque_tail.

Definition digestPattern : string → bool :=
  prefixed "sha256:" (λ h, all_bytes is_lower_hex h && bool_decide (String.length h = 64%nat)).

(** Path segments below the mount, each a slash, a letter, digit, underscore or
    dash, then these or dots.  The position is after the mount, just after a slash,
    or inside a segment. *)
Inductive path_position := AtMount | AfterSlash | InSegment.

Fixpoint segments (at_ : path_position) (s : string) : bool :=
  match s with
  | EmptyString => match at_ with AfterSlash => false | _ => true end
  | String c s =>
      match at_ with
      | AtMount => one_of "/" c && segments AfterSlash s
      | AfterSlash => (is_alnum c || one_of "_-" c) && segments InSegment s
      | InSegment =>
          (one_of "/" c && segments AfterSlash s) || ((is_alnum c || one_of "._-" c) && segments InSegment s)
      end
  end.

Definition outputPathPattern : string → bool := prefixed "/outputs" (segments AtMount).

(** Two names separated by one slash, each a lower case letter or digit, then
    these or the other characters of a token.  A name cannot contain the slash. *)
Definition token_first (c : ascii) : bool := is_lower c || is_digit c.
Definition token_char (c : ascii) : bool := token_first c || one_of "!#$&^_.+-" c.

Definition token (s : string) : bool :=
  match s with EmptyString => false | String c s => token_first c && all_bytes token_char s end.

Fixpoint type_name (s : string) : bool :=
  match s with
  | EmptyString => false
  | String c s => if one_of "/" c then token s else token_char c && type_name s
  end.

Definition mediaTypePattern (s : string) : bool :=
  match s with EmptyString => false | String c s => token_first c && type_name s end.

(** ** Records *)

Record Request := mkRequest {
  aq_SandboxID : string;
  aq_TenantID : string;
  aq_OperationID : string;
  aq_AttemptID : string;
  aq_FencingToken : Z;
  aq_ExpectedGeneration : Z;
  aq_IdempotencyKey : string;
  aq_RequestDigest : string;
  aq_Deadline : Time;
  aq_ArtifactReference : string;
  aq_SourcePath : string;
  aq_ExpectedDigest : string;
  aq_ExpectedMediaType : string;
  aq_MaxBytes : Z;
  aq_Retention : Z;
}.

Inductive OperationStatus :=
  | OperationAccepted | OperationRunning | OperationSucceeded | OperationFailed | OperationOutcomeUnknown
  | OperationOther (raw : string).

(** The empty reason is [FailureOther ""]. *)
Inductive FailureReason :=
  | FailureSourceMissing | FailureContentRejected | FailureDeadlineExpired | FailureCancelledBeforeRun
  | FailureDispatchUnknown | FailureOther (raw : string).
Abbreviation no_failure := (FailureOther "").

Record SandboxAuthority := mkSandboxAuthority { sa_SandboxID : string; sa_Generation : Z; sa_FencingToken : Z }.

Inductive Status := StatusStaged | StatusRejected | StatusOther (raw : string).
Inductive CheckStatus := CheckPassed | CheckFailed | CheckNotRun | CheckOther (raw : string).

Record Check_ := mkCheck { ck_Status : CheckStatus; ck_CheckedAt : Time; ck_EvidenceReference : string }.

Record Evidence := mkEvidence {
  ev_OperationID : string;
  ev_AttemptID : string;
  ev_FencingToken : Z;
  ev_SandboxID : string;
  ev_ArtifactReference : string;
  ev_StagingReference : string;
  ev_Status : Status;
  ev_ContentDigest : string;
  ev_MediaType : string;
  ev_SizeBytes : Z;
  ev_TenantBindingCheck : Check_;
  ev_ActiveContentCheck : Check_;
  ev_MalwareCheck : Check_;
  ev_ObservedAt : Time;
  ev_ExpiresAt : Time;
  ev_EvidenceDigest : string;
}.

Record Operation := mkOperation {
  ao_Request : Request;
  ao_Status : OperationStatus;
  ao_Failure : FailureReason;
  ao_AcceptedAt : Time;
  ao_ObservedAt : Time;
  ao_Evidence : option Evidence;
}.

Record Reservation := mkReservation { rv_Operation : Operation; rv_Replayed : bool }.

#[export] Instance Request_eq_dec : EqDecision Request.
Proof. solve_decision. Defined.
#[export] Instance OperationStatus_eq_dec : EqDecision OperationStatus.
Proof. solve_decision. Defined.
#[export] Instance FailureReason_eq_dec : EqDecision FailureReason.
Proof. solve_decision. Defined.
#[export] Instance SandboxAuthority_eq_dec : EqDecision SandboxAuthority.
Proof. solve_decision. Defined.
#[export] Instance Status_eq_dec : EqDecision Status.
Proof. solve_decision. Defined.
#[export] Instance CheckStatus_eq_dec : EqDecision CheckStatus.
Proof. solve_decision. Defined.
#[export] Instance Check_eq_dec : EqDecision Check_.
Proof. solve_decision. Defined.
#[export] Instance Evidence_eq_dec : EqDecision Evidence.
Proof. solve_decision. Defined.
#[export] Instance Operation_eq_dec : EqDecision Operation.
Proof. solve_decision. Defined.

(** ** Validation *)

Definition validText : string → nat → nat → bool := validBoundedString.

Definition Request_Validate (r : Request) (now : Time) : result unit :=
  if decide (Exists (λ v, identifierPattern v = false)
               [aq_SandboxID r; aq_TenantID r; aq_OperationID r; aq_AttemptID r])
  then refuse ErrInvalidRequest else
  if decide (validText (aq_IdempotencyKey r) 1 MaxIdentifierRunes = false) then refuse ErrInvalidRequest else
  if decide (aq_FencingToken r < 1 ∨ aq_ExpectedGeneration r < 1) then refuse ErrInvalidRequest else
  if decide (digestPattern (aq_RequestDigest r) = false ∨ digestPattern (aq_ExpectedDigest r) = false)
  then refuse ErrInvalidRequest else
  if decide (IsZero (aq_Deadline r) ∨ ¬ After (aq_Deadline r) now) then refuse ErrDeadlineExpired else
  if decide (artifactReferencePattern (aq_ArtifactReference r) = false) then refuse ErrInvalidRequest else
  if decide (validText (aq_SourcePath r) 1 MaxPathRunes = false ∨ outputPathPattern (aq_SourcePath r) = false)
  then refuse ErrInvalidRequest else
  if decide (mediaTypePattern (aq_ExpectedMediaType r) = false ∨ validText (aq_ExpectedMediaType r) 3 127 = false)
  then refuse ErrInvalidRequest else
  if decide (aq_MaxBytes r < 1 ∨ aq_MaxBytes r > MaxArtifactBytes) then refuse ErrInvalidRequest else
  if decide (aq_Retention r < MinRetention ∨ aq_Retention r > MaxRetention ∨ After (now + aq_Retention r) (aq_Deadline r))
  then refuse ErrInvalidRequest else Ok ().

Definition ExpiresAt (r : Request) (now : Time) : Time := now + aq_Retention r.

Definition status_valid (s : OperationStatus) : bool := match s with OperationOther _ => false | _ => true end.

Definition terminal (s : OperationStatus) : bool :=
  match s with OperationSucceeded | OperationFailed | OperationOutcomeUnknown => true | _ => false end.

Definition validFor (r : FailureReason) (status : OperationStatus) : bool :=
  match status with
  | OperationFailed =>
      match r with
      | FailureSourceMissing | FailureContentRejected | FailureDeadlineExpired | FailureCancelledBeforeRun => true
      | _ => false
      end
  | OperationOutcomeUnknown => bool_decide (r = FailureDispatchUnknown)
  | _ => bool_decide (r = no_failure)
  end.

Definition SandboxAuthority_Validate (a : SandboxAuthority) : result unit :=
  if decide (identifierPattern (sa_SandboxID a) = false ∨ sa_Generation a < 1 ∨ sa_FencingToken a < 1)
  then refuse ErrInvalidOperation else Ok ().

Definition Check_validate (c : Check_) : result unit :=
  if decide (ck_Status c ≠ CheckPassed ∧ ck_Status c ≠ CheckFailed ∧ ck_Status c ≠ CheckNotRun)
  then refuse ErrInvalidEvidence else
  if decide (IsZero (ck_CheckedAt c)) then refuse ErrInvalidEvidence else
  if decide (ck_EvidenceReference c ≠ "" ∧ referencePattern (ck_EvidenceReference c) = false)
  then refuse ErrInvalidEvidence else Ok ().

Definition Evidence_Validate (e : Evidence) (now : Time) : result unit :=
  if decide (Exists (λ v, identifierPattern v = false) [ev_OperationID e; ev_AttemptID e; ev_SandboxID e])
  then refuse ErrInvalidEvidence else
  if decide (ev_FencingToken e < 1 ∨ artifactReferencePattern (ev_ArtifactReference e) = false
             ∨ digestPattern (ev_ContentDigest e) = false ∨ digestPattern (ev_EvidenceDigest e) = false
             ∨ mediaTypePattern (ev_MediaType e) = false ∨ ev_SizeBytes e < 0 ∨ ev_SizeBytes e > MaxArtifactBytes)
  then refuse ErrInvalidEvidence else
  if decide (ev_Status e ≠ StatusStaged ∧ ev_Status e ≠ StatusRejected) then refuse ErrInvalidEvidence else
  if decide (ev_Status e = StatusStaged ∧
             (referencePattern (ev_StagingReference e) = false ∨ ck_Status (ev_TenantBindingCheck e) ≠ CheckPassed
              ∨ ck_Status (ev_ActiveContentCheck e) ≠ CheckPassed ∨ ck_Status (ev_MalwareCheck e) ≠ CheckPassed))
  then refuse ErrInvalidEvidence else
  _ ← Check_validate (ev_TenantBindingCheck e);
  _ ← Check_validate (ev_ActiveContentCheck e);
  _ ← Check_validate (ev_MalwareCheck e);
  if decide (IsZero (ev_ObservedAt e) ∨ IsZero (ev_ExpiresAt e) ∨ ¬ After (ev_ExpiresAt e) (ev_ObservedAt e))
  then refuse ErrInvalidEvidence else
  if decide (¬ Before now (ev_ExpiresAt e)) then refuse ErrEvidenceExpired else Ok ().

Definition evidenceMatchesRequest (e : Evidence) (r : Request) : bool :=
  if decide (ev_OperationID e ≠ aq_OperationID r ∨ ev_AttemptID e ≠ aq_AttemptID r
             ∨ ev_FencingToken e ≠ aq_FencingToken r ∨ ev_SandboxID e ≠ aq_SandboxID r
             ∨ ev_ArtifactReference e ≠ aq_ArtifactReference r ∨ After (ev_ExpiresAt e) (aq_Deadline r))
  then false else
  bool_decide (ev_Status e ≠ StatusStaged)
  || bool_decide (ev_ContentDigest e = aq_ExpectedDigest r ∧ ev_MediaType e = aq_ExpectedMediaType r
                  ∧ ev_SizeBytes e ≤ aq_MaxBytes r).

(** ** Operations *)

Definition NewOperation (request : Request) (acceptedAt : Time) : result Operation :=
  _ ← Request_Validate request acceptedAt;
  Ok (mkOperation request OperationAccepted no_failure acceptedAt acceptedAt None).

Definition evidence_status (e : option Evidence) : option Status := ev_Status <$> e.

(** Which evidence an outcome carries. *)
Definition evidence_fits (s : OperationStatus) (f : FailureReason) (e : option Evidence) : bool :=
  match s with
  | OperationAccepted | OperationRunning | OperationOutcomeUnknown => bool_decide (e = None)
  | OperationSucceeded => bool_decide (evidence_status e = Some StatusStaged)
  | OperationFailed =>
      if decide (f = FailureContentRejected) then bool_decide (evidence_status e = Some StatusRejected)
      else bool_decide (e = None)
  | OperationOther _ => true
  end.

Definition retained_evidence_valid (o : Operation) : bool :=
  match ao_Evidence o with
  | None => true
  | Some e => is_ok (Evidence_Validate e (ev_ObservedAt e)) && evidenceMatchesRequest e (ao_Request o)
  end.

Definition Operation_Validate (o : Operation) : result unit :=
  if decide (IsZero (ao_AcceptedAt o) ∨ IsZero (ao_ObservedAt o) ∨ Before (ao_ObservedAt o) (ao_AcceptedAt o)
             ∨ status_valid (ao_Status o) = false) then refuse ErrInvalidOperation else
  if decide (is_ok (Request_Validate (ao_Request o) (ao_AcceptedAt o)) = false) then refuse ErrInvalidOperation else
  if decide (validFor (ao_Failure o) (ao_Status o) = false) then refuse ErrInvalidOperation else
  if decide (evidence_fits (ao_Status o) (ao_Failure o) (ao_Evidence o) = false) then refuse ErrInvalidOperation else
  if decide (retained_evidence_valid o = false) then refuse ErrInvalidOperation else Ok ().

Definition operationTransitions (from to : OperationStatus) : bool :=
  match from, to with
  | OperationAccepted, (OperationRunning | OperationFailed | OperationOutcomeUnknown) => true
  | OperationRunning, (OperationSucceeded | OperationFailed | OperationOutcomeUnknown) => true
  | _, _ => false
  end.

(** The outcomes that keep their evidence. *)
Definition keeps_evidence (next : OperationStatus) (failure : FailureReason) : bool :=
  bool_decide (next = OperationSucceeded ∨ (next = OperationFailed ∧ failure = FailureContentRejected)).

Definition updated_operation (o : Operation) (next : OperationStatus) (observedAt : Time) (failure : FailureReason)
    (evidence : option Evidence) : Operation :=
  mkOperation (ao_Request o) next failure (ao_AcceptedAt o) observedAt evidence.

Definition Transition (o : Operation) (next : OperationStatus) (observedAt : Time) (failure : FailureReason)
    (evidence : option Evidence) : result Operation :=
  _ ← Operation_Validate o;
  if decide (status_valid next = false ∨ IsZero observedAt ∨ Before observedAt (ao_ObservedAt o))
  then refuse ErrInvalidTransition else
  if decide (ao_Status o = next) then
    if decide (failure ≠ ao_Failure o ∨ is_Some evidence) then refuse ErrTerminalOperation else Ok o
  else
  if terminal (ao_Status o) then refuse ErrTerminalOperation else
  if decide (operationTransitions (ao_Status o) next = false ∨ validFor failure next = false)
  then refuse ErrInvalidTransition else
  if decide (next = OperationRunning ∧ ¬ After (aq_Deadline (ao_Request o)) observedAt)
  then refuse ErrDeadlineExpired else
  updated ←
    (if keeps_evidence next failure then
       match evidence with
       | None => refuse ErrInvalidTransition
       | Some e =>
           if decide (¬ Before observedAt (aq_Deadline (ao_Request o))) then refuse ErrInvalidTransition else
           if decide (is_ok (Evidence_Validate e observedAt) = false
                      ∨ evidenceMatchesRequest e (ao_Request o) = false) then refuse ErrInvalidTransition else
           if decide (next = OperationSucceeded ∧ ev_Status e ≠ StatusStaged) then refuse ErrInvalidTransition else
           if decide (next = OperationFailed ∧ ev_Status e ≠ StatusRejected) then refuse ErrInvalidTransition else
           Ok (updated_operation o next observedAt failure (Some e))
       end
     else if decide (is_Some evidence) then refuse ErrInvalidTransition
     else Ok (updated_operation o next observedAt failure None));
  _ ← Operation_Validate updated;
  Ok updated.

#[global] Arguments Request_Validate : simpl never.
#[global] Arguments Evidence_Validate : simpl never.
#[global] Arguments Operation_Validate : simpl never.
#[global] Arguments SandboxAuthority_Validate : simpl never.
#[global] Arguments Transition : simpl never.
#[global] Arguments NewOperation : simpl never.
#[global] Arguments evidenceMatchesRequest : simpl never.
