(* ===== verification/ArtifactState.v ===== *)
(** * Artifact repository: [provider/artifact/repository/state.go]

    The adapter-independent state of the artifact staging authority: operations,
    their idempotency records, the sandbox authorities and the set of operations
    whose evidence was read after it had expired, with every operation on it and
    the snapshot that adapters persist.  The set is a Go map in which only [true]
    is ever stored. *)

From S2P Require Import Prelude ArtifactModel.
From stdpp Require Import base gmap strings list fin_maps.
From Stdlib Require Import ZArith Lia.

Local Open Scope Z_scope.

Definition repository_error (name : string) : sentinel := SNamed "artifact/repository" name.
Definition ErrAlreadyExists : sentinel := repository_error "ErrAlreadyExists".
Definition ErrCorrupt : sentinel := repository_error "ErrCorrupt".
Definition ErrClosed : sentinel := repository_error "ErrClosed".

Definition snapshotVersion : Z := 2.

Record IdempotencyRecord := mkIdempotency { id_Scope : string; id_Key : string; id_RequestDigest : string; id_OperationID : string }.

Record State := mkState {
  Operations : gmap string Operation;
  Idempotency : gmap string IdempotencyRecord;
  Authorities : gmap string SandboxAuthority;
  ExpiredEvidence : gset string;
}.

Record PersistedState := mkPersisted {
  ps_Version : Z;
  ps_Operations : list Operation;
  ps_Idempotency : list IdempotencyRecord;
  ps_Authorities : list SandboxAuthority;
  ps_ExpiredEvidence : list string;
}.

Definition NewState : State := mkState ∅ ∅ ∅ ∅.

Definition set_authority (a : SandboxAuthority) (s : State) : State :=
  mkState (Operations s) (Idempotency s) (<[sa_SandboxID a := a]> (Authorities s)) (ExpiredEvidence s).
Definition set_operation (o : Operation) (s : State) : State :=
  mkState (<[aq_OperationID (ao_Request o) := o]> (Operations s)) (Idempotency s) (Authorities s) (ExpiredEvidence s).
Definition set_expired (operationID : string) (s : State) : State :=
  mkState (Operations s) (Idempotency s) (Authorities s) ({[operationID]} ∪ ExpiredEvidence s).

(** ** Authorities *)

Definition PutSandboxAuthority (a : SandboxAuthority) (s : State) : result (unit * State) :=
  _ ← SandboxAuthority_Validate a;
  match Authorities s !! sa_SandboxID a with
  | Some existing => if decide (existing = a) then Ok ((), s) else refuse ErrConflict
  | None => Ok ((), set_authority a s)
  end.

Definition ReplaceSandboxAuthority (a : SandboxAuthority) (expectedGeneration fencingToken : Z) (s : State)
    : result (unit * State) :=
  _ ← SandboxAuthority_Validate a;
  match Authorities s !! sa_SandboxID a with
  | None => refuse ErrNotFound
  | Some current =>
      if decide (sa_Generation current ≠ expectedGeneration ∨ sa_Generation a < sa_Generation current
                 ∨ sa_Generation a > i64 (sa_Generation current + 1)) then refuse ErrGenerationConflict else
      if decide (sa_FencingToken current ≠ fencingToken ∨ sa_FencingToken a < sa_FencingToken current)
      then refuse ErrStaleFencingToken else
      Ok ((), set_authority a s)
  end.

Definition GetSandboxAuthority (sandboxID : string) (s : State) : result SandboxAuthority :=
  match Authorities s !! sandboxID with Some a => Ok a | None => refuse ErrNotFound end.

Definition SynchronizeSandboxAuthority (a : SandboxAuthority) (s : State) : result (unit * State) :=
  _ ← SandboxAuthority_Validate a;
  match Authorities s !! sa_SandboxID a with
  | None => Ok ((), set_authority a s)
  | Some current =>
      if decide (sa_Generation a < sa_Generation current) then refuse ErrGenerationConflict else
      if decide (sa_FencingToken a < sa_FencingToken current) then refuse ErrStaleFencingToken else
      Ok ((), set_authority a s)
  end.

(** ** Operations *)

Definition idempotencyScope (r : Request) : string := aq_SandboxID r +:+ String NUL (aq_IdempotencyKey r).

Definition sameRequest (left right : Request) : Prop :=
  aq_SandboxID left = aq_SandboxID right ∧ aq_TenantID left = aq_TenantID right ∧
  aq_OperationID left = aq_OperationID right ∧ aq_AttemptID left = aq_AttemptID right ∧
  aq_FencingToken left = aq_FencingToken right ∧ aq_ExpectedGeneration left = aq_ExpectedGeneration right ∧
  aq_IdempotencyKey left = aq_IdempotencyKey right ∧ aq_RequestDigest left = aq_RequestDigest right ∧
  aq_Deadline left = aq_Deadline right ∧ aq_ArtifactReference left = aq_ArtifactReference right ∧
  aq_SourcePath left = aq_SourcePath right ∧ aq_ExpectedDigest left = aq_ExpectedDigest right ∧
  aq_ExpectedMediaType left = aq_ExpectedMediaType right ∧ aq_MaxBytes left = aq_MaxBytes right ∧
  aq_Retention left = aq_Retention right.

#[export] Instance sameRequest_dec l r : Decision (sameRequest l r).
Proof. unfold sameRequest. apply _. Defined.

Definition ReserveStageAt (request : Request) (acceptedAt : Time) (s : State) : result (Reservation * State) :=
  _ ← Request_Validate request acceptedAt;
  authority ← GetSandboxAuthority (aq_SandboxID request) s;
  if decide (sa_Generation authority ≠ aq_ExpectedGeneration request) then refuse ErrGenerationConflict else
  if decide (sa_FencingToken authority ≠ aq_FencingToken request) then refuse ErrStaleFencingToken else
  let scope := idempotencyScope request in
  match Idempotency s !! scope with
  | Some existing =>
      if decide (id_RequestDigest existing ≠ aq_RequestDigest request) then refuse ErrIdempotencyConflict else
      match Operations s !! id_OperationID existing with
      | None => refuse ErrCorrupt
      | Some operation =>
          if decide (¬ sameRequest (ao_Request operation) request) then refuse ErrConflict else
          Ok (mkReservation operation true, s)
      end
  | None =>
      if decide (is_Some (Operations s !! aq_OperationID request)) then refuse ErrAlreadyExists else
      operation ← NewOperation request acceptedAt;
      Ok (mkReservation operation false,
          mkState (<[aq_OperationID request := operation]> (Operations s))
            (<[scope := mkIdempotency scope (aq_IdempotencyKey request) (aq_RequestDigest request) (aq_OperationID request)]>
               (Idempotency s))
            (Authorities s) (ExpiredEvidence s))
  end.

Definition GetStage (operationID : string) (s : State) : result Operation :=
  match Operations s !! operationID with
  | None => refuse ErrNotFound
  | Some operation =>
      if decide (is_ok (Operation_Validate operation) = false) then refuse ErrCorrupt else Ok operation
  end.

Definition ListStages (s : State) : result (list Operation) :=
  foldM (λ result id, operation ← GetStage id s; Ok (result ++ [operation])) []
    (sort_by id (map_to_list (Operations s)).*1).

Definition UpdateStage (operation : Operation) (expectedStatus : OperationStatus) (s : State) : result (unit * State) :=
  match Operations s !! aq_OperationID (ao_Request operation) with
  | None => refuse ErrNotFound
  | Some current =>
      if decide (ao_Status current ≠ expectedStatus ∨ ¬ sameRequest (ao_Request current) (ao_Request operation)
                 ∨ ao_AcceptedAt current ≠ ao_AcceptedAt operation) then refuse ErrConflict else
      updated ← Transition current (ao_Status operation) (ao_ObservedAt operation) (ao_Failure operation) (ao_Evidence operation);
      if decide (updated ≠ operation) then refuse ErrConflict else
      Ok ((), set_operation operation s)
  end.

(** [(evidence, error, changed)] and the next state. *)
Definition ReadEvidenceAt (operationID : string) (now : Time) (s : State) : result Evidence * bool * State :=
  match Operations s !! operationID with
  | None => (refuse ErrEvidenceNotFound, false, s)
  | Some operation =>
      if decide (operationID ∈ ExpiredEvidence s) then (refuse ErrEvidenceExpired, false, s) else
      match ao_Status operation with
      | OperationAccepted | OperationRunning => (refuse ErrEvidencePending, false, s)
      | OperationOutcomeUnknown => (refuse ErrOutcomeUnknown, false, s)
      | _ =>
          match ao_Evidence operation with
          | None => (refuse ErrEvidenceNotFound, false, s)
          | Some evidence =>
              if decide (IsZero now) then (refuse ErrInvalidEvidence, false, s) else
              if decide (¬ Before now (ev_ExpiresAt evidence))
              then (refuse ErrEvidenceExpired, true, set_expired operationID s)
              else (Ok evidence, false, s)
          end
      end
  end.

(** ** Snapshots *)

Definition Export (s : State) : PersistedState :=
  mkPersisted snapshotVersion
    (sort_by (aq_OperationID ∘ ao_Request) (map_to_list (Operations s)).*2)
    (sort_by id_Scope (map_to_list (Idempotency s)).*2)
    (sort_by sa_SandboxID (map_to_list (Authorities s)).*2)
    (sort_by id (elements (ExpiredEvidence s))).

Definition corrupt {A} : result A := refuse ErrCorrupt.

Definition load_operation (authorities : gmap string SandboxAuthority) (loaded : gmap string Operation) (operation : Operation)
    : result (gmap string Operation) :=
  if decide (is_ok (Operation_Validate operation) = false) then corrupt else
  if decide (is_Some (loaded !! aq_OperationID (ao_Request operation))) then corrupt else
  if decide (authorities !! aq_SandboxID (ao_Request operation) = None) then corrupt else
  Ok (<[aq_OperationID (ao_Request operation) := operation]> loaded).

(** What a record must say of the operation it names. *)
Definition binds (record : IdempotencyRecord) (r : Request) : Prop :=
  id_Scope record ≠ "" ∧ id_Key record = aq_IdempotencyKey r ∧ id_RequestDigest record = aq_RequestDigest r ∧
  id_Scope record = idempotencyScope r.

#[export] Instance binds_dec i r : Decision (binds i r).
Proof. unfold binds. apply _. Defined.

Definition load_idempotency (operations : gmap string Operation) (loaded : gmap string IdempotencyRecord) (record : IdempotencyRecord)
    : result (gmap string IdempotencyRecord) :=
  match operations !! id_OperationID record with
  | None => corrupt
  | Some operation =>
      if decide (¬ binds record (ao_Request operation)) then corrupt else
      if decide (is_Some (loaded !! id_Scope record)) then corrupt else
      Ok (<[id_Scope record := record]> loaded)
  end.

Definition load_expired (operations : gmap string Operation) (loaded : gset string) (operationID : string) : result (gset string) :=
  if decide (operations !! operationID ≫= ao_Evidence = None ∨ operationID ∈ loaded) then corrupt
  else Ok ({[operationID]} ∪ loaded).

Definition Import (snapshot : PersistedState) : result State :=
  if decide (ps_Version snapshot ≠ snapshotVersion) then corrupt else
  authorities ← foldM (load_one [ErrCorrupt] sa_SandboxID id
                         (λ a, if decide (is_ok (SandboxAuthority_Validate a) = false) then corrupt else Ok ())) ∅
                  (ps_Authorities snapshot);
  operations ← foldM (load_operation authorities) ∅ (ps_Operations snapshot);
  idempotency ← foldM (load_idempotency operations) ∅ (ps_Idempotency snapshot);
  if decide (¬ map_Forall (λ _ o, is_Some (idempotency !! idempotencyScope (ao_Request o))) operations) then corrupt else
  expired ← foldM (load_expired operations) ∅ (ps_ExpiredEvidence snapshot);
  Ok (mkState operations idempotency authorities expired).

#[global] Arguments PutSandboxAuthority : simpl never.
#[global] Arguments ReplaceSandboxAuthority : simpl never.
#[global] Arguments SynchronizeSandboxAuthority : simpl never.
#[global] Arguments ReserveStageAt : simpl never.
#[global] Arguments UpdateStage : simpl never.
#[global] Arguments ReadEvidenceAt : simpl never.
