(* ===== verification/ArtifactInvariant.v ===== *)
(** * The invariant of the artifact repository

    What every state of [provider/artifact/repository] satisfies, that each
    operation keeps it, how operations evolve over a run, and that a snapshot of
    such a state loads back to it. *)

From S2P Require Import Prelude ArtifactModel ArtifactState.
From stdpp Require Import base gmap strings list fin_maps relations.
From Stdlib Require Import ZArith Lia.

Local Open Scope Z_scope.

(** ** Operations *)

Lemma sameRequest_eq l r : sameRequest l r → l = r.
Proof. destruct l, r. unfold sameRequest. cbn. naive_solver. Qed.

(** What evidence of a staged artifact says. *)
Definition staged_for (r : Request) (e : Evidence) : Prop :=
  ev_Status e = StatusStaged ∧ ev_OperationID e = aq_OperationID r ∧ ev_AttemptID e = aq_AttemptID r ∧
  ev_FencingToken e = aq_FencingToken r ∧ ev_SandboxID e = aq_SandboxID r ∧
  ev_ContentDigest e = aq_ExpectedDigest r ∧ ev_MediaType e = aq_ExpectedMediaType r ∧
  0 ≤ ev_SizeBytes e ≤ aq_MaxBytes r ∧ ck_Status (ev_TenantBindingCheck e) = CheckPassed ∧
  ck_Status (ev_ActiveContentCheck e) = CheckPassed ∧ ck_Status (ev_MalwareCheck e) = CheckPassed ∧
  ev_ObservedAt e < ev_ExpiresAt e ≤ aq_Deadline r.

Lemma evidence_staged_for r e now :
  Evidence_Validate e now = Ok () → evidenceMatchesRequest e r = true → ev_Status e = StatusStaged → staged_for r e.
Proof.
  unfold Evidence_Validate, evidenceMatchesRequest, refuse, IsZero, Before, After. intros H Hm Hs.
  crack H. case_decide as Hg; [done|]. split_guards. apply orb_true_iff in Hm as [Hm|Hm]; apply bool_decide_eq_true in Hm; [done|].
  assert (Hchecks : ¬ (referencePattern (ev_StagingReference e) = false ∨ ck_Status (ev_TenantBindingCheck e) ≠ CheckPassed
    ∨ ck_Status (ev_ActiveContentCheck e) ≠ CheckPassed ∨ ck_Status (ev_MalwareCheck e) ≠ CheckPassed)) by naive_solver.
  split_guards. unfold staged_for. split_and!; try done; try lia; naive_solver lia.
Qed.

Lemma Operation_Validate_spec o :
  Operation_Validate o = Ok () ↔
  ao_AcceptedAt o ≠ 0 ∧ ao_ObservedAt o ≠ 0 ∧ ao_AcceptedAt o ≤ ao_ObservedAt o ∧ status_valid (ao_Status o) = true ∧
  Request_Validate (ao_Request o) (ao_AcceptedAt o) = Ok () ∧ validFor (ao_Failure o) (ao_Status o) = true ∧
  evidence_fits (ao_Status o) (ao_Failure o) (ao_Evidence o) = true ∧ retained_evidence_valid o = true.
Proof.
  unfold Operation_Validate, refuse, IsZero, Before. split.
  - intros H. crack H. split_and!; try done; lia.
  - intros (?&?&?&H1&H2&H3&H4&H5). rewrite H1, H2, H3, H4, H5. cbn.
    rewrite !decide_False; try done. naive_solver lia.
Qed.

(** A succeeded operation carries evidence of what was asked for. *)
Lemma succeeded_evidence o :
  Operation_Validate o = Ok () → ao_Status o = OperationSucceeded →
  ∃ e, ao_Evidence o = Some e ∧ staged_for (ao_Request o) e.
Proof.
  intros (_&_&_&_&_&_&Hf&Hr)%Operation_Validate_spec Hs. rewrite Hs in Hf. cbn in Hf.
  apply bool_decide_eq_true in Hf. unfold retained_evidence_valid in Hr.
  destruct (ao_Evidence o) as [e|]; [|done]. exists e. split; [done|].
  apply andb_true_iff in Hr as [Hv%unit_ok Hm]. cbn in Hf. simplify_eq. by eapply evidence_staged_for.
Qed.

(** Evidence belongs to an outcome that no longer changes. *)
Lemma evidence_terminal o : Operation_Validate o = Ok () → is_Some (ao_Evidence o) → terminal (ao_Status o) = true.
Proof.
  intros (_&_&_&Hv&_&_&Hf&_)%Operation_Validate_spec [e He]. rewrite He in Hf.
  destruct (ao_Status o); try done; cbn in Hf; by rewrite ?bool_decide_eq_true in Hf.
Qed.

Lemma artifact_Transition_Ok o next t f e o' :
  Transition o next t f e = Ok o' →
  Operation_Validate o = Ok () ∧ ao_ObservedAt o ≤ t ∧
  ((ao_Status o = next ∧ f = ao_Failure o ∧ e = None ∧ o' = o) ∨
   (ao_Status o ≠ next ∧ terminal (ao_Status o) = false ∧ operationTransitions (ao_Status o) next = true ∧
    Operation_Validate o' = Ok () ∧ o' = updated_operation o next t f e ∧
    (next = OperationRunning → t < aq_Deadline (ao_Request o)) ∧
    (is_Some e → keeps_evidence next f = true ∧ t < aq_Deadline (ao_Request o)))).
Proof.
  unfold Transition, refuse, IsZero, Before, After. intros H. apply bind_Ok in H as ([] & Hv & H).
  apply guard_Ok in H as [G H]. split_guards. split_and!; [done|lia|]. case_decide as Hn.
  - left. crack H. done.
  - right. destruct (terminal (ao_Status o)); [done|]. apply guard_Ok in H as [G1 H]. apply guard_Ok in H as [G2 H].
    apply bind_Ok in H as (u & Hu & H). apply bind_Ok in H as ([] & Hvu & [= <-]). split_guards.
    assert (Hu' : u = updated_operation o next t f e ∧ (is_Some e → keeps_evidence next f = true ∧ t < aq_Deadline (ao_Request o))).
    { destruct (keeps_evidence next f).
      - destruct e as [e|]; [|done]. crack Hu. split; [done|]. intros _. split; [done|lia].
      - crack Hu. subst e. split; [done|]. by intros []. }
    destruct Hu' as [-> ?]. split_and!; try done. intros Hr. destruct (decide (t < aq_Deadline (ao_Request o))); [done|].
    destruct G2. split; [done|lia].
Qed.

(** How an operation may change: the request and the time of acceptance stay, the
    observation moves forward, and a terminal outcome with its evidence is kept. *)
Definition operation_evolves (o o' : Operation) : Prop :=
  ao_Request o' = ao_Request o ∧ ao_AcceptedAt o' = ao_AcceptedAt o ∧ ao_ObservedAt o ≤ ao_ObservedAt o' ∧
  (o' = o ∨ (terminal (ao_Status o) = false ∧ ao_Status o' ≠ OperationAccepted)).

#[export] Instance operation_evolves_po : PreOrder operation_evolves.
Proof.
  split; [intros o; split_and!; auto; lia|].
  intros a b c (H1&H2&H3&H4) (G1&G2&G3&G4). split_and!; [congruence..|lia|].
  destruct H4 as [->|[Ht Hb]]; [done|]. destruct G4 as [->|[_ Hc]]; auto.
Qed.

Lemma evolves_terminal o o' : operation_evolves o o' → terminal (ao_Status o) = true → o' = o.
Proof. intros (_&_&_&[->|[Ht _]]) ?; [done|congruence]. Qed.

Lemma artifact_Transition_evolves o next t f e o' : Transition o next t f e = Ok o' → operation_evolves o o'.
Proof.
  intros (_ & Ht & [(_&_&_&->)|(_ & Hterm & Htr & _ & -> & _)])%artifact_Transition_Ok; [done|].
  split_and!; try done. right. split; [done|]. intros Heq. cbn in Heq. subst. by destruct (ao_Status o).
Qed.

Lemma Transition_valid o next t f e o' : Transition o next t f e = Ok o' → Operation_Validate o' = Ok ().
Proof. by intros (? & _ & [(_&_&_&->)|(_&_&_&?&_)])%artifact_Transition_Ok. Qed.

(** ** States *)

(** The authority covers the request. *)
Definition covered (authorities : gmap string SandboxAuthority) (r : Request) : Prop :=
  ∃ a, authorities !! aq_SandboxID r = Some a ∧ aq_ExpectedGeneration r ≤ sa_Generation a ∧ aq_FencingToken r ≤ sa_FencingToken a.

Record artifact_wf (s : State) : Prop := mkArtifactWf {
  aw_authority k a : Authorities s !! k = Some a → sa_SandboxID a = k ∧ SandboxAuthority_Validate a = Ok ();
  aw_operation k o : Operations s !! k = Some o →
    aq_OperationID (ao_Request o) = k ∧ Operation_Validate o = Ok () ∧ covered (Authorities s) (ao_Request o);
  aw_index scope i : Idempotency s !! scope = Some i →
    id_Scope i = scope ∧ ∃ o, Operations s !! id_OperationID i = Some o ∧ binds i (ao_Request o);
  aw_indexed k o : Operations s !! k = Some o →
    id_OperationID <$> Idempotency s !! idempotencyScope (ao_Request o) = Some k;
  aw_expired k : k ∈ ExpiredEvidence s → ∃ o, Operations s !! k = Some o ∧ is_Some (ao_Evidence o);
}.

Lemma artifact_wf_init : artifact_wf NewState.
Proof. split; cbn; intros *; rewrite ?lookup_empty; set_solver. Qed.

(** ** Authorities *)

Lemma covered_mono (m : gmap string SandboxAuthority) a r :
  (∀ b, m !! sa_SandboxID a = Some b → sa_Generation b ≤ sa_Generation a ∧ sa_FencingToken b ≤ sa_FencingToken a) →
  covered m r → covered (<[sa_SandboxID a := a]> m) r.
Proof.
  intros Ha (b & Hb & ? & ?). unfold covered. destruct (decide (sa_SandboxID a = aq_SandboxID r)) as [He|He].
  - rewrite He, lookup_insert_eq. rewrite <- He in Hb. apply Ha in Hb. eexists. split; [done|]. lia.
  - rewrite lookup_insert_ne by done. eauto.
Qed.

Lemma set_authority_wf a s :
  artifact_wf s → SandboxAuthority_Validate a = Ok () →
  (∀ b, Authorities s !! sa_SandboxID a = Some b → sa_Generation b ≤ sa_Generation a ∧ sa_FencingToken b ≤ sa_FencingToken a) →
  artifact_wf (set_authority a s).
Proof.
  intros [H1 H2 H3 H4 H5] Hv Ha. split; cbn; try done.
  - intros k b Hk. ins_inv Hk; [done|auto].
  - intros k o Hk. destruct (H2 k o Hk) as (?&?&?). split_and!; [done|done|by apply covered_mono].
Qed.

(** Each write of an authority validates it and moves it forward. *)
Definition authority_write (a : SandboxAuthority) (s s' : State) : Prop :=
  s' = s ∨
  (s' = set_authority a s ∧ SandboxAuthority_Validate a = Ok () ∧
   ∀ b, Authorities s !! sa_SandboxID a = Some b → sa_Generation b ≤ sa_Generation a ∧ sa_FencingToken b ≤ sa_FencingToken a).

Lemma authority_write_wf a s s' : authority_write a s s' → artifact_wf s → artifact_wf s'.
Proof. intros [->|(-> & ? & ?)] ?; [done|by apply set_authority_wf]. Qed.

Lemma PutSandboxAuthority_Ok a s u s' : PutSandboxAuthority a s = Ok (u, s') → authority_write a s s'.
Proof.
  unfold PutSandboxAuthority, refuse. intros H. apply bind_Ok in H as ([] & Hv & H).
  destruct (Authorities s !! _) as [b|] eqn:Eb; [case_decide; [|done]; simplify_eq; by left|]. simplify_eq.
  right. split_and!; [done|done|]. intros b. by rewrite Eb.
Qed.

Lemma ReplaceSandboxAuthority_Ok a g f s u s' : ReplaceSandboxAuthority a g f s = Ok (u, s') → authority_write a s s'.
Proof.
  unfold ReplaceSandboxAuthority, refuse. intros H. apply bind_Ok in H as ([] & Hv & H).
  destruct (Authorities s !! _) as [b|] eqn:Eb; [|done]. crack H. right. split_and!; [done|done|].
  intros c. rewrite Eb. intros [= <-]. lia.
Qed.

Lemma SynchronizeSandboxAuthority_Ok a s u s' : SynchronizeSandboxAuthority a s = Ok (u, s') → authority_write a s s'.
Proof.
  unfold SynchronizeSandboxAuthority, refuse. intros H. apply bind_Ok in H as ([] & Hv & H). right.
  destruct (Authorities s !! _) as [b|] eqn:Eb; crack H; split_and!; try done.
  intros c [= <-]. lia.
Qed.

(** ** Reservations *)

Definition reserved (request : Request) (t : Time) : Operation :=
  mkOperation request OperationAccepted no_failure t t None.

Lemma NewOperation_Ok request t o : NewOperation request t = Ok o → Request_Validate request t = Ok () ∧ o = reserved request t.
Proof. unfold NewOperation. intros H. inv_ok H. by destruct x. Qed.

Lemma ReserveStageAt_Ok request t s v s' :
  ReserveStageAt request t s = Ok (v, s') →
  Request_Validate request t = Ok () ∧
  (∃ a, Authorities s !! aq_SandboxID request = Some a ∧ sa_Generation a = aq_ExpectedGeneration request ∧
        sa_FencingToken a = aq_FencingToken request) ∧
  ((∃ i o, Idempotency s !! idempotencyScope request = Some i ∧ Operations s !! id_OperationID i = Some o ∧
      ao_Request o = request ∧ v = mkReservation o true ∧ s' = s) ∨
   (Idempotency s !! idempotencyScope request = None ∧ Operations s !! aq_OperationID request = None ∧
    v = mkReservation (reserved request t) false ∧
    s' = mkState (<[aq_OperationID request := reserved request t]> (Operations s))
           (<[idempotencyScope request := mkIdempotency (idempotencyScope request) (aq_IdempotencyKey request)
                (aq_RequestDigest request) (aq_OperationID request)]> (Idempotency s))
           (Authorities s) (ExpiredEvidence s))).
Proof.
  unfold ReserveStageAt, GetSandboxAuthority, refuse. intros H. apply bind_Ok in H as ([] & Hv & H).
  destruct (Authorities s !! _) as [a|] eqn:Ea; [|done]. cbn [mbind result_bind] in H.
  apply guard_Ok in H as [G1 H]. apply guard_Ok in H as [G2 H]. split_guards.
  split_and!; [done|by exists a|]. cbv zeta in H. destruct (Idempotency s !! _) as [i|] eqn:Ei.
  - left. apply guard_Ok in H as [_ H]. destruct (Operations s !! _) as [o|] eqn:Eo; [|done].
    apply guard_Ok in H as [Hs [= <- <-]]. apply dec_stable, sameRequest_eq in Hs. exists i, o. done.
  - right. apply guard_Ok in H as [Hn H]. split_guards. apply bind_Ok in H as (o & [_ ->]%NewOperation_Ok & [= <- <-]). done.
Qed.

Lemma reserved_valid request t : t ≠ 0 → Request_Validate request t = Ok () → Operation_Validate (reserved request t) = Ok ().
Proof. intros ? ?. apply Operation_Validate_spec. unfold reserved. cbn. split_and!; done || lia. Qed.

Lemma artifact_scope_nonempty r : idempotencyScope r ≠ "".
Proof. unfold idempotencyScope. by destruct (aq_SandboxID r). Qed.

Lemma ReserveStageAt_wf request t s v s' :
  t ≠ 0 → artifact_wf s → ReserveStageAt request t s = Ok (v, s') → artifact_wf s'.
Proof.
  intros Ht Hs (Hv & (a & Ha & Hg & Hf) & [(i & o & _ & _ & _ & _ & ->)|(Hi & Ho & _ & ->)])%ReserveStageAt_Ok; [done|].
  destruct Hs as [H1 H2 H3 H4 H5]. split; cbn; try done.
  - intros k o Hk. ins_inv Hk; [|by apply H2]. split_and!; [done|by apply reserved_valid|]. exists a. cbn. split; [done|lia].
  - intros scope i Hk. ins_inv Hk.
    + split; [done|]. exists (reserved request t). rewrite lookup_insert_eq. split; [done|].
      split_and!; try done. apply artifact_scope_nonempty.
    + destruct (H3 _ _ Hk) as (? & o & Hio & ?). split; [done|]. exists o. split; [|done].
      rewrite lookup_insert_ne; [done|congruence].
  - intros k o Hk. ins_inv Hk; [by rewrite lookup_insert_eq|]. pose proof (H4 _ _ Hk) as Hx.
    rewrite lookup_insert_ne; [done|]. intros Heq. rewrite <- Heq, Hi in Hx. done.
  - intros k Hk. destruct (H5 k Hk) as (o & Hko & ?). exists o. split; [|done]. rewrite lookup_insert_ne; congruence.
Qed.

(** ** Updates *)

Lemma UpdateStage_Ok o expected s u s' :
  UpdateStage o expected s = Ok (u, s') →
  ∃ current, Operations s !! aq_OperationID (ao_Request o) = Some current ∧ ao_Status current = expected ∧
    ao_Request current = ao_Request o ∧ ao_AcceptedAt current = ao_AcceptedAt o ∧
    Transition current (ao_Status o) (ao_ObservedAt o) (ao_Failure o) (ao_Evidence o) = Ok o ∧ s' = set_operation o s.
Proof.
  unfold UpdateStage, refuse. intros H. destruct (Operations s !! _) as [c|] eqn:Ec; [|done]. exists c.
  apply guard_Ok in H as [G H]. split_guards. apply bind_Ok in H as (x & Ht & H). apply guard_Ok in H as [Hx [= <- <-]].
  apply dec_stable in Hx as ->. split_and!; try done. by apply sameRequest_eq.
Qed.

Lemma set_operation_wf k o o' s :
  artifact_wf s → Operations s !! k = Some o → operation_evolves o o' → Operation_Validate o' = Ok () →
  artifact_wf (set_operation o' s).
Proof.
  intros [H1 H2 H3 H4 H5] Hk Hev Hv. destruct (H2 k o Hk) as (Hid & Hvo & Hcov). pose proof Hev as (Hrq & _).
  unfold set_operation. rewrite Hrq, Hid. split; cbn; try done.
  - intros k2 o2 Hk2. ins_inv Hk2; [by rewrite Hrq|by apply H2].
  - intros scope i Hi. destruct (H3 _ _ Hi) as (? & o2 & Ho2 & Hb). split; [done|].
    destruct (decide (k = id_OperationID i)) as [->|Hne]; [|exists o2; by rewrite lookup_insert_ne].
    exists o'. rewrite lookup_insert_eq, Hrq. split; [done|]. by simplify_eq.
  - intros k2 o2 Hk2. ins_inv Hk2; [rewrite Hrq|]; by apply H4.
  - intros k2 Hk2. destruct (H5 k2 Hk2) as (o2 & Ho2 & He).
    destruct (decide (k = k2)) as [<-|Hne]; [|exists o2; by rewrite lookup_insert_ne].
    exists o'. rewrite lookup_insert_eq. split; [done|]. simplify_eq.
    by rewrite (evolves_terminal _ _ Hev (evidence_terminal _ Hvo He)).
Qed.

Lemma UpdateStage_wf o expected s u s' : artifact_wf s → UpdateStage o expected s = Ok (u, s') → artifact_wf s'.
Proof.
  intros Hs (c & Hc & _ & _ & _ & Ht & ->)%UpdateStage_Ok.
  eapply set_operation_wf; [done|exact Hc|by eapply artifact_Transition_evolves|by eapply Transition_valid].
Qed.

(** ** Reading evidence *)

Lemma ReadEvidenceAt_cases k now s x b s' :
  ReadEvidenceAt k now s = (x, b, s') →
  (s' = s ∧ b = false ∧
   ∀ e, x = Ok e → ∃ o, Operations s !! k = Some o ∧ ao_Evidence o = Some e ∧ (k ∉ ExpiredEvidence s) ∧ now < ev_ExpiresAt e) ∨
  (∃ o e, Operations s !! k = Some o ∧ ao_Evidence o = Some e ∧ ev_ExpiresAt e ≤ now ∧ b = true ∧
    x = Err [ErrEvidenceExpired] ∧ s' = set_expired k s).
Proof.
  unfold ReadEvidenceAt, refuse, Before, IsZero. intros H.
  repeat (case_match; simplify_eq); solve [left; naive_solver lia | right; naive_solver lia].
Qed.
