(* ===== verification/ArtifactGuarantees.v ===== *)
(** * Runs of the artifact repository

    Every write of [repository.State] as an operation, runs of them from the empty
    state, and what holds of every run: the invariant, the permanence of outcomes,
    the fencing of authorities, idempotency, and snapshots that load back. *)

From S2P Require Import Prelude ArtifactModel ArtifactState ArtifactInvariant.
From stdpp Require Import base gmap strings list fin_maps relations.
From Stdlib Require Import ZArith Lia.

Local Open Scope Z_scope.

(** Reading evidence is a write: it records that the evidence has expired. *)
Inductive artifact_op :=
  | OpPutAuthority (a : SandboxAuthority)
  | OpReplaceAuthority (a : SandboxAuthority) (expectedGeneration fencingToken : Z)
  | OpSynchronizeAuthority (a : SandboxAuthority)
  | OpReserve (request : Request) (acceptedAt : Time)
  | OpUpdate (operation : Operation) (expected : OperationStatus)
  | OpReadEvidence (operationID : string) (now : Time).

Definition next_state (op : artifact_op) (s : State) : result State :=
  match op with
  | OpPutAuthority a => '(_, s') ← PutSandboxAuthority a s; Ok s'
  | OpReplaceAuthority a g f => '(_, s') ← ReplaceSandboxAuthority a g f s; Ok s'
  | OpSynchronizeAuthority a => '(_, s') ← SynchronizeSandboxAuthority a s; Ok s'
  | OpReserve rq t => '(_, s') ← ReserveStageAt rq t s; Ok s'
  | OpUpdate o e => '(_, s') ← UpdateStage o e s; Ok s'
  | OpReadEvidence k now => Ok (ReadEvidenceAt k now s).2
  end.

Definition perform (s : State) (op : artifact_op) : State := match next_state op s with Ok s' => s' | Err _ => s end.
Definition perform_all (ops : list artifact_op) (s : State) : State := fold_left perform ops s.

Lemma artifact_perform_app ops1 ops2 s : perform_all (ops1 ++ ops2) s = perform_all ops2 (perform_all ops1 s).
Proof. apply fold_left_app. Qed.

(** A clock that was set. *)
Definition timed (op : artifact_op) : Prop := match op with OpReserve _ t => t ≠ 0 | _ => True end.

Lemma artifact_next_wf op s s' : timed op → artifact_wf s → next_state op s = Ok s' → artifact_wf s'.
Proof.
  intros Ht Hs H. destruct op; cbn in H; try apply bind_Ok in H as ([v s1] & H & [= <-]).
  - eapply authority_write_wf; [by eapply PutSandboxAuthority_Ok|done].
  - eapply authority_write_wf; [by eapply ReplaceSandboxAuthority_Ok|done].
  - eapply authority_write_wf; [by eapply SynchronizeSandboxAuthority_Ok|done].
  - by eapply ReserveStageAt_wf.
  - by eapply UpdateStage_wf.
  - injection H as <-. destruct (ReadEvidenceAt operationID now s) as [[x b] s'] eqn:E.
    apply ReadEvidenceAt_cases in E as [(-> & _)|(o & e & Ho & He & _ & _ & _ & ->)]; [done|].
    destruct Hs as [H1 H2 H3 H4 H5]. split; cbn; try done. intros k [->%elem_of_singleton|Hk]%elem_of_union; eauto.
Qed.

Lemma artifact_perform_wf op s : timed op → artifact_wf s → artifact_wf (perform s op).
Proof. intros Ht Hs. unfold perform. destruct (next_state op s) eqn:E; [by eapply artifact_next_wf|done]. Qed.

Lemma artifact_run_wf ops s : Forall timed ops → artifact_wf s → artifact_wf (perform_all ops s).
Proof.
  intros Hts. revert s. induction Hts as [|op ops Ht _ IH]; intros s Hs; [done|]. by apply IH, artifact_perform_wf.
Qed.

(** ** Evolution *)

Record artifact_evolves (s s' : State) : Prop := mkArtifactEvolves {
  ae_operation k o : Operations s !! k = Some o → ∃ o', Operations s' !! k = Some o' ∧ operation_evolves o o';
  ae_key scope i : Idempotency s !! scope = Some i → Idempotency s' !! scope = Some i;
  ae_authority k a : Authorities s !! k = Some a →
    ∃ a', Authorities s' !! k = Some a' ∧ sa_Generation a ≤ sa_Generation a' ∧ sa_FencingToken a ≤ sa_FencingToken a';
  ae_expired : ExpiredEvidence s ⊆ ExpiredEvidence s';
}.

#[export] Instance artifact_evolves_po : PreOrder artifact_evolves.
Proof.
  split.
  - intros s. split; [intros k o ?; by exists o|done|intros k a ?; exists a; split; [done|lia]|done].
  - intros s1 s2 s3 [H1 H2 H3 H4] [G1 G2 G3 G4]. split.
    + intros k o Hk. destruct (H1 k o Hk) as (o2 & Hk2 & ?). destruct (G1 k o2 Hk2) as (o3 & ? & ?). exists o3. split; [done|by etransitivity].
    + auto.
    + intros k a Hk. destruct (H3 k a Hk) as (a2 & Hk2 & ?). destruct (G3 k a2 Hk2) as (a3 & ? & ?). exists a3. split; [done|lia].
    + set_solver.
Qed.

Lemma authority_write_evolves a s s' : authority_write a s s' → artifact_evolves s s'.
Proof.
  intros [->|(-> & _ & Ha)]; [done|]. split; cbn; [intros k o ?; by exists o|done| |done].
  intros k b Hk. destruct (decide (sa_SandboxID a = k)) as [<-|Hne].
  - rewrite lookup_insert_eq. eexists. split; [done|]. by apply Ha.
  - rewrite lookup_insert_ne by done. exists b. split; [done|lia].
Qed.

Lemma artifact_next_evolves op s s' : artifact_wf s → next_state op s = Ok s' → artifact_evolves s s'.
Proof.
  intros Hs H. destruct op; cbn in H; try apply bind_Ok in H as ([v s1] & H & [= <-]).
  - eapply authority_write_evolves. by eapply PutSandboxAuthority_Ok.
  - eapply authority_write_evolves. by eapply ReplaceSandboxAuthority_Ok.
  - eapply authority_write_evolves. by eapply SynchronizeSandboxAuthority_Ok.
  - apply ReserveStageAt_Ok in H as (_ & _ & [(i & o & _ & _ & _ & _ & ->)|(Hi & Ho & _ & ->)]); [done|].
    split; cbn; [|intros scope i Hsc; rewrite lookup_insert_ne; congruence|intros k a ?; exists a; split; [done|lia]|done].
    intros k o Hk. exists o. rewrite lookup_insert_ne; [done|congruence].
  - apply UpdateStage_Ok in H as (c & Hc & _ & _ & _ & Ht%artifact_Transition_evolves & ->).
    split; cbn; [|done|intros k a ?; exists a; split; [done|lia]|done].
    intros k o Hk. destruct (decide (aq_OperationID (ao_Request operation) = k)) as [<-|Hne].
    + rewrite lookup_insert_eq. simplify_eq. eauto.
    + exists o. by rewrite lookup_insert_ne.
  - injection H as <-. destruct (ReadEvidenceAt operationID now s) as [[x b] s'] eqn:E.
    apply ReadEvidenceAt_cases in E as [(-> & _)|(o & e & _ & _ & _ & _ & _ & ->)]; [done|].
    split; cbn; [intros k o' ?; by exists o'|done|intros k a ?; exists a; split; [done|lia]|set_solver].
Qed.

Lemma artifact_run_evolves ops s : Forall timed ops → artifact_wf s → artifact_evolves s (perform_all ops s).
Proof.
  revert s. induction ops as [|op ops IH]; intros s Hts Hs; [done|]. apply Forall_cons in Hts as [Ht Hts].
  cbn. etransitivity; [|apply IH; [done|by apply artifact_perform_wf]].
  unfold perform. destruct (next_state op s) eqn:E; [by eapply artifact_next_evolves|done].
Qed.

(** ** Snapshots *)

Section import.
Context (s : State) (Hs : artifact_wf s).

Lemma artifact_load_authorities :
  foldM (load_one [ErrCorrupt] sa_SandboxID id
           (λ a, if decide (is_ok (SandboxAuthority_Validate a) = false) then corrupt else Ok ())) ∅ (ps_Authorities (Export s))
  = Ok (Authorities s).
Proof using Hs.
  apply load_of_map.
  - apply Forall_forall. intros a [k Hk]%elem_of_listing. by destruct (aw_authority s Hs _ _ Hk) as [_ ->].
  - apply (export_listing sa_SandboxID). intros k a Hk. by destruct (aw_authority s Hs _ _ Hk).
Qed.

Lemma artifact_load_operations : foldM (load_operation (Authorities s)) ∅ (ps_Operations (Export s)) = Ok (Operations s).
Proof using Hs.
  apply (load_steps (aq_OperationID ∘ ao_Request) id).
  - intros m0 o [k Hk]%elem_of_listing _ Hnone. destruct (aw_operation s Hs _ _ Hk) as (_ & Hv & a & Ha & _).
    unfold load_operation. rewrite Hv, Ha. cbn in *. rewrite Hnone. by pass.
  - apply (export_listing (aq_OperationID ∘ ao_Request)). intros k o Hk. by destruct (aw_operation s Hs _ _ Hk).
Qed.

Lemma artifact_load_idempotency : foldM (load_idempotency (Operations s)) ∅ (ps_Idempotency (Export s)) = Ok (Idempotency s).
Proof using Hs.
  apply (load_steps id_Scope id).
  - intros m0 i [k Hk]%elem_of_listing _ Hnone. destruct (aw_index s Hs _ _ Hk) as (_ & o & Ho & Hb).
    unfold load_idempotency. rewrite Ho, Hnone. rewrite decide_False by (by intros ?). by pass.
  - apply (export_listing id_Scope). intros k i Hk. by destruct (aw_index s Hs _ _ Hk).
Qed.

Lemma load_expired_all (m : gmap string Operation) (l : list string) (acc : gset string) :
  NoDup l → (∀ k, k ∈ l → (k ∉ acc) ∧ ∃ o, m !! k = Some o ∧ is_Some (ao_Evidence o)) →
  foldM (load_expired m) acc l = Ok (list_to_set l ∪ acc).
Proof.
  clear s Hs. revert acc. induction l as [|k l IH]; intros acc Hnd Hl; [cbn; f_equal; set_solver|].
  apply NoDup_cons in Hnd as [Hk Hnd]. cbn. unfold load_expired at 1.
  destruct (Hl k) as (Hacc & o & Ho & e & He); [left|]. rewrite Ho. cbn. rewrite He, decide_False by naive_solver.
  rewrite IH; [f_equal; set_solver|done|]. intros k' Hk'. destruct (Hl k') as [? ?]; [by right|]. split; [set_solver|done].
Qed.

Lemma artifact_load_expired : foldM (load_expired (Operations s)) ∅ (ps_ExpiredEvidence (Export s)) = Ok (ExpiredEvidence s).
Proof using Hs.
  rewrite load_expired_all.
  - f_equal. rewrite (right_id_L ∅ (∪)). cbn. apply set_eq. intros k. rewrite elem_of_list_to_set, sort_by_perm. apply elem_of_elements.
  - cbn. rewrite sort_by_perm. apply NoDup_elements.
  - intros k. cbn. rewrite sort_by_perm, elem_of_elements. intros Hk. split; [set_solver|]. by apply (aw_expired s Hs).
Qed.

Lemma artifact_Import_Export : Import (Export s) = Ok s.
Proof using Hs.
  unfold Import. rewrite decide_False by (by intros ?). rewrite artifact_load_authorities. cbn [mbind result_bind].
  rewrite artifact_load_operations. cbn [mbind result_bind]. rewrite artifact_load_idempotency. cbn [mbind result_bind].
  rewrite decide_False.
  - rewrite artifact_load_expired. by destruct s.
  - intros Hn. apply Hn. intros k o Hk. apply (aw_indexed s Hs) in Hk. by destruct (Idempotency s !! _).
Qed.
End import.

(** ** A sample run: an artifact is staged *)

Module ArtifactSample.
Definition digest : string := "sha256:0123456789abcdef0123456789abcdef0123456789abcdef0123456789abcdef".
Definition authority : SandboxAuthority := mkSandboxAuthority "box" 1 7.
Definition request : Request :=
  mkRequest "box" "tenant" "op" "try" 7 1 "key" digest (100 * Second) "artifact-ref:out" "/outputs/a.txt" digest "text/plain" 64 (10 * Second).
Definition passed : Check_ := mkCheck CheckPassed 20 "".
Definition evidence : Evidence :=
  mkEvidence "op" "try" 7 "box" "artifact-ref:out" "ref:staging/1" StatusStaged digest "text/plain" 12 passed passed passed 30 (10 * Second + 10) digest.
Definition running : Operation := mkOperation request OperationRunning no_failure 10 20 None.
Definition succeeded : Operation := mkOperation request OperationSucceeded no_failure 10 40 (Some evidence).
Definition accepted : list artifact_op := [OpPutAuthority authority; OpReserve request 10].
Definition ops : list artifact_op :=
  accepted ++ [OpUpdate running OperationAccepted; OpUpdate succeeded OperationRunning; OpReadEvidence "op" (20 * Second)].

Lemma ops_timed : Forall timed ops.
Proof. repeat constructor; done. Qed.

Lemma ops_succeed :
  Operations (perform_all ops NewState) !! "op" = Some succeeded ∧ "op" ∈ ExpiredEvidence (perform_all ops NewState).
Proof. split; [vm_compute; reflexivity|]. apply (bool_decide_eq_true_1 _). vm_compute. reflexivity. Qed.
End ArtifactSample.

(** ** Guarantees *)

(** C23 (type): the artifact repository holds, after any run of its operations in which
    every reservation has an acceptance time (other than Go's zero time, which the
    repository does not refuse), only well-formed values: authorities under their sandbox, operations under their
    id that pass validation and are covered by the authority of their sandbox,
    idempotency records that agree with exactly the operation they name, and
    expiry marks for operations with evidence; and a succeeded operation carries
    evidence for the requested digest, media type and size with all three checks
    passed. *)
Theorem artifact_repository_invariant ops :
  Forall timed ops →
  artifact_wf (perform_all ops NewState) ∧
  ∀ k o, Operations (perform_all ops NewState) !! k = Some o → ao_Status o = OperationSucceeded →
    ∃ e, ao_Evidence o = Some e ∧ staged_for (ao_Request o) e.
Proof.
  intros Ht. assert (Hwf : artifact_wf (perform_all ops NewState)) by (apply artifact_run_wf; [done|apply artifact_wf_init]).
  split; [done|]. intros k o Hk Hs. destruct (aw_operation _ Hwf k o Hk) as (_ & Hv & _). by apply succeeded_evidence.
Qed.

Lemma artifact_repository_invariant_witness :
  artifact_wf (perform_all ArtifactSample.ops NewState) ∧
  ∃ e, ao_Evidence ArtifactSample.succeeded = Some e ∧ staged_for ArtifactSample.request e.
Proof.
  destruct (artifact_repository_invariant ArtifactSample.ops ArtifactSample.ops_timed) as [Hwf H].
  split; [exact Hwf|]. apply (H "op"); [apply ArtifactSample.ops_succeed|reflexivity].
Defined.

(** Whatever happens to the artifact repository, no operation disappears or changes
    its request, a terminal outcome stays as it is with its evidence, generations
    and fencing tokens never regress, keys stay bound, and evidence once reported
    as expired stays so. *)
Theorem artifact_outcomes_are_final ops1 ops2 :
  Forall timed (ops1 ++ ops2) →
  artifact_evolves (perform_all ops1 NewState) (perform_all (ops1 ++ ops2) NewState) ∧
  ∀ k o, Operations (perform_all ops1 NewState) !! k = Some o → terminal (ao_Status o) = true →
    Operations (perform_all (ops1 ++ ops2) NewState) !! k = Some o.
Proof.
  intros [H1 H2]%Forall_app. rewrite artifact_perform_app.
  assert (He : artifact_evolves (perform_all ops1 NewState) (perform_all ops2 (perform_all ops1 NewState))).
  { apply artifact_run_evolves; [done|]. apply artifact_run_wf; [done|apply artifact_wf_init]. }
  split; [done|]. intros k o Hk Ht. destruct (ae_operation _ _ He k o Hk) as (o' & Hk' & Hev).
  by rewrite <- (evolves_terminal _ _ Hev Ht).
Qed.

Lemma artifact_outcomes_are_final_witness :
  Operations (perform_all (ArtifactSample.ops ++ ArtifactSample.ops) NewState) !! "op" = Some ArtifactSample.succeeded.
Proof.
  refine (proj2 (artifact_outcomes_are_final ArtifactSample.ops ArtifactSample.ops _) "op" _ _ _).
  - apply Forall_app; split; apply ArtifactSample.ops_timed.
  - apply ArtifactSample.ops_succeed.
  - reflexivity.
Defined.

(** A snapshot of the artifact repository, taken after any run, loads back to
    exactly the state it was taken of. *)
Theorem artifact_snapshot_roundtrip ops :
  Forall timed ops → Import (Export (perform_all ops NewState)) = Ok (perform_all ops NewState).
Proof. intros Ht. apply artifact_Import_Export, artifact_run_wf; [done|apply artifact_wf_init]. Qed.

Lemma artifact_snapshot_roundtrip_witness :
  Import (Export (perform_all ArtifactSample.ops NewState)) = Ok (perform_all ArtifactSample.ops NewState).
Proof. apply (artifact_snapshot_roundtrip ArtifactSample.ops). apply ArtifactSample.ops_timed. Defined.

(** A key is bound to one request: of two reservations under the same sandbox and
    key that both succeed, the later one repeats the request of the earlier one
    and returns its operation, changed only as operations may change. *)
Theorem artifact_keys_bind_requests ops1 ops2 request request' t t' v v' s1 s2 :
  let before := perform_all ops1 NewState in
  Forall timed (ops1 ++ ops2) → t ≠ 0 →
  ReserveStageAt request t before = Ok (v, s1) →
  ReserveStageAt request' t' (perform_all ops2 s1) = Ok (v', s2) →
  idempotencyScope request' = idempotencyScope request →
  request' = request ∧ rv_Replayed v' = true ∧ s2 = perform_all ops2 s1 ∧ operation_evolves (rv_Operation v) (rv_Operation v').
Proof.
  intros before [H1 H2]%Forall_app Ht Hv Hv' Hsc.
  assert (Hb : artifact_wf before) by (apply artifact_run_wf; [done|apply artifact_wf_init]).
  assert (Hs1 : artifact_wf s1) by (by eapply ReserveStageAt_wf).
  pose proof (artifact_run_evolves ops2 s1 H2 Hs1) as [Hop Hkey _ _].
  assert (Hbound : ∃ i, Idempotency s1 !! idempotencyScope request = Some i ∧
                        Operations s1 !! id_OperationID i = Some (rv_Operation v) ∧ ao_Request (rv_Operation v) = request).
  { apply ReserveStageAt_Ok in Hv as (_ & _ & [(i & o & Hi & Ho & Hr & -> & ->)|(_ & _ & -> & ->)]); cbn; [eauto|].
    rewrite lookup_insert_eq. eexists. split; [done|]. cbn. by rewrite lookup_insert_eq. }
  destruct Hbound as (i & Hi & Ho & Hr). apply Hkey in Hi. destruct (Hop _ _ Ho) as (o' & Ho' & Hev).
  apply ReserveStageAt_Ok in Hv' as (_ & _ & [(i' & o & Hi' & Hoo & Hr' & -> & ->)|(Hnone & _)]); [|congruence].
  rewrite Hsc in Hi'. simplify_eq. cbn. destruct Hev as (Hreq & Hrest). by split_and!.
Qed.

Lemma artifact_keys_bind_requests_witness :
  ∃ v s, ReserveStageAt ArtifactSample.request 11 (perform_all ArtifactSample.accepted NewState) = Ok (v, s) ∧ rv_Replayed v = true.
Proof.
  destruct (ReserveStageAt ArtifactSample.request 10 (perform_all [OpPutAuthority ArtifactSample.authority] NewState)) as [[v s1]|] eqn:E1;
    [|vm_compute in E1; discriminate].
  assert (Es1 : s1 = perform_all ArtifactSample.accepted NewState).
  { transitivity (perform (perform_all [OpPutAuthority ArtifactSample.authority] NewState) (OpReserve ArtifactSample.request 10)); [|reflexivity].
    unfold perform, next_state. by rewrite E1. }
  destruct (ReserveStageAt ArtifactSample.request 11 s1) as [[v' s2]|] eqn:E2; [|subst s1; vm_compute in E2; discriminate].
  exists v', s2. split; [by rewrite <- Es1|].
  refine (proj1 (proj2 (artifact_keys_bind_requests [OpPutAuthority ArtifactSample.authority] [] ArtifactSample.request
    ArtifactSample.request 10 11 v v' s1 s2 _ _ E1 E2 _))); [repeat constructor|done|reflexivity].
Defined.

(** A reservation whose acceptance time was never set is stored although the
    operation it creates does not pass validation, so that reading it, listing
    the operations and loading the snapshot all fail. *)
Lemma unset_acceptance_time_corrupts request s v s' :
  Idempotency s !! idempotencyScope request = None → ReserveStageAt request 0 s = Ok (v, s') →
  GetStage (aq_OperationID request) s' = Err [ErrCorrupt].
Proof.
  intros Hn (_ & _ & [(i & o & Hi & _)|(_ & _ & _ & ->)])%ReserveStageAt_Ok; [congruence|].
  unfold GetStage. cbn. rewrite lookup_insert_eq. reflexivity.
Qed.
