(* ===== verification/ArtifactApplication.v ===== *)
(** * The artifact application: [provider/artifact/application]

    [application.go] and [vertical.go] as programs over the ports.  The parts of an
    application are flags that say whether they are present.  A method that returns
    a value next to an error is an [outcome]: [Recover] reads both.  The mutex of the
    application is not modelled: every interleaving is allowed, so that what is
    proved holds with it too.  A worker goroutine is a program of its own. *)

From S2P Require Import Prelude Program LifecycleModel ArtifactModel ArtifactState ArtifactInvariant ArtifactGuarantees.
From stdpp Require Import base gmap strings list fin_maps relations.
From Stdlib Require Import ZArith Lia.

Local Open Scope Z_scope.
Local Open Scope program_scope.

(** * The ports of the artifact application

    [artifact.Authority] of [provider/artifact/port.go] as its repository adapters
    implement it, the stager, the lifecycle reader, the support checker, the clock,
    the caller's context, and the worker registry of the vertical (its fields under
    [workerMu] with the wait group), as calls with the answers each may give.  The
    authority answers as [repository.State] does, or with a transport error that
    left the state as it was, or it commits and then reports a durability failure.
    The clock is past zero.  Everything else answers anything. *)

Inductive Context :=
  | CtxNil
  | CtxCaller
  | CtxWorker                                   (* [v.workerContext] *)
  | CtxTimeout (parent : Context) (timeout : Z) (* [context.WithTimeout] *)
  | CtxWithoutCancel (parent : Context).        (* [context.WithoutCancel] *)

Inductive eff : Type → Type :=
  | ENow : eff Time
  | ECtxErr (ctx : Context) : eff (option goerr)
  (* artifact.Authority, CoordinationAuthority *)
  | EReserveStage (ctx : Context) (rq : Request) (acceptedAt : Time) : eff (result Reservation)
  | EGetStage (ctx : Context) (id : string) : eff (result Operation)
  | EListStages (ctx : Context) : eff (result (list Operation))
  | EUpdateStage (ctx : Context) (o : Operation) (expected : OperationStatus) : eff (result unit)
  | EGetEvidence (ctx : Context) (id : string) (now : Time) : eff (result Evidence)
  | ESynchronize (ctx : Context) (a : SandboxAuthority) : eff (result unit)
  (* artifact.Stager, artifact.SupportChecker, SandboxReader *)
  | EStage (ctx : Context) (rq : Request) (acceptedAt : Time) : eff (result Evidence)
  | ECheckSupport (ctx : Context) (rq : Request) : eff (result unit)
  | EGetSandbox (ctx : Context) (id : string) : eff (result Sandbox)
  (* the workers of a vertical *)
  | EClosed : eff bool
  | ESchedule (id : string) : eff bool
  | EWorkerBegin (id : string) : eff ()
  | EWorkerDone (id : string) : eff ()
  | ECloseWorkers : eff ()
  | EWaitWorkers : eff ().

Abbreviation prog := (Program.prog eff).

(** ** The worker registry

    [wk_workers] is the map of running workers, whose size is the count of the wait
    group; [wk_pending] are goroutines that were started and have not run yet. *)
Record Workers := mkWorkers { wk_workers : gset string; wk_pending : gset string; wk_closed : bool }.

Definition NewWorkers : Workers := mkWorkers ∅ ∅ false.

(** The critical section of [schedule]: whether a goroutine is started. *)
Definition schedule_worker (id : string) (w : Workers) : bool * Workers :=
  if wk_closed w then (false, w) else
  if decide (id ∈ wk_workers w) then (false, w) else
  (true, mkWorkers ({[id]} ∪ wk_workers w) ({[id]} ∪ wk_pending w) false).

(** The goroutine runs. *)
Definition begin_worker (id : string) (w : Workers) : Workers := mkWorkers (wk_workers w) (wk_pending w ∖ {[id]}) (wk_closed w).

(** The deferred calls: [delete(v.workers, id)] and [workerWait.Done()]. *)
Definition finish_worker (id : string) (w : Workers) : Workers := mkWorkers (wk_workers w ∖ {[id]}) (wk_pending w) (wk_closed w).

Definition close_workers (w : Workers) : Workers := mkWorkers (wk_workers w) (wk_pending w) true.

Record Shared := mkShared { sh_repo : State; sh_workers : Workers }.

Definition NewShared : Shared := mkShared NewState NewWorkers.
Definition set_repo (s : State) (σ : Shared) : Shared := mkShared s (sh_workers σ).
Definition set_workers (w : Workers) (σ : Shared) : Shared := mkShared (sh_repo σ) w.

(** ** Answers *)

Definition transport_error (e : goerr) : Prop :=
  e = [Canceled : sentinel] ∨ e = [DeadlineExceeded : sentinel] ∨ e = [ErrClosed] ∨ e = [ErrDurability].

Definition answers_read {X} (r : result X) (s : State) (x : result X) (s' : State) : Prop :=
  s' = s ∧ (x = r ∨ ∃ e, transport_error e ∧ x = Err e).

(** The write [m] may take effect, with its answer or a durability failure, or not. *)
Definition answers_write {X} (m : result (X * State)) (s : State) (x : result X) (s' : State) : Prop :=
  match m with
  | Ok (v, t) => (x = Ok v ∨ x = Err [ErrDurability]) ∧ s' = t
  | Err e => x = Err e ∧ s' = s
  end ∨ (s' = s ∧ ∃ e, transport_error e ∧ x = Err e).

(** Reading evidence answers with the value or the error, whether or not it wrote. *)
Definition answers_evidence (m : result Evidence * bool * State) (s : State) (x : result Evidence) (s' : State) : Prop :=
  ((x = m.1.1 ∨ x = Err [ErrDurability]) ∧ s' = m.2) ∨ (s' = s ∧ ∃ e, transport_error e ∧ x = Err e).

(** A call of the repository changes nothing else. *)
Definition on_repo (R : State → State → Prop) (σ σ' : Shared) : Prop := R (sh_repo σ) (sh_repo σ') ∧ sh_workers σ' = sh_workers σ.

Definition respond {X} (e : eff X) : Shared → X → Shared → Prop :=
  match e in eff X return Shared → X → Shared → Prop with
  | ENow => λ σ x σ', 0 < x ∧ σ' = σ
  | EReserveStage _ rq at_ => λ σ x σ', on_repo (λ s s', answers_write (ReserveStageAt rq at_ s) s x s') σ σ'
  | EGetStage _ id => λ σ x σ', on_repo (λ s s', answers_read (GetStage id s) s x s') σ σ'
  | EListStages _ => λ σ x σ', on_repo (λ s s', answers_read (ListStages s) s x s') σ σ'
  | EUpdateStage _ o expected => λ σ x σ', on_repo (λ s s', answers_write (UpdateStage o expected s) s x s') σ σ'
  | EGetEvidence _ id now => λ σ x σ', on_repo (λ s s', answers_evidence (ReadEvidenceAt id now s) s x s') σ σ'
  | ESynchronize _ a => λ σ x σ', on_repo (λ s s', answers_write (SynchronizeSandboxAuthority a s) s x s') σ σ'
  | EClosed => λ σ x σ', x = wk_closed (sh_workers σ) ∧ σ' = σ
  | ESchedule id => λ σ x σ', let '(b, w) := schedule_worker id (sh_workers σ) in x = b ∧ σ' = set_workers w σ
  | EWorkerBegin id => λ σ _ σ', id ∈ wk_pending (sh_workers σ) ∧ σ' = set_workers (begin_worker id (sh_workers σ)) σ
  | EWorkerDone id => λ σ _ σ', σ' = set_workers (finish_worker id (sh_workers σ)) σ
  | ECloseWorkers => λ σ _ σ', σ' = set_workers (close_workers (sh_workers σ)) σ
  | EWaitWorkers => λ σ _ σ', wk_workers (sh_workers σ) = ∅ ∧ σ' = σ
  | _ => λ σ _ σ', σ' = σ
  end.

(** The operation of the repository behind a call. *)
Definition op_of {X} (e : eff X) : option artifact_op :=
  match e with
  | EReserveStage _ rq at_ => Some (OpReserve rq at_)
  | EUpdateStage _ o expected => Some (OpUpdate o expected)
  | EGetEvidence _ id now => Some (OpReadEvidence id now)
  | ESynchronize _ a => Some (OpSynchronizeAuthority a)
  | _ => None
  end.

Lemma artifact_write_state {X} (m : result (X * State)) s x s' : answers_write m s x s' → s' = s ∨ ∃ v, m = Ok (v, s').
Proof. intros [H|[-> _]]; [|by left]. destruct m as [[v t]|]; [right|left; naive_solver]. exists v. naive_solver. Qed.

Lemma artifact_write_value {X} (m : result (X * State)) s v s' : answers_write m s (Ok v) s' → m = Ok (v, s').
Proof. intros [H|(_ & e & _ & ?)]; [|done]. destruct m as [[v' t]|]; naive_solver. Qed.

Lemma artifact_read_value {X} (r : result X) s v s' : answers_read r s (Ok v) s' → r = Ok v ∧ s' = s.
Proof. intros [-> [->|(e & _ & ?)]]; done. Qed.

(** Whatever is answered, the repository took one operation or none. *)
Lemma artifact_respond_repo {X} (e : eff X) σ x σ' :
  respond e σ x σ' → sh_repo σ' = sh_repo σ ∨ ∃ op, op_of e = Some op ∧ next_state op (sh_repo σ) = Ok (sh_repo σ').
Proof.
  destruct e; cbn; try (intros ->; by left); try (intros [_ ->]; by left); try (intros [[-> _] _]; by left).
  - intros [[->|(v & Hv)]%artifact_write_state _]; [by left|]. right. eexists. split; [done|]. cbn. by rewrite Hv.
  - intros [[->|(v & Hv)]%artifact_write_state _]; [by left|]. right. eexists. split; [done|]. cbn. by rewrite Hv.
  - intros [[[_ Hr]|[-> _]] _]; [|by left]. right. eexists. split; [done|]. cbn. by rewrite Hr.
  - intros [[->|(v & Hv)]%artifact_write_state _]; [by left|]. right. eexists. split; [done|]. cbn. by rewrite Hv.
  - destruct (schedule_worker _ _). intros [_ ->]. by left.
Qed.

Definition ErrInvalidApplication : sentinel := SNamed "artifact/application" "ErrInvalidApplication".
Definition persistenceTimeout : Z := 5 * Second.

#[export] Instance zero_request : Zero Request := mkRequest "" "" "" "" 0 0 "" "" 0 "" "" "" "" 0 0.
#[export] Instance zero_operation : Zero Operation := mkOperation zero (OperationOther "") no_failure 0 0 None.
#[export] Instance zero_reservation : Zero Reservation := mkReservation zero false.
#[export] Instance zero_evidence : Zero Evidence :=
  mkEvidence "" "" 0 "" "" "" (StatusOther "") "" "" 0 (mkCheck (CheckOther "") 0 "") (mkCheck (CheckOther "") 0 "")
    (mkCheck (CheckOther "") 0 "") 0 0 "".
#[export] Instance zero_unit : Zero unit := ().

(** [errors.Join]: nil errors are dropped. *)
Definition Join (errs : list (option goerr)) : option goerr :=
  match omap id errs with [] => None | es => Some (concat es) end.

Record Application := mkApplication { ap_authority : bool; ap_stager : bool; ap_clock : bool }.

Definition New (authority stager clock : bool) : result Application :=
  if decide (authority = false ∨ stager = false ∨ clock = false) then Err [ErrInvalidApplication]
  else Ok (mkApplication authority stager clock).

(** ** Contexts *)

Definition contextError (ctx : Context) : prog (option goerr) :=
  match ctx with CtxNil => Ret (Some [Canceled : sentinel]) | _ => call (ECtxErr ctx) end.

Definition complete (a : Application) : bool := ap_authority a && ap_stager a && ap_clock a.

Definition ready {A} `{!Zero A} (a : Application) (ctx : Context) (k : prog (outcome A)) : prog (outcome A) :=
  if complete a then
    err ← contextError ctx;
    match err with Some e => fail e | None => k end
  else fail [ErrInvalidApplication].

(** [nonNilContext]; the background context is the one without a parent. *)
Definition nonNilContext (ctx : Context) : Context := match ctx with CtxNil => CtxWithoutCancel CtxNil | _ => ctx end.

(** ** The application *)

Definition app_Accept (a : Application) (ctx : Context) (request : Request) : prog (outcome Reservation) :=
  ready a ctx
    (now ← call ENow;
     match Request_Validate request now with
     | Err e => fail e
     | Ok _ => pass (call (EReserveStage ctx request now))
     end).

Definition observedAfter (previous : Time) : prog Time :=
  now ← call ENow; Ret (if decide (Before now previous) then previous else now).

(** The write of a transition, with the context that outlives the caller's. *)
Definition write_back (ctx : Context) (o updated : Operation) (cause : option goerr) : prog (outcome Operation) :=
  r ← call (EUpdateStage (CtxTimeout (CtxWithoutCancel (nonNilContext ctx)) persistenceTimeout) updated (ao_Status o));
  match r with
  | Err e => Ret (zero, Join [cause; Some e])
  | Ok _ => Ret (updated, cause)
  end.

(** [finishAt] calls itself once, with the unknown outcome, for which it does not
    call itself again. *)
Definition finishAt_unknown (ctx : Context) (o : Operation) (observedAt : Time) (cause : option goerr) : prog (outcome Operation) :=
  match Transition o OperationOutcomeUnknown observedAt FailureDispatchUnknown None with
  | Err e => Ret (zero, Join [cause; Some e])
  | Ok updated => write_back ctx o updated cause
  end.

Definition finishAt (ctx : Context) (o : Operation) (status : OperationStatus) (reason : FailureReason)
    (evidence : option Evidence) (observedAt : Time) (cause : option goerr) : prog (outcome Operation) :=
  match Transition o status observedAt reason evidence with
  | Err e =>
      if decide (ao_Status o = OperationRunning ∧ status ≠ OperationOutcomeUnknown)
      then finishAt_unknown ctx o observedAt (Join [cause; Some [ErrOutcomeUnknown]; Some e])
      else Ret (zero, Join [cause; Some e])
  | Ok updated => write_back ctx o updated cause
  end.

Definition finish (ctx : Context) (o : Operation) (status : OperationStatus) (reason : FailureReason)
    (evidence : option Evidence) (cause : option goerr) : prog (outcome Operation) :=
  observedAt ← observedAfter (ao_ObservedAt o);
  finishAt ctx o status reason evidence observedAt cause.

Definition failBeforeDispatch (ctx : Context) (o : Operation) (reason : FailureReason) (cause : goerr) : prog (outcome Operation) :=
  finish ctx o OperationFailed reason None (Some cause).

Definition reconcileLocked (ctx : Context) (o : Operation) : prog (outcome Operation) :=
  match ao_Status o with
  | OperationRunning => finish ctx o OperationOutcomeUnknown FailureDispatchUnknown None (Some [ErrOutcomeUnknown])
  | OperationOutcomeUnknown => Ret (o, Some [ErrOutcomeUnknown])
  | _ => Ret (o, None)
  end.

(** What is recorded of the stager's answer. *)
Definition conclude (ctx : Context) (running : Operation) (answer : result Evidence) : prog (outcome Operation) :=
  observedAt ← observedAfter (ao_ObservedAt running);
  match answer with
  | Err e =>
      if errors_is e ErrSourceMissing
      then finish ctx running OperationFailed FailureSourceMissing None (Some e)
      else finish ctx running OperationOutcomeUnknown FailureDispatchUnknown None (Join [Some [ErrOutcomeUnknown]; Some e])
  | Ok evidence =>
      match ev_Status evidence with
      | StatusStaged => finishAt ctx running OperationSucceeded no_failure (Some evidence) observedAt None
      | StatusRejected => finishAt ctx running OperationFailed FailureContentRejected (Some evidence) observedAt None
      | StatusOther _ =>
          finishAt ctx running OperationOutcomeUnknown FailureDispatchUnknown None observedAt (Some [ErrOutcomeUnknown])
      end
  end.

(** [dispatchDeadline]: the earlier of the deadline and the end of retention. *)
Definition dispatchDeadline (o : Operation) : Time :=
  let evidenceDeadline := ExpiresAt (ao_Request o) (ao_AcceptedAt o) in
  if decide (Before evidenceDeadline (aq_Deadline (ao_Request o))) then evidenceDeadline else aq_Deadline (ao_Request o).

Definition dispatch_accepted (ctx : Context) (o : Operation) : prog (outcome Operation) :=
  now ← call ENow;
  if decide (¬ After (aq_Deadline (ao_Request o)) now ∨ ¬ After (ExpiresAt (ao_Request o) (ao_AcceptedAt o)) now)
  then failBeforeDispatch ctx o FailureDeadlineExpired [ErrDeadlineExpired] else
  err ← contextError ctx;
  match err with
  | Some e => failBeforeDispatch ctx o FailureCancelledBeforeRun e
  | None =>
      match Transition o OperationRunning now no_failure None with
      | Err e => fail e
      | Ok running =>
          call (EUpdateStage ctx running OperationAccepted) ;~
          (answer ← call (EStage (CtxTimeout ctx (Sub (dispatchDeadline o) now)) (ao_Request o) (ao_AcceptedAt o));
           conclude ctx running answer)
      end
  end.

Definition Dispatch (a : Application) (ctx : Context) (operationID : string) : prog (outcome Operation) :=
  if complete a then
    match ctx with
    | CtxNil => fail [Canceled : sentinel]
    | _ =>
        err ← call (ECtxErr ctx);
        let readCtx := match err with Some _ => CtxWithoutCancel ctx | None => ctx end in
        operation <~ call (EGetStage readCtx operationID);
        if decide (ao_Status operation ≠ OperationAccepted) then reconcileLocked ctx operation
        else dispatch_accepted ctx operation
    end
  else fail [ErrInvalidApplication].

Definition Reconcile (a : Application) (ctx : Context) (operationID : string) : prog (outcome Operation) :=
  ready a ctx
    (operation <~ call (EGetStage ctx operationID);
     if decide (ao_Status operation = OperationAccepted) then Dispatch a ctx operationID
     else reconcileLocked ctx operation).

Definition recoverable (s : OperationStatus) : bool :=
  match s with OperationAccepted | OperationRunning | OperationOutcomeUnknown => true | _ => false end.

Fixpoint recover_all (a : Application) (ctx : Context) (operations results : list Operation) (unknown : bool)
    : prog (outcome (list Operation)) :=
  match operations with
  | [] => Ret (results, if unknown then Some [ErrOutcomeUnknown] else None)
  | o :: operations =>
      if negb (recoverable (ao_Status o)) then recover_all a ctx operations results unknown else
      '(result, err) ← Reconcile a ctx (aq_OperationID (ao_Request o));
      let results := if decide (aq_OperationID (ao_Request result) ≠ "") then results ++ [result] else results in
      match err with
      | None => recover_all a ctx operations results unknown
      | Some e =>
          if decide (e = [ErrOutcomeUnknown]) then recover_all a ctx operations results true
          else Ret (results, Some e)
      end
  end.

Definition app_Recover (a : Application) (ctx : Context) : prog (outcome (list Operation)) :=
  ready a ctx (operations <~ call (EListStages ctx); recover_all a ctx operations [] false).

Definition app_GetOperation (a : Application) (ctx : Context) (operationID : string) : prog (outcome Operation) :=
  ready a ctx (pass (call (EGetStage ctx operationID))).

Definition app_GetEvidence (a : Application) (ctx : Context) (operationID : string) : prog (outcome Evidence) :=
  ready a ctx (now ← call ENow; pass (call (EGetEvidence ctx operationID now))).

(** ** The vertical *)

Record Vertical := mkVertical {
  v_application : Application; v_authority : bool; v_sandboxes : bool; v_support : bool; v_clock : bool; v_workerContext : bool;
}.

Definition NewVertical (authority stager sandboxes support clock : bool) : result Vertical :=
  if decide (authority = false ∨ stager = false ∨ sandboxes = false ∨ support = false ∨ clock = false)
  then Err [ErrInvalidApplication]
  else base ← New authority stager clock; Ok (mkVertical base authority sandboxes support clock true).

Definition vertical_ready {A} `{!Zero A} (v : Vertical) (ctx : Context) (k : prog (outcome A)) : prog (outcome A) :=
  if v_authority v && v_sandboxes v && v_support v && v_clock v && v_workerContext v then
    match ctx with
    | CtxNil => fail [Canceled : sentinel]
    | _ =>
        err ← call (ECtxErr ctx);
        match err with
        | Some e => fail e
        | None =>
            closed ← call EClosed;
            if closed : bool then fail [ErrInvalidApplication] else k
        end
    end
  else fail [ErrInvalidApplication].

Definition MaxInt64 : Z := 2 ^ 63 - 1.

(** Whether the sandbox the lifecycle reports carries the request. *)
Definition check_sandbox (sandbox : Sandbox) (request : Request) (now : Time) : result unit :=
  _ ← Sandbox_Validate sandbox;
  if decide (sb_ID sandbox ≠ aq_SandboxID request ∨ sb_Generation sandbox > MaxInt64
             ∨ i64 (sb_Generation sandbox) ≠ aq_ExpectedGeneration request) then Err [ErrGenerationConflict] else
  if decide (sb_TenantID sandbox ≠ aq_TenantID request) then Err [ErrTenantBinding] else
  if decide (sb_DesiredState sandbox ≠ DesiredReady ∨ sb_ObservedState sandbox ≠ ObservedReady
             ∨ sb_ObservedGeneration sandbox ≠ sb_Generation sandbox) then Err [ErrSandboxNotReady] else
  if decide (¬ After (sb_LeaseExpiresAt sandbox) now) then Err [ErrSandboxLeaseExpired] else Ok ().

Definition synchronizeSandbox (ctx : Context) (request : Request) (now : Time) : prog (outcome unit) :=
  sandbox <~ call (EGetSandbox ctx (aq_SandboxID request));
  match check_sandbox sandbox request now with
  | Err e => fail e
  | Ok _ =>
      pass (call (ESynchronize ctx (mkSandboxAuthority (sb_ID sandbox) (i64 (sb_Generation sandbox)) (aq_FencingToken request))))
  end.

Definition Accept (v : Vertical) (ctx : Context) (request : Request) : prog (outcome Reservation) :=
  vertical_ready v ctx
    (now ← call ENow;
     match Request_Validate request now with
     | Err e => fail e
     | Ok _ =>
         orelse (call (ECheckSupport ctx request)) (λ e, fail (ErrUnsupportedChecks :: e)) (λ _,
           '(_, err) ← synchronizeSandbox ctx request now;
           match err with
           | Some e => fail e
           | None =>
               '(reservation, err) ← app_Accept (v_application v) ctx request;
               match err with
               | Some e => fail e
               | None =>
                   if decide (ao_Status (rv_Operation reservation) = OperationAccepted)
                   then _ ← call (ESchedule (aq_OperationID (ao_Request (rv_Operation reservation)))); done_with reservation
                   else done_with reservation
               end
           end)
     end).

Definition GetOperation (v : Vertical) (ctx : Context) (operationID : string) : prog (outcome Operation) :=
  vertical_ready v ctx (app_GetOperation (v_application v) ctx operationID).

Definition GetEvidence (v : Vertical) (ctx : Context) (operationID : string) : prog (outcome Evidence) :=
  vertical_ready v ctx (app_GetEvidence (v_application v) ctx operationID).

Definition Recover (v : Vertical) (ctx : Context) : prog (outcome (list Operation)) :=
  vertical_ready v ctx
    ('(operations, err) ← app_Recover (v_application v) ctx;
     Ret (operations, if decide (err = Some [ErrOutcomeUnknown]) then None else err)).

Definition Close (v : Vertical) : prog unit := _ ← call ECloseWorkers; call EWaitWorkers.

(** The goroutine that [schedule] starts. *)
Definition worker (v : Vertical) (operationID : string) : prog unit :=
  _ ← call (EWorkerBegin operationID);
  _ ← Dispatch (v_application v) CtxWorker operationID;
  call (EWorkerDone operationID).
