(* ===== verification/ArtifactConcurrency.v ===== *)
(** * The artifact application under concurrency

    Any number of calls of a vertical and of its workers at once, interleaved call
    by call, any of which may stop for good at any call: the rule their calls
    follow, and the history that relates all that was called to the state. *)

From S2P Require Import Prelude Program Threads LifecycleModel ArtifactModel ArtifactState ArtifactInvariant ArtifactGuarantees ArtifactApplication.
From stdpp Require Import base gmap strings list fin_maps relations.
From Stdlib Require Import ZArith Lia.

Local Open Scope Z_scope.

(** ** The interface *)

Inductive artifact_api :=
  | ApiAccept (ctx : Context) (request : Request)
  | ApiGetOperation (ctx : Context) (id : string)
  | ApiGetEvidence (ctx : Context) (id : string)
  | ApiRecover (ctx : Context)
  | ApiWorker (id : string)
  | ApiClose.

Definition artifact_prog (v : Vertical) (a : artifact_api) : prog () :=
  match a with
  | ApiAccept ctx rq => discard (Accept v ctx rq)
  | ApiGetOperation ctx id => discard (GetOperation v ctx id)
  | ApiGetEvidence ctx id => discard (GetEvidence v ctx id)
  | ApiRecover ctx => discard (Recover v ctx)
  | ApiWorker id => worker v id
  | ApiClose => Close v
  end.

Definition artifact_spawn (p : prog ()) : Prop := ∃ v a, p = artifact_prog v a.

Definition artifact_run (σ : Shared) (ts : list (thread eff)) : Prop :=
  rtc (pool_step (@respond) artifact_spawn) (NewShared, []) (σ, ts).

(** ** What traces say *)

Definition staged_by (ev : event eff) : option string :=
  match ev with Ev (EStage _ rq _) _ => Some (aq_OperationID rq) | _ => None end.

Definition granted (o : Operation) (expected : OperationStatus) (x : result unit) : option string :=
  if decide (expected = OperationAccepted ∧ ao_Status o = OperationRunning ∧ is_ok x = true)
  then Some (aq_OperationID (ao_Request o)) else None.

(** The write that claims an accepted operation for the stager. *)
Definition claimed_by (ev : event eff) : option string :=
  let '@Ev _ X e x := ev in
  match e in eff X return X → option string with
  | EUpdateStage _ o expected => λ x, granted o expected x
  | _ => λ _, None
  end x.

Definition stages (tr : list (event eff)) : list string := omap staged_by tr.
Definition claims (tr : list (event eff)) : list string := omap claimed_by tr.
Definition balanced (tr : list (event eff)) : Prop := stages tr ⊆+ claims tr.

Definition begun_by (ev : event eff) : option string := match ev with Ev (EWorkerBegin id) _ => Some id | _ => None end.
Definition finished_by (ev : event eff) : option string := match ev with Ev (EWorkerDone id) _ => Some id | _ => None end.
Definition begun (tr : list (event eff)) : list string := omap begun_by tr.
Definition finished (tr : list (event eff)) : list string := omap finished_by tr.

(** The worker that a thread is, from its first call to its last. *)
Definition active (tr : list (event eff)) : list string := match finished tr with [] => begun tr | _ => [] end.

(** The stager returned this evidence for this operation. *)
Definition reported (tr : list (event eff)) (o : Operation) (e : Evidence) : Prop :=
  ∃ ctx, Ev (EStage ctx (ao_Request o) (ao_AcceptedAt o)) (Ok e) ∈ tr.

(** The lifecycle reported a sandbox that carries the request at a time read from
    the clock. *)
Definition authorised (tr : list (event eff)) (rq : Request) : Prop :=
  ∃ ctx sandbox now, Ev ENow now ∈ tr ∧ Ev (EGetSandbox ctx (aq_SandboxID rq)) (Ok sandbox) ∈ tr ∧
    check_sandbox sandbox rq now = Ok ().

(** ** The rule *)

Definition rule (tr : list (event eff)) (X : Type) (e : eff X) : Prop :=
  match e with
  | EStage _ rq _ => aq_OperationID rq :: stages tr ⊆+ claims tr
  | EReserveStage _ rq at_ => 0 < at_ ∧ authorised tr rq
  | EUpdateStage _ o _ => ∀ e, ao_Evidence o = Some e → reported tr o e
  | EWorkerBegin _ => tr = []
  | EWorkerDone id => Ev (EWorkerBegin id) () ∈ tr ∧ finished tr = []
  | EWaitWorkers => Ev ECloseWorkers () ∈ tr
  | _ => True
  end.

Definition plausible (X : Type) (e : eff X) : X → Prop :=
  match e in eff X return X → Prop with
  | ENow => λ x, 0 < x
  | _ => λ _, True
  end.

Lemma reported_mono tr tr' o e : tr ⊆ tr' → reported tr o e → reported tr' o e.
Proof. unfold reported. set_solver. Qed.

Lemma authorised_mono tr tr' rq : tr ⊆ tr' → authorised tr rq → authorised tr' rq.
Proof. intros Hs (ctx & sb & now & ? & ? & ?). exists ctx, sb, now. split_and!; auto. Qed.

(** A call other than the stager's keeps the balance. *)
Lemma balanced_cons {X} (e : eff X) x tr : staged_by (Ev e x) = None → balanced tr → balanced (Ev e x :: tr).
Proof.
  intros Hn Hb. unfold balanced.
  change (stages (Ev e x :: tr)) with (match staged_by (Ev e x) with Some id => id :: stages tr | None => stages tr end).
  change (claims (Ev e x :: tr)) with (match claimed_by (Ev e x) with Some id => id :: claims tr | None => claims tr end).
  rewrite Hn. destruct (claimed_by (Ev e x)); [by apply submseteq_cons|done].
Qed.

(** ** The methods follow the rule *)

Abbreviation obeys := (follows rule plausible).

(** Between the first call of a worker and its last. *)
Definition ongoing (tr : list (event eff)) : Prop := balanced tr ∧ finished tr = [].

Definition minor {X} (e : eff X) : bool := match e with EStage _ _ _ | EWorkerDone _ => false | _ => true end.

Lemma ongoing_cons {X} (e : eff X) x tr : minor e = true → ongoing tr → ongoing (Ev e x :: tr).
Proof.
  intros Hm [Hb Hf]. split; [apply balanced_cons; [by destruct e|done]|].
  transitivity (finished tr); [by destruct e|done].
Qed.

(** A program that stays in between. *)
Definition keeps {A} (p : prog A) (tr : list (event eff)) : Prop := obeys p tr (λ _ tr', ongoing tr' ∧ tr ⊆ tr').

Lemma keeps_bind {A B} (p : prog A) (f : A → prog B) tr :
  keeps p tr → (∀ a tr', tr ⊆ tr' → ongoing tr' → keeps (f a) tr') → keeps (p ≫= f) tr.
Proof.
  intros Hp Hf. apply follows_bind. eapply follows_mono; [|exact Hp]. cbn. intros a tr' [Hb Hs].
  eapply follows_mono; [|by apply Hf]. cbn. intros _ tr'' [? ?]. split; [done|set_solver].
Qed.

Lemma keeps_ret {A} (a : A) tr : ongoing tr → keeps (Ret a) tr.
Proof. by split. Qed.

(** One call that the rule allows. *)
Lemma keeps_call {X B} (e : eff X) (k : X → prog B) tr :
  rule tr X e → minor e = true → ongoing tr →
  (∀ x, plausible X e x → ongoing (Ev e x :: tr) → keeps (k x) (Ev e x :: tr)) → keeps (Vis e k) tr.
Proof.
  intros Hr Hn Hb Hk. cbn. split; [done|]. intros x Hx.
  eapply follows_mono; [|apply Hk; [done|by apply ongoing_cons]]. cbn. intros _ tr' [? ?]. split; [done|set_solver].
Qed.

Lemma keeps_context {A} ctx (k : option goerr → prog A) tr :
  ongoing tr → (∀ e tr', tr ⊆ tr' → ongoing tr' → keeps (k e) tr') → keeps (contextError ctx ≫= k) tr.
Proof.
  intros Hb Hk. apply keeps_bind; [|done]. unfold contextError.
  destruct ctx; [by apply keeps_ret|..]; (apply keeps_call; [done..|]; intros; by apply keeps_ret).
Qed.

Lemma keeps_orelse {X A} `{!Zero A} (e : eff (result X)) (k : X → prog (outcome A)) tr :
  rule tr _ e → minor e = true → ongoing tr →
  (∀ x, ongoing (Ev e (Ok x) :: tr) → keeps (k x) (Ev e (Ok x) :: tr)) → keeps (orelse (call e) fail k) tr.
Proof.
  intros Hr Hn Hb Hk. apply keeps_call; [done..|]. intros [x|err] _ Hb'; [by apply Hk|by apply keeps_ret].
Qed.

Lemma keeps_pass {X} `{!Zero X} (e : eff (result X)) tr :
  rule tr _ e → minor e = true → ongoing tr → keeps (pass (call e)) tr.
Proof. intros Hr Hn Hb. apply keeps_orelse; [done..|]. intros x ?. by apply keeps_ret. Qed.

Section application.
Context (a : Application).

Lemma keeps_ready {A} `{!Zero A} ctx (k : prog (outcome A)) tr :
  ongoing tr → (∀ tr', tr ⊆ tr' → ongoing tr' → keeps k tr') → keeps (ready a ctx k) tr.
Proof.
  intros Hb Hk. unfold ready. destruct (complete a); [|by apply keeps_ret].
  apply keeps_context; [done|]. intros [e|] tr' Hs Hb'; [by apply keeps_ret|by apply Hk].
Qed.

Lemma keeps_observedAfter {B} t (k : Time → prog B) tr :
  ongoing tr → (∀ t' tr', tr ⊆ tr' → ongoing tr' → keeps (k t') tr') → keeps (observedAfter t ≫= k) tr.
Proof.
  intros Hb Hk. apply keeps_bind; [|intros; by apply Hk].
  apply keeps_call; [done..|]. intros; by apply keeps_ret.
Qed.

Lemma keeps_write_back ctx o u cause tr :
  ongoing tr → (∀ e, ao_Evidence u = Some e → reported tr u e) → keeps (write_back ctx o u cause) tr.
Proof. intros Hb Hu. apply keeps_call; [done..|]. intros [[]|e] _ ?; by apply keeps_ret. Qed.

(** A change of status carries exactly the evidence it was given. *)
Lemma Transition_changes o next t f ev u :
  Transition o next t f ev = Ok u → ao_Status o ≠ next → u = updated_operation o next t f ev.
Proof. by intros (_ & _ & [(?&_)|(_&_&_&_&->&_)])%artifact_Transition_Ok Hne. Qed.

Lemma keeps_finishAt ctx o status reason ev t cause tr :
  ongoing tr → ao_Status o ≠ status → terminal (ao_Status o) = false → (∀ e, ev = Some e → reported tr o e) →
  keeps (finishAt ctx o status reason ev t cause) tr.
Proof.
  intros Hb Hne Hterm Hev. unfold finishAt. destruct (Transition _ _ _ _ _) as [u|err] eqn:Et.
  - apply Transition_changes in Et as ->; [|done]. by apply keeps_write_back.
  - case_decide; [|by apply keeps_ret]. unfold finishAt_unknown.
    destruct (Transition o OperationOutcomeUnknown _ _ _) as [u|err'] eqn:Et'; [|by apply keeps_ret].
    apply Transition_changes in Et' as ->; [by apply keeps_write_back|]. intros Heq. by rewrite Heq in Hterm.
Qed.

Lemma keeps_finish ctx o status reason cause tr :
  ongoing tr → ao_Status o ≠ status → terminal (ao_Status o) = false → keeps (finish ctx o status reason None cause) tr.
Proof. intros Hb Hne Hterm. apply keeps_observedAfter; [done|]. intros t' tr' _ ?. by apply keeps_finishAt. Qed.

Lemma keeps_reconcileLocked ctx o tr : ongoing tr → keeps (reconcileLocked ctx o) tr.
Proof.
  intros Hb. unfold reconcileLocked. destruct (ao_Status o) eqn:Es; try by apply keeps_ret.
  apply keeps_finish; [done|by rewrite Es..].
Qed.

Lemma keeps_conclude ctx running x tr :
  ongoing tr → ao_Status running = OperationRunning → (∀ e, x = Ok e → reported tr running e) →
  keeps (conclude ctx running x) tr.
Proof.
  intros Hb Hr Hx. apply keeps_observedAfter; [done|]. intros t tr' Hs Hb'.
  assert (Hx' : ∀ e e', x = Ok e → Some e = Some e' → reported tr' running e').
  { intros e e' He [= <-]. eapply reported_mono; [exact Hs|by apply Hx]. }
  destruct x as [e|err].
  - destruct (ev_Status e); apply keeps_finishAt; try done; try (by rewrite Hr); eauto.
  - destruct (errors_is err _); apply keeps_finish; try done; by rewrite Hr.
Qed.

(** The only program that calls the stager claims the operation first. *)
Lemma keeps_dispatch ctx o tr : ongoing tr → ao_Status o = OperationAccepted → keeps (dispatch_accepted ctx o) tr.
Proof.
  intros Hb Ho. apply keeps_call; [done..|]. intros now _ Hb1. cbn beta.
  case_decide. { apply keeps_finish; [done|by rewrite Ho..]. }
  apply keeps_context; [done|]. intros [e|] tr2 _ Hb2. { apply keeps_finish; [done|by rewrite Ho..]. }
  destruct (Transition _ _ _ _ _) as [running|e] eqn:Et; [|by apply keeps_ret].
  apply Transition_changes in Et as ->; [|by rewrite Ho].
  apply keeps_call; [done|done|done|]. intros [[]|e] _ Hb3; [|by apply keeps_ret].
  assert (Hskip : aq_OperationID (ao_Request o) :: stages tr2 ⊆+ aq_OperationID (ao_Request o) :: claims tr2) by (by apply submseteq_skip, Hb2).
  split; [exact Hskip|]. intros x _. set (tr4 := Ev (EStage _ _ _) x :: _). assert (Hb4 : ongoing tr4) by (split; [exact Hskip|apply Hb2]).
  eapply follows_mono; [|apply keeps_conclude; [exact Hb4|done|]].
  - cbn. intros _ tr' [? Hs]. split; [done|]. unfold tr4 in Hs. set_solver.
  - intros e ->. eexists. left.
Qed.

Lemma keeps_Dispatch ctx id tr : ongoing tr → keeps (Dispatch a ctx id) tr.
Proof.
  intros Hb. unfold Dispatch. destruct (complete a); [|by apply keeps_ret].
  destruct ctx; [by apply keeps_ret|..].
  all: apply keeps_call; [done..|]; intros err _ Hb1; cbv zeta;
    apply keeps_orelse; [done..|]; intros o Hb2;
    case_decide as Ho; [by apply keeps_reconcileLocked|]; by apply keeps_dispatch.
Qed.

Lemma keeps_Reconcile ctx id tr : ongoing tr → keeps (Reconcile a ctx id) tr.
Proof.
  intros Hb. apply keeps_ready; [done|]. intros tr1 _ Hb1. apply keeps_orelse; [done..|]. intros o Hb2.
  case_decide; [by apply keeps_Dispatch|by apply keeps_reconcileLocked].
Qed.

Lemma keeps_recover_all ctx os results unknown tr : ongoing tr → keeps (recover_all a ctx os results unknown) tr.
Proof.
  revert results unknown tr. induction os as [|o os IH]; intros results unknown tr Hb; [by apply keeps_ret|]. cbn [recover_all].
  destruct (negb _); [by apply IH|]. apply keeps_bind; [by apply keeps_Reconcile|].
  intros [r [e|]] tr' _ Hb'; cbv zeta; [|by apply IH]. case_decide; [case_decide|case_decide]; try by apply IH.
  all: by apply keeps_ret.
Qed.

Lemma keeps_app_Recover ctx tr : ongoing tr → keeps (app_Recover a ctx) tr.
Proof.
  intros Hb. apply keeps_ready; [done|]. intros tr1 _ Hb1. apply keeps_orelse; [done..|]. intros os Hb2. by apply keeps_recover_all.
Qed.

Lemma keeps_app_GetOperation ctx id tr : ongoing tr → keeps (app_GetOperation a ctx id) tr.
Proof. intros Hb. apply keeps_ready; [done|]. intros tr1 _ Hb1. by apply keeps_pass. Qed.

Lemma keeps_app_GetEvidence ctx id tr : ongoing tr → keeps (app_GetEvidence a ctx id) tr.
Proof.
  intros Hb. apply keeps_ready; [done|]. intros tr1 _ Hb1. apply keeps_call; [done..|]. intros now _ Hb2. by apply keeps_pass.
Qed.

Lemma keeps_app_Accept ctx rq tr : ongoing tr → authorised tr rq → keeps (app_Accept a ctx rq) tr.
Proof.
  intros Hb Ha. apply keeps_ready; [done|]. intros tr1 Hs Hb1. apply keeps_call; [done..|]. intros now Hnow Hb2. cbn beta.
  destruct (Request_Validate rq now) as [[]|]; [|by apply keeps_ret]. apply keeps_pass; [|done..].
  split; [done|]. eapply authorised_mono; [|exact Ha]. set_solver.
Qed.
End application.

Section vertical.
Context (v : Vertical).

Lemma keeps_vertical_ready {A} `{!Zero A} ctx (k : prog (outcome A)) tr :
  ongoing tr → (∀ tr', tr ⊆ tr' → ongoing tr' → keeps k tr') → keeps (vertical_ready v ctx k) tr.
Proof.
  intros Hb Hk. unfold vertical_ready. destruct (_ && _); [|by apply keeps_ret].
  destruct ctx; [by apply keeps_ret|..].
  all: apply keeps_call; [done..|]; intros [e|] _ Hb1; [by apply keeps_ret|];
    apply keeps_call; [done..|]; intros [] _ Hb2; [by apply keeps_ret|apply Hk; [set_solver|done]].
Qed.

(** A sandbox that was synchronized is authorised. *)
Lemma synchronize_authorises ctx rq now tr :
  ongoing tr → Ev ENow now ∈ tr →
  obeys (synchronizeSandbox ctx rq now) tr (λ r tr', ongoing tr' ∧ tr ⊆ tr' ∧ (r.2 = None → authorised tr' rq)).
Proof.
  intros Hb Hnow. unfold synchronizeSandbox, orelse. cbn. split; [done|]. intros [sandbox|e] _; cbn; [|by split_and!; [apply ongoing_cons|set_solver|]].
  destruct (check_sandbox sandbox rq now) as [[]|e] eqn:Ec; cbn; [|by split_and!; [apply ongoing_cons|set_solver|]].
  split; [done|]. intros x _.
  assert (Hau : authorised (Ev (EGetSandbox ctx (aq_SandboxID rq)) (Ok sandbox) :: tr) rq).
  { exists ctx, sandbox, now. split_and!; [by right|left|done]. }
  destruct x as [[]|e]; cbn; (split_and!; [by repeat (apply ongoing_cons; [done|])|set_solver|]); intros Hn; [|done].
  eapply authorised_mono; [|exact Hau]. set_solver.
Qed.

Lemma keeps_Accept ctx rq tr : ongoing tr → keeps (Accept v ctx rq) tr.
Proof.
  intros Hb. apply keeps_vertical_ready; [done|]. intros tr1 _ Hb1. apply keeps_call; [done..|]. intros now Hnow Hb2. cbn beta.
  destruct (Request_Validate rq now) as [[]|e]; [|by apply keeps_ret].
  apply keeps_call; [done..|]. intros [[]|e] _ Hb3; [|by apply keeps_ret]. apply follows_bind.
  eapply follows_mono; [|apply (synchronize_authorises ctx rq now); [done|by right; left]].
  intros [[] err] tr4 (Hb4 & Hs4 & Ha). cbn. destruct err as [e|]; [by split|]. specialize (Ha eq_refl).
  eapply follows_mono; [|apply (keeps_bind _ _ tr4)].
  - cbn. intros _ tr' [? ?]. split; [done|set_solver].
  - by apply keeps_app_Accept.
  - intros [r [e|]] tr5 Hs5 Hb5; [by apply keeps_ret|]. case_decide; [|by apply keeps_ret].
    apply keeps_call; [done..|]. intros. by apply keeps_ret.
Qed.

Lemma keeps_Recover ctx tr : ongoing tr → keeps (Recover v ctx) tr.
Proof.
  intros Hb. apply keeps_vertical_ready; [done|]. intros tr1 _ Hb1. apply keeps_bind; [by apply keeps_app_Recover|].
  intros [os err] tr2 _ Hb2. by apply keeps_ret.
Qed.

Lemma keeps_discard {A} (p : prog A) tr : keeps p tr → keeps (discard p) tr.
Proof. intros Hp. apply keeps_bind; [done|]. intros. by apply keeps_ret. Qed.

Lemma obeys_worker id : obeys (worker v id) [] (λ _ _, True).
Proof.
  cbn. split; [done|]. intros [] _. apply follows_bind.
  eapply follows_mono; [|apply keeps_Dispatch; by split; [apply submseteq_nil_l|]]. cbn. intros _ tr [[_ Hf] Hs].
  split; [|done]. split; [|done]. apply Hs. left.
Qed.

Lemma artifact_obeys api : obeys (artifact_prog v api) [] (λ _ _, True).
Proof.
  assert (H0 : ongoing []) by (split; [apply submseteq_nil_l|done]).
  assert (Hk : ∀ A (p : prog A), keeps p [] → obeys (discard p) [] (λ _ _, True)).
  { intros A p Hp. eapply follows_mono; [|by apply keeps_discard]. done. }
  destruct api; cbn [artifact_prog].
  - by apply Hk, keeps_Accept.
  - apply Hk, keeps_vertical_ready; [done|]. intros. by apply keeps_app_GetOperation.
  - apply Hk, keeps_vertical_ready; [done|]. intros. by apply keeps_app_GetEvidence.
  - by apply Hk, keeps_Recover.
  - apply obeys_worker.
  - cbn. split; [done|]. intros [] _. split; [left|done].
Qed.
End vertical.

(** ** The history of a pool *)

Lemma artifact_respond_wf {X} (e : eff X) tr σ x σ' :
  rule tr X e → artifact_wf (sh_repo σ) → respond e σ x σ' → artifact_wf (sh_repo σ') ∧ plausible X e x.
Proof.
  intros Hr Hs Hx. split.
  - destruct (artifact_respond_repo e σ x σ' Hx) as [-> | (op & Ho & Hn)]; [done|].
    eapply artifact_next_wf; [|done|done]. destruct e; cbn in *; simplify_eq; try done. cbn. lia.
  - destruct e; cbn in *; try done. by destruct Hx.
Qed.

(** Where an operation of the next state comes from. *)
Lemma artifact_next_operation op s s' k o :
  next_state op s = Ok s' → Operations s' !! k = Some o →
  Operations s !! k = Some o ∨
  (∃ rq t, op = OpReserve rq t ∧ k = aq_OperationID rq ∧ o = reserved rq t) ∨
  (∃ expected, op = OpUpdate o expected ∧ k = aq_OperationID (ao_Request o)).
Proof.
  intros H Hk. destruct op; cbn in H; try apply bind_Ok in H as ([v s1] & H & [= <-]).
  - apply PutSandboxAuthority_Ok in H as [->|[-> _]]; by left.
  - apply ReplaceSandboxAuthority_Ok in H as [->|[-> _]]; by left.
  - apply SynchronizeSandboxAuthority_Ok in H as [->|[-> _]]; by left.
  - apply ReserveStageAt_Ok in H as (_ & _ & [(i & o' & _ & _ & _ & _ & ->)|(_ & _ & _ & ->)]); [by left|].
    cbn in Hk. ins_inv Hk; [right; left; eauto|by left].
  - apply UpdateStage_Ok in H as (c & _ & _ & _ & _ & _ & ->). cbn in Hk. ins_inv Hk; [right; right; eauto|by left].
  - injection H as <-. destruct (ReadEvidenceAt operationID now s) as [[x b] s'] eqn:E.
    apply ReadEvidenceAt_cases in E as [(-> & _)|(? & ? & _ & _ & _ & _ & _ & ->)]; by left.
Qed.

(** A claim is granted once. *)
Lemma claimed_fresh {X} (e : eff X) σ x σ' id :
  respond e σ x σ' → claimed_by (Ev e x) = Some id →
  (∃ o, Operations (sh_repo σ) !! id = Some o ∧ ao_Status o = OperationAccepted) ∧
  (∃ o, Operations (sh_repo σ') !! id = Some o ∧ ao_Status o ≠ OperationAccepted).
Proof.
  intros Hx Hc. destruct e; cbn in Hc; try done. unfold granted in Hc. case_decide as Hg; [|done]. injection Hc as <-.
  destruct Hg as (-> & Hrun & Hok). destruct x as [[]|]; [|done]. destruct Hx as [Hx _].
  apply artifact_write_value, UpdateStage_Ok in Hx as (c & Hc & Hs & _ & _ & _ & ->). split; [eauto|].
  exists o. cbn. rewrite lookup_insert_eq, Hrun. done.
Qed.

(** The worker registry after a call. *)
Definition workers_next {X} (e : eff X) (w : Workers) : Workers :=
  match e with
  | ESchedule id => (schedule_worker id w).2
  | EWorkerBegin id => begin_worker id w
  | EWorkerDone id => finish_worker id w
  | ECloseWorkers => close_workers w
  | _ => w
  end.

Lemma respond_workers {X} (e : eff X) σ x σ' : respond e σ x σ' → sh_workers σ' = workers_next e (sh_workers σ).
Proof. destruct e; cbn; try (by intros ->); try (by intros [_ ->]). destruct (schedule_worker _ _). by intros [_ ->]. Qed.

(** A closed registry stays closed and only loses workers. *)
Lemma closed_stays {X} (e : eff X) w :
  wk_closed w = true → wk_closed (workers_next e w) = true ∧ wk_workers (workers_next e w) ⊆ wk_workers w.
Proof. intros Hc. destruct e; cbn; try done; [|set_solver]. unfold schedule_worker. by rewrite Hc. Qed.

Record history (evs : list (event eff)) (σ : Shared) : Prop := mkHistory {
  hi_claims : NoDup (claims evs) ∧
    ∀ id, id ∈ claims evs → ∃ o, Operations (sh_repo σ) !! id = Some o ∧ ao_Status o ≠ OperationAccepted;
  hi_evidence k o e : Operations (sh_repo σ) !! k = Some o → ao_Evidence o = Some e → reported evs o e;
  hi_accepted k o : Operations (sh_repo σ) !! k = Some o → authorised evs (ao_Request o);
  hi_closed : Ev ECloseWorkers () ∈ evs → wk_closed (sh_workers σ) = true;
  hi_awaited : Ev EWaitWorkers () ∈ evs → Ev ECloseWorkers () ∈ evs ∧ wk_workers (sh_workers σ) = ∅;
}.

Lemma history_perm evs evs' σ : evs ≡ₚ evs' → history evs σ → history evs' σ.
Proof.
  intros Hp [[H1 H2] H3 H4 H5 H6]. assert (Hc : claims evs ≡ₚ claims evs') by (by apply omap_Permutation).
  assert (Hs : evs ⊆ evs') by (intros ev; by rewrite Hp). split.
  - setoid_rewrite <- Hc. done.
  - intros k o e ? ?. eapply reported_mono; [exact Hs|eauto].
  - intros k o ?. eapply authorised_mono; [exact Hs|eauto].
  - by rewrite <- Hp.
  - by rewrite <- Hp.
Qed.

Lemma history_init : history [] NewShared.
Proof. split; cbn; [split; [apply NoDup_nil_2|set_solver]|intros *; by rewrite lookup_empty..|set_solver|set_solver]. Qed.

Lemma history_step {X} (e : eff X) tr evs σ x σ' :
  rule tr X e → tr ⊆ evs → artifact_wf (sh_repo σ) → history evs σ → respond e σ x σ' → history (Ev e x :: evs) σ'.
Proof.
  intros Hrule Htr Hwf [[H1 H2] H3 H4 H5 H6] Hx. pose proof (artifact_respond_repo e σ x σ' Hx) as Hrepo.
  assert (Hev : artifact_evolves (sh_repo σ) (sh_repo σ')).
  { destruct Hrepo as [-> | (op & _ & Hn)]; [done|by eapply artifact_next_evolves]. }
  assert (Hmono : evs ⊆ Ev e x :: evs) by set_solver. pose proof (respond_workers e σ x σ' Hx) as Hwk. split.
  - change (claims (Ev e x :: evs)) with (match claimed_by (Ev e x) with Some id => id :: claims evs | None => claims evs end).
    assert (Hold : ∀ id, id ∈ claims evs → ∃ o, Operations (sh_repo σ') !! id = Some o ∧ ao_Status o ≠ OperationAccepted).
    { intros id (o & Ho & Hs)%H2. destruct (ae_operation _ _ Hev id o Ho) as (o' & Ho' & _ & _ & _ & [->|[_ ?]]); eauto. }
    destruct (claimed_by _) as [id|] eqn:Ec; [|done].
    destruct (claimed_fresh e σ x σ' id Hx Ec) as [(o & Ho & Hacc) Hnew]. split.
    + apply NoDup_cons. split; [|done]. intros (o' & Ho' & ?)%H2. congruence.
    + intros id' [->|Hid]%elem_of_cons; auto.
  - intros k o ev Hk He. destruct Hrepo as [Hr|(op & Hop & Hn)].
    { rewrite Hr in Hk. eapply reported_mono; [exact Hmono|by eapply H3]. }
    destruct (artifact_next_operation op _ _ k o Hn Hk) as [Hold|[(rq & t & -> & _ & ->)|(ex & -> & _)]]; [|done|].
    + eapply reported_mono; [exact Hmono|by eapply H3].
    + destruct e; cbn in Hop; simplify_eq. eapply reported_mono; [|by apply Hrule]. set_solver.
  - intros k o Hk. destruct Hrepo as [Hr|(op & Hop & Hn)].
    { rewrite Hr in Hk. eapply authorised_mono; [exact Hmono|by eapply H4]. }
    destruct (artifact_next_operation op _ _ k o Hn Hk) as [Hold|[(rq & t & -> & _ & ->)|(ex & -> & _)]].
    + eapply authorised_mono; [exact Hmono|by eapply H4].
    + destruct e; cbn in Hop; simplify_eq. destruct Hrule as [_ Ha]. eapply authorised_mono; [|exact Ha]. set_solver.
    + cbn in Hn. apply bind_Ok in Hn as ([[] s1] & (c & Hc & _ & Hrq & _)%UpdateStage_Ok & _). rewrite <- Hrq.
      eapply authorised_mono; [exact Hmono|by eapply H4].
  - intros [Heq|Hin]%elem_of_cons.
    + destruct e; simplify_eq. cbn in Hx. by subst σ'.
    + rewrite Hwk. by apply closed_stays, H5.
  - intros [Heq|Hin]%elem_of_cons.
    + destruct e; simplify_eq. cbn in Hx. destruct Hx as [? ->]. split; [right; by apply Htr|done].
    + destruct (H6 Hin) as [Hc Hw]. split; [by right|]. rewrite Hwk.
      pose proof (proj2 (closed_stays e (sh_workers σ) (H5 Hc))) as Hsub. set_solver.
Qed.

Lemma artifact_history σ ts : artifact_run σ ts → history (events ts) σ.
Proof.
  apply (pool_history (@respond) artifact_spawn rule plausible (λ σ, artifact_wf (sh_repo σ)) history).
  - intros. by eapply history_perm.
  - intros. by eapply history_step.
  - intros. by eapply artifact_respond_wf.
  - intros p (v & a & ->). apply artifact_obeys.
  - apply artifact_wf_init.
  - apply history_init.
Qed.

Lemma artifact_lawful σ ts :
  artifact_run σ ts →
  artifact_wf (sh_repo σ) ∧ ∀ th, th ∈ ts → lawful rule (th_trace th) ∧ obeys (th_prog th) (th_trace th) (λ _ _, True).
Proof.
  apply (pool_lawful (@respond) artifact_spawn rule plausible (λ σ, artifact_wf (sh_repo σ)) NewShared σ ts).
  - intros. by eapply artifact_respond_wf.
  - intros p (v & a & ->). apply artifact_obeys.
  - apply artifact_wf_init.
Qed.

Lemma lawful_balanced tr : lawful rule tr → balanced tr.
Proof.
  induction tr as [|[X e x] tr IH]; intros Hl; [apply submseteq_nil_l|]. destruct Hl as [Hr Hl]. specialize (IH Hl).
  destruct (staged_by (Ev e x)) as [id|] eqn:Es; [|by apply balanced_cons]. destruct e; cbn in Es; simplify_eq. exact Hr.
Qed.

Lemma events_balanced σ ts : artifact_run σ ts → balanced (events ts).
Proof.
  intros Hrun. apply events_submseteq. intros th Hth. apply lawful_balanced. by apply (artifact_lawful σ ts Hrun).
Qed.

(** ** Workers *)

Definition actives (ts : list (thread eff)) : list string := ts ≫= (active ∘ th_trace).

Lemma actives_split ts1 th ts2 : actives (ts1 ++ th :: ts2) ≡ₚ active (th_trace th) ++ actives (ts1 ++ ts2).
Proof. unfold actives. rewrite !bind_app. cbn. apply Permutation_app_swap_app. Qed.

(** A thread is one worker at most. *)
Lemma lawful_begun tr : lawful rule tr → begun tr = [] ∨ ∃ id, begun tr = [id].
Proof.
  induction tr as [|[X e x] tr IH]; intros Hl; [by left|]. destruct Hl as [Hr Hl].
  destruct e; try by apply IH. cbn in Hr. subst tr. right. by exists id.
Qed.

Lemma begun_elem tr id : Ev (EWorkerBegin id) () ∈ tr → id ∈ begun tr.
Proof. intros H. apply list_elem_of_omap. eauto. Qed.

Record workers_wf (σ : Shared) (ts : list (thread eff)) : Prop := mkWorkersWf {
  ww_single : NoDup (actives ts);
  ww_active id : id ∈ actives ts → id ∈ wk_workers (sh_workers σ) ∧ (id ∉ wk_pending (sh_workers σ));
  ww_pending : wk_pending (sh_workers σ) ⊆ wk_workers (sh_workers σ);
}.

(** The first and the last call of a worker are the only ones that matter. *)
Lemma active_cons {X} (e : eff X) x tr :
  (∀ id, begun_by (Ev e x) ≠ Some id) → (∀ id, finished_by (Ev e x) ≠ Some id) → active (Ev e x :: tr) = active tr.
Proof. intros Hb Hf. destruct e; try done; exfalso; [by eapply Hb|by eapply Hf]. Qed.

Lemma workers_step {X} (e : eff X) tr k ts1 ts2 σ x σ' :
  lawful rule tr → rule tr X e → respond e σ x σ' →
  workers_wf σ (ts1 ++ mkThread tr (Vis e k) :: ts2) → workers_wf σ' (ts1 ++ mkThread (Ev e x :: tr) (k x) :: ts2).
Proof.
  intros Hl Hr Hx [Hnd Hact Hpend]. rewrite actives_split in Hnd. setoid_rewrite actives_split in Hact. cbn [th_trace] in *.
  pose proof (respond_workers e σ x σ' Hx) as Hw.
  assert (Hsplit : workers_wf σ' (ts1 ++ mkThread (Ev e x :: tr) (k x) :: ts2) ↔
    NoDup (active (Ev e x :: tr) ++ actives (ts1 ++ ts2)) ∧
    (∀ id, id ∈ active (Ev e x :: tr) ++ actives (ts1 ++ ts2) → id ∈ wk_workers (sh_workers σ') ∧ (id ∉ wk_pending (sh_workers σ'))) ∧
    wk_pending (sh_workers σ') ⊆ wk_workers (sh_workers σ')).
  { split.
    - intros [H1 H2 H3]. rewrite actives_split in H1. setoid_rewrite actives_split in H2. done.
    - intros (H1 & H2 & H3). split; [by rewrite actives_split|by setoid_rewrite actives_split|done]. }
  apply Hsplit. clear Hsplit. rewrite Hw.
  destruct e; try (rewrite active_cons by done; by split_and!).
  - rewrite active_cons by done. split; [done|]. cbn. unfold schedule_worker.
    destruct (wk_closed _); [done|]. case_decide as Hin; [done|]. cbn. split; [|set_solver].
    intros id' Hid'. apply Hact in Hid' as [? ?]. split; [set_solver|]. intros [->%elem_of_singleton|?]%elem_of_union; done.
  - cbn in Hr. subst tr. cbn in Hx. destruct Hx as [Hin _]. change (active [Ev (EWorkerBegin id) x]) with [id]. cbn in *.
    split_and!; [| |set_solver].
    + apply NoDup_cons. split; [|done]. intros H%Hact. by destruct H.
    + intros id' [->|Hid']%elem_of_cons; [set_solver|]. apply Hact in Hid'. set_solver.
  - cbn in Hr. destruct Hr as [Hb Hf]. apply begun_elem in Hb.
    assert (Ha : active tr = [id]).
    { unfold active. rewrite Hf. destruct (lawful_begun tr Hl) as [Hn|[id' Hn]]; rewrite Hn in *; [by apply not_elem_of_nil in Hb|].
      by apply list_elem_of_singleton in Hb as ->. }
    change (active (Ev (EWorkerDone id) x :: tr)) with (@nil string). rewrite Ha in *. cbn in *.
    apply NoDup_cons in Hnd as [Hid Hnd]. split_and!; [done| |].
    + intros id' Hid'. destruct (Hact id') as [? ?]; [by right|]. split; [|done]. set_solver.
    + intros id' Hp. pose proof (Hpend id' Hp). destruct (Hact id) as [_ Hnp]; [left|]. set_solver.
Qed.

Lemma artifact_workers σ ts : artifact_run σ ts → workers_wf σ ts.
Proof.
  intros Hrun. enough (Hall : ∀ τ, rtc (pool_step (@respond) artifact_spawn) (NewShared, []) τ → workers_wf τ.1 τ.2) by apply (Hall _ Hrun).
  clear Hrun σ ts. apply rtc_ind_r; [split; cbn; [apply NoDup_nil_2|set_solver|set_solver]|].
  intros τ1 τ2 Hrun Hstep Hw. destruct Hstep as [σ ts p Hp|σ ts1 tr X e k ts2 x σ' Hr]; cbn in *; [by destruct Hw; split|].
  destruct (artifact_lawful _ _ Hrun) as [_ Hts].
  destruct (Hts (mkThread tr (Vis e k))) as [Hl [Hrule _]]; [set_solver|]. by eapply workers_step.
Qed.
