(* ===== verification/ArtifactFile.v ===== *)
(** * The file repository of artifacts: [provider/artifact/repository/file]

    The artifact repository for one controller process, a file store over
    [repository.State]: its directory is created again before every write, the
    context is consulted again under the lock, and reading evidence that has
    expired writes the file.  It answers as the ports of the application allow and
    its file always holds the state in memory. *)

From S2P Require Import Prelude Program FileStore LifecycleModel Threads ArtifactModel ArtifactState ArtifactInvariant ArtifactGuarantees ArtifactApplication.
From stdpp Require Import base gmap strings list fin_maps relations.
From Stdlib Require Import ZArith Lia.

Local Open Scope Z_scope.

(** * The in-memory artifact repository: [provider/artifact/repository/memory]

    Every method consults its context before it takes the lock, and all writes but
    the synchronization of an authority consult it again under the lock; what
    successive [ctx.Err()] and clock calls return is a script of the world.  The
    stager, the support checker and the lifecycle reader are parameters.
    [handle] composes them; its answers are answers the ports allow. *)

Record MemoryRepository := mkMemoryRepository { mem_state : State; mem_closed : bool }.

Definition NewRepository : MemoryRepository := mkMemoryRepository NewState false.

Record World := mkWorld {
  w_mem : MemoryRepository;
  w_workers : Workers;
  w_clock : list positive;
  w_ctx : list (option context_sentinel);
}.

Definition w_set_state (s : State) (w : World) : World :=
  mkWorld (mkMemoryRepository s (mem_closed (w_mem w))) (w_workers w) (w_clock w) (w_ctx w).
Definition w_set_workers (k : Workers) (w : World) : World := mkWorld (w_mem w) k (w_clock w) (w_ctx w).

(** The clock stays at its last reading. *)
Definition clock_Now (w : World) : Time * World :=
  match w_clock w with
  | [] => (1, w)
  | [t] => (Z.pos t, w)
  | t :: ts => (Z.pos t, mkWorld (w_mem w) (w_workers w) ts (w_ctx w))
  end.

(** An exhausted script means no further cancellation. *)
Definition ContextError (ctx : Context) (w : World) : option context_sentinel * World :=
  match ctx, w_ctx w with
  | CtxNil, _ => (Some Canceled, w)
  | _, [] => (None, w)
  | _, c :: cs => (c, mkWorld (w_mem w) (w_workers w) (w_clock w) cs)
  end.

Definition guard_ctx {X} (ctx : Context) (k : World → result X * World) (w : World) : result X * World :=
  let '(err, w) := ContextError ctx w in
  match err with Some e => (Err [e : sentinel], w) | None => k w end.

Definition guard_closed {X} (k : World → result X * World) (w : World) : result X * World :=
  if mem_closed (w_mem w) then (Err [ErrClosed], w) else k w.

Definition checkOpen {X} (ctx : Context) (k : World → result X * World) : World → result X * World :=
  guard_closed (guard_ctx ctx k).

(** What the call does to the state. *)
Definition apply_write {X} (f : State → result (X * State)) (w : World) : result X * World :=
  match f (mem_state (w_mem w)) with Ok (x, s) => (Ok x, w_set_state s w) | Err e => (Err e, w) end.

Definition memory_write {X} (ctx : Context) (f : State → result (X * State)) : World → result X * World :=
  guard_ctx ctx (checkOpen ctx (apply_write f)).

Definition memory_read {X} (ctx : Context) (f : State → result X) : World → result X * World :=
  guard_ctx ctx (guard_closed (λ w, (f (mem_state (w_mem w)), w))).

Definition memory_ReserveStage ctx request acceptedAt := memory_write ctx (ReserveStageAt request acceptedAt).
Definition memory_GetStage ctx operationID := memory_read ctx (GetStage operationID).
Definition memory_ListStages ctx := memory_read ctx ListStages.
Definition memory_UpdateStage ctx operation expected := memory_write ctx (UpdateStage operation expected).
Definition memory_GetEvidence (ctx : Context) (operationID : string) (now : Time) : World → result Evidence * World :=
  guard_ctx ctx (checkOpen ctx (λ w,
    let '(evidence, _, s) := ReadEvidenceAt operationID now (mem_state (w_mem w)) in (evidence, w_set_state s w))).
Definition memory_PutSandboxAuthority ctx authority := memory_write ctx (PutSandboxAuthority authority).
Definition memory_ReplaceSandboxAuthority ctx authority expectedGeneration fencingToken :=
  memory_write ctx (ReplaceSandboxAuthority authority expectedGeneration fencingToken).
Definition memory_GetSandboxAuthority ctx sandboxID := memory_read ctx (GetSandboxAuthority sandboxID).
Definition memory_SynchronizeSandboxAuthority (ctx : Context) (authority : SandboxAuthority) : World → result unit * World :=
  guard_ctx ctx (guard_closed (apply_write (SynchronizeSandboxAuthority authority))).
Definition memory_Close (w : World) : World :=
  mkWorld (mkMemoryRepository (mem_state (w_mem w)) true) (w_workers w) (w_clock w) (w_ctx w).

(** ** The composed ports *)

Record Runtime := mkRuntime {
  rt_Stage : Request → Time → result Evidence;
  rt_CheckSupport : Request → result unit;
  rt_Sandbox : string → result Sandbox;
}.

Section ports.
Context (rt : Runtime).

Definition handle {X} (e : eff X) : World → X * World :=
  match e in eff X return World → X * World with
  | ENow => clock_Now
  | ECtxErr ctx => λ w, let '(e, w) := ContextError ctx w in ((λ c, [SContext c]) <$> e, w)
  | EReserveStage ctx rq at_ => memory_ReserveStage ctx rq at_
  | EGetStage ctx id => memory_GetStage ctx id
  | EListStages ctx => memory_ListStages ctx
  | EUpdateStage ctx o expected => memory_UpdateStage ctx o expected
  | EGetEvidence ctx id now => memory_GetEvidence ctx id now
  | ESynchronize ctx a => memory_SynchronizeSandboxAuthority ctx a
  | EStage _ rq at_ => λ w, (rt_Stage rt rq at_, w)
  | ECheckSupport _ rq => λ w, (rt_CheckSupport rt rq, w)
  | EGetSandbox _ id => λ w, (rt_Sandbox rt id, w)
  | EClosed => λ w, (wk_closed (w_workers w), w)
  | ESchedule id => λ w, let '(b, k) := schedule_worker id (w_workers w) in (b, w_set_workers k w)
  | EWorkerBegin id => λ w, ((), w_set_workers (begin_worker id (w_workers w)) w)
  | EWorkerDone id => λ w, ((), w_set_workers (finish_worker id (w_workers w)) w)
  | ECloseWorkers => λ w, ((), w_set_workers (close_workers (w_workers w)) w)
  | EWaitWorkers => λ w, ((), w)
  end.

(** A goroutine runs once it was started; [Wait] returns when no worker is left. *)
Definition enabled {X} (e : eff X) (w : World) : bool :=
  match e with
  | EWorkerBegin id => bool_decide (id ∈ wk_pending (w_workers w))
  | EWaitWorkers => bool_decide (wk_workers (w_workers w) = ∅)
  | _ => true
  end.

Definition abs (w : World) : Shared := mkShared (mem_state (w_mem w)) (w_workers w).

(** ** The adapter implements the ports *)

(** An answer that changes nothing. *)
Definition refused {X} (w : World) (x : result X) (w' : World) : Prop :=
  abs w' = abs w ∧ ∃ e, transport_error e ∧ x = Err e.

(** A guarded call is refused, or it is the call itself in the same state. *)
Definition guards {X} (g k : World → result X * World) : Prop :=
  ∀ w, refused w (g w).1 (g w).2 ∨ ∃ w', g w = k w' ∧ abs w' = abs w.

Lemma guards_refl {X} (k : World → result X * World) : guards k k.
Proof. intros w. right. by exists w. Qed.

Lemma guards_ctx {X} ctx (g k : World → result X * World) : guards g k → guards (guard_ctx ctx g) k.
Proof.
  intros Hg w. unfold guard_ctx. assert (Ha : abs (ContextError ctx w).2 = abs w) by (destruct ctx, w as [m k' c [|x xs]]; done).
  destruct (ContextError ctx w) as [[c|] w'] eqn:E; cbn in Ha.
  - left. split; [done|]. eexists. split; [|done]. unfold transport_error. destruct c; auto.
  - destruct (Hg w') as [[? ?]|(w'' & ? & ?)]; [left; split; [congruence|done]|right; exists w''; split; congruence].
Qed.

Lemma guards_closed {X} (g k : World → result X * World) : guards g k → guards (guard_closed g) k.
Proof.
  intros Hg w. unfold guard_closed. destruct (mem_closed _); [left|by apply Hg]. split; [done|].
  eexists. split; [|done]. by right; right; left.
Qed.
#[local] Hint Resolve guards_refl guards_ctx guards_closed : go.

Lemma artifact_refused_repo {X} w (x : result X) w' (P : result X → State → State → Prop) :
  (∀ s e, transport_error e → P (Err e) s s) → refused w x w' → on_repo (P x) (abs w) (abs w').
Proof. intros HP [-> (e & He & ->)]. split; [by apply HP|done]. Qed.

Lemma artifact_write_answers {X} (g : World → result X * World) (f : State → result (X * State)) w :
  guards g (apply_write f) → on_repo (λ s s', answers_write (f s) s (g w).1 s') (abs w) (abs (g w).2).
Proof.
  intros Hg. destruct (Hg w) as [Hr|(w' & -> & <-)].
  - apply (artifact_refused_repo _ _ _ (λ x s s', answers_write (f s) s x s')); [|done]. intros s e He. right. eauto.
  - unfold apply_write, on_repo. cbn. destruct (f (mem_state (w_mem w'))) as [[v s]|e]; cbn; (split; [|done]); left; auto.
Qed.

Lemma artifact_read_answers {X} ctx (f : State → result X) w :
  on_repo (λ s s', answers_read (f s) s (memory_read ctx f w).1 s') (abs w) (abs (memory_read ctx f w).2).
Proof.
  assert (Hg : guards (memory_read ctx f) (λ w, (f (mem_state (w_mem w)), w))) by (unfold memory_read; auto with go).
  destruct (Hg w) as [Hr|(w' & -> & <-)].
  - apply (artifact_refused_repo _ _ _ (λ x s s', answers_read (f s) s x s')); [|done]. intros s e He. split; eauto.
  - split; [|done]. split; [done|by left].
Qed.

Lemma artifact_evidence_answers ctx id now w :
  on_repo (λ s s', answers_evidence (ReadEvidenceAt id now s) s (memory_GetEvidence ctx id now w).1 s') (abs w)
    (abs (memory_GetEvidence ctx id now w).2).
Proof.
  set (k := λ w : World, let '(evidence, _, s) := ReadEvidenceAt id now (mem_state (w_mem w)) in (evidence, w_set_state s w)).
  assert (Hg : guards (memory_GetEvidence ctx id now) k) by (unfold memory_GetEvidence, checkOpen; auto with go).
  destruct (Hg w) as [Hr|(w' & -> & <-)].
  - apply (artifact_refused_repo _ _ _ (λ x s s', answers_evidence (ReadEvidenceAt id now s) s x s')); [|done]. intros s e He. right. eauto.
  - unfold k, on_repo. cbn. destruct (ReadEvidenceAt id now (mem_state (w_mem w'))) as [[x b] s]. cbn. split; [|done]. left. auto.
Qed.

Lemma artifact_handle_responds {X} (e : eff X) w :
  enabled e w = true → respond e (abs w) (handle e w).1 (abs (handle e w).2).
Proof.
  intros He. destruct e; cbn [respond handle]; try done; try apply artifact_read_answers.
  - unfold clock_Now. by destruct w as [m k [|t [|t' ts]] c].
  - assert (Ha : abs (ContextError ctx w).2 = abs w) by (destruct ctx, w as [m k' c [|y ys]]; done). by destruct (ContextError ctx w).
  - apply artifact_write_answers. unfold memory_ReserveStage, memory_write, checkOpen. auto with go.
  - apply artifact_write_answers. unfold memory_UpdateStage, memory_write, checkOpen. auto with go.
  - apply artifact_evidence_answers.
  - apply artifact_write_answers. unfold memory_SynchronizeSandboxAuthority. auto with go.
  - cbn. by destruct (schedule_worker id (w_workers w)).
  - cbn in He. by apply bool_decide_eq_true in He.
  - cbn in He. by apply bool_decide_eq_true in He.
Qed.
End ports.

Definition maxFileSize : Z := Z.shiftl 32 20.

Definition artifact_layout : FileLayout State PersistedState :=
  mkFileLayout NewState Export Import ErrCorrupt ErrDurability ErrClosed maxFileSize "artifact staging repository" true true.

Section file.
Context {bytes : Type} (encode : PersistedState → option bytes) (size : bytes → Z) (decode : bytes → option PersistedState).

Abbreviation FileRepository := (FileStore State bytes).

Definition load : OpenFaults → option bytes → result State := store_load artifact_layout size decode.
Definition file_NewRepository : string → OpenFaults → option bytes → result FileRepository := store_open artifact_layout size decode.
Definition persist : OSFaults → FileRepository → bool * option goerr * FileRepository := store_persist artifact_layout encode size.
Definition mutate {X} : OSFaults → (State → result (X * State)) → FileRepository → result X * FileRepository :=
  store_mutate artifact_layout encode size.

(** ** The repository interface *)

Definition file_read {X} : option context_sentinel → (State → result X) → FileRepository → result X * FileRepository :=
  store_read artifact_layout.

Definition file_ReserveStage os request acceptedAt := mutate os (ReserveStageAt request acceptedAt).
Definition file_GetStage os operationID := file_read (os_ctx_before_lock os) (GetStage operationID).
Definition file_ListStages os := file_read (os_ctx_before_lock os) ListStages.
Definition file_UpdateStage os operation expected := mutate os (UpdateStage operation expected).
Definition file_GetEvidence os operationID now := store_touch artifact_layout encode size os (ReadEvidenceAt operationID now).
Definition file_PutSandboxAuthority os authority := mutate os (PutSandboxAuthority authority).
Definition file_ReplaceSandboxAuthority os authority expectedGeneration fencingToken :=
  mutate os (ReplaceSandboxAuthority authority expectedGeneration fencingToken).
Definition file_GetSandboxAuthority os sandboxID := file_read (os_ctx_before_lock os) (GetSandboxAuthority sandboxID).
Definition file_SynchronizeSandboxAuthority os authority := mutate os (SynchronizeSandboxAuthority authority).
Definition file_Close : FileRepository → FileRepository := store_close.

(** A call that may write. *)
Definition file_perform (op : artifact_op) (os : OSFaults) (r : FileRepository) : FileRepository :=
  match op with
  | OpPutAuthority a => (file_PutSandboxAuthority os a r).2
  | OpReplaceAuthority a g f => (file_ReplaceSandboxAuthority os a g f r).2
  | OpSynchronizeAuthority a => (file_SynchronizeSandboxAuthority os a r).2
  | OpReserve rq at_ => (file_ReserveStage os rq at_ r).2
  | OpUpdate o expected => (file_UpdateStage os o expected r).2
  | OpReadEvidence id now => (file_GetEvidence os id now r).2
  end.

(** A call of the repository through the ports; other calls do not reach it. *)
Definition file_handle {X} (os : OSFaults) (e : eff X) : option (FileRepository → X * FileRepository) :=
  match e in eff X return option (FileRepository → X * FileRepository) with
  | EReserveStage _ rq at_ => Some (file_ReserveStage os rq at_)
  | EGetStage _ id => Some (file_GetStage os id)
  | EListStages _ => Some (file_ListStages os)
  | EUpdateStage _ o expected => Some (file_UpdateStage os o expected)
  | EGetEvidence _ id now => Some (file_GetEvidence os id now)
  | ESynchronize _ a => Some (file_SynchronizeSandboxAuthority os a)
  | _ => None
  end.

(** ** Proofs *)

Context (faithful : PersistedState → Prop).
Context (json_roundtrip : ∀ p b, faithful p → encode p = Some b → decode b = Some p).

#[local] Instance artifact_lawful_layout : LawfulLayout artifact_layout encode decode artifact_wf faithful.
Proof using json_roundtrip. split; [apply artifact_wf_init|intros; by apply artifact_Import_Export|done]. Qed.

Abbreviation artifact_durable := (durable artifact_layout size decode artifact_wf).

(** An operation under a clock that was set, whose effect JSON can represent. *)
Definition representable (op : artifact_op) (r : FileRepository) : Prop :=
  timed op ∧ ∀ t, next_state op (fs_state r) = Ok t → faithful (Export t).

Lemma artifact_admissible {X} op (f : State → result (X * State)) (r : FileRepository) :
  artifact_wf (fs_state r) → representable op r →
  (∀ v t, f (fs_state r) = Ok (v, t) → next_state op (fs_state r) = Ok t) →
  admissible artifact_layout artifact_wf faithful f (fs_state r).
Proof using Type. intros Hs [Ht Hr] Hf v t E. apply Hf in E. split; [by eapply artifact_next_wf|by apply Hr]. Qed.

(** What a mutation of the file store answers. *)
Lemma artifact_mutate {X} op os (f : State → result (X * State)) r :
  artifact_durable r → representable op r →
  (∀ v t, f (fs_state r) = Ok (v, t) → next_state op (fs_state r) = Ok t) →
  artifact_durable (mutate os f r).2 ∧ answers_write (f (fs_state r)) (fs_state r) (mutate os f r).1 (fs_state (mutate os f r).2).
Proof using json_roundtrip.
  intros Hok Hr Hf. apply (store_mutate_spec artifact_layout encode size decode artifact_wf faithful os f r Hok).
  destruct Hok. by eapply artifact_admissible.
Qed.

Lemma artifact_read_evidence id now os r :
  artifact_durable r → representable (OpReadEvidence id now) r →
  artifact_durable (file_GetEvidence os id now r).2 ∧
  answers_evidence (ReadEvidenceAt id now (fs_state r)) (fs_state r) (file_GetEvidence os id now r).1 (fs_state (file_GetEvidence os id now r).2).
Proof using json_roundtrip.
  intros Hok [_ Hr]. apply (store_touch_spec artifact_layout encode size decode artifact_wf faithful os (ReadEvidenceAt id now) r Hok).
  - destruct Hok. by apply (artifact_next_wf (OpReadEvidence id now) (fs_state r)).
  - by apply Hr.
  - destruct (ReadEvidenceAt id now (fs_state r)) as [[x b] t] eqn:E. cbn. intros ->.
    by apply ReadEvidenceAt_cases in E as [[-> _]|(?&?&_&_&_&?&_)].
Qed.

Lemma artifact_file_perform op os r :
  artifact_durable r → representable op r →
  artifact_durable (file_perform op os r) ∧
  (fs_state (file_perform op os r) = fs_state r ∨ next_state op (fs_state r) = Ok (fs_state (file_perform op os r))).
Proof using json_roundtrip.
  intros Hok Hr. assert (Hgo : ∀ X (f : State → result (X * State)),
    (∀ v t, f (fs_state r) = Ok (v, t) → next_state op (fs_state r) = Ok t) →
    artifact_durable (mutate os f r).2 ∧
    (fs_state (mutate os f r).2 = fs_state r ∨ next_state op (fs_state r) = Ok (fs_state (mutate os f r).2))).
  { intros X f Hf. destruct (artifact_mutate op os f r Hok Hr Hf) as [Hok' Ha]. split; [done|].
    apply artifact_write_state in Ha as [->|(v & Hv)]; [by left|right; eauto]. }
  destruct op; cbn [file_perform]; try (apply Hgo; intros v t E; cbn; by rewrite E).
  destruct (artifact_read_evidence operationID now os r Hok Hr) as [Hok' [[_ Hs]|[Hs _]]]; (split; [done|]); rewrite Hs; auto.
Qed.

Lemma artifact_file_handle {X} os (e : eff X) h r :
  file_handle os e = Some h → artifact_durable r → (∀ op, op_of e = Some op → representable op r) →
  ∀ w, respond e (mkShared (fs_state r) w) (h r).1 (mkShared (fs_state (h r).2) w).
Proof using json_roundtrip.
  intros Hh Hok Hr w.
  assert (Hread : ∀ Y (f : State → result Y), answers_read (f (fs_state r)) (fs_state r) (file_read (os_ctx_before_lock os) f r).1
    (fs_state (file_read (os_ctx_before_lock os) f r).2)).
  { intros Y f. destruct (store_read_spec artifact_layout (os_ctx_before_lock os) f r) as [E H]. unfold file_read, answers_read. rewrite E. by split. }
  destruct e; cbn in Hh; simplify_eq; cbn [respond]; (split; [cbn [sh_repo]|done]); try apply Hread.
  - eapply artifact_mutate; [done|by apply Hr|]. intros v t E; cbn; by rewrite E.
  - eapply artifact_mutate; [done|by apply Hr|]. intros v t E; cbn; by rewrite E.
  - apply artifact_read_evidence; [done|by apply Hr].
  - eapply artifact_mutate; [done|by apply Hr|]. intros v t E; cbn; by rewrite E.
Qed.

(** Runs of the adapter: calls under any faults, and [Close]. *)
Definition empty_repository : FileRepository := empty_store artifact_layout.

Definition file_step (r r' : FileRepository) : Prop :=
  r' = file_Close r ∨ ∃ op os, representable op r ∧ r' = file_perform op os r.

Lemma artifact_file_run r :
  rtc file_step empty_repository r → artifact_durable r ∧ ∃ ops, Forall timed ops ∧ fs_state r = perform_all ops NewState.
Proof using json_roundtrip.
  revert r. apply rtc_ind_r; [split; [split; [apply artifact_wf_init|done]|by exists []]|].
  intros r r' _ [-> | (op & os & Hr & ->)] [Hok (ops & Hts & Hops)]; [eauto|].
  destruct (artifact_file_perform op os r Hok Hr) as [Hok' Hst]. split; [done|].
  destruct Hst as [-> | Hn]; [eauto|]. exists (ops ++ [op]). rewrite artifact_perform_app. cbn. unfold perform.
  rewrite <- Hops, Hn. split; [|done]. apply Forall_app. split; [done|]. destruct Hr. by repeat constructor.
Qed.

(** whatever calls of the artifact repository are made and whatever system calls
    fail or contexts are cancelled on the way, the file repository is in a state
    that operations of the abstract repository reach, opening its file again gives
    exactly that state, and every further call is answered as the ports of the
    artifact application allow, so that the application's guarantees hold over it. *)
Theorem artifact_file_repository_durable path r :
  blank path = false → rtc file_step empty_repository r →
  (∃ ops, Forall timed ops ∧ fs_state r = perform_all ops NewState) ∧
  file_NewRepository path of_ok (fs_disk r) = Ok (mkFileStore (fs_state r) false (fs_disk r)) ∧
  ∀ X (e : eff X) os h, file_handle os e = Some h → (∀ op, op_of e = Some op → representable op r) →
    ∀ w, respond e (mkShared (fs_state r) w) (h r).1 (mkShared (fs_state (h r).2) w).
Proof using json_roundtrip.
  intros Hp Hrun. destruct (artifact_file_run r Hrun) as [Hok Hreach]. split_and!; [done| |].
  - by eapply store_reopens.
  - intros X e os h Hh Ha. by eapply artifact_file_handle.
Qed.
End file.

(** A file that holds the snapshot itself: an operation is accepted, a claim whose
    rename fails, the claim again with a failing directory sync, its success. *)
Module ArtifactFileRuns.
Definition on_disk (op : artifact_op) (os : OSFaults) : FileStore State PersistedState → FileStore State PersistedState :=
  file_perform Some (λ _, 1) op os.
Definition r0 : FileStore State PersistedState := empty_repository.
Definition r1 := on_disk (OpReserve ArtifactSample.request 10) os_ok (on_disk (OpPutAuthority ArtifactSample.authority) os_ok r0).
Definition r2 := on_disk (OpUpdate ArtifactSample.running OperationAccepted) os_rename_fails r1.
Definition r3 := on_disk (OpUpdate ArtifactSample.running OperationAccepted) os_syncDir_fails r2.
Definition r4 := on_disk (OpReadEvidence "op" (20 * Second)) os_ok (on_disk (OpUpdate ArtifactSample.succeeded OperationRunning) os_ok r3).

Lemma disk_step op os r : timed op → file_step Some (λ _, 1) (λ _, True) r (on_disk op os r).
Proof. intros Ht. right. exists op, os. split; [by split|done]. Qed.

Lemma artifact_file_steps : rtc (file_step Some (λ _, 1) (λ _, True)) r0 r4.
Proof. unfold r4, r3, r2, r1. repeat (eapply rtc_r; [|by apply disk_step]). constructor. Qed.
End ArtifactFileRuns.

Lemma artifact_file_repository_durable_witness :
  fs_state ArtifactFileRuns.r2 = fs_state ArtifactFileRuns.r1 ∧
  Operations (fs_state ArtifactFileRuns.r4) !! "op" = Some ArtifactSample.succeeded ∧
  file_NewRepository (λ _, 1) Some "/var/lib/artifacts.json" of_ok (fs_disk ArtifactFileRuns.r4)
    = Ok (mkFileStore (fs_state ArtifactFileRuns.r4) false (fs_disk ArtifactFileRuns.r4)).
Proof.
  split; [vm_compute; reflexivity|]. split; [vm_compute; reflexivity|].
  refine (proj1 (proj2 (artifact_file_repository_durable Some (λ _, 1) Some (λ _, True) _ "/var/lib/artifacts.json" _
    _ ArtifactFileRuns.artifact_file_steps))).
  - intros p b _ [= ->]. reflexivity.
  - vm_compute; reflexivity.
Defined.
