(* ===== verification/ArtifactPoolGuarantees.v ===== *)
(** * Guarantees of the artifact application

    What holds of every interleaving of any number of calls of a vertical and of
    its workers, whoever crashes where, and what a healthy dispatch achieves. *)

From S2P Require Import Prelude Program Threads LifecycleModel ArtifactModel ArtifactState ArtifactInvariant ArtifactGuarantees ArtifactApplication ArtifactConcurrency ArtifactFile.
From stdpp Require Import base gmap strings list fin_maps relations.
From Stdlib Require Import ZArith Lia.

Local Open Scope Z_scope.

(** ** A sample pool *)

Module ArtifactRuns.
Definition sandbox : Sandbox :=
  mkSandbox "box" "tenant" "order" "workspace" "rev" "sandbox-runtime-coding-v1" (mkNetworkPolicy NetworkNone "" false) "slot/main"
    DesiredReady ObservedReady 1 1 (1000 * Second) 1 1.

Definition runtime : Runtime :=
  mkRuntime (λ _ _, Ok ArtifactSample.evidence) (λ _, Ok ()) (λ _, Ok sandbox).

Definition vertical : Vertical := mkVertical (mkApplication true true true) true true true true true.
Definition world : World := mkWorld NewRepository NewWorkers [10%positive] [].

(** A request twice, its worker, recovery, the end. *)
Definition calls : list (prog ()) :=
  artifact_prog vertical <$> [ApiAccept CtxCaller ArtifactSample.request; ApiAccept CtxCaller ArtifactSample.request;
    ApiWorker "op"; ApiRecover CtxCaller; ApiGetEvidence CtxCaller "op"; ApiClose].

Definition final : list (thread eff) * World := pool_enabled (@handle runtime) (@enabled) calls world [].

Lemma artifact_final_run : artifact_run (abs final.2) final.1.
Proof.
  apply (pool_sequence_enabled (@handle runtime) (@enabled) (@respond) artifact_spawn abs
           (λ X e w, artifact_handle_responds runtime e w) calls world []).
  repeat (apply Forall_cons; split; [eexists _, _; reflexivity|]). apply Forall_nil_2.
Qed.
End ArtifactRuns.

(** ** Dispatch *)

(** C6 (safety): the stager is called at most once per operation, and only for an operation that
    was claimed durably before: over every interleaving of any number of accepts,
    workers and recoveries, with repository writes that fail, commit without an
    answer or are cut off by a crash, no operation is ever staged twice, and
    whatever was staged is on record as no longer accepted. *)
Theorem staged_at_most_once σ ts :
  artifact_run σ ts →
  NoDup (stages (events ts)) ∧
  ∀ id, id ∈ stages (events ts) → ∃ o, Operations (sh_repo σ) !! id = Some o ∧ ao_Status o ≠ OperationAccepted.
Proof.
  intros Hrun. destruct (artifact_history σ ts Hrun) as [[Hnd Hrec] _ _ _ _].
  pose proof (events_balanced σ ts Hrun) as Hb. split.
  - apply submseteq_Permutation in Hb as [k' Hk]. rewrite Hk in Hnd. by apply NoDup_app in Hnd as [? _].
  - intros id Hid. apply Hrec. by eapply elem_of_submseteq.
Qed.

Lemma staged_at_most_once_witness :
  stages (events ArtifactRuns.final.1) = ["op"] ∧ NoDup (stages (events ArtifactRuns.final.1)).
Proof.
  split; [vm_compute; reflexivity|]. exact (proj1 (staged_at_most_once _ _ ArtifactRuns.artifact_final_run)).
Defined.

(** ** Evidence *)

(** Evidence on record was returned by the stager for exactly that operation, its
    request and its time of acceptance, whatever interleaves; and when the operation
    succeeded it is evidence of the requested digest, media type and size, all of
    whose checks passed, that expires no later than the deadline of the request. *)
Theorem staged_evidence_is_reported σ ts k o e :
  artifact_run σ ts → Operations (sh_repo σ) !! k = Some o → ao_Evidence o = Some e →
  reported (events ts) o e ∧ (ao_Status o = OperationSucceeded → staged_for (ao_Request o) e) ∧
  (ao_Status o ≠ OperationSucceeded → ao_Failure o = FailureContentRejected ∧ ev_Status e = StatusRejected).
Proof.
  intros Hrun Hk He. destruct (artifact_history σ ts Hrun) as [_ Hev _ _ _].
  destruct (artifact_lawful σ ts Hrun) as [Hwf _]. destruct (aw_operation _ Hwf k o Hk) as (_ & Hv & _).
  split_and!; [by eapply Hev| |].
  - intros Hs. destruct (succeeded_evidence o Hv Hs) as (e' & He' & ?). congruence.
  - intros Hs. apply Operation_Validate_spec in Hv as (_&_&_&Hst&_&_&Hf&_). rewrite He in Hf.
    destruct (ao_Status o); cbn in Hst, Hf; rewrite ?bool_decide_eq_true in Hf; try done.
    case_decide; [|done]. apply bool_decide_eq_true in Hf. split; [done|]. by injection Hf.
Qed.

Lemma staged_evidence_is_reported_witness :
  reported (events ArtifactRuns.final.1) (default zero (Operations (sh_repo (abs ArtifactRuns.final.2)) !! "op")) ArtifactSample.evidence.
Proof.
  refine (proj1 (staged_evidence_is_reported _ _ "op" _ _ ArtifactRuns.artifact_final_run _ _)); vm_compute; reflexivity.
Defined.

(** ** Acceptance *)

(** every operation on record was accepted only after the lifecycle reported its
    sandbox: valid, of the requesting tenant, desired and observed ready at the
    expected generation, with a lease that had not expired at a time the clock
    gave. *)
Theorem accepted_for_ready_sandboxes σ ts k o :
  artifact_run σ ts → Operations (sh_repo σ) !! k = Some o →
  ∃ ctx sandbox now, Ev (EGetSandbox ctx (aq_SandboxID (ao_Request o))) (Ok sandbox) ∈ events ts ∧ Ev ENow now ∈ events ts ∧
    Sandbox_Validate sandbox = Ok () ∧ sb_ID sandbox = aq_SandboxID (ao_Request o) ∧ sb_TenantID sandbox = aq_TenantID (ao_Request o) ∧
    sb_DesiredState sandbox = DesiredReady ∧ sb_ObservedState sandbox = ObservedReady ∧
    sb_ObservedGeneration sandbox = sb_Generation sandbox ∧ i64 (sb_Generation sandbox) = aq_ExpectedGeneration (ao_Request o) ∧
    now < sb_LeaseExpiresAt sandbox.
Proof.
  intros Hrun Hk. destruct (artifact_history σ ts Hrun) as [_ _ Hacc _ _].
  destruct (Hacc k o Hk) as (ctx & sandbox & now & Hnow & Hget & Hc). exists ctx, sandbox, now.
  unfold check_sandbox, After in Hc. crack Hc. destruct x. split_and!; done || lia.
Qed.

Lemma accepted_for_ready_sandboxes_witness :
  ∃ ctx sandbox now, Ev (EGetSandbox ctx "box") (Ok sandbox) ∈ events ArtifactRuns.final.1 ∧ Ev ENow now ∈ events ArtifactRuns.final.1 ∧
    Sandbox_Validate sandbox = Ok () ∧ sb_ID sandbox = "box" ∧ sb_TenantID sandbox = "tenant" ∧
    sb_DesiredState sandbox = DesiredReady ∧ sb_ObservedState sandbox = ObservedReady ∧
    sb_ObservedGeneration sandbox = sb_Generation sandbox ∧ i64 (sb_Generation sandbox) = 1 ∧ now < sb_LeaseExpiresAt sandbox.
Proof.
  refine (accepted_for_ready_sandboxes _ _ "op" (default zero (Operations (sh_repo (abs ArtifactRuns.final.2)) !! "op")) ArtifactRuns.artifact_final_run _).
  vm_compute. reflexivity.
Defined.

(** ** Workers *)

(** at any time an operation has at most one worker, every worker is in the registry
    that [Close] waits for, and once a [Close] has returned no worker is between
    its first and its last call, nor will one be. *)
Theorem workers_are_single_and_awaited σ ts :
  artifact_run σ ts →
  NoDup (actives ts) ∧ (∀ id, id ∈ actives ts → id ∈ wk_workers (sh_workers σ)) ∧
  (Ev EWaitWorkers () ∈ events ts → actives ts = [] ∧ wk_closed (sh_workers σ) = true).
Proof.
  intros Hrun. destruct (artifact_workers σ ts Hrun) as [Hnd Hact _].
  destruct (artifact_history σ ts Hrun) as [_ _ _ Hclosed Hawait]. split_and!; [done|by intros id []%Hact|].
  intros (Hc & Hw)%Hawait. split; [|by apply Hclosed]. destruct (actives ts) as [|id l]; [done|].
  destruct (Hact id) as [Hid _]; [left|]. set_solver.
Qed.

Lemma workers_are_single_and_awaited_witness :
  actives ArtifactRuns.final.1 = [] ∧ wk_closed (sh_workers (abs ArtifactRuns.final.2)) = true.
Proof.
  refine (proj2 (proj2 (workers_are_single_and_awaited _ _ ArtifactRuns.artifact_final_run)) _).
  apply in_events. exists (default (mkThread [] (Ret ())) (head ArtifactRuns.final.1)). split; [left|left].
Defined.

(** ** A healthy process

    An open repository, a clock with the readings [clock], contexts that are not
    cancelled. *)

Section readings.
Context (rt : Runtime) (k : Workers) (clock : list positive).
Definition in_memory (s : State) : World := mkWorld (mkMemoryRepository s false) k clock [].
Abbreviation runs p s := (interp (@handle rt) p (in_memory s)).

Lemma interp_bind {A B} (p : prog A) (f : A → prog B) w :
  interp (@handle rt) (p ≫= f) w = interp (@handle rt) (f (interp (@handle rt) p w).1) (interp (@handle rt) p w).2.
Proof using Type.
  revert w. induction p as [x|X e q IH]; intros w; cbn; [done|]. destruct (handle rt e w) as [x w']. apply IH.
Qed.

Lemma interp_orelse {X A} (e : eff (result X)) (z : goerr → prog A) (q : X → prog A) w x w' :
  handle rt e w = (Ok x, w') → interp (@handle rt) (orelse (call e) z q) w = interp (@handle rt) (q x) w'.
Proof using Type. intros He. cbn. by rewrite He. Qed.

Lemma healthy_ctx ctx s : ctx ≠ CtxNil → ContextError ctx (in_memory s) = (None, in_memory s).
Proof using Type. by destruct ctx. Qed.

Lemma healthy_contextError ctx s : ctx ≠ CtxNil → runs (contextError ctx) s = (None, in_memory s).
Proof using Type. by destruct ctx. Qed.

Lemma healthy_GetStage ctx s id o :
  ctx ≠ CtxNil → Operations s !! id = Some o → Operation_Validate o = Ok () →
  handle rt (EGetStage ctx id) (in_memory s) = (Ok o, in_memory s).
Proof using Type.
  intros Hc Ho Hv. cbn. unfold memory_GetStage, memory_read, guard_ctx. rewrite healthy_ctx by done. cbn.
  unfold GetStage. by rewrite Ho, Hv.
Qed.

(** A transition from the operation on record is written. *)
Lemma healthy_UpdateStage ctx s o next at_ f ev u :
  ctx ≠ CtxNil → Operations s !! aq_OperationID (ao_Request o) = Some o → ao_Status o ≠ next →
  Transition o next at_ f ev = Ok u →
  handle rt (EUpdateStage ctx u (ao_Status o)) (in_memory s) = (Ok (), in_memory (set_operation u s)).
Proof using Type.
  intros Hc Ho Hne Ht. cbn. unfold memory_UpdateStage, memory_write, checkOpen, guard_ctx. rewrite healthy_ctx by done. cbn.
  rewrite healthy_ctx by done. unfold apply_write. pose proof Ht as Hu. apply Transition_changes in Hu; [|done]. subst u.
  cbn [w_mem mem_state in_memory]. unfold UpdateStage. cbn [ao_Request updated_operation ao_Status ao_AcceptedAt ao_ObservedAt ao_Failure ao_Evidence].
  rewrite Ho, decide_False by (intros [?|[Hs|?]]; [done| |done]; apply Hs; unfold sameRequest; by split_and!).
  rewrite Ht. cbn [mbind result_bind]. by rewrite decide_False by (intros Hn; by apply Hn).
Qed.

Lemma healthy_finishAt ctx s o next f ev at_ cause u :
  Operations s !! aq_OperationID (ao_Request o) = Some o → ao_Status o ≠ next → Transition o next at_ f ev = Ok u →
  runs (finishAt ctx o next f ev at_ cause) s = ((u, cause), in_memory (set_operation u s)).
Proof using Type.
  intros Ho Hne Ht. unfold finishAt, write_back. rewrite Ht. cbn -[handle].
  by erewrite healthy_UpdateStage.
Qed.
End readings.

(** A clock that stands at [t]. *)
Abbreviation healthy t k := (in_memory k [t%positive]).

Section healthy.
Context (rt : Runtime) (a : Application) (t : positive) (k : Workers).
Abbreviation runs p s := (interp (@handle rt) p (healthy t k s)).
Abbreviation now := (Z.pos t).
Context (Hcomplete : complete a = true).

Lemma healthy_observedAfter s previous : previous ≤ now → runs (observedAfter previous) s = (now, healthy t k s).
Proof using Type. intros Hp. cbn. unfold Before. by rewrite decide_False by lia. Qed.

Definition failed_at (o : Operation) (reason : FailureReason) : Operation := updated_operation o OperationFailed now reason None.

Lemma expires_transition o :
  Operation_Validate o = Ok () → ao_Status o = OperationAccepted → ao_ObservedAt o ≤ now →
  Transition o OperationFailed now FailureDeadlineExpired None = Ok (failed_at o FailureDeadlineExpired).
Proof using Type.
  intros Hv Hs Ht. unfold Transition, IsZero, Before. rewrite Hv. cbn [mbind result_bind]. rewrite Hs.
  rewrite (decide_False (P := status_valid _ = false ∨ _)) by (intros [?|[?|?]]; [done|lia|lia]).
  rewrite (decide_False (P := OperationAccepted = OperationFailed)) by done. cbn [terminal].
  rewrite (decide_False (P := operationTransitions _ _ = false ∨ _)) by (by intros [?|?]).
  rewrite (decide_False (P := OperationFailed = OperationRunning ∧ _)) by (by intros [? _]).
  change (keeps_evidence OperationFailed FailureDeadlineExpired) with false. cbn [mbind result_bind].
  rewrite (decide_False (P := is_Some (A := Evidence) None)) by (by intros []). cbn [mbind result_bind].
  assert (Operation_Validate (failed_at o FailureDeadlineExpired) = Ok ()) as Hu; [|unfold failed_at in *; by rewrite Hu].
  apply Operation_Validate_spec in Hv as (?&?&?&?&?&?&?&?). apply Operation_Validate_spec. cbn. split_and!; done || lia.
Qed.

Lemma healthy_expired_dispatch ctx s o :
  ctx ≠ CtxNil → Operations s !! aq_OperationID (ao_Request o) = Some o → Operation_Validate o = Ok () →
  ao_Status o = OperationAccepted → ao_ObservedAt o ≤ now → aq_Deadline (ao_Request o) ≤ now →
  runs (Reconcile a ctx (aq_OperationID (ao_Request o))) s
  = ((failed_at o FailureDeadlineExpired, Some [ErrDeadlineExpired]), healthy t k (set_operation (failed_at o FailureDeadlineExpired) s)).
Proof using Hcomplete.
  intros Hc Ho Hv Hs Hobs Hd. unfold Reconcile, ready. rewrite Hcomplete. rewrite interp_bind, healthy_contextError by done. cbn [fst snd].
  rewrite (interp_orelse _ _ _ _ _ o (healthy t k s)) by (by apply healthy_GetStage). rewrite decide_True by done.
  unfold Dispatch. rewrite Hcomplete.
  assert (Hrun : ∀ readCtx, readCtx ≠ CtxNil → runs (orelse (call (EGetStage readCtx (aq_OperationID (ao_Request o)))) fail
    (λ operation, if decide (ao_Status operation ≠ OperationAccepted) then reconcileLocked ctx operation else dispatch_accepted ctx operation)) s
    = ((failed_at o FailureDeadlineExpired, Some [ErrDeadlineExpired]), healthy t k (set_operation (failed_at o FailureDeadlineExpired) s))).
  { intros readCtx Hr. rewrite (interp_orelse _ _ _ _ _ o (healthy t k s)) by (by apply healthy_GetStage).
    rewrite decide_False by (intros Hn; by apply Hn). unfold dispatch_accepted. rewrite interp_bind. cbn [interp handle call clock_Now in_memory w_clock fst snd].
    unfold After. rewrite decide_True by (left; lia). unfold failBeforeDispatch, finish. rewrite interp_bind. fold (healthy t k s). rewrite healthy_observedAfter by done.
    apply healthy_finishAt; [done|by rewrite Hs|by apply expires_transition]. }
  destruct ctx; [done|..]; rewrite interp_bind; by apply Hrun.
Qed.

End healthy.

(** *** A dispatch that succeeds *)

Lemma Evidence_Validate_observed e at_ : Evidence_Validate e at_ = Ok () → Evidence_Validate e (ev_ObservedAt e) = Ok ().
Proof using Type.
  unfold Evidence_Validate, refuse. intros H.
  do 4 (let G := fresh "G" in apply guard_Ok in H as [G H]; rewrite decide_False by exact G).
  apply bind_Ok in H as ([] & -> & H). apply bind_Ok in H as ([] & -> & H). apply bind_Ok in H as ([] & -> & H). cbn [mbind result_bind].
  apply guard_Ok in H as [G' _]. rewrite decide_False by exact G'. rewrite decide_False; [done|]. unfold Before, After in *. naive_solver.
Qed.

Definition running_at (at_ : Time) (o : Operation) : Operation := updated_operation o OperationRunning at_ no_failure None.
Definition succeeded_at (at_ : Time) (o : Operation) (e : Evidence) : Operation := updated_operation o OperationSucceeded at_ no_failure (Some e).

(** A dispatch reads the clock twice: before the operation is claimed and after the
    stager has answered. *)
Section dispatch.
Context (rt : Runtime) (k : Workers).

Lemma runs_transition o now :
  Operation_Validate o = Ok () → ao_Status o = OperationAccepted → 0 < now → ao_ObservedAt o ≤ now → now < aq_Deadline (ao_Request o) →
  Transition o OperationRunning now no_failure None = Ok (running_at now o) ∧ Operation_Validate (running_at now o) = Ok ().
Proof using Type.
  intros Hv Hs Hz Ht Hd. assert (Hu : Operation_Validate (running_at now o) = Ok ()).
  { apply Operation_Validate_spec in Hv as (?&?&?&?&?&?&?&?). apply Operation_Validate_spec. cbn. split_and!; done || lia. }
  split; [|done]. unfold Transition, IsZero, Before, After. rewrite Hv. cbn [mbind result_bind]. rewrite Hs.
  rewrite (decide_False (P := status_valid _ = false ∨ _)) by (intros [?|[?|?]]; [done|lia|lia]).
  rewrite (decide_False (P := OperationAccepted = OperationRunning)) by done. cbn [terminal].
  rewrite (decide_False (P := operationTransitions _ _ = false ∨ _)) by (by intros [?|?]).
  rewrite (decide_False (P := OperationRunning = OperationRunning ∧ _)) by (intros [_ ?]; lia).
  change (keeps_evidence OperationRunning no_failure) with false. cbn [mbind result_bind].
  rewrite (decide_False (P := is_Some (A := Evidence) None)) by (by intros []). cbn [mbind result_bind].
  unfold running_at in *. by rewrite Hu.
Qed.

Lemma succeeds_transition o e now :
  Operation_Validate o = Ok () → ao_Status o = OperationRunning → 0 < now → ao_ObservedAt o ≤ now → now < aq_Deadline (ao_Request o) →
  Evidence_Validate e now = Ok () → evidenceMatchesRequest e (ao_Request o) = true → ev_Status e = StatusStaged →
  Transition o OperationSucceeded now no_failure (Some e) = Ok (succeeded_at now o e).
Proof using Type.
  intros Hv Hs Hz Ht Hd He Hm Hst. assert (Hu : Operation_Validate (succeeded_at now o e) = Ok ()).
  { apply Operation_Validate_spec in Hv as (?&?&?&?&?&?&?&?). apply Operation_Validate_spec. unfold retained_evidence_valid. cbn.
    rewrite (Evidence_Validate_observed e now He), Hm, Hst. split_and!; done || lia. }
  unfold Transition, IsZero, Before, After. rewrite Hv. cbn [mbind result_bind]. rewrite Hs.
  rewrite (decide_False (P := status_valid _ = false ∨ _)) by (intros [?|[?|?]]; [done|lia|lia]).
  rewrite (decide_False (P := OperationRunning = OperationSucceeded)) by done. cbn [terminal].
  rewrite (decide_False (P := operationTransitions _ _ = false ∨ _)) by (by intros [?|?]).
  rewrite (decide_False (P := OperationSucceeded = OperationRunning ∧ _)) by (by intros [? _]).
  change (keeps_evidence OperationSucceeded no_failure) with true. cbn [mbind result_bind].
  rewrite (decide_False (P := ¬ now < _)) by lia. rewrite He, Hm. cbn [is_ok].
  rewrite (decide_False (P := true = false ∨ _)) by (by intros [?|?]). rewrite !decide_False by (intros [? ?]; done). cbn [mbind result_bind].
  unfold succeeded_at in *. by rewrite Hu.
Qed.

Lemma observedAfter_reads t ts s previous :
  interp (@handle rt) (observedAfter previous) (in_memory k (t :: ts) s)
  = (Z.max previous (Z.pos t), in_memory k (match ts with [] => [t] | _ => ts end) s).
Proof using Type. cbn. destruct ts; cbn; unfold Before; case_decide; f_equal; lia. Qed.

Lemma healthy_dispatch t1 t2 ts ctx s o e :
  let clock := t1 :: t2 :: ts in let seen := Z.max (Z.pos t1) (Z.pos t2) in
  ctx ≠ CtxNil → Operations s !! aq_OperationID (ao_Request o) = Some o → Operation_Validate o = Ok () →
  ao_Status o = OperationAccepted → ao_ObservedAt o ≤ Z.pos t1 → seen < aq_Deadline (ao_Request o) →
  Z.pos t1 < ExpiresAt (ao_Request o) (ao_AcceptedAt o) →
  rt_Stage rt (ao_Request o) (ao_AcceptedAt o) = Ok e → Evidence_Validate e seen = Ok () →
  evidenceMatchesRequest e (ao_Request o) = true → ev_Status e = StatusStaged →
  ∃ w, interp (@handle rt) (dispatch_accepted ctx o) (in_memory k clock s)
       = ((succeeded_at seen (running_at (Z.pos t1) o) e, None), w) ∧
    mem_state (w_mem w) = set_operation (succeeded_at seen (running_at (Z.pos t1) o) e) (set_operation (running_at (Z.pos t1) o) s).
Proof using Type.
  cbv zeta. intros Hc Ho Hv Hs Hobs Hd Hx Hrt He Hm Hst. destruct (runs_transition o (Z.pos t1) Hv Hs) as [Hrun Hvr]; [lia..|].
  set (running := running_at (Z.pos t1) o) in *. set (seen := Z.max (Z.pos t1) (Z.pos t2)) in *.
  unfold dispatch_accepted. rewrite interp_bind. cbn [interp handle call clock_Now in_memory w_clock w_mem w_workers w_ctx fst snd].
  fold (in_memory k (t2 :: ts) s).
  unfold After. rewrite decide_False by (intros [?|?]; lia). rewrite interp_bind, healthy_contextError by done. cbn [fst snd].
  rewrite Hrun. rewrite (interp_orelse _ _ _ _ _ () (in_memory k (t2 :: ts) (set_operation running s))).
  2: { rewrite <- Hs. eapply healthy_UpdateStage; [done|done| |exact Hrun]; by rewrite Hs. }
  rewrite interp_bind. cbn [interp handle call fst snd]. rewrite Hrt. unfold conclude. rewrite interp_bind, observedAfter_reads.
  cbn [fst snd]. rewrite Hst. change (Z.max (ao_ObservedAt running) (Z.pos t2)) with seen.
  erewrite healthy_finishAt; [by eexists|by cbn; rewrite lookup_insert_eq|done|]. apply succeeds_transition; try done; cbn; lia.
Qed.
End dispatch.



(** C38 (error): recovery stops at an accepted operation whose deadline has passed: the operation
    is recorded as failed, the error is returned, and whatever operations come
    after it in the listing are left as they are, neither dispatched nor recorded
    as unknown. *)
Theorem expired_operation_stops_recovery rt a t k ctx s o os results unknown :
  complete a = true → ctx ≠ CtxNil → Operations s !! aq_OperationID (ao_Request o) = Some o → Operation_Validate o = Ok () →
  ao_Status o = OperationAccepted → ao_ObservedAt o ≤ Z.pos t → aq_Deadline (ao_Request o) ≤ Z.pos t →
  interp (@handle rt) (recover_all a ctx (o :: os) results unknown) (healthy t k s)
  = ((results ++ [failed_at t o FailureDeadlineExpired], Some [ErrDeadlineExpired]),
     healthy t k (set_operation (failed_at t o FailureDeadlineExpired) s)).
Proof.
  intros Ha Hc Ho Hv Hs Hobs Hd. cbn [recover_all]. rewrite Hs. cbn [negb recoverable].
  rewrite interp_bind, healthy_expired_dispatch by done. cbn [fst snd].
  rewrite (decide_False (P := [ErrDeadlineExpired] = [ErrOutcomeUnknown])) by done. rewrite decide_True; [done|]. cbn. intros Hempty.
  apply Operation_Validate_spec in Hv as (_&_&_&_&Hrq&_). unfold Request_Validate, refuse in Hrq. apply guard_Ok in Hrq as [G _].
  apply G. do 2 right. left. by rewrite Hempty.
Qed.

(** Two accepted operations are left from before; at startup the deadline of the
    first has passed. *)
Definition expired_request : Request :=
  mkRequest "box" "tenant" "early" "try" 7 1 "key0" ArtifactSample.digest (11 * Second) "artifact-ref:out" "/outputs/a.txt" ArtifactSample.digest "text/plain" 64 (10 * Second).
Definition left_behind : State := perform_all (ArtifactSample.accepted ++ [OpReserve expired_request 10]) NewState.

Lemma expired_operation_stops_recovery_witness :
  (ListStages left_behind = Ok [reserved expired_request 10; reserved ArtifactSample.request 10]) ∧
  let '((_, err), w) := interp (@handle ArtifactRuns.runtime)
    (recover_all (v_application ArtifactRuns.vertical) CtxCaller [reserved expired_request 10; reserved ArtifactSample.request 10] [] false)
    (healthy 20000000000 NewWorkers left_behind) in
  err = Some [ErrDeadlineExpired] ∧ Operations (mem_state (w_mem w)) !! "op" = Some (reserved ArtifactSample.request 10).
Proof.
  split; [vm_compute; reflexivity|].
  rewrite (expired_operation_stops_recovery ArtifactRuns.runtime (v_application ArtifactRuns.vertical) 20000000000 NewWorkers CtxCaller
    left_behind (reserved expired_request 10) [reserved ArtifactSample.request 10] [] false).
  all: first [done | vm_compute; reflexivity | split; [done|vm_compute; reflexivity]].
Defined.
