(* ===== verification/ArtifactStager.v ===== *)
(** * The private stager: [provider/artifact/staging/stager.go]

    [CheckSupport], [Stage], [stageBytes] and [writeAll] as programs over the ports
    of the stager: the tenant binding checker, the output reader and the two content
    checkers ([provider/artifact/port.go]), the clock, the context and the staging
    directory.  The directory is a map from names to bytes, on which the system
    calls act or fail; every other port answers anything.  Dispatches of one process
    exclude each other, so nobody else writes the directory during a call.  What was
    called, with its answers, is logged, newest first.

    SHA-256, the JSON encoding of evidence and the media type functions of the Go
    library that consult tables of the system are parameters. *)

From S2P Require Import Prelude Program LifecycleModel Threads ArtifactModel ArtifactState ArtifactInvariant ArtifactGuarantees ArtifactApplication ArtifactConcurrency ArtifactFile ArtifactPoolGuarantees.
From stdpp Require Import base gmap strings list fin_maps relations.
From Stdlib Require Import Ascii ZArith Lia.

Local Open Scope Z_scope.

Definition content := list ascii.

(** The context of the caller and the one bounded by the deadline of the stage. *)
Inductive StageContext := StageNil | StageCaller | StageTimeout (timeout : Z).
Inductive Checker := ActiveContent | Malware.

(** [artifact.Output]: whether there is a reader, and the size it announces. *)
Record Output := mkOutput { out_present : bool; out_SizeBytes : Z }.

Inductive seff : Type → Type :=
  | SNow : seff Time
  | SCtxErr (ctx : StageContext) : seff (option goerr)
  | SCheckSupport (c : Checker) (ctx : StageContext) (rq : Request) : seff (result unit)
  | SCheckTenantBinding (ctx : StageContext) (rq : Request) : seff (result CheckStatus)
  | SOpenOutput (ctx : StageContext) (sandbox : string) (generation : Z) (path : string) : seff (result Output)
  | SReadAll : seff (result content)
  | SCheckContent (c : Checker) (ctx : StageContext) (rq : Request) (bytes : content) : seff (result CheckStatus)
  (* the staging directory *)
  | SLstatRoot : seff bool
  | SOpenRoot : seff (result unit)
  | SRand : seff (result string)
  | SOpenFile (name : string) : seff (result unit)
  | SWrite (name : string) (chunk : content) : seff (result nat)
  | SSync (name : string) : seff (result unit)
  | SCloseFile (name : string) : seff (result unit)
  | SLink (from to : string) : seff (result unit)
  | SRemove (name : string) : seff (result unit)
  | SOpenDirectory : seff (result unit)
  | SSyncDirectory : seff (result unit)
  | SCloseDirectory : seff (result unit).

Abbreviation sprog := (Program.prog seff).

(** ** The directory *)

Abbreviation directory := (gmap string content).

Definition append_file (name : string) (bytes : content) (d : directory) : directory := alter (λ c, c ++ bytes) name d.

Definition directory_step {X} (e : seff X) : directory → X → directory → Prop :=
  match e in seff X return directory → X → directory → Prop with
  | SOpenFile name => λ d x d',
      match x with Ok _ => d !! name = None ∧ d' = <[name := []]> d | Err _ => d' = d end
  | SWrite name chunk => λ d x d',
      match x with
      | Ok n => (n ≤ length chunk)%nat ∧ d' = append_file name (take n chunk) d
      | Err _ => ∃ n, d' = append_file name (take n chunk) d
      end
  | SLink from to => λ d x d',
      match x with Ok _ => d !! to = None ∧ ∃ c, d !! from = Some c ∧ d' = <[to := c]> d | Err _ => d' = d end
  | SRemove name => λ d x d', match x with Ok _ => d' = delete name d | Err _ => d' = d end
  | _ => λ d _ d', d' = d
  end.

Record StageState := mkStageState { ss_directory : directory; ss_log : list (event seff) }.

Definition stage_respond {X} (e : seff X) (σ : StageState) (x : X) (σ' : StageState) : Prop :=
  directory_step e (ss_directory σ) x (ss_directory σ') ∧ ss_log σ' = Ev e x :: ss_log σ.

(** ** The stager *)

Record Stager := mkStager {
  st_outputs : bool; st_tenantBinding : bool; st_activeContent : bool; st_malware : bool; st_clock : bool; st_stagingRoot : string;
  st_supports : Checker → bool;   (* the checker implements [artifact.SupportChecker] *)
}.

Definition stage_fails {A} (e : goerr) : sprog (result A) := Ret (Err e).
Declare Scope stager_scope.
Notation "x <~ m ; k" := (orelse m stage_fails (λ x, k))
  (at level 20, m at level 100, k at level 200, only parsing) : stager_scope.
Local Open Scope stager_scope.

(** A call whose error is dropped. *)
Definition ignoring {X A} (e : seff X) (k : sprog A) : sprog A := _ ← call e; k.

Definition support_of (s : Stager) (ctx : StageContext) (rq : Request) (c : Checker) : sprog (result unit) :=
  if st_supports s c then call (SCheckSupport c ctx rq) else Ret (Ok ()).

Definition CheckSupport (s : Stager) (ctx : StageContext) (rq : Request) : sprog (result unit) :=
  match ctx with
  | StageNil => stage_fails [Canceled : sentinel]
  | _ =>
      if decide (st_outputs s = false ∨ st_tenantBinding s = false ∨ st_activeContent s = false ∨ st_malware s = false
                 ∨ st_clock s = false ∨ st_stagingRoot s = "") then stage_fails [ErrUnsupportedChecks] else
      err ← call (SCtxErr ctx);
      match err with
      | Some e => stage_fails e
      | None =>
          _ <~ support_of s ctx rq ActiveContent;
          _ <~ support_of s ctx rq Malware;
          directory ← call SLstatRoot;
          Ret (if directory : bool then Ok () else Err [ErrUnsupportedChecks])
      end
  end.

(** [writeAll]: chunks of 64 KiB; each round writes at least one byte. *)
Definition chunk_size : nat := Z.to_nat (Z.shiftl 64 10).

#[global] Opaque chunk_size.

Definition ErrShortWrite : sentinel := SNamed "io" "ErrShortWrite".

Fixpoint writeAll (fuel : nat) (ctx : StageContext) (name : string) (bytes : content) : sprog (result unit) :=
  match bytes, fuel with
  | [], _ => Ret (Ok ())
  | _, O => stage_fails [ErrShortWrite]
  | _, S fuel =>
      err ← call (SCtxErr ctx);
      match err with
      | Some e => stage_fails e
      | None =>
          written <~ call (SWrite name (take chunk_size bytes));
          match written with
          | O => stage_fails [ErrShortWrite]
          | _ => writeAll fuel ctx name (drop written bytes)
          end
      end
  end.

(** ** Reasoning about the stager

    Whatever the point at which a call stops, the files [d0] that were there are as
    they were. *)

Definition nobody : relation StageState := λ _ _, False.

Definition sp (d0 : directory) {A} (p : sprog A) (Q : A → StageState → Prop) (σ : StageState) : Prop :=
  safe (@stage_respond) nobody (λ σ, d0 ⊆ ss_directory σ) p Q σ.

Lemma sp_call {X A} (e : seff X) (k : X → sprog A) Q d0 d l :
  (∀ x d', directory_step e d x d' → d0 ⊆ d' ∧ sp d0 (k x) Q (mkStageState d' (Ev e x :: l))) → sp d0 (Vis e k) Q (mkStageState d l).
Proof.
  intros H σ0 x [d' l'] Hi [Hd Hl]. apply rtc_inv in Hi as [<-|(? & [] & _)]. cbn in *. subst l'. by apply H.
Qed.

Lemma sp_bind {A B} (p : sprog A) (f : A → sprog B) Q d0 σ : sp d0 p (λ a σ', sp d0 (f a) Q σ') σ → sp d0 (p ≫= f) Q σ.
Proof. apply safe_bind. Qed.

Lemma sp_mono {A} (p : sprog A) (Q Q' : A → StageState → Prop) d0 σ : (∀ a σ', Q a σ' → Q' a σ') → sp d0 p Q σ → sp d0 p Q' σ.
Proof. apply safe_mono. Qed.

(** Calls that leave the directory alone. *)
Definition reads {X} (e : seff X) : bool :=
  match e with SOpenFile _ | SWrite _ _ | SLink _ _ | SRemove _ => false | _ => true end.

Lemma sp_read {X A} (e : seff X) (k : X → sprog A) Q d0 d l :
  reads e = true ∧ d0 ⊆ d → (∀ x, sp d0 (k x) Q (mkStageState d (Ev e x :: l))) → sp d0 (Vis e k) Q (mkStageState d l).
Proof. intros [Hr Hd0] Hk. apply sp_call. intros x d' Hd. assert (d' = d) as -> by (by destruct e). split; [done|apply Hk]. Qed.

(** *** The bytes *)

Lemma append_insert name (c w : content) d : append_file name w (<[name := c]> d) = <[name := c ++ w]> d.
Proof. unfold append_file. by rewrite alter_insert_eq. Qed.

Lemma writeAll_spec fuel ctx name bytes c d l :
  (length bytes ≤ fuel)%nat → d !! name = None →
  sp d (writeAll fuel ctx name bytes)
    (λ r σ', ∃ w, ss_directory σ' = <[name := c ++ w]> d ∧ l ⊆ ss_log σ' ∧ (r = Ok () → w = bytes))
    (mkStageState (<[name := c]> d) l).
Proof.
  revert bytes c l. induction fuel as [|fuel IH]; intros bytes c l Hf Hfree.
  { destruct bytes; [|cbn in Hf; lia]. exists []. by rewrite app_nil_r. }
  destruct bytes as [|b bytes]; [exists []; by rewrite app_nil_r|]. cbn [writeAll].
  assert (Hsub : ∀ w, d ⊆ <[name := w]> d) by (intros; by apply insert_subseteq).
  apply sp_read; [done|]. intros [e|].
  { exists []. rewrite app_nil_r. split_and!; [done|set_solver|done]. }
  apply sp_call. cbn -[chunk_size take]. intros [n|e] d' Hd.
  - destruct Hd as [Hn ->]. rewrite append_insert. split; [done|]. set (ch := take chunk_size (b :: bytes)) in *.
    destruct n as [|n]; [exists []; split_and!; [by cbn|set_solver|done]|].
    assert (Hch : take (S n) ch = take (S n) (b :: bytes)).
    { unfold ch in *. rewrite length_take in Hn. rewrite take_take. f_equal. lia. }
    rewrite Hch. eapply sp_mono; [|apply IH]; [|rewrite length_drop; cbn in Hf |- *; lia|done].
    cbn. intros r σ' (w & -> & Hl & Hw). exists (take (S n) (b :: bytes) ++ w). split_and!.
    + by rewrite app_assoc.
    + set_solver.
    + intros Hr. rewrite (Hw Hr). apply (take_drop (S n) (b :: bytes)).
  - destruct Hd as [n ->]. rewrite append_insert. split; [done|]. eexists. split_and!; [done|set_solver|done].
Qed.

(** ** Staging *)

Section stager.
Context (sha256 : content → string) (evidence_json : Evidence → content).
Context (TypeByExtension : string → string) (DetectContentType : content → string) (ParseMediaType : string → option string).

Definition to_bytes (s : string) : content := String.list_ascii_of_string s.

Definition digest (bytes : content) : string := "sha256:" +:+ hex_encode (sha256 bytes).

Definition evidence_with (e : Evidence) (staging : string) (status : Status) (active malware : Check_) (observedAt : Time) (d : string) : Evidence :=
  mkEvidence (ev_OperationID e) (ev_AttemptID e) (ev_FencingToken e) (ev_SandboxID e) (ev_ArtifactReference e) staging status
    (ev_ContentDigest e) (ev_MediaType e) (ev_SizeBytes e) (ev_TenantBindingCheck e) active malware observedAt (ev_ExpiresAt e) d.

(** [evidence.Status = status; evidence.EvidenceDigest = d] *)
Definition set_status (e : Evidence) (status : Status) (d : string) : Evidence :=
  evidence_with e (ev_StagingReference e) status (ev_ActiveContentCheck e) (ev_MalwareCheck e) (ev_ObservedAt e) d.

Definition evidenceDigest (e : Evidence) : string := digest (evidence_json (set_status e (ev_Status e) "")).

Definition finishEvidence (e : Evidence) (status : Status) : result Evidence :=
  let e := set_status e status (ev_EvidenceDigest e) in
  let e := set_status e status (evidenceDigest e) in
  _ ← Evidence_Validate e (ev_ObservedAt e); Ok e.

(** [filepath.Ext]: from the last dot of the last element. *)
Fixpoint Ext_from (s : string) (found : string) : string :=
  match s with
  | EmptyString => found
  | String c s' =>
      if one_of "/" c then Ext_from s' "" else if one_of "." c then Ext_from s' s else Ext_from s' found
  end.
Definition Ext (path : string) : string := Ext_from path "".

(** [strings.ToLower]; a parsed media type is ASCII. *)
Definition lower (c : ascii) : ascii := if is_upper c then ascii_of_N (byte c + 32) else c.
Fixpoint ToLower (s : string) : string := match s with EmptyString => EmptyString | String c s => String (lower c) (ToLower s) end.

Definition detectMediaType (sourcePath : string) (bytes : content) : string :=
  let detected := TypeByExtension (Ext sourcePath) in
  let detected := if decide (detected = "") then DetectContentType bytes else detected in
  match ParseMediaType detected with
  | Some mediaType => if decide (mediaType = "") then "application/octet-stream" else ToLower mediaType
  | None => "application/octet-stream"
  end.

(** *** Storing the bytes *)

Definition staging_key (rq : Request) : string :=
  hex_encode (sha256 (to_bytes (aq_OperationID rq +:+ String NUL (aq_AttemptID rq +:+ String NUL (aq_RequestDigest rq))))).
Definition staging_name (rq : Request) : string := staging_key rq +:+ ".artifact".
Definition temporary_name (random : string) : string := ".stage-" +:+ hex_encode random +:+ ".tmp".

(** The deferred removal of the temporary file. *)
Definition clean_up {A} (temporary : string) (e : goerr) : sprog (result A) := ignoring (SRemove temporary) (stage_fails e).

(** The directory is synced; the artifact is withdrawn if that fails. *)
Definition sync_directory (ctx : StageContext) (rq : Request) : sprog (result string) :=
  orelse (call SOpenDirectory) (λ e, ignoring (SRemove (staging_name rq)) (stage_fails e)) (λ _,
    syncErr ← call SSyncDirectory;
    closeErr ← call SCloseDirectory;
    let errors := [match syncErr with Err e => Some e | Ok _ => None end; match closeErr with Err e => Some e | Ok _ => None end] in
    ctxErr ← (match ArtifactApplication.Join errors with Some _ => Ret None | None => call (SCtxErr ctx) end);
    if decide (is_Some (ArtifactApplication.Join (errors ++ [ctxErr]))) then
      ignoring (SRemove (staging_name rq))
        (last ← call (SCtxErr ctx);
         Ret (match ArtifactApplication.Join (errors ++ [last]) with Some e => Err e | None => Ok "" end))
    else Ret (Ok ("ref:staging/" +:+ staging_key rq))).

(** The temporary file is complete: it is published under its final name. *)
Definition publish (ctx : StageContext) (rq : Request) (temporary : string) : sprog (result string) :=
  orelse (call (SLink temporary (staging_name rq))) (clean_up temporary) (λ _,
    orelse (call (SRemove temporary)) (λ e, ignoring (SRemove (staging_name rq)) (clean_up temporary e)) (λ _,
      sync_directory ctx rq)).

Definition stageBytes (ctx : StageContext) (rq : Request) (bytes : content) : sprog (result string) :=
  _ <~ call SOpenRoot;
  random <~ call SRand;
  let temporary := temporary_name random in
  _ <~ call (SOpenFile temporary);
  orelse (writeAll (length bytes) ctx temporary bytes) (λ e, ignoring (SCloseFile temporary) (clean_up temporary e)) (λ _,
    orelse (call (SSync temporary)) (λ e, ignoring (SCloseFile temporary) (clean_up temporary e)) (λ _,
      orelse (call (SCloseFile temporary)) (clean_up temporary) (λ _,
        err ← call (SCtxErr ctx);
        match err with
        | Some e => clean_up temporary e
        | None => publish ctx rq temporary
        end))).

(** *** Staging *)

Definition not_run (at_ : Time) : Check_ := mkCheck CheckNotRun at_ "".

(** The evidence before any content check ran. *)
Definition first_evidence (rq : Request) (bytes : content) (size : Z) (tenant : Check_) (observedAt expiresAt : Time) : Evidence :=
  mkEvidence (aq_OperationID rq) (aq_AttemptID rq) (aq_FencingToken rq) (aq_SandboxID rq) (aq_ArtifactReference rq) "" (StatusOther "")
    (digest bytes) (detectMediaType (aq_SourcePath rq) bytes) size tenant (not_run observedAt) (not_run observedAt) observedAt expiresAt "".

Definition contentMatches (e : Evidence) (rq : Request) : bool :=
  bool_decide (ev_ContentDigest e = aq_ExpectedDigest rq ∧ ev_MediaType e = aq_ExpectedMediaType rq ∧ ev_SizeBytes e ≤ aq_MaxBytes rq).

(** The clock after a check, refused once the evidence would be expired. *)
Definition still_retained {A} (expired : sentinel) (e : Evidence) (k : Time → sprog (result A)) : sprog (result A) :=
  observedAt ← call SNow;
  if decide (¬ After (ev_ExpiresAt e) observedAt) then stage_fails [expired] else k observedAt.

Definition store_checked (ctx : StageContext) (rq : Request) (bytes : content) (e : Evidence) : sprog (result Evidence) :=
  err ← call (SCtxErr ctx);
  match err with
  | Some err => stage_fails err
  | None =>
      reference <~ stageBytes ctx rq bytes;
      still_retained ErrOutcomeUnknown e (λ observedAt,
        Ret (finishEvidence (evidence_with e reference (ev_Status e) (ev_ActiveContentCheck e) (ev_MalwareCheck e) observedAt (ev_EvidenceDigest e))
               StatusStaged))
  end.

Definition check_malware (ctx : StageContext) (rq : Request) (bytes : content) (e : Evidence) : sprog (result Evidence) :=
  checkedAt ← call SNow;
  status <~ call (SCheckContent Malware ctx rq bytes);
  still_retained ErrDeadlineExpired e (λ observedAt,
    let e := evidence_with e (ev_StagingReference e) (ev_Status e) (ev_ActiveContentCheck e) (mkCheck status checkedAt "") observedAt (ev_EvidenceDigest e) in
    if decide (status ≠ CheckPassed) then Ret (finishEvidence e StatusRejected) else store_checked ctx rq bytes e).

Definition check_active (ctx : StageContext) (rq : Request) (bytes : content) (e : Evidence) : sprog (result Evidence) :=
  checkedAt ← call SNow;
  status <~ call (SCheckContent ActiveContent ctx rq bytes);
  still_retained ErrDeadlineExpired e (λ observedAt,
    let e := evidence_with e (ev_StagingReference e) (ev_Status e) (mkCheck status checkedAt "") (ev_MalwareCheck e) observedAt (ev_EvidenceDigest e) in
    if decide (status ≠ CheckPassed) then Ret (finishEvidence e StatusRejected) else check_malware ctx rq bytes e).

(** The output as it was read, against the request. *)
Definition stage_content (ctx : StageContext) (rq : Request) (tenant : Check_) (output : Output) (expiresAt : Time) (bytes : content)
    : sprog (result Evidence) :=
  if decide (Z.of_nat (length bytes) ≠ out_SizeBytes output ∨ Z.of_nat (length bytes) > MaxArtifactBytes)
  then stage_fails [ErrOutcomeUnknown] else
  err ← call (SCtxErr ctx);
  match err with
  | Some e => stage_fails e
  | None =>
      observedAt ← call SNow;
      if decide (¬ After expiresAt observedAt) then stage_fails [ErrDeadlineExpired] else
      let e := first_evidence rq bytes (out_SizeBytes output) tenant observedAt expiresAt in
      if contentMatches e rq then check_active ctx rq bytes e else Ret (finishEvidence e StatusRejected)
  end.

Definition stage_output (ctx : StageContext) (rq : Request) (tenant : Check_) (expiresAt : Time) : sprog (result Evidence) :=
  output <~ call (SOpenOutput ctx (aq_SandboxID rq) (aq_ExpectedGeneration rq) (aq_SourcePath rq));
  if decide (out_present output = false ∨ out_SizeBytes output < 0 ∨ out_SizeBytes output > MaxArtifactBytes)
  then stage_fails [ErrInvalidEvidence] else
  orelse (call SReadAll) (λ _, stage_fails [ErrOutcomeUnknown]) (stage_content ctx rq tenant output expiresAt).

Definition Stage (s : Stager) (ctx : StageContext) (rq : Request) (acceptedAt : Time) : sprog (result Evidence) :=
  _ <~ CheckSupport s ctx rq;
  now ← call SNow;
  let expiresAt := ExpiresAt rq acceptedAt in
  if decide (is_ok (Request_Validate rq acceptedAt) = false ∨ ¬ After (aq_Deadline rq) now ∨ ¬ After expiresAt now)
  then stage_fails [ErrDeadlineExpired] else
  let deadline := if decide (Before expiresAt (aq_Deadline rq)) then expiresAt else aq_Deadline rq in
  let ctx := StageTimeout (Sub deadline now) in
  status <~ call (SCheckTenantBinding ctx rq);
  if decide (status ≠ CheckPassed) then stage_fails [ErrTenantBinding] else
  checkedAt ← call SNow;
  stage_output ctx rq (mkCheck CheckPassed checkedAt "") expiresAt.

(** *** The directory afterwards *)

(** Files that were there are as they were. *)
Definition kept (d : directory) (l : list (event seff)) (σ : StageState) : Prop := d ⊆ ss_directory σ ∧ l ⊆ ss_log σ.

Definition stored (rq : Request) (bytes : content) (d : directory) (l : list (event seff)) (r : result string) (σ : StageState) : Prop :=
  kept d l σ ∧
  ∀ ref, r = Ok ref → ref = "" ∨
    (ref = "ref:staging/" +:+ staging_key rq ∧ d !! staging_name rq = None ∧ ss_directory σ = <[staging_name rq := bytes]> d).

Lemma kept_read d l d' l' ev : kept d l (mkStageState d' l') → kept d l (mkStageState d' (ev :: l')).
Proof using Type. clear. intros [? ?]. split; [done|]. cbn in *. set_solver. Qed.
#[local] Hint Resolve kept_read : go.

Lemma sp_remove {A} name (k : result unit → sprog A) Q d l d' l' :
  d !! name = None → kept d l (mkStageState d' l') → (∀ x d'' l'', kept d l (mkStageState d'' l'') → sp d (k x) Q (mkStageState d'' l'')) →
  sp d (Vis (SRemove name) k) Q (mkStageState d' l').
Proof using Type.
  clear. intros Hn [Hd Hl] Hk. apply sp_call. intros x d'' Hd''.
  assert (Hd0 : d ⊆ d''); [|split; [done|]; apply Hk; split; [done|]; cbn in *; set_solver]. cbn in *.
  destruct x as [u|e]; subst d''; [|done]. rewrite <- (delete_id d name) by done. by apply delete_mono.
Qed.

Lemma clean_up_spec {A} temporary e (Q : result A → StageState → Prop) d l d' l' :
  d !! temporary = None → kept d l (mkStageState d' l') → (∀ σ', kept d l σ' → Q (Err e) σ') → sp d (clean_up temporary e) Q (mkStageState d' l').
Proof using Type. clear. intros Ht Hk HQ. apply (sp_remove temporary _ _ d l); [done|done|]. intros x d'' l'' Hk'. by apply HQ. Qed.

Lemma stored_err rq bytes d l e σ : kept d l σ → stored rq bytes d l (Err e) σ.
Proof using Type. by split. Qed.
Lemma stored_none rq bytes d l σ : kept d l σ → stored rq bytes d l (Ok "") σ.
Proof using Type. intros ?. split; [done|]. intros ref [= <-]. by left. Qed.

Lemma sync_directory_spec ctx rq bytes d l l' :
  kept d l (mkStageState (<[staging_name rq := bytes]> d) l') → d !! staging_name rq = None →
  sp d (sync_directory ctx rq) (stored rq bytes d l) (mkStageState (<[staging_name rq := bytes]> d) l').
Proof using Type.
  intros Hk Hn. pose proof (proj1 Hk : d ⊆ <[staging_name rq := bytes]> d) as Hsub. unfold sync_directory.
  apply sp_read; [done|]. intros [u|e].
  2: { apply (sp_remove _ _ _ d l); [done|by apply kept_read|]. intros x d1 l1 H1. by apply stored_err. }
  apply sp_read; [done|]. intros syncErr. apply sp_read; [done|]. intros closeErr. cbv zeta. set (errors := [_; _]).
  assert (Hend : ∀ ctxErr l4, kept d l (mkStageState (<[staging_name rq := bytes]> d) l4) →
    sp d (if decide (is_Some (ArtifactApplication.Join (errors ++ [ctxErr]))) then
          ignoring (SRemove (staging_name rq)) (last ← call (SCtxErr ctx);
            Ret (match ArtifactApplication.Join (errors ++ [last]) with Some e => Err e | None => Ok "" end))
        else Ret (Ok ("ref:staging/" +:+ staging_key rq))) (stored rq bytes d l) (mkStageState (<[staging_name rq := bytes]> d) l4)).
  { intros ctxErr l4 Hk4. case_decide.
    - apply (sp_remove _ _ _ d l); [done|done|]. intros x d5 l5 H5. apply sp_read; [split; [done|apply H5]|]. intros last.
      destruct (ArtifactApplication.Join (errors ++ [last])); [apply stored_err|apply stored_none]; by apply kept_read.
    - split; [done|]. intros ref [= <-]. by right. }
  apply sp_bind. destruct (ArtifactApplication.Join errors); [by apply Hend; auto with go|].
  apply sp_read; [done|]. intros ctxErr. apply Hend. auto with go.
Qed.


(** A temporary name is not the name of an artifact. *)
Lemma hex_encode_no_dot s t : hex_encode s ≠ String "." t.
Proof using Type. destruct s as [|[[] [] [] [] [] [] [] []] s]; cbn; discriminate. Qed.

Lemma temporary_distinct random rq : temporary_name random ≠ staging_name rq.
Proof using Type.
  unfold temporary_name, staging_name. destruct (staging_key rq) as [|c key] eqn:E; [discriminate|].
  intros [= <- _]. unfold staging_key in E. by apply hex_encode_no_dot in E.
Qed.

Lemma publish_spec ctx rq bytes temporary d l l' :
  temporary ≠ staging_name rq → d !! temporary = None → l ⊆ l' →
  sp d (publish ctx rq temporary) (stored rq bytes d l) (mkStageState (<[temporary := bytes]> d) l').
Proof using Type.
  intros Hne Ht Hl. assert (Hk : kept d l (mkStageState (<[temporary := bytes]> d) l')) by (split; [by apply insert_subseteq|done]).
  unfold publish. apply sp_call. cbn. intros [u|e] d1 Hd1.
  2: { subst d1. split; [apply Hk|]. apply (clean_up_spec _ _ _ d l); [done|by apply kept_read|]. intros. by apply stored_err. }
  destruct Hd1 as (Hnone & c & Hc & ->). rewrite lookup_insert_eq in Hc. injection Hc as <-.
  rewrite lookup_insert_ne in Hnone by done.
  assert (Hk1 : ∀ l1, l ⊆ l1 → kept d l (mkStageState (<[staging_name rq := bytes]> (<[temporary := bytes]> d)) l1)).
  { intros l1 ?. split; [|done]. cbn. transitivity (<[temporary := bytes]> d); apply insert_subseteq; [done|by rewrite lookup_insert_ne]. }
  split; [apply (Hk1 _ (reflexivity l))|]. apply sp_call. cbn. intros [u'|e] d2 ->.
  - rewrite delete_insert_ne by done. rewrite delete_insert_id by done. split; [by apply insert_subseteq|].
    apply sync_directory_spec; [|done]. apply kept_read, kept_read. split; [by apply insert_subseteq|done].
  - split; [apply (Hk1 _ (reflexivity l))|]. apply (sp_remove _ _ _ d l); [done|apply kept_read, kept_read; by apply Hk1|]. intros x d3 l3 H3.
    apply (clean_up_spec _ _ _ d l); [done|done|]. intros. by apply stored_err.
Qed.

Lemma stageBytes_spec ctx rq bytes d l : sp d (stageBytes ctx rq bytes) (stored rq bytes d l) (mkStageState d l).
Proof using Type.
  assert (H0 : kept d l (mkStageState d l)) by done. unfold stageBytes.
  apply sp_read; [done|]. intros [u|e]; [|by apply stored_err, kept_read].
  apply sp_read; [done|]. intros [random|e]; [|by apply stored_err, kept_read, kept_read]. cbv zeta.
  set (temporary := temporary_name random).
  pose proof (temporary_distinct random rq) as Hne. fold temporary in Hne.
  apply sp_call. cbn -[writeAll]. intros [u1|e] d1 Hd1; [|subst d1; split; [done|]; by apply stored_err, kept_read, kept_read, kept_read].
  destruct Hd1 as [Ht ->]. split; [by apply insert_subseteq|]. set (l1 := Ev (SOpenFile temporary) _ :: _).
  assert (Hl1 : l ⊆ l1) by (unfold l1; intros ev Hev; by do 3 right).
  apply sp_bind. eapply sp_mono; [|apply (writeAll_spec (length bytes) ctx temporary bytes [] d l1); done].
  cbn. intros r [d2 l2] (w & Hd2 & Hl2 & Hw). cbn in Hd2, Hl2. subst d2.
  assert (Hk : kept d l (mkStageState (<[temporary := w]> d) l2)) by (split; [by apply insert_subseteq|cbn; by etransitivity]).
  assert (Hbad : ∀ e l3, kept d l (mkStageState (<[temporary := w]> d) l3) → sp d (clean_up temporary e) (stored rq bytes d l) (mkStageState (<[temporary := w]> d) l3)).
  { intros e l3 H3. apply (clean_up_spec _ _ _ d l); [done|done|]. intros. by apply stored_err. }
  pose proof (proj1 Hk : d ⊆ <[temporary := w]> d) as Hsub.
  destruct r as [[]|e]; [|apply sp_read; [done|]; intros; apply Hbad; by apply kept_read].
  rewrite (Hw eq_refl) in *. apply sp_read; [done|]. intros [u2|e].
  2: { apply sp_read; [done|]. intros. apply Hbad. by apply kept_read, kept_read. }
  apply sp_read; [done|]. intros [u3|e]; [|apply Hbad; by apply kept_read, kept_read].
  apply sp_read; [done|]. intros [e|]; [apply Hbad; by apply kept_read, kept_read, kept_read|].
  apply publish_spec; [done|done|]. intros ev Hev. do 3 right. by apply (proj2 Hk).
Qed.

(** *** What staged evidence stands for *)

(** The calls that vouch for the bytes. *)
Record vouched (rq : Request) (bytes : content) (l : list (event seff)) : Prop := mkVouched {
  vo_tenant : ∃ ctx, Ev (SCheckTenantBinding ctx rq) (Ok CheckPassed) ∈ l;
  vo_output : ∃ ctx, Ev (SOpenOutput ctx (aq_SandboxID rq) (aq_ExpectedGeneration rq) (aq_SourcePath rq))
                       (Ok (mkOutput true (Z.of_nat (length bytes)))) ∈ l;
  vo_read : Ev SReadAll (Ok bytes) ∈ l;
  vo_active : ∃ ctx, Ev (SCheckContent ActiveContent ctx rq bytes) (Ok CheckPassed) ∈ l;
  vo_malware : ∃ ctx, Ev (SCheckContent Malware ctx rq bytes) (Ok CheckPassed) ∈ l;
}.

(** The bytes are the ones that were asked for. *)
Definition requested (rq : Request) (bytes : content) : Prop :=
  digest bytes = aq_ExpectedDigest rq ∧ detectMediaType (aq_SourcePath rq) bytes = aq_ExpectedMediaType rq ∧
  Z.of_nat (length bytes) ≤ aq_MaxBytes rq.

Definition genuine (rq : Request) (expiresAt : Time) (d : directory) (e : Evidence) (σ : StageState) : Prop :=
  ∃ bytes, vouched rq bytes (ss_log σ) ∧ requested rq bytes ∧
    d !! staging_name rq = None ∧ ss_directory σ = <[staging_name rq := bytes]> d ∧
    ev_StagingReference e = "ref:staging/" +:+ staging_key rq ∧ ev_ExpiresAt e = expiresAt ∧
    Evidence_Validate e (ev_ObservedAt e) = Ok () ∧ evidenceMatchesRequest e rq = true.

(** The outcome of a stage: existing files are kept, and staged evidence is genuine. *)
Definition stage_post (rq : Request) (expiresAt : Time) (d : directory) (l : list (event seff)) (r : result Evidence) (σ : StageState) : Prop :=
  kept d l σ ∧ ∀ e, r = Ok e → ev_Status e = StatusStaged → genuine rq expiresAt d e σ.

Lemma finishEvidence_Ok e st e' :
  finishEvidence e st = Ok e' → ∃ dg, e' = set_status e st dg ∧ Evidence_Validate e' (ev_ObservedAt e') = Ok ().
Proof using Type. unfold finishEvidence. intros H. inv_ok H. destruct x. eauto. Qed.

Lemma stage_post_err rq x d l err σ : kept d l σ → stage_post rq x d l (Err err) σ.
Proof using Type. by split. Qed.

Lemma stage_post_rejected rq x d l e σ : kept d l σ → stage_post rq x d l (finishEvidence e StatusRejected) σ.
Proof using Type. intros Hk. split; [done|]. intros e' (dg & -> & _)%finishEvidence_Ok. done. Qed.

(** Evidence as it is collected: for the request, with the tenant's check passed. *)
Definition collected (rq : Request) (bytes : content) (expiresAt : Time) (e : Evidence) : Prop :=
  ev_OperationID e = aq_OperationID rq ∧ ev_AttemptID e = aq_AttemptID rq ∧ ev_FencingToken e = aq_FencingToken rq ∧
  ev_SandboxID e = aq_SandboxID rq ∧ ev_ArtifactReference e = aq_ArtifactReference rq ∧ ev_ContentDigest e = digest bytes ∧
  ev_MediaType e = detectMediaType (aq_SourcePath rq) bytes ∧ ev_SizeBytes e = Z.of_nat (length bytes) ∧ ev_ExpiresAt e = expiresAt.

Lemma collected_matches rq bytes x e :
  collected rq bytes x e → requested rq bytes → x ≤ aq_Deadline rq → evidenceMatchesRequest e rq = true.
Proof using Type.
  intros (H1&H2&H3&H4&H5&H6&H7&H8&H9) (G1&G2&G3) Hx. unfold evidenceMatchesRequest, After.
  rewrite decide_False by (rewrite H9; intros [?|[?|[?|[?|[?|?]]]]]; [done..|lia]). apply orb_true_iff. right. apply bool_decide_eq_true.
  rewrite H6, H7, H8. done.
Qed.

Section staging.
Context (rq : Request) (bytes : content) (expiresAt : Time) (d : directory) (l : list (event seff)).
Context (Hdeadline : expiresAt ≤ aq_Deadline rq) (Hreq : requested rq bytes).

Lemma store_checked_spec ctx e l' :
  collected rq bytes expiresAt e → vouched rq bytes l' → l ⊆ l' → sp d (store_checked ctx rq bytes e) (stage_post rq expiresAt d l) (mkStageState d l').
Proof using Hdeadline Hreq.
  intros Hc [[c1 H1] [c2 H2] H3 [c4 H4] [c5 H5]] Hl. assert (Hk : kept d l (mkStageState d l')) by done.
  apply sp_read; [done|]. intros [err|]; [by apply stage_post_err, kept_read|].
  set (l1 := _ :: l'). apply sp_bind. eapply sp_mono; [|apply (stageBytes_spec ctx rq bytes d l1)].
  cbn. intros [ref|err] [d2 l2] [[Hd2 Hl2] Href]; cbn in Hd2, Hl2; assert (Hk2 : kept d l (mkStageState d2 l2)) by (split; [done|cbn; intros ev Hev; apply Hl2; right; by apply Hl]); [|by apply stage_post_err].
  apply sp_read; [done|]. intros observedAt. case_decide; [by apply stage_post_err, kept_read|].
  split; [by apply kept_read|]. intros e' (dg & -> & Hv)%finishEvidence_Ok _.
  assert (Hsub : ∀ ev, ev ∈ l' → ev ∈ Ev SNow observedAt :: l2) by (intros ev Hev; right; apply Hl2; by right).
  cbn in Href. destruct (Href ref eq_refl) as [->|(-> & Hnone & Hd)].
  - exfalso. unfold Evidence_Validate, refuse in Hv. crack Hv. naive_solver.
  - exists bytes. split_and!; try done.
    + split; [exists c1|exists c2| |exists c4|exists c5]; by apply Hsub.
    + by destruct Hc as (?&?&?&?&?&?&?&?&?).
    + by eapply collected_matches.
Qed.

Lemma check_malware_spec ctx e l' c1 c2 c4 :
  collected rq bytes expiresAt e → l ⊆ l' → Ev (SCheckTenantBinding c1 rq) (Ok CheckPassed) ∈ l' →
  Ev (SOpenOutput c2 (aq_SandboxID rq) (aq_ExpectedGeneration rq) (aq_SourcePath rq)) (Ok (mkOutput true (Z.of_nat (length bytes)))) ∈ l' →
  Ev SReadAll (Ok bytes) ∈ l' → Ev (SCheckContent ActiveContent c4 rq bytes) (Ok CheckPassed) ∈ l' →
  sp d (check_malware ctx rq bytes e) (stage_post rq expiresAt d l) (mkStageState d l').
Proof using Hdeadline Hreq.
  intros Hc Hl H1 H2 H3 H4. assert (Hk : kept d l (mkStageState d l')) by done.
  apply sp_read; [done|]. intros checkedAt. apply sp_read; [done|]. intros [status|err]; [|by apply stage_post_err, kept_read, kept_read].
  apply sp_read; [done|]. intros observedAt. case_decide; [by apply stage_post_err, kept_read, kept_read, kept_read|]. cbv zeta.
  case_decide as Hp; [by apply stage_post_rejected, kept_read, kept_read, kept_read|]. 
  apply store_checked_spec; [done| |intros ev Hev; do 3 right; by apply Hl].
  split; [exists c1|exists c2| |exists c4|exists ctx]; try (do 3 right; done). right. rewrite Hp. left.
Qed.

Lemma check_active_spec ctx e l' c1 c2 :
  collected rq bytes expiresAt e → l ⊆ l' → Ev (SCheckTenantBinding c1 rq) (Ok CheckPassed) ∈ l' →
  Ev (SOpenOutput c2 (aq_SandboxID rq) (aq_ExpectedGeneration rq) (aq_SourcePath rq)) (Ok (mkOutput true (Z.of_nat (length bytes)))) ∈ l' →
  Ev SReadAll (Ok bytes) ∈ l' →
  sp d (check_active ctx rq bytes e) (stage_post rq expiresAt d l) (mkStageState d l').
Proof using Hdeadline Hreq.
  intros Hc Hl H1 H2 H3. assert (Hk : kept d l (mkStageState d l')) by done.
  apply sp_read; [done|]. intros checkedAt. apply sp_read; [done|]. intros [status|err]; [|by apply stage_post_err, kept_read, kept_read].
  apply sp_read; [done|]. intros observedAt. case_decide; [by apply stage_post_err, kept_read, kept_read, kept_read|]. cbv zeta.
  case_decide as Hp; [by apply stage_post_rejected, kept_read, kept_read, kept_read|].
  eapply (check_malware_spec ctx _ _ c1 c2 ctx); try (do 3 right; done); [done|intros ev Hev; do 3 right; by apply Hl|].
  right. rewrite Hp. left.
Qed.
End staging.

Lemma stage_output_spec ctx rq tenant expiresAt d l l' c1 :
  expiresAt ≤ aq_Deadline rq → l ⊆ l' → Ev (SCheckTenantBinding c1 rq) (Ok CheckPassed) ∈ l' →
  sp d (stage_output ctx rq tenant expiresAt) (stage_post rq expiresAt d l) (mkStageState d l').
Proof using Type.
  intros Hx Hl H1. assert (Hk : kept d l (mkStageState d l')) by done. unfold stage_output.
  apply sp_read; [done|]. intros [[present size]|err]; [|by apply stage_post_err, kept_read].
  case_decide as Hout; [by apply stage_post_err, kept_read|]. apply not_or_split in Hout as [Hp Hout]. cbn in Hp.
  apply sp_read; [done|]. intros [bytes|err]; [|by apply stage_post_err, kept_read, kept_read].
  unfold stage_content. case_decide as Hlen; [by apply stage_post_err, kept_read, kept_read|].
  apply not_or_split in Hlen as [Hlen _]. apply dec_stable in Hlen. cbn in Hlen. subst size. apply not_false_is_true in Hp as ->.
  apply sp_read; [done|]. intros [err|]; [by apply stage_post_err, kept_read, kept_read, kept_read|].
  apply sp_read; [done|]. intros observedAt. case_decide; [by apply stage_post_err, kept_read, kept_read, kept_read, kept_read|]. cbv zeta.
  destruct (contentMatches _ rq) eqn:Em; [|by apply stage_post_rejected, kept_read, kept_read, kept_read, kept_read].
  apply bool_decide_eq_true in Em. cbn in Em. eapply (check_active_spec rq bytes expiresAt d l Hx _ ctx _ _ c1 ctx).
  - done.
  - intros ev Hev. do 4 right. by apply Hl.
  - by do 4 right.
  - do 3 right. left.
  - do 2 right. left.
  Unshelve. destruct Em as (?&?&?). by split_and!.
Qed.

Lemma CheckSupport_spec s ctx rq d l :
  sp d (CheckSupport s ctx rq) (λ _ σ, ss_directory σ = d ∧ l ⊆ ss_log σ) (mkStageState d l).
Proof using Type.
  assert (Hsub : ∀ l' ev, l ⊆ l' → l ⊆ ev :: l') by (intros l' ev H x Hx; right; by apply H).
  assert (Hsup : ∀ c l' (k : result unit → sprog (result unit)), l ⊆ l' →
    (∀ x l', l ⊆ l' → sp d (k x) (λ _ σ, ss_directory σ = d ∧ l ⊆ ss_log σ) (mkStageState d l')) →
    sp d (support_of s ctx rq c ≫= k) (λ _ σ, ss_directory σ = d ∧ l ⊆ ss_log σ) (mkStageState d l')).
  { intros c l' k Hl Hk. apply sp_bind. unfold support_of. destruct (st_supports s c); [|by apply Hk].
    apply sp_read; [done|]. intros x. by apply Hk, Hsub. }
  unfold CheckSupport. destruct ctx; [done|..].
  all: case_decide; [done|]; apply sp_read; [done|]; intros [err|]; [split; [done|by apply Hsub]|];
    apply Hsup; [by apply Hsub|]; intros [[]|err] l1 H1; [|done];
    apply Hsup; [done|]; intros [[]|err] l2 H2; [|done];
    apply sp_read; [done|]; intros dir; split; [done|by apply Hsub].
Qed.

Lemma Stage_spec s ctx rq acceptedAt d l :
  sp d (Stage s ctx rq acceptedAt) (stage_post rq (ExpiresAt rq acceptedAt) d l) (mkStageState d l).
Proof using Type.
  unfold Stage. apply sp_bind. eapply sp_mono; [|apply (CheckSupport_spec s ctx rq d l)].
  cbn. intros r [d1 l1] [Hd Hl]. cbn in Hd, Hl. subst d1. assert (Hk : kept d l (mkStageState d l1)) by done.
  destruct r as [[]|err]; [|by apply stage_post_err].
  apply sp_read; [done|]. intros now. case_decide as Hg; [by apply stage_post_err, kept_read|].
  apply not_or_split in Hg as [Hv _]. apply not_false_is_true in Hv.
  assert (Hx : ExpiresAt rq acceptedAt ≤ aq_Deadline rq).
  { apply unit_ok in Hv. unfold Request_Validate, refuse, After in Hv. crack Hv. unfold ExpiresAt. lia. }
  cbv zeta. apply sp_read; [done|]. intros [status|err]; [|by apply stage_post_err, kept_read, kept_read].
  case_decide as Hp; [by apply stage_post_err, kept_read, kept_read|]. apply sp_read; [done|]. intros checkedAt.
  eapply stage_output_spec; [done|intros ev Hev; do 3 right; by apply Hl|]. right. rewrite Hp. left.
Qed.

(** Whatever the ports of the stager answer, whichever system call fails and wherever
    the call stops, no file that was in the directory is lost or changed; and when
    [Stage] returns evidence that an artifact was staged, the evidence is genuine. *)
Lemma Stage_exec s ctx rq acceptedAt d l o σ' :
  exec (@stage_respond) nobody (Stage s ctx rq acceptedAt) (mkStageState d l) o σ' →
  d ⊆ ss_directory σ' ∧
  ∀ e, o = Some (Ok e) → ev_Status e = StatusStaged → genuine rq (ExpiresAt rq acceptedAt) d e σ'.
Proof using Type.
  intros Hx. assert (H0 : d ⊆ ss_directory (mkStageState d l)) by done.
  destruct (safe_exec (@stage_respond) nobody (λ σ, d ⊆ ss_directory σ) _ _ _ _ _ H0 (Stage_spec s ctx rq acceptedAt d l) Hx) as [Hd Hpost].
  split; [done|]. intros e He. by apply (Hpost _ He).
Qed.
End stager.

(** * Staged artifacts, end to end

    The artifact application wired to the private stager, as the server wires them:
    an operation that is on record as succeeded stands for bytes that were checked. *)

Section staged.
Context (sha256 : content → string) (evidence_json : Evidence → content).
Context (TypeByExtension : string → string) (DetectContentType : content → string) (ParseMediaType : string → option string).

Abbreviation Stage := (Stage sha256 evidence_json TypeByExtension DetectContentType ParseMediaType).
Abbreviation requested := (requested sha256 TypeByExtension DetectContentType ParseMediaType).
Abbreviation staging_name := (staging_name sha256).
Abbreviation staging_key := (staging_key sha256).

(** *** The calls that the stager served

    One after the other, as the lock of the application has them, on one directory;
    any of them may have been cut off by a crash, and then it has no answer.  Each
    call comes with what it asked its ports and what these answered. *)

Record stage_call := mkStageCall { sc_request : Request; sc_acceptedAt : Time; sc_answer : option (result Evidence); sc_log : list (event seff) }.

Inductive stager_history : list stage_call → directory → Prop :=
  | stager_new d : stager_history [] d
  | stager_call h d s c rq at_ o τ :
      stager_history h d → exec (@stage_respond) nobody (Stage s c rq at_) (mkStageState d []) o τ →
      stager_history (mkStageCall rq at_ o (ss_log τ) :: h) (ss_directory τ).

(** A call that staged: its checks passed on bytes that were asked for, and that are
    in the directory under the name of the request. *)
Definition staged_by (d : directory) (c : stage_call) (e : Evidence) (bytes : content) : Prop :=
  let rq := sc_request c in
  sc_answer c = Some (Ok e) ∧ vouched rq bytes (sc_log c) ∧ requested rq bytes ∧ d !! staging_name rq = Some bytes ∧
  ev_StagingReference e = "ref:staging/" +:+ staging_key rq ∧ ev_ExpiresAt e = ExpiresAt rq (sc_acceptedAt c) ∧
  Evidence_Validate e (ev_ObservedAt e) = Ok () ∧ evidenceMatchesRequest e rq = true.

(** What was staged stays in the directory whatever is staged later. *)
Lemma history_staged h d c e :
  stager_history h d → c ∈ h → sc_answer c = Some (Ok e) → ev_Status e = StatusStaged → ∃ bytes, staged_by d c e bytes.
Proof using Type.
  induction 1 as [d|h d s ctx rq at_ o τ Hh IH Hx]; [set_solver|]. intros [-> | Hc]%elem_of_cons He Hst.
  - cbn in He. subst o. destruct (Stage_exec _ _ _ _ _ _ _ _ _ _ _ _ _ Hx) as [_ Hg].
    destruct (Hg e eq_refl Hst) as (bytes & Hv & Hr & _ & Hd & Href & Hex & Hval & Hm). exists bytes.
    split_and!; try done. cbn. by rewrite Hd, lookup_insert_eq.
  - destruct (IH Hc He Hst) as (bytes & Ha & Hv & Hr & Hd & Hrest). exists bytes. split; [done|]. split; [done|]. split; [done|]. split; [|done].
    eapply lookup_weaken; [done|]. by apply (Stage_exec _ _ _ _ _ _ _ _ _ _ _ _ _ Hx).
Qed.

(** Evidence that the stager port returned is the answer of one of these calls. *)
Definition from_stager (h : list stage_call) (ev : event eff) : Prop :=
  let '@Ev _ X e x := ev in
  match e in eff X return X → Prop with
  | EStage _ rq at_ => λ x, ∀ ev, x = Ok ev → ∃ log, mkStageCall rq at_ (Some (Ok ev)) log ∈ h
  | _ => λ _, True
  end x.

(** C9 (safety): over every interleaving of accepts, workers, recoveries and crashes, when the
    stager port is served by calls of the private stager on one staging directory,
    any of which may fail or be cut off anywhere, an operation on record as succeeded
    carries the evidence that one of these calls returned for its request: that call
    checked the tenant's binding, read these bytes from the requested output of the
    sandbox, had them passed by both content checkers, and they have the requested
    digest, media type and size; and the staging directory, after all the calls,
    still holds exactly these bytes under the name the evidence refers to. *)
Theorem succeeded_artifacts_were_checked σ ts h d k o :
  artifact_run σ ts → stager_history h d → Forall (from_stager h) (events ts) →
  Operations (sh_repo σ) !! k = Some o → ao_Status o = OperationSucceeded →
  ∃ c e bytes, c ∈ h ∧ sc_request c = ao_Request o ∧ sc_acceptedAt c = ao_AcceptedAt o ∧
    ao_Evidence o = Some e ∧ staged_for (ao_Request o) e ∧ staged_by d c e bytes.
Proof using Type.
  intros Hrun Hh Hst Hk Hs. destruct (artifact_history σ ts Hrun) as [_ Hev _ _ _].
  destruct (artifact_lawful σ ts Hrun) as [Hwf _]. destruct (aw_operation _ Hwf k o Hk) as (_ & Hv & _).
  destruct (succeeded_evidence o Hv Hs) as (e & He & Hfor). destruct (Hev k o e Hk He) as [ctx Hin].
  rewrite Forall_forall in Hst. destruct (Hst _ Hin e eq_refl) as [log Hc].
  destruct (history_staged h d _ e Hh Hc eq_refl) as [bytes Hb]; [by destruct Hfor|]. by exists (mkStageCall (ao_Request o) (ao_AcceptedAt o) (Some (Ok e)) log), e, bytes.
Qed.
End staged.

(** ** A sample: a stager over a directory that works *)

Module StagerRuns.
Definition raw : string := "abcdefghabcdefghabcdefghabcdefgh".
Definition sha (_ : content) : string := raw.
Definition json (_ : Evidence) : content := [].
Definition by_extension (_ : string) : string := "text/plain; charset=utf-8".
Definition parse (_ : string) : option string := Some "text/plain".
Definition bytes : content := to_bytes "hello".

Definition stager : Stager := mkStager true true true true true "/var/lib/staging" (λ _, false).

Definition log {X} (e : seff X) (x : X) (d : gmap string content) (σ : StageState) : X * StageState := (x, mkStageState d (Ev e x :: ss_log σ)).

Definition stage_handle {X} (e : seff X) (σ : StageState) : X * StageState :=
  let d := ss_directory σ in
  match e in seff X return X * StageState with
  | SNow => log SNow 20 d σ
  | SCtxErr c => log (SCtxErr c) None d σ
  | SCheckSupport c x rq => log (SCheckSupport c x rq) (Ok ()) d σ
  | SCheckTenantBinding c rq => log (SCheckTenantBinding c rq) (Ok CheckPassed) d σ
  | SOpenOutput c sb g path => log (SOpenOutput c sb g path) (Ok (mkOutput true 5)) d σ
  | SReadAll => log SReadAll (Ok bytes) d σ
  | SCheckContent c x rq b => log (SCheckContent c x rq b) (Ok CheckPassed) d σ
  | SLstatRoot => log SLstatRoot true d σ
  | SOpenRoot => log SOpenRoot (Ok ()) d σ
  | SRand => log SRand (Ok "0123456789abcdef") d σ
  | SOpenFile name =>
      match d !! name with
      | None => log (SOpenFile name) (Ok ()) (<[name := []]> d) σ
      | Some _ => log (SOpenFile name) (Err [ErrExternal "exists"]) d σ
      end
  | SWrite name chunk => log (SWrite name chunk) (Ok (length chunk)) (append_file name (take (length chunk) chunk) d) σ
  | SSync name => log (SSync name) (Ok ()) d σ
  | SCloseFile name => log (SCloseFile name) (Ok ()) d σ
  | SLink from to =>
      match d !! to, d !! from with
      | None, Some c => log (SLink from to) (Ok ()) (<[to := c]> d) σ
      | _, _ => log (SLink from to) (Err [ErrExternal "link"]) d σ
      end
  | SRemove name => log (SRemove name) (Ok ()) (delete name d) σ
  | SOpenDirectory => log SOpenDirectory (Ok ()) d σ
  | SSyncDirectory => log SSyncDirectory (Ok ()) d σ
  | SCloseDirectory => log SCloseDirectory (Ok ()) d σ
  end.

Lemma stage_handle_responds {X} (e : seff X) σ : stage_respond e σ (stage_handle e σ).1 (stage_handle e σ).2.
Proof.
  destruct e; try done; cbn.
  - destruct (ss_directory σ !! name) eqn:E; done.
  - destruct (ss_directory σ !! to) eqn:E1, (ss_directory σ !! from) eqn:E2; cbn; try done. split; [|done]. cbn. eauto.
Qed.

Definition empty : StageState := mkStageState ∅ [].
Definition staging (rq : Request) (at_ : Time) : result Evidence * StageState :=
  interp (@stage_handle) (ArtifactStager.Stage sha json by_extension (λ _, "") parse stager StageCaller rq at_) empty.

Definition request : Request :=
  mkRequest "box" "tenant" "op" "try" 7 1 "key" ArtifactSample.digest (100 * Second) "artifact-ref:out" "/outputs/a.txt"
    ("sha256:" +:+ hex_encode raw) "text/plain" 64 (10 * Second).

(** The one call of the sample: the request, as it was accepted. *)
Definition accepted : Time := 10.
Definition history : list stage_call := [mkStageCall request accepted (Some (staging request accepted).1) (ss_log (staging request accepted).2)].
Definition stored_files : gmap string content := ss_directory (staging request accepted).2.

Lemma history_run : stager_history sha json by_extension (λ _, "") parse history stored_files.
Proof.
  eapply stager_call; [apply stager_new|]. apply (interp_exec (@stage_respond) nobody (@stage_handle) id). intros. apply stage_handle_responds.
Qed.

Definition runtime : Runtime :=
  mkRuntime (λ rq at_, if decide (rq = request ∧ at_ = accepted) then (staging request accepted).1 else Err [ErrDeadlineExpired]) (λ _, Ok ()) (λ _, Ok ArtifactRuns.sandbox).

Definition calls : list (prog ()) :=
  artifact_prog ArtifactRuns.vertical <$> [ApiAccept CtxCaller request; ApiWorker "op"; ApiRecover CtxCaller].
Definition final : list (thread eff) * World := pool_enabled (@handle runtime) (@enabled) calls ArtifactRuns.world [].

Lemma staged_final_run : artifact_run (abs final.2) final.1.
Proof.
  apply (pool_sequence_enabled (@handle runtime) (@enabled) (@respond) artifact_spawn abs
           (λ X e w, artifact_handle_responds runtime e w) calls ArtifactRuns.world []).
  repeat (apply Forall_cons; split; [eexists _, _; reflexivity|]). apply Forall_nil_2.
Qed.

(** Whatever the composed ports answer for the stager, it gave. *)
Lemma handle_from_stager {X} (e : eff X) w : from_stager history (Ev e (handle runtime e w).1).
Proof. destruct e; try done. cbn. case_decide as H; [|done]. destruct H as [-> ->]. intros ev <-. eexists. left. Qed.

Lemma run_from_stager p w tr :
  Forall (from_stager history) tr → Forall (from_stager history) (th_trace (run_enabled (@handle runtime) (@enabled) p w tr).1).
Proof.
  revert w tr. induction p as [a|X e k IH]; intros w tr Htr; cbn; [done|]. destruct (enabled e w); [|done].
  pose proof (handle_from_stager e w) as He. destruct (handle runtime e w) as [x w']. by apply IH, Forall_cons.
Qed.

Lemma final_from_stager : Forall (from_stager history) (events final.1).
Proof.
  unfold final. cut (∀ ps w ts, Forall (from_stager history) (events ts) →
    Forall (from_stager history) (events (pool_enabled (@handle runtime) (@enabled) ps w ts).1)).
  { intros H. apply H. constructor. }
  induction ps as [|p ps IH]; intros w ts Hts; cbn; [done|].
  pose proof (run_from_stager p w [] (Forall_nil_2 _)) as Hp. destruct (run_enabled _ _ p w []) as [th w']. apply IH.
  unfold events in *. cbn. by apply Forall_app.
Qed.
End StagerRuns.

Lemma succeeded_artifacts_were_checked_witness :
  ∃ o c e bytes, Operations (sh_repo (abs StagerRuns.final.2)) !! "op" = Some o ∧ c ∈ StagerRuns.history ∧ sc_request c = StagerRuns.request ∧
    ao_Evidence o = Some e ∧ staged_for StagerRuns.request e ∧
    staged_by StagerRuns.sha StagerRuns.by_extension (λ _, "") StagerRuns.parse StagerRuns.stored_files c e bytes.
Proof.
  destruct (Operations (sh_repo (abs StagerRuns.final.2)) !! "op") as [o|] eqn:Eo; [|vm_compute in Eo; discriminate].
  assert (Hs : ao_Status o = OperationSucceeded ∧ ao_Request o = StagerRuns.request) by (vm_compute in Eo; injection Eo as <-; split; reflexivity).
  destruct Hs as [Hs Hr].
  destruct (succeeded_artifacts_were_checked StagerRuns.sha StagerRuns.json StagerRuns.by_extension (λ _, "") StagerRuns.parse
    _ _ _ _ "op" o StagerRuns.staged_final_run StagerRuns.history_run StagerRuns.final_from_stager Eo Hs) as (c & e & bytes & Hc & Hrq & _ & He & Hf & Hg).
  exists o, c, e, bytes. rewrite Hr in Hf, Hrq. exact (conj eq_refl (conj Hc (conj Hrq (conj He (conj Hf Hg))))).
Defined.
