(* ===== verification/Operations.v ===== *)
(** * Operation views: [provider/operation]

    Every family of operations (lifecycle, exec, sessions, artifacts, browser and
    desktop sessions) is read through a [Reader] that projects an operation of the
    family to a [View]; the [Aggregator] asks all of them and answers only when
    exactly one knows the operation.  A reader is a program over the ports of its
    family, whatever these are ([E]); contexts are those of the families, so the
    aggregator only sees whether its context is nil. *)

From S2P Require Import Prelude Program LifecycleModel ExecModel SessionModel SessionInvariant SessionVertical ArtifactModel ArtifactInvariant.
From stdpp Require Import base gmap strings list fin_maps relations.
From Stdlib Require Import ZArith Lia.

Local Open Scope Z_scope.

Definition operation_error (name : string) : sentinel := SNamed "operation" name.
Definition ErrNotFound : sentinel := operation_error "ErrNotFound".
Definition ErrConflict : sentinel := operation_error "ErrConflict".
Definition ErrUnavailable : sentinel := operation_error "ErrUnavailable".
Definition ErrInvalidView : sentinel := operation_error "ErrInvalidView".

Definition resultReferencePattern (s : string) : bool := ExecModel.referencePattern s.

(** ** Types and states

    [Type] and [Status] are strings with these constants. *)

Definition TypeCreate : string := "create".
Definition TypeExtendLease : string := "extend_lease".
Definition TypeExec : string := "exec".
Definition TypeCancelExec : string := "cancel_exec".
Definition TypeSuspend : string := "suspend".
Definition TypeResume : string := "resume".
Definition TypeTerminate : string := "terminate".
Definition TypeRuntimeSession : string := "open_runtime_session".
Definition TypeCloseRuntimeSession : string := "close_runtime_session".
Definition TypeBrowserSession : string := "open_browser_session".
Definition TypeDesktopSession : string := "open_desktop_session".
Definition TypeCloseDesktopSession : string := "close_desktop_session".
Definition TypeArtifactStage : string := "artifact_stage".

Definition ViewAccepted : string := "accepted".
Definition ViewRunning : string := "running".
Definition ViewSucceeded : string := "succeeded".
Definition ViewFailed : string := "failed".
Definition ViewCancelled : string := "cancelled".
Definition ViewOutcomeUnknown : string := "outcome_unknown".

Definition types : list string :=
  [TypeCreate; TypeExtendLease; TypeExec; TypeCancelExec; TypeSuspend; TypeResume; TypeTerminate; TypeRuntimeSession;
   TypeCloseRuntimeSession; TypeBrowserSession; TypeDesktopSession; TypeCloseDesktopSession; TypeArtifactStage].
Definition statuses : list string :=
  [ViewAccepted; ViewRunning; ViewSucceeded; ViewFailed; ViewCancelled; ViewOutcomeUnknown].

Record ViewFailure := mkViewFailure { vf_Code : string; vf_Retryable : bool; vf_Outcome : string }.

Record View := mkView {
  vw_OperationID : string;
  vw_AttemptID : string;
  vw_FencingToken : Z;
  vw_SandboxID : string;
  vw_Type : string;
  vw_Status : string;
  vw_ProviderOperationID : string;
  vw_ResultReference : string;
  vw_ObservedAt : Time;
  vw_Failure : option ViewFailure;
}.

#[export] Instance ViewFailure_eq_dec : EqDecision ViewFailure.
Proof. solve_decision. Defined.
#[export] Instance View_eq_dec : EqDecision View.
Proof. solve_decision. Defined.

Definition invalid_view {A} : result A := Err [ErrInvalidView].

Definition View_Validate (v : View) : result unit :=
  if decide (vw_OperationID v = "" ∨ vw_AttemptID v = "" ∨ vw_SandboxID v = "" ∨ vw_FencingToken v < 1
             ∨ IsZero (vw_ObservedAt v)) then invalid_view else
  if decide (vw_ResultReference v ≠ "" ∧ resultReferencePattern (vw_ResultReference v) = false) then invalid_view else
  if decide (vw_Type v ∉ types) then invalid_view else
  if decide (vw_Status v ∉ statuses) then invalid_view else
  if decide (is_Some (vw_Failure v) ∧ vw_Status v ≠ ViewFailed ∧ vw_Status v ≠ ViewOutcomeUnknown) then invalid_view
  else Ok ().

(** ** Projections of the families *)

Definition OperationType_string (t : LifecycleModel.OperationType) : string :=
  match t with
  | LifecycleModel.OperationCreate => "create"
  | LifecycleModel.OperationExtendLease => "extend_lease"
  | LifecycleModel.OperationSuspend => "suspend"
  | LifecycleModel.OperationResume => "resume"
  | LifecycleModel.OperationTerminate => "terminate"
  | LifecycleModel.OperationTypeOther raw => raw
  end.

Definition FailureOutcome_string (o : LifecycleModel.FailureOutcome) : string :=
  match o with
  | LifecycleModel.FailureKnown => "known_failed"
  | LifecycleModel.FailureUnknown => "outcome_unknown"
  | LifecycleModel.FailureOther raw => raw
  end.

Definition session_status_string (s : SessionModel.Status) : string :=
  match s with
  | SessionModel.StatusAccepted => "accepted"
  | SessionModel.StatusRunning => "running"
  | SessionModel.StatusSucceeded => "succeeded"
  | SessionModel.StatusFailed => "failed"
  | SessionModel.StatusCancelled => "cancelled"
  | SessionModel.StatusOutcomeUnknown => "outcome_unknown"
  | SessionModel.StatusOther raw => raw
  end.

Definition artifact_status_string (s : ArtifactModel.OperationStatus) : string :=
  match s with
  | ArtifactModel.OperationAccepted => "accepted"
  | ArtifactModel.OperationRunning => "running"
  | ArtifactModel.OperationSucceeded => "succeeded"
  | ArtifactModel.OperationFailed => "failed"
  | ArtifactModel.OperationOutcomeUnknown => "outcome_unknown"
  | ArtifactModel.OperationOther raw => raw
  end.

Definition lifecycle_view (o : LifecycleModel.Operation) : View :=
  mkView (op_ID o) (op_AttemptID o) (i64 (op_FencingToken o)) (op_SandboxID o) (OperationType_string (op_Type o))
    (OperationState_string (op_State o)) (op_ID o) "" (op_ObservedAt o)
    ((λ f, mkViewFailure (fl_Code f) (fl_Retryable f) (FailureOutcome_string (fl_Outcome f))) <$> op_Failure o).

Definition session_view (o : SessionVertical.Operation) : View :=
  mkView (pn_OperationID o) (pn_AttemptID o) (pn_FencingToken o) (pn_SandboxID o)
    (match pn_Type o with
     | OperationCloseRuntimeSession => TypeCloseRuntimeSession
     | OperationOpenRuntimeSession => TypeRuntimeSession
     end) (session_status_string (pn_Status o)) (pn_OperationID o) "" (pn_ObservedAt o) None.

Definition artifact_view (o : ArtifactModel.Operation) : View :=
  let rq := ao_Request o in
  mkView (aq_OperationID rq) (aq_AttemptID rq) (aq_FencingToken rq) (aq_SandboxID rq) TypeArtifactStage
    (artifact_status_string (ao_Status o)) (aq_OperationID rq) "" (ao_ObservedAt o)
    (if decide (ao_Status o = ArtifactModel.OperationOutcomeUnknown)
     then Some (mkViewFailure "SANDBOX_ARTIFACT_OUTCOME_UNKNOWN" true "outcome_unknown") else None).

(** The operations of [provider/browser/application] and
    [provider/desktop/application]; their types and states are strings. *)
Record BrowserOperation := mkBrowserOperation {
  bo_OperationID : string; bo_AttemptID : string; bo_FencingToken : Z; bo_SandboxID : string; bo_Status : string;
  bo_ObservedAt : Time;
}.
Record DesktopOperation := mkDesktopOperation {
  do_OperationID : string; do_AttemptID : string; do_FencingToken : Z; do_SandboxID : string; do_Status : string;
  do_ObservedAt : Time; do_Type : string;
}.

Definition browser_view (o : BrowserOperation) : View :=
  mkView (bo_OperationID o) (bo_AttemptID o) (bo_FencingToken o) (bo_SandboxID o) TypeBrowserSession (bo_Status o)
    (bo_OperationID o) "" (bo_ObservedAt o) None.

Definition desktop_view (operationType : string) (o : DesktopOperation) : View :=
  mkView (do_OperationID o) (do_AttemptID o) (do_FencingToken o) (do_SandboxID o) operationType (do_Status o)
    (do_OperationID o) "" (do_ObservedAt o) None.

Section readers.
Context {E : Type → Type}.
Implicit Types readers : list (string → prog E (result View)).

Definition Reader : Type := string → prog E (result View).

(** What a reader makes of its family's answer: [missing] is the family's error for
    an unknown operation. *)
Definition read_family {O} (missing : sentinel) (GetOperation : string → prog E (result O)) (project : O → result View)
    : Reader := λ operationID,
  answer ← GetOperation operationID;
  match answer with
  | Err e => Ret (if errors_is e missing then Err [ErrNotFound] else Err e)
  | Ok operation => Ret (project operation)
  end.

(** [if err := ...; err != nil { return View{}, errors.Join(ErrUnavailable, err) }] *)
Definition unless_unavailable {A} (checked : result unit) (a : A) : result A :=
  match checked with Err e => Err (ErrUnavailable :: e) | Ok _ => Ok a end.

Definition LifecycleReader (GetOperation : string → prog E (result LifecycleModel.Operation)) : Reader :=
  read_family Prelude.ErrNotFound GetOperation (λ o, unless_unavailable (LifecycleModel.Operation_Validate o) (lifecycle_view o)).

Definition SessionReader (GetOperation : string → prog E (result SessionVertical.Operation)) : Reader :=
  read_family SessionModel.ErrNotFound GetOperation (λ o, unless_unavailable (View_Validate (session_view o)) (session_view o)).

Definition ArtifactReader (GetOperation : string → prog E (result ArtifactModel.Operation)) : Reader :=
  read_family ArtifactModel.ErrNotFound GetOperation
    (λ o, unless_unavailable (ArtifactModel.Operation_Validate o) (artifact_view o)).

(** [browserrepository.ErrNotFound], [desktoprepository.ErrNotFound] *)
Definition BrowserErrNotFound : sentinel := SNamed "browser/repository" "ErrNotFound".
Definition DesktopErrNotFound : sentinel := SNamed "desktop" "ErrAuthorityNotFound".

Definition BrowserSessionReader (GetOperation : string → prog E (result BrowserOperation)) : Reader :=
  read_family BrowserErrNotFound GetOperation (λ o, unless_unavailable (View_Validate (browser_view o)) (browser_view o)).

Definition DesktopSessionReader (GetOperation : string → prog E (result DesktopOperation)) : Reader :=
  read_family DesktopErrNotFound GetOperation (λ o,
    let project operationType :=
      unless_unavailable (View_Validate (desktop_view operationType o)) (desktop_view operationType o) in
    if decide (do_Type o = "close_desktop_session") then project TypeCloseDesktopSession else
    if decide (do_Type o ≠ "open_desktop_session") then Err [ErrUnavailable] else project TypeDesktopSession).

(** ** The aggregator *)

(** A nil reader is [None]. *)
Definition NewAggregator (readers : list (option Reader)) : result (list Reader) :=
  match mapM id readers with Some readers => Ok readers | None => Err [ErrUnavailable] end.

Fixpoint read_families (operationID : string) (readers : list Reader) (found : option View) : prog E (result View) :=
  match readers with
  | [] => Ret (match found with None => Err [ErrNotFound] | Some view => Ok view end)
  | reader :: readers =>
      answer ← reader operationID;
      match answer with
      | Err e => if errors_is e ErrNotFound then read_families operationID readers found else Ret (Err e)
      | Ok view =>
          match View_Validate view with
          | Err e => Ret (Err (ErrUnavailable :: e))
          | Ok _ =>
              if decide (vw_OperationID view ≠ operationID) then Ret (Err [ErrConflict; ErrInvalidView]) else
              match found with
              | Some _ => Ret (Err [ErrConflict])
              | None => read_families operationID readers (Some view)
              end
          end
      end
  end.

(** A nil aggregator is [None]. *)
Definition ReadOperation (a : option (list Reader)) (nil_context : bool) (operationID : string) : prog E (result View) :=
  match a with
  | None => Ret (Err [ErrUnavailable])
  | Some readers =>
      if decide (operationID = "") then Ret (Err [ErrUnavailable]) else
      if nil_context then Ret (Err [Canceled : sentinel]) else
      read_families operationID readers None
  end.

(** [newProviderOperationReader] of [cmd/serve.go]: the families that were
    configured, in this order; no reader at all when there are none. *)
Definition newProviderOperationReader (lifecycleApp : option (string → prog E (result LifecycleModel.Operation)))
    (execApp : option Reader) (sessionApp : option (string → prog E (result SessionVertical.Operation)))
    (artifactApp : option (string → prog E (result ArtifactModel.Operation)))
    (browserApp : option (string → prog E (result BrowserOperation))) : result (option (list Reader)) :=
  let readers := option_list (LifecycleReader <$> lifecycleApp) ++ option_list execApp
                 ++ option_list (SessionReader <$> sessionApp) ++ option_list (ArtifactReader <$> artifactApp)
                 ++ option_list (BrowserSessionReader <$> browserApp) in
  if decide (readers = []) then Ok None else
  a ← NewAggregator (Some <$> readers); Ok (Some a).
End readers.

(** * Guarantees of the operation aggregator

    The aggregator implements a specification that does not mention its loop: an
    answer is a view that exactly one family has.  What the families hold is
    readable through it. *)

(** A family that does not know the operation. *)
Definition missed (answer : result View) : Prop := ∃ e, answer = Err e ∧ errors_is e ErrNotFound = true.

Definition acceptable (operationID : string) (v : View) : Prop :=
  View_Validate v = Ok () ∧ vw_OperationID v = operationID.

(** One family answers with [v], all others miss. *)
Definition exactly_one (operationID : string) (v : View) (answers : list (result View)) : Prop :=
  acceptable operationID v ∧ ∃ before after, answers = before ++ Ok v :: after ∧ Forall missed (before ++ after).

Section aggregator.
Context {E : Type → Type} {C : Type}.
Context (respond : ∀ X, E X → C → X → C → Prop) (interfere : C → C → Prop).
Abbreviation runs p σ o σ' := (exec respond interfere p σ (Some o) σ').

Lemma exec_bind {A B} (p : prog E A) (f : A → prog E B) σ b σ' :
  runs (p ≫= f) σ b σ' ↔ ∃ a σ1, runs p σ a σ1 ∧ runs (f a) σ1 b σ'.
Proof.
  revert σ. induction p as [a|X e k IH]; intros σ; cbn.
  - split; [|by intros (a' & ? & [-> [?|?]] & ?); simplify_eq]. intros H. exists a, σ. auto.
  - split.
    + intros [[_ ?]|(σ0 & x & σ1 & Hi & Hr & Hx)]; [done|]. apply IH in Hx as (a & σ2 & ? & ?).
      exists a, σ2. split; [|done]. right. exists σ0, x, σ1. done.
    + intros (a & σ2 & [[_ ?]|(σ0 & x & σ1 & Hi & Hr & Hx)] & Hf); [done|]. right. exists σ0, x, σ1.
      split_and!; [done..|]. apply IH. eauto.
Qed.

(** Every reader runs once, one after the other. *)
Inductive answered (operationID : string) : list Reader → C → list (result View) → C → Prop :=
  | answered_nil σ : answered operationID [] σ [] σ
  | answered_cons reader readers σ answer σ1 answers σ' :
      runs (reader operationID) σ answer σ1 → answered operationID readers σ1 answers σ' →
      answered operationID (reader :: readers) σ (answer :: answers) σ'.

Lemma read_families_found id readers v σ w σ' :
  runs (read_families id readers (Some v)) σ (Ok w) σ' ↔
  w = v ∧ ∃ answers, answered id readers σ answers σ' ∧ Forall missed answers.
Proof.
  revert σ. induction readers as [|reader readers IH]; intros σ.
  - split; cbn.
    + intros [-> [?|?]]; simplify_eq. split; [done|]. exists []. split; [constructor|done].
    + intros [-> (answers & Ha & _)]. inversion Ha. auto.
  - cbn [read_families]. rewrite exec_bind. split.
    + intros ([view|e] & σ1 & Hr & Hk).
      * destruct (View_Validate view); [case_decide|]; cbn in Hk; naive_solver.
      * destruct (errors_is e ErrNotFound) eqn:He; [|cbn in Hk; naive_solver].
        apply IH in Hk as [-> (answers & Ha & Hm)]. split; [done|]. exists (Err e :: answers).
        split; [by econstructor|]. constructor; [by exists e|done].
    + intros [-> (answers & Ha & Hm)]. inversion Ha as [|? ? ? answer σ1 answers' ? Hr Ha']; subst.
      apply Forall_cons in Hm as [(e & -> & He) Hm]. exists (Err e), σ1. split; [done|]. rewrite He. apply IH. eauto.
Qed.

Lemma read_families_none id readers σ w σ' :
  runs (read_families id readers None) σ (Ok w) σ' ↔ ∃ answers, answered id readers σ answers σ' ∧ exactly_one id w answers.
Proof.
  revert σ. induction readers as [|reader readers IH]; intros σ.
  - split; [cbn; naive_solver|]. intros (answers & Ha & _ & before & after & -> & _). inversion Ha. by destruct before.
  - cbn [read_families]. rewrite exec_bind. split.
    + intros ([view|e] & σ1 & Hr & Hk).
      * destruct (View_Validate view) as [[]|] eqn:Hv; [|cbn in Hk; naive_solver].
        case_decide as Hid; [cbn in Hk; naive_solver|].
        apply read_families_found in Hk as [-> (answers & Ha & Hm)]. exists (Ok view :: answers).
        split; [by econstructor|]. split; [done|]. by exists [], answers.
      * destruct (errors_is e ErrNotFound) eqn:He; [|cbn in Hk; naive_solver].
        apply IH in Hk as (answers & Ha & Hacc & before & after & -> & Hm). exists (Err e :: before ++ Ok w :: after).
        split; [by econstructor|]. split; [done|]. exists (Err e :: before), after. split; [done|].
        constructor; [by exists e|done].
    + intros (answers & Ha & [Hv Hid] & before & after & -> & Hm).
      destruct before as [|answer before]; cbn in Ha, Hm; inversion Ha as [|? ? ? answer' σ1 answers' ? Hr Ha']; subst.
      * exists (Ok w), σ1. split; [done|]. rewrite Hv, decide_False by auto. apply read_families_found. eauto.
      * apply Forall_cons in Hm as [(e & -> & He) Hm]. exists (Err e), σ1. split; [done|]. rewrite He. apply IH.
        exists (before ++ Ok w :: after). split; [done|]. split; [done|]. eauto.
Qed.

(** C28 (equivalence): an operation is reported as one view exactly when all readers were
    asked once, exactly one of them has the operation, under this id and as a valid
    view, and all others say that they do not know it: an operation of two families,
    a family that cannot answer and a view that is malformed or of another operation
    all lead to an error. *)
Theorem aggregated_views_are_unambiguous readers id v σ σ' :
  runs (ReadOperation (Some readers) false id) σ (Ok v) σ' ↔
  id ≠ "" ∧ ∃ answers, answered id readers σ answers σ' ∧ exactly_one id v answers.
Proof.
  unfold ReadOperation. case_decide as Hid; [cbn; naive_solver|]. rewrite read_families_none. naive_solver.
Qed.
End aggregator.

(** ** Views of what is on record *)

Lemma View_Validate_Ok v :
  vw_OperationID v ≠ "" → vw_AttemptID v ≠ "" → vw_SandboxID v ≠ "" → 1 ≤ vw_FencingToken v → vw_ObservedAt v ≠ 0 →
  (vw_ResultReference v = "" ∨ resultReferencePattern (vw_ResultReference v) = true) →
  vw_Type v ∈ types → vw_Status v ∈ statuses →
  (vw_Failure v = None ∨ vw_Status v = ViewFailed ∨ vw_Status v = ViewOutcomeUnknown) →
  View_Validate v = Ok ().
Proof.
  intros H1 H2 H3 H4 H5 H6 H7 H8 H9. unfold View_Validate, IsZero.
  rewrite decide_False by (intros [? | [? | [? | [? | ?]]]]; first [done | lia]).
  rewrite decide_False by (destruct H6 as [->| ->]; naive_solver). rewrite !(decide_False (P := _ ∉ _)) by auto.
  rewrite decide_False; [done|]. intros [[f Hf] ?]. destruct H9 as [?|[?|?]]; naive_solver.
Qed.

(** Identifiers are not empty. *)
Lemma head_tail_nonempty p q n s : match_head_tail p q n s = true → s ≠ "".
Proof. by intros ? ->. Qed.

Ltac view_valid :=
  apply View_Validate_Ok; cbn;
  [try by eapply head_tail_nonempty|try by eapply head_tail_nonempty|try by eapply head_tail_nonempty|try lia|try done|by left| | |].

Lemma lifecycle_view_valid o :
  LifecycleModel.Operation_Validate o = Ok () → 0 ≤ op_FencingToken o < 2 ^ 63 → View_Validate (lifecycle_view o) = Ok ().
Proof.
  intros ((H1&H2&H3&H4&H5&_)&Hs&H6&_&Hf)%LifecycleModel.Operation_Validate_Ok Ht.
  assert (i64 (op_FencingToken o) = op_FencingToken o) as Hi by (unfold i64; rewrite Z.mod_small; lia).
  view_valid.
  - destruct (op_Type o); [set_solver..|done].
  - destruct (op_State o); [set_solver..|done].
  - destruct (op_State o); rewrite ?Hf; auto.
Qed.

Lemma artifact_view_valid o : ArtifactModel.Operation_Validate o = Ok () → View_Validate (artifact_view o) = Ok ().
Proof.
  intros (_&Ho&_&Hs&Hr&_)%Operation_Validate_spec. unfold ArtifactModel.Request_Validate, ArtifactModel.refuse in Hr. crack Hr.
  rewrite !Exists_cons in *. split_guards. view_valid.
  - set_solver.
  - destruct (ao_Status o); [set_solver..|done].
  - case_decide as E; [right; right; by rewrite E|by left].
Qed.

Lemma session_view_valid r o : operationProjection r = Ok o → View_Validate (session_view o) = Ok ().
Proof.
  unfold operationProjection. destruct (Record_Validate r) as [[]|] eqn:Hv; [|done]. intros [= <-].
  apply Record_Validate_spec in Hv as (_&Ho&_&Hs&Hr&_).
  unfold OpenRequest_Validate, validateStructure, SessionModel.refuse, identifiers in Hr. crack Hr.
  rewrite !Forall_cons in *. destruct_and!. view_valid.
  - set_solver.
  - destruct (rc_Status r); [set_solver..|done].
  - by left.
Qed.

Lemma close_view_valid r o : closeOperationProjection r = Ok o → View_Validate (session_view o) = Ok ().
Proof.
  unfold closeOperationProjection, CloseRecord_Validate, SessionModel.refuse. intros H. crack H.
  match goal with K : CloseRequest_Validate _ _ = Ok () |- _ => rename K into Hr end.
  unfold CloseRequest_Validate, SessionModel.refuse, identifiers, IsZero in *. crack Hr.
  rewrite !Forall_cons in *. destruct_and!. view_valid.
  - set_solver.
  - destruct (cl_Status r); [set_solver..|done].
  - by left.
Qed.
