(* ===== verification/ExecVertical.v ===== *)
(** * The execution application: [provider/exec/application]

    [Vertical] puts the lifecycle's report about the sandbox and the runtime's
    support check in front of the coordinator and turns what the coordinator
    answers into operation views; [Application] starts one execution without a
    repository.  Both are programs over the coordinator's ports and two more:
    the lifecycle's [GetSandbox] and the runtime's [CheckSupport], which answer
    anything.  The methods return a zero value with every error, so their answers
    are [result]s. *)

From S2P Require Import Prelude Program Threads LifecycleModel ExecModel ExecState ExecPorts ExecCoordinator Operations.
From stdpp Require Import base gmap strings list fin_maps relations.
From Stdlib Require Import ZArith Lia.

Local Open Scope Z_scope.

Definition exec_error (name : string) : sentinel := SNamed "exec" name.
Definition ErrInvalidApplication : sentinel := exec_error "ErrInvalidApplication".
Definition application_error (name : string) : sentinel := SNamed "exec/application" name.
Definition ErrSandboxNotReady : sentinel := application_error "ErrSandboxNotReady".
Definition ErrSandboxExpired : sentinel := application_error "ErrSandboxExpired".

Definition terminalPersistenceTimeout : Z := 5 * Second.
Definition MaxInt64 : Z := 2 ^ 63 - 1.

(** ** Ports *)

Inductive veff : Type → Type :=
  | VExec {X} (e : ExecPorts.eff X) : veff X
  | VGetSandbox (ctx : Context) (sandboxID : string) : veff (result Sandbox)
  | VCheckSupport (ctx : Context) (request : ExecModel.Request) : veff (result unit).

Abbreviation vprog := (Program.prog veff).

Definition run {A} (p : ExecPorts.prog A) : vprog A := embed (@VExec) p.
Definition now_ : vprog Time := call (VExec ENow).
Definition returns {A} (a : A) : vprog (result A) := Ret (Ok a).
Definition fails {A} (e : goerr) : vprog (result A) := Ret (Err e).

(** [x, err := m; if err != nil { return z, err }; k], where [m] is a method of the
    coordinator, and a port. *)
Definition attempt {A B} (m : vprog (outcome A)) (k : A → vprog (result B)) : vprog (result B) :=
  '(a, err) ← m; match err with Some e => fails e | None => k a end.
Definition asking {A B} (m : vprog (result A)) (k : A → vprog (result B)) : vprog (result B) := orelse m fails k.

(** ** Views *)

Definition ErrorOutcome_string (o : ErrorOutcome) : string :=
  match o with
  | ErrorOutcomeKnown => "known_failed"
  | ErrorOutcomeUnknown => "outcome_unknown"
  | ErrorOutcomeOther raw => raw
  end.

Definition terminal_status (s : ResultStatus) (otherwise : string) : string :=
  match s with
  | ResultCompleted => ViewSucceeded
  | ResultFailed => ViewFailed
  | ResultCancelled => ViewCancelled
  | ResultOutcomeUnknown => ViewOutcomeUnknown
  | ResultStatusOther _ => otherwise
  end.

(** The view before it is validated. *)
Definition execution_projection (record : ExecutionRecord) : View :=
  let rq := er_Request record in
  let status := if er_Attached record then ViewRunning else ViewAccepted in
  let observedAt := if er_Attached record then dp_AcceptedAt (er_Dispatch record) else er_ReservedAt record in
  mkView (rq_OperationID rq) (rq_AttemptID rq) (rq_FencingToken rq) (rq_SandboxID rq) TypeExec
    (match er_Terminal record with Some t => terminal_status (ts_Status t) status | None => status end)
    (rq_OperationID rq) ("ref:exec/" +:+ rq_OperationID rq +:+ "/result")
    (match er_Terminal record with Some t => ts_CompletedAt t | None => observedAt end)
    (t ← er_Terminal record; e ← ts_Error t;
     Some (mkViewFailure (re_Code e) (re_Retryable e) (ErrorOutcome_string (re_Outcome e)))).

Definition executionView (record : ExecutionRecord) : result View :=
  if decide (rq_OperationID (er_Request record) = "" ∨ IsZero (er_ReservedAt record)) then Err [ErrInvalidView] else
  _ ← View_Validate (execution_projection record);
  Ok (execution_projection record).

Definition cancellation_projection (reservation : CancellationReservation) (status : CancellationStatus) : View :=
  let i := xc_Intent reservation in
  mkView (ci_OperationID i) (ci_AttemptID i) (ci_FencingToken i) (ci_SandboxID i) TypeCancelExec
    (match status with CancellationConfirmed => ViewSucceeded | _ => ViewAccepted end)
    (ci_OperationID i) "" (xc_ReservedAt reservation) None.

Definition cancellationView (reservation : CancellationReservation) (status : CancellationStatus) : result View :=
  _ ← View_Validate (cancellation_projection reservation status);
  Ok (cancellation_projection reservation status).

Definition knownDispatchFailure : ResultOutcome :=
  mkResultOutcome ResultFailed None "" "" ""
    (Some (mkResultError "SANDBOX_EXEC_FAILED" "execution could not be started" false ErrorOutcomeKnown)).

Definition unknownDispatchFailure : ResultOutcome :=
  mkResultOutcome ResultOutcomeUnknown None "" "" ""
    (Some (mkResultError "SANDBOX_EXEC_OUTCOME_UNKNOWN" "execution outcome requires reconciliation" true
             ErrorOutcomeUnknown)).

(** ** The application without a repository *)

Definition application_New (executor clock : bool) : result unit :=
  if decide (executor = false ∨ clock = false) then Err [ErrInvalidApplication] else Ok ().

Definition application_Start (present : bool) (ctx : Context) (request : ExecModel.Request) : ExecPorts.prog (result Dispatch) :=
  if present then
    match ctx with
    | CtxNil => Ret (Err [Canceled : sentinel])
    | _ =>
        now ← call ENow;
        match ExecModel.Request_Validate request now with
        | Err e => Ret (Err e)
        | Ok _ =>
            let operationContext := CtxWithDeadline ctx (rq_Deadline request) in
            err ← call (ECtxErr operationContext);
            match err with
            | Some e => Ret (Err e)
            | None =>
                started ← call (EStart operationContext (mkInvocation request now));
                match started with
                | Err e => Ret (Err (if errors_is e Canceled || errors_is e DeadlineExceeded then [ErrDispatchUnknown : sentinel] else e))
                | Ok reference =>
                    let dispatch := mkDispatch reference now in
                    Ret (if is_ok (Dispatch_Validate dispatch) then Ok dispatch else Err [ErrInvalidDispatch : sentinel])
                end
            end
        end
    end
  else Ret (Err [ErrInvalidApplication]).

(** ** The vertical *)

Record Vertical := mkVertical {
  va_coordinator : option Coordinator;
  va_sandboxes : bool;
  va_support : bool;
  va_clock : bool;
}.

Definition NewVerticalWithSupport (coordinator : option Coordinator) (sandboxes support clock : bool) : result Vertical :=
  if decide (coordinator = None ∨ sandboxes = false ∨ clock = false) then Err [ErrInvalidApplication]
  else Ok (mkVertical coordinator sandboxes support clock).

Definition NewVertical (coordinator : option Coordinator) (sandboxes clock : bool) : result Vertical :=
  NewVerticalWithSupport coordinator sandboxes false clock.

(** [ready], with the coordinator of a vertical that has one. *)
Definition ready {A} (a : Vertical) (ctx : Context) (k : Coordinator → vprog (result A)) : vprog (result A) :=
  match va_coordinator a with
  | Some c =>
      if va_sandboxes a && va_clock a then
        match ctx with
        | CtxNil => fails [Canceled : sentinel]
        | _ => err ← call (VExec (ECtxErr ctx)); match err with Some e => fails e | None => k c end
        end
      else fails [ErrInvalidApplication]
  | None => fails [ErrInvalidApplication]
  end.

(** What [checkSandbox] asks of the sandbox before it looks at the clock. *)
Definition sandbox_state (sandbox : Sandbox) (sandboxID : string) (expectedGeneration : Z) : result unit :=
  if decide (sb_ID sandbox ≠ sandboxID ∨ sb_Generation sandbox > MaxInt64 ∨ i64 (sb_Generation sandbox) ≠ expectedGeneration)
  then Err [ErrGenerationConflict : sentinel] else
  if decide (sb_DesiredState sandbox ≠ DesiredReady ∨ sb_ObservedState sandbox ≠ ObservedReady
             ∨ sb_ObservedGeneration sandbox ≠ sb_Generation sandbox) then Err [ErrSandboxNotReady] else Ok ().

Definition checkSandbox (ctx : Context) (sandboxID : string) (expectedGeneration : Z) : vprog (result unit) :=
  asking (call (VGetSandbox ctx sandboxID)) (λ sandbox,
  match sandbox_state sandbox sandboxID expectedGeneration with
  | Err e => fails e
  | Ok _ =>
      now ← now_;
      if decide (¬ After (sb_LeaseExpiresAt sandbox) now) then fails [ErrSandboxExpired] else returns ()
  end).

Section vertical.
Context (c : Coordinator).

(** The context terminal evidence is written under. *)
Definition writeCtx (ctx : Context) : Context := CtxWithTimeout (CtxWithoutCancel (nonNilContext ctx)) terminalPersistenceTimeout.

Definition store_now (ctx : Context) (operationID : string) (startedAt : Time) (o : ResultOutcome) : vprog (outcome Result) :=
  now ← now_;
  run (StoreOutcome c (writeCtx ctx) operationID startedAt now o).

Definition expireResult (ctx : Context) (record : ExecutionRecord) : vprog (result ExecutionRecord) :=
  match er_Result record with
  | None => returns record
  | Some result =>
      now ← now_;
      if decide (Before now (r_RetainedUntil result)) then returns record else
      now ← now_;
      '(_, err) ← run (GetResult c ctx (rq_OperationID (er_Request record)) now);
      match err with
      | Some e =>
          if negb (errors_is e ErrExpired) then fails e
          else attempt (run (coordinator_GetExecution c ctx (rq_OperationID (er_Request record)))) returns
      | None => attempt (run (coordinator_GetExecution c ctx (rq_OperationID (er_Request record)))) returns
      end
  end.

Definition pending (record : ExecutionRecord) : bool :=
  match er_Result record with None => negb (er_ResultExpired record) | Some _ => false end.

Definition reconcileExecutionView (ctx : Context) (record : ExecutionRecord) : vprog (result View) :=
  asking (expireResult ctx record) (λ record,
  if pending record then
    let operationID := rq_OperationID (er_Request record) in
    '(reconciled, err) ← run (Reconcile c ctx operationID);
    match err with
    | None => Ret (executionView reconciled)
    | Some e =>
        if errors_is e ErrExecutionNotFound then
          attempt (store_now ctx operationID (er_ReservedAt record) unknownDispatchFailure) (λ _,
          attempt (run (coordinator_GetExecution c ctx operationID)) (λ record, Ret (executionView record)))
        else fails e
    end
  else Ret (executionView record)).

Definition acceptExecReplay (ctx : Context) (request : ExecModel.Request) (existing : ExecutionRecord) : vprog (result View) :=
  attempt (run (Start c ctx request)) (λ reservation,
  if decide (xr_Replayed reservation = false
             ∨ rq_OperationID (er_Request (xr_Execution reservation)) ≠ rq_OperationID (er_Request existing))
  then fails [ExecErrConflict : sentinel] else
  reconcileExecutionView ctx (xr_Execution reservation)).

(** What follows the coordinator's [Start] of a new execution. *)
Definition dispatched (ctx : Context) (request : ExecModel.Request) (reservation : ExecutionReservation) (dispatchErr : option goerr)
    : vprog (result View) :=
  match dispatchErr with
  | None => Ret (executionView (xr_Execution reservation))
  | Some e =>
      if decide (rq_OperationID (er_Request (xr_Execution reservation)) = "") then fails e else
      let o := if errors_is e ErrDispatchUnknown then unknownDispatchFailure else knownDispatchFailure in
      '(_, storeErr) ← store_now ctx (rq_OperationID request) (er_ReservedAt (xr_Execution reservation)) o;
      match storeErr with
      | Some e' => fails (e ++ e')
      | None =>
          '(record, readErr) ← run (coordinator_GetExecution c (CtxWithoutCancel (nonNilContext ctx)) (rq_OperationID request));
          match readErr with Some e' => fails (e ++ e') | None => Ret (executionView record) end
      end
  end.

Definition accept_new (support : bool) (ctx : Context) (request : ExecModel.Request) : vprog (result View) :=
  asking (if support then call (VCheckSupport ctx request) else returns ()) (λ _,
  asking (checkSandbox ctx (rq_SandboxID request) (rq_ExpectedGeneration request)) (λ _,
  '(reservation, dispatchErr) ← run (Start c ctx request);
  dispatched ctx request reservation dispatchErr)).

(** A cancellation that is not on record yet. *)
Definition cancel_new (ctx : Context) (intent : CancellationIntent) : vprog (result View) :=
  asking (checkSandbox ctx (ci_SandboxID intent) (ci_ExpectedGeneration intent)) (λ _,
  attempt (run (coordinator_GetExecution c ctx (ci_TargetOperationID intent))) (λ target,
  asking (expireResult ctx target) (λ target,
  if decide (is_Some (er_Terminal target)) then fails [ExecErrAlreadyExists : sentinel] else
  '(target, err) ← run (Reconcile c ctx (ci_TargetOperationID intent));
  match err with
  | Some e =>
      if errors_is e ErrExecutionNotFound then
        attempt (store_now ctx (rq_OperationID (er_Request target)) (er_ReservedAt target) unknownDispatchFailure) (λ _,
        fails [ExecErrAlreadyExists : sentinel])
      else fails e
  | None =>
      if decide (is_Some (er_Terminal target)) then fails [ExecErrAlreadyExists : sentinel] else
      attempt (run (ExecCoordinator.Cancel c ctx intent)) (λ result,
      Ret (cancellationView (cr_Reservation result) (cr_Status result)))
  end))).

(** An execution that [ReadOperation] found. *)
Definition read_execution (ctx : Context) (operationID : string) (execution : ExecutionRecord) : vprog (result View) :=
  asking (expireResult ctx execution) (λ execution,
  if pending execution then
    '(reconciled, err) ← run (Reconcile c ctx operationID);
    match err with
    | None => Ret (executionView reconciled)
    | Some e =>
        if errors_is e ErrExecutionNotFound then
          attempt (store_now ctx operationID (er_ReservedAt execution) unknownDispatchFailure) (λ result,
          let execution := set_result (Some result) execution in
          match NewTerminalSummary result with
          | Err e => fails e
          | Ok terminal => Ret (executionView (set_terminal (Some terminal) execution))
          end)
        else fails e
    end
  else Ret (executionView execution)).

Definition read_cancellation (ctx : Context) (cancellation : CancellationReservation) : vprog (result View) :=
  attempt (run (coordinator_GetExecution c ctx (ci_TargetOperationID (xc_Intent cancellation)))) (λ target,
  asking (expireResult ctx target) (λ target,
  let status := match er_Terminal target with
                | Some t => if decide (ts_Status t = ResultCancelled) then CancellationConfirmed else CancellationPending
                | None => CancellationPending
                end in
  Ret (cancellationView cancellation status))).
End vertical.

Definition AcceptExec (a : Vertical) (ctx : Context) (request : ExecModel.Request) : vprog (result View) :=
  ready a ctx (λ c,
  now ← now_;
  match ExecModel.Request_Validate request now with
  | Err e => fails e
  | Ok _ =>
      '(existing, err) ← run (coordinator_GetExecution c ctx (rq_OperationID request));
      match err with
      | None => acceptExecReplay c ctx request existing
      | Some e => if negb (errors_is e ExecErrNotFound) then fails e else accept_new c (va_support a) ctx request
      end
  end).

Definition AcceptCancellation (a : Vertical) (ctx : Context) (intent : CancellationIntent) : vprog (result View) :=
  ready a ctx (λ c,
  now ← now_;
  match CancellationIntent_Validate intent now with
  | Err e => fails e
  | Ok _ =>
      '(_, err) ← run (coordinator_GetCancellationReservation c ctx (ci_OperationID intent));
      match err with
      | None =>
          attempt (run (ExecCoordinator.Cancel c ctx intent)) (λ result,
          Ret (cancellationView (cr_Reservation result) (cr_Status result)))
      | Some e => if negb (errors_is e ExecErrNotFound) then fails e else cancel_new c ctx intent
      end
  end).

Definition vertical_GetResult (a : Vertical) (ctx : Context) (operationID : string) : vprog (result Result) :=
  ready a ctx (λ c,
  let finish := now ← now_; attempt (run (GetResult c ctx operationID now)) returns in
  '(_, reconcileErr) ← run (Reconcile c ctx operationID);
  match reconcileErr with
  | None => finish
  | Some e =>
      if errors_is e ErrExecutionNotFound then
        attempt (run (coordinator_GetExecution c ctx operationID)) (λ record,
        attempt (store_now c ctx operationID (er_ReservedAt record) unknownDispatchFailure) (λ _, finish))
      else fails e
  end).

Definition ReadOperation (a : Vertical) (ctx : Context) (operationID : string) : vprog (result View) :=
  ready a ctx (λ c,
  '(execution, executionErr) ← run (coordinator_GetExecution c ctx operationID);
  '(cancellation, cancellationErr) ← run (coordinator_GetCancellationReservation c ctx operationID);
  match executionErr, cancellationErr with
  | None, None => fails [Operations.ErrConflict]
  | None, Some _ => read_execution c ctx operationID execution
  | Some _, None => read_cancellation c ctx cancellation
  | Some e, Some e' =>
      if negb (errors_is e ExecErrNotFound) then fails e else
      if negb (errors_is e' ExecErrNotFound) then fails e' else
      fails [Operations.ErrNotFound]
  end).

Definition vertical_Recover (a : Vertical) (ctx : Context) : vprog (result unit) :=
  ready a ctx (λ c, attempt (run (Recover c ctx)) (λ _, returns ())).
