(* ===== verification/ExecVerticalConcurrency.v ===== *)
(** * The execution application under concurrency

    Any number of calls of [Vertical] at once over one repository.  The
    coordinator's methods follow the coordinator's rule ([ExecConcurrency]); the
    application adds to it that an execution is started only after the sandbox was
    found ready, and that a dispatch failure is stored only for an execution that
    was not started. *)

From S2P Require Import Prelude Program Threads LifecycleModel ExecModel ExecState ExecInvariant ExecRepository ExecPorts ExecCoordinator ExecConcurrency Operations ExecVertical.
From stdpp Require Import base gmap strings list fin_maps relations.
From Stdlib Require Import ZArith Lia.

Local Open Scope Z_scope.

(** ** The interface *)

Inductive vertical_api :=
  | ApiAcceptExec (ctx : Context) (request : ExecModel.Request)
  | ApiAcceptCancellation (ctx : Context) (intent : CancellationIntent)
  | ApiVerticalResult (ctx : Context) (id : string)
  | ApiReadOperation (ctx : Context) (id : string)
  | ApiVerticalRecover (ctx : Context).

Definition vertical_prog (a : Vertical) (call : vertical_api) : vprog () :=
  match call with
  | ApiAcceptExec ctx rq => discard (AcceptExec a ctx rq)
  | ApiAcceptCancellation ctx i => discard (AcceptCancellation a ctx i)
  | ApiVerticalResult ctx id => discard (vertical_GetResult a ctx id)
  | ApiReadOperation ctx id => discard (ReadOperation a ctx id)
  | ApiVerticalRecover ctx => discard (vertical_Recover a ctx)
  end.

(** Every vertical of the pool checks support, or none does. *)
Definition vertical_spawn (support : bool) (p : vprog ()) : Prop :=
  ∃ a call, p = vertical_prog a call ∧ va_support a = support.

Definition vrespond {X} (e : veff X) : State → X → State → Prop :=
  match e in veff X return State → X → State → Prop with
  | VExec e => respond e
  | VGetSandbox _ _ | VCheckSupport _ _ => λ s _ s', s' = s
  end.

Definition vertical_run (support : bool) (s : State) (ts : list (thread veff)) : Prop :=
  rtc (pool_step (@vrespond) (vertical_spawn support)) (NewState, []) (s, ts).

(** ** What traces say *)

(** The calls of the coordinator's ports. *)
Definition exec_part (ev : event veff) : option (event eff) :=
  let '@Ev _ X e x := ev in
  match e in veff X return X → option (event eff) with
  | VExec e => λ x, Some (Ev e x)
  | _ => λ _, None
  end x.

Definition part (tr : list (event veff)) : list (event eff) := omap exec_part tr.

(** Operations found on record. *)
Definition found_by (ev : event eff) : option string :=
  let '@Ev _ X e x := ev in
  match e in eff X return X → option string with
  | EGetExecution _ id => λ x, if is_ok x then Some id else None
  | _ => λ _, None
  end x.

Definition stored_by (ev : event eff) : option string :=
  match ev with Ev (EStoreResult _ r) _ => Some (r_OperationID r) | _ => None end.

Definition found (tr : list (event eff)) : list string := omap found_by tr.
Definition stored (tr : list (event eff)) : list string := omap stored_by tr.

(** No operation is reserved afresh after it was found on record. *)
Fixpoint consistent (tr : list (event eff)) : Prop :=
  match tr with
  | [] => True
  | ev :: tr => (∀ id, reserved_by ev = Some id → id ∉ found tr) ∧ consistent tr
  end.

(** The lifecycle reported the sandbox of the request as ready, at the expected
    generation and with a lease beyond a time the clock showed. *)
Definition sandbox_checked (tr : list (event veff)) (sandboxID : string) (generation : Z) : Prop :=
  ∃ ctx sandbox now, Ev (VGetSandbox ctx sandboxID) (Ok sandbox) ∈ tr ∧ Ev (VExec ENow) now ∈ tr ∧
    sandbox_state sandbox sandboxID generation = Ok () ∧ now < sb_LeaseExpiresAt sandbox.

Definition authorised (support : bool) (tr : list (event veff)) (rq : ExecModel.Request) : Prop :=
  sandbox_checked tr (rq_SandboxID rq) (rq_ExpectedGeneration rq) ∧
  (support = true → ∃ ctx, Ev (VCheckSupport ctx rq) (Ok ()) ∈ tr).

(** The repository returned the reservation of the operation together with an error:
    the write behind it failed, or was not confirmed. *)
Definition write_failed (tr : list (event eff)) (id : string) : Prop :=
  ∃ ctx rq now r e, Ev (EReserveExecutionAt ctx rq now []) (r, Some e) ∈ tr ∧ rq_OperationID rq = id ∧
    rq_OperationID (er_Request (xr_Execution r)) ≠ "".

(** The execution was reserved by this call and its executor did not accept it, or
    the write of its reservation failed. *)
Definition dispatch_failed (tr : list (event eff)) (id : string) (o : ResultOutcome) : Prop :=
  o = knownDispatchFailure ∧
  (write_failed tr id ∨
   (id ∈ reservations tr ∧ ∀ ctx inv ref, rq_OperationID (iv_Request inv) = id → Ev (EStart ctx inv) (Ok ref) ∉ tr)).

Lemma write_failed_mono tr tr' id : tr ⊆ tr' → write_failed tr id → write_failed tr' id.
Proof. intros Hs (ctx & rq & now & r & e & ? & ?). exists ctx, rq, now, r, e. auto. Qed.

Definition reserve_failed (ev : event eff) : bool :=
  let '@Ev _ X e x := ev in
  match e in eff X return X → bool with EReserveExecutionAt _ _ _ _ => λ x, bool_decide (is_Some x.2) | _ => λ _, false end x.

Lemma write_failed_by tr id : write_failed tr id → existsb reserve_failed tr = true.
Proof.
  intros (ctx & rq & now & r & e & Hin & _). apply existsb_exists. exists (Ev (EReserveExecutionAt ctx rq now []) (r, Some e)).
  split; [by apply list_elem_of_In|done].
Qed.

(** ** The rule *)

Definition extra (support : bool) (tr : list (event veff)) (X : Type) (e : eff X) : Prop :=
  match e with
  | EStart _ inv => stored (part tr) = [] ∧ (consistent (part tr) → authorised support tr (iv_Request inv))
  | EStoreResult _ r =>
      evidence_known (part tr) (r_OperationID r) (outcome_of r) ∨ dispatch_failed (part tr) (r_OperationID r) (outcome_of r)
  | _ => True
  end.

Definition vrule (support : bool) (tr : list (event veff)) (X : Type) (e : veff X) : Prop :=
  match e with
  | VExec e => rule true (part tr) _ e ∧ extra support tr _ e
  | _ => True
  end.

Definition vplausible (X : Type) (e : veff X) : X → Prop :=
  match e in veff X return X → Prop with
  | VExec e => plausible _ e
  | _ => λ _, True
  end.

(** ** Calls of a kind *)

(** Reads. *)
Definition reading (X : Type) (e : eff X) : bool :=
  match e with
  | EReserveExecutionAt _ _ _ _ | EReserveCancellationAt _ _ _ | EStart _ _ | ECancel _ _ | EStoreResult _ _
  | EAttachExecution _ _ => false
  | _ => true
  end.
(** Everything that starts and cancels nothing. *)
Definition quiet (X : Type) (e : eff X) : bool :=
  match e with
  | EReserveExecutionAt _ _ _ _ | EReserveCancellationAt _ _ _ | EStart _ _ | ECancel _ _ => false
  | _ => true
  end.
Definition starts_nothing (X : Type) (e : eff X) : bool := match e with EStart _ _ => false | _ => true end.

Abbreviation only P := (follows (λ _ X e, P X e = true) plausible).

Lemma only_bind P {A B} (p : prog A) (f : A → prog B) tr :
  only P p tr (λ _ _, True) → (∀ a tr, only P (f a) tr (λ _ _, True)) → only P (p ≫= f) tr (λ _ _, True).
Proof. intros Hp Hf. apply follows_bind. eapply follows_mono; [|exact Hp]. auto. Qed.

Lemma only_call P {X} (e : eff X) tr : P X e = true → only P (call e) tr (λ _ _, True).
Proof. done. Qed.

Lemma only_orelse P {A B} (m : prog (result A)) (z : goerr → prog B) (k : A → prog B) tr :
  only P m tr (λ _ _, True) → (∀ e tr, only P (z e) tr (λ _ _, True)) → (∀ a tr, only P (k a) tr (λ _ _, True)) →
  only P (orelse m z k) tr (λ _ _, True).
Proof. intros Hm Hz Hk. apply only_bind; [done|]. intros []; auto. Qed.

Lemma only_mono (P P' : ∀ X, eff X → bool) {A} (p : prog A) tr Q :
  (∀ X e, P X e = true → P' X e = true) → only P p tr Q → only P' p tr Q.
Proof.
  intros HP. revert tr. induction p as [a|X e k IH]; intros tr; cbn; [done|]. intros [? Hk]. split; auto.
Qed.

(** Walks over a program; what it cannot open is left to [eauto] with the lemmas of
    the methods called. *)
Ltac only_step :=
  lazymatch goal with
  | |- follows _ _ (Ret _) _ _ => exact I
  | |- follows _ _ (fail _) _ _ => exact I
  | |- follows _ _ (done_with _) _ _ => exact I
  | |- follows _ _ (call _) _ _ => apply only_call; reflexivity
  | |- follows _ _ (usable _ _) _ _ => unfold usable
  | |- follows _ _ (with_context _ _) _ _ => unfold with_context, ContextError
  | |- follows _ _ (pass _) _ _ => unfold pass
  | |- follows _ _ (match ?x with _ => _ end) _ _ => destruct x
  | |- follows _ _ (orelse _ _ _) _ _ => apply only_orelse; [|intros ? ?|intros ? ?]
  | |- follows _ _ (mbind _ _) _ _ => apply only_bind; [|intros ? ?]
  | |- follows _ _ (let _ := _ in _) _ _ => cbv zeta
  end.
Ltac walk := repeat only_step; eauto with quiet.

Create HintDb quiet.

Section methods.
Context (c : Coordinator).

Lemma only_GetExecution ctx id tr : only reading (coordinator_GetExecution c ctx id) tr (λ _ _, True).
Proof. unfold coordinator_GetExecution. walk. Qed.
Lemma only_GetCancellation ctx id tr : only reading (coordinator_GetCancellationReservation c ctx id) tr (λ _ _, True).
Proof. unfold coordinator_GetCancellationReservation. walk. Qed.

Lemma only_observeResult ctx r tr : only quiet (observeResult c ctx r) tr (λ _ _, True).
Proof. unfold observeResult. walk. Qed.
Hint Resolve only_observeResult : quiet.
Lemma only_observed ctx r tr : only quiet (observed c ctx r) tr (λ _ _, True).
Proof. unfold observed. walk. Qed.
Hint Resolve only_observed : quiet.
Lemma only_StoreOutcome ctx id st ct o tr : only quiet (StoreOutcome c ctx id st ct o) tr (λ _ _, True).
Proof. unfold StoreOutcome. walk. Qed.
Hint Resolve only_StoreOutcome : quiet.
Lemma only_settle ctx id ob r tr : only quiet (settle c ctx id ob r) tr (λ _ _, True).
Proof. unfold settle. walk. Qed.
Hint Resolve only_settle : quiet.
Lemma only_Reconcile ctx id tr : only quiet (Reconcile c ctx id) tr (λ _ _, True).
Proof. unfold Reconcile. walk. Qed.
Hint Resolve only_Reconcile : quiet.
Lemma only_GetResult ctx id now tr : only quiet (GetResult c ctx id now) tr (λ _ _, True).
Proof. unfold GetResult. walk. Qed.
Hint Resolve only_GetResult : quiet.
Lemma only_recover_pending ctx r tr : only quiet (recover_pending c ctx r) tr (λ _ _, True).
Proof. unfold recover_pending. walk. Qed.
Lemma only_recover_retained ctx r res tr : only quiet (recover_retained c ctx r res) tr (λ _ _, True).
Proof. unfold recover_retained. walk. Qed.
Hint Resolve only_recover_pending only_recover_retained : quiet.
Lemma only_recover_all ctx rs acc tr : only quiet (recover_all c ctx rs acc) tr (λ _ _, True).
Proof. revert acc tr. induction rs as [|r rs IH]; intros acc tr; cbn [recover_all]; walk. Qed.
Hint Resolve only_recover_all : quiet.
Lemma only_Recover ctx tr : only quiet (Recover c ctx) tr (λ _ _, True).
Proof. unfold Recover. walk. Qed.

Lemma only_Cancel ctx i tr : only starts_nothing (ExecCoordinator.Cancel c ctx i) tr (λ _ _, True).
Proof. unfold ExecCoordinator.Cancel, cancel_target, observeResult. walk. Qed.
End methods.

(** ** Traces of a kind *)

Definition of_kind (P : ∀ X, eff X → bool) (ev : event eff) : Prop := let '@Ev _ X e _ := ev in P X e = true.
Abbreviation all_of P tr := (Forall (of_kind P) (part tr)).

Lemma only_Forall P {A} (p : prog A) tr :
  Forall (of_kind P) tr → only P p tr (λ _ _, True) → only P p tr (λ _ tr', Forall (of_kind P) tr').
Proof.
  revert tr. induction p as [a|X e k IH]; intros tr; cbn; [done|]. intros Htr [? Hk]. split; [done|].
  intros x Hx. apply IH; [by constructor|by apply Hk].
Qed.

Lemma kind_omap {B} P (f : event eff → option B) tr :
  (∀ X (e : eff X) x, P X e = true → f (Ev e x) = None) → Forall (of_kind P) tr → omap f tr = [].
Proof. intros Hf. induction 1 as [|[X e x] tr He _ IH]; [done|]. cbn. by rewrite Hf. Qed.

Lemma reading_quiet X (e : eff X) : reading X e = true → quiet X e = true.
Proof. by destruct e. Qed.
Lemma quiet_starts_nothing X (e : eff X) : quiet X e = true → starts_nothing X e = true.
Proof. by destruct e. Qed.

Lemma reading_counts tr :
  Forall (of_kind reading) tr → starts tr = [] ∧ reservations tr = [] ∧ stored tr = [].
Proof. intros H. split_and!; (eapply kind_omap; [|exact H]); by intros X []. Qed.
Lemma quiet_counts tr : Forall (of_kind quiet) tr → cancels tr = [] ∧ intents tr = [].
Proof. intros H. split_and!; (eapply kind_omap; [|exact H]); by intros X []. Qed.
Lemma all_quiet tr : all_of reading tr → all_of quiet tr.
Proof. intros H. eapply Forall_impl; [exact H|]. intros [X e x]. apply reading_quiet. Qed.

(** ** The methods of the application *)

Section vertical.
Context (support : bool) (c : Coordinator).
Abbreviation vobeys := (follows (vrule support) vplausible).

Lemma rule_trusting tr X (e : eff X) : rule false tr X e → rule true tr X e.
Proof. destruct e; cbn; auto. Qed.

(** A method of the coordinator that starts nothing. *)
Lemma run_only P {A} (p : prog A) tr (Q : A → list (event veff) → Prop) :
  (∀ X (e : eff X), P X e = true → starts_nothing X e = true) →
  follows (rule false) plausible p (part tr) (λ _ _, True) →
  only P p (part tr) (λ a trE, ∀ tr', tr ⊆ tr' → part tr' = trE → Q a tr') → vobeys (run p) tr Q.
Proof.
  intros HP Hr Ho.
  apply (follows_embed (@VExec) exec_part (λ _ _ _, eq_refl) (λ tr X e, rule false tr X e ∧ P X e = true) plausible
           (vrule support) vplausible p tr Q).
  - intros tr' X e _ [H1 H2%HP]. split; [by apply rule_trusting|]. destruct e; cbn in *; try done.
    destruct H1 as [?|?]; [done|by left].
  - done.
  - eapply follows_mono; [|exact (follows_and _ _ _ _ _ _ _ Hr Ho)]. intros a trE [_ H]. exact H.
Qed.

Lemma run_kind P {A} (p : prog A) tr (Q : A → list (event veff) → Prop) :
  (∀ X (e : eff X), P X e = true → starts_nothing X e = true) →
  follows (rule false) plausible p (part tr) (λ _ _, True) → only P p (part tr) (λ _ _, True) → all_of P tr →
  (∀ a tr', tr ⊆ tr' → all_of P tr' → Q a tr') → vobeys (run p) tr Q.
Proof.
  intros HP Hr Ho Htr HQ. eapply run_only; [exact HP|done|]. eapply follows_mono; [|by apply only_Forall].
  intros a trE Hk tr' Hs <-. by apply HQ.
Qed.

Lemma vobeys_now {A} (k : Time → vprog A) tr Q :
  (∀ now, 0 < now → vobeys (k now) (Ev (VExec ENow) now :: tr) Q) → vobeys (now_ ≫= k) tr Q.
Proof. intros H. cbn. split; [done|]. intros now Hnow. by apply H. Qed.

Lemma vobeys_asking {A B} (m : vprog (result A)) (k : A → vprog (result B)) tr Q :
  vobeys m tr (λ r tr', match r with Ok a => vobeys (k a) tr' Q | Err e => Q (Err e) tr' end) → vobeys (asking m k) tr Q.
Proof. intros H. apply follows_bind. eapply follows_mono; [|exact H]. by intros [a|e] tr'. Qed.

Lemma vobeys_attempt {A B} (m : vprog (outcome A)) (k : A → vprog (result B)) tr Q :
  vobeys m tr (λ r tr', match r.2 with None => vobeys (k r.1) tr' Q | Some e => Q (Err e) tr' end) → vobeys (attempt m k) tr Q.
Proof. intros H. apply follows_bind. eapply follows_mono; [|exact H]. by intros [a [e|]] tr'. Qed.

(** *** Starting *)

(** What [Start] adds to the rule of the coordinator. *)
Definition start_extra (rq : ExecModel.Request) (tr0 tr : list (event eff)) (X : Type) (e : eff X) : Prop :=
  match e with
  | EStart _ inv => iv_Request inv = rq ∧ stored tr = [] ∧ (consistent tr → rq_OperationID rq ∉ found tr0)
  | EStoreResult _ _ => False
  | _ => True
  end.

(** When [Start] returns a reservation with an error other than an unknown outcome, the
    write failed, or the execution was reserved and the executor did not accept it. *)
Definition start_post (rq : ExecModel.Request) (r : outcome ExecutionReservation) (tr : list (event eff)) : Prop :=
  ∀ e, r.2 = Some e → rq_OperationID (er_Request (xr_Execution r.1)) ≠ "" →
    errors_is e ErrDispatchUnknown = false →
    write_failed tr (rq_OperationID rq) ∨
    (rq_OperationID rq ∈ reservations tr ∧ ∀ ctx inv ref, Ev (EStart ctx inv) (Ok ref) ∉ tr).

(** The receipt the executor returned. *)
Definition accepted_by (ev : event eff) : option string :=
  let '@Ev _ X e x := ev in
  match e in eff X return X → option string with
  | EStart _ _ => λ x, match x with Ok ref => Some ref | Err _ => None end
  | _ => λ _, None
  end x.

Lemma not_accepted ctx inv ref ev : accepted_by ev = None → Ev (EStart ctx inv) (Ok ref) ≠ ev.
Proof. by intros H <-. Qed.

Lemma reading_no_start tr ctx inv x : Forall (of_kind reading) tr → Ev (EStart ctx inv) x ∉ tr.
Proof. intros H Hin. rewrite Forall_forall in H. by apply H in Hin. Qed.

Lemma follows_context {A} `{!Zero A} (R : list (event eff) → ∀ X, eff X → Prop) ctx (k : prog (outcome A)) tr Q :
  R tr _ (ECtxErr ctx) →
  (∀ e tr', tr' = tr ∨ tr' = Ev (ECtxErr ctx) (Some e) :: tr → Q (zero, Some e) tr') → follows R plausible k (Ev (ECtxErr ctx) None :: tr) Q →
  follows R plausible (with_context ctx k) tr Q.
Proof.
  intros HR HQ Hk. unfold with_context, ContextError. destruct ctx; cbn; [apply HQ; by left|..]; (split; [done|]);
    (intros [e|] _; [apply HQ; by right|done]).
Qed.

Lemma Start_extra ctx rq tr :
  Forall (of_kind reading) tr →
  follows (start_extra rq tr) plausible (Start c ctx rq) tr (start_post rq).
Proof.
  intros Htr. unfold Start, usable. destruct (_ && _ && _); [|by intros e [= <-]].
  apply follows_context; [done|by intros e tr' _ ? [= <-]|]. set (tr1 := _ :: tr).
  assert (Htr1 : Forall (of_kind reading) tr1) by (by constructor). cbn. split; [done|]. intros now _.
  destruct (ExecModel.Request_Validate rq now) as [[]|e]; cbn; [|by intros ? [= <-]]. split; [done|].
  intros [r err] _; cbn. case_decide as Hd.
  { intros e [= ->] Hne _. left. exists ctx, rq, now, r, e. split; [left|done]. }
  assert (err = None ∧ xr_Replayed r = false) as [-> Er] by (destruct err, (xr_Replayed r); naive_solver). clear Hd. cbn. split; [done|].
  set (tr2 := Ev (EReserveExecutionAt ctx rq now []) (r, None) :: Ev ENow now :: tr1).
  assert (Hres : ∀ tr', rq_OperationID rq ∈ reservations (tr' ++ tr2)).
  { intros tr'. unfold reservations. rewrite omap_app. cbn. rewrite Er. set_solver. }
  assert (Hno : ∀ ctx' inv x, Ev (EStart ctx' inv) x ∉ tr2).
  { intros ctx' inv x. unfold tr2. rewrite !not_elem_of_cons. split_and!; [done..|]. by apply reading_no_start. }
  intros [e|] _.
  { intros ? _ _ _. right. split; [apply (Hres [_])|]. intros ctx' inv ref. rewrite not_elem_of_cons. split; [done|apply Hno]. }
  cbn. split.
  { split; [done|]. split; [by destruct (reading_counts tr1 Htr1) as (_&_&?)|]. intros (_ & Hc & _).
    apply Hc. cbn. by rewrite Er. }
  assert (Hunknown : ∀ e : goerr, errors_is (@cons sentinel ErrDispatchUnknown e) ErrDispatchUnknown = true).
  { intros e. apply bool_decide_eq_true_2. left. }
  intros [ref|e] _; cbn.
  - split; [done|]. intros [a|e] _; [by intros ?|]. intros ? [= <-] _. by rewrite Hunknown.
  - destruct (_ || _); intros ? [= <-] _; [by rewrite Hunknown|].
    intros _. right. split; [apply (Hres [_; _])|]. intros ctx' inv ref. rewrite 2!not_elem_of_cons. split_and!; [by apply not_accepted..|apply Hno].
Qed.

(** [Start] where the sandbox was checked, or the operation was found on record. *)
Lemma run_Start ctx rq tr (Q : outcome ExecutionReservation → list (event veff) → Prop) :
  all_of reading tr → (rq_OperationID rq ∈ found (part tr) ∨ authorised support tr rq) →
  (∀ r tr', tr ⊆ tr' → start_post rq r (part tr') → Q r tr') → vobeys (run (Start c ctx rq)) tr Q.
Proof.
  intros Htr Hauth HQ. destruct (reading_counts _ Htr) as (Hs & Hr & _).
  apply (follows_embed (@VExec) exec_part (λ _ _ _, eq_refl)
           (λ trE X e, rule false trE X e ∧ start_extra rq (part tr) trE X e) plausible).
  - intros tr' X e Hsub [H1 H2]. split; [by apply rule_trusting|]. destruct e; cbn in *; try done.
    destruct H2 as (-> & Hst & Hc). split; [done|]. intros Hcon. destruct Hauth as [?|Ha]; [by destruct (Hc Hcon)|].
    destruct Ha as [(ctx'&sb&now&?&?&?) Hsup]. split; [exists ctx', sb, now; auto|].
    intros Ht. destruct (Hsup Ht) as [ctx'' ?]. exists ctx''. auto.
  - done.
  - eapply follows_mono; [|apply follows_and; [by apply obeys_Start|by apply Start_extra]].
    intros r trE [_ Hp] tr' Hsub <-. by apply HQ.
Qed.

(** *** Reading and reconciling

    What is known about a trace ([K]) and survives calls that start and cancel
    nothing. *)

Abbreviation obeys_ p trE := (follows (rule false) plausible p trE (λ _ _, True)).
Abbreviation fine p tr := (vobeys p tr (λ _ _, True)).

Lemma obeys_reading {A} (p : prog A) trE : only reading p trE (λ _ _, True) → obeys_ p trE.
Proof. apply follows_weaken. by intros tr' X []. Qed.

Lemma obeys_unknown ctx id st ct trE : obeys_ (StoreOutcome c ctx id st ct unknownDispatchFailure) trE.
Proof. apply obeys_StoreOutcome. right. by left. Qed.

Section quiet.
Context (K : list (event eff) → Prop).
Context (K_stable : ∀ X (e : eff X) x trE, quiet X e = true → K trE → K (Ev e x :: trE)).

Lemma only_stable {A} (p : prog A) trE :
  K trE → only quiet p trE (λ _ _, True) → only quiet p trE (λ _ trE', K trE').
Proof using K_stable.
  revert trE. induction p as [a|X e k IH]; intros trE; cbn; [done|]. intros HK [? Hk]. split; [done|].
  intros x Hx. apply IH; [by apply K_stable|by apply Hk].
Qed.

Lemma vobeys_quiet {A} (p : prog A) tr (Q : A → list (event veff) → Prop) :
  (∀ trE, obeys_ p trE) → (∀ trE, only quiet p trE (λ _ _, True)) → K (part tr) →
  (∀ a tr', tr ⊆ tr' → K (part tr') → Q a tr') → vobeys (run p) tr Q.
Proof using K_stable.
  intros Hr Ho HK HQ. eapply run_only; [apply quiet_starts_nothing|apply Hr|].
  eapply follows_mono; [|by apply only_stable]. intros a trE Hk tr' Hs <-. by apply HQ.
Qed.

Lemma vobeys_store_unknown ctx id st tr (Q : outcome Result → list (event veff) → Prop) :
  K (part tr) → (∀ a tr', tr ⊆ tr' → K (part tr') → Q a tr') →
  vobeys (store_now c ctx id st unknownDispatchFailure) tr Q.
Proof using K_stable.
  intros Htr HQ. apply vobeys_now. intros now _. apply vobeys_quiet.
  - intros. apply obeys_unknown.
  - intros. apply only_StoreOutcome.
  - by apply K_stable.
  - intros a tr' Hs. apply HQ. set_solver.
Qed.

Lemma vobeys_GetExecution ctx id tr (Q : outcome ExecutionRecord → list (event veff) → Prop) :
  K (part tr) → (∀ a tr', tr ⊆ tr' → K (part tr') → Q a tr') → vobeys (run (coordinator_GetExecution c ctx id)) tr Q.
Proof using K_stable.
  apply vobeys_quiet; intros; [apply obeys_reading|eapply only_mono; [apply reading_quiet|]]; apply only_GetExecution.
Qed.

Lemma vobeys_expireResult ctx record tr (Q : result ExecutionRecord → list (event veff) → Prop) :
  K (part tr) → (∀ a tr', tr ⊆ tr' → K (part tr') → Q a tr') → vobeys (expireResult c ctx record) tr Q.
Proof using K_stable.
  intros Htr HQ. unfold expireResult. destruct (er_Result record) as [r|]; [|by apply HQ].
  apply vobeys_now. intros now _. case_decide; [apply HQ; [set_solver|by apply K_stable]|].
  apply vobeys_now. intros now' _. apply follows_bind. apply vobeys_quiet.
  - intros. apply obeys_GetResult.
  - intros. apply only_GetResult.
  - by do 2 (apply K_stable; [done|]).
  - intros [r' err] tr' Hs Hk.
    assert (vobeys (attempt (run (coordinator_GetExecution c ctx (rq_OperationID (er_Request record)))) returns) tr' Q).
    { apply vobeys_attempt. apply vobeys_GetExecution; [done|].
      intros [rec [e|]] tr'' Hs' Hk'; apply HQ; try done; clear -Hs Hs'; set_solver. }
    destruct err as [e|]; [|done]. destruct (negb _); [|done]. apply HQ; [clear -Hs; set_solver|done].
Qed.

Lemma fine_Reconcile {B} ctx id (k : outcome ExecutionRecord → vprog B) tr :
  K (part tr) → (∀ r tr', tr ⊆ tr' → K (part tr') → fine (k r) tr') → fine (run (Reconcile c ctx id) ≫= k) tr.
Proof using K_stable.
  intros Htr Hk. apply follows_bind, vobeys_quiet; [intros; apply obeys_Reconcile|intros; apply only_Reconcile|done|done].
Qed.

Lemma fine_GetExecution {B} ctx id (k : ExecutionRecord → vprog (result B)) tr :
  K (part tr) → (∀ r tr', K (part tr') → fine (k r) tr') → fine (attempt (run (coordinator_GetExecution c ctx id)) k) tr.
Proof using K_stable.
  intros Htr Hk. apply vobeys_attempt, vobeys_GetExecution; [done|]. intros [r [e|]] tr' _ Htr'; [done|by apply Hk].
Qed.

Lemma fine_store_unknown {B} ctx id st (k : Result → vprog (result B)) tr :
  K (part tr) → (∀ r tr', K (part tr') → fine (k r) tr') →
  fine (attempt (store_now c ctx id st unknownDispatchFailure) k) tr.
Proof using K_stable.
  intros Htr Hk. apply vobeys_attempt, vobeys_store_unknown; [done|]. intros [r [e|]] tr' _ ?; [done|by apply Hk].
Qed.

Lemma fine_expireResult {B} ctx record (k : ExecutionRecord → vprog (result B)) tr :
  K (part tr) → (∀ r tr', K (part tr') → fine (k r) tr') → fine (asking (expireResult c ctx record) k) tr.
Proof using K_stable.
  intros Htr Hk. apply vobeys_asking, vobeys_expireResult; [done|]. intros [r|e] tr' _ ?; [by apply Hk|done].
Qed.
End quiet.

(** *** Whole methods *)

Definition anything (_ : list (event eff)) : Prop := True.
Lemma anything_stable X (e : eff X) x trE : quiet X e = true → anything trE → anything (Ev e x :: trE).
Proof. done. Qed.
Lemma quiet_stable X (e : eff X) x trE : quiet X e = true → Forall (of_kind quiet) trE → Forall (of_kind quiet) (Ev e x :: trE).
Proof. by constructor. Qed.

Lemma fine_reconcileExecutionView ctx record tr : fine (reconcileExecutionView c ctx record) tr.
Proof.
  apply (fine_expireResult anything anything_stable); [done|]. clear record tr. intros record tr _. destruct (pending record); [|done].
  apply (fine_Reconcile anything anything_stable); [done|]. intros [r [e|]] tr' _ _; [|done]. destruct (errors_is _ _); [|done].
  apply (fine_store_unknown anything anything_stable); [done|]. intros _ tr'' _. by apply (fine_GetExecution anything anything_stable).
Qed.

Lemma fine_read_execution ctx id record tr : fine (read_execution c ctx id record) tr.
Proof.
  apply (fine_expireResult anything anything_stable); [done|]. clear record tr. intros record tr _. destruct (pending record); [|done].
  apply (fine_Reconcile anything anything_stable); [done|]. intros [r [e|]] tr' _ _; [|done]. destruct (errors_is _ _); [|done].
  apply (fine_store_unknown anything anything_stable); [done|]. intros res tr'' _. by destruct (NewTerminalSummary res).
Qed.

Lemma fine_read_cancellation ctx r tr : fine (read_cancellation c ctx r) tr.
Proof.
  apply (fine_GetExecution anything anything_stable); [done|]. intros target tr' _. by apply (fine_expireResult anything anything_stable).
Qed.

(** Replaying: the operation is on record, so nothing is started. *)
Lemma fine_acceptExecReplay ctx rq existing tr :
  all_of reading tr → rq_OperationID rq ∈ found (part tr) → fine (acceptExecReplay c ctx rq existing) tr.
Proof.
  intros Htr Hf. apply vobeys_attempt, run_Start; [done|by left|]. intros [r [e|]] tr' Hs Hp; [done|]. cbn.
  case_decide as Hd; [done|]. apply fine_reconcileExecutionView.
Qed.

(** The failure of a dispatch is stored for an execution that was not started. *)
Lemma StoreOutcome_exact ctx id st ct o tr :
  dispatch_failed tr id o →
  follows (λ tr X e, quiet X e = true ∧
      match e with EStoreResult _ r => dispatch_failed tr (r_OperationID r) (outcome_of r) | EAttachExecution _ _ => False | _ => True end) plausible
    (StoreOutcome c ctx id st ct o) tr (λ _ _, True).
Proof.
  intros Hd. unfold StoreOutcome, usable. destruct (c_repository c); [|done].
  apply follows_context; [done|done|]. cbn. split; [done|]. intros [record|e] Hid; cbn in *; [|done].
  assert (Hobs : ∀ r trE, follows (λ tr X e, quiet X e = true ∧
      match e with EStoreResult _ r => dispatch_failed tr (r_OperationID r) (outcome_of r) | EAttachExecution _ _ => False | _ => True end) plausible
      (observed c ctx r) trE (λ _ _, True)).
  { intros r trE. unfold observed, observeResult. destruct (c_resultSink c); cbn; [|done]. split; [done|]. by intros [[]|e] _. }
  destruct (er_Result record) as [r|]; [apply Hobs|]. destruct (NewResult _ _ _ _) as [r|e] eqn:En; cbn; [|done].
  apply NewResult_outcome in En as [-> ->]. rewrite Hid. split; [|intros [[]|e] _; [apply Hobs|done]]. split; [done|].
  destruct Hd as (? & [Hw|[? Hno]]); (split; [done|]); [left; eapply write_failed_mono; [|exact Hw]; set_solver|right].
  split; [done|]. intros ctx' inv ref Hinv. rewrite !not_elem_of_cons.
  split_and!; [by apply not_accepted..|by apply Hno].
Qed.

Lemma fine_dispatched ctx rq r e tr :
  start_post rq (r, e) (part tr) → fine (dispatched c ctx rq r e) tr.
Proof.
  intros Hp. destruct e as [e|]; [|done]. unfold dispatched. case_decide as Hn; [done|]. specialize (Hp e eq_refl Hn).
  apply follows_bind. apply vobeys_now. intros now _.
  assert (Hk : ∀ (a : outcome Result) tr', vobeys (let '(_, storeErr) := a in
      match storeErr with
      | Some e' => fails (e ++ e')
      | None =>
          '(record, readErr) ← run (coordinator_GetExecution c (CtxWithoutCancel (nonNilContext ctx)) (rq_OperationID rq));
          match readErr with Some e' => fails (e ++ e') | None => Ret (executionView record) end
      end) tr' (λ _ _, True)).
  { intros [res [e'|]] tr'; [done|]. apply follows_bind, (vobeys_GetExecution anything anything_stable); [done|]. by intros [rec [e'|]] tr''. }
  destruct (errors_is e ErrDispatchUnknown) eqn:Ee.
  - apply (vobeys_quiet anything anything_stable); [intros; apply obeys_unknown|intros; apply only_StoreOutcome|done|].
    intros a tr' _ _. apply Hk.
  - eapply (follows_embed (@VExec) exec_part (λ _ _ _, eq_refl)); [| |eapply follows_mono; [|apply StoreOutcome_exact]].
    + intros tr' X e' _ [Hq He']. cbn. split; [|destruct e'; try done; by right]. destruct e'; try done. by left.
    + done.
    + intros a trE _ tr' _ _. apply Hk.
    + split; [done|]. destruct (Hp eq_refl) as [Hw|[Hres Hno]]; [left; eapply write_failed_mono; [|exact Hw]; set_solver|right].
      split; [done|]. intros ctx' inv ref _. apply not_elem_of_cons. split; [by apply not_accepted|by apply Hno].
Qed.

(** *** Checking the sandbox *)

Lemma vobeys_checkSandbox (P : ∀ X, eff X → bool) ctx sandboxID generation tr (Q : result unit → list (event veff) → Prop) :
  P Time ENow = true → all_of P tr →
  (∀ r tr', tr ⊆ tr' → all_of P tr' → (r = Ok () → sandbox_checked tr' sandboxID generation) → Q r tr') →
  vobeys (checkSandbox ctx sandboxID generation) tr Q.
Proof.
  intros HP Htr HQ. apply vobeys_asking. cbn. split; [done|]. intros [sandbox|e] _.
  - destruct (sandbox_state sandbox sandboxID generation) as [[]|e] eqn:Es; [|by apply HQ; [set_solver|..]].
    apply vobeys_now. intros now _. unfold After. case_decide as Hl; apply HQ; try set_solver; try (by constructor).
    intros _. exists ctx, sandbox, now. split_and!; [set_solver|set_solver|done|lia].
  - apply HQ; [set_solver|done|done].
Qed.

Lemma fine_accept_new ctx rq tr : all_of reading tr → fine (accept_new c support ctx rq) tr.
Proof.
  intros Htr. apply vobeys_asking.
  assert (Hgo : ∀ tr', all_of reading tr' → (support = true → ∃ ctx, Ev (VCheckSupport ctx rq) (Ok ()) ∈ tr') →
    fine (asking (checkSandbox ctx (rq_SandboxID rq) (rq_ExpectedGeneration rq)) (λ _,
      '(reservation, dispatchErr) ← run (Start c ctx rq); dispatched c ctx rq reservation dispatchErr)) tr').
  { clear tr Htr. intros tr Htr Hsup. apply vobeys_asking, (vobeys_checkSandbox reading); [done|done|].
    intros [[]|e] tr' Hs Htr' Hch; [|done]. apply follows_bind, run_Start; [done| |].
    - right. split; [by apply Hch|]. intros Hsp. destruct (Hsup Hsp) as [ctx' ?]. exists ctx'. auto.
    - intros [r e] tr'' _ Hp. by apply fine_dispatched. }
  destruct support; cbn.
  - split; [done|]. intros [[]|e] _; [|done]. apply Hgo; [done|]. intros _. exists ctx. left.
  - by apply Hgo.
Qed.

Lemma fine_Cancel ctx i tr (k : CancellationResult → vprog (result View)) :
  all_of quiet tr → (∀ r tr', fine (k r) tr') → fine (attempt (run (ExecCoordinator.Cancel c ctx i)) k) tr.
Proof.
  intros Htr Hk. destruct (quiet_counts _ Htr) as [Hc Hi]. apply vobeys_attempt. eapply run_only; [|by apply obeys_Cancel|].
  - by intros X e.
  - eapply follows_mono; [|apply only_Cancel]. intros [r [e|]] trE _ tr' _ _; [done|apply Hk].
Qed.

Lemma fine_cancel_new ctx i tr : all_of quiet tr → fine (cancel_new c ctx i) tr.
Proof.
  intros Htr. apply vobeys_asking, (vobeys_checkSandbox quiet); [done|done|]. intros [[]|e] tr1 _ Htr1 _; [|done].
  apply (fine_GetExecution _ quiet_stable); [done|]. intros target tr2 Htr2.
  apply (fine_expireResult _ quiet_stable); [done|]. clear target. intros target tr3 Htr3. case_decide; [done|].
  apply (fine_Reconcile _ quiet_stable); [done|]. intros [target' [e|]] tr4 _ Htr4.
  - destruct (errors_is _ _); [|done]. by apply (fine_store_unknown _ quiet_stable).
  - case_decide; [done|]. by apply fine_Cancel.
Qed.
End vertical.

(** ** The interface follows the rule *)

Lemma vobeys_ready support {A} a ctx (k : Coordinator → vprog (result A)) :
  (∀ c tr, all_of reading tr → follows (vrule support) vplausible (k c) tr (λ _ _, True)) →
  follows (vrule support) vplausible (ready a ctx k) [] (λ _ _, True).
Proof.
  intros Hk. unfold ready. destruct (va_coordinator a) as [c|]; [|done]. destruct (_ && _); [|done].
  destruct ctx; cbn; try done; (split; [done|]); intros [e|] _; try done; apply Hk; by constructor.
Qed.

Lemma found_GetExecution support c ctx id tr (Q : outcome ExecutionRecord → list (event veff) → Prop) :
  all_of reading tr →
  (∀ r tr', all_of reading tr' → (r.2 = None → id ∈ found (part tr')) → Q r tr') →
  follows (vrule support) vplausible (run (coordinator_GetExecution c ctx id)) tr Q.
Proof.
  intros Htr HQ. eapply (run_only support reading); [by intros X []|apply obeys_reading, only_GetExecution|].
  unfold coordinator_GetExecution, usable. destruct (c_repository c); [|by intros tr' _ Hp; apply HQ; [rewrite Hp|]].
  apply follows_context; [done| |].
  - intros e trE [-> | ->] tr' _ Hp; (apply HQ; [rewrite Hp; by repeat constructor|done]).
  - cbn. split; [done|]. intros [r|e] _ tr' _ Hp; (apply HQ; [rewrite Hp; by repeat constructor|]); [|done].
    intros _. rewrite Hp. left.
Qed.

Lemma fine_AcceptExec support a ctx rq :
  va_support a = support → follows (vrule support) vplausible (AcceptExec a ctx rq) [] (λ _ _, True).
Proof.
  intros Hsup. apply vobeys_ready. intros c tr Htr. apply vobeys_now. intros now _.
  destruct (ExecModel.Request_Validate rq now); [|done]. apply follows_bind, found_GetExecution; [by constructor|].
  intros [existing [e|]] tr' Htr' Hf.
  - destruct (negb _); [done|]. rewrite Hsup. by apply fine_accept_new.
  - apply fine_acceptExecReplay; [done|by apply Hf].
Qed.

Lemma fine_AcceptCancellation support a ctx i :
  follows (vrule support) vplausible (AcceptCancellation a ctx i) [] (λ _ _, True).
Proof.
  apply vobeys_ready. intros c tr Htr%all_quiet. apply vobeys_now. intros now _.
  destruct (CancellationIntent_Validate i now); [|done]. apply follows_bind.
  apply (vobeys_quiet support _ quiet_stable);
    [intros; apply obeys_reading, only_GetCancellation|intros; eapply only_mono; [apply reading_quiet|apply only_GetCancellation]
    |by constructor|].
  intros [r [e|]] tr' _ Htr'; [destruct (negb _); [done|]|]; [by apply fine_cancel_new|by apply fine_Cancel].
Qed.

Lemma fine_vertical_GetResult support a ctx id :
  follows (vrule support) vplausible (vertical_GetResult a ctx id) [] (λ _ _, True).
Proof.
  apply vobeys_ready. intros c tr _.
  assert (Hfin : ∀ tr, follows (vrule support) vplausible (now ← now_; attempt (run (GetResult c ctx id now)) returns) tr (λ _ _, True)).
  { clear tr. intros tr. apply vobeys_now. intros now _. apply vobeys_attempt.
    apply (vobeys_quiet support _ anything_stable); [intros; apply obeys_GetResult|intros; apply only_GetResult|done|]. by intros [r [e|]]. }
  apply (fine_Reconcile support c _ anything_stable); [done|]. intros [r [e|]] tr' _ _; [|apply Hfin].
  destruct (errors_is _ _); [|done]. apply (fine_GetExecution support c _ anything_stable); [done|]. intros record tr'' _.
  apply (fine_store_unknown support c _ anything_stable); [done|]. intros _ tr3 _. apply Hfin.
Qed.

Lemma fine_ReadOperation support a ctx id :
  follows (vrule support) vplausible (ReadOperation a ctx id) [] (λ _ _, True).
Proof.
  apply vobeys_ready. intros c tr _. apply follows_bind.
  apply (vobeys_GetExecution support c _ anything_stable); [done|]. intros [execution e] tr1 _ _. apply follows_bind.
  apply (vobeys_quiet support _ anything_stable);
    [intros; apply obeys_reading, only_GetCancellation|intros; eapply only_mono; [apply reading_quiet|apply only_GetCancellation]|done|].
  intros [cancellation e'] tr2 _ _. destruct e, e'; [by repeat case_match|..|done].
  - apply fine_read_cancellation.
  - apply fine_read_execution.
Qed.

Lemma fine_vertical_Recover support a ctx :
  follows (vrule support) vplausible (vertical_Recover a ctx) [] (λ _ _, True).
Proof.
  apply vobeys_ready. intros c tr _. apply vobeys_attempt.
  apply (vobeys_quiet support _ anything_stable); [intros; apply obeys_Recover|intros; apply only_Recover|done|]. by intros [r [e|]].
Qed.

Lemma vertical_follows support p :
  vertical_spawn support p → follows (vrule support) vplausible p [] (λ _ _, True).
Proof.
  intros (a & call & -> & Hs). destruct call; apply follows_bind; (eapply follows_mono; [by intros|]).
  - by apply fine_AcceptExec.
  - apply fine_AcceptCancellation.
  - apply fine_vertical_GetResult.
  - apply fine_ReadOperation.
  - apply fine_vertical_Recover.
Qed.
