(* ===== verification/ExecVerticalGuarantees.v ===== *)
(** * Guarantees of the execution application

    What holds of every interleaving of any number of calls of the application,
    whoever crashes where; and an interleaving in which a retry that overtakes the
    original request abandons a running execution. *)

From S2P Require Import Prelude Program Threads LifecycleModel ExecModel ExecState ExecInvariant ExecRepository ExecGuarantees ExecPorts ExecMemory ExecCoordinator ExecConcurrency ExecPoolGuarantees Operations ExecVertical ExecVerticalConcurrency.
From stdpp Require Import base gmap strings list fin_maps relations.
From Stdlib Require Import ZArith Lia.

Local Open Scope Z_scope.

(** ** Traces and their parts *)

Lemma part_omap {B} (f : event eff → option B) tr : omap f (part tr) = omap (λ ev, exec_part ev ≫= f) tr.
Proof. induction tr as [|ev tr IH]; [done|]. cbn. destruct (exec_part ev) as [ev'|]; cbn; [|done]. destruct (f ev'); by rewrite <- IH. Qed.

Lemma elem_of_part {X} (e : eff X) x tr : Ev e x ∈ part tr ↔ Ev (VExec e) x ∈ tr.
Proof.
  unfold part. rewrite list_elem_of_omap. split.
  - intros ([Y e' y] & Hin & He). destruct e'; cbn in He; [|done..]. apply (inj Some) in He.
    apply (f_equal (λ ev : event eff, let '@Ev _ X e x := ev in Ev (VExec e) x)) in He. by rewrite <- He.
  - intros Hin. by exists (Ev (VExec e) x).
Qed.

Lemma part_mono tr tr' : tr ⊆ tr' → part tr ⊆ part tr'.
Proof. intros Hs ev. unfold part. rewrite !list_elem_of_omap. intros (y & ? & ?). exists y. auto. Qed.

#[export] Instance part_perm : Proper ((≡ₚ) ==> (≡ₚ)) part.
Proof. intros l k. apply omap_Permutation. Qed.

Lemma lawful_part support tr : lawful (vrule support) tr → lawful (rule true) (part tr).
Proof.
  induction tr as [|[X e x] tr IH]; [done|]. intros [Hr Hl]. destruct e; cbn; [|by apply IH..].
  split; [apply Hr|by apply IH].
Qed.

(** ** The state and the history *)

Definition vhistory (evs : list (event veff)) (s : State) : Prop :=
  ledger (part evs) s ∧ ∀ id, id ∈ found (part evs) → is_Some (Executions s !! id).

Lemma vrespond_wf support {X} (e : veff X) tr s x s' :
  vrule support tr X e → exec_wf s → vrespond e s x s' → exec_wf s' ∧ vplausible X e x.
Proof. destruct e; cbn; [intros [Hr _]; by apply respond_wf with true (part tr)|by intros _ ? ->..]. Qed.

Lemma found_step {X} (e : eff X) evs s x s' :
  exec_wf s → (∀ id, id ∈ found evs → is_Some (Executions s !! id)) → respond e s x s' →
  ∀ id, id ∈ found (Ev e x :: evs) → is_Some (Executions s' !! id).
Proof.
  intros Hs Hf Hx id Hid. destruct (respond_keeps e s x s' Hs Hx) as [Hkeep _].
  destruct (decide (id ∈ found evs)) as [?|Hn]; [by apply Hkeep, Hf|].
  destruct e; cbn in Hid; try done. destruct x as [r|]; cbn in Hid; [|done].
  apply elem_of_cons in Hid as [->|?]; [|done]. cbn in Hx. apply answers_read_Ok in Hx as [Hg ->].
  unfold GetExecution in Hg. by destruct (Executions s !! _).
Qed.

Lemma vhistory_step support X (e : veff X) tr evs s x s' :
  vrule support tr X e → tr ⊆ evs → exec_wf s → vhistory evs s → vrespond e s x s' → vhistory (Ev e x :: evs) s'.
Proof.
  intros Hr _ Hs [Hl Hf] Hx. destruct e; cbn in *; [|by subst..]. destruct Hr as [Hr _]. split.
  - by eapply ledger_step.
  - by eapply found_step.
Qed.

Lemma vertical_history support s ts : vertical_run support s ts → vhistory (events ts) s.
Proof.
  apply (pool_history (@vrespond) (vertical_spawn support) (vrule support) vplausible exec_wf vhistory).
  - intros evs evs' s' Hp [Hl Hf]. apply part_perm in Hp. split; [by apply (ledger_proper _ _ Hp _ _ eq_refl)|].
    intros id Hid. apply Hf. unfold found in *. by rewrite Hp.
  - apply vhistory_step.
  - intros. by eapply vrespond_wf.
  - apply vertical_follows.
  - apply exec_wf_init.
  - split; [apply ledger_init|]. intros id Hid. by apply not_elem_of_nil in Hid.
Qed.

Lemma vertical_lawful support s ts :
  vertical_run support s ts → exec_wf s ∧ ∀ th, th ∈ ts → lawful (vrule support) (th_trace th).
Proof.
  intros Hrun. eapply (pool_lawful (@vrespond) (vertical_spawn support) (vrule support) vplausible exec_wf) in Hrun as [? H].
  - split; [done|]. intros th Hth. by destruct (H th Hth).
  - intros. by eapply vrespond_wf.
  - apply vertical_follows.
  - apply exec_wf_init.
Qed.

(** Traces that were run are consistent: what is on record is never reserved again. *)
Lemma vertical_consistent support s ts :
  vertical_run support s ts → ∀ th, th ∈ ts → consistent (part (th_trace th)).
Proof.
  intros Hrun. enough (Hall : ∀ σ, rtc (pool_step (@vrespond) (vertical_spawn support)) (NewState, []) σ →
    ∀ th, th ∈ σ.2 → consistent (part (th_trace th))) by apply (Hall _ Hrun).
  clear Hrun s ts. apply (rtc_ind_r (λ σ, ∀ th, th ∈ σ.2 → consistent (part (th_trace th)))); [by intros th ?%not_elem_of_nil|].
  intros σ1 σ2 Hrun Hstep IH. destruct Hstep as [s ts p Hp|s ts1 tr X e k ts2 x s' Hr]; cbn in *.
  - intros th [->|Hth]%elem_of_cons; [done|by apply IH].
  - intros th [Hth|[->|Hth]%elem_of_cons]%elem_of_app; [apply IH; set_solver| |apply IH; set_solver].
    assert (Htr : consistent (part tr)) by (apply (IH (mkThread tr (Vis e k))); set_solver).
    destruct e; cbn; [|done..]. split; [|done]. intros id Hid Hin. destruct (vertical_history support _ _ Hrun) as [_ Hf].
    destruct (reserved_fresh e s x s' id Hr Hid) as [Hn _]. destruct (Hf id) as [r ?]; [|congruence].
    unfold found in *. apply list_elem_of_omap in Hin as (ev & Hev & ?). apply list_elem_of_omap. exists ev. split; [|done].
    eapply part_mono; [|exact Hev]. apply (trace_events (mkThread tr (Vis (VExec e) k))). set_solver.
Qed.

(** ** Dispatch *)

Lemma vertical_starts support s ts :
  vertical_run support s ts → starts (part (events ts)) ⊆+ reservations (part (events ts)).
Proof.
  intros [_ Hl]%vertical_lawful. unfold starts, reservations. rewrite !part_omap. apply events_submseteq.
  intros th Hth. rewrite <- !part_omap. by eapply (lawful_starts true), lawful_part, Hl.
Qed.

(** C4 (safety): the executor is called at most once per execution, and only by a
    call in which the lifecycle reported the sandbox as ready, at the generation the
    request expects and with a lease that has not run out, and the runtime accepted
    the request as supported; over every interleaving of requests, retries,
    cancellations, reads and recoveries, with writes that fail, commit without an
    answer or are cut off by a crash. *)
Theorem executions_start_once_when_ready support s ts :
  vertical_run support s ts →
  NoDup (starts (part (events ts))) ∧ exec_wf s ∧
  ∀ th ctx inv x, th ∈ ts → Ev (VExec (EStart ctx inv)) x ∈ th_trace th →
    is_Some (Executions s !! rq_OperationID (iv_Request inv)) ∧ authorised support (th_trace th) (iv_Request inv).
Proof.
  intros Hrun. destruct (vertical_history support s ts Hrun) as [[[Hnd Hrec] _ _ _] _].
  destruct (vertical_lawful support s ts Hrun) as [Hwf Hl]. pose proof (vertical_starts support s ts Hrun) as Hsub.
  split; [by eapply submseteq_nodup|]. split; [done|]. intros th ctx inv x Hth Hev. split.
  - apply Hrec. eapply elem_of_submseteq; [|exact Hsub]. apply list_elem_of_omap. exists (Ev (EStart ctx inv) x).
    split; [|done]. apply elem_of_part, in_events. eauto.
  - destruct (lawful_event _ _ _ (Hl th Hth) Hev) as (tr' & [pre Hpre] & [_ [_ Ha]]).
    assert (Hsub' : tr' ⊆ th_trace th) by (rewrite Hpre; set_solver).
    destruct Ha as [(ctx'&sb&now&?&?&?) Hs].
    + pose proof (vertical_consistent support s ts Hrun th Hth) as Hc. rewrite Hpre in Hc. clear -Hc.
      induction pre as [|ev pre IH]; [by destruct Hc|]. cbn in Hc. destruct (exec_part ev); [destruct Hc as [_ Hc]|]; by apply IH.
    + split; [exists ctx', sb, now; auto|]. intros Hsp. destruct (Hs Hsp) as [ctx'' ?]. exists ctx''. auto.
Qed.

(** ** Evidence *)

Lemma part_app tr tr' : part (tr ++ tr') = part tr ++ part tr'.
Proof. apply omap_app. Qed.

Lemma lawful_suffix {E : Type → Type} (R : list (event E) → ∀ X, E X → Prop) pre tr : lawful R (pre ++ tr) → lawful R tr.
Proof. induction pre as [|[X e x] pre IH]; [done|]. intros [_ H]. by apply IH. Qed.

(** A call that stored something starts nothing any more. *)
Lemma stored_starts_no_more support pre tr ctx inv x ctx' res y :
  lawful (vrule support) (pre ++ Ev (VExec (EStoreResult ctx' res)) y :: tr) → Ev (VExec (EStart ctx inv)) x ∉ pre.
Proof.
  intros Hl Hin. apply list_elem_of_split in Hin as (l1 & l2 & ->).
  rewrite <- app_assoc in Hl. apply lawful_suffix in Hl as [[_ [Hst _]] _].
  unfold stored in Hst. rewrite part_app, omap_app in Hst. apply app_eq_nil in Hst as [_ Hst]. done.
Qed.

(** No executor accepted an execution whose dispatch failure is on record. *)
Lemma failed_dispatch_never_accepted support s ts th pre tr' ctx res x ctx' inv ref :
  vertical_run support s ts → th ∈ ts → th_trace th = pre ++ Ev (VExec (EStoreResult ctx res)) x :: tr' →
  r_OperationID res ∈ reservations (part tr') →
  (∀ ctx inv ref, rq_OperationID (iv_Request inv) = r_OperationID res → Ev (EStart ctx inv) (Ok ref) ∉ part tr') →
  rq_OperationID (iv_Request inv) = r_OperationID res → Ev (VExec (EStart ctx' inv)) (Ok ref) ∉ events ts.
Proof.
  intros Hrun Hth Htr Hres Hno Hid (th2 & Hin & Hth2)%in_events.
  destruct (vertical_lawful support s ts Hrun) as [_ Hl].
  assert (Hk : r_OperationID res ∈ reservations (part (th_trace th))).
  { unfold reservations in *. apply list_elem_of_omap in Hres as (ev & ? & ?). apply list_elem_of_omap. exists ev. split; [|done].
    rewrite Htr. eapply part_mono; [|done]. set_solver. }
  assert (Hk2 : r_OperationID res ∈ reservations (part (th_trace th2))).
  { eapply elem_of_submseteq; [|by apply (lawful_starts true), (lawful_part support), Hl]. apply list_elem_of_omap.
    exists (Ev (EStart ctx' inv) (Ok ref)). split; [by apply elem_of_part|]. cbn. by rewrite Hid. }
  apply list_elem_of_split in Hth as (ts1 & ts2 & ->).
  assert (th2 = th ∨ th2 ∈ ts1 ++ ts2) as [->|Ho] by set_solver.
  - rewrite Htr in Hin. apply elem_of_app in Hin as [Hin|[Hin|Hin]%elem_of_cons].
    + specialize (Hl th). rewrite Htr in Hl. eapply stored_starts_no_more; [apply Hl; set_solver|exact Hin].
    + done.
    + eapply Hno; [exact Hid|by apply elem_of_part].
  - destruct (vertical_history support _ _ Hrun) as [[[Hnd _] _ _ _] _].
    assert (Hp : events (ts1 ++ th :: ts2) ≡ₚ th_trace th ++ events (ts1 ++ ts2)).
    { unfold events. rewrite !bind_app. cbn. rewrite !app_assoc. f_equiv. apply Permutation_app_comm. }
    unfold reservations in *. rewrite Hp, part_app, omap_app in Hnd. apply NoDup_app in Hnd as (_ & Hd & _).
    apply (Hd _ Hk). apply list_elem_of_omap in Hk2 as (ev & Hev & ?). apply list_elem_of_omap. exists ev. split; [|done].
    eapply part_mono; [|exact Hev]. by apply trace_events.
Qed.

(** C10 (safety): every known outcome on record is backed.  The terminal summary of an
    execution, retained or expired, says that the outcome is unknown, or repeats
    what the runtime reported about this execution after it had stopped, or says
    cancelled and the canceler confirmed it, or says that the execution could not be
    started, and then no call of the executor for it ever succeeded, unless the
    repository failed to write a reservation of this very operation. *)
Theorem recorded_outcomes_are_backed support s ts k r t :
  vertical_run support s ts → Executions s !! k = Some r → er_Terminal r = Some t →
  ts_Status t = ResultOutcomeUnknown ∨
  (ts_Status t = ResultCancelled ∧
     ∃ ctx a, Ev (VExec (ECancel ctx a)) (Ok ()) ∈ events ts ∧ ea_OperationID a = k) ∨
  (∃ ctx rq ob, Ev (VExec (EObserve ctx rq)) (Ok ob) ∈ events ts ∧ rq_OperationID rq = k ∧
     ob_Running ob = false ∧ Observation_Validate ob = Ok () ∧
     ts_Status t = ob_Status ob ∧ ts_Error t = ob_Error ob) ∨
  (ts_Status t = ResultFailed ∧ ts_Error t = ro_Error knownDispatchFailure ∧
     (write_failed (part (events ts)) k ∨
      ∀ ctx inv ref, rq_OperationID (iv_Request inv) = k → Ev (VExec (EStart ctx inv)) (Ok ref) ∉ events ts)).
Proof.
  intros Hrun Hk Ht. destruct (vertical_history support s ts Hrun) as [[_ _ _ Hsum] _].
  destruct (Hsum k r t Hk Ht) as (ctx & res & x & Hev & <- & ->). apply elem_of_part, in_events in Hev as (th & Hev & Hth).
  destruct (vertical_lawful support s ts Hrun) as [_ Hl].
  destruct (lawful_event _ _ _ (Hl th Hth) Hev) as (tr' & [pre Hpre] & [_ [Hknown|Hfailed]]).
  all: assert (Hsub : part tr' ⊆ part (events ts))
    by (apply part_mono; transitivity (th_trace th); [rewrite Hpre; set_solver|by apply trace_events]).
  - apply (evidence_known_mono _ _ _ _ Hsub) in Hknown as [?|[(ctx'&a&?&?&?)|(ctx'&rq&ob&?&?&?&?&Ho)]]; [by left|right; left|right; right; left].
    + split; [done|]. exists ctx', a. split; [by apply elem_of_part|done].
    + exists ctx', rq, ob. split_and!; try done; [by apply elem_of_part|..]; by injection Ho.
  - do 3 right. destruct Hfailed as (Ho & Hcase). injection Ho as Hstatus _ _ _ _ Herr. split_and!; [done|done|].
    destruct Hcase as [Hw|[Hres Hno]]; [left; by eapply write_failed_mono|right].
    intros ctx' inv ref Hid. by eapply failed_dispatch_never_accepted.
Qed.

(** ** Sample pools *)

Section interleaving.
Context {E : Type → Type} {C W : Type} (h : ∀ X, E X → W → X * W).
Context (respond : ∀ X, E X → C → X → C → Prop) (spawn : Program.prog E () → Prop) (abs : W → C).
Context (implements : ∀ X (e : E X) w, respond X e (abs w) (h X e w).1 (abs (h X e w).2)).

(** The first [n] calls of a thread. *)
Fixpoint advance (n : nat) (th : thread E) (w : W) : thread E * W :=
  match n, th_prog th with
  | S n, Vis e k => let '(x, w') := h _ e w in advance n (mkThread (Ev e x :: th_trace th) (k x)) w'
  | _, _ => (th, w)
  end.

Lemma pool_advance n th w ts1 ts2 :
  rtc (pool_step respond spawn) (abs w, ts1 ++ th :: ts2) (abs (advance n th w).2, ts1 ++ (advance n th w).1 :: ts2).
Proof using implements.
  revert th w. induction n as [|n IH]; intros [tr p] w; [constructor|]. destruct p as [a|X e k]; [constructor|]. cbn.
  pose proof (implements X e w) as Hr. destruct (h X e w) as [x w']. cbn in *.
  eapply rtc_l; [|apply IH]. apply (pool_call respond spawn (abs w) ts1 tr X e k ts2 x (abs w') Hr).
Qed.
End interleaving.

Module VerticalRuns.
Definition vertical : Vertical := mkVertical (Some PoolRuns.coordinator) true true true.
Definition sandbox : Sandbox :=
  mkSandbox "sandbox-1" "tenant" "order" "workspace" "rev" "sandbox-runtime-coding-v1" (mkNetworkPolicy NetworkNone "" false)
    "slot/main" DesiredReady ObservedReady 1 1 (ExecRuns.t0 + 1000 * Second) 1 1.

Section handler.
Context (rt : Runtime).

Definition vhandle {X} (e : veff X) : World → X * World :=
  match e in veff X return World → X * World with
  | VExec e => handle rt e
  | VGetSandbox _ _ => λ w, (Ok sandbox, w)
  | VCheckSupport _ _ => λ w, (Ok (), w)
  end.

Lemma vhandle_responds X (e : veff X) w : vrespond e (abs w) (vhandle e w).1 (abs (vhandle e w).2).
Proof. destruct e; cbn; [apply exec_handle_responds|done..]. Qed.
End handler.

Definition calls : list (vprog ()) :=
  [vertical_prog vertical (ApiAcceptExec CtxCaller ExecRuns.request);
   vertical_prog vertical (ApiAcceptExec CtxCaller ExecRuns.request);
   vertical_prog vertical (ApiReadOperation CtxCaller "exec-1");
   vertical_prog vertical (ApiVerticalResult CtxCaller "exec-1")].
Definition final : list (thread veff) * World := pool_of (@vhandle PoolRuns.runtime) calls PoolRuns.world [].

(** A runtime that refuses every execution. *)
Definition refusing : Runtime :=
  mkRuntime (λ _ _, Err [ErrExternal "no runtime"]) (λ _ _, Err [ErrExternal "no runtime"]) (λ _ _, Ok ()) (λ _ _, Ok ()) (λ _ _, Ok ()).
Definition refused : list (thread veff) * World :=
  pool_of (@vhandle refusing) [vertical_prog vertical (ApiAcceptExec CtxCaller ExecRuns.request)] PoolRuns.world [].

Lemma vertical_pool rt ps w :
  abs w = NewState → Forall (vertical_spawn true) ps →
  vertical_run true (abs (pool_of (@vhandle rt) ps w []).2) (pool_of (@vhandle rt) ps w []).1.
Proof.
  intros Hw Hps. unfold vertical_run. rewrite <- Hw.
  by apply (pool_sequence (@vhandle rt) (@vrespond) (vertical_spawn true) abs (vhandle_responds rt)).
Qed.

Lemma vertical_final_run : vertical_run true (abs final.2) final.1.
Proof. apply vertical_pool; [done|]. repeat (apply Forall_cons; split; [by eexists vertical, _|]). apply Forall_nil_2. Qed.
Lemma vertical_refused_run : vertical_run true (abs refused.2) refused.1.
Proof. apply vertical_pool; [done|]. repeat (apply Forall_cons; split; [by eexists vertical, _|]). apply Forall_nil_2. Qed.
End VerticalRuns.

Lemma executions_start_once_when_ready_witness :
  starts (part (events VerticalRuns.final.1)) = ["exec-1"] ∧ NoDup (starts (part (events VerticalRuns.final.1))).
Proof.
  split; [vm_compute; reflexivity|].
  exact (proj1 (executions_start_once_when_ready true _ _ VerticalRuns.vertical_final_run)).
Defined.

Lemma recorded_outcomes_are_backed_witness :
  ∃ r t, Executions (abs VerticalRuns.refused.2) !! "exec-1" = Some r ∧ er_Terminal r = Some t ∧ ts_Status t = ResultFailed ∧
    ∀ ctx inv ref, rq_OperationID (iv_Request inv) = "exec-1" → Ev (VExec (EStart ctx inv)) (Ok ref) ∉ events VerticalRuns.refused.1.
Proof.
  destruct (Executions (abs VerticalRuns.refused.2) !! "exec-1") as [r|] eqn:E; [|vm_compute in E; discriminate].
  destruct (er_Terminal r) as [t|] eqn:Et; [|vm_compute in E; injection E as <-; discriminate Et].
  pose proof (recorded_outcomes_are_backed true _ _ "exec-1" r t VerticalRuns.vertical_refused_run E Et) as Hr.
  exists r, t. split; [reflexivity|]. split; [exact Et|]. vm_compute in E. injection E as <-. cbn in Et. injection Et as <-.
  split; [reflexivity|]. destruct Hr as [H|[[H _]|[(ctx&rq&ob&H&_)|(_&_&[H|H])]]]; [discriminate H..| | |exact H].
  2: apply write_failed_by in H; vm_compute in H; discriminate H.
  exfalso. apply elem_of_part in H. vm_compute in H. clear -H. repeat (apply elem_of_cons in H as [H|H]; [discriminate H|]).
  by apply not_elem_of_nil in H.
Defined.

(** ** A retry that overtakes the original request *)

Module RacingRetry.
(** The runtime does not know an execution that was not started yet. *)
Definition runtime : Runtime :=
  mkRuntime (λ _ _, Ok "ref:runtime/1") (λ _ _, Err [ErrExecutionNotFound : sentinel]) (λ _ _, Ok ()) (λ _ _, Ok ()) (λ _ _, Ok ()).
Definition run_some (n : nat) (th : thread veff) (w : World) : thread veff * World := advance (@VerticalRuns.vhandle runtime) n th w.
Definition accept : thread veff := mkThread [] (vertical_prog VerticalRuns.vertical (ApiAcceptExec CtxCaller ExecRuns.request)).

(** The request up to its reservation; the same request again, to its end; the first
    one to its end. *)
Definition first_half : thread veff * World := run_some 10 accept PoolRuns.world.
Definition retry : thread veff * World := run_some 100 accept first_half.2.
Definition second_half : thread veff * World := run_some 100 first_half.1 retry.2.

Lemma first_run : vertical_run true (abs first_half.2) [first_half.1].
Proof.
  unfold vertical_run. change NewState with (abs PoolRuns.world).
  eapply rtc_l; [apply pool_spawn; by exists VerticalRuns.vertical, (ApiAcceptExec CtxCaller ExecRuns.request)|].
  apply (pool_advance (@VerticalRuns.vhandle runtime) (@vrespond) (vertical_spawn true) abs (VerticalRuns.vhandle_responds runtime) 10%nat accept PoolRuns.world [] []).
Qed.
End RacingRetry.

(** Records only evolve. *)
Lemma respond_evolves {X} (e : eff X) s x s' k r :
  exec_wf s → respond e s x s' → Executions s !! k = Some r → ∃ r', Executions s' !! k = Some r' ∧ record_evolves r r'.
Proof.
  intros Hs Hx Hk. destruct (respond_state e s x s' Hx) as [-> | (c & _ & ->)]; [by exists r|by apply exec_apply_evolves].
Qed.
