(* ===== verification/ExecVerticalViews.v ===== *)
(** * What the execution application reports

    A call of the application runs among others, which change the repository
    between any two of its own calls ([rely]).  What it reports about an execution
    is on record when it returns.  The last part follows a retry that finds an
    execution that has not got its receipt yet. *)

From S2P Require Import Prelude Program Threads LifecycleModel ExecModel ExecState ExecInvariant ExecRepository ExecPorts ExecCoordinator ExecConcurrency Operations ExecVertical ExecVerticalConcurrency ExecVerticalGuarantees.
From stdpp Require Import base gmap strings list fin_maps relations.
From Stdlib Require Import ZArith Lia.

Local Open Scope Z_scope.
Local Open Scope program_scope.

(** What others do: any call of the repository. *)
Definition rely (s s' : State) : Prop := ∃ c, timely c ∧ s' = exec_apply c s.

Definition evolved (s s' : State) : Prop :=
  ∀ k r, Executions s !! k = Some r → ∃ r', Executions s' !! k = Some r' ∧ record_evolves r r'.

#[export] Instance evolved_po : PreOrder evolved.
Proof.
  split; [intros s k r Hk; by exists r|]. intros s1 s2 s3 H12 H23 k r Hk.
  destruct (H12 k r Hk) as (r2 & Hk2 & ?). destruct (H23 k r2 Hk2) as (r3 & ? & ?). exists r3. split; [done|by etransitivity].
Qed.

Lemma rely_evolved s s' : rtc rely s s' → exec_wf s → exec_wf s' ∧ evolved s s'.
Proof.
  induction 1 as [s|s s1 s' (c & Hc & ->) _ IH]; intros Hs; [done|].
  destruct IH as [? ?]; [by apply exec_apply_wf|]. split; [done|]. etransitivity; [|done].
  intros k r. by apply exec_apply_evolves.
Qed.

(** A view agrees with a record: the identity, and the outcome on record with its
    time and failure; without one, whether the executor accepted the execution. *)
Definition agrees (v : View) (a : ExecutionRecord) : Prop :=
  vw_OperationID v = rq_OperationID (er_Request a) ∧ vw_AttemptID v = rq_AttemptID (er_Request a) ∧
  vw_FencingToken v = rq_FencingToken (er_Request a) ∧ vw_SandboxID v = rq_SandboxID (er_Request a) ∧
  match er_Terminal a with
  | Some t =>
      match ts_Status t with
      | ResultCompleted => vw_Status v = "succeeded"
      | ResultFailed => vw_Status v = "failed"
      | ResultCancelled => vw_Status v = "cancelled"
      | ResultOutcomeUnknown => vw_Status v = "outcome_unknown"
      | ResultStatusOther _ => False
      end ∧ vw_ObservedAt v = ts_CompletedAt t ∧
      match ts_Error t, vw_Failure v with
      | None, None => True
      | Some e, Some f =>
          vf_Code f = re_Code e ∧ vf_Retryable f = re_Retryable e ∧ vf_Outcome f = ErrorOutcome_string (re_Outcome e)
      | _, _ => False
      end
  | None =>
      vw_Failure v = None ∧
      if er_Attached a then vw_Status v = "running" ∧ vw_ObservedAt v = dp_AcceptedAt (er_Dispatch a)
      else vw_Status v = "accepted" ∧ vw_ObservedAt v = er_ReservedAt a
  end.

(** ** Since the call started

    The call starts in [s_0]. *)
Section since.
Context (s_0 : State).
Definition good (s : State) : Prop := exec_wf s ∧ evolved s_0 s.

(** The record [r] is what became of [a]. *)
Definition record_tracks (a r : ExecutionRecord) : Prop :=
  er_Request r = er_Request a ∧ er_ReservedAt r = er_ReservedAt a ∧
  (er_Attached a = true → er_Attached r = true ∧ er_Dispatch r = er_Dispatch a) ∧
  (∀ t, er_Terminal a = Some t → er_Terminal r = Some t).

Lemma record_tracks_trans r1 r2 r3 : record_tracks r1 r2 → record_tracks r2 r3 → record_tracks r1 r3.
Proof.
  intros (H1 & H2 & H3 & H4) (G1 & G2 & G3 & G4). split_and!; [congruence|congruence| |auto].
  intros Ha. destruct (H3 Ha) as [Hb ?]. destruct (G3 Hb). split; congruence.
Qed.

Lemma evolves_tracks r r' : record_evolves r r' → record_tracks r r'.
Proof. by intros (? & ? & ? & ? & _). Qed.

(** [a] is what became of the record that was on file when the call started, and the
    record on file is what became of [a]. *)
Definition tracks (a : ExecutionRecord) (s : State) : Prop :=
  (∀ r, Executions s_0 !! rq_OperationID (er_Request a) = Some r → record_tracks r a) ∧
  ∃ r, Executions s !! rq_OperationID (er_Request a) = Some r ∧ record_tracks a r.

Lemma tracks_evolved a s s' : evolved s s' → tracks a s → tracks a s'.
Proof.
  intros He (H0 & r & Hr & H). destruct (He _ _ Hr) as (r' & Hr' & G%evolves_tracks).
  split; [done|]. exists r'. split; [done|by eapply record_tracks_trans].
Qed.

Lemma on_file_tracks s k r : good s → Executions s !! k = Some r → tracks r s ∧ rq_OperationID (er_Request r) = k.
Proof.
  intros [Hs He] Hk. destruct (xw_record s Hs k r Hk) as [Hid _]. split; [|done]. unfold tracks. rewrite Hid. split.
  - intros r0 Hr0. destruct (He _ _ Hr0) as (r' & Hr' & Ht). simplify_eq. by apply evolves_tracks.
  - by exists r.
Qed.

Lemma rely_good s s' : rtc rely s s' → good s → good s' ∧ evolved s s'.
Proof.
  intros Hr [Hs He]. destruct (rely_evolved s s' Hr Hs). split; [|done]. split; [done|by etransitivity].
Qed.

(** The terminal summary of an operation. *)
Definition settled_as (id : string) (t : TerminalSummary) (s : State) : Prop :=
  ∃ r, Executions s !! id = Some r ∧ er_Terminal r = Some t.

Lemma settled_evolved id t s s' : evolved s s' → settled_as id t s → settled_as id t s'.
Proof. intros He (r & Hr & Ht). destruct (He _ _ Hr) as (r' & ? & _ & _ & _ & G & _). exists r'. auto. Qed.

(** *** The coordinator *)

Section coordinator.
Context (c : Coordinator).
Abbreviation holds p Q s := (safe (@respond) rely good p Q s).
(** What follows from a well-formed state, later. *)
Abbreviation later s Q := (∀ s', good s' → evolved s s' → Q s').

Definition timely_call {X} (e : eff X) : Prop := match e with EReserveCancellationAt _ _ now => 0 < now | _ => True end.

Lemma holds_vis {X A} (e : eff X) (k : X → prog A) Q s :
  good s → timely_call e →
  (∀ s0 x s1, good s0 → evolved s s0 → respond e s0 x s1 → good s1 → evolved s0 s1 → holds (k x) Q s1) →
  holds (Vis e k) Q s.
Proof.
  intros Hs Ht Hk s0 x s1 Hi Hr. destruct (rely_good s s0 Hi Hs) as [Hs0 He0].
  assert (Hs1 : good s1 ∧ evolved s0 s1).
  { enough (exec_wf s1 ∧ evolved s0 s1) as [? ?] by (split; [split; [done|]; etransitivity; [apply Hs0|done]|done]).
    destruct Hs0 as [Hs0 _]. destruct (respond_state e s0 x s1 Hr) as [-> | (cl & Hc & ->)]; [done|]. split.
    - apply exec_apply_wf; [|done]. destruct e; cbn in *; simplify_eq; done.
    - intros k' r'. by apply exec_apply_evolves. }
  destruct Hs1 as [Hs1 He1]. split; [done|]. by apply (Hk s0 x s1).
Qed.

Lemma holds_later {A} (p : prog A) s (Q : A → State → Prop) :
  (∀ s', good s' → evolved s s' → holds p Q s') → good s → holds p Q s.
Proof. intros H Hs. by apply H. Qed.

Lemma holds_context {A} `{!Zero A} ctx (k : prog (outcome A)) Q s :
  good s → (∀ e s', good s' → evolved s s' → Q (zero, Some e) s') →
  (∀ s', good s' → evolved s s' → holds k Q s') → holds (with_context ctx k) Q s.
Proof.
  intros Hs HQ Hk. unfold with_context, ContextError.
  assert (Hcall : ∀ ctx, holds (err ← call (ECtxErr ctx); match err with Some e => fail e | None => k end) Q s).
  { clear ctx. intros ctx. apply holds_vis; [done|done|]. intros s0 [e|] s1 Hs0 He0 _ Hs1 He1; cbn; [apply HQ|apply Hk];
      try done; by etransitivity. }
  destruct ctx; [by apply HQ|apply Hcall..].
Qed.

Lemma holds_GetExecution ctx id s (Q : outcome ExecutionRecord → State → Prop) :
  good s →
  (∀ a err s', good s' → evolved s s' → (err = None → tracks a s' ∧ rq_OperationID (er_Request a) = id) → Q (a, err) s') →
  holds (coordinator_GetExecution c ctx id) Q s.
Proof.
  intros Hs HQ. unfold coordinator_GetExecution, usable. destruct (c_repository c); [|by apply HQ].
  apply holds_context; [done|intros; by apply HQ|]. intros s1 Hs1 He1. apply holds_vis; [done|done|].
  intros s2 [r|e] s3 Hs2 He2 Hr Hs3 He3; cbn; (apply HQ; [done|by do 2 (etransitivity; [done|])|]); [|done].
  intros _. cbn in Hr. apply answers_read_Ok in Hr as [Hg ->]. unfold GetExecution in Hg.
  destruct (Executions s2 !! id) as [r'|] eqn:Ek; simplify_eq. by apply on_file_tracks.
Qed.

Ltac chain := repeat (etransitivity; [eassumption|]); try reflexivity.

(** A call whose answer is only checked for an error. *)
Lemma holds_observeResult ctx r s (Q : result unit → State → Prop) :
  good s → (∀ x, later s (Q x)) → holds (observeResult c ctx r) Q s.
Proof.
  intros Hs HQ. unfold observeResult. destruct (c_resultSink c); [|by apply HQ].
  apply holds_vis; [done|done|]. intros s0 x s1 ? ? _ ? ?. apply HQ; [done|by etransitivity].
Qed.

Lemma holds_observed ctx r s (Q : outcome Result → State → Prop) :
  good s → (∀ err, later s (Q (r, err))) → holds (observed c ctx r) Q s.
Proof. intros Hs HQ. apply safe_bind, holds_observeResult; [done|]. intros [[]|e] s' ? ?; by apply HQ. Qed.

Lemma holds_StoreOutcome ctx id st ct o s (Q : outcome Result → State → Prop) :
  good s →
  (∀ a err s', good s' → evolved s s' → (err = None → settled_as id (summary_of a) s') → Q (a, err) s') →
  holds (StoreOutcome c ctx id st ct o) Q s.
Proof.
  intros Hs HQ. unfold StoreOutcome, usable. destruct (c_repository c); [|by apply HQ].
  apply holds_context; [done|intros; by apply HQ|]. intros s1 Hs1 He1. apply holds_vis; [done|done|].
  intros s2 [record|e] s3 Hs2 He2 Hr Hs3 He3; [|by apply HQ; [done|chain|]].
  apply answers_read_Ok in Hr as [Hg ->]. unfold GetExecution in Hg.
  destruct (Executions s2 !! id) as [record'|] eqn:Ek; simplify_eq.
  destruct (xw_record s2 (proj1 Hs2) id record Ek) as (Hid & _ & _ & _ & Hev). unfold evidence_wf in Hev. cbn.
  destruct (er_Result record) as [r|].
  - apply holds_observed; [done|]. intros err s4 Hs4 He4. apply HQ; [done|chain; done|]. intros _.
    eapply settled_evolved; [done|]. exists record. split; [done|apply Hev].
  - destruct (NewResult _ _ _ _) as [r|e] eqn:En; [|by apply HQ; [done|chain; done|]].
    apply NewResult_outcome in En as [_ Hop]. rewrite Hid in Hop.
    apply holds_vis; [done|done|]. intros s4 [[]|e] s5 Hs4 He4 Hr Hs5 He5; [|by apply HQ; [done|chain; done|]].
    apply holds_observed; [done|]. intros err s6 Hs6 He6. apply HQ; [done|chain; done|]. intros _.
    eapply settled_evolved; [done|]. apply exec_answers_write_Ok, store_Ok in Hr as (_ & rec & Hrec & _ & [[Hres ->]|(_&_&_&_&_&_&_&->)]); rewrite Hop in *.
    + destruct (xw_record s4 (proj1 Hs4) id rec Hrec) as (_ & _ & _ & _ & Hev'). unfold evidence_wf in Hev'. rewrite Hres in Hev'.
      exists rec. split; [done|apply Hev'].
    + eexists. split; [apply lookup_insert_eq|done].
Qed.

Lemma tracks_settled a s id t r :
  good s → tracks a s → rq_OperationID (er_Request a) = id → settled_as id t s → tracks (set_terminal (Some t) (set_result r a)) s.
Proof.
  intros [_ He] (H0 & rec & Hrec & H1 & H2 & H3 & H4) Hid (rec' & Hrec' & Ht). rewrite Hid in *. simplify_eq. split; cbn.
  - intros r0 Hr0. destruct (H0 r0 Hr0) as (G1 & G2 & G3 & G4). split_and!; [done..|]. intros t0 Ht0. cbn.
    destruct (He _ _ Hr0) as (rec2 & Hrec2 & _ & _ & _ & G & _). specialize (G t0 Ht0). congruence.
  - exists rec. split; [done|]. split_and!; [done..|]. cbn. by intros t' [= <-].
Qed.

Lemma holds_settle ctx id ob a s (Q : outcome ExecutionRecord → State → Prop) :
  good s → tracks a s → rq_OperationID (er_Request a) = id →
  (∀ b err s', good s' → evolved s s' → (err = None → tracks b s' ∧ rq_OperationID (er_Request b) = id) → Q (b, err) s') →
  holds (settle c ctx id ob a) Q s.
Proof.
  intros Hs Ha Hid HQ. unfold settle. destruct (ob_Running ob); [by apply HQ|].
  apply safe_bind, holds_StoreOutcome; [done|]. intros r err s' Hs' He Hst. destruct err as [e|]; [by apply HQ|].
  destruct (NewTerminalSummary r) as [t|e] eqn:En; [|by apply HQ]. apply NewTerminalSummary_Ok in En as [_ ->].
  apply HQ; [done|done|]. intros _. split; [|done]. eapply tracks_settled; [done|by eapply tracks_evolved|done|by apply Hst].
Qed.

Lemma holds_Reconcile ctx id s (Q : outcome ExecutionRecord → State → Prop) :
  good s →
  (∀ b err s', good s' → evolved s s' → (err = None → tracks b s' ∧ rq_OperationID (er_Request b) = id) → Q (b, err) s') →
  holds (Reconcile c ctx id) Q s.
Proof.
  intros Hs HQ. unfold Reconcile, usable. destruct (_ && _); [|by apply HQ].
  apply holds_context; [done|intros; by apply HQ|]. intros s1 Hs1 He1. apply holds_vis; [done|done|].
  intros s2 [record|e] s3 Hs2 He2 Hr Hs3 He3; [|by apply HQ; [done|chain|]].
  apply answers_read_Ok in Hr as [Hg ->]. unfold GetExecution in Hg.
  destruct (Executions s2 !! id) as [record'|] eqn:Ek; simplify_eq.
  destruct (on_file_tracks s2 id record Hs2 Ek) as [Htr Hid]. cbn.
  case_decide; [apply HQ; [done|chain; done|]; intros _; by split|]. apply holds_vis; [done|done|].
  intros s4 [ob|e] s5 Hs4 He4 Hr Hs5 He5; [|by apply HQ; [done|chain; done|]]. cbn in Hr. subst s5.
  destruct (is_ok _); [|by apply HQ; [done|chain; done|]]. destruct (er_Attached record).
  - case_decide; [by apply HQ; [done|chain; done|]|]. apply holds_settle; [done|by apply (tracks_evolved _ _ _ He4)|done|].
    intros b err s6 ? ? ?. apply HQ; [done|chain; done|done].
  - apply holds_vis; [done|done|]. intros s6 [at_|e] s7 Hs6 He6 Hr Hs7 He7; [|by apply HQ; [done|chain; done|]].
    apply exec_answers_write_Ok, attach_Ok in Hr as (_ & rec & Hrec & _ & _ & Hcase). cbn in Hrec. rewrite Hid in Hrec.
    assert (Executions s7 !! id = Some (xr_Execution at_)) as Hat.
    { destruct Hcase as [(_&_&->&->)|(_&_&->&->)]; cbn; [done|]. by rewrite Hid, lookup_insert_eq. }
    destruct (on_file_tracks s7 id _ Hs7 Hat) as [? ?]. apply holds_settle; [done..|].
    intros b err s8 ? ? ?. apply HQ; [done|chain; done|done].
Qed.

Lemma holds_GetResult ctx id now s (Q : outcome Result → State → Prop) :
  good s → (∀ r, later s (Q r)) → holds (GetResult c ctx id now) Q s.
Proof.
  intros Hs HQ. unfold GetResult, usable. destruct (c_repository c); [|by apply HQ].
  apply holds_context; [done|intros; by apply HQ|]. intros s1 Hs1 He1. apply holds_vis; [done|done|].
  intros s2 [record|e] s3 Hs2 He2 _ Hs3 He3; [|by apply HQ; [done|chain]]. cbn.
  assert (Hgo : later s3 (λ s', holds (result <~ call (EGetResult ctx id now); observeResult c ctx result ;~ done_with result) Q s')).
  { intros s4 Hs4 He4. apply holds_vis; [done|done|]. intros s5 [r|e] s6 ? ? _ Hs6 ?; [|by apply HQ; [done|chain; done]].
    apply safe_bind, holds_observeResult; [done|]. intros [[]|e] s7 ? ?; apply HQ; try done; chain; done. }
  destruct (_ && _); [|by apply Hgo]. apply holds_vis; [done|done|].
  intros s4 [[]|e] s5 ? ? _ ? ?; [apply Hgo; [done|chain; done]|by apply HQ; [done|chain; done]].
Qed.

Lemma holds_Start ctx rq s (Q : outcome ExecutionReservation → State → Prop) :
  good s →
  (∀ a err s', good s' → evolved s s' →
     (err = None → tracks (xr_Execution a) s' ∧ rq_OperationID (er_Request (xr_Execution a)) = rq_OperationID rq) → Q (a, err) s') →
  holds (Start c ctx rq) Q s.
Proof.
  intros Hs HQ. unfold Start, usable. destruct (_ && _); [|by apply HQ].
  apply holds_context; [done|intros; by apply HQ|]. intros s1 Hs1 He1. apply holds_vis; [done|done|].
  intros s2 now s3 _ He2 _ Hs3 He3. destruct (ExecModel.Request_Validate rq now) as [[]|e]; [|by apply HQ; [done|chain; done|]].
  apply holds_vis; [done|done|]. intros s4 [r err] s5 Hs4 He4 Hr Hs5 He5. lazy beta iota.
  destruct err as [e|]; [rewrite decide_True by eauto; by apply HQ; [done|chain; done|]|].
  apply answers_reserve_Ok in Hr. unfold ReserveExecutionAt in Hr.
  assert (Hfile : Executions s5 !! rq_OperationID rq = Some (xr_Execution r)).
  { apply reserve_Ok in Hr as (_&_&[(?&rec&_&_&?&_&->&->)|(rec&_&_&_&_&_&_&_&_&_&_&->&->)]); cbn; [done|apply lookup_insert_eq]. }
  clear Hr. destruct (on_file_tracks s5 _ _ Hs5 Hfile) as [Htr Hid].
  case_decide; [apply HQ; [done|chain; done|]; intros _; by split|].
  apply holds_vis; [done|done|]. intros s6 [e|] s7 Hs6 He6 _ Hs7 He7; [by apply HQ; [done|chain; done|]|].
  apply holds_vis; [done|done|]. intros s8 [ref|e] s9 Hs8 He8 _ Hs9 He9; [|destruct (errors_is e Canceled || errors_is e DeadlineExceeded); (apply HQ; [done|chain; done|done])].
  apply holds_vis; [done|done|]. intros s10 [a|e] s11 Hs10 He10 Hr Hs11 He11; [|by apply HQ; [done|chain; done|]].
  apply HQ; [done|chain; done|]. intros _. apply exec_answers_write_Ok, attach_Ok in Hr as (_ & rec & Hrec & _ & _ & Hcase). cbn in Hrec.
  apply (on_file_tracks s11); [done|]. destruct Hcase as [(_&_&->&->)|(_&_&->&->)]; cbn; [done|apply lookup_insert_eq].
Qed.
End coordinator.

(** *** The application *)

(** The view agrees with a record that is what became of the one on file when the
    call started, and of which the one on file now is what it became. *)
Definition reported (v : View) (s : State) : Prop := ∃ a, agrees v a ∧ tracks a s.

Lemma tracked_status a s t : good s → tracks a s → er_Terminal a = Some t → status_valid (ts_Status t) = true.
Proof.
  intros [Hs _] (_ & r & Hr & _ & _ & _ & Ht) Hta. apply Ht in Hta.
  destruct (xw_record s Hs _ r Hr) as (_ & _ & _ & _ & Hev). unfold evidence_wf in Hev. rewrite Hta in Hev.
  assert (TerminalSummary_Validate t = Ok ()) as Hv.
  { destruct (er_Result r) as [res|] eqn:Er; [|apply Hev]. destruct Hev as (Hval & [= ->] & _). apply summary_valid.
    unfold validateStoredResult, corrupt in Hval. rewrite Er in Hval. inv_ok Hval.
    destruct (Result_Validate res) as [[]|]; [done|]. exfalso. tauto. }
  unfold TerminalSummary_Validate, bad_result in Hv. apply guard_Ok in Hv as [? _]. by destruct (status_valid _).
Qed.

Lemma executionView_reported a s v :
  good s → tracks a s → executionView a = Ok v → reported v s ∧ vw_OperationID v = rq_OperationID (er_Request a).
Proof.
  intros Hs Ha Hv. unfold executionView in Hv. inv_ok Hv. split; [|done]. exists a. split; [|done]. split_and!; [done..|]. cbn.
  destruct (er_Terminal a) as [t|] eqn:Et; [|by destruct (er_Attached a)].
  pose proof (tracked_status a s t Hs Ha Et) as Hst. cbn. split; [|split; [done|by destruct (ts_Error t)]].
  by destruct (ts_Status t).
Qed.

Section vertical.
Abbreviation vholds p Q s := (safe (@vrespond) rely good p Q s).
Abbreviation holds p Q s := (safe (@respond) rely good p Q s).
Abbreviation later s Q := (∀ s', good s' → evolved s s' → Q s').
Context (c : Coordinator).

Lemma vholds_run {A} (p : prog A) Q s : holds p Q s → vholds (run p) Q s.
Proof. apply safe_embed. done. Qed.

Lemma vholds_now {A} (k : Time → vprog A) Q s :
  good s → (∀ now, later s (λ s', vholds (k now) Q s')) → vholds (now_ ≫= k) Q s.
Proof.
  intros Hs Hk s0 now s1 Hi [_ Hr]. destruct (rely_good s s0 Hi Hs). cbn in Hr. subst s1. split; [done|]. by apply Hk.
Qed.

(** A port of the application that leaves the repository alone. *)
Lemma vholds_own {X A} (e : veff X) (k : X → vprog A) Q s :
  good s → match e with VExec _ => False | _ => True end → (∀ x, later s (λ s', vholds (k x) Q s')) → vholds (Vis e k) Q s.
Proof.
  intros Hs He Hk s0 x s1 Hi Hr. destruct (rely_good s s0 Hi Hs). destruct e; cbn in Hr; [done|subst s1..]; (split; [done|]); by apply Hk.
Qed.

Definition exec_answer (id : string) (r : result View) (s : State) : Prop :=
  ∀ v, r = Ok v → vw_Type v = TypeExec → reported v s ∧ vw_OperationID v = id.

Lemma answer_view a s id : good s → tracks a s → rq_OperationID (er_Request a) = id → exec_answer id (executionView a) s.
Proof. intros Hs Ha <- v Hv _. by apply executionView_reported. Qed.
Lemma answer_error e s id : exec_answer id (Err e) s.
Proof. done. Qed.

Lemma vholds_attempt {A B} (m : vprog (outcome A)) (k : A → vprog (result B)) Q s :
  vholds m (λ r s', match r.2 with None => vholds (k r.1) Q s' | Some e => Q (Err e) s' end) s → vholds (attempt m k) Q s.
Proof. intros H. apply safe_bind. eapply safe_mono; [|exact H]. by intros [a [e|]] s'. Qed.

Lemma vholds_asking {A B} (m : vprog (result A)) (k : A → vprog (result B)) Q s :
  vholds m (λ r s', match r with Ok a => vholds (k a) Q s' | Err e => Q (Err e) s' end) s → vholds (asking m k) Q s.
Proof. intros H. apply safe_bind. eapply safe_mono; [|exact H]. by intros [a|e] s'. Qed.

Lemma vholds_store_now ctx id st o s (Q : outcome Result → State → Prop) :
  good s →
  (∀ a err s', good s' → evolved s s' → (err = None → settled_as id (summary_of a) s') → Q (a, err) s') →
  vholds (store_now c ctx id st o) Q s.
Proof.
  intros Hs HQ. apply vholds_now; [done|]. intros now s1 Hs1 He1. apply vholds_run, holds_StoreOutcome; [done|].
  intros a err s2 ? ? ?. apply HQ; [done|by etransitivity|done].
Qed.

Lemma vholds_GetExecution {B} ctx id (k : ExecutionRecord → vprog (result B)) s (Q : result B → State → Prop) :
  good s → (∀ e, later s (Q (Err e))) →
  (∀ a s', good s' → evolved s s' → tracks a s' → rq_OperationID (er_Request a) = id → vholds (k a) Q s') →
  vholds (attempt (run (coordinator_GetExecution c ctx id)) k) Q s.
Proof.
  intros Hs He Hk. apply vholds_attempt, vholds_run, holds_GetExecution; [done|]. intros a [e|] s' ? ? Ha; cbn; [by apply He|].
  destruct (Ha eq_refl). by apply Hk.
Qed.

Lemma vholds_expireResult {B} ctx a (k : ExecutionRecord → vprog (result B)) s (Q : result B → State → Prop) :
  good s → tracks a s → (∀ e, later s (Q (Err e))) →
  (∀ b s', good s' → evolved s s' → tracks b s' → rq_OperationID (er_Request b) = rq_OperationID (er_Request a) → vholds (k b) Q s') →
  vholds (asking (expireResult c ctx a) k) Q s.
Proof.
  intros Hs Ha HE Hk. apply vholds_asking. unfold expireResult. destruct (er_Result a) as [r|]; [|by apply Hk].
  apply vholds_now; [done|]. intros now s1 Hs1 He1. case_decide; [apply Hk; [done|done|by eapply tracks_evolved|done]|].
  apply vholds_now; [done|]. intros now' s2 Hs2 He2. apply safe_bind, vholds_run, holds_GetResult; [done|].
  intros [r' err] s3 Hs3 He3.
  assert (Hread : vholds (attempt (run (coordinator_GetExecution c ctx (rq_OperationID (er_Request a)))) returns)
    (λ r s', match r with Ok b => vholds (k b) Q s' | Err e => Q (Err e) s' end) s3).
  { apply vholds_GetExecution; [done|intros e s' ? ?; apply HE; [done|by do 3 (etransitivity; [done|])]|].
    intros b s4 ? ? ? ?. apply Hk; [done|by do 3 (etransitivity; [done|])|done|done]. }
  destruct err as [e|]; [|exact Hread]. destruct (negb _); [|exact Hread]. apply HE; [done|by do 2 (etransitivity; [done|])].
Qed.

(** What follows a pending record in [ReadOperation] and in a replay. *)
Lemma vholds_reconcileExecutionView ctx a s :
  good s → tracks a s → vholds (reconcileExecutionView c ctx a) (exec_answer (rq_OperationID (er_Request a))) s.
Proof.
  intros Hs Ha. apply vholds_expireResult; [done|done|done|]. intros b s1 Hs1 He1 Hb <-. destruct (pending b); [|by apply answer_view].
  apply safe_bind, vholds_run, holds_Reconcile; [done|]. intros d [e|] s2 Hs2 He2 Hd; [|destruct (Hd eq_refl); by apply answer_view].
  destruct (errors_is _ _); [|done]. apply vholds_attempt, vholds_store_now; [done|]. intros r [e'|] s3 Hs3 He3 _; [done|].
  apply vholds_GetExecution; [done|done|]. intros d' s4 ? ? ? ?. by apply answer_view.
Qed.

Lemma vholds_read_execution ctx id a s :
  good s → tracks a s → rq_OperationID (er_Request a) = id → vholds (read_execution c ctx id a) (exec_answer id) s.
Proof.
  intros Hs Ha Hid. apply vholds_expireResult; [done|done|done|]. intros b s1 Hs1 He1 Hb Hb'. rewrite Hid in Hb'.
  destruct (pending b); [|by apply answer_view].
  apply safe_bind, vholds_run, holds_Reconcile; [done|]. intros d [e|] s2 Hs2 He2 Hd; [|destruct (Hd eq_refl); by apply answer_view].
  destruct (errors_is _ _); [|done]. apply vholds_attempt, vholds_store_now; [done|]. intros r [e'|] s3 Hs3 He3 Hst; [done|]. cbn.
  destruct (NewTerminalSummary r) as [t|e'] eqn:En; [|done]. apply NewTerminalSummary_Ok in En as [_ ->].
  apply answer_view; [done| |done]. eapply tracks_settled; [done| |exact Hb'|by apply Hst].
  eapply tracks_evolved; [exact He3|]. by eapply tracks_evolved.
Qed.

Lemma cancellationView_type r st v : cancellationView r st = Ok v → vw_Type v = TypeCancelExec.
Proof. unfold cancellationView. intros H. by inv_ok H. Qed.

Lemma vholds_read_cancellation ctx r id s : good s → vholds (read_cancellation c ctx r) (exec_answer id) s.
Proof.
  intros Hs. apply vholds_GetExecution; [done|done|]. intros a s1 Hs1 _ Ha _. apply vholds_expireResult; [done|done|done|].
  intros b s2 _ _ _ _ v Hv Ht. apply cancellationView_type in Hv. by rewrite Hv in Ht.
Qed.

Lemma vholds_dispatched ctx rq a err s :
  good s → (err = None → tracks (xr_Execution a) s ∧ rq_OperationID (er_Request (xr_Execution a)) = rq_OperationID rq) →
  vholds (dispatched c ctx rq a err) (exec_answer (rq_OperationID rq)) s.
Proof.
  intros Hs Ha. destruct err as [e|]; [|destruct (Ha eq_refl); by apply answer_view]. unfold dispatched. case_decide; [done|].
  apply safe_bind, vholds_store_now; [done|]. intros r [e'|] s1 Hs1 He1 _; [done|].
  apply safe_bind, vholds_run, holds_GetExecution; [done|]. intros b [e'|] s2 Hs2 He2 Hb; [done|].
  destruct (Hb eq_refl). by apply answer_view.
Qed.

Lemma vholds_checkSandbox ctx sandboxID generation {B} (k : unit → vprog (result B)) s (Q : result B → State → Prop) :
  good s → (∀ e, later s (Q (Err e))) → later s (λ s', vholds (k ()) Q s') →
  vholds (asking (checkSandbox ctx sandboxID generation) k) Q s.
Proof.
  intros Hs HE Hk. apply vholds_asking, vholds_asking. apply vholds_own; [done|done|]. intros [sandbox|e] s1 Hs1 He1; [|by apply HE].
  lazymatch goal with |- safe _ _ _ (Ret ?a) ?Q ?s => change (Q a s) end. cbv beta iota.
  destruct (sandbox_state _ _ _) as [[]|e]; [|by apply HE]. apply vholds_now; [done|]. intros now s2 Hs2 He2.
  case_decide; [apply HE|apply Hk]; [done|by etransitivity|done|by etransitivity].
Qed.

Lemma vholds_accept_new support ctx rq s :
  good s → vholds (accept_new c support ctx rq) (exec_answer (rq_OperationID rq)) s.
Proof.
  intros Hs.
  assert (Hgo : later s (λ s', vholds (asking (checkSandbox ctx (rq_SandboxID rq) (rq_ExpectedGeneration rq)) (λ _,
      '(reservation, dispatchErr) ← run (Start c ctx rq); dispatched c ctx rq reservation dispatchErr)) (exec_answer (rq_OperationID rq)) s')).
  { intros s1 Hs1 _. apply vholds_checkSandbox; [done|done|]. intros s2 Hs2 _. apply safe_bind, vholds_run, holds_Start; [done|].
    intros a err s3 ? ? ?. by apply vholds_dispatched. }
  apply vholds_asking. destruct support; [|by apply Hgo]. apply vholds_own; [done|done|]. intros [[]|e] s1 ? ?; [by apply Hgo|done].
Qed.

Lemma vholds_acceptExecReplay ctx rq a s :
  good s → rq_OperationID (er_Request a) = rq_OperationID rq → vholds (acceptExecReplay c ctx rq a) (exec_answer (rq_OperationID rq)) s.
Proof.
  intros Hs Hid. apply vholds_attempt, vholds_run, holds_Start; [done|]. intros r [e|] s1 Hs1 _ Hr; [done|]. cbn.
  destruct (Hr eq_refl) as [Ht Hid']. case_decide; [done|]. rewrite <- Hid'. by apply vholds_reconcileExecutionView.
Qed.
End vertical.

Lemma vholds_ready {A} a ctx (k : Coordinator → vprog (result A)) (Q : result A → State → Prop) s :
  good s → (∀ e s', good s' → Q (Err e) s') →
  (∀ c s', good s' → safe (@vrespond) rely good (k c) Q s') → safe (@vrespond) rely good (ready a ctx k) Q s.
Proof.
  intros Hs HE Hk. unfold ready. destruct (va_coordinator a) as [c|]; [|by apply HE]. destruct (_ && _); [|by apply HE].
  assert (Hcall : ∀ ctx, safe (@vrespond) rely good (err ← call (VExec (ECtxErr ctx)); match err with Some e => fails e | None => k c end) Q s).
  { clear ctx. intros ctx s0 err s1 Hi Hr. destruct (rely_good s s0 Hi Hs). cbn in Hr. subst s1. split; [done|].
    destruct err; [by apply HE|by apply Hk]. }
  destruct ctx; [by apply HE|apply Hcall..].
Qed.

Lemma vholds_AcceptExec a ctx rq s :
  good s → safe (@vrespond) rely good (AcceptExec a ctx rq) (exec_answer (rq_OperationID rq)) s.
Proof.
  intros Hs. apply vholds_ready; [done|done|]. intros c s1 Hs1. apply vholds_now; [done|]. intros now s2 Hs2 _.
  destruct (ExecModel.Request_Validate rq now); [|done]. apply safe_bind, vholds_run, holds_GetExecution; [done|].
  intros existing [e|] s3 Hs3 _ Hf; [destruct (negb _); [done|]; by apply vholds_accept_new|].
  apply vholds_acceptExecReplay; [done|by apply Hf].
Qed.

Lemma vholds_ReadOperation a ctx id s :
  good s → safe (@vrespond) rely good (ReadOperation a ctx id) (exec_answer id) s.
Proof.
  intros Hs. apply vholds_ready; [done|done|]. intros c s1 Hs1. apply safe_bind, vholds_run, holds_GetExecution; [done|].
  intros execution err s2 Hs2 _ Hx. apply safe_bind, vholds_run.
  unfold coordinator_GetCancellationReservation, usable.
  assert (Hnext : ∀ x s', good s' → evolved s2 s' → safe (@vrespond) rely good (let '(cancellation, cancellationErr) := x in
    match err, cancellationErr with
    | None, None => fails [Operations.ErrConflict]
    | None, Some _ => read_execution c ctx id execution
    | Some _, None => read_cancellation c ctx cancellation
    | Some e, Some e' =>
        if negb (errors_is e ExecErrNotFound) then fails e else
        if negb (errors_is e' ExecErrNotFound) then fails e' else fails [Operations.ErrNotFound]
    end) (exec_answer id) s').
  { intros [cancellation e'] s' Hs' He'. destruct err as [e|], e' as [e'|]; [|by apply vholds_read_cancellation| |done].
    - by repeat case_match.
    - destruct (Hx eq_refl). apply vholds_read_execution; [done|by eapply tracks_evolved|done]. }
  destruct (c_repository c); [|by apply (Hnext (zero, Some _))].
  apply holds_context; [done|intros e s' ? ?; by apply (Hnext (zero, Some e))|]. intros s3 Hs3 He3.
  apply holds_vis; [done|done|]. intros s4 [r|e] s5 ? ? _ ? ?; [apply (Hnext (r, None))|apply (Hnext (zero, Some e))];
    try done; by do 2 (etransitivity; [done|]).
Qed.

End since.

(** C27 (functional): what the application reports about an execution is what is on
    record.  A view that [ReadOperation] or [AcceptExec] returns for an execution is of
    the operation asked for and agrees with its record (attempt, token, sandbox,
    status, time and failure) as it was at some moment of the call: that record
    is what became of the one on file when the call started, with its receipt and
    its outcome if it had them, and the one on file when the call returns is what
    became of it; whatever other callers do in between. *)
Theorem reported_views_are_on_record a ctx id rq s v s' :
  exec_wf s → vw_Type v = TypeExec →
  (exec (@vrespond) rely (ReadOperation a ctx id) s (Some (Ok v)) s' → reported s v s' ∧ vw_OperationID v = id) ∧
  (exec (@vrespond) rely (AcceptExec a ctx rq) s (Some (Ok v)) s' → reported s v s' ∧ vw_OperationID v = rq_OperationID rq).
Proof.
  intros Hs Ht. assert (Hg : good s s) by (split; [done|reflexivity]). split; intros Hx.
  - eapply (safe_exec _ _ (good s)) in Hx as [_ HQ]; [|done|by apply vholds_ReadOperation]. by apply (HQ (Ok v) eq_refl v).
  - eapply (safe_exec _ _ (good s)) in Hx as [_ HQ]; [|done|by apply vholds_AcceptExec]. by apply (HQ (Ok v) eq_refl v).
Qed.

Lemma reported_views_are_on_record_witness :
  ∃ v s', exec (@vrespond) rely (ReadOperation VerticalRuns.vertical CtxCaller "exec-1") (ExecMemory.abs VerticalRuns.final.2) (Some (Ok v)) s' ∧
    vw_Status v = ViewSucceeded ∧ reported (ExecMemory.abs VerticalRuns.final.2) v s'.
Proof.
  pose proof (interp_exec (@vrespond) rely (@VerticalRuns.vhandle ExecPoolGuarantees.PoolRuns.runtime) ExecMemory.abs
    (ReadOperation VerticalRuns.vertical CtxCaller "exec-1") VerticalRuns.final.2
    (VerticalRuns.vhandle_responds ExecPoolGuarantees.PoolRuns.runtime)) as Hx.
  destruct (interp _ _ _) as [[v|e] w] eqn:E; [|vm_compute in E; discriminate]. cbn in Hx.
  exists v, (ExecMemory.abs w). split; [exact Hx|].
  assert (Hwf : exec_wf (ExecMemory.abs VerticalRuns.final.2)) by apply (vertical_lawful true _ _ VerticalRuns.vertical_final_run).
  assert (Hv : vw_Type v = TypeExec ∧ vw_Status v = ViewSucceeded) by (vm_compute in E; injection E as <- _; split; reflexivity).
  split; [apply Hv|].
  exact (proj1 (proj1 (reported_views_are_on_record VerticalRuns.vertical CtxCaller "exec-1" ExecGuarantees.ExecRuns.request _ v _ Hwf (proj1 Hv)) Hx)).
Defined.

(** * A retry that overtakes the original request

    The runtime does not know an execution that is on record and was not started
    yet.  A retry that asks it then records the outcome of the execution as unknown. *)

Section unstarted.
Context (id : string).

(** Asked about [id], the runtime answers that there is no such execution; a context
    that is over says that it was cancelled or that its deadline passed. *)
Definition unknown_to_runtime {X} (e : eff X) : X → Prop :=
  match e in eff X return X → Prop with
  | EObserve _ rq => λ x, rq_OperationID rq = id → ∃ err, x = Err err ∧ errors_is err ErrExecutionNotFound = true
  | ECtxErr _ => λ x, ∀ err, x = Some err → err = [Canceled : sentinel] ∨ err = [DeadlineExceeded : sentinel]
  | _ => λ _, True
  end.

Definition unstarted {X} (e : eff X) (s : State) (x : X) (s' : State) : Prop := respond e s x s' ∧ unknown_to_runtime e x.
Definition vunstarted {X} (e : veff X) : State → X → State → Prop :=
  match e in veff X return State → X → State → Prop with
  | VExec e => unstarted e
  | VGetSandbox _ _ | VCheckSupport _ _ => λ s _ s', s' = s
  end.

(** What others do meanwhile: anything, such as attaching the execution, but reporting
    its result. *)
Definition unreported (s s' : State) : Prop := ∃ c, timely c ∧ (∀ res, c = XStore res → r_OperationID res ≠ id) ∧ s' = exec_apply c s.

(** No outcome of [id] but the unknown one is on record; it is on record. *)
Definition undecided (s : State) : Prop :=
  exec_wf s ∧ ∃ r, Executions s !! id = Some r ∧ ∀ t, er_Terminal r = Some t → ts_Status t = ResultOutcomeUnknown.
Definition lost (s : State) : Prop := ∃ t, ts_Status t = ResultOutcomeUnknown ∧ settled_as id t s.
Definition keeps_lost (s s' : State) : Prop := lost s → lost s'.

#[local] Instance keeps_lost_po : PreOrder keeps_lost.
Proof using Type. split; [by intros s ?|]. intros s1 s2 s3 H1 H2 H. by apply H2, H1. Qed.

Lemma undecided_apply c s :
  timely c → (∀ res, c = XStore res → r_OperationID res = id → r_Status res = ResultOutcomeUnknown) →
  undecided s → undecided (exec_apply c s) ∧ keeps_lost s (exec_apply c s).
Proof using Type.
  intros Hc Hst [Hs (r & Hr & Hu)]. destruct (exec_apply_evolves c s id r Hs Hr) as (r' & Hr' & _&_&_&Ht&_). split.
  - split; [by apply exec_apply_wf|]. exists r'. split; [done|]. intros t Ht'.
    destruct (exec_apply_summary c s id r' t Hr' Ht') as [(r0 & Hr0 & Ht0)|(res & -> & Hid & ->)]; [simplify_eq; auto|by apply (Hst res)].
  - intros (t & Hk & r0 & Hr0 & Ht0). exists t. split; [done|]. exists r'. simplify_eq. auto.
Qed.

Lemma unreported_undecided s s' : rtc unreported s s' → undecided s → undecided s' ∧ keeps_lost s s'.
Proof using Type.
  induction 1 as [s|s s1 s' (c & Hc & Hn & ->) _ IH]; intros Hs; [done|].
  destruct (undecided_apply c s Hc) as [H1 H2]; [by intros res Heq ?%(Hn res Heq)|done|]. destruct (IH H1). split; [done|by etransitivity].
Qed.

Abbreviation holds p Q s := (safe (@unstarted) unreported undecided p Q s).
Abbreviation vholds p Q s := (safe (@vunstarted) unreported undecided p Q s).
Abbreviation later s Q := (∀ s', undecided s' → keeps_lost s s' → Q s').

(** An error other than that of a missing record. *)
Definition not_missing (e : goerr) : Prop := errors_is e ExecErrNotFound = false.

(** A call that records no result of [id] but an unknown one. *)
Definition harmless_call {X} (e : eff X) : Prop :=
  match e with
  | EReserveCancellationAt _ _ now => 0 < now
  | EStoreResult _ res => r_OperationID res = id → r_Status res = ResultOutcomeUnknown
  | _ => True
  end.

Lemma lost_vis {X A} (e : eff X) (k : X → prog A) Q s :
  undecided s → harmless_call e →
  (∀ s0 x s1, undecided s0 → keeps_lost s s0 → unstarted e s0 x s1 → undecided s1 → keeps_lost s0 s1 → holds (k x) Q s1) →
  holds (Vis e k) Q s.
Proof using Type.
  intros Hs He Hk s0 x s1 Hi Hr. destruct (unreported_undecided s s0 Hi Hs) as [Hs0 He0].
  assert (Hs1 : undecided s1 ∧ keeps_lost s0 s1).
  { destruct (respond_state e s0 x s1 (proj1 Hr)) as [-> | (cl & Hc & ->)]; [done|].
    apply undecided_apply; [|intros res ->|done]; destruct e; cbn in *; simplify_eq; done. }
  destruct Hs1 as [Hs1 He1]. split; [done|]. by apply (Hk s0 x s1).
Qed.

Lemma lost_context {A} `{!Zero A} ctx (k : prog (outcome A)) Q s :
  undecided s → (∀ e, not_missing e → later s (Q (zero, Some e))) → later s (λ s', holds k Q s') → holds (with_context ctx k) Q s.
Proof using Type.
  intros Hs HQ Hk. unfold with_context, ContextError.
  assert (Hcall : ∀ ctx, holds (err ← call (ECtxErr ctx); match err with Some e => fail e | None => k end) Q s).
  { clear ctx. intros ctx. apply lost_vis; [done|done|]. intros s0 [e|] s1 Hs0 He0 [_ Hx] Hs1 He1; cbn; [apply HQ|apply Hk]; try done; try (by etransitivity).
    by destruct (Hx e eq_refl) as [-> | ->]. }
  destruct ctx; [by apply HQ|apply Hcall..].
Qed.

(** A record of [id] with evidence is one with the outcome on record. *)
Definition informed (a : ExecutionRecord) (s : State) : Prop :=
  rq_OperationID (er_Request a) = id ∧ (is_Some (er_Result a) ∨ er_ResultExpired a = true → lost s).

Lemma on_file_informed a s : undecided s → Executions s !! id = Some a → informed a s.
Proof using Type.
  intros [Hs (r & Hr & Hu)] Ha. rewrite Ha in Hr. injection Hr as <-. destruct (xw_record s Hs id a Ha) as (Hid & _ & _ & _ & Hev). split; [done|].
  unfold evidence_wf in Hev. intros He. assert (Ht : is_Some (er_Terminal a)).
  { destruct (er_Result a) as [res|]; [by destruct Hev as (_ & -> & _)|]. destruct (er_Terminal a); [done|]. destruct He as [[? ?]|?]; congruence. }
  destruct Ht as [t Ht]. exists t. split; [by apply Hu|]. by exists a.
Qed.

Lemma informed_later a s s' : keeps_lost s s' → informed a s → informed a s'.
Proof using Type. intros Hk [Hid Hl]. split; [done|]. intros He. by apply Hk, Hl. Qed.

Lemma read_informed s x s' ctx : undecided s → unstarted (EGetExecution ctx id) s (Ok x) s' → informed x s'.
Proof using Type.
  intros Hs [Hr _]. apply answers_read_Ok in Hr as [Hg ->]. unfold GetExecution in Hg.
  destruct (Executions s !! id) as [r|] eqn:Ek; simplify_eq. by apply on_file_informed.
Qed.

Ltac chain := repeat (etransitivity; [eassumption|]); try reflexivity.

Section coordinator.
Context (c : Coordinator) (Hobserver : c_observer c = true).

Lemma lost_GetExecution ctx s (Q : outcome ExecutionRecord → State → Prop) :
  undecided s →
  (∀ a err s', undecided s' → keeps_lost s s' → (err = None → informed a s') → (∀ e, err = Some e → not_missing e) → Q (a, err) s') →
  holds (coordinator_GetExecution c ctx id) Q s.
Proof using Type.
  intros Hs HQ. unfold coordinator_GetExecution, usable. destruct (c_repository c); [|apply HQ; naive_solver].
  apply lost_context; [done|intros e He s' ? ?; apply HQ; naive_solver|]. intros s1 Hs1 He1. apply lost_vis; [done|done|].
  intros s2 [r|e] s3 Hs2 He2 Hr Hs3 He3; cbn; (apply HQ; [done|chain; done|..]); [intros _; by apply (read_informed s2 _ _ ctx)|done|done|].
  intros e' [= <-]. destruct Hr as [[_ [Hg|(e' & Hte & [= ->])]] _]; [|by destruct Hte as [-> | [-> | [-> | ->]]]].
  destruct Hs2 as [_ (r & Hr2 & _)]. unfold GetExecution in Hg. by rewrite Hr2 in Hg.
Qed.

Lemma lost_observed ctx r s (Q : outcome Result → State → Prop) :
  undecided s → (∀ err, later s (Q (r, err))) → holds (observed c ctx r) Q s.
Proof using Type.
  intros Hs HQ. apply safe_bind. unfold observeResult. destruct (c_resultSink c); [|by apply HQ].
  apply lost_vis; [done|done|]. intros s0 [[]|e] s1 ? ? _ ? ?; apply HQ; try done; by etransitivity.
Qed.

Lemma lost_StoreOutcome ctx st ct o s (Q : outcome Result → State → Prop) :
  undecided s → ro_Status o = ResultOutcomeUnknown →
  (∀ a err s', undecided s' → keeps_lost s s' → (err = None → lost s') → Q (a, err) s') → holds (StoreOutcome c ctx id st ct o) Q s.
Proof using Type.
  intros Hs Ho HQ. unfold StoreOutcome, usable. destruct (c_repository c); [|by apply HQ].
  apply lost_context; [done|intros; by apply HQ|]. intros s1 Hs1 He1. apply lost_vis; [done|done|].
  intros s2 [record|e] s3 Hs2 He2 Hr Hs3 He3; [|by apply HQ; [done|chain; done|]].
  apply read_informed in Hr as [Hid Hl]; [|done]. cbn. destruct (er_Result record) as [r|].
  - apply lost_observed; [done|]. intros err s4 Hs4 He4. apply HQ; [done|chain; done|]. intros _. apply He4, Hl. by left.
  - destruct (NewResult _ _ _ _) as [r|e] eqn:En; [|by apply HQ; [done|chain; done|]].
    apply NewResult_outcome in En as [Hst Hop]. rewrite Hid in Hop.
    assert (Hr : r_Status r = ResultOutcomeUnknown) by (rewrite <- Ho, <- Hst; done).
    apply lost_vis; [done|by cbn|]. intros s4 [[]|e] s5 Hs4 He4 [Hw _] Hs5 He5; [|by apply HQ; [done|chain; done|]].
    apply lost_observed; [done|]. intros err s6 Hs6 He6. apply HQ; [done|chain; done|]. intros _. apply He6.
    apply exec_answers_write_Ok, store_Ok in Hw as (_ & rec & Hrec & _ & [[Hres ->]|(_&_&_&_&_&_&_&->)]); rewrite Hop in *.
    + apply (on_file_informed rec s4 Hs4 Hrec). by rewrite Hres; left.
    + exists (summary_of r). split; [done|]. eexists. split; [apply lookup_insert_eq|done].
Qed.

(** Nothing is observed, so only an outcome that is on record is returned. *)
Lemma lost_Reconcile ctx s (Q : outcome ExecutionRecord → State → Prop) :
  undecided s → (∀ b err s', undecided s' → keeps_lost s s' → (err = None → lost s') → Q (b, err) s') → holds (Reconcile c ctx id) Q s.
Proof using Hobserver.
  intros Hs HQ. unfold Reconcile, usable. destruct (_ && _); [|by apply HQ].
  apply lost_context; [done|intros; by apply HQ|]. intros s1 Hs1 He1. apply lost_vis; [done|done|].
  intros s2 [record|e] s3 Hs2 He2 Hr Hs3 He3; [|by apply HQ; [done|chain; done|]].
  apply read_informed in Hr as [Hid Hl]; [|done]. cbn.
  case_decide as Hd; [apply HQ; [done|chain; done|]; intros _; apply Hl; naive_solver congruence|]. apply lost_vis; [done|done|].
  intros s4 x s5 Hs4 He4 [_ Hx] Hs5 He5. destruct (Hx Hid) as (err & -> & _). by apply HQ; [done|chain; done|].
Qed.

Lemma lost_GetResult ctx op now s (Q : outcome Result → State → Prop) :
  undecided s → (∀ r, later s (Q r)) → holds (GetResult c ctx op now) Q s.
Proof using Type.
  intros Hs HQ. unfold GetResult, usable. destruct (c_repository c); [|by apply HQ].
  apply lost_context; [done|intros; by apply HQ|]. intros s1 Hs1 He1. apply lost_vis; [done|done|].
  intros s2 [record|e] s3 Hs2 He2 _ Hs3 He3; [|by apply HQ; [done|chain; done]]. cbn.
  assert (Hgo : later s3 (λ s', holds (result <~ call (EGetResult ctx op now); observeResult c ctx result ;~ done_with result) Q s')).
  { intros s4 Hs4 He4. apply lost_vis; [done|done|]. intros s5 [r|e] s6 ? ? _ Hs6 ?; [|by apply HQ; [done|chain; done]].
    apply safe_bind. unfold observeResult. destruct (c_resultSink c); [|by apply HQ; [done|chain; done]].
    apply lost_vis; [done|done|]. intros s7 [[]|e] s8 ? ? _ ? ?; apply HQ; try done; chain; done. }
  destruct (_ && _); [|by apply Hgo]. apply lost_vis; [done|done|].
  intros s4 [[]|e] s5 ? ? _ ? ?; [apply Hgo; [done|chain; done]|by apply HQ; [done|chain; done]].
Qed.

(** An execution on record is not started again. *)
Lemma lost_Start ctx rq s (Q : outcome ExecutionReservation → State → Prop) :
  undecided s → rq_OperationID rq = id →
  (∀ a err s', undecided s' → keeps_lost s s' → (err = None → informed (xr_Execution a) s') → Q (a, err) s') → holds (Start c ctx rq) Q s.
Proof using Type.
  intros Hs Hrq HQ. unfold Start, usable. destruct (_ && _); [|by apply HQ].
  apply lost_context; [done|intros; by apply HQ|]. intros s1 Hs1 He1. apply lost_vis; [done|done|].
  intros s2 now s3 _ He2 _ Hs3 He3. destruct (ExecModel.Request_Validate rq now) as [[]|e]; [|by apply HQ; [done|chain; done|]].
  apply lost_vis; [done|done|]. intros s4 [r err] s5 Hs4 He4 [Hr _] Hs5 He5. lazy beta iota.
  destruct err as [e|]; [rewrite decide_True by eauto; by apply HQ; [done|chain; done|]|].
  apply answers_reserve_Ok in Hr. unfold ReserveExecutionAt in Hr. destruct (proj2 Hs4) as (r4 & Hr4 & _).
  apply reserve_Ok in Hr as (_&_&[(?&rec&_&_&Hrec&_&->&->)|(rec&_&Hn&_)]); rewrite Hrq in *; [|congruence].
  rewrite decide_True by (by right). apply HQ; [done|chain; done|]. intros _. by apply on_file_informed.
Qed.

(** ** The application *)

Lemma lost_run {A} (p : prog A) Q s : holds p Q s → vholds (run p) Q s.
Proof using Type. apply safe_embed. done. Qed.

Lemma lost_now {A} (k : Time → vprog A) Q s : undecided s → (∀ now, later s (λ s', vholds (k now) Q s')) → vholds (now_ ≫= k) Q s.
Proof using Type.
  intros Hs Hk s0 now s1 Hi [[_ Hr] _]. destruct (unreported_undecided s s0 Hi Hs). cbn in Hr. subst s1. split; [done|]. by apply Hk.
Qed.

Lemma lost_attempt {A B} (m : vprog (outcome A)) (k : A → vprog (result B)) Q s :
  vholds m (λ r s', match r.2 with None => vholds (k r.1) Q s' | Some e => Q (Err e) s' end) s → vholds (attempt m k) Q s.
Proof using Type. intros H. apply safe_bind. eapply safe_mono; [|exact H]. by intros [a [e|]] s'. Qed.

(** A view is only returned of an execution whose outcome is on record. *)
Definition only_lost (r : result View) (s : State) : Prop := ∀ v, r = Ok v → lost s.

Lemma lost_expireResult {B} ctx a (k : ExecutionRecord → vprog (result B)) s (Q : result B → State → Prop) :
  undecided s → informed a s → (∀ e, later s (Q (Err e))) → (∀ b s', undecided s' → informed b s' → vholds (k b) Q s') →
  vholds (asking (expireResult c ctx a) k) Q s.
Proof using Type.
  intros Hs Ha HE Hk. apply safe_bind. cut (vholds (expireResult c ctx a) (λ r s', match r with Ok b => vholds (k b) Q s' | Err e => Q (Err e) s' end) s).
  { apply safe_mono. by intros [b|e] s'. }
  unfold expireResult. destruct (er_Result a) as [r|]; [|by apply Hk].
  apply lost_now; [done|]. intros now s1 Hs1 He1. case_decide; [apply Hk; [done|by eapply informed_later]|].
  apply lost_now; [done|]. intros now' s2 Hs2 He2. apply safe_bind, lost_run, lost_GetResult; [done|]. intros [r' err] s3 Hs3 He3.
  assert (Hread : vholds (attempt (run (coordinator_GetExecution c ctx (rq_OperationID (er_Request a)))) returns)
    (λ r s', match r with Ok b => vholds (k b) Q s' | Err e => Q (Err e) s' end) s3).
  { apply lost_attempt, lost_run. rewrite (proj1 Ha). apply lost_GetExecution; [done|]. intros b [e|] s4 Hs4 He4 Hb _; cbn; [apply HE; [done|chain; done]|].
    apply Hk; [done|by apply Hb]. }
  destruct err as [e|]; [|exact Hread]. destruct (negb _); [|exact Hread]. apply HE; [done|chain; done].
Qed.

Lemma lost_reconcileExecutionView ctx a s : undecided s → informed a s → vholds (reconcileExecutionView c ctx a) only_lost s.
Proof using Hobserver.
  intros Hs Ha. apply lost_expireResult; [done|done|done|]. intros b s1 Hs1 [Hid Hb]. destruct (pending b) eqn:Ep.
  - rewrite Hid. apply safe_bind, lost_run, lost_Reconcile; [done|]. intros d [e|] s2 Hs2 He2 Hd; [|intros v _; by apply Hd].
    destruct (errors_is _ _); [|done]. apply lost_attempt, lost_now; [done|]. intros now s3 Hs3 He3.
    apply lost_run, lost_StoreOutcome; [done|done|]. intros r [e'|] s4 Hs4 He4 Hl; [done|].
    apply lost_attempt, lost_run, lost_GetExecution; [done|]. intros d' [e'|] s5 Hs5 He5 _ _; [done|]. intros v _. by apply He5, Hl.
  - intros v _. apply Hb. unfold pending in Ep. destruct (er_Result b); [by left|]. right. by apply negb_false_iff.
Qed.

Lemma lost_acceptExecReplay ctx rq a s : undecided s → rq_OperationID rq = id → vholds (acceptExecReplay c ctx rq a) only_lost s.
Proof using Hobserver.
  intros Hs Hrq. apply lost_attempt, lost_run, lost_Start; [done|done|]. intros r [e|] s1 Hs1 _ Hr; [done|]. cbn.
  case_decide; [done|]. apply lost_reconcileExecutionView; [done|by apply Hr].
Qed.
End coordinator.

Lemma lost_AcceptExec a c ctx rq s :
  va_coordinator a = Some c → c_observer c = true → rq_OperationID rq = id → undecided s → vholds (AcceptExec a ctx rq) only_lost s.
Proof using Type.
  intros Ha Hc Hrq Hs. unfold AcceptExec, ready. rewrite Ha. destruct (_ && _); [|done].
  assert (Hgo : ∀ s', undecided s' → vholds (now ← now_;
    match ExecModel.Request_Validate rq now with
    | Err e => fails e
    | Ok _ =>
        '(existing, err) ← run (coordinator_GetExecution c ctx (rq_OperationID rq));
        match err with
        | None => acceptExecReplay c ctx rq existing
        | Some e => if negb (errors_is e ExecErrNotFound) then fails e else accept_new c (va_support a) ctx rq
        end
    end) only_lost s').
  { intros s' Hs'. apply lost_now; [done|]. intros now s2 Hs2 _. destruct (ExecModel.Request_Validate rq now); [|done].
    rewrite Hrq. apply safe_bind, lost_run, lost_GetExecution; [done|].
    intros existing [e|] s3 Hs3 _ _ He; [by rewrite (He e eq_refl)|by apply lost_acceptExecReplay]. }
  destruct ctx; [done|..]; (intros s0 x s1 Hi Hr; destruct (unreported_undecided s s0 Hi Hs) as [Hs0 _]; destruct Hr as [Hr _]; cbn in Hr; subst s1;
    split; [done|]; destruct x; [done|by apply Hgo]).
Qed.
End unstarted.

(** ** A cancellation of a settled execution *)

Section settled.
Context (s_0 : State) (id : string) (t : TerminalSummary) (Hsettled : settled_as id t s_0).
Abbreviation holds p Q s := (safe (@respond) rely (good s_0) p Q s).
Abbreviation vholds p Q s := (safe (@vrespond) rely (good s_0) p Q s).

(** What was settled when the call started is settled in every record it sees. *)
Lemma tracks_terminal a s : tracks s_0 a s → rq_OperationID (er_Request a) = id → er_Terminal a = Some t.
Proof using Hsettled. intros [H0 _] Hid. destruct Hsettled as (r & Hr & Ht). rewrite Hid in H0. by apply (H0 r Hr). Qed.

(** *** Intents are kept *)

Definition intended (k : string) (s : State) : Prop := is_Some (CancellationIntents s !! k).

Lemma apply_intended k c s : intended k s → intended k (exec_apply c s).
Proof using Type.
  clear. unfold intended. intros Hk. destruct c; cbn.
  - destruct (reserveExecutionAt _ _ _ _) as [[x s']|] eqn:E; [|done].
    by apply reserve_Ok in E as (_&_&[(?&?&_&_&_&_&_&->)|(rec&_&_&_&_&_&_&_&_&_&_&_&->)]).
  - destruct (AttachExecution _ _) as [[x s']|] eqn:E; [|done]. by apply attach_Ok in E as (_&rec&_&_&_&[(_&_&_&->)|(_&_&_&->)]).
  - destruct (ReserveCancellation _ _ _) as [[x s']|] eqn:E; [|done].
    apply cancel_Ok in E as (_&[(?&?&?&_&_&_&_&_&_&->)|(_&_&_&_&_&->)]); [done|]. cbn. rewrite lookup_insert. case_decide; eauto.
  - destruct (StoreResult _ _) as [[[] s']|] eqn:E; [|done]. by apply store_Ok in E as (_&rec&_&_&[[_ ->]|(_&_&_&_&_&_&_&->)]).
  - destruct (ReadResult op now s) as [[x b] s'] eqn:E. by apply read_cases in E as [[-> _]|(rec&res&_&_&_&_&_&_&->)].
Qed.

Lemma run_intended {A} k (p : prog A) s : intended k s → safe (@respond) rely (intended k) p (λ _ s', intended k s') s.
Proof using Type.
  clear. revert s. induction p as [a|X e q IH]; intros s Hs; [done|]. intros s0 x s1 Hi Hr.
  assert (H0 : intended k s0) by (clear Hr; induction Hi as [|s s' s'' (c & _ & ->) _ IHi]; [done|by apply IHi, apply_intended]).
  assert (H1 : intended k s1) by (destruct (respond_state e s0 x s1 Hr) as [-> | (c & _ & ->)]; [done|by apply apply_intended]).
  split; [done|]. by apply IH.
Qed.

(** Every call of the coordinator's [Cancel] keeps the repository well formed. *)
Lemma holds_Cancel c ctx intent s : good s_0 s → holds (ExecCoordinator.Cancel c ctx intent) (λ _ s', good s_0 s') s.
Proof using Type.
  intros Hs. unfold ExecCoordinator.Cancel, usable. destruct (_ && _); [|done].
  apply holds_context; [done|done|]. intros s1 Hs1 _. apply holds_vis; [done|done|]. intros s2 now s3 _ _ [Hnow _] Hs3 _.
  apply holds_vis; [done|done|]. intros s4 [r|e] s5 _ _ _ Hs5 _; [|done]. cbv zeta.
  apply holds_vis; [done|done|]. intros s6 [target|e] s7 _ _ _ Hs7 _; [|done]. destruct (xc_Replayed r); [done|].
  destruct (_ && _); [|done]. unfold cancel_target. cbv zeta. apply holds_vis; [done|done|]. intros s8 [e|] s9 _ _ _ Hs9 _; [done|].
  apply holds_vis; [done|done|]. intros s10 [[]|e] s11 _ _ _ Hs11 _; [|done].
  apply holds_vis; [done|done|]. intros s12 now' s13 _ _ _ Hs13 _. destruct (NewResult _ _ _ _); [|done].
  apply holds_vis; [done|done|]. intros s14 [[]|e] s15 _ _ _ Hs15 _; [|done].
  apply safe_bind, holds_observeResult; [done|]. by intros [[]|e] s16 Hs16 _.
Qed.

(** Refused, unless it is on record already. *)
Definition refused_unless (k : string) (r : result View) (s : State) : Prop := intended k s ∨ ∃ e, r = Err e.

Lemma cancel_settled a ctx intent s :
  good s_0 s → ci_TargetOperationID intent = id → vholds (AcceptCancellation a ctx intent) (refused_unless (ci_OperationID intent)) s.
Proof using Hsettled.
  intros Hs Htarget. set (k := ci_OperationID intent). assert (Herr : ∀ e s', refused_unless k (Err e) s') by (intros; right; eauto).
  apply vholds_ready; [done|intros; apply Herr|]. intros c s1 Hs1. apply vholds_now; [done|]. intros now s2 Hs2 _.
  destruct (CancellationIntent_Validate intent now); [|apply Herr]. apply safe_bind, vholds_run.
  unfold coordinator_GetCancellationReservation, usable. fold k.
  assert (Hnew : ∀ e s', good s_0 s' → vholds (if negb (errors_is e ExecErrNotFound) then fails e else cancel_new c ctx intent) (refused_unless k) s').
  { intros e s' Hs'. destruct (negb _); [apply Herr|]. apply vholds_checkSandbox; [done|intros; apply Herr|]. intros s3 Hs3 _.
    apply vholds_GetExecution; [done|intros; apply Herr|]. intros target s4 Hs4 _ Ht Hid.
    apply vholds_expireResult; [done|done|intros; apply Herr|]. intros target' s5 Hs5 _ Ht' Hid'.
    rewrite (tracks_terminal target' s5 Ht') by congruence. rewrite decide_True by done. apply Herr. }
  destruct (c_repository c); [|by apply Hnew]. apply holds_context; [done|intros e s' ? _; by apply Hnew|]. intros s3 Hs3 He3.
  apply holds_vis; [done|done|]. intros s4 [r|e] s5 Hs4 _ Hr Hs5 _; [|by apply Hnew]. cbn.
  assert (Hin : intended k s5).
  { apply answers_read_Ok in Hr as [Hg ->]. unfold GetCancellationReservation, GetCancellation in Hg. unfold intended.
    destruct (CancellationIntents s4 !! k); [done|discriminate]. }
  apply safe_bind, vholds_run.
  pose proof (safe_and _ _ _ _ _ _ _ _ (holds_Cancel c ctx intent s5 Hs5) (run_intended k (ExecCoordinator.Cancel c ctx intent) s5 Hin)) as Hboth.
  revert Hboth. apply safe_weaken; [by intros σ [? _]|]. intros [res [e|]] s6 [_ Hi]; [apply Herr|]. by left.
Qed.
End settled.


Lemma racing_responds X (e : veff X) w :
  vunstarted "exec-1" e (ExecMemory.abs w) (VerticalRuns.vhandle RacingRetry.runtime e w).1 (ExecMemory.abs (VerticalRuns.vhandle RacingRetry.runtime e w).2).
Proof.
  destruct e as [X e| |]; [|done..]. split; [apply (VerticalRuns.vhandle_responds RacingRetry.runtime X (VExec e) w)|].
  destruct e; try done; cbn.
  - intros err. destruct (ExecMemory.memory_ContextError ctx w) as [[[]|] w']; cbn; intros [= <-]; auto.
  - intros _. eexists. split; [done|]. reflexivity.
Qed.

(** The request up to its reservation; the same request again; the first one to its
    end, with which the execution is started and attached; a cancellation. *)
Definition retried : result View * ExecMemory.World :=
  interp (@VerticalRuns.vhandle RacingRetry.runtime) (AcceptExec VerticalRuns.vertical CtxCaller ExecGuarantees.ExecRuns.request) RacingRetry.first_half.2.
Definition cancelled : result View * ExecMemory.World :=
  interp (@VerticalRuns.vhandle RacingRetry.runtime) (AcceptCancellation VerticalRuns.vertical CtxCaller ExecGuarantees.ExecRuns.cancellation) RacingRetry.second_half.2.

