(* ===== verification/UsageStore.v ===== *)
(** * Stores of usage evidence: [provider/usage/memory], [provider/usage/repository/file]

    Evidence by its id, with an index from operations to evidence.  Evidence is
    never replaced or removed; storing it again is a replay.  Both adapters are
    modelled, the file adapter with every system call that can fail
    ([FileStore]); the JSON codec is a parameter. *)

From S2P Require Import Prelude FileStore ExecModel.
From stdpp Require Import base gmap strings list fin_maps relations.
From Stdlib Require Import ZArith Lia.

Local Open Scope Z_scope.

(** * Usage evidence: [provider/usage/model.go]

    What the provider measured about one operation: entries of meters with their
    units, the identity of the attempt, and how long the evidence is retained. *)

Definition MaxEntries : nat := 16.

Definition usage_error (name : string) : sentinel := SNamed "usage" name.
Definition ErrInvalidEvidence : sentinel := usage_error "ErrInvalidEvidence".
Definition ErrEvidenceNotFound : sentinel := usage_error "ErrEvidenceNotFound".
Definition ErrEvidenceUnavailable : sentinel := usage_error "ErrEvidenceUnavailable".
Definition ErrEvidenceExpired : sentinel := usage_error "ErrEvidenceExpired".

(** The expressions are those of [provider/exec]. *)
Definition identifierPattern (s : string) : bool := ExecModel.identifierPattern s.
Definition referencePattern (s : string) : bool := ExecModel.referencePattern s.
Definition digestPattern (s : string) : bool := ExecModel.digestPattern s.

(** [Meter], [Source] and [ReconciliationStatus] are strings with these constants. *)
Definition MeterWallTime : string := "sandbox.wall_time_milliseconds".
Definition MeterCPU : string := "sandbox.cpu_nanoseconds".
Definition MeterMemory : string := "sandbox.memory_byte_milliseconds".
Definition MeterNetworkIngress : string := "sandbox.network_ingress_bytes".
Definition MeterNetworkEgress : string := "sandbox.network_egress_bytes".
Definition MeterStorageRead : string := "sandbox.storage_read_bytes".
Definition MeterStorageWrite : string := "sandbox.storage_write_bytes".
Definition MeterWorkspacePeak : string := "sandbox.workspace_peak_bytes".
Definition MeterExecCount : string := "sandbox.exec_count".
Definition MeterBrowserSession : string := "sandbox.browser_session_milliseconds".
Definition MeterDesktopSession : string := "sandbox.desktop_session_milliseconds".

Definition SourcePlatform : string := "platform_metered".
Definition SourceRuntime : string := "runtime_metered".
Definition SourceReconciled : string := "reconciled".

Definition ReconciliationComplete : string := "complete".
Definition ReconciliationPartial : string := "partial".
Definition ReconciliationUnknown : string := "unknown".

Definition meterUnit (meter : string) : option string :=
  if decide (meter ∈ [MeterWallTime; MeterBrowserSession; MeterDesktopSession]) then Some "milliseconds" else
  if decide (meter = MeterCPU) then Some "nanoseconds" else
  if decide (meter = MeterMemory) then Some "byte-milliseconds" else
  if decide (meter ∈ [MeterNetworkIngress; MeterNetworkEgress; MeterStorageRead; MeterStorageWrite; MeterWorkspacePeak])
  then Some "bytes" else
  if decide (meter = MeterExecCount) then Some "count" else None.

Record Entry := mkEntry {
  en_EntryID : string;
  en_SandboxID : string;
  en_OperationID : string;
  en_Meter : string;
  en_Quantity : Z;
  en_Unit : string;
  en_MeterSource : string;
  en_EvidenceReference : string;
  en_OccurredAt : Time;
}.

Record Evidence := mkUsageEvidence {
  ue_EvidenceID : string;
  ue_SandboxID : string;
  ue_OperationID : string;
  ue_AttemptID : string;
  ue_FencingToken : Z;
  ue_Entries : list Entry;
  ue_ReconciliationStatus : string;
  ue_ObservedAt : Time;
  ue_RetainedUntil : Time;
  ue_EvidenceDigest : string;
}.

#[export] Instance Entry_eq_dec : EqDecision Entry.
Proof. solve_decision. Defined.
#[export] Instance Evidence_eq_dec : EqDecision Evidence.
Proof. solve_decision. Defined.

Definition bad_evidence {A} : result A := Err [ErrInvalidEvidence].

Definition Entry_Validate (e : Entry) : result unit :=
  if decide (identifierPattern (en_EntryID e) = false ∨ identifierPattern (en_SandboxID e) = false
             ∨ (en_OperationID e ≠ "" ∧ identifierPattern (en_OperationID e) = false) ∨ en_Quantity e < 0
             ∨ referencePattern (en_EvidenceReference e) = false ∨ IsZero (en_OccurredAt e)) then bad_evidence else
  if decide (en_MeterSource e ≠ SourcePlatform ∧ en_MeterSource e ≠ SourceRuntime ∧ en_MeterSource e ≠ SourceReconciled)
  then bad_evidence else
  match meterUnit (en_Meter e) with
  | None => bad_evidence
  | Some wantUnit => if decide (en_Unit e ≠ wantUnit) then bad_evidence else Ok ()
  end.

(** An entry of the evidence [e]. *)
Definition entry_correlated (e : Evidence) (entry : Entry) : bool :=
  is_ok (Entry_Validate entry)
  && bool_decide (en_SandboxID entry = ue_SandboxID e ∧ (en_OperationID entry = "" ∨ en_OperationID entry = ue_OperationID e)).

Definition Evidence_Validate (e : Evidence) (now : Time) : result unit :=
  if decide (identifierPattern (ue_EvidenceID e) = false ∨ identifierPattern (ue_SandboxID e) = false
             ∨ identifierPattern (ue_OperationID e) = false ∨ identifierPattern (ue_AttemptID e) = false
             ∨ ue_FencingToken e < 1 ∨ ue_Entries e = [] ∨ (MaxEntries < length (ue_Entries e))%nat
             ∨ digestPattern (ue_EvidenceDigest e) = false ∨ IsZero (ue_ObservedAt e) ∨ IsZero (ue_RetainedUntil e)
             ∨ ¬ After (ue_RetainedUntil e) (ue_ObservedAt e)) then bad_evidence else
  if decide (ue_ReconciliationStatus e ≠ ReconciliationComplete ∧ ue_ReconciliationStatus e ≠ ReconciliationPartial
             ∧ ue_ReconciliationStatus e ≠ ReconciliationUnknown) then bad_evidence else
  if negb (forallb (entry_correlated e) (ue_Entries e)) then bad_evidence else
  if decide (¬ Before now (ue_RetainedUntil e)) then Err [ErrEvidenceExpired] else Ok ().

(** Valid evidence is valid at the time of its observation, and has its identifiers. *)
Lemma Evidence_Validate_Ok e now :
  Evidence_Validate e now = Ok () →
  Evidence_Validate e (ue_ObservedAt e) = Ok () ∧ identifierPattern (ue_EvidenceID e) = true ∧
  identifierPattern (ue_OperationID e) = true ∧ now < ue_RetainedUntil e.
Proof.
  unfold Evidence_Validate. case_decide as H1; [done|]. case_decide as H2; [done|]. destruct (negb _); [done|].
  case_decide as H3; [done|]. intros _. nor H1. boolify. unfold Before, After in *.
  rewrite decide_False by auto. done.
Qed.

Record UsageState := mkUsageState {
  us_values : gmap string Evidence;
  us_operationIndex : gmap string string;
}.

Definition empty_usage : UsageState := mkUsageState ∅ ∅.

Definition add_evidence (e : Evidence) (u : UsageState) : UsageState :=
  mkUsageState (<[ue_EvidenceID e := e]> (us_values u)) (<[ue_OperationID e := ue_EvidenceID e]> (us_operationIndex u)).

(** ** What [Put] and [GetEvidence] do to the maps

    [fresh] is the answer for evidence that nothing on record conflicts with. *)

Inductive put_verdict := PutFresh | PutReplay | PutConflict.

(** The checks of the memory repository after validation. *)
Definition memory_verdict (e : Evidence) (u : UsageState) : put_verdict :=
  match us_values u !! ue_EvidenceID e with
  | Some previous => if decide (previous = e) then PutReplay else PutConflict
  | None =>
      match us_operationIndex u !! ue_OperationID e with
      | Some evidenceID =>
          match us_values u !! evidenceID with
          | None => PutConflict
          | Some previous =>
              if decide (ue_SandboxID previous ≠ ue_SandboxID e ∨ ue_AttemptID previous ≠ ue_AttemptID e
                         ∨ ue_FencingToken previous ≠ ue_FencingToken e ∨ previous ≠ e) then PutConflict else PutReplay
          end
      | None => PutFresh
      end
  end.

(** The checks of the file repository. *)
Definition file_verdict (e : Evidence) (u : UsageState) : put_verdict :=
  match us_values u !! ue_EvidenceID e with
  | Some previous => if decide (previous = e) then PutReplay else PutConflict
  | None =>
      match us_operationIndex u !! ue_OperationID e with
      | Some evidenceID =>
          match us_values u !! evidenceID with
          | Some previous => if decide (previous = e) then PutReplay else PutConflict
          | None => PutConflict
          end
      | None => PutFresh
      end
  end.

(** [inconsistent] is the error for an index that does not lead to the operation. *)
Definition read_evidence (inconsistent : sentinel) (operationID : string) (now : Time) (u : UsageState) : result Evidence :=
  match us_operationIndex u !! operationID with
  | None => Err [ErrEvidenceNotFound]
  | Some evidenceID =>
      match us_values u !! evidenceID with
      | None => Err [inconsistent]
      | Some e =>
          if decide (ue_OperationID e ≠ operationID) then Err [inconsistent] else
          if decide (IsZero now ∨ ¬ Before now (ue_RetainedUntil e)) then Err [ErrEvidenceExpired] else Ok e
      end
  end.

(** ** The memory repository *)

Definition MemoryErrConflict : sentinel := SNamed "usage/memory" "ErrConflict".
Definition MemoryErrClosed : sentinel := SNamed "usage/memory" "ErrClosed".

Record UsageMemory := mkUsageMemory { um_state : UsageState; um_closed : bool }.

Definition memory_NewUsageRepository (clock : bool) : result UsageMemory :=
  if clock then Ok (mkUsageMemory empty_usage false) else Err [ErrExternal "usage memory repository clock is required"].

(** [ctx] is what the context reports, [now] what the repository's clock shows. *)
Definition memory_Put (ctx : option context_sentinel) (now : Time) (e : Evidence) (r : UsageMemory) : result unit * UsageMemory :=
  match ctx with
  | Some c => (Err [c : sentinel], r)
  | None =>
      if um_closed r then (Err [MemoryErrClosed], r) else
      match Evidence_Validate e now with
      | Err err => (Err err, r)
      | Ok _ =>
          match memory_verdict e (um_state r) with
          | PutReplay => (Ok (), r)
          | PutConflict => (Err [MemoryErrConflict], r)
          | PutFresh => (Ok (), mkUsageMemory (add_evidence e (um_state r)) (um_closed r))
          end
      end
  end.

Definition memory_GetEvidence (ctx : option context_sentinel) (operationID : string) (now : Time) (r : UsageMemory)
    : result Evidence :=
  match ctx with
  | Some c => Err [c : sentinel]
  | None => if um_closed r then Err [MemoryErrClosed] else read_evidence MemoryErrConflict operationID now (um_state r)
  end.

(** [clock] is what the repository's clock shows. *)
Definition memory_GetByOperation (ctx : option context_sentinel) (clock : Time) (operationID : string) (r : UsageMemory)
    : result Evidence := memory_GetEvidence ctx operationID clock r.

Definition memory_Get (ctx : option context_sentinel) (clock : Time) (evidenceID : string) (r : UsageMemory) : result Evidence :=
  match ctx with
  | Some c => Err [c : sentinel]
  | None =>
      if um_closed r then Err [MemoryErrClosed] else
      match us_values (um_state r) !! evidenceID with
      | None => Err [ErrEvidenceNotFound]
      | Some e => if decide (¬ Before clock (ue_RetainedUntil e)) then Err [ErrEvidenceExpired] else Ok e
      end
  end.

Definition memory_CloseUsage (r : UsageMemory) : UsageMemory := mkUsageMemory (um_state r) true.

(** ** The file repository *)

Definition FileErrConflict : sentinel := SNamed "usage/repository/file" "ErrConflict".
Definition FileErrClosed : sentinel := SNamed "usage/repository/file" "ErrClosed".
Definition FileErrCorrupt : sentinel := SNamed "usage/repository/file" "ErrCorrupt".
Definition FileErrDurability : sentinel := SNamed "usage/repository/file" "ErrDurability".

Definition snapshotVersion : Z := 1.
Definition maxFileSize : Z := 32 * 2 ^ 20.

Record UsageSnapshot := mkUsageSnapshot { un_Version : Z; un_Evidence : list Evidence }.

Definition export_usage (u : UsageState) : UsageSnapshot :=
  mkUsageSnapshot snapshotVersion (sort_by ue_OperationID (map_to_list (us_values u)).*2).

Definition load_evidence (u : UsageState) (e : Evidence) : result UsageState :=
  if negb (is_ok (Evidence_Validate e (ue_ObservedAt e))) then Err [FileErrCorrupt] else
  if decide (is_Some (us_values u !! ue_EvidenceID e)) then Err [FileErrCorrupt] else
  if decide (is_Some (us_operationIndex u !! ue_OperationID e)) then Err [FileErrCorrupt] else
  Ok (add_evidence e u).

Definition import_usage (s : UsageSnapshot) : result UsageState :=
  if decide (un_Version s ≠ snapshotVersion) then Err [FileErrCorrupt] else foldM load_evidence empty_usage (un_Evidence s).

Definition usage_layout : FileLayout UsageState UsageSnapshot :=
  mkFileLayout empty_usage export_usage import_usage FileErrCorrupt FileErrDurability FileErrClosed maxFileSize
    "usage evidence repository" false false.

Section file.
Context {bytes : Type} (encode : UsageSnapshot → option bytes) (file_size : bytes → Z) (decode : bytes → option UsageSnapshot).
Abbreviation FileUsage := (FileStore UsageState bytes).

Definition usage_load (faults : OpenFaults) (disk : option bytes) : result UsageState :=
  match disk with
  | None => Ok empty_usage
  | Some b =>
      if of_open faults then Err [ErrExternal "open usage evidence repository"] else
      if decide (of_stat faults = true ∨ of_irregular faults = true ∨ file_size b > maxFileSize) then Err [FileErrCorrupt] else
      match decode b with
      | None => Err [FileErrCorrupt]
      | Some snapshot => import_usage snapshot
      end
  end.

Definition file_NewUsageRepository (path : string) (clock : bool) (faults : OpenFaults) (disk : option bytes) : result FileUsage :=
  if decide (blank path = true ∨ clock = false)
  then Err [ErrExternal "usage evidence repository path and clock are required"] else
  if of_mkdir faults then Err [ErrExternal "create usage evidence repository directory"] else
  if of_lock faults then Err [ErrExternal "lock usage evidence repository"] else
  state ← usage_load faults disk; Ok (mkFileStore state false disk).

Definition usage_persist : OSFaults → FileUsage → bool * option goerr * FileUsage :=
  store_persist usage_layout encode file_size.

(** [delete(r.values, ...); delete(r.operationIndex, ...)] *)
Definition remove_evidence (e : Evidence) (u : UsageState) : UsageState :=
  mkUsageState (delete (ue_EvidenceID e) (us_values u)) (delete (ue_OperationID e) (us_operationIndex u)).

Definition file_Put (os : OSFaults) (now : Time) (e : Evidence) (r : FileUsage) : result unit * FileUsage :=
  match os_ctx_before_lock os with
  | Some c => (Err [c : sentinel], r)
  | None =>
      if fs_is_closed r then (Err [FileErrClosed], r) else
      match Evidence_Validate e now with
      | Err err => (Err err, r)
      | Ok _ =>
          match file_verdict e (fs_state r) with
          | PutReplay => (Ok (), r)
          | PutConflict => (Err [FileErrConflict], r)
          | PutFresh =>
              match usage_persist os (set_state (add_evidence e (fs_state r)) r) with
              | (_, None, r') => (Ok (), r')
              | (true, Some err, r') => (Err err, r')
              | (false, Some err, r') => (Err err, set_state (remove_evidence e (fs_state r')) r')
              end
          end
      end
  end.

Definition file_GetEvidence (ctx : option context_sentinel) (operationID : string) (now : Time) (r : FileUsage) : result Evidence :=
  match ctx with
  | Some c => Err [c : sentinel]
  | None => if fs_is_closed r then Err [FileErrClosed] else read_evidence FileErrCorrupt operationID now (fs_state r)
  end.

(** [released] is what releasing the lock returned. *)
Definition file_CloseUsage (released : result unit) (r : FileUsage) : result unit * FileUsage :=
  if fs_is_closed r then (Ok (), r) else (released, store_close r).
End file.

(** ** The invariant *)

Record usage_wf (u : UsageState) : Prop := mkUsageWf {
  uw_value k e : us_values u !! k = Some e →
    ue_EvidenceID e = k ∧ Evidence_Validate e (ue_ObservedAt e) = Ok () ∧ us_operationIndex u !! ue_OperationID e = Some k;
  uw_index op k : us_operationIndex u !! op = Some k → ∃ e, us_values u !! k = Some e ∧ ue_OperationID e = op;
}.

Lemma usage_wf_empty : usage_wf empty_usage.
Proof. split; intros ? ?; cbn; by rewrite lookup_empty. Qed.

(** The two adapters check the same. *)
Lemma verdicts_agree e u : memory_verdict e u = file_verdict e u.
Proof.
  unfold memory_verdict, file_verdict. destruct (us_values u !! ue_EvidenceID e); [done|].
  destruct (us_operationIndex u !! _) as [id|]; [|done]. destruct (us_values u !! id) as [p|]; [|done].
  repeat case_decide; naive_solver.
Qed.

(** On the states that occur, a verdict says what is on record. *)
Lemma file_verdict_spec e u :
  usage_wf u →
  match file_verdict e u with
  | PutFresh => us_values u !! ue_EvidenceID e = None ∧ us_operationIndex u !! ue_OperationID e = None
  | PutReplay => us_values u !! ue_EvidenceID e = Some e
  | PutConflict => ∃ k p, us_values u !! k = Some p ∧ p ≠ e ∧ (ue_EvidenceID p = ue_EvidenceID e ∨ ue_OperationID p = ue_OperationID e)
  end.
Proof.
  intros [Hv Hi]. unfold file_verdict. destruct (us_values u !! ue_EvidenceID e) as [p|] eqn:Ep.
  { destruct (Hv _ _ Ep) as (? & _). case_decide as Hd; [by subst p|]. exists (ue_EvidenceID e), p. auto. }
  destruct (us_operationIndex u !! ue_OperationID e) as [k|] eqn:Ei; [|done]. destruct (Hi _ _ Ei) as (p & Hp & Hop).
  rewrite Hp. case_decide as Hd; [|by exists k, p; auto]. subst p. destruct (Hv _ _ Hp) as (<- & _). congruence.
Qed.

Lemma add_evidence_wf e now u :
  usage_wf u → Evidence_Validate e now = Ok () → us_values u !! ue_EvidenceID e = None →
  us_operationIndex u !! ue_OperationID e = None → usage_wf (add_evidence e u).
Proof.
  intros [Hv Hi] He Hn Ho. destruct (Evidence_Validate_Ok e now He) as (He' & _). split; cbn.
  - intros k e' Hk. ins_inv Hk; [by rewrite lookup_insert_eq|]. destruct (Hv k e' Hk) as (? & ? & Hidx).
    split_and!; [done..|]. rewrite lookup_insert_ne; congruence.
  - intros op k Hk. ins_inv Hk; [exists e; by rewrite lookup_insert_eq|]. destruct (Hi op k Hk) as (e' & He1 & ?).
    exists e'. split; [|done]. rewrite lookup_insert_ne; congruence.
Qed.

(** What a failed write takes back. *)
Lemma remove_add_evidence e u :
  us_values u !! ue_EvidenceID e = None → us_operationIndex u !! ue_OperationID e = None →
  remove_evidence e (add_evidence e u) = u.
Proof. intros. unfold remove_evidence, add_evidence. cbn. rewrite !delete_insert_id by done. by destruct u. Qed.

Section snapshots.
Context (u : UsageState) (Hu : usage_wf u).

Abbreviation listing := (un_Evidence (export_usage u)).

Lemma usage_listing : (λ e, (ue_EvidenceID e, e)) <$> listing ≡ₚ map_to_list (us_values u).
Proof using Hu. apply keyed_values; [|apply sort_by_perm]. intros k v Hk. by destruct (uw_value u Hu k v Hk). Qed.

Lemma usage_listed e : e ∈ listing → us_values u !! ue_EvidenceID e = Some e.
Proof using Hu.
  intros He. apply elem_of_map_to_list. rewrite <- usage_listing. apply list_elem_of_fmap. by exists e.
Qed.

Lemma usage_operations : NoDup (ue_OperationID <$> listing).
Proof using Hu.
  apply NoDup_fmap_2_strong.
  - intros e e' He%usage_listed He'%usage_listed Hop. destruct (uw_value u Hu _ _ He) as (_ & _ & H1).
    destruct (uw_value u Hu _ _ He') as (_ & _ & H2). congruence.
  - eapply NoDup_fmap_1. rewrite usage_listing. apply NoDup_map_to_list.
Qed.

Lemma usage_index : list_to_map ((λ e, (ue_OperationID e, ue_EvidenceID e)) <$> listing) = us_operationIndex u.
Proof using Hu.
  assert (Hnd : NoDup ((λ e, (ue_OperationID e, ue_EvidenceID e)) <$> listing).*1).
  { rewrite <- list_fmap_compose. exact usage_operations. }
  apply map_eq. intros op. apply option_eq. intros k. rewrite <- elem_of_list_to_map by done. rewrite list_elem_of_fmap. split.
  - intros (e & [= -> ->] & He). by destruct (uw_value u Hu _ _ (usage_listed e He)) as (_ & _ & ?).
  - intros Hk. destruct (uw_index u Hu op k Hk) as (e & He & <-). destruct (uw_value u Hu k e He) as (<- & _ & _).
    exists e. split; [done|]. apply elem_of_map_to_list in He. rewrite <- usage_listing in He.
    apply list_elem_of_fmap in He as (e' & [= _ ->] & ?). done.
Qed.

Lemma usage_snapshot_roundtrip : import_usage (export_usage u) = Ok u.
Proof using Hu.
  unfold import_usage. cbn [un_Version export_usage]. rewrite decide_False by auto.
  pose (kv := λ e, (ue_EvidenceID e, e)). pose (ov := λ e, (ue_OperationID e, ue_EvidenceID e)).
  assert (Hk : NoDup (kv <$> listing).*1) by (unfold kv; rewrite usage_listing; apply NoDup_fst_map_to_list).
  assert (Ho : NoDup (ov <$> listing).*1) by (rewrite <- list_fmap_compose; exact usage_operations).
  destruct (foldM_Ok load_evidence (λ pre v, v = mkUsageState (list_to_map (kv <$> pre)) (list_to_map (ov <$> pre))) listing empty_usage)
    as (v & -> & ->); [done| |].
  - intros pre e post v Hl ->. rewrite Hl in Hk, Ho. rewrite !fmap_app in Hk. rewrite !fmap_app in Ho.
    apply NoDup_app in Hk as (_ & Hk & _), Ho as (_ & Ho & _).
    assert (Hke : ue_EvidenceID e ∉ (kv <$> pre).*1) by (intros Hin; destruct (Hk _ Hin); cbn; left).
    assert (Hoe : ue_OperationID e ∉ (ov <$> pre).*1) by (intros Hin; destruct (Ho _ Hin); cbn; left).
    assert (He : e ∈ listing) by (rewrite Hl; set_solver).
    destruct (uw_value u Hu _ _ (usage_listed e He)) as (_ & He' & _).
    eexists. split.
    + unfold load_evidence. rewrite He'. cbn [is_ok negb us_values us_operationIndex].
      rewrite !not_elem_of_list_to_map_1 by done. pass. reflexivity.
    + unfold add_evidence. rewrite !fmap_app. cbn -[kv ov]. change (kv e) with (ue_EvidenceID e, e).
      change (ov e) with (ue_OperationID e, ue_EvidenceID e). by rewrite !list_to_map_snoc.
  - rewrite (usage_index : list_to_map (ov <$> listing) = _). f_equal.
    transitivity (mkUsageState (list_to_map (map_to_list (us_values u))) (us_operationIndex u));
      [|by rewrite list_to_map_to_list; destruct u].
    f_equal. apply list_to_map_proper; [done|exact usage_listing].
Qed.
End snapshots.

(** ** What callers see

    [Put] takes effect, with its answer or a durability failure, or it does not; the
    store's own clock shows any time. *)

Definition usage_conflicts : list sentinel := [MemoryErrConflict; FileErrConflict; FileErrCorrupt].

(** Errors that say nothing about the evidence. *)
Definition usage_transport_error (e : goerr) : Prop :=
  e ∈ [[Canceled : sentinel]; [DeadlineExceeded : sentinel]; [MemoryErrClosed]; [FileErrClosed]; [FileErrDurability]].

Definition put_answer (now : Time) (e : Evidence) (u : UsageState) (x : result unit) : Prop :=
  match Evidence_Validate e now with
  | Err err => x = Err err
  | Ok _ =>
      match file_verdict e u with
      | PutConflict => ∃ c, c ∈ usage_conflicts ∧ x = Err [c]
      | _ => x = Ok () ∨ ∃ err, usage_transport_error err ∧ x = Err err
      end
  end.

Definition put_next (now : Time) (e : Evidence) (u : UsageState) : UsageState :=
  match Evidence_Validate e now, file_verdict e u with Ok _, PutFresh => add_evidence e u | _, _ => u end.

Definition put_answers (now : Time) (e : Evidence) (u : UsageState) (x : result unit) (u' : UsageState) : Prop :=
  (put_answer now e u x ∧ u' = put_next now e u) ∨ (u' = u ∧ ∃ err, usage_transport_error err ∧ x = Err err).

Definition get_answers (operationID : string) (now : Time) (u : UsageState) (x : result Evidence) : Prop :=
  (∃ c, c ∈ usage_conflicts ∧ x = read_evidence c operationID now u) ∨ ∃ err, usage_transport_error err ∧ x = Err err.

Lemma usage_error_ctx (c : context_sentinel) : usage_transport_error [c : sentinel].
Proof. unfold usage_transport_error. destruct c; set_solver. Qed.

Lemma put_next_wf now e u : usage_wf u → usage_wf (put_next now e u).
Proof.
  intros Hu. unfold put_next. destruct (Evidence_Validate e now) as [[]|] eqn:Ev; [|done].
  pose proof (file_verdict_spec e u Hu) as Hs. destruct (file_verdict e u); [|done..].
  destruct Hs. by eapply add_evidence_wf.
Qed.

Lemma put_answers_next now e u x u' : put_answers now e u x u' → u' = u ∨ u' = put_next now e u.
Proof. intros [[_ ->]|[-> _]]; auto. Qed.

(** The memory adapter. *)
Lemma memory_Put_answers ctx now e r :
  put_answers now e (um_state r) (memory_Put ctx now e r).1 (um_state (memory_Put ctx now e r).2).
Proof.
  unfold memory_Put, put_answers, put_answer, put_next. destruct ctx as [c|]; [right; eauto using usage_error_ctx|].
  destruct (um_closed r); [right; split; [done|]; exists [MemoryErrClosed]; split; [unfold usage_transport_error|]; set_solver|].
  destruct (Evidence_Validate e now) as [[]|err]; [|by left]. rewrite verdicts_agree. unfold usage_conflicts.
  destruct (file_verdict e (um_state r)); left; (split; [|done]); [by left..|]. exists MemoryErrConflict. set_solver.
Qed.

Lemma memory_GetEvidence_answers ctx id now r : get_answers id now (um_state r) (memory_GetEvidence ctx id now r).
Proof.
  unfold memory_GetEvidence, get_answers. destruct ctx as [c|]; [right; eauto using usage_error_ctx|].
  destruct (um_closed r); [right; exists [MemoryErrClosed]; split; [unfold usage_transport_error; set_solver|done]|].
  left. exists MemoryErrConflict. unfold usage_conflicts. set_solver.
Qed.

Section durability.
Context {bytes : Type} (encode : UsageSnapshot → option bytes) (file_size : bytes → Z) (decode : bytes → option UsageSnapshot).

(** Snapshots that JSON represents faithfully decode to themselves. *)
Context (faithful : UsageSnapshot → Prop).
Context (json_roundtrip : ∀ s b, faithful s → encode s = Some b → decode b = Some s).

Abbreviation FileUsage := (FileStore UsageState bytes).
Abbreviation usage_load := (usage_load file_size decode).

#[local] Instance usage_lawful : LawfulLayout usage_layout encode decode usage_wf faithful.
Proof using json_roundtrip. split; [apply usage_wf_empty|apply usage_snapshot_roundtrip|done]. Qed.

(** A restart would load exactly the state in memory. *)
Definition usage_durable (r : FileUsage) : Prop := usage_wf (fs_state r) ∧ usage_load of_ok (fs_disk r) = Ok (fs_state r).

Lemma usage_load_store disk : usage_load of_ok disk = store_load usage_layout file_size decode of_ok disk.
Proof using Type.
  unfold UsageStore.usage_load, store_load. destruct disk as [b|]; [|done]. cbn. repeat case_decide; naive_solver.
Qed.

Lemma file_Put_spec os now e (r : FileUsage) :
  usage_durable r → faithful (export_usage (put_next now e (fs_state r))) →
  usage_durable (file_Put encode file_size os now e r).2 ∧
  put_answers now e (fs_state r) (file_Put encode file_size os now e r).1 (fs_state (file_Put encode file_size os now e r).2).
Proof using json_roundtrip.
  intros Hr Hf. pose proof Hr as [Hwf Hload]. pose proof (put_next_wf now e _ Hwf) as Hnext.
  pose proof (file_verdict_spec e _ Hwf) as Hv. unfold file_Put, put_answers, put_answer, put_next in *.
  destruct (os_ctx_before_lock os) as [c|]; [split; [done|]; right; eauto using usage_error_ctx|].
  destruct (fs_is_closed r); [split; [done|]; right; split; [done|]; exists [FileErrClosed]; split; [unfold usage_transport_error|]; set_solver|].
  destruct (Evidence_Validate e now) as [[]|err] eqn:Ev; [|by split; [|left]].
  destruct (file_verdict e (fs_state r)) eqn:Ef; cycle 1.
  { split; [done|]. left. split; [by left|done]. }
  { split; [done|]. left. split; [|done]. exists FileErrConflict. unfold usage_conflicts. set_solver. }
  destruct Hv as [Hn Ho].
  destruct (store_persist_cases usage_layout encode file_size decode usage_wf faithful os
    (set_state (add_evidence e (fs_state r)) r) Hnext Hf) as [(err & Herr & Hp)|(b & err & Hp & Herr & Hb)]; unfold usage_persist; rewrite Hp.
  - cbn [set_state fs_state fs_is_closed fs_disk]. rewrite remove_add_evidence by done. split; [by destruct r|].
    cbn. right. split; [done|]. exists err. split; [|done]. unfold usage_transport_error.
    destruct Herr as [-> | [-> | [-> | ->]]]; cbn; set_solver.
  - rewrite <- usage_load_store in Hb. destruct Herr as [-> | ->]; cbn; (split; [done|]); left; (split; [|done]); [by left|].
    right. exists [FileErrDurability]. split; [unfold usage_transport_error; set_solver|done].
Qed.

(** *** Runs of the file repository: writes that may fail, closing, and restarts *)

Inductive usage_file_step : FileUsage → option (Evidence * result unit) → FileUsage → Prop :=
  | usage_put os now e r x r' :
      faithful (export_usage (put_next now e (fs_state r))) → file_Put encode file_size os now e r = (x, r') →
      usage_file_step r (Some (e, x)) r'
  | usage_close released r : usage_file_step r None (file_CloseUsage released r).2
  | usage_reopen path faults r r' :
      file_NewUsageRepository file_size decode path true faults (fs_disk r) = Ok r' → usage_file_step r None r'.

Definition usage_file_run (r r' : FileUsage) : Prop := rtc (λ r1 r2, ∃ x, usage_file_step r1 x r2) r r'.

(** Evidence on record stays as it is. *)
Definition usage_grows (u u' : UsageState) : Prop := us_values u ⊆ us_values u' ∧ us_operationIndex u ⊆ us_operationIndex u'.

Lemma put_next_grows now e u : usage_wf u → usage_grows u (put_next now e u).
Proof using Type.
  intros Hu. unfold put_next. destruct (Evidence_Validate e now); [|done]. pose proof (file_verdict_spec e u Hu) as Hs.
  destruct (file_verdict e u); [|done..]. destruct Hs. split; cbn; by apply insert_subseteq.
Qed.

Lemma usage_reopened path clock faults (r r' : FileUsage) :
  usage_durable r → file_NewUsageRepository file_size decode path clock faults (fs_disk r) = Ok r' →
  r' = mkFileStore (fs_state r) false (fs_disk r).
Proof using Type.
  intros [_ Hload]. unfold file_NewUsageRepository. case_decide; [done|]. destruct (of_mkdir faults), (of_lock faults); try done.
  enough (Hsame : ∀ u, usage_load faults (fs_disk r) = Ok u → u = fs_state r).
  { destruct (usage_load faults (fs_disk r)) as [u|] eqn:El; cbn; [|done]. intros [= <-]. by rewrite (Hsame u eq_refl). }
  unfold UsageStore.usage_load in *. destruct (fs_disk r) as [b|]; [|congruence]. intros u Hu.
  destruct (of_open faults); [done|]. cbn in Hload. repeat case_decide; try done. destruct (decode b); congruence.
Qed.

Lemma usage_file_step_spec r x r' :
  usage_durable r → usage_file_step r x r' → usage_durable r' ∧ usage_grows (fs_state r) (fs_state r').
Proof using json_roundtrip.
  intros Hr Hstep. destruct Hstep as [os now e r x r' Hf Hput|released r|path faults r r' Ho].
  - destruct (file_Put_spec os now e r Hr Hf) as [? Ha]. rewrite Hput in *. cbn in *. split; [done|].
    destruct (put_answers_next _ _ _ _ _ Ha) as [-> | ->]; [done|]. apply put_next_grows, Hr.
  - unfold file_CloseUsage. by destruct (fs_is_closed r).
  - by apply usage_reopened in Ho as ->.
Qed.

Lemma usage_file_run_spec r r' :
  usage_durable r → usage_file_run r r' → usage_durable r' ∧ usage_grows (fs_state r) (fs_state r').
Proof using json_roundtrip.
  intros Hr Hrun. induction Hrun as [r|r r1 r2 [x Hx] _ IH]; [done|].
  destruct (usage_file_step_spec r x r1 Hr Hx) as [Hr1 Hg]. destruct (IH Hr1) as [? Hg']. split; [done|].
  destruct Hg, Hg'. split; by etransitivity.
Qed.

(** A write that answers without an error stored the evidence. *)
Lemma file_Put_Ok os now e (r : FileUsage) :
  (file_Put encode file_size os now e r).1 = Ok () → Evidence_Validate e now = Ok () ∧ file_verdict e (fs_state r) ≠ PutConflict.
Proof using Type.
  unfold file_Put. destruct (os_ctx_before_lock os); [done|]. destruct (fs_is_closed r); [done|].
  destruct (Evidence_Validate e now) as [[]|]; [|done]. by destruct (file_verdict e (fs_state r)).
Qed.

Lemma put_stored r e r' :
  usage_durable r → usage_file_step r (Some (e, Ok ())) r' → us_values (fs_state r') !! ue_EvidenceID e = Some e.
Proof using json_roundtrip.
  intros Hr Hstep. inversion Hstep as [os now e' ? x ? Hf Hput| |]; subst.
  destruct (file_Put_spec os now e r Hr Hf) as [_ Ha]. destruct (file_Put_Ok os now e r) as [Hval Hconf]; [by rewrite Hput|].
  rewrite Hput in Ha. cbn in Ha.
  destruct Ha as [[_ ->]|[_ (? & _ & ?)]]; [|done]. unfold put_next. rewrite Hval.
  destruct Hr as [Hwf _]. pose proof (file_verdict_spec e _ Hwf) as Hs. destruct (file_verdict e (fs_state r)); [|done..].
  cbn. by rewrite lookup_insert_eq.
Qed.

(** evidence that was stored is kept.  When [Put] of the file repository
    answered without an error, then after any later writes, failed writes, closing and
    restarts of the repository the evidence is still read back unchanged under its
    operation, by an open repository, at any time until its retention ends; and no
    other evidence is ever accepted for this operation. *)
Theorem stored_usage_is_kept (r1 r2 r3 : FileUsage) e now :
  usage_file_run (empty_store usage_layout) r1 → usage_file_step r1 (Some (e, Ok ())) r2 → usage_file_run r2 r3 →
  (fs_is_closed r3 = false → 0 < now → now < ue_RetainedUntil e → file_GetEvidence None (ue_OperationID e) now r3 = Ok e) ∧
  ∀ os at_ e', ue_OperationID e' = ue_OperationID e → (file_Put encode file_size os at_ e' r3).1 = Ok () → e' = e.
Proof using json_roundtrip.
  intros H1 H2 H3. assert (H0 : usage_durable (empty_store usage_layout)) by (split; [apply usage_wf_empty|done]).
  destruct (usage_file_run_spec _ _ H0 H1) as [Hr1 _]. destruct (usage_file_step_spec _ _ _ Hr1 H2) as [Hr2 _].
  destruct (usage_file_run_spec _ _ Hr2 H3) as [[Hwf _] [Hv Hi]].
  assert (Hstored : us_values (fs_state r2) !! ue_EvidenceID e = Some e) by exact (put_stored _ _ _ Hr1 H2).
  destruct Hr2 as [Hwf2 _]. destruct (uw_value _ Hwf2 _ _ Hstored) as (_ & _ & Hop).
  pose proof (lookup_weaken _ _ _ _ Hstored Hv) as Hstored3. pose proof (lookup_weaken _ _ _ _ Hop Hi) as Hop3. split.
  - intros Hopen Hpos Hnow. unfold file_GetEvidence, read_evidence. rewrite Hopen, Hop3, Hstored3.
    rewrite decide_False by auto. rewrite decide_False; [done|]. unfold IsZero, Before. lia.
  - intros os at_ e' He' Hput. apply file_Put_Ok in Hput as [_ Hput]. pose proof (file_verdict_spec e' _ Hwf) as Hs.
    destruct (file_verdict e' (fs_state r3)); [destruct Hs; congruence| |done].
    destruct (uw_value _ Hwf _ _ Hs) as (_ & _ & Hop'). congruence.
Qed.
End durability.

(** ** A run *)

Module UsageFileRuns.
Definition digest : string := "sha256:0123456789abcdef0123456789abcdef0123456789abcdef0123456789abcdef".
Definition entry (op : string) : Entry :=
  mkEntry "wall-1" "sandbox-1" op MeterWallTime 1500 "milliseconds" SourceRuntime "ref:usage/1/wall" (10 * Second).
Definition evidence (id op : string) : Evidence :=
  mkUsageEvidence id "sandbox-1" op "attempt-1" 1 [entry op] ReconciliationPartial (10 * Second) (100 * Second) digest.

(** A codec that keeps every snapshot. *)
Definition encode (s : UsageSnapshot) : option UsageSnapshot := Some s.
Definition size (_ : UsageSnapshot) : Z := 100.
Definition decode (s : UsageSnapshot) : option UsageSnapshot := Some s.

Abbreviation put os e r := (file_Put encode size os (20 * Second) e r).
Definition r1 : FileStore UsageState UsageSnapshot := empty_store usage_layout.
Definition r2 := (put os_ok (evidence "usage-1" "exec-1") r1).2.
(** A write that fails, one that is not synced, closing and a restart. *)
Definition r3 := (put os_rename_fails (evidence "usage-2" "exec-2") r2).2.
Definition r4 := (put os_syncDir_fails (evidence "usage-3" "exec-3") r3).2.
Definition r5 := (file_CloseUsage (Ok ()) r4).2.
Definition r6 : FileStore UsageState UsageSnapshot := mkFileStore (fs_state r5) false (fs_disk r5).

Lemma usage_run_later : usage_file_run encode size decode (λ _, True) r2 r6.
Proof.
  eapply rtc_l; [eexists; by eapply (usage_put encode size decode _ os_rename_fails (20 * Second) (evidence "usage-2" "exec-2") r2 _ r3)|].
  eapply rtc_l; [eexists; by eapply (usage_put encode size decode _ os_syncDir_fails (20 * Second) (evidence "usage-3" "exec-3") r3 _ r4)|].
  eapply rtc_l; [eexists; apply (usage_close encode size decode _ (Ok ()) r4)|].
  eapply rtc_l; [eexists; by apply (usage_reopen encode size decode _ "/var/usage.json" of_ok r5 r6)|]. constructor.
Qed.
End UsageFileRuns.

Lemma stored_usage_is_kept_witness :
  file_GetEvidence None "exec-1" (50 * Second) UsageFileRuns.r6 = Ok (UsageFileRuns.evidence "usage-1" "exec-1") ∧
  file_GetEvidence None "exec-3" (50 * Second) UsageFileRuns.r6 = Ok (UsageFileRuns.evidence "usage-3" "exec-3").
Proof.
  split; [|vm_compute; reflexivity].
  apply (stored_usage_is_kept UsageFileRuns.encode UsageFileRuns.size UsageFileRuns.decode (λ _, True)
           ltac:(by intros s b _ [= <-]) UsageFileRuns.r1 UsageFileRuns.r2 UsageFileRuns.r6
           (UsageFileRuns.evidence "usage-1" "exec-1") (50 * Second)).
  - constructor.
  - by eapply (usage_put _ _ _ _ os_ok (20 * Second) (UsageFileRuns.evidence "usage-1" "exec-1") UsageFileRuns.r1 _ UsageFileRuns.r2).
  - apply UsageFileRuns.usage_run_later.
  - reflexivity.
  - done.
  - done.
Defined.
