(* ===== verification/BrowserModel.v ===== *)
(** * Browser sessions: [provider/browser/model.go]

    The record of an open operation of a browser session, its validation and its
    transitions.  A pointer field is an [option]; a [time.Time] is an instant. *)

From S2P Require Import Prelude.
From stdpp Require Import base strings list.
From Stdlib Require Import Ascii ZArith Lia.

Local Open Scope Z_scope.

(** ** Errors *)

Definition browser_error (name : string) : sentinel := SNamed "browser" name.
Definition ErrInvalidRequest : sentinel := browser_error "ErrInvalidRequest".
Definition ErrDeadlineExpired : sentinel := browser_error "ErrDeadlineExpired".
Definition ErrInvalidExpiry : sentinel := browser_error "ErrInvalidExpiry".
Definition ErrInvalidRecord : sentinel := browser_error "ErrInvalidRecord".
Definition ErrInvalidHandoff : sentinel := browser_error "ErrInvalidHandoff".
Definition ErrInvalidAllocation : sentinel := browser_error "ErrInvalidAllocation".
Definition ErrAllocationConflict : sentinel := browser_error "ErrAllocationConflict".
Definition ErrInvalidTransition : sentinel := browser_error "ErrInvalidTransition".
Definition ErrOperationTerminal : sentinel := browser_error "ErrOperationTerminal".
Definition ErrHandoffUnavailable : sentinel := browser_error "ErrHandoffUnavailable".
Definition ErrHandoffExpired : sentinel := browser_error "ErrHandoffExpired".
Definition ErrSandboxNotReady : sentinel := browser_error "ErrSandboxNotReady".
Definition ErrProviderRevisionConflict : sentinel := browser_error "ErrProviderRevisionConflict".
Definition ErrGenerationConflict : sentinel := browser_error "ErrGenerationConflict".
Definition ErrLeaseExpired : sentinel := browser_error "ErrLeaseExpired".
Definition ErrStaleFencingToken : sentinel := browser_error "ErrStaleFencingToken".
Definition ErrCapabilityUnsupported : sentinel := browser_error "ErrCapabilityUnsupported".
Definition ErrNetworkPolicyConflict : sentinel := browser_error "ErrNetworkPolicyConflict".

Definition refuse {A} (s : sentinel) : result A := Err [s].

(** ** Patterns *)

Definition id_char (c : ascii) : bool := is_alnum c || one_of "._:-" c.
Definition identifierPattern (s : string) : bool := match_head_tail is_alnum id_char 199 s.

Definition digestPattern (s : string) : bool :=
  match cut_prefix "sha256:" s with
  | Some rest => all_bytes is_lower_hex rest && bool_decide (String.length rest = 64%nat)
  | None => false
  end.

Definition endpointPattern (s : string) : bool :=
  match cut_prefix "ref:browser-session:" s with
  | Some rest => match_head_tail is_alnum (λ c, is_alnum c || one_of "._-" c) 199 rest
  | None => false
  end.

Definition allocationPattern (s : string) : bool :=
  match cut_prefix "ref:browser/" s with
  | Some rest => all_bytes is_lower_hex rest && bool_decide (String.length rest = 32%nat)
  | None => false
  end.

(** ** Records *)

Definition CapabilityProfileID : string := "browser-v1".
Definition ProtocolWebSocket : string := "websocket".
Definition MaxIdempotencyKeyRunes : nat := 200.

Record OpenRequest := mkOpenRequest {
  bq_SandboxID : string; bq_ProviderRevisionID : string; bq_OperationID : string; bq_AttemptID : string;
  bq_FencingToken : Z; bq_IdempotencyKey : string; bq_RequestDigest : string; bq_Deadline : Time;
  bq_ExpectedGeneration : Z; bq_BrowserSessionID : string; bq_CapabilityProfileID : string; bq_ExpiresAt : Time;
}.

Inductive Status :=
  | StatusAccepted | StatusRunning | StatusSucceeded | StatusFailed | StatusCancelled | StatusOutcomeUnknown
  | StatusOther (raw : string).

Record EndpointEvidence := mkEndpointEvidence { be_InternalEndpointReference : string; be_ConnectionGeneration : Z }.

Record Handoff := mkHandoff {
  bh_OperationID : string; bh_AttemptID : string; bh_FencingToken : Z; bh_SandboxID : string; bh_BrowserSessionID : string;
  bh_CapabilityProfileID : string; bh_Protocol : string; bh_InternalEndpointReference : string; bh_ConnectionGeneration : Z;
  bh_ExpiresAt : Time;
}.

Record AllocationReceipt := mkReceipt {
  bl_Reference : string; bl_SandboxID : string; bl_BrowserSessionID : string; bl_OperationID : string; bl_AttemptID : string;
  bl_FencingToken : Z; bl_ExpectedGeneration : Z; bl_ConnectionGeneration : Z; bl_AllocatedAt : Time; bl_ExpiresAt : Time;
}.

Inductive AllocationState :=
  | AllocationRunning | AllocationAbsent | AllocationExpired | AllocationOutcomeUnknown | AllocationOther (raw : string).

Record AllocationEvidence := mkEvidence { ba_Receipt : AllocationReceipt; ba_State : AllocationState; ba_ObservedAt : Time }.

Record BrowserRecord := mkBrowserRecord {
  br_Request : OpenRequest; br_Status : Status; br_AcceptedAt : Time; br_ObservedAt : Time; br_CancelRequested : bool;
  br_Allocation : option AllocationEvidence; br_Handoff : option Handoff;
}.

Record SandboxAuthority := mkSandboxAuthority {
  bs_SandboxID : string; bs_ProviderRevisionID : string; bs_Ready : bool; bs_Generation : Z; bs_LeaseExpiresAt : Time;
  bs_FencingToken : Z; bs_CapabilityProfileID : string; bs_NetworkPolicyReference : string;
}.

Record Reservation := mkReservation { bv_Record : BrowserRecord; bv_Replayed : bool }.

#[export] Instance OpenRequest_eq_dec : EqDecision OpenRequest.
Proof. solve_decision. Defined.
#[export] Instance Status_eq_dec : EqDecision Status.
Proof. solve_decision. Defined.
#[export] Instance AllocationReceipt_eq_dec : EqDecision AllocationReceipt.
Proof. solve_decision. Defined.
#[export] Instance AllocationState_eq_dec : EqDecision AllocationState.
Proof. solve_decision. Defined.
#[export] Instance AllocationEvidence_eq_dec : EqDecision AllocationEvidence.
Proof. solve_decision. Defined.
#[export] Instance Handoff_eq_dec : EqDecision Handoff.
Proof. solve_decision. Defined.
#[export] Instance BrowserRecord_eq_dec : EqDecision BrowserRecord.
Proof. solve_decision. Defined.
#[export] Instance SandboxAuthority_eq_dec : EqDecision SandboxAuthority.
Proof. solve_decision. Defined.

(** ** Validation *)

(** Every identifier of a list; the source ranges over a map, and each failure
    gives the same sentinel. *)
Definition identifiers (l : list string) : Prop := Forall (λ s, identifierPattern s = true) l.
#[export] Instance identifiers_dec l : Decision (identifiers l).
Proof. unfold identifiers. apply _. Defined.

Definition OpenRequest_Validate (r : OpenRequest) (now : Time) : result unit :=
  if decide (IsZero now) then refuse ErrInvalidRequest else
  if decide (¬ identifiers [bq_SandboxID r; bq_ProviderRevisionID r; bq_OperationID r; bq_AttemptID r; bq_BrowserSessionID r])
  then refuse ErrInvalidRequest else
  if decide (bq_CapabilityProfileID r ≠ CapabilityProfileID) then refuse ErrInvalidRequest else
  if decide (validBoundedString (bq_IdempotencyKey r) 1 MaxIdempotencyKeyRunes = false) then refuse ErrInvalidRequest else
  if decide (bq_FencingToken r < 1 ∨ bq_ExpectedGeneration r < 1) then refuse ErrInvalidRequest else
  if decide (digestPattern (bq_RequestDigest r) = false) then refuse ErrInvalidRequest else
  if decide (IsZero (bq_Deadline r)) then refuse ErrInvalidRequest else
  if decide (IsZero (bq_ExpiresAt r)) then refuse ErrInvalidExpiry else
  if decide (¬ After (bq_Deadline r) now) then refuse ErrDeadlineExpired else
  if decide (¬ After (bq_ExpiresAt r) now ∨ After (bq_ExpiresAt r) (bq_Deadline r)) then refuse ErrInvalidExpiry else Ok ().

Definition Status_valid (s : Status) : bool := match s with StatusOther _ => false | _ => true end.
Definition Status_terminal (s : Status) : bool :=
  match s with StatusSucceeded | StatusFailed | StatusCancelled | StatusOutcomeUnknown => true | _ => false end.

Definition EndpointEvidence_validate (e : EndpointEvidence) : result unit :=
  if decide (endpointPattern (be_InternalEndpointReference e) = false ∨ be_ConnectionGeneration e < 1)
  then refuse ErrInvalidHandoff else Ok ().

Definition AllocationReceipt_Validate (r : AllocationReceipt) : result unit :=
  if decide (allocationPattern (bl_Reference r) = false) then refuse ErrInvalidAllocation else
  if decide (¬ identifiers [bl_SandboxID r; bl_BrowserSessionID r; bl_OperationID r; bl_AttemptID r])
  then refuse ErrInvalidAllocation else
  if decide (bl_FencingToken r < 1 ∨ bl_ExpectedGeneration r < 1 ∨ bl_ConnectionGeneration r < 1 ∨ IsZero (bl_AllocatedAt r)
             ∨ IsZero (bl_ExpiresAt r) ∨ ¬ After (bl_ExpiresAt r) (bl_AllocatedAt r))
  then refuse ErrInvalidAllocation else Ok ().

Definition matchesRequest (r : AllocationReceipt) (request : OpenRequest) : Prop :=
  bl_SandboxID r = bq_SandboxID request ∧ bl_BrowserSessionID r = bq_BrowserSessionID request ∧
  bl_OperationID r = bq_OperationID request ∧ bl_AttemptID r = bq_AttemptID request ∧
  bl_FencingToken r = bq_FencingToken request ∧ bl_ExpectedGeneration r = bq_ExpectedGeneration request ∧
  bl_ExpiresAt r = bq_ExpiresAt request.
#[export] Instance matchesRequest_dec r q : Decision (matchesRequest r q).
Proof. unfold matchesRequest. apply _. Defined.

Definition AllocationState_valid (s : AllocationState) : bool := match s with AllocationOther _ => false | _ => true end.

Definition AllocationEvidence_Validate (e : AllocationEvidence) (request : OpenRequest) : result unit :=
  if decide (is_ok (AllocationReceipt_Validate (ba_Receipt e)) = false ∨ ¬ matchesRequest (ba_Receipt e) request
             ∨ AllocationState_valid (ba_State e) = false ∨ IsZero (ba_ObservedAt e)
             ∨ Before (ba_ObservedAt e) (bl_AllocatedAt (ba_Receipt e)))
  then refuse ErrInvalidAllocation else Ok ().

Definition Handoff_Validate (h : Handoff) : result unit :=
  if decide (¬ identifiers [bh_OperationID h; bh_AttemptID h; bh_SandboxID h; bh_BrowserSessionID h]) then refuse ErrInvalidHandoff else
  if decide (bh_FencingToken h < 1 ∨ bh_CapabilityProfileID h ≠ CapabilityProfileID ∨ bh_Protocol h ≠ ProtocolWebSocket
             ∨ IsZero (bh_ExpiresAt h)) then refuse ErrInvalidHandoff else
  EndpointEvidence_validate (mkEndpointEvidence (bh_InternalEndpointReference h) (bh_ConnectionGeneration h)).

Definition SandboxAuthority_Validate (a : SandboxAuthority) : result unit :=
  if decide (identifierPattern (bs_SandboxID a) = false ∨ identifierPattern (bs_ProviderRevisionID a) = false
             ∨ bs_Generation a < 1 ∨ bs_FencingToken a < 1 ∨ IsZero (bs_LeaseExpiresAt a)
             ∨ bs_CapabilityProfileID a ≠ CapabilityProfileID ∨ identifierPattern (bs_NetworkPolicyReference a) = false)
  then refuse ErrInvalidRecord else Ok ().

Definition handoffMatchesRequest (h : Handoff) (request : OpenRequest) : Prop :=
  bh_OperationID h = bq_OperationID request ∧ bh_AttemptID h = bq_AttemptID request ∧
  bh_FencingToken h = bq_FencingToken request ∧ bh_SandboxID h = bq_SandboxID request ∧
  bh_BrowserSessionID h = bq_BrowserSessionID request ∧ bh_CapabilityProfileID h = bq_CapabilityProfileID request ∧
  bh_ExpiresAt h = bq_ExpiresAt request.
#[export] Instance handoffMatchesRequest_dec h q : Decision (handoffMatchesRequest h q).
Proof. unfold handoffMatchesRequest. apply _. Defined.

(** An allocation that is there and running. *)
Definition allocation_running (r : BrowserRecord) : Prop := ba_State <$> br_Allocation r = Some AllocationRunning.
#[export] Instance allocation_running_dec r : Decision (allocation_running r).
Proof. unfold allocation_running. apply _. Defined.

Definition Record_Validate (r : BrowserRecord) : result unit :=
  if decide (IsZero (br_AcceptedAt r) ∨ IsZero (br_ObservedAt r) ∨ Before (br_ObservedAt r) (br_AcceptedAt r)
             ∨ Status_valid (br_Status r) = false) then refuse ErrInvalidRecord else
  if decide (is_ok (OpenRequest_Validate (br_Request r) (br_AcceptedAt r)) = false) then refuse ErrInvalidRecord else
  if decide (br_Status r = StatusCancelled ∧ br_CancelRequested r = false) then refuse ErrInvalidRecord else
  if decide (br_Status r = StatusAccepted ∧ is_Some (br_Allocation r)) then refuse ErrInvalidRecord else
  if decide ((br_Status r = StatusRunning ∨ br_Status r = StatusSucceeded) ∧ ¬ allocation_running r) then refuse ErrInvalidRecord else
  if decide (br_Status r = StatusSucceeded ∧ br_CancelRequested r = true) then refuse ErrInvalidRecord else
  _ ← match br_Allocation r with
      | Some a =>
          if decide (is_ok (AllocationEvidence_Validate a (br_Request r)) = false ∨ After (ba_ObservedAt a) (br_ObservedAt r))
          then refuse ErrInvalidRecord else Ok ()
      | None => Ok ()
      end;
  if decide (br_Status r ≠ StatusSucceeded) then
    if decide (is_Some (br_Handoff r)) then refuse ErrInvalidRecord else Ok ()
  else
  match br_Handoff r, br_Allocation r with
  | Some h, Some a =>
      if decide (¬ Before (br_ObservedAt r) (bq_ExpiresAt (br_Request r))) then refuse ErrInvalidRecord else
      if decide (is_ok (Handoff_Validate h) = false ∨ ¬ handoffMatchesRequest h (br_Request r)
                 ∨ bh_ConnectionGeneration h ≠ bl_ConnectionGeneration (ba_Receipt a)) then refuse ErrInvalidRecord else Ok ()
  | _, _ => refuse ErrInvalidRecord
  end.

Definition NewRecord (request : OpenRequest) (acceptedAt : Time) : result BrowserRecord :=
  _ ← OpenRequest_Validate request acceptedAt;
  Ok (mkBrowserRecord request StatusAccepted acceptedAt acceptedAt false None None).

(** ** Transitions *)

(** [sameAllocationReceipt] compares every field. *)
Definition sameAllocationReceipt (left right : AllocationReceipt) : Prop :=
  bl_Reference left = bl_Reference right ∧ bl_SandboxID left = bl_SandboxID right ∧
  bl_BrowserSessionID left = bl_BrowserSessionID right ∧ bl_OperationID left = bl_OperationID right ∧
  bl_AttemptID left = bl_AttemptID right ∧ bl_FencingToken left = bl_FencingToken right ∧
  bl_ExpectedGeneration left = bl_ExpectedGeneration right ∧ bl_ConnectionGeneration left = bl_ConnectionGeneration right ∧
  bl_AllocatedAt left = bl_AllocatedAt right ∧ bl_ExpiresAt left = bl_ExpiresAt right.
#[export] Instance sameAllocationReceipt_dec l r : Decision (sameAllocationReceipt l r).
Proof. unfold sameAllocationReceipt. apply _. Defined.

(** [if err := updated.Validate(); err != nil { return Record{}, err }; return updated, nil] *)
Definition validated (updated : BrowserRecord) : result BrowserRecord := _ ← Record_Validate updated; Ok updated.

Definition AttachAllocation (record : BrowserRecord) (receipt : AllocationReceipt) : result BrowserRecord :=
  _ ← Record_Validate record;
  if decide (is_ok (AllocationReceipt_Validate receipt) = false ∨ ¬ matchesRequest receipt (br_Request record)
             ∨ Before (bl_AllocatedAt receipt) (br_AcceptedAt record)
             ∨ ¬ Before (bl_AllocatedAt receipt) (bq_Deadline (br_Request record))) then refuse ErrInvalidAllocation else
  match br_Allocation record with
  | Some a => if decide (sameAllocationReceipt (ba_Receipt a) receipt) then Ok record else refuse ErrAllocationConflict
  | None =>
      if decide (br_Status record ≠ StatusAccepted) then refuse ErrOperationTerminal else
      validated (mkBrowserRecord (br_Request record) StatusRunning (br_AcceptedAt record) (bl_AllocatedAt receipt)
                   (br_CancelRequested record) (Some (mkEvidence receipt AllocationRunning (bl_AllocatedAt receipt)))
                   (br_Handoff record))
  end.

(** What an observed state makes of a running operation. *)
Definition observed_status (s : AllocationState) : Status :=
  match s with
  | AllocationRunning | AllocationOther _ => StatusRunning
  | AllocationAbsent | AllocationExpired => StatusFailed
  | AllocationOutcomeUnknown => StatusOutcomeUnknown
  end.

Definition ObserveAllocation (record : BrowserRecord) (observation : AllocationEvidence) : result BrowserRecord :=
  _ ← Record_Validate record;
  match br_Allocation record with
  | None => refuse ErrOperationTerminal
  | Some a =>
      if decide (br_Status record ≠ StatusRunning) then refuse ErrOperationTerminal else
      if decide (is_ok (AllocationEvidence_Validate observation (br_Request record)) = false
                 ∨ ¬ sameAllocationReceipt (ba_Receipt a) (ba_Receipt observation)
                 ∨ Before (ba_ObservedAt observation) (ba_ObservedAt a)) then refuse ErrAllocationConflict else
      validated (mkBrowserRecord (br_Request record) (observed_status (ba_State observation)) (br_AcceptedAt record)
                   (ba_ObservedAt observation) (br_CancelRequested record) (Some observation) (br_Handoff record))
  end.

Definition transitions (from to : Status) : bool :=
  match from, to with
  | StatusAccepted, (StatusFailed | StatusCancelled | StatusOutcomeUnknown) => true
  | StatusRunning, (StatusSucceeded | StatusFailed | StatusCancelled | StatusOutcomeUnknown) => true
  | _, _ => false
  end.

Definition RequestCancellation (record : BrowserRecord) (observedAt : Time) : result BrowserRecord :=
  _ ← Record_Validate record;
  if decide (Status_terminal (br_Status record) = true) then refuse ErrOperationTerminal else
  if decide (IsZero observedAt ∨ Before observedAt (br_ObservedAt record)) then refuse ErrInvalidTransition else
  if br_CancelRequested record then Ok record else
  validated (mkBrowserRecord (br_Request record) (br_Status record) (br_AcceptedAt record) observedAt true
               (br_Allocation record) (br_Handoff record)).

Definition handoff_of (request : OpenRequest) (e : EndpointEvidence) : Handoff :=
  mkHandoff (bq_OperationID request) (bq_AttemptID request) (bq_FencingToken request) (bq_SandboxID request)
    (bq_BrowserSessionID request) CapabilityProfileID ProtocolWebSocket (be_InternalEndpointReference e)
    (be_ConnectionGeneration e) (bq_ExpiresAt request).

Definition Transition (record : BrowserRecord) (next : Status) (observedAt : Time) (evidence : option EndpointEvidence)
    : result BrowserRecord :=
  _ ← Record_Validate record;
  if decide (Status_valid next = false ∨ IsZero observedAt ∨ Before observedAt (br_ObservedAt record))
  then refuse ErrInvalidTransition else
  if decide (br_Status record = next) then
    if decide (is_Some evidence) then refuse ErrOperationTerminal else Ok record
  else
  if decide (Status_terminal (br_Status record) = true) then refuse ErrOperationTerminal else
  if decide (transitions (br_Status record) next = false) then refuse ErrInvalidTransition else
  if decide (next = StatusCancelled ∧ br_CancelRequested record = false) then refuse ErrInvalidTransition else
  if decide (next = StatusSucceeded ∧ br_CancelRequested record = true) then refuse ErrInvalidTransition else
  if decide (next = StatusRunning ∧ ¬ After (bq_Deadline (br_Request record)) observedAt) then refuse ErrDeadlineExpired else
  if decide (next ≠ StatusSucceeded ∧ is_Some evidence) then refuse ErrHandoffUnavailable else
  let request := br_Request record in
  let updated handoff :=
    mkBrowserRecord request next (br_AcceptedAt record) observedAt (br_CancelRequested record) (br_Allocation record) handoff in
  if decide (next ≠ StatusSucceeded) then Ok (updated None) else
  match evidence with
  | None => refuse ErrHandoffUnavailable
  | Some e =>
      if decide (¬ Before observedAt (bq_ExpiresAt request) ∨ ¬ Before observedAt (bq_Deadline request))
      then refuse ErrHandoffUnavailable else
      _ ← EndpointEvidence_validate e;
      validated (updated (Some (handoff_of request e)))
  end.

(** A record that passes its checks keeps passing them; a transition that is not to
    success is not checked again by the code. *)
Lemma validated_Ok r r' : validated r = Ok r' → r' = r ∧ Record_Validate r' = Ok ().
Proof. unfold validated. destruct (Record_Validate r) as [[]|] eqn:E; cbn; [|done]. by intros [= <-]. Qed.

Lemma Transition_checked record next observedAt evidence record' :
  Transition record next observedAt evidence = Ok record' → Record_Validate record' = Ok ().
Proof.
  unfold Transition. destruct (Record_Validate record) as [[]|] eqn:Hr; cbn [mbind result_bind]; [|done].
  case_decide as Ht; [done|]. case_decide as Hs; [case_decide; [done|by intros [= <-]]|].
  case_decide as Hterm; [done|]. case_decide as Htr; [done|]. case_decide as Hc; [done|]. case_decide as Hc'; [done|].
  case_decide; [done|]. case_decide; [done|]. case_decide as Hn.
  2:{ destruct evidence as [e|]; [|done]. case_decide; [done|]. destruct (EndpointEvidence_validate e); cbn; [|done].
      by intros [_ ?]%validated_Ok. }
  intros [= <-]. unfold Record_Validate, refuse, Before, After, IsZero in *. cbn.
  destruct record as [rq st acc ob cr al ho]. cbn in *. nor Ht. boolify. inv_ok Hr.
  assert (Hnext : next ≠ StatusAccepted ∧ next ≠ StatusRunning) by (by destruct st, next).
  destruct Hnext as [Ha Hrun].
  rewrite decide_False by (intros [?|[?|[?|?]]]; [tauto|tauto|unfold Time in *; nor Hguard; lia|by destruct next]).
  rewrite decide_False by done. rewrite (decide_False (P := next = StatusCancelled ∧ _)) by tauto.
  rewrite (decide_False (P := next = StatusAccepted ∧ _)) by tauto. rewrite (decide_False (P := (_ ∨ _) ∧ _)) by tauto.
  rewrite (decide_False (P := next = StatusSucceeded ∧ _)) by tauto.
  assert (Hal : match al with
    | Some a => if decide (is_ok (AllocationEvidence_Validate a rq) = false ∨ observedAt < ba_ObservedAt a)
                then Err [ErrInvalidRecord] else Ok ()
    | None => Ok ()
    end = Ok ()).
  { clear Hr. destruct al as [a|]; [|done]. inv_ok Hstep. nor Hguard5. rewrite decide_False; [done|].
    intros [?|?]; [done|unfold Time in *; lia]. }
  rewrite Hal. cbn. by rewrite decide_True, decide_False by (done || by intros [? ?]).
Qed.
