(* ===== verification/BrowserState.v ===== *)
(** * Browser session repository: [provider/browser/repository]

    The adapter-independent state of the browser session repository: open
    operations, their idempotency records and the sandbox authorities, with every
    operation on it and the snapshot that adapters persist; the invariant of the
    states that occur, and how records evolve over runs. *)

From S2P Require Import Prelude BrowserModel.
From stdpp Require Import base gmap strings list fin_maps.
From Stdlib Require Import ZArith Lia.

Local Open Scope Z_scope.

Definition browser_repository_error (name : string) : sentinel := SNamed "browser/repository" name.
Definition ErrNotFound : sentinel := browser_repository_error "ErrNotFound".
Definition ErrConflict : sentinel := browser_repository_error "ErrConflict".
Definition ErrIdempotencyConflict : sentinel := browser_repository_error "ErrIdempotencyConflict".
Definition ErrAlreadyExists : sentinel := browser_repository_error "ErrAlreadyExists".
Definition ErrCorrupt : sentinel := browser_repository_error "ErrCorrupt".
Definition ErrDurability : sentinel := browser_repository_error "ErrDurability".
Definition ErrClosed : sentinel := browser_repository_error "ErrClosed".
Definition ErrExpired : sentinel := ErrHandoffExpired.

Definition snapshotVersion : Z := 2.

Record IdempotencyRecord := mkIdempotency { id_Scope : string; id_Key : string; id_RequestDigest : string; id_OperationID : string }.

Record State := mkState {
  Sessions : gmap string BrowserRecord;
  Idempotency : gmap string IdempotencyRecord;
  Authorities : gmap string SandboxAuthority;
}.

Record PersistedState := mkPersisted {
  ps_Version : Z;
  ps_Sessions : list BrowserRecord;
  ps_Idempotency : list IdempotencyRecord;
  ps_Authorities : list SandboxAuthority;
}.

Definition NewState : State := mkState ∅ ∅ ∅.

Definition set_sessions (m : gmap string BrowserRecord) (s : State) : State := mkState m (Idempotency s) (Authorities s).

Definition corrupt {A} : result A := Err [ErrCorrupt].

(** ** Authorities *)

Definition put_authority (a : SandboxAuthority) (s : State) : State :=
  mkState (Sessions s) (Idempotency s) (<[bs_SandboxID a := a]> (Authorities s)).

Definition SynchronizeSandboxAuthority (a : SandboxAuthority) (s : State) : result (unit * State) :=
  _ ← SandboxAuthority_Validate a;
  match Authorities s !! bs_SandboxID a with
  | None => Ok ((), put_authority a s)
  | Some current =>
      if decide (bs_ProviderRevisionID current ≠ bs_ProviderRevisionID a) then refuse ErrProviderRevisionConflict else
      if decide (bs_CapabilityProfileID current ≠ bs_CapabilityProfileID a) then refuse ErrCapabilityUnsupported else
      if decide (bs_NetworkPolicyReference current ≠ bs_NetworkPolicyReference a) then refuse ErrNetworkPolicyConflict else
      if decide (bs_Generation a < bs_Generation current) then refuse ErrGenerationConflict else
      if decide (bs_FencingToken a < bs_FencingToken current) then refuse ErrStaleFencingToken else
      Ok ((), put_authority a s)
  end.

Definition GetSandboxAuthority (sandboxID : string) (s : State) : result SandboxAuthority :=
  match Authorities s !! sandboxID with Some a => Ok a | None => refuse ErrNotFound end.

Definition checkAuthority (a : SandboxAuthority) (request : OpenRequest) (now : Time) : result unit :=
  if decide (is_ok (SandboxAuthority_Validate a) = false) then corrupt else
  if decide (bs_ProviderRevisionID a ≠ bq_ProviderRevisionID request) then refuse ErrProviderRevisionConflict else
  if decide (bs_Ready a = false) then refuse ErrSandboxNotReady else
  if decide (bs_Generation a ≠ bq_ExpectedGeneration request) then refuse ErrGenerationConflict else
  if decide (¬ After (bs_LeaseExpiresAt a) now ∨ After (bq_ExpiresAt request) (bs_LeaseExpiresAt a)) then refuse ErrLeaseExpired else
  if decide (bs_FencingToken a ≠ bq_FencingToken request) then refuse ErrStaleFencingToken else
  if decide (bs_CapabilityProfileID a ≠ bq_CapabilityProfileID request) then refuse ErrCapabilityUnsupported else Ok ().

(** ** Operations *)

Definition idempotencyScope (r : OpenRequest) : string :=
  bq_SandboxID r +:+ String NUL (bq_ProviderRevisionID r +:+ String NUL (bq_IdempotencyKey r)).

(** [sameOpenRequest] compares every field. *)
Definition sameOpenRequest (left right : OpenRequest) : Prop :=
  bq_SandboxID left = bq_SandboxID right ∧ bq_ProviderRevisionID left = bq_ProviderRevisionID right ∧
  bq_OperationID left = bq_OperationID right ∧ bq_AttemptID left = bq_AttemptID right ∧
  bq_FencingToken left = bq_FencingToken right ∧ bq_IdempotencyKey left = bq_IdempotencyKey right ∧
  bq_RequestDigest left = bq_RequestDigest right ∧ bq_Deadline left = bq_Deadline right ∧
  bq_ExpectedGeneration left = bq_ExpectedGeneration right ∧ bq_BrowserSessionID left = bq_BrowserSessionID right ∧
  bq_CapabilityProfileID left = bq_CapabilityProfileID right ∧ bq_ExpiresAt left = bq_ExpiresAt right.
#[export] Instance sameOpenRequest_dec l r : Decision (sameOpenRequest l r).
Proof. unfold sameOpenRequest. apply _. Defined.

Definition ReserveOpenAt (request : OpenRequest) (acceptedAt : Time) (s : State) : result (Reservation * State) :=
  if decide (IsZero acceptedAt) then refuse ErrInvalidRequest else
  _ ← OpenRequest_Validate request acceptedAt;
  a ← GetSandboxAuthority (bq_SandboxID request) s;
  _ ← checkAuthority a request acceptedAt;
  let scope := idempotencyScope request in
  match Idempotency s !! scope with
  | Some existing =>
      if decide (id_RequestDigest existing ≠ bq_RequestDigest request) then refuse ErrIdempotencyConflict else
      match Sessions s !! id_OperationID existing with
      | None => corrupt
      | Some record =>
          if decide (¬ sameOpenRequest (br_Request record) request) then refuse ErrConflict else
          Ok (mkReservation record true, s)
      end
  | None =>
      if decide (is_Some (Sessions s !! bq_OperationID request)) then refuse ErrAlreadyExists else
      record ← NewRecord request acceptedAt;
      Ok (mkReservation record false,
          mkState (<[bq_OperationID request := record]> (Sessions s))
            (<[scope := mkIdempotency scope (bq_IdempotencyKey request) (bq_RequestDigest request) (bq_OperationID request)]> (Idempotency s))
            (Authorities s))
  end.

Definition GetOpenAt (operationID : string) (now : Time) (s : State) : result BrowserRecord :=
  match Sessions s !! operationID with
  | None => refuse ErrNotFound
  | Some record =>
      if decide (is_ok (Record_Validate record) = false) then corrupt else
      if decide (IsZero now) then refuse ErrInvalidRecord else
      if decide (br_Status record = StatusSucceeded ∧ ¬ Before now (bq_ExpiresAt (br_Request record))) then refuse ErrExpired else
      Ok record
  end.

(** [systemNow] is what [time.Now().UTC()] returns. *)
Definition GetOpen (systemNow : Time) (operationID : string) (s : State) : result BrowserRecord := GetOpenAt operationID systemNow s.

Definition ListOpen (s : State) : list BrowserRecord := snd <$> sort_by fst (map_to_list (Sessions s)).

(** The reference of the allocation of a record. *)
Definition reference_of (r : BrowserRecord) : option string := (λ a, bl_Reference (ba_Receipt a)) <$> br_Allocation r.

(** Another operation has the reference of the receipt. *)
Definition reference_taken (sessions : gmap string BrowserRecord) (operationID reference : string) : Prop :=
  Exists (λ p, p.1 ≠ operationID ∧ reference_of p.2 = Some reference) (map_to_list sessions).
#[export] Instance reference_taken_dec m o r : Decision (reference_taken m o r).
Proof. unfold reference_taken. apply _. Defined.

Definition state_AttachAllocation (receipt : AllocationReceipt) (s : State) : result (Reservation * State) :=
  _ ← AllocationReceipt_Validate receipt;
  match Sessions s !! bl_OperationID receipt with
  | None => refuse ErrNotFound
  | Some current =>
      if decide (reference_taken (Sessions s) (bl_OperationID receipt) (bl_Reference receipt)) then refuse ErrAllocationConflict else
      _ ← match br_Allocation current with
          | None =>
              a ← GetSandboxAuthority (bq_SandboxID (br_Request current)) s;
              checkAuthority a (br_Request current) (bl_AllocatedAt receipt)
          | Some _ => Ok ()
          end;
      updated ← AttachAllocation current receipt;
      Ok (mkReservation updated (bool_decide (is_Some (br_Allocation current))),
          set_sessions (<[bl_OperationID receipt := updated]> (Sessions s)) s)
  end.

Definition state_ObserveAllocation (operationID : string) (observation : AllocationEvidence) (s : State)
    : result (BrowserRecord * State) :=
  match Sessions s !! operationID with
  | None => refuse ErrNotFound
  | Some current =>
      updated ← ObserveAllocation current observation;
      Ok (updated, set_sessions (<[operationID := updated]> (Sessions s)) s)
  end.

Definition endpoint_of (h : Handoff) : EndpointEvidence :=
  mkEndpointEvidence (bh_InternalEndpointReference h) (bh_ConnectionGeneration h).

Definition UpdateOpenAt (record : BrowserRecord) (expectedStatus : Status) (now : Time) (s : State) : result (unit * State) :=
  if decide (IsZero now) then refuse ErrInvalidRecord else
  match Sessions s !! bq_OperationID (br_Request record) with
  | None => refuse ErrNotFound
  | Some current =>
      let written := Ok ((), set_sessions (<[bq_OperationID (br_Request record) := record]> (Sessions s)) s) in
      if decide (br_Status record = StatusRunning ∧ br_Status current ≠ StatusRunning) then refuse ErrInvalidAllocation else
      if decide (br_Status current ≠ expectedStatus ∨ ¬ sameOpenRequest (br_Request current) (br_Request record)
                 ∨ br_AcceptedAt current ≠ br_AcceptedAt record ∨ br_Allocation current ≠ br_Allocation record)
      then refuse ErrConflict else
      if decide (br_Status record = StatusSucceeded ∧ br_Allocation current = None) then refuse ErrInvalidAllocation else
      _ ← Record_Validate record;
      if decide (br_Status record = br_Status current) then
        if decide (RequestCancellation current (br_ObservedAt record) ≠ Ok record) then refuse ErrConflict else written
      else
      if decide (br_CancelRequested current ≠ br_CancelRequested record) then refuse ErrConflict else
      updated ← Transition current (br_Status record) (br_ObservedAt record) (endpoint_of <$> br_Handoff record);
      if decide (updated ≠ record) then refuse ErrConflict else
      _ ← (if decide (br_Status record = StatusSucceeded) then
             a ← GetSandboxAuthority (bq_SandboxID (br_Request record)) s;
             checkAuthority a (br_Request record) now
           else Ok ());
      written
  end.

(** ** Snapshots *)

Definition Export (s : State) : PersistedState :=
  mkPersisted snapshotVersion
    (sort_by (bq_OperationID ∘ br_Request) (map_to_list (Sessions s)).*2)
    (sort_by id_Scope (map_to_list (Idempotency s)).*2)
    (sort_by bs_SandboxID (map_to_list (Authorities s)).*2).

(** The authority of the sandbox is there and of the same revision. *)
Definition has_authority (authorities : gmap string SandboxAuthority) (sandbox revision : string) : bool :=
  match authorities !! sandbox with Some a => bool_decide (bs_ProviderRevisionID a = revision) | None => false end.

Definition load_session (authorities : gmap string SandboxAuthority) (loaded : gmap string BrowserRecord) (record : BrowserRecord)
    : result (gmap string BrowserRecord) :=
  let request := br_Request record in
  if decide (is_ok (Record_Validate record) = false) then corrupt else
  if decide (is_Some (loaded !! bq_OperationID request)) then corrupt else
  if decide (is_Some (reference_of record) ∧ Exists (λ p, reference_of p.2 = reference_of record) (map_to_list loaded))
  then corrupt else
  if decide (has_authority authorities (bq_SandboxID request) (bq_ProviderRevisionID request) = false) then corrupt else
  Ok (<[bq_OperationID request := record]> loaded).

(** The idempotency record of the request of [record]. *)
Definition bound (record : BrowserRecord) (i : IdempotencyRecord) : Prop :=
  id_Scope i = idempotencyScope (br_Request record) ∧ id_Key i = bq_IdempotencyKey (br_Request record) ∧
  id_RequestDigest i = bq_RequestDigest (br_Request record).
#[export] Instance bound_dec r i : Decision (bound r i).
Proof. unfold bound. apply _. Defined.

Definition load_idempotency (sessions : gmap string BrowserRecord) (loaded : gmap string IdempotencyRecord) (i : IdempotencyRecord)
    : result (gmap string IdempotencyRecord) :=
  match sessions !! id_OperationID i with
  | None => corrupt
  | Some record =>
      if decide (¬ bound record i) then corrupt else
      if decide (is_Some (loaded !! id_Scope i)) then corrupt else
      Ok (<[id_Scope i := i]> loaded)
  end.

Definition Import (snapshot : PersistedState) : result State :=
  if decide (ps_Version snapshot ≠ snapshotVersion) then corrupt else
  authorities ← foldM (load_one [ErrCorrupt] bs_SandboxID id
                         (λ a, if decide (is_ok (SandboxAuthority_Validate a) = false) then corrupt else Ok ())) ∅ (ps_Authorities snapshot);
  sessions ← foldM (load_session authorities) ∅ (ps_Sessions snapshot);
  idempotency ← foldM (load_idempotency sessions) ∅ (ps_Idempotency snapshot);
  if decide (¬ map_Forall (λ _ r, is_Some (idempotency !! idempotencyScope (br_Request r))) sessions) then corrupt else
  Ok (mkState sessions idempotency authorities).

(** ** Records *)

(** How the record of an operation may change. *)
Definition record_evolves (r r' : BrowserRecord) : Prop :=
  br_Request r' = br_Request r ∧ br_AcceptedAt r' = br_AcceptedAt r ∧
  (Status_terminal (br_Status r) = true → r' = r) ∧
  (br_Status r' = StatusAccepted → br_Status r = StatusAccepted) ∧
  (br_CancelRequested r = true → br_CancelRequested r' = true) ∧
  (∀ a, br_Allocation r = Some a → ∃ a', br_Allocation r' = Some a' ∧ ba_Receipt a' = ba_Receipt a).

Lemma browser_evolves_refl r : record_evolves r r.
Proof. split_and!; eauto. Qed.

Lemma browser_evolves_trans r1 r2 r3 : record_evolves r1 r2 → record_evolves r2 r3 → record_evolves r1 r3.
Proof.
  intros (R1 & A1 & T1 & S1 & C1 & L1) (R2 & A2 & T2 & S2 & C2 & L2). split_and!; [congruence|congruence| |auto|auto|].
  - intros Ht. rewrite (T1 Ht) in *. auto.
  - intros a Ha. destruct (L1 a Ha) as (a' & Ha' & He). destruct (L2 a' Ha') as (a'' & ? & ?). exists a''. split; [done|congruence].
Qed.

Lemma browser_request_eq l r : sameOpenRequest l r → l = r.
Proof. unfold sameOpenRequest. destruct l, r. cbn. naive_solver. Qed.

Lemma browser_receipt_eq l r : sameAllocationReceipt l r → l = r.
Proof. unfold sameAllocationReceipt. destruct l, r. cbn. naive_solver. Qed.

(** What a valid record says about its status. *)
Lemma browser_record_status r :
  Record_Validate r = Ok () →
  (br_Status r = StatusAccepted → br_Allocation r = None) ∧
  (br_Status r = StatusRunning ∨ br_Status r = StatusSucceeded → allocation_running r) ∧
  (br_Status r = StatusCancelled → br_CancelRequested r = true) ∧
  OpenRequest_Validate (br_Request r) (br_AcceptedAt r) = Ok () ∧ br_AcceptedAt r ≠ 0.
Proof.
  unfold Record_Validate, refuse. intros H. crack H. split_and!; [| | |done|done].
  - intros Hs. apply eq_None_not_Some. tauto.
  - intros Hs. apply dec_stable. tauto.
  - intros Hs. destruct (br_CancelRequested r); tauto.
Qed.

(** *** The transitions of the model *)

Lemma browser_transition_Ok r next t e r' :
  Transition r next t e = Ok r' → br_Status r ≠ next →
  Record_Validate r' = Ok () ∧ Status_terminal (br_Status r) = false ∧ transitions (br_Status r) next = true ∧
  br_ObservedAt r ≤ t ∧
  r' = mkBrowserRecord (br_Request r) next (br_AcceptedAt r) t (br_CancelRequested r) (br_Allocation r) (br_Handoff r') ∧
  (next = StatusSucceeded → br_CancelRequested r = false ∧ t < bq_Deadline (br_Request r) ∧
     ∃ e', e = Some e' ∧ br_Handoff r' = Some (handoff_of (br_Request r) e')).
Proof.
  intros H Hne. pose proof (Transition_checked _ _ _ _ _ H) as Hv. revert H. unfold Transition, refuse, Before. intros H. inv_ok H. destruct x.
  split_guards. rewrite decide_False in H by done. crack H. case_decide as Hn.
  - injection H as <-. cbn. split_and!; try done; unfold Time in *; lia.
  - subst next. destruct e as [e|]; [|done]. crack H. apply validated_Ok in H as [-> _]. cbn. split_and!; try done; [unfold Time in *; lia|].
    intros _. split_and!; [|unfold Time in *; lia|eauto].
    destruct (br_CancelRequested r); [|done]. exfalso; tauto.
Qed.

Lemma browser_transition_evolves r next t e r' : Transition r next t e = Ok r' → br_Status r ≠ next → record_evolves r r'.
Proof.
  intros H Hne. destruct (browser_transition_Ok _ _ _ _ _ H Hne) as (_ & Ht & Htr & _ & -> & _). split_and!; cbn; try done; [congruence| |eauto].
  intros ->. by destruct (br_Status r).
Qed.

Lemma browser_attach_Ok r receipt r' :
  AttachAllocation r receipt = Ok r' →
  Record_Validate r' = Ok () ∧ record_evolves r r' ∧ bl_OperationID receipt = bq_OperationID (br_Request r) ∧
  (r' = r ∧ ba_Receipt <$> br_Allocation r = Some receipt ∨
   br_Allocation r = None ∧ br_Status r = StatusAccepted ∧ br_Status r' = StatusRunning ∧
   br_Allocation r' = Some (mkEvidence receipt AllocationRunning (bl_AllocatedAt receipt))).
Proof.
  unfold AttachAllocation, refuse. intros H. inv_ok H. destruct x. split_guards.
  match goal with K : matchesRequest _ _ |- _ => destruct K as (_ & _ & Hop & _) end.
  destruct (br_Allocation r) as [a|] eqn:Ea.
  - case_decide as Hs; [|done]. injection H as <-. split_and!; [done|apply browser_evolves_refl|done|]. left. split; [done|].
    cbn. f_equal. by apply browser_receipt_eq.
  - crack H. apply validated_Ok in H as [-> Hv]. split_and!; [done| |done|by right; split_and!].
    match goal with K : br_Status r = StatusAccepted |- _ => rename K into Hs end.
    split_and!; cbn; try done; [by rewrite Hs|by rewrite Ea].
Qed.

Lemma browser_observe_Ok r obs r' :
  ObserveAllocation r obs = Ok r' →
  Record_Validate r' = Ok () ∧ record_evolves r r' ∧ br_Status r = StatusRunning ∧ br_Status r' = observed_status (ba_State obs) ∧
  ba_Receipt <$> br_Allocation r = Some (ba_Receipt obs) ∧ br_Allocation r' = Some obs.
Proof.
  unfold ObserveAllocation, refuse. intros H. inv_ok H. destruct x. destruct (br_Allocation r) as [a|] eqn:Ea; [|done].
  inv_ok H. split_guards. apply validated_Ok in H as [-> Hv].
  match goal with K : sameAllocationReceipt _ _ |- _ => apply browser_receipt_eq in K; rename K into Hsame end.
  match goal with K : br_Status r = StatusRunning |- _ => rename K into Hrun end.
  split_and!; try done; cbn; [|by rewrite Hsame]. split_and!; cbn; try done; [by rewrite Hrun|by destruct (ba_State obs)|].
  intros a0. rewrite Ea. intros [= <-]. eauto.
Qed.

Lemma browser_cancel_Ok r t r' :
  RequestCancellation r t = Ok r' →
  Record_Validate r' = Ok () ∧ record_evolves r r' ∧ br_Allocation r' = br_Allocation r ∧ br_Status r' = br_Status r ∧
  Status_terminal (br_Status r) = false ∧ br_CancelRequested r' = true.
Proof.
  unfold RequestCancellation, refuse. intros H. inv_ok H. destruct x. split_guards. destruct (br_CancelRequested r) eqn:Ec.
  - injection H as <-. split_and!; try done. apply browser_evolves_refl.
  - apply validated_Ok in H as [-> Hv]. split_and!; try done. split_and!; cbn; try done; [congruence|eauto].
Qed.

(** ** The state *)

Record browser_wf (s : State) : Prop := mkBrowserWf {
  bw_authority k a : Authorities s !! k = Some a → bs_SandboxID a = k ∧ SandboxAuthority_Validate a = Ok ();
  bw_record k r : Sessions s !! k = Some r →
    bq_OperationID (br_Request r) = k ∧ Record_Validate r = Ok () ∧
    has_authority (Authorities s) (bq_SandboxID (br_Request r)) (bq_ProviderRevisionID (br_Request r)) = true;
  bw_reference k1 k2 r1 r2 : Sessions s !! k1 = Some r1 → Sessions s !! k2 = Some r2 →
    is_Some (reference_of r1) → reference_of r1 = reference_of r2 → k1 = k2;
  bw_index scope i : Idempotency s !! scope = Some i →
    id_Scope i = scope ∧ ∃ r, Sessions s !! id_OperationID i = Some r ∧ bound r i;
  bw_indexed k r : Sessions s !! k = Some r → id_OperationID <$> Idempotency s !! idempotencyScope (br_Request r) = Some k;
}.

Lemma browser_wf_init : browser_wf NewState.
Proof. split; cbn; intros *; rewrite ?lookup_empty; try done. Qed.

(** The authority of a sandbox keeps its revision. *)
Lemma browser_synchronize_wf a s u s' : browser_wf s → SynchronizeSandboxAuthority a s = Ok (u, s') → browser_wf s'.
Proof.
  intros [H1 H2 H3 H4 H5] H. assert (SandboxAuthority_Validate a = Ok () ∧ s' = put_authority a s ∧
    ∀ current, Authorities s !! bs_SandboxID a = Some current → bs_ProviderRevisionID a = bs_ProviderRevisionID current) as (Ha & -> & Hrev).
  { unfold SynchronizeSandboxAuthority, refuse in H. inv_ok H. destruct x. destruct (Authorities s !! _) eqn:E; crack H; split_and!; try done; congruence. }
  split; cbn; try done.
  - intros k b Hb. ins_inv Hb; [done|by apply H1].
  - intros k r Hr. destruct (H2 k r Hr) as (? & ? & Hh). split_and!; [done..|]. revert Hh. unfold has_authority.
    destruct (decide (bs_SandboxID a = bq_SandboxID (br_Request r))) as [Heq|Hne]; [|by rewrite lookup_insert_ne].
    rewrite <- Heq, lookup_insert_eq. destruct (Authorities s !! bs_SandboxID a) as [c|] eqn:E; [|done]. by rewrite (Hrev c eq_refl).
Qed.

Lemma browser_reference_taken_spec m o ref :
  reference_taken m o ref ↔ ∃ k r, m !! k = Some r ∧ k ≠ o ∧ reference_of r = Some ref.
Proof.
  unfold reference_taken. rewrite Exists_exists. split.
  - intros ([k r] & Hin%elem_of_map_to_list & ? & ?). eauto.
  - intros (k & r & Hk & ? & ?). exists (k, r). by rewrite elem_of_map_to_list.
Qed.

Lemma browser_set_session_wf k r r' s :
  browser_wf s → Sessions s !! k = Some r → Record_Validate r' = Ok () → record_evolves r r' →
  (reference_of r' = reference_of r ∨ ∃ ref, reference_of r' = Some ref ∧ ¬ reference_taken (Sessions s) k ref) →
  browser_wf (set_sessions (<[k := r']> (Sessions s)) s).
Proof.
  intros [H1 H2 H3 H4 H5] Hk Hp (Hreq & _) Href.
  assert (Hunique : ∀ k2 r2, k2 ≠ k → Sessions s !! k2 = Some r2 → is_Some (reference_of r') → reference_of r' ≠ reference_of r2).
  { intros k2 r2 Hne Hk2 [ref Hr] Heq. destruct Href as [Hsame|(ref' & Hr' & Hnot)].
    - apply Hne. eapply H3; [done|exact Hk|rewrite <- Heq, Hr; eauto|congruence].
    - apply Hnot, browser_reference_taken_spec. exists k2, r2. split_and!; [done|done|congruence]. }
  split; cbn; try done.
  - intros k2 r2 Hr2. ins_inv Hr2; [|by apply H2]. destruct (H2 _ _ Hk) as (? & _ & ?). rewrite Hreq. done.
  - intros k1 k2 r1 r2 Hr1 Hr2 Hs Heq. ins_inv Hr1; ins_inv Hr2; [done| | |by eapply H3].
    + exfalso. by eapply Hunique.
    + exfalso. eapply (Hunique k1 r1); [done|done|by rewrite <- Heq|done].
  - intros scope i Hi. destruct (H4 scope i Hi) as (? & r2 & Hr2 & Hb). split; [done|].
    destruct (decide (k = id_OperationID i)) as [Heq|Hne]; [|exists r2; by rewrite lookup_insert_ne].
    rewrite <- Heq in Hr2 |- *. exists r'. rewrite lookup_insert_eq. split; [done|]. simplify_eq. unfold bound in *. by rewrite Hreq.
  - intros k2 r2 Hr2. ins_inv Hr2; [|by apply H5]. rewrite Hreq. by apply H5.
Qed.

Lemma browser_attach_wf receipt s v s' : browser_wf s → state_AttachAllocation receipt s = Ok (v, s') → browser_wf s'.
Proof.
  intros Hs H. unfold state_AttachAllocation, refuse in H. inv_ok H. destruct (Sessions s !! _) as [r|] eqn:Er; [|done].
  inv_ok H. destruct (browser_attach_Ok _ _ _ Hstep1) as (Hv & He & _ & [[-> _]|(_ & _ & _ & Ha)]);
    (eapply browser_set_session_wf; [done|done|done|done|]); [by left|]. right. exists (bl_Reference receipt).
  split; [|done]. unfold reference_of. by rewrite Ha.
Qed.

Lemma browser_observe_wf k obs s r s' : browser_wf s → state_ObserveAllocation k obs s = Ok (r, s') → browser_wf s'.
Proof.
  intros Hs H. unfold state_ObserveAllocation, refuse in H. destruct (Sessions s !! k) as [r0|] eqn:Er; [|done]. inv_ok H.
  destruct (browser_observe_Ok _ _ _ Hstep) as (? & ? & _ & _ & Hr & Ha). eapply browser_set_session_wf; [done..|]. left.
  unfold reference_of. rewrite Ha. destruct (br_Allocation r0); [|done]. cbn in *. congruence.
Qed.

(** What an update read and did: it requests the cancellation, or it is a transition of
    the model, and a success is checked against the authority of the sandbox. *)
Lemma browser_update_Ok record expected now s u s' :
  UpdateOpenAt record expected now s = Ok (u, s') →
  ∃ current, Sessions s !! bq_OperationID (br_Request record) = Some current ∧ br_Status current = expected ∧
    br_Request record = br_Request current ∧ br_Allocation record = br_Allocation current ∧
    s' = set_sessions (<[bq_OperationID (br_Request record) := record]> (Sessions s)) s ∧
    (br_Status record = br_Status current ∧ RequestCancellation current (br_ObservedAt record) = Ok record ∨
     br_Status record ≠ br_Status current ∧
     Transition current (br_Status record) (br_ObservedAt record) (endpoint_of <$> br_Handoff record) = Ok record ∧
     (br_Status record = StatusSucceeded →
        ∃ a, Authorities s !! bq_SandboxID (br_Request record) = Some a ∧ checkAuthority a (br_Request record) now = Ok ())).
Proof.
  unfold UpdateOpenAt, refuse. intros H. inv_ok H. destruct (Sessions s !! _) as [current|] eqn:Ec; [|done]. crack H.
  match goal with K : sameOpenRequest _ _ |- _ => apply browser_request_eq in K end.
  exists current. case_decide as Hst.
  - crack H. split_and!; try done. by left.
  - crack H. subst. split_and!; try done. right. split_and!; [done|done|]. intros Hsucc.
    rewrite decide_True in Hstep1 by done. unfold GetSandboxAuthority, refuse in Hstep1.
    destruct (Authorities s !! _) as [a|] eqn:Ea; [|done]. inv_ok Hstep1. destruct x1. eauto.
Qed.

Lemma browser_update_evolves record expected now s u s' :
  UpdateOpenAt record expected now s = Ok (u, s') →
  ∃ current, Sessions s !! bq_OperationID (br_Request record) = Some current ∧ record_evolves current record ∧
    Record_Validate record = Ok () ∧ br_Allocation record = br_Allocation current ∧
    s' = set_sessions (<[bq_OperationID (br_Request record) := record]> (Sessions s)) s.
Proof.
  intros (current & Hc & _ & _ & Hal & -> & [[_ Hr]|(Hne & Ht & _)])%browser_update_Ok; exists current.
  - destruct (browser_cancel_Ok _ _ _ Hr) as (? & ? & _). done.
  - split_and!; try done; [by eapply browser_transition_evolves|by eapply Transition_checked].
Qed.

Lemma browser_update_wf record expected now s u s' : browser_wf s → UpdateOpenAt record expected now s = Ok (u, s') → browser_wf s'.
Proof.
  intros Hs (current & Hc & He & Hv & Hal & ->)%browser_update_evolves. apply (browser_set_session_wf _ current); try done.
  left. unfold reference_of. by rewrite Hal.
Qed.

(** *** Reservations *)

Lemma browser_authority_Ok a request now :
  checkAuthority a request now = Ok () →
  bs_ProviderRevisionID a = bq_ProviderRevisionID request ∧ bs_Ready a = true ∧ bs_Generation a = bq_ExpectedGeneration request ∧
  bs_FencingToken a = bq_FencingToken request ∧ bs_CapabilityProfileID a = bq_CapabilityProfileID request ∧
  now < bs_LeaseExpiresAt a ∧ bq_ExpiresAt request ≤ bs_LeaseExpiresAt a.
Proof. unfold checkAuthority, corrupt, refuse, After. intros H. crack H. split_and!; try done; lia. Qed.

Lemma browser_new_Ok request t r :
  NewRecord request t = Ok r → r = mkBrowserRecord request StatusAccepted t t false None None ∧ Record_Validate r = Ok ().
Proof.
  unfold NewRecord. intros H. inv_ok H. destruct x. split; [done|].
  assert (t ≠ 0) by (unfold OpenRequest_Validate, refuse in Hstep; crack Hstep; done).
  unfold Record_Validate, refuse, Before, IsZero. cbn. rewrite Hstep. cbn. rewrite decide_False by (intros [?|[?|[?|?]]]; [done|done|lia|done]).
  by repeat rewrite decide_False by naive_solver.
Qed.

(** What a reservation found: a replay of the request of a key, or a free key and id. *)
Lemma browser_reserve_Ok request t s v s' :
  ReserveOpenAt request t s = Ok (v, s') →
  OpenRequest_Validate request t = Ok () ∧ br_Request (bv_Record v) = request ∧
  (∃ a, Authorities s !! bq_SandboxID request = Some a ∧ checkAuthority a request t = Ok ()) ∧
  ((∃ i, Idempotency s !! idempotencyScope request = Some i ∧ Sessions s !! id_OperationID i = Some (bv_Record v) ∧ s' = s) ∨
   Idempotency s !! idempotencyScope request = None ∧ Sessions s !! bq_OperationID request = None ∧
   NewRecord request t = Ok (bv_Record v) ∧
   s' = mkState (<[bq_OperationID request := bv_Record v]> (Sessions s))
          (<[idempotencyScope request := mkIdempotency (idempotencyScope request) (bq_IdempotencyKey request) (bq_RequestDigest request)
               (bq_OperationID request)]> (Idempotency s)) (Authorities s)).
Proof.
  unfold ReserveOpenAt, refuse, corrupt, GetSandboxAuthority, refuse. intros H. crack H. destruct x, x1.
  destruct (Authorities s !! _) as [a|]; [|done]. simplify_eq. split; [done|].
  destruct (Idempotency s !! _) as [i|].
  - inv_ok H. destruct (Sessions s !! id_OperationID i) as [r|] eqn:Er; [|done]. crack H.
    match goal with K : sameOpenRequest _ _ |- _ => apply browser_request_eq in K end. split_and!; [done|eauto|]. left. eauto.
  - crack H. destruct (browser_new_Ok _ _ _ Hstep0) as [Hx _]. split_and!; [by cbn; rewrite Hx|eauto|]. right. done.
Qed.

Lemma browser_reserve_wf request t s v s' : browser_wf s → ReserveOpenAt request t s = Ok (v, s') → browser_wf s'.
Proof.
  intros Hs (Hv & _ & (a & Ha & Hauth) & [(? & _ & _ & ->)|(Hfree & Hnew & Hrec & ->)])%browser_reserve_Ok; [done|].
  destruct (browser_new_Ok _ _ _ Hrec) as [-> Hp]. destruct (browser_authority_Ok _ _ _ Hauth) as (Hrev & _).
  destruct Hs as [H1 H2 H3 H4 H5]. split; cbn; try done.
  - intros k r Hr. ins_inv Hr; [|by apply H2]. split_and!; [done|done|]. unfold has_authority. cbn. rewrite Ha. by apply bool_decide_eq_true.
  - intros k1 k2 r1 r2 Hr1 Hr2 Hsome Heq. ins_inv Hr1; [by destruct Hsome|].
    ins_inv Hr2; [rewrite Heq in Hsome; by destruct Hsome|]. by eapply H3.
  - intros scope i Hi. ins_inv Hi; [split; [done|]; eexists; cbn; by rewrite lookup_insert_eq|].
    destruct (H4 scope i Hi) as (? & r & Hr & ?). split; [done|]. exists r. rewrite lookup_insert_ne by congruence. done.
  - intros k r Hr. ins_inv Hr; [by rewrite lookup_insert_eq|]. rewrite lookup_insert_ne; [by apply H5|].
    intros Heq. apply H5 in Hr. rewrite <- Heq, Hfree in Hr. done.
Qed.

(** ** Runs *)

Inductive browser_op :=
  | OpSynchronizeAuthority (a : SandboxAuthority)
  | OpReserveOpen (request : OpenRequest) (acceptedAt : Time)
  | OpAttachAllocation (receipt : AllocationReceipt)
  | OpObserveAllocation (operationID : string) (observation : AllocationEvidence)
  | OpUpdateOpen (record : BrowserRecord) (expectedStatus : Status) (now : Time).

(** The next state, or the error. *)
Definition next_state (op : browser_op) (s : State) : result State :=
  match op with
  | OpSynchronizeAuthority a => '(_, s') ← SynchronizeSandboxAuthority a s; Ok s'
  | OpReserveOpen r t => '(_, s') ← ReserveOpenAt r t s; Ok s'
  | OpAttachAllocation r => '(_, s') ← state_AttachAllocation r s; Ok s'
  | OpObserveAllocation k o => '(_, s') ← state_ObserveAllocation k o s; Ok s'
  | OpUpdateOpen r e t => '(_, s') ← UpdateOpenAt r e t s; Ok s'
  end.

Definition perform (s : State) (op : browser_op) : State := match next_state op s with Ok s' => s' | Err _ => s end.
Definition perform_all (ops : list browser_op) (s : State) : State := fold_left perform ops s.

Lemma browser_next_wf op s s' : browser_wf s → next_state op s = Ok s' → browser_wf s'.
Proof.
  intros Hs H. destruct op; cbn in H; apply bind_Ok in H as ([v s1] & H & [= <-]);
    eauto using browser_synchronize_wf, browser_reserve_wf, browser_attach_wf, browser_observe_wf, browser_update_wf.
Qed.

(** ** Evolution *)

(** Records evolve, idempotency records stay, and an authority keeps its revision and
    its network policy. *)
Definition state_evolves (s s' : State) : Prop :=
  (∀ k r, Sessions s !! k = Some r → ∃ r', Sessions s' !! k = Some r' ∧ record_evolves r r') ∧
  Idempotency s ⊆ Idempotency s' ∧
  (∀ k a, Authorities s !! k = Some a → ∃ a', Authorities s' !! k = Some a' ∧ bs_ProviderRevisionID a' = bs_ProviderRevisionID a ∧
     bs_NetworkPolicyReference a' = bs_NetworkPolicyReference a ∧ bs_Generation a ≤ bs_Generation a' ∧ bs_FencingToken a ≤ bs_FencingToken a').

Lemma browser_state_refl s : state_evolves s s.
Proof. split_and!; [|done|]; [intros k r Hr; exists r; auto using browser_evolves_refl|intros k a Ha; exists a; by split_and!]. Qed.

Lemma browser_state_trans s1 s2 s3 : state_evolves s1 s2 → state_evolves s2 s3 → state_evolves s1 s3.
Proof.
  intros (A1 & B1 & C1) (A2 & B2 & C2). split_and!; [|by etrans|].
  - intros k r Hr. destruct (A1 k r Hr) as (r' & Hr' & ?). destruct (A2 k r' Hr') as (r'' & ? & ?). exists r''. eauto using browser_evolves_trans.
  - intros k a Ha. destruct (C1 k a Ha) as (a' & Ha' & ? & ? & ? & ?). destruct (C2 k a' Ha') as (a'' & ? & ? & ? & ? & ?).
    exists a''. split_and!; [done|congruence|congruence|lia|lia].
Qed.

Lemma browser_set_evolves k r r' s :
  Sessions s !! k = Some r → record_evolves r r' → state_evolves s (set_sessions (<[k := r']> (Sessions s)) s).
Proof.
  intros Hk Hr. destruct (browser_state_refl s) as (_ & ? & ?). split_and!; try done. intros k2 r2 Hr2. cbn.
  destruct (decide (k = k2)) as [<-|Hne].
  - rewrite lookup_insert_eq. simplify_eq. eauto.
  - rewrite lookup_insert_ne by done. exists r2. auto using browser_evolves_refl.
Qed.

Lemma browser_synchronize_evolves a s u s' : SynchronizeSandboxAuthority a s = Ok (u, s') → state_evolves s s'.
Proof.
  unfold SynchronizeSandboxAuthority, refuse. intros H. inv_ok H.
  assert (s' = put_authority a s ∧ ∀ c, Authorities s !! bs_SandboxID a = Some c → bs_ProviderRevisionID a = bs_ProviderRevisionID c ∧
    bs_NetworkPolicyReference a = bs_NetworkPolicyReference c ∧ bs_Generation c ≤ bs_Generation a ∧ bs_FencingToken c ≤ bs_FencingToken a) as [-> Hc].
  { destruct (Authorities s !! _) eqn:E; crack H; (split; [done|]); [intros c [= <-]; split_and!; [done|done|lia|lia]|done]. }
  destruct (browser_state_refl s) as (? & ? & Ha). split_and!; try done. cbn. intros k b Hb.
  destruct (decide (bs_SandboxID a = k)) as [<-|Hne]; [exists a; rewrite lookup_insert_eq; split; [done|by apply Hc]|].
  rewrite lookup_insert_ne by done. by apply Ha.
Qed.

Lemma browser_next_evolves op s s' : next_state op s = Ok s' → state_evolves s s'.
Proof.
  intros H. destruct op; cbn in H; apply bind_Ok in H as ([v s1] & H & [= <-]).
  - by eapply browser_synchronize_evolves.
  - apply browser_reserve_Ok in H as (_ & _ & _ & [(i & _ & _ & ->)|(Hi & Hk & _ & ->)]); [apply browser_state_refl|].
    destruct (browser_state_refl s) as (_ & _ & ?). split_and!; try done; cbn; [|by apply insert_subseteq].
    intros k r Hr. rewrite lookup_insert_ne by congruence. exists r. auto using browser_evolves_refl.
  - unfold state_AttachAllocation, refuse in H. inv_ok H. destruct (Sessions s !! _) as [r|] eqn:Er; [|done]. inv_ok H.
    eapply browser_set_evolves; [done|]. by eapply browser_attach_Ok.
  - unfold state_ObserveAllocation, refuse in H. destruct (Sessions s !! _) as [r|] eqn:Er; [|done]. inv_ok H.
    eapply browser_set_evolves; [done|]. by eapply browser_observe_Ok.
  - apply browser_update_evolves in H as (current & Hc & He & _ & _ & ->). by eapply browser_set_evolves.
Qed.

Lemma browser_perform_wf op s : browser_wf s → browser_wf (perform s op).
Proof. intros Hs. unfold perform. destruct (next_state op s) eqn:E; [by eapply browser_next_wf|done]. Qed.

Lemma browser_reachable_wf ops : browser_wf (perform_all ops NewState).
Proof.
  unfold perform_all. rewrite <- fold_left_rev_right. induction (rev ops) as [|op l IH]; [apply browser_wf_init|by apply browser_perform_wf].
Qed.

(** ** Snapshots *)

Section import.
Context (s : State) (Hs : browser_wf s).

Lemma browser_load_authorities :
  foldM (load_one [ErrCorrupt] bs_SandboxID id
           (λ a, if decide (is_ok (SandboxAuthority_Validate a) = false) then corrupt else Ok ())) ∅ (ps_Authorities (Export s))
  = Ok (Authorities s).
Proof using Hs.
  apply load_of_map.
  - apply Forall_forall. intros a [k Hk]%elem_of_listing. destruct (bw_authority s Hs _ _ Hk) as [_ ->]. done.
  - apply (export_listing bs_SandboxID). intros k a Hk. by destruct (bw_authority s Hs _ _ Hk).
Qed.

Lemma browser_load_sessions : foldM (load_session (Authorities s)) ∅ (ps_Sessions (Export s)) = Ok (Sessions s).
Proof using Hs.
  apply (load_steps (bq_OperationID ∘ br_Request) id).
  - intros m0 r [k Hk]%elem_of_listing Hsub Hnone. destruct (bw_record s Hs _ _ Hk) as (Hkey & Hv & Ha).
    unfold load_session. rewrite Hv, Ha. cbn in *. rewrite Hnone. pass.
    rewrite decide_False; [done|]. intros [Hsome Hex].
    apply Exists_exists in Hex as ([k2 r2] & Hin%elem_of_map_to_list & Heq). cbn in Heq.
    assert (k2 = k).
    { eapply (bw_reference s Hs); [by eapply lookup_weaken|exact Hk|by rewrite Heq|done]. }
    subst k2. rewrite Hkey in Hnone. congruence.
  - apply (export_listing (bq_OperationID ∘ br_Request)). intros k r Hk. by destruct (bw_record s Hs _ _ Hk).
Qed.

Lemma browser_load_index : foldM (load_idempotency (Sessions s)) ∅ (ps_Idempotency (Export s)) = Ok (Idempotency s).
Proof using Hs.
  apply (load_steps id_Scope id).
  - intros m0 i [k Hk]%elem_of_listing _ Hnone. destruct (bw_index s Hs _ _ Hk) as (Hkey & r & Hr & Hb).
    unfold load_idempotency. rewrite Hr, Hnone. rewrite decide_False by auto. by pass.
  - apply (export_listing id_Scope). intros k i Hk. by destruct (bw_index s Hs _ _ Hk).
Qed.

Lemma browser_Import_Export : Import (Export s) = Ok s.
Proof using Hs.
  unfold Import. cbn [Export ps_Version]. rewrite decide_False by auto.
  rewrite browser_load_authorities. cbn [mbind result_bind]. rewrite browser_load_sessions. cbn [mbind result_bind].
  rewrite browser_load_index. cbn [mbind result_bind].
  rewrite decide_False; [by destruct s|intros Hn; apply Hn; intros k r Hk; apply (bw_indexed s Hs) in Hk; by destruct (Idempotency s !! _)].
Qed.
End import.
