(* ===== verification/BrowserVertical.v ===== *)
(** * The browser application: [provider/browser/application], [provider/browser/port.go]

    The ports of the application, with the answers each may give, and
    [application.go] and [vertical.go] as programs over them.  The repository
    adapters answer as [repository.State] does, or with a transport error that left
    the state as it was, or they commit and then report a durability failure; they
    implement the timed reads and updates.  Everything else, the clock included,
    answers anything.  The parts of a vertical are flags that say whether they are
    present.  Methods whose value is dropped by every caller when they fail return a
    [result]. *)

From S2P Require Import Prelude Program LifecycleModel BrowserModel BrowserState.
From stdpp Require Import base gmap strings list fin_maps relations.
From Stdlib Require Import ZArith Lia.

Local Open Scope Z_scope.

(** ** Allocations *)

Definition ErrAllocationUnknown : sentinel := browser_error "ErrAllocationUnknown".
Definition ErrBrowserNotFound : sentinel := browser_error "ErrBrowserNotFound".
Definition ErrBrowserExpired : sentinel := browser_error "ErrBrowserExpired".
Definition ErrBrowserConflict : sentinel := browser_error "ErrBrowserConflict".
Definition ErrBrowserUnsupported : sentinel := browser_error "ErrBrowserUnsupported".

(** The expressions are those of [model.go]. *)
Definition allocationIdentifierPattern (s : string) : bool := BrowserModel.identifierPattern s.
Definition allocationDigestPattern (s : string) : bool := BrowserModel.digestPattern s.

Record AllocationRequest := mkAllocationRequest {
  aq_SandboxID : string; aq_BrowserSessionID : string; aq_OperationID : string; aq_AttemptID : string; aq_FencingToken : Z;
  aq_ExpectedGeneration : Z; aq_RequestDigest : string; aq_NetworkPolicyReference : string; aq_ExpiresAt : Time;
}.

Definition AllocationRequest_Validate (r : AllocationRequest) (now : Time) : result unit :=
  if decide (IsZero now) then refuse BrowserModel.ErrInvalidRequest else
  if decide (¬ Forall (λ s, allocationIdentifierPattern s = true)
                 [aq_SandboxID r; aq_BrowserSessionID r; aq_OperationID r; aq_AttemptID r; aq_NetworkPolicyReference r])
  then refuse BrowserModel.ErrInvalidRequest else
  if decide (aq_FencingToken r < 1 ∨ aq_ExpectedGeneration r < 1 ∨ allocationDigestPattern (aq_RequestDigest r) = false)
  then refuse BrowserModel.ErrInvalidRequest else
  if decide (IsZero (aq_ExpiresAt r) ∨ ¬ After (aq_ExpiresAt r) now) then refuse BrowserModel.ErrInvalidRequest else Ok ().

Record Allocation := mkAllocation { an_Request : AllocationRequest; an_AllocatedAt : Time }.

Definition Allocation_Validate (a : Allocation) : result unit :=
  if decide (IsZero (an_AllocatedAt a)) then refuse BrowserModel.ErrInvalidRequest
  else AllocationRequest_Validate (an_Request a) (an_AllocatedAt a).

Definition Matches (r : AllocationReceipt) (request : AllocationRequest) : Prop :=
  bl_SandboxID r = aq_SandboxID request ∧ bl_BrowserSessionID r = aq_BrowserSessionID request ∧
  bl_OperationID r = aq_OperationID request ∧ bl_AttemptID r = aq_AttemptID request ∧
  bl_FencingToken r = aq_FencingToken request ∧ bl_ExpectedGeneration r = aq_ExpectedGeneration request ∧
  bl_ExpiresAt r = aq_ExpiresAt request.
#[export] Instance Matches_dec r q : Decision (Matches r q).
Proof. unfold Matches. apply _. Defined.

Record AllocationObservation := mkObservation { on_Receipt : AllocationReceipt; on_State : AllocationState; on_ObservedAt : Time }.

Definition AllocationObservation_Validate (o : AllocationObservation) : result unit :=
  if decide (is_ok (AllocationReceipt_Validate (on_Receipt o)) = false ∨ IsZero (on_ObservedAt o)
             ∨ Before (on_ObservedAt o) (bl_AllocatedAt (on_Receipt o)) ∨ AllocationState_valid (on_State o) = false)
  then refuse ErrInvalidAllocation else Ok ().

(** ** Ports *)

Inductive Context :=
  | CtxNil
  | CtxCaller
  | CtxWithDeadline (parent : Context) (deadline : Time)
  | CtxPersistence (parent : Context).               (* [persistenceContext] *)

(** [EPanic] is a nil pointer that is dereferenced. *)
Inductive eff : Type → Type :=
  | ENow : eff Time
  | ECtxErr (ctx : Context) : eff (option goerr)
  | EPanic : eff ()
  (* lifecycle repository *)
  | EGetSandbox (ctx : Context) (id : string) : eff (result Sandbox)
  (* browser.CoordinationAuthority *)
  | ESynchronize (ctx : Context) (a : SandboxAuthority) : eff (result unit)
  | EGetSandboxAuthority (ctx : Context) (id : string) : eff (result SandboxAuthority)
  | EReserveOpen (ctx : Context) (rq : OpenRequest) (acceptedAt : Time) : eff (result Reservation)
  | EGetOpenAt (ctx : Context) (id : string) (now : Time) : eff (result BrowserRecord)
  | EListOpen (ctx : Context) : eff (result (list BrowserRecord))
  | EAttachAllocation (ctx : Context) (receipt : AllocationReceipt) : eff (result Reservation)
  | EObserveAllocation (ctx : Context) (id : string) (observation : AllocationEvidence) : eff (result BrowserRecord)
  | EUpdateOpenAt (ctx : Context) (record : BrowserRecord) (expected : Status) (now : Time) : eff (result unit)
  (* browser.Runtime *)
  | EAllocate (ctx : Context) (a : Allocation) : eff (result AllocationReceipt)
  | EObserve (ctx : Context) (r : AllocationReceipt) : eff (result AllocationObservation)
  | ECleanup (ctx : Context) (r : AllocationReceipt) : eff (result unit)
  (* HandoffRegistrar *)
  | ERegisterHandoff (ctx : Context) (record : BrowserRecord) : eff (result EndpointEvidence).

Abbreviation prog := (Program.prog eff).

Definition transport_error (e : goerr) : Prop :=
  e = [Canceled : sentinel] ∨ e = [DeadlineExceeded : sentinel] ∨ e = [ErrClosed] ∨ e = [ErrDurability].

Definition answers_read {X} (r : result X) (s : State) (x : result X) (s' : State) : Prop :=
  s' = s ∧ (x = r ∨ ∃ e, transport_error e ∧ x = Err e).

(** The operation [m] may take effect, with its answer or a durability failure, or not. *)
Definition answers_write {X} (m : result (X * State)) (s : State) (x : result X) (s' : State) : Prop :=
  match m with
  | Ok (v, t) => (x = Ok v ∧ s' = t) ∨ (x = Err [ErrDurability] ∧ s' = t)
  | Err e => x = Err e ∧ s' = s
  end ∨ (s' = s ∧ ∃ e, transport_error e ∧ x = Err e).

Definition respond {X} (e : eff X) : State → X → State → Prop :=
  match e in eff X return State → X → State → Prop with
  | ESynchronize _ a => λ s x s', answers_write (SynchronizeSandboxAuthority a s) s x s'
  | EGetSandboxAuthority _ id => λ s x s', answers_read (GetSandboxAuthority id s) s x s'
  | EReserveOpen _ rq at_ => λ s x s', answers_write (ReserveOpenAt rq at_ s) s x s'
  | EGetOpenAt _ id now => λ s x s', answers_read (GetOpenAt id now s) s x s'
  | EListOpen _ => λ s x s', answers_read (Ok (ListOpen s)) s x s'
  | EAttachAllocation _ r => λ s x s', answers_write (state_AttachAllocation r s) s x s'
  | EObserveAllocation _ id o => λ s x s', answers_write (state_ObserveAllocation id o s) s x s'
  | EUpdateOpenAt _ r e now => λ s x s', answers_write (UpdateOpenAt r e now s) s x s'
  | _ => λ s _ s', s' = s
  end.

(** The call of the repository behind a write. *)
Definition op_of {X} (e : eff X) : option browser_op :=
  match e with
  | ESynchronize _ a => Some (OpSynchronizeAuthority a)
  | EReserveOpen _ rq at_ => Some (OpReserveOpen rq at_)
  | EAttachAllocation _ r => Some (OpAttachAllocation r)
  | EObserveAllocation _ id o => Some (OpObserveAllocation id o)
  | EUpdateOpenAt _ r e now => Some (OpUpdateOpen r e now)
  | _ => None
  end.

(** ** The application *)

Definition failed {A} (e : goerr) : prog (result A) := Ret (Err e).
Definition returns {A} (a : A) : prog (result A) := Ret (Ok a).

Declare Scope browser_scope.
Notation "x <~ m ; k" := (orelse m failed (λ x, k))
  (at level 20, m at level 100, k at level 200, only parsing) : browser_scope.
Local Open Scope browser_scope.

Definition ErrInvalidApplication : sentinel := SNamed "browser/application" "ErrInvalidApplication".
Definition ErrHandoffPending : sentinel := SNamed "browser/application" "ErrHandoffPending".

Record Operation := mkOperation {
  pn_OperationID : string; pn_AttemptID : string; pn_FencingToken : Z; pn_SandboxID : string; pn_Status : Status; pn_ObservedAt : Time;
}.

(** [Operation{}] *)
Definition no_operation : Operation := mkOperation "" "" 0 "" (StatusOther "") 0.

Definition operationProjection (r : BrowserRecord) : result Operation :=
  _ ← Record_Validate r;
  Ok (mkOperation (bq_OperationID (br_Request r)) (bq_AttemptID (br_Request r)) (bq_FencingToken (br_Request r))
        (bq_SandboxID (br_Request r)) (br_Status r) (br_ObservedAt r)).

(** The projection copies every field of a valid handoff. *)
Definition handoffProjection (h : Handoff) : result Handoff := _ ← Handoff_Validate h; Ok h.

Record BrowserProfile := mkBrowserProfile { bp_RuntimeProfileID : string; bp_CapabilityProfileID : string }.

Definition profileIdentifierPattern (s : string) : bool := BrowserModel.identifierPattern s.

Definition BrowserProfile_validate (p : BrowserProfile) : result unit :=
  if decide (profileIdentifierPattern (bp_RuntimeProfileID p) = false ∨ bp_CapabilityProfileID p ≠ CapabilityProfileID)
  then Err [ErrInvalidApplication] else Ok ().

Record Vertical := mkVertical {
  v_authority : bool; v_runtime : bool; v_sandboxes : bool; v_profile : BrowserProfile; v_clock : bool; v_registrar : bool;
}.

Definition NewVerticalWithHandoffRegistrar (authority runtime sandboxes : bool) (profile : BrowserProfile) (registrar clock : bool)
    : result Vertical :=
  if decide (authority = false ∨ runtime = false ∨ sandboxes = false ∨ clock = false ∨ is_ok (BrowserProfile_validate profile) = false)
  then Err [ErrInvalidApplication] else Ok (mkVertical authority runtime sandboxes profile clock registrar).
Definition NewVertical (authority runtime sandboxes : bool) (profile : BrowserProfile) (clock : bool) : result Vertical :=
  NewVerticalWithHandoffRegistrar authority runtime sandboxes profile false clock.

(** [application.go]: an application has an authority and a clock. *)
Record Application := mkApplication { ap_authority : bool; ap_clock : bool }.

Definition NewApplication (authority clock : bool) : result Application :=
  if decide (authority = false ∨ clock = false) then Err [ErrInvalidApplication] else Ok (mkApplication authority clock).

(** What every method of the application checks first. *)
Definition application_ready (a : Application) (ctx : Context) : result unit :=
  if decide (ap_authority a = false ∨ ap_clock a = false) then Err [ErrInvalidApplication] else
  match ctx with CtxNil => Err [Canceled : sentinel] | _ => Ok () end.

Definition application_Open (a : Application) (ctx : Context) (request : OpenRequest) : prog (result Operation) :=
  match application_ready a ctx with
  | Err e => failed e
  | Ok _ =>
      now ← call ENow;
      match OpenRequest_Validate request now with
      | Err e => failed e
      | Ok _ =>
          reservation <~ call (EReserveOpen ctx request now);
          Ret (operationProjection (bv_Record reservation))
      end
  end.

(** The record of an operation, and the time it was read at. *)
Definition application_read (a : Application) (ctx : Context) (operationID : string) : prog (result (BrowserRecord * Time)) :=
  match application_ready a ctx with
  | Err e => failed e
  | Ok _ =>
      now ← call ENow;
      if decide (IsZero now ∨ operationID = "") then failed [BrowserModel.ErrInvalidRequest] else
      record <~ call (EGetOpenAt ctx operationID now);
      returns (record, now)
  end.

Definition application_GetOperation (a : Application) (ctx : Context) (operationID : string) : prog (result Operation) :=
  found <~ application_read a ctx operationID;
  Ret (operationProjection found.1).

Definition handoff_expired (record : BrowserRecord) (now : Time) : bool :=
  bool_decide (br_Status record = StatusSucceeded)
  && match br_Handoff record with Some h => bool_decide (¬ Before now (bh_ExpiresAt h)) | None => false end.

(** What [GetHandoff] makes of a record. *)
Definition handoff_at (record : BrowserRecord) (now : Time) : result Handoff :=
  if handoff_expired record now then Err [ErrHandoffExpired] else
  _ ← Record_Validate record;
  match br_Status record with
  | StatusAccepted | StatusRunning => Err [ErrHandoffPending]
  | StatusFailed | StatusCancelled | StatusOutcomeUnknown => Err [ErrHandoffUnavailable]
  | StatusSucceeded =>
      match br_Handoff record with
      | None => Err [ErrHandoffUnavailable]
      | Some h => handoffProjection h
      end
  | StatusOther _ => Err [ErrInvalidRecord]
  end.

Definition application_GetHandoff (a : Application) (ctx : Context) (operationID : string) : prog (result Handoff) :=
  found <~ application_read a ctx operationID;
  Ret (handoff_at found.1 found.2).

(** ** [vertical.go] *)

Section vertical.
Context (v : Vertical).

Definition ready (ctx : Context) : prog (result unit) :=
  if decide (v_authority v = false ∨ v_runtime v = false ∨ v_sandboxes v = false ∨ v_clock v = false
             ∨ is_ok (BrowserProfile_validate (v_profile v)) = false)
  then failed [ErrInvalidApplication] else
  match ctx with
  | CtxNil => failed [Canceled : sentinel]
  | _ => err ← call (ECtxErr ctx); Ret (match err with Some e => Err e | None => Ok () end)
  end.

Definition base : Application := mkApplication (v_authority v) (v_clock v).
Definition GetOperation (ctx : Context) (operationID : string) : prog (result Operation) := application_GetOperation base ctx operationID.
Definition GetHandoff (ctx : Context) (operationID : string) : prog (result Handoff) := application_GetHandoff base ctx operationID.

Definition getOpen (ctx : Context) (operationID : string) : prog (result BrowserRecord) :=
  now ← call ENow; call (EGetOpenAt ctx operationID now).

Definition updateOpen (ctx : Context) (record : BrowserRecord) (expected : Status) (now : Time) : prog (result unit) :=
  call (EUpdateOpenAt ctx record expected now).

Definition monotonicTime (value floor : Time) : Time := if decide (Before value floor) then floor else value.
Definition monotonicNow (floor : Time) : prog Time := now ← call ENow; Ret (monotonicTime now floor).

Definition knownAllocationFailure (e : goerr) : bool :=
  errors_is e BrowserModel.ErrInvalidRequest || errors_is e ErrBrowserNotFound || errors_is e ErrBrowserExpired
  || errors_is e ErrBrowserConflict || errors_is e ErrBrowserUnsupported.

Definition authorityInvalid (e : goerr) : bool :=
  errors_is e ErrDeadlineExpired || errors_is e ErrInvalidExpiry || errors_is e ErrSandboxNotReady
  || errors_is e ErrProviderRevisionConflict || errors_is e BrowserModel.ErrGenerationConflict || errors_is e ErrLeaseExpired
  || errors_is e BrowserModel.ErrStaleFencingToken || errors_is e ErrCapabilityUnsupported.

Definition MaxInt64 : Z := 2 ^ 63 - 1.

(** What the lifecycle says of a sandbox, under the fencing token of the caller. *)
Definition authority_of (sandbox : Sandbox) (fencingToken : Z) : SandboxAuthority :=
  mkSandboxAuthority (sb_ID sandbox) (sb_ProviderRevisionID sandbox)
    (bool_decide (sb_DesiredState sandbox = DesiredReady) && bool_decide (sb_ObservedState sandbox = ObservedReady)
     && bool_decide (sb_ObservedGeneration sandbox = sb_Generation sandbox))
    (i64 (sb_Generation sandbox)) (sb_LeaseExpiresAt sandbox) fencingToken (bp_CapabilityProfileID (v_profile v))
    (np_PolicyReference (sb_Network sandbox)).

Definition synchronizeAndReserve (ctx : Context) (request : OpenRequest) (now : Time) : prog (result Reservation) :=
  sandbox <~ call (EGetSandbox ctx (bq_SandboxID request));
  match Sandbox_Validate sandbox with
  | Err e => failed e
  | Ok _ =>
      if decide (sb_ID sandbox ≠ bq_SandboxID request ∨ sb_Generation sandbox > MaxInt64 ∨ sb_ObservedGeneration sandbox > MaxInt64)
      then failed [BrowserModel.ErrGenerationConflict] else
      if decide (sb_RuntimeProfile sandbox ≠ bp_RuntimeProfileID (v_profile v)) then failed [ErrCapabilityUnsupported] else
      if decide (np_Mode (sb_Network sandbox) ≠ NetworkRestricted ∨ np_EgressGatewayRequired (sb_Network sandbox) = false
                 ∨ np_PolicyReference (sb_Network sandbox) = "") then failed [ErrCapabilityUnsupported] else
      _ <~ call (ESynchronize ctx (authority_of sandbox (bq_FencingToken request)));
      call (EReserveOpen ctx request now)
  end.

Definition open_status (s : Status) : bool := match s with StatusAccepted | StatusRunning => true | _ => false end.

Definition persistStatus (ctx : Context) (record : BrowserRecord) (status : Status) (observedAt : Time) : prog (result BrowserRecord) :=
  if negb (open_status (br_Status record)) then returns record else
  match Transition record status observedAt None with
  | Err e => failed e
  | Ok updated =>
      _ <~ updateOpen (CtxPersistence ctx) updated (br_Status record) observedAt;
      returns updated
  end.

Definition cleanupTerminal (ctx : Context) (record : BrowserRecord) : prog (result BrowserRecord) :=
  match br_Allocation record with
  | None => returns record
  | Some a =>
      now ← call ENow;
      if decide (br_Status record ≠ StatusFailed ∧ br_Status record ≠ StatusCancelled ∧ After (bq_ExpiresAt (br_Request record)) now)
      then returns record
      else _ <~ call (ECleanup ctx (ba_Receipt a)); returns record
  end.

Definition invalidate (ctx : Context) (record : BrowserRecord) (now : Time) : prog (result BrowserRecord) :=
  updated <~ persistStatus ctx record StatusFailed (monotonicTime now (br_ObservedAt record));
  match br_Allocation record with
  | None => returns updated
  | Some a => _ <~ call (ECleanup ctx (ba_Receipt a)); returns updated
  end.

Definition expire (ctx : Context) (record : BrowserRecord) (now : Time) : prog (result BrowserRecord) :=
  match br_Allocation record with
  | None => persistStatus ctx record StatusFailed (monotonicTime now (br_ObservedAt record))
  | Some a =>
      updated <~ call (EObserveAllocation (CtxPersistence ctx) (bq_OperationID (br_Request record))
                         (mkEvidence (ba_Receipt a) AllocationExpired (monotonicTime now (ba_ObservedAt a))));
      _ <~ call (ECleanup ctx (ba_Receipt a));
      returns updated
  end.

(** The observation to record: what the runtime reports of this receipt, or what
    its error says. *)
Definition observation_of (receipt : AllocationReceipt) (floor : Time) (answer : result AllocationObservation)
    : prog AllocationObservation :=
  observation ←
    match answer with
    | Ok o => Ret o
    | Err e =>
        now ← monotonicNow floor;
        Ret (mkObservation receipt
               (if errors_is e ErrBrowserNotFound then AllocationAbsent
                else if errors_is e ErrBrowserExpired then AllocationExpired else AllocationOutcomeUnknown) now)
    end;
  if decide (is_ok (AllocationObservation_Validate observation) = false ∨ on_Receipt observation ≠ receipt
             ∨ Before (on_ObservedAt observation) floor)
  then now ← monotonicNow floor; Ret (mkObservation receipt AllocationOutcomeUnknown now)
  else Ret observation.

Definition evidence_of (o : AllocationObservation) : AllocationEvidence :=
  mkEvidence (on_Receipt o) (on_State o) (on_ObservedAt o).

Definition gone (r : BrowserRecord) : bool :=
  match br_Allocation r with
  | Some a => match ba_State a with AllocationAbsent | AllocationExpired => true | _ => false end
  | None => false
  end.

(** [record.Allocation.Receipt] of a record without allocation panics. *)
Definition observe (ctx : Context) (record : BrowserRecord) : prog (result BrowserRecord) :=
  match br_Allocation record with
  | None => _ ← call EPanic; failed []
  | Some a =>
      let receipt := ba_Receipt a in
      answer ← call (EObserve ctx receipt);
      observation ← observation_of receipt (ba_ObservedAt a) answer;
      updated <~ call (EObserveAllocation (CtxPersistence ctx) (bq_OperationID (br_Request record)) (evidence_of observation));
      if gone updated then _ <~ call (ECleanup ctx receipt); returns updated else returns updated
  end.

(** The allocation of an accepted operation, under the network policy of its sandbox. *)
Definition allocation_of (record : BrowserRecord) (policy : string) : Allocation :=
  let rq := br_Request record in
  mkAllocation
    (mkAllocationRequest (bq_SandboxID rq) (bq_BrowserSessionID rq) (bq_OperationID rq) (bq_AttemptID rq) (bq_FencingToken rq)
       (bq_ExpectedGeneration rq) (bq_RequestDigest rq) policy (bq_ExpiresAt rq))
    (br_AcceptedAt record).

Definition allocate (ctx : Context) (record : BrowserRecord) : prog (result BrowserRecord) :=
  authority <~ call (EGetSandboxAuthority ctx (bq_SandboxID (br_Request record)));
  let allocation := allocation_of record (bs_NetworkPolicyReference authority) in
  if decide (is_ok (Allocation_Validate allocation) = false)
  then now ← monotonicNow (br_ObservedAt record); persistStatus ctx record StatusFailed now else
  answer ← call (EAllocate (CtxWithDeadline ctx (bq_Deadline (br_Request record))) allocation);
  match answer with
  | Err e =>
      now ← monotonicNow (br_ObservedAt record);
      persistStatus ctx record (if knownAllocationFailure e then StatusFailed else StatusOutcomeUnknown) now
  | Ok receipt =>
      if decide (is_ok (AllocationReceipt_Validate receipt) = false ∨ ¬ Matches receipt (an_Request allocation)
                 ∨ bl_AllocatedAt receipt ≠ an_AllocatedAt allocation)
      then now ← monotonicNow (br_ObservedAt record); persistStatus ctx record StatusOutcomeUnknown now else
      attached ← call (EAttachAllocation (CtxPersistence ctx) receipt);
      match attached with
      | Err e => failed (ErrAllocationUnknown :: e)
      | Ok reservation => returns (bv_Record reservation)
      end
  end.

(** [(operation, err)]; the operation is also returned when the cleanup failed. *)
Definition finishCancellation (ctx : Context) (record : BrowserRecord) : prog (Operation * option goerr) :=
  let cancelled :=
    now ← monotonicNow (br_ObservedAt record);
    updated ← persistStatus ctx record StatusCancelled now;
    Ret (match updated with
         | Err e => (no_operation, Some e)
         | Ok cancelled => match operationProjection cancelled with Ok o => (o, None) | Err e => (no_operation, Some e) end
         end) in
  match br_Allocation record with
  | None => cancelled
  | Some a =>
      removed ← call (ECleanup ctx (ba_Receipt a));
      match removed with
      | Ok _ => cancelled
      | Err cleanupErr =>
          now ← monotonicNow (br_ObservedAt record);
          unknown ← persistStatus ctx record StatusOutcomeUnknown now;
          Ret (match unknown with
               | Err e => (no_operation, Some (cleanupErr ++ e))
               | Ok unknown =>
                   (match operationProjection unknown with Ok o => o | Err _ => no_operation end, Some cleanupErr)
               end)
      end
  end.

Definition progress (ctx : Context) (record : BrowserRecord) : prog (result BrowserRecord) :=
  if negb (open_status (br_Status record)) then cleanupTerminal ctx record else
  now ← call ENow;
  if decide (IsZero now) then failed [BrowserModel.ErrInvalidRequest] else
  if decide (¬ After (bq_Deadline (br_Request record)) now ∨ ¬ After (bq_ExpiresAt (br_Request record)) now) then expire ctx record now else
  if br_CancelRequested record then
    finished ← finishCancellation ctx record;
    match finished with
    | (_, Some e) => failed e
    | (operation, None) => getOpen ctx (pn_OperationID operation)
    end
  else
  reservation ← synchronizeAndReserve ctx (br_Request record) now;
  match reservation with
  | Err e => if authorityInvalid e then invalidate ctx record now else failed e
  | Ok reservation =>
      let record := bv_Record reservation in
      match br_Status record with
      | StatusAccepted => allocate ctx record
      | StatusRunning => observe ctx record
      | _ => returns record
      end
  end.

Definition running_allocation (r : BrowserRecord) : option AllocationReceipt :=
  match br_Status r, br_Allocation r with
  | StatusRunning, Some a => match ba_State a with AllocationRunning => Some (ba_Receipt a) | _ => None end
  | _, _ => None
  end.

Definition CommitHandoff (ctx : Context) (operationID : string) (evidence : EndpointEvidence) : prog (result Operation) :=
  _ <~ ready ctx;
  record <~ getOpen ctx operationID;
  match running_allocation record with
  | None => failed [ErrHandoffUnavailable]
  | Some receipt =>
      if decide (be_ConnectionGeneration evidence ≠ bl_ConnectionGeneration receipt) then failed [ErrHandoffUnavailable] else
      now ← call ENow;
      reservation <~ synchronizeAndReserve ctx (br_Request record) now;
      let record := bv_Record reservation in
      match running_allocation record with
      | None => failed [ErrHandoffUnavailable]
      | Some _ =>
          match Transition record StatusSucceeded now (Some evidence) with
          | Err e => failed e
          | Ok succeeded =>
              _ <~ updateOpen ctx succeeded StatusRunning now;
              Ret (operationProjection succeeded)
          end
      end
  end.

Definition completeHandoff (ctx : Context) (record : BrowserRecord) : prog (result BrowserRecord) :=
  if decide (br_Status record ≠ StatusRunning ∨ v_registrar v = false) then returns record else
  evidence <~ call (ERegisterHandoff ctx record);
  _ <~ CommitHandoff ctx (bq_OperationID (br_Request record)) evidence;
  getOpen ctx (bq_OperationID (br_Request record)).

(** [progress] and [completeHandoff] in a row. *)
Definition advance (ctx : Context) (record : BrowserRecord) : prog (result Operation) :=
  record <~ progress ctx record;
  record <~ completeHandoff ctx record;
  Ret (operationProjection record).

Definition Open (ctx : Context) (request : OpenRequest) : prog (result Operation) :=
  _ <~ ready ctx;
  now ← call ENow;
  match OpenRequest_Validate request now with
  | Err e => failed e
  | Ok _ =>
      reservation <~ synchronizeAndReserve ctx request now;
      advance ctx (bv_Record reservation)
  end.

Definition Reconcile (ctx : Context) (operationID : string) : prog (result Operation) :=
  _ <~ ready ctx;
  record <~ getOpen ctx operationID;
  advance ctx record.

(** [(results, err)] *)
Fixpoint recover_opens (ctx : Context) (records : list BrowserRecord) (results : list Operation)
    : prog (list Operation * option goerr) :=
  match records with
  | [] => Ret (results, None)
  | record :: records =>
      if negb (open_status (br_Status record)) then
        orelse (cleanupTerminal ctx record) (λ e, Ret (results, Some e)) (λ _, recover_opens ctx records results)
      else
        orelse (advance ctx record) (λ e, Ret (results, Some e)) (λ operation, recover_opens ctx records (results ++ [operation]))
  end.

Definition Recover (ctx : Context) : prog (list Operation * option goerr) :=
  orelse (ready ctx) (λ e, Ret ([], Some e)) (λ _,
  orelse (call (EListOpen ctx)) (λ e, Ret ([], Some e)) (λ records, recover_opens ctx records [])).

Definition Cancel (ctx : Context) (operationID : string) : prog (Operation * option goerr) :=
  let fails e := Ret (no_operation, Some e) in
  orelse (ready ctx) fails (λ _,
  orelse (getOpen ctx operationID) fails (λ record,
  if negb (open_status (br_Status record)) then
    Ret (match operationProjection record with Ok o => (o, None) | Err e => (no_operation, Some e) end)
  else
  if br_CancelRequested record then finishCancellation ctx record else
  now ← monotonicNow (br_ObservedAt record);
  match RequestCancellation record now with
  | Err e => fails e
  | Ok requested =>
      orelse (updateOpen (CtxPersistence ctx) requested (br_Status record) now) fails (λ _, finishCancellation ctx requested)
  end)).
End vertical.
