(* ===== verification/BrowserFile.v ===== *)
(** * The browser session repositories: [provider/browser/repository/memory], [.../file]

    The in-memory repository consults the context once, before it takes the lock;
    the file repository, for one controller process, is a file store over
    [repository.State].  Both answer as the ports of the application allow.
    [handle] composes the in-memory repository with a clock, contexts that are
    cancelled by a script, and a runtime that are parameters, so that calls of the
    application run. *)

From S2P Require Import Prelude Program FileStore LifecycleModel BrowserModel BrowserState BrowserVertical.
From stdpp Require Import base gmap strings list fin_maps relations.
From Stdlib Require Import ZArith Lia.

Local Open Scope Z_scope.

(** ** Answers *)

Lemma browser_write_state {X} (m : result (X * State)) s x s' : answers_write m s x s' → s' = s ∨ ∃ v, m = Ok (v, s').
Proof. intros [H|[-> _]]; [|by left]. destruct m as [[v t]|]; [right|left; naive_solver]. exists v. naive_solver. Qed.

Lemma browser_write_value {X} (m : result (X * State)) s v s' : answers_write m s (Ok v) s' → m = Ok (v, s').
Proof. intros [H|(_ & e & _ & ?)]; [|done]. destruct m as [[v' t]|]; naive_solver. Qed.

Lemma browser_read_value {X} (r : result X) s v s' : answers_read r s (Ok v) s' → r = Ok v ∧ s' = s.
Proof. intros [-> [->|(e & _ & ?)]]; done. Qed.

(** Whatever is answered, the state took one call or none. *)
Lemma browser_respond_state {X} (e : eff X) s x s' :
  respond e s x s' → s' = s ∨ ∃ op, op_of e = Some op ∧ next_state op s = Ok s'.
Proof.
  destruct e; cbn; try (intros [-> _]; by left); try (intros ->; by left);
    intros [->|(v & Hv)]%browser_write_state; auto; right; eexists; (split; [done|]); cbn; by rewrite Hv.
Qed.

(** ** The repository in memory *)

Record MemoryRepository := mkMemoryRepository { mem_state : State; mem_closed : bool }.

Definition NewRepository : MemoryRepository := mkMemoryRepository NewState false.

Definition memory_write {X} (err : option context_sentinel) (f : State → result (X * State)) (r : MemoryRepository)
    : result X * MemoryRepository :=
  match err with
  | Some c => (Err [c : sentinel], r)
  | None =>
      if mem_closed r then (Err [ErrClosed], r) else
      match f (mem_state r) with
      | Ok (x, s) => (Ok x, mkMemoryRepository s (mem_closed r))
      | Err e => (Err e, r)
      end
  end.

Definition memory_read {X} (err : option context_sentinel) (f : State → result X) (r : MemoryRepository) : result X * MemoryRepository :=
  match err with
  | Some c => (Err [c : sentinel], r)
  | None => if mem_closed r then (Err [ErrClosed], r) else (f (mem_state r), r)
  end.

(** [err] is what [ContextError(ctx)] returned; [systemNow] is [time.Now().UTC()]. *)
Definition memory_ReserveOpen err request acceptedAt := memory_write err (ReserveOpenAt request acceptedAt).
Definition memory_GetOpenAt err operationID now := memory_read err (GetOpenAt operationID now).
Definition memory_GetOpen (systemNow : Time) err operationID := memory_GetOpenAt err operationID systemNow.
Definition memory_ListOpen err := memory_read err (λ s, Ok (ListOpen s)).
Definition memory_AttachAllocation err receipt := memory_write err (state_AttachAllocation receipt).
Definition memory_ObserveAllocation err operationID observation := memory_write err (state_ObserveAllocation operationID observation).
Definition memory_UpdateOpenAt err record expectedStatus now := memory_write err (UpdateOpenAt record expectedStatus now).
Definition memory_UpdateOpen (systemNow : Time) err record expectedStatus := memory_UpdateOpenAt err record expectedStatus systemNow.
Definition memory_SynchronizeSandboxAuthority err authority := memory_write err (SynchronizeSandboxAuthority authority).
Definition memory_GetSandboxAuthority err sandboxID := memory_read err (GetSandboxAuthority sandboxID).
Definition memory_Close (r : MemoryRepository) : MemoryRepository := mkMemoryRepository (mem_state r) true.

Lemma browser_transport_ctx (c : context_sentinel) : transport_error [c : sentinel].
Proof. unfold transport_error. destruct c; auto. Qed.

Lemma browser_memory_write {X} err (f : State → result (X * State)) r :
  answers_write (f (mem_state r)) (mem_state r) (memory_write err f r).1 (mem_state (memory_write err f r).2).
Proof.
  unfold memory_write. destruct err as [c|]; [right; split; [done|]; eexists; split; [apply browser_transport_ctx|done]|].
  destruct (mem_closed r); [right; split; [done|]; exists [ErrClosed]; unfold transport_error; naive_solver|].
  left. destruct (f (mem_state r)) as [[v s]|e]; cbn; auto.
Qed.

Lemma browser_memory_read {X} err (f : State → result X) r :
  answers_read (f (mem_state r)) (mem_state r) (memory_read err f r).1 (mem_state (memory_read err f r).2).
Proof.
  unfold memory_read. destruct err as [c|]; [split; [done|]; right; eexists; split; [apply browser_transport_ctx|done]|].
  destruct (mem_closed r); (split; [done|]); [right; exists [ErrClosed]; unfold transport_error; naive_solver|by left].
Qed.

(** ** The composed ports *)

Record World := mkWorld {
  w_mem : MemoryRepository;
  w_clock : list positive;
  w_ctx : list (option context_sentinel);
}.

Record Runtime := mkRuntime {
  rt_Sandbox : string → result Sandbox;
  rt_Allocate : Allocation → result AllocationReceipt;
  rt_Observe : AllocationReceipt → result AllocationObservation;
  rt_Cleanup : AllocationReceipt → result unit;
  rt_RegisterHandoff : BrowserRecord → result EndpointEvidence;
}.

(** The clock stays at its last reading. *)
Definition clock_Now (w : World) : Time * World :=
  match w_clock w with
  | [] => (1, w)
  | [t] => (Z.pos t, w)
  | t :: ts => (Z.pos t, mkWorld (w_mem w) ts (w_ctx w))
  end.

(** An exhausted script means no further cancellation, and so does the context of
    [persistenceContext]. *)
Definition ContextError (ctx : Context) (w : World) : option context_sentinel * World :=
  match ctx with
  | CtxNil => (Some Canceled, w)
  | CtxPersistence _ => (None, w)
  | _ => match w_ctx w with [] => (None, w) | c :: cs => (c, mkWorld (w_mem w) (w_clock w) cs) end
  end.

Definition with_repository {X} (ctx : Context) (f : option context_sentinel → MemoryRepository → X * MemoryRepository) (w : World) : X * World :=
  let '(err, w) := ContextError ctx w in
  let '(x, m) := f err (w_mem w) in (x, mkWorld m (w_clock w) (w_ctx w)).

Section ports.
Context (rt : Runtime).

Definition handle {X} (e : eff X) : World → X * World :=
  match e in eff X return World → X * World with
  | ENow => clock_Now
  | ECtxErr ctx => λ w, let '(e, w) := ContextError ctx w in ((λ c, [SContext c]) <$> e, w)
  | EPanic => λ w, ((), w)
  | EGetSandbox _ id => λ w, (rt_Sandbox rt id, w)
  | ESynchronize ctx a => with_repository ctx (λ err, memory_SynchronizeSandboxAuthority err a)
  | EGetSandboxAuthority ctx id => with_repository ctx (λ err, memory_GetSandboxAuthority err id)
  | EReserveOpen ctx rq at_ => with_repository ctx (λ err, memory_ReserveOpen err rq at_)
  | EGetOpenAt ctx id now => with_repository ctx (λ err, memory_GetOpenAt err id now)
  | EListOpen ctx => with_repository ctx memory_ListOpen
  | EAttachAllocation ctx r => with_repository ctx (λ err, memory_AttachAllocation err r)
  | EObserveAllocation ctx id o => with_repository ctx (λ err, memory_ObserveAllocation err id o)
  | EUpdateOpenAt ctx r e now => with_repository ctx (λ err, memory_UpdateOpenAt err r e now)
  | EAllocate _ a => λ w, (rt_Allocate rt a, w)
  | EObserve _ r => λ w, (rt_Observe rt r, w)
  | ECleanup _ r => λ w, (rt_Cleanup rt r, w)
  | ERegisterHandoff _ r => λ w, (rt_RegisterHandoff rt r, w)
  end.

Definition abs (w : World) : State := mem_state (w_mem w).

Lemma browser_ctx_mem ctx w : w_mem (ContextError ctx w).2 = w_mem w.
Proof. destruct ctx, w as [m c [|x xs]]; done. Qed.

Lemma browser_repository_write {X} ctx (f : State → result (X * State)) w :
  answers_write (f (abs w)) (abs w) (with_repository ctx (λ err, memory_write err f) w).1
    (abs (with_repository ctx (λ err, memory_write err f) w).2).
Proof.
  unfold with_repository, abs. pose proof (browser_ctx_mem ctx w) as Hm. destruct (ContextError ctx w) as [err w1]. cbn in Hm.
  rewrite <- Hm. pose proof (browser_memory_write err f (w_mem w1)) as Hw. by destruct (memory_write err f (w_mem w1)).
Qed.

Lemma browser_repository_read {X} ctx (f : State → result X) w :
  answers_read (f (abs w)) (abs w) (with_repository ctx (λ err, memory_read err f) w).1
    (abs (with_repository ctx (λ err, memory_read err f) w).2).
Proof.
  unfold with_repository, abs. pose proof (browser_ctx_mem ctx w) as Hm. destruct (ContextError ctx w) as [err w1]. cbn in Hm.
  rewrite <- Hm. pose proof (browser_memory_read err f (w_mem w1)) as Hw. by destruct (memory_read err f (w_mem w1)).
Qed.

Lemma browser_handle_responds {X} (e : eff X) w : respond e (abs w) (handle e w).1 (abs (handle e w).2).
Proof.
  destruct e; cbn [respond handle]; try done; try apply browser_repository_write; try apply browser_repository_read.
  - unfold clock_Now. by destruct w as [m [|t [|t' ts]] c].
  - unfold abs. pose proof (browser_ctx_mem ctx w) as Ha. destruct (ContextError ctx w). cbn in *. by rewrite Ha.
Qed.
End ports.

(** ** The file repository *)

Definition maxFileSize : Z := Z.shiftl 32 20.

Definition browser_layout : FileLayout State PersistedState :=
  mkFileLayout NewState Export Import ErrCorrupt ErrDurability ErrClosed maxFileSize "browser session repository" true true.

Section file.
Context {bytes : Type} (encode : PersistedState → option bytes) (size : bytes → Z) (decode : bytes → option PersistedState).

Abbreviation FileRepository := (FileStore State bytes).

(** A failing [Stat] is reported as a corrupt file here. *)
Definition browser_load (faults : OpenFaults) (disk : option bytes) : result State :=
  match disk with
  | None => Ok NewState
  | Some b =>
      if of_open faults then Err [ErrExternal "open browser session repository"] else
      if decide (of_stat faults = true ∨ of_irregular faults = true ∨ size b > maxFileSize) then Err [ErrCorrupt] else
      match decode b with
      | None => Err [ErrCorrupt]
      | Some snapshot => Import snapshot
      end
  end.

Definition file_NewRepository (path : string) (faults : OpenFaults) (disk : option bytes) : result FileRepository :=
  if decide (blank path = true) then Err [ErrExternal "browser session repository path is required"] else
  if of_mkdir faults then Err [ErrExternal "create browser session repository directory"] else
  if of_lock faults then Err [ErrExternal "lock browser session repository"] else
  state ← browser_load faults disk; Ok (mkFileStore state false disk).

Definition persist : OSFaults → FileRepository → bool * option goerr * FileRepository := store_persist browser_layout encode size.
Definition mutate {X} : OSFaults → (State → result (X * State)) → FileRepository → result X * FileRepository :=
  store_mutate browser_layout encode size.
Definition file_read {X} : option context_sentinel → (State → result X) → FileRepository → result X * FileRepository :=
  store_read browser_layout.

Definition file_ReserveOpen os request acceptedAt := mutate os (ReserveOpenAt request acceptedAt).
Definition file_GetOpenAt entry operationID now := file_read entry (GetOpenAt operationID now).
Definition file_GetOpen (systemNow : Time) entry operationID := file_GetOpenAt entry operationID systemNow.
Definition file_ListOpen entry := file_read entry (λ s, Ok (ListOpen s)).
Definition file_AttachAllocation os receipt := mutate os (state_AttachAllocation receipt).
Definition file_ObserveAllocation os operationID observation := mutate os (state_ObserveAllocation operationID observation).
Definition file_UpdateOpenAt os record expectedStatus now := mutate os (UpdateOpenAt record expectedStatus now).
Definition file_UpdateOpen (systemNow : Time) os record expectedStatus := file_UpdateOpenAt os record expectedStatus systemNow.
Definition file_SynchronizeSandboxAuthority os authority := mutate os (SynchronizeSandboxAuthority authority).
Definition file_GetSandboxAuthority entry sandboxID := file_read entry (GetSandboxAuthority sandboxID).
Definition file_Close : FileRepository → FileRepository := store_close.

(** A call of the repository through the ports; other calls do not reach it. *)
Definition file_handle {X} (entry : option context_sentinel) (os : OSFaults) (e : eff X) : option (FileRepository → X * FileRepository) :=
  match e in eff X return option (FileRepository → X * FileRepository) with
  | ESynchronize _ a => Some (file_SynchronizeSandboxAuthority os a)
  | EGetSandboxAuthority _ id => Some (file_GetSandboxAuthority entry id)
  | EReserveOpen _ rq at_ => Some (file_ReserveOpen os rq at_)
  | EGetOpenAt _ id now => Some (file_GetOpenAt entry id now)
  | EListOpen _ => Some (file_ListOpen entry)
  | EAttachAllocation _ r => Some (file_AttachAllocation os r)
  | EObserveAllocation _ id o => Some (file_ObserveAllocation os id o)
  | EUpdateOpenAt _ r e now => Some (file_UpdateOpenAt os r e now)
  | _ => None
  end.

(** *** Proofs *)

Context (faithful : PersistedState → Prop).
Context (json_roundtrip : ∀ p b, faithful p → encode p = Some b → decode b = Some p).

#[local] Instance browser_lawful : LawfulLayout browser_layout encode decode browser_wf faithful.
Proof using json_roundtrip. split; [apply browser_wf_init|intros; by apply browser_Import_Export|done]. Qed.

Abbreviation browser_durable := (durable browser_layout size decode browser_wf).

Lemma browser_load_store disk : browser_load of_ok disk = store_load browser_layout size decode of_ok disk.
Proof using Type. unfold browser_load, store_load. destruct disk as [b|]; [|done]. cbn. repeat case_decide; naive_solver. Qed.

Lemma browser_file_answers {X} (m : result (X * State)) s x s' : file_answers browser_layout m s x s' → answers_write m s x s'.
Proof using Type. intros [H|H]; [left|by right]. destruct m as [[v t]|]; [|done]. destruct H as [[->| ->] ->]; auto. Qed.

(** A call whose effect JSON can represent. *)
Definition representable {X} (e : eff X) (r : FileRepository) : Prop :=
  ∀ op t, op_of e = Some op → next_state op (fs_state r) = Ok t → faithful (Export t).

Lemma browser_file_write {X} os (f : State → result (X * State)) (e : eff (result X)) op r :
  browser_durable r → representable e r → op_of e = Some op →
  (∀ v t, f (fs_state r) = Ok (v, t) → next_state op (fs_state r) = Ok t) →
  browser_durable (mutate os f r).2 ∧ answers_write (f (fs_state r)) (fs_state r) (mutate os f r).1 (fs_state (mutate os f r).2).
Proof using json_roundtrip.
  intros Hok Hr Hop Hf. destruct (store_mutate_spec browser_layout encode size decode browser_wf faithful os f r Hok) as [? Ha].
  - intros v t E. apply Hf in E. destruct Hok as [Hs _]. split; [by eapply browser_next_wf|by eapply Hr].
  - split; [done|by apply browser_file_answers].
Qed.

Lemma browser_file_handle {X} entry os (e : eff X) h r :
  file_handle entry os e = Some h → browser_durable r → representable e r →
  browser_durable (h r).2 ∧ respond e (fs_state r) (h r).1 (fs_state (h r).2).
Proof using json_roundtrip.
  intros Hh Hok Hr.
  assert (Hread : ∀ Y (f : State → result Y), browser_durable (file_read entry f r).2 ∧
    answers_read (f (fs_state r)) (fs_state r) (file_read entry f r).1 (fs_state (file_read entry f r).2)).
  { intros Y f. destruct (store_read_spec browser_layout entry f r) as [E H]. unfold file_read, answers_read. by rewrite E. }
  destruct e; cbn in Hh; simplify_eq; cbn [respond]; try apply Hread;
    (eapply browser_file_write; [done|exact Hr|reflexivity|]; intros v t E; cbn; by rewrite E).
Qed.

(** Calls under any faults, restarts, and [Close]. *)
Inductive file_step : FileRepository → FileRepository → Prop :=
  | file_called X (e : eff X) entry os h r : file_handle entry os e = Some h → representable e r → file_step r (h r).2
  | file_closed r : file_step r (file_Close r)
  | file_reopened path faults r r' : file_NewRepository path faults (fs_disk r) = Ok r' → file_step r r'.

Lemma browser_reopened path faults r r' :
  browser_durable r → file_NewRepository path faults (fs_disk r) = Ok r' → r' = mkFileStore (fs_state r) false (fs_disk r).
Proof using Type.
  intros [_ Hl] H. rewrite <- browser_load_store in Hl. unfold file_NewRepository in H. case_decide; [done|].
  destruct (of_mkdir faults), (of_lock faults); try done. inv_ok H. f_equal.
  unfold browser_load in *. destruct (fs_disk r) as [b|]; [|congruence]. destruct (of_open faults); [done|]. cbn in Hl.
  repeat case_decide; try done. destruct (decode b); congruence.
Qed.

Lemma browser_file_step r r' : browser_durable r → file_step r r' → browser_durable r'.
Proof using json_roundtrip.
  intros Hok Hstep. destruct Hstep as [X e entry os h r0 Hh Hr|r0|path faults r0 r1 Ho]; [by destruct (browser_file_handle entry os e h r0 Hh Hok Hr)|done|].
  by rewrite (browser_reopened path faults r0 r1 Hok Ho).
Qed.

Lemma browser_file_run r : rtc file_step (empty_store browser_layout) r → browser_durable r.
Proof using json_roundtrip.
  revert r. apply rtc_ind_r; [split; [apply browser_wf_init|done]|]. intros r r' _ Hs Hok. by eapply browser_file_step.
Qed.

(** the file repository of browser sessions loses and invents nothing.  Whatever
    writes are made, system calls fail, contexts are cancelled and restarts occur,
    every further call is answered as the ports of the application allow, and
    opening the file again gives exactly the state that answered it. *)
Theorem browser_file_repository_durable path r :
  blank path = false → rtc file_step (empty_store browser_layout) r →
  (∀ X (e : eff X) entry os h, file_handle entry os e = Some h → representable e r →
     respond e (fs_state r) (h r).1 (fs_state (h r).2) ∧
     file_NewRepository path of_ok (fs_disk (h r).2) = Ok (mkFileStore (fs_state (h r).2) false (fs_disk (h r).2))).
Proof using json_roundtrip.
  intros Hp Hrun X e entry os h Hh Hr. apply browser_file_run in Hrun.
  destruct (browser_file_handle entry os e h r Hh Hrun Hr) as [Hok' Ha]. split; [done|].
  unfold file_NewRepository. rewrite decide_False by congruence. cbn. destruct Hok' as [_ Hl]. rewrite browser_load_store, Hl. done.
Qed.
End file.
