(* ===== verification/BrowserConcurrency.v ===== *)
(** * The browser application under concurrency

    Any number of calls of the application may run at once over one repository,
    interleaved call by call, and any of them may stop for good at any call.  The
    rule says which call a method makes after which trace; every method follows
    it, and the ledger relates what was called to the state.  From both follow the
    guarantees of the application: under which identity browsers are allocated, when
    they are removed, and which ones are lost. *)

From S2P Require Import Prelude Program Threads LifecycleModel BrowserModel BrowserState BrowserVertical.
From stdpp Require Import base gmap strings list fin_maps relations.
From Stdlib Require Import ZArith Lia.

Local Open Scope Z_scope.

(** ** The interface *)

Inductive browser_api :=
  | ApiOpen (ctx : Context) (request : OpenRequest)
  | ApiAccept (a : Application) (ctx : Context) (request : OpenRequest)
  | ApiReconcile (ctx : Context) (id : string)
  | ApiRecover (ctx : Context)
  | ApiCancel (ctx : Context) (id : string)
  | ApiCommitHandoff (ctx : Context) (id : string) (evidence : EndpointEvidence)
  | ApiGetHandoff (ctx : Context) (id : string)
  | ApiGetOperation (ctx : Context) (id : string).

Definition api_prog (v : Vertical) (a : browser_api) : prog () :=
  match a with
  | ApiOpen ctx rq => discard (Open v ctx rq)
  | ApiAccept a ctx rq => discard (application_Open a ctx rq)
  | ApiReconcile ctx id => discard (Reconcile v ctx id)
  | ApiRecover ctx => discard (Recover v ctx)
  | ApiCancel ctx id => discard (BrowserVertical.Cancel v ctx id)
  | ApiCommitHandoff ctx id e => discard (CommitHandoff v ctx id e)
  | ApiGetHandoff ctx id => discard (GetHandoff v ctx id)
  | ApiGetOperation ctx id => discard (GetOperation v ctx id)
  end.

Definition spawn (p : prog ()) : Prop := ∃ v a, p = api_prog v a.

Definition pool_run (s : State) (ts : list (thread eff)) : Prop :=
  rtc (pool_step (@respond) spawn) (NewState, []) (s, ts).

(** ** What traces say *)

(** The records an answer shows to be in the repository. *)
Definition seen (ev : event eff) : list BrowserRecord :=
  let '@Ev _ X e x := ev in
  match e in eff X return X → list BrowserRecord with
  | EReserveOpen _ _ _ | EAttachAllocation _ _ => λ x, match x with Ok v => [bv_Record v] | Err _ => [] end
  | EGetOpenAt _ _ _ | EObserveAllocation _ _ _ => λ x, match x with Ok r => [r] | Err _ => [] end
  | EListOpen _ => λ x, match x with Ok l => l | Err _ => [] end
  | EUpdateOpenAt _ r _ _ => λ x, match x with Ok _ => [r] | Err _ => [] end
  | _ => λ _, []
  end x.

Definition known (tr : list (event eff)) (r : BrowserRecord) : Prop := ∃ ev, ev ∈ tr ∧ r ∈ seen ev.

(** The session of the record is over: its operation failed or was cancelled, its
    cancellation was requested, or it is settled and a clock reading was past its
    expiry. *)
Definition session_over (tr : list (event eff)) (r : BrowserRecord) : Prop :=
  br_Status r = StatusFailed ∨ br_Status r = StatusCancelled ∨ br_CancelRequested r = true ∨
  Status_terminal (br_Status r) = true ∧ ∃ now, Ev ENow now ∈ tr ∧ bq_ExpiresAt (br_Request r) ≤ now.

(** Why an allocation may be removed. *)
Definition removable (tr : list (event eff)) (receipt : AllocationReceipt) : Prop :=
  ∃ r, known tr r ∧ ba_Receipt <$> br_Allocation r = Some receipt ∧ session_over tr r.

Definition removed (tr : list (event eff)) (r : BrowserRecord) : Prop :=
  ∀ a, br_Allocation r = Some a → ∃ ctx, Ev (ECleanup ctx (ba_Receipt a)) (Ok ()) ∈ tr.

(** ** The rule *)

Definition rule (tr : list (event eff)) (X : Type) (e : eff X) : Prop :=
  match e with
  | EPanic => False
  | EAllocate _ a =>
      ∃ r ctx authority, known tr r ∧ br_Status r = StatusAccepted ∧
        Ev (EGetSandboxAuthority ctx (bq_SandboxID (br_Request r))) (Ok authority) ∈ tr ∧
        a = allocation_of r (bs_NetworkPolicyReference authority)
  | EAttachAllocation _ receipt =>
      ∃ ctx a, Ev (EAllocate ctx a) (Ok receipt) ∈ tr ∧ Matches receipt (an_Request a) ∧ bl_AllocatedAt receipt = an_AllocatedAt a
  | EObserveAllocation _ _ obs =>
      ba_State obs = AllocationRunning →
      ∃ ctx o, Ev (EObserve ctx (ba_Receipt obs)) (Ok o) ∈ tr ∧ obs = evidence_of o
  | EUpdateOpenAt _ r _ _ => br_Status r = StatusCancelled → removed tr r
  | ECleanup _ receipt => removable tr receipt
  | _ => True
  end.

(** What the answers are in every state of the repository. *)
Definition shows (X : Type) (e : eff X) : X → Prop :=
  match e in eff X return X → Prop with
  | EReserveOpen _ rq _ => λ x, match x with Ok v => br_Request (bv_Record v) = rq | Err _ => True end
  | EObserveAllocation _ _ obs => λ x,
      match x with Ok r => br_Allocation r = Some obs ∧ br_Status r = observed_status (ba_State obs) | Err _ => True end
  | _ => λ _, True
  end.
Definition plausible (X : Type) (e : eff X) (x : X) : Prop :=
  (∀ r, r ∈ seen (Ev e x) → Record_Validate r = Ok ()) ∧ shows X e x.

(** *** Growing traces *)

Lemma browser_known_mono tr tr' r : tr ⊆ tr' → known tr r → known tr' r.
Proof. intros Hs (ev & ? & ?). exists ev. auto. Qed.
Lemma browser_over_mono tr tr' r : tr ⊆ tr' → session_over tr r → session_over tr' r.
Proof.
  intros Hs [?|[?|[?|(? & now & ? & ?)]]]; [by left|by right; left|by right; right; left|right; right; right]. split; [done|]. exists now. auto.
Qed.
Lemma browser_removed_mono tr tr' r : tr ⊆ tr' → removed tr r → removed tr' r.
Proof. intros Hs Hr a Ha. destruct (Hr a Ha) as [ctx ?]. exists ctx. auto. Qed.
Lemma browser_known_here ev tr r : r ∈ seen ev → known (ev :: tr) r.
Proof. intros Hr. exists ev. split; [left|done]. Qed.

(** ** The methods follow the rule *)

Abbreviation obeys := (follows rule plausible).

(** [post P] holds of a failure, and of a value that satisfies [P]. *)
Definition post {A} (P : A → list (event eff) → Prop) (x : result A) (tr : list (event eff)) : Prop :=
  match x with Ok a => P a tr | Err _ => True end.

Definition good (tr : list (event eff)) (r : BrowserRecord) : Prop := known tr r ∧ Record_Validate r = Ok ().

Lemma browser_good_mono tr tr' r : tr ⊆ tr' → good tr r → good tr' r.
Proof. intros Hs [? ?]. split; [by eapply browser_known_mono|done]. Qed.

Lemma browser_open_status s : open_status s = true ↔ s = StatusAccepted ∨ s = StatusRunning.
Proof. destruct s; cbn; naive_solver. Qed.

(** A valid record that is not open is settled. *)
Lemma browser_settled r : Record_Validate r = Ok () → open_status (br_Status r) = false → Status_terminal (br_Status r) = true.
Proof. intros Hv. unfold Record_Validate, refuse in Hv. apply guard_Ok in Hv as [Hg _]. nor Hg. boolify. by destruct (br_Status r). Qed.

Lemma browser_follows_grows {A} (p : prog A) tr Q : obeys p tr Q → obeys p tr (λ a tr', tr ⊆ tr' ∧ Q a tr').
Proof.
  assert (Hgen : ∀ tr0, tr0 ⊆ tr → obeys p tr Q → obeys p tr (λ a tr', tr0 ⊆ tr' ∧ Q a tr')); [|by apply Hgen].
  revert tr. induction p as [a|X e k IH]; intros tr tr0 Hs; cbn; [done|].
  intros [Hr Hk]. split; [done|]. intros x Hx. apply IH; [|by apply Hk]. set_solver.
Qed.

Lemma browser_then {A B} (p : prog A) (f : A → prog B) tr P Q :
  obeys p tr P → (∀ a tr', tr ⊆ tr' → P a tr' → obeys (f a) tr' Q) → obeys (p ≫= f) tr Q.
Proof.
  intros Hp Hf. apply follows_bind. eapply follows_mono; [|by apply browser_follows_grows]. intros a tr' [? ?]. by apply Hf.
Qed.

Lemma browser_orelse {A B} (m : prog (result A)) (z : goerr → prog B) (k : A → prog B) tr P Q :
  obeys m tr (post P) → (∀ e tr', tr ⊆ tr' → obeys (z e) tr' Q) →
  (∀ a tr', tr ⊆ tr' → P a tr' → obeys (k a) tr' Q) → obeys (orelse m z k) tr Q.
Proof. intros Hm Hz Hk. eapply browser_then; [exact Hm|]. intros [a|e] tr' Hs Hp; auto. Qed.

Lemma browser_try {A B} (m : prog (result A)) (k : A → prog (result B)) tr P Q :
  obeys m tr (post P) → (∀ a tr', tr ⊆ tr' → P a tr' → obeys (k a) tr' (post Q)) → obeys (orelse m failed k) tr (post Q).
Proof. intros Hm Hk. eapply browser_orelse; [exact Hm|done|exact Hk]. Qed.

(** A call the rule says nothing about, when nothing is needed of its answer. *)
Lemma browser_quiet {X} (e : eff (result X)) tr : rule tr _ e → obeys (call e) tr (post (λ _ _, True)).
Proof. intros He. cbn. split; [done|]. by intros []. Qed.

Lemma browser_now {B} (k : Time → prog B) tr Q :
  (∀ now tr', tr ⊆ tr' → Ev ENow now ∈ tr' → obeys (k now) tr' Q) → obeys (x ← call ENow; k x) tr Q.
Proof. intros Hk. cbn. split; [done|]. intros now _. apply Hk; [set_solver|left]. Qed.

Lemma browser_monotonicNow {B} floor (k : Time → prog B) tr Q :
  (∀ now tr', tr ⊆ tr' → obeys (k now) tr' Q) → obeys (x ← monotonicNow floor; k x) tr Q.
Proof. intros Hk. cbn. split; [done|]. intros now _. apply Hk. set_solver. Qed.

(** What is read or written is known. *)
Lemma browser_shown {X} (e : eff (result X)) (r : X → BrowserRecord) tr :
  rule tr _ e → (∀ x, r x ∈ seen (Ev e (Ok x))) → obeys (call e) tr (post (λ x tr', good tr' (r x) ∧ shows _ e (Ok x))).
Proof.
  intros He Hr. cbn. split; [done|]. intros [x|] [Hp Hs]; cbn; [|done]. split; [|done].
  split; [by apply browser_known_here|by apply Hp].
Qed.

Section methods.
Context (v : Vertical).

Lemma browser_obeys_ready ctx tr : obeys (ready v ctx) tr (post (λ _ _, True)).
Proof. unfold ready. case_decide; [done|]. destruct ctx; cbn; [done|..]; (split; [done|]); by intros [] _. Qed.

Lemma browser_obeys_getOpen ctx id tr : obeys (getOpen ctx id) tr (post (λ r tr', good tr' r)).
Proof.
  apply browser_now. intros now tr1 _ _. eapply follows_mono; [|apply (browser_shown _ (λ r, r)); [done|cbn; set_solver]].
  intros [r|] tr'; cbn; [|done]. by intros [? _].
Qed.

Lemma browser_obeys_reserve ctx request now tr :
  obeys (synchronizeAndReserve v ctx request now) tr (post (λ rv tr', good tr' (bv_Record rv))).
Proof.
  unfold synchronizeAndReserve. eapply browser_try; [by apply browser_quiet|].
  intros sandbox tr1 _ _. destruct (Sandbox_Validate sandbox); [|done]. do 3 (case_decide; [done|]).
  eapply browser_try; [by apply browser_quiet|]. intros [] tr2 _ _.
  eapply follows_mono; [|apply (browser_shown _ bv_Record); [done|cbn; set_solver]]. intros [rv|] tr'; cbn; [|done]. by intros [? _].
Qed.

(** A status that is written for an open operation. *)
Lemma browser_obeys_persist ctx record status at_ tr :
  open_status status = false → good tr record → (status = StatusCancelled → removed tr record) →
  obeys (persistStatus ctx record status at_) tr
    (post (λ r tr', good tr' r ∧ (open_status (br_Status record) = true → br_Status r = status ∧ br_Allocation r = br_Allocation record))).
Proof.
  intros Hst Hg Hrem. unfold persistStatus. destruct (open_status (br_Status record)) eqn:Eo; cbn [negb]; [|done].
  destruct (Transition _ _ _ _) as [updated|] eqn:Et; [|done].
  assert (br_Status updated = status ∧ br_Allocation updated = br_Allocation record) as [Hs Ha].
  { destruct (browser_transition_Ok _ _ _ _ _ Et) as (_ & _ & _ & _ & -> & _); [intros Heq; by rewrite Heq, Hst in Eo|done]. }
  eapply browser_try; [apply (browser_shown _ (λ _, updated)); [|cbn; set_solver]|].
  - cbn. rewrite Hs. intros Hc a. rewrite Ha. by apply Hrem.
  - intros [] tr1 _ [? _]. done.
Qed.

(** Cleaning up after a record of a session that is over. *)
Lemma browser_obeys_cleanup {B} ctx r receipt (k : unit → prog (result B)) tr Q :
  known tr r → ba_Receipt <$> br_Allocation r = Some receipt → session_over tr r →
  (∀ u tr', tr ⊆ tr' → obeys (k u) tr' (post Q)) → obeys (orelse (call (ECleanup ctx receipt)) failed k) tr (post Q).
Proof. intros Hk Ha Ho Hc. eapply browser_try; [apply browser_quiet; by exists r|]. intros u tr' Hs _. by apply Hc. Qed.

Lemma browser_obeys_cleanupTerminal ctx record tr :
  good tr record → open_status (br_Status record) = false → obeys (cleanupTerminal ctx record) tr (post (λ r tr', good tr' r)).
Proof.
  intros Hg Ho. unfold cleanupTerminal. destruct (br_Allocation record) as [a|] eqn:Ea; [|done].
  apply browser_now. intros now tr1 Hs1 Hnow. apply (browser_good_mono _ tr1) in Hg; [|done]. case_decide as Hd; [done|].
  apply (browser_obeys_cleanup _ record); [apply Hg|by rewrite Ea| |].
  - destruct (decide (br_Status record = StatusFailed)); [by left|]. destruct (decide (br_Status record = StatusCancelled)); [by right; left|].
    right; right; right. split; [apply browser_settled; [apply Hg|done]|]. exists now. split; [done|]. unfold After in Hd. unfold Time in *.
    destruct (decide (now < bq_ExpiresAt (br_Request record))); [tauto|lia].
  - intros [] tr2 Hs2. cbn. by eapply browser_good_mono.
Qed.

Lemma browser_obeys_invalidate ctx record now tr :
  good tr record → open_status (br_Status record) = true → obeys (invalidate ctx record now) tr (post (λ r tr', good tr' r)).
Proof.
  intros Hg Ho. unfold invalidate. eapply browser_try; [by apply browser_obeys_persist|].
  intros updated tr1 Hs1 [Hgu Hu]. destruct (Hu Ho) as [Hst Hal]. destruct (br_Allocation record) as [a|] eqn:Ea; [|done].
  apply (browser_obeys_cleanup _ updated); [apply Hgu|by rewrite Hal|by left|]. intros [] tr2 Hs2. cbn. by eapply browser_good_mono.
Qed.

(** An observation that ends the session. *)
Lemma browser_obeys_expire ctx record now tr :
  good tr record → obeys (expire ctx record now) tr (post (λ r tr', good tr' r)).
Proof.
  intros Hg. unfold expire. destruct (br_Allocation record) as [a|] eqn:Ea.
  - eapply browser_try; [apply (browser_shown _ (λ r, r)); [done|cbn; set_solver]|]. intros r tr1 Hs1 [Hgr [Hal Hst]].
    apply (browser_obeys_cleanup _ r); [apply Hgr|by rewrite Hal|by left|]. intros [] tr2 Hs2. cbn. by eapply browser_good_mono.
  - eapply follows_mono; [|by apply browser_obeys_persist]. intros [r|] tr1; cbn; [|done]. by intros [? _].
Qed.

(** What is recorded of an observation: running only when the runtime said so. *)
Lemma browser_obeys_observation {B} ctx receipt floor answer (k : AllocationObservation → prog B) tr Q :
  Ev (EObserve ctx receipt) answer ∈ tr →
  (∀ o tr', tr ⊆ tr' → on_Receipt o = receipt → (on_State o = AllocationRunning → answer = Ok o) → obeys (k o) tr' Q) →
  obeys (o ← observation_of receipt floor answer; k o) tr Q.
Proof.
  intros Hin Hk. unfold observation_of.
  assert (Hcheck : ∀ o tr', tr ⊆ tr' → (on_State o = AllocationRunning → answer = Ok o) →
    obeys (o' ← (if decide (is_ok (AllocationObservation_Validate o) = false ∨ on_Receipt o ≠ receipt ∨ Before (on_ObservedAt o) floor)
                 then now ← monotonicNow floor; Ret (mkObservation receipt AllocationOutcomeUnknown now)
                 else Ret o); k o') tr' Q).
  { intros o tr' Hs Ho. case_decide as Hd.
    - cbn. split; [done|]. intros now _. apply Hk; [set_solver|done|done].
    - split_guards. by apply Hk. }
  destruct answer as [o|e]; [by apply Hcheck|]. cbn. split; [done|]. intros now _.
  apply Hcheck; [set_solver|]. cbn. do 2 (destruct (errors_is _ _); [done|]). done.
Qed.

Lemma browser_obeys_observe ctx record tr :
  good tr record → br_Status record = StatusRunning → obeys (observe ctx record) tr (post (λ r tr', good tr' r)).
Proof.
  intros [Hk Hv] Hst. destruct (browser_record_status record Hv) as (_ & Hrun & _). specialize (Hrun (or_introl Hst)).
  unfold allocation_running in Hrun. unfold observe. destruct (br_Allocation record) as [a|]; [|done].
  cbn [mbind prog_bind prog_bind_def call follows]. split; [done|]. intros answer _.
  eapply (browser_obeys_observation ctx); [left|]. intros o tr1 Hs1 Hrc Ho.
  eapply browser_try; [apply (browser_shown _ (λ r, r)); [|cbn; set_solver]|].
  - cbn. intros Hr. exists ctx, o. split; [|done]. rewrite Hrc, <- (Ho Hr). apply Hs1. left.
  - intros r tr2 Hs2 [Hgr [Hal Hr]]. destruct (gone r) eqn:Eg; [|done].
    apply (browser_obeys_cleanup _ r); [apply Hgr|by rewrite Hal, <- Hrc| |intros [] tr3 Hs3; cbn; by eapply browser_good_mono].
    left. rewrite Hr. unfold gone in Eg. rewrite Hal in Eg. by destruct (ba_State (evidence_of o)).
Qed.

Lemma browser_obeys_allocate ctx record tr :
  good tr record → br_Status record = StatusAccepted → obeys (allocate ctx record) tr (post (λ r tr', good tr' r)).
Proof.
  intros Hg Hst.
  assert (Hfin : ∀ status tr1, open_status status = false → status ≠ StatusCancelled → tr ⊆ tr1 →
    obeys (now ← monotonicNow (br_ObservedAt record); persistStatus ctx record status now) tr1 (post (λ r tr', good tr' r))).
  { intros status tr1 Hs Hc Hsub. apply browser_monotonicNow. intros now tr2 Hs2.
    eapply follows_mono; [|apply browser_obeys_persist; [done| |done]].
    - intros [r|] tr3; cbn; [|done]. by intros [? _].
    - eapply browser_good_mono; [|done]. by etrans. }
  unfold allocate. apply (browser_try _ _ _ (λ a tr', Ev (EGetSandboxAuthority ctx (bq_SandboxID (br_Request record))) (Ok a) ∈ tr')).
  { cbn. split; [done|]. intros [a|] _; cbn; [left|done]. }
  intros authority tr1 Hs1 Ha. case_decide as Hv; [by apply Hfin|].
  cbn [mbind prog_bind prog_bind_def call follows]. split.
  { exists record, ctx, authority. split_and!; [eapply browser_known_mono; [done|apply Hg]|done|done|done]. }
  intros [receipt|e] _; [|apply Hfin; [by destruct (knownAllocationFailure e)..|set_solver]].
  case_decide as Hrc; [apply Hfin; [done|done|set_solver]|]. split_guards.
  cbn [follows]. split; [eexists _, _; split_and!; [left|done..]|].
  intros [rv|] [Hp _]; cbn in *; [|done]. split; [apply browser_known_here; set_solver|apply Hp; set_solver].
Qed.

(** The allocation is removed before the cancellation is on record. *)
Lemma browser_obeys_finish ctx record tr :
  good tr record → br_CancelRequested record = true → obeys (finishCancellation ctx record) tr (λ _ _, True).
Proof.
  intros Hg Hc.
  assert (Hlast : ∀ status tr' (k : result BrowserRecord → Operation * option goerr), tr ⊆ tr' → open_status status = false →
    (status = StatusCancelled → removed tr' record) →
    obeys (now ← monotonicNow (br_ObservedAt record); updated ← persistStatus ctx record status now; Ret (k updated)) tr' (λ _ _, True)).
  { intros status tr' k Hs Ho Hrem. apply browser_monotonicNow. intros now tr2 Hs2.
    eapply browser_then; [apply browser_obeys_persist; [done| |]|done].
    - eapply browser_good_mono; [|done]. by etrans.
    - intros Hcan. eapply browser_removed_mono; [done|auto]. }
  unfold finishCancellation. destruct (br_Allocation record) as [a|] eqn:Ea; [|apply Hlast; [done..|]; intros _ a; by rewrite Ea].
  cbn [mbind prog_bind prog_bind_def call follows]. split.
  { exists record. split_and!; [apply Hg|by rewrite Ea|by right; right; left]. }
  intros [[]|e] _; [apply Hlast; [set_solver|done|]|by apply Hlast; [set_solver|..]].
  intros _ a'. rewrite Ea. intros [= <-]. exists ctx. left.
Qed.

Lemma browser_obeys_progress ctx record tr : good tr record → obeys (progress v ctx record) tr (post (λ r tr', good tr' r)).
Proof.
  intros Hg. unfold progress. destruct (open_status (br_Status record)) eqn:Eo; cbn [negb]; [|by apply browser_obeys_cleanupTerminal].
  apply browser_now. intros now tr1 Hs1 _. apply (browser_good_mono _ tr1) in Hg; [|done].
  case_decide; [done|]. case_decide; [by apply browser_obeys_expire|]. destruct (br_CancelRequested record) eqn:Ec.
  { eapply browser_then; [by apply browser_obeys_finish|]. intros [o [e|]] tr2 _ _; [done|apply browser_obeys_getOpen]. }
  eapply browser_then; [apply browser_obeys_reserve|]. intros [rv|e] tr2 Hs2 Hrv.
  - destruct (br_Status (bv_Record rv)) eqn:Est; try done; [by apply browser_obeys_allocate|by apply browser_obeys_observe].
  - destruct (authorityInvalid e); [|done]. apply browser_obeys_invalidate; [|done]. by eapply browser_good_mono.
Qed.

Lemma browser_obeys_commit ctx id evidence tr : obeys (CommitHandoff v ctx id evidence) tr (post (λ _ _, True)).
Proof.
  unfold CommitHandoff. eapply browser_try; [apply browser_obeys_ready|]. intros [] tr1 _ _.
  eapply browser_try; [apply browser_obeys_getOpen|]. intros record tr2 _ _.
  destruct (running_allocation record); [|done]. case_decide; [done|]. apply browser_now. intros now tr3 _ _.
  eapply browser_try; [apply browser_obeys_reserve|]. intros rv tr4 _ _.
  destruct (running_allocation (bv_Record rv)) as [receipt|] eqn:Er; [|done].
  destruct (Transition _ _ _ _) as [succeeded|] eqn:Et; [|done].
  assert (br_Status succeeded = StatusSucceeded) as Hs.
  { destruct (browser_transition_Ok _ _ _ _ _ Et) as (_ & _ & _ & _ & -> & _); [|done].
    unfold running_allocation in Er. by destruct (br_Status (bv_Record rv)). }
  eapply browser_try; [apply browser_quiet; cbn; by rewrite Hs|]. intros [] tr5 _ _. cbn. by destruct (operationProjection succeeded).
Qed.

Lemma browser_obeys_handoff ctx record tr : good tr record → obeys (completeHandoff v ctx record) tr (post (λ r tr', good tr' r)).
Proof.
  intros Hg. unfold completeHandoff. case_decide; [done|]. eapply browser_try; [by apply browser_quiet|]. intros e tr1 _ _.
  eapply browser_try; [apply browser_obeys_commit|]. intros op tr2 _ _. apply browser_obeys_getOpen.
Qed.

Lemma browser_obeys_advance ctx record tr : good tr record → obeys (advance v ctx record) tr (post (λ _ _, True)).
Proof.
  intros Hg. unfold advance. eapply browser_try; [by apply browser_obeys_progress|]. intros r tr1 _ Hgr.
  eapply browser_try; [by apply browser_obeys_handoff|]. intros r2 tr2 _ _. cbn. by destruct (operationProjection r2).
Qed.

Lemma browser_obeys_recover ctx records results tr :
  Forall (good tr) records → obeys (recover_opens v ctx records results) tr (λ _ _, True).
Proof.
  revert results tr. induction records as [|r records IH]; intros results tr Hr; [done|]. apply Forall_cons in Hr as [Hg Hr].
  assert (Hrest : ∀ results tr', tr ⊆ tr' → obeys (recover_opens v ctx records results) tr' (λ _ _, True)).
  { intros results' tr' Hs. apply IH. eapply Forall_impl; [done|]. intros r0 ?. by eapply browser_good_mono. }
  cbn. destruct (open_status (br_Status r)) eqn:Eo; cbn [negb].
  - eapply browser_orelse; [by apply browser_obeys_advance|done|auto].
  - eapply browser_orelse; [by apply browser_obeys_cleanupTerminal|done|auto].
Qed.

Lemma browser_obeys_cancel ctx id tr : obeys (BrowserVertical.Cancel v ctx id) tr (λ _ _, True).
Proof.
  unfold BrowserVertical.Cancel. eapply browser_orelse; [apply browser_obeys_ready|done|]. intros [] tr1 _ _.
  eapply browser_orelse; [apply browser_obeys_getOpen|done|]. intros record tr2 _ Hg.
  destruct (open_status (br_Status record)) eqn:Eo; cbn [negb]; [|done].
  destruct (br_CancelRequested record) eqn:Ec; [by apply browser_obeys_finish|]. apply browser_monotonicNow. intros now tr3 _.
  destruct (RequestCancellation record now) as [requested|] eqn:Er; [|done].
  destruct (browser_cancel_Ok _ _ _ Er) as (_ & _ & _ & Hs & _ & Hc).
  eapply browser_orelse; [apply (browser_shown _ (λ _, requested)); [|cbn; set_solver]|done|].
  - cbn. rewrite Hs. intros Hx. by rewrite Hx in Eo.
  - intros [] tr4 _ [Hgr _]. by apply browser_obeys_finish.
Qed.

Lemma browser_obeys_read a ctx id tr : obeys (application_read a ctx id) tr (post (λ _ _, True)).
Proof.
  unfold application_read. destruct (application_ready a ctx); [|done]. apply browser_now. intros now tr1 _ _. case_decide; [done|].
  eapply browser_try; [by apply browser_quiet|]. done.
Qed.

Lemma browser_obeys_api a : obeys (api_prog v a) [] (λ _ _, True).
Proof.
  destruct a; cbn [api_prog]; unfold discard; (eapply (browser_then _ _ _ (λ _ _, True)); [|done]).
  - eapply follows_mono; [|eapply (browser_try _ _ _ _ (λ _ _, True)); [apply browser_obeys_ready|]]; [done|]. intros [] tr1 _ _.
    apply browser_now. intros now tr2 _ _. destruct (OpenRequest_Validate _ _); [|done].
    eapply browser_try; [apply browser_obeys_reserve|]. intros rv tr3 _ Hg. by apply browser_obeys_advance.
  - unfold application_Open. destruct (application_ready a ctx); [|done]. apply browser_now. intros now tr1 _ _.
    destruct (OpenRequest_Validate _ _); [|done]. eapply follows_mono; [|eapply (browser_try _ _ _ _ (λ _ _, True)); [by apply browser_quiet|]];
      [done|]. intros rv tr2 _ _. cbn. by destruct (operationProjection _).
  - eapply follows_mono; [|eapply (browser_try _ _ _ _ (λ _ _, True)); [apply browser_obeys_ready|]]; [done|]. intros [] tr1 _ _.
    eapply browser_try; [apply browser_obeys_getOpen|]. intros r tr2 _ Hg. by apply browser_obeys_advance.
  - unfold Recover. eapply browser_orelse; [apply browser_obeys_ready|done|]. intros [] tr1 _ _.
    apply (browser_orelse _ _ _ _ (λ l tr', Forall (good tr') l)); [|done|intros l tr2 _ Hl; by apply browser_obeys_recover].
    cbn. split; [done|]. intros [l|] [Hp _]; cbn in *; [|done]. apply Forall_forall. intros r Hr. split; [by apply browser_known_here|auto].
  - apply browser_obeys_cancel.
  - eapply follows_mono; [|apply browser_obeys_commit]. done.
  - eapply follows_mono; [|eapply (browser_try _ _ _ _ (λ _ _, True)); [apply browser_obeys_read|]]; [done|].
    intros found tr1 _ _. cbn. by destruct (handoff_at _ _).
  - eapply follows_mono; [|eapply (browser_try _ _ _ _ (λ _ _, True)); [apply browser_obeys_read|]]; [done|].
    intros found tr1 _ _. cbn. by destruct (operationProjection _).
Qed.
End methods.
