(* ===== verification/BrowserGuarantees.v ===== *)
(** * Guarantees of the browser application

    What holds of every interleaving of any number of calls of the application,
    whoever crashes where: browsers are allocated under one identity, only sessions
    that are over lose their browser, and a browser whose operation was settled
    before its receipt was on record is lost. *)

From S2P Require Import Prelude Program Threads LifecycleModel BrowserModel BrowserState BrowserVertical BrowserFile BrowserConcurrency.
From stdpp Require Import base gmap strings list fin_maps relations.
From Stdlib Require Import ZArith Lia.

Local Open Scope Z_scope.

(** ** Answers and the state *)

Lemma browser_listed s r : r ∈ ListOpen s → ∃ k, Sessions s !! k = Some r.
Proof.
  unfold ListOpen. rewrite list_elem_of_fmap. intros ([k r'] & -> & Hin). rewrite sort_by_perm in Hin.
  apply elem_of_map_to_list in Hin. eauto.
Qed.

Lemma browser_observed_stored id obs s r s' :
  state_ObserveAllocation id obs s = Ok (r, s') →
  Sessions s' !! id = Some r ∧ br_Allocation r = Some obs ∧ br_Status r = observed_status (ba_State obs).
Proof.
  unfold state_ObserveAllocation, refuse. destruct (Sessions s !! id); [|done]. intros H. inv_ok H. cbn. rewrite lookup_insert_eq.
  by destruct (browser_observe_Ok _ _ _ Hstep) as (_ & _ & _ & ? & _ & ?).
Qed.

Lemma browser_attached_stored receipt s v s' :
  state_AttachAllocation receipt s = Ok (v, s') → Sessions s' !! bl_OperationID receipt = Some (bv_Record v).
Proof.
  unfold state_AttachAllocation, refuse. intros H. inv_ok H. destruct (Sessions s !! _); [|done]. inv_ok H. cbn. by rewrite lookup_insert_eq.
Qed.

(** What an answer shows is stored. *)
Lemma browser_seen_stored {X} (e : eff X) s x s' r :
  browser_wf s' → respond e s x s' → r ∈ seen (Ev e x) → Sessions s' !! bq_OperationID (br_Request r) = Some r.
Proof.
  intros Hs' Hx Hr.
  assert (Hkey : ∀ k, Sessions s' !! k = Some r → Sessions s' !! bq_OperationID (br_Request r) = Some r).
  { intros k Hk. by destruct (bw_record s' Hs' _ _ Hk) as [-> _]. }
  destruct e; cbn in Hr; try (by apply not_elem_of_nil in Hr); destruct x as [x|]; try (by apply not_elem_of_nil in Hr);
    cbn in Hx; try apply list_elem_of_singleton in Hr; try subst.
  - apply browser_write_value, browser_reserve_Ok in Hx as (_ & _ & _ & [(i & _ & ? & ->)|(_ & _ & _ & ->)]); [eauto|].
    apply (Hkey (bq_OperationID rq)). cbn. by rewrite lookup_insert_eq.
  - apply browser_read_value in Hx as [Hg ->]. unfold GetOpenAt, corrupt, refuse in Hg.
    destruct (Sessions s !! id) eqn:E; [|done]. inv_ok Hg. eauto.
  - apply browser_read_value in Hx as [[= <-] ->]. apply browser_listed in Hr as [k ?]. eauto.
  - apply browser_write_value, browser_attached_stored in Hx. eauto.
  - apply browser_write_value, browser_observed_stored in Hx as [? _]. eauto.
  - apply browser_write_value, browser_update_Ok in Hx as (current & _ & _ & _ & _ & -> & _). cbn. by rewrite lookup_insert_eq.
Qed.

Lemma browser_respond_shows {X} (e : eff X) s x s' : respond e s x s' → shows X e x.
Proof.
  intros Hx. destruct e; cbn; try done; destruct x as [x|]; try done; cbn in Hx.
  - by apply browser_write_value, browser_reserve_Ok in Hx as (_ & ? & _).
  - by apply browser_write_value, browser_observed_stored in Hx as [_ ?].
Qed.

Lemma browser_respond_wf {X} (e : eff X) s x s' : browser_wf s → respond e s x s' → browser_wf s' ∧ plausible X e x.
Proof.
  intros Hs Hx. assert (Hs' : browser_wf s').
  { destruct (browser_respond_state e s x s' Hx) as [-> | (op & _ & Hop)]; [done|by eapply browser_next_wf]. }
  split; [done|]. split; [|by apply (browser_respond_shows e s x s')]. intros r Hin.
  pose proof (browser_seen_stored e s x s' r Hs' Hx Hin) as Hst. by destruct (bw_record s' Hs' _ _ Hst) as (_ & ? & _).
Qed.

Lemma browser_respond_evolves {X} (e : eff X) s x s' : respond e s x s' → state_evolves s s'.
Proof.
  intros Hx. destruct (browser_respond_state e s x s' Hx) as [-> | (op & _ & Hop)]; [apply browser_state_refl|by eapply browser_next_evolves].
Qed.

(** Where the allocations of the next state come from, and its cancellations. *)
Lemma browser_next_receipt op s s' k r' e' :
  next_state op s = Ok s' → Sessions s' !! k = Some r' → br_Allocation r' = Some e' →
  (∃ r e, Sessions s !! k = Some r ∧ br_Allocation r = Some e ∧ ba_Receipt e = ba_Receipt e') ∨
  op = OpAttachAllocation (ba_Receipt e').
Proof.
  intros H Hk Ha. destruct op; cbn in H; apply bind_Ok in H as ([v s1] & H & [= <-]).
  - unfold SynchronizeSandboxAuthority, refuse in H. inv_ok H. destruct (Authorities s !! _); crack H; left; eauto 10.
  - apply browser_reserve_Ok in H as (_ & _ & _ & [(i & _ & _ & ->)|(_ & _ & Hn & ->)]); [left; eauto 10|].
    cbn in Hk. ins_inv Hk; [|left; eauto 10]. apply browser_new_Ok in Hn as [Hn _]. by rewrite Hn in Ha.
  - unfold state_AttachAllocation, refuse in H. inv_ok H. destruct (Sessions s !! _) as [r0|] eqn:Er; [|done]. inv_ok H.
    cbn in Hk. ins_inv Hk; [|left; eauto 10].
    destruct (browser_attach_Ok _ _ _ Hstep1) as (_ & _ & _ & [[-> _]|(_ & _ & _ & Hal)]); [left; eauto 10|right].
    rewrite Ha in Hal. by injection Hal as ->.
  - unfold state_ObserveAllocation, refuse in H. destruct (Sessions s !! _) as [r0|] eqn:Er; [|done]. inv_ok H.
    cbn in Hk. ins_inv Hk; [|left; eauto 10]. destruct (browser_observe_Ok _ _ _ Hstep) as (_ & _ & _ & _ & Hr0 & Hal).
    apply fmap_Some in Hr0 as (e0 & He0 & Hrc). left. exists r0, e0. split_and!; congruence.
  - apply browser_update_Ok in H as (current & Hc & _ & _ & Hal & -> & _). cbn in Hk. ins_inv Hk; [|left; eauto 10].
    left. exists current, e'. split_and!; congruence.
Qed.

Lemma browser_next_cancelled op s s' k r :
  next_state op s = Ok s' → Sessions s' !! k = Some r → br_Status r = StatusCancelled →
  Sessions s !! k = Some r ∨ ∃ expected now, op = OpUpdateOpen r expected now.
Proof.
  intros H Hk Hst. destruct op; cbn in H; apply bind_Ok in H as ([v s1] & H & [= <-]).
  - unfold SynchronizeSandboxAuthority, refuse in H. inv_ok H. destruct (Authorities s !! _); crack H; by left.
  - apply browser_reserve_Ok in H as (_ & _ & _ & [(i & _ & _ & ->)|(_ & _ & Hn & ->)]); [by left|].
    cbn in Hk. ins_inv Hk; [|by left]. apply browser_new_Ok in Hn as [Hn _]. by rewrite Hn in Hst.
  - unfold state_AttachAllocation, refuse in H. inv_ok H. destruct (Sessions s !! _) as [r0|] eqn:Er; [|done]. inv_ok H.
    cbn in Hk. ins_inv Hk; [|by left]. destruct (browser_attach_Ok _ _ _ Hstep1) as (_ & _ & _ & [[-> _]|(_ & _ & Hr & _)]); [by left|].
    congruence.
  - unfold state_ObserveAllocation, refuse in H. destruct (Sessions s !! _) as [r0|] eqn:Er; [|done]. inv_ok H.
    cbn in Hk. ins_inv Hk; [|by left]. destruct (browser_observe_Ok _ _ _ Hstep) as (_ & _ & _ & Hr & _ & _).
    rewrite Hst in Hr. by destruct (ba_State observation).
  - apply browser_update_Ok in H as (current & _ & _ & _ & _ & -> & _). cbn in Hk. ins_inv Hk; [right; eauto|by left].
Qed.

(** ** The ledger *)

(** The authority of a sandbox that was read. *)
Definition authority_shown (ev : event eff) : option (string * SandboxAuthority) :=
  let '@Ev _ X e x := ev in
  match e in eff X return X → option (string * SandboxAuthority) with
  | EGetSandboxAuthority _ id => λ x, match x with Ok a => Some (id, a) | Err _ => None end
  | _ => λ _, None
  end x.

(** What the calls made so far say about the state. *)
Record browser_ledger (evs : list (event eff)) (s : State) : Prop := mkBrowserLedger {
  bg_seen r : known evs r → ∃ r', Sessions s !! bq_OperationID (br_Request r) = Some r' ∧ record_evolves r r';
  bg_policy ev id a : ev ∈ evs → authority_shown ev = Some (id, a) →
    ∃ a', Authorities s !! id = Some a' ∧ bs_NetworkPolicyReference a' = bs_NetworkPolicyReference a;
  bg_receipt k r e : Sessions s !! k = Some r → br_Allocation r = Some e → ∃ ctx x, Ev (EAttachAllocation ctx (ba_Receipt e)) x ∈ evs;
  bg_cancelled k r : Sessions s !! k = Some r → br_Status r = StatusCancelled → ∃ ctx e now x, Ev (EUpdateOpenAt ctx r e now) x ∈ evs;
}.

#[export] Instance browser_ledger_proper : Proper ((≡ₚ) ==> (=) ==> impl) browser_ledger.
Proof. intros evs evs' Hp s _ <- [H1 H2 H3 H4]. split; unfold known in *; setoid_rewrite <- Hp; done. Qed.

Lemma browser_ledger_init : browser_ledger [] NewState.
Proof. split; cbn; intros *; rewrite ?lookup_empty; unfold known; set_solver. Qed.

(** The authority an answer shows is on record. *)
Lemma browser_authority_stored {X} (e : eff X) s x s' id a :
  respond e s x s' → authority_shown (Ev e x) = Some (id, a) → Authorities s' !! id = Some a.
Proof.
  intros Hx He. destruct e; try done. cbn in Hx, He. destruct x as [x|]; [|done]. injection He as -> ->.
  apply browser_read_value in Hx as [Hg ->]. unfold GetSandboxAuthority, refuse in Hg. destruct (Authorities s !! id); by simplify_eq.
Qed.

Lemma browser_ledger_step {X} (e : eff X) evs s x s' :
  browser_wf s → browser_ledger evs s → respond e s x s' → browser_ledger (Ev e x :: evs) s'.
Proof.
  intros Hs [H1 H2 H3 H4] Hx. destruct (browser_respond_wf e s x s' Hs Hx) as [Hs' _].
  destruct (browser_respond_evolves e s x s' Hx) as (Hses & _ & Hauth). pose proof (browser_respond_state e s x s' Hx) as Hop.
  split.
  - intros r (ev & [->|Hev]%elem_of_cons & Hr).
    + exists r. split; [by apply (browser_seen_stored e s x s')|apply browser_evolves_refl].
    + destruct (H1 r) as (r1 & Hr1 & He1); [by exists ev|]. destruct (Hses _ _ Hr1) as (r2 & ? & ?). eauto using browser_evolves_trans.
  - intros ev id a [->|Hev]%elem_of_cons Hsh.
    + exists a. split; [by eapply browser_authority_stored|done].
    + destruct (H2 ev id a Hev Hsh) as (a1 & Ha1 & Hp1). destruct (Hauth _ _ Ha1) as (a2 & Ha2 & _ & Hp2 & _). exists a2. split; [done|congruence].
  - intros k r a Hk Ha. assert (Hold : (∃ r0 a0, Sessions s !! k = Some r0 ∧ br_Allocation r0 = Some a0 ∧ ba_Receipt a0 = ba_Receipt a) ∨
      op_of e = Some (OpAttachAllocation (ba_Receipt a))).
    { destruct Hop as [-> | (op & Hop & Hn)]; [left; eauto 10|].
      destruct (browser_next_receipt op s s' k r a Hn Hk Ha) as [?| ->]; [by left|by right]. }
    destruct Hold as [(r0 & a0 & Hr0 & Ha0 & <-)|He]; [destruct (H3 k r0 a0 Hr0 Ha0) as (ctx & y & ?); exists ctx, y; by right|].
    destruct e; cbn in He; try done. injection He as ->. eexists ctx, x. left.
  - intros k r Hk Hr. assert (Hold : Sessions s !! k = Some r ∨ ∃ ex now, op_of e = Some (OpUpdateOpen r ex now)).
    { destruct Hop as [-> | (op & Hop & Hn)]; [by left|].
      destruct (browser_next_cancelled op s s' k r Hn Hk Hr) as [?|(ex & now & ->)]; [by left|right; eauto]. }
    destruct Hold as [Hold|(ex & now & He)]; [destruct (H4 k r Hold Hr) as (ctx & ex & now & y & ?); exists ctx, ex, now, y; by right|].
    destruct e; cbn in He; try done. injection He as -> -> ->. eexists ctx, _, _, x. left.
Qed.

Lemma browser_pool_obeys s ts :
  pool_run s ts → browser_wf s ∧ ∀ th, th ∈ ts → lawful rule (th_trace th) ∧ obeys (th_prog th) (th_trace th) (λ _ _, True).
Proof.
  intros Hrun. eapply pool_lawful; [| |apply browser_wf_init|exact Hrun].
  - intros. by eapply browser_respond_wf.
  - intros p (v & a & ->). apply browser_obeys_api.
Qed.

Lemma browser_pool_ledger s ts : pool_run s ts → browser_ledger (events ts) s.
Proof.
  apply (pool_history (@respond) spawn rule plausible browser_wf browser_ledger); [..|apply browser_wf_init|apply browser_ledger_init].
  - intros. by eapply browser_ledger_proper.
  - intros. by eapply browser_ledger_step.
  - intros X e tr s0 x s1 _. apply browser_respond_wf.
  - intros p (v & a & ->). apply browser_obeys_api.
Qed.

(** What the rule said of a call, over the calls of its thread before it. *)
Lemma browser_event_rule s ts ev : pool_run s ts → ev ∈ events ts → ∃ tr, tr ⊆ events ts ∧ event_rule rule tr ev.
Proof.
  intros Hrun (th & Hev & Hth)%in_events. destruct (browser_pool_obeys s ts Hrun) as [_ Hts].
  destruct (Hts th Hth) as [Hl _]. destruct (lawful_event _ _ _ Hl Hev) as (tr & Hsuf & ?). exists tr. split; [|done].
  etrans; [|by apply trace_events]. destruct Hsuf as [pre ->]. set_solver.
Qed.

(** ** Sample runs *)

Module BrowserRuns.
Definition policy : string := "policy-1".
Definition sandbox : Sandbox :=
  mkSandbox "box" "tenant" "order" "workspace" "rev" "sandbox-runtime-browser-v1" (mkNetworkPolicy NetworkRestricted policy true) "slot/main"
    DesiredReady ObservedReady 1 1 1000 1 1.
Definition digest : string := "sha256:0123456789abcdef0123456789abcdef0123456789abcdef0123456789abcdef".
Definition request : OpenRequest := mkOpenRequest "box" "rev" "op" "try" 7 "key" digest 500 1 "bs" CapabilityProfileID 400.

(** A runtime that allocates one browser per request and reports it as running. *)
Definition issue (a : Allocation) : AllocationReceipt :=
  let q := an_Request a in
  mkReceipt "ref:browser/0123456789abcdef0123456789abcdef" (aq_SandboxID q) (aq_BrowserSessionID q) (aq_OperationID q) (aq_AttemptID q)
    (aq_FencingToken q) (aq_ExpectedGeneration q) 1 (an_AllocatedAt a) (aq_ExpiresAt q).
Definition runtime : Runtime :=
  mkRuntime (λ _, Ok sandbox) (λ a, Ok (issue a)) (λ r, Ok (mkObservation r AllocationRunning 50)) (λ _, Ok ())
    (λ _, Ok (mkEndpointEvidence "ref:browser-session:a" 1)).
Definition vertical : Vertical := mkVertical true true true (mkBrowserProfile "sandbox-runtime-browser-v1" CapabilityProfileID) true false.
Definition asked : Allocation :=
  mkAllocation (mkAllocationRequest "box" "bs" "op" "try" 7 1 digest policy 400) 40.

(** A browser is opened, the call is repeated, and the operation is cancelled. *)
Definition world : World := mkWorld NewRepository [40]%positive [].
Definition calls : list browser_api := [ApiOpen CtxCaller request; ApiOpen CtxCaller request; ApiCancel CtxCaller "op"; ApiRecover CtxCaller].
Definition final : list (thread eff) * World := pool_of (@handle runtime) (api_prog vertical <$> calls) world [].

Lemma browser_final_run : pool_run (abs final.2) final.1.
Proof.
  apply (pool_sequence (@handle runtime) (@respond) spawn abs (λ X e w, browser_handle_responds runtime e w) _ world []).
  apply Forall_fmap, Forall_forall. intros a _. by exists vertical, a.
Qed.

(** The process stops after the runtime returned the receipt and before it is on
    record; it is started again after the deadline of the operation. *)
Definition until_attach (X : Type) (e : eff X) (w : World) : bool := match e with EAttachAllocation _ _ => false | _ => true end.
Definition crashed : list (thread eff) * World :=
  pool_enabled (@handle runtime) until_attach [api_prog vertical (ApiOpen CtxCaller request)] world [].
Definition restarted : World := mkWorld (w_mem crashed.2) [600]%positive [].
Definition recovered : list (thread eff) * World :=
  pool_of (@handle runtime) [api_prog vertical (ApiRecover CtxCaller)] restarted crashed.1.

Lemma browser_crashed_run : pool_run (abs recovered.2) recovered.1.
Proof.
  assert (Hspawn : ∀ a, spawn (api_prog vertical a)) by (intros a; by exists vertical, a).
  unfold pool_run. etransitivity.
  - apply (pool_sequence_enabled (@handle runtime) until_attach (@respond) spawn abs (λ X e w _, browser_handle_responds runtime e w)
             [api_prog vertical (ApiOpen CtxCaller request)] world []). by constructor.
  - apply (pool_sequence (@handle runtime) (@respond) spawn abs (λ X e w, browser_handle_responds runtime e w) _ restarted crashed.1).
    by constructor.
Qed.
End BrowserRuns.

(** ** The guarantees *)

(** The receipt on record is that of the operation. *)
Lemma browser_record_receipt r e :
  Record_Validate r = Ok () → br_Allocation r = Some e → bl_OperationID (ba_Receipt e) = bq_OperationID (br_Request r).
Proof.
  unfold Record_Validate, refuse. intros H He. crack H. rewrite He in *. crack Hstep.
  match goal with K : AllocationEvidence_Validate _ _ = Ok () |- _ => rename K into Hv end.
  unfold AllocationEvidence_Validate, refuse in Hv. crack Hv.
  match goal with K : matchesRequest _ _ |- _ => by destruct K as (_ & _ & ? & _) end.
Qed.

(** C16 (safety): a browser is allocated under one identity, and what is on record is
    what was issued.  Over every interleaving of concurrent, repeated and crashed
    calls of the browser application, whatever the runtime, the lifecycle and the
    clock answer, each request for a browser carries exactly the identity of the
    operation on record, the time it was accepted and the network policy its
    sandbox has on record, so that any two requests for one operation are the same
    one to the runtime; and the receipt on record was returned by the runtime for
    this request. *)
Theorem browser_allocations_share_identity s ts :
  pool_run s ts →
  (∀ ctx a x, Ev (EAllocate ctx a) x ∈ events ts →
     ∃ r authority, Sessions s !! aq_OperationID (an_Request a) = Some r ∧ Authorities s !! bq_SandboxID (br_Request r) = Some authority ∧
       a = allocation_of r (bs_NetworkPolicyReference authority)) ∧
  (∀ k r e, Sessions s !! k = Some r → br_Allocation r = Some e →
     ∃ ctx a, Ev (EAllocate ctx a) (Ok (ba_Receipt e)) ∈ events ts ∧ aq_OperationID (an_Request a) = k ∧
       bl_AllocatedAt (ba_Receipt e) = br_AcceptedAt r).
Proof.
  intros Hrun. pose proof (browser_pool_ledger s ts Hrun) as Hl. destruct (browser_pool_obeys s ts Hrun) as [Hs _].
  assert (Hid : ∀ ctx a x, Ev (EAllocate ctx a) x ∈ events ts →
     ∃ r authority, Sessions s !! aq_OperationID (an_Request a) = Some r ∧ Authorities s !! bq_SandboxID (br_Request r) = Some authority ∧
       a = allocation_of r (bs_NetworkPolicyReference authority)).
  { intros ctx a x Hev. destruct (browser_event_rule s ts _ Hrun Hev) as (tr & Hsub & r & ctx' & authority & Hk & _ & Hau & ->).
    apply (browser_known_mono _ _ _ Hsub) in Hk. destruct (bg_seen _ _ Hl r Hk) as (r' & Hr' & Hq & Ht & _).
    destruct (bg_policy _ _ Hl _ _ _ (Hsub _ Hau) eq_refl) as (a' & Ha' & Hp). exists r', a'.
    rewrite Hq. split_and!; [done|done|]. unfold allocation_of. by rewrite Hq, Ht, Hp. }
  split; [done|]. intros k r e Hk He. destruct (bg_receipt _ _ Hl k r e Hk He) as (ctx & x & Hev).
  destruct (browser_event_rule s ts _ Hrun Hev) as (tr & Hsub & ctx' & a & Hin & Hm & Ht). apply Hsub in Hin. exists ctx', a.
  destruct (Hid _ _ _ Hin) as (r' & authority & Hr' & _ & Ha). destruct (bw_record s Hs _ _ Hk) as (Hkey & Hv & _).
  destruct Hm as (_ & _ & Hop & _). pose proof (browser_record_receipt r e Hv He) as Hrc.
  assert (aq_OperationID (an_Request a) = k) as Hak by congruence. rewrite Hak in Hr'. simplify_eq.
  split_and!; [done|done|by rewrite Ht].
Qed.

Lemma browser_allocations_share_identity_witness :
  (∃ ctx r, Ev (EAllocate ctx BrowserRuns.asked) (Ok (BrowserRuns.issue BrowserRuns.asked)) ∈ events BrowserRuns.final.1 ∧
     Sessions (abs BrowserRuns.final.2) !! "op" = Some r ∧ BrowserRuns.asked = allocation_of r BrowserRuns.policy) ∧
  ∃ r e ctx a, Sessions (abs BrowserRuns.final.2) !! "op" = Some r ∧ br_Allocation r = Some e ∧
    Ev (EAllocate ctx a) (Ok (ba_Receipt e)) ∈ events BrowserRuns.final.1 ∧ aq_OperationID (an_Request a) = "op".
Proof.
  destruct (browser_allocations_share_identity _ _ BrowserRuns.browser_final_run) as [H1 H2]. split.
  - assert (Hev : Ev (EAllocate (CtxWithDeadline CtxCaller 500) BrowserRuns.asked) (Ok (BrowserRuns.issue BrowserRuns.asked))
      ∈ events BrowserRuns.final.1) by (vm_compute; repeat first [left|right]).
    destruct (H1 _ _ _ Hev) as (r & authority & Hr & Ha & Hal). exists (CtxWithDeadline CtxCaller 500), r.
    split; [exact Hev|]. split; [exact Hr|]. rewrite Hal. f_equal. vm_compute in Hr. injection Hr as <-. vm_compute in Ha. injection Ha as <-. reflexivity.
  - destruct (Sessions (abs BrowserRuns.final.2) !! "op") as [r|] eqn:E; [|vm_compute in E; discriminate].
    destruct (br_Allocation r) as [e|] eqn:Ee; [|vm_compute in E; injection E as <-; discriminate Ee].
    destruct (H2 "op" r e E Ee) as (ctx & a & H3 & H4 & _). exists r, e, ctx, a. exact (conj eq_refl (conj Ee (conj H3 H4))).
Defined.

(** C17 (safety): no live browser is removed, and none survives its cancellation.
    Every removal of a browser is of the receipt on record of an operation that
    failed or was cancelled, whose cancellation is requested, or that is settled with
    a clock reading past its expiry; and when an operation is on record as cancelled, the
    runtime has confirmed the removal of its browser. *)
Theorem browser_cleanup_is_justified s ts :
  pool_run s ts →
  (∀ ctx receipt x, Ev (ECleanup ctx receipt) x ∈ events ts →
     ∃ r, Sessions s !! bl_OperationID receipt = Some r ∧ ba_Receipt <$> br_Allocation r = Some receipt ∧ session_over (events ts) r) ∧
  (∀ k r a, Sessions s !! k = Some r → br_Status r = StatusCancelled → br_Allocation r = Some a →
     ∃ ctx, Ev (ECleanup ctx (ba_Receipt a)) (Ok ()) ∈ events ts).
Proof.
  intros Hrun. pose proof (browser_pool_ledger s ts Hrun) as Hl. destruct (browser_pool_obeys s ts Hrun) as [Hs _]. split.
  - intros ctx receipt x Hev. destruct (browser_event_rule s ts _ Hrun Hev) as (tr & Hsub & r & Hk & Hrc & Hover).
    apply (browser_known_mono _ _ _ Hsub) in Hk. apply (browser_over_mono _ _ _ Hsub) in Hover.
    destruct (bg_seen _ _ Hl r Hk) as (r' & Hr' & Hev'). apply fmap_Some in Hrc as (e & He & ->).
    pose proof Hev' as (Hq & _ & Hfin & _ & Hcan & Hal). destruct (Hal e He) as (e' & He' & Hrc).
    destruct (bw_record s Hs _ _ Hr') as (_ & Hv & _). exists r'. rewrite <- Hrc, (browser_record_receipt r' e' Hv He'), Hq, He'. cbn.
    split_and!; [done|done|]. destruct Hover as [Hx|[Hx|[Hx|[Ht Hx]]]].
    + rewrite Hfin by (by rewrite Hx). by left.
    + rewrite Hfin by (by rewrite Hx). by right; left.
    + right; right; left. by apply Hcan.
    + rewrite Hfin by done. by right; right; right.
  - intros k r a Hk Hst Ha. destruct (bg_cancelled _ _ Hl k r Hk Hst) as (ctx & e & now & x & Hev).
    destruct (browser_event_rule s ts _ Hrun Hev) as (tr & Hsub & Hrm). destruct (Hrm Hst a Ha) as [ctx' ?]. exists ctx'. auto.
Qed.

Lemma browser_cleanup_is_justified_witness :
  ∃ ctx r, Ev (ECleanup ctx (BrowserRuns.issue BrowserRuns.asked)) (Ok ()) ∈ events BrowserRuns.final.1 ∧
    Sessions (abs BrowserRuns.final.2) !! "op" = Some r ∧ br_Status r = StatusCancelled ∧ session_over (events BrowserRuns.final.1) r.
Proof.
  destruct (browser_cleanup_is_justified _ _ BrowserRuns.browser_final_run) as [H1 H2].
  destruct (Sessions (abs BrowserRuns.final.2) !! "op") as [r|] eqn:E; [|vm_compute in E; discriminate].
  assert (br_Status r = StatusCancelled ∧ br_Allocation r = Some (mkEvidence (BrowserRuns.issue BrowserRuns.asked) AllocationRunning 50))
    as [Hst Ha] by (vm_compute in E; injection E as <-; split; reflexivity).
  destruct (H2 "op" r _ E Hst Ha) as [ctx Hev]. destruct (H1 _ _ _ Hev) as (r' & Hr' & _ & Hover).
  exists ctx, r. split; [exact Hev|]. split; [reflexivity|]. split; [exact Hst|].
  change (Sessions (abs BrowserRuns.final.2) !! "op" = Some r') in Hr'. rewrite E in Hr'. injection Hr' as <-. exact Hover.
Defined.

(** C39 (error): a browser whose operation is settled before its receipt is on record
    is lost.  Once an operation is settled without an allocation, although the
    runtime has allocated a browser for it, no call of the application, in any
    continuation, ever asks the runtime to remove that browser: recovery, cancelling
    and repeating the request all leave it running. *)
Theorem lost_browser_is_never_removed s ts ctx a receipt r :
  pool_run s ts → Ev (EAllocate ctx a) (Ok receipt) ∈ events ts → Matches receipt (an_Request a) →
  Sessions s !! aq_OperationID (an_Request a) = Some r → Status_terminal (br_Status r) = true → br_Allocation r = None →
  ∀ s' ts', rtc (pool_step (@respond) spawn) (s, ts) (s', ts') →
  Sessions s' !! aq_OperationID (an_Request a) = Some r ∧ ∀ ctx' x, Ev (ECleanup ctx' receipt) x ∉ events ts'.
Proof.
  intros Hrun _ (_ & _ & Hop & _) Hr Hst Hnone s' ts' Hmore.
  assert (Hrun' : pool_run s' ts') by (unfold pool_run in *; by etrans).
  assert (Hr' : Sessions s' !! aq_OperationID (an_Request a) = Some r).
  { revert Hr. generalize dependent Hrun'. clear Hrun. change s with (s, ts).1. change s' with (s', ts').1.
    intros _. revert Hmore. generalize (s, ts), (s', ts'). induction 1 as [|σ1 σ2 σ3 Hstep _ IH]; [done|].
    intros Hr. apply IH. destruct Hstep as [s0 ts0 p _|s0 ts1 tr X e k ts2 x s1 Hx]; cbn in *; [done|].
    destruct (browser_respond_evolves e s0 x s1 Hx) as (Hses & _). destruct (Hses _ _ Hr) as (r1 & Hr1 & _ & _ & Hfin & _).
    by rewrite (Hfin Hst) in Hr1. }
  split; [done|]. intros ctx' x Hev. pose proof (browser_pool_ledger s' ts' Hrun') as Hl.
  destruct (browser_event_rule s' ts' _ Hrun' Hev) as (tr & Hsub & r0 & Hk & Hrc & _).
  apply (browser_known_mono _ _ _ Hsub) in Hk. destruct (bg_seen _ _ Hl r0 Hk) as (r1 & Hr1 & _ & _ & _ & _ & _ & Hal).
  apply fmap_Some in Hrc as (e & He & ->). destruct (Hal e He) as (e' & He' & Hrc).
  destruct (browser_pool_obeys s' ts' Hrun') as [Hs _]. destruct (bw_record s' Hs _ _ Hr1) as (Hkey & Hv & _).
  pose proof (browser_record_receipt r1 e' Hv He') as Hid.
  assert (bq_OperationID (br_Request r0) = aq_OperationID (an_Request a)) as Hsame by congruence.
  rewrite Hsame in Hr1. simplify_eq.
Qed.

Lemma lost_browser_is_never_removed_witness :
  ∃ r, Sessions (abs BrowserRuns.recovered.2) !! "op" = Some r ∧ br_Status r = StatusFailed ∧
    ∀ s' ts', rtc (pool_step (@respond) spawn) (abs BrowserRuns.recovered.2, BrowserRuns.recovered.1) (s', ts') →
    ∀ ctx x, Ev (ECleanup ctx (BrowserRuns.issue BrowserRuns.asked)) x ∉ events ts'.
Proof.
  destruct (Sessions (abs BrowserRuns.recovered.2) !! "op") as [r|] eqn:E; [|vm_compute in E; discriminate].
  assert (br_Status r = StatusFailed ∧ br_Allocation r = None) as [Hst Ha] by (vm_compute in E; injection E as <-; split; reflexivity).
  assert (Hev : Ev (EAllocate (CtxWithDeadline CtxCaller 500) BrowserRuns.asked) (Ok (BrowserRuns.issue BrowserRuns.asked))
    ∈ events BrowserRuns.recovered.1) by (vm_compute; repeat first [left|right]).
  exists r. split; [reflexivity|]. split; [exact Hst|]. intros s' ts' Hmore.
  refine (proj2 (lost_browser_is_never_removed _ _ _ _ _ r BrowserRuns.browser_crashed_run Hev _ E _ Ha s' ts' Hmore)).
  - repeat split.
  - rewrite Hst. reflexivity.
Defined.
