(* ===== verification/UsageApplication.v ===== *)
(** * Usage of executions: [provider/usage/application], [provider/usage/port.go]

    The collector derives evidence from a terminal result of the exec coordinator,
    whose result observer it is, and stores it once; the reader serves stored
    evidence and derives what is missing from the exec application; the
    aggregator asks several readers.  SHA-256 and the JSON encoding of evidence are
    parameters. *)

From S2P Require Import Prelude Program ExecModel Threads ExecPorts Operations ExecVertical UsageStore.
From stdpp Require Import base gmap strings list fin_maps relations.
From Stdlib Require Import Ascii ZArith Lia.

Local Open Scope Z_scope.

(** ** Ports *)

(** [usage.Store], the collector's clock and the caller's context. *)
Inductive seff : Type → Type :=
  | SNow : seff Time
  | SCtxErr (ctx : Context) : seff (option goerr)
  | SPut (ctx : Context) (e : Evidence) : seff (result unit)
  | SGetEvidence (ctx : Context) (operationID : string) (now : Time) : seff (result Evidence).

(** ** Derived evidence *)

(** [time.Duration.Milliseconds] *)
Definition Milliseconds (d : Z) : Z := Z.quot d 1000000.

Definition with_digest (e : Evidence) (d : string) : Evidence :=
  mkUsageEvidence (ue_EvidenceID e) (ue_SandboxID e) (ue_OperationID e) (ue_AttemptID e) (ue_FencingToken e) (ue_Entries e)
    (ue_ReconciliationStatus e) (ue_ObservedAt e) (ue_RetainedUntil e) d.

Section derived.
Context (sha256 : string → string) (evidence_json : Evidence → string).

Definition evidenceKey (operationID attemptID : string) : string :=
  hex_encode (sha256 (operationID +:+ String NUL attemptID)).

Definition digestEvidence (e : Evidence) : string := "sha256:" +:+ hex_encode (sha256 (evidence_json (with_digest e ""))).

(** Results that do not prove that anything ran. *)
Definition unmetered (r : Result) : Prop :=
  r_Status r = ResultOutcomeUnknown ∨ (r_Status r = ResultFailed ∧ r_ExitCode r = None ∧ r_Signal r = "").

#[export] Instance unmetered_dec r : Decision (unmetered r).
Proof. unfold unmetered. apply _. Defined.

(** The evidence of a result; the clock does not show in it. *)
Definition evidence_of (r : Result) : Evidence :=
  let key := evidenceKey (r_OperationID r) (r_AttemptID r) in
  let reference := "ref:usage/" +:+ key in
  let entry id meter quantity unit source suffix :=
    mkEntry (id +:+ key) (r_SandboxID r) (r_OperationID r) meter quantity unit source (reference +:+ suffix) (r_CompletedAt r) in
  let evidence :=
    mkUsageEvidence ("usage-" +:+ key) (r_SandboxID r) (r_OperationID r) (r_AttemptID r) (r_FencingToken r)
      [entry "wall-" MeterWallTime (Milliseconds (Sub (r_CompletedAt r) (r_StartedAt r))) "milliseconds" SourceRuntime "/wall";
       entry "count-" MeterExecCount 1 "count" SourceReconciled "/count"]
      ReconciliationPartial (r_CompletedAt r) (r_RetainedUntil r) "" in
  with_digest evidence (digestEvidence evidence).

(** ** The collector *)

(** Which of its ports a collector has. *)
Record ResultCollector := mkResultCollector { rl_store : bool; rl_clock : bool }.

Definition NewResultCollector (store clock : bool) : result ResultCollector :=
  if decide (store = false ∨ clock = false) then Err [ErrEvidenceUnavailable] else Ok (mkResultCollector store clock).

(** What follows for a result that was metered. *)
Definition collect_evidence (ctx : Context) (r : Result) : Program.prog seff (result unit) :=
  now ← call SNow;
  if decide (¬ Before now (r_RetainedUntil r)) then Ret (Ok ()) else
  let evidence := evidence_of r in
  match Evidence_Validate evidence (r_CompletedAt r) with
  | Err e => Ret (Err (ErrEvidenceUnavailable :: e))
  | Ok _ => call (SPut ctx evidence)
  end.

(** A nil collector is [None]. *)
Definition ObserveResult (c : option ResultCollector) (ctx : Context) (r : Result) : Program.prog seff (result unit) :=
  match ctx with
  | CtxNil => Ret (Err [Canceled : sentinel])
  | _ =>
      match c with
      | Some (mkResultCollector true true) =>
          match Result_Validate r with
          | Err e => Ret (Err (ErrEvidenceUnavailable :: e))
          | Ok _ =>
              if decide (unmetered r) then Ret (Ok ()) else collect_evidence ctx r
          end
      | _ => Ret (Err [ErrEvidenceUnavailable])
      end
  end.

(** ** The reader

    [readOperation] and [getResult] are those of the exec application. *)

Section reader.
Context {F : Type → Type} (store : ∀ X, seff X → F X).
Context (readOperation : Context → string → Program.prog F (result View)) (getResult : Context → string → Program.prog F (result Result)).

Record UsageReader := mkUsageReader { ur_store : bool; ur_exec : bool; ur_collector : option ResultCollector }.

Definition NewUsageReader (has_store has_exec : bool) (collector : option ResultCollector) : result UsageReader :=
  if decide (has_store = false ∨ has_exec = false ∨ collector = None) then Err [ErrEvidenceUnavailable]
  else Ok (mkUsageReader has_store has_exec collector).

Definition unavailable {A} (e : goerr) : Program.prog F (result A) := Ret (Err (ErrEvidenceUnavailable :: e)).

(** What the reader does when nothing is stored. *)
Definition derive_evidence (c : option ResultCollector) (ctx : Context) (operationID : string) (now : Time)
    : Program.prog F (result Evidence) :=
  view ← readOperation ctx operationID;
  match view with
  | Err e => if errors_is e Operations.ErrNotFound then Ret (Err [ErrEvidenceNotFound]) else unavailable e
  | Ok view =>
      if decide (vw_Status view = ViewAccepted ∨ vw_Status view = ViewRunning) then Ret (Err [ErrEvidenceUnavailable]) else
      orelse (getResult ctx operationID) unavailable (λ r,
      orelse (embed store (ObserveResult c ctx r)) unavailable (λ _,
      evidence ← call (store _ (SGetEvidence ctx operationID now));
      match evidence with
      | Err e => Ret (Err (if errors_is e ErrEvidenceNotFound then [ErrEvidenceUnavailable] else e))
      | Ok e => Ret (Ok e)
      end))
  end.

(** A nil reader is [None]. *)
Definition reader_GetEvidence (r : option UsageReader) (ctx : Context) (operationID : string) (now : Time)
    : Program.prog F (result Evidence) :=
  match ctx with
  | CtxNil => Ret (Err [Canceled : sentinel])
  | _ =>
      match r with
      | Some (mkUsageReader true true (Some c)) =>
          if decide (IsZero now) then Ret (Err [ErrEvidenceUnavailable]) else
          evidence ← call (store _ (SGetEvidence ctx operationID now));
          match evidence with
          | Ok e => Ret (Ok e)
          | Err e =>
              if errors_is e ErrEvidenceExpired then Ret (Err e) else
              if negb (errors_is e ErrEvidenceNotFound) then unavailable e else
              derive_evidence (Some c) ctx operationID now
          end
      | _ => Ret (Err [ErrEvidenceUnavailable])
      end
  end.
End reader.

(** ** The aggregator of [provider/usage/port.go] *)

Section aggregator.
Context {F : Type → Type}.

Definition EvidenceReader : Type := string → Time → Program.prog F (result Evidence).

Definition NewUsageAggregator (readers : list (option EvidenceReader)) : result (list EvidenceReader) :=
  if decide (readers = []) then Err [ErrEvidenceUnavailable] else
  match mapM id readers with Some readers => Ok readers | None => Err [ErrEvidenceUnavailable] end.

Fixpoint read_sources (operationID : string) (now : Time) (readers : list EvidenceReader) (found : option Evidence) (expired : bool)
    : Program.prog F (result Evidence) :=
  match readers with
  | [] =>
      Ret (match found with
           | Some e => Ok e
           | None => if expired then Err [ErrEvidenceExpired] else Err [ErrEvidenceNotFound]
           end)
  | reader :: readers =>
      answer ← reader operationID now;
      match answer with
      | Err e =>
          if errors_is e ErrEvidenceNotFound then read_sources operationID now readers found expired else
          if errors_is e ErrEvidenceExpired then
            if decide (is_Some found ∨ expired = true) then Ret (Err [ErrEvidenceUnavailable])
            else read_sources operationID now readers found true
          else Ret (Err e)
      | Ok e =>
          if decide (ue_OperationID e ≠ operationID ∨ is_ok (Evidence_Validate e now) = false ∨ is_Some found ∨ expired = true)
          then Ret (Err [ErrEvidenceUnavailable]) else read_sources operationID now readers (Some e) expired
      end
  end.

(** A nil aggregator is [None]. *)
Definition aggregator_GetEvidence (a : option (list EvidenceReader)) (nil_context : bool) (operationID : string) (now : Time)
    : Program.prog F (result Evidence) :=
  if nil_context then Ret (Err [Canceled : sentinel]) else
  match a with
  | None => Ret (Err [ErrEvidenceUnavailable])
  | Some readers =>
      if decide (operationID = "" ∨ IsZero now) then Ret (Err [ErrEvidenceUnavailable])
      else read_sources operationID now readers None false
  end.
End aggregator.
End derived.

(** * Evidence derived from results

    What the collector derives from a terminal result is valid and determined by the
    result alone, and two executions share no evidence id unless SHA-256
    collides on them. *)

Lemma all_bytes_mono (p q : ascii → bool) s : (∀ c, p c = true → q c = true) → all_bytes p s = true → all_bytes q s = true.
Proof. intros Hpq. induction s as [|c s IH]; cbn; [done|]. rewrite !andb_true_iff. intros [? ?]. auto. Qed.

Lemma lower_hex_alnum c : is_lower_hex c = true → is_alnum c = true.
Proof.
  unfold is_lower_hex, is_alnum, is_lower, is_digit, in_range. rewrite !orb_true_iff, !andb_true_iff, !N.leb_le. lia.
Qed.

Lemma alnum_id s : all_bytes is_alnum s = true → all_bytes id_char s = true.
Proof. apply all_bytes_mono. intros c Hc. unfold id_char. by rewrite Hc. Qed.
Lemma alnum_ref s : all_bytes is_alnum s = true → all_bytes ref_char s = true.
Proof. apply all_bytes_mono. intros c Hc. unfold ref_char. by rewrite Hc. Qed.

Lemma length_string_app (s t : string) : String.length (s +:+ t) = (String.length s + String.length t)%nat.
Proof. induction s as [|c s IH]; [done|]. exact (f_equal S IH). Qed.

Lemma cut_prefix_app (p s : string) : cut_prefix p (p +:+ s) = Some s.
Proof.
  induction p as [|c p IH]; [done|]. change (String c p +:+ s) with (String c (p +:+ s)). cbn [cut_prefix].
  by rewrite decide_True.
Qed.

Section derived.
Context (sha256 : string → string) (evidence_json : Evidence → string).
Context (sha256_length : ∀ s, String.length (sha256 s) = 32%nat).
Abbreviation evidence_of := (evidence_of sha256 evidence_json).
Abbreviation evidenceKey := (evidenceKey sha256).

Lemma key_shape op attempt :
  String.length (evidenceKey op attempt) = 64%nat ∧ all_bytes is_alnum (evidenceKey op attempt) = true.
Proof using sha256_length.
  destruct (hex_encode_valid (sha256 (op +:+ String NUL attempt)) 32) as [Hl Ha]; [apply sha256_length|].
  split; [exact Hl|]. eapply all_bytes_mono; [|exact Ha]. apply lower_hex_alnum.
Qed.

Lemma digest_shape s : digestPattern ("sha256:" +:+ hex_encode (sha256 s)) = true.
Proof using sha256_length.
  destruct (hex_encode_valid (sha256 s) 32) as [Hl Ha]; [apply sha256_length|].
  unfold digestPattern, ExecModel.digestPattern. by rewrite cut_prefix_app, Ha, bool_decide_true.
Qed.

(** A short literal in front of a key is an identifier. *)
Lemma key_identifier (prefix : string) op attempt :
  match_head_tail is_alnum id_char 100 prefix = true → identifierPattern (prefix +:+ evidenceKey op attempt) = true.
Proof using sha256_length.
  destruct (key_shape op attempt) as [Hl Ha]. destruct prefix as [|c prefix]; [done|].
  unfold identifierPattern, ExecModel.identifierPattern. cbn [match_head_tail].
  change (String c prefix +:+ evidenceKey op attempt) with (String c (prefix +:+ evidenceKey op attempt)).
  cbn [match_head_tail]. rewrite !andb_true_iff, !Nat.leb_le, all_bytes_app, length_string_app, Hl. intros [[-> ->] ?].
  rewrite (alnum_id (evidenceKey op attempt)) by done.
  split; [done|lia].
Qed.

Lemma key_reference (suffix : string) op attempt :
  all_bytes ref_char suffix = true → (String.length suffix ≤ 100)%nat →
  referencePattern (("ref:usage/" +:+ evidenceKey op attempt) +:+ suffix) = true.
Proof using sha256_length.
  intros Hs Hn. destruct (key_shape op attempt) as [Hl Ha]. unfold referencePattern, ExecModel.referencePattern, after_prefix.
  change (("ref:usage/" +:+ evidenceKey op attempt) +:+ suffix)
    with ("ref:" +:+ String "u" (("sage/" +:+ evidenceKey op attempt) +:+ suffix)).
  rewrite cut_prefix_app. unfold opaque_reference. cbn [match_head_tail].
  rewrite !all_bytes_app, !length_string_app, Hl, Hs.
  rewrite (alnum_ref (evidenceKey op attempt)) by done.
  cbn. apply Nat.leb_le. lia.
Qed.

Lemma Result_Validate_fields r :
  Result_Validate r = Ok () →
  ExecModel.identifierPattern (r_OperationID r) = true ∧ ExecModel.identifierPattern (r_AttemptID r) = true ∧
  ExecModel.identifierPattern (r_SandboxID r) = true ∧ 1 ≤ r_FencingToken r ∧ r_CompletedAt r ≠ 0 ∧ r_RetainedUntil r ≠ 0 ∧
  r_StartedAt r ≤ r_CompletedAt r ∧ r_CompletedAt r < r_RetainedUntil r.
Proof using Type.
  unfold Result_Validate, bad_result. intros H. destruct (exit_code_out_of_range _) in H; crack H. unfold IsZero, Before, After in *. split_and!; try done; lia.
Qed.

(** The evidence of a valid result is valid, so the collector's own check never fails. *)
Lemma derived_evidence_valid r :
  Result_Validate r = Ok () → Evidence_Validate (evidence_of r) (r_CompletedAt r) = Ok ().
Proof using sha256_length.
  intros (Ho & Ha & Hs & Hf & Hc & Hr & Hle & Hlt)%Result_Validate_fields.
  assert (Hentries : forallb (entry_correlated (evidence_of r)) (ue_Entries (evidence_of r)) = true).
  { assert (Hq : 0 ≤ Milliseconds (Sub (r_CompletedAt r) (r_StartedAt r))).
    { unfold Milliseconds, Sub. apply Z.quot_pos; lia. }
    cbn [evidence_of UsageApplication.evidence_of with_digest ue_Entries forallb]. unfold entry_correlated, Entry_Validate. cbn.
    unfold Time in *. rewrite !andb_true_iff. split_and!; [..|done];
      try (apply bool_decide_eq_true_2; split; [done|by right]);
      (rewrite decide_False; [done|]; intros [Hx|[Hx|[[_ Hx]|[Hx|[Hx|Hx]]]]]);
      rewrite ?key_identifier, ?key_reference in Hx by (done || (cbn; lia)); unfold identifierPattern, IsZero in *; try congruence; lia. }
  unfold Evidence_Validate. rewrite Hentries. cbn [negb]. cbn. unfold Time, IsZero, After, Before in *.
  rewrite decide_False.
  2:{ intros [Hx|[Hx|[Hx|[Hx|[Hx|[Hx|[Hx|[Hx|[Hx|[Hx|Hx]]]]]]]]]];
      unfold digestEvidence in Hx; rewrite ?key_identifier, ?digest_shape in Hx by done;
      unfold identifierPattern, MaxEntries in *; try congruence; try lia; done. }
  rewrite decide_False by naive_solver. by rewrite decide_False by auto.
Qed.

(** ** Keys *)

Lemma identifier_bytes s : ExecModel.identifierPattern s = true → all_bytes id_char s = true.
Proof using Type.
  unfold ExecModel.identifierPattern. destruct s as [|c s]; [done|]. cbn. rewrite !andb_true_iff. intros [[Hc Hs] _].
  split; [|done]. unfold id_char. by rewrite Hc.
Qed.

(** The text that is hashed determines the operation. *)
Lemma key_input op op' attempt attempt' :
  ExecModel.identifierPattern op = true → ExecModel.identifierPattern op' = true →
  op +:+ String NUL attempt = op' +:+ String NUL attempt' → op = op' ∧ attempt = attempt'.
Proof using Type. intros H%identifier_bytes H'%identifier_bytes. by eapply append_sep_inj. Qed.

Lemma hex_digit_inj (m n : N) : (m < 16)%N → (n < 16)%N → hex_digit m = hex_digit n → m = n.
Proof using Type.
  unfold hex_digit. intros Hm Hn H. apply (f_equal N_of_ascii) in H. revert H.
  destruct (N.ltb_spec m 10), (N.ltb_spec n 10); rewrite !N_ascii_embedding by lia; lia.
Qed.

Lemma hex_encode_inj s t : hex_encode s = hex_encode t → s = t.
Proof using Type.
  revert t. induction s as [|c s IH]; intros [|d t]; cbn; try done. intros H. injection H as H1 H2 H3.
  pose proof (N_ascii_bounded c). pose proof (N_ascii_bounded d). unfold byte in *.
  apply hex_digit_inj in H1; [|apply N.Div0.div_lt_upper_bound; lia..]. apply hex_digit_inj in H2; [|apply N.mod_lt; lia..].
  f_equal; [|by apply IH]. rewrite <- (ascii_N_embedding c), <- (ascii_N_embedding d). f_equal.
  rewrite (N.div_mod (N_of_ascii c) 16), (N.div_mod (N_of_ascii d) 16) by done. congruence.
Qed.

(** Evidence ids are those of the hashed text. *)
Lemma evidence_id_inj r r' :
  ue_EvidenceID (evidence_of r) = ue_EvidenceID (evidence_of r') →
  sha256 (r_OperationID r +:+ String NUL (r_AttemptID r)) = sha256 (r_OperationID r' +:+ String NUL (r_AttemptID r')).
Proof using Type.
  cbn. unfold UsageApplication.evidenceKey. intros H. apply hex_encode_inj.
  apply (f_equal (cut_prefix "usage-")) in H. rewrite !cut_prefix_app in H. congruence.
Qed.
End derived.
