(* ===== verification/UsageConcurrency.v ===== *)
(** * The exec application with a usage collector

    The exec coordinator hands every terminal result to the collector, and readers
    of usage run next to calls of the exec application, over one execution
    repository and one usage store.  The collector touches the store once, so its
    run appears as the answer of the coordinator's call.

    A call of the collector is only made for a result that the caller has seen on
    record ([reveals]). *)

From S2P Require Import Prelude Program Threads LifecycleModel ExecModel ExecState ExecInvariant ExecRepository ExecPorts ExecCoordinator ExecConcurrency Operations ExecVertical ExecVerticalConcurrency ExecVerticalGuarantees UsageStore UsageApplication.
From stdpp Require Import base gmap strings list fin_maps relations.
From Stdlib Require Import ZArith Lia.

Local Open Scope Z_scope.

(** ** Results on record *)

(** The results an answer of the execution repository shows. *)
Definition reveals (ev : event eff) : list Result :=
  let '@Ev _ X e x := ev in
  match e in eff X return X → list Result with
  | EStoreResult _ r => λ x, if is_ok x then [r] else []
  | EGetResult _ _ _ => λ x, match x with Ok r => [r] | Err _ => [] end
  | EGetExecution _ _ => λ x, match x with Ok record => option_list (er_Result record) | Err _ => [] end
  | EListExecutions _ => λ x, match x with Ok records => records ≫= λ record, option_list (er_Result record) | Err _ => [] end
  | _ => λ _, []
  end x.

Definition revealed (tr : list (event eff)) : list Result := tr ≫= reveals.

(** The coordinator hands on what is on record. *)
Definition observing (tr : list (event eff)) (X : Type) (e : eff X) : Prop :=
  match e with
  | EObserveResult _ r => r ∈ revealed tr
  | EReserveCancellationAt _ _ now => 0 < now
  | _ => True
  end.

Definition vobserving (tr : list (event veff)) (X : Type) (e : veff X) : Prop :=
  match e with VExec e => observing (part tr) _ e | _ => True end.

Lemma revealed_mono tr tr' : tr ⊆ tr' → revealed tr ⊆ revealed tr'.
Proof using Type. intros Hs r. unfold revealed. rewrite !list_elem_of_bind. intros (ev & ? & ?). eauto. Qed.

(** ** The coordinator hands on what is on record *)

Lemma follows_grow {E : Type → Type} {A} R P (p : Program.prog E A) tr Q :
  follows R P p tr Q → follows R P p tr (λ a tr', Q a tr' ∧ tr ⊆ tr').
Proof.
  revert tr. induction p as [a|X e k IH]; intros tr; cbn; [done|]. intros [? Hk]. split; [done|]. intros x Hx.
  eapply follows_mono; [|by apply IH, Hk]. intros a tr' [? ?]. split; [done|]. set_solver.
Qed.

Abbreviation obs p tr := (follows observing plausible p tr (λ _ _, True)).

Lemma obs_bind {A B} (p : prog A) (f : A → prog B) tr :
  obs p tr → (∀ a tr', tr ⊆ tr' → obs (f a) tr') → obs (p ≫= f) tr.
Proof. intros Hp Hf. apply follows_bind. eapply follows_mono; [|by apply follows_grow]. intros a tr' [_ ?]. auto. Qed.

Lemma obs_call {X B} (e : eff X) (f : X → prog B) tr :
  observing tr X e → (∀ x, plausible X e x → obs (f x) (Ev e x :: tr)) → obs (call e ≫= f) tr.
Proof. intros He Hf. by split. Qed.

Lemma obs_orelse {A B} (m : prog (result A)) (z : goerr → prog B) (k : A → prog B) tr :
  obs m tr → (∀ e tr', obs (z e) tr') → (∀ a tr', tr ⊆ tr' → obs (k a) tr') → obs (orelse m z k) tr.
Proof. intros Hm Hz Hk. apply obs_bind; [done|]. intros [a|e] tr' ?; auto. Qed.

Lemma obs_ask {A B} (e : eff (result A)) (z : goerr → prog B) (k : A → prog B) tr :
  observing tr _ e → (∀ er tr', obs (z er) tr') → (∀ a, obs (k a) (Ev e (Ok a) :: tr)) → obs (orelse (call e) z k) tr.
Proof. intros He Hz Hk. split; [done|]. intros [a|er] _; [apply Hk|apply Hz]. Qed.

Lemma obs_context {A} `{!Zero A} ctx (k : prog (outcome A)) tr :
  obs k (Ev (ECtxErr ctx) None :: tr) → obs (with_context ctx k) tr.
Proof. intros Hk. by apply follows_context. Qed.

Lemma obs_usable {A} `{!Zero A} b (k : prog (outcome A)) tr : obs k tr → obs (usable b k) tr.
Proof. unfold usable. by destruct b. Qed.

Lemma revealed_here {X} (e : eff X) x tr r : r ∈ reveals (Ev e x) → r ∈ revealed (Ev e x :: tr).
Proof. intros H. unfold revealed. cbn. apply elem_of_app. by left. Qed.

Lemma revealed_later {X} (e : eff X) x tr r : r ∈ revealed tr → r ∈ revealed (Ev e x :: tr).
Proof. intros H. unfold revealed. cbn. apply elem_of_app. by right. Qed.

Section coordinator.
Context (c : Coordinator).

Lemma obs_observeResult ctx r tr : r ∈ revealed tr → obs (observeResult c ctx r) tr.
Proof. intros Hr. unfold observeResult. by destruct (c_resultSink c). Qed.

Lemma obs_observed ctx r tr : r ∈ revealed tr → obs (observed c ctx r) tr.
Proof. intros Hr. apply obs_orelse; [by apply obs_observeResult|done..]. Qed.

Lemma obs_GetExecution ctx id tr : obs (coordinator_GetExecution c ctx id) tr.
Proof. apply obs_usable, obs_context. by apply obs_ask. Qed.

Lemma obs_GetCancellation ctx id tr : obs (coordinator_GetCancellationReservation c ctx id) tr.
Proof. apply obs_usable, obs_context. by apply obs_ask. Qed.

Lemma obs_Start ctx rq tr : obs (Start c ctx rq) tr.
Proof.
  apply obs_usable, obs_context. apply obs_call; [done|]. intros now _. apply obs_orelse; [done|done|]. intros _ tr1 _.
  apply obs_call; [done|]. intros [r err] _. case_decide; [done|]. apply obs_call; [done|]. intros [e|] _; [done|].
  apply obs_call; [done|]. intros [ref|e] _; [|by destruct (_ || _)].
  cbn. split; [done|]. by intros [].
Qed.

(** A result that [GetResult] returns was on record. *)
Lemma obs_GetResult ctx id now tr :
  follows observing plausible (GetResult c ctx id now) tr (λ r tr', r.2 = None → r.1 ∈ revealed tr').
Proof.
  unfold GetResult, usable. destruct (c_repository c); [|done]. apply follows_context; [done|done|].
  cbn. split; [done|]. intros [record|e] _; [|done]. cbn.
  assert (Hrest : ∀ tr', follows observing plausible
    (orelse (call (EGetResult ctx id now)) fail (λ result, orelse (observeResult c ctx result) fail (λ _, done_with result)))
    tr' (λ r tr', r.2 = None → r.1 ∈ revealed tr')).
  { intros tr'. cbn. split; [done|]. intros [r|e] _; [|done]. cbn.
    assert (Hr : r ∈ revealed (Ev (EGetResult ctx id now) (Ok r) :: tr')) by (apply revealed_here; set_solver).
    unfold observeResult. destruct (c_resultSink c); [|by cbn]. cbn. split; [done|]. intros [u|e] _; [|done].
    intros _. by apply revealed_later. }
  destruct (c_cleaner c && _); [|apply Hrest]. split; [done|]. intros [u|e] _; [apply Hrest|done].
Qed.

Lemma obs_StoreOutcome ctx id st ct o tr : obs (StoreOutcome c ctx id st ct o) tr.
Proof.
  apply obs_usable, obs_context. apply obs_ask; [done|done|]. intros record. destruct (er_Result record) as [r|] eqn:Er.
  - apply obs_observed, revealed_here. cbn. rewrite Er. set_solver.
  - apply obs_orelse; [done|done|]. intros r tr1 _. apply obs_ask; [done|done|]. intros []. apply obs_observed, revealed_here.
    cbn. set_solver.
Qed.

Lemma obs_settle ctx id ob record tr : obs (settle c ctx id ob record) tr.
Proof.
  unfold settle. destruct (ob_Running ob); [done|]. apply obs_bind; [apply obs_StoreOutcome|].
  intros [r [e|]] tr' _; [done|]. by destruct (NewTerminalSummary r).
Qed.

Lemma obs_Reconcile ctx id tr : obs (Reconcile c ctx id) tr.
Proof.
  apply obs_usable, obs_context. apply obs_ask; [done|done|]. intros record. case_decide; [done|].
  apply obs_call; [done|]. intros [ob|e] _; [|done]. destruct (is_ok (Observation_Validate ob)); [|done].
  destruct (er_Attached record); [case_decide; [done|apply obs_settle]|].
  apply obs_call; [done|]. intros [a|e] _; [apply obs_settle|done].
Qed.

Lemma obs_recover_pending ctx record tr : obs (recover_pending c ctx record) tr.
Proof.
  apply obs_bind; [apply obs_Reconcile|]. intros [r [e|]] tr1 _; [|done]. destruct (errors_is _ _); [|done].
  apply obs_call; [done|]. intros now _. apply obs_bind; [apply obs_StoreOutcome|]. by intros [r' [e'|]] tr2 _.
Qed.

Lemma obs_recover_retained ctx record r tr : r ∈ revealed tr → obs (recover_retained c ctx record r) tr.
Proof.
  intros Hr. apply obs_bind; [by apply obs_observeResult|]. intros [u|e] tr1 _; [|done].
  apply obs_call; [done|]. intros now _. case_decide; [|done]. apply obs_call; [done|]. intros now' _.
  apply obs_bind.
  - eapply follows_mono; [|apply obs_GetResult]. done.
  - intros [r' [e|]] tr2 _; [|done]. by destruct (errors_is _ _).
Qed.

Lemma obs_recover_all ctx records results tr :
  (∀ record r, record ∈ records → er_Result record = Some r → r ∈ revealed tr) → obs (recover_all c ctx records results) tr.
Proof.
  revert results tr. induction records as [|record records IH]; intros results tr Hr; [done|].
  assert (Hrest : ∀ results tr', tr ⊆ tr' → obs (recover_all c ctx records results) tr').
  { intros results' tr' Hs. apply IH. intros record' r' Hin Hr'. eapply revealed_mono; [exact Hs|]. apply (Hr record'); [by right|done]. }
  cbn [recover_all]. destruct (er_ResultExpired record).
  { apply obs_orelse; [by destruct (c_cleaner c)|done|auto]. }
  destruct (er_Result record) as [r|] eqn:Er.
  - apply obs_orelse; [|done|auto]. apply obs_recover_retained, (Hr record); [left|done].
  - apply obs_orelse; [apply obs_recover_pending|done|auto].
Qed.

Lemma obs_Recover ctx tr : obs (Recover c ctx) tr.
Proof.
  apply obs_usable, obs_ask; [done|done|]. intros records. apply obs_recover_all. intros record r Hin Hr.
  apply revealed_here. cbn. apply list_elem_of_bind. exists record. rewrite Hr. set_solver.
Qed.

Lemma obs_Cancel ctx i tr : obs (ExecCoordinator.Cancel c ctx i) tr.
Proof.
  apply obs_usable, obs_context. apply obs_call; [done|]. intros now Hnow. apply obs_ask; [done|done|]. intros r.
  apply obs_ask; [done|done|]. intros target. destruct (xc_Replayed r); [done|]. destruct (_ && _); [|done].
  apply obs_call; [done|]. intros [e|] _; [done|]. apply obs_ask; [done|done|]. intros []. apply obs_call; [done|]. intros now' _.
  cbv zeta. destruct (NewResult _ _ _ _) as [res|]; [|done]. apply obs_ask; [done|done|]. intros [].
  apply obs_orelse; [|done|done]. apply obs_observeResult, revealed_here. cbn. set_solver.
Qed.
End coordinator.

(** ** The exec application *)

Abbreviation vobs p tr := (follows vobserving vplausible p tr (λ _ _, True)).

Lemma vobs_run {A} (p : prog A) tr (Q : A → list (event veff) → Prop) :
  follows observing plausible p (part tr) (λ a trE, ∀ tr', part tr' = trE → Q a tr') → follows vobserving vplausible (run p) tr Q.
Proof.
  intros Hp. apply (follows_embed (@VExec) exec_part (λ _ _ _, eq_refl) observing plausible vobserving vplausible p tr Q); [done|done|].
  eapply follows_mono; [|exact Hp]. intros a trE H tr' _ <-. by apply H.
Qed.

Lemma vobs_bind {A B} (p : vprog A) (f : A → vprog B) tr : vobs p tr → (∀ a tr', vobs (f a) tr') → vobs (p ≫= f) tr.
Proof. intros Hp Hf. apply follows_bind. eapply follows_mono; [|exact Hp]. auto. Qed.

Lemma vobs_coordinator {A} (p : prog A) tr : (∀ tr, obs p tr) → vobs (run p) tr.
Proof. intros Hp. apply vobs_run. eapply follows_mono; [|apply Hp]. auto. Qed.

Lemma vobs_result c ctx id now tr : vobs (run (GetResult c ctx id now)) tr.
Proof. apply vobs_coordinator. intros tr'. eapply follows_mono; [|apply obs_GetResult]. auto. Qed.

Create HintDb vobs.
Hint Resolve vobs_result : vobs.
Hint Extern 1 (follows vobserving _ (run _) _ _) => apply vobs_coordinator; intros; eauto with obs : vobs.
Create HintDb obs.
Hint Resolve obs_GetExecution obs_GetCancellation obs_Start obs_StoreOutcome obs_Reconcile obs_Recover obs_Cancel : obs.

Ltac vobs_step :=
  lazymatch goal with
  | |- follows _ _ (Ret _) _ _ => exact I
  | |- follows _ _ (fails _) _ _ => exact I
  | |- follows _ _ (returns _) _ _ => exact I
  | |- follows _ _ now_ _ _ => by split
  | |- follows _ _ (call _) _ _ => by split
  | |- follows _ _ (match ?x with _ => _ end) _ _ => destruct x
  | |- follows _ _ (asking _ _) _ _ => unfold asking
  | |- follows _ _ (attempt _ _) _ _ => unfold attempt
  | |- follows _ _ (orelse _ _ _) _ _ => unfold orelse
  | |- follows _ _ (mbind _ _) _ _ => apply vobs_bind; [|intros ? ?]
  end.
Ltac vwalk := repeat vobs_step; eauto with vobs.

Lemma vobs_store_now c ctx id st o tr : vobs (store_now c ctx id st o) tr.
Proof. unfold store_now. vwalk. Qed.
Hint Resolve vobs_store_now : vobs.

Lemma vobs_expireResult c ctx record tr : vobs (expireResult c ctx record) tr.
Proof. unfold expireResult. vwalk. Qed.
Hint Resolve vobs_expireResult : vobs.

Lemma vobs_reconcileExecutionView c ctx record tr : vobs (reconcileExecutionView c ctx record) tr.
Proof. unfold reconcileExecutionView. vwalk. Qed.
Lemma vobs_checkSandbox ctx id generation tr : vobs (checkSandbox ctx id generation) tr.
Proof. unfold checkSandbox. vwalk. Qed.
Hint Resolve vobs_reconcileExecutionView vobs_checkSandbox : vobs.
Lemma vobs_acceptExecReplay c ctx rq existing tr : vobs (acceptExecReplay c ctx rq existing) tr.
Proof. unfold acceptExecReplay. vwalk. Qed.
Lemma vobs_accept_new c support ctx rq tr : vobs (accept_new c support ctx rq) tr.
Proof. unfold accept_new, dispatched. vwalk. Qed.
Lemma vobs_cancel_new c ctx i tr : vobs (cancel_new c ctx i) tr.
Proof. unfold cancel_new. vwalk. Qed.
Lemma vobs_read_execution c ctx id record tr : vobs (read_execution c ctx id record) tr.
Proof. unfold read_execution. vwalk. Qed.
Lemma vobs_read_cancellation c ctx r tr : vobs (read_cancellation c ctx r) tr.
Proof. unfold read_cancellation. vwalk. Qed.
Hint Resolve vobs_acceptExecReplay vobs_accept_new vobs_cancel_new vobs_read_execution vobs_read_cancellation : vobs.

Lemma vobs_ReadOperation a ctx id tr : vobs (ReadOperation a ctx id) tr.
Proof. unfold ReadOperation, ready. vwalk. Qed.

(** The result of an execution is on record when it is returned. *)
Lemma vobs_GetResult a ctx id tr :
  follows vobserving vplausible (vertical_GetResult a ctx id) tr (λ r tr', ∀ res, r = Ok res → res ∈ revealed (part tr')).
Proof.
  assert (Hfinish : ∀ c tr', follows vobserving vplausible
    (now ← now_; attempt (run (GetResult c ctx id now)) returns) tr' (λ r tr', ∀ res, r = Ok res → res ∈ revealed (part tr'))).
  { intros c tr'. split; [done|]. intros now _. apply follows_bind, vobs_run. eapply follows_mono; [|apply obs_GetResult].
    intros [res [e|]] trE Hres tr'' Heq; cbn; [done|]. intros res' [= <-]. rewrite Heq. by apply Hres. }
  unfold vertical_GetResult, ready. destruct (va_coordinator a) as [c|]; [|done]. destruct (_ && _); [|done].
  destruct ctx; [done|..]; (split; [done|]); (intros [e|] _; [done|]); apply follows_bind;
    (eapply follows_mono; [|by apply (vobs_coordinator (Reconcile c _ id)), obs_Reconcile]);
    (intros [rec [e|]] tr1 _; [|apply Hfinish]); (destruct (errors_is _ _); [|done]);
    apply follows_bind; (eapply follows_mono; [|by apply (vobs_coordinator (coordinator_GetExecution c _ id)), obs_GetExecution]);
    (intros [rec' [e'|]] tr2 _; [done|]); apply follows_bind;
    (eapply follows_mono; [|apply vobs_store_now]); (intros [rec'' [e''|]] tr3 _; [done|apply Hfinish]).
Qed.

Lemma vobs_vertical a call tr : vobs (vertical_prog a call) tr.
Proof.
  destruct call; cbn [vertical_prog]; unfold discard; (apply vobs_bind; [|done]).
  - unfold AcceptExec, ready. vwalk.
  - unfold AcceptCancellation, ready. vwalk.
  - eapply follows_mono; [|apply vobs_GetResult]. done.
  - apply vobs_ReadOperation.
  - unfold vertical_Recover, ready. vwalk.
Qed.

(** ** Ports and answers *)

Inductive ueff : Type → Type :=
  | UVert {X} (e : veff X) : ueff X
  | UStore {X} (e : seff X) : ueff X.

Definition srespond {X} (e : seff X) : UsageState → X → UsageState → Prop :=
  match e in seff X return UsageState → X → UsageState → Prop with
  | SNow => λ u _ u', u' = u
  | SCtxErr _ => λ u _ u', u' = u
  | SPut _ e => λ u x u', ∃ now, put_answers now e u x u'
  | SGetEvidence _ id now => λ u x u', u' = u ∧ get_answers id now u x
  end.

Section pool.
Context (sha256 : string → string) (evidence_json : Evidence → string) (collector : option ResultCollector).
Abbreviation evidence_of := (evidence_of sha256 evidence_json).
Abbreviation ObserveResult := (ObserveResult sha256 evidence_json).

Definition shared : Type := State * UsageState.

(** The result observer of the coordinator is the collector. *)
Definition exec_respond {X} (e : eff X) : shared → X → shared → Prop :=
  match e in eff X return shared → X → shared → Prop with
  | EObserveResult ctx r => λ σ x σ', σ'.1 = σ.1 ∧ exec (@srespond) (=) (ObserveResult collector ctx r) σ.2 (Some x) σ'.2
  | e => λ σ x σ', respond e σ.1 x σ'.1 ∧ σ'.2 = σ.2
  end.

Definition vert_respond {X} (e : veff X) : shared → X → shared → Prop :=
  match e in veff X return shared → X → shared → Prop with
  | VExec e => exec_respond e
  | e => λ σ x σ', vrespond e σ.1 x σ'.1 ∧ σ'.2 = σ.2
  end.

Definition urespond {X} (e : ueff X) : shared → X → shared → Prop :=
  match e in ueff X return shared → X → shared → Prop with
  | UVert e => vert_respond e
  | UStore e => λ σ x σ', σ'.1 = σ.1 ∧ srespond e σ.2 x σ'.2
  end.

(** ** Threads *)

Definition usage_reader (a : Vertical) : option UsageReader → Context → string → Time → Program.prog ueff (result Evidence) :=
  reader_GetEvidence sha256 evidence_json (@UStore) (λ ctx id, embed (@UVert) (ReadOperation a ctx id))
    (λ ctx id, embed (@UVert) (vertical_GetResult a ctx id)).

Inductive usage_api :=
  | ApiVertical (call : vertical_api)
  | ApiGetEvidence (r : option UsageReader) (ctx : Context) (id : string) (now : Time).

Definition usage_prog (a : Vertical) (call : usage_api) : Program.prog ueff () :=
  match call with
  | ApiVertical call => embed (@UVert) (vertical_prog a call)
  | ApiGetEvidence r ctx id now => discard (usage_reader a r ctx id now)
  end.

Definition usage_spawn (p : Program.prog ueff ()) : Prop := ∃ a call, p = usage_prog a call.

Definition usage_run (σ : shared) (ts : list (thread ueff)) : Prop :=
  rtc (pool_step (@urespond) usage_spawn) ((NewState, empty_usage), []) (σ, ts).

(** ** The rule of the pool *)

Definition vert_part (ev : event ueff) : option (event veff) :=
  let '@Ev _ X e x := ev in
  match e in ueff X return X → option (event veff) with UVert e => λ x, Some (Ev e x) | UStore _ => λ _, None end x.

Definition upart (tr : list (event ueff)) : list (event eff) := part (omap vert_part tr).

(** Evidence that is stored was derived from such a result. *)
Definition derived_from (tr : list (event eff)) (e : Evidence) : Prop :=
  ∃ r, r ∈ revealed tr ∧ Result_Validate r = Ok () ∧ ¬ unmetered r ∧ e = evidence_of r.

Definition urule (tr : list (event ueff)) (X : Type) (e : ueff X) : Prop :=
  match e with
  | UVert e => vobserving (omap vert_part tr) _ e
  | UStore (SPut _ e) => derived_from (upart tr) e
  | UStore _ => True
  end.

Definition uplausible (X : Type) (e : ueff X) : X → Prop :=
  match e in ueff X return X → Prop with UVert e => vplausible _ e | UStore _ => λ _, True end.

Lemma upart_mono tr tr' : tr ⊆ tr' → upart tr ⊆ upart tr'.
Proof using Type.
  intros Hs. apply part_mono. intros ev. rewrite !list_elem_of_omap. intros (y & ? & ?). exists y. auto.
Qed.


(** ** Threads follow the rule *)

Lemma ufollows_vertical {A} (p : vprog A) tr (Q : A → list (event ueff) → Prop) :
  follows vobserving vplausible p (omap vert_part tr) (λ a trV, ∀ tr', omap vert_part tr' = trV → Q a tr') →
  follows urule uplausible (embed (@UVert) p) tr Q.
Proof using Type.
  intros Hp. apply (follows_embed (@UVert) vert_part (λ _ _ _, eq_refl) vobserving vplausible urule uplausible p tr Q); [done|done|].
  eapply follows_mono; [|exact Hp]. intros a trE H tr' _ <-. by apply H.
Qed.

Lemma ufollows_observe c ctx r tr :
  r ∈ revealed (upart tr) → follows urule uplausible (embed (@UStore) (ObserveResult c ctx r)) tr (λ _ _, True).
Proof using Type.
  intros Hr. assert (Hput : Result_Validate r = Ok () → ¬ unmetered r → derived_from (upart tr) (evidence_of r)) by (by exists r).
  unfold UsageApplication.ObserveResult, collect_evidence.
  destruct ctx; [done|..]; (destruct c as [[[] []]|]; [|done..]); (destruct (Result_Validate r) as [[]|]; [|done]);
    (case_decide; [done|]); (split; [done|]); intros now _; cbn [prog_bind prog_bind_def]; (case_decide; [done|]);
    (destruct (Evidence_Validate _ _); [|done]); (split; [|done]); cbn; by apply Hput.
Qed.

Lemma ufollows_reader a r ctx id now tr : follows urule uplausible (usage_reader a r ctx id now) tr (λ _ _, True).
Proof using Type.
  assert (Hderive : ∀ c ctx tr', follows urule uplausible (derive_evidence sha256 evidence_json (@UStore)
    (λ ctx id, embed (@UVert) (ReadOperation a ctx id)) (λ ctx id, embed (@UVert) (vertical_GetResult a ctx id)) c ctx id now)
    tr' (λ _ _, True)).
  { intros c ctx' tr'. apply follows_bind, ufollows_vertical. eapply follows_mono; [|apply vobs_ReadOperation].
    intros [view|e] trV _ tr1 _; [|by destruct (errors_is _ _)]. case_decide; [done|].
    apply follows_bind, ufollows_vertical. eapply follows_mono; [|apply vobs_GetResult]. intros [res|e] trV2 Hres tr2 Heq; [|done].
    apply follows_bind. eapply follows_mono; [|apply ufollows_observe; unfold upart; rewrite Heq; by apply Hres].
    intros [u|e] tr3 _; [|done]. split; [done|]. by intros [ev|e] _. }
  unfold usage_reader, reader_GetEvidence. destruct ctx; [done|..]; (destruct r as [[[] [] [c|]]|]; [|done..]);
    (case_decide; [done|]); (split; [done|]); (intros [e|e] _; [done|]); cbn [prog_bind prog_bind_def];
    (destruct (errors_is e ErrEvidenceExpired); [done|]); (destruct (errors_is e ErrEvidenceNotFound); [|done]); apply Hderive.
Qed.

Lemma usage_follows p : usage_spawn p → follows urule uplausible p [] (λ _ _, True).
Proof using Type.
  intros (a & call & ->). destruct call as [call|r ctx id now]; cbn [usage_prog].
  - apply ufollows_vertical. eapply follows_mono; [|apply vobs_vertical]. done.
  - apply follows_bind. eapply follows_mono; [|apply ufollows_reader]. done.
Qed.
End pool.
