(* ===== verification/UsageGuarantees.v ===== *)
(** * Guarantees of usage evidence

    Over every interleaving of calls of the exec application and of usage readers,
    the evidence in the store is that of the results on record, and handing a
    result to the collector again never conflicts.  The aggregator implements a
    specification that does not mention its loop. *)

From S2P Require Import Prelude Program Threads LifecycleModel ExecModel ExecState ExecInvariant ExecRepository ExecPorts ExecCoordinator ExecConcurrency Operations ExecVertical ExecVerticalConcurrency ExecVerticalGuarantees ExecMemory ExecGuarantees ExecPoolGuarantees UsageStore UsageApplication UsageConcurrency.
From stdpp Require Import base gmap strings list fin_maps relations.
From Stdlib Require Import ZArith Lia.

Local Open Scope Z_scope.

(** ** Results on record *)

(** The result is retained in the record, or the record says that it expired. *)
Definition recorded (record : ExecutionRecord) (r : Result) : Prop :=
  er_Terminal record = Some (summary_of r) ∧
  (er_Result record = Some r ∨ (er_Result record = None ∧ er_ResultExpired record = true)) ∧
  rq_OperationID (er_Request record) = r_OperationID r ∧ rq_AttemptID (er_Request record) = r_AttemptID r.

Lemma retained_recorded s k record r :
  exec_wf s → Executions s !! k = Some record → er_Result record = Some r →
  r_OperationID r = k ∧ recorded record r ∧ Result_Validate r = Ok ().
Proof.
  intros Hs Hk Hr. destruct (xw_record s Hs k record Hk) as (Hid & _ & _ & _ & Hev). unfold evidence_wf in Hev. rewrite Hr in Hev.
  destruct Hev as (Hv & Ht & _ & _). unfold validateStoredResult, corrupt in Hv. rewrite Hr in Hv. crack Hv.
  unfold recorded. subst k. split; [congruence|]. split; [|done]. split_and!; auto.
Qed.

Lemma recorded_evolves record record' r : record_evolves record record' → recorded record r → recorded record' r.
Proof.
  intros (Hq & _ & _ & Ht & Hres & Hexp) (H1 & H2 & H3 & H4). unfold recorded. rewrite Hq. split_and!; auto.
  destruct H2 as [H2|[H2 H2']]; [auto|]. right. destruct (Hexp H2' H2). auto.
Qed.

(** What an answer shows is on record after it. *)
Lemma revealed_retained {X} (e : eff X) s x s' r :
  respond e s x s' → r ∈ reveals (Ev e x) → ∃ k record, Executions s' !! k = Some record ∧ er_Result record = Some r.
Proof.
  destruct e; cbn; intros Hx Hr; try (by apply not_elem_of_nil in Hr).
  - destruct x as [record|]; [|by apply not_elem_of_nil in Hr]. apply answers_read_Ok in Hx as [Hg ->].
    unfold GetExecution in Hg. destruct (Executions s !! id) as [record'|] eqn:Ek; simplify_eq. exists id, record.
    split; [done|]. destruct (er_Result record); set_solver.
  - destruct x as [records|]; [|by apply not_elem_of_nil in Hr]. apply answers_read_Ok in Hx as [[= <-] ->].
    apply list_elem_of_bind in Hr as (record & Hr & Hin). unfold ListExecutions in Hin.
    apply list_elem_of_fmap in Hin as ([k record'] & -> & Hin). rewrite sort_by_perm in Hin. apply elem_of_map_to_list in Hin.
    exists k, record'. split; [done|]. cbn in *. destruct (er_Result record'); set_solver.
  - destruct x as [[]|]; [|by apply not_elem_of_nil in Hr]. apply list_elem_of_singleton in Hr as ->.
    apply exec_answers_write_Ok in Hx. apply store_Ok in Hx as (_ & record & Hk & _ & [[Hr ->]|Hnew]); [by exists (r_OperationID r0), record|].
    destruct Hnew as (_&_&_&_&_&_&_&->). exists (r_OperationID r0). eexists. cbn. by rewrite lookup_insert_eq.
  - destruct x as [r'|]; [|by apply not_elem_of_nil in Hr]. apply list_elem_of_singleton in Hr as <-.
    destruct Hx as [[Hx ->]|[[? _]|(_ & e & _ & ?)]]; [|done..]. unfold ReadResult in *.
    destruct (Executions s !! id) as [record|] eqn:Ek; [|done]. destruct (er_ResultExpired record); [done|].
    destruct (er_Result record) as [r''|] eqn:Er; [|done]. case_decide; [done|]. cbn in *. simplify_eq. by exists id, record.
Qed.

(** All that was shown is on record, and nothing else was ever shown for its
    operation. *)
Definition on_record (evs : list (event eff)) (s : State) : Prop :=
  (∀ r, r ∈ revealed evs → ∃ record, Executions s !! r_OperationID r = Some record ∧ recorded record r ∧ Result_Validate r = Ok ()) ∧
  (∀ r r', r ∈ revealed evs → r' ∈ revealed evs → r_OperationID r = r_OperationID r' → r = r').

Lemma on_record_step {X} (e : eff X) evs s x s' :
  exec_wf s → exec_wf s' → on_record evs s → respond e s x s' → on_record (Ev e x :: evs) s'.
Proof.
  intros Hs Hs' [Hrec Huniq] Hx.
  assert (Hold : ∀ r, r ∈ revealed evs → ∃ record, Executions s' !! r_OperationID r = Some record ∧ recorded record r ∧ Result_Validate r = Ok ()).
  { intros r Hr. destruct (Hrec r Hr) as (record & Hk & Hr1 & Hv). destruct (respond_evolves e s x s' _ _ Hs Hx Hk) as (record' & ? & ?).
    exists record'. split_and!; [done|by eapply recorded_evolves|done]. }
  assert (Hnew : ∀ r, r ∈ reveals (Ev e x) → ∃ record, Executions s' !! r_OperationID r = Some record ∧ er_Result record = Some r).
  { intros r Hr. destruct (revealed_retained e s x s' r Hx Hr) as (k & record & Hk & Hres).
    destruct (retained_recorded s' k record r Hs' Hk Hres) as (<- & _). eauto. }
  split.
  - intros r [Hr|Hr]%elem_of_app; [|by apply Hold]. destruct (Hnew r Hr) as (record & Hk & Hres).
    destruct (retained_recorded s' _ record r Hs' Hk Hres) as (_ & ? & ?). eauto.
  - assert (Hmix : ∀ r r', r ∈ reveals (Ev e x) → r' ∈ revealed evs → r_OperationID r = r_OperationID r' → r = r').
    { intros r r' Hr Hr' Hop. destruct (Hnew r Hr) as (record & Hk & Hres). destruct (Hold r' Hr') as (record' & Hk' & (_ & Hor & _) & _).
      rewrite <- Hop in Hk'. simplify_eq. destruct Hor as [?|[? _]]; congruence. }
    intros r r' [Hr|Hr]%elem_of_app [Hr'|Hr']%elem_of_app Hop; [|by apply Hmix|symmetry; by apply Hmix|by apply Huniq].
    destruct (Hnew r Hr) as (record & Hk & Hres), (Hnew r' Hr') as (record' & Hk' & Hres'). rewrite Hop in Hk. congruence.
Qed.

(** ** The pool *)

Section guarantees.
Context (sha256 : string → string) (evidence_json : Evidence → string) (collector : option ResultCollector).
Context (sha256_length : ∀ s, String.length (sha256 s) = 32%nat).
Abbreviation evidence_of := (evidence_of sha256 evidence_json).
Abbreviation ObserveResult := (ObserveResult sha256 evidence_json).
Abbreviation derived_from := (derived_from sha256 evidence_json).
Abbreviation urespond := (urespond sha256 evidence_json collector).
Abbreviation usage_run := (usage_run sha256 evidence_json collector).
Abbreviation urule := (urule sha256 evidence_json).

(** The keys of the executions on record do not collide. *)
Definition collision_free (s : State) : Prop :=
  ∀ k k' r r', Executions s !! k = Some r → Executions s !! k' = Some r' →
    let input r := rq_OperationID (er_Request r) +:+ String NUL (rq_AttemptID (er_Request r)) in
    sha256 (input r) = sha256 (input r') → input r = input r'.

(** Errors that do not tell of a conflict. *)
Definition no_conflict (x : result unit) : Prop := ∀ e, x = Err e → Forall (λ c, c ∉ e) usage_conflicts.

Lemma plain_error (e : goerr) :
  e = [Canceled : sentinel] ∨ e = [ErrEvidenceUnavailable] ∨ e = [ErrEvidenceUnavailable; ErrInvalidResult : sentinel] →
  no_conflict (Err e).
Proof using Type.
  intros He e' [= <-]. unfold usage_conflicts. repeat constructor; destruct He as [-> | [-> | ->]]; by apply (bool_decide_unpack _).
Qed.

Lemma Result_invalid r e : Result_Validate r = Err e → e = [ErrInvalidResult : sentinel].
Proof using Type. unfold Result_Validate, bad_result. repeat case_match; congruence. Qed.

Lemma undisturbed {A} (a b : A) : rtc (=) a b → a = b.
Proof using Type. induction 1; congruence. Qed.

(** What a run of the collector does to the store. *)
Lemma collect_runs ctx r u x u' :
  Result_Validate r = Ok () → exec (@srespond) (=) (collect_evidence sha256 evidence_json ctx r) u (Some x) u' →
  (u' = u ∧ x = Ok ()) ∨ ∃ now, put_answers now (evidence_of r) u x u'.
Proof using sha256_length.
  intros Hv [[_ ?]|(u0 & now & u1 & <-%undisturbed & -> & Hx)]; [done|]. cbn [prog_bind prog_bind_def] in Hx.
  case_decide; [destruct Hx as [-> [?|?]]; simplify_eq; auto|]. rewrite derived_evidence_valid in Hx by done.
  destruct Hx as [[_ ?]|(u2 & y & u3 & <-%undisturbed & [now' Hp] & [-> [?|?]])]; simplify_eq. right. eauto.
Qed.

Lemma collector_runs ctx r u x u' :
  exec (@srespond) (=) (ObserveResult collector ctx r) u (Some x) u' →
  (u' = u ∧ no_conflict x) ∨ (Result_Validate r = Ok () ∧ ¬ unmetered r ∧ ∃ now, put_answers now (evidence_of r) u x u').
Proof using sha256_length.
  assert (Hret : ∀ y, no_conflict y → exec (@srespond) (=) (Ret y) u (Some x) u' → u' = u ∧ no_conflict x).
  { intros y Hy [-> [?|?]]; simplify_eq. auto. }
  intros Hx. assert (ctx = CtxNil ∨ ctx ≠ CtxNil) as [->|Hctx] by (destruct ctx; auto); [left; apply (Hret _ (plain_error _ (or_introl eq_refl)) Hx)|].
  unfold UsageApplication.ObserveResult in Hx.
  destruct collector as [[[] []]|]; try (left; refine (Hret _ (plain_error [ErrEvidenceUnavailable] _) _); [auto|by destruct ctx]).
  destruct (Result_Validate r) as [[]|e] eqn:Ev.
  2:{ left. refine (Hret _ (plain_error (ErrEvidenceUnavailable :: e) _) _); [rewrite (Result_invalid r e Ev); auto|by destruct ctx]. }
  destruct (decide (unmetered r)); [left; apply (Hret (Ok ())); [done|by destruct ctx]|].
  assert (Hx' : exec (@srespond) (=) (collect_evidence sha256 evidence_json ctx r) u (Some x) u') by (by destruct ctx).
  destruct (collect_runs ctx r u x u' Ev Hx') as [[-> ->]|?]; [by left|auto].
Qed.

(** ** What is called *)

(** The answer to a call that hands evidence to the store. *)
Definition exec_put (ev : event eff) : option (result unit) :=
  let '@Ev _ X e x := ev in
  match e in eff X return X → option (result unit) with EObserveResult _ _ => λ x, Some x | _ => λ _, None end x.

Definition store_put {X} (e : seff X) : X → option (result unit) :=
  match e in seff X return X → option (result unit) with SPut _ _ => λ x, Some x | _ => λ _, None end.

Definition put_event (ev : event ueff) : option (result unit) :=
  let '@Ev _ X e x := ev in
  match e in ueff X return X → option (result unit) with
  | UVert e => λ x, exec_part (Ev e x) ≫= exec_put
  | UStore e => store_put e
  end x.

(** The evidence a read returned. *)
Definition store_read_event {X} (e : seff X) : X → option (string * Time * Evidence) :=
  match e in seff X return X → option (string * Time * Evidence) with
  | SGetEvidence _ id now => λ x, match x with Ok e => Some (id, now, e) | Err _ => None end
  | _ => λ _, None
  end.

Definition read_event (ev : event ueff) : option (string * Time * Evidence) :=
  let '@Ev _ X e x := ev in
  match e in ueff X return X → option (string * Time * Evidence) with
  | UVert _ => λ _, None
  | UStore e => store_read_event e
  end x.

Lemma exec_respond_cases {X} (e : eff X) σ x σ' :
  exec_respond sha256 evidence_json collector e σ x σ' →
  respond e σ.1 x σ'.1 ∧
  ((σ'.2 = σ.2 ∧ exec_put (Ev e x) = None) ∨
   ∃ ctx r y, Ev e x = Ev (EObserveResult ctx r) y ∧
     exec (@srespond) (=) (ObserveResult collector ctx r) σ.2 (Some y) σ'.2).
Proof using Type. destruct e; cbn; intros [? ?]; (split; [done|]); eauto 10. Qed.

(** ** The history *)

Record usage_history (evs : list (event ueff)) (σ : shared) : Prop := mkUsageHistory {
  uh_record : on_record (upart evs) σ.1;
  uh_stored k e : us_values σ.2 !! k = Some e → derived_from (upart evs) e;
  uh_read ev id now e : ev ∈ evs → read_event ev = Some (id, now, e) →
    derived_from (upart evs) e ∧ ue_OperationID e = id ∧ now < ue_RetainedUntil e;
  uh_puts : collision_free σ.1 → ∀ ev x, ev ∈ evs → put_event ev = Some x → no_conflict x;
}.

Definition usage_inv (σ : shared) : Prop := exec_wf σ.1 ∧ usage_wf σ.2.

Lemma derived_mono tr tr' e : tr ⊆ tr' → derived_from tr e → derived_from tr' e.
Proof using Type. intros Hs (r & ? & ?). exists r. split; [|done]. by eapply revealed_mono. Qed.

Lemma on_record_sub evs evs' s : evs' ⊆ evs → on_record evs s → on_record evs' s.
Proof using Type. intros Hs%revealed_mono [H1 H2]. split; auto. Qed.

Lemma usage_history_perm evs evs' σ : evs ≡ₚ evs' → usage_history evs σ → usage_history evs' σ.
Proof using Type.
  intros Hp [H1 H2 H3 H4]. assert (Hs : evs ⊆ evs') by (intros ev; by rewrite Hp). assert (Hs' : evs' ⊆ evs) by (intros ev; by rewrite Hp).
  split.
  - by eapply on_record_sub; [apply upart_mono|].
  - intros k e Hk. eapply derived_mono; [by apply upart_mono|by eapply H2].
  - intros ev id now e Hev%Hs' He. destruct (H3 ev id now e Hev He) as (? & ? & ?). split_and!; [|done..]. by eapply derived_mono; [apply upart_mono|].
  - intros Hc ev x Hev. by apply H4, Hs'.
Qed.

(** Evidence derived from results on record does not conflict. *)
Lemma put_no_conflict tr s u e now x u' :
  usage_wf u → on_record tr s → (∀ k p, us_values u !! k = Some p → derived_from tr p) → collision_free s →
  derived_from tr e → put_answers now e u x u' → no_conflict x.
Proof using Type.
  intros Hu [Hrec Huniq] Hstored Hfree (r & Hr & Hv & _ & ->) Hput.
  assert (Htransport : ∀ err, usage_transport_error err → no_conflict (Err err)).
  { intros err Herr e' [= <-]. unfold usage_transport_error in Herr. rewrite !elem_of_cons, elem_of_nil in Herr.
    unfold usage_conflicts. repeat constructor; destruct Herr as [-> | [-> | [-> | [-> | [-> | []]]]]]; by apply (bool_decide_unpack _). }
  destruct Hput as [[Ha _]|[_ (err & Herr & ->)]]; [|auto]. unfold put_answer in Ha.
  destruct (Evidence_Validate _ now) as [[]|err] eqn:Ev.
  2:{ subst x. intros e' [= <-]. assert (err = [ErrInvalidEvidence] ∨ err = [ErrEvidenceExpired]) as Herr.
      { revert Ev. unfold Evidence_Validate, bad_evidence. repeat case_match; naive_solver. }
      unfold usage_conflicts. repeat constructor; destruct Herr as [-> | ->]; by apply (bool_decide_unpack _). }
  pose proof (file_verdict_spec (evidence_of r) u Hu) as Hs.
  destruct (file_verdict (evidence_of r) u); [destruct Ha as [->|(err & ? & ->)]; [done|auto]..|].
  destruct Hs as (k & p & Hp & Hne & Hsame). destruct (Hstored k p Hp) as (r' & Hr' & Hv' & _ & ->).
  assert (Hop : r_OperationID r = r_OperationID r'); [|by destruct Hne; rewrite (Huniq r r' Hr Hr' Hop)].
  destruct Hsame as [Hid|Hop]; [|done]. apply evidence_id_inj in Hid.
  destruct (Hrec r Hr) as (rec & Hk & (_ & _ & Ho & Hat) & _), (Hrec r' Hr') as (rec' & Hk' & (_ & _ & Ho' & Hat') & _).
  pose proof (Hfree _ _ rec' rec Hk' Hk) as Hf. cbn in Hf. rewrite Ho, Ho', Hat, Hat' in Hf. specialize (Hf Hid).
  apply Result_Validate_fields in Hv as (Hv & _), Hv' as (Hv' & _). symmetry. by destruct (key_input _ _ _ _ Hv' Hv Hf).
Qed.

(** ** Steps *)

Lemma usage_inv_step X (e : ueff X) tr σ x σ' :
  urule tr X e → usage_inv σ → urespond e σ x σ' → usage_inv σ' ∧ uplausible X e x.
Proof using sha256_length.
  intros Hr [Hs Hu] Hx. assert (Hput : ∀ ev now y, put_answers now ev σ.2 y σ'.2 → usage_wf σ'.2).
  { intros ev now y [-> | ->]%put_answers_next; [done|by apply put_next_wf]. }
  destruct e as [X [Y e|ctx id|ctx rq]|X e]; cbn in *.
  - apply exec_respond_cases in Hx as [Hx Hstore].
    destruct (respond_timely e σ.1 x σ'.1) as [? ?]; [|done..|].
    { intros cl Hc. destruct e; cbn in *; simplify_eq; done. }
    split; [|done]. split; [done|]. destruct Hstore as [[-> _]|(ctx & r & y & _ & Hc)]; [done|].
    destruct (collector_runs ctx r _ _ _ Hc) as [[-> _]|(_ & _ & now & ?)]; [done|by eapply Hput].
  - destruct Hx as [H1 H2]. unfold usage_inv. by rewrite H1, H2.
  - destruct Hx as [H1 H2]. unfold usage_inv. by rewrite H1, H2.
  - destruct Hx as [H1 Hx]. split; [|done]. unfold usage_inv. rewrite H1. split; [done|].
    destruct e; cbn in Hx; [by rewrite Hx..| |by destruct Hx as [-> _]]. destruct Hx as [now Hx]. by eapply Hput.
Qed.

(** The store is left alone, or takes evidence derived from what was shown. *)
Lemma store_effect X (e : ueff X) tr σ x σ' :
  urule tr X e → urespond e σ x σ' →
  (σ'.2 = σ.2 ∧ ∀ y, put_event (Ev e x) = Some y → no_conflict y) ∨
  ∃ ev now y, derived_from (upart tr) ev ∧ put_event (Ev e x) = Some y ∧ put_answers now ev σ.2 y σ'.2.
Proof using sha256_length.
  intros Hr Hx. destruct e as [X [Y e|ctx id|ctx rq]|X e]; cbn in Hr, Hx.
  - apply exec_respond_cases in Hx as [_ [[-> Hn]|(ctx & r & y & He & Hc)]].
    { left. split; [done|]. intros y Hy. change (exec_put (Ev e x) = Some y) in Hy. congruence. }
    change (put_event (Ev (UVert (VExec e)) x)) with (exec_put (Ev e x)).
    change (event_rule observing (upart tr) (Ev e x)) in Hr.
    rewrite He in Hr |- *. cbn in Hr. destruct (collector_runs ctx r _ _ _ Hc) as [[-> Hn]|(Hv & Hm & now & Hp)].
    + left. split; [done|]. by intros y' [= <-].
    + right. exists (evidence_of r), now, y. split_and!; [|done..]. by exists r.
  - left. by destruct Hx as [_ ->].
  - left. by destruct Hx as [_ ->].
  - destruct Hx as [_ Hx]. destruct e; cbn in *; [by left..| |left; by destruct Hx as [-> _]].
    destruct Hx as [now Hx]. right. exists e, now, x. done.
Qed.

(** What was shown stays on record, and records are never taken back. *)
Lemma exec_effect X (e : ueff X) evs σ x σ' :
  usage_inv σ → exec_wf σ'.1 → on_record (upart evs) σ.1 → urespond e σ x σ' →
  on_record (upart (Ev e x :: evs)) σ'.1 ∧ (collision_free σ'.1 → collision_free σ.1).
Proof using Type.
  intros [Hs _] Hs' Hrec Hx. destruct e as [X [Y e|ctx id|ctx rq]|X e]; cbn in Hx.
  - apply exec_respond_cases in Hx as [Hx _]. split; [exact (on_record_step e (upart evs) σ.1 x σ'.1 Hs Hs' Hrec Hx)|].
    intros Hfree k k' r r' Hk Hk'. destruct (respond_evolves e _ _ _ _ _ Hs Hx Hk) as (r1 & Hr1 & Hq1 & _).
    destruct (respond_evolves e _ _ _ _ _ Hs Hx Hk') as (r2 & Hr2 & Hq2 & _).
    pose proof (Hfree k k' r1 r2 Hr1 Hr2) as H. cbn in H. by rewrite Hq1, Hq2 in H.
  - destruct Hx as [Hx _]. cbn in Hx. by rewrite Hx.
  - destruct Hx as [Hx _]. cbn in Hx. by rewrite Hx.
  - destruct Hx as [Hx _]. by rewrite Hx.
Qed.

(** A read returns what is stored. *)
Lemma read_effect X (e : ueff X) σ x σ' id now ev :
  urespond e σ x σ' → read_event (Ev e x) = Some (id, now, ev) →
  (∃ k, us_values σ.2 !! k = Some ev) ∧ ue_OperationID ev = id ∧ now < ue_RetainedUntil ev.
Proof using Type.
  intros Hx Hr. destruct e as [X e|X e]; cbn in Hr; [done|]. destruct Hx as [_ Hx]. destruct e; cbn in *; try done.
  destruct x as [ev'|]; simplify_eq. destruct Hx as [_ [(c & _ & Hread)|(err & _ & ?)]]; [|done].
  symmetry in Hread. unfold read_evidence in Hread. destruct (us_operationIndex σ.2 !! id) as [k|]; [|done].
  destruct (us_values σ.2 !! k) as [ev'|] eqn:Ek; [|done]. apply guard_Ok in Hread as [H1 Hread].
  apply guard_Ok in Hread as [H2 Hread]. simplify_eq. nor H2. apply dec_stable in H1, H2. eauto.
Qed.

Lemma usage_history_step X (e : ueff X) tr evs σ x σ' :
  urule tr X e → tr ⊆ evs → usage_inv σ → usage_history evs σ → urespond e σ x σ' → usage_history (Ev e x :: evs) σ'.
Proof using sha256_length.
  intros Hr Hsub Hinv [Hrec Hstored Hread Hputs] Hx. destruct (usage_inv_step X e tr σ x σ' Hr Hinv Hx) as [[Hs' _] _].
  destruct (exec_effect X e evs σ x σ' Hinv Hs' Hrec Hx) as [Hrec' Hfree].
  assert (Hmore : ∀ p, derived_from (upart evs) p → derived_from (upart (Ev e x :: evs)) p).
  { intros p. apply derived_mono, upart_mono. set_solver. }
  pose proof (store_effect X e tr σ x σ' Hr Hx) as Hstore.
  assert (Hder : ∀ p, derived_from (upart tr) p → derived_from (upart evs) p) by (intros p; by apply derived_mono, upart_mono).
  split.
  - done.
  - intros k p Hk. destruct Hstore as [[Hsame _]|(ev & now & y & Hev & _ & Hp)]; [apply Hmore, (Hstored k); congruence|].
    destruct (put_answers_next _ _ _ _ _ Hp) as [Hn|Hn]; rewrite Hn in Hk; [by eapply Hmore, Hstored|].
    unfold put_next in Hk. destruct (Evidence_Validate ev now); [|by eapply Hmore, Hstored].
    destruct (file_verdict ev σ.2); [|by eapply Hmore, Hstored..]. cbn in Hk. ins_inv Hk; [auto|by eapply Hmore, Hstored].
  - intros ev id now p [->|Hev]%elem_of_cons He; [|by destruct (Hread ev id now p Hev He) as (? & ? & ?); auto].
    destruct (read_effect X e σ x σ' id now p Hx He) as ([k Hk] & ? & ?). split_and!; [by eapply Hmore, Hstored|done..].
  - intros Hf ev y [->|Hev]%elem_of_cons Hy; [|by apply (Hputs (Hfree Hf) ev)].
    destruct Hstore as [[_ Hn]|(p & now & y' & Hp & Hy' & Hput)]; [auto|]. rewrite Hy in Hy'. injection Hy' as <-.
    apply (put_no_conflict (upart evs) σ.1 σ.2 p now y σ'.2); auto. apply Hinv.
Qed.

Lemma usage_pool σ ts : usage_run σ ts → usage_inv σ ∧ usage_history (events ts) σ.
Proof using sha256_length.
  intros Hrun. assert (Hinit : usage_inv (NewState, empty_usage)) by (split; [apply exec_wf_init|apply usage_wf_empty]). split.
  - by eapply (pool_lawful (@UsageConcurrency.urespond sha256 evidence_json collector) _ urule uplausible usage_inv) in Hrun as [? _];
      [|intros; by eapply usage_inv_step|apply usage_follows|].
  - eapply (pool_history (@UsageConcurrency.urespond sha256 evidence_json collector) _ urule uplausible usage_inv usage_history); [..|exact Hrun].
    + apply usage_history_perm.
    + apply usage_history_step.
    + intros. by eapply usage_inv_step.
    + apply usage_follows.
    + done.
    + split; [split; set_solver| |set_solver|set_solver]. intros k e. cbn. by rewrite lookup_empty.
Qed.

(** ** Guarantees *)

(** The evidence [e] is that of the result of its execution. *)
Definition measured (s : State) (e : Evidence) : Prop :=
  ∃ record r, Executions s !! ue_OperationID e = Some record ∧ recorded record r ∧ ¬ unmetered r ∧ e = evidence_of r.

Lemma derived_measured evs s e : on_record evs s → derived_from evs e → measured s e.
Proof using Type. intros [Hrec _] (r & Hr & Hv & Hm & ->). destruct (Hrec r Hr) as (record & Hk & Hd & _). by exists record, r. Qed.

(** C18 (safety): usage evidence agrees with the executions it is about.  Over every
    interleaving of requests, retries, cancellations, reads, recoveries and usage
    readers, with the collector as the coordinator's result observer and with
    failing writes of both stores: all evidence in the usage store, and all evidence
    a reader was ever given, is the one derived from the terminal result that the
    execution's record holds or held until it expired; it is returned for the
    operation asked for and before its retention ends; and, unless SHA-256 collides on
    the executions on record, no call of the collector ever meets conflicting
    evidence, however often a result is handed to it. *)
Theorem usage_agrees_with_executions σ ts :
  usage_run σ ts →
  (∀ k e, us_values σ.2 !! k = Some e → ue_EvidenceID e = k ∧ measured σ.1 e) ∧
  (∀ ctx id now e, Ev (UStore (SGetEvidence ctx id now)) (Ok e) ∈ events ts →
     ue_OperationID e = id ∧ now < ue_RetainedUntil e ∧ measured σ.1 e) ∧
  (collision_free σ.1 → ∀ ctx r e c,
     Ev (UVert (VExec (EObserveResult ctx r))) (Err e) ∈ events ts → c ∈ usage_conflicts → c ∉ e).
Proof using sha256_length.
  intros [[_ Hu] [Hrec Hstored Hread Hputs]]%usage_pool. split_and!.
  - intros k e Hk. destruct (uw_value _ Hu k e Hk) as (? & _). split; [done|]. by eapply derived_measured, Hstored.
  - intros ctx id now e Hev. destruct (Hread _ id now e Hev eq_refl) as (? & ? & ?). split_and!; [done..|]. by eapply derived_measured.
  - intros Hf ctx r e c Hev. generalize c. apply Forall_forall. exact (Hputs Hf _ (Err e) Hev eq_refl e eq_refl).
Qed.
End guarantees.

(** ** A run: an execution is accepted, observed and read, and its usage is read *)

Module UsageRuns.
Definition hash (_ : string) : string := "0123456789abcdef0123456789abcdef".
Definition json (_ : Evidence) : string := "{}".
Definition collector : option ResultCollector := Some (mkResultCollector true true).
Definition reader : option UsageReader := Some (mkUsageReader true true collector).
Definition time : Time := ExecRuns.t0 + 3 * Second.

Definition shandle {X} (e : seff X) : UsageMemory → X * UsageMemory :=
  match e in seff X return UsageMemory → X * UsageMemory with
  | SNow => λ w, (time, w)
  | SCtxErr _ => λ w, (None, w)
  | SPut _ e => memory_Put None time e
  | SGetEvidence _ id now => λ w, (memory_GetEvidence None id now w, w)
  end.

Definition UsageWorld : Type := World * UsageMemory.
Definition usage_abs (w : UsageWorld) : shared := (abs w.1, um_state w.2).

Definition ehandle {X} (e : eff X) : UsageWorld → X * UsageWorld :=
  match e in eff X return UsageWorld → X * UsageWorld with
  | EObserveResult ctx r => λ w, let '(x, u) := interp (@shandle) (ObserveResult hash json collector ctx r) w.2 in (x, (w.1, u))
  | e => λ w, let '(x, w') := handle PoolRuns.runtime e w.1 in (x, (w', w.2))
  end.

Definition vuhandle {X} (e : veff X) : UsageWorld → X * UsageWorld :=
  match e in veff X return UsageWorld → X * UsageWorld with
  | VExec e => ehandle e
  | e => λ w, let '(x, w') := VerticalRuns.vhandle PoolRuns.runtime e w.1 in (x, (w', w.2))
  end.

Definition uhandle {X} (e : ueff X) : UsageWorld → X * UsageWorld :=
  match e in ueff X return UsageWorld → X * UsageWorld with
  | UVert e => vuhandle e
  | UStore e => λ w, let '(x, u) := shandle e w.2 in (x, (w.1, u))
  end.

Lemma shandle_responds X (e : seff X) w : srespond e (um_state w) (shandle e w).1 (um_state (shandle e w).2).
Proof.
  destruct e; [done|done|exists time; apply memory_Put_answers|split; [done|apply memory_GetEvidence_answers]].
Qed.

Lemma ehandle_responds X (e : eff X) w :
  exec_respond hash json collector e (usage_abs w) (ehandle e w).1 (usage_abs (ehandle e w).2).
Proof.
  pose proof (exec_handle_responds PoolRuns.runtime e w.1) as H.
  destruct e; cbn [ehandle exec_respond]; try (destruct (handle _ _ w.1) as [x w']; by split).
  pose proof (interp_exec (@srespond) (=) (@shandle) um_state (ObserveResult hash json collector ctx r) w.2 shandle_responds) as Hx.
  destruct (interp _ _ _) as [x u]. by split.
Qed.

Lemma uhandle_responds X (e : ueff X) w :
  urespond hash json collector e (usage_abs w) (uhandle e w).1 (usage_abs (uhandle e w).2).
Proof.
  destruct e as [X [Y e|ctx id|ctx rq]|X e]; cbn [uhandle vuhandle urespond vert_respond]; [apply ehandle_responds|done|done|].
  pose proof (shandle_responds X e w.2) as H. destruct (shandle e w.2) as [x u]. by split.
Qed.

Definition calls : list (Program.prog ueff ()) :=
  [usage_prog hash json VerticalRuns.vertical (ApiVertical (ApiAcceptExec CtxCaller ExecRuns.request));
   usage_prog hash json VerticalRuns.vertical (ApiVertical (ApiReadOperation CtxCaller "exec-1"));
   usage_prog hash json VerticalRuns.vertical (ApiVertical (ApiVerticalRecover CtxCaller));
   usage_prog hash json VerticalRuns.vertical (ApiGetEvidence reader CtxCaller "exec-1" time)].
Definition world : UsageWorld := (PoolRuns.world, mkUsageMemory empty_usage false).
Definition final : list (thread ueff) * UsageWorld := pool_of (@uhandle) calls world [].

Lemma usage_final_run : usage_run hash json collector (usage_abs final.2) final.1.
Proof.
  apply (pool_sequence (@uhandle) (@urespond hash json collector) (usage_spawn hash json) usage_abs uhandle_responds calls world []).
  repeat (apply Forall_cons; split; [by eexists VerticalRuns.vertical, _|]). apply Forall_nil_2.
Qed.
End UsageRuns.

Lemma usage_agrees_with_executions_witness :
  ∃ k e, us_values (um_state UsageRuns.final.2.2) !! k = Some e ∧ en_Quantity <$> ue_Entries e = [1000; 1] ∧
    measured UsageRuns.hash UsageRuns.json (abs UsageRuns.final.2.1) e.
Proof.
  destruct (map_to_list (us_values (um_state UsageRuns.final.2.2))) as [|[k e] l] eqn:El; [vm_compute in El; discriminate El|].
  assert (Hk : us_values (um_state UsageRuns.final.2.2) !! k = Some e) by (apply elem_of_map_to_list; rewrite El; left).
  exists k, e. split; [exact Hk|]. split; [vm_compute in El; injection El as _ <- _; reflexivity|].
  destruct (usage_agrees_with_executions UsageRuns.hash UsageRuns.json UsageRuns.collector (λ s, eq_refl) _ _ UsageRuns.usage_final_run)
    as [H _]. exact (proj2 (H k e Hk)).
Defined.
