(* ===== verification/UsageBrowser.v ===== *)
(** * Usage of browser sessions: [provider/browser/usage], [newProviderUsageReader]

    Evidence of the duration of a browser session is projected from its record: as
    partial evidence while the session is open, and once, as complete evidence that
    is stored, when it has ended.  [newProviderUsageReader] of [cmd/serve.go]
    composes this reader with the reader of executions, over one store.  SHA-256 and
    the JSON encoding of evidence are parameters, as are the sessions. *)

From S2P Require Import Prelude Program BrowserModel ExecModel Threads ExecPorts Operations ExecVertical UsageStore UsageApplication UsageConcurrency ExecGuarantees UsageGuarantees.
From stdpp Require Import base gmap strings list fin_maps relations.
From Stdlib Require Import Ascii ZArith Lia.

Local Open Scope Z_scope.

Definition BrowserUsageErrInvalid : sentinel := SNamed "browser/usage" "ErrInvalid".
Definition BrowserUsageErrUnavailable : sentinel := SNamed "browser/usage" "ErrUnavailable".

(** Ends of the session that were observed. *)
Record StopTimes := mkStopTimes { st_EndpointTerminatedAt : option Time; st_SandboxTerminatedAt : option Time }.

Definition stop_times (stops : StopTimes) : list Time :=
  option_list (st_EndpointTerminatedAt stops) ++ option_list (st_SandboxTerminatedAt stops).

Section browser.
Context (sha256 : string → string) (evidence_json : Evidence → string).

Definition browser_evidenceKey (operationID attemptID : string) : string :=
  hex_encode (sha256 (operationID +:+ String NUL attemptID)).

Definition browser_digestEvidence (e : Evidence) : string :=
  "sha256:" +:+ hex_encode (sha256 (evidence_json (with_digest e ""))).

(** An observed end that is not after the one found so far. *)
Definition stop_early (t : option Time) (found : Time * bool) : Time * bool :=
  match t with
  | Some t => if decide (¬ After t found.1) then (t, true) else found
  | None => found
  end.

(** When the session stopped, and whether it has. *)
Definition session_stop (record : BrowserRecord) (now : Time) (stops : StopTimes) : Time * bool :=
  let expiresAt := bq_ExpiresAt (br_Request record) in
  let stopAt := if decide (Before now expiresAt) then now else expiresAt in
  stop_early (st_SandboxTerminatedAt stops)
    (stop_early (st_EndpointTerminatedAt stops) (stopAt, bool_decide (¬ Before now expiresAt))).

(** The evidence of a session that lasted until [stopAt]. *)
Definition browser_evidence (record : BrowserRecord) (stopAt : Time) (complete : bool) (retainedUntil : Time) : Evidence :=
  let rq := br_Request record in
  let key := browser_evidenceKey (bq_OperationID rq) (bq_AttemptID rq) in
  let reference := "ref:usage/browser-" +:+ key in
  let status := if complete then ReconciliationComplete else ReconciliationPartial in
  let evidence :=
    mkUsageEvidence ("browser-usage-" +:+ key) (bq_SandboxID rq) (bq_OperationID rq) (bq_AttemptID rq) (bq_FencingToken rq)
      [mkEntry ("browser-duration-" +:+ key) (bq_SandboxID rq) (bq_OperationID rq) MeterBrowserSession
         (Milliseconds (Sub stopAt (br_ObservedAt record))) "milliseconds" SourceRuntime reference stopAt]
      status stopAt retainedUntil "" in
  with_digest evidence (browser_digestEvidence evidence).

Definition BuildEvidenceWithStops (record : BrowserRecord) (now : Time) (stops : StopTimes) (retainedUntil : Time)
    : result Evidence :=
  if decide (is_ok (BrowserModel.Record_Validate record) = false ∨ br_Status record ≠ BrowserModel.StatusSucceeded
             ∨ br_Handoff record = None ∨ ¬ allocation_running record) then Err [BrowserUsageErrUnavailable] else
  if decide (IsZero now ∨ Before now (br_ObservedAt record) ∨ IsZero retainedUntil ∨ ¬ After retainedUntil (br_ObservedAt record))
  then Err [BrowserUsageErrInvalid] else
  if decide (Exists (λ endedAt, Before endedAt (br_ObservedAt record) ∨ After endedAt now) (stop_times stops))
  then Err [BrowserUsageErrInvalid] else
  let '(stopAt, complete) := session_stop record now stops in
  let evidence := browser_evidence record stopAt complete retainedUntil in
  match Evidence_Validate evidence stopAt with
  | Err e => Err (BrowserUsageErrUnavailable :: e)
  | Ok _ => Ok evidence
  end.

Definition BuildEvidence (record : BrowserRecord) (now retainedUntil : Time) : result Evidence :=
  BuildEvidenceWithStops record now (mkStopTimes None None) retainedUntil.

(** ** The collector *)

Record BrowserCollector := mkBrowserCollector { bc_Store : bool; bc_Clock : bool; bc_RetainedFor : Z }.

Definition CollectWithStops (c : BrowserCollector) (ctx : Context) (record : BrowserRecord) (stops : StopTimes)
    : Program.prog seff (result Evidence) :=
  if decide (bc_Store c = false ∨ bc_Clock c = false ∨ bc_RetainedFor c ≤ 0) then Ret (Err [BrowserUsageErrUnavailable]) else
  now ← call SNow;
  match BuildEvidenceWithStops record now stops (now + bc_RetainedFor c) with
  | Err e => Ret (Err e)
  | Ok evidence =>
      if decide (ue_ReconciliationStatus evidence ≠ ReconciliationComplete) then Ret (Err [BrowserUsageErrUnavailable]) else
      stored ← call (SPut ctx evidence);
      match stored with
      | Err e => Ret (Err (BrowserUsageErrUnavailable :: e))
      | Ok _ => Ret (Ok evidence)
      end
  end.

Definition Collect (c : BrowserCollector) (ctx : Context) (record : BrowserRecord) : Program.prog seff (result Evidence) :=
  CollectWithStops c ctx record (mkStopTimes None None).

(** ** The reader *)

Section reader.
Context {F : Type → Type} (store : ∀ X, seff X → F X) (listOpen : Context → Program.prog F (result (list BrowserRecord))).

(** Which of its ports a reader has, and for how long it retains evidence. *)
Record BrowserReader := mkBrowserReader { bd_sessions : bool; bd_store : bool; bd_retainedFor : Z }.

Definition NewBrowserReader (sessions has_store : bool) (retainedFor : Z) : result BrowserReader :=
  if decide (sessions = false ∨ has_store = false ∨ retainedFor ≤ 0) then Err [BrowserUsageErrUnavailable]
  else Ok (mkBrowserReader sessions has_store retainedFor).

(** The one record of an operation. *)
Fixpoint find_session (operationID : string) (records : list BrowserRecord) (found : option BrowserRecord)
    : result (option BrowserRecord) :=
  match records with
  | [] => Ok found
  | record :: records =>
      if decide (bq_OperationID (br_Request record) = operationID) then
        match found with
        | Some _ => Err [ErrEvidenceUnavailable]
        | None => find_session operationID records (Some record)
        end
      else find_session operationID records found
  end.

(** The evidence of a session at [now], stored when it is complete. *)
Definition project_session (retainedFor : Z) (ctx : Context) (now : Time) (record : BrowserRecord)
    : Program.prog F (result Evidence) :=
  if decide (br_Status record ≠ BrowserModel.StatusSucceeded ∨ br_Handoff record = None)
  then Ret (Err [ErrEvidenceUnavailable]) else
  let retainedUntil := bq_ExpiresAt (br_Request record) + retainedFor in
  if decide (¬ Before now retainedUntil) then Ret (Err [ErrEvidenceExpired]) else
  match BuildEvidence record now retainedUntil with
  | Err _ => Ret (Err [ErrEvidenceUnavailable])
  | Ok evidence =>
      if decide (ue_ReconciliationStatus evidence = ReconciliationComplete) then
        stored ← call (store _ (SPut ctx evidence));
        match stored with Err _ => Ret (Err [ErrEvidenceUnavailable]) | Ok _ => Ret (Ok evidence) end
      else Ret (Ok evidence)
  end.

(** What the reader does when nothing is stored. *)
Definition derive_session (retainedFor : Z) (ctx : Context) (operationID : string) (now : Time)
    : Program.prog F (result Evidence) :=
  records ← listOpen ctx;
  match records with
  | Err _ =>
      contextErr ← call (store _ (SCtxErr ctx));
      Ret (Err (default [ErrEvidenceUnavailable] contextErr))
  | Ok records =>
      match find_session operationID records None with
      | Err e => Ret (Err e)
      | Ok None => Ret (Err [ErrEvidenceNotFound])
      | Ok (Some record) => project_session retainedFor ctx now record
      end
  end.

(** A nil reader is [None]. *)
Definition browser_GetEvidence (r : option BrowserReader) (ctx : Context) (operationID : string) (now : Time)
    : Program.prog F (result Evidence) :=
  match ctx with
  | CtxNil => Ret (Err [Canceled : sentinel])
  | _ =>
      match r with
      | Some (mkBrowserReader true true retainedFor) =>
          if decide (operationID = "" ∨ IsZero now) then Ret (Err [ErrEvidenceUnavailable]) else
          evidence ← call (store _ (SGetEvidence ctx operationID now));
          match evidence with
          | Ok e => Ret (Ok e)
          | Err e =>
              if errors_is e ErrEvidenceExpired then Ret (Err e) else
              if negb (errors_is e ErrEvidenceNotFound) then Ret (Err [ErrEvidenceUnavailable]) else
              derive_session retainedFor ctx operationID now
          end
      | _ => Ret (Err [ErrEvidenceUnavailable])
      end
  end.

(** ** The composition of [cmd/serve.go] *)

(** [usage.EvidenceReader] with its context. *)
Definition UsageSource : Type := Context → string → Time → Program.prog F (result Evidence).

(** The methods of the exec application that a reader uses. *)
Record ExecApplication := mkExecApplication {
  ea_ReadOperation : Context → string → Program.prog F (result View);
  ea_GetResult : Context → string → Program.prog F (result Result);
}.

Definition exec_source (app : ExecApplication) (r : UsageReader) : UsageSource :=
  reader_GetEvidence sha256 evidence_json store (ea_ReadOperation app) (ea_GetResult app) (Some r).

Definition is_nil (ctx : Context) : bool := match ctx with CtxNil => true | _ => false end.

Definition aggregated (readers : list UsageSource) : result UsageSource :=
  _ ← NewUsageAggregator ((λ reader : UsageSource, Some (reader CtxNil)) <$> readers);
  Ok (λ ctx, aggregator_GetEvidence (Some ((λ reader : UsageSource, reader ctx) <$> readers)) (is_nil ctx)).

(** [browserUsage] is [browserApp.usage]; no application is [None]. *)
Definition newProviderUsageReader (enabled has_store : bool) (collector : option ResultCollector)
    (execApp : option ExecApplication) (browserUsage : option BrowserReader) : result (option UsageSource) :=
  if negb enabled then Ok None else
  if decide (has_store = false ∨ collector = None)
  then Err [ErrExternal "Provider usage requires a composed durable store and collector"] else
  readers ← match execApp with
            | Some app => reader ← NewUsageReader has_store true collector; Ok [exec_source app reader]
            | None => Ok []
            end;
  match readers ++ option_list ((λ r, browser_GetEvidence (Some r)) <$> browserUsage) with
  | [] => Err [ErrExternal "Provider usage requires a composed evidence source"]
  | [reader] => Ok (Some reader)
  | readers => aggregator ← aggregated readers; Ok (Some aggregator)
  end.
End reader.
End browser.

(** ** When a session stopped *)

(** The earliest of now, the expiry and the observed ends. *)
Definition session_end (record : BrowserRecord) (now : Time) (stops : StopTimes) : Time :=
  foldr Z.min (Z.min now (bq_ExpiresAt (br_Request record))) (stop_times stops).

(** The session expired or was seen to end. *)
Definition settled (record : BrowserRecord) (now : Time) (stops : StopTimes) : Prop :=
  bq_ExpiresAt (br_Request record) ≤ now ∨ stop_times stops ≠ [].
#[export] Instance settled_dec record now stops : Decision (settled record now stops).
Proof. unfold settled. apply _. Defined.

Lemma session_stop_spec record now stops :
  Forall (λ t, t ≤ now) (stop_times stops) →
  session_stop record now stops = (session_end record now stops, bool_decide (settled record now stops)).
Proof.
  unfold session_stop, session_end, settled, stop_early, stop_times, Before, After, Time.
  destruct stops as [[t|] [t'|]]; cbn; rewrite ?Forall_cons, ?Forall_nil;
    repeat case_decide; cbn in *; intros; f_equal; try lia; try (apply bool_decide_ext); try (symmetry; apply bool_decide_eq_true_2);
    intuition (try discriminate; try lia).
Qed.

Lemma session_end_bounds record now stops :
  br_ObservedAt record ≤ now → br_ObservedAt record < bq_ExpiresAt (br_Request record) →
  Forall (λ t, br_ObservedAt record ≤ t ≤ now) (stop_times stops) →
  br_ObservedAt record ≤ session_end record now stops ≤ bq_ExpiresAt (br_Request record).
Proof.
  unfold session_end. intros H1 H2 H3. induction H3 as [|t l Ht _ IH]; cbn; unfold Time in *; lia.
Qed.

(** ** The records that are metered *)

Definition metered (record : BrowserRecord) : Prop :=
  BrowserModel.Record_Validate record = Ok () ∧ br_Status record = BrowserModel.StatusSucceeded.

Lemma metered_fields record :
  metered record →
  is_Some (br_Handoff record) ∧ allocation_running record ∧ br_ObservedAt record < bq_ExpiresAt (br_Request record) ∧
  ExecModel.identifierPattern (bq_OperationID (br_Request record)) = true ∧
  ExecModel.identifierPattern (bq_AttemptID (br_Request record)) = true ∧
  ExecModel.identifierPattern (bq_SandboxID (br_Request record)) = true ∧ 1 ≤ bq_FencingToken (br_Request record).
Proof.
  intros [Hv Hs]. unfold BrowserModel.Record_Validate, BrowserModel.refuse in Hv. rewrite Hs in Hv. crack Hv.
  rewrite decide_False in Hv by auto. destruct (br_Handoff record) as [h|]; [|done]. destruct (br_Allocation record); [|done].
  crack Hv. unfold OpenRequest_Validate, BrowserModel.refuse, BrowserModel.identifiers in Hguard0. crack Hguard0.
  rewrite !Forall_cons in *. destruct_and!. split; [done|]. split; [apply dec_stable; tauto|]. split_and!; try done. lia.
Qed.

Section exactness.
Context (sha256 : string → string) (evidence_json : Evidence → string).
Context (sha256_length : ∀ s, String.length (sha256 s) = 32%nat).
Abbreviation browser_evidence := (browser_evidence sha256 evidence_json).
Abbreviation BuildEvidenceWithStops := (BuildEvidenceWithStops sha256 evidence_json).
Abbreviation BuildEvidence := (BuildEvidence sha256 evidence_json).

Lemma browser_reference op attempt : referencePattern ("ref:usage/browser-" +:+ browser_evidenceKey sha256 op attempt) = true.
Proof using sha256_length.
  destruct (key_shape sha256 sha256_length op attempt) as [Hl Ha].
  unfold referencePattern, ExecModel.referencePattern, after_prefix.
  change ("ref:usage/browser-" +:+ browser_evidenceKey sha256 op attempt)
    with ("ref:" +:+ String "u" ("sage/browser-" +:+ evidenceKey sha256 op attempt)).
  rewrite cut_prefix_app. unfold opaque_reference. cbn [match_head_tail].
  by rewrite all_bytes_app, length_string_app, Hl, (alnum_ref (evidenceKey sha256 op attempt)).
Qed.

(** The evidence of a metered session passes its checks, the times aside. *)
Lemma browser_evidence_valid record t complete ret :
  metered record → br_ObservedAt record ≤ t →
  Evidence_Validate (browser_evidence record t complete ret) t = Ok () ↔ t ≠ 0 ∧ ret ≠ 0 ∧ t < ret.
Proof using sha256_length.
  intros (_ & _ & _ & Ho & Ha & Hs & Hf)%metered_fields Ht.
  assert (Hentries : t ≠ 0 → forallb (entry_correlated (browser_evidence record t complete ret))
    (ue_Entries (browser_evidence record t complete ret)) = true).
  { intros Hz. assert (Hq : 0 ≤ Milliseconds (Sub t (br_ObservedAt record))) by (unfold Milliseconds, Sub; apply Z.quot_pos; unfold Time in *; lia).
    cbn [browser_evidence UsageBrowser.browser_evidence with_digest ue_Entries forallb]. unfold entry_correlated, Entry_Validate. cbn.
    unfold Time in *. rewrite !andb_true_iff. split_and!; [|apply bool_decide_eq_true_2; split; [done|by right]|done].
    rewrite decide_False; [done|]. intros [Hx|[Hx|[[_ Hx]|[Hx|[Hx|Hx]]]]];
      rewrite ?browser_reference in Hx; [rewrite (key_identifier sha256 sha256_length "browser-duration-") in Hx by done|..];
      unfold identifierPattern, IsZero in *; try congruence; lia. }
  unfold Evidence_Validate. split.
  - intros H. apply guard_Ok in H as [H _]. cbn in H. nor H. unfold IsZero, After in *. boolify. split_and!; [done..|]. by apply dec_stable.
  - intros (Hz & Hr & Hlt). rewrite Hentries by done. cbn [negb]. cbn. unfold Time, IsZero, After, Before in *. rewrite decide_False.
    2:{ intros [Hx|[Hx|[Hx|[Hx|[Hx|[Hx|[Hx|[Hx|[Hx|[Hx|Hx]]]]]]]]]];
        [rewrite (key_identifier sha256 sha256_length "browser-usage-") in Hx by done|..];
        unfold browser_digestEvidence in Hx; rewrite ?digest_shape in Hx by done;
        unfold identifierPattern, MaxEntries in *; try congruence; try lia; done. }
    rewrite decide_False by (destruct complete; naive_solver). by rewrite decide_False by auto.
Qed.

(** The session is metered, the times are in order, and [e] says how long it lasted. *)
Definition exact_evidence (record : BrowserRecord) (now : Time) (stops : StopTimes) (ret : Time) (e : Evidence) : Prop :=
  metered record ∧ now ≠ 0 ∧ br_ObservedAt record ≤ now ∧ Forall (λ t, br_ObservedAt record ≤ t ≤ now) (stop_times stops) ∧
  session_end record now stops ≠ 0 ∧ ret ≠ 0 ∧ session_end record now stops < ret ∧
  e = browser_evidence record (session_end record now stops) (bool_decide (settled record now stops)) ret.

Lemma BuildEvidence_exact record now stops ret e :
  BuildEvidenceWithStops record now stops ret = Ok e ↔ exact_evidence record now stops ret e.
Proof using sha256_length.
  unfold UsageBrowser.BuildEvidenceWithStops, exact_evidence, Before, After, IsZero. split.
  - intros H. crack H. rewrite <- Forall_Exists_neg in *.
    assert (Hm : metered record) by done. pose proof (metered_fields record Hm) as (_ & _ & Hlt & _).
    assert (Hstops : Forall (λ t, br_ObservedAt record ≤ t ≤ now) (stop_times stops))
      by (eapply Forall_impl; [eassumption|]; cbn; unfold Time; lia).
    rewrite session_stop_spec in H by (eapply Forall_impl; [exact Hstops|]; cbn; unfold Time; lia).
    assert (Hle : br_ObservedAt record ≤ now) by (unfold Time in *; lia).
    destruct (session_end_bounds record now stops Hle Hlt Hstops).
    destruct (Evidence_Validate _ _) as [[]|] eqn:Hv; [|done]. injection H as <-. apply browser_evidence_valid in Hv; [|done..].
    destruct_and!. done.
  - intros (Hm & Hn & Hle & Hstops & Hz & Hr & Hlt & ->). pose proof (metered_fields record Hm) as (Hh & Hrun & Hexp & _).
    destruct (session_end_bounds record now stops Hle Hexp Hstops). destruct Hm as [Hv Hs].
    rewrite decide_False. 2:{ rewrite Hv. intros [?|[?|[Hx|?]]]; try done. rewrite Hx in Hh. by apply is_Some_None in Hh. }
    rewrite decide_False by (unfold Time in *; lia). rewrite decide_False.
    2:{ apply Forall_Exists_neg. eapply Forall_impl; [exact Hstops|]. cbn. unfold Time. lia. }
    rewrite session_stop_spec by (eapply Forall_impl; [exact Hstops|]; cbn; unfold Time; lia).
    by rewrite (proj2 (browser_evidence_valid record _ _ ret (conj Hv Hs) H)).
Qed.

(** C33 (functional): evidence of a browser session is exact.  It is built precisely for
    a valid record of an open session, at a time that is not before the record was
    last observed, with observed ends in between, and while it is to be retained; its
    end is the earliest of the time, the expiry of the session and the observed
    ends; it is complete precisely when the session expired or was seen to end; its only
    entry says in milliseconds, rounded down, how long it lasted (within the range of
    Go's durations), which is not longer than it was allowed to last; and complete evidence of an expiry does not depend on when it
    is built, so that storing it again is a replay. *)
Theorem browser_usage_is_exact record now stops ret e :
  (BuildEvidenceWithStops record now stops ret = Ok e ↔ exact_evidence record now stops ret e) ∧
  (BuildEvidenceWithStops record now stops ret = Ok e →
   length (ue_Entries e) = 1%nat ∧ ∀ entry, entry ∈ ue_Entries e →
   0 ≤ 1000000 * en_Quantity entry ≤ bq_ExpiresAt (br_Request record) - br_ObservedAt record ∧
   en_Meter entry = MeterBrowserSession ∧ en_Unit entry = "milliseconds" ∧
   let lasted := Z.min (session_end record now stops - br_ObservedAt record) (2^63 - 1) in
   1000000 * en_Quantity entry ≤ lasted < 1000000 * (en_Quantity entry + 1)) ∧
  (∀ now' e', BuildEvidence record now ret = Ok e → BuildEvidence record now' ret = Ok e' →
   ue_ReconciliationStatus e = ReconciliationComplete → ue_ReconciliationStatus e' = ReconciliationComplete → e = e').
Proof using sha256_length.
  split; [apply BuildEvidence_exact|]. split.
  - intros (Hm & _ & Hle & Hstops & _ & _ & _ & ->)%BuildEvidence_exact. split; [done|]. intros entry. pose proof (metered_fields record Hm) as (_ & _ & Hexp & _).
    pose proof (session_end_bounds record now stops Hle Hexp Hstops). cbn. rewrite list_elem_of_singleton. intros ->. cbn.
    unfold Milliseconds, Sub. set (d := Z.max _ _).
    assert (Hd : 0 ≤ d ≤ bq_ExpiresAt (br_Request record) - br_ObservedAt record) by (unfold d, Time in *; lia).
    assert (Hlast : Z.min (session_end record now stops - br_ObservedAt record) (2^63 - 1) = d) by (unfold d, Time in *; lia).
    rewrite Z.quot_div_nonneg by lia. pose proof (Z.mul_div_le d 1000000). pose proof (Z.div_pos d 1000000).
    pose proof (Z.mul_succ_div_gt d 1000000). split; [lia|]. split; [done|]. split; [done|]. rewrite Hlast. lia.
  - assert (Hend : ∀ t, settled record t (mkStopTimes None None) →
      session_end record t (mkStopTimes None None) = bq_ExpiresAt (br_Request record))
      by (intros t [?|?]; [unfold session_end; cbn; unfold Time in *; lia|done]).
    intros now' e' (_ & _ & _ & _ & _ & _ & _ & ->)%BuildEvidence_exact (_ & _ & _ & _ & _ & _ & _ & ->)%BuildEvidence_exact.
    case_bool_decide as H1; [|by intros ?]. case_bool_decide as H2; [|by intros ? ?]. intros _ _. by rewrite !Hend.
Qed.
End exactness.

(** ** Stored evidence is served

    [store] are the calls of the usage store among the ports [F], whose answers and
    interference concern [usage], the store's part of the configuration. *)

(** Evidence of an operation that can be read. *)
Definition readable (u : UsageState) (operationID : string) (now : Time) (e : Evidence) : Prop :=
  ∃ k, us_operationIndex u !! operationID = Some k ∧ us_values u !! k = Some e ∧ ue_OperationID e = operationID ∧
    now ≠ 0 ∧ now < ue_RetainedUntil e.

Definition store_extends (u u' : UsageState) : Prop :=
  us_values u ⊆ us_values u' ∧ us_operationIndex u ⊆ us_operationIndex u'.

Lemma readable_extends u u' id now e : store_extends u u' → readable u id now e → readable u' id now e.
Proof. intros [Hv Hi] (k & ? & ? & ?). exists k. split_and!; [by eapply lookup_weaken|by eapply lookup_weaken|tauto..]. Qed.

Lemma readable_answer u id now e x : readable u id now e → get_answers id now u x → x = Ok e ∨ ∃ err, usage_transport_error err ∧ x = Err err.
Proof.
  intros (k & Hi & Hv & Hop & Hn & Hlt) [(c & _ & ->)|?]; [left|by right]. unfold read_evidence. rewrite Hi, Hv.
  rewrite decide_False by auto. rewrite decide_False; [done|]. unfold IsZero, Before. intros [?|?]; [done|lia].
Qed.

Lemma transport_is_other err : usage_transport_error err → errors_is err ErrEvidenceExpired = false ∧ errors_is err ErrEvidenceNotFound = false.
Proof.
  unfold usage_transport_error. rewrite !elem_of_cons, elem_of_nil. intros [-> | [-> | [-> | [-> | [-> | []]]]]]; done.
Qed.

Section shared.
Context (sha256 : string → string) (evidence_json : Evidence → string).
Context {F : Type → Type} {C : Type} (store : ∀ X, seff X → F X) (listOpen : Context → Program.prog F (result (list BrowserRecord))).
Context (respond : ∀ X, F X → C → X → C → Prop) (interfere : C → C → Prop) (usage : C → UsageState).
Context (store_answers : ∀ X (e : seff X) σ x σ', respond X (store X e) σ x σ' → srespond e (usage σ) x (usage σ')).
Context (store_kept : ∀ σ σ', interfere σ σ' → store_extends (usage σ) (usage σ')).
Abbreviation runs p σ o σ' := (exec respond interfere p σ (Some o) σ').
Abbreviation exec_source := (exec_source sha256 evidence_json store).
Abbreviation browser_GetEvidence := (browser_GetEvidence sha256 evidence_json store listOpen).
Abbreviation newProviderUsageReader := (newProviderUsageReader sha256 evidence_json store listOpen).

Lemma readable_kept σ σ' id now e : rtc interfere σ σ' → readable (usage σ) id now e → readable (usage σ') id now e.
Proof using store_kept. induction 1; [done|]. intros ?. by eauto using readable_extends. Qed.

(** A read of what can be read returns it, or an error of the store. *)
Lemma stored_read {A} ctx id now e (k : result Evidence → Program.prog F A) σ x σ' :
  readable (usage σ) id now e → runs (call (store _ (SGetEvidence ctx id now)) ≫= k) σ x σ' →
  ∃ σ1, readable (usage σ1) id now e ∧ (runs (k (Ok e)) σ1 x σ' ∨ ∃ err, usage_transport_error err ∧ runs (k (Err err)) σ1 x σ').
Proof using store_answers store_kept.
  intros He. cbn [call mbind prog_bind prog_bind_def exec]. intros [[_ ?]|(σ0 & y & σ1 & Hi & Hr & Hk)]; [done|].
  apply store_answers in Hr as [Hsame Hg]. pose proof (readable_kept _ _ _ _ _ Hi He) as He0. exists σ1. rewrite Hsame. split; [done|].
  destruct (readable_answer _ _ _ _ _ He0 Hg) as [->|(err & ? & ->)]; [by left|right; eauto].
Qed.

(** Errors that only tell that the evidence is unavailable. *)
Definition only_unavailable (err : goerr) : Prop :=
  ∃ err', err = ErrEvidenceUnavailable :: err' ∧ (err' = [] ∨ usage_transport_error err').

Definition answers_stored (e : Evidence) (x : result Evidence) : Prop := x = Ok e ∨ ∃ err, x = Err err ∧ only_unavailable err.

Lemma unavailable_alone : only_unavailable [ErrEvidenceUnavailable].
Proof using Type. exists []. auto. Qed.

(** A reader that returns what it finds in the store. *)
Definition looks_first (id : string) (now : Time) (p : Program.prog F (result Evidence)) : Prop :=
  p = Ret (Err [ErrEvidenceUnavailable]) ∨
  ∃ ctx k, p = call (store _ (SGetEvidence ctx id now)) ≫= k ∧ (∀ e, k (Ok e) = Ret (Ok e)) ∧
    ∀ err, usage_transport_error err → ∃ err', k (Err err) = Ret (Err err') ∧ only_unavailable err'.

Lemma looks_first_stored id now p e σ x σ' :
  looks_first id now p → readable (usage σ) id now e → runs p σ x σ' → answers_stored e x ∧ readable (usage σ') id now e.
Proof using store_answers store_kept.
  intros [->|(ctx & k & -> & Hok & Herr)] He Hx.
  { destruct Hx as [-> [?|?]]; simplify_eq. split; [right; eauto using unavailable_alone|done]. }
  apply stored_read with (e := e) in Hx as (σ1 & He1 & [Hx|(err & Ht & Hx)]); [| |done].
  - rewrite Hok in Hx. destruct Hx as [-> [?|?]]; simplify_eq. split; [by left|done].
  - destruct (Herr err Ht) as (err' & Hk & ?). rewrite Hk in Hx. destruct Hx as [-> [?|?]]; simplify_eq. split; [right; eauto|done].
Qed.

Lemma exec_looks_first app r ctx id now : is_nil ctx = false → now ≠ 0 → looks_first id now (exec_source app r ctx id now).
Proof using Type.
  intros Hctx Hn. unfold UsageBrowser.exec_source, reader_GetEvidence. destruct r as [[] [] [c|]]; try (left; by destruct ctx).
  right. exists ctx. eexists. split; [destruct ctx; [done|..]; by rewrite decide_False|]. split; [done|]. intros err Ht. cbn.
  destruct (transport_is_other err Ht) as [-> ->]. eexists. split; [done|]. exists err. auto.
Qed.

Lemma browser_looks_first r ctx id now :
  is_nil ctx = false → id ≠ "" → now ≠ 0 → looks_first id now (browser_GetEvidence (Some r) ctx id now).
Proof using Type.
  intros Hctx Hid Hn. unfold UsageBrowser.browser_GetEvidence. destruct r as [[] [] d]; try (left; by destruct ctx).
  right. exists ctx. eexists. split; [destruct ctx; [done|..]; rewrite decide_False by (by intros [? | ?]); reflexivity|]. split; [done|].
  intros err Ht. cbn. destruct (transport_is_other err Ht) as [-> ->]. eexists. split; [done|apply unavailable_alone].
Qed.

(** Of executions and browser sessions a server is configured with one only: they
    require different lifecycle drivers ([config/server.go]).  Then evidence in the
    store is returned, unless the store fails. *)
Theorem stored_evidence_is_served collector execApp browser ctx id now e σ reader x σ' :
  is_nil ctx = false → id ≠ "" → readable (usage σ) id now e → execApp = None ∨ browser = None →
  newProviderUsageReader true true (Some collector) execApp browser = Ok (Some reader) →
  runs (reader ctx id now) σ x σ' → x = Ok e ∨ ∃ err, x = Err err ∧ only_unavailable err.
Proof using store_answers store_kept.
  intros Hctx Hid He Hone Hr Hx. assert (Hn : now ≠ 0) by (by destruct He as (? & ? & ? & ? & ? & ?)).
  enough (Hlooks : looks_first id now (reader ctx id now)) by (by apply (looks_first_stored id now) with (e := e) in Hx as [Hx _]).
  destruct execApp as [app|], browser as [r|]; [by destruct Hone| | |done]; injection Hr as <-;
    [by apply exec_looks_first|by apply browser_looks_first].
Qed.
End shared.

(** ** Runs: an open session, and the usage of an execution *)

Module BrowserUsageRuns.
Definition digest : string := "sha256:0123456789abcdef0123456789abcdef0123456789abcdef0123456789abcdef".
Definition t0 : Time := ExecRuns.t0.
Definition request : OpenRequest :=
  mkOpenRequest "sandbox-1" "revision-1" "open-1" "attempt-1" 1 "key-1" digest (t0 + 100 * Second) 1 "browser-1"
    CapabilityProfileID (t0 + 90 * Second).
Definition receipt : AllocationReceipt :=
  mkReceipt "ref:browser/0123456789abcdef0123456789abcdef" "sandbox-1" "browser-1" "open-1" "attempt-1" 1 1 1
    (t0 + 10 * Second) (t0 + 90 * Second).
Definition opened : result BrowserRecord :=
  record ← NewRecord request t0;
  record ← AttachAllocation record receipt;
  Transition record BrowserModel.StatusSucceeded (t0 + 20 * Second) (Some (mkEndpointEvidence "ref:browser-session:abc" 1)).
Definition record : BrowserRecord := default (mkBrowserRecord request BrowserModel.StatusAccepted t0 t0 false None None)
  (match opened with Ok r => Some r | Err _ => None end).

Definition memory : UsageMemory :=
  (interp (@UsageRuns.shandle) (ObserveResult UsageRuns.hash UsageRuns.json UsageRuns.collector CtxCaller ExecRuns.result)
     (mkUsageMemory empty_usage false)).2.
Definition app : ExecApplication (F := seff) :=
  mkExecApplication (λ _ _, Ret (Err [Operations.ErrNotFound] : result View)) (λ _ _, Ret (Err [ErrEvidenceNotFound] : result Result)).
Definition provider (browser : option BrowserReader) : result (option (UsageSource (F := seff))) :=
  newProviderUsageReader UsageRuns.hash UsageRuns.json (λ X e, e) (λ _, Ret (Ok [])) true true UsageRuns.collector (Some app) browser.
Definition read (browser : option BrowserReader) : option (result Evidence) :=
  match provider browser with
  | Ok (Some reader) => Some (interp (@UsageRuns.shandle) (reader CtxCaller "exec-1" UsageRuns.time) memory).1
  | _ => None
  end.
End BrowserUsageRuns.

Lemma browser_usage_is_exact_witness :
  ∃ e, BuildEvidenceWithStops UsageRuns.hash UsageRuns.json BrowserUsageRuns.record (BrowserUsageRuns.t0 + 50 * Second)
         (mkStopTimes (Some (BrowserUsageRuns.t0 + 30 * Second)) None) (BrowserUsageRuns.t0 + 200 * Second) = Ok e ∧
    en_Quantity <$> ue_Entries e = [10000] ∧ ue_ReconciliationStatus e = ReconciliationComplete ∧
    exact_evidence UsageRuns.hash UsageRuns.json BrowserUsageRuns.record (BrowserUsageRuns.t0 + 50 * Second)
      (mkStopTimes (Some (BrowserUsageRuns.t0 + 30 * Second)) None) (BrowserUsageRuns.t0 + 200 * Second) e.
Proof.
  eexists. split; [vm_compute; reflexivity|]. split; [reflexivity|]. split; [reflexivity|].
  apply (browser_usage_is_exact UsageRuns.hash UsageRuns.json (λ s, eq_refl)). vm_compute. reflexivity.
Defined.

(** Evidence of an execution, read back. *)
Lemma stored_evidence_is_served_witness :
  ∃ e x, BrowserUsageRuns.read None = Some x ∧ (x = Ok e ∨ ∃ err, x = Err err ∧ only_unavailable err).
Proof.
  destruct (BrowserUsageRuns.provider None) as [[reader|]|] eqn:Hp; [|discriminate Hp..].
  destruct (us_values (um_state BrowserUsageRuns.memory) !! ue_EvidenceID (evidence_of UsageRuns.hash UsageRuns.json ExecRuns.result))
    as [e|] eqn:He; [|vm_compute in He; discriminate He].
  exists e, (Ok e). split; [vm_compute in He; injection He as <-; vm_compute; reflexivity|].
  apply (stored_evidence_is_served UsageRuns.hash UsageRuns.json (λ X e, e) (λ _, Ret (Ok [])) (@srespond) (=) (λ u, u)
    (λ X e σ x σ' H, H) ltac:(by intros σ σ' ->) (mkResultCollector true true) (Some BrowserUsageRuns.app) None CtxCaller
    "exec-1" UsageRuns.time e (um_state BrowserUsageRuns.memory) reader (Ok e) (um_state (interp (@UsageRuns.shandle) (reader CtxCaller "exec-1" UsageRuns.time) BrowserUsageRuns.memory).2)); try done; [|by right|].
  - eexists. split; [vm_compute; reflexivity|]. vm_compute in He. injection He as <-. done.
  - pose proof (interp_exec (@srespond) (=) (@UsageRuns.shandle) um_state (reader CtxCaller "exec-1" UsageRuns.time)
      BrowserUsageRuns.memory UsageRuns.shandle_responds) as Hx.
    injection Hp as <-. vm_compute in He. injection He as <-. exact Hx.
Defined.
